(* ===== verification/_CoqProject ===== *)
-Q . S2P
Prelude.v
Types.v
GoText.v
Config.v
Heap.v
HeapFacts.v
Scope.v
Topo.v
TopoFacts.v
Renumber.v
Graph.v
Lease.v
Memory.v
Watch.v
Subscribe.v
Manager.v
Snapshot.v
File.v
ListFacts.v
Invariant.v
ScopeFacts.v
DepFacts.v
Evolve.v
Terminate.v
LeaseFacts.v
EdgeFacts.v
NodeFacts.v
GraphFacts.v
GraphOps.v
Removal.v
Machine.v
Advance.v
Emit.v
Trace.v
LogFrames.v
Progress.v
Scenario.v
FileProps.v
DataProps.v
RunProps.v
GraphProps.v
LeaseProps.v
SubscribeProps.v
ManagerProps.v
Maintenance.v
WatchProps.v
SnapshotProps.v
Family.v
MapSum.v
PgDb.v
PgTopo.v
PgEngine.v
PgGraph.v
PgLease.v
PgAdmin.v
PgInv.v
PgTerminate.v
PgTopoFacts.v
PgLinkFacts.v
PgLeaseFacts.v
PgBatch.v
PgBodies.v
PgStore.v
PgScenario.v
PgProps.v
PgReads.v
PgFindings.v
RedisData.v
RedisScripts.v
RedisStore.v
RedisInv.v
RedisLease.v
RedisGraph.v
RedisGraphOps.v
RedisRun.v
RedisProps.v
Http.v
Grpc.v
AdapterProps.v
