(* ===== verification/Prelude.v ===== *)
(** * dagworker, verified

    dagworker schedules the nodes of dependency graphs to workers that take
    leases on them.  This library models its core, written in Go, as functions
    and proves what makes it correct.

    ** The program

    - The domain: statuses, trigger rules, retry policies, configuration,
      validation, errors, requests and results ([status.go], [node.go],
      [event.go], [store.go], [errors.go], [config.go], [identifier.go],
      [backoff.go]).
    - [internal/pq]: a binary heap with a position index.
    - [storage/memory]: the reference backend.  A store is a table of scopes; a
      scope holds one graph in arrays indexed by handle, a topological order
      kept up incrementally, three heaps (ready, leased, waiting for a retry),
      counters, and a ring of events, under one mutex.
    - [storage/file]: the same store behind a gate that records and replays the
      clock and the jitter, with a command log and snapshots on disk.
    - The manager ([manager.go], [claim.go], [subscribe.go]): a validating
      facade over any backend, which publishes the effects of its calls to
      bounded subscriptions and runs a maintenance loop.
    - [storage/postgres]: the same operations as SQL transactions on four tables,
      with an engine that gathers counter changes per transaction, retries of
      conflicting transactions, and a doorbell fed by LISTEN/NOTIFY.
    - [storage/redis]: the same operations as Lua scripts over the hashes, sets,
      sorted sets and the stream of a scope, each script atomic on the server,
      with Go code that sends them and waits on subscriptions.
    - [adapters/http], [adapters/grpc]: the manager over HTTP with JSON and over
      gRPC, with lease identifiers, error tables and authorizers.
    - The typed facade, the daemon and the conformance suite.

    ** Where what is modelled

    - [Prelude] (this file): record update, machine integers, generic lemmas.
    - [Types], [Config]: the domain.  A [uint32], [uint64] or [int64] is a [Z]
      with [u32], [u64], [i64] at every place where the code can wrap.
    - [Heap]: [internal/pq/pq.go], operation by operation.
    - [Scope]: [scope.go] and the recording half of [watch.go].  [scope] is the
      Go struct; slices indexed by handle are lists, maps are [gmap]s, a
      channel closed to wake its waiters is a generation number.  The clock and
      the jitter are the class [ClockSource]: an operation takes a source and
      returns it advanced.
    - [Topo]: [topo.go], the Pearce-Kelly order.
    - [Graph], [Lease]: [graph.go] and [lease.go]; [scope_X] is method [X]
      under the lock, with every early return.
    - [Memory]: [memory.go]; a store with its methods, which find or create
      their scope and run [scope_X] on it.
    - [Watch]: the blocking half of [watch.go]; [WaitForWork] up to its
      [select], and [pump] as a step function.
    - [Subscribe]: the filters of [event.go] and [subscribe.go]; a subscription
      is a bounded channel whose consumer may receive between any two channel
      operations of the producer, and the manager's tables hold pointers into a
      list of subscriptions.
    - [Manager]: [manager.go], [claim.go], [options_node.go] and the manager's
      part of [config.go], over the class [Backend], which has a field per
      method of the interface [Store] and of its optional facets;
      [memory_backend] is its instance for the in-memory store.
    - [Snapshot]: [snapshot.go].
    - [File], [LogFrames]: [storage/file]; the gate, logged commands, replay,
      opening, compaction, and the bytes of the log.

    - [PgDb], [PgTopo], [PgEngine], [PgGraph], [PgLease], [PgAdmin]:
      [storage/postgres].  The database is a record of tables ([gmap]s keyed by
      id, edge and scope, the log as a list) and of the next values of its
      sequences; a statement is a function on it, and a row is stored only
      within the column types and CHECK constraints of the migrations.  A call
      is a computation in the monad [M]: it may fail at any statement, a failed
      transaction restores the tables but not the sequences, and a commit, or a
      statement outside of a transaction ([autocommit]), may be refused or go
      unanswered.  The class [Server] holds what the sources do
      not fix (faults, clock, jitter, the order of rows no ORDER BY fixes), the
      class [Collation] the order of text.  Transactions run one after the other;
      what concurrency adds is the conflicts the server answers with, which
      [retryTransient] sees.

    - [GoText]: what the sources use of [strings], [strconv], [encoding/binary]
      and [encoding/base64].
    - [RedisData], [RedisScripts], [RedisStore]: [storage/redis].  [keys] is what
      the keys of one scope hold; the names of the keys of two scopes coincide
      only if a name contains a closing brace, and the theorems about several
      scopes say so.  A script is a computation that breaks off where Lua raises
      an error, keeping what it has written.  The server's clock, its random
      numbers, the order of its sets and how far it trims a stream are
      parameters, as is the JSON of labels; a command sent by the store may be
      lost or run more than once.  A Lua number is an integer, exact below 2^53.
    - [Http], [Grpc]: [adapters/http] and [adapters/grpc], request by request over
      the manager of [Manager]; decoders, the text of durations and the
      protobuf encoding of a task token are parameters.

    Go's [range] over a map has no order: where the order can show, the model
    takes it as an argument ([visit]).  Loops without a structural bound have
    fuel: the fan-out of a terminated node ([terminate_fuel], edges plus two),
    the loops that pop a heap (its size plus one), the searches of the
    topological order (one step per node and edge), the frames of a log (its
    length).  [terminate_terminates] and the exactness theorems about [Claim],
    [Sweep] and [addEdgeOrder] show that the fuel is enough.  In the PostgreSQL
    model the cascade has edges plus two rounds, each search one per node, and
    running out is the error [Diverged], which [pg_calls_end] excludes.  The Lua
    loops have the same bounds over the keys (edges plus two for the cascade,
    nodes plus two for the searches, the size of an index for its scans), and
    running out is the error [NoFuel], which [redis_calls_sound] excludes.

    ** How the proofs are organised

    - [HeapFacts]: the heap against a set with a priority ([good]);
      [ListFacts]: sorting and the pages of a listing.
    - [Renumber]: Pearce and Kelly's redistribution of ranks, for any graph;
      [TopoFacts], [EdgeFacts]: the topological order of the in-memory backend
      as an instance of it.
    - [Invariant]: [inv], what holds whenever the mutex is free, and
      [settled], what the scheduler promises about blocked and ready nodes.
    - [ScopeFacts], [DepFacts], [Evolve], [Terminate]: the functions of
      [scope.go] preserve it.
    - [LeaseFacts], [EdgeFacts], [NodeFacts], [GraphFacts], [GraphOps],
      [Removal]: the operations, their exact effect, and the rollback
      of rejected batches.
    - [Machine]: a scope as a transition system, one step per call; [steps]
      are its runs.  [Progress]: epochs, final outcomes and absence of deadlock
      along runs.
    - [Advance]: what every operation does to the log and to the doorbell.
    - [Emit]: the effects an operation returns are the events it logs.
    - [Trace]: the readings an operation consumes determine what it does.
    - [Machine], [Family]: the store's methods implement an abstract step on one
      scope; a store is a family of runs.
    - [Scenario]: a concrete graph for the examples.
    - [MapSum]: sums over finite maps.  [PgInv]: weakest preconditions for the
      monad, with one rule per statement, and the invariant of the tables, up to the counter changes still pending and the counters
      collection has lost.  [PgTerminate], [PgLeaseFacts], [PgTopoFacts],
      [PgLinkFacts], [PgBatch], [PgBodies]: the functions of the engine and the
      bodies of the transactions preserve it.  [PgBodies], [PgStore]: a call with
      its transactions and retries; a store as a machine of calls.
      [PgScenario]: a server that follows a script, for the examples.
    - [RedisInv]: the invariant of the keys and the step every script takes;
      [RedisLease], [RedisGraph], [RedisGraphOps]: the scripts preserve it, with
      the exact effect of claims and of refused batches.  [RedisRun]: a store as
      a machine of commands on several scopes.

    ** What the theorems show

    - [RunProps], [Family]: over every run, the invariant, fencing of
      superseded leases, no premature lease, no deadlock, final outcomes,
      bounded retries, acyclicity; and that all of it holds of every scope of a
      store.
    - [GraphProps]: graph changes are atomic and exact; cycles are detected
      exactly; cancellation and collection touch what they should.
    - [LeaseProps]: exclusiveness, order and limits of claims; completion,
      extension and sweeping.
    - [DataProps]: trigger rules, back-off, lease bounds, the
      heap as a queue, counters and listing.
    - [WatchProps]: subscriptions without gaps, no lost wakeup.
    - [SubscribeProps], [ManagerProps], [Maintenance]: what a subscriber sees
      under either overflow policy; that the manager's subscribers are offered
      exactly what the store logs; that maintenance is on time, for any backend
      that keeps configurations while it sweeps ([SteadyConfig]).
    - [SnapshotProps], [FileProps], [LogFrames]: restoring renames handles, a
      command and its replay agree; snapshots, replay and torn logs; and where recovery falls short of what the comments promise.

    - [PgProps]: after any calls on any server, the tables are well typed and
      the graph in them is sound, the counters are exact, epochs do not repeat, a
      failed call leaves nothing behind, every call ends, and a completion has
      the outcome it reports.  [PgReads]: claims take the best node within their
      limits, the order of the graph, configuration, pages and the pump of a
      watch.  [PgFindings]: the doorbell, the listening goroutine, retries, and
      where collection, settling, migration, re-adding and resuming do otherwise
      than they mean to.
    - [RedisProps]: after any commands the keys of a scope agree (up to what
      collection and a refused removal of edges leave, which [excuse] names),
      epochs do not repeat, scopes do not mix, a refused batch is undone, claims
      take the best score, a completion has the outcome it reports, and the Lua
      rules, scores and ranks are those of the Go code.
    - [AdapterProps]: a lease identifier handed out over HTTP leads back to its
      lease, and a report on a lease that is not current changes nothing.

    ** Not modelled

    The typed facade and [Handle], which wrap caller functions; of the adapters,
    the HTTP and gRPC servers around the handlers, JSON and protobuf; of Redis,
    the server and the client library beyond the parameters above; of PostgreSQL, the interleaving of the statements of two transactions, row
    locks and the connection pool; the daemon (flags, process start and stop); the
    conformance suite and the end-to-end tests.  Of the modelled files:
    formatted error texts, logging, contexts (but for the cases of [select]
    they enable), and file-system calls, of which only success or
    failure shows. *)
From Stdlib Require Export ZArith Lia.
From stdpp Require Export base tactics strings sorting relations gmap list.

(** ** Record update

    Go code assigns to one field of a struct at a time.  [r <| f := v |>] is
    the struct [r] after [r.f = v]; [r <| f ::= g |>] applies [g] to the old
    value of the field.  A record type declares its field list once, as an
    [Eta] instance, and the setter of each field is computed from it. *)

Class Eta (R : Type) := eta : R -> R.

Class Setter {R T : Type} (proj : R -> T) := set : (T -> T) -> R -> R.

Arguments set {R T} proj {_} _ _ /.

Ltac build_setter proj :=
  lazymatch type of proj with
  | ?R -> ?T =>
    let e := eval hnf in (@eta R _) in
    lazymatch eval pattern proj in e with
    | ?k _ =>
      let s := eval cbv beta in (fun (f : T -> T) => k (fun r : R => f (proj r))) in
      exact s
    end
  end.

#[export] Hint Extern 1 (Setter ?proj) => build_setter proj : typeclass_instances.

Declare Scope dag_scope.
Delimit Scope dag_scope with dag.
Open Scope dag_scope.

Notation "r <| f := v |>" := (set f (fun _ => v) r)
  (at level 1, f at level 1, left associativity) : dag_scope.
Notation "r <| f ::= g |>" := (set f g r)
  (at level 1, f at level 1, left associativity) : dag_scope.

(** ** Machine integers

    A [w]-bit integer is a [Z]; the functions below are the conversions that
    wrap, written at every place where the Go code adds to, subtracts from or
    converts a fixed-width integer. *)

Definition u32 (z : Z) : Z := (z mod 2 ^ 32)%Z.
Definition u64 (z : Z) : Z := (z mod 2 ^ 64)%Z.
Definition i64 (z : Z) : Z := ((z + 2 ^ 63) mod 2 ^ 64 - 2 ^ 63)%Z.
Definition max_u32 : Z := (2 ^ 32 - 1)%Z.
Definition max_i64 : Z := (2 ^ 63 - 1)%Z.

(** ** Automation *)

(** Split the first [if] or [match] of the goal on a boolean comparison into
    its arithmetic meaning. *)
Ltac split_cmp :=
  match goal with
  | |- context [(?a <? ?b)%Z] => destruct (Z.ltb_spec a b)
  | |- context [(?a <=? ?b)%Z] => destruct (Z.leb_spec a b)
  | |- context [(?a =? ?b)%Z] => destruct (Z.eqb_spec a b)
  | |- context [(?a <? ?b)] => destruct (Nat.ltb_spec a b)
  | |- context [(?a <=? ?b)] => destruct (Nat.leb_spec a b)
  end.

(** Facts about wrap-around that close the goals machine integers leave. *)
Create HintDb wrap.

(** ** Generic lemmas *)

Section Lists.
Context {A : Type}.

Lemma lookup_total_alter `{!Inhabited A} (f : A -> A) (l : list A) h x :
  alter f h l !!! x = if decide (x = h /\ h < length l) then f (l !!! h) else l !!! x.
Proof.
  case_decide as E.
  - destruct E as [-> E]. rewrite !list_lookup_total_alt, list_lookup_alter_eq.
    destruct (lookup_lt_is_Some_2 l h E) as [v ->]. done.
  - destruct (decide (x = h)) as [->|Hne]; [|by rewrite list_lookup_total_alter_ne].
    rewrite !list_lookup_total_alt, list_lookup_alter_eq.
    by rewrite lookup_ge_None_2 by (apply not_lt; tauto).
Qed.

Lemma lookup_total_insert `{!Inhabited A} (l : list A) h x v :
  <[h := v]> l !!! x = if decide (x = h /\ h < length l) then v else l !!! x.
Proof.
  case_decide as E.
  - destruct E as [-> E]. by rewrite list_lookup_total_insert_eq.
  - destruct (decide (x = h)) as [->|Hne]; [|by rewrite list_lookup_total_insert_ne].
    by rewrite list_insert_ge by (apply not_lt; tauto).
Qed.

Lemma lookup_total_snoc `{!Inhabited A} (l : list A) v x :
  (l ++ [v]) !!! x = if decide (x = length l) then v else l !!! x.
Proof.
  case_decide as E; [subst; by rewrite list_lookup_total_middle|].
  destruct (decide (x < length l)); [by rewrite lookup_total_app_l|].
  rewrite !list_lookup_total_alt. rewrite !lookup_ge_None_2; [done|lia|rewrite length_app; simpl; lia].
Qed.

(** Number of elements a boolean test accepts. *)
Fixpoint count (P : A -> bool) (l : list A) : nat :=
  match l with
  | [] => 0
  | x :: l => Nat.b2n (P x) + count P l
  end.

Lemma count_app P l k : count P (l ++ k) = count P l + count P k.
Proof. induction l; simpl; lia. Qed.

Lemma count_le_length P l : count P l <= length l.
Proof. induction l as [|x l IH]; simpl; [done|]. destruct (P x); simpl; lia. Qed.

Lemma count_alter P f l i x :
  l !! i = Some x -> count P (alter f i l) + Nat.b2n (P x) = count P l + Nat.b2n (P (f x)).
Proof.
  revert i. induction l as [|y l IH]; intros [|i] Hi; simplify_eq/=; [lia|].
  change (alter f (S i) (y :: l)) with (y :: alter f i l). simpl. specialize (IH i Hi). lia.
Qed.

Lemma count_insert P l i x v :
  l !! i = Some x -> count P (<[i := v]> l) + Nat.b2n (P x) = count P l + Nat.b2n (P v).
Proof.
  revert i. induction l as [|y l IH]; intros [|i] Hi; simplify_eq/=; [lia|]. specialize (IH i Hi). lia.
Qed.

Lemma count_delete P l i x : l !! i = Some x -> count P l = Nat.b2n (P x) + count P (delete i l).
Proof.
  revert i. induction l as [|y l IH]; intros [|i] Hi; simplify_eq/=; [done|]. rewrite (IH i Hi). lia.
Qed.

Lemma count_ext P Q l : (forall x, x ∈ l -> P x = Q x) -> count P l = count Q l.
Proof.
  induction l as [|x l IH]; intros H; simpl; [done|]. rewrite (H x) by left.
  f_equal. apply IH. intros y Hy. apply H. by right.
Qed.

Lemma count_pos P l x : x ∈ l -> P x = true -> 0 < count P l.
Proof.
  intros [i Hi]%list_elem_of_lookup Hp. rewrite (count_delete P l i x Hi), Hp. simpl. lia.
Qed.

Lemma count_zero P l : count P l = 0 <-> forall x, x ∈ l -> P x = false.
Proof.
  split.
  - intros H x Hx. destruct (P x) eqn:E; [|done]. pose proof (count_pos P l x Hx E). lia.
  - induction l as [|y l IH]; intros H; simpl; [done|]. rewrite (H y) by left. simpl.
    apply IH. intros x Hx. apply H. by right.
Qed.

Lemma count_mono P l l' :
  length l = length l' -> (forall i x y, l !! i = Some x -> l' !! i = Some y -> P x = true -> P y = true) ->
  count P l <= count P l'.
Proof.
  revert l'. induction l as [|x l IH]; intros [|y l'] Hl H; simplify_eq/=; [done|].
  pose proof (H 0 x y eq_refl eq_refl). specialize (IH l' Hl (fun i => H (S i))).
  destruct (P x), (P y); simpl; try lia; naive_solver.
Qed.

Lemma StronglySorted_weaken (R R' : relation A) l :
  (forall a b, R a b -> R' a b) -> StronglySorted R l -> StronglySorted R' l.
Proof. intros H. induction 1 as [|a l _ IH Hf]; constructor; [done|]. eapply Forall_impl; [exact Hf|auto]. Qed.

Lemma NoDup_fmap_on {B : Type} (f : A -> B) (l : list A) :
  (forall x y, x ∈ l -> y ∈ l -> f x = f y -> x = y) -> NoDup l -> NoDup (f <$> l).
Proof. intros Hf Hn. apply NoDup_fmap_2_strong; [|done]. auto. Qed.

End Lists.

(** A filter that keeps everything. *)
Lemma filter_all_true {A : Type} (P : A -> Prop) `{!forall x, Decision (P x)} (l : list A) :
  (forall x, x ∈ l -> P x) -> filter P l = l.
Proof.
  induction l as [|x l IH]; intros Hl; [done|]. rewrite filter_cons_True by (apply Hl; left).
  f_equal. apply IH. intros y Hy. apply Hl. by right.
Qed.

Lemma u64_add_l a b : u64 (u64 a + b) = u64 (a + b).
Proof. unfold u64. by rewrite Zplus_mod_idemp_l. Qed.

Lemma u64_small a : (0 <= a < 2 ^ 64)%Z -> u64 a = a.
Proof. intros. unfold u64. by apply Z.mod_small. Qed.

Lemma u64_idemp a : u64 (u64 a) = u64 a.
Proof. unfold u64. by rewrite Zmod_mod. Qed.

Lemma u32_small a : (0 <= a < 2 ^ 32)%Z -> u32 a = a.
Proof. intros. unfold u32. by apply Z.mod_small. Qed.

Lemma i64_small a : (- 2 ^ 63 <= a < 2 ^ 63)%Z -> i64 a = a.
Proof. intros. unfold i64. rewrite Z.mod_small; lia. Qed.

#[export] Hint Resolve u64_small u32_small i64_small : wrap.
#[export] Hint Rewrite u64_add_l u64_idemp : wrap.
