(* ===== verification/Types.v ===== *)
(** * The public data model

    The enumerations, structs and errors of the root package: [status.go],
    [node.go], [event.go], [errors.go] and the data of [store.go].  An
    enumeration of Go is a [uint8] with named values; where a value outside
    the named ones can reach the code (it comes from a caller), the type has a
    last constructor [..Other n] for it, so that the code's own check against
    the largest named value can be stated. *)
From S2P Require Import Prelude.

(** ** [status.go] *)

Inductive Status :=
| StatusNew | StatusInProgress | StatusSuccess | StatusError
| StatusOther (n : Z).

Inductive Reason :=
| ReasonNone | ReasonWorkerError | ReasonTimeout | ReasonUpstreamFailed
| ReasonSkipped | ReasonCancelled | ReasonRemoved
| ReasonOther (n : Z).

Inductive Phase :=
| PhaseBlocked | PhaseScheduled | PhaseReady | PhaseClaimed | PhaseDone.

#[export] Instance Status_eq_dec : EqDecision Status.
Proof. solve_decision. Defined.
#[export] Instance Reason_eq_dec : EqDecision Reason.
Proof. solve_decision. Defined.
#[export] Instance Phase_eq_dec : EqDecision Phase.
Proof. solve_decision. Defined.
#[export] Instance Phase_inhabited : Inhabited Phase := populate PhaseBlocked.

Definition Status_Terminal (s : Status) : bool :=
  bool_decide (s = StatusSuccess) || bool_decide (s = StatusError).

(** [Phase.Status]: the public status an internal phase maps onto. *)
Definition Phase_Status (p : Phase) : Status :=
  match p with
  | PhaseBlocked | PhaseScheduled | PhaseReady => StatusNew
  | PhaseClaimed => StatusInProgress
  | PhaseDone => StatusError
  end.

(** ** [node.go] *)

Inductive TriggerRule :=
| TriggerAllSuccess | TriggerAllDone | TriggerNoneFailed
| TriggerNoneFailedMinOneSuccess | TriggerAlways
| TriggerOther (n : Z).

#[export] Instance TriggerRule_eq_dec : EqDecision TriggerRule.
Proof. solve_decision. Defined.

Record DepCounts := mkDeps {
  Unsatisfied : Z;   (* uint32 *)
  Succeeded : Z;     (* uint32 *)
  Skipped : Z;       (* uint32 *)
  Failed : Z         (* uint32 *)
}.

#[export] Instance DepCounts_eta : Eta DepCounts :=
  fun d => mkDeps (Unsatisfied d) (Succeeded d) (Skipped d) (Failed d).
#[export] Instance DepCounts_eq_dec : EqDecision DepCounts.
Proof. solve_decision. Defined.

Definition DepCounts_Total (d : DepCounts) : Z :=
  u32 (Unsatisfied d + Succeeded d + Skipped d + Failed d).

(** [DepCounts.Ready]: rule [t] is satisfied by the counts. *)
Definition Ready (d : DepCounts) (t : TriggerRule) : bool :=
  if bool_decide (t = TriggerAlways) then true
  else if (0 <? Unsatisfied d)%Z then false
  else match t with
       | TriggerAlways => true
       | TriggerAllSuccess => (Failed d =? 0)%Z && (Skipped d =? 0)%Z
       | TriggerAllDone => true
       | TriggerNoneFailed => (Failed d =? 0)%Z
       | TriggerNoneFailedMinOneSuccess => (Failed d =? 0)%Z && (0 <? Succeeded d)%Z
       | TriggerOther _ => false
       end.

(** [DepCounts.Unsatisfiable]: rule [t] can no longer be satisfied. *)
Definition Unsatisfiable (d : DepCounts) (t : TriggerRule) : bool :=
  match t with
  | TriggerAlways | TriggerAllDone => false
  | TriggerAllSuccess => (0 <? Failed d)%Z || (0 <? Skipped d)%Z
  | TriggerNoneFailed => (0 <? Failed d)%Z
  | TriggerNoneFailedMinOneSuccess =>
      (0 <? Failed d)%Z || ((Unsatisfied d =? 0)%Z && (Succeeded d =? 0)%Z)
  | TriggerOther _ => false
  end.

Definition TerminalReason (d : DepCounts) : Reason :=
  if (0 <? Failed d)%Z then ReasonUpstreamFailed else ReasonSkipped.

Record RetryPolicy := mkRetry {
  rp_MaxAttempts : Z;  (* uint32 *)
  rp_BaseDelay : Z;    (* time.Duration, int64 nanoseconds *)
  rp_MaxDelay : Z
}.

#[export] Instance RetryPolicy_eq_dec : EqDecision RetryPolicy.
Proof. solve_decision. Defined.

Inductive CascadePolicy :=
| CascadeReject | CascadeDetach | CascadeFail
| CascadeOther (n : Z).

#[export] Instance CascadePolicy_eq_dec : EqDecision CascadePolicy.
Proof. solve_decision. Defined.

(** A [time.Time] as the code makes them: the zero value, or [time.Unix(0, ns)]. *)
Inductive Time := TimeZero | TimeUnix (ns : Z).

#[export] Instance Time_eq_dec : EqDecision Time.
Proof. solve_decision. Defined.

Definition bytes := list Byte.byte.

#[export] Instance byte_eq_dec : EqDecision Byte.byte := Byte.byte_eq_dec.

Record Node := mkNode {
  nd_Scope : string;
  nd_ID : string;
  nd_Kind : string;
  nd_Status : Status;
  nd_Reason : Reason;
  nd_Message : string;
  nd_Attempt : Z;            (* uint32 *)
  nd_Priority : Z;           (* int16 *)
  nd_Trigger : TriggerRule;
  nd_Retry : RetryPolicy;
  nd_Payload : bytes;
  nd_Labels : gmap string string;
  nd_Seq : Z;                (* uint64 *)
  nd_CreatedAt : Time;
  nd_UpdatedAt : Time
}.

(** The zero [Node]. *)
Definition zeroNode : Node :=
  mkNode "" "" "" StatusNew ReasonNone "" 0 0 TriggerAllSuccess (mkRetry 0 0 0) [] ∅ 0 TimeZero TimeZero.

Definition Node_Terminal (n : Node) : bool := Status_Terminal (nd_Status n).

Record NodeSpec := mkSpec {
  sp_ID : string;
  sp_Kind : string;
  sp_Payload : bytes;
  sp_Labels : gmap string string;
  sp_Priority : Z;           (* int16 *)
  sp_Trigger : TriggerRule;
  sp_Retry : RetryPolicy;
  sp_Deps : list string
}.

#[export] Instance NodeSpec_eta : Eta NodeSpec := fun s =>
  mkSpec (sp_ID s) (sp_Kind s) (sp_Payload s) (sp_Labels s) (sp_Priority s)
    (sp_Trigger s) (sp_Retry s) (sp_Deps s).

Record Inspection := mkInspection {
  in_Node : Node;
  in_Phase : Phase;
  in_Deps : DepCounts;
  in_Waiting : list string;
  in_Successors : list string;
  in_Rank : Z;
  in_LeaseDeadline : Time;
  in_LeaseHolder : string;
  in_LeaseEpoch : Z;
  in_ReadyAt : Time
}.

(** ** [event.go] *)

Inductive EventKind := EventCreated | EventTransition | EventReady | EventOther (n : Z).

#[export] Instance EventKind_eq_dec : EqDecision EventKind.
Proof. solve_decision. Defined.

Record Event := mkEvent {
  ev_Kind : EventKind;
  ev_Scope : string;
  ev_NodeID : string;
  ev_Seq : Z;
  ev_Cursor : Z;
  ev_From : Status;
  ev_To : Status;
  ev_Reason : Reason;
  ev_Message : string;
  ev_Attempt : Z;
  ev_NodeKind : string;
  ev_At : Time;
  ev_Gap : bool
}.

#[export] Instance Event_eta : Eta Event := fun e =>
  mkEvent (ev_Kind e) (ev_Scope e) (ev_NodeID e) (ev_Seq e) (ev_Cursor e) (ev_From e)
    (ev_To e) (ev_Reason e) (ev_Message e) (ev_Attempt e) (ev_NodeKind e) (ev_At e) (ev_Gap e).

(** ** [store.go] *)

Record Edge := mkEdge { e_From : string; e_To : string }.

Record Effect := mkEffect {
  ef_NodeID : string;
  ef_Kind : EventKind;
  ef_From : Status;
  ef_To : Status;
  ef_Reason : Reason;
  ef_Message : string;
  ef_Attempt : Z;
  ef_NodeKind : string;
  ef_Seq : Z;
  ef_Cursor : Z;
  ef_At : Time
}.

Record Lease := mkLease {
  l_Scope : string;
  l_NodeID : string;
  l_Epoch : Z;               (* uint64 *)
  l_Deadline : Time;
  l_Node : option Node;      (* None: the zero Node, in a lease rebuilt by a client *)
  l_Token : bytes
}.

#[export] Instance Lease_eta : Eta Lease := fun l =>
  mkLease (l_Scope l) (l_NodeID l) (l_Epoch l) (l_Deadline l) (l_Node l) (l_Token l).

(** [Lease.Valid]. *)
Definition Lease_Valid (l : Lease) : bool :=
  negb (bool_decide (l_Scope l = ""%string)) && negb (bool_decide (l_NodeID l = ""%string))
  && (0 <? l_Epoch l)%Z.

Record ClaimRequest := mkClaim {
  cr_Scope : string;
  cr_Kinds : list string;
  cr_Max : Z;                (* int *)
  cr_Timeout : Z;            (* time.Duration *)
  cr_WorkerID : string
}.

#[export] Instance ClaimRequest_eta : Eta ClaimRequest := fun r =>
  mkClaim (cr_Scope r) (cr_Kinds r) (cr_Max r) (cr_Timeout r) (cr_WorkerID r).

Record ClaimResult := mkClaimResult {
  cl_Leases : list Lease;
  cl_Effects : list Effect
}.

Record CompleteRequest := mkComplete {
  co_Lease : Lease;
  co_Success : bool;
  co_Reason : Reason;
  co_Message : string;
  co_Result : bytes
}.

Record CompleteResult := mkCompleteResult {
  cp_Effects : list Effect;
  cp_Retrying : bool;
  cp_NextAttemptAt : Time
}.

Record ExtendRequest := mkExtend { ex_Lease : Lease; ex_Timeout : Z }.

Record SweepResult := mkSweepResult {
  sw_Reclaimed : Z;
  sw_Effects : list Effect;
  sw_More : bool
}.

Record ScopeStats := mkStats {
  st_Total : Z;        (* uint64 *)
  st_Blocked : Z;
  st_Scheduled : Z;
  st_Ready : Z;
  st_InProgress : Z;
  st_Succeeded : Z;
  st_Failed : Z;
  st_Sealed : bool;
  st_Complete : bool;
  st_Cursor : Z
}.

#[export] Instance ScopeStats_eta : Eta ScopeStats := fun s =>
  mkStats (st_Total s) (st_Blocked s) (st_Scheduled s) (st_Ready s) (st_InProgress s)
    (st_Succeeded s) (st_Failed s) (st_Sealed s) (st_Complete s) (st_Cursor s).

Definition zeroStats : ScopeStats := mkStats 0 0 0 0 0 0 0 false false 0.

Definition NonTerminal (s : ScopeStats) : Z :=
  u64 (st_Blocked s + st_Scheduled s + st_Ready s + st_InProgress s).

(** The [Capability] bits, as [1 << iota]. *)
Definition CapList : Z := 1.
Definition CapDurableEvents : Z := 2.
Definition CapDoorbell : Z := 4.
Definition CapCollect : Z := 8.
Definition CapDurableStorage : Z := 16.
Definition CapCrossProcess : Z := 32.

Definition Capabilities_Has (cs c : Z) : bool := (Z.land cs c =? c)%Z.

Record ListOptions := mkListOptions {
  lo_Statuses : list Status;
  lo_Kinds : list string;
  lo_Cursor : string;
  lo_Limit : Z
}.

Record ListResult := mkListResult { lr_Nodes : list Node; lr_Next : string }.

Record WatchRequest := mkWatch { wr_Scope : string; wr_From : Z; wr_Replay : bool }.

(** ** [errors.go]

    An error value keeps what callers branch on: the sentinel it wraps and the
    fields of the typed errors.  The formatted text is not modelled. *)

Inductive Sentinel :=
| ErrNotFound | ErrIDConflict | ErrCycle | ErrCrossScopeEdge | ErrAlreadyTerminal
| ErrNodeInFlight | ErrHasSuccessors | ErrLeaseMismatch | ErrLeaseExpired | ErrNoWork
| ErrScopeSealed | ErrClosed | ErrPayloadTooLarge | ErrSubscriberLagged | ErrCursorExpired
| ErrInvalidArgument | ErrInvalidConfig | ErrNilStore | ErrUnsupported.

#[export] Instance Sentinel_eq_dec : EqDecision Sentinel.
Proof. solve_decision. Defined.

Inductive error :=
| Err (e : Sentinel)
| CycleError (scope from to : string) (path : list string)
| InvalidArgumentError (field : string)
| PayloadTooLargeError (size cap : Z).

(** [errors.Is] against a sentinel, through the [Unwrap] methods. *)
Definition unwrap (e : error) : Sentinel :=
  match e with
  | Err s => s
  | CycleError _ _ _ _ => ErrCycle
  | InvalidArgumentError _ => ErrInvalidArgument
  | PayloadTooLargeError _ _ => ErrPayloadTooLarge
  end.

Definition errors_Is (e : error) (s : Sentinel) : bool := bool_decide (unwrap e = s).

Definition invalidArg (field : string) : error := InvalidArgumentError field.

(** A Go result [(T, error)] of which exactly one is meaningful. *)
Inductive result (A : Type) := Ok (a : A) | Fail (e : error).
Arguments Ok {A} a.
Arguments Fail {A} e.
