(* ===== verification/GoText.v ===== *)
(** * Bytes and text, the way of Go's standard library

    What the sources use of [strings], [strconv], [unicode], [encoding/binary]
    and [encoding/base64].  A Go string is a sequence of bytes, here a
    [string]. *)
From S2P Require Import Prelude Types.
From Stdlib Require Import Ascii.

(** ** [encoding/binary] *)

Definition byte_of (z : Z) : Byte.byte := default Byte.x00 (Byte.of_N (Z.to_N (z mod 256))).
Definition of_byte (b : Byte.byte) : Z := Z.of_N (Byte.to_N b).

(** [binary.BigEndian.PutUint64] and [Uint64]. *)
Definition PutUint64 (v : Z) : bytes := (fun k => byte_of (v / 2 ^ k)%Z) <$> [56; 48; 40; 32; 24; 16; 8; 0]%Z.
Definition Uint64 (b : bytes) : Z := foldl (fun acc x => (acc * 256 + of_byte x)%Z) 0%Z b.

(** ** [strings] *)

Definition of_bytes (l : list nat) : string := foldr (fun n s => String (ascii_of_nat n) s) EmptyString l.

(** The characters [unicode.IsSpace] holds of, in UTF-8. *)
Definition spaces : list string :=
  of_bytes <$> ([[9]; [10]; [11]; [12]; [13]; [32]; [194; 133]; [194; 160]; [225; 154; 128]]
    ++ ((fun n => [226; 128; n]) <$> [128; 129; 130; 131; 132; 133; 134; 135; 136; 137; 138; 168; 169; 175])
    ++ [[226; 129; 159]; [227; 128; 128]]).

(** [strings.CutPrefix]. *)
Fixpoint CutPrefix (s p : string) {struct p} : option string :=
  match p, s with
  | EmptyString, _ => Some s
  | String a p, String b s => if bool_decide (a = b) then CutPrefix s p else None
  | _, _ => None
  end.

(** What is left of a text after the first of the prefixes it begins with. *)
Definition after_any (ps : list string) (s : string) : option string :=
  foldr (fun p o => match CutPrefix s p with Some r => Some r | None => o end) None ps.

Definition after_space (s : string) : option string := after_any spaces s.

(** [strings.Fields]; [cur] is the field being read. *)
Fixpoint fields_from (n : nat) (cur s : string) : list string :=
  let flush := if bool_decide (cur = ""%string) then [] else [cur] in
  match n, s with
  | O, _ | _, EmptyString => flush
  | S n, String a rest =>
    match after_space s with
    | Some rest => flush ++ fields_from n "" rest
    | None => fields_from n (cur ++ String a EmptyString) rest
    end
  end.

Definition Fields (s : string) : list string := fields_from (String.length s) "" s.

(** Every prefix of the list, taken off as long as there is one. *)
Fixpoint trim_prefixes (n : nat) (ps : list string) (s : string) : string :=
  match n with
  | O => s
  | S n => match after_any ps s with Some r => trim_prefixes n ps r | None => s end
  end.

Definition reversed (s : string) : string := String.string_of_list_ascii (reverse (String.list_ascii_of_string s)).

Definition trim_left (ps : list string) (s : string) : string := trim_prefixes (String.length s) ps s.
Definition trim_right (ps : list string) (s : string) : string := reversed (trim_left (reversed <$> ps) (reversed s)).

Definition TrimSpace (s : string) : string := trim_right spaces (trim_left spaces s).

(** [strings.Cut] at the first occurrence of a separator. *)
Fixpoint Cut (s sep : string) : option (string * string) :=
  match CutPrefix s sep with
  | Some r => Some (""%string, r)
  | None =>
    match s with
    | EmptyString => None
    | String a s => match Cut s sep with Some (l, r) => Some (String a l, r) | None => None end
    end
  end.

(** [s[:i]] and [s[i+1:]] for [i = strings.LastIndexByte(s, c)]. *)
Fixpoint cut_last (s : string) (c : ascii) : option (string * string) :=
  match s with
  | EmptyString => None
  | String a s =>
    match cut_last s c with
    | Some (l, r) => Some (String a l, r)
    | None => if bool_decide (a = c) then Some (""%string, s) else None
    end
  end.

(** [strings.Split] at a separator of one byte. *)
Fixpoint Split (s : string) (c : ascii) : list string :=
  match s with
  | EmptyString => [""%string]
  | String a s =>
    let parts := Split s c in
    if bool_decide (a = c) then ""%string :: parts
    else match parts with p :: ps => String a p :: ps | [] => [String a EmptyString] end
  end.

Definition has_byte (c : ascii) (s : string) : bool := existsb (Ascii.eqb c) (String.list_ascii_of_string s).

Definition lower (a : ascii) : ascii :=
  let n := N_of_ascii a in if ((65 <=? n) && (n <=? 90))%N then ascii_of_N (n + 32) else a.

(** [strings.EqualFold] with a text of ASCII letters other than k and s, which
    alone have case variants outside ASCII. *)
Definition EqualFold (s t : string) : bool :=
  bool_decide (lower <$> String.list_ascii_of_string s = lower <$> String.list_ascii_of_string t).

(** ** [strconv] *)

Fixpoint digits (acc : Z) (s : string) : option Z :=
  match s with
  | EmptyString => Some acc
  | String a s =>
    let d := (Z.of_N (N_of_ascii a) - 48)%Z in
    if (0 <=? d)%Z && (d <=? 9)%Z then digits (acc * 10 + d)%Z s else None
  end.

Definition min_i64 : Z := (- 2 ^ 63)%Z.
Definition max_u64 : Z := (2 ^ 64 - 1)%Z.

(** [strconv.Atoi] with its error ignored. *)
Definition Atoi (s : string) : Z :=
  match s with
  | EmptyString => 0%Z
  | String a rest =>
    if bool_decide (a = ascii_of_nat 45) then
      match rest with EmptyString => 0%Z | _ => Z.max min_i64 (- default 0%Z (digits 0 rest)) end
    else if bool_decide (a = ascii_of_nat 43) then
      match rest with EmptyString => 0%Z | _ => Z.min max_i64 (default 0%Z (digits 0 rest)) end
    else Z.min max_i64 (default 0%Z (digits 0 s))
  end.

(** [strconv.ParseUint(s, 10, 64)]. *)
Definition ParseUint (s : string) : option Z :=
  if bool_decide (s = ""%string) then None
  else match digits 0 s with Some n => if (n <=? max_u64)%Z then Some n else None | None => None end.

(** [strconv.Atoi] with its error. *)
Definition ParseInt (s : string) : option Z :=
  let signed sgn rest :=
    if bool_decide (rest = ""%string) then None
    else match digits 0 rest with
         | Some n => let v := (sgn * n)%Z in if (min_i64 <=? v)%Z && (v <=? max_i64)%Z then Some v else None
         | None => None
         end in
  match s with
  | String a rest =>
    if bool_decide (a = ascii_of_nat 45) then signed (-1)%Z rest
    else if bool_decide (a = ascii_of_nat 43) then signed 1%Z rest
    else signed 1%Z s
  | EmptyString => None
  end.

(** ** [encoding/base64] *)

(** The last two letters of the alphabet, and whether the text is padded. *)
Record Encoding := mkEncoding { en_62 : ascii; en_63 : ascii; en_padded : bool }.

Definition StdEncoding : Encoding := mkEncoding "+" "/" true.
Definition RawURLEncoding : Encoding := mkEncoding "-" "_" false.

Definition letter (e : Encoding) (v : Z) : ascii :=
  let at_ base := ascii_of_N (Z.to_N base) in
  if (v <? 26)%Z then at_ (65 + v)%Z
  else if (v <? 52)%Z then at_ (97 + (v - 26))%Z
  else if (v <? 62)%Z then at_ (48 + (v - 52))%Z
  else if (v =? 62)%Z then en_62 e else en_63 e.

Definition value (e : Encoding) (a : ascii) : option Z :=
  let n := Z.of_N (N_of_ascii a) in
  if (65 <=? n)%Z && (n <=? 90)%Z then Some (n - 65)%Z
  else if (97 <=? n)%Z && (n <=? 122)%Z then Some (n - 97 + 26)%Z
  else if (48 <=? n)%Z && (n <=? 57)%Z then Some (n - 48 + 52)%Z
  else if bool_decide (a = en_62 e) then Some 62%Z
  else if bool_decide (a = en_63 e) then Some 63%Z
  else None.

Definition padding : ascii := "=".

Fixpoint encode64 (e : Encoding) (b : list Z) : list ascii :=
  let L v := letter e v in
  match b with
  | [] => []
  | [x] => [L (x / 4)%Z; L (x mod 4 * 16)%Z] ++ (if en_padded e then [padding; padding] else [])
  | [x; y] => [L (x / 4)%Z; L (x mod 4 * 16 + y / 16)%Z; L (y mod 16 * 4)%Z] ++ (if en_padded e then [padding] else [])
  | x :: y :: z :: b =>
    L (x / 4)%Z :: L (x mod 4 * 16 + y / 16)%Z :: L (y mod 16 * 4 + z / 64)%Z :: L (z mod 64)%Z :: encode64 e b
  end.

(** Bits beyond the last byte are ignored, as the decoder is not strict. *)
Fixpoint decode64 (e : Encoding) (s : list ascii) : option (list Z) :=
  let one a b := [a * 4 + b / 16]%Z in
  let two a b c := [a * 4 + b / 16; b mod 16 * 16 + c / 4]%Z in
  match s with
  | [] => Some []
  | [_] => None
  | [a; b] =>
    match value e a, value e b with
    | Some a, Some b => if en_padded e then None else Some (one a b)
    | _, _ => None
    end
  | [a; b; c] =>
    match value e a, value e b, value e c with
    | Some a, Some b, Some c => if en_padded e then None else Some (two a b c)
    | _, _, _ => None
    end
  | a :: b :: c :: d :: s =>
    let last := en_padded e && bool_decide (s = []) && bool_decide (d = padding) in
    match value e a, value e b, value e c, value e d with
    | Some a, Some b, Some c, Some d =>
      match decode64 e s with Some r => Some (two a b c ++ [c mod 4 * 64 + d]%Z ++ r) | None => None end
    | Some a, Some b, Some c, None => if last then Some (two a b c) else None
    | Some a, Some b, None, None => if last && bool_decide (c = padding) then Some (one a b) else None
    | _, _, _, _ => None
    end
  end.

Definition EncodeToString (e : Encoding) (b : bytes) : string := String.string_of_list_ascii (encode64 e (of_byte <$> b)).

(** Line breaks are skipped. *)
Definition DecodeString (e : Encoding) (s : string) : option bytes :=
  match decode64 e (filter (fun a => a <> ascii_of_nat 10 /\ a <> ascii_of_nat 13) (String.list_ascii_of_string s)) with
  | Some r => Some (byte_of <$> r)
  | None => None
  end.

(** ** Facts *)

Lemma of_byte_of z : of_byte (byte_of z) = (z mod 256)%Z.
Proof.
  unfold of_byte, byte_of. assert (0 <= z mod 256 < 256)%Z by (apply Z.mod_pos_bound; lia).
  destruct (Byte.of_N (Z.to_N (z mod 256))) as [b|] eqn:E.
  - apply Byte.to_of_N in E. simpl. rewrite E. lia.
  - apply Byte.of_N_None_iff in E. lia.
Qed.

Lemma of_byte_range b : (0 <= of_byte b < 256)%Z.
Proof. unfold of_byte. pose proof (Byte.to_N_bounded b). lia. Qed.

Lemma byte_of_of b : byte_of (of_byte b) = b.
Proof.
  unfold byte_of. rewrite Z.mod_small by apply of_byte_range. unfold of_byte.
  rewrite N2Z.id, Byte.of_to_N. done.
Qed.

Lemma shift_byte v j k : (0 <= k)%Z -> j = (k + 8)%Z -> (v / 2 ^ j * 256 + (v / 2 ^ k) mod 256 = v / 2 ^ k)%Z.
Proof.
  intros Hk ->. rewrite Z.pow_add_r, <- Z.div_div by lia. change (2 ^ 8)%Z with 256%Z.
  pose proof (Z.div_mod (v / 2 ^ k) 256 ltac:(lia)). lia.
Qed.

Lemma Uint64_Put v rest : (0 <= v < 2 ^ 64)%Z ->
  Uint64 (take 8 (PutUint64 v ++ rest)) = v /\ drop 8 (PutUint64 v ++ rest) = rest.
Proof.
  intros Hv. split; [|done]. unfold Uint64, PutUint64. cbn [fmap list_fmap take app foldl].
  rewrite !of_byte_of.
  assert (H56 : (0 * 256 + (v / 2 ^ 56) mod 256 = v / 2 ^ 56)%Z).
  { rewrite Z.mod_small; [lia|]. split; [apply Z.div_pos; lia|]. apply Z.div_lt_upper_bound; lia. }
  rewrite H56. rewrite (shift_byte v 56 48), (shift_byte v 48 40), (shift_byte v 40 32), (shift_byte v 32 24),
    (shift_byte v 24 16), (shift_byte v 16 8), (shift_byte v 8 0) by lia.
  apply Z.div_1_r.
Qed.

(** What an encoding needs of its last letters. *)
Definition letters_ok (e : Encoding) : bool :=
  bool_decide (value e padding = None) && forallb (fun v => bool_decide (value e (letter e v) = Some v) && negb (bool_decide (letter e v = padding))
                    && negb (bool_decide (letter e v = ascii_of_nat 10)) && negb (bool_decide (letter e v = ascii_of_nat 13)))
    (Z.of_nat <$> seq 0 64).

Lemma letters_std : letters_ok StdEncoding = true.
Proof. vm_compute. reflexivity. Qed.
Lemma letters_url : letters_ok RawURLEncoding = true.
Proof. vm_compute. reflexivity. Qed.

Lemma letter_ok e v : letters_ok e = true -> (0 <= v < 64)%Z ->
  value e (letter e v) = Some v /\ letter e v <> padding /\ letter e v <> ascii_of_nat 10 /\ letter e v <> ascii_of_nat 13.
Proof.
  intros [_ H]%andb_true_iff Hv. rewrite forallb_forall in H.
  specialize (H v). rewrite !andb_true_iff, !negb_true_iff, !bool_decide_eq_false, bool_decide_eq_true in H.
  destruct H as [[[? ?] ?] ?]; [|done].
  apply list_elem_of_In, list_elem_of_fmap. exists (Z.to_nat v). split; [lia|]. apply elem_of_seq. lia.
Qed.

Ltac div_lia := Z.to_euclidean_division_equations; lia.

Lemma decode64_encode64 e (l : list Z) : letters_ok e = true -> Forall (fun x => 0 <= x < 256)%Z l ->
  decode64 e (encode64 e l) = Some l.
Proof.
  intros He. assert (HL : forall v, (0 <= v < 64)%Z -> value e (letter e v) = Some v) by (intros; by apply letter_ok).
  pose proof He as [Hp%bool_decide_eq_true _]%andb_true_iff.
  revert l. fix IH 1. intros [|x [|y [|z l]]] Hl; rewrite ?Forall_cons in Hl; [done|..].
  - simpl. destruct (en_padded e); simpl; rewrite !HL, ?Hp by div_lia; simpl.
    + do 2 f_equal. div_lia.
    + do 2 f_equal. div_lia.
  - simpl. destruct (en_padded e) eqn:E; simpl; rewrite !HL, ?Hp by div_lia; simpl.
    + do 2 f_equal; [div_lia|]. f_equal. div_lia.
    + do 2 f_equal; [div_lia|]. f_equal. div_lia.
  - simpl. rewrite !HL by div_lia. rewrite (IH l) by tauto. simpl.
    do 2 f_equal; [div_lia|]. f_equal; [div_lia|]. f_equal. div_lia.
Qed.

Lemma encode64_plain e (l : list Z) : letters_ok e = true -> Forall (fun x => 0 <= x < 256)%Z l ->
  Forall (fun a => a <> ascii_of_nat 10 /\ a <> ascii_of_nat 13) (encode64 e l).
Proof.
  intros He. assert (HL : forall v, (0 <= v < 64)%Z -> letter e v <> ascii_of_nat 10 /\ letter e v <> ascii_of_nat 13)
    by (intros; by apply letter_ok).
  revert l. fix IH 1. intros [|x [|y [|z l]]] Hl; rewrite ?Forall_cons in Hl; simpl; [constructor|..].
  - destruct (en_padded e); simpl; repeat constructor; try (apply HL; div_lia); done.
  - destruct (en_padded e); simpl; repeat constructor; try (apply HL; div_lia); done.
  - do 4 (constructor; [apply HL; div_lia|]). apply IH. tauto.
Qed.

(** Decoding inverts encoding. *)
Lemma base64_roundtrip e b : letters_ok e = true -> DecodeString e (EncodeToString e b) = Some b.
Proof.
  intros He. unfold DecodeString, EncodeToString. rewrite String.list_ascii_of_string_of_list_ascii.
  assert (Hb : Forall (fun x => 0 <= x < 256)%Z (of_byte <$> b)) by (apply Forall_fmap, Forall_true; intros; apply of_byte_range).
  rewrite filter_all_true by (intros x Hx; pose proof (encode64_plain e _ He Hb) as H; rewrite Forall_forall in H; by apply H). rewrite (decode64_encode64 e _ He Hb).
  rewrite <- list_fmap_compose. f_equal. rewrite <- (list_fmap_id b) at 2. apply list_fmap_ext. intros. apply byte_of_of.
Qed.
