(* ===== verification/Config.v ===== *)
(** * Configuration, validation and backoff

    [config.go] ([ScopeConfig] and its resolution, validation and clamps),
    [identifier.go] (identifier limits), the validators of [node.go] and
    [backoff.go]. *)
From S2P Require Import Prelude Types.

Local Open Scope Z_scope.

(** ** Durations and the documented fallbacks *)

Definition Millisecond : Z := 1000000.
Definition Second : Z := 1000000000.
Definition Minute : Z := 60 * Second.
Definition Hour : Z := 60 * Minute.

Definition DefaultLeaseTimeout : Z := 30 * Second.
Definition DefaultMinLeaseTimeout : Z := Second.
Definition DefaultMaxLeaseTimeout : Z := 24 * Hour.
Definition DefaultMaxAttempts : Z := 3.
Definition DefaultRetryBaseDelay : Z := Second.
Definition DefaultRetryMaxDelay : Z := 5 * Minute.
Definition DefaultPayloadCap : Z := Z.shiftl 256 10.
Definition DefaultMaxBatchSize : Z := 1000.
Definition DefaultMaxClaimBatch : Z := 1000.
Definition DefaultSweepBatchSize : Z := 100.
Definition DefaultSweepInterval : Z := 5 * Second.

Record ScopeConfig := mkConfig {
  c_DefaultLeaseTimeout : Z;
  c_MinLeaseTimeout : Z;
  c_MaxLeaseTimeout : Z;
  c_MaxAttempts : Z;         (* uint32 *)
  c_RetryBaseDelay : Z;
  c_RetryMaxDelay : Z;
  c_TerminalRetention : Z;
  c_MaxSubscriberLag : Z;
  c_MaxInFlight : Z;         (* uint32 *)
  c_PayloadCap : Z;
  c_MaxBatchSize : Z;
  c_MaxClaimBatch : Z;
  c_SweepBatchSize : Z;
  c_SweepInterval : Z;
  c_PartitionCount : Z       (* uint32 *)
}.

#[export] Instance ScopeConfig_eta : Eta ScopeConfig := fun c =>
  mkConfig (c_DefaultLeaseTimeout c) (c_MinLeaseTimeout c) (c_MaxLeaseTimeout c)
    (c_MaxAttempts c) (c_RetryBaseDelay c) (c_RetryMaxDelay c) (c_TerminalRetention c)
    (c_MaxSubscriberLag c) (c_MaxInFlight c) (c_PayloadCap c) (c_MaxBatchSize c)
    (c_MaxClaimBatch c) (c_SweepBatchSize c) (c_SweepInterval c) (c_PartitionCount c).

Definition zeroConfig : ScopeConfig := mkConfig 0 0 0 0 0 0 0 0 0 0 0 0 0 0 0.

(** [if x <= 0 { x = d }], and the same for an unsigned [x == 0]. *)
Definition or_default (x d : Z) : Z := if x <=? 0 then d else x.
Definition or_default_u (x d : Z) : Z := if x =? 0 then d else x.

(** [ScopeConfig.Resolved]. *)
Definition Resolved (c : ScopeConfig) : ScopeConfig :=
  mkConfig
    (or_default (c_DefaultLeaseTimeout c) DefaultLeaseTimeout)
    (or_default (c_MinLeaseTimeout c) DefaultMinLeaseTimeout)
    (or_default (c_MaxLeaseTimeout c) DefaultMaxLeaseTimeout)
    (or_default_u (c_MaxAttempts c) DefaultMaxAttempts)
    (or_default (c_RetryBaseDelay c) DefaultRetryBaseDelay)
    (or_default (c_RetryMaxDelay c) DefaultRetryMaxDelay)
    (c_TerminalRetention c)
    (c_MaxSubscriberLag c)
    (c_MaxInFlight c)
    (or_default (c_PayloadCap c) DefaultPayloadCap)
    (or_default (c_MaxBatchSize c) DefaultMaxBatchSize)
    (or_default (c_MaxClaimBatch c) DefaultMaxClaimBatch)
    (or_default (c_SweepBatchSize c) DefaultSweepBatchSize)
    (or_default (c_SweepInterval c) DefaultSweepInterval)
    (or_default_u (c_PartitionCount c) 1).

(** [ScopeConfig.validate]. *)
Definition ScopeConfig_validate (c : ScopeConfig) : option error :=
  let r := Resolved c in
  if c_MaxLeaseTimeout r <? c_MinLeaseTimeout r then Some (invalidArg "scope config")
  else if (c_DefaultLeaseTimeout r <? c_MinLeaseTimeout r)
          || (c_MaxLeaseTimeout r <? c_DefaultLeaseTimeout r)
       then Some (invalidArg "scope config")
  else if c_RetryMaxDelay r <? c_RetryBaseDelay r then Some (invalidArg "scope config")
  else if c_TerminalRetention c <? 0 then Some (invalidArg "scope config")
  else if c_MaxSubscriberLag c <? 0 then Some (invalidArg "scope config")
  else None.

(** [ScopeConfig.ClampClaimBatch]. *)
Definition ClampClaimBatch (c : ScopeConfig) (n : Z) : Z :=
  Z.min (Z.max n 1) (c_MaxClaimBatch (Resolved c)).

(** [ScopeConfig.ClampLease]. *)
Definition ClampLease (c : ScopeConfig) (d : Z) : Z :=
  let r := Resolved c in
  let d := if d <=? 0 then c_DefaultLeaseTimeout r else d in
  Z.min (Z.max d (c_MinLeaseTimeout r)) (c_MaxLeaseTimeout r).

(** ** [backoff.go] *)

(** The doubling loop of [Backoff]: [n] iterations remain. *)
Fixpoint backoff_window (n : nat) (window maxDelay : Z) : Z :=
  match n with
  | O => window
  | S n => if Z.quot maxDelay 2 <=? window then maxDelay
           else backoff_window n (i64 (window * 2)) maxDelay
  end.

(** [Backoff] up to the jitter draw: the window the delay is drawn from. *)
Definition Backoff_window (attempt base maxDelay : Z) : Z :=
  let attempt := if attempt =? 0 then 1 else attempt in
  let base := if base <=? 0 then DefaultRetryBaseDelay else base in
  let maxDelay := if maxDelay <=? 0 then DefaultRetryMaxDelay else maxDelay in
  Z.min (backoff_window (Z.to_nat (attempt - 1)) base maxDelay) maxDelay.

(** [Backoff]; [jitter] is [None] for a nil function.  The draw is the second
    component so that a jitter source with state can be threaded. *)
Definition Backoff {C : Type} (attempt base maxDelay : Z)
    (jitter : option (Z -> C -> Z * C)) (c : C) : Z * C :=
  let window := Backoff_window attempt base maxDelay in
  match jitter with
  | None => (window, c)
  | Some j => if window <=? 0 then (window, c) else j window c
  end.

(** ** UTF-8, as [unicode/utf8.ValidString] *)

Definition byte_in (lo hi : N) (a : Ascii.ascii) : bool :=
  let b := Ascii.N_of_ascii a in (lo <=? b)%N && (b <=? hi)%N.

Definition cont (a : Ascii.ascii) : bool := byte_in 128 191 a.

Fixpoint ValidString (s : string) : bool :=
  match s with
  | EmptyString => true
  | String a s1 =>
    if byte_in 0 127 a then ValidString s1 else
    match s1 with
    | EmptyString => false
    | String b s2 =>
      if byte_in 194 223 a then cont b && ValidString s2 else
      match s2 with
      | EmptyString => false
      | String c s3 =>
        if byte_in 224 224 a then byte_in 160 191 b && cont c && ValidString s3
        else if byte_in 237 237 a then byte_in 128 159 b && cont c && ValidString s3
        else if byte_in 225 239 a then cont b && cont c && ValidString s3
        else
        match s3 with
        | EmptyString => false
        | String d s4 =>
          if byte_in 240 240 a then byte_in 144 191 b && cont c && cont d && ValidString s4
          else if byte_in 241 243 a then cont b && cont c && cont d && ValidString s4
          else if byte_in 244 244 a then byte_in 128 143 b && cont c && cont d && ValidString s4
          else false
        end
      end
    end
  end.

(** ** [identifier.go] *)

Definition MaxScopeLen : Z := 255.
Definition MaxNodeIDLen : Z := 255.
Definition MaxKindLen : Z := 64.
Definition MaxLabelKeyLen : Z := 64.
Definition MaxLabelValueLen : Z := 256.
Definition MaxLabels : Z := 32.

Definition len (s : string) : Z := Z.of_nat (String.length s).

(** [Scope.validate]. *)
Definition Scope_validate (s : string) : option error :=
  if len s =? 0 then Some (invalidArg "scope")
  else if MaxScopeLen <? len s then Some (invalidArg "scope")
  else if negb (ValidString s) then Some (invalidArg "scope")
  else None.

(** [NodeID.validate]. *)
Definition NodeID_validate (n : string) : option error :=
  if len n =? 0 then Some (invalidArg "node id")
  else if MaxNodeIDLen <? len n then Some (invalidArg "node id")
  else if negb (ValidString n) then Some (invalidArg "node id")
  else None.

Definition validateKind (kind : string) : option error :=
  if MaxKindLen <? len kind then Some (invalidArg "kind")
  else if negb (ValidString kind) then Some (invalidArg "kind")
  else None.

Definition validateLabel (kv : string * string) : option error :=
  let '(k, v) := kv in
  if len k =? 0 then Some (invalidArg "label key")
  else if MaxLabelKeyLen <? len k then Some (invalidArg "label key")
  else if MaxLabelValueLen <? len v then Some (invalidArg "label value")
  else if negb (ValidString k) || negb (ValidString v) then Some (invalidArg "label")
  else None.

(** The first error of a loop [for .. { if err := f(x); err != nil { return err } }]. *)
Fixpoint first_error {A : Type} (f : A -> option error) (l : list A) : option error :=
  match l with
  | [] => None
  | x :: l => match f x with Some e => Some e | None => first_error f l end
  end.

(** [validateLabels]; a Go map is ranged in some order, here that of [map_to_list]. *)
Definition validateLabels (labels : gmap string string) : option error :=
  if MaxLabels <? Z.of_nat (size labels) then Some (invalidArg "labels")
  else first_error validateLabel (map_to_list labels).

(** ** Validators of [node.go] *)

Definition TriggerRule_validate (t : TriggerRule) : option error :=
  match t with TriggerOther _ => Some (invalidArg "trigger rule") | _ => None end.

Definition RetryPolicy_validate (r : RetryPolicy) : option error :=
  if rp_BaseDelay r <? 0 then Some (invalidArg "retry base delay")
  else if rp_MaxDelay r <? 0 then Some (invalidArg "retry max delay")
  else if (0 <? rp_BaseDelay r) && (0 <? rp_MaxDelay r) && (rp_MaxDelay r <? rp_BaseDelay r)
       then Some (invalidArg "retry policy")
  else None.

(** The dependency loop of [NodeSpec.Validate]; [seen] is the local map. *)
Fixpoint validateDeps (id : string) (seen : gset string) (deps : list string) : option error :=
  match deps with
  | [] => None
  | d :: deps =>
    match NodeID_validate d with
    | Some e => Some e
    | None =>
      if bool_decide (d = id) then Some (invalidArg "deps")
      else if bool_decide (d ∈ seen) then Some (invalidArg "deps")
      else validateDeps id ({[d]} ∪ seen) deps
    end
  end.

(** [if err := a; err != nil { return err }; b]. *)
Definition or_else (a b : option error) : option error :=
  match a with Some e => Some e | None => b end.

(** [NodeSpec.Validate]. *)
Definition NodeSpec_Validate (s : NodeSpec) : option error :=
  or_else (NodeID_validate (sp_ID s))
  (or_else (validateKind (sp_Kind s))
  (or_else (validateLabels (sp_Labels s))
  (or_else (TriggerRule_validate (sp_Trigger s))
  (or_else (RetryPolicy_validate (sp_Retry s))
           (validateDeps (sp_ID s) ∅ (sp_Deps s)))))).

(** A spec that passes does not depend on itself. *)
Lemma validateDeps_self i seen deps : validateDeps i seen deps = None -> i ∉ deps.
Proof.
  revert seen. induction deps as [|d deps IH]; intros seen; simpl; [set_solver|].
  destruct (NodeID_validate d); [done|]. case_bool_decide as Hd; [done|]. case_bool_decide; [done|].
  intros E%IH. apply not_elem_of_cons. split; [congruence|done].
Qed.

Lemma Validate_self spec : NodeSpec_Validate spec = None -> sp_ID spec ∉ sp_Deps spec.
Proof.
  unfold NodeSpec_Validate, or_else. repeat (case_match; [done|]). apply validateDeps_self.
Qed.
