(* ===== verification/Heap.v ===== *)
(** * The indexed binary heap: [internal/pq/pq.go]

    [items] holds the handles in heap order; [pos] maps a handle to its index
    in [items] plus one, zero meaning absent.  Handles are the non-negative
    [int32] indices the scheduler allocates, modelled as [nat].  The ordering
    is a Go closure over the scheduler's arrays, so every operation takes the
    boolean [less] it is to use at that moment.  The loops of [up] and [down]
    carry fuel: an index for [up] (the parent of [j > 0] is below [j]), the
    number of items for [down] (a child of [i] is above [i]); [HeapFacts]
    shows that this is enough for each loop to end by its own exit test. *)
From S2P Require Import Prelude.

Record Heap := mkHeap { items : list nat; pos : list nat }.

#[export] Instance Heap_eta : Eta Heap := fun h => mkHeap (items h) (pos h).

Module Pq.

Definition New (capacity : nat) : Heap := mkHeap [] (replicate capacity 0).

Definition Len (h : Heap) : nat := length (items h).

(** [Contains]: [handle < len(h.pos) && h.pos[handle] != 0]. *)
Definition Contains (h : Heap) (handle : nat) : bool :=
  match pos h !! handle with
  | Some p => negb (p =? 0)
  | None => false
  end.

(** [ensure]: grow [pos] to hold [handle]. *)
Definition ensure (h : Heap) (handle : nat) : Heap :=
  if handle <? length (pos h) then h
  else
    let n := Nat.max (handle + 1) (2 * length (pos h) + 1) in
    h <| pos := pos h ++ replicate (n - length (pos h)) 0 |>.

(** [swap]: exchange two items and record where they went. *)
Definition swap (h : Heap) (i j : nat) : Heap :=
  let x := items h !!! i in
  let y := items h !!! j in
  mkHeap (<[j := x]> (<[i := y]> (items h)))
         (<[x := j + 1]> (<[y := i + 1]> (pos h))).

Section WithLess.
Context (less : nat -> nat -> bool).

Fixpoint up_loop (fuel : nat) (h : Heap) (j : nat) : Heap :=
  match fuel with
  | O => h
  | S fuel =>
    if 0 <? j then
      let parent := (j - 1) / 2 in
      if negb (less (items h !!! j) (items h !!! parent)) then h
      else up_loop fuel (swap h parent j) parent
    else h
  end.

Definition up (h : Heap) (j : nat) : Heap := up_loop j h j.

(** The loop of [down]; returns the heap and the final index. *)
Fixpoint down_loop (fuel : nat) (h : Heap) (i : nat) : Heap * nat :=
  match fuel with
  | O => (h, i)
  | S fuel =>
    let n := length (items h) in
    let left := 2 * i + 1 in
    if n <=? left then (h, i)
    else
      let right := left + 1 in
      let smallest :=
        if (right <? n) && less (items h !!! right) (items h !!! left) then right else left in
      if negb (less (items h !!! smallest) (items h !!! i)) then (h, i)
      else down_loop fuel (swap h i smallest) smallest
  end.

(** [down]: sift down, and report whether the element moved. *)
Definition down (h : Heap) (i0 : nat) : Heap * bool :=
  let '(h', i) := down_loop (length (items h)) h i0 in (h', i0 <? i).

(** [if !h.down(i) { h.up(i) }]. *)
Definition down_or_up (h : Heap) (i : nat) : Heap :=
  let '(h', moved) := down h i in
  if moved then h' else up h' i.

Definition Fix (h : Heap) (handle : nat) : Heap * bool :=
  if negb (Contains h handle) then (h, false)
  else (down_or_up h ((pos h !!! handle) - 1), true).

Definition Push (h : Heap) (handle : nat) : Heap :=
  let h := ensure h handle in
  if negb (pos h !!! handle =? 0) then fst (Fix h handle)
  else
    let h1 := h <| items := items h ++ [handle] |>
                <| pos := <[handle := length (items h) + 1]> (pos h) |> in
    up h1 (length (items h1) - 1).

Definition Peek (h : Heap) : option nat := items h !! 0.

Definition Pop (h : Heap) : Heap * option nat :=
  match items h with
  | [] => (h, None)
  | top :: _ =>
    let last := length (items h) - 1 in
    let h1 := swap h 0 last in
    let h2 := mkHeap (take last (items h1)) (<[top := 0]> (pos h1)) in
    let h3 := if 0 <? length (items h2) then fst (down h2 0) else h2 in
    (h3, Some top)
  end.

Definition Remove (h : Heap) (handle : nat) : Heap * bool :=
  if negb (Contains h handle) then (h, false)
  else
    let i := (pos h !!! handle) - 1 in
    let last := length (items h) - 1 in
    let h1 := swap h i last in
    let h2 := mkHeap (take last (items h1)) (<[handle := 0]> (pos h1)) in
    let h3 := if i <? last then down_or_up h2 i else h2 in
    (h3, true).

End WithLess.

End Pq.
