(* ===== verification/HeapFacts.v ===== *)
(** * Correctness of the indexed heap

    [heap_wf]: [items] and [pos] index each other.  [heap_ord less]: no item
    sorts before its parent.  Every operation of [Heap.v] keeps both, changes
    the set of members as its name says, and [Peek]/[Pop] yield a minimum. *)
From S2P Require Import Prelude Heap.

(** [less] is the strict part of a total preorder, as every ordering the
    scheduler passes to [pq.New] is. *)
Class WeakOrder (less : nat -> nat -> bool) := {
  less_asym : forall a b, less a b = true -> less b a = false;
  nless_trans : forall a b c, less b a = false -> less c b = false -> less c a = false
}.

Record heap_wf (h : Heap) : Prop := {
  wf_items : forall i x, items h !! i = Some x -> pos h !! x = Some (S i);
  wf_pos : forall x p, pos h !! x = Some (S p) -> items h !! p = Some x
}.

Abbreviation it h k := (items h !!! k).

Definition parent (k : nat) : nat := (k - 1) / 2.

Definition heap_ord (less : nat -> nat -> bool) (h : Heap) : Prop :=
  forall k, 0 < k < length (items h) -> less (it h k) (it h (parent k)) = false.

(** The order holds everywhere except around index [i]; what surrounds [i]
    is in order with [i] left out. *)
Definition hole (less : nat -> nat -> bool) (i : nat) (h : Heap) : Prop :=
  (forall k, 0 < k < length (items h) -> k <> i -> parent k <> i ->
     less (it h k) (it h (parent k)) = false)
  /\ (forall k, 0 < k < length (items h) -> parent k = i -> 0 < i ->
     less (it h k) (it h (parent i)) = false).

Definition below_ok (less : nat -> nat -> bool) (i : nat) (h : Heap) : Prop :=
  forall k, 0 < k < length (items h) -> parent k = i -> less (it h k) (it h i) = false.

Definition above_ok (less : nat -> nat -> bool) (i : nat) (h : Heap) : Prop :=
  0 < i -> less (it h i) (it h (parent i)) = false.

(** ** Index arithmetic *)

Lemma parent_spec k : 0 < k -> k = 2 * parent k + 1 \/ k = 2 * parent k + 2.
Proof.
  intros Hk. unfold parent.
  pose proof (Nat.div_mod_eq (k - 1) 2). pose proof (Nat.mod_upper_bound (k - 1) 2). lia.
Qed.

Lemma parent_left i : parent (2 * i + 1) = i.
Proof. destruct (parent_spec (2 * i + 1)); lia. Qed.

Lemma parent_right i : parent (2 * i + 1 + 1) = i.
Proof. destruct (parent_spec (2 * i + 1 + 1)); lia. Qed.

Lemma parent_lt k : 0 < k -> parent k < k.
Proof. intros Hk. destruct (parent_spec k Hk); lia. Qed.

(** ** [swap] *)

Lemma length_swap h i j : length (items (Pq.swap h i j)) = length (items h).
Proof. unfold Pq.swap. simpl. by rewrite !length_insert. Qed.

Lemma it_lookup h k : k < length (items h) -> items h !! k = Some (it h k).
Proof. intros Hk. by apply list_lookup_lookup_total_lt. Qed.

Lemma it_swap h i j k :
  i < length (items h) -> j < length (items h) -> k < length (items h) ->
  it (Pq.swap h i j) k =
    if decide (k = j) then it h i else if decide (k = i) then it h j else it h k.
Proof.
  intros Hi Hj Hk. unfold Pq.swap. simpl.
  destruct (decide (k = j)) as [->|Hkj].
  { apply list_lookup_total_insert_eq. by rewrite length_insert. }
  rewrite list_lookup_total_insert_ne; [|done].
  destruct (decide (k = i)) as [->|Hki].
  - by apply list_lookup_total_insert_eq.
  - by rewrite list_lookup_total_insert_ne.
Qed.

Lemma wf_inj h i j x :
  heap_wf h -> items h !! i = Some x -> items h !! j = Some x -> i = j.
Proof. intros [Hi _] H1%Hi H2%Hi. congruence. Qed.

Lemma wf_NoDup h : heap_wf h -> NoDup (items h).
Proof.
  intros Hwf. apply NoDup_alt. intros i j x Hi Hj. by eapply wf_inj.
Qed.

Lemma wf_swap h i j :
  heap_wf h -> i < length (items h) -> j < length (items h) -> heap_wf (Pq.swap h i j).
Proof.
  intros Hwf Hi Hj.
  assert (Hx := it_lookup h i Hi). assert (Hy := it_lookup h j Hj).
  assert (Hpx := wf_items h Hwf _ _ Hx). assert (Hpy := wf_items h Hwf _ _ Hy).
  assert (Hlx := lookup_lt_Some _ _ _ Hpx). assert (Hly := lookup_lt_Some _ _ _ Hpy).
  assert (Hpos : forall x, pos (Pq.swap h i j) !! x =
     if decide (x = it h i) then Some (S j)
     else if decide (x = it h j) then Some (S i) else pos h !! x).
  { intros x. unfold Pq.swap. simpl. rewrite !Nat.add_1_r, list_lookup_insert.
    rewrite list_lookup_insert, length_insert.
    repeat case_decide; destruct_and?; simplify_eq; intuition congruence. }
  split.
  - intros k x Hk. assert (Hlt := lookup_lt_Some _ _ _ Hk). rewrite length_swap in Hlt.
    rewrite it_lookup in Hk by (by rewrite length_swap).
    rewrite (it_swap h i j k) in Hk by done. rewrite Hpos.
    destruct (decide (k = j)); [|destruct (decide (k = i))]; simplify_eq.
    + by rewrite decide_True.
    + case_decide as E; [|by rewrite decide_True].
      rewrite E in Hy. by rewrite (wf_inj h i j _ Hwf Hx Hy).
    + assert (Hkk := it_lookup h k Hlt).
      rewrite !decide_False; [by apply Hwf| |];
        intros E; rewrite E in Hkk; eauto using wf_inj.
  - intros x p Hp. rewrite Hpos in Hp.
    assert (p < length (items h)).
    { repeat case_decide; simplify_eq; try lia. by eapply lookup_lt_Some, (wf_pos h Hwf). }
    rewrite it_lookup by (by rewrite length_swap). rewrite (it_swap h i j p) by done. f_equal.
    repeat (case_decide; simplify_eq; try done).
    + apply (wf_pos h Hwf) in Hp. naive_solver.
    + apply (wf_pos h Hwf) in Hp. naive_solver.
    + apply (wf_pos h Hwf) in Hp. by apply list_lookup_total_correct.
Qed.

Lemma swap_perm h i j :
  i < length (items h) -> j < length (items h) -> items (Pq.swap h i j) ≡ₚ items h.
Proof.
  intros Hi Hj. unfold Pq.swap. simpl.
  destruct (decide (i = j)) as [->|Hne].
  { rewrite list_insert_insert_eq, list_insert_id; [done|]. by apply it_lookup. }
  apply (Permutation_insert_swap (items h)); auto using it_lookup.
Qed.

(** ** Sifting *)

Section Sift.
Context (less : nat -> nat -> bool) `{!WeakOrder less}.

Lemma less_irrefl a : less a a = false.
Proof. destruct (less a a) eqn:E; [|done]. by rewrite (less_asym a a E) in E. Qed.

Lemma hole_ord i h : hole less i h -> below_ok less i h -> above_ok less i h -> heap_ord less h.
Proof.
  intros [H1 H2] Hb Ha k Hk.
  destruct (decide (k = i)) as [->|]; [apply Ha; lia|].
  destruct (decide (parent k = i)) as [<-|]; [by apply Hb|by apply H1].
Qed.

Lemma ord_hole i h : heap_ord less h -> hole less i h.
Proof.
  intros Ho. split; intros k Hk; [by intros; apply Ho|].
  intros Hp Hi. apply nless_trans with (it h i).
  - apply Ho. pose proof (parent_lt k). lia.
  - subst i. apply Ho. lia.
Qed.

Lemma up_step h j :
  0 < j < length (items h) -> hole less j h -> below_ok less j h ->
  less (it h j) (it h (parent j)) = true ->
  hole less (parent j) (Pq.swap h (parent j) j) /\ below_ok less (parent j) (Pq.swap h (parent j) j).
Proof.
  intros Hj [H1 H2] Hb Hlt. pose proof (parent_lt j). set (p := parent j) in *.
  assert (Hsw : forall k, k < length (items h) -> it (Pq.swap h p j) k =
    if decide (k = j) then it h p else if decide (k = p) then it h j else it h k).
  { intros k Hk. apply it_swap; lia. }
  split; [split|]; unfold below_ok; rewrite length_swap; intros k Hk.
  - intros Hkp Hpk. pose proof (parent_lt k). rewrite !Hsw by lia.
    destruct (decide (k = j)) as [->|]; [done|]. rewrite (decide_False (P := k = p)) by done.
    destruct (decide (parent k = j)) as [<-|]; [apply H2; auto; lia|].
    rewrite decide_False by done. by apply H1.
  - intros Hpk Hp0. pose proof (parent_lt k). pose proof (parent_lt p).
    rewrite !Hsw by lia. rewrite (decide_False (P := k = p)) by lia.
    rewrite (decide_False (P := parent p = j)), (decide_False (P := parent p = p)) by lia.
    assert (Hpp : less (it h p) (it h (parent p)) = false).
    { apply H1; unfold p in *; lia. }
    destruct (decide (k = j)); [done|]. apply nless_trans with (it h p); [done|].
    rewrite <- Hpk. apply H1; lia.
  - intros Hpk. pose proof (parent_lt k). rewrite !Hsw by lia.
    rewrite (decide_False (P := p = j)), (decide_True (P := p = p)) by lia.
    destruct (decide (k = j)) as [->|]; [by apply less_asym|].
    rewrite decide_False by lia.
    apply nless_trans with (it h p); [by apply less_asym|]. rewrite <- Hpk. apply H1; lia.
Qed.

Lemma up_loop_ord fuel h j :
  j <= fuel -> j < length (items h) -> hole less j h -> below_ok less j h ->
  heap_ord less (Pq.up_loop less fuel h j).
Proof.
  revert h j. induction fuel as [|fuel IH]; intros h j Hf Hj Hh Hb; cbn [Pq.up_loop].
  { apply hole_ord with j; [done..|]. intros ?. lia. }
  destruct (Nat.ltb_spec 0 j) as [Hj0|Hj0].
  2:{ apply hole_ord with j; [done..|]. intros ?. lia. }
  fold (parent j). destruct (less (it h j) (it h (parent j))) eqn:E; cbn [negb].
  - destruct (up_step h j) as [Hh' Hb']; [lia|done..|].
    pose proof (parent_lt j Hj0). apply IH; rewrite ?length_swap; auto; lia.
  - apply hole_ord with j; [done..|]. by intros _.
Qed.

Lemma down_step h i c :
  i < c < length (items h) -> parent c = i -> hole less i h ->
  less (it h c) (it h i) = true ->
  (forall k, 0 < k < length (items h) -> parent k = i -> less (it h k) (it h c) = false) ->
  hole less c (Pq.swap h i c) /\ above_ok less c (Pq.swap h i c).
Proof.
  intros Hic Hpc [H1 H2] Hlt Hmin.
  assert (Hsw : forall k, k < length (items h) -> it (Pq.swap h i c) k =
    if decide (k = c) then it h i else if decide (k = i) then it h c else it h k).
  { intros k Hk. apply it_swap; lia. }
  split; [split|]; unfold above_ok; rewrite ?length_swap.
  - intros k Hk Hkc Hpk. pose proof (parent_lt k). rewrite !Hsw by lia.
    rewrite (decide_False (P := k = c)), (decide_False (P := parent k = c)) by done.
    destruct (decide (k = i)) as [->|].
    + rewrite decide_False by lia. apply H2; [lia|done|lia].
    + destruct (decide (parent k = i)) as [Hpi|]; [by apply Hmin|by apply H1].
  - intros k Hk Hpk Hc0. pose proof (parent_lt k). rewrite !Hsw by lia.
    rewrite Hpc. rewrite (decide_False (P := k = c)), (decide_False (P := k = i)) by lia.
    rewrite (decide_False (P := i = c)), decide_True by lia.
    rewrite <- Hpk. apply H1; lia.
  - intros Hc0. rewrite !Hsw by (rewrite ?Hpc; lia).
    rewrite Hpc, decide_True, (decide_False (P := i = c)), decide_True by lia.
    by apply less_asym.
Qed.

(** The child [down] compares with: the smallest of the two. *)
Lemma smallest_child h i :
  let c := if (2 * i + 1 + 1 <? length (items h))
              && less (it h (2 * i + 1 + 1)) (it h (2 * i + 1))
           then 2 * i + 1 + 1 else 2 * i + 1 in
  2 * i + 1 < length (items h) ->
  i < c < length (items h) /\ parent c = i /\
  (forall k, 0 < k < length (items h) -> parent k = i -> less (it h k) (it h c) = false).
Proof.
  intros c Hl. unfold c.
  assert (Hk : forall k, 0 < k -> parent k = i -> k = 2 * i + 1 \/ k = 2 * i + 1 + 1).
  { intros k Hk Hp. destruct (parent_spec k Hk); lia. }
  destruct (Nat.ltb_spec (2 * i + 1 + 1) (length (items h))) as [Hr|Hr]; cbn [andb].
  - destruct (less (it h (2 * i + 1 + 1)) (it h (2 * i + 1))) eqn:E.
    + split_and!; [lia..|apply parent_right|]. intros k Hk1 Hp.
      destruct (Hk k) as [->| ->]; [lia|done|by apply less_asym|apply less_irrefl].
    + split_and!; [lia..|apply parent_left|]. intros k Hk1 Hp.
      destruct (Hk k) as [->| ->]; [lia|done|apply less_irrefl|done].
  - split_and!; [lia..|apply parent_left|]. intros k Hk1 Hp.
    destruct (Hk k) as [->| ->]; [lia|done|apply less_irrefl|lia].
Qed.

Lemma down_loop_ge fuel h i : i <= snd (Pq.down_loop less fuel h i).
Proof.
  revert h i. induction fuel as [|fuel IH]; intros h i; cbn [Pq.down_loop fst snd negb]; [done|].
  destruct (Nat.leb_spec (length (items h)) (2 * i + 1)); cbn [Pq.down_loop fst snd negb]; [done|].
  destruct (smallest_child h i) as [Hc _]; [done|].
  set (c := if _ && _ then _ else _) in *.
  destruct (less (it h c) (it h i)); cbn [Pq.down_loop fst snd negb]; [|done].
  etrans; [|apply IH]. lia.
Qed.

(** [down] from a hole whose upper edge is in order leaves a heap. *)
Lemma down_loop_ord fuel h i :
  length (items h) <= i + fuel -> i < length (items h) -> hole less i h -> above_ok less i h ->
  heap_ord less (fst (Pq.down_loop less fuel h i)).
Proof.
  revert h i. induction fuel as [|fuel IH]; intros h i Hf Hi Hh Ha; [lia|]. cbn [Pq.down_loop fst snd negb].
  destruct (Nat.leb_spec (length (items h)) (2 * i + 1)) as [Hn|Hn]; cbn [Pq.down_loop fst snd negb].
  { apply hole_ord with i; [done| |done]. intros k Hk Hp.
    destruct (parent_spec k); lia. }
  destruct (smallest_child h i) as (Hc & Hp & Hmin); [done|].
  set (c := if _ && _ then _ else _) in *.
  destruct (less (it h c) (it h i)) eqn:E; cbn [Pq.down_loop fst snd negb].
  - destruct (down_step h i c) as [Hh' Ha']; [done..|].
    apply IH; rewrite ?length_swap; auto; lia.
  - apply hole_ord with i; [done| |done]. intros k Hk Hpk.
    apply nless_trans with (it h c); [done|by apply Hmin].
Qed.

(** [if !down(i) { up(i) }] repairs a heap broken around [i] only. *)
Lemma down_or_up_ord h i :
  i < length (items h) -> hole less i h -> heap_ord less (Pq.down_or_up less h i).
Proof.
  intros Hi Hh. unfold Pq.down_or_up, Pq.down.
  destruct (length (items h)) as [|n] eqn:Hlen; [lia|]. cbn [Pq.down_loop fst snd negb]. rewrite Hlen.
  destruct (Nat.leb_spec (S n) (2 * i + 1)) as [Hn|Hn]; cbn [Pq.down_loop fst snd negb].
  { rewrite Nat.ltb_irrefl. apply up_loop_ord; [lia..|done|].
    intros k Hk Hp. destruct (parent_spec k); lia. }
  rewrite <- Hlen in *.
  destruct (smallest_child h i) as (Hc & Hp & Hmin); [done|].
  set (c := if _ && _ then _ else _) in *.
  destruct (less (it h c) (it h i)) eqn:E; cbn [Pq.down_loop fst snd negb].
  - destruct (down_step h i c) as [Hh' Ha']; [done..|].
    pose proof (down_loop_ge n (Pq.swap h i c) c) as Hge.
    pose proof (down_loop_ord n (Pq.swap h i c) c) as Hord.
    rewrite length_swap in Hord.
    destruct (Pq.down_loop less n (Pq.swap h i c) c) as [h' i'] eqn:Ed. simpl in *.
    destruct (Nat.ltb_spec i i'); [|lia]. apply Hord; [lia..|done|done].
  - rewrite Nat.ltb_irrefl. apply up_loop_ord; [lia..|done|].
    intros k Hk Hpk. apply nless_trans with (it h c); [done|by apply Hmin].
Qed.

End Sift.

(** ** Membership and indexing are kept by sifting *)

(** [h'] holds the same handles as [h] and is well formed when [h] is. *)
Definition same_members (h h' : Heap) : Prop :=
  (heap_wf h -> heap_wf h') /\ items h' ≡ₚ items h.

Lemma same_refl h : same_members h h.
Proof. by split. Qed.

Lemma same_trans h1 h2 h3 : same_members h1 h2 -> same_members h2 h3 -> same_members h1 h3.
Proof. intros [W1 P1] [W2 P2]. split; [auto|by rewrite P2]. Qed.

Lemma same_length h h' : same_members h h' -> length (items h') = length (items h).
Proof. intros [_ P]. by apply Permutation_length. Qed.

Lemma swap_same h i j :
  i < length (items h) -> j < length (items h) -> same_members h (Pq.swap h i j).
Proof. intros Hi Hj. split; [intros; by apply wf_swap|by apply swap_perm]. Qed.

Lemma up_loop_same less fuel h j :
  j < length (items h) -> same_members h (Pq.up_loop less fuel h j).
Proof.
  revert h j. induction fuel as [|fuel IH]; intros h j Hj; cbn [Pq.up_loop]; [apply same_refl|].
  destruct (Nat.ltb_spec 0 j) as [Hj0|]; [|apply same_refl].
  fold (parent j). pose proof (parent_lt j Hj0).
  destruct (less _ _); cbn [negb]; [|apply same_refl].
  apply same_trans with (Pq.swap h (parent j) j); [apply swap_same; lia|].
  apply IH. rewrite length_swap. lia.
Qed.

Lemma down_loop_same less fuel h i :
  i < length (items h) -> same_members h (fst (Pq.down_loop less fuel h i)).
Proof.
  revert h i.
  induction fuel as [|fuel IH]; intros h i Hi; cbn [Pq.down_loop fst]; [apply same_refl|].
  destruct (Nat.leb_spec (length (items h)) (2 * i + 1)) as [|Hn]; cbn [fst]; [apply same_refl|].
  set (c := if _ && _ then _ else _).
  assert (Hc : c < length (items h)).
  { unfold c. destruct (Nat.ltb_spec (2 * i + 1 + 1) (length (items h))); cbn [andb];
      [case_match|]; lia. }
  destruct (less (it h c) (it h i)); cbn [negb fst]; [|apply same_refl].
  apply same_trans with (Pq.swap h i c); [apply swap_same; lia|].
  apply IH. by rewrite length_swap.
Qed.

Lemma down_or_up_same less h i :
  i < length (items h) -> same_members h (Pq.down_or_up less h i).
Proof.
  intros Hi. unfold Pq.down_or_up, Pq.down.
  pose proof (down_loop_same less (length (items h)) h i Hi) as Hs.
  destruct (Pq.down_loop _ _ _ _) as [h' i']. simpl in Hs.
  destruct (i <? i'); [done|]. apply same_trans with h'; [done|].
  apply up_loop_same. by rewrite (same_length h h').
Qed.

Lemma Contains_spec h x : heap_wf h -> Pq.Contains h x = true <-> x ∈ items h.
Proof.
  intros Hwf. unfold Pq.Contains. rewrite list_elem_of_lookup. split.
  - destruct (pos h !! x) as [[|p]|] eqn:E; intros H; try done.
    exists p. by apply (wf_pos h Hwf).
  - intros [i Hi]. by rewrite (wf_items h Hwf _ _ Hi).
Qed.

Lemma member_index h x :
  heap_wf h -> x ∈ items h ->
  let i := (pos h !!! x) - 1 in i < length (items h) /\ items h !! i = Some x.
Proof.
  intros Hwf [i Hi]%list_elem_of_lookup. pose proof (wf_items h Hwf _ _ Hi) as Hp.
  rewrite (list_lookup_total_correct _ _ _ Hp). simpl. rewrite Nat.sub_0_r.
  split; [by eapply lookup_lt_Some|done].
Qed.

Lemma ensure_items h x : items (Pq.ensure h x) = items h.
Proof. unfold Pq.ensure. by case_match. Qed.

Lemma ensure_pos h x y :
  pos (Pq.ensure h x) !! y =
    match pos h !! y with
    | Some p => Some p
    | None => if decide (y < length (pos (Pq.ensure h x))) then Some 0 else None
    end.
Proof.
  unfold Pq.ensure. destruct (Nat.ltb_spec x (length (pos h))) as [Hx|Hx].
  { destruct (pos h !! y) eqn:E; [done|]. apply lookup_ge_None in E.
    by rewrite decide_False by lia. }
  simpl. set (n := _ - length (pos h)). rewrite length_app, length_replicate.
  destruct (pos h !! y) eqn:E.
  { rewrite lookup_app_l; [done|by eapply lookup_lt_Some]. }
  apply lookup_ge_None in E. rewrite lookup_app_r by done.
  case_decide; [apply lookup_replicate_2; lia|]. apply lookup_ge_None. rewrite length_replicate. lia.
Qed.

Lemma ensure_lt h x : x < length (pos (Pq.ensure h x)).
Proof.
  unfold Pq.ensure. destruct (Nat.ltb_spec x (length (pos h))) as [Hx|Hx]; [done|].
  cbn [pos set]. rewrite length_app, length_replicate. lia.
Qed.

Lemma ensure_wf h x : heap_wf h -> heap_wf (Pq.ensure h x).
Proof.
  intros [W1 W2]. split.
  - intros i y. rewrite ensure_items, ensure_pos. intros H%W1. by rewrite H.
  - intros y p. rewrite ensure_items, ensure_pos.
    destruct (pos h !! y) eqn:E; [intros [= ->]; by apply W2|]. by case_decide.
Qed.

Lemma take_last_wf h x :
  heap_wf h -> items h !! (length (items h) - 1) = Some x ->
  let h' := mkHeap (take (length (items h) - 1) (items h)) (<[x := 0]> (pos h)) in
  heap_wf h' /\ items h ≡ₚ x :: items h'.
Proof.
  intros Hwf Hx. pose proof (lookup_lt_Some _ _ _ Hx) as Hlt.
  set (n := length (items h) - 1) in *.
  assert (Hpx := wf_items h Hwf _ _ Hx). assert (Hlx := lookup_lt_Some _ _ _ Hpx).
  split.
  - split; simpl.
    + intros i y [Hi Hy]%lookup_take_Some. rewrite list_lookup_insert_ne; [by apply Hwf|].
      intros ->. pose proof (wf_inj h _ _ _ Hwf Hx Hi). lia.
    + intros y p. rewrite list_lookup_insert. case_decide as E; [done|]. intros Hp.
      assert (Hy := wf_pos h Hwf _ _ Hp). apply lookup_take_Some. split; [done|].
      pose proof (lookup_lt_Some _ _ _ Hy). destruct (decide (p = n)) as [->|]; [|lia].
      rewrite Hx in Hy. simplify_eq. tauto.
  - simpl. rewrite <- (take_drop_middle _ _ _ Hx) at 1.
    rewrite (drop_ge _ (S n)) by lia. rewrite Permutation_app_comm. done.
Qed.

(** ** The operations *)

(** Appending a fresh handle at the end, as [Push] does before sifting. *)
Definition snoc_heap (h : Heap) (x : nat) : Heap :=
  mkHeap (items h ++ [x]) (<[x := length (items h) + 1]> (pos h)).

Lemma snoc_wf h x :
  heap_wf h -> x ∉ items h -> x < length (pos h) -> heap_wf (snoc_heap h x).
Proof.
  intros Hwf Hx Hlt. split; simpl.
  - intros i y. rewrite list_lookup_insert. intros [[_ Hi]|[-> ->]]%lookup_snoc_Some.
    + rewrite decide_False; [by apply Hwf|]. intros [-> _]. destruct Hx.
      apply list_elem_of_lookup. eauto.
    + rewrite decide_True by auto. f_equal. lia.
  - intros y p. rewrite list_lookup_insert. case_decide as E.
    + destruct E as [<- _]. intros [= Hp']. rewrite lookup_app_r by lia.
      by replace (p - length (items h)) with 0 by lia.
    + intros Hy%(wf_pos h Hwf). rewrite lookup_app_l; [done|]. by eapply lookup_lt_Some.
Qed.

(** [Push] of an absent handle is [up] from the end of the extended array. *)
Lemma Push_absent less h x :
  heap_wf h -> x ∉ items h ->
  let h' := Pq.ensure h x in
  x < length (pos h') /\ heap_wf (snoc_heap h' x) /\
  Pq.Push less h x = Pq.up less (snoc_heap h' x) (length (items h)).
Proof.
  intros Hwf Hx h'. unfold Pq.Push. fold h'.
  pose proof (ensure_wf h x Hwf) as Hwf'. pose proof (ensure_lt h x) as Hlt.
  pose proof (ensure_items h x) as Hit. fold h' in Hwf', Hlt, Hit.
  assert (Hp : pos h' !!! x = 0).
  { destruct (pos h' !!! x) eqn:E; [done|]. destruct Hx.
    rewrite <- Hit. apply list_elem_of_lookup. eexists. apply (wf_pos h' Hwf').
    rewrite <- E. by apply list_lookup_lookup_total_lt. }
  split_and!; [done|apply snoc_wf; [done|by rewrite Hit|done]|].
  rewrite Hp. cbn [Nat.eqb negb set items pos Heap_eta]. unfold snoc_heap.
  f_equal. rewrite length_app, Hit. simpl. lia.
Qed.

Lemma Push_members less h x :
  heap_wf h -> x ∉ items h ->
  heap_wf (Pq.Push less h x) /\ items (Pq.Push less h x) ≡ₚ x :: items h.
Proof.
  intros Hwf Hx. destruct (Push_absent less h x Hwf Hx) as (_ & Hw & ->).
  destruct (up_loop_same less (length (items h)) (snoc_heap (Pq.ensure h x) x) (length (items h)))
    as [W P]; [simpl; rewrite length_app, ensure_items; simpl; lia|].
  split; [by apply W|]. unfold Pq.up. rewrite P. simpl. rewrite ensure_items.
  by rewrite Permutation_app_comm.
Qed.

Lemma Push_ord less `{!WeakOrder less} h x :
  heap_wf h -> x ∉ items h -> heap_ord less h -> heap_ord less (Pq.Push less h x).
Proof.
  intros Hwf Hx Ho. destruct (Push_absent less h x Hwf Hx) as (_ & _ & ->).
  assert (Hl : length (items (snoc_heap (Pq.ensure h x) x)) = S (length (items h))).
  { simpl. rewrite length_app, ensure_items. simpl. lia. }
  assert (Hi : forall k, k < length (items h) -> it (snoc_heap (Pq.ensure h x) x) k = it h k).
  { intros k Hk. simpl. rewrite ensure_items. by rewrite lookup_total_app_l. }
  apply up_loop_ord; [done|done|lia|split|].
  - rewrite Hl. intros k Hk Hne _. pose proof (parent_lt k). rewrite !Hi by lia. apply Ho. lia.
  - rewrite Hl. intros k Hk Hp. pose proof (parent_lt k). lia.
  - intros k. rewrite Hl. intros Hk Hp. pose proof (parent_lt k). lia.
Qed.

(** Removing the item at index [i]: swap it with the last one and cut. *)
Definition cut (h : Heap) (i : nat) : Heap :=
  let h1 := Pq.swap h i (length (items h) - 1) in
  mkHeap (take (length (items h) - 1) (items h1)) (<[it h i := 0]> (pos h1)).

Lemma cut_members h i :
  heap_wf h -> i < length (items h) ->
  heap_wf (cut h i) /\ items h ≡ₚ it h i :: items (cut h i).
Proof.
  intros Hwf Hi. unfold cut. set (n := length (items h) - 1).
  pose proof (length_swap h i n) as Hl. assert (Hw := wf_swap h i n Hwf Hi ltac:(lia)).
  assert (Hlast : items (Pq.swap h i n) !! (length (items (Pq.swap h i n)) - 1) = Some (it h i)).
  { rewrite it_lookup by lia. rewrite Hl, it_swap by lia. by rewrite decide_True. }
  destruct (take_last_wf _ _ Hw Hlast) as [W P]. rewrite Hl in W, P. split; [done|].
  etrans; [symmetry; apply (swap_perm h i n); lia|done].
Qed.

Lemma cut_length h i : i < length (items h) -> length (items (cut h i)) = length (items h) - 1.
Proof. intros Hi. simpl. rewrite length_take, !length_insert. lia. Qed.

Lemma cut_hole less `{!WeakOrder less} h i :
  heap_ord less h -> i < length (items h) -> hole less i (cut h i).
Proof.
  intros Ho Hi. pose proof (cut_length h i Hi) as Hl.
  assert (Hc : forall k, k < length (items h) - 1 -> k <> i -> it (cut h i) k = it h k).
  { intros k Hk Hne. unfold cut. cbn [items]. rewrite lookup_total_take_lt by lia.
    rewrite it_swap by lia. by rewrite !decide_False by lia. }
  split; rewrite Hl; intros k Hk; pose proof (parent_lt k).
  - intros Hne Hp. rewrite !Hc by lia. apply Ho. lia.
  - intros Hp H0. pose proof (parent_lt i). rewrite !Hc by lia.
    apply (ord_hole less i h Ho); [lia|done|done].
Qed.

Lemma Remove_spec less h x :
  heap_wf h ->
  Pq.Remove less h x =
    if decide (x ∈ items h) then
      let i := (pos h !!! x) - 1 in
      (if i <? length (items h) - 1 then Pq.down_or_up less (cut h i) i else cut h i, true)
    else (h, false).
Proof.
  intros Hwf. unfold Pq.Remove. destruct (decide (x ∈ items h)) as [Hx|Hx].
  - rewrite (proj2 (Contains_spec h x Hwf) Hx). cbn [negb].
    destruct (member_index h x Hwf Hx) as [_ Hi]. cbn zeta in Hi |- *. unfold cut.
    by rewrite (list_lookup_total_correct _ _ _ Hi).
  - destruct (Pq.Contains h x) eqn:E; [|done]. by apply Contains_spec in E.
Qed.

(** [Remove] takes exactly [x] out, keeping the order. *)
Lemma Remove_members less h x :
  heap_wf h -> x ∈ items h ->
  heap_wf (fst (Pq.Remove less h x)) /\ items h ≡ₚ x :: items (fst (Pq.Remove less h x)).
Proof.
  intros Hwf Hx. rewrite (Remove_spec less h x Hwf), decide_True by done.
  destruct (member_index h x Hwf Hx) as [Hlt Hi]. cbn zeta. set (i := _ - 1) in *.
  destruct (cut_members h i Hwf Hlt) as [W P].
  rewrite (list_lookup_total_correct _ _ _ Hi) in P. cbn [fst].
  destruct (Nat.ltb_spec i (length (items h) - 1)) as [Hl|]; [|done].
  destruct (down_or_up_same less (cut h i) i) as [W' P']; [rewrite cut_length by done; lia|].
  split; [auto|]. by rewrite P'.
Qed.

Lemma Remove_absent less h x :
  heap_wf h -> x ∉ items h -> Pq.Remove less h x = (h, false).
Proof. intros Hwf Hx. rewrite (Remove_spec less h x Hwf). by rewrite decide_False. Qed.

Lemma Remove_wf less h x : heap_wf h -> heap_wf (fst (Pq.Remove less h x)).
Proof.
  intros Hwf. destruct (decide (x ∈ items h)); [by apply Remove_members|].
  by rewrite Remove_absent.
Qed.

Lemma Remove_elem less h x y :
  heap_wf h -> y ∈ items (fst (Pq.Remove less h x)) <-> y ∈ items h /\ y <> x.
Proof.
  intros Hwf. destruct (decide (x ∈ items h)) as [Hx|Hx].
  - destruct (Remove_members less h x Hwf Hx) as [W P]. pose proof (wf_NoDup h Hwf) as Hnd.
    rewrite P in Hnd |- *. apply NoDup_cons in Hnd as [Hn _]. set_solver.
  - rewrite Remove_absent by done. set_solver.
Qed.

Lemma Remove_ord less `{!WeakOrder less} h x :
  heap_wf h -> heap_ord less h -> heap_ord less (fst (Pq.Remove less h x)).
Proof.
  intros Hwf Ho. rewrite (Remove_spec less h x Hwf). case_decide as Hx; [|done].
  destruct (member_index h x Hwf Hx) as [Hlt Hi]. cbn zeta. set (i := _ - 1) in *. cbn [fst].
  pose proof (cut_length h i Hlt) as Hl. pose proof (cut_hole less h i Ho Hlt) as Hh.
  destruct (Nat.ltb_spec i (length (items h) - 1)).
  - apply down_or_up_ord; [done|lia|done].
  - intros k Hk. pose proof (parent_lt k). apply Hh; lia.
Qed.

(** [Peek]/[Pop]: the head is a minimum. *)
Lemma heap_min less `{!WeakOrder less} h x y :
  heap_ord less h -> Pq.Peek h = Some x -> y ∈ items h -> less y x = false.
Proof.
  intros Ho Hx [k Hk]%list_elem_of_lookup. unfold Pq.Peek in Hx.
  revert y Hk. induction (lt_wf k) as [k _ IH]. intros y Hk.
  destruct (decide (k = 0)) as [->|Hk0].
  { simplify_eq. apply (less_irrefl less). }
  pose proof (parent_lt k). pose proof (lookup_lt_Some _ _ _ Hk) as Hlt.
  apply nless_trans with (it h (parent k)).
  - apply (IH (parent k)); [lia|]. apply it_lookup. lia.
  - rewrite <- (list_lookup_total_correct _ _ _ Hk). apply Ho. lia.
Qed.

Lemma Pop_Remove less h x :
  heap_wf h -> Pq.Peek h = Some x ->
  snd (Pq.Pop less h) = Some x /\
  heap_wf (fst (Pq.Pop less h)) /\ items h ≡ₚ x :: items (fst (Pq.Pop less h)).
Proof.
  intros Hwf Hx. unfold Pq.Peek in Hx. unfold Pq.Pop.
  destruct (items h) as [|t l] eqn:E; [done|]. simpl in Hx. simplify_eq. rewrite <- E.
  assert (Hlt : 0 < length (items h)) by (rewrite E; simpl; lia).
  assert (Hcut : mkHeap (take (length (items h) - 1) (items (Pq.swap h 0 (length (items h) - 1))))
            (<[x := 0]> (pos (Pq.swap h 0 (length (items h) - 1)))) = cut h 0).
  { unfold cut. by rewrite (list_lookup_total_correct (items h) 0 x) by (by rewrite E). }
  rewrite Hcut. destruct (cut_members h 0 Hwf Hlt) as [W P].
  rewrite (list_lookup_total_correct (items h) 0 x) in P by (by rewrite E).
  cbn [fst snd]. split; [done|].
  destruct (Nat.ltb_spec 0 (length (items (cut h 0)))); [|done].
  destruct (down_loop_same less (length (items (cut h 0))) (cut h 0) 0) as [W' P']; [done|].
  unfold Pq.down. destruct (Pq.down_loop _ _ _ _) as [h' i]. simpl in *.
  split; [auto|]. by rewrite P'.
Qed.

Lemma Pop_ord less `{!WeakOrder less} h :
  heap_wf h -> heap_ord less h -> heap_ord less (fst (Pq.Pop less h)).
Proof.
  intros Hwf Ho. unfold Pq.Pop. destruct (items h) as [|t l] eqn:E; [done|]. rewrite <- E.
  assert (Hlt : 0 < length (items h)) by (rewrite E; simpl; lia).
  assert (Hcut : mkHeap (take (length (items h) - 1) (items (Pq.swap h 0 (length (items h) - 1))))
            (<[t := 0]> (pos (Pq.swap h 0 (length (items h) - 1)))) = cut h 0).
  { unfold cut. by rewrite (list_lookup_total_correct (items h) 0 t) by (by rewrite E). }
  rewrite Hcut. cbn [fst]. pose proof (cut_length h 0 Hlt) as Hl.
  pose proof (cut_hole less h 0 Ho Hlt) as Hh.
  destruct (Nat.ltb_spec 0 (length (items (cut h 0)))) as [H0|H0].
  - pose proof (down_loop_ord less (length (items (cut h 0))) (cut h 0) 0) as Hd.
    unfold Pq.down. destruct (Pq.down_loop _ _ _ _) as [h' i]. apply Hd; [lia..|done|].
    intros ?. lia.
  - intros k Hk. lia.
Qed.

(** ** A change of keys *)

Lemma heap_ord_ext less less' h :
  (forall a b, a ∈ items h -> b ∈ items h -> less a b = less' a b) ->
  heap_ord less h -> heap_ord less' h.
Proof.
  intros He Ho k Hk. pose proof (parent_lt k). rewrite <- He; [by apply Ho|..];
    apply list_elem_of_lookup; eexists; apply it_lookup; lia.
Qed.

(** The key of one member changed: [Fix] restores the order. *)
Lemma Fix_ord less less' `{!WeakOrder less'} `{!WeakOrder less} h x :
  heap_wf h -> x ∈ items h -> heap_ord less h ->
  (forall a b, a ∈ items h -> b ∈ items h -> a <> x -> b <> x -> less a b = less' a b) ->
  heap_ord less' (fst (Pq.Fix less' h x)).
Proof.
  intros Hwf Hx Ho He. unfold Pq.Fix. rewrite (proj2 (Contains_spec h x Hwf) Hx). simpl.
  destruct (member_index h x Hwf Hx) as [Hlt Hi]. set (i := _ - 1) in *.
  assert (Hm : forall k, k < length (items h) -> it h k ∈ items h).
  { intros k Hk. apply list_elem_of_lookup. eexists. by apply it_lookup. }
  assert (Hne : forall k, k < length (items h) -> k <> i -> it h k <> x).
  { intros k Hk Hki E. apply Hki, (wf_inj h k i x Hwf); [|done]. rewrite <- E. by apply it_lookup. }
  apply down_or_up_ord; [done|done|]. destruct (ord_hole less i h Ho) as [H1 H2].
  split; intros k Hk; pose proof (parent_lt k); pose proof (parent_lt i); intros;
    rewrite <- He; try (by apply Hm; lia); try (apply Hne; lia); auto.
Qed.

Lemma Fix_same less h x : heap_wf h -> same_members h (fst (Pq.Fix less h x)).
Proof.
  intros Hwf. unfold Pq.Fix. destruct (Pq.Contains h x) eqn:E; [|apply same_refl].
  apply Contains_spec in E; [|done]. simpl.
  apply down_or_up_same. by apply member_index.
Qed.

(** ** The interface the scheduler uses

    [good less h P]: a well-formed heap in order whose members are [P]. *)
Record good (less : nat -> nat -> bool) (h : Heap) (P : nat -> Prop) : Prop := {
  good_wf : heap_wf h;
  good_ord : heap_ord less h;
  good_mem : forall x, x ∈ items h <-> P x
}.

Lemma New_good less n : good less (Pq.New n) (fun _ => False).
Proof.
  split; [split| |].
  - intros i x Hi. done.
  - intros x p Hx. simpl in Hx. by apply lookup_replicate in Hx as [? _].
  - intros k Hk. simpl in Hk. lia.
  - intros x. simpl. set_solver.
Qed.

(** Two orderings that differ at most on comparisons with [x]. *)
Definition agree_off (x : nat) (less less' : nat -> nat -> bool) : Prop :=
  forall a b, a <> x -> b <> x -> less a b = less' a b.

Lemma agree_off_refl x less : agree_off x less less.
Proof. by intros a b. Qed.

Lemma good_iff less h (P Q : nat -> Prop) :
  (forall x, P x <-> Q x) -> good less h P -> good less h Q.
Proof. intros He [W O M]. split; [done..|]. intros x. by rewrite M. Qed.

Lemma good_keep less less' h P x :
  agree_off x less less' -> good less h P -> ~ P x -> good less' h P.
Proof.
  intros He [W O M] Hx. split; [done| |done]. apply (heap_ord_ext less); [|done].
  intros a b Ha Hb. apply He; intros ->; by apply Hx, M.
Qed.

Lemma good_push less less' `{!WeakOrder less'} h P x :
  agree_off x less less' -> good less h P -> ~ P x ->
  good less' (Pq.Push less' h x) (fun y => y = x \/ P y).
Proof.
  intros He Hg Hx. destruct (good_keep less less' h P x He Hg Hx) as [W O M].
  assert (x ∉ items h) as Hn by (by rewrite M).
  destruct (Push_members less' h x W Hn) as [W' P'].
  split; [done|by apply Push_ord|]. intros y. rewrite P', elem_of_cons. by rewrite M.
Qed.

Lemma good_remove less less' `{!WeakOrder less} `{!WeakOrder less'} h P x :
  agree_off x less less' -> good less h P ->
  good less' (fst (Pq.Remove less' h x)) (fun y => P y /\ y <> x).
Proof.
  intros He [W O M]. split; [by apply Remove_wf| |by intros y; rewrite Remove_elem, M].
  rewrite (Remove_spec less' h x W). case_decide as Hx.
  2:{ apply (heap_ord_ext less); [|done]. intros a b Ha Hb. apply He; by intros ->. }
  destruct (member_index h x W Hx) as [Hlt Hi]. cbn zeta. set (i := _ - 1) in *. cbn [fst].
  pose proof (cut_length h i Hlt) as Hl. destruct (cut_members h i W Hlt) as [Wc Pc].
  rewrite (list_lookup_total_correct _ _ _ Hi) in Pc.
  assert (Hne : forall k, k < length (items (cut h i)) -> it (cut h i) k <> x).
  { pose proof (wf_NoDup h W) as Hnd. rewrite Pc in Hnd. apply NoDup_cons in Hnd as [Hnd _].
    intros k Hk E. apply Hnd. rewrite <- E. apply list_elem_of_lookup. eexists. by apply it_lookup. }
  assert (Hh : hole less' i (cut h i)).
  { destruct (cut_hole less h i O Hlt) as [H1 H2].
    split; intros k Hk; pose proof (parent_lt k); pose proof (parent_lt i); intros;
      rewrite <- He by (apply Hne; lia); auto. }
  destruct (Nat.ltb_spec i (length (items h) - 1)).
  - apply down_or_up_ord; [done|lia|done].
  - intros k Hk. pose proof (parent_lt k). apply Hh; lia.
Qed.

Lemma good_fix less less' `{!WeakOrder less} `{!WeakOrder less'} h P x :
  agree_off x less less' -> good less h P -> good less' (fst (Pq.Fix less' h x)) P.
Proof.
  intros He [W O M]. destruct (Fix_same less' h x W) as [W' P'].
  split; [by apply W'| |intros y; by rewrite P'].
  destruct (decide (x ∈ items h)) as [Hx|Hx].
  - apply (Fix_ord less less'); [done..|]. intros a b _ _. apply He.
  - unfold Pq.Fix. destruct (Pq.Contains h x) eqn:E; [by apply Contains_spec in E|]. simpl.
    apply (heap_ord_ext less); [|done]. intros a b Ha Hb. apply He; by intros ->.
Qed.

(** [Pop] takes out the head, which is a minimum. *)
Lemma good_pop less `{!WeakOrder less} h P x :
  good less h P -> Pq.Peek h = Some x ->
  good less (fst (Pq.Pop less h)) (fun y => P y /\ y <> x) /\ P x /\
  (forall y, P y -> less y x = false) /\ snd (Pq.Pop less h) = Some x /\
  length (items h) = S (length (items (fst (Pq.Pop less h)))).
Proof.
  intros [W O M] Hp. destruct (Pop_Remove less h x W Hp) as (H1 & H2 & H3).
  pose proof (wf_NoDup h W) as Hnd. rewrite H3 in Hnd. apply NoDup_cons in Hnd as [Hnd _].
  split_and!; [|apply M, list_elem_of_lookup; by exists 0| |done|by rewrite H3].
  - split; [done|by apply Pop_ord|]. intros y. rewrite <- M, H3, elem_of_cons. naive_solver.
  - intros y Hy%M. by apply (heap_min less h).
Qed.

Lemma good_peek_None less h P : good less h P -> Pq.Peek h = None -> forall x, ~ P x.
Proof.
  intros [_ _ M] Hp x Hx%M. unfold Pq.Peek in Hp. destruct (items h); [set_solver|done].
Qed.
