(* ===== verification/Scope.v ===== *)
(** * One scope of the in-memory backend: [storage/memory/scope.go]

    The state of a scope ([scope], [nodeRec], [predEdge]) and the operations
    of [scope.go], with [record], [appendLog], [ringDoorbell] and [unix] of
    [watch.go], which they call.

    A scope is guarded by one mutex, so an operation is a function from state
    to state.  The slices indexed by handle are lists; [l !!! h] reads the
    zero value where Go would panic on an index out of range ([Invariant]
    shows that every handle the scheduler holds is in range).  A channel that
    is closed and replaced to wake its waiters is a generation number: a
    waiter that captured generation [g] has been woken once the current
    generation is above [g].

    What the store's clock and jitter return is not determined by the state:
    [ClockSource] is the interface of the two injected sources, and the
    functions that read them thread a value of such a type. *)
From S2P Require Import Prelude Types Config Heap.

Class ClockSource (C : Type) := {
  clk_Now : C -> Z * C;            (* clock.Now().UnixNano(), an int64 *)
  clk_Jitter : Z -> C -> Z * C     (* jitter(n) *)
}.

(** ** Data *)

Record predEdge := mkPred { from : nat; satisfied : bool }.

#[export] Instance predEdge_eta : Eta predEdge := fun e => mkPred (from e) (satisfied e).
#[export] Instance predEdge_eq_dec : EqDecision predEdge.
Proof. solve_decision. Defined.

Record nodeRec := mkRec {
  id : string;
  kind : string;
  message : string;
  worker : string;
  payload : bytes;
  result_ : bytes;
  labels : gmap string string;
  retry : RetryPolicy;
  deps : DepCounts;
  seq_ : Z;        (* uint64 *)
  epoch : Z;       (* uint64 *)
  attempt : Z;     (* uint32 *)
  priority : Z;    (* int16 *)
  status : Status;
  reason : Reason;
  phase : Phase;
  trigger : TriggerRule;
  alive : bool;
  createdAt : Z;   (* int64 *)
  updatedAt : Z    (* int64 *)
}.

#[export] Instance nodeRec_eta : Eta nodeRec := fun r =>
  mkRec (id r) (kind r) (message r) (worker r) (payload r) (result_ r) (labels r) (retry r)
    (deps r) (seq_ r) (epoch r) (attempt r) (priority r) (status r) (reason r) (phase r)
    (trigger r) (alive r) (createdAt r) (updatedAt r).

(** [nodeRec{}]. *)
Definition zeroRec : nodeRec :=
  mkRec "" "" "" "" [] [] ∅ (mkRetry 0 0 0) (mkDeps 0 0 0 0) 0 0 0 0 StatusNew ReasonNone
    PhaseBlocked TriggerAllSuccess false 0 0.

#[export] Instance nodeRec_inhabited : Inhabited nodeRec := populate zeroRec.

Record scope := mkScope {
  s_name : string;
  s_cfg : ScopeConfig;
  s_sealed : bool;
  s_index : gmap string nat;
  s_recs : list nodeRec;
  s_free : list nat;
  s_succ : list (list nat);
  s_pred : list (list predEdge);
  s_ord : list Z;          (* int64: topological rank *)
  s_deadline : list Z;     (* int64: lease expiry, 0 when unclaimed *)
  s_readyAt : list Z;      (* int64: retry release time, 0 when not scheduled *)
  s_fifo : list Z;         (* uint64 *)
  s_nextOrd : Z;           (* int64 *)
  s_nextFifo : Z;          (* uint64 *)
  s_epochFloor : Z;        (* uint64 *)
  s_ready : gmap string Heap;
  s_leases : Heap;
  s_scheduled : Heap;
  s_stats : ScopeStats;
  s_doorbell : nat;
  s_cursor : Z;            (* uint64 *)
  s_log : list Event;
  s_logStart : Z;          (* uint64 *)
  s_logCap : Z;            (* int *)
  s_logBell : nat
}.

#[export] Instance scope_eta : Eta scope := fun s =>
  mkScope (s_name s) (s_cfg s) (s_sealed s) (s_index s) (s_recs s) (s_free s) (s_succ s)
    (s_pred s) (s_ord s) (s_deadline s) (s_readyAt s) (s_fifo s) (s_nextOrd s) (s_nextFifo s)
    (s_epochFloor s) (s_ready s) (s_leases s) (s_scheduled s) (s_stats s) (s_doorbell s)
    (s_cursor s) (s_log s) (s_logStart s) (s_logCap s) (s_logBell s).

Definition newScope (name : string) (logCap : Z) (cfg : ScopeConfig) : scope :=
  mkScope name cfg false ∅ [] [] [] [] [] [] [] [] 1 0 0 ∅ (Pq.New 0) (Pq.New 0) zeroStats
    0 0 [] 1 logCap 0.

(** ** Reading and writing one node *)

Definition rec (s : scope) (h : nat) : nodeRec := s_recs s !!! h.

Definition upd_rec (h : nat) (f : nodeRec -> nodeRec) (s : scope) : scope :=
  s <| s_recs ::= alter f h |>.

(** ** The three kinds of heap and their orderings *)

Definition less_leases (s : scope) (a b : nat) : bool :=
  (s_deadline s !!! a <? s_deadline s !!! b)%Z.

Definition less_scheduled (s : scope) (a b : nat) : bool :=
  (s_readyAt s !!! a <? s_readyAt s !!! b)%Z.

Definition less_ready (s : scope) (a b : nat) : bool :=
  if negb (priority (rec s a) =? priority (rec s b))%Z
  then (priority (rec s b) <? priority (rec s a))%Z
  else (s_fifo s !!! a <? s_fifo s !!! b)%Z.

(** [readyHeap(kind)]: the heap of a kind, created on first use. *)
Definition readyHeap (s : scope) (k : string) : Heap := default (Pq.New 0) (s_ready s !! k).

Definition set_readyHeap (k : string) (h : Heap) (s : scope) : scope :=
  s <| s_ready ::= <[k := h]> |>.

Definition ready_Push (k : string) (h : nat) (s : scope) : scope :=
  set_readyHeap k (Pq.Push (less_ready s) (readyHeap s k) h) s.

Definition ready_Remove (k : string) (h : nat) (s : scope) : scope :=
  set_readyHeap k (fst (Pq.Remove (less_ready s) (readyHeap s k) h)) s.

Definition scheduled_Remove (h : nat) (s : scope) : scope :=
  s <| s_scheduled := fst (Pq.Remove (less_scheduled s) (s_scheduled s) h) |>.

Definition scheduled_Push (h : nat) (s : scope) : scope :=
  s <| s_scheduled := Pq.Push (less_scheduled s) (s_scheduled s) h |>.

Definition leases_Remove (h : nat) (s : scope) : scope :=
  s <| s_leases := fst (Pq.Remove (less_leases s) (s_leases s) h) |>.

Definition leases_Push (h : nat) (s : scope) : scope :=
  s <| s_leases := Pq.Push (less_leases s) (s_leases s) h |>.

(** ** Handles *)

(** [alloc]: reuse the last freed slot, or extend the arrays by one. *)
Definition alloc (s : scope) : nat * scope :=
  match last (s_free s) with
  | Some h =>
    (h, s <| s_free := take (length (s_free s) - 1) (s_free s) |>
          <| s_recs ::= <[h := zeroRec]> |>
          <| s_succ ::= <[h := []]> |>
          <| s_pred ::= <[h := []]> |>
          <| s_ord ::= <[h := 0%Z]> |>
          <| s_deadline ::= <[h := 0%Z]> |>
          <| s_readyAt ::= <[h := 0%Z]> |>
          <| s_fifo ::= <[h := 0%Z]> |>)
  | None =>
    (length (s_recs s),
     s <| s_recs := s_recs s ++ [zeroRec] |>
       <| s_succ := s_succ s ++ [[]] |>
       <| s_pred := s_pred s ++ [[]] |>
       <| s_ord := s_ord s ++ [0%Z] |>
       <| s_deadline := s_deadline s ++ [0%Z] |>
       <| s_readyAt := s_readyAt s ++ [0%Z] |>
       <| s_fifo := s_fifo s ++ [0%Z] |>)
  end.

(** [release]: retire the epoch, clear the slot and put it on the free list. *)
Definition release (h : nat) (s : scope) : scope :=
  let e := epoch (rec s h) in
  s <| s_epochFloor := if (s_epochFloor s <? e)%Z then e else s_epochFloor s |>
    <| s_recs ::= <[h := zeroRec]> |>
    <| s_succ ::= <[h := []]> |>
    <| s_pred ::= <[h := []]> |>
    <| s_free := s_free s ++ [h] |>.

Definition lookup_id (s : scope) (i : string) : option nat := s_index s !! i.

(** ** Statistics *)

(** The counter [bucket] points at. *)
Inductive Bucket := BBlocked | BScheduled | BReady | BInProgress | BSucceeded | BFailed.

#[export] Instance Bucket_eq_dec : EqDecision Bucket.
Proof. solve_decision. Defined.

Definition bucket (r : nodeRec) : Bucket :=
  match phase r with
  | PhaseBlocked => BBlocked
  | PhaseScheduled => BScheduled
  | PhaseReady => BReady
  | PhaseClaimed => BInProgress
  | PhaseDone => if bool_decide (status r = StatusSuccess) then BSucceeded else BFailed
  end.

Definition counter (b : Bucket) (st : ScopeStats) : Z :=
  match b with
  | BBlocked => st_Blocked st
  | BScheduled => st_Scheduled st
  | BReady => st_Ready st
  | BInProgress => st_InProgress st
  | BSucceeded => st_Succeeded st
  | BFailed => st_Failed st
  end.

Definition bump (b : Bucket) (d : Z) (st : ScopeStats) : ScopeStats :=
  match b with
  | BBlocked => st <| st_Blocked ::= fun n => u64 (n + d) |>
  | BScheduled => st <| st_Scheduled ::= fun n => u64 (n + d) |>
  | BReady => st <| st_Ready ::= fun n => u64 (n + d) |>
  | BInProgress => st <| st_InProgress ::= fun n => u64 (n + d) |>
  | BSucceeded => st <| st_Succeeded ::= fun n => u64 (n + d) |>
  | BFailed => st <| st_Failed ::= fun n => u64 (n + d) |>
  end.

Definition leaveBucket (h : nat) (s : scope) : scope :=
  s <| s_stats ::= bump (bucket (rec s h)) (-1) |>.

Definition enterBucket (h : nat) (s : scope) : scope :=
  s <| s_stats ::= bump (bucket (rec s h)) 1 |>.

(** [s.stats.Complete = s.sealed && s.stats.NonTerminal() == 0]. *)
Definition refreshComplete (s : scope) : scope :=
  s <| s_stats := (s_stats s) <| st_Complete := s_sealed s && (NonTerminal (s_stats s) =? 0)%Z |> |>.

(** ** The event log ([watch.go]) *)

Definition unix (ns : Z) : Time := if (ns =? 0)%Z then TimeZero else TimeUnix ns.

Definition ringDoorbell (s : scope) : scope := s <| s_doorbell ::= S |>.

Definition event_of (name : string) (ef : Effect) : Event :=
  mkEvent (ef_Kind ef) name (ef_NodeID ef) (ef_Seq ef) (ef_Cursor ef) (ef_From ef) (ef_To ef)
    (ef_Reason ef) (ef_Message ef) (ef_Attempt ef) (ef_NodeKind ef) (ef_At ef) false.

(** [appendLog]: append, drop the oldest half once the buffer is twice its
    target, and wake the readers. *)
Definition appendLog (ef : Effect) (s : scope) : scope :=
  let log := s_log s ++ [event_of (s_name s) ef] in
  let s := s <| s_log := log |> in
  let s :=
    if (2 * s_logCap s <=? Z.of_nat (length log))%Z then
      let drop_ := (Z.of_nat (length log) - s_logCap s)%Z in
      s <| s_log := take (Z.to_nat (s_logCap s)) (drop (Z.to_nat drop_) log) |>
        <| s_logStart ::= fun c => u64 (c + drop_) |>
    else s in
  s <| s_logBell ::= S |>.

(** [record] with the clock reading it makes. *)
Definition record_at (now : Z) (h : nat) (k : EventKind) (from : Status) (s : scope)
  : scope * Effect :=
  let s := upd_rec h (fun r => r <| seq_ ::= fun n => u64 (n + 1) |>) s in
  let s := s <| s_cursor ::= fun n => u64 (n + 1) |> in
  let r := rec s h in
  let ef := mkEffect (id r) k from (status r) (reason r) (message r) (attempt r) (kind r)
              (seq_ r) (s_cursor s) (unix now) in
  (appendLog ef s, ef).

(** ** Scheduling *)

Definition makeReady (h : nat) (s : scope) : scope :=
  let s := leaveBucket h s in
  let s := upd_rec h (fun r => r <| phase := PhaseReady |> <| status := StatusNew |>) s in
  let s := s <| s_readyAt ::= <[h := 0%Z]> |> in
  let s := scheduled_Remove h s in
  let s := s <| s_nextFifo ::= fun n => u64 (n + 1) |> in
  let s := s <| s_fifo ::= <[h := s_nextFifo s]> |> in
  let s := ready_Push (kind (rec s h)) h s in
  let s := enterBucket h s in
  ringDoorbell s.

Definition makeBlocked (h : nat) (s : scope) : scope :=
  let s := leaveBucket h s in
  let s := ready_Remove (kind (rec s h)) h s in
  let s := scheduled_Remove h s in
  let s := s <| s_readyAt ::= <[h := 0%Z]> |> in
  let s := upd_rec h (fun r => r <| phase := PhaseBlocked |> <| status := StatusNew |>) s in
  enterBucket h s.

Definition schedule (h : nat) (at_ : Z) (s : scope) : scope :=
  let s := leaveBucket h s in
  let s := ready_Remove (kind (rec s h)) h s in
  let s := upd_rec h (fun r => r <| phase := PhaseScheduled |> <| status := StatusNew |>) s in
  let s := s <| s_readyAt ::= <[h := at_]> |> in
  let s := scheduled_Push h s in
  enterBucket h s.

(** [markSatisfied]: the first unsatisfied edge from [predHandle] resolves. *)
Definition tally (st : Status) (rs : Reason) (d : DepCounts) : DepCounts :=
  if bool_decide (st = StatusSuccess) then d <| Succeeded ::= fun n => u32 (n + 1) |>
  else if bool_decide (rs = ReasonSkipped) then d <| Skipped ::= fun n => u32 (n + 1) |>
  else d <| Failed ::= fun n => u32 (n + 1) |>.

Definition open_edge_from (p : nat) (e : predEdge) : bool :=
  (from e =? p) && negb (satisfied e).

(** Index of the first element a boolean test accepts. *)
Fixpoint find_idx {A : Type} (f : A -> bool) (l : list A) : option nat :=
  match l with
  | [] => None
  | x :: l => if f x then Some 0 else S <$> find_idx f l
  end.

Definition markSatisfied (succHandle predHandle : nat) (st : Status) (rs : Reason) (s : scope)
  : scope * bool :=
  match find_idx (open_edge_from predHandle) (s_pred s !!! succHandle) with
  | None => (s, false)
  | Some i =>
    let s := s <| s_pred ::= alter (alter (fun e => e <| satisfied := true |>) i) succHandle |> in
    let s := upd_rec succHandle (fun r => r <| deps ::= fun d =>
               tally st rs
                 (if (0 <? Unsatisfied d)%Z then d <| Unsatisfied ::= fun n => u32 (n - 1) |> else d)
               |>) s in
    (s, true)
  end.

Definition terminalMessage (r : Reason) : string :=
  match r with
  | ReasonUpstreamFailed => "a predecessor failed and the trigger rule can no longer be satisfied"
  | ReasonSkipped => "the trigger rule can no longer be satisfied"
  | ReasonRemoved => "a predecessor was removed"
  | ReasonCancelled => "cancelled"
  | _ => ""
  end.

(** ** Edges *)

Definition hasEdge (s : scope) (f to : nat) : bool :=
  existsb (fun e => from e =? f) (s_pred s !!! to).

Definition linkEdge (f to : nat) (s : scope) : scope :=
  let pr := rec s f in
  let sat := bool_decide (phase pr = PhaseDone) in
  let s := s <| s_pred ::= alter (fun l => l ++ [mkPred f sat]) to |> in
  let s := s <| s_succ ::= alter (fun l => l ++ [to]) f |> in
  upd_rec to (fun r => r <| deps ::= fun d =>
    if negb sat then d <| Unsatisfied ::= fun n => u32 (n + 1) |>
    else tally (status pr) (reason pr) d |>) s.

(** [if x > 0 { x-- }]. *)
Definition dec (n : Z) : Z := if (0 <? n)%Z then u32 (n - 1) else n.

Definition untally (st : Status) (rs : Reason) (d : DepCounts) : DepCounts :=
  if bool_decide (st = StatusSuccess) then d <| Succeeded ::= dec |>
  else if bool_decide (rs = ReasonSkipped) then d <| Skipped ::= dec |>
  else d <| Failed ::= dec |>.

Definition unlinkEdge (f to : nat) (s : scope) : scope * bool :=
  let edges := s_pred s !!! to in
  match find_idx (fun e => from e =? f) edges with
  | None => (s, false)
  | Some idx =>
    let e := default (mkPred 0 false) (edges !! idx) in
    let s := s <| s_pred ::= <[to := delete idx edges]> |> in
    let s := upd_rec to (fun r => r <| deps ::= fun d =>
      if negb (satisfied e) then d <| Unsatisfied ::= dec |>
      else untally (status (rec s f)) (reason (rec s f)) d |>) s in
    let outs := s_succ s !!! f in
    let s := match find_idx (fun w => w =? to) outs with
             | Some i => s <| s_succ ::= <[f := delete i outs]> |>
             | None => s
             end in
    (s, true)
  end.

(** ** Snapshots *)

Definition snapshot (s : scope) (h : nat) : Node :=
  let r := rec s h in
  mkNode (s_name s) (id r) (kind r) (status r) (reason r) (message r) (attempt r) (priority r)
    (trigger r) (retry r) (payload r) (labels r) (seq_ r) (unix (createdAt r)) (unix (updatedAt r)).

Definition specMatches (s : scope) (h : nat) (spec : NodeSpec) : bool :=
  let r := rec s h in
  bool_decide (kind r = sp_Kind spec) && (priority r =? sp_Priority spec)%Z
  && bool_decide (trigger r = sp_Trigger spec) && bool_decide (retry r = sp_Retry spec)
  && bool_decide (payload r = sp_Payload spec) && bool_decide (labels r = sp_Labels spec).

(** ** Operations that read the clock *)

Record item := mkItem { i_h : nat; i_status : Status; i_reason : Reason; i_msg : string }.

Section Clocked.
Context {C : Type} `{!ClockSource C}.

Definition record (h : nat) (k : EventKind) (from : Status) (c : C) (s : scope)
  : C * scope * Effect :=
  let '(now, c) := clk_Now c in
  let '(s, ef) := record_at now h k from s in
  (c, s, ef).

(** One successor of a node that just terminated, in [terminate]. *)
Definition notify (p : nat) (st : Status) (rs : Reason) (w : nat)
    (c : C) (s : scope) (queue : list item) (out : list Effect)
  : C * scope * list item * list Effect :=
  let '(s, changed) := markSatisfied w p st rs s in
  if negb changed then (c, s, queue, out)
  else
    let wr := rec s w in
    match phase wr with
    | PhaseBlocked | PhaseReady =>
      if Unsatisfiable (deps wr) (trigger wr) then
        let rs := TerminalReason (deps wr) in
        (c, s, queue ++ [mkItem w StatusError rs (terminalMessage rs)], out)
      else if Ready (deps wr) (trigger wr) then
        if bool_decide (phase wr = PhaseReady) then (c, s, queue, out)
        else
          let s := makeReady w s in
          let '(c, s, ef) := record w EventReady StatusNew c s in
          (c, s, queue, out ++ [ef])
      else (c, s, queue, out)
    | _ => (c, s, queue, out)
    end.

Fixpoint notify_all (p : nat) (st : Status) (rs : Reason) (ws : list nat)
    (c : C) (s : scope) (queue : list item) (out : list Effect)
  : C * scope * list item * list Effect :=
  match ws with
  | [] => (c, s, queue, out)
  | w :: ws =>
    let '(c, s, queue, out) := notify p st rs w c s queue out in
    notify_all p st rs ws c s queue out
  end.

(** The writes of [terminate] to the node itself. *)
Definition finish (now : Z) (i : item) (s : scope) : scope :=
  let h := i_h i in
  let s := leaveBucket h s in
  let s := ready_Remove (kind (rec s h)) h s in
  let s := scheduled_Remove h s in
  let s := leases_Remove h s in
  let s := s <| s_deadline ::= <[h := 0%Z]> |> in
  let s := s <| s_readyAt ::= <[h := 0%Z]> |> in
  let s := upd_rec h (fun r => r <| phase := PhaseDone |> <| status := i_status i |>
             <| reason := i_reason i |> <| message := i_msg i |> <| updatedAt := now |>) s in
  enterBucket h s.

(** The queue loop of [terminate].  Every item after the first stands for an
    edge that this call turned from unsatisfied to satisfied, so one more than
    the number of edges bounds the iterations ([terminate_fuel_enough]). *)
Fixpoint terminate_loop (fuel : nat) (queue : list item) (c : C) (s : scope) (out : list Effect)
  : C * scope * list Effect :=
  match fuel with
  | O => (c, s, out)
  | S fuel =>
    match queue with
    | [] => (c, s, out)
    | it :: queue =>
      let h := i_h it in
      let r := rec s h in
      if negb (alive r) || bool_decide (phase r = PhaseDone) then
        terminate_loop fuel queue c s out
      else
        let from := status r in
        let '(now, c) := clk_Now c in
        let s := finish now it s in
        let '(c, s, ef) := record h EventTransition from c s in
        let '(c, s, queue, out) :=
          notify_all h (status (rec s h)) (reason (rec s h)) (s_succ s !!! h) c s queue (out ++ [ef]) in
        terminate_loop fuel queue c s out
    end
  end.

Definition terminate_fuel (s : scope) : nat := S (S (length (concat (s_pred s)))).

Definition terminate (root : nat) (st : Status) (rs : Reason) (msg : string)
    (c : C) (s : scope) (out : list Effect) : C * scope * list Effect :=
  terminate_loop (terminate_fuel s) [mkItem root st rs msg] c s out.

Definition settle (h : nat) (c : C) (s : scope) (out : list Effect) : C * scope * list Effect :=
  let r := rec s h in
  match phase r with
  | PhaseBlocked | PhaseReady =>
    if Unsatisfiable (deps r) (trigger r) then
      let rs := TerminalReason (deps r) in
      terminate h StatusError rs (terminalMessage rs) c s out
    else if Ready (deps r) (trigger r) then
      if bool_decide (phase r = PhaseReady) then (c, s, out)
      else
        let s := makeReady h s in
        let '(c, s, ef) := record h EventReady StatusNew c s in
        (c, s, out ++ [ef])
    else
      if bool_decide (phase r = PhaseBlocked) then (c, s, out)
      else (c, makeBlocked h s, out)
  | _ => (c, s, out)
  end.

(** [for _, h := range touched.items { effects = s.settle(h, effects) }]. *)
Fixpoint settle_all (hs : list nat) (c : C) (s : scope) (out : list Effect)
  : C * scope * list Effect :=
  match hs with
  | [] => (c, s, out)
  | h :: hs => let '(c, s, out) := settle h c s out in settle_all hs c s out
  end.

(** [promoteScheduled]: each iteration pops one member of the heap. *)
Fixpoint promote_loop (fuel : nat) (now : Z) (c : C) (s : scope) (effects : list Effect)
  : C * scope * list Effect :=
  match fuel with
  | O => (c, s, effects)
  | S fuel =>
    match Pq.Peek (s_scheduled s) with
    | None => (c, s, effects)
    | Some h =>
      if (now <? s_readyAt s !!! h)%Z then (c, s, effects)
      else
        let s := s <| s_scheduled := fst (Pq.Pop (less_scheduled s) (s_scheduled s)) |> in
        let s := makeReady h s in
        let '(c, s, ef) := record h EventReady StatusNew c s in
        promote_loop fuel now c s (effects ++ [ef])
    end
  end.

Definition promoteScheduled (now : Z) (c : C) (s : scope) : C * scope * list Effect :=
  promote_loop (S (Pq.Len (s_scheduled s))) now c s [].

End Clocked.
