(* ===== verification/Topo.v ===== *)
(** * Incremental topological order: [storage/memory/topo.go]

    Pearce and Kelly's algorithm over the ranks [s_ord] of a scope.  The
    depth-first searches recurse into a node only when it is not yet seen, so
    the number of handles bounds the depth; [tracePath] follows parent
    pointers, at most one per recorded parent ([TopoFacts] shows that the fuel
    of both is enough). *)
From S2P Require Import Prelude Types Heap Scope.

Record topoResult := mkTopo {
  fastPath : bool;
  visited : nat;
  cyclePath : option (list nat)    (* None: nil *)
}.

(** The variables the closure [walk] of [forwardSearch] captures. *)
Record fstate := mkF {
  f_seen : gset nat;
  f_region : list nat;
  f_parent : gmap nat nat
}.

#[export] Instance fstate_eta : Eta fstate := fun f => mkF (f_seen f) (f_region f) (f_parent f).

(** [tracePath] up to the final reversal: the path from [n] back to [start]. *)
Fixpoint trace_back (fuel : nat) (parent : gmap nat nat) (start n : nat) : list nat :=
  n :: match fuel with
       | O => []
       | S fuel =>
         if n =? start then []
         else match parent !! n with
              | None => []
              | Some p => trace_back fuel parent start p
              end
       end.

Definition tracePath (parent : gmap nat nat) (start stop : nat) : list nat :=
  reverse (trace_back (size parent) parent start stop).

Section Search.
Context (s : scope).

Notation ord := (s_ord s).

(** The loop over the successors of [n] in [walk]. *)
Fixpoint fwd_loop (walk : nat -> fstate -> fstate * option (list nat)) (y : nat) (ub : Z)
    (n : nat) (ws : list nat) (st : fstate) : fstate * option (list nat) :=
  match ws with
  | [] => (st, None)
  | w :: ws =>
    if (ord !!! w =? ub)%Z then
      let st := st <| f_parent ::= <[w := n]> |> in
      (st, Some (tracePath (f_parent st) y w))
    else if negb (bool_decide (w ∈ f_seen st)) && (ord !!! w <? ub)%Z then
      let '(st, found) := walk w (st <| f_parent ::= <[w := n]> |>) in
      match found with
      | Some c => (st, Some c)
      | None => fwd_loop walk y ub n ws st
      end
    else fwd_loop walk y ub n ws st
  end.

Fixpoint fwd_walk (fuel : nat) (y : nat) (ub : Z) (n : nat) (st : fstate)
  : fstate * option (list nat) :=
  match fuel with
  | O => (st, None)
  | S fuel =>
    let st := st <| f_seen ::= union {[n]} |> <| f_region ::= fun l => l ++ [n] |> in
    fwd_loop (fwd_walk fuel y ub) y ub n (s_succ s !!! n) st
  end.

Definition forwardSearch (y : nat) (ub : Z) : list nat * nat * option (list nat) :=
  let '(st, found) := fwd_walk (S (length (s_recs s))) y ub y (mkF ∅ [] ∅) in
  match found with
  | Some c => ([], size (f_seen st), Some c)
  | None => (f_region st, size (f_seen st), None)
  end.

(** The loop over the predecessors of [n] in [backwardSearch]'s [walk]; the
    state is the pair of [seen] and [region]. *)
Fixpoint bwd_loop (walk : nat -> gset nat * list nat -> gset nat * list nat) (lb : Z)
    (es : list predEdge) (st : gset nat * list nat) : gset nat * list nat :=
  match es with
  | [] => st
  | e :: es =>
    let w := from e in
    if negb (bool_decide (w ∈ fst st)) && (lb <? ord !!! w)%Z
    then bwd_loop walk lb es (walk w st)
    else bwd_loop walk lb es st
  end.

Fixpoint bwd_walk (fuel : nat) (lb : Z) (n : nat) (st : gset nat * list nat)
  : gset nat * list nat :=
  match fuel with
  | O => st
  | S fuel =>
    let st := ({[n]} ∪ fst st, snd st ++ [n]) in
    bwd_loop (bwd_walk fuel lb) lb (s_pred s !!! n) st
  end.

Definition backwardSearch (x : nat) (lb : Z) : list nat * nat :=
  let '(seen, region) := bwd_walk (S (length (s_recs s))) lb x (∅, []) in
  (region, size seen).

End Search.

(** [sort.Slice(xs, func(i, j) bool { return ord[xs[i]] < ord[xs[j]] })]; the
    ranks are distinct, so there is one sorted arrangement. *)
Definition rank_le (ord : list Z) (a b : nat) : Prop := (ord !!! a <= ord !!! b)%Z.

#[export] Instance rank_le_dec ord : RelDecision (rank_le ord).
Proof. unfold rank_le. solve_decision. Defined.

Definition byOrd (ord : list Z) (xs : list nat) : list nat := merge_sort (rank_le ord) xs.

(** Hand out the rank values of [pool] in order. *)
Definition assign (ns : list nat) (pool : list Z) (ord : list Z) : list Z :=
  foldl (fun ord nv => <[nv.1 := nv.2]> ord) ord (zip ns pool).

Definition reorder (deltaB deltaF : list nat) (ord : list Z) : list Z :=
  let deltaB := byOrd ord deltaB in
  let deltaF := byOrd ord deltaF in
  let pool := ((fun n => ord !!! n) <$> deltaB) ++ ((fun n => ord !!! n) <$> deltaF) in
  let pool := merge_sort Z.le pool in
  assign (deltaB ++ deltaF) pool ord.

Definition addEdgeOrder (x y : nat) (s : scope) : scope * topoResult :=
  if (s_ord s !!! x <? s_ord s !!! y)%Z then (s, mkTopo true 0 None)
  else
    let lb := s_ord s !!! y in
    let ub := s_ord s !!! x in
    let '(deltaF, seenF, cycle) := forwardSearch s y ub in
    match cycle with
    | Some path => (s, mkTopo false seenF (Some path))
    | None =>
      let '(deltaB, seenB) := backwardSearch s x lb in
      (s <| s_ord ::= reorder deltaB deltaF |>, mkTopo false (seenF + seenB) None)
    end.
