(* ===== verification/TopoFacts.v ===== *)
(** * Correctness of the incremental topological order

    [ranked s]: the ranks of the live nodes are distinct and increase along
    every edge.  [addEdgeOrder x y] reports a cycle exactly when [y] already
    reaches [x], and then the reported path is a path of the graph from [y] to
    [x]; otherwise the ranks it leaves order the old edges and the new one. *)
From S2P Require Import Prelude Types Heap Scope Topo.

Definition live (s : scope) (h : nat) : Prop := h < length (s_recs s) /\ alive (rec s h) = true.

Definition edge (s : scope) (u v : nat) : Prop := v ∈ s_succ s !!! u.

Definition rank (s : scope) (h : nat) : Z := s_ord s !!! h.

(** [y] reaches [x] by zero or more edges. *)
Definition reach (s : scope) : nat -> nat -> Prop := rtc (edge s).

(** The adjacency lists are those of one graph over live handles. *)
Record graph_wf (s : scope) : Prop := {
  gw_live : forall u v, edge s u v -> live s u /\ live s v;
  gw_pred : forall u v, edge s u v <-> u ∈ from <$> s_pred s !!! v
}.

Record ranked (s : scope) : Prop := {
  rk_len : length (s_ord s) = length (s_recs s);
  rk_mono : forall u v, edge s u v -> (rank s u < rank s v)%Z;
  rk_inj : forall u v, live s u -> live s v -> rank s u = rank s v -> u = v
}.

(** A list of nodes each of which has an edge to the next. *)
Definition is_path (s : scope) (l : list nat) : Prop := Sorted (edge s) l.

Lemma Sorted_snoc {A} (R : relation A) l x :
  Sorted R l -> (forall z, last l = Some z -> R z x) -> Sorted R (l ++ [x]).
Proof.
  induction 1 as [|a l Hs IH Hd]; intros Hl; simpl; [by repeat constructor|].
  destruct l as [|b l].
  - constructor; [by repeat constructor|]. constructor. by apply Hl.
  - constructor; [apply IH; intros z Hz; by apply Hl|]. by inversion Hd; constructor.
Qed.

Lemma path_reach s l x y :
  is_path s l -> head l = Some y -> last l = Some x -> reach s y x.
Proof.
  unfold is_path. revert y. induction l as [|a l IH]; intros y Hs Hh Hl; [done|]. simplify_eq/=.
  destruct l as [|b l]; [simplify_eq/=; apply rtc_refl|].
  inversion Hs as [|?? Hs' Hd]; subst. inversion Hd; subst.
  eapply rtc_l; [done|]. by apply IH.
Qed.

Section Facts.
Context (s : scope) (Hg : graph_wf s) (Hr : ranked s).

Lemma reach_live u v : reach s u v -> live s u -> live s v.
Proof. induction 1 as [|u w v He _ IH]; [done|]. intros _. apply IH. by apply (gw_live s Hg u w). Qed.

Lemma reach_rank u v : reach s u v -> (rank s u <= rank s v)%Z.
Proof. induction 1 as [|u w v He _ IH]; [done|]. pose proof (rk_mono s Hr u w He). lia. Qed.

Lemma acyclic u v : edge s u v -> ~ reach s v u.
Proof. intros He Hv%reach_rank. pose proof (rk_mono s Hr u v He). lia. Qed.

(** ** [tracePath] *)

(** What [forwardSearch] keeps true of its parent map. *)
Definition parents_ok (y : nat) (parent : gmap nat nat) : Prop :=
  forall w p, parent !! w = Some p -> edge s p w /\ (p = y \/ is_Some (parent !! p)).

Lemma parents_ok_insert y parent n w :
  parents_ok y parent -> edge s n w -> (n = y \/ is_Some (parent !! n)) ->
  parents_ok y (<[w := n]> parent).
Proof.
  intros Hp He Hn w' p'. rewrite lookup_insert. case_decide.
  - intros [= <-]. subst. split; [done|]. destruct Hn as [->|Hn]; [by left|right].
    by apply lookup_insert_is_Some'; right.
  - intros H1%Hp. destruct H1 as [H1 [->|H2]]; split; [done|by left|done|right].
    by apply lookup_insert_is_Some'; right.
Qed.

Definition rank_at_most (z : Z) (kv : nat * nat) : Prop := (rank s kv.1 <= z)%Z.

#[local] Instance rank_at_most_dec z kv : Decision (rank_at_most z kv).
Proof. unfold rank_at_most. apply _. Defined.

Lemma trace_back_path y parent fuel n :
  parents_ok y parent -> (n = y \/ is_Some (parent !! n)) ->
  size (filter (rank_at_most (rank s n)) parent) <= fuel ->
  let t := trace_back fuel parent y n in
  head t = Some n /\ last t = Some y /\ is_path s (reverse t).
Proof.
  intros Hp. revert n. induction fuel as [|fuel IH]; intros n Hn Hf; simpl.
  - destruct Hn as [->|[p Hn]]; [split_and!; [done|done|by repeat constructor]|].
    exfalso. assert (n ∈ dom (filter (rank_at_most (rank s n)) parent)) as Hd.
    { apply elem_of_dom. exists p. apply map_lookup_filter_Some_2; [done|].
      unfold rank_at_most. simpl. lia. }
    apply Nat.le_0_r, map_size_empty_inv in Hf. rewrite Hf in Hd. set_solver.
  - destruct (Nat.eqb_spec n y) as [->|Hny].
    { split_and!; [done|done|by repeat constructor]. }
    destruct Hn as [?|[p Hn]]; [done|]. rewrite Hn. destruct (Hp n p Hn) as [He Hpp].
    pose proof (rk_mono s Hr p n He) as Hlt.
    destruct (IH p Hpp) as (H1 & H2 & H3).
    { apply Nat.lt_succ_r. eapply Nat.lt_le_trans; [|exact Hf].
      assert (filter (rank_at_most (rank s p)) parent ⊂ filter (rank_at_most (rank s n)) parent).
      { apply map_subset_alt. split.
        - apply map_filter_strong_subseteq_ext. unfold rank_at_most. simpl. intros i x [??]. split; [lia|done].
        - exists n. rewrite map_lookup_filter_None. split.
          + right. intros x _. unfold rank_at_most. simpl. lia.
          + exists p. apply map_lookup_filter_Some_2; [done|]. unfold rank_at_most. simpl. lia. }
      by apply map_subset_size. }
    set (t := trace_back fuel parent y p) in *. split_and!; [done| |].
    + rewrite last_cons. by rewrite H2.
    + rewrite reverse_cons. apply Sorted_snoc; [done|]. intros z Hz.
      rewrite last_reverse, H1 in Hz. by simplify_eq.
Qed.

Lemma tracePath_path y parent w :
  parents_ok y parent -> is_Some (parent !! w) ->
  let p := tracePath parent y w in
  is_path s p /\ head p = Some y /\ last p = Some w.
Proof.
  intros Hp Hw. unfold tracePath.
  destruct (trace_back_path y parent (size parent) w Hp) as (H1 & H2 & H3); [by right| |].
  { apply map_subseteq_size, map_filter_subseteq. }
  split_and!; [done|by rewrite head_reverse|by rewrite last_reverse].
Qed.

(** ** The forward search *)

Notation N := (length (s_recs s)).

Lemma seen_bound (seen : gset nat) : (forall u, u ∈ seen -> u < N) -> size seen <= N.
Proof.
  intros Hs. rewrite <- (size_set_seq (C := gset nat) 0 N). apply subseteq_size.
  intros u Hu%Hs. apply elem_of_set_seq. lia.
Qed.

Lemma seen_bound_lt (seen : gset nat) n :
  (forall u, u ∈ seen -> u < N) -> n < N -> n ∉ seen -> size seen < N.
Proof.
  intros Hs Hn Hns. assert (size ({[n]} ∪ seen) <= N) as Hb.
  { apply seen_bound. intros u [->%elem_of_singleton|Hu]%elem_of_union; auto. }
  rewrite size_union, size_singleton in Hb by set_solver. lia.
Qed.

(** [new] is what a search started at [n] added to [st] to reach [st']. *)
Record fwd_new (ub : Z) (n : nat) (st st' : fstate) (new : list nat) : Prop := {
  fn_region : f_region st' = f_region st ++ new;
  fn_nodup : NoDup new;
  fn_seen : forall u, u ∈ f_seen st' <-> u ∈ f_seen st \/ u ∈ new;
  fn_fresh : forall u, u ∈ new -> u ∉ f_seen st;
  fn_reach : forall u, u ∈ new -> reach s n u /\ u < N;
  fn_rank : forall u, u ∈ new -> u = n \/ (rank s u < ub)%Z;
  fn_closed : forall u v, u ∈ new -> edge s u v ->
                rank s v <> ub /\ ((rank s v < ub)%Z -> v ∈ f_seen st')
}.

(** The state of the search before [walk n]. *)
Record fwd_pre (y : nat) (n fuel : nat) (st : fstate) : Prop := {
  fp_seen : forall u, u ∈ f_seen st -> u < N;
  fp_fuel : N < size (f_seen st) + fuel;
  fp_parent : parents_ok y (f_parent st);
  fp_n : n = y \/ is_Some (f_parent st !! n)
}.

(** What a finished (sub)search guarantees: a path to the node of rank [ub],
    or the region searched. *)
Definition fwd_post (y : nat) (ub : Z) (st : fstate) (r : fstate * option (list nat))
    (region : fstate -> Prop) : Prop :=
  dom (f_parent st) ⊆ dom (f_parent r.1) /\
  match r.2 with
  | Some path => exists x, rank s x = ub /\ live s x /\
                   is_path s path /\ head path = Some y /\ last path = Some x
  | None => parents_ok y (f_parent r.1) /\ region r.1
  end.

Definition walk_ok (y : nat) (ub : Z) (fuel : nat)
    (walk : nat -> fstate -> fstate * option (list nat)) : Prop :=
  forall w st, fwd_pre y w fuel st -> w ∉ f_seen st -> w < N ->
    fwd_post y ub st (walk w st) (fun st' => exists new, fwd_new ub w st st' new /\ w ∈ new).

(** After the loop over [ws]: the successors in [ws] are dealt with. *)
Definition loop_region (ub : Z) (n : nat) (ws : list nat) (st st' : fstate) : Prop :=
  exists new, fwd_new ub n st st' new /\
    forall w, w ∈ ws -> rank s w <> ub /\ ((rank s w < ub)%Z -> w ∈ f_seen st').

Lemma fwd_new_nil ub n st : fwd_new ub n st st [].
Proof. split; [by rewrite app_nil_r|constructor|set_solver..]. Qed.

Lemma fwd_new_trans ub n w st1 st2 st3 new1 new2 :
  edge s n w -> (rank s w < ub)%Z ->
  fwd_new ub w st1 st2 new1 -> fwd_new ub n st2 st3 new2 ->
  fwd_new ub n st1 st3 (new1 ++ new2).
Proof.
  intros He Hw [A1 A2 A3 A4 A5 A6 A7] [B1 B2 B3 B4 B5 B6 B7]. split.
  - by rewrite B1, A1, app_assoc.
  - apply NoDup_app. split_and!; [done| |done]. intros u Hu Hu2. apply (B4 u Hu2), A3. auto.
  - intros u. rewrite B3, A3, elem_of_app. tauto.
  - intros u [Hu|Hu]%elem_of_app; [by apply A4|]. intros Hs. apply (B4 u Hu), A3. auto.
  - intros u [Hu|Hu]%elem_of_app; [|by apply B5]. destruct (A5 u Hu) as [Hw' Hl].
    split; [|done]. by eapply rtc_l.
  - intros u [Hu|Hu]%elem_of_app; [|by apply B6]. right. destruct (A6 u Hu) as [->|]; auto.
  - intros u v [Hu|Hu]%elem_of_app Hv; [|by apply (B7 u)]. destruct (A7 u v Hu Hv) as [Hn Hlt].
    split; [done|]. intros Hv'. apply B3. auto.
Qed.

(** A successor the loop does not descend into. *)
Lemma loop_skip y ub n w ws st r :
  rank s w <> ub -> ((rank s w < ub)%Z -> w ∈ f_seen st) ->
  fwd_post y ub st r (loop_region ub n ws st) ->
  fwd_post y ub st r (loop_region ub n (w :: ws) st).
Proof.
  intros Hne Hsk [Hd Hp]. split; [done|]. destruct (r.2); [done|].
  destruct Hp as (Hp & new & Hn & Hc). split; [done|]. exists new. split; [done|].
  intros w' [->|Hw']%elem_of_cons; [|by apply Hc]. split; [done|].
  intros Hl. apply Hn. auto.
Qed.

Lemma fwd_pre_walk y n fuel w st1 st2 ub new :
  fwd_pre y n fuel st1 -> dom (f_parent st1) ⊆ dom (f_parent st2) ->
  parents_ok y (f_parent st2) -> fwd_new ub w st1 st2 new -> fwd_pre y n fuel st2.
Proof.
  intros Hpre Hdom Hp Hn. split; [| |done|].
  - intros u [Hu|Hu]%(fn_seen _ _ _ _ _ Hn); [by apply (fp_seen _ _ _ _ Hpre)|].
    by apply (fn_reach _ _ _ _ _ Hn).
  - assert (size (f_seen st1) <= size (f_seen st2)) as Hsz.
    { apply subseteq_size. intros u Hu. apply (fn_seen _ _ _ _ _ Hn). by left. }
    pose proof (fp_fuel _ _ _ _ Hpre). lia.
  - destruct (fp_n _ _ _ _ Hpre) as [?|Hs]; [by left|right].
    apply elem_of_dom, Hdom, elem_of_dom, Hs.
Qed.

Lemma fwd_pre_parent y n fuel w st :
  edge s n w -> fwd_pre y n fuel st ->
  fwd_pre y w fuel (mkF (f_seen st) (f_region st) (<[w:=n]> (f_parent st))).
Proof.
  intros He [P1 P2 P3 P4]. split; simpl; [done|done|by apply parents_ok_insert|].
  right. rewrite lookup_insert_eq. eauto.
Qed.

Lemma fwd_loop_ok walk y ub fuel n ws st :
  walk_ok y ub fuel walk ->
  (forall w, w ∈ ws -> edge s n w) -> n ∈ f_seen st -> fwd_pre y n fuel st ->
  fwd_post y ub st (fwd_loop s walk y ub n ws st) (loop_region ub n ws st).
Proof.
  intros Hwalk. revert st. induction ws as [|w ws IH]; intros st Hws Hns Hpre; simpl.
  { split; [done|]. split; [apply Hpre|]. exists []. split; [apply fwd_new_nil|set_solver]. }
  assert (He : edge s n w) by (apply Hws; left).
  assert (Hlw : live s w) by apply (gw_live s Hg n w He).
  assert (Hp1 := fwd_pre_parent y n fuel w st He Hpre).
  assert (Hws' : forall w', w' ∈ ws -> edge s n w') by set_solver.
  fold (rank s w). destruct (Z.eqb_spec (rank s w) ub) as [Hub|Hub].
  { split; [simpl; set_solver|]. exists w. split_and!; [done|done|..];
      apply (tracePath_path y _ w (fp_parent _ _ _ _ Hp1)); simpl; rewrite lookup_insert_eq; eauto. }
  destruct (bool_decide_reflect (w ∈ f_seen st)) as [Hin|Hin]; simpl;
    [by apply loop_skip; auto|].
  destruct (Z.ltb_spec (rank s w) ub) as [Hlt|Hge]; simpl; [|apply loop_skip; auto; lia].
  pose proof (Hwalk w _ Hp1 Hin (proj1 Hlw)) as [H2 H3].
  destruct (walk w _) as [st2 [c|]]; simpl in *.
  { split; [|done]. etrans; [|exact H2]. simpl. set_solver. }
  destruct H3 as (Hp2 & new1 & Hn1 & Hw1).
  assert (Hdom : dom (f_parent st) ⊆ dom (f_parent st2)) by (etrans; [|exact H2]; simpl; set_solver).
  assert (Hn1' : fwd_new ub w st st2 new1) by (by destruct Hn1).
  assert (Hin2 : forall u, u ∈ f_seen st \/ u ∈ new1 -> u ∈ f_seen st2) by (intros u; apply Hn1').
  destruct (IH st2 Hws' (Hin2 n (or_introl Hns)) (fwd_pre_walk y n fuel w st st2 ub new1 Hpre Hdom Hp2 Hn1'))
    as [J1 J2].
  split; [by etrans|]. destruct (snd _); [done|]. destruct J2 as (J2 & new2 & Hn2 & Hc).
  split; [done|]. exists (new1 ++ new2). split; [by apply (fwd_new_trans ub n w st st2)|].
  intros w' [->|Hw']%elem_of_cons; [|by apply Hc]. split; [done|]. intros _.
  apply (fn_seen _ _ _ _ _ Hn2). auto.
Qed.

Lemma fwd_walk_ok y ub fuel : walk_ok y ub fuel (fwd_walk s fuel y ub).
Proof.
  induction fuel as [|fuel IH]; intros n st Hpre Hn HnN.
  { pose proof (seen_bound _ (fp_seen _ _ _ _ Hpre)). pose proof (fp_fuel _ _ _ _ Hpre). lia. }
  simpl. set (st1 := mkF _ _ _).
  assert (Hpre1 : fwd_pre y n fuel st1).
  { destruct Hpre as [P1 P2 P3 P4]. split; simpl; [set_solver| |done|done].
    rewrite size_union, size_singleton by set_solver. lia. }
  destruct (fwd_loop_ok (fwd_walk s fuel y ub) y ub fuel n (s_succ s !!! n) st1 IH) as [H1 H2];
    [done|set_solver|done|].
  split; [done|]. destruct (snd _); [done|]. destruct H2 as (Hp & new & [A1 A2 A3 A4 A5 A6 A7] & Hc).
  split; [done|]. exists (n :: new). split; [|left]. simpl in *. split.
  - by rewrite A1, <- app_assoc.
  - apply NoDup_cons. split; [|done]. intros Hx%A4. set_solver.
  - intros u. rewrite A3. set_solver.
  - intros u Hu. set_solver.
  - intros u [->|Hu]%elem_of_cons; [split; [apply rtc_refl|done]|by apply A5].
  - intros u [->|Hu]%elem_of_cons; [by left|]. by apply A6.
  - intros u v [->|Hu]%elem_of_cons Hv; [by apply Hc|by apply (A7 u)].
Qed.

(** The forward search from [y] below rank [ub], both ways it can end. *)
Lemma forwardSearch_ok y ub :
  live s y -> (rank s y < ub)%Z ->
  match forwardSearch s y ub with
  | (_, _, Some path) => exists x, rank s x = ub /\ live s x /\
      is_path s path /\ head path = Some y /\ last path = Some x
  | (F, _, None) =>
      NoDup F /\ y ∈ F /\
      (forall u, u ∈ F -> reach s y u /\ (rank s u < ub)%Z) /\
      (forall u v, u ∈ F -> edge s u v -> v ∈ F \/ (ub < rank s v)%Z)
  end.
Proof.
  intros Hy Hub. unfold forwardSearch.
  destruct (fwd_walk_ok y ub (S N) y (mkF ∅ [] ∅)) as [_ H]; [|set_solver|apply Hy|].
  { split; simpl; [set_solver|lia| |by left].
    intros w p Hl. by rewrite lookup_empty in Hl. }
  destruct (fwd_walk _ _ _ _ _) as [st [path|]]; simpl in *; [done|].
  destruct H as (_ & new & [A1 A2 A3 A4 A5 A6 A7] & Hin). simpl in *.
  rewrite A1. split_and!; [done|done| |].
  - intros u Hu. split; [by apply A5|]. by destruct (A6 u Hu) as [->|].
  - intros u v Hu He. destruct (A7 u v Hu He) as [Hne Hlt].
    destruct (Z.lt_total (rank s v) ub) as [Hv|[Hv|Hv]]; [|done|by right].
    left. apply Hlt, A3 in Hv as [Hv|Hv]; [set_solver|done].
Qed.

(** ** The backward search *)

Record bwd_new (lb : Z) (n : nat) (st st' : gset nat * list nat) (new : list nat) : Prop := {
  bn_region : st'.2 = st.2 ++ new;
  bn_nodup : NoDup new;
  bn_seen : forall u, u ∈ st'.1 <-> u ∈ st.1 \/ u ∈ new;
  bn_fresh : forall u, u ∈ new -> u ∉ st.1;
  bn_reach : forall u, u ∈ new -> reach s u n /\ u < N;
  bn_rank : forall u, u ∈ new -> u = n \/ (lb < rank s u)%Z;
  bn_closed : forall u v, u ∈ new -> edge s v u -> (lb < rank s v)%Z -> v ∈ st'.1
}.

Definition bwd_pre (fuel : nat) (st : gset nat * list nat) : Prop :=
  (forall u, u ∈ st.1 -> u < N) /\ N < size st.1 + fuel.

Definition bwd_walk_ok (lb : Z) (fuel : nat)
    (walk : nat -> gset nat * list nat -> gset nat * list nat) : Prop :=
  forall w st, bwd_pre fuel st -> w ∉ st.1 -> w < N ->
    exists new, bwd_new lb w st (walk w st) new /\ w ∈ new.

Lemma bwd_new_trans lb n w st1 st2 st3 new1 new2 :
  edge s w n -> (lb < rank s w)%Z ->
  bwd_new lb w st1 st2 new1 -> bwd_new lb n st2 st3 new2 ->
  bwd_new lb n st1 st3 (new1 ++ new2).
Proof.
  intros He Hw [A1 A2 A3 A4 A5 A6 A7] [B1 B2 B3 B4 B5 B6 B7]. split.
  - by rewrite B1, A1, app_assoc.
  - apply NoDup_app. split_and!; [done| |done]. intros u Hu Hu2. apply (B4 u Hu2), A3. auto.
  - intros u. rewrite B3, A3, elem_of_app. tauto.
  - intros u [Hu|Hu]%elem_of_app; [by apply A4|]. intros Hs. apply (B4 u Hu), A3. auto.
  - intros u [Hu|Hu]%elem_of_app; [|by apply B5]. destruct (A5 u Hu) as [Hw' Hl].
    split; [|done]. by eapply rtc_r.
  - intros u [Hu|Hu]%elem_of_app; [|by apply B6]. right. destruct (A6 u Hu) as [->|]; auto.
  - intros u v [Hu|Hu]%elem_of_app Hv Hl; [|by apply (B7 u)]. apply B3. left. by apply (A7 u).
Qed.

Lemma bwd_pre_walk lb fuel w st1 st2 new :
  bwd_pre fuel st1 -> bwd_new lb w st1 st2 new -> bwd_pre fuel st2.
Proof.
  intros [P1 P2] Hn. split.
  - intros u [Hu|Hu]%(bn_seen _ _ _ _ _ Hn); [by apply P1|]. by apply (bn_reach _ _ _ _ _ Hn).
  - assert (size st1.1 <= size st2.1) as Hsz; [|lia].
    apply subseteq_size. intros u Hu. apply (bn_seen _ _ _ _ _ Hn). by left.
Qed.

Lemma bwd_loop_ok walk lb fuel n es st :
  bwd_walk_ok lb fuel walk ->
  (forall e, e ∈ es -> edge s (from e) n) -> bwd_pre fuel st ->
  exists new, bwd_new lb n st (bwd_loop s walk lb es st) new /\
    forall e, e ∈ es -> (lb < rank s (from e))%Z -> from e ∈ (bwd_loop s walk lb es st).1.
Proof.
  intros Hwalk. revert st. induction es as [|e es IH]; intros st Hes Hpre; simpl.
  { exists []. split; [|set_solver]. split; [by rewrite app_nil_r|constructor|set_solver..]. }
  assert (He : edge s (from e) n) by (apply Hes; left).
  assert (Hlw : live s (from e)) by apply (gw_live s Hg _ n He).
  assert (Hes' : forall e', e' ∈ es -> edge s (from e') n) by set_solver.
  fold (rank s (from e)).
  destruct (bool_decide_reflect (from e ∈ st.1)) as [Hin|Hin]; simpl.
  { destruct (IH st Hes' Hpre) as (new & Hn & Hc). exists new. split; [done|].
    intros e' [->|He']%elem_of_cons; [|by apply Hc]. intros _. apply Hn. auto. }
  destruct (Z.ltb_spec lb (rank s (from e))) as [Hlt|Hge]; simpl.
  2:{ destruct (IH st Hes' Hpre) as (new & Hn & Hc). exists new. split; [done|].
    intros e' [->|He']%elem_of_cons; [lia|by apply Hc]. }
  destruct (Hwalk (from e) st Hpre Hin (proj1 Hlw)) as (new1 & Hn1 & Hin1).
  destruct (IH _ Hes' (bwd_pre_walk lb fuel _ st _ new1 Hpre Hn1)) as (new2 & Hn2 & Hc).
  exists (new1 ++ new2). split; [by eapply bwd_new_trans|].
  intros e' [->|He']%elem_of_cons; [|by apply Hc]. intros _.
  apply (bn_seen _ _ _ _ _ Hn2). left. apply (bn_seen _ _ _ _ _ Hn1). auto.
Qed.

Lemma bwd_walk_all_ok lb fuel : bwd_walk_ok lb fuel (bwd_walk s fuel lb).
Proof.
  induction fuel as [|fuel IH]; intros n st [P1 P2] Hn HnN.
  { pose proof (seen_bound _ P1). lia. }
  simpl. set (st1 := ({[n]} ∪ st.1, st.2 ++ [n])).
  destruct (bwd_loop_ok (bwd_walk s fuel lb) lb fuel n (s_pred s !!! n) st1 IH)
    as (new & [A1 A2 A3 A4 A5 A6 A7] & Hc).
  { intros e He. apply (gw_pred s Hg). by apply list_elem_of_fmap_2. }
  { split; simpl; [set_solver|]. rewrite size_union, size_singleton by set_solver. lia. }
  exists (n :: new). split; [|left]. simpl in *. split.
  - by rewrite A1, <- app_assoc.
  - apply NoDup_cons. split; [|done]. intros Hx%A4. set_solver.
  - intros u. rewrite A3. set_solver.
  - intros u Hu. set_solver.
  - intros u [->|Hu]%elem_of_cons; [split; [apply rtc_refl|done]|by apply A5].
  - intros u [->|Hu]%elem_of_cons; [by left|]. by apply A6.
  - intros u v [->|Hu]%elem_of_cons Hv Hl; [|by apply (A7 u)].
    apply (gw_pred s Hg), list_elem_of_fmap in Hv as (e & -> & He). by apply Hc.
Qed.

Lemma backwardSearch_ok x lb :
  live s x -> (lb < rank s x)%Z ->
  let '(B, _) := backwardSearch s x lb in
  NoDup B /\ x ∈ B /\
  (forall u, u ∈ B -> reach s u x /\ (lb < rank s u)%Z) /\
  (forall u v, v ∈ B -> edge s u v -> u ∈ B \/ (rank s u <= lb)%Z).
Proof.
  intros Hx Hlb. unfold backwardSearch.
  destruct (bwd_walk_all_ok lb (S N) x (∅, [])) as (new & [A1 A2 A3 A4 A5 A6 A7] & Hin);
    [|set_solver|apply Hx|].
  { split; simpl; [set_solver|lia]. }
  destruct (bwd_walk _ _ _ _ _) as [seen region]. simpl in *. rewrite A1. split_and!; [done|done| |].
  - intros u Hu. split; [by apply A5|]. by destruct (A6 u Hu) as [->|].
  - intros u v Hv He. destruct (Z.le_gt_cases (rank s u) lb) as [?|Hl]; [by right|left].
    apply (A7 v u Hv He), A3 in Hl as [?|?]; [set_solver|done].
Qed.

End Facts.
