(* ===== verification/Renumber.v ===== *)
(** * Renumbering two regions of an order

    The argument of Pearce and Kelly, for any type of nodes: two disjoint
    regions, sorted by rank, are given the sorted pool of their own ranks, the
    first region before the second.  Within a region the order is kept, the
    first region ends below the second, no node of the first moves up, none of
    the second moves down, and nothing else moves; so every edge still goes up
    in rank, and so does the new one.  The in-memory and the PostgreSQL
    backends both instantiate it. *)
From S2P Require Import Prelude.

(** Strictly increasing, by index. *)
Definition incr (l : list Z) : Prop :=
  forall i j a b, i < j -> l !! i = Some a -> l !! j = Some b -> (a < b)%Z.

Lemma StronglySorted_index {A} (R : relation A) l i j a b :
  StronglySorted R l -> i < j -> l !! i = Some a -> l !! j = Some b -> R a b.
Proof.
  intros Hs. revert i j. induction Hs as [|c l Hs IH Hf]; intros i j Hij Hi Hj; [done|].
  destruct j as [|j]; [lia|]. simpl in Hj. destruct i as [|i]; simplify_eq/=.
  - rewrite Forall_forall in Hf. apply Hf, list_elem_of_lookup. eauto.
  - apply (IH i j); [lia|done..].
Qed.

Lemma incr_NoDup l : incr l -> NoDup l.
Proof.
  intros Hi. apply NoDup_alt. intros i j x H1 H2.
  destruct (Nat.lt_total i j) as [H|[H|H]]; [|done|].
  - pose proof (Hi i j x x H H1 H2). lia.
  - pose proof (Hi j i x x H H2 H1). lia.
Qed.

Lemma incr_index l i j a b : incr l -> l !! i = Some a -> l !! j = Some b -> (a < b)%Z -> i < j.
Proof.
  intros Hi H1 H2 Hab. destruct (Nat.lt_total i j) as [H|[->|H]]; [done|simplify_eq; lia|].
  pose proof (Hi j i b a H H2 H1). lia.
Qed.

(** A sorted list is pointwise above an increasing list it contains. *)
Lemma incr_sub_le sub l i a b :
  incr sub -> incr l -> (forall z, z ∈ sub -> z ∈ l) ->
  l !! i = Some a -> sub !! i = Some b -> (a <= b)%Z.
Proof.
  intros Hs Hl Hsub Ha Hb. destruct (Z.le_gt_cases a b) as [?|Hlt]; [done|exfalso].
  assert (take (S i) sub ⊆+ take i l) as Hsm.
  { apply NoDup_submseteq; [eapply sublist_NoDup; [apply (incr_NoDup sub Hs)|apply sublist_take]|].
    intros z [k Hk]%list_elem_of_lookup. apply lookup_take_Some in Hk as [Hk Hki].
    assert (z <= b)%Z.
    { destruct (decide (k = i)) as [->|]; [simplify_eq; lia|].
      assert (k < i) as Hki' by lia. pose proof (Hs k i z b Hki' Hk Hb). lia. }
    destruct (proj1 (list_elem_of_lookup l z)) as [m Hm].
    { apply Hsub, list_elem_of_lookup. eauto. }
    apply list_elem_of_lookup. exists m. apply lookup_take_Some. split; [done|].
    apply (incr_index l m i z a); [done..|lia]. }
  apply submseteq_length in Hsm. apply lookup_lt_Some in Ha, Hb.
  rewrite !length_take in Hsm. lia.
Qed.

(** Counted from the end: the last entries of the sorted list are above. *)
Lemma incr_sub_ge sub l i a b :
  incr sub -> incr l -> (forall z, z ∈ sub -> z ∈ l) -> length sub <= length l ->
  l !! (length l - length sub + i) = Some a -> sub !! i = Some b -> (b <= a)%Z.
Proof.
  intros Hs Hl Hsub Hlen Ha Hb. destruct (Z.le_gt_cases b a) as [?|Hlt]; [done|exfalso].
  set (p := length l - length sub + i) in *.
  assert (drop i sub ⊆+ drop (S p) l) as Hsm.
  { apply NoDup_submseteq; [eapply sublist_NoDup; [apply (incr_NoDup sub Hs)|apply sublist_drop]|].
    intros z [k Hk]%list_elem_of_lookup. rewrite lookup_drop in Hk.
    assert (b <= z)%Z.
    { destruct (decide (k = 0)) as [->|]; [rewrite Nat.add_0_r in Hk; simplify_eq; lia|].
      assert (i < i + k) as Hki' by lia. pose proof (Hs i (i + k) b z Hki' Hb Hk). lia. }
    destruct (proj1 (list_elem_of_lookup l z)) as [m Hm].
    { apply Hsub, list_elem_of_lookup. eauto. }
    assert (p < m) by (apply (incr_index l p m a z); [done..|lia]).
    apply list_elem_of_lookup. exists (m - S p). rewrite lookup_drop.
    by replace (S p + (m - S p)) with m by lia. }
  apply submseteq_length in Hsm. apply lookup_lt_Some in Ha, Hb.
  rewrite !length_drop in Hsm. lia.
Qed.

Lemma merge_sort_incr l : NoDup l -> incr (merge_sort Z.le l).
Proof.
  intros Hnd i j a b Hij Ha Hb.
  pose proof (StronglySorted_index Z.le _ i j a b (StronglySorted_merge_sort Z.le l) Hij Ha Hb).
  assert (a <> b); [|lia]. intros ->.
  assert (NoDup (merge_sort Z.le l)) as Hn by (by rewrite merge_sort_Permutation).
  pose proof (NoDup_lookup _ i j b Hn Ha Hb). lia.
Qed.

(** Sorting by rank, with distinct ranks. *)
Lemma sort_incr {K : Type} (rk : K -> Z) (R : relation K) `{!RelDecision R, !Transitive R, !Total R} xs :
  (forall a b, R a b -> (rk a <= rk b)%Z) -> NoDup xs ->
  (forall a b, a ∈ xs -> b ∈ xs -> rk a = rk b -> a = b) -> incr (rk <$> merge_sort R xs).
Proof.
  intros HR Hnd Hinj i j a b Hij Ha Hb.
  apply list_lookup_fmap_Some in Ha as (x & -> & Hx), Hb as (y & -> & Hy).
  pose proof (StronglySorted_index R _ i j x y (StronglySorted_merge_sort R xs) Hij Hx Hy) as Hle%HR.
  assert (x ∈ xs /\ y ∈ xs) as [Hxs Hys].
  { rewrite <- (merge_sort_Permutation R xs). split; apply list_elem_of_lookup; eauto. }
  assert (x <> y).
  { intros ->. assert (NoDup (merge_sort R xs)) as Hn by (by rewrite merge_sort_Permutation).
    pose proof (NoDup_lookup _ i j y Hn Hx Hy). lia. }
  destruct (Z.eq_dec (rk x) (rk y)) as [E|]; [|lia]. exfalso. auto.
Qed.

(** ** The new ranks *)

Section Renumber.
Context {K : Type} (rk rk' : K -> Z) (B F B' F' : list K).
Context (HB : B' ≡ₚ B) (HF : F' ≡ₚ F) (HnB : NoDup B) (HnF : NoDup F) (Hdisj : forall u, u ∈ B -> u ∉ F).
Context (Hinj : forall u v, u ∈ B \/ u ∈ F -> v ∈ B \/ v ∈ F -> rk u = rk v -> u = v).
Context (HiB : incr (rk <$> B')) (HiF : incr (rk <$> F')).

Definition pool : list Z := merge_sort Z.le ((rk <$> B') ++ (rk <$> F')).

Context (Hat : forall i u, (B' ++ F') !! i = Some u -> pool !! i = Some (rk' u)).

Lemma elem_BF u : u ∈ B' ++ F' <-> u ∈ B \/ u ∈ F.
Proof. by rewrite elem_of_app, HB, HF. Qed.

Lemma BF_NoDup : NoDup (B' ++ F').
Proof. apply NoDup_app. split_and!; [by rewrite HB| |by rewrite HF]. intros u. rewrite HB, HF. apply Hdisj. Qed.

Lemma pool_perm : pool ≡ₚ rk <$> (B' ++ F').
Proof. unfold pool. by rewrite merge_sort_Permutation, fmap_app. Qed.

Lemma pool_incr : incr pool.
Proof.
  apply merge_sort_incr. rewrite <- fmap_app. apply (NoDup_fmap_2_strong rk); [|apply BF_NoDup].
  intros u v Hu%elem_BF Hv%elem_BF. by apply Hinj.
Qed.

Lemma pool_length : length pool = length B' + length F'.
Proof. rewrite pool_perm, length_fmap, length_app. done. Qed.

Lemma new_in_pool u : u ∈ B \/ u ∈ F -> exists v, (v ∈ B \/ v ∈ F) /\ rk' u = rk v.
Proof.
  rewrite <- elem_BF. intros [i Hi]%list_elem_of_lookup. apply Hat in Hi.
  assert (rk' u ∈ pool) as Hp by (apply list_elem_of_lookup; eauto).
  rewrite pool_perm in Hp. apply list_elem_of_fmap in Hp as (v & Hv & Hin). exists v. by rewrite <- elem_BF.
Qed.

Lemma new_inj u v : u ∈ B \/ u ∈ F -> v ∈ B \/ v ∈ F -> rk' u = rk' v -> u = v.
Proof.
  rewrite <- !elem_BF. intros [i Hi]%list_elem_of_lookup [j Hj]%list_elem_of_lookup E.
  pose proof (Hat i u Hi) as Pi. pose proof (Hat j v Hj) as Pj. rewrite E in Pi.
  pose proof (NoDup_lookup _ i j _ (incr_NoDup _ pool_incr) Pi Pj). subst j. by simplify_eq.
Qed.

Lemma index_B u : u ∈ B -> exists i, B' !! i = Some u /\ (B' ++ F') !! i = Some u.
Proof.
  rewrite <- HB. intros [i Hi]%list_elem_of_lookup. exists i. split; [done|]. by apply lookup_app_l_Some.
Qed.

Lemma index_F u : u ∈ F -> exists j, F' !! j = Some u /\ (B' ++ F') !! (length B' + j) = Some u.
Proof.
  rewrite <- HF. intros [j Hj]%list_elem_of_lookup. exists j. split; [done|].
  rewrite lookup_app_r by lia. by rewrite Nat.add_sub'.
Qed.

Lemma new_B_F u v : u ∈ B -> v ∈ F -> (rk' u < rk' v)%Z.
Proof.
  intros (i & Hi & Hi')%index_B (j & Hj & Hj')%index_F.
  apply (pool_incr i (length B' + j)); [|by apply Hat..]. apply lookup_lt_Some in Hi. lia.
Qed.

Lemma new_B u v : u ∈ B -> v ∈ B -> (rk u < rk v)%Z -> (rk' u < rk' v)%Z.
Proof.
  intros (i & Hi & Hi')%index_B (j & Hj & Hj')%index_B Hr. apply (pool_incr i j); [|by apply Hat..].
  apply (incr_index (rk <$> B') i j (rk u) (rk v)); [done|..|done]; rewrite list_lookup_fmap; by rewrite ?Hi, ?Hj.
Qed.

Lemma new_F u v : u ∈ F -> v ∈ F -> (rk u < rk v)%Z -> (rk' u < rk' v)%Z.
Proof.
  intros (i & Hi & Hi')%index_F (j & Hj & Hj')%index_F Hr.
  apply (pool_incr (length B' + i) (length B' + j)); [|by apply Hat..]. apply Nat.add_lt_mono_l.
  apply (incr_index (rk <$> F') i j (rk u) (rk v)); [done|..|done]; rewrite list_lookup_fmap; by rewrite ?Hi, ?Hj.
Qed.

Lemma new_B_down u : u ∈ B -> (rk' u <= rk u)%Z.
Proof.
  intros (i & Hi & Hi')%index_B.
  apply (incr_sub_le (rk <$> B') pool i); [done|apply pool_incr| |by apply Hat|by rewrite list_lookup_fmap, Hi].
  intros z Hz. rewrite pool_perm, fmap_app, elem_of_app. by left.
Qed.

Lemma new_F_up u : u ∈ F -> (rk u <= rk' u)%Z.
Proof.
  intros (j & Hj & Hj')%index_F.
  apply (incr_sub_ge (rk <$> F') pool j); [done|apply pool_incr| | | |].
  - intros z Hz. rewrite pool_perm, fmap_app, elem_of_app. by right.
  - rewrite length_fmap, pool_length. lia.
  - rewrite length_fmap, pool_length, Nat.add_sub. by apply Hat.
  - by rewrite list_lookup_fmap, Hj.
Qed.

End Renumber.

(** ** The regions of a new edge [x -> y] *)

Section Regions.
Context {K : Type} `{EqDecision K} (rk : K -> Z) (edge : relation K) (live : K -> Prop).
Context (Hlive : forall u v, edge u v -> live u /\ live v).
Context (Hmono : forall u v, edge u v -> (rk u < rk v)%Z).
Context (Hrinj : forall u v, live u -> live v -> rk u = rk v -> u = v).
Context (x y : K) (Hx : live x) (Hy : live y).

(** What the two searches leave when no cycle was found. *)
Record regions (B F : list K) : Prop := {
  rg_B : NoDup B /\ x ∈ B;
  rg_F : NoDup F /\ y ∈ F;
  rg_Br : forall u, u ∈ B -> rtc edge u x /\ (rk y < rk u)%Z;
  rg_Fr : forall u, u ∈ F -> rtc edge y u /\ (rk u < rk x)%Z;
  rg_Bc : forall u v, v ∈ B -> edge u v -> u ∈ B \/ (rk u <= rk y)%Z;
  rg_Fc : forall u v, u ∈ F -> edge u v -> v ∈ F \/ (rk x < rk v)%Z
}.

Lemma rtc_rank u v : rtc edge u v -> (rk u <= rk v)%Z.
Proof. induction 1 as [|a b c Hab _ IH]; [lia|]. pose proof (Hmono a b Hab). lia. Qed.

Context (B F : list K) (Hrg : regions B F).

Lemma no_route : ~ rtc edge y x.
Proof.
  intros Hyx. assert (Hall : forall n, rtc edge y n -> rtc edge n x -> n ∈ F).
  { apply (rtc_ind_r (fun n => rtc edge n x -> n ∈ F)); [by intros _; apply Hrg|].
    intros m n Hm He IH Hn. assert (m ∈ F) as HmF by (apply IH; by eapply rtc_l).
    destruct (rg_Fc B F Hrg m n HmF He) as [?|Hlt]; [done|]. pose proof (rtc_rank n x Hn). lia. }
  specialize (Hall x Hyx (rtc_refl _ _)). apply (rg_Fr B F Hrg) in Hall as [_ ?]. lia.
Qed.

Lemma regions_disjoint u : u ∈ B -> u ∉ F.
Proof.
  intros HuB HuF. apply no_route. etrans; [apply (rg_Fr B F Hrg u HuF)|apply (rg_Br B F Hrg u HuB)].
Qed.

Lemma region_live u : u ∈ B \/ u ∈ F -> live u.
Proof.
  intros [Hu|Hu].
  - destruct (rg_Br B F Hrg u Hu) as [Hu' _]. inversion Hu' as [|a b c Hab]; subst; [done|]. by apply (Hlive u b).
  - destruct (rg_Fr B F Hrg u Hu) as [Hu' _]. apply rtc_inv_r in Hu' as [<-|(z & _ & Hz)]; [done|]. by apply (Hlive z u).
Qed.

Lemma region_rank u : u ∈ B \/ u ∈ F -> (rk y <= rk u <= rk x)%Z.
Proof.
  intros [Hu|Hu].
  - destruct (rg_Br B F Hrg u Hu) as [H1%rtc_rank H2]. lia.
  - destruct (rg_Fr B F Hrg u Hu) as [H1%rtc_rank H2]. lia.
Qed.

Lemma region_inj u v : u ∈ B \/ u ∈ F -> v ∈ B \/ v ∈ F -> rk u = rk v -> u = v.
Proof. intros Hu%region_live Hv%region_live. by apply Hrinj. Qed.

Lemma region_dec u : (u ∈ B) \/ (u ∈ F) \/ (u ∉ B /\ u ∉ F).
Proof. destruct (decide (u ∈ B)), (decide (u ∈ F)); auto. Qed.

(** The two regions sorted, and the ranks handed out. *)
Context (B' F' : list K) (rk' : K -> Z) (HB : B' ≡ₚ B) (HF : F' ≡ₚ F).
Context (HiB : incr (rk <$> B')) (HiF : incr (rk <$> F')).
Context (Hat : forall i u, (B' ++ F') !! i = Some u -> pool rk B' F' !! i = Some (rk' u)).
Context (Hout : forall u, u ∉ B -> u ∉ F -> rk' u = rk u).

Let nB : NoDup B := proj1 (rg_B B F Hrg).
Let nF : NoDup F := proj1 (rg_F B F Hrg).

(** A rank given out is one the region held before. *)
Lemma new_rank_between u : u ∈ B \/ u ∈ F -> (rk y <= rk' u <= rk x)%Z.
Proof.
  intros Hu. destruct (new_in_pool rk rk' B F B' F' HB HF Hat u Hu) as (v & Hv & ->). by apply region_rank.
Qed.

(** An edge whose source is outside the two regions. *)
Lemma mono_from_out u v : edge u v -> u ∉ B -> u ∉ F -> (rk' u < rk' v)%Z.
Proof.
  intros He HuB HuF. pose proof (Hmono u v He) as Hlt. rewrite (Hout u) by done.
  destruct (region_dec v) as [HvB|[HvF|[? ?]]].
  - destruct (rg_Bc B F Hrg u v HvB He) as [?|Hle]; [done|].
    pose proof (new_rank_between v (or_introl HvB)).
    assert (rk u <> rk y); [|lia]. intros E.
    destruct HuF. rewrite (Hrinj u y); [apply Hrg|by apply (Hlive u v)|done|done].
  - pose proof (new_F_up rk rk' B F B' F' HB HF nB nF regions_disjoint region_inj HiF Hat v HvF). lia.
  - by rewrite (Hout v).
Qed.

Lemma mono_from_F u v : edge u v -> u ∈ F -> (rk' u < rk' v)%Z.
Proof.
  intros He HuF. pose proof (Hmono u v He) as Hlt.
  destruct (rg_Fc B F Hrg u v HuF He) as [HvF|Hgt].
  - by apply (new_F rk rk' B F B' F' HB HF nB nF regions_disjoint region_inj HiF Hat).
  - destruct (region_dec v) as [HvB|[HvF|[? ?]]].
    + pose proof (region_rank v (or_introl HvB)). lia.
    + pose proof (region_rank v (or_intror HvF)). lia.
    + rewrite (Hout v) by done. pose proof (new_rank_between u (or_intror HuF)). lia.
Qed.

Lemma mono_from_B u v : edge u v -> u ∈ B -> (rk' u < rk' v)%Z.
Proof.
  intros He HuB. pose proof (Hmono u v He) as Hlt.
  destruct (region_dec v) as [HvB|[HvF|[? ?]]].
  - by apply (new_B rk rk' B F B' F' HB HF nB nF regions_disjoint region_inj HiB Hat).
  - by apply (new_B_F rk rk' B F B' F' HB HF nB nF regions_disjoint region_inj Hat).
  - rewrite (Hout v) by done.
    pose proof (new_B_down rk rk' B F B' F' HB HF nB nF regions_disjoint region_inj HiB Hat u HuB). lia.
Qed.

Lemma renumber_mono u v : edge u v -> (rk' u < rk' v)%Z.
Proof.
  intros He. destruct (region_dec u) as [?|[?|[? ?]]];
    [by apply mono_from_B|by apply mono_from_F|by apply mono_from_out].
Qed.

Lemma renumber_inj u v : live u -> live v -> rk' u = rk' v -> u = v.
Proof.
  assert (Hmix : forall u v, u ∈ B \/ u ∈ F -> v ∉ B -> v ∉ F -> live v -> rk' u <> rk' v).
  { intros a b Hin HbB HbF Hb E. rewrite (Hout b) in E by done.
    destruct (new_in_pool rk rk' B F B' F' HB HF Hat a Hin) as (w & Hw & E'). assert (w = b) as ->; [|tauto].
    apply Hrinj; [by apply region_live|done|lia]. }
  intros Hu Hv E. destruct (region_dec u) as [?|[?|[? ?]]], (region_dec v) as [?|[?|[? ?]]];
    try (by apply (new_inj rk rk' B F B' F' HB HF nB nF regions_disjoint region_inj Hat); auto);
    try (by destruct (Hmix u v); auto); try (by destruct (Hmix v u); auto).
  rewrite !Hout in E by done. by apply Hrinj.
Qed.

Lemma renumber_new : (rk' x < rk' y)%Z.
Proof. apply (new_B_F rk rk' B F B' F' HB HF nB nF regions_disjoint region_inj Hat); apply Hrg. Qed.

(** No rank value is invented. *)
Lemma renumber_values u : live u -> exists v, live v /\ rk' u = rk v.
Proof.
  intros Hu. destruct (region_dec u) as [Hin|[Hin|[? ?]]]; [..|exists u; by rewrite Hout].
  all: destruct (new_in_pool rk rk' B F B' F' HB HF Hat u) as (v & Hv & E); [by auto|];
    exists v; by split; [apply region_live|].
Qed.

End Regions.
