(* ===== verification/Graph.v ===== *)
(** * Graph operations of the in-memory backend: [storage/memory/graph.go]

    Each operation is the part of the method of [Store] that runs under the
    scope's mutex; [Memory.v] adds the lookup of the scope.  The result pairs
    the state with the effects returned and the error, if any. *)
From S2P Require Import Prelude Types Config Heap Scope Topo.

Record journal := mkJournal { created : list nat; j_edges : list (nat * nat) }.

#[export] Instance journal_eta : Eta journal := fun j => mkJournal (created j) (j_edges j).

(** [orderedSet]; its map [seen] holds exactly the members of [items]. *)
Record orderedSet := mkOrdered { os_items : list nat; os_seen : gset nat }.

Definition newOrderedSet : orderedSet := mkOrdered [] ∅.

Definition os_add (o : orderedSet) (h : nat) : orderedSet :=
  if bool_decide (h ∈ os_seen o) then o
  else mkOrdered (os_items o ++ [h]) ({[h]} ∪ os_seen o).

(** [rollback]: undo the edges, then the nodes, latest first. *)
Definition rollback_node (h : nat) (s : scope) : scope :=
  let s := leaveBucket h s in
  let s := s <| s_stats ::= fun st => st <| st_Total ::= fun n => u64 (n - 1) |> |> in
  let s := s <| s_index ::= delete (id (rec s h)) |> in
  release h s.

Definition rollback (j : journal) (s : scope) : scope :=
  let s := foldl (fun s e => fst (unlinkEdge e.1 e.2 s)) s (reverse (j_edges j)) in
  foldl (fun s h => rollback_node h s) s (reverse (created j)).

Definition create (spec : NodeSpec) (now : Z) (s : scope) : nat * scope :=
  let '(h, s) := alloc s in
  let s := upd_rec h (fun r =>
    r <| id := sp_ID spec |> <| kind := sp_Kind spec |> <| priority := sp_Priority spec |>
      <| trigger := sp_Trigger spec |> <| retry := sp_Retry spec |> <| status := StatusNew |>
      <| phase := PhaseBlocked |> <| alive := true |> <| epoch := s_epochFloor s |>
      <| createdAt := now |> <| updatedAt := now |>
      <| payload := sp_Payload spec |> <| labels := sp_Labels spec |>) s in
  let s := s <| s_index ::= <[sp_ID spec := h]> |> in
  let s := s <| s_nextOrd ::= fun n => i64 (n + 1) |> in
  let s := s <| s_ord ::= <[h := s_nextOrd s]> |> in
  let s := s <| s_stats ::= fun st => st <| st_Total ::= fun n => u64 (n + 1) |> |> in
  (h, enterBucket h s).

Definition cycleError (s : scope) (f to : nat) (path : list nat) : error :=
  CycleError (s_name s) (id (rec s f)) (id (rec s to)) ((fun h => id (rec s h)) <$> path).

(** The loop of [validateBatch] over the specs; [seen] is the local map. *)
Fixpoint validate_specs (cfg : ScopeConfig) (seen : gset string) (specs : list NodeSpec)
  : option error :=
  match specs with
  | [] => None
  | spec :: specs =>
    match NodeSpec_Validate spec with
    | Some e => Some e
    | None =>
      let size := Z.of_nat (length (sp_Payload spec)) in
      if (c_PayloadCap cfg <? size)%Z then Some (PayloadTooLargeError size (c_PayloadCap cfg))
      else if bool_decide (sp_ID spec ∈ seen) then Some (Err ErrInvalidArgument)
      else validate_specs cfg ({[sp_ID spec]} ∪ seen) specs
    end
  end.

Definition validateBatch (cfg : ScopeConfig) (specs : list NodeSpec) : option error :=
  if (c_MaxBatchSize cfg <? Z.of_nat (length specs))%Z then Some (Err ErrInvalidArgument)
  else validate_specs cfg ∅ specs.

(** [materialise]: the new nodes are both journalled and returned. *)
Fixpoint materialise (specs : list NodeSpec) (now : Z) (j : journal) (s : scope)
  : scope * journal * result (list nat) :=
  match specs with
  | [] => (s, j, Ok [])
  | spec :: specs =>
    match lookup_id s (sp_ID spec) with
    | Some h =>
      if negb (specMatches s h spec) then (s, j, Fail (Err ErrIDConflict))
      else materialise specs now j s
    | None =>
      let '(h, s) := create spec now s in
      let '(s, j, r) := materialise specs now (j <| created ::= fun l => l ++ [h] |>) s in
      (s, j, match r with Ok fresh => Ok (h :: fresh) | Fail e => Fail e end)
    end
  end.

(** The dependency loop of [linkBatch] for the spec whose node is [to]. *)
Fixpoint link_deps (to : nat) (deps : list string) (j : journal) (s : scope)
  : scope * journal * option error :=
  match deps with
  | [] => (s, j, None)
  | dep :: deps =>
    match lookup_id s dep with
    | None => (s, j, Some (Err ErrNotFound))
    | Some f =>
      if hasEdge s f to then link_deps to deps j s
      else if bool_decide (phase (rec s to) = PhaseDone) then (s, j, Some (Err ErrAlreadyTerminal))
      else
        let '(s, res) := addEdgeOrder f to s in
        match cyclePath res with
        | Some path => (s, j, Some (cycleError s f to path))
        | None =>
          let s := linkEdge f to s in
          link_deps to deps (j <| j_edges ::= fun l => l ++ [(f, to)] |>) s
        end
    end
  end.

(** [linkBatch]; [s.index[spec.ID]] is present for every spec of the batch. *)
Fixpoint linkBatch (specs : list NodeSpec) (touched : orderedSet) (j : journal) (s : scope)
  : scope * journal * result orderedSet :=
  match specs with
  | [] => (s, j, Ok touched)
  | spec :: specs =>
    let to := default 0 (s_index s !! sp_ID spec) in
    let touched := os_add touched to in
    let '(s, j, e) := link_deps to (sp_Deps spec) j s in
    match e with
    | Some e => (s, j, Fail e)
    | None => linkBatch specs touched j s
    end
  end.

(** The edge loop of [AddEdges]. *)
Fixpoint link_edges (edges : list Edge) (touched : orderedSet) (j : journal) (s : scope)
  : scope * journal * result orderedSet :=
  match edges with
  | [] => (s, j, Ok touched)
  | e :: edges =>
    match lookup_id s (e_From e) with
    | None => (s, j, Fail (Err ErrNotFound))
    | Some f =>
      match lookup_id s (e_To e) with
      | None => (s, j, Fail (Err ErrNotFound))
      | Some to =>
        if f =? to then (s, j, Fail (Err ErrCycle))
        else if hasEdge s f to then link_edges edges touched j s
        else if bool_decide (phase (rec s to) = PhaseDone) then (s, j, Fail (Err ErrAlreadyTerminal))
        else
          let '(s, res) := addEdgeOrder f to s in
          match cyclePath res with
          | Some path => (s, j, Fail (cycleError s f to path))
          | None =>
            let s := linkEdge f to s in
            link_edges edges (os_add touched to) (j <| j_edges ::= fun l => l ++ [(f, to)] |>) s
          end
      end
    end
  end.

(** The edge loop of [RemoveEdges]; an error returns at once, with the edges
    already unlinked left unlinked. *)
Fixpoint unlink_edges (edges : list Edge) (touched : orderedSet) (s : scope)
  : scope * result orderedSet :=
  match edges with
  | [] => (s, Ok touched)
  | e :: edges =>
    match lookup_id s (e_From e) with
    | None => (s, Fail (Err ErrNotFound))
    | Some f =>
      match lookup_id s (e_To e) with
      | None => (s, Fail (Err ErrNotFound))
      | Some to =>
        let '(s, present) := unlinkEdge f to s in
        unlink_edges edges (if present then os_add touched to else touched) s
      end
    end
  end.

Section Clocked.
Context {C : Type} `{!ClockSource C}.

Fixpoint record_created (fresh : list nat) (c : C) (s : scope) (out : list Effect)
  : C * scope * list Effect :=
  match fresh with
  | [] => (c, s, out)
  | h :: fresh =>
    let '(c, s, ef) := record h EventCreated StatusNew c s in
    record_created fresh c s (out ++ [ef])
  end.

(** [AddNodes] under the lock, for a non-empty batch. *)
Definition scope_AddNodes (specs : list NodeSpec) (c : C) (s : scope)
  : C * scope * result (list Effect) :=
  if s_sealed s then (c, s, Fail (Err ErrScopeSealed))
  else
    match validateBatch (Resolved (s_cfg s)) specs with
    | Some e => (c, s, Fail e)
    | None =>
      let '(now, c) := clk_Now c in
      let '(s, j, r) := materialise specs now (mkJournal [] []) s in
      match r with
      | Fail e => (c, rollback j s, Fail e)
      | Ok fresh =>
        let '(s, j, r) := linkBatch specs newOrderedSet j s in
        match r with
        | Fail e => (c, rollback j s, Fail e)
        | Ok touched =>
          let '(c, s, effects) := record_created fresh c s [] in
          let '(c, s, effects) := settle_all (os_items touched) c s effects in
          (c, refreshComplete s, Ok effects)
        end
      end
    end.

Definition scope_AddEdges (edges : list Edge) (c : C) (s : scope)
  : C * scope * result (list Effect) :=
  let '(s, j, r) := link_edges edges newOrderedSet (mkJournal [] []) s in
  match r with
  | Fail e => (c, rollback j s, Fail e)
  | Ok touched =>
    let '(c, s, effects) := settle_all (os_items touched) c s [] in
    (c, s, Ok effects)
  end.

Definition scope_RemoveEdges (edges : list Edge) (c : C) (s : scope)
  : C * scope * result (list Effect) :=
  let '(s, r) := unlink_edges edges newOrderedSet s in
  match r with
  | Fail e => (c, s, Fail e)
  | Ok touched =>
    let '(c, s, effects) := settle_all (os_items touched) c s [] in
    (c, s, Ok effects)
  end.

(** [for _, w := range ws { effects = s.terminate(w, ...) }]. *)
Fixpoint terminate_all (ws : list nat) (st : Status) (rs : Reason) (c : C) (s : scope)
    (out : list Effect) : C * scope * list Effect :=
  match ws with
  | [] => (c, s, out)
  | w :: ws =>
    let '(c, s, out) := terminate w st rs (terminalMessage rs) c s out in
    terminate_all ws st rs c s out
  end.

(** The removal proper: drop the incident edges, the index entries and the slot. *)
Definition drop_node (h : nat) (nid : string) (s : scope) : scope :=
  let s := foldl (fun s w => fst (unlinkEdge h w s)) s (s_succ s !!! h) in
  let s := foldl (fun s e => fst (unlinkEdge (from e) h s)) s (s_pred s !!! h) in
  let s := ready_Remove (kind (rec s h)) h s in
  let s := scheduled_Remove h s in
  let s := leases_Remove h s in
  let s := leaveBucket h s in
  let s := s <| s_stats ::= fun st => st <| st_Total ::= fun n => u64 (n - 1) |> |> in
  let s := s <| s_index ::= delete nid |> in
  release h s.

Definition scope_RemoveNode (nid : string) (policy : CascadePolicy) (c : C) (s : scope)
  : C * scope * result (list Effect) :=
  match lookup_id s nid with
  | None => (c, s, Fail (Err ErrNotFound))
  | Some h =>
    if bool_decide (phase (rec s h) = PhaseClaimed) then (c, s, Fail (Err ErrNodeInFlight))
    else if negb (bool_decide (s_succ s !!! h = [])) && bool_decide (policy = CascadeReject)
    then (c, s, Fail (Err ErrHasSuccessors))
    else
      let '(c, s, effects) :=
        if bool_decide (policy = CascadeFail)
        then terminate_all (s_succ s !!! h) StatusError ReasonRemoved c s []
        else (c, s, []) in
      let successors := s_succ s !!! h in
      let s := drop_node h nid s in
      let '(c, s, effects) :=
        if bool_decide (policy = CascadeDetach)
        then settle_all successors c s effects
        else (c, s, effects) in
      (c, refreshComplete s, Ok effects)
  end.

(** The loop of [Cancel]: an unknown identifier ends it with the effects so
    far and an error. *)
Fixpoint cancel_ids (ids : list string) (c : C) (s : scope) (out : list Effect)
  : C * scope * list Effect * option error :=
  match ids with
  | [] => (c, s, out, None)
  | i :: ids =>
    match lookup_id s i with
    | None => (c, s, out, Some (Err ErrNotFound))
    | Some h =>
      if bool_decide (phase (rec s h) = PhaseDone) then cancel_ids ids c s out
      else
        let '(c, s, out) :=
          terminate h StatusError ReasonCancelled (terminalMessage ReasonCancelled) c s out in
        cancel_ids ids c s out
    end
  end.

Definition scope_Cancel (ids : list string) (c : C) (s : scope)
  : C * scope * list Effect * option error :=
  let '(c, s, out, e) := cancel_ids ids c s [] in
  match e with
  | Some e => (c, s, out, Some e)
  | None => (c, refreshComplete s, out, None)
  end.

(** The second loop of [CancelScope]. *)
Fixpoint cancel_handles (hs : list nat) (c : C) (s : scope) (out : list Effect)
  : C * scope * list Effect :=
  match hs with
  | [] => (c, s, out)
  | h :: hs =>
    if bool_decide (phase (rec s h) = PhaseDone) then cancel_handles hs c s out
    else
      let '(c, s, out) :=
        terminate h StatusError ReasonCancelled (terminalMessage ReasonCancelled) c s out in
      cancel_handles hs c s out
  end.

(** [CancelScope]; [visit] is the order in which [range s.index] yields the
    handles, which Go leaves unspecified. *)
Definition scope_CancelScope (visit : list nat) (c : C) (s : scope) : C * scope * list Effect :=
  let live_ := filter (fun h => phase (rec s h) <> PhaseDone) visit in
  let '(c, s, out) := cancel_handles live_ c s [] in
  (c, refreshComplete s, out).

End Clocked.
