(* ===== verification/Lease.v ===== *)
(** * The lease protocol of the in-memory backend: [storage/memory/lease.go] *)
From S2P Require Import Prelude Types Config Heap Scope.

(** [bumpAttempt]: saturating increment of a [uint32]. *)
Definition bumpAttempt (n : Z) : Z := if (n =? max_u32)%Z then n else u32 (n + 1).

(** [effectiveRetry]: the node's own policy over the scope's, field by field. *)
Definition effectiveRetry (r : nodeRec) (cfg : ScopeConfig) : Z * Z * Z :=
  (if (0 <? rp_MaxAttempts (retry r))%Z then rp_MaxAttempts (retry r) else c_MaxAttempts cfg,
   if (0 <? rp_BaseDelay (retry r))%Z then rp_BaseDelay (retry r) else c_RetryBaseDelay cfg,
   if (0 <? rp_MaxDelay (retry r))%Z then rp_MaxDelay (retry r) else c_RetryMaxDelay cfg).

Definition timeoutMessage : string := "the worker did not acknowledge before the lease deadline".

Definition deadlineOfTop (s : scope) : Z :=
  match Pq.Peek (s_leases s) with
  | None => max_i64
  | Some h => s_deadline s !!! h
  end.

(** [consider] of [popReady]: keep the better of the best so far and the head
    of one kind's heap. *)
Definition better (s : scope) (top best : nat) : bool :=
  (priority (rec s best) <? priority (rec s top))%Z
  || ((priority (rec s top) =? priority (rec s best))%Z && (s_fifo s !!! top <? s_fifo s !!! best)%Z).

Definition consider (s : scope) (best : option (nat * string)) (kh : string * Heap)
  : option (nat * string) :=
  match Pq.Peek kh.2 with
  | None => best
  | Some top =>
    match best with
    | None => Some (top, kh.1)
    | Some (b, _) => if better s top b then Some (top, kh.1) else best
    end
  end.

(** The heaps [popReady] looks at: all of them in the order [range s.ready]
    yields them (here [map_to_list]; [best_of_ok] of [LeaseFacts] holds for any
    order), or those of the requested kinds that exist. *)
Definition candidates (s : scope) (kinds : list string) : list (string * Heap) :=
  match kinds with
  | [] => map_to_list (s_ready s)
  | _ => omap (fun k => (fun h => (k, h)) <$> s_ready s !! k) kinds
  end.

Definition best_of (s : scope) (hs : list (string * Heap)) : option (nat * string) :=
  foldl (consider s) None hs.

Definition popReady (kinds : list string) (s : scope) : scope * option nat :=
  match best_of s (candidates s kinds) with
  | None => (s, None)
  | Some (h, k) => (set_readyHeap k (fst (Pq.Pop (less_ready s) (readyHeap s k))) s, Some h)
  end.

(** The writes of [Claim] to a node it grants. *)
Definition grant (workerID : string) (now leaseFor : Z) (h : nat) (s : scope) : scope :=
  let s := leaveBucket h s in
  let s := upd_rec h (fun r => r <| epoch ::= fun e => u64 (e + 1) |> <| attempt ::= bumpAttempt |>
             <| phase := PhaseClaimed |> <| status := StatusInProgress |> <| worker := workerID |>
             <| updatedAt := now |>) s in
  let s := s <| s_deadline ::= <[h := i64 (now + leaseFor)]> |> in
  let s := leases_Push h s in
  enterBucket h s.

Definition lease_of (s : scope) (h : nat) : Lease :=
  mkLease (s_name s) (id (rec s h)) (epoch (rec s h)) (unix (s_deadline s !!! h))
    (Some (snapshot s h)) [].

Section Clocked.
Context {C : Type} `{!ClockSource C}.

Definition failAttempt (h : nat) (rs : Reason) (msg : string) (cfg : ScopeConfig) (now : Z)
    (c : C) (s : scope) (out : list Effect) : C * scope * list Effect :=
  let '(maxAttempts, base, maxDelay) := effectiveRetry (rec s h) cfg in
  let s := leases_Remove h s in
  let s := s <| s_deadline ::= <[h := 0%Z]> |> in
  if (maxAttempts <=? attempt (rec s h))%Z then terminate h StatusError rs msg c s out
  else
    let from := status (rec s h) in
    let '(delay, c) := Backoff (attempt (rec s h)) base maxDelay (Some clk_Jitter) c in
    let s := upd_rec h (fun r => r <| reason := rs |> <| message := msg |> <| worker := ""%string |>
               <| updatedAt := now |>) s in
    let s := schedule h (i64 (now + delay)) s in
    let '(c, s, ef) := record h EventTransition from c s in
    (c, s, out ++ [ef]).

(** [reclaimExpired]; every iteration takes one member out of the lease heap. *)
Fixpoint reclaim_loop (fuel : nat) (now : Z) (cfg : ScopeConfig) (limit reclaimed : Z)
    (c : C) (s : scope) (out : list Effect) : C * scope * list Effect * Z * bool :=
  match fuel with
  | O => (c, s, out, reclaimed, false)
  | S fuel =>
    if (reclaimed <? limit)%Z then
      match Pq.Peek (s_leases s) with
      | None => (c, s, out, reclaimed, false)
      | Some h =>
        if (now <? s_deadline s !!! h)%Z then (c, s, out, reclaimed, false)
        else
          let '(c, s, out) := failAttempt h ReasonTimeout timeoutMessage cfg now c s out in
          reclaim_loop fuel now cfg limit (reclaimed + 1) c s out
      end
    else
      (c, s, out, reclaimed,
       match Pq.Peek (s_leases s) with None => false | Some _ => (deadlineOfTop s <=? now)%Z end)
  end.

Definition reclaimExpired (now : Z) (cfg : ScopeConfig) (limit : Z) (c : C) (s : scope)
    (out : list Effect) : C * scope * list Effect * Z * bool :=
  reclaim_loop (S (Pq.Len (s_leases s))) now cfg limit 0 c s out.

(** The grant loop of [Claim]; every iteration takes one node out of the ready
    heaps, so the number of their members bounds it. *)
Fixpoint claim_loop (fuel : nat) (req : ClaimRequest) (cfg : ScopeConfig) (now want leaseFor : Z)
    (c : C) (s : scope) (leases : list Lease) (out : list Effect)
  : C * scope * list Lease * list Effect :=
  match fuel with
  | O => (c, s, leases, out)
  | S fuel =>
    if (Z.of_nat (length leases) <? want)%Z then
      if (0 <? c_MaxInFlight cfg)%Z && (c_MaxInFlight cfg <=? st_InProgress (s_stats s))%Z
      then (c, s, leases, out)
      else
        match popReady (cr_Kinds req) s with
        | (s, None) => (c, s, leases, out)
        | (s, Some h) =>
          let from := status (rec s h) in
          let s := grant (cr_WorkerID req) now leaseFor h s in
          let '(c, s, ef) := record h EventTransition from c s in
          claim_loop fuel req cfg now want leaseFor c s (leases ++ [lease_of s h]) (out ++ [ef])
        end
    else (c, s, leases, out)
  end.

Definition ready_count (s : scope) : nat :=
  foldr (fun kh n => length (items kh.2) + n) 0 (map_to_list (s_ready s)).

Definition scope_Claim (req : ClaimRequest) (c : C) (s : scope) : C * scope * ClaimResult :=
  let cfg := Resolved (s_cfg s) in
  let '(now, c) := clk_Now c in
  let '(c, s, effects, _, _) := reclaimExpired now cfg (c_SweepBatchSize cfg) c s [] in
  let '(c, s, promoted) := promoteScheduled now c s in
  let effects := effects ++ promoted in
  let want := Z.max (cr_Max req) 1 in
  let leaseFor := ClampLease cfg (cr_Timeout req) in
  let '(c, s, leases, effects) :=
    claim_loop (S (ready_count s)) req cfg now want leaseFor c s [] effects in
  (c, s, mkClaimResult leases effects).

(** The fencing test of [Complete] and [Extend]. *)
Definition fenced (r : nodeRec) (l : Lease) : bool :=
  negb (bool_decide (phase r = PhaseClaimed)) || negb (epoch r =? l_Epoch l)%Z.

Definition scope_Complete (req : CompleteRequest) (c : C) (s : scope)
  : C * scope * result CompleteResult :=
  match lookup_id s (l_NodeID (co_Lease req)) with
  | None => (c, s, Fail (Err ErrNotFound))
  | Some h =>
    if fenced (rec s h) (co_Lease req) then (c, s, Fail (Err ErrLeaseMismatch))
    else
      let cfg := Resolved (s_cfg s) in
      let '(now, c) := clk_Now c in
      if co_Success req then
        let size := Z.of_nat (length (co_Result req)) in
        if (c_PayloadCap cfg <? size)%Z then
          (c, s, Fail (PayloadTooLargeError size (c_PayloadCap cfg)))
        else
          let s := upd_rec h (fun r => r <| result_ := co_Result req |> <| worker := ""%string |>) s in
          let '(c, s, out) := terminate h StatusSuccess ReasonNone "" c s [] in
          (c, refreshComplete s, Ok (mkCompleteResult out false TimeZero))
      else
        let rs := if bool_decide (co_Reason req = ReasonNone) then ReasonWorkerError else co_Reason req in
        if bool_decide (rs = ReasonSkipped) then
          let s := leases_Remove h s in
          let s := s <| s_deadline ::= <[h := 0%Z]> |> in
          let s := upd_rec h (fun r => r <| worker := ""%string |>) s in
          let '(c, s, out) := terminate h StatusError ReasonSkipped (co_Message req) c s [] in
          (c, refreshComplete s, Ok (mkCompleteResult out false TimeZero))
        else
          let '(c, s, out) := failAttempt h rs (co_Message req) cfg now c s [] in
          let res :=
            if bool_decide (phase (rec s h) = PhaseScheduled)
            then mkCompleteResult out true (unix (s_readyAt s !!! h))
            else mkCompleteResult out false TimeZero in
          (c, refreshComplete s, Ok res)
  end.

Definition scope_Extend (req : ExtendRequest) (c : C) (s : scope) : C * scope * result Time :=
  match lookup_id s (l_NodeID (ex_Lease req)) with
  | None => (c, s, Fail (Err ErrNotFound))
  | Some h =>
    if fenced (rec s h) (ex_Lease req) then (c, s, Fail (Err ErrLeaseMismatch))
    else
      let cfg := Resolved (s_cfg s) in
      let '(now, c) := clk_Now c in
      let s := s <| s_deadline ::= <[h := i64 (now + ClampLease cfg (ex_Timeout req))]> |> in
      let s := s <| s_leases := fst (Pq.Fix (less_leases s) (s_leases s) h) |> in
      (c, s, Ok (unix (s_deadline s !!! h)))
  end.

Definition scope_Sweep (limit : Z) (c : C) (s : scope) : C * scope * SweepResult :=
  let cfg := Resolved (s_cfg s) in
  let limit := if (limit <=? 0)%Z then c_SweepBatchSize cfg else limit in
  let '(now, c) := clk_Now c in
  let '(c, s, effects, reclaimed, more) := reclaimExpired now cfg limit c s [] in
  let '(c, s, promoted) := promoteScheduled now c s in
  (c, refreshComplete s, mkSweepResult reclaimed (effects ++ promoted) more).

End Clocked.
