(* ===== verification/Memory.v ===== *)
(** * The in-memory store: [storage/memory/memory.go]

    [Store] maps scope names to scopes and owns the clock; its methods look
    the scope up, run the operation of [Graph.v] or [Lease.v] under the
    scope's mutex, and write the scope back.  [range] over a Go map visits the
    entries in an unspecified order: where the order can show, the method
    takes it as an argument [visit]. *)
From S2P Require Import Prelude Types Config Heap Scope Topo Graph Lease.

Definition DefaultEventLogSize : Z := 4096.

Record Store (C : Type) := mkStore {
  scopes : gmap string scope;
  clock : C;
  defaults : ScopeConfig;
  logCap : Z;
  closed : bool
}.
Arguments mkStore {C} _ _ _ _ _.
Arguments scopes {C} _.
Arguments clock {C} _.
Arguments defaults {C} _.
Arguments logCap {C} _.
Arguments closed {C} _.

#[export] Instance Store_eta C : Eta (Store C) :=
  fun st => mkStore (scopes st) (clock st) (defaults st) (logCap st) (closed st).

(** ** Construction

    The clock and the jitter of a store are one source, an argument of [New];
    [WithClock] and [WithJitter] choose it. *)

Inductive Option :=
| WithScopeDefaults (cfg : ScopeConfig)
| WithEventLogSize (n : Z).

Definition apply_option {C : Type} (st : Store C) (o : Option) : Store C :=
  match o with
  | WithScopeDefaults cfg => st <| defaults := cfg |>
  | WithEventLogSize n => if (0 <? n)%Z then st <| logCap := n |> else st
  end.

Definition New {C : Type} (src : C) (opts : list Option) : Store C :=
  let st := foldl apply_option (mkStore ∅ src zeroConfig DefaultEventLogSize false) opts in
  if (logCap st <=? 0)%Z then st <| logCap := DefaultEventLogSize |> else st.

Definition Capabilities : Z :=
  Z.lor (Z.lor (Z.lor CapList CapDurableEvents) CapDoorbell) CapCollect.

(** ** Helpers of the read paths *)

Definition containsStatus (xs : list Status) (x : Status) : bool :=
  existsb (fun v => bool_decide (v = x)) xs.

Definition containsStr (xs : list string) (x : string) : bool :=
  existsb (fun v => bool_decide (v = x)) xs.

(** [sortNodeIDs]: the inner loop sinks [ids[j]] to its place ... *)
Fixpoint sink (j : nat) (ids : list string) : list string :=
  match j with
  | O => ids
  | S j' =>
    let a := ids !!! j in
    let b := ids !!! j' in
    if String.ltb a b then sink j' (<[j' := a]> (<[j := b]> ids)) else ids
  end.

(** ... and the outer loop does so for [i = 1, 2, ...]. *)
Definition sortNodeIDs (ids : list string) : list string :=
  foldl (fun ids i => sink i ids) ids (seq 1 (length ids - 1)).

Definition heldBy (p : Phase) (worker : string) : string :=
  if bool_decide (p = PhaseClaimed) then worker else ""%string.

Definition inspect (s : scope) (h : nat) : Inspection :=
  let r := rec s h in
  mkInspection (snapshot s h) (phase r) (deps r)
    ((fun e => id (rec s (from e))) <$> filter (fun e => satisfied e = false) (s_pred s !!! h))
    ((fun w => id (rec s w)) <$> (s_succ s !!! h : list nat))
    (s_ord s !!! h) (unix (s_deadline s !!! h)) (heldBy (phase r) (worker r)) (epoch r)
    (unix (s_readyAt s !!! h)).

(** The page loop of [ListNodes]. *)
Fixpoint list_page (s : scope) (opts : ListOptions) (limit : Z) (ids : list string)
    (nodes : list Node) : ListResult :=
  match ids with
  | [] => mkListResult nodes ""
  | i :: ids =>
    let h := default 0 (s_index s !! i) in
    let r := rec s h in
    if negb (bool_decide (lo_Statuses opts = [])) && negb (containsStatus (lo_Statuses opts) (status r))
    then list_page s opts limit ids nodes
    else if negb (bool_decide (lo_Kinds opts = [])) && negb (containsStr (lo_Kinds opts) (kind r))
    then list_page s opts limit ids nodes
    else if (Z.of_nat (length nodes) =? limit)%Z then
      mkListResult nodes (match last nodes with Some n => nd_ID n | None => ""%string end)
    else list_page s opts limit ids (nodes ++ [snapshot s h])
  end.

Definition scope_ListNodes (opts : ListOptions) (s : scope) : ListResult :=
  let limit := if (lo_Limit opts <=? 0)%Z then 100%Z else lo_Limit opts in
  let ids := filter (fun i => String.ltb (lo_Cursor opts) i = true) (map_to_list (s_index s)).*1 in
  list_page s opts limit (sortNodeIDs ids) [].

(** [detachSucc]. *)
Definition detachSucc (f to : nat) (s : scope) : scope :=
  let outs := s_succ s !!! f in
  match find_idx (fun w => w =? to) outs with
  | Some i => s <| s_succ ::= <[f := delete i outs]> |>
  | None => s
  end.

(** The deletion of one node by [CollectTerminal]. *)
Definition collect_node (i : string) (h : nat) (s : scope) : scope :=
  let s := foldl (fun s e => detachSucc (from e) h s) s (s_pred s !!! h) in
  let s := leaveBucket h s in
  let s := s <| s_stats ::= fun st => st <| st_Total ::= fun n => u64 (n - 1) |> |> in
  let s := s <| s_index ::= delete i |> in
  release h s.

(** The loop of [CollectTerminal] over the entries of [s.index]. *)
Fixpoint collect_loop (visit : list (string * nat)) (cut limit deleted : Z) (s : scope)
  : scope * Z * bool :=
  match visit with
  | [] => (s, deleted, false)
  | (i, h) :: visit =>
    let r := rec s h in
    if negb (bool_decide (phase r = PhaseDone)) || (cut <? updatedAt r)%Z
       || negb (bool_decide (s_succ s !!! h = []))
    then collect_loop visit cut limit deleted s
    else if (deleted =? limit)%Z then (s, deleted, true)
    else collect_loop visit cut limit (deleted + 1) (collect_node i h s)
  end.

Definition scope_CollectTerminal (visit : list (string * nat)) (cut limit : Z) (s : scope)
  : scope * Z * bool :=
  collect_loop visit cut (if (limit <=? 0)%Z then 100%Z else limit) 0 s.

(** [Seal] and [ScopeStats] under the lock. *)
Definition scope_Seal (s : scope) : scope :=
  s <| s_sealed := true |>
    <| s_stats ::= fun st => st <| st_Sealed := true |> <| st_Complete := (NonTerminal st =? 0)%Z |> |>.

Definition scope_Stats (s : scope) : ScopeStats :=
  (s_stats s) <| st_Cursor := s_cursor s |>
    <| st_Complete := s_sealed s && (NonTerminal (s_stats s) =? 0)%Z |>.

Section Methods.
Context {C : Type} `{!ClockSource C}.

(** [scopeFor] and [mustScope]. *)
Definition scopeFor (st : Store C) (name : string) (create : bool)
  : Store C * result (option scope) :=
  if closed st then (st, Fail (Err ErrClosed))
  else
    match scopes st !! name with
    | Some s => (st, Ok (Some s))
    | None =>
      if negb create then (st, Ok None)
      else
        let s := newScope name (logCap st) (defaults st) in
        (st <| scopes ::= <[name := s]> |>, Ok (Some s))
    end.

Definition mustScope (st : Store C) (name : string) : result scope :=
  match snd (scopeFor st name false) with
  | Fail e => Fail e
  | Ok None => Fail (Err ErrNotFound)
  | Ok (Some s) => Ok s
  end.

(** Run an operation on a scope and write the scope and the clock back. *)
Definition run {A : Type} (name : string) (f : C -> scope -> C * scope * A) (s : scope)
    (st : Store C) : Store C * A :=
  let '(c, s, a) := f (clock st) s in
  (st <| clock := c |> <| scopes ::= <[name := s]> |>, a).

(** A method on a scope created on demand, on one that must exist, and on one
    whose absence has an answer of its own. *)
Definition on_created {A : Type} (name : string) (f : C -> scope -> C * scope * result A)
    (st : Store C) : Store C * result A :=
  match scopeFor st name true with
  | (st, Ok (Some s)) => run name f s st
  | (st, Ok None) => (st, Fail (Err ErrNotFound))
  | (st, Fail e) => (st, Fail e)
  end.

Definition on_existing {A : Type} (name : string) (f : C -> scope -> C * scope * result A)
    (st : Store C) : Store C * result A :=
  match mustScope st name with
  | Ok s => run name f s st
  | Fail e => (st, Fail e)
  end.

Definition on_maybe {A : Type} (name : string) (absent : A) (f : C -> scope -> C * scope * A)
    (st : Store C) : Store C * result A :=
  match scopeFor st name false with
  | (st, Ok (Some s)) => let '(st, a) := run name f s st in (st, Ok a)
  | (st, Ok None) => (st, Ok absent)
  | (st, Fail e) => (st, Fail e)
  end.

Definition SetScopeConfig (name : string) (cfg : ScopeConfig) (st : Store C) : Store C * result unit :=
  on_created name (fun c s => (c, s <| s_cfg := cfg |>, Ok tt)) st.

Definition Seal (name : string) (st : Store C) : Store C * result unit :=
  on_created name (fun c s => (c, scope_Seal s, Ok tt)) st.

Definition AddNodes (name : string) (specs : list NodeSpec) (st : Store C)
  : Store C * result (list Effect) :=
  match specs with
  | [] => (st, Ok [])
  | _ => on_created name (scope_AddNodes specs) st
  end.

Definition AddEdges (name : string) (edges : list Edge) (st : Store C)
  : Store C * result (list Effect) :=
  match edges with
  | [] => (st, Ok [])
  | _ => on_existing name (scope_AddEdges edges) st
  end.

Definition RemoveEdges (name : string) (edges : list Edge) (st : Store C)
  : Store C * result (list Effect) :=
  match edges with
  | [] => (st, Ok [])
  | _ => on_existing name (scope_RemoveEdges edges) st
  end.

Definition RemoveNode (name nid : string) (policy : CascadePolicy) (st : Store C)
  : Store C * result (list Effect) :=
  on_existing name (scope_RemoveNode nid policy) st.

(** [Cancel] returns the effects of the nodes it terminated together with the
    error of the one it did not find. *)
Definition Cancel (name : string) (ids : list string) (st : Store C)
  : Store C * (list Effect * option error) :=
  match ids with
  | [] => (st, ([], None))
  | _ =>
    match mustScope st name with
    | Fail e => (st, ([], Some e))
    | Ok s => run name (fun c s => let '(c, s, out, e) := scope_Cancel ids c s in (c, s, (out, e))) s st
    end
  end.

Definition CancelScope (name : string) (visit : list nat) (st : Store C)
  : Store C * result (list Effect) :=
  on_maybe name [] (scope_CancelScope visit) st.

Definition Claim (req : ClaimRequest) (st : Store C) : Store C * result ClaimResult :=
  on_maybe (cr_Scope req) (mkClaimResult [] []) (scope_Claim req) st.

Definition Complete (req : CompleteRequest) (st : Store C) : Store C * result CompleteResult :=
  if negb (Lease_Valid (co_Lease req)) then (st, Fail (Err ErrInvalidArgument))
  else on_existing (l_Scope (co_Lease req)) (scope_Complete req) st.

Definition Extend (req : ExtendRequest) (st : Store C) : Store C * result Time :=
  if negb (Lease_Valid (ex_Lease req)) then (st, Fail (Err ErrInvalidArgument))
  else on_existing (l_Scope (ex_Lease req)) (scope_Extend req) st.

Definition Sweep (name : string) (limit : Z) (st : Store C) : Store C * result SweepResult :=
  on_maybe name (mkSweepResult 0 [] false) (scope_Sweep limit) st.

Definition CollectTerminal (name : string) (visit : list (string * nat)) (cut limit : Z)
    (st : Store C) : Store C * result (Z * bool) :=
  on_maybe name (0%Z, false)
    (fun c s => let '(s, n, more) := scope_CollectTerminal visit cut limit s in (c, s, (n, more))) st.

Definition Close (st : Store C) : Store C := st <| closed := true |>.

(** ** Reads *)

Definition get_ScopeConfig (name : string) (st : Store C) : result ScopeConfig :=
  match snd (scopeFor st name false) with
  | Fail e => Fail e
  | Ok None => Ok (defaults st)
  | Ok (Some s) => Ok (s_cfg s)
  end.

Definition get_ScopeStats (name : string) (st : Store C) : result ScopeStats :=
  match snd (scopeFor st name false) with
  | Fail e => Fail e
  | Ok None => Ok zeroStats
  | Ok (Some s) => Ok (scope_Stats s)
  end.

(** [Scopes]; the order is that of [range], which Go leaves unspecified. *)
Definition Scopes (st : Store C) : result (list string) :=
  if closed st then Fail (Err ErrClosed) else Ok (map_to_list (scopes st)).*1.

Definition GetNode (name nid : string) (st : Store C) : result Node :=
  match mustScope st name with
  | Fail e => Fail e
  | Ok s => match lookup_id s nid with
            | None => Fail (Err ErrNotFound)
            | Some h => Ok (snapshot s h)
            end
  end.

Definition Inspect (name nid : string) (st : Store C) : result Inspection :=
  match mustScope st name with
  | Fail e => Fail e
  | Ok s => match lookup_id s nid with
            | None => Fail (Err ErrNotFound)
            | Some h => Ok (inspect s h)
            end
  end.

Definition ListNodes (name : string) (opts : ListOptions) (st : Store C) : result ListResult :=
  match snd (scopeFor st name false) with
  | Fail e => Fail e
  | Ok None => Ok (mkListResult [] "")
  | Ok (Some s) => Ok (scope_ListNodes opts s)
  end.

End Methods.
