(* ===== verification/Watch.v ===== *)
(** * Waiting and watching: [storage/memory/watch.go], the blocking calls

    [WaitForWork] and [pump] block on channels.  A channel that is closed to
    wake its waiters is a generation number ([Scope]), and a blocking [select]
    is the list of the cases that can proceed: empty while the goroutine is
    parked, and with several entries where Go would pick one of them. *)
From S2P Require Import Prelude Types Config Heap Scope Memory.

(** A waiter that captured generation [g] of a bell has been woken. *)
Definition rung (g current : nat) : bool := g <? current.

Definition anyReady (kinds : list string) (s : scope) : bool :=
  match kinds with
  | [] => existsb (fun kh => 0 <? Pq.Len kh.2) (map_to_list (s_ready s))
  | _ => existsb (fun k => match s_ready s !! k with Some h => 0 <? Pq.Len h | None => false end) kinds
  end.

(** ** [WaitForWork] *)

Inductive waiting :=
| Returned (r : result unit)
| Parked (bell : nat).

Inductive wake := Woken | Cancelled | StoreClosed.

Section Wait.
Context {C : Type}.

(** The call up to its [select]. *)
Definition WaitForWork (name : string) (kinds : list string) (st : Store C) : Store C * waiting :=
  match scopeFor st name true with
  | (st, Fail e) => (st, Returned (Fail e))
  | (st, Ok None) => (st, Returned (Fail (Err ErrNotFound)))
  | (st, Ok (Some s)) =>
    if anyReady kinds s then (st, Returned (Ok tt)) else (st, Parked (s_doorbell s))
  end.

(** The cases of the [select] that can proceed: they return [nil], the error
    of the context, and [ErrClosed]. *)
Definition select_work (bell : nat) (s : scope) (cancelled isClosed : bool) : list wake :=
  (if rung bell (s_doorbell s) then [Woken] else [])
  ++ (if cancelled then [Cancelled] else [])
  ++ (if isClosed then [StoreClosed] else []).

End Wait.

(** ** [Watch] and [pump] *)

(** Where a subscription starts, or why it is refused. *)
Definition watch_start (req : WatchRequest) (s : scope) : result Z :=
  if (0 <? wr_From req)%Z then
    let next := u64 (wr_From req + 1) in
    if (next <? s_logStart s)%Z then Fail (Err ErrCursorExpired) else Ok next
  else if wr_Replay req then Ok (s_logStart s)
  else Ok (u64 (s_cursor s + 1)).

Definition Watch {C : Type} (req : WatchRequest) (st : Store C) : Store C * result Z :=
  if bool_decide (wr_Scope req = ""%string) then (st, Fail (Err ErrUnsupported))
  else
    match scopeFor st (wr_Scope req) true with
    | (st, Fail e) => (st, Fail e)
    | (st, Ok None) => (st, Fail (Err ErrNotFound))
    | (st, Ok (Some s)) => (st, watch_start req s)
    end.

(** One pass of [pump] under the lock.  The cursor fell out of retention; or
    the slice expression [s.log[idx:]] panics on a negative index, [next]
    being so far ahead that the offset does not fit an [int]; or there is a
    batch to send, with the next cursor and the bell to wait on when the batch
    is empty. *)
Inductive pass :=
| Expired
| Panic
| Batch (events : list Event) (next : Z) (bell : nat).

Definition pump_pass (next : Z) (s : scope) : pass :=
  if (next <? s_logStart s)%Z then Expired
  else
    let idx := i64 (u64 (next - s_logStart s)) in
    if (idx <? Z.of_nat (length (s_log s)))%Z then
      if (idx <? 0)%Z then Panic
      else Batch (drop (Z.to_nat idx) (s_log s)) (u64 (s_cursor s + 1)) (s_logBell s)
    else Batch [] next (s_logBell s).

(** Where the goroutine is: about to read, sending a batch, parked on the
    bell, returned, or crashed. *)
Inductive pump :=
| Reading (next : Z)
| Sending (batch : list Event) (next : Z)
| Waiting (next : Z) (bell : nat)
| Finished
| Crashed.

(** The next thing it does on its own, with the events it hands over; [None]
    when it cannot move. *)
Definition pump_step (s : scope) (p : pump) : option (pump * list Event) :=
  match p with
  | Reading next =>
    match pump_pass next s with
    | Expired => Some (Finished, [])
    | Panic => Some (Crashed, [])
    | Batch [] next bell => Some (Waiting next bell, [])
    | Batch batch next _ => Some (Sending batch next, [])
    end
  | Sending [] next => Some (Reading next, [])
  | Sending (ev :: batch) next => Some (Sending batch next, [ev])
  | Waiting next bell => if rung bell (s_logBell s) then Some (Reading next, []) else None
  | Finished | Crashed => None
  end.

(** The other cases of its two [select]s: the context ends or the store is
    closed. *)
Definition pump_stop (p : pump) : option pump :=
  match p with
  | Sending (_ :: _) _ | Waiting _ _ => Some Finished
  | _ => None
  end.
