(* ===== verification/Subscribe.v ===== *)
(** * In-process subscriptions: [event.go] and [subscribe.go]

    A subscription is a bounded channel with a policy for a consumer that does
    not keep up.  Sends happen under the subscription's mutex; the consumer
    receives without it, so between two channel operations of [offer] it may
    take any number of buffered events, and [offer] is given those numbers.
    The manager files subscriptions in three maps that hold pointers to the
    same objects: a pointer is an index into the list of objects [h_objects]. *)
From S2P Require Import Prelude Types Config.

(** ** Options of [event.go] *)

Inductive OverflowPolicy := OverflowDropOldest | OverflowCloseSlow | OverflowOther (n : Z).

#[export] Instance OverflowPolicy_eq_dec : EqDecision OverflowPolicy.
Proof. solve_decision. Defined.

Definition OverflowPolicy_validate (p : OverflowPolicy) : option error :=
  match p with OverflowOther _ => Some (invalidArg "overflow policy") | _ => None end.

Record SubscribeOptions := mkSubscribeOptions {
  so_Scope : string;
  so_Kinds : list EventKind;
  so_NodeKinds : list string;
  so_From : Z;                           (* uint64 *)
  so_Replay : bool;
  so_BufferSize : Z;                     (* int *)
  so_Overflow : option OverflowPolicy;
  so_Durable : bool
}.

Definition EventKind_check (k : EventKind) : option error :=
  match k with EventOther _ => Some (invalidArg "event kind") | _ => None end.

Definition SubscribeOptions_validate (o : SubscribeOptions) : option error :=
  or_else (if bool_decide (so_Scope o = ""%string) then None else Scope_validate (so_Scope o))
  (or_else (first_error EventKind_check (so_Kinds o))
  (or_else (first_error validateKind (so_NodeKinds o))
  (or_else (if bool_decide (so_Scope o = ""%string) && negb (so_From o =? 0)%Z
            then Some (invalidArg "from") else None)
  (or_else (if (so_BufferSize o <? 0)%Z then Some (invalidArg "buffer size") else None)
           (match so_Overflow o with Some p => OverflowPolicy_validate p | None => None end))))).

Definition containsKind (ks : list EventKind) (k : EventKind) : bool :=
  existsb (fun x => bool_decide (x = k)) ks.

Definition containsString (ss : list string) (s : string) : bool :=
  existsb (fun x => bool_decide (x = s)) ss.

Definition wants (o : SubscribeOptions) (e : Event) : bool :=
  if negb (bool_decide (so_Scope o = ""%string)) && negb (bool_decide (ev_Scope e = so_Scope o))
  then false
  else if negb (bool_decide (so_Kinds o = [])) && negb (containsKind (so_Kinds o) (ev_Kind e))
  then false
  else if negb (bool_decide (so_NodeKinds o = [])) && negb (containsString (so_NodeKinds o) (ev_NodeKind e))
  then false
  else true.

(** ** The subscription *)

(** What a context ends with, and why a subscription ended. *)
Inductive ctx_error := Canceled | DeadlineExceeded.

Inductive end_error := LibraryError (e : error) | ContextError (e : ctx_error).

(** The struct, with its channel: capacity, buffer, and the events its
    consumer has received so far.  The channel is closed exactly when [done]
    is set. *)
Record Subscription := mkSubscription {
  sub_id : Z;                            (* int64 *)
  sub_opts : SubscribeOptions;
  sub_pol : OverflowPolicy;
  sub_cap : Z;
  sub_ch : list Event;
  sub_received : list Event;
  sub_err : option end_error;
  sub_done : bool;
  sub_gap : bool;
  sub_dropped : Z                        (* uint64 *)
}.

#[export] Instance Subscription_eta : Eta Subscription := fun s =>
  mkSubscription (sub_id s) (sub_opts s) (sub_pol s) (sub_cap s) (sub_ch s) (sub_received s)
    (sub_err s) (sub_done s) (sub_gap s) (sub_dropped s).

(** The subscription as [Subscribe] makes it. *)
Definition new_subscription (opts : SubscribeOptions) (pol : OverflowPolicy) (size : Z) : Subscription :=
  mkSubscription 0 opts pol size [] [] None false false 0.

(** The consumer takes [n] events off the channel. *)
Definition receive (n : nat) (s : Subscription) : Subscription :=
  s <| sub_received ::= fun l => l ++ take n (sub_ch s) |> <| sub_ch ::= drop n |>.

(** [select { case s.ch <- ev: .. default: }]: whether there is room. *)
Definition has_room (s : Subscription) : bool := (Z.of_nat (length (sub_ch s)) <? sub_cap s)%Z.

Definition send (ev : Event) (s : Subscription) : Subscription := s <| sub_ch ::= fun l => l ++ [ev] |>.

Definition closeLocked (err : option end_error) (s : Subscription) : Subscription :=
  if sub_done s then s
  else s <| sub_done := true |>
         <| sub_err ::= fun e => match e with None => err | Some _ => e end |>.

Definition finish (err : option end_error) (s : Subscription) : Subscription := closeLocked err s.

Definition isDone (s : Subscription) : bool := sub_done s.

(** [offer]; the flag says that the subscription is to be dropped from the
    manager.  The consumer receives [n1] events between the first and the
    second [select], and [n2] between the second and the third. *)
Definition offer (n1 n2 : nat) (ev : Event) (s : Subscription) : Subscription * bool :=
  if sub_done s then (s, false)
  else
    let ev := if sub_gap s then ev <| ev_Gap := true |> else ev in
    if has_room s then ((send ev s) <| sub_gap := false |>, false)
    else if bool_decide (sub_pol s = OverflowCloseSlow)
    then (closeLocked (Some (LibraryError (Err ErrSubscriberLagged))) s, true)
    else
      let s := receive n1 s in
      let s := s <| sub_ch ::= drop 1 |> in
      let s := s <| sub_dropped ::= fun n => u64 (n + 1) |> in
      let s := s <| sub_gap := true |> in
      let ev := ev <| ev_Gap := true |> in
      let s := receive n2 s in
      (if has_room s then (send ev s) <| sub_gap := false |> else s, false).

(** The goroutine of [startDurable]: the case its [select] takes, and the
    subscription after the iteration with whether the loop goes on.  The
    argument of the deferred [finish] is evaluated when the goroutine starts:
    [err0] is the context's error at that moment. *)
Inductive durable_case := FromSource (ev : Event) | SourceClosed | CloseSignal | ManagerClosed | ContextDone.

Definition durable_iter (opts : SubscribeOptions) (err0 : option end_error) (n1 n2 : nat)
    (k : durable_case) (s : Subscription) : Subscription * bool :=
  match k with
  | FromSource ev =>
    if negb (wants opts ev) then (s, true)
    else
      let s := fst (offer n1 n2 ev s) in
      if isDone s then (finish err0 s, false) else (s, true)
  | SourceClosed | CloseSignal | ManagerClosed | ContextDone => (finish err0 s, false)
  end.

(** ** The manager's registry *)

Record Hub := mkHub {
  h_objects : list Subscription;
  h_subs : gmap Z nat;
  h_byScope : gmap string (gmap Z nat);
  h_anyScope : gmap Z nat;
  h_nextSub : Z                          (* int64 *)
}.

#[export] Instance Hub_eta : Eta Hub := fun h =>
  mkHub (h_objects h) (h_subs h) (h_byScope h) (h_anyScope h) (h_nextSub h).

Definition emptyHub : Hub := mkHub [] ∅ ∅ ∅ 0.

#[export] Instance Subscription_inhabited : Inhabited Subscription :=
  populate (new_subscription (mkSubscribeOptions "" [] [] 0 false 0 None false) OverflowDropOldest 0).

Definition object (h : Hub) (p : nat) : Subscription := h_objects h !!! p.

Definition upd_object (p : nat) (f : Subscription -> Subscription) (h : Hub) : Hub :=
  h <| h_objects ::= alter f p |>.

(** Allocate an object; the pointer to it. *)
Definition new_object (s : Subscription) (h : Hub) : nat * Hub :=
  (length (h_objects h), h <| h_objects ::= fun l => l ++ [s] |>).

(** [addSubLocked] for the object at [p]. *)
Definition addSubLocked (p : nat) (h : Hub) : Hub :=
  let s := object h p in
  let h := h <| h_subs ::= <[sub_id s := p]> |> in
  if bool_decide (so_Scope (sub_opts s) = ""%string) then h <| h_anyScope ::= <[sub_id s := p]> |>
  else
    let bucket := default ∅ (h_byScope h !! so_Scope (sub_opts s)) in
    h <| h_byScope ::= <[so_Scope (sub_opts s) := <[sub_id s := p]> bucket]> |>.

(** [subsFor]; the order of a [range] is that of [map_to_list]. *)
Definition subsFor (scope : string) (h : Hub) : list nat :=
  let bucket := default ∅ (h_byScope h !! scope) in
  (map_to_list bucket).*2 ++ (map_to_list (h_anyScope h)).*2.

Definition dropSub (i : Z) (h : Hub) : Hub :=
  match h_subs h !! i with
  | None => h
  | Some p =>
    let sc := so_Scope (sub_opts (object h p)) in
    let h := h <| h_subs ::= delete i |> <| h_anyScope ::= delete i |> in
    match h_byScope h !! sc with
    | None => h
    | Some bucket =>
      let bucket := delete i bucket in
      if (size bucket =? 0) then h <| h_byScope ::= delete sc |>
      else h <| h_byScope ::= <[sc := bucket]> |>
    end
  end.

(** The registration part of [Subscribe]: the next identifier, and the object
    filed under it. *)
Definition register (s : Subscription) (h : Hub) : nat * Hub :=
  let h := h <| h_nextSub ::= fun n => i64 (n + 1) |> in
  let '(p, h) := new_object (s <| sub_id := h_nextSub h |>) h in
  (p, addSubLocked p h).

(** [Subscription.Close]. *)
Definition Subscription_Close (p : nat) (h : Hub) : Hub :=
  upd_object p (finish None) (dropSub (sub_id (object h p)) h).

(** ** [publish] *)

(** How far the consumer of a subscription gets while it is offered an event:
    the numbers given to [offer]. *)
Definition drains := nat -> Event -> nat * nat.

Definition event_for (scope : string) (ef : Effect) : Event :=
  mkEvent (ef_Kind ef) scope (ef_NodeID ef) (ef_Seq ef) (ef_Cursor ef) (ef_From ef) (ef_To ef)
    (ef_Reason ef) (ef_Message ef) (ef_Attempt ef) (ef_NodeKind ef) (ef_At ef) false.

(** [if s.opts.wants(ev) { s.offer(ev) }] for the object at [p]. *)
Definition offer_to (dr : drains) (ev : Event) (h : Hub) (p : nat) : Hub :=
  if wants (sub_opts (object h p)) ev then
    let '(n1, n2) := dr p ev in
    let '(s, lagged) := offer n1 n2 ev (object h p) in
    let h := upd_object p (fun _ => s) h in
    if lagged then dropSub (sub_id s) h else h
  else h.

Definition publish (dr : drains) (scope : string) (effects : list Effect) (h : Hub) : Hub :=
  match effects with
  | [] => h
  | _ =>
    match subsFor scope h with
    | [] => h
    | subs => foldl (fun h ef => foldl (offer_to dr (event_for scope ef)) h subs) h effects
    end
  end.
