(* ===== verification/Manager.v ===== *)
(** * The manager: [manager.go], [claim.go], [options_node.go], [subscribe.go]

    A validating facade over a backend.  The backend is an interface, here the
    class [Backend] with a field per method of [Store] and of the optional
    facets; [memory_backend] is the in-memory store.  A method of the manager
    takes the manager's state, the progress [dr] of the consumers of its
    subscriptions while it publishes ([Subscribe]), and returns the new state
    with what the method returns.  What blocks (the wait of a claim, [Close])
    takes the case of its [select] that proceeds. *)
From S2P Require Import Prelude Types Config Heap Scope Graph Lease Memory Watch Subscribe.

(** What Go returns as [(T, error)] when both can carry something. *)
Notation answer A := (A * option error)%type.

(** ** The store interface *)

Class Backend (S : Type) := {
  be_ScopeConfig : string -> S -> result ScopeConfig;
  be_SetScopeConfig : string -> ScopeConfig -> S -> S * option error;
  be_Seal : string -> S -> S * option error;
  be_ScopeStats : string -> S -> result ScopeStats;
  be_AddNodes : string -> list NodeSpec -> S -> S * answer (list Effect);
  be_AddEdges : string -> list Edge -> S -> S * answer (list Effect);
  be_RemoveEdges : string -> list Edge -> S -> S * answer (list Effect);
  be_RemoveNode : string -> string -> CascadePolicy -> S -> S * answer (list Effect);
  be_Cancel : string -> list string -> S -> S * answer (list Effect);
  be_CancelScope : string -> S -> S * answer (list Effect);
  be_GetNode : string -> string -> S -> result Node;
  be_Inspect : string -> string -> S -> result Inspection;
  be_Claim : ClaimRequest -> S -> S * answer ClaimResult;
  be_Complete : CompleteRequest -> S -> S * answer CompleteResult;
  be_Extend : ExtendRequest -> S -> S * result Time;
  be_Sweep : string -> Z -> S -> S * answer SweepResult;
  be_Scopes : S -> result (list string);
  (* facets, absent where the backend does not implement them *)
  be_Capabilities : option Z;
  be_Lister : option (string -> ListOptions -> S -> result ListResult);
  be_Watch : option (WatchRequest -> S -> S * option error);
  be_Doorbell : bool;
  be_Collector : option (string -> Z -> Z -> S -> S * result (Z * bool))
}.

(** A result as the pair Go returns, with the zero value beside an error. *)
Definition both {S A : Type} (zero : A) (x : S * result A) : S * answer A :=
  match x with
  | (s, Ok a) => (s, (a, None))
  | (s, Fail e) => (s, (zero, Some e))
  end.

Definition error_only {S A : Type} (x : S * result A) : S * option error :=
  match x with (s, Ok _) => (s, None) | (s, Fail e) => (s, Some e) end.

(** The in-memory store, for an order in which Go ranges over its maps. *)
Section MemoryBackend.
Context {C : Type} `{!ClockSource C}.
Context (visit_handles : scope -> list nat) (visit_index : scope -> list (string * nat)).

(** The order used on a scope of the store. *)
Definition order_in {A : Type} (visit : scope -> list A) (name : string) (st : Store C) : list A :=
  match scopes st !! name with Some s => visit s | None => [] end.

Definition memory_backend : Backend (Store C) := {|
  be_ScopeConfig := get_ScopeConfig;
  be_SetScopeConfig name cfg st := error_only (SetScopeConfig name cfg st);
  be_Seal name st := error_only (Seal name st);
  be_ScopeStats := get_ScopeStats;
  be_AddNodes name specs st := both [] (AddNodes name specs st);
  be_AddEdges name edges st := both [] (AddEdges name edges st);
  be_RemoveEdges name edges st := both [] (RemoveEdges name edges st);
  be_RemoveNode name nid policy st := both [] (RemoveNode name nid policy st);
  be_Cancel := Cancel;
  be_CancelScope name st := both [] (CancelScope name (order_in visit_handles name st) st);
  be_GetNode := GetNode;
  be_Inspect := Inspect;
  be_Claim req st := both (mkClaimResult [] []) (Claim req st);
  be_Complete req st := both (mkCompleteResult [] false TimeZero) (Complete req st);
  be_Extend := Extend;
  be_Sweep name limit st := both (mkSweepResult 0 [] false) (Sweep name limit st);
  be_Scopes := Scopes;
  be_Capabilities := Some Capabilities;
  be_Lister := Some ListNodes;
  be_Watch := Some (fun req st => error_only (Watch req st));
  be_Doorbell := true;
  be_Collector := Some (fun name cut limit st =>
    CollectTerminal name (order_in visit_index name st) cut limit st)
|}.

End MemoryBackend.

(** ** [options_node.go] *)

Inductive NodeOption :=
| WithDeps (deps : list string)
| WithKind (kind : string)
| WithPriority (p : Z)
| WithTrigger (t : TriggerRule)
| WithLabels (labels : gmap string string)
| WithRetry (maxAttempts base maxDelay : Z)
| WithMaxAttempts (n : Z).

Definition applyNode (o : NodeOption) (s : NodeSpec) : NodeSpec :=
  match o with
  | WithDeps deps => s <| sp_Deps ::= fun l => l ++ deps |>
  | WithKind kind => s <| sp_Kind := kind |>
  | WithPriority p => s <| sp_Priority := p |>
  | WithTrigger t => s <| sp_Trigger := t |>
  | WithLabels labels => s <| sp_Labels ::= fun m => labels ∪ m |>
  | WithRetry n b d => s <| sp_Retry := mkRetry n b d |>
  | WithMaxAttempts n => s <| sp_Retry ::= fun r => mkRetry n (rp_BaseDelay r) (rp_MaxDelay r) |>
  end.

(** [for _, o := range opts { if o == nil { return .. }; o.apply(..) }]. *)
Fixpoint apply_all {O A : Type} (apply : O -> A -> A) (opts : list (option O)) (a : A) : option A :=
  match opts with
  | [] => Some a
  | None :: _ => None
  | Some o :: opts => apply_all apply opts (apply o a)
  end.

(** ** The manager's own configuration, [config.go] *)

Definition DefaultSubscriberBuffer : Z := 256.

(** The clock and the logger are known by whether they are nil. *)
Record config := mkManagerConfig {
  cf_clock : bool;
  cf_logger : bool;
  cf_defaults : ScopeConfig;
  cf_subscriberBuffer : Z;
  cf_overflow : OverflowPolicy;
  cf_pollInterval : Z;
  cf_sweepDisabled : bool
}.

#[export] Instance config_eta : Eta config := fun c =>
  mkManagerConfig (cf_clock c) (cf_logger c) (cf_defaults c) (cf_subscriberBuffer c) (cf_overflow c)
    (cf_pollInterval c) (cf_sweepDisabled c).

Definition defaultConfig : config :=
  mkManagerConfig true true zeroConfig DefaultSubscriberBuffer OverflowDropOldest 0 false.

Definition config_validate (c : config) : option error :=
  if negb (cf_clock c) then Some (invalidArg "clock")
  else if negb (cf_logger c) then Some (invalidArg "logger")
  else if (cf_subscriberBuffer c <? 1)%Z then Some (invalidArg "subscriber buffer")
  else or_else (OverflowPolicy_validate (cf_overflow c)) (ScopeConfig_validate (cf_defaults c)).

Module Mgr.

Inductive Option :=
| WithClock (present : bool)
| WithLogger (present : bool)
| WithScopeDefaults (sc : ScopeConfig)
| WithSubscriberBuffer (n : Z)
| WithOverflowPolicy (p : OverflowPolicy)
| WithPollInterval (d : Z)
| WithoutBackgroundSweeper.

Definition apply_option (o : Option) (c : config) : config :=
  match o with
  | WithClock b => c <| cf_clock := b |>
  | WithLogger b => c <| cf_logger := b |>
  | WithScopeDefaults sc => c <| cf_defaults := sc |>
  | WithSubscriberBuffer n => c <| cf_subscriberBuffer := n |>
  | WithOverflowPolicy p => c <| cf_overflow := p |>
  | WithPollInterval d => c <| cf_pollInterval := d |>
  | WithoutBackgroundSweeper => c <| cf_sweepDisabled := true |>
  end.

(** The struct; the three tables of subscriptions are [m_hub], and [m_closed]
    says whether the channel [closed] has been closed. *)
Record Manager (S : Type) := mkManager {
  m_store : S;
  m_cfg : config;
  m_caps : Z;
  m_hub : Hub;
  m_closed : bool
}.
Arguments mkManager {S} _ _ _ _ _.
Arguments m_store {S} _.
Arguments m_cfg {S} _.
Arguments m_caps {S} _.
Arguments m_hub {S} _.
Arguments m_closed {S} _.

#[export] Instance Manager_eta S : Eta (Manager S) :=
  fun m => mkManager (m_store m) (m_cfg m) (m_caps m) (m_hub m) (m_closed m).

(** What a call that can end with its context returns. *)
Inductive outcome (A : Type) := Got (a : A) | Gone (e : end_error).
Arguments Got {A} a.
Arguments Gone {A} e.

Section Facade.
Context {S : Type} `{!Backend S}.

(** [New]; a nil store is [None].  The maintenance goroutine is [maintain_pass]. *)
Definition New (store : option S) (opts : list (option Option)) : result (Manager S) :=
  match store with
  | None => Fail (Err ErrNilStore)
  | Some st =>
    match apply_all apply_option opts defaultConfig with
    | None => Fail (Err ErrInvalidConfig)
    | Some cfg =>
      match config_validate cfg with
      | Some e => Fail e
      | None => Ok (mkManager st cfg (match be_Capabilities with Some caps => caps | None => 0%Z end) emptyHub false)
      end
    end
  end.

Definition isClosed (m : Manager S) : bool := m_closed m.

Definition check (scope : string) (m : Manager S) : option error :=
  if isClosed m then Some (Err ErrClosed) else Scope_validate scope.

(** [if err := e; err != nil { return zero, err }; k]. *)
Definition guarded {A : Type} (e : option error) (zero : A) (m : Manager S) (k : Manager S * answer A)
  : Manager S * answer A :=
  match e with Some e => (m, (zero, Some e)) | None => k end.

Definition read {A : Type} (e : option error) (k : result A) : result A :=
  match e with Some e => Fail e | None => k end.

(** Run a method of the store and publish its effects.  The graph operations
    return the error alone; the effects beside it are what was published. *)
Definition published {A : Type} (dr : drains) (scope : string) (effects : A -> list Effect)
    (op : S -> S * answer A) (m : Manager S) : Manager S * answer A :=
  let '(st, (a, err)) := op (m_store m) in
  (m <| m_store := st |> <| m_hub ::= publish dr scope (effects a) |>, (a, err)).

(** Write to the store without effects. *)
Definition stored (op : S -> S * option error) (m : Manager S) : Manager S * answer unit :=
  let '(st, err) := op (m_store m) in (m <| m_store := st |>, (tt, err)).

(** ** Graph operations *)

Definition Configure (scope : string) (cfg : ScopeConfig) (m : Manager S) : Manager S * answer unit :=
  guarded (or_else (check scope m) (ScopeConfig_validate cfg)) tt m (stored (be_SetScopeConfig scope cfg) m).

Definition get_ScopeConfig (scope : string) (m : Manager S) : result ScopeConfig :=
  read (check scope m) (be_ScopeConfig scope (m_store m)).

Definition AddNodes (dr : drains) (scope : string) (specs : list NodeSpec) (m : Manager S)
  : Manager S * answer (list Effect) :=
  guarded (or_else (check scope m) (first_error NodeSpec_Validate specs)) [] m
    (published dr scope (fun es => es) (be_AddNodes scope specs) m).

Definition AddNode (dr : drains) (scope id : string) (payload : bytes) (opts : list (option NodeOption))
    (m : Manager S) : Manager S * answer (list Effect) :=
  let sp := mkSpec id "" payload ∅ 0 TriggerAllSuccess (mkRetry 0 0 0) [] in
  match apply_all applyNode opts sp with
  | None => (m, ([], Some (Err ErrInvalidArgument)))
  | Some sp => AddNodes dr scope [sp] m
  end.

Definition validateEdge (e : Edge) : option error :=
  or_else (NodeID_validate (e_From e))
  (or_else (NodeID_validate (e_To e))
           (if bool_decide (e_From e = e_To e) then Some (Err ErrCycle) else None)).

Definition validateEdges (edges : list Edge) : option error := first_error validateEdge edges.

Definition AddEdges (dr : drains) (scope : string) (edges : list Edge) (m : Manager S)
  : Manager S * answer (list Effect) :=
  guarded (or_else (check scope m) (validateEdges edges)) [] m
    (published dr scope (fun es => es) (be_AddEdges scope edges) m).

Definition AddEdge (dr : drains) (scope from to : string) (m : Manager S) : Manager S * answer (list Effect) :=
  AddEdges dr scope [mkEdge from to] m.

Definition RemoveEdges (dr : drains) (scope : string) (edges : list Edge) (m : Manager S)
  : Manager S * answer (list Effect) :=
  guarded (or_else (check scope m) (validateEdges edges)) [] m
    (published dr scope (fun es => es) (be_RemoveEdges scope edges) m).

Definition RemoveEdge (dr : drains) (scope from to : string) (m : Manager S) : Manager S * answer (list Effect) :=
  RemoveEdges dr scope [mkEdge from to] m.

Definition CascadePolicy_check (p : CascadePolicy) : option error :=
  match p with CascadeOther _ => Some (invalidArg "cascade policy") | _ => None end.

Definition RemoveNode (dr : drains) (scope id : string) (policy : CascadePolicy) (m : Manager S)
  : Manager S * answer (list Effect) :=
  guarded (or_else (check scope m) (or_else (NodeID_validate id) (CascadePolicy_check policy))) [] m
    (published dr scope (fun es => es) (be_RemoveNode scope id policy) m).

Definition Cancel (dr : drains) (scope : string) (ids : list string) (m : Manager S)
  : Manager S * answer (list Effect) :=
  guarded (or_else (check scope m) (first_error NodeID_validate ids)) [] m
    (published dr scope (fun es => es) (be_Cancel scope ids) m).

Definition CancelScope (dr : drains) (scope : string) (m : Manager S) : Manager S * answer (list Effect) :=
  guarded (check scope m) [] m (published dr scope (fun es => es) (be_CancelScope scope) m).

Definition GetNode (scope id : string) (m : Manager S) : result Node :=
  read (or_else (check scope m) (NodeID_validate id)) (be_GetNode scope id (m_store m)).

Definition Inspect (scope id : string) (m : Manager S) : result Inspection :=
  read (or_else (check scope m) (NodeID_validate id)) (be_Inspect scope id (m_store m)).

Definition Seal (scope : string) (m : Manager S) : Manager S * answer unit :=
  guarded (check scope m) tt m (stored (be_Seal scope) m).

Definition Stats (scope : string) (m : Manager S) : result ScopeStats :=
  read (check scope m) (be_ScopeStats scope (m_store m)).

Definition IsComplete (scope : string) (m : Manager S) : result bool :=
  match Stats scope m with Ok st => Ok (st_Complete st) | Fail e => Fail e end.

Definition Sweep (dr : drains) (scope : string) (m : Manager S) : Manager S * answer SweepResult :=
  guarded (check scope m) (mkSweepResult 0 [] false) m (published dr scope sw_Effects (be_Sweep scope 0) m).

Definition Scopes (m : Manager S) : result (list string) :=
  if isClosed m then Fail (Err ErrClosed) else be_Scopes (m_store m).

Definition ListNodes (scope : string) (opts : ListOptions) (m : Manager S) : result ListResult :=
  read (check scope m)
    (match be_Lister with
     | Some list => if Capabilities_Has (m_caps m) CapList then list scope opts (m_store m) else Fail (Err ErrUnsupported)
     | None => Fail (Err ErrUnsupported)
     end).

(** ** Claims, [claim.go] *)

Inductive ClaimOption :=
| OfKind (kinds : list string)
| WithLeaseTimeout (d : Z)
| AsWorker (id : string).

Definition applyClaim (o : ClaimOption) (r : ClaimRequest) : ClaimRequest :=
  match o with
  | OfKind kinds => r <| cr_Kinds ::= fun l => l ++ kinds |>
  | WithLeaseTimeout d => r <| cr_Timeout := d |>
  | AsWorker id => r <| cr_WorkerID := id |>
  end.

Definition buildClaim (scope : string) (maxNodes : Z) (opts : list (option ClaimOption)) : result ClaimRequest :=
  match apply_all applyClaim opts (mkClaim scope [] maxNodes 0 "") with
  | None => Fail (Err ErrInvalidArgument)
  | Some req =>
    match first_error validateKind (cr_Kinds req) with
    | Some e => Fail e
    | None => if (cr_Timeout req <? 0)%Z then Fail (invalidArg "lease timeout") else Ok req
    end
  end.

Definition noClaim : ClaimResult := mkClaimResult [] [].

(** [ClaimBatch]; beside the leases, the effects that were published. *)
Definition ClaimBatch (dr : drains) (scope : string) (n : Z) (opts : list (option ClaimOption)) (m : Manager S)
  : Manager S * answer ClaimResult :=
  guarded (check scope m) noClaim m
    (match buildClaim scope (Z.max n 1) opts with
     | Fail e => (m, (noClaim, Some e))
     | Ok req =>
       let cfg := match be_ScopeConfig scope (m_store m) with Ok cfg => cfg | Fail _ => zeroConfig end in
       let req := req <| cr_Max ::= ClampClaimBatch cfg |> in
       published dr scope cl_Effects (be_Claim req) m
     end).

Definition TryClaim (dr : drains) (scope : string) (opts : list (option ClaimOption)) (m : Manager S)
  : Manager S * result Lease :=
  match ClaimBatch dr scope 1 opts m with
  | (m, (_, Some e)) => (m, Fail e)
  | (m, (res, None)) =>
    match cl_Leases res with
    | [] => (m, Fail (Err ErrNoWork))
    | l :: _ => (m, Ok l)
    end
  end.

(** *** Waiting *)

Definition minPollInterval : Z := 50 * Millisecond.
Definition maxPollInterval : Z := 2 * Second.

Definition pollInterval (m : Manager S) : Z :=
  let d := cf_pollInterval (m_cfg m) in
  let d := if (d <=? 0)%Z then maxPollInterval else d in
  Z.min (Z.max d minPollInterval) maxPollInterval.

(** [jitter], with the random number [r] drawn from [[0, d/2)]. *)
Definition jitter (d r : Z) : Z := let half := Z.quot d 2 in i64 (half + r).

(** What the doorbell reports, and the case of the timed [select]. *)
Inductive bell_case := BellNil | BellDeadline | BellCanceled | BellClosed | BellFailed.
Inductive poll_case := PollElapsed | PollDone | PollClosed.

(** [waitForWork], by what the doorbell and then the poll report; [ctx] is
    [ctx.Err()] when the wait is over. *)
Definition waitForWork (bell : bell_case) (poll : poll_case) (ctx : option ctx_error) (m : Manager S)
  : option end_error :=
  let polled :=
    match poll with
    | PollElapsed | PollDone => ContextError <$> ctx
    | PollClosed => Some (LibraryError (Err ErrClosed))
    end in
  if be_Doorbell && Capabilities_Has (m_caps m) CapDoorbell then
    match bell with
    | BellNil | BellDeadline | BellCanceled => ContextError <$> ctx
    | BellClosed => Some (LibraryError (Err ErrClosed))
    | BellFailed => polled
    end
  else polled.

(** What the rest of the world does in one round of [Claim]: the context when
    the round starts, the consumers while it publishes, how the wait ends,
    and what everyone else does to the manager meanwhile. *)
Record round := mkRound {
  rd_ctx : option ctx_error;
  rd_drains : drains;
  rd_bell : bell_case;
  rd_poll : poll_case;
  rd_ctx_after : option ctx_error;
  rd_others : Manager S -> Manager S
}.

(** The loop of [Claim]; [None] while it is still waiting. *)
Fixpoint claim_rounds (scope : string) (req : ClaimRequest) (rounds : list round) (m : Manager S)
  : Manager S * option (outcome Lease) :=
  match rounds with
  | [] => (m, None)
  | r :: rounds =>
    match rd_ctx r with
    | Some e => (m, Some (Gone (ContextError e)))
    | None =>
      if isClosed m then (m, Some (Gone (LibraryError (Err ErrClosed))))
      else
        match published (rd_drains r) scope cl_Effects (be_Claim req) m with
        | (m, (_, Some e)) => (m, Some (Gone (LibraryError e)))
        | (m, (res, None)) =>
          match cl_Leases res with
          | l :: _ => (m, Some (Got l))
          | [] =>
            let m := rd_others r m in
            match waitForWork (rd_bell r) (rd_poll r) (rd_ctx_after r) m with
            | Some e => (m, Some (Gone e))
            | None => claim_rounds scope req rounds m
            end
          end
        end
    end
  end.

Definition Claim (scope : string) (opts : list (option ClaimOption)) (rounds : list round) (m : Manager S)
  : Manager S * option (outcome Lease) :=
  match check scope m with
  | Some e => (m, Some (Gone (LibraryError e)))
  | None =>
    match buildClaim scope 1 opts with
    | Fail e => (m, Some (Gone (LibraryError e)))
    | Ok req => claim_rounds scope req rounds m
    end
  end.

(** *** Reporting *)

Definition noComplete : CompleteResult := mkCompleteResult [] false TimeZero.

Definition completeWithResult (dr : drains) (req : CompleteRequest) (m : Manager S) : Manager S * answer CompleteResult :=
  if isClosed m then (m, (noComplete, Some (Err ErrClosed)))
  else if negb (Lease_Valid (co_Lease req)) then (m, (noComplete, Some (invalidArg "lease")))
  else published dr (l_Scope (co_Lease req)) cp_Effects (be_Complete req) m.

Definition Ack (dr : drains) (lease : Lease) (result : bytes) (m : Manager S) : Manager S * answer CompleteResult :=
  completeWithResult dr (mkComplete lease true ReasonNone "" result) m.

(** [Nack]; a nil cause has the empty message. *)
Definition Nack (dr : drains) (lease : Lease) (cause : string) (m : Manager S) : Manager S * answer CompleteResult :=
  completeWithResult dr (mkComplete lease false ReasonWorkerError cause []) m.

Definition Skip (dr : drains) (lease : Lease) (reason : string) (m : Manager S) : Manager S * answer CompleteResult :=
  completeWithResult dr (mkComplete lease false ReasonSkipped reason []) m.

Definition Extend (lease : Lease) (d : Z) (m : Manager S) : Manager S * answer Lease :=
  if isClosed m then (m, (lease, Some (Err ErrClosed)))
  else if negb (Lease_Valid lease) then (m, (lease, Some (invalidArg "lease")))
  else if (d <? 0)%Z then (m, (lease, Some (invalidArg "extension")))
  else
    match be_Extend (mkExtend lease d) (m_store m) with
    | (st, Fail e) => (m <| m_store := st |>, (lease, Some e))
    | (st, Ok deadline) => (m <| m_store := st |>, (lease <| l_Deadline := deadline |>, None))
    end.

(** ** Subscriptions, [subscribe.go] *)

Definition startDurable (opts : SubscribeOptions) (m : Manager S) : Manager S * option error :=
  match be_Watch with
  | Some watch =>
    if Capabilities_Has (m_caps m) CapDurableEvents then
      let '(st, err) := watch (mkWatch (so_Scope opts) (so_From opts) (so_Replay opts)) (m_store m) in
      (m <| m_store := st |>, err)
    else (m, Some (Err ErrUnsupported))
  | None => (m, Some (Err ErrUnsupported))
  end.

(** [Subscribe]: the pointer to the subscription.  The goroutine of a durable
    one is [durable_iter], that of the others drops and ends it when its
    context does. *)
Definition Subscribe (opts : SubscribeOptions) (m : Manager S) : Manager S * result nat :=
  if isClosed m then (m, Fail (Err ErrClosed))
  else
    match SubscribeOptions_validate opts with
    | Some e => (m, Fail e)
    | None =>
      let size := if (so_BufferSize opts <=? 0)%Z then cf_subscriberBuffer (m_cfg m) else so_BufferSize opts in
      let pol := match so_Overflow opts with Some p => p | None => cf_overflow (m_cfg m) end in
      let s := new_subscription opts pol size in
      if so_Durable opts || negb (so_From opts =? 0)%Z || so_Replay opts then
        match startDurable opts m with
        | (m, Some e) => (m, Fail e)
        | (m, None) => let '(p, h) := new_object s (m_hub m) in (m <| m_hub := h |>, Ok p)
        end
      else let '(p, h) := register s (m_hub m) in (m <| m_hub := h |>, Ok p)
    end.

Definition subscription_cancelled (p : nat) (e : ctx_error) (m : Manager S) : Manager S :=
  m <| m_hub ::= fun h => upd_object p (finish (Some (ContextError e))) (dropSub (sub_id (object h p)) h) |>.

(** [Close]: if the context ends before the goroutines have exited, only the
    signal has been given; otherwise every registered subscription ends. *)
Definition Close (ctx : option ctx_error) (m : Manager S) : Manager S * option end_error :=
  let m := m <| m_closed := true |> in
  match ctx with
  | Some e => (m, Some (ContextError e))
  | None =>
    let subs := (map_to_list (h_subs (m_hub m))).*2 in
    let h := (m_hub m) <| h_subs := ∅ |> <| h_byScope := ∅ |> <| h_anyScope := ∅ |> in
    let h := foldl (fun h p => upd_object p (finish (Some (LibraryError (Err ErrClosed)))) h) h subs in
    (m <| m_hub := h |>, None)
  end.

(** ** Maintenance *)

Definition minSweepTick : Z := 50 * Millisecond.

Definition maintenanceTimeout (interval : Z) : Z :=
  Z.min (Z.max (i64 (interval * 4)) (5 * Second)) (2 * Minute).

(** [Time.Sub] saturates. *)
Definition time_Sub (a b : Z) : Z := Z.min (Z.max (a - b) (- 2 ^ 63)) max_i64.

Definition sweepScope (dr : drains) (scope : string) (m : Manager S) : Manager S :=
  let '(st, (res, err)) := be_Sweep scope 0 (m_store m) in
  let m := m <| m_store := st |> in
  match err with
  | Some _ => m
  | None => m <| m_hub ::= publish dr scope (sw_Effects res) |>
  end.

(** [collectScope]; [now] is its reading of the clock. *)
Definition collectScope (now : Z) (scope : string) (cfg : ScopeConfig) (m : Manager S) : Manager S :=
  match be_Collector with
  | None => m
  | Some collect =>
    if negb (Capabilities_Has (m_caps m) CapCollect) then m
    else if (c_TerminalRetention cfg <=? 0)%Z then m
    else
      let cutoff := i64 (now - c_TerminalRetention cfg) in
      m <| m_store := fst (collect scope cutoff (c_SweepBatchSize (Resolved cfg)) (m_store m)) |>
  end.

(** The configuration a pass uses for a scope. *)
Definition scope_config (scope : string) (m : Manager S) : ScopeConfig :=
  match be_ScopeConfig scope (m_store m) with Ok cfg => cfg | Fail _ => cf_defaults (m_cfg m) end.

Definition sweepInterval (scope : string) (m : Manager S) : Z :=
  c_SweepInterval (Resolved (scope_config scope m)).

(** [maintainScope]; [clk scope] is what the clock reads for the scope, in
    [maintainScope] and in [collectScope]. *)
Definition maintainScope (dr : drains) (clk : string -> Z * Z) (scope : string)
    (lastSwept : gmap string Z) (m : Manager S) : Manager S * gmap string Z * Z :=
  let cfg := scope_config scope m in
  let interval := c_SweepInterval (Resolved cfg) in
  let '(now, now') := clk scope in
  let swept := (collectScope now' scope cfg (sweepScope dr scope m), <[scope := now]> lastSwept, interval) in
  match lastSwept !! scope with
  | Some last =>
    let due := i64 (interval - time_Sub now last) in
    if (0 <? due)%Z then (m, lastSwept, due) else swept
  | None => swept
  end.

(** The loop over the scopes; it returns, and [maintain] with it, once the
    manager is closed. *)
Fixpoint maintain_scopes (dr : drains) (clk : string -> Z * Z) (scopes : list string)
    (lastSwept : gmap string Z) (tick : Z) (m : Manager S) : Manager S * gmap string Z * Z :=
  match scopes with
  | [] => (m, lastSwept, tick)
  | sc :: scopes =>
    if isClosed m then (m, lastSwept, tick) else
    let '(m, lastSwept, due) := maintainScope dr clk sc lastSwept m in
    maintain_scopes dr clk scopes lastSwept (Z.min tick due) m
  end.

(** One iteration of [maintain] after its timer fired: the state, the table,
    and the next tick.  A listing that fails leaves the tick as it was. *)
Definition maintain_pass (dr : drains) (clk : string -> Z * Z) (lastSwept : gmap string Z) (tick : Z)
    (m : Manager S) : Manager S * gmap string Z * Z :=
  match be_Scopes (m_store m) with
  | Fail _ => (m, lastSwept, tick)
  | Ok scopes =>
    let base := c_SweepInterval (Resolved (cf_defaults (m_cfg m))) in
    let '(m, lastSwept, tick) := maintain_scopes dr clk scopes lastSwept base m in
    (m, filter (fun kv => kv.1 ∈ scopes) lastSwept, Z.max tick minSweepTick)
  end.

End Facade.

End Mgr.
