(* ===== verification/Snapshot.v ===== *)
(** * Snapshots: [storage/memory/snapshot.go]

    The primary state of a scope with edges named by node identifier, and the
    scope rebuilt from it: handles are allotted anew, in identifier order, and
    the three heaps are filled again from the phases.  [sort.Slice] and
    [sort.Strings] are merge sorts here: the keys are distinct, so that every
    sorting routine gives the same list. *)
From S2P Require Import Prelude Types Config Heap Scope Memory.

Record PredSnapshot := mkPredSnap { ps_From : string; ps_Satisfied : bool }.

Record NodeSnapshot := mkNodeSnap {
  ns_ID : string;
  ns_Kind : string;
  ns_Message : string;
  ns_Worker : string;
  ns_Payload : bytes;
  ns_Result : bytes;
  ns_Labels : gmap string string;
  ns_Retry : RetryPolicy;
  ns_Deps : DepCounts;
  ns_Seq : Z;
  ns_Epoch : Z;
  ns_Attempt : Z;
  ns_Priority : Z;
  ns_Status : Status;
  ns_Reason : Reason;
  ns_Phase : Phase;
  ns_Trigger : TriggerRule;
  ns_CreatedAt : Z;
  ns_UpdatedAt : Z;
  ns_Ord : Z;
  ns_Deadline : Z;
  ns_ReadyAt : Z;
  ns_Fifo : Z;
  ns_Succ : list string;
  ns_Pred : list PredSnapshot
}.

Record ScopeSnapshot := mkScopeSnap {
  ss_Name : string;
  ss_Config : ScopeConfig;
  ss_Sealed : bool;
  ss_EpochFloor : Z;
  ss_NextOrd : Z;
  ss_NextFifo : Z;
  ss_Cursor : Z;
  ss_Stats : ScopeStats;
  ss_Nodes : list NodeSnapshot
}.

(** ** Capture *)

Definition node_snap (s : scope) (h : nat) : NodeSnapshot :=
  let r := rec s h in
  mkNodeSnap (id r) (kind r) (message r) (worker r) (payload r) (result_ r) (labels r) (retry r)
    (deps r) (seq_ r) (epoch r) (attempt r) (priority r) (status r) (reason r) (phase r) (trigger r)
    (createdAt r) (updatedAt r) (s_ord s !!! h) (s_deadline s !!! h) (s_readyAt s !!! h) (s_fifo s !!! h)
    ((fun w => id (rec s w)) <$> (s_succ s !!! h : list nat))
    ((fun e => mkPredSnap (id (rec s (from e))) (satisfied e)) <$> (s_pred s !!! h : list predEdge)).

(** The live handles, in the order of the loop. *)
Definition live_handles (s : scope) : list nat :=
  filter (fun h => alive (rec s h) = true) (seq 0 (length (s_recs s))).

Definition id_le (a b : NodeSnapshot) : Prop := String.le (ns_ID a) (ns_ID b).

#[export] Instance id_le_dec : RelDecision id_le.
Proof. intros a b. unfold id_le. apply _. Defined.

Definition snapshotScope (s : scope) : ScopeSnapshot :=
  mkScopeSnap (s_name s) (s_cfg s) (s_sealed s) (s_epochFloor s) (s_nextOrd s) (s_nextFifo s) (s_cursor s)
    (s_stats s) (merge_sort id_le (node_snap s <$> live_handles s)).

Definition Snapshot {C : Type} (st : Store C) : list ScopeSnapshot :=
  omap (fun name => snapshotScope <$> scopes st !! name) (merge_sort String.le (map_to_list (scopes st)).*1).

(** ** Restore *)

Definition rec_of (n : NodeSnapshot) : nodeRec :=
  mkRec (ns_ID n) (ns_Kind n) (ns_Message n) (ns_Worker n) (ns_Payload n) (ns_Result n) (ns_Labels n) (ns_Retry n)
    (ns_Deps n) (ns_Seq n) (ns_Epoch n) (ns_Attempt n) (ns_Priority n) (ns_Status n) (ns_Reason n) (ns_Phase n)
    (ns_Trigger n) true (ns_CreatedAt n) (ns_UpdatedAt n).

(** The first loop: records, index and the per-node numbers; [i] is the handle. *)
Fixpoint restore_nodes (i : nat) (nodes : list NodeSnapshot) (s : scope) : result scope :=
  match nodes with
  | [] => Ok s
  | n :: nodes =>
    if bool_decide (is_Some (s_index s !! ns_ID n)) then Fail (Err ErrInvalidArgument)
    else
      let s := s <| s_index ::= <[ns_ID n := i]> |> in
      let s := s <| s_recs ::= fun l => l ++ [rec_of n] |> in
      let s := s <| s_ord ::= <[i := ns_Ord n]> |> <| s_deadline ::= <[i := ns_Deadline n]> |>
                 <| s_readyAt ::= <[i := ns_ReadyAt n]> |> <| s_fifo ::= <[i := ns_Fifo n]> |> in
      restore_nodes (S i) nodes s
  end.

(** The second loop: every edge resolves through the index, or the snapshot is
    refused. *)
Definition resolve_pred (s : scope) (p : PredSnapshot) : option predEdge :=
  (fun f => mkPred f (ps_Satisfied p)) <$> s_index s !! ps_From p.

Fixpoint restore_edges (i : nat) (nodes : list NodeSnapshot) (s : scope) : result scope :=
  match nodes with
  | [] => Ok s
  | n :: nodes =>
    match mapM (fun w => s_index s !! w) (ns_Succ n) with
    | None => Fail (Err ErrInvalidArgument)
    | Some ws =>
      let s := s <| s_succ ::= <[i := ws]> |> in
      match mapM (resolve_pred s) (ns_Pred n) with
      | None => Fail (Err ErrInvalidArgument)
      | Some es => restore_edges (S i) nodes (s <| s_pred ::= <[i := es]> |>)
      end
    end
  end.

(** The third loop: each node into the heap of its phase. *)
Definition restore_heap (s : scope) (h : nat) : scope :=
  match phase (rec s h) with
  | PhaseReady => ready_Push (kind (rec s h)) h s
  | PhaseClaimed => leases_Push h s
  | PhaseScheduled => scheduled_Push h s
  | PhaseBlocked | PhaseDone => s
  end.

Definition restoreScope (logCap : Z) (ss : ScopeSnapshot) : result scope :=
  let s := newScope (ss_Name ss) logCap (ss_Config ss) in
  let s := s <| s_sealed := ss_Sealed ss |> <| s_epochFloor := ss_EpochFloor ss |>
             <| s_nextOrd := ss_NextOrd ss |> <| s_nextFifo := ss_NextFifo ss |>
             <| s_cursor := ss_Cursor ss |> <| s_stats := ss_Stats ss |>
             <| s_logStart := u64 (ss_Cursor ss + 1) |> in
  let n := length (ss_Nodes ss) in
  let s := s <| s_recs := [] |> <| s_succ := replicate n [] |> <| s_pred := replicate n [] |>
             <| s_ord := replicate n 0%Z |> <| s_deadline := replicate n 0%Z |>
             <| s_readyAt := replicate n 0%Z |> <| s_fifo := replicate n 0%Z |> in
  match restore_nodes 0 (ss_Nodes ss) s with
  | Fail e => Fail e
  | Ok s =>
    match restore_edges 0 (ss_Nodes ss) s with
    | Fail e => Fail e
    | Ok s => Ok (foldl restore_heap s (seq 0 n))
    end
  end.

Fixpoint restore_scopes {C : Type} (snap : list ScopeSnapshot) (st : Store C) : result (Store C) :=
  match snap with
  | [] => Ok st
  | ss :: snap =>
    if bool_decide (ss_Name ss = ""%string) then Fail (Err ErrInvalidArgument)
    else
      match restoreScope (logCap st) ss with
      | Fail e => Fail e
      | Ok s => restore_scopes snap (st <| scopes ::= <[ss_Name ss := s]> |>)
      end
  end.

Definition Restore {C : Type} (src : C) (opts : list Option) (snap : list ScopeSnapshot) : result (Store C) :=
  restore_scopes snap (New src opts).
