(* ===== verification/File.v ===== *)
(** * The file backend: [storage/file]

    The in-memory store behind a [gate] that is its clock and its jitter, and
    a log on disk of the commands that succeeded with the readings each of them
    consumed ([nondeterminism.go], [store.go], [file.go], [compact.go]).

    The log is the list of its intact records here; their framing in bytes is
    in [LogFrames].  Whether an append reaches the disk is an argument of the
    commands, [durable]; the order in which [CancelScope] visits its nodes is
    one of the command and of its replay. *)
From S2P Require Import Prelude Types Config Heap Scope Topo Graph Lease Memory Snapshot.

(** ** [nondeterminism.go] *)

Record readings := mkReadings { rd_Clock : list Z; rd_Jitter : list Z }.

#[export] Instance readings_eta : Eta readings := fun r => mkReadings (rd_Clock r) (rd_Jitter r).

Record gate (C : Type) := mkGate {
  g_live : C;
  g_replaying : bool;
  g_clock : list Z;
  g_jitter : list Z;
  g_lastClock : Z;
  g_exhausted : bool;
  g_cur : option readings
}.
Arguments mkGate {C} _ _ _ _ _ _ _.
Arguments g_live {C} _.
Arguments g_replaying {C} _.
Arguments g_clock {C} _.
Arguments g_jitter {C} _.
Arguments g_lastClock {C} _.
Arguments g_exhausted {C} _.
Arguments g_cur {C} _.

#[export] Instance gate_eta C : Eta (gate C) := fun g =>
  mkGate (g_live g) (g_replaying g) (g_clock g) (g_jitter g) (g_lastClock g) (g_exhausted g) (g_cur g).

Section Gate.
Context {C : Type} `{!ClockSource C}.

Definition newGate (live : C) : gate C := mkGate live true [] [] 0 false None.

Definition feed (r : readings) (g : gate C) : gate C :=
  g <| g_clock := rd_Clock r |> <| g_jitter := rd_Jitter r |> <| g_exhausted := false |>.

Definition drifted (g : gate C) : bool := g_exhausted g.

Definition golive (g : gate C) : gate C := g <| g_replaying := false |> <| g_clock := [] |> <| g_jitter := [] |>.

(** [begin], and the function it returns. *)
Definition begin (g : gate C) : gate C := g <| g_cur := Some (mkReadings [] []) |>.

Definition end_ (g : gate C) : gate C * readings :=
  match g_cur g with
  | Some out => (g <| g_cur := None |>, out)
  | None => (g, mkReadings [] [])
  end.

(** [Now], as [UnixNano] of the time returned. *)
Definition gate_Now (g : gate C) : Z * gate C :=
  if g_replaying g then
    match g_clock g with
    | [] => (g_lastClock g, g <| g_exhausted := true |>)
    | t :: rest => (t, g <| g_lastClock := t |> <| g_clock := rest |>)
    end
  else
    let '(t, live) := clk_Now (g_live g) in
    let g := g <| g_live := live |> in
    match g_cur g with
    | Some cur => (t, g <| g_cur := Some (cur <| rd_Clock ::= fun l => l ++ [t] |>) |>)
    | None => (t, g)
    end.

Definition gate_Jitter (n : Z) (g : gate C) : Z * gate C :=
  if g_replaying g then
    match g_jitter g with
    | [] => (0%Z, g <| g_exhausted := true |>)
    | v :: rest => (v, g <| g_jitter := rest |>)
    end
  else
    let '(v, live) := clk_Jitter n (g_live g) in
    let g := g <| g_live := live |> in
    match g_cur g with
    | Some cur => (v, g <| g_cur := Some (cur <| rd_Jitter ::= fun l => l ++ [v] |>) |>)
    | None => (v, g)
    end.

#[export] Instance gate_source : ClockSource (gate C) := {| clk_Now := gate_Now; clk_Jitter := gate_Jitter |}.

End Gate.

(** ** [log.go]: records *)

Definition opSetScopeConfig : Z := 1.
Definition opSeal : Z := 2.
Definition opAddNodes : Z := 3.
Definition opAddEdges : Z := 4.
Definition opRemoveEdges : Z := 5.
Definition opRemoveNode : Z := 6.
Definition opCancel : Z := 7.
Definition opCancelScope : Z := 8.
Definition opClaim : Z := 9.
Definition opComplete : Z := 10.
Definition opExtend : Z := 11.
Definition opSweep : Z := 12.

Record log_record := mkRecord {
  r_Op : Z;
  r_Scope : string;
  r_Readings : readings;
  r_Config : option ScopeConfig;
  r_Specs : list NodeSpec;
  r_Edges : list Edge;
  r_NodeID : string;
  r_IDs : list string;
  r_Policy : CascadePolicy;
  r_Claim : option ClaimRequest;
  r_Done : option CompleteRequest;
  r_Extend : option ExtendRequest;
  r_Limit : Z
}.

#[export] Instance log_record_eta : Eta log_record := fun r =>
  mkRecord (r_Op r) (r_Scope r) (r_Readings r) (r_Config r) (r_Specs r) (r_Edges r) (r_NodeID r) (r_IDs r) (r_Policy r)
    (r_Claim r) (r_Done r) (r_Extend r) (r_Limit r).

(** [record{Op: op, Scope: scope}]. *)
Definition blank (op : Z) (scope : string) : log_record :=
  mkRecord op scope (mkReadings [] []) None [] [] "" [] CascadeReject None None None 0.

(** ** [store.go]: commands *)

(** What is in memory and what is on disk. *)
Record FStore (C : Type) := mkFStore {
  fs_mem : Store (gate C);
  fs_log : list log_record;
  fs_snapshot : option (list ScopeSnapshot);
  fs_closed : bool
}.
Arguments mkFStore {C} _ _ _ _.
Arguments fs_mem {C} _.
Arguments fs_log {C} _.
Arguments fs_snapshot {C} _.
Arguments fs_closed {C} _.

#[export] Instance FStore_eta C : Eta (FStore C) := fun s =>
  mkFStore (fs_mem s) (fs_log s) (fs_snapshot s) (fs_closed s).

(** The answer to a command: its result, an error of the store, or the
    failure to make it durable. *)
Inductive reply (A : Type) := Done (a : A) | Refused (e : error) | NotDurable.
Arguments Done {A} a.
Arguments Refused {A} e.
Arguments NotDurable {A}.

Section Commands.
Context {C : Type} `{!ClockSource C}.

(** [durable]: whether [append] wrote and synced the frame.  A frame that was
    not written leaves the log as it was: the part of one that a failed write or
    sync may leave at the end of the file is not followed, nor what the process
    appends behind it ([LogFrames] reads a file that ends in such a part). *)
Definition mutate {A : Type} (r : log_record) (run : Store (gate C) -> Store (gate C) * result A) (durable : bool)
    (s : FStore C) : FStore C * reply A :=
  if fs_closed s then (s, Refused (Err ErrClosed))
  else
    let '(mem, out) := run ((fs_mem s) <| clock ::= begin |>) in
    let '(g, rd) := end_ (clock mem) in
    let s := s <| fs_mem := mem <| clock := g |> |> in
    match out with
    | Fail e => (s, Refused e)
    | Ok a =>
      if durable then (s <| fs_log ::= fun l => l ++ [r <| r_Readings := rd |>] |>, Done a)
      else (s, NotDurable)
    end.

Definition F_SetScopeConfig (scope : string) (cfg : ScopeConfig) :=
  mutate ((blank opSetScopeConfig scope) <| r_Config := Some cfg |>) (SetScopeConfig scope cfg).

Definition F_Seal (scope : string) := mutate (blank opSeal scope) (Seal scope).

Definition F_AddNodes (scope : string) (specs : list NodeSpec) :=
  mutate ((blank opAddNodes scope) <| r_Specs := specs |>) (AddNodes scope specs).

Definition F_AddEdges (scope : string) (edges : list Edge) :=
  mutate ((blank opAddEdges scope) <| r_Edges := edges |>) (AddEdges scope edges).

Definition F_RemoveEdges (scope : string) (edges : list Edge) :=
  mutate ((blank opRemoveEdges scope) <| r_Edges := edges |>) (RemoveEdges scope edges).

Definition F_RemoveNode (scope nid : string) (policy : CascadePolicy) :=
  mutate ((blank opRemoveNode scope) <| r_NodeID := nid |> <| r_Policy := policy |>) (RemoveNode scope nid policy).

(** The effects [Cancel] returns beside its error are dropped by [mutate]. *)
Definition cancel_result {S : Type} (x : S * (list Effect * option error)) : S * result (list Effect) :=
  let '(st, (out, e)) := x in (st, match e with None => Ok out | Some e => Fail e end).

Definition F_Cancel (scope : string) (ids : list string) :=
  mutate ((blank opCancel scope) <| r_IDs := ids |>) (fun m => cancel_result (Cancel scope ids m)).

Definition F_CancelScope (scope : string) (visit : list nat) :=
  mutate (blank opCancelScope scope) (CancelScope scope visit).

Definition F_Claim (req : ClaimRequest) :=
  mutate ((blank opClaim (cr_Scope req)) <| r_Claim := Some req |>) (Claim req).

Definition F_Complete (req : CompleteRequest) :=
  mutate ((blank opComplete (l_Scope (co_Lease req))) <| r_Done := Some req |>) (Complete req).

Definition F_Extend (req : ExtendRequest) :=
  mutate ((blank opExtend (l_Scope (ex_Lease req))) <| r_Extend := Some req |>) (Extend req).

Definition F_Sweep (scope : string) (limit : Z) :=
  mutate ((blank opSweep scope) <| r_Limit := limit |>) (Sweep scope limit).

Definition F_Close (s : FStore C) : FStore C :=
  if fs_closed s then s else s <| fs_closed := true |> <| fs_mem ::= Close |>.

(** ** [file.go]: replay *)

(** The error of a call, its answer dropped. *)
Definition only_error {S A : Type} (x : S * result A) : S * option error :=
  (x.1, match x.2 with Ok _ => None | Fail e => Some e end).

(** [applyGraph] and [applyLease]; [None] of the former is its [false]. *)
Definition applyGraph (visit : list nat) (r : log_record) (m : Store (gate C))
  : option (Store (gate C) * option error) :=
  if (r_Op r =? opSetScopeConfig)%Z then
    Some (match r_Config r with
          | None => (m, Some (Err ErrInvalidArgument))
          | Some cfg => only_error (SetScopeConfig (r_Scope r) cfg m)
          end)
  else if (r_Op r =? opSeal)%Z then Some (only_error (Seal (r_Scope r) m))
  else if (r_Op r =? opAddNodes)%Z then Some (only_error (AddNodes (r_Scope r) (r_Specs r) m))
  else if (r_Op r =? opAddEdges)%Z then Some (only_error (AddEdges (r_Scope r) (r_Edges r) m))
  else if (r_Op r =? opRemoveEdges)%Z then Some (only_error (RemoveEdges (r_Scope r) (r_Edges r) m))
  else if (r_Op r =? opRemoveNode)%Z then Some (only_error (RemoveNode (r_Scope r) (r_NodeID r) (r_Policy r) m))
  else if (r_Op r =? opCancel)%Z then Some (only_error (cancel_result (Cancel (r_Scope r) (r_IDs r) m)))
  else if (r_Op r =? opCancelScope)%Z then Some (only_error (CancelScope (r_Scope r) visit m))
  else None.

Definition applyLease (r : log_record) (m : Store (gate C)) : Store (gate C) * option error :=
  if (r_Op r =? opClaim)%Z then
    match r_Claim r with
    | None => (m, Some (Err ErrInvalidArgument))
    | Some req => only_error (Claim req m)
    end
  else if (r_Op r =? opComplete)%Z then
    match r_Done r with
    | None => (m, Some (Err ErrInvalidArgument))
    | Some req => only_error (Complete req m)
    end
  else if (r_Op r =? opExtend)%Z then
    match r_Extend r with
    | None => (m, Some (Err ErrInvalidArgument))
    | Some req => only_error (Extend req m)
    end
  else if (r_Op r =? opSweep)%Z then only_error (Sweep (r_Scope r) (r_Limit r) m)
  else (m, Some (Err ErrInvalidArgument)).

Definition apply (visit : list nat) (r : log_record) (m : Store (gate C)) : Store (gate C) * option error :=
  match applyGraph visit r m with
  | Some res => res
  | None => applyLease r m
  end.

(** Why a directory cannot be opened. *)
Inductive open_error :=
| SnapshotRefused (e : error)
| RecordRefused (e : error)
| Drifted.

(** The loop of [replay]; each record comes with the order its [CancelScope] visits. *)
Fixpoint replay_records (records : list (log_record * list nat)) (mem : Store (gate C))
  : Store (gate C) + open_error :=
  match records with
  | [] => inl mem
  | (r, visit) :: records =>
    let '(mem, e) := apply visit r (mem <| clock ::= feed (r_Readings r) |>) in
    match e with
    | Some e => inr (RecordRefused e)
    | None => if drifted (clock mem) then inr Drifted else replay_records records mem
    end
  end.

Definition replay (base : option (list ScopeSnapshot)) (records : list (log_record * list nat))
    (live : C) (dflt : ScopeConfig) : Store (gate C) + open_error :=
  let g := newGate live in
  let opts := [WithScopeDefaults dflt] in
  let start := match base with
               | Some snap => match Restore g opts snap with Ok mem => inl mem | Fail e => inr (SnapshotRefused e) end
               | None => inl (New g opts)
               end in
  match start with
  | inr e => inr e
  | inl mem =>
    match replay_records records mem with
    | inr e => inr e
    | inl mem => inl (mem <| clock ::= golive |>)
    end
  end.

(** [Open] on what [readAll] and [readSnapshot] found; [visits] supplies the
    orders in which the replayed [CancelScope]s visit their nodes. *)
Definition Open (base : option (list ScopeSnapshot)) (records : list log_record) (visits : list (list nat))
    (live : C) (dflt : ScopeConfig) : FStore C + open_error :=
  match replay base (zip records (visits ++ replicate (length records) [])) live dflt with
  | inr e => inr e
  | inl mem => inl (mkFStore mem records base false)
  end.

(** ** [compact.go] *)

(** [Compact] with the state of the disk after its first half, where a crash
    leaves the new snapshot beside the old log. *)
Definition compact_snapshot (s : FStore C) : FStore C := s <| fs_snapshot := Some (Snapshot (fs_mem s)) |>.

Definition Compact (s : FStore C) : FStore C * reply unit :=
  if fs_closed s then (s, Refused (Err ErrClosed))
  else ((compact_snapshot s) <| fs_log := [] |>, Done tt).

End Commands.
