(* ===== verification/ListFacts.v ===== *)
(** * Listing a scope

    [sortNodeIDs] sorts, and the pages [ListNodes] returns, each starting where
    the last one ended, list the matching nodes in order, each once. *)
From S2P Require Import Prelude Types Config Heap Scope Lease Memory.

(** ** The order of identifiers *)

Lemma ltb_le a b : String.ltb a b = false <-> String.le b a.
Proof.
  unfold String.le, String.ltb, String.leb. rewrite String.compare_antisym.
  destruct (String.compare b a); simpl; split; (done || by intros []).
Qed.

Lemma ltb_lt_ne a b : String.ltb a b = true <-> String.le a b /\ a <> b.
Proof.
  split.
  - intros H. assert (String.ltb b a = false) as Hba.
    { unfold String.ltb in *. rewrite String.compare_antisym. by destruct (String.compare a b). }
    split; [by apply ltb_le|]. intros ->. congruence.
  - intros [H Hne]. destruct (String.ltb a b) eqn:E; [done|]. apply ltb_le in E. destruct Hne. by apply (anti_symm String.le).
Qed.

(** ** [sortNodeIDs] *)

Notation sorted := (StronglySorted String.le).

(** Sinking [x] into a sorted prefix inserts it in place. *)
Lemma sink_inserts pre : forall x post,
  exists l, sink (length pre) (pre ++ x :: post) = l ++ post /\ l ≡ₚ x :: pre /\ (sorted pre -> sorted l).
Proof.
  induction pre as [|y pre IH] using rev_ind; intros x post.
  { exists [x]. split_and!; [done..|]. intros _. by repeat constructor. }
  rewrite length_app, Nat.add_1_r. cbn [sink].
  assert (Ex : (((pre ++ [y]) ++ x :: post) !!! S (length pre)) = x).
  { rewrite <- Nat.add_1_r. change 1 with (length [y]). rewrite <- length_app. by rewrite list_lookup_total_middle. }
  assert (Ey : (((pre ++ [y]) ++ x :: post) !!! length pre) = y).
  { rewrite <- app_assoc. simpl. by rewrite list_lookup_total_middle. }
  rewrite Ex, Ey. destruct (String.ltb x y) eqn:E.
  - destruct (IH x (y :: post)) as (l & E1 & P1 & S1). exists (l ++ [y]). split_and!.
    + assert (Es : <[length pre := x]> (<[S (length pre) := y]> ((pre ++ [y]) ++ x :: post)) = pre ++ x :: y :: post).
      { rewrite <- app_assoc. simpl. rewrite insert_app_r_alt by lia.
        replace (S (length pre) - length pre) with 1 by lia. simpl.
        rewrite insert_app_r_alt by lia. by rewrite Nat.sub_diag. }
      rewrite Es, E1. by rewrite <- app_assoc.
    + rewrite P1. simpl. done.
    + intros (Fy & Sp & _)%StronglySorted_app. apply StronglySorted_app_2; [|by apply S1|by repeat constructor].
      intros a b Ha ->%list_elem_of_singleton. rewrite P1 in Ha. apply elem_of_cons in Ha as [->|Ha].
      * by apply ltb_lt_ne in E as [? _].
      * apply Fy; [done|by left].
  - exists ((pre ++ [y]) ++ [x]). split_and!; [by rewrite <- (app_assoc _ [x])|by rewrite (Permutation_app_comm _ [x])|].
    intros Sp. apply ltb_le in E. apply StronglySorted_app_2; [|done|by repeat constructor].
    intros a b Ha ->%list_elem_of_singleton. apply StronglySorted_app in Sp as (Fy & _ & _).
    apply elem_of_app in Ha as [Ha|Ha%list_elem_of_singleton]; [|by subst].
    transitivity y; [|done]. apply Fy; [done|by left].
Qed.

Lemma sort_prefix ids k :
  k < length ids ->
  exists l, foldl (fun ids i => sink i ids) ids (seq 1 k) = l ++ drop (S k) ids /\
    length l = S k /\ l ≡ₚ take (S k) ids /\ sorted l.
Proof.
  induction k as [|k IH]; intros Hk.
  - destruct ids as [|x ids]; [simpl in Hk; lia|]. exists [x]. simpl. rewrite take_0, drop_0.
    split_and!; [done..|by repeat constructor].
  - destruct IH as (l & E & Hl & P & S); [lia|]. rewrite seq_S, foldl_snoc, E.
    destruct (lookup_lt_is_Some_2 ids (Datatypes.S k)) as [x Hx]; [lia|].
    rewrite (drop_S ids x (Datatypes.S k) Hx).
    destruct (sink_inserts l x (drop (Datatypes.S (Datatypes.S k)) ids)) as (l' & E' & P' & S').
    exists l'. change (1 + k) with (Datatypes.S k). rewrite <- Hl at 1. split_and!; [done| | |by apply S'].
    + apply Permutation_length in P'. simpl in P'. lia.
    + rewrite P', (take_S_r ids (Datatypes.S k) x Hx), P. by rewrite Permutation_app_comm.
Qed.

Lemma sortNodeIDs_ok ids : sortNodeIDs ids ≡ₚ ids /\ sorted (sortNodeIDs ids).
Proof.
  unfold sortNodeIDs. destruct (decide (length ids = 0)) as [E|E].
  { apply length_zero_iff_nil in E as ->. simpl. split; [done|constructor]. }
  destruct (sort_prefix ids (length ids - 1)) as (l & -> & Hl & P & S); [lia|].
  replace (Datatypes.S (length ids - 1)) with (length ids) in * by lia.
  rewrite drop_all, app_nil_r. by rewrite take_ge in P by done.
Qed.

(** ** [ListNodes] *)

(** The filters of a request accept node [i]. *)
Definition listed (s : scope) (opts : ListOptions) (i : string) : Prop :=
  let r := rec s (default 0 (s_index s !! i)) in
  (lo_Statuses opts = [] \/ containsStatus (lo_Statuses opts) (status r) = true) /\
  (lo_Kinds opts = [] \/ containsStr (lo_Kinds opts) (kind r) = true).

#[export] Instance listed_dec s opts i : Decision (listed s opts i).
Proof. unfold listed. apply _. Defined.

Definition after_cursor (s : scope) (opts : ListOptions) : list string :=
  filter (fun i => String.ltb (lo_Cursor opts) i = true) (map_to_list (s_index s)).*1.

(** What is left to list from the cursor on, in order. *)
Definition remaining (s : scope) (opts : ListOptions) : list string :=
  filter (listed s opts) (sortNodeIDs (after_cursor s opts)).

Definition node_at (s : scope) (i : string) : Node := snapshot s (default 0 (s_index s !! i)).

Definition page_limit (opts : ListOptions) : Z := if (lo_Limit opts <=? 0)%Z then 100%Z else lo_Limit opts.

Lemma list_page_skip s opts limit i ids nodes :
  list_page s opts limit (i :: ids) nodes =
  if decide (listed s opts i) then
    if (Z.of_nat (length nodes) =? limit)%Z then
      mkListResult nodes (match last nodes with Some n => nd_ID n | None => ""%string end)
    else list_page s opts limit ids (nodes ++ [node_at s i])
  else list_page s opts limit ids nodes.
Proof.
  cbn [list_page]. unfold listed, node_at. cbv zeta.
  set (r := rec s _).
  case_decide as Hd;
    destruct (decide (lo_Statuses opts = [])) as [E1|E1], (decide (lo_Kinds opts = [])) as [E2|E2];
    rewrite ?(bool_decide_eq_true_2 _ E1), ?(bool_decide_eq_false_2 _ E1), ?(bool_decide_eq_true_2 _ E2),
      ?(bool_decide_eq_false_2 _ E2); simpl;
    destruct (containsStatus (lo_Statuses opts) (status r)) eqn:S1;
    destruct (containsStr (lo_Kinds opts) (kind r)) eqn:S2; simpl; try done; exfalso; naive_solver.
Qed.

Lemma list_page_spec s opts limit ids : forall nodes,
  (Z.of_nat (length nodes) <= limit)%Z ->
  let M := filter (listed s opts) ids in
  let all := nodes ++ (node_at s <$> take (Z.to_nat limit - length nodes) M) in
  list_page s opts limit ids nodes =
    mkListResult all (if (Z.of_nat (length nodes + length M) <=? limit)%Z then ""%string
                      else match last all with Some n => nd_ID n | None => ""%string end).
Proof.
  induction ids as [|i ids IH]; intros nodes Hn; cbv zeta.
  { rewrite filter_nil, take_nil. simpl. rewrite app_nil_r, Nat.add_0_r. by rewrite (proj2 (Z.leb_le _ _) Hn). }
  rewrite list_page_skip, filter_cons. case_decide as Hl; [|by apply IH]. simpl.
  destruct (Z.eqb_spec (Z.of_nat (length nodes)) limit) as [He|He].
  - replace (Z.to_nat limit - length nodes) with 0 by lia. simpl. rewrite app_nil_r.
    rewrite (proj2 (Z.leb_gt _ _)) by lia. done.
  - rewrite IH by (rewrite length_app; simpl; lia). rewrite length_app. simpl.
    replace (Z.to_nat limit - length nodes) with (S (Z.to_nat limit - (length nodes + 1))) by lia. simpl.
    rewrite <- app_assoc. simpl. by rewrite <- Nat.add_assoc.
Qed.

(** One page: the first [limit] of what remains, and where the next starts. *)
Lemma ListNodes_page s opts :
  let L := Z.to_nat (page_limit opts) in
  let M := remaining s opts in
  scope_ListNodes opts s =
    mkListResult (node_at s <$> take L M)
      (if (length M <=? L)%nat then ""%string
       else match last (node_at s <$> take L M) with Some n => nd_ID n | None => ""%string end).
Proof.
  intros L M. assert (Hp : (0 < page_limit opts)%Z).
  { unfold page_limit. destruct (Z.leb_spec (lo_Limit opts) 0); lia. }
  unfold scope_ListNodes. fold (page_limit opts) (after_cursor s opts).
  rewrite list_page_spec by (simpl; lia). simpl. rewrite Nat.sub_0_r. fold (remaining s opts) M L. f_equal.
  destruct (Z.leb_spec (Z.of_nat (length M)) (page_limit opts)), (Nat.leb_spec (length M) L); done || lia.
Qed.

(** *** The next page *)

Lemma remaining_elem s opts i :
  i ∈ remaining s opts <->
  listed s opts i /\ String.ltb (lo_Cursor opts) i = true /\ is_Some (s_index s !! i).
Proof.
  unfold remaining, after_cursor. rewrite list_elem_of_filter.
  rewrite (proj1 (sortNodeIDs_ok _)), list_elem_of_filter, list_elem_of_fmap.
  split; intros (H1 & H2 & H3); split_and!; try done.
  - destruct H3 as ([i' h] & -> & H3%elem_of_map_to_list). by exists h.
  - destruct H3 as [h H3]. exists (i, h). split; [done|]. by apply elem_of_map_to_list.
Qed.

Lemma remaining_sorted s opts : NoDup (remaining s opts) /\ sorted (remaining s opts).
Proof.
  unfold remaining. destruct (sortNodeIDs_ok (after_cursor s opts)) as [P S]. split.
  - apply NoDup_filter. rewrite P. apply NoDup_filter, NoDup_fst_map_to_list.
  - clear P. revert S. generalize (sortNodeIDs (after_cursor s opts)). intros ids S.
    induction S as [|x l _ IH Hf]; [constructor|]. rewrite filter_cons. case_decide; [|done].
    constructor; [done|]. apply Forall_forall. intros y [_ Hy]%list_elem_of_filter.
    by apply (proj1 (Forall_forall _ _) Hf).
Qed.

Lemma remaining_next s opts k x :
  last (take k (remaining s opts)) = Some x ->
  remaining s (mkListOptions (lo_Statuses opts) (lo_Kinds opts) x (lo_Limit opts)) = drop k (remaining s opts).
Proof.
  intros Hx. set (opts' := mkListOptions _ _ _ _). destruct (remaining_sorted s opts) as [N S].
  pose proof (last_Some_elem_of _ _ Hx) as Hin.
  assert (Hsplit : take k (remaining s opts) ++ drop k (remaining s opts) = remaining s opts) by apply take_drop.
  assert (Hcx : String.ltb (lo_Cursor opts) x = true).
  { assert (x ∈ remaining s opts) as H; [|by apply remaining_elem in H as (_ & ? & _)].
    rewrite <- Hsplit. apply elem_of_app. by left. }
  rewrite <- Hsplit in N, S. apply NoDup_app in N as (N1 & N12 & N2).
  apply StronglySorted_app in S as (S12 & S1 & S2).
  apply (StronglySorted_unique String.le); [apply remaining_sorted|done|].
  apply NoDup_Permutation; [apply remaining_sorted|done|]. intros i. rewrite remaining_elem. simpl.
  change (listed s opts' i) with (listed s opts i). split.
  - intros (H1 & H2 & H3). apply ltb_lt_ne in H2 as [H2 Hne], Hcx as [Hc _].
    assert (Hi : i ∈ remaining s opts).
    { apply remaining_elem. split_and!; [done| |done]. apply ltb_lt_ne. split; [by etrans|].
      intros E. apply Hne. apply (anti_symm String.le); [done|]. by rewrite <- E. }
    rewrite <- Hsplit in Hi. apply elem_of_app in Hi as [Hi|Hi]; [|done]. exfalso. apply Hne.
    apply (anti_symm String.le); [done|]. apply last_Some in Hx as [l El]. rewrite El in Hi, S1.
    apply StronglySorted_app in S1 as (S3 & _ & _).
    apply elem_of_app in Hi as [Hi|Hi%list_elem_of_singleton]; [|by subst]. apply S3; [done|by left].
  - intros Hi. assert (i ∈ remaining s opts) as (H1 & H2 & H3)%remaining_elem.
    { rewrite <- Hsplit. apply elem_of_app. by right. }
    split_and!; [done| |done]. apply ltb_lt_ne. split; [by apply S12|]. intros ->. by apply (N12 i).
Qed.
