(* ===== verification/Invariant.v ===== *)
(** * The invariant of a scope

    What holds of a scope's state whenever its mutex is free, split by
    concern: [graph_inv] (handles, index, adjacency, ranks), [deps_inv] and
    [sat_inv] (dependency tallies), [heap_inv] (the ready, lease and retry
    heaps against the phases), [status_inv] (phase and public status),
    [stats_inv] (the counters) and [log_inv] (the event ring). *)
From S2P Require Import Prelude Types Config Heap HeapFacts Scope Topo TopoFacts.

Notation size_ s := (length (s_recs s)).

(** ** Graph *)

Record graph_inv (s : scope) : Prop := {
  gi_succ : length (s_succ s) = size_ s;
  gi_pred : length (s_pred s) = size_ s;
  gi_deadline : length (s_deadline s) = size_ s;
  gi_readyAt : length (s_readyAt s) = size_ s;
  gi_fifo : length (s_fifo s) = size_ s;
  gi_small : (Z.of_nat (size_ s) <= 2 ^ 31)%Z;
  gi_index : forall i h, s_index s !! i = Some h <-> live s h /\ id (rec s h) = i;
  gi_free : NoDup (s_free s);
  gi_free_in : forall h, h ∈ s_free s <-> h < size_ s /\ alive (rec s h) = false;
  gi_dead : forall h, alive (rec s h) = false -> rec s h = zeroRec;
  gi_wf : graph_wf s;
  gi_ranked : ranked s;
  gi_nodup_s : forall u, NoDup (s_succ s !!! u);
  gi_nodup_p : forall v, NoDup (from <$> s_pred s !!! v);
  gi_next : forall h, live s h -> (rank s h <= s_nextOrd s)%Z;
  gi_nextOrd : (0 <= s_nextOrd s)%Z
}.

(** ** Dependency tallies *)

Inductive Dep := DUnsat | DSucc | DSkip | DFail.

#[export] Instance Dep_eq_dec : EqDecision Dep.
Proof. solve_decision. Defined.

(** The class a terminal predecessor falls into. *)
Definition class_of (st : Status) (rs : Reason) : Dep :=
  if bool_decide (st = StatusSuccess) then DSucc
  else if bool_decide (rs = ReasonSkipped) then DSkip else DFail.

Definition eclass (s : scope) (e : predEdge) : Dep :=
  if satisfied e then class_of (status (rec s (from e))) (reason (rec s (from e))) else DUnsat.

Definition dcount (s : scope) (v : nat) (d : Dep) : nat :=
  count (fun e => bool_decide (eclass s e = d)) (s_pred s !!! v).

Definition deps_of (s : scope) (v : nat) : DepCounts :=
  mkDeps (Z.of_nat (dcount s v DUnsat)) (Z.of_nat (dcount s v DSucc))
    (Z.of_nat (dcount s v DSkip)) (Z.of_nat (dcount s v DFail)).

Definition deps_inv (s : scope) : Prop := forall v, deps (rec s v) = deps_of s v.

(** An edge is marked satisfied exactly when its source is terminal, but for
    the edges [pend] that the running fan-out has not reached yet. *)
Definition sat_inv (pend : nat -> nat -> Prop) (s : scope) : Prop :=
  forall v e, e ∈ s_pred s !!! v ->
    satisfied e = true <-> phase (rec s (from e)) = PhaseDone /\ ~ pend (from e) v.

Definition none_pending : nat -> nat -> Prop := fun _ _ => False.

(** ** Heaps *)

Definition in_phase (s : scope) (p : Phase) (h : nat) : Prop := live s h /\ phase (rec s h) = p.

(** The lease, retry and ready heaps hold exactly [L], [S] and [R]. *)
Record heaps (L S : nat -> Prop) (R : string -> nat -> Prop) (s : scope) : Prop := {
  hp_leases : good (less_leases s) (s_leases s) L;
  hp_scheduled : good (less_scheduled s) (s_scheduled s) S;
  hp_ready : forall k, good (less_ready s) (readyHeap s k) (R k)
}.

Definition ready_in (s : scope) (k : string) (h : nat) : Prop :=
  in_phase s PhaseReady h /\ kind (rec s h) = k.

Definition heap_inv (s : scope) : Prop :=
  heaps (in_phase s PhaseClaimed) (in_phase s PhaseScheduled) (ready_in s) s.

(** ** Phase and status *)

Definition phase_ok (r : nodeRec) : Prop :=
  match phase r with
  | PhaseBlocked | PhaseScheduled | PhaseReady => status r = StatusNew
  | PhaseClaimed => status r = StatusInProgress
  | PhaseDone => (status r = StatusSuccess /\ reason r = ReasonNone) \/ status r = StatusError
  end.

(** The attempt counter is a [uint32], a claim has raised it, and it stays
    within the limit the node's own retry policy sets, if it sets one. *)
Definition in_limit (r : nodeRec) : Prop :=
  (0 < rp_MaxAttempts (retry r))%Z ->
  (attempt r + (if bool_decide (phase r = PhaseClaimed \/ phase r = PhaseDone) then 0 else 1)
   <= rp_MaxAttempts (retry r))%Z.

Definition attempt_ok (r : nodeRec) : Prop :=
  (0 <= attempt r <= max_u32)%Z /\
  (phase r = PhaseScheduled \/ phase r = PhaseClaimed -> (0 < attempt r)%Z) /\ in_limit r.

Definition status_ok (r : nodeRec) : Prop := phase_ok r /\ attempt_ok r.

Definition status_inv (s : scope) : Prop := forall h, live s h -> status_ok (rec s h).

(** ** Counters *)

Definition in_bucket (b : Bucket) (r : nodeRec) : bool := alive r && bool_decide (bucket r = b).

Record stats_inv (s : scope) : Prop := {
  si_total : st_Total (s_stats s) = u64 (Z.of_nat (count alive (s_recs s)));
  si_bucket : forall b, counter b (s_stats s) = u64 (Z.of_nat (count (in_bucket b) (s_recs s)));
  si_sealed : st_Sealed (s_stats s) = s_sealed s
}.

(** ** Event ring *)

Record log_inv (s : scope) : Prop := {
  li_cap : (0 < s_logCap s)%Z;
  li_len : (Z.of_nat (length (s_log s)) < 2 * s_logCap s)%Z;
  li_start : s_logStart s = u64 (s_logStart s);
  li_cursor : s_cursor s = u64 (s_logStart s + Z.of_nat (length (s_log s)) - 1);
  li_events : forall i e, s_log s !! i = Some e ->
    ev_Cursor e = u64 (s_logStart s + Z.of_nat i) /\ ev_Scope e = s_name s /\ ev_Gap e = false
}.

(** ** All of it *)

(** The invariant but for the heaps; [pend] is empty between operations. *)
Record base_inv (pend : nat -> nat -> Prop) (s : scope) : Prop := {
  bi_graph : graph_inv s;
  bi_deps : deps_inv s;
  bi_sat : sat_inv pend s;
  bi_status : status_inv s;
  bi_stats : stats_inv s;
  bi_log : log_inv s
}.

Record inv (s : scope) : Prop := {
  inv_base : base_inv none_pending s;
  inv_heap : heap_inv s
}.

(** A node that was never claimed may run only when its trigger rule is met.
    A retry is released when its delay is over, whatever its rule says then. *)
Definition may_run (r : nodeRec) : Prop := attempt r = 0%Z -> Ready (deps r) (trigger r) = true.

(** A blocked node is rightly blocked, its rule being neither met nor lost, and
    a ready node may run.  This is stated apart from [inv], because a failing
    [RemoveEdges] breaks it. *)
Definition settled (s : scope) (h : nat) : Prop :=
  (in_phase s PhaseBlocked h ->
   Ready (deps (rec s h)) (trigger (rec s h)) = false /\
   Unsatisfiable (deps (rec s h)) (trigger (rec s h)) = false) /\
  (in_phase s PhaseReady h -> may_run (rec s h)).

Definition all_settled (s : scope) : Prop := forall h, settled s h.
