(* ===== verification/ScopeFacts.v ===== *)
(** * How the scheduling primitives of [Scope.v] act on the invariant *)
From S2P Require Import Prelude Types Config Heap HeapFacts Scope Topo TopoFacts Lease.
From S2P Require Import Invariant.

(** ** Reading a node after a write *)

Lemma rec_upd h f s x :
  rec (upd_rec h f s) x = if decide (x = h /\ h < size_ s) then f (rec s h) else rec s x.
Proof. unfold rec, upd_rec. simpl. apply lookup_total_alter. Qed.

Lemma rec_ge s h : size_ s <= h -> rec s h = zeroRec.
Proof. intros Hh. unfold rec. by rewrite list_lookup_total_alt, lookup_ge_None_2. Qed.

Lemma alive_lt s h : alive (rec s h) = true -> h < size_ s.
Proof.
  intros Ha. destruct (decide (h < size_ s)); [done|]. rewrite rec_ge in Ha by lia. done.
Qed.

Lemma live_alive s h : live s h <-> alive (rec s h) = true.
Proof. unfold live. split; [tauto|]. intros Ha. split; [by apply alive_lt|done]. Qed.

Lemma live_lt s h : live s h -> h < size_ s.
Proof. by intros []. Qed.

(** ** Parts of a state that most operations leave alone *)

(** The fields of a record that are set once, by [create]. *)
Definition fixed (r : nodeRec) :=
  (id r, kind r, payload r, labels r, retry r, priority r, trigger r, alive r, createdAt r).

Record same_graph (s s' : scope) : Prop := {
  sg_len : size_ s' = size_ s;
  sg_succ : s_succ s' = s_succ s;
  sg_pred : forall v, from <$> s_pred s' !!! v = from <$> s_pred s !!! v;
  sg_lens : length (s_pred s') = length (s_pred s) /\ length (s_deadline s') = length (s_deadline s)
            /\ length (s_readyAt s') = length (s_readyAt s) /\ length (s_fifo s') = length (s_fifo s);
  sg_ord : s_ord s' = s_ord s /\ s_nextOrd s' = s_nextOrd s;
  sg_index : s_index s' = s_index s /\ s_free s' = s_free s;
  sg_fixed : forall h, fixed (rec s' h) = fixed (rec s h);
  sg_dead : forall h, alive (rec s h) = false -> rec s' h = rec s h
}.

#[export] Instance same_graph_preorder : PreOrder same_graph.
Proof.
  split.
  - intros s. by split.
  - intros s1 s2 s3 [] []. split; try (intros; etrans; [eauto|]; by eauto).
    + destruct_and!. split_and!; congruence.
    + destruct_and!. split_and!; congruence.
    + destruct_and!. split_and!; congruence.
    + intros h Hh. rewrite sg_dead1; [by apply sg_dead0|]. by rewrite sg_dead0.
Qed.

Section SameGraph.
Context (s s' : scope) (Hs : same_graph s s').

Lemma sg_alive h : alive (rec s' h) = alive (rec s h).
Proof. pose proof (sg_fixed s s' Hs h) as E. unfold fixed in E. congruence. Qed.

Lemma sg_id h : id (rec s' h) = id (rec s h).
Proof. pose proof (sg_fixed s s' Hs h) as E. unfold fixed in E. congruence. Qed.

Lemma sg_kind h : kind (rec s' h) = kind (rec s h).
Proof. pose proof (sg_fixed s s' Hs h) as E. unfold fixed in E. congruence. Qed.

Lemma sg_trigger h : trigger (rec s' h) = trigger (rec s h).
Proof. pose proof (sg_fixed s s' Hs h) as E. unfold fixed in E. congruence. Qed.

Lemma sg_priority h : priority (rec s' h) = priority (rec s h).
Proof. pose proof (sg_fixed s s' Hs h) as E. unfold fixed in E. congruence. Qed.

Lemma sg_live h : live s' h <-> live s h.
Proof. rewrite !live_alive. by rewrite sg_alive. Qed.

Lemma sg_edge u v : edge s' u v <-> edge s u v.
Proof. unfold edge. by rewrite (sg_succ s s' Hs). Qed.

Lemma sg_rank h : rank s' h = rank s h.
Proof. unfold rank. by rewrite (proj1 (sg_ord s s' Hs)). Qed.

Lemma graph_inv_same : graph_inv s -> graph_inv s'.
Proof.
  intros [? ? ? ? ? ? Hi ? Hf Hd [G1 G2] [R1 R2 R3] ? ? Hn ?]. destruct (sg_lens s s' Hs) as (?&?&?&?).
  destruct (sg_index s s' Hs) as [Ei Ef]. destruct (sg_ord s s' Hs) as [Eo En].
  pose proof (sg_len s s' Hs). split; try congruence.
  - rewrite (sg_succ s s' Hs). congruence.
  - intros i h. rewrite Ei, sg_live, sg_id. apply Hi.
  - intros h. rewrite Ef, sg_alive. rewrite Hf. by rewrite (sg_len s s' Hs).
  - intros h. rewrite sg_alive. intros Ha. rewrite (sg_dead s s' Hs) by done. auto.
  - split; intros u v; rewrite sg_edge, ?sg_live; [apply G1|]. rewrite (sg_pred s s' Hs). apply G2.
  - split; [congruence|intros u v; rewrite sg_edge, !sg_rank; apply R2|].
    intros u v. rewrite !sg_live, !sg_rank. apply R3.
  - intros u. by rewrite (sg_succ s s' Hs).
  - intros v. by rewrite (sg_pred s s' Hs).
  - intros h. rewrite sg_live, sg_rank, En. apply Hn.
Qed.

End SameGraph.

(** A write to one live node that keeps the fields set at creation. *)
Definition keeps_fixed (f : nodeRec -> nodeRec) : Prop := forall r, fixed (f r) = fixed r.

Lemma upd_same_graph h f s : live s h -> keeps_fixed f -> same_graph s (upd_rec h f s).
Proof.
  intros Hl Hf. split; try done.
  - unfold upd_rec. simpl. by rewrite length_alter.
  - intros x. rewrite rec_upd. case_decide as E; [|done]. destruct E as [-> _]. apply Hf.
  - intros x Ha. rewrite rec_upd. case_decide as E; [|done]. destruct E as [-> _].
    destruct Hl as [_ Hl]. congruence.
Qed.

(** [s'] differs from [s] in the schedule of node [h] only. *)
Record touches (h : nat) (s s' : scope) : Prop := {
  th_graph : same_graph s s';
  th_rec : forall x, x <> h -> rec s' x = rec s x;
  th_pred : s_pred s' = s_pred s;
  th_deps : deps (rec s' h) = deps (rec s h);
  th_deadline : forall x, x <> h -> s_deadline s' !!! x = s_deadline s !!! x;
  th_epoch : s_epochFloor s' = s_epochFloor s;
  th_cfg : s_cfg s' = s_cfg s /\ s_sealed s' = s_sealed s;
  th_log : s_log s' = s_log s /\ s_logStart s' = s_logStart s /\ s_logCap s' = s_logCap s
           /\ s_cursor s' = s_cursor s /\ s_name s' = s_name s
}.

Lemma touches_intro h s s' f :
  live s h -> s_recs s' = alter f h (s_recs s) -> keeps_fixed f -> (forall r, deps (f r) = deps r) ->
  s_succ s' = s_succ s -> s_pred s' = s_pred s -> s_ord s' = s_ord s ->
  length (s_deadline s') = length (s_deadline s) -> length (s_readyAt s') = length (s_readyAt s) ->
  length (s_fifo s') = length (s_fifo s) ->
  s_nextOrd s' = s_nextOrd s -> s_index s' = s_index s -> s_free s' = s_free s ->
  s_epochFloor s' = s_epochFloor s -> s_cfg s' = s_cfg s -> s_sealed s' = s_sealed s ->
  s_log s' = s_log s -> s_logStart s' = s_logStart s -> s_logCap s' = s_logCap s ->
  s_cursor s' = s_cursor s -> s_name s' = s_name s ->
  (forall x, x <> h -> s_deadline s' !!! x = s_deadline s !!! x) ->
  touches h s s'.
Proof.
  intros Hl Hr Hf Hd **.
  assert (Hrec : forall x, rec s' x = if decide (x = h /\ h < size_ s) then f (rec s h) else rec s x).
  { intros x. unfold rec. rewrite Hr. apply lookup_total_alter. }
  split; [split| | |..]; try done.
  - by rewrite Hr, length_alter.
  - intros v. congruence.
  - split_and!; congruence.
  - intros x. rewrite Hrec. destruct (decide _) as [[-> _]|]; [apply Hf|done].
  - intros x Ha. rewrite Hrec. destruct (decide _) as [[-> _]|]; [|done].
    destruct Hl as [_ Hl]. congruence.
  - intros x Hx. rewrite Hrec. destruct (decide _) as [[-> _]|]; done.
  - rewrite Hrec. destruct (decide _); [apply Hd|done].
Qed.

Definition f_ready (r : nodeRec) := r <| phase := PhaseReady |> <| status := StatusNew |>.
Definition f_blocked (r : nodeRec) := r <| phase := PhaseBlocked |> <| status := StatusNew |>.
Definition f_scheduled (r : nodeRec) := r <| phase := PhaseScheduled |> <| status := StatusNew |>.
Definition f_finish (now : Z) (i : item) (r : nodeRec) :=
  r <| phase := PhaseDone |> <| status := i_status i |> <| reason := i_reason i |>
    <| message := i_msg i |> <| updatedAt := now |>.

Ltac touch f :=
  match goal with |- touches ?h ?s _ => apply (touches_intro h s _ f) end;
  try done; simpl; rewrite ?length_insert; try done;
  intros; by apply list_lookup_total_insert_ne.

Lemma makeReady_touches h s : live s h -> touches h s (makeReady h s).
Proof. intros Hl. touch f_ready. Qed.

Lemma makeBlocked_touches h s : live s h -> touches h s (makeBlocked h s).
Proof. intros Hl. touch f_blocked. Qed.

Lemma schedule_touches h a s : live s h -> touches h s (schedule h a s).
Proof. intros Hl. touch f_scheduled. Qed.

Lemma finish_touches now i s : live s (i_h i) -> touches (i_h i) s (finish now i s).
Proof. intros Hl. touch (f_finish now i). Qed.

(** ** The node written to *)

Section AtNode.
Context (s : scope) (h : nat) (Hl : live s h).

Lemma rec_alter s' f : s_recs s' = alter f h (s_recs s) -> rec s' h = f (rec s h).
Proof.
  intros E. unfold rec. rewrite E, lookup_total_alter, decide_True; [done|].
  split; [done|by apply live_lt].
Qed.

Lemma makeReady_rec : rec (makeReady h s) h = f_ready (rec s h).
Proof. by apply rec_alter. Qed.

Lemma makeBlocked_rec : rec (makeBlocked h s) h = f_blocked (rec s h).
Proof. by apply rec_alter. Qed.

Lemma schedule_rec a : rec (schedule h a s) h = f_scheduled (rec s h).
Proof. by apply rec_alter. Qed.

End AtNode.

Lemma finish_rec now i s : live s (i_h i) -> rec (finish now i s) (i_h i) = f_finish now i (rec s (i_h i)).
Proof. intros Hl. by apply rec_alter. Qed.

(** ** Counters *)

Lemma counter_bump b b' d st :
  counter b (bump b' d st) = if decide (b = b') then u64 (counter b st + d) else counter b st.
Proof. by destruct b, b'. Qed.

Lemma total_bump b d st : st_Total (bump b d st) = st_Total st.
Proof. by destruct b. Qed.

Lemma sealed_bump b d st : st_Sealed (bump b d st) = st_Sealed st.
Proof. by destruct b. Qed.

Lemma in_bucket_alive b r :
  alive r = true -> Nat.b2n (in_bucket b r) = if decide (b = bucket r) then 1 else 0.
Proof.
  intros Ha. unfold in_bucket. rewrite Ha. simpl.
  destruct (decide (b = bucket r)); [by rewrite bool_decide_eq_true_2|by rewrite bool_decide_eq_false_2].
Qed.

(** A node moves from one bucket to another. *)
Lemma stats_move h s s' f :
  live s h -> s_recs s' = alter f h (s_recs s) -> (forall r, alive (f r) = alive r) ->
  s_stats s' = bump (bucket (f (rec s h))) 1 (bump (bucket (rec s h)) (-1) (s_stats s)) ->
  s_sealed s' = s_sealed s -> stats_inv s -> stats_inv s'.
Proof.
  intros [Hlt Ha] Hr Hf Hst Hse [S1 S2 S3].
  assert (Hh : s_recs s !! h = Some (rec s h)) by (by apply list_lookup_lookup_total_lt).
  split.
  - rewrite Hst, !total_bump, S1, Hr. do 2 f_equal.
    pose proof (count_alter alive f (s_recs s) h _ Hh). rewrite Hf in H. lia.
  - intros b. rewrite Hst, !counter_bump, S2, Hr.
    pose proof (count_alter (in_bucket b) f (s_recs s) h _ Hh) as Hc.
    rewrite !in_bucket_alive in Hc by (rewrite ?Hf; done).
    destruct (decide (b = bucket (f (rec s h)))), (decide (b = bucket (rec s h))).
    all: rewrite ?u64_add_l, <- ?Z.add_assoc, ?u64_add_l; apply (f_equal u64); lia.
  - rewrite Hst, !sealed_bump. congruence.
Qed.

Lemma makeReady_stats h s : live s h -> stats_inv s -> stats_inv (makeReady h s).
Proof.
  intros Hl. apply (stats_move h s _ f_ready); try done.
  change (s_stats (makeReady h s)) with
    (bump (bucket (rec (upd_rec h f_ready s) h)) 1 (bump (bucket (rec s h)) (-1) (s_stats s))).
  by rewrite (rec_alter s h Hl _ f_ready).
Qed.

Lemma makeBlocked_stats h s : live s h -> stats_inv s -> stats_inv (makeBlocked h s).
Proof.
  intros Hl. apply (stats_move h s _ f_blocked); try done.
  change (s_stats (makeBlocked h s)) with
    (bump (bucket (rec (upd_rec h f_blocked s) h)) 1 (bump (bucket (rec s h)) (-1) (s_stats s))).
  by rewrite (rec_alter s h Hl _ f_blocked).
Qed.

Lemma schedule_stats h a s : live s h -> stats_inv s -> stats_inv (schedule h a s).
Proof.
  intros Hl. apply (stats_move h s _ f_scheduled); try done.
  change (s_stats (schedule h a s)) with
    (bump (bucket (rec (upd_rec h f_scheduled s) h)) 1 (bump (bucket (rec s h)) (-1) (s_stats s))).
  by rewrite (rec_alter s h Hl _ f_scheduled).
Qed.

Lemma finish_stats now i s : live s (i_h i) -> stats_inv s -> stats_inv (finish now i s).
Proof.
  intros Hl. apply (stats_move (i_h i) s _ (f_finish now i)); try done.
  change (s_stats (finish now i s)) with
    (bump (bucket (rec (upd_rec (i_h i) (f_finish now i) s) (i_h i))) 1
       (bump (bucket (rec s (i_h i))) (-1) (s_stats s))).
  by rewrite (rec_alter s _ Hl _ (f_finish now i)).
Qed.

(** * The scheduling primitives and the three kinds of heap

    Each primitive of [Scope.v] moves one node between phases and between the
    lease, retry and ready heaps.  [heap_at h l sc r s] describes the heaps
    while node [h] is on the move: every other node is where its phase says,
    and [l], [sc] and [r] say whether [h] itself is in the lease heap, the
    retry heap and the ready heap of its kind. *)

#[export] Instance less_leases_weak s : WeakOrder (less_leases s).
Proof. split; unfold less_leases; intros *; rewrite ?Z.ltb_lt, ?Z.ltb_ge; lia. Qed.

#[export] Instance less_scheduled_weak s : WeakOrder (less_scheduled s).
Proof. split; unfold less_scheduled; intros *; rewrite ?Z.ltb_lt, ?Z.ltb_ge; lia. Qed.

Lemma less_ready_true s a b :
  less_ready s a b = true <->
  (priority (rec s b) < priority (rec s a))%Z
  \/ (priority (rec s a) = priority (rec s b) /\ s_fifo s !!! a < s_fifo s !!! b)%Z.
Proof.
  unfold less_ready. destruct (Z.eqb_spec (priority (rec s a)) (priority (rec s b))); simpl;
    rewrite Z.ltb_lt; lia.
Qed.

Lemma less_ready_false s a b : less_ready s a b = false <-> ~ less_ready s a b = true.
Proof. by rewrite not_true_iff_false. Qed.

#[export] Instance less_ready_weak s : WeakOrder (less_ready s).
Proof. split; intros *; rewrite ?less_ready_false, ?less_ready_true; lia. Qed.

(** ** The heaps while one node is on the move *)

Definition at_or (h : nat) (q : Prop) (P : nat -> Prop) (x : nat) : Prop :=
  (x = h /\ q) \/ (x <> h /\ P x).

Definition heap_at (h : nat) (l sc r : Prop) (s : scope) : Prop :=
  heaps (at_or h l (in_phase s PhaseClaimed)) (at_or h sc (in_phase s PhaseScheduled))
    (fun k => at_or h (r /\ kind (rec s h) = k) (ready_in s k)) s.

Lemma heap_at_inv h s :
  heap_inv s <->
  heap_at h (in_phase s PhaseClaimed h) (in_phase s PhaseScheduled h) (in_phase s PhaseReady h) s.
Proof.
  unfold heap_inv, heap_at, ready_in.
  split; intros [H1 H2 H3]; split; try intros k; (eapply good_iff; [|done || apply H3]);
    intros x; unfold at_or; simpl; destruct (decide (x = h)) as [->|]; tauto.
Qed.

Lemma heap_at_iff h (l sc r l' sc' r' : Prop) s :
  (l <-> l') -> (sc <-> sc') -> (r <-> r') -> heap_at h l sc r s -> heap_at h l' sc' r' s.
Proof.
  intros El Es Er [H1 H2 H3]; split; try intros k; (eapply good_iff; [|done || apply H3]);
    intros x; unfold at_or; simpl; tauto.
Qed.

(** ** Moving the node in one heap *)

Section Good.
Context (less less' : nat -> nat -> bool) `{!WeakOrder less} `{!WeakOrder less'}.
Context (H : Heap) (h : nat) (q q' : Prop) (P : nat -> Prop).
Hypothesis Hagree : agree_off h less less'.
Hypothesis Hgood : good less H (at_or h q P).

Lemma good_at_keep : ~ q -> ~ q' -> good less' H (at_or h q' P).
Proof.
  intros Hq Hq'. apply (good_iff less' H (at_or h q P)).
  - intros x. unfold at_or. tauto.
  - eapply good_keep; [done..|]. unfold at_or. tauto.
Qed.

Lemma good_at_push : ~ q -> q' -> good less' (Pq.Push less' H h) (at_or h q' P).
Proof.
  intros Hq Hq'. eapply good_iff; [|eapply (good_push less less'); [done..|unfold at_or; tauto]].
  intros x. unfold at_or. destruct (decide (x = h)); simpl; tauto.
Qed.

Lemma good_at_remove : ~ q' -> good less' (fst (Pq.Remove less' H h)) (at_or h q' P).
Proof.
  intros Hq'. eapply good_iff; [|eapply (good_remove less less'); done].
  intros x. unfold at_or. simpl. tauto.
Qed.

End Good.

(** ** Orderings that differ only in the keys of one node *)

Lemma agree_leases h s s' v :
  s_deadline s' = <[h := v]> (s_deadline s) -> agree_off h (less_leases s) (less_leases s').
Proof.
  intros E a b Ha Hb. unfold less_leases. rewrite E.
  by rewrite !list_lookup_total_insert_ne by done.
Qed.

Lemma agree_scheduled h s s' v :
  s_readyAt s' = <[h := v]> (s_readyAt s) -> agree_off h (less_scheduled s) (less_scheduled s').
Proof.
  intros E a b Ha Hb. unfold less_scheduled. rewrite E.
  by rewrite !list_lookup_total_insert_ne by done.
Qed.

Lemma agree_ready h s s' :
  (forall x, x <> h -> rec s' x = rec s x) ->
  (forall x, x <> h -> s_fifo s' !!! x = s_fifo s !!! x) ->
  agree_off h (less_ready s) (less_ready s').
Proof. intros Er Ef a b Ha Hb. unfold less_ready. by rewrite !Er, !Ef. Qed.

Lemma readyHeap_insert s s' k0 X k :
  s_ready s' = <[k0 := X]> (s_ready s) ->
  readyHeap s' k = if decide (k = k0) then X else readyHeap s k.
Proof.
  intros E. unfold readyHeap. rewrite E. destruct (decide (k = k0)) as [->|].
  - by rewrite lookup_insert_eq.
  - by rewrite lookup_insert_ne.
Qed.

Lemma readyHeap_same s s' k : s_ready s' = s_ready s -> readyHeap s' k = readyHeap s k.
Proof. unfold readyHeap. by intros ->. Qed.

(** The ready heaps after a removal or an insertion in the heap of the node's kind. *)
Section Ready.
Context (s s' : scope) (h : nat) (r : Prop).
Let R (q : Prop) (k : string) : nat -> Prop := at_or h (q /\ kind (rec s h) = k) (ready_in s k).
Hypothesis Hrec : forall x, x <> h -> rec s' x = rec s x.
Hypothesis Hgood : forall k, good (less_ready s) (readyHeap s k) (R r k).

Lemma ready_at_remove :
  s_ready s' = <[kind (rec s h) := fst (Pq.Remove (less_ready s) (readyHeap s (kind (rec s h))) h)]> (s_ready s) ->
  s_fifo s' = s_fifo s -> forall k, good (less_ready s') (readyHeap s' k) (R False k).
Proof.
  intros E Ef k. assert (agree_off h (less_ready s) (less_ready s')).
  { apply agree_ready; [done|]. intros x _. by rewrite Ef. }
  rewrite (readyHeap_insert s s' _ _ k E). destruct (decide _) as [->|Hk].
  - eapply (good_at_keep _ _ _ _ False); [done| |tauto..].
    eapply (good_at_remove (less_ready s)); [apply _..|apply agree_off_refl|apply Hgood|tauto].
  - eapply good_at_keep; [done|apply Hgood| |tauto]. naive_solver.
Qed.

Lemma ready_at_push :
  s_ready s' = <[kind (rec s h) := Pq.Push (less_ready s') (readyHeap s (kind (rec s h))) h]> (s_ready s) ->
  (forall x, x <> h -> s_fifo s' !!! x = s_fifo s !!! x) -> ~ r ->
  forall k, good (less_ready s') (readyHeap s' k) (R True k).
Proof.
  intros E Ef Hr k. pose proof (agree_ready h s s' Hrec Ef).
  rewrite (readyHeap_insert s s' _ _ k E). destruct (decide _) as [->|Hk].
  - eapply (good_at_push (less_ready s)); [apply _|done|apply Hgood|tauto|done].
  - eapply good_at_keep; [done|apply Hgood|tauto|]. naive_solver.
Qed.

Lemma ready_at_keep q :
  s_ready s' = s_ready s -> s_fifo s' = s_fifo s -> ~ r -> ~ q ->
  forall k, good (less_ready s') (readyHeap s' k) (R q k).
Proof.
  intros E Ef Hr Hq k. rewrite (readyHeap_same s s' k E).
  eapply good_at_keep; [|apply Hgood|tauto|tauto].
  apply agree_ready; [done|]. intros x _. by rewrite Ef.
Qed.

End Ready.

(** ** The primitives *)

Lemma in_phase_other h s s' p x :
  touches h s s' -> x <> h -> in_phase s' p x <-> in_phase s p x.
Proof.
  intros T Hx. unfold in_phase. rewrite (sg_live s s' (th_graph h s s' T)).
  by rewrite (th_rec h s s' T).
Qed.

Lemma in_phase_self h s s' p : touches h s s' -> live s h -> in_phase s' p h <-> phase (rec s' h) = p.
Proof. intros T Hl. unfold in_phase. rewrite (sg_live s s' (th_graph h s s' T)). tauto. Qed.

(** The heaps after a step that moves [h], from the three heaps one by one. *)
Lemma heap_inv_intro h s s' (l sc r : Prop) :
  touches h s s' -> live s h ->
  (l <-> phase (rec s' h) = PhaseClaimed) -> (sc <-> phase (rec s' h) = PhaseScheduled) ->
  (r <-> phase (rec s' h) = PhaseReady) ->
  good (less_leases s') (s_leases s') (at_or h l (in_phase s PhaseClaimed)) ->
  good (less_scheduled s') (s_scheduled s') (at_or h sc (in_phase s PhaseScheduled)) ->
  (forall k, good (less_ready s') (readyHeap s' k) (at_or h (r /\ kind (rec s h) = k) (ready_in s k))) ->
  heap_inv s'.
Proof.
  intros T Hl El Es Er H1 H2 H3. apply (heap_at_inv h).
  assert (E : forall p (q : Prop) (x : nat), (q <-> phase (rec s' h) = p) ->
    at_or h q (in_phase s p) x <-> at_or h (in_phase s' p h) (in_phase s' p) x).
  { intros p q x Eq. unfold at_or. rewrite (in_phase_self h s s' p T Hl).
    destruct (decide (x = h)) as [->|Hx]; [tauto|]. by rewrite (in_phase_other h s s' p x T Hx), Eq. }
  split.
  - eapply good_iff; [|exact H1]. intros x. by apply E.
  - eapply good_iff; [|exact H2]. intros x. by apply E.
  - intros k. eapply good_iff; [|apply (H3 k)]. intros x. unfold at_or, ready_in.
    rewrite (in_phase_self h s s' _ T Hl), (sg_kind s s' (th_graph h s s' T)), Er.
    destruct (decide (x = h)) as [->|Hx]; [tauto|]. rewrite (in_phase_other h s s' _ x T Hx).
    by rewrite (th_rec h s s' T x Hx).
Qed.

Lemma less_ready_ext s s' :
  s_recs s = s_recs s' -> s_fifo s = s_fifo s' -> less_ready s = less_ready s'.
Proof. unfold less_ready, rec. by intros -> ->. Qed.

Lemma makeReady_ready s h :
  live s h ->
  s_ready (makeReady h s) =
  <[kind (rec s h) := Pq.Push (less_ready (makeReady h s)) (readyHeap s (kind (rec s h))) h]> (s_ready s).
Proof.
  intros Hl. assert (kind (rec (upd_rec h f_ready s) h) = kind (rec s h)) as <-.
  { by rewrite (rec_alter s h Hl _ f_ready). }
  rewrite (less_ready_ext (makeReady h s)
    ((upd_rec h f_ready s) <| s_fifo := <[h := u64 (s_nextFifo s + 1)]> (s_fifo s) |>)); reflexivity.
Qed.

Section Primitives.
Context (s : scope) (h : nat) (Hl : live s h) (l sc r : Prop).
Hypothesis Hh : heap_at h l sc r s.

Lemma makeReady_heaps : ~ l -> ~ r -> heap_inv (makeReady h s).
Proof.
  intros Hnl Hnr. destruct Hh as [H1 H2 H3]. pose proof (makeReady_touches h s Hl) as T.
  apply (heap_inv_intro h s _ False False True T Hl); rewrite ?makeReady_rec by done; try done.
  - eapply good_at_keep; [apply agree_off_refl|exact H1|done|tauto].
  - eapply (good_at_remove (less_scheduled s)); [apply _..| |exact H2|tauto]. by apply (agree_scheduled h _ _ 0%Z).
  - apply (ready_at_push s _ h r); [apply (th_rec h _ _ T)|done| |by intros; apply list_lookup_total_insert_ne|done].
    by apply makeReady_ready.
Qed.

Lemma makeBlocked_heaps : ~ l -> heap_inv (makeBlocked h s).
Proof.
  intros Hnl. destruct Hh as [H1 H2 H3]. pose proof (makeBlocked_touches h s Hl) as T.
  apply (heap_inv_intro h s _ False False False T Hl); rewrite ?makeBlocked_rec by done; try done.
  - eapply good_at_keep; [apply agree_off_refl|exact H1|done|tauto].
  - eapply (good_at_keep _ _ _ _ False); [by apply (agree_scheduled h s _ 0%Z)| |tauto..].
    eapply (good_at_remove (less_scheduled s)); [apply _..|apply agree_off_refl|exact H2|tauto].
  - by apply (ready_at_remove s _ h r); [apply (th_rec h _ _ T)|..].
Qed.

Lemma schedule_heaps a : ~ l -> ~ sc -> heap_inv (schedule h a s).
Proof.
  intros Hnl Hns. destruct Hh as [H1 H2 H3]. pose proof (schedule_touches h a s Hl) as T.
  apply (heap_inv_intro h s _ False True False T Hl); rewrite ?schedule_rec by done; try done.
  - eapply good_at_keep; [apply agree_off_refl|exact H1|done|tauto].
  - eapply (good_at_push (less_scheduled s)); [apply _| |exact H2|done|done].
    by apply (agree_scheduled h s _ a).
  - by apply (ready_at_remove s _ h r); [apply (th_rec h _ _ T)|..].
Qed.

Lemma leases_Remove_heaps :
  heap_at h False sc r ((leases_Remove h s) <| s_deadline ::= <[h := 0%Z]> |>).
Proof.
  destruct Hh as [H1 H2 H3]. split; [|exact H2|exact H3].
  eapply (good_at_keep _ _ _ _ False); [by apply (agree_leases h s _ 0%Z)| |tauto..].
  eapply (good_at_remove (less_leases s)); [apply _..|apply agree_off_refl|exact H1|tauto].
Qed.

End Primitives.

Lemma finish_heaps s i now l sc r :
  live s (i_h i) -> heap_at (i_h i) l sc r s -> heap_inv (finish now i s).
Proof.
  intros Hl [H1 H2 H3]. pose proof (finish_touches now i s Hl) as T. set (h := i_h i) in *.
  apply (heap_inv_intro h s _ False False False T Hl); unfold h; rewrite ?finish_rec by done; try done.
  - eapply (good_at_keep _ _ _ _ False); [by apply (agree_leases h s _ 0%Z)| |tauto..].
    eapply (good_at_remove (less_leases s)); [apply _..|apply agree_off_refl|exact H1|tauto].
  - eapply (good_at_keep _ _ _ _ False); [by apply (agree_scheduled h s _ 0%Z)| |tauto..].
    eapply (good_at_remove (less_scheduled s)); [apply _..|apply agree_off_refl|exact H2|tauto].
  - by apply (ready_at_remove s _ h r); [apply (th_rec h _ _ T)|..].
Qed.
