(* ===== verification/DepFacts.v ===== *)
(** * Writes that the invariant does not see

    [same_sched s s']: the two states agree on the phases, the heaps and the
    counters, so that [heap_inv], [status_inv] and [stats_inv] carry over; the
    edges and the tallies may differ.  [same_core s s']: they agree on
    everything the invariant speaks about but the event ring.  Recording an
    event, storing a worker's result or refreshing the completion flag are of
    the second kind. *)
From S2P Require Import Prelude Types Config Heap HeapFacts Scope Topo TopoFacts Invariant.
From S2P Require Import ScopeFacts.

(** What the scheduler's part of the invariant reads of a node. *)
Definition sview (r : nodeRec) := (fixed r, phase r, status r, reason r, attempt r).

Record same_sched (s s' : scope) : Prop := {
  ss_view : sview <$> s_recs s' = sview <$> s_recs s;
  ss_keys : s_deadline s' = s_deadline s /\ s_readyAt s' = s_readyAt s /\ s_fifo s' = s_fifo s;
  ss_heaps : s_ready s' = s_ready s /\ s_leases s' = s_leases s /\ s_scheduled s' = s_scheduled s;
  ss_total : st_Total (s_stats s') = st_Total (s_stats s);
  ss_counter : forall b, counter b (s_stats s') = counter b (s_stats s);
  ss_sealed : st_Sealed (s_stats s) = s_sealed s -> st_Sealed (s_stats s') = s_sealed s'
}.

#[export] Instance same_sched_preorder : PreOrder same_sched.
Proof.
  split.
  - intros s. by split.
  - intros s1 s2 s3 [] []. destruct_and!. split; try (intros; split_and?; congruence). naive_solver.
Qed.

Lemma sview_rec (l l' : list nodeRec) (h : nat) :
  sview <$> l' = sview <$> l -> sview (l' !!! h) = sview (l !!! h).
Proof.
  intros E. assert (E' : (sview <$> l') !! h = (sview <$> l) !! h) by congruence.
  rewrite !list_lookup_fmap in E'. rewrite !list_lookup_total_alt.
  destruct (l' !! h), (l !! h); simpl in *; congruence.
Qed.

Lemma count_sview P (l l' : list nodeRec) :
  (forall r r', sview r = sview r' -> P r = P r') -> sview <$> l' = sview <$> l ->
  count P l' = count P l.
Proof.
  intros HP. revert l'. induction l as [|r l IH]; intros [|r' l'] E; [done..|].
  assert (sview r' = sview r /\ sview <$> l' = sview <$> l) as [Ev El].
  { split; [by apply (f_equal head) in E as [= ?]; unfold sview, fixed; congruence|by apply (f_equal tail) in E]. }
  simpl. by rewrite (IH l' El), (HP r' r Ev).
Qed.

Section SameSched.
Context (s s' : scope) (Hc : same_sched s s').

Lemma ss_rec h : sview (rec s' h) = sview (rec s h).
Proof. apply sview_rec, Hc. Qed.

Lemma ss_len : size_ s' = size_ s.
Proof. pose proof (ss_view s s' Hc) as V. apply (f_equal length) in V. by rewrite !length_fmap in V. Qed.

Lemma ss_fixed h : fixed (rec s' h) = fixed (rec s h).
Proof. pose proof (ss_rec h) as E. unfold sview in E. congruence. Qed.

Lemma ss_phase h : phase (rec s' h) = phase (rec s h).
Proof. pose proof (ss_rec h) as E. unfold sview in E. congruence. Qed.

Lemma ss_status h : status (rec s' h) = status (rec s h).
Proof. pose proof (ss_rec h) as E. unfold sview in E. congruence. Qed.

Lemma ss_reason h : reason (rec s' h) = reason (rec s h).
Proof. pose proof (ss_rec h) as E. unfold sview in E. congruence. Qed.

Lemma ss_attempt h : attempt (rec s' h) = attempt (rec s h).
Proof. pose proof (ss_rec h) as E. unfold sview in E. congruence. Qed.

Lemma ss_kind h : kind (rec s' h) = kind (rec s h).
Proof. pose proof (ss_fixed h) as E. unfold fixed in E. congruence. Qed.

Lemma ss_priority h : priority (rec s' h) = priority (rec s h).
Proof. pose proof (ss_fixed h) as E. unfold fixed in E. congruence. Qed.

Lemma ss_alive h : alive (rec s' h) = alive (rec s h).
Proof. pose proof (ss_fixed h) as E. unfold fixed in E. congruence. Qed.

Lemma ss_retry h : retry (rec s' h) = retry (rec s h).
Proof. pose proof (ss_fixed h) as E. unfold fixed in E. congruence. Qed.

Lemma ss_trigger h : trigger (rec s' h) = trigger (rec s h).
Proof. pose proof (ss_fixed h) as E. unfold fixed in E. congruence. Qed.

Lemma ss_live h : live s' h <-> live s h.
Proof. rewrite !live_alive. by rewrite ss_alive. Qed.

Lemma ss_in_phase p h : in_phase s' p h <-> in_phase s p h.
Proof. unfold in_phase. by rewrite ss_live, ss_phase. Qed.

Lemma ss_heap_inv : heap_inv s -> heap_inv s'.
Proof.
  intros [H1 H2 H3]. destruct (ss_keys s s' Hc) as (Ed & Ea & Ef).
  destruct (ss_heaps s s' Hc) as (Er & El & Es). split.
  - rewrite El. unfold less_leases. rewrite Ed.
    eapply good_iff; [intros x; symmetry; apply ss_in_phase|exact H1].
  - rewrite Es. unfold less_scheduled. rewrite Ea.
    eapply good_iff; [intros x; symmetry; apply ss_in_phase|exact H2].
  - intros k. unfold readyHeap. rewrite Er. destruct (H3 k) as [W O M]. split; [done| |].
    + eapply heap_ord_ext; [|done]. intros a b _ _. unfold less_ready. by rewrite !ss_priority, Ef.
    + intros x. rewrite M. unfold ready_in. by rewrite ss_in_phase, ss_kind.
Qed.

Lemma ss_status_inv : status_inv s -> status_inv s'.
Proof.
  intros Hs h. rewrite ss_live. intros Hl%Hs.
  unfold status_ok, phase_ok, attempt_ok, in_limit in *. by rewrite ss_phase, ss_status, ss_reason, ss_attempt, ss_retry.
Qed.

Lemma ss_stats_inv : stats_inv s -> stats_inv s'.
Proof.
  intros [T B S]. split.
  - rewrite (ss_total s s' Hc), T. do 2 f_equal. symmetry. apply count_sview; [|apply Hc].
    intros r r' E. unfold sview, fixed in E. congruence.
  - intros b. rewrite (ss_counter s s' Hc), B. do 2 f_equal. symmetry. apply count_sview; [|apply Hc].
    intros r r' E. unfold sview, fixed in E. unfold in_bucket, bucket.
    injection E as _ _ _ _ _ _ _ E8 _ E10 E11 _ _. by rewrite E8, E10, E11.
  - by apply Hc.
Qed.

End SameSched.

Record same_core (s s' : scope) : Prop := {
  sc_sched : same_sched s s';
  sc_deps : forall h, deps (rec s' h) = deps (rec s h);
  sc_dead : forall h, alive (rec s h) = false -> rec s' h = rec s h;
  sc_adj : s_succ s' = s_succ s /\ s_pred s' = s_pred s;
  sc_ord : s_ord s' = s_ord s /\ s_nextOrd s' = s_nextOrd s;
  sc_index : s_index s' = s_index s /\ s_free s' = s_free s
}.

#[export] Instance same_core_preorder : PreOrder same_core.
Proof.
  split.
  - intros s. by split.
  - intros s1 s2 s3 [V1 P1 D1 A1 O1 I1] [V2 P2 D2 A2 O2 I2].
    split; [by etrans|congruence| |destruct_and!; split; congruence..].
    intros h Hd. rewrite D2; [by apply D1|]. by rewrite D1.
Qed.

Section SameCore.
Context (s s' : scope) (Hc : same_core s s').
Let Hs : same_sched s s' := sc_sched s s' Hc.

Lemma sc_same_graph : same_graph s s'.
Proof.
  destruct (ss_keys s s' Hs) as (K1 & K2 & K3). destruct (sc_adj s s' Hc) as [Es Ep].
  split; try apply Hc; try apply Es; [by apply ss_len|intros v; by rewrite Ep|by rewrite Ep, K1, K2, K3|].
  by apply ss_fixed.
Qed.

Lemma sc_graph_inv : graph_inv s -> graph_inv s'.
Proof. apply graph_inv_same, sc_same_graph. Qed.

Lemma sc_deps_of v : deps_of s' v = deps_of s v.
Proof.
  unfold deps_of. assert (E : forall d, dcount s' v d = dcount s v d); [|by rewrite !E].
  intros d. unfold dcount. rewrite (proj2 (sc_adj s s' Hc)). apply count_ext. intros e _.
  unfold eclass. by rewrite (ss_status s s' Hs), (ss_reason s s' Hs).
Qed.

Lemma sc_deps_inv : deps_inv s -> deps_inv s'.
Proof. intros Hd v. by rewrite sc_deps_of, <- Hd, (sc_deps s s' Hc). Qed.

Lemma sc_sat_inv pend : sat_inv pend s -> sat_inv pend s'.
Proof. intros Hp v e. rewrite (proj2 (sc_adj s s' Hc)), (ss_phase s s' Hs). apply Hp. Qed.

Lemma sc_settled h : settled s h -> settled s' h.
Proof.
  unfold settled, may_run.
  by rewrite !(ss_in_phase s s' Hs), (sc_deps s s' Hc), (ss_trigger s s' Hs), (ss_attempt s s' Hs).
Qed.

End SameCore.

(** ** A write to fields outside the view of one node *)

Lemma sview_alter (f : nodeRec -> nodeRec) (h : nat) (l : list nodeRec) :
  (forall r, sview (f r) = sview r) -> sview <$> alter f h l = sview <$> l.
Proof.
  intros Hf. apply list_eq. intros i. rewrite !list_lookup_fmap.
  destruct (decide (i = h)) as [->|]; [|by rewrite list_lookup_alter_ne].
  rewrite list_lookup_alter_eq. destruct (l !! h); simpl; [by rewrite Hf|done].
Qed.

Lemma upd_same_core h f s :
  live s h -> (forall r, sview (f r) = sview r) -> (forall r, deps (f r) = deps r) ->
  same_core s (upd_rec h f s).
Proof.
  intros Hl Hf Hd. split; try done.
  - split; try done. unfold upd_rec. simpl. by apply sview_alter.
  - intros x. rewrite rec_upd. destruct (decide _) as [[-> _]|]; [apply Hd|done].
  - intros x Hx. rewrite rec_upd. destruct (decide _) as [[-> _]|]; [|done].
    destruct Hl as [_ Hl]. congruence.
Qed.

(** ** The event ring *)

Record same_log (s s' : scope) : Prop := {
  sl_log : s_log s' = s_log s;
  sl_start : s_logStart s' = s_logStart s;
  sl_cap : s_logCap s' = s_logCap s;
  sl_cursor : s_cursor s' = s_cursor s;
  sl_name : s_name s' = s_name s
}.

Lemma log_inv_same s s' : same_log s s' -> log_inv s -> log_inv s'.
Proof.
  intros [E1 E2 E3 E4 E5] [L1 L2 L3 L4 L5].
  split; rewrite ?E1, ?E2, ?E3, ?E4, ?E5; done.
Qed.

Lemma touches_log h s s' : touches h s s' -> same_log s s'.
Proof. intros [_ _ _ _ _ _ _ H]. destruct_and!. by split. Qed.

Lemma appendLog_core ef s : same_core s (appendLog ef s).
Proof. unfold appendLog. by destruct (_ <=? _)%Z. Qed.

(** [appendLog] of the next cursor value. *)
Lemma appendLog_log ef s :
  log_inv s -> ef_Cursor ef = u64 (s_cursor s + 1) ->
  log_inv (appendLog ef (s <| s_cursor := ef_Cursor ef |>)).
Proof.
  intros [L1 L2 L3 L4 L5] Ec.
  assert (Ec' : ef_Cursor ef = u64 (s_logStart s + Z.of_nat (length (s_log s)))).
  { rewrite Ec, L4, u64_add_l. f_equal. lia. }
  set (e := event_of (s_name s) ef).
  assert (Hl : length (s_log s ++ [e]) = S (length (s_log s))) by (rewrite length_app; simpl; lia).
  assert (Hev : forall i e', (s_log s ++ [e]) !! i = Some e' ->
    ev_Cursor e' = u64 (s_logStart s + Z.of_nat i) /\ ev_Scope e' = s_name s /\ ev_Gap e' = false).
  { intros i e' [Hi|[? Hi]]%lookup_app_Some; [by apply L5|].
    apply list_lookup_singleton_Some in Hi as [? <-].
    split_and!; [|done..]. simpl. rewrite Ec'. f_equal. lia. }
  unfold appendLog. simpl. fold e. rewrite Hl.
  destruct (Z.leb_spec (2 * s_logCap s) (Z.of_nat (S (length (s_log s))))); split; simpl; rewrite ?Hl; try done.
  - rewrite length_take, length_drop, Hl. lia.
  - by rewrite u64_idemp.
  - rewrite Ec', length_take, length_drop, Hl, <- Z.add_sub_assoc, u64_add_l. f_equal. lia.
  - intros i e' [He' Hi]%lookup_take_Some. rewrite lookup_drop in He'. apply Hev in He'.
    destruct He' as (-> & ? & ?). split_and!; [|done..].
    rewrite u64_add_l. f_equal. lia.
  - rewrite Ec'. f_equal. lia.
Qed.

Lemma record_at_core now h k from s :
  live s h -> same_core s (fst (record_at now h k from s)).
Proof.
  intros Hl. unfold record_at. simpl. etrans; [|apply appendLog_core].
  etrans; [by apply (upd_same_core h (fun r => r <| seq_ ::= fun n => u64 (n + 1) |>))|]. by split.
Qed.

Lemma record_at_log now h k from s : log_inv s -> log_inv (fst (record_at now h k from s)).
Proof.
  intros Hi. unfold record_at. cbn [fst].
  match goal with |- log_inv (appendLog ?ef ?s') =>
    change s' with ((upd_rec h (fun r => r <| seq_ ::= fun n => u64 (n + 1) |>) s)
                      <| s_cursor := ef_Cursor ef |>) end.
  apply appendLog_log; [|done]. by eapply log_inv_same; [|exact Hi].
Qed.

(** * Dependency tallies

    [markSatisfied], [linkEdge] and [unlinkEdge] keep the stored counters of a
    node equal to what its incoming edges say ([deps_inv]) and the
    [satisfied] flags equal to the phase of the source ([sat_inv]). *)

(** ** [find_idx] *)

Section FindIdx.
Context {A : Type} (f : A -> bool).

Lemma find_idx_Some l i : find_idx f l = Some i -> exists x, l !! i = Some x /\ f x = true.
Proof.
  revert i. induction l as [|x l IH]; intros i; simpl; [done|].
  destruct (f x) eqn:E; [intros [= <-]; by exists x|].
  destruct (find_idx f l) as [j|]; simpl; [|done]. intros [= <-]. by apply IH.
Qed.

Lemma find_idx_None l : find_idx f l = None -> forall x, x ∈ l -> f x = false.
Proof.
  induction l as [|x l IH]; simpl; [set_solver|].
  destruct (f x) eqn:E; [done|]. destruct (find_idx f l); [done|]. intros _ y [->|Hy]%elem_of_cons; auto.
Qed.

Lemma find_idx_is_Some l x : x ∈ l -> f x = true -> is_Some (find_idx f l).
Proof.
  intros Hx Hf. destruct (find_idx f l) eqn:E; [by eexists|].
  by rewrite (find_idx_None l E x Hx) in Hf.
Qed.

End FindIdx.

(** ** Bounds: no counter of a node can wrap *)

Lemma NoDup_bound (l : list nat) n : NoDup l -> (forall x, x ∈ l -> x < n) -> length l <= n.
Proof.
  intros Hn Hb. rewrite <- (length_seq n 0). apply submseteq_length, NoDup_submseteq; [done|].
  intros x Hx%Hb. apply elem_of_seq. lia.
Qed.

Lemma pred_bound s v : graph_inv s -> length (s_pred s !!! v) <= size_ s.
Proof.
  intros Hg. rewrite <- (length_fmap from). apply NoDup_bound; [apply Hg|].
  intros u Hu. apply live_lt. by apply (gw_live s (gi_wf s Hg) u v), (gw_pred s (gi_wf s Hg)).
Qed.

Lemma dcount_bound s v d : graph_inv s -> (Z.of_nat (dcount s v d) <= 2 ^ 31)%Z.
Proof.
  intros Hg. pose proof (pred_bound s v Hg). pose proof (gi_small s Hg). unfold dcount.
  pose proof (count_le_length (fun e => bool_decide (eclass s e = d)) (s_pred s !!! v)). lia.
Qed.

(** ** Tallies as functions of the counts per class *)

Definition mk_counts (n : Dep -> nat) : DepCounts :=
  mkDeps (Z.of_nat (n DUnsat)) (Z.of_nat (n DSucc)) (Z.of_nat (n DSkip)) (Z.of_nat (n DFail)).

Definition small (n : Dep -> nat) : Prop := forall d, (Z.of_nat (n d) < 2 ^ 32 - 1)%Z.

Definition bump_class (d : Dep) (n : Dep -> nat) (x : Dep) : nat :=
  n x + Nat.b2n (bool_decide (d = x)).

Lemma class_of_cases st rs : class_of st rs = DSucc \/ class_of st rs = DSkip \/ class_of st rs = DFail.
Proof. unfold class_of. destruct (bool_decide _); [|destruct (bool_decide _)]; auto. Qed.

Lemma tally_counts st rs n n' :
  small n -> (forall x, n' x = bump_class (class_of st rs) n x) ->
  tally st rs (mk_counts n) = mk_counts n'.
Proof.
  intros Hs E. unfold tally, class_of, mk_counts, bump_class in *. rewrite !E. clear E.
  pose proof (Hs DSucc). pose proof (Hs DSkip). pose proof (Hs DFail).
  destruct (bool_decide (st = _)); [|destruct (bool_decide (rs = _))]; simpl;
    rewrite ?Nat.add_0_r; f_equal; rewrite u32_small; lia.
Qed.

Lemma untally_counts st rs n n' :
  small n -> (forall x, n x = bump_class (class_of st rs) n' x) ->
  untally st rs (mk_counts n) = mk_counts n'.
Proof.
  intros Hs E. pose proof (Hs DSucc). pose proof (Hs DSkip). pose proof (Hs DFail).
  unfold untally, class_of, mk_counts, bump_class, dec in *. rewrite !E in *. clear E Hs.
  destruct (bool_decide (st = _)); [|destruct (bool_decide (rs = _))]; simpl in *;
    rewrite ?Nat.add_0_r in *; f_equal; rewrite (proj2 (Z.ltb_lt _ _)) by lia; rewrite u32_small; lia.
Qed.

Lemma inc_unsat_counts n n' :
  small n -> (forall x, n' x = bump_class DUnsat n x) ->
  (mk_counts n) <| Unsatisfied ::= fun k => u32 (k + 1) |> = mk_counts n'.
Proof.
  intros Hs E. unfold mk_counts, bump_class in *. rewrite !E. pose proof (Hs DUnsat).
  simpl. rewrite ?Nat.add_0_r. f_equal. rewrite u32_small; lia.
Qed.

Lemma dec_unsat_counts n n' :
  small n -> (forall x, n x = bump_class DUnsat n' x) ->
  (mk_counts n) <| Unsatisfied ::= dec |> = mk_counts n'.
Proof.
  intros Hs E. pose proof (Hs DUnsat). unfold mk_counts, bump_class, dec in *. rewrite !E in *.
  simpl in *. rewrite ?Nat.add_0_r. f_equal. rewrite (proj2 (Z.ltb_lt _ _)) by lia. rewrite u32_small; lia.
Qed.

Lemma deps_of_counts s v : deps_of s v = mk_counts (dcount s v).
Proof. done. Qed.

Lemma dcount_small s v : graph_inv s -> small (dcount s v).
Proof. intros Hg d. pose proof (dcount_bound s v d Hg). lia. Qed.

(** The counts of a node whose edges and sources did not change. *)
Lemma dcount_same s s' v d :
  s_pred s' !!! v = s_pred s !!! v ->
  (forall e, e ∈ s_pred s !!! v -> eclass s' e = eclass s e) -> dcount s' v d = dcount s v d.
Proof. intros Ep Ee. unfold dcount. rewrite Ep. apply count_ext. intros e He. by rewrite Ee. Qed.

(** ** [markSatisfied] *)

(** Edges not yet resolved, over the whole graph. *)
Definition open_edges (s : scope) : nat := count (fun e => negb (satisfied e)) (concat (s_pred s)).

Lemma count_concat_alter {A} (P : A -> bool) f (l : list (list A)) i x :
  l !! i = Some x ->
  count P (concat (alter f i l)) + count P x = count P (concat l) + count P (f x).
Proof.
  revert i. induction l as [|y l IH]; intros [|i] Hi; simplify_eq/=.
  - rewrite !count_app. lia.
  - change (alter f (S i) (y :: l)) with (y :: alter f i l). simpl. rewrite !count_app.
    specialize (IH i Hi). lia.
Qed.

Definition drop_pend (p w : nat) (pend : nat -> nat -> Prop) : nat -> nat -> Prop :=
  fun u v => pend u v /\ ~ (u = p /\ v = w).

Definition resolve (e : predEdge) : predEdge := e <| satisfied := true |>.

Lemma from_alter (i : nat) (l : list predEdge) : from <$> alter resolve i l = from <$> l.
Proof.
  apply list_eq. intros j. rewrite !list_lookup_fmap. destruct (decide (j = i)) as [->|].
  - rewrite list_lookup_alter_eq. by destruct (l !! i).
  - by rewrite list_lookup_alter_ne.
Qed.

(** What [markSatisfied] leaves alone. *)
Record marked (w : nat) (s s' : scope) : Prop := {
  mk_graph : same_graph s s';
  mk_sched : same_sched s s';
  mk_log : same_log s s';
  mk_other : forall x, x <> w -> rec s' x = rec s x;
  mk_self : exists d, rec s' w = (rec s w) <| deps := d |>;
  mk_misc : s_epochFloor s' = s_epochFloor s /\ s_cfg s' = s_cfg s /\ s_sealed s' = s_sealed s;
  mk_pred : forall v, v <> w -> s_pred s' !!! v = s_pred s !!! v
}.

Lemma upd_rec_ext h f g s : (forall r, f r = g r) -> upd_rec h f s = upd_rec h g s.
Proof.
  intros E. unfold upd_rec. simpl. assert (alter f h (s_recs s) = alter g h (s_recs s)) as ->; [|done].
  by apply list_alter_ext.
Qed.

Definition set_deps (f : DepCounts -> DepCounts) (r : nodeRec) : nodeRec := r <| deps ::= f |>.

Definition mark (w i : nat) (f : DepCounts -> DepCounts) (s : scope) : scope :=
  upd_rec w (set_deps f) (s <| s_pred ::= alter (alter resolve i) w |>).

Lemma mark_pred w i f s v :
  s_pred (mark w i f s) !!! v =
  if decide (v = w /\ w < length (s_pred s)) then alter resolve i (s_pred s !!! w) else s_pred s !!! v.
Proof. apply (lookup_total_alter (alter resolve i)). Qed.

Lemma mark_rec w i f s x :
  rec (mark w i f s) x = if decide (x = w /\ w < size_ s) then set_deps f (rec s w) else rec s x.
Proof. apply (lookup_total_alter (set_deps f)). Qed.

Lemma mark_marked w i f s : live s w -> marked w s (mark w i f s).
Proof.
  intros Hl. split; [split|split| | | | |]; try done.
  - unfold mark. simpl. by rewrite length_alter.
  - intros v. rewrite mark_pred. destruct (decide _) as [[-> _]|]; [apply from_alter|done].
  - unfold mark. simpl. by rewrite length_alter.
  - intros x. rewrite mark_rec. by destruct (decide _) as [[-> _]|].
  - intros x Hx. rewrite mark_rec. destruct (decide _) as [[-> _]|]; [|done]. destruct Hl. congruence.
  - by apply (sview_alter (set_deps f)).
  - intros x Hx. rewrite mark_rec. by destruct (decide _) as [[-> _]|].
  - rewrite mark_rec, decide_True by (split; [done|by apply live_lt]). by eexists.
  - intros v Hv. rewrite mark_pred. by destruct (decide _) as [[-> _]|].
Qed.

Lemma dec_unsat d :
  (if (0 <? Unsatisfied d)%Z then d <| Unsatisfied ::= fun n => u32 (n - 1) |> else d)
  = d <| Unsatisfied ::= dec |>.
Proof. unfold dec. simpl. destruct d as [u ? ? ?]. simpl. by destruct (0 <? u)%Z. Qed.

Section Mark.
Context (s : scope) (pend : nat -> nat -> Prop) (w p : nat).
Hypothesis Hg : graph_inv s.
Hypothesis Hd : deps_inv s.
Hypothesis Hs : sat_inv pend s.
Hypothesis He : edge s p w.
Hypothesis Hp : pend p w.
Hypothesis Hdone : phase (rec s p) = PhaseDone.

Lemma mark_edge :
  exists i, find_idx (open_edge_from p) (s_pred s !!! w) = Some i /\
            s_pred s !!! w !! i = Some (mkPred p false).
Proof.
  apply (gw_pred s (gi_wf s Hg)), list_elem_of_fmap in He as (e & Ee & Hin).
  assert (satisfied e = false) as Hf.
  { destruct (satisfied e) eqn:E; [|done]. apply (Hs w e Hin) in E as [_ []]. by rewrite <- Ee. }
  destruct (find_idx_is_Some (open_edge_from p) _ e Hin) as [i Hi].
  { unfold open_edge_from. by rewrite <- Ee, Nat.eqb_refl, Hf. }
  exists i. split; [done|]. apply find_idx_Some in Hi as ([u b] & Hi & Ho).
  unfold open_edge_from in Ho. simpl in Ho. destruct b; [by rewrite andb_false_r in Ho|].
  rewrite andb_true_r in Ho. apply Nat.eqb_eq in Ho. by subst.
Qed.

Let st := status (rec s p).
Let rs := reason (rec s p).
Let f (d : DepCounts) : DepCounts := tally st rs (d <| Unsatisfied ::= dec |>).

Lemma mark_deps i :
  s_pred s !!! w !! i = Some (mkPred p false) -> deps_inv (mark w i f s).
Proof.
  intros Hi. assert (Hl : live s w) by (by apply (gw_live s (gi_wf s Hg) p w)).
  pose proof (live_lt s w Hl) as Hlt. pose proof (mark_marked w i f s Hl) as M.
  assert (Hec : forall e, eclass (mark w i f s) e = eclass s e).
  { intros e. unfold eclass. by rewrite (ss_status _ _ (mk_sched _ _ _ M)), (ss_reason _ _ (mk_sched _ _ _ M)). }
  intros v. destruct (decide (v = w)) as [->|Hv].
  2:{ rewrite (mk_other _ _ _ M) by done. rewrite Hd, !deps_of_counts. unfold mk_counts.
      by rewrite !(dcount_same s (mark w i f s) v) by (done || by apply (mk_pred _ _ _ M)). }
  rewrite mark_rec, decide_True by done. simpl. unfold f. rewrite Hd, !deps_of_counts.
  pose proof (dcount_small s w Hg) as Hsm.
  set (n1 := fun d => dcount s w d - Nat.b2n (bool_decide (DUnsat = d))).
  assert (Hn1 : forall x, dcount s w x = bump_class DUnsat n1 x).
  { intros x. unfold bump_class, n1. case_bool_decide; simpl; [|lia]. subst x.
    assert (0 < dcount s w DUnsat); [|lia]. eapply count_pos; [by apply list_elem_of_lookup; eexists|].
    by apply bool_decide_eq_true_2. }
  rewrite (dec_unsat_counts _ n1 Hsm Hn1). apply tally_counts.
  { intros d. pose proof (Hsm d). unfold n1. lia. }
  intros x. unfold dcount at 1. rewrite mark_pred, decide_True by (by rewrite (gi_pred s Hg)).
  rewrite (count_ext _ (fun e => bool_decide (eclass s e = x))) by (intros; by rewrite Hec).
  pose proof (count_alter (fun e => bool_decide (eclass s e = x)) resolve _ _ _ Hi) as Hc.
  fold (dcount s w x) in Hc. rewrite Hn1 in Hc. unfold bump_class, eclass in *. simpl in Hc.
  fold st rs in Hc. lia.
Qed.

Lemma mark_sat i :
  s_pred s !!! w !! i = Some (mkPred p false) -> sat_inv (drop_pend p w pend) (mark w i f s).
Proof.
  intros Hi. assert (Hl : live s w) by (by apply (gw_live s (gi_wf s Hg) p w)).
  pose proof (mark_marked w i f s Hl) as M. intros v e.
  rewrite (ss_phase _ _ (mk_sched _ _ _ M)), mark_pred. unfold drop_pend.
  destruct (decide _) as [[-> _]|Hv].
  - intros [j Hj]%list_elem_of_lookup. destruct (decide (j = i)) as [->|Hji].
    + rewrite list_lookup_alter_eq, Hi in Hj. simplify_eq/=. tauto.
    + rewrite list_lookup_alter_ne in Hj by done.
      assert (from e <> p) as Hne.
      { intros Ee. apply Hji. eapply (NoDup_lookup (from <$> s_pred s !!! w)); [apply Hg|..];
          rewrite list_lookup_fmap; [by rewrite Hj|rewrite Hi; by subst]. }
      rewrite (Hs w e) by (apply list_elem_of_lookup; by eexists). tauto.
  - intros Hin. rewrite (Hs v e Hin). assert (v <> w); [|tauto].
    intros ->. apply Hv. split; [done|]. rewrite (gi_pred s Hg). by apply live_lt.
Qed.

Lemma mark_open i :
  s_pred s !!! w !! i = Some (mkPred p false) -> open_edges s = S (open_edges (mark w i f s)).
Proof.
  intros Hi. assert (Hl : live s w) by (by apply (gw_live s (gi_wf s Hg) p w)).
  assert (Hw : s_pred s !! w = Some (s_pred s !!! w)).
  { apply list_lookup_lookup_total_lt. rewrite (gi_pred s Hg). by apply live_lt. }
  pose proof (count_concat_alter (fun e => negb (satisfied e)) (alter resolve i) _ _ _ Hw) as H1.
  pose proof (count_alter (fun e => negb (satisfied e)) resolve _ _ _ Hi) as H2.
  unfold open_edges. simpl in *. lia.
Qed.

(** The first unsatisfied edge from a terminated predecessor resolves. *)
Lemma markSatisfied_ok :
  exists s', markSatisfied w p st rs s = (s', true) /\ marked w s s' /\ deps_inv s' /\
             sat_inv (drop_pend p w pend) s' /\ open_edges s = S (open_edges s') /\
             (0 < Unsatisfied (deps (rec s w)))%Z.
Proof.
  destruct mark_edge as (i & Hf & Hi). exists (mark w i f s). split_and!.
  - unfold markSatisfied. rewrite Hf. f_equal. apply upd_rec_ext.
    intros r. pose proof (dec_unsat (deps r)) as E. unfold set_deps, f. simpl in *. by rewrite E.
  - apply mark_marked. by apply (gw_live s (gi_wf s Hg) p w).
  - by apply mark_deps.
  - by apply mark_sat.
  - by apply mark_open.
  - rewrite Hd. simpl. enough (0 < dcount s w DUnsat) by lia. unfold dcount.
    apply (count_pos _ _ (mkPred p false)); [by eapply list_elem_of_lookup_2|done].
Qed.

End Mark.
