(* ===== verification/Evolve.v ===== *)
(** * How one step changes a scope

    [evolves s s']: the graph is the same, a terminal node keeps its outcome,
    and no fence, attempt counter or configuration moves.  Every primitive of
    [Scope.v] is such a step, and keeps the invariant. *)
From S2P Require Import Prelude Types Config Heap HeapFacts Scope Topo TopoFacts Invariant.
From S2P Require Import ScopeFacts DepFacts.

(** What a terminal node never changes. *)
Definition outcome (r : nodeRec) := (phase r, status r, reason r, message r, result_ r).

Record evolves (s s' : scope) : Prop := {
  ev_graph : same_graph s s';
  ev_done : forall h, phase (rec s h) = PhaseDone -> outcome (rec s' h) = outcome (rec s h);
  ev_claimed : forall h, phase (rec s' h) = PhaseClaimed -> phase (rec s h) = PhaseClaimed;
  ev_epoch : forall h, epoch (rec s' h) = epoch (rec s h);
  ev_attempt : forall h, attempt (rec s' h) = attempt (rec s h);
  ev_floor : s_epochFloor s' = s_epochFloor s;
  ev_cfg : s_cfg s' = s_cfg s /\ s_sealed s' = s_sealed s /\ s_name s' = s_name s
           /\ s_logCap s' = s_logCap s
}.

#[export] Instance evolves_preorder : PreOrder evolves.
Proof.
  split; [by split|].
  intros s1 s2 s3 [G1 D1 K1 E1 A1 F1 C1] [G2 D2 K2 E2 A2 F2 C2].
  split; try (destruct_and!; split_and?; congruence); [| |by auto].
  - by etrans.
  - intros h Hh. rewrite D2; [by apply D1|]. specialize (D1 h Hh). unfold outcome in D1. congruence.
Qed.

Section Evolves.
Context (s s' : scope) (He : evolves s s').

Lemma ev_live h : live s' h <-> live s h.
Proof. apply sg_live, He. Qed.

Lemma ev_edge u v : edge s' u v <-> edge s u v.
Proof. apply sg_edge, He. Qed.

Lemma ev_trigger h : trigger (rec s' h) = trigger (rec s h).
Proof. apply (sg_trigger s s'), He. Qed.

Lemma ev_phase_done h : phase (rec s h) = PhaseDone -> phase (rec s' h) = PhaseDone.
Proof. intros Hh. pose proof (ev_done s s' He h Hh) as E. unfold outcome in E. congruence. Qed.

End Evolves.

(** ** Leases *)

(** A claim on [x] in [s] is still held, with its deadline, in [s']. *)
Definition holds (s s' : scope) (x : nat) : Prop :=
  phase (rec s x) = PhaseClaimed ->
  phase (rec s' x) = PhaseClaimed /\ worker (rec s' x) = worker (rec s x) /\
  s_deadline s' !!! x = s_deadline s !!! x.

Lemma holds_refl s x : holds s s x.
Proof. done. Qed.

Lemma holds_trans s1 s2 s3 x : holds s1 s2 x -> holds s2 s3 x -> holds s1 s3 x.
Proof.
  intros H1 H2 Hp. destruct (H1 Hp) as (P1 & W1 & D1). destruct (H2 P1) as (P2 & W2 & D2).
  split_and!; congruence.
Qed.

(** ** One node moves *)

(** The part of a record that only a grant changes. *)
Definition fence (r : nodeRec) := (epoch r, attempt r).

Lemma touches_evolves h s s' :
  touches h s s' -> phase (rec s h) <> PhaseDone -> fence (rec s' h) = fence (rec s h) ->
  (phase (rec s' h) = PhaseClaimed -> phase (rec s h) = PhaseClaimed) -> evolves s s'.
Proof.
  intros [G R P D _ F C L] Hn Hf Hc. destruct_and!. unfold fence in Hf. simplify_eq.
  assert (Hx : forall x, x = h \/ rec s' x = rec s x) by (intros x; destruct (decide (x = h)); auto).
  split; try done.
  - intros x Hd. by destruct (Hx x) as [-> | ->].
  - intros x. by destruct (Hx x) as [-> | ->].
  - intros x. by destruct (Hx x) as [-> | ->].
  - intros x. by destruct (Hx x) as [-> | ->].
Qed.

Lemma touches_holds h s s' x : touches h s s' -> x <> h -> holds s s' x.
Proof.
  intros T Hx Hp. rewrite (th_rec h s s' T), (th_deadline h s s' T) by done. done.
Qed.

Section Move.
Context (h : nat) (s s' : scope) (T : touches h s s').
Hypothesis Hn : phase (rec s h) <> PhaseDone.

Lemma touches_eclass pend v e : sat_inv pend s -> e ∈ s_pred s !!! v -> eclass s' e = eclass s e.
Proof.
  intros Hs He. unfold eclass. destruct (satisfied e) eqn:E; [|done].
  apply (Hs v e He) in E as [Ed _]. rewrite (th_rec h s s' T); [done|]. congruence.
Qed.

Lemma touches_deps pend : sat_inv pend s -> deps_inv s -> deps_inv s'.
Proof.
  intros Hs Hd v. assert (deps (rec s' v) = deps (rec s v)) as ->.
  { destruct (decide (v = h)) as [->|]; [apply T|by rewrite (th_rec h s s' T)]. }
  rewrite Hd, !deps_of_counts. unfold mk_counts.
  assert (E : forall d, dcount s' v d = dcount s v d); [|by rewrite !E].
  intros d. apply dcount_same; [by rewrite (th_pred h s s' T)|]. intros e. by apply (touches_eclass pend).
Qed.

Lemma touches_sat pend : phase (rec s' h) <> PhaseDone -> sat_inv pend s -> sat_inv pend s'.
Proof.
  intros Hn' Hs v e. rewrite (th_pred h s s' T). intros He. rewrite (Hs v e He).
  destruct (decide (from e = h)) as [->|]; [tauto|by rewrite (th_rec h s s' T)].
Qed.

Lemma touches_sat_done :
  phase (rec s' h) = PhaseDone -> sat_inv none_pending s -> sat_inv (fun u _ => u = h) s'.
Proof.
  intros Hd Hs v e. rewrite (th_pred h s s' T). intros He. rewrite (Hs v e He). unfold none_pending.
  destruct (decide (from e = h)) as [->|]; [tauto|rewrite (th_rec h s s' T) by done; tauto].
Qed.

Lemma touches_status : status_ok (rec s' h) -> status_inv s -> status_inv s'.
Proof.
  intros Hok Hs x. rewrite (sg_live _ _ (th_graph h s s' T)). intros Hx.
  destruct (decide (x = h)) as [->|]; [done|]. rewrite (th_rec h s s' T) by done. by apply Hs.
Qed.

Lemma touches_base pend :
  phase (rec s' h) <> PhaseDone -> status_ok (rec s' h) -> stats_inv s' ->
  base_inv pend s -> base_inv pend s'.
Proof.
  intros Hn' Hok Hst [G D S Q _ L]. split; try done.
  - apply (graph_inv_same s); [apply T|done].
  - by apply (touches_deps pend).
  - by apply touches_sat.
  - by apply touches_status.
  - eapply log_inv_same; [by eapply touches_log|done].
Qed.

Lemma touches_base_done :
  phase (rec s' h) = PhaseDone -> status_ok (rec s' h) -> stats_inv s' ->
  base_inv none_pending s -> base_inv (fun u _ => u = h) s'.
Proof.
  intros Hn' Hok Hst [G D S Q _ L]. split; try done.
  - apply (graph_inv_same s); [apply T|done].
  - by apply (touches_deps none_pending).
  - by apply touches_sat_done.
  - by apply touches_status.
  - eapply log_inv_same; [by eapply touches_log|done].
Qed.

(** Whether any other node is rightly blocked does not change. *)
Lemma touches_settled x : x <> h -> settled s x -> settled s' x.
Proof.
  intros Hx. unfold settled. rewrite !(in_phase_other h s s' _ x T Hx). by rewrite (th_rec h s s' T).
Qed.

End Move.

Lemma base_inv_iff pend pend' s :
  (forall v e, e ∈ s_pred s !!! v -> pend (from e) v <-> pend' (from e) v) ->
  base_inv pend s -> base_inv pend' s.
Proof.
  intros E [G D S Q T L]. split; try done. intros v e He. rewrite (S v e He). by rewrite (E v e He).
Qed.

(** ** Writes to the heaps and their keys alone *)

Record same_data (s s' : scope) : Prop := {
  sd_recs : s_recs s' = s_recs s;
  sd_graph : same_graph s s';
  sd_pred : s_pred s' = s_pred s;
  sd_stats : s_stats s' = s_stats s /\ s_sealed s' = s_sealed s;
  sd_log : same_log s s';
  sd_misc : s_epochFloor s' = s_epochFloor s /\ s_cfg s' = s_cfg s
}.

Section SameData.
Context (s s' : scope) (Hd : same_data s s').

Lemma sd_rec h : rec s' h = rec s h.
Proof. unfold rec. by rewrite (sd_recs s s' Hd). Qed.

Lemma sd_base pend : base_inv pend s -> base_inv pend s'.
Proof.
  intros [G D S Q [T1 T2 T3] L]. destruct (sd_stats s s' Hd) as [E1 E2]. split.
  - eapply graph_inv_same; [apply Hd|done].
  - intros v. rewrite sd_rec, D, !deps_of_counts. unfold mk_counts.
    assert (E : forall d, dcount s' v d = dcount s v d); [|by rewrite !E].
    intros d. apply dcount_same; [by rewrite (sd_pred s s' Hd)|]. intros e _. unfold eclass. by rewrite sd_rec.
  - intros v e. rewrite (sd_pred s s' Hd), sd_rec. apply S.
  - intros h. rewrite (sg_live _ _ (sd_graph s s' Hd)), sd_rec. apply Q.
  - split; [by rewrite E1, (sd_recs s s' Hd)|intros b; by rewrite E1, (sd_recs s s' Hd)|congruence].
  - eapply log_inv_same; [apply Hd|done].
Qed.

Lemma sd_evolves : evolves s s'.
Proof.
  destruct Hd as [R G P [_ S] L [M1 M2]]. split; try done; try (intros h; by rewrite sd_rec).
  split_and!; try done; apply L.
Qed.

Lemma sd_settled x : settled s x -> settled s' x.
Proof. unfold settled, in_phase. by rewrite (sg_live _ _ (sd_graph s s' Hd)), !sd_rec. Qed.

End SameData.

(** ** Primitives *)

Lemma status_ok_move r r' :
  attempt r' = attempt r -> phase_ok r' ->
  (phase r' = PhaseScheduled \/ phase r' = PhaseClaimed -> (0 < attempt r)%Z) ->
  in_limit r' -> status_ok r -> status_ok r'.
Proof. intros E Hp Ha Hl [_ [Hr _]]. split; [done|]. unfold attempt_ok. by rewrite E. Qed.

Lemma in_limit_move r r' :
  attempt r' = attempt r -> retry r' = retry r ->
  (phase r' = PhaseDone \/ (phase r <> PhaseClaimed /\ phase r <> PhaseDone)) -> in_limit r -> in_limit r'.
Proof.
  unfold in_limit. intros -> -> Hp Hl Hm. specialize (Hl Hm).
  destruct Hp as [Hp|Hp]; repeat case_bool_decide; try tauto; lia.
Qed.

Lemma makeReady_base pend h s :
  live s h -> phase (rec s h) <> PhaseDone -> phase (rec s h) <> PhaseClaimed ->
  base_inv pend s -> base_inv pend (makeReady h s).
Proof.
  intros Hl Hn Hc Hb. eapply (touches_base h s); try done.
  - by apply makeReady_touches.
  - by rewrite makeReady_rec.
  - rewrite makeReady_rec by done. pose proof (bi_status _ _ Hb h Hl) as Hok.
    apply (status_ok_move (rec s h)); [done|done|by intros [] | |done].
    apply (in_limit_move (rec s h)); [done|done|by right|apply Hok].
  - apply makeReady_stats; [done|apply Hb].
Qed.

Lemma makeBlocked_base pend h s :
  live s h -> phase (rec s h) <> PhaseDone -> phase (rec s h) <> PhaseClaimed ->
  base_inv pend s -> base_inv pend (makeBlocked h s).
Proof.
  intros Hl Hn Hc Hb. eapply (touches_base h s); try done.
  - by apply makeBlocked_touches.
  - by rewrite makeBlocked_rec.
  - rewrite makeBlocked_rec by done. pose proof (bi_status _ _ Hb h Hl) as Hok.
    apply (status_ok_move (rec s h)); [done|done|by intros [] | |done].
    apply (in_limit_move (rec s h)); [done|done|by right|apply Hok].
  - apply makeBlocked_stats; [done|apply Hb].
Qed.

Lemma schedule_base pend h a s :
  live s h -> phase (rec s h) <> PhaseDone -> (0 < attempt (rec s h))%Z ->
  in_limit (f_scheduled (rec s h)) -> base_inv pend s -> base_inv pend (schedule h a s).
Proof.
  intros Hl Hn Ha Hli Hb. eapply (touches_base h s); try done.
  - by apply schedule_touches.
  - by rewrite schedule_rec.
  - rewrite schedule_rec by done. apply (status_ok_move (rec s h)); [done|done|done|done|by apply (bi_status _ _ Hb)].
  - apply schedule_stats; [done|apply Hb].
Qed.

(** The outcomes [terminate] is called with. *)
Definition item_ok (s : scope) (i : item) : Prop :=
  live s (i_h i) /\ ((i_status i = StatusSuccess /\ i_reason i = ReasonNone) \/ i_status i = StatusError).

Lemma finish_base now i s :
  item_ok s i -> phase (rec s (i_h i)) <> PhaseDone -> base_inv none_pending s ->
  base_inv (fun u _ => u = i_h i) (finish now i s).
Proof.
  intros [Hl Hi] Hn Hb. eapply (touches_base_done (i_h i) s); try done.
  - by apply finish_touches.
  - by rewrite finish_rec.
  - rewrite finish_rec by done. pose proof (bi_status _ _ Hb _ Hl) as Hok.
    apply (status_ok_move (rec s (i_h i))); [done|done|by intros [] | |done].
    apply (in_limit_move (rec s (i_h i))); [done|done|by left|apply Hok].
  - apply finish_stats; [done|apply Hb].
Qed.

Lemma record_base pend now h k from s :
  live s h -> base_inv pend s -> base_inv pend (fst (record_at now h k from s)).
Proof.
  intros Hl [G D S Q T L]. pose proof (record_at_core now h k from s Hl) as Hc. split.
  - by eapply sc_graph_inv.
  - by eapply sc_deps_inv.
  - by eapply sc_sat_inv.
  - eapply ss_status_inv; [apply Hc|done].
  - eapply ss_stats_inv; [apply Hc|done].
  - by apply record_at_log.
Qed.

Lemma record_heap now h k from s :
  live s h -> heap_inv s -> heap_inv (fst (record_at now h k from s)).
Proof. intros Hl. apply ss_heap_inv. by apply record_at_core. Qed.

Lemma appendLog_rec ef s x : rec (appendLog ef s) x = rec s x.
Proof. unfold appendLog. by destruct (_ <=? _)%Z. Qed.

Lemma record_at_rec now h k from s x :
  rec (fst (record_at now h k from s)) x =
  if decide (x = h /\ h < size_ s) then (rec s h) <| seq_ ::= fun n => u64 (n + 1) |> else rec s x.
Proof.
  unfold record_at. cbn [fst]. rewrite appendLog_rec.
  apply (rec_upd h (fun r => r <| seq_ ::= fun n => u64 (n + 1) |>) s x).
Qed.

Lemma record_evolves now h k from s : live s h -> evolves s (fst (record_at now h k from s)).
Proof.
  intros Hl. split.
  - by apply sc_same_graph, record_at_core.
  - intros x _. rewrite record_at_rec. by destruct (decide _) as [[-> _]|].
  - intros x. rewrite record_at_rec. by destruct (decide _) as [[-> _]|].
  - intros x. rewrite record_at_rec. by destruct (decide _) as [[-> _]|].
  - intros x. rewrite record_at_rec. by destruct (decide _) as [[-> _]|].
  - unfold record_at, appendLog. simpl. by destruct (_ <=? _)%Z.
  - unfold record_at, appendLog. simpl. by destruct (_ <=? _)%Z.
Qed.

Lemma record_holds now h k from s x : live s h -> holds s (fst (record_at now h k from s)) x.
Proof.
  intros Hl. unfold holds. destruct (ss_keys _ _ (sc_sched _ _ (record_at_core now h k from s Hl))) as (-> & _).
  rewrite record_at_rec. by destruct (decide _) as [[-> _]|].
Qed.
