(* ===== verification/Terminate.v ===== *)
(** * The fan-out of a terminated node

    [terminate] ends one node and everything its outcome ends in turn.  The
    loop keeps the invariant, spends one unit of fuel per queued item, and
    leaves every node it was asked to end terminal and every blocked node
    rightly blocked. *)
From S2P Require Import Prelude Types Config Heap HeapFacts Scope Topo TopoFacts Invariant.
From S2P Require Import ScopeFacts DepFacts Evolve.

(** ** Small facts about one node *)

Lemma evolves_marked w s s' : marked w s s' -> evolves s s'.
Proof.
  intros [G S L O [d D] M P]. destruct_and!.
  assert (Hx : forall x, rec s' x = rec s x \/ exists d, rec s' x = (rec s x) <| deps := d |>).
  { intros x. destruct (decide (x = w)) as [->|]; [right; by exists d|left; by apply O]. }
  split; try done; try (intros h; by destruct (Hx h) as [->|[? ->]]).
  split_and!; try done; apply L.
Qed.

Lemma marked_holds w s s' x : marked w s s' -> holds s s' x.
Proof.
  intros [G S L O [d D] M P]. unfold holds. destruct (ss_keys s s' S) as (-> & _).
  destruct (decide (x = w)) as [->|]; [by rewrite D|by rewrite O].
Qed.

Lemma marked_base pend pend' w s s' :
  marked w s s' -> deps_inv s' -> sat_inv pend' s' -> base_inv pend s -> base_inv pend' s'.
Proof.
  intros M D' S' [G D S Q T L]. split; try done.
  - eapply graph_inv_same; [apply M|done].
  - eapply ss_status_inv; [apply M|done].
  - eapply ss_stats_inv; [apply M|done].
  - eapply log_inv_same; [apply M|done].
Qed.

Lemma marked_settled w s s' x : marked w s s' -> x <> w -> settled s x -> settled s' x.
Proof.
  intros M Hx. unfold settled. rewrite !(ss_in_phase s s' (mk_sched w s s' M)).
  by rewrite (mk_other w s s' M).
Qed.

Lemma settled_phase s x : phase (rec s x) <> PhaseBlocked -> phase (rec s x) <> PhaseReady -> settled s x.
Proof. intros H1 H2. by split; intros []. Qed.

Lemma settled_done s x : phase (rec s x) = PhaseDone -> settled s x.
Proof. intros H. apply settled_phase; congruence. Qed.

Lemma settled_may_run s x : phase (rec s x) = PhaseReady -> may_run (rec s x) -> settled s x.
Proof. intros H1 H2. split; [|done]. intros []. congruence. Qed.

(** A ready node that may run has no open edge to be resolved, unless its rule
    is [TriggerAlways]. *)
Lemma settled_marked w s s' :
  marked w s s' -> phase (rec s w) = PhaseReady -> live s w -> (0 < Unsatisfied (deps (rec s w)))%Z ->
  settled s w -> settled s' w.
Proof.
  intros M Hp Hl Hu [_ Hr]. destruct (mk_self w s s' M) as [d Ed].
  apply settled_may_run; [by rewrite Ed|]. specialize (Hr (conj Hl Hp)). unfold may_run in *. rewrite Ed. simpl.
  intros Ha. specialize (Hr Ha). unfold Ready in *.
  destruct (bool_decide (trigger (rec s w) = TriggerAlways)); [done|].
  by rewrite (proj2 (Z.ltb_lt _ _) Hu) in Hr.
Qed.

Lemma settled_rec s s' x :
  rec s' x = rec s x -> settled s x -> settled s' x.
Proof.
  unfold settled, in_phase. rewrite !live_alive. by intros ->.
Qed.

Lemma open_edges_same s s' : s_pred s' = s_pred s -> open_edges s' = open_edges s.
Proof. unfold open_edges. by intros ->. Qed.

Lemma record_pred now h k from s : s_pred (fst (record_at now h k from s)) = s_pred s.
Proof. unfold record_at, appendLog. simpl. by destruct (_ <=? _)%Z. Qed.

Lemma record_settled now h k from s x :
  live s h -> settled s x -> settled (fst (record_at now h k from s)) x.
Proof. intros Hl. by apply sc_settled, record_at_core. Qed.

Section Clocked.
Context {C : Type} `{!ClockSource C}.

Lemma record_spec h k from (c c' : C) s s' ef :
  record h k from c s = (c', s', ef) ->
  exists now, s' = fst (record_at now h k from s) /\ ef = snd (record_at now h k from s).
Proof.
  unfold record. destruct (clk_Now c) as [now c1].
  destruct (record_at now h k from s) as [s1 ef1] eqn:E. intros [= <- <- <-]. exists now. by rewrite E.
Qed.

(** ** Waking one node *)

(** [makeReady] followed by the event, as in [notify], [settle] and
    [promoteScheduled]. *)
Lemma wake_ok pend w k from (c c' : C) s s' ef l sc :
  record w k from c (makeReady w s) = (c', s', ef) ->
  live s w -> phase (rec s w) <> PhaseDone -> phase (rec s w) <> PhaseClaimed ->
  base_inv pend s -> heap_at w l sc False s -> ~ l ->
  base_inv pend s' /\ heap_inv s' /\ evolves s s' /\ s_pred s' = s_pred s /\
  phase (rec s' w) = PhaseReady /\ deps (rec s' w) = deps (rec s w) /\ (forall x, x <> w -> rec s' x = rec s x) /\
  (forall x, x <> w -> holds s s' x).
Proof.
  intros (now & -> & _)%record_spec Hl Hn Hc Hb Hh Hnl.
  pose proof (makeReady_touches w s Hl) as T.
  assert (Hl' : live (makeReady w s) w) by (by apply (sg_live _ _ (th_graph w _ _ T))).
  split_and!.
  - by apply record_base, makeReady_base.
  - apply record_heap; [done|]. apply (makeReady_heaps s w Hl l sc False Hh); tauto.
  - etrans; [|by apply record_evolves]. eapply touches_evolves; [done..| |]; by rewrite makeReady_rec.
  - by rewrite record_pred, (th_pred w _ _ T).
  - rewrite record_at_rec, decide_True by (split; [done|by apply live_lt]). by rewrite makeReady_rec.
  - rewrite record_at_rec, decide_True by (split; [done|by apply live_lt]). by rewrite makeReady_rec.
  - intros x Hx. rewrite record_at_rec, decide_False by tauto. by apply (th_rec w _ _ T).
  - intros x Hx. eapply holds_trans; [by eapply touches_holds|by apply record_holds].
Qed.

Lemma heap_at_phase w s p :
  heap_inv s -> phase (rec s w) = p -> p <> PhaseClaimed -> p <> PhaseReady ->
  exists sc, heap_at w False sc False s.
Proof.
  intros Hh Hp H1 H2. exists (in_phase s PhaseScheduled w).
  eapply heap_at_iff; [| | |by apply (heap_at_inv w)]; unfold in_phase; naive_solver.
Qed.

(** ** One successor *)

Record notified (w : nat) (s s' : scope) (q extra : list item) : Prop := {
  nf_evolves : evolves s s';
  nf_heap : heap_inv s';
  nf_open : length extra + open_edges s' <= open_edges s;
  nf_items : Forall (item_ok s') extra;
  nf_free : forall x, x ∈ i_h <$> extra -> phase (rec s' x) <> PhaseClaimed;
  nf_holds : forall x, holds s s' x;
  nf_settled : forall x, settled s x -> settled s' x \/ x ∈ i_h <$> extra
}.

Lemma notify_ok pend p w (c c' : C) s s' q q' out out' :
  notify p (status (rec s p)) (reason (rec s p)) w c s q out = (c', s', q', out') ->
  base_inv pend s -> heap_inv s -> edge s p w -> pend p w -> phase (rec s p) = PhaseDone ->
  exists extra, q' = q ++ extra /\ notified w s s' q extra /\ base_inv (drop_pend p w pend) s'.
Proof.
  intros E Hb Hh He Hp Hd.
  destruct (markSatisfied_ok s pend w p) as (s1 & Em & M & D1 & S1 & O1 & U1); try done; try apply Hb.
  assert (Hl : live s w) by (by apply (gw_live s (gi_wf s (bi_graph _ _ Hb)) p w)).
  assert (Hl1 : live s1 w) by (by apply (sg_live s s1 (mk_graph w s s1 M))).
  pose proof (marked_base _ _ w s s1 M D1 S1 Hb) as Hb1.
  pose proof (ss_heap_inv s s1 (mk_sched w s s1 M) Hh) as Hh1.
  assert (Hset : forall x, x <> w -> settled s x -> settled s1 x) by (intros; by eapply marked_settled).
  assert (Hquiet : forall x, (settled s w -> settled s1 w) -> settled s x -> settled s1 x).
  { intros x Hw Hx. destruct (decide (x = w)) as [->|]; auto. }
  unfold notify in E. rewrite Em in E. simpl in E.
  pose proof (evolves_marked w s s1 M) as Ev.
  assert (Hkeep : (settled s w -> settled s1 w) -> (c, s1, q, out) = (c', s', q', out') ->
    exists extra, q' = q ++ extra /\ notified w s s' q extra /\ base_inv (drop_pend p w pend) s').
  { intros Hw [= <- <- <- <-]. exists []. rewrite app_nil_r. split_and!; [done| |done].
    split; [done|done|simpl; lia|done|set_solver|intros; by apply (marked_holds w)|
            intros x Hx; left; by apply Hquiet]. }
  destruct (phase (rec s1 w)) eqn:Ep; try (by apply Hkeep; [intros _; apply settled_phase; congruence|]).
  all: destruct (Unsatisfiable (deps (rec s1 w)) (trigger (rec s1 w))) eqn:Eu.
  1,3: simplify_eq; exists [mkItem w StatusError (TerminalReason (deps (rec s' w)))
         (terminalMessage (TerminalReason (deps (rec s' w))))]; split_and!; [done| |done];
       split; simpl; [done|done|lia|by apply Forall_singleton; split; [|right]
         |intros x ->%list_elem_of_singleton; congruence|intros; by apply (marked_holds w)|];
       intros x Hx; destruct (decide (x = w)) as [->|]; [right; by left|left; auto].
  all: destruct (Ready (deps (rec s1 w)) (trigger (rec s1 w))) eqn:Er; simpl in E.
  - destruct (record w EventReady StatusNew c (makeReady w s1)) as [[c2 s2] ef] eqn:E2. simplify_eq.
    destruct (heap_at_phase w s1 PhaseBlocked Hh1 Ep) as [sc Hat]; [done..|].
    eapply wake_ok in E2 as (W1 & W2 & W3 & W4 & W5 & Wd & W6 & W7); [|done|congruence|congruence|done|exact Hat|tauto].
    assert (settled s' w).
    { apply settled_may_run; [done|]. intros _. by rewrite Wd, (ev_trigger _ _ W3). }
    exists []. rewrite app_nil_r. split_and!; [done| |done]. split; [by etrans|done| |done|set_solver| |].
    + rewrite (open_edges_same s1 s' W4). simpl. lia.
    + intros x. eapply holds_trans; [by apply (marked_holds w)|].
      destruct (decide (x = w)) as [->|]; [intros ?; congruence|auto].
    + intros x Hx. left. destruct (decide (x = w)) as [->|]; [done|].
      apply (settled_rec s1); auto.
  - apply Hkeep; [|done]. intros _. split; [done|]. intros []. congruence.
  - apply Hkeep; [|done]. intros _. apply settled_may_run; [done|by intros _].
  - apply Hkeep; [|done]. apply settled_marked; [done| |done|done]. by rewrite <- (ss_phase _ _ (mk_sched _ _ _ M)).
Qed.

(** ** All successors *)

(** The edges out of [p] into [ws] are still to be resolved. *)
Definition pend_to (p : nat) (ws : list nat) (u v : nat) : Prop := u = p /\ v ∈ ws.

Record fanned (X : nat -> Prop) (s s' : scope) (extra : list item) : Prop := {
  fa_holds : forall x, ~ X x -> holds s s' x;
  fa_evolves : evolves s s';
  fa_heap : heap_inv s';
  fa_base : base_inv none_pending s';
  fa_open : length extra + open_edges s' <= open_edges s;
  fa_items : Forall (item_ok s') extra;
  fa_free : forall x, x ∈ i_h <$> extra -> phase (rec s' x) <> PhaseClaimed;
  fa_settled : forall x, settled s x -> settled s' x \/ x ∈ i_h <$> extra
}.

Lemma item_ok_evolves s s' l : evolves s s' -> Forall (item_ok s) l -> Forall (item_ok s') l.
Proof.
  intros He Hf. eapply Forall_impl; [exact Hf|]. intros i [Hl Hi]. split; [|done].
  by apply (ev_live s s' He).
Qed.

Lemma notify_all_ok p ws : forall (c c' : C) s s' st rs q q' out out',
  notify_all p st rs ws c s q out = (c', s', q', out') ->
  status (rec s p) = st -> reason (rec s p) = rs -> phase (rec s p) = PhaseDone ->
  NoDup ws -> (forall w, w ∈ ws -> edge s p w) -> base_inv (pend_to p ws) s -> heap_inv s ->
  exists extra, q' = q ++ extra /\ fanned (fun _ => False) s s' extra.
Proof.
  induction ws as [|w ws IH]; intros c c' s s' st rs q q' out out' E Est Ers Hd Hnd Hed Hb Hh; simpl in E.
  - simplify_eq. exists []. rewrite app_nil_r. split; [done|]. split; try done; [|set_solver|by left].
    eapply base_inv_iff; [|exact Hb]. unfold pend_to, none_pending. set_solver.
  - destruct (notify p st rs w c s q out) as [[[c1 s1] q1] out1] eqn:E1. subst st rs.
    apply NoDup_cons in Hnd as [Hw Hnd].
    eapply (notify_ok (pend_to p (w :: ws))) in E1 as (x1 & -> & N & Hb1); try done;
      [|apply Hed; by left|split; [done|by left]].
    pose proof (nf_evolves _ _ _ _ _ N) as Ev. pose proof (ev_done _ _ Ev p Hd) as Eo.
    unfold outcome in Eo.
    apply IH in E as (x2 & -> & F); try (congruence || done).
    + exists (x1 ++ x2). rewrite app_assoc. split; [done|]. destruct F, N. split; try done.
      * intros x Hx. eapply holds_trans; auto.
      * by etrans.
      * rewrite length_app. lia.
      * apply Forall_app. split; [by eapply item_ok_evolves|done].
      * intros x. rewrite fmap_app, elem_of_app. intros [Hx|Hx]; [|auto].
        intros Hc%(ev_claimed _ _ fa_evolves0). by apply (nf_free0 x).
      * intros x Hx. rewrite fmap_app, elem_of_app.
        destruct (nf_settled0 x Hx) as [H|H]; [destruct (fa_settled0 x H)|]; auto.
    + intros x Hx. apply (ev_edge _ _ Ev), Hed. by right.
    + eapply base_inv_iff; [|exact Hb1]. intros v e _. unfold drop_pend, pend_to. set_solver.
    + apply N.
Qed.

(** ** One iteration of the loop *)

(** The outcome a queued item gives its node. *)
Definition item_outcome (i : item) (r : nodeRec) := (PhaseDone, i_status i, i_reason i, i_msg i, result_ r).

Lemma outcome_done r i r' : outcome r = item_outcome i r' -> phase r = PhaseDone.
Proof. unfold outcome, item_outcome. congruence. Qed.

(** [s'] is [s] after node [it] ended and its successors were told. *)
Lemma end_node_ok it now from (c c' c'' : C) s s1 s' ef q q' out out' l sc r :
  record (i_h it) EventTransition from c (finish now it s) = (c', s1, ef) ->
  notify_all (i_h it) (status (rec s1 (i_h it))) (reason (rec s1 (i_h it))) (s_succ s1 !!! i_h it)
    c' s1 q out = (c'', s', q', out') ->
  item_ok s it -> phase (rec s (i_h it)) <> PhaseDone ->
  base_inv none_pending s -> heap_at (i_h it) l sc r s ->
  outcome (rec s' (i_h it)) = item_outcome it (rec s (i_h it)) /\
  exists extra, q' = q ++ extra /\ fanned (eq (i_h it)) s s' extra.
Proof.
  intros (nw & -> & _)%record_spec En Hi Hn Hb Hh. set (h := i_h it) in *.
  set (s0 := finish now it s) in *. set (s1 := fst (record_at nw h EventTransition from s0)) in *.
  assert (Hl : live s h) by apply Hi. pose proof (finish_touches now it s Hl) as T. fold h s0 in T.
  assert (Hl0 : live s0 h) by (by apply (sg_live _ _ (th_graph _ _ _ T))).
  assert (Ev0 : evolves s s0).
  { eapply touches_evolves; [done..| |]; unfold s0, h; by rewrite finish_rec. }
  assert (Ev1 : evolves s0 s1) by (by apply record_evolves).
  assert (Hd0 : phase (rec s0 h) = PhaseDone) by (unfold s0, h; by rewrite finish_rec).
  assert (Hb1 : base_inv (fun u _ => u = h) s1) by (by apply record_base, finish_base).
  assert (Hd1 : phase (rec s1 h) = PhaseDone) by (by apply (ev_phase_done s0 s1 Ev1)).
  eapply notify_all_ok in En as (extra & -> & F); try done.
  - split.
    { rewrite (ev_done s1 s' (fa_evolves _ _ _ _ F) h Hd1), (ev_done s0 s1 Ev1 h Hd0).
      unfold s0, h. by rewrite finish_rec. }
    exists extra. split; [done|].
    assert (Eo : open_edges s1 = open_edges s).
    { apply open_edges_same. unfold s1. by rewrite record_pred, (th_pred _ _ _ T). }
    destruct F. split; try done; [|etrans; [done|]; by etrans|lia|].
    { intros x Hx. eapply holds_trans; [eapply touches_holds; [done|by intros ->]|].
      eapply holds_trans; [by apply (record_holds nw h EventTransition from)|]. apply fa_holds0. tauto. }
    intros x Hx. apply fa_settled0. apply record_settled; [done|].
    destruct (decide (x = h)) as [->|]; [apply settled_phase; congruence|].
    by apply (touches_settled h s s0 T).
  - apply (gi_nodup_s s1). apply Hb1.
  - eapply base_inv_iff; [|exact Hb1]. intros v e He. unfold pend_to. split; [|tauto]. intros <-.
    split; [done|]. apply (gw_pred s1 (gi_wf s1 (bi_graph _ _ Hb1))), list_elem_of_fmap. by exists e.
  - apply record_heap; [done|]. by apply (finish_heaps s it now l sc r).
Qed.

(** ** The loop *)

(** What [terminate] guarantees, for a queue of items. *)
Record ended (hs : list nat) (s s' : scope) : Prop := {
  en_evolves : evolves s s';
  en_inv : inv s';
  en_holds : forall x, x ∉ hs -> holds s s' x;
  en_done : forall h, h ∈ hs -> phase (rec s' h) = PhaseDone;
  en_settled : forall x, settled s x -> settled s' x
}.

Lemma terminate_loop_ok fuel : forall q (c c' : C) s s' out out',
  terminate_loop fuel q c s out = (c', s', out') ->
  inv s -> Forall (item_ok s) q -> length q + open_edges s <= fuel -> ended (i_h <$> q) s s'.
Proof.
  induction fuel as [|fuel IH]; intros q c c' s s' out out' E Hi Hq Hf; simpl in E.
  { destruct q; [|simpl in Hf; lia]. simplify_eq. split; [done|done|done|set_solver|done]. }
  destruct q as [|it q]; [simplify_eq; split; [done|done|done|set_solver|done]|].
  apply Forall_cons in Hq as [Hit Hq]. assert (Ha : alive (rec s (i_h it)) = true) by (by destruct Hit as [[]]).
  rewrite Ha in E. simpl in E. destruct (bool_decide (phase (rec s (i_h it)) = PhaseDone)) eqn:Ed.
  - apply bool_decide_eq_true in Ed. apply IH in E as [H1 H2 H5 H3 H4]; [|done..|simpl in Hf; lia].
    split; [done|done|intros x Hx; apply H5; set_solver| |done].
    intros h. rewrite fmap_cons. intros [->|Hh]%elem_of_cons; [|by apply H3].
    by apply (ev_phase_done s s' H1).
  - apply bool_decide_eq_false in Ed. destruct (clk_Now c) as [now c1].
    destruct (record _ _ _ c1 _) as [[c2 s1] ef] eqn:E1.
    destruct (notify_all _ _ _ _ _ _ _ _) as [[[c3 s2] q2] out2] eqn:E2.
    destruct Hi as [Hb Hh].
    eapply end_node_ok in E2 as (Hd%outcome_done & extra & -> & F); try done; [|by apply heap_at_inv].
    apply IH in E as [H1 H2 H5 H3 H4].
    + split; [etrans; [apply F|done]|done| | |].
      * intros x Hx. rewrite fmap_cons, not_elem_of_cons in Hx. destruct Hx as [Hx1 Hx2].
        assert (H' : holds s s2 x) by (apply F; congruence).
        intros Hc. destruct (H' Hc) as (Hc2 & _). eapply holds_trans; [exact H'|apply H5|done].
        rewrite fmap_app, not_elem_of_app. split; [done|]. intros Hx. by apply (fa_free _ _ _ _ F x).
      * intros h. rewrite fmap_cons, fmap_app in *. intros [->|Hh']%elem_of_cons.
        -- by apply (ev_phase_done s2 s' H1).
        -- apply H3. apply elem_of_app. by left.
      * intros x Hx. destruct (fa_settled _ _ _ _ F x Hx) as [|He]; [by apply H4|].
        apply settled_done, H3. rewrite fmap_app. apply elem_of_app. by right.
    + split; apply F.
    + apply Forall_app. split; [eapply item_ok_evolves; [apply F|done]|apply F].
    + rewrite length_app. simpl in Hf. pose proof (fa_open _ _ _ _ F). lia.
Qed.

(** With that much fuel the loop ends because its queue is empty: more fuel
    changes nothing. *)
Lemma terminate_loop_more fuel k : forall q (c : C) s out,
  inv s -> Forall (item_ok s) q -> length q + open_edges s <= fuel ->
  terminate_loop (fuel + k) q c s out = terminate_loop fuel q c s out.
Proof.
  induction fuel as [|fuel IH]; intros q c s out Hi Hq Hf.
  { destruct q; [|simpl in Hf; lia]. simpl. by destruct k. }
  simpl. destruct q as [|it q]; [done|].
  apply Forall_cons in Hq as [Hit Hq]. assert (Ha : alive (rec s (i_h it)) = true) by (by destruct Hit as [[]]).
  rewrite Ha. simpl. destruct (bool_decide (phase (rec s (i_h it)) = PhaseDone)) eqn:Ed.
  - apply IH; [done..|simpl in Hf; lia].
  - apply bool_decide_eq_false in Ed. destruct (clk_Now c) as [now c1].
    destruct (record _ _ _ c1 _) as [[c2 s1] ef] eqn:E1.
    destruct (notify_all _ _ _ _ _ _ _ _) as [[[c3 s2] q2] out2] eqn:E2.
    destruct Hi as [Hb Hh].
    eapply end_node_ok in E2 as (_ & extra & -> & F); try done; [|by apply heap_at_inv].
    apply IH.
    + split; apply F.
    + apply Forall_app. split; [eapply item_ok_evolves; [apply F|done]|apply F].
    + rewrite length_app. simpl in Hf. pose proof (fa_open _ _ _ _ F). lia.
Qed.

(** The fuel [terminate] passes is enough. *)
Lemma terminate_fuel_enough s : S (open_edges s) <= terminate_fuel s.
Proof.
  unfold open_edges, terminate_fuel.
  pose proof (count_le_length (fun e => negb (satisfied e)) (concat (s_pred s))). lia.
Qed.

Lemma terminate_done h st rs msg (c : C) s out :
  phase (rec s h) = PhaseDone -> terminate h st rs msg c s out = (c, s, out).
Proof.
  intros Hd. unfold terminate. remember (terminate_fuel s) as n eqn:En. unfold terminate_fuel in En.
  destruct n as [|n]; [done|]. simpl. rewrite (bool_decide_eq_true_2 _ Hd), orb_true_r. by destruct n.
Qed.

Lemma terminate_ok h st rs msg (c c' : C) s s' out out' l sc r :
  terminate h st rs msg c s out = (c', s', out') ->
  item_ok s (mkItem h st rs msg) -> phase (rec s h) <> PhaseDone ->
  base_inv none_pending s -> heap_at h l sc r s ->
  ended [h] s s' /\ outcome (rec s' h) = (PhaseDone, st, rs, msg, result_ (rec s h)).
Proof.
  intros E Hi Hn Hb Hh. pose proof (terminate_fuel_enough s) as Hf. unfold terminate in E.
  destruct (terminate_fuel s) as [|n]; [lia|]. simpl in E.
  assert (Ha : alive (rec s h) = true) by (by destruct Hi as [[]]).
  rewrite Ha, (bool_decide_eq_false_2 _ Hn) in E. simpl in E. destruct (clk_Now c) as [now c1].
  destruct (record _ _ _ c1 _) as [[c2 s1] ef] eqn:E1.
  destruct (notify_all _ _ _ _ _ _ _ _) as [[[c3 s2] q2] out2] eqn:E2.
  eapply (end_node_ok (mkItem h st rs msg)) in E2 as (Ho & extra & -> & F); try done.
  pose proof (outcome_done _ _ _ Ho) as Hd. simpl in Hd, Ho. apply terminate_loop_ok in E as [H1 H2 H5 H3 H4].
  - split; [split; [etrans; [apply F|done]|done| | |]|by rewrite (ev_done s2 s' H1 h Hd)].
    + intros x [Hx _]%not_elem_of_cons. assert (H' : holds s s2 x) by (apply F; simpl; congruence).
      intros Hc. destruct (H' Hc) as (Hc2 & _). eapply holds_trans; [exact H'|apply H5|done].
      intros Hx'. by apply (fa_free _ _ _ _ F x).
    + intros x ->%list_elem_of_singleton. by apply (ev_phase_done s2 s' H1).
    + intros x Hx. destruct (fa_settled _ _ _ _ F x Hx) as [|He]; [by apply H4|].
      by apply settled_done, H3.
  - split; apply F.
  - apply F.
  - pose proof (fa_open _ _ _ _ F). simpl. lia.
Qed.

(** Called in a state between operations. *)
Lemma terminate_inv h st rs msg (c c' : C) s s' out out' :
  terminate h st rs msg c s out = (c', s', out') ->
  item_ok s (mkItem h st rs msg) -> inv s -> ended [h] s s'.
Proof.
  intros E Hi [Hb Hh]. destruct (decide (phase (rec s h) = PhaseDone)) as [Hd|Hn].
  - rewrite terminate_done in E by done. simplify_eq. split; [done|done|done|set_solver|done].
  - by destruct (terminate_ok _ _ _ _ _ _ _ _ _ _ _ _ _ E Hi Hn Hb (proj1 (heap_at_inv h s) Hh)).
Qed.

End Clocked.

(** * Settling nodes and releasing retries

    [settle] brings one node to the phase its tallies ask for; what it does to
    the rest of the scope is [terminate]'s doing.  [promoteScheduled] empties
    the retry heap of the nodes that are due. *)

(** A step of the whole scope between two states with the invariant, which
    revokes no lease but those on [X]. *)
Record step_ok (X : nat -> Prop) (s s' : scope) : Prop := {
  so_evolves : evolves s s';
  so_inv : inv s';
  so_settled : forall x, settled s x -> settled s' x;
  so_holds : forall x, ~ X x -> holds s s' x
}.

Definition nobody : nat -> Prop := fun _ => False.

Lemma step_ok_refl X s : inv s -> step_ok X s s.
Proof. by split. Qed.

Lemma step_ok_trans X s1 s2 s3 : step_ok X s1 s2 -> step_ok X s2 s3 -> step_ok X s1 s3.
Proof. intros [] []. split; [by etrans|done|auto|]. intros x Hx. eapply holds_trans; auto. Qed.

Lemma step_ok_weaken (X Y : nat -> Prop) s s' : (forall x, X x -> Y x) -> step_ok X s s' -> step_ok Y s s'.
Proof. intros Hxy []. split; auto. Qed.

Lemma ended_step hs s s' : ended hs s s' -> step_ok (fun x => x ∈ hs) s s'.
Proof. intros []. by split. Qed.

Lemma ended_free h s s' : ended [h] s s' -> phase (rec s h) <> PhaseClaimed -> step_ok nobody s s'.
Proof.
  intros [? ? Hh ? ?] Hp. split; try done. intros x _. destruct (decide (x = h)) as [->|]; [done|].
  apply Hh. by rewrite list_elem_of_singleton.
Qed.

Section Clocked.
Context {C : Type} `{!ClockSource C}.

Lemma wake_step w k from (c c' : C) s s' ef l sc :
  record w k from c (makeReady w s) = (c', s', ef) ->
  live s w -> phase (rec s w) <> PhaseDone -> phase (rec s w) <> PhaseClaimed ->
  base_inv none_pending s -> heap_at w l sc False s -> ~ l -> may_run (rec s w) ->
  step_ok (eq w) s s' /\ settled s' w /\ phase (rec s' w) = PhaseReady /\ (forall x, x <> w -> rec s' x = rec s x).
Proof.
  intros E Hl Hn Hc Hb Hh Hnl Hrun.
  eapply wake_ok in E as (W1 & W2 & W3 & W4 & W5 & Wd & W6 & W7); try done.
  assert (Hs : settled s' w).
  { apply settled_may_run; [done|]. unfold may_run. by rewrite Wd, (ev_trigger _ _ W3), (ev_attempt _ _ W3). }
  split_and!; [|done|done|done]. split; [done|by split| |by auto]. intros x Hx.
  destruct (decide (x = w)) as [->|]; [done|].
  apply (settled_rec s); auto.
Qed.

Lemma step_ok_free w s s' :
  step_ok (eq w) s s' -> phase (rec s w) <> PhaseClaimed -> step_ok nobody s s'.
Proof.
  intros [] Hp. split; try done. intros x _. destruct (decide (w = x)) as [->|]; [done|auto].
Qed.

Lemma settle_ok h (c c' : C) s s' out out' :
  settle h c s out = (c', s', out') -> inv s -> live s h -> step_ok nobody s s' /\ settled s' h.
Proof.
  intros E Hi Hl. unfold settle in E.
  assert (Hkeep : settled s h -> (c, s, out) = (c', s', out') -> step_ok nobody s s' /\ settled s' h).
  { intros Hs [= <- <- <-]. by split; [apply step_ok_refl|]. }
  destruct (phase (rec s h)) eqn:Ep; try (by apply Hkeep; [apply settled_phase; congruence|]).
  all: destruct (Unsatisfiable (deps (rec s h)) (trigger (rec s h))) eqn:Eu.
  1,3: apply terminate_inv in E; [|by split; [|right]|done]; split; [by apply (ended_free h); [|congruence]|];
       apply settled_done, (en_done _ _ _ E); by left.
  all: destruct (Ready (deps (rec s h)) (trigger (rec s h))) eqn:Er; simpl in E.
  - destruct (record _ _ _ c _) as [[c1 s1] ef] eqn:E1. simplify_eq. destruct Hi as [Hb Hh].
    destruct (heap_at_phase h s PhaseBlocked Hh Ep) as [sc Hat]; [done..|].
    eapply wake_step in E1 as (W1 & W2 & _); [|done|congruence|congruence|done|exact Hat|tauto|by intros _].
    split; [by apply (step_ok_free h); [|congruence]|done].
  - apply Hkeep; [|done]. split; [done|]. intros []. congruence.
  - apply Hkeep; [|done]. apply settled_may_run; [done|by intros _].
  - simplify_eq. destruct Hi as [Hb Hh]. pose proof (makeBlocked_touches h s Hl) as T.
    assert (Hs : settled (makeBlocked h s) h) by (by split; [intros _|intros [_ Hp]]; rewrite makeBlocked_rec in *).
    split; [|done]. split; [|split| |].
    + eapply touches_evolves; [done|congruence|by rewrite makeBlocked_rec..].
    + apply makeBlocked_base; [done|congruence|congruence|done].
    + eapply makeBlocked_heaps; [done|by apply heap_at_inv|]. intros [_ ?]. congruence.
    + intros x Hx. destruct (decide (x = h)) as [->|]; [done|]. by apply (touches_settled h s).
    + intros x _. destruct (decide (x = h)) as [->|]; [intros ?; congruence|by eapply touches_holds].
Qed.

Lemma settle_all_ok hs : forall (c c' : C) s s' out out',
  settle_all hs c s out = (c', s', out') -> inv s -> (forall h, h ∈ hs -> live s h) ->
  step_ok nobody s s' /\ (forall h, h ∈ hs -> settled s' h).
Proof.
  induction hs as [|h hs IH]; intros c c' s s' out out' E Hi Hl; simpl in E.
  - simplify_eq. split; [by apply step_ok_refl|set_solver].
  - destruct (settle h c s out) as [[c1 s1] out1] eqn:E1.
    apply settle_ok in E1 as [S1 H1]; [|done|apply Hl; by left].
    apply IH in E as [S2 H2]; [|apply S1|].
    + split; [by eapply step_ok_trans|]. intros x [->|Hx]%elem_of_cons; [by apply S2|by apply H2].
    + intros x Hx. apply (ev_live _ _ (so_evolves _ _ _ S1)), Hl. by right.
Qed.

(** ** [promoteScheduled] *)

Lemma scheduled_mem s h : heap_inv s -> h ∈ items (s_scheduled s) <-> in_phase s PhaseScheduled h.
Proof. intros [_ [_ _ M] _]. apply M. Qed.

(** A heap that lost a member, and gained none, is shorter. *)
Lemma good_shrink less less' H H' P P' x :
  good less H P -> good less' H' P' -> P x -> (forall y, P' y -> P y /\ y <> x) ->
  length (items H') < length (items H).
Proof.
  intros [W _ M] [W' _ M'] Hx Hy. change (length (x :: items H') <= length (items H)).
  apply submseteq_length, NoDup_submseteq.
  - apply NoDup_cons. split; [|by apply wf_NoDup]. intros Hin%M'%Hy. tauto.
  - intros y [->|Hin]%elem_of_cons; [by apply M|]. apply M. by apply Hy, M'.
Qed.

(** Each iteration takes the earliest node out of the retry heap; the loop
    stops only when no member is due. *)
Lemma promote_loop_ok fuel now : forall (c c' : C) s s' out out',
  promote_loop fuel now c s out = (c', s', out') -> inv s -> Pq.Len (s_scheduled s) < fuel ->
  step_ok nobody s s' /\
  (forall h, in_phase s' PhaseScheduled h -> (now < s_readyAt s' !!! h)%Z /\ rec s' h = rec s h) /\
  (forall h, phase (rec s h) <> PhaseScheduled -> rec s' h = rec s h).
Proof.
  induction fuel as [|fuel IH]; intros c c' s s' out out' E Hi Hf; [lia|].
  cbn [promote_loop] in E. destruct (Pq.Peek (s_scheduled s)) as [h|] eqn:Ep.
  2:{ simplify_eq. split_and!; [by apply step_ok_refl| |done]. intros h Hh.
      destruct (good_peek_None _ _ _ (hp_scheduled _ _ _ _ (inv_heap _ Hi)) Ep h Hh). }
  destruct Hi as [Hb Hh].
  destruct (good_pop _ _ _ h (hp_scheduled _ _ _ _ Hh) Ep) as (G1 & [Hl Hp] & G3 & _ & G5).
  destruct (Z.ltb_spec now (s_readyAt s !!! h)) as [Hlt|Hge].
  { simplify_eq. split_and!; [by apply step_ok_refl| |done]. intros x Hx. split; [|done].
    specialize (G3 x Hx). unfold less_scheduled in G3. apply Z.ltb_ge in G3. lia. }
  set (s0 := s <| s_scheduled := fst (Pq.Pop (less_scheduled s) (s_scheduled s)) |>) in E.
  destruct (record _ _ _ c _) as [[c1 s1] ef] eqn:E1.
  assert (Hd0 : same_data s s0) by by split.
  pose proof (sd_base s s0 Hd0 _ Hb) as Hb0.
  assert (Hat : heap_at h False False False s0).
  { destruct Hh as [H1 H2 H3]. split.
    - eapply good_iff; [|exact H1]. intros x. unfold at_or.
      destruct (decide (x = h)) as [->|]; [|tauto]. unfold in_phase. split; [|tauto]. intros []. congruence.
    - eapply good_iff; [|exact G1]. intros x. unfold at_or. simpl. tauto.
    - intros k. eapply good_iff; [|apply H3]. intros x. unfold at_or, ready_in.
      destruct (decide (x = h)) as [->|]; [|tauto]. unfold in_phase. split; [|tauto]. intros [[]]. congruence. }
  eapply wake_step in E1 as (S1 & _ & P1 & R1); try done;
    [|change (rec s0 h) with (rec s h); congruence|change (rec s0 h) with (rec s h); congruence|tauto|].
  2:{ intros Ha. change (rec s0 h) with (rec s h) in Ha.
      destruct (bi_status _ _ Hb h Hl) as (_ & _ & Hpos & _). specialize (Hpos (or_introl Hp)). lia. }
  change (forall x, x <> h -> rec s1 x = rec s x) in R1.
  assert (Hin : forall x, in_phase s1 PhaseScheduled x -> in_phase s PhaseScheduled x /\ x <> h).
  { intros x [Hx1 Hx2]. assert (x <> h) as Hne by congruence. split; [|done].
    split; [by apply (ev_live _ _ (so_evolves _ _ _ S1))|]. by rewrite R1 in Hx2. }
  pose proof (inv_heap _ (so_inv _ _ _ S1)) as Hh1.
  pose proof (good_shrink _ _ _ _ _ _ h (hp_scheduled _ _ _ _ Hh) (hp_scheduled _ _ _ _ Hh1)
    (conj Hl Hp) Hin) as Hlen.
  apply IH in E as (S2 & Q1 & Q2); [|apply S1|unfold Pq.Len in *; lia].
  assert (Hh2 : rec s' h = rec s1 h) by (apply Q2; congruence). split_and!.
  - eapply step_ok_trans; [|done]. apply (step_ok_free h); [|congruence].
    destruct S1 as [V1 V2 V3 V4]. split; [|done| |exact V4].
    + etrans; [by apply sd_evolves|done].
    + intros x Hx. apply V3. by apply (sd_settled s s0 Hd0).
  - intros x Hx. destruct (Q1 x Hx) as [H1 H2]. split; [done|]. rewrite H2. apply R1.
    intros ->. destruct Hx. congruence.
  - intros x Hx. rewrite <- (R1 x) by congruence. apply Q2.
    rewrite R1 by congruence. done.
Qed.

End Clocked.
