(* ===== verification/LeaseFacts.v ===== *)
(** * The lease protocol keeps the invariant

    Failing an attempt, reclaiming expired leases and granting new ones; the
    claims of other workers survive each of them. *)
From S2P Require Import Prelude Types Config Heap HeapFacts Scope Topo TopoFacts Lease Invariant ScopeFacts DepFacts Evolve Terminate.

(** ** A write to one record *)

Section Upd.
Context (s : scope) (h : nat) (Hl : live s h) (f : nodeRec -> nodeRec).
Hypothesis Hf : keeps_fixed f.
Hypothesis Hd : forall r, deps (f r) = deps r.
Hypothesis Hp : forall r, phase (f r) = phase r.
Hypothesis Hs : forall r, status (f r) = status r.

Lemma upd_touches : touches h s (upd_rec h f s).
Proof. by apply (touches_intro h s _ f). Qed.

Lemma upd_rec_self : rec (upd_rec h f s) h = f (rec s h).
Proof. by apply (rec_alter s h Hl). Qed.

Lemma upd_in_phase p x : in_phase (upd_rec h f s) p x <-> in_phase s p x.
Proof.
  destruct (decide (x = h)) as [->|].
  - rewrite (in_phase_self h s _ p upd_touches Hl), upd_rec_self, Hp. unfold in_phase. tauto.
  - by apply (in_phase_other h); [apply upd_touches|].
Qed.

Lemma upd_kind x : kind (rec (upd_rec h f s) x) = kind (rec s x).
Proof. apply (sg_kind s), (th_graph h), upd_touches. Qed.

Lemma upd_heap_at l sc r : heap_at h l sc r s -> heap_at h l sc r (upd_rec h f s).
Proof.
  intros [H1 H2 H3]. split.
  - eapply good_iff; [|exact H1]. intros x. unfold at_or. by rewrite upd_in_phase.
  - eapply good_iff; [|exact H2]. intros x. unfold at_or. by rewrite upd_in_phase.
  - intros k. destruct (H3 k) as [W O M]. split; [done| |].
    + eapply heap_ord_ext; [|exact O]. intros a b _ _. unfold less_ready.
      by rewrite !(sg_priority s (upd_rec h f s) (th_graph h _ _ upd_touches)).
    + intros x. etrans; [apply M|]. unfold at_or, ready_in. by rewrite upd_in_phase, !upd_kind.
Qed.

Lemma upd_stats : stats_inv s -> stats_inv (upd_rec h f s).
Proof.
  assert (Ha : forall r, alive (f r) = alive r) by (intros r; specialize (Hf r); unfold fixed in Hf; congruence).
  assert (Hb : forall b r, in_bucket b (f r) = in_bucket b r).
  { intros b r. unfold in_bucket, bucket. by rewrite Ha, Hp, Hs. }
  assert (Hh : s_recs s !! h = Some (rec s h)) by (apply list_lookup_lookup_total_lt; by apply live_lt).
  intros [T B S]. split; [| |done].
  - simpl. rewrite T. do 2 f_equal. pose proof (count_alter alive f _ _ _ Hh) as Hc. rewrite Ha in Hc. lia.
  - intros b. simpl. rewrite B. do 2 f_equal.
    pose proof (count_alter (in_bucket b) f _ _ _ Hh) as Hc. rewrite Hb in Hc. lia.
Qed.

Lemma upd_base pend :
  (forall r, fence (f r) = fence r) ->
  phase (rec s h) <> PhaseDone -> base_inv pend s -> base_inv pend (upd_rec h f s).
Proof.
  intros Ha Hn Hb. apply (touches_base h s _ upd_touches Hn pend); [| | |done].
  - by rewrite upd_rec_self, Hp.
  - rewrite upd_rec_self. pose proof (bi_status _ _ Hb h Hl) as Hok.
    specialize (Ha (rec s h)). unfold fence in Ha.
    unfold status_ok, phase_ok, attempt_ok, in_limit in *. rewrite Hp, Hs.
    replace (attempt (f (rec s h))) with (attempt (rec s h)) by congruence.
    replace (retry (f (rec s h))) with (retry (rec s h)) by (specialize (Hf (rec s h)); unfold fixed in Hf; congruence).
    by destruct (phase (rec s h)).
  - by apply upd_stats, Hb.
Qed.

End Upd.

(** ** Letting go of a lease *)

(** [s.leases.Remove(h); s.deadline[h] = 0]. *)
Definition drop_lease (h : nat) (s : scope) : scope := (leases_Remove h s) <| s_deadline ::= <[h := 0%Z]> |>.

Lemma drop_lease_data h s : same_data s (drop_lease h s).
Proof.
  split; try done. split; try done. simpl. by rewrite length_insert.
Qed.

Lemma drop_lease_holds h s x : x <> h -> holds s (drop_lease h s) x.
Proof.
  intros Hx Hp. split_and!; [done..|]. simpl. by rewrite list_lookup_total_insert_ne.
Qed.

Lemma drop_lease_at h s :
  heap_inv s -> heap_at h False (in_phase s PhaseScheduled h) (in_phase s PhaseReady h) (drop_lease h s).
Proof. intros Hh. by eapply leases_Remove_heaps, heap_at_inv. Qed.

Section Clocked.
Context {C : Type} `{!ClockSource C}.

(** The node of a failed attempt: terminal once its attempts are used up,
    otherwise waiting for the back-off to pass. *)
Definition failed_spec (h : nat) (rs : Reason) (msg : string) (cfg : ScopeConfig) (now : Z) (c : C)
    (s s' : scope) : Prop :=
  let '(maxAttempts, base, maxDelay) := effectiveRetry (rec s h) cfg in
  if (maxAttempts <=? attempt (rec s h))%Z then
    outcome (rec s' h) = (PhaseDone, StatusError, rs, msg, result_ (rec s h))
  else
    outcome (rec s' h) = (PhaseScheduled, StatusNew, rs, msg, result_ (rec s h)) /\
    s_readyAt s' !!! h =
      i64 (now + fst (Backoff (attempt (rec s h)) base maxDelay (Some clk_Jitter) c)).

Lemma failed_phase h rs msg cfg now c s s' :
  failed_spec h rs msg cfg now c s s' ->
  phase (rec s' h) = PhaseDone \/ phase (rec s' h) = PhaseScheduled.
Proof.
  unfold failed_spec, outcome. destruct (effectiveRetry _ _) as [[mx ?] ?].
  destruct (mx <=? _)%Z; [left; congruence|right; destruct_and!; congruence].
Qed.

(** A retry is scheduled only while the node's own limit allows another. *)
Lemma retry_in_limit r cfg mx base md :
  effectiveRetry r cfg = (mx, base, md) -> (mx <=? attempt r)%Z = false -> in_limit (f_scheduled r).
Proof.
  unfold effectiveRetry, in_limit. simpl. intros [= <- _ _] Hle%Z.leb_gt Hm.
  rewrite (proj2 (Z.ltb_lt _ _) Hm) in Hle. lia.
Qed.

Lemma failAttempt_ok h rs msg cfg now (c c' : C) s s' out out' :
  failAttempt h rs msg cfg now c s out = (c', s', out') ->
  inv s -> in_phase s PhaseClaimed h ->
  step_ok (eq h) s s' /\ failed_spec h rs msg cfg now c s s'.
Proof.
  intros E [Hb Hh] [Hl Hp]. unfold failAttempt, failed_spec in *.
  destruct (effectiveRetry (rec s h) cfg) as [[mx base] md] eqn:Er.
  change ((leases_Remove h s) <| s_deadline ::= <[h := 0%Z]> |>) with (drop_lease h s) in E. cbv zeta in E.
  pose proof (drop_lease_data h s) as Hd. pose proof (drop_lease_at h s Hh) as Hat.
  set (s1 := drop_lease h s) in *. pose proof (sd_base s s1 Hd _ Hb) as Hb1.
  assert (Hl1 : live s1 h) by (by apply (sg_live _ _ (sd_graph s s1 Hd))).
  assert (Hp1 : phase (rec s1 h) = PhaseClaimed) by (by rewrite (sd_rec s s1 Hd)).
  assert (Hn1 : phase (rec s1 h) <> PhaseDone) by congruence.
  assert (Hjoin : step_ok (eq h) s1 s' -> step_ok (eq h) s s').
  { intros [V1 V2 V3 V4]. split; [|done| |].
    - etrans; [by apply sd_evolves|done].
    - intros x Hx. by apply V3, (sd_settled s s1 Hd).
    - intros x Hx. eapply holds_trans; [by apply (drop_lease_holds h); congruence|auto]. }
  change (rec s h) with (rec s1 h). destruct (mx <=? attempt (rec s1 h))%Z eqn:El.
  - eapply terminate_ok in E as [E Ho]; try done; [|by split; [|right]]. split.
    + apply Hjoin. eapply step_ok_weaken; [|by apply ended_step]. intros x ->%list_elem_of_singleton. done.
    + done.
  - assert (Hlim : in_limit (f_scheduled (rec s1 h))) by (by eapply retry_in_limit).
    destruct (Backoff _ _ _ _ c) as [delay c1].
    set (f := fun r : nodeRec => r <| reason := rs |> <| message := msg |> <| worker := ""%string |>
                <| updatedAt := now |>) in E.
    set (s2 := upd_rec h f s1) in E. destruct (record _ _ _ c1 _) as [[c2 s3] ef] eqn:E3.
    injection E as <- <- <-. apply record_spec in E3 as (nw & -> & _).
    assert (T2 : touches h s1 s2) by (by apply upd_touches).
    assert (Hl2 : live s2 h) by (by apply (sg_live _ _ (th_graph h _ _ T2))).
    assert (Hr2 : rec s2 h = f (rec s1 h)) by (by apply upd_rec_self).
    assert (Hn2 : phase (rec s2 h) <> PhaseDone) by (by rewrite Hr2).
    assert (Hb2 : base_inv none_pending s2) by (by apply upd_base).
    assert (Hat2 : heap_at h False (in_phase s PhaseScheduled h) (in_phase s PhaseReady h) s2)
      by (by apply upd_heap_at).
    pose proof (schedule_touches h (i64 (now + delay)) s2 Hl2) as T3.
    set (s3 := schedule h (i64 (now + delay)) s2) in *.
    assert (Hr3 : rec s3 h = f_scheduled (rec s2 h)) by (by apply schedule_rec).
    assert (Hl3 : live s3 h) by (by apply (sg_live _ _ (th_graph h _ _ T3))).
    split; [apply Hjoin; split|split].
    + etrans; [eapply (touches_evolves h s1 s2); [done..|by rewrite Hr2|by rewrite Hr2]|].
      etrans; [eapply (touches_evolves h s2 s3); [done..|by rewrite Hr3|by rewrite Hr3]|].
      by apply record_evolves.
    + split; [apply record_base, schedule_base; try done; rewrite Hr2; [apply (bi_status _ _ Hb1 h Hl1); by right|done]|]. apply record_heap; [done|].
      eapply (schedule_heaps s2 h Hl2 False); [exact Hat2|tauto|]. intros [_ ?]. congruence.
    + intros x Hx. apply record_settled; [done|].
      destruct (decide (x = h)) as [->|]; [apply settled_phase; by rewrite Hr3|].
      by apply (touches_settled h s2 s3 T3), (touches_settled h s1 s2 T2).
    + intros x Hx. eapply holds_trans; [by eapply (touches_holds h s1 s2); [|congruence]|].
      eapply holds_trans; [by eapply (touches_holds h s2 s3); [|congruence]|]. by apply record_holds.
    + rewrite record_at_rec, decide_True by (split; [done|by apply live_lt]). by rewrite Hr3, Hr2.
    + destruct (ss_keys _ _ (sc_sched _ _ (record_at_core nw h EventTransition (status (rec s1 h)) s3 Hl3)))
        as (_ & -> & _). simpl. rewrite lookup_total_insert, decide_True; [done|]. split; [done|].
      rewrite (gi_readyAt s (bi_graph _ _ Hb)). by apply live_lt.
Qed.

(** ** Expired leases *)

Definition expired (now : Z) (s : scope) (x : nat) : Prop := (s_deadline s !!! x <= now)%Z.

Lemma leases_top s h :
  heap_inv s -> Pq.Peek (s_leases s) = Some h ->
  in_phase s PhaseClaimed h /\
  forall x, in_phase s PhaseClaimed x -> (s_deadline s !!! h <= s_deadline s !!! x)%Z.
Proof.
  intros Hh Ep. destruct (good_pop _ _ _ h (hp_leases _ _ _ _ Hh) Ep) as (_ & Hp & G & _).
  split; [done|]. intros x Hx%G. unfold less_leases in Hx. by apply Z.ltb_ge in Hx.
Qed.

Lemma leases_none s x : heap_inv s -> Pq.Peek (s_leases s) = None -> ~ in_phase s PhaseClaimed x.
Proof. intros Hh Ep. apply (good_peek_None _ _ _ (hp_leases _ _ _ _ Hh) Ep). Qed.

(** A reclaimed lease leaves the heap and no lease enters it. *)
Lemma reclaim_shrinks h s s' :
  inv s -> in_phase s PhaseClaimed h -> step_ok (eq h) s s' -> phase (rec s' h) <> PhaseClaimed ->
  Pq.Len (s_leases s') < Pq.Len (s_leases s).
Proof.
  intros Hi Hp S Hn.
  refine (good_shrink _ _ _ _ _ _ h (hp_leases _ _ _ _ (inv_heap _ Hi))
            (hp_leases _ _ _ _ (inv_heap _ (so_inv _ _ _ S))) Hp _).
  intros x [Hx1 Hx2]. split; [|by intros ->]. split; [by apply (ev_live _ _ (so_evolves _ _ _ S))|].
  by apply (ev_claimed _ _ (so_evolves _ _ _ S)).
Qed.

Record reclaimed_ok (now limit n0 : Z) (s s' : scope) (n : Z) (more : bool) : Prop := {
  rc_step : step_ok (expired now s) s s';
  rc_count : (n0 <= n)%Z /\ (n <= Z.max n0 limit)%Z;
  rc_more : more = true -> n = Z.max n0 limit /\ exists h, in_phase s' PhaseClaimed h /\ expired now s' h;
  rc_none : more = false -> forall h, in_phase s' PhaseClaimed h -> ~ expired now s' h
}.

Lemma reclaim_loop_ok fuel now cfg limit : forall n0 (c c' : C) s s' out out' n more,
  reclaim_loop fuel now cfg limit n0 c s out = (c', s', out', n, more) ->
  inv s -> Pq.Len (s_leases s) < fuel -> reclaimed_ok now limit n0 s s' n more.
Proof.
  induction fuel as [|fuel IH]; intros n0 c c' s s' out out' n more E Hi Hf; [lia|].
  cbn [reclaim_loop] in E. unfold deadlineOfTop in E.
  assert (Hh : heap_inv s) by apply Hi. destruct (Z.ltb_spec n0 limit) as [Hlim|Hlim].
  2:{ injection E as <- <- <- <- <-. split; [by apply step_ok_refl|lia| |].
      - destruct (Pq.Peek (s_leases s)) as [h|] eqn:Ep; [|done]. intros Hm%Z.leb_le.
        split; [lia|]. exists h. split; [by apply leases_top|done].
      - intros Hm h Hc He. destruct (Pq.Peek (s_leases s)) as [t|] eqn:Ep; [|by apply (leases_none s h)].
        apply Z.leb_gt in Hm. pose proof (proj2 (leases_top s t Hh Ep) h Hc). unfold expired in He. lia. }
  destruct (Pq.Peek (s_leases s)) as [h|] eqn:Ep.
  2:{ injection E as <- <- <- <- <-. split; [by apply step_ok_refl|lia|done|].
      intros _ h Hc _. by apply (leases_none s h). }
  destruct (leases_top s h Hh Ep) as [Hc Hmin]. destruct (Z.ltb_spec now (s_deadline s !!! h)) as [Hd|Hd].
  { injection E as <- <- <- <- <-. split; [by apply step_ok_refl|lia|done|].
    intros _ x Hx He. specialize (Hmin x Hx). unfold expired in He. lia. }
  destruct (failAttempt _ _ _ _ _ c s out) as [[c1 s1] out1] eqn:E1.
  apply failAttempt_ok in E1 as [S1 P1%failed_phase]; [|done..].
  assert (Hn1 : phase (rec s1 h) <> PhaseClaimed) by (destruct P1; congruence).
  pose proof (reclaim_shrinks h s s1 Hi Hc S1 Hn1) as Hlen.
  apply IH in E as [S2 R1 R2 R3]; [|apply S1|lia]. split; [|lia|intros ?; destruct R2; [done|split; [lia|done]]|done].
  destruct S1 as [V1 V2 V3 V4], S2 as [U1 U2 U3 U4]. split; [by etrans|done|auto|].
  intros x Hx. unfold expired in *. assert (H1 : holds s s1 x) by (apply V4; intros ->; lia).
  intros Hcx. destruct (H1 Hcx) as (_ & _ & D1). apply (holds_trans s s1 s' x H1); [|done].
  apply U4. by rewrite D1.
Qed.

Lemma reclaimExpired_ok now cfg limit (c c' : C) s s' out out' n more :
  reclaimExpired now cfg limit c s out = (c', s', out', n, more) -> inv s ->
  reclaimed_ok now limit 0 s s' n more.
Proof. intros E Hi. eapply reclaim_loop_ok; [exact E|done|lia]. Qed.

End Clocked.

(** * Granting leases

    [popReady] yields a ready node that no other ready node of the requested
    kinds precedes, and [grant] leases it; the loop of [Claim] stops only when
    it has enough, when the in-flight limit is reached, or when no ready node
    of the requested kinds is left. *)

(** ** [popReady] *)

Definition allowed (kinds : list string) (k : string) : Prop := kinds = [] \/ k ∈ kinds.

(** A ready node of one of the requested kinds. *)
Definition claimable (kinds : list string) (s : scope) (h : nat) : Prop :=
  in_phase s PhaseReady h /\ allowed kinds (kind (rec s h)).

Lemma better_less s a b : better s a b = less_ready s a b.
Proof.
  apply Bool.eq_true_iff_eq. rewrite less_ready_true. unfold better.
  rewrite orb_true_iff, andb_true_iff, !Z.ltb_lt, Z.eqb_eq. lia.
Qed.

(** [b] is the best of the heads of [hs]. *)
Definition best_spec (s : scope) (hs : list (string * Heap)) (r : option (nat * string)) : Prop :=
  match r with
  | None => forall k H, (k, H) ∈ hs -> Pq.Peek H = None
  | Some (b, k) =>
    (exists H, (k, H) ∈ hs /\ Pq.Peek H = Some b) /\
    (forall k' H t, (k', H) ∈ hs -> Pq.Peek H = Some t -> less_ready s t b = false)
  end.

Lemma best_of_ok s hs : best_spec s hs (best_of s hs).
Proof.
  induction hs as [|[k H] hs IH] using rev_ind; [by intros k H ?%elem_of_nil|].
  unfold best_of in *. rewrite foldl_snoc. set (b := foldl (consider s) None hs) in *.
  unfold consider. simpl. destruct (Pq.Peek H) as [top|] eqn:Et.
  2:{ destruct b as [[b kb]|]; simpl in *.
      - destruct IH as [(H0 & H1 & H2) H3]. split.
        + exists H0. split; [set_solver|done].
        + intros k' H' t [Hin|Hin]%elem_of_app; [by apply (H3 k')|]. set_solver.
      - intros k' H' [Hin|Hin]%elem_of_app; [by apply (IH k')|]. set_solver. }
  destruct b as [[b kb]|]; simpl in *.
  2:{ split; [exists H; split; [set_solver|done]|].
      intros k' H' t [Hin|Hin]%elem_of_app Ht; [by rewrite (IH k' H' Hin) in Ht|].
      apply list_elem_of_singleton in Hin. simplify_eq. apply less_irrefl, _. }
  destruct IH as [(H0 & H1 & H2) H3]. rewrite better_less. destruct (less_ready s top b) eqn:El; simpl.
  - split; [exists H; split; [set_solver|done]|].
    intros k' H' t [Hin|Hin]%elem_of_app Ht.
    + apply (nless_trans top b t); [by apply less_asym|by apply (H3 k' H')].
    + apply list_elem_of_singleton in Hin. simplify_eq. apply less_irrefl, _.
  - split; [exists H0; split; [set_solver|done]|].
    intros k' H' t [Hin|Hin]%elem_of_app Ht; [by apply (H3 k' H')|].
    apply list_elem_of_singleton in Hin. by simplify_eq.
Qed.

Lemma candidates_spec s kinds k H :
  (k, H) ∈ candidates s kinds <-> s_ready s !! k = Some H /\ allowed kinds k.
Proof.
  unfold candidates, allowed. destruct kinds as [|k0 kinds].
  - rewrite elem_of_map_to_list. tauto.
  - rewrite list_elem_of_omap. split.
    + intros (k' & Hk & He). destruct (s_ready s !! k') eqn:E; simplify_eq/=. auto.
    + intros [E [?|Hk]]; [done|]. exists k. by rewrite E.
Qed.

(** A ready node is behind the head of its kind's heap. *)
Lemma ready_head s h :
  heap_inv s -> in_phase s PhaseReady h ->
  exists H t, s_ready s !! kind (rec s h) = Some H /\ Pq.Peek H = Some t /\ less_ready s h t = false.
Proof.
  intros [_ _ H3] Hp. specialize (H3 (kind (rec s h))). unfold readyHeap in H3.
  assert (Hm : h ∈ items (default (Pq.New 0) (s_ready s !! kind (rec s h)))) by (by apply H3).
  destruct (s_ready s !! kind (rec s h)) as [H|] eqn:E; [|by apply elem_of_nil in Hm]. simpl in *.
  destruct (Pq.Peek H) as [t|] eqn:Et.
  - exists H, t. split_and!; [done..|]. destruct (good_pop _ _ _ t H3 Et) as (_ & _ & G & _).
    by apply G.
  - destruct (good_peek_None _ _ _ H3 Et h). by split.
Qed.

(** A head is a ready node of the heap's kind. *)
Lemma head_ready s k H t :
  heap_inv s -> s_ready s !! k = Some H -> Pq.Peek H = Some t -> ready_in s k t.
Proof.
  intros [_ _ H3] E Et. specialize (H3 k). unfold readyHeap in H3. rewrite E in H3. simpl in H3.
  by destruct (good_pop _ _ _ t H3 Et) as (_ & G & _).
Qed.

(** The choice [popReady] makes. *)
Definition pop_spec (kinds : list string) (s : scope) (r : option nat) : Prop :=
  match r with
  | None => forall h, ~ claimable kinds s h
  | Some h => claimable kinds s h /\ forall x, claimable kinds s x -> less_ready s x h = false
  end.

Lemma popReady_spec kinds s : heap_inv s -> pop_spec kinds s (snd (popReady kinds s)).
Proof.
  intros Hh. unfold popReady. pose proof (best_of_ok s (candidates s kinds)) as Hb.
  destruct (best_of s (candidates s kinds)) as [[h k]|]; simpl in *.
  - destruct Hb as [(H & Hin & Hp) Hmin]. apply candidates_spec in Hin as [Hr Ha].
    destruct (head_ready s k H h Hh Hr Hp) as [Hph Hk]. split; [by split; [|rewrite Hk]|].
    intros x [Hx1 Hx2]. destruct (ready_head s x Hh Hx1) as (H' & t & E & Et & Hle).
    apply (nless_trans h t x); [|done]. apply (Hmin (kind (rec s x)) H'); [|done]. by apply candidates_spec.
  - intros h [Hx1 Hx2]. destruct (ready_head s h Hh Hx1) as (H' & t & E & Et & Hle).
    rewrite (Hb (kind (rec s h)) H') in Et; [done|]. by apply candidates_spec.
Qed.

(** What [popReady] writes: the node leaves the ready heap of its kind. *)
Lemma popReady_state kinds s s' h :
  heap_inv s -> popReady kinds s = (s', Some h) -> same_data s s' /\ heap_at h False False False s'.
Proof.
  intros Hh E. pose proof (popReady_spec kinds s Hh) as Hs. rewrite E in Hs. simpl in Hs.
  destruct Hs as [[[Hl Hp] _] _]. unfold popReady in E.
  pose proof (best_of_ok s (candidates s kinds)) as Hb.
  destruct (best_of s (candidates s kinds)) as [[h' k]|]; [|done]. injection E as <- ->.
  destruct Hb as [(H & Hin & Hpk) _]. apply candidates_spec in Hin as [Hr _].
  destruct (head_ready s k H h Hh Hr Hpk) as [_ Hk]. split; [by split|].
  assert (HR : readyHeap s k = H) by (unfold readyHeap; by rewrite Hr).
  destruct Hh as [H1 H2 H3]. split.
  - eapply good_iff; [|exact H1]. intros x. unfold at_or.
    destruct (decide (x = h)) as [->|]; [|tauto]. unfold in_phase. split; [|tauto]. intros []. congruence.
  - eapply good_iff; [|exact H2]. intros x. unfold at_or.
    destruct (decide (x = h)) as [->|]; [|tauto]. unfold in_phase. split; [|tauto]. intros []. congruence.
  - intros k'. rewrite (readyHeap_insert s (set_readyHeap k _ s) k _ k' eq_refl).
    destruct (decide (k' = k)) as [->|Hk'].
    + destruct (good_pop _ _ _ h (H3 k)) as [G _]; [by rewrite HR|].
      eapply good_iff; [|exact G]. intros x. unfold at_or, ready_in, in_phase. simpl. tauto.
    + eapply good_iff; [|apply (H3 k')]. intros x. unfold at_or, ready_in.
      destruct (decide (x = h)) as [->|]; [|tauto]. split; [|tauto]. intros [_ ?]. congruence.
Qed.

Lemma popReady_None kinds s s' : popReady kinds s = (s', None) -> s' = s.
Proof. unfold popReady. destruct (best_of _ _) as [[]|]; congruence. Qed.

(** ** [grant] *)

Definition f_grant (workerID : string) (now : Z) (r : nodeRec) : nodeRec :=
  r <| epoch ::= fun e => u64 (e + 1) |> <| attempt ::= bumpAttempt |>
    <| phase := PhaseClaimed |> <| status := StatusInProgress |> <| worker := workerID |>
    <| updatedAt := now |>.

Lemma bumpAttempt_range n : (0 <= n <= max_u32)%Z -> (0 < bumpAttempt n <= max_u32)%Z.
Proof.
  intros H. unfold bumpAttempt. destruct (Z.eqb_spec n max_u32) as [->|Hn]; [done|].
  unfold max_u32 in *. rewrite u32_small; lia.
Qed.

Section Grant.
Context (s : scope) (h : nat) (Hl : live s h) (w : string) (now d : Z).

Lemma grant_touches : touches h s (grant w now d h s).
Proof. touch (f_grant w now). Qed.

Lemma grant_rec : rec (grant w now d h s) h = f_grant w now (rec s h).
Proof. by apply (rec_alter s h Hl). Qed.

Lemma grant_stats : stats_inv s -> stats_inv (grant w now d h s).
Proof.
  apply (stats_move h s _ (f_grant w now)); try done.
  change (s_stats (grant w now d h s)) with
    (bump (bucket (rec (upd_rec h (f_grant w now) s) h)) 1 (bump (bucket (rec s h)) (-1) (s_stats s))).
  by rewrite (rec_alter s h Hl _ (f_grant w now)).
Qed.

Lemma grant_base pend :
  phase (rec s h) <> PhaseDone -> phase (rec s h) <> PhaseClaimed ->
  base_inv pend s -> base_inv pend (grant w now d h s).
Proof.
  intros Hn Hnc Hb. eapply (touches_base h s); try done.
  - apply grant_touches.
  - by rewrite grant_rec.
  - rewrite grant_rec. destruct (bi_status _ _ Hb h Hl) as (_ & Ha & _ & Hm).
    pose proof (bumpAttempt_range _ Ha). split; [done|]. split_and!; simpl; [lia|lia|intros _; lia|].
    intros Hpos. specialize (Hm Hpos). rewrite bool_decide_eq_false_2 in Hm by tauto. simpl.
    unfold bumpAttempt, max_u32, u32 in *. destruct (Z.eqb_spec (attempt (rec s h)) (2 ^ 32 - 1)); [lia|].
    rewrite Z.mod_small; lia.
  - apply grant_stats, Hb.
Qed.

Lemma grant_heaps : heap_at h False False False s -> heap_inv (grant w now d h s).
Proof.
  intros [H1 H2 H3]. pose proof grant_touches as T.
  apply (heap_inv_intro h s _ True False False T Hl); rewrite ?grant_rec by done; try done.
  - eapply (good_at_push (less_leases s)); [apply _| |exact H1|tauto|done].
    by apply (agree_leases h s _ (i64 (now + d))).
  - by apply (ready_at_keep s _ h False); [apply (th_rec h _ _ T)| | |..]; try tauto.
Qed.

Lemma grant_keys :
  s_fifo (grant w now d h s) = s_fifo s /\ s_ready (grant w now d h s) = s_ready s /\
  s_deadline (grant w now d h s) = <[h := i64 (now + d)]> (s_deadline s).
Proof. done. Qed.

End Grant.

(** ** The loop *)

(** The record of a node right after its grant was recorded. *)
Definition granted_rec (w : string) (now : Z) (r : nodeRec) : nodeRec :=
  (f_grant w now r) <| seq_ ::= fun n => u64 (n + 1) |>.

(** [s'] is [s] after the nodes [hs] were granted, in that order. *)
Record granted (kinds : list string) (w : string) (now d : Z) (hs : list nat) (s s' : scope) : Prop := {
  gr_inv : inv s';
  gr_nodup : NoDup hs;
  gr_graph : same_graph s s';
  gr_new : forall h, h ∈ hs -> claimable kinds s h /\ rec s' h = granted_rec w now (rec s h) /\
                               s_deadline s' !!! h = i64 (now + d);
  gr_old : forall x, x ∉ hs -> rec s' x = rec s x /\ s_deadline s' !!! x = s_deadline s !!! x;
  gr_order : StronglySorted (fun a b => less_ready s b a = false) hs;
  gr_best : forall h x, h ∈ hs -> claimable kinds s x -> x ∉ hs -> less_ready s x h = false;
  gr_fifo : s_fifo s' = s_fifo s;
  gr_misc : s_epochFloor s' = s_epochFloor s /\ s_cfg s' = s_cfg s /\ s_sealed s' = s_sealed s
            /\ s_name s' = s_name s /\ s_logCap s' = s_logCap s;
  gr_readyAt : s_readyAt s' = s_readyAt s
}.

Lemma granted_nil kinds w now d s : inv s -> granted kinds w now d [] s s.
Proof. intros Hi. split; try done; try constructor; set_solver. Qed.

Lemma granted_less kinds w now d hs s s' a b :
  granted kinds w now d hs s s' -> less_ready s' a b = less_ready s a b.
Proof.
  intros G. unfold less_ready. rewrite (gr_fifo _ _ _ _ _ _ _ G).
  by rewrite !(sg_priority s s' (gr_graph _ _ _ _ _ _ _ G)).
Qed.

Lemma granted_claimable kinds w now d hs s s' x :
  granted kinds w now d hs s s' -> claimable kinds s' x <-> claimable kinds s x /\ x ∉ hs.
Proof.
  intros G. unfold claimable, in_phase. rewrite (sg_live s s' (gr_graph _ _ _ _ _ _ _ G)).
  rewrite (sg_kind s s' (gr_graph _ _ _ _ _ _ _ G)).
  destruct (decide (x ∈ hs)) as [Hx|Hx].
  - destruct (gr_new _ _ _ _ _ _ _ G x Hx) as (_ & -> & _). simpl. naive_solver.
  - destruct (gr_old _ _ _ _ _ _ _ G x Hx) as [-> _]. tauto.
Qed.

Section Clocked.
Context {C : Type} `{!ClockSource C}.

(** One iteration grants the best claimable node. *)
Lemma claim_step kinds w now d from (c c' : C) s s1 s' h ef :
  inv s -> popReady kinds s = (s1, Some h) ->
  record h EventTransition from c (grant w now d h s1) = (c', s', ef) ->
  granted kinds w now d [h] s s' /\ s_ready s' = s_ready s1.
Proof.
  intros [Hb Hh] Ep Er. pose proof (popReady_spec kinds s Hh) as Hs. rewrite Ep in Hs. simpl in Hs.
  destruct Hs as [Hc Hmin]. destruct (popReady_state kinds s s1 h Hh Ep) as [Hd Hat].
  assert (Hl : live s1 h) by (apply (sg_live _ _ (sd_graph s s1 Hd)), Hc).
  assert (Hp : phase (rec s1 h) = PhaseReady) by (rewrite (sd_rec s s1 Hd); apply Hc).
  apply record_spec in Er as (nw & -> & _). pose proof (grant_touches s1 h Hl w now d) as T.
  assert (Hl2 : live (grant w now d h s1) h) by (by apply (sg_live _ _ (th_graph h _ _ T))).
  pose proof (record_at_core nw h EventTransition from _ Hl2) as Hrc.
  assert (Hdl : s_deadline s1 = s_deadline s /\ s_fifo s1 = s_fifo s /\ s_readyAt s1 = s_readyAt s /\ s_name s1 = s_name s).
  { unfold popReady in Ep. destruct (best_of _ _) as [[]|]; by simplify_eq. }
  destruct Hdl as (Hd1 & Hf1 & Ha1 & Hn1).
  pose proof (ss_keys _ _ (sc_sched _ _ Hrc)) as (Hk1 & Hk2 & Hk3).
  split; [|by destruct (ss_heaps _ _ (sc_sched _ _ Hrc)) as (-> & _)]. split.
  - split; [apply record_base; [done|]; apply grant_base; [done|congruence|congruence|by eapply sd_base]|].
    apply record_heap; [done|]. by apply grant_heaps.
  - apply NoDup_singleton.
  - etrans; [apply Hd|]. etrans; [apply T|]. by apply sc_same_graph.
  - intros x ->%list_elem_of_singleton. split; [done|]. split.
    + rewrite record_at_rec, decide_True by (split; [done|by apply live_lt]).
      rewrite grant_rec by done. by rewrite (sd_rec s s1 Hd).
    + rewrite Hk1. simpl. rewrite lookup_total_insert, decide_True; [done|]. split; [done|].
      rewrite Hd1, (gi_deadline s (bi_graph _ _ Hb)). apply live_lt, Hc.
  - intros x Hx. rewrite list_elem_of_singleton in Hx. split.
    + rewrite record_at_rec, decide_False by tauto. rewrite (th_rec h _ _ T) by done. apply (sd_rec s s1 Hd).
    + by rewrite Hk1, (th_deadline h _ _ T), Hd1.
  - repeat constructor.
  - intros x y ->%list_elem_of_singleton Hy _. by apply Hmin.
  - by rewrite Hk3.
  - pose proof (record_evolves nw h EventTransition from _ Hl2) as [_ _ _ _ _ F1 F2].
    destruct (sd_misc s s1 Hd), (sd_stats s s1 Hd). destruct T. destruct_and!.
    split_and!; try congruence. unfold record_at, appendLog. simpl.
    destruct (_ <=? _)%Z; simpl; [|]; destruct Hd as [_ _ _ _ [] _]; congruence.
  - by rewrite Hk2.
Qed.

Lemma granted_snoc kinds w now d hs h s s1 s2 :
  granted kinds w now d hs s s1 -> granted kinds w now d [h] s1 s2 ->
  granted kinds w now d (hs ++ [h]) s s2.
Proof.
  intros G1 G2. destruct (gr_new _ _ _ _ _ _ _ G2 h) as (Hc & Hr & Hd); [by left|].
  apply (granted_claimable _ _ _ _ _ _ _ _ G1) in Hc as [Hc Hn].
  destruct G1 as [I1 N1 S1 W1 O1 R1 B1 F1 M1 A1], G2 as [I2 N2 S2 W2 O2 R2 B2 F2 M2 A2].
  assert (Hless : forall a b, less_ready s1 a b = less_ready s a b).
  { intros a b. unfold less_ready. by rewrite F1, !(sg_priority s s1 S1). }
  split; try done; try congruence.
  - apply NoDup_app. split; [done|]. split; [|apply NoDup_singleton]. intros x Hx ->%list_elem_of_singleton. done.
  - by etrans.
  - intros x [Hx|Hx]%elem_of_app.
    + assert (x ∉ [h]) as Hx' by (rewrite list_elem_of_singleton; by intros ->).
      destruct (W1 x Hx) as (? & ? & ?), (O2 x Hx') as [E1 E2]. split_and!; [done|congruence|congruence].
    + apply list_elem_of_singleton in Hx as ->. destruct (O1 h Hn) as [E1 E2]. split_and!; [done|congruence|done].
  - intros x Hx. apply not_elem_of_app in Hx as [Hx1 Hx2].
    destruct (O1 x Hx1) as [E1 E2], (O2 x Hx2) as [E3 E4]. split; congruence.
  - apply StronglySorted_app_2; [|done|by repeat constructor].
    intros a b Ha ->%list_elem_of_singleton. by apply B1.
  - intros a x [Ha|Ha]%elem_of_app Hx Hnx; apply not_elem_of_app in Hnx as [Hn1 Hn2]; [by apply B1|].
    rewrite <- Hless. apply B2; [done| |done].
    destruct Hx as [[Hx1 Hx2] Hx3]. destruct (O1 x Hn1) as [E1 _]. unfold claimable, in_phase.
    rewrite (sg_live s s1 S1), E1. done.
  - destruct_and!. split_and!; congruence.
Qed.

(** *** Termination: every iteration takes a node out of a ready heap *)

Lemma foldr_perm {A} (g : A -> nat) l l' :
  l ≡ₚ l' -> foldr (fun a n => g a + n) 0 l = foldr (fun a n => g a + n) 0 l'.
Proof. induction 1; simpl; lia. Qed.

Lemma ready_count_insert s s' k H H' :
  s_ready s !! k = Some H -> s_ready s' = <[k := H']> (s_ready s) ->
  ready_count s + length (items H') = ready_count s' + length (items H).
Proof.
  intros E E'. unfold ready_count. rewrite E', <- insert_delete_eq.
  rewrite <- (insert_delete_id (s_ready s) k H E) at 1.
  rewrite !(foldr_perm (fun kh : string * Heap => length (items kh.2)) _ _
    (map_to_list_insert (delete k (s_ready s)) k _ (lookup_delete_eq _ _))). simpl. lia.
Qed.

Lemma popReady_count kinds s s' h :
  heap_inv s -> popReady kinds s = (s', Some h) -> ready_count s = S (ready_count s').
Proof.
  intros Hh E. unfold popReady in E. pose proof (best_of_ok s (candidates s kinds)) as Hb.
  destruct (best_of s (candidates s kinds)) as [[h' k]|]; [|done]. injection E as <- ->.
  destruct Hb as [(H & Hin & Hpk) _]. apply candidates_spec in Hin as [Hr _].
  assert (HR : readyHeap s k = H) by (unfold readyHeap; by rewrite Hr).
  pose proof (ready_count_insert s (set_readyHeap k (fst (Pq.Pop (less_ready s) (readyHeap s k))) s)
    k H _ Hr eq_refl) as Hcnt.
  destruct (good_pop _ _ _ h (hp_ready _ _ _ _ Hh k)) as (_ & _ & _ & _ & Hlen); [by rewrite HR|].
  rewrite HR in *. lia.
Qed.

Lemma ready_count_same s s' : s_ready s' = s_ready s -> ready_count s' = ready_count s.
Proof. unfold ready_count. by intros ->. Qed.

(** *** The loop of [Claim] *)

(** Why the loop may stop. *)
Definition claim_stops (kinds : list string) (cfg : ScopeConfig) (want : Z) (n : nat) (s : scope) : Prop :=
  (want <= Z.of_nat n)%Z \/
  ((0 < c_MaxInFlight cfg)%Z /\ (c_MaxInFlight cfg <= st_InProgress (s_stats s))%Z) \/
  (forall h, ~ claimable kinds s h).

Lemma lease_of_granted s s' h :
  s_name s' = s_name s -> rec s' h = rec s h -> s_deadline s' !!! h = s_deadline s !!! h ->
  lease_of s' h = lease_of s h.
Proof. intros E1 E2 E3. unfold lease_of, snapshot. by rewrite E1, E2, E3. Qed.

Lemma claim_loop_ok fuel req cfg now want d : forall (c c' : C) s0 s s' hs leases leases' out out',
  claim_loop fuel req cfg now want d c s leases out = (c', s', leases', out') ->
  granted (cr_Kinds req) (cr_WorkerID req) now d hs s0 s -> leases = lease_of s <$> hs ->
  ready_count s < fuel -> (Z.of_nat (length hs) <= Z.max 0 want)%Z ->
  exists hs', granted (cr_Kinds req) (cr_WorkerID req) now d hs' s0 s' /\ leases' = lease_of s' <$> hs' /\
              (Z.of_nat (length hs') <= Z.max 0 want)%Z /\
              claim_stops (cr_Kinds req) cfg want (length hs') s'.
Proof.
  induction fuel as [|fuel IH]; intros c c' s0 s s' hs leases leases' out out' E G El Hf Hw; [lia|].
  cbn [claim_loop] in E. unfold claim_stops. subst leases. rewrite length_fmap in E.
  destruct (Z.ltb_spec (Z.of_nat (length hs)) want) as [Hlt|Hge].
  2:{ simplify_eq. exists hs. split_and!; [done..|]. by left. }
  destruct (_ && _) eqn:Ei.
  { apply andb_true_iff in Ei as [Ei1%Z.ltb_lt Ei2%Z.leb_le]. simplify_eq. exists hs. split_and!; try done. auto. }
  pose proof (gr_inv _ _ _ _ _ _ _ G) as Hi.
  destruct (popReady (cr_Kinds req) s) as [s1 [h|]] eqn:Ep.
  2:{ pose proof (popReady_spec (cr_Kinds req) s (inv_heap _ Hi)) as Hs. rewrite Ep in Hs. simpl in Hs.
      apply popReady_None in Ep as ->. simplify_eq. exists hs. split_and!; try done. auto. }
  destruct (record _ _ _ c _) as [[c2 s2] ef] eqn:Er.
  destruct (claim_step _ _ _ _ _ _ _ _ _ _ _ _ Hi Ep Er) as [G1 Hrd].
  pose proof (granted_snoc _ _ _ _ _ _ _ _ _ G G1) as G2.
  eapply (IH _ _ s0 s2 s' (hs ++ [h])) in E; try done.
  - rewrite fmap_app. f_equal. apply list_fmap_ext. intros i x Hx%list_elem_of_lookup_2.
    pose proof (gr_misc _ _ _ _ _ _ _ G1). destruct_and!.
    destruct (gr_old _ _ _ _ _ _ _ G1 x) as [E1 E2].
    { rewrite list_elem_of_singleton. intros ->.
      pose proof (gr_nodup _ _ _ _ _ _ _ G2) as (_ & Hnd & _)%NoDup_app.
      apply (Hnd h Hx). by left. }
    by apply eq_sym, lease_of_granted.
  - pose proof (popReady_count _ _ _ _ (inv_heap _ Hi) Ep). rewrite (ready_count_same s1 s2 Hrd). lia.
  - rewrite length_app. simpl. lia.
Qed.

End Clocked.

(** * The operations of [lease.go] on a scope

    [Claim], [Complete], [Extend] and [Sweep] keep the invariant, and what
    each of them does to the leases of the scope. *)

(** ** Writes outside the invariant *)

Lemma inv_core s s' : same_core s s' -> same_log s s' -> inv s -> inv s'.
Proof.
  intros Hc Hlg [[G D S Q T L] H]. pose proof (sc_sched s s' Hc). split; [split|].
  - by eapply sc_graph_inv.
  - by eapply sc_deps_inv.
  - by eapply sc_sat_inv.
  - by eapply ss_status_inv.
  - by eapply ss_stats_inv.
  - by eapply log_inv_same.
  - by eapply ss_heap_inv.
Qed.

Lemma refreshComplete_core s : same_core s (refreshComplete s).
Proof. by split. Qed.

Lemma refreshComplete_log s : same_log s (refreshComplete s).
Proof. done. Qed.

Lemma refreshComplete_inv s : inv s -> inv (refreshComplete s).
Proof. apply inv_core; [apply refreshComplete_core|done]. Qed.

Lemma refreshComplete_step X s s' : step_ok X s s' -> step_ok X s (refreshComplete s').
Proof.
  intros [E I S H]. split; [|by apply refreshComplete_inv|auto|done].
  etrans; [exact E|]. by split.
Qed.

(** ** [Sweep] *)

Section Clocked.
Context {C : Type} `{!ClockSource C}.

Lemma promoteScheduled_ok now (c c' : C) s s' out :
  promoteScheduled now c s = (c', s', out) -> inv s ->
  step_ok nobody s s' /\
  (forall h, in_phase s' PhaseScheduled h -> (now < s_readyAt s' !!! h)%Z /\ rec s' h = rec s h) /\
  (forall h, phase (rec s h) <> PhaseScheduled -> rec s' h = rec s h).
Proof. intros E Hi. eapply promote_loop_ok; [exact E|done|lia]. Qed.

(** What [Sweep] and the first half of [Claim] share: reclaim, then promote. *)
Lemma tidy_ok now cfg limit (c c1 c2 : C) s s1 s2 out out1 out2 n more :
  reclaimExpired now cfg limit c s out = (c1, s1, out1, n, more) ->
  promoteScheduled now c1 s1 = (c2, s2, out2) -> inv s ->
  step_ok (expired now s) s s2 /\ reclaimed_ok now limit 0 s s1 n more /\
  (forall h, in_phase s2 PhaseScheduled h -> (now < s_readyAt s2 !!! h)%Z).
Proof.
  intros E1 E2 Hi. apply reclaimExpired_ok in E1; [|done]. pose proof (rc_step _ _ _ _ _ _ _ E1) as S1.
  apply promoteScheduled_ok in E2 as (S2 & P2 & _); [|apply S1]. split_and!; [|done|by intros h Hh; apply P2].
  eapply step_ok_trans; [done|]. eapply step_ok_weaken; [|exact S2]. done.
Qed.

Lemma Sweep_ok limit (c c' : C) s s' r :
  scope_Sweep limit c s = (c', s', r) -> inv s ->
  step_ok (expired (fst (clk_Now c)) s) s s'.
Proof.
  intros E Hi. unfold scope_Sweep in E. destruct (clk_Now c) as [now c0]. simpl.
  destruct (reclaimExpired _ _ _ _ _ _) as [[[[c1 s1] o1] n] more] eqn:E1.
  destruct (promoteScheduled _ _ _) as [[c2 s2] o2] eqn:E2. injection E as <- <- <-.
  apply refreshComplete_step. destruct (tidy_ok _ _ _ _ _ _ _ _ _ _ _ _ _ _ E1 E2 Hi) as [S _]. exact S.
Qed.

(** ** [Claim] *)

Definition claim_cfg (s : scope) : ScopeConfig := Resolved (s_cfg s).

(** [Claim] first tidies the scope up to [s1], then grants [hs]. *)
Record claimed_ok (req : ClaimRequest) (now : Z) (s s1 s' : scope) (hs : list nat) : Prop := {
  ca_tidy : step_ok (expired now s) s s1;
  ca_due : forall h, in_phase s1 PhaseScheduled h -> (now < s_readyAt s1 !!! h)%Z;
  ca_grant : granted (cr_Kinds req) (cr_WorkerID req) now (ClampLease (claim_cfg s) (cr_Timeout req)) hs s1 s';
  ca_max : (Z.of_nat (length hs) <= Z.max (cr_Max req) 1)%Z;
  ca_stop : claim_stops (cr_Kinds req) (claim_cfg s) (Z.max (cr_Max req) 1) (length hs) s'
}.

(** The scope once [Claim] has tidied it up. *)
Definition tidied (c : C) (s : scope) : scope :=
  let cfg := claim_cfg s in
  let '(now, c0) := clk_Now c in
  let '(c1, s1, _, _, _) := reclaimExpired now cfg (c_SweepBatchSize cfg) c0 s [] in
  snd (fst (promoteScheduled now c1 s1)).

Lemma Claim_tidies req (c c' : C) s s' r :
  scope_Claim req c s = (c', s', r) -> inv s ->
  exists hs, claimed_ok req (fst (clk_Now c)) s (tidied c s) s' hs /\ cl_Leases r = lease_of s' <$> hs.
Proof.
  intros E Hi. unfold scope_Claim, tidied, claim_cfg in *. destruct (clk_Now c) as [now c0]. simpl.
  destruct (reclaimExpired _ _ _ _ _ _) as [[[[c1 s1] o1] n] more] eqn:E1.
  destruct (promoteScheduled _ _ _) as [[c2 s2] o2] eqn:E2. simpl.
  destruct (claim_loop _ _ _ _ _ _ _ _ _ _) as [[[c3 s3] ls] o3] eqn:E3. injection E as <- <- <-.
  destruct (tidy_ok _ _ _ _ _ _ _ _ _ _ _ _ _ _ E1 E2 Hi) as (S & _ & P).
  eapply (claim_loop_ok _ _ _ _ _ _ _ _ s2 s2 _ []) in E3 as (hs & G & -> & Hm & Hst); try done.
  - exists hs. split; [|done]. split; try done. lia.
  - apply granted_nil, S.
  - lia.
  - simpl. lia.
Qed.

Lemma Claim_ok req (c c' : C) s s' r :
  scope_Claim req c s = (c', s', r) -> inv s ->
  exists s1 hs, claimed_ok req (fst (clk_Now c)) s s1 s' hs /\ cl_Leases r = lease_of s' <$> hs.
Proof. intros E Hi. destruct (Claim_tidies _ _ _ _ _ _ E Hi) as (hs & H). by exists (tidied c s), hs. Qed.

(** ** [Complete] *)

(** A write that only a worker's result or name sees, then the end of the node. *)
Lemma end_claimed_ok h f st rs msg (c c' : C) s s' out out' l sc r :
  terminate h st rs msg c (upd_rec h f s) out = (c', s', out') ->
  keeps_fixed f -> (forall x, deps (f x) = deps x) -> (forall x, phase (f x) = phase x) ->
  (forall x, status (f x) = status x) -> (forall x, fence (f x) = fence x) ->
  live s h -> phase (rec s h) = PhaseClaimed ->
  ((st = StatusSuccess /\ rs = ReasonNone) \/ st = StatusError) ->
  base_inv none_pending s -> heap_at h l sc r s ->
  step_ok (eq h) s s' /\ outcome (rec s' h) = (PhaseDone, st, rs, msg, result_ (f (rec s h))).
Proof.
  intros E Hf Hd Hp Hs Hfe Hl Hc Hst Hb Hat.
  pose proof (upd_touches s h Hl f Hf Hd) as T. set (s1 := upd_rec h f s) in *.
  assert (Hr : rec s1 h = f (rec s h)) by (by apply upd_rec_self).
  assert (Hl1 : live s1 h) by (by apply (sg_live _ _ (th_graph h _ _ T))).
  eapply terminate_ok in E as [[E1 E2 E3 E4 E5] Ho].
  - rewrite Hr in Ho. split; [|done]. split; [|done| |].
    + etrans; [|done]. eapply touches_evolves; [done|congruence|by rewrite Hr|by rewrite Hr, Hp].
    + intros x Hx. apply E5. destruct (decide (x = h)) as [->|]; [|by apply (touches_settled h s s1 T)].
      apply settled_phase; rewrite Hr, Hp; congruence.
    + intros x Hx. eapply holds_trans; [by eapply (touches_holds h s s1); [|congruence]|].
      apply E3. rewrite list_elem_of_singleton. congruence.
  - split; [done|]. simpl. naive_solver.
  - rewrite Hr, Hp. congruence.
  - apply upd_base; try done. congruence.
  - by apply upd_heap_at.
Qed.

(** What an accepted completion does to the node it is about. *)
Definition completed (req : CompleteRequest) (c : C) (s s' : scope) (h : nat) (res : CompleteResult) : Prop :=
  let rs := if bool_decide (co_Reason req = ReasonNone) then ReasonWorkerError else co_Reason req in
  let '(now, c) := clk_Now c in
  if co_Success req then
    outcome (rec s' h) = (PhaseDone, StatusSuccess, ReasonNone, ""%string, co_Result req)
    /\ (Z.of_nat (length (co_Result req)) <= c_PayloadCap (claim_cfg s))%Z
    /\ cp_Retrying res = false
  else if bool_decide (rs = ReasonSkipped) then
    outcome (rec s' h) = (PhaseDone, StatusError, ReasonSkipped, co_Message req, result_ (rec s h))
    /\ cp_Retrying res = false
  else
    failed_spec h rs (co_Message req) (claim_cfg s) now c s s'
    /\ (cp_Retrying res = true <-> phase (rec s' h) = PhaseScheduled).

(** The lease a request carries is the one currently held on [h]. *)
Definition current (s : scope) (l : Lease) (h : nat) : Prop :=
  lookup_id s (l_NodeID l) = Some h /\ phase (rec s h) = PhaseClaimed /\ epoch (rec s h) = l_Epoch l.

Lemma fenced_false r l : fenced r l = false <-> phase r = PhaseClaimed /\ epoch r = l_Epoch l.
Proof.
  unfold fenced. rewrite orb_false_iff, !negb_false_iff, bool_decide_eq_true, Z.eqb_eq. done.
Qed.

Lemma lookup_live s i h : graph_inv s -> lookup_id s i = Some h -> live s h /\ id (rec s h) = i.
Proof. intros Hg. apply (gi_index s Hg). Qed.

Lemma Complete_ok req (c c' : C) s s' r :
  scope_Complete req c s = (c', s', r) -> inv s ->
  match r with
  | Fail e => s' = s
  | Ok res => exists h, current s (co_Lease req) h /\ step_ok (eq h) s s' /\ completed req c s s' h res
  end.
Proof.
  intros E Hi. unfold scope_Complete in E.
  destruct (lookup_id s _) as [h|] eqn:El; [|by simplify_eq].
  destruct (fenced (rec s h) (co_Lease req)) eqn:Ef; [by simplify_eq|].
  apply fenced_false in Ef as [Hp He]. pose proof Hi as [Hb Hh].
  destruct (lookup_live s _ h (bi_graph _ _ Hb) El) as [Hl _].
  assert (Hcur : current s (co_Lease req) h) by done. unfold completed.
  destruct (clk_Now c) as [now c1]. destruct (co_Success req).
  - destruct (Z.ltb_spec (c_PayloadCap (Resolved (s_cfg s))) (Z.of_nat (length (co_Result req)))) as [|Hle]; [by simplify_eq|].
    destruct (terminate _ _ _ _ _ _ _) as [[c2 s2] o2] eqn:E2. injection E as <- <- <-. exists h.
    eapply (end_claimed_ok h _ _ _ _ _ _ s) in E2 as [S Ho]; try done; [|by left|by apply heap_at_inv].
    split_and!; [done|by apply refreshComplete_step|done|done|done].
  - destruct (bool_decide (_ = ReasonSkipped)) eqn:Er.
    + change ((leases_Remove h s) <| s_deadline ::= <[h := 0%Z]> |>) with (drop_lease h s) in E. cbv zeta in E.
      destruct (terminate _ _ _ _ _ _ _) as [[c2 s2] o2] eqn:E2. injection E as <- <- <-. exists h.
      pose proof (drop_lease_data h s) as Hd. pose proof (drop_lease_at h s Hh) as Hat.
      assert (Hl1 : live (drop_lease h s) h) by (by apply (sg_live _ _ (sd_graph _ _ Hd))).
      eapply (end_claimed_ok h _ _ _ _ _ _ (drop_lease h s)) in E2 as [[V1 V2 V3 V4] Ho]; try done;
        [|by right|by eapply sd_base].
      split_and!; [done| |done|done]. apply refreshComplete_step. split; [|done| |].
      * etrans; [by apply sd_evolves|done].
      * intros x Hx. by apply V3, (sd_settled _ _ Hd).
      * intros x Hx. eapply holds_trans; [by apply (drop_lease_holds h); congruence|auto].
    + destruct (failAttempt _ _ _ _ _ _ _ _) as [[c2 s2] o2] eqn:E2. injection E as <- <- <-. exists h.
      apply failAttempt_ok in E2 as [S F]; [|done|done].
      split_and!; [done|by apply refreshComplete_step|done|].
      change (rec (refreshComplete s2) h) with (rec s2 h).
      destruct (bool_decide (phase (rec s2 h) = PhaseScheduled)) eqn:Eb; simpl.
      * apply bool_decide_eq_true in Eb. done.
      * apply bool_decide_eq_false in Eb. done.
Qed.

(** ** [Extend] *)

Lemma Extend_ok req (c c' : C) s s' r :
  scope_Extend req c s = (c', s', r) -> inv s ->
  match r with
  | Fail e => s' = s
  | Ok t =>
    exists h, let d := i64 (fst (clk_Now c) + ClampLease (claim_cfg s) (ex_Timeout req)) in
      current s (ex_Lease req) h /\ same_data s s' /\ inv s' /\ t = unix d /\
      s_deadline s' = <[h := d]> (s_deadline s)
  end.
Proof.
  intros E Hi. unfold scope_Extend in E.
  destruct (lookup_id s _) as [h|] eqn:El; [|by simplify_eq].
  destruct (fenced (rec s h) (ex_Lease req)) eqn:Ef; [by simplify_eq|].
  apply fenced_false in Ef as [Hp He]. pose proof Hi as [Hb Hh].
  destruct (lookup_live s _ h (bi_graph _ _ Hb) El) as [Hl _].
  destruct (clk_Now c) as [now c1]. cbv zeta in E. unfold claim_cfg. simpl fst.
  set (d := i64 (now + ClampLease (Resolved (s_cfg s)) (ex_Timeout req))) in *.
  injection E as <- <- <-. exists h.
  assert (Hd : same_data s (s <| s_deadline ::= <[h := d]> |>
    <| s_leases := fst (Pq.Fix (less_leases (s <| s_deadline ::= <[h := d]> |>)) (s_leases s) h) |>)).
  { split; try done. split; try done. simpl. by rewrite length_insert. }
  split_and!; [done|exact Hd| | |done].
  - split; [by apply (sd_base _ _ Hd)|]. destruct Hh as [H1 H2 H3]. split; [|exact H2|exact H3].
    eapply (good_fix (less_leases s)); [apply _..| |exact H1]. by apply (agree_leases h s _ d).
  - f_equal. simpl. rewrite lookup_total_insert, decide_True; [done|]. split; [done|].
    rewrite (gi_deadline s (bi_graph _ _ Hb)). by apply live_lt.
Qed.

End Clocked.

(** What a grant leaves alone. *)
Lemma granted_holds kinds w now d hs s s' x : granted kinds w now d hs s s' -> holds s s' x.
Proof.
  intros G Hp. destruct (decide (x ∈ hs)) as [Hx|Hx].
  - destruct (gr_new _ _ _ _ _ _ _ G x Hx) as ([[_ Hr] _] & _). congruence.
  - by destruct (gr_old _ _ _ _ _ _ _ G x Hx) as [-> ->].
Qed.

Lemma granted_settled kinds w now d hs s s' x :
  granted kinds w now d hs s s' -> settled s x -> settled s' x.
Proof.
  intros G. destruct (decide (x ∈ hs)) as [Hx|Hx].
  - intros _. apply settled_phase; by destruct (gr_new _ _ _ _ _ _ _ G x Hx) as (_ & -> & _).
  - apply settled_rec. by destruct (gr_old _ _ _ _ _ _ _ G x Hx) as [-> _].
Qed.

Lemma granted_done kinds w now d hs s s' x :
  granted kinds w now d hs s s' -> phase (rec s x) = PhaseDone -> rec s' x = rec s x.
Proof.
  intros G Hp. destruct (decide (x ∈ hs)) as [Hx|Hx].
  - destruct (gr_new _ _ _ _ _ _ _ G x Hx) as ([[_ Hr] _] & _). congruence.
  - by destruct (gr_old _ _ _ _ _ _ _ G x Hx) as [-> _].
Qed.

(** ** The in-flight limit *)

Definition in_flight (s : scope) : nat := count (in_bucket BInProgress) (s_recs s).

Lemma in_flight_bucket r : in_bucket BInProgress r = true <-> alive r = true /\ phase r = PhaseClaimed.
Proof.
  unfold in_bucket, bucket. rewrite andb_true_iff, bool_decide_eq_true.
  destruct (phase r); try (by split; intros []). by destruct (bool_decide _); split; intros [].
Qed.

Lemma in_flight_stats s : inv s -> st_InProgress (s_stats s) = Z.of_nat (in_flight s).
Proof.
  intros Hi. pose proof (si_bucket _ (bi_stats _ _ (inv_base _ Hi)) BInProgress) as E. simpl in E.
  rewrite E. unfold in_flight. apply u64_small. pose proof (gi_small _ (bi_graph _ _ (inv_base _ Hi))).
  pose proof (count_le_length (in_bucket BInProgress) (s_recs s)). lia.
Qed.

Lemma in_flight_evolves s s' : evolves s s' -> in_flight s' <= in_flight s.
Proof.
  intros E. apply count_mono; [apply (sg_len _ _ (ev_graph _ _ E))|]. intros i x y Hx Hy.
  apply list_lookup_total_correct in Hx, Hy. fold (rec s' i) in Hx. fold (rec s i) in Hy. subst.
  rewrite !in_flight_bucket. intros [Ha Hp]. split; [|by apply (ev_claimed _ _ E)].
  apply live_alive, (ev_live _ _ E), live_alive, Ha.
Qed.

Lemma in_flight_granted kinds w now d h s s' : granted kinds w now d [h] s s' -> in_flight s' = S (in_flight s).
Proof.
  intros G. pose proof (sg_len _ _ (gr_graph _ _ _ _ _ _ _ G)) as Hlen.
  destruct (gr_new _ _ _ _ _ _ _ G h) as ([[Hl Hp] _] & Hr & _); [by left|].
  assert (E : s_recs s' = <[h := rec s' h]> (s_recs s)).
  { apply list_eq_same_length with (length (s_recs s)); [by rewrite length_insert|done|].
    intros i x y _ Hx Hy. apply list_lookup_total_correct in Hx, Hy. subst.
    rewrite lookup_total_insert. case_decide as Hd; [by destruct Hd as [-> _]|].
    apply (gr_old _ _ _ _ _ _ _ G). rewrite list_elem_of_singleton. intros ->. apply Hd. by split; [|apply live_lt]. }
  assert (Hh : s_recs s !! h = Some (rec s h)) by (by apply list_lookup_lookup_total_lt, live_lt).
  unfold in_flight. rewrite E. pose proof (count_insert (in_bucket BInProgress) _ _ _ (rec s' h) Hh) as Hc.
  assert (in_bucket BInProgress (rec s' h) = true) as E1.
  { apply in_flight_bucket. rewrite Hr. split; [|done]. by apply live_alive in Hl. }
  assert (in_bucket BInProgress (rec s h) = false) as E2.
  { apply not_true_iff_false. rewrite in_flight_bucket, Hp. by intros []. }
  rewrite E1, E2 in Hc. simpl in Hc. lia.
Qed.

Section Limit.
Context {C : Type} `{!ClockSource C}.

Lemma claim_loop_limit fuel req cfg now want d : forall (c c' : C) s s' leases leases' out out',
  claim_loop fuel req cfg now want d c s leases out = (c', s', leases', out') -> inv s ->
  (0 < c_MaxInFlight cfg)%Z -> (Z.of_nat (in_flight s') <= Z.max (Z.of_nat (in_flight s)) (c_MaxInFlight cfg))%Z.
Proof.
  induction fuel as [|fuel IH]; intros c c' s s' leases leases' out out' E Hi Hm; [simplify_eq/=; lia|].
  cbn [claim_loop] in E. destruct (_ <? want)%Z; [|simplify_eq; lia].
  destruct (_ && _) eqn:Ei; [simplify_eq; lia|].
  apply andb_false_iff in Ei as [Ei%Z.ltb_ge|Ei%Z.leb_gt]; [lia|]. rewrite in_flight_stats in Ei by done.
  destruct (popReady (cr_Kinds req) s) as [s1 [h|]] eqn:Ep; [|apply popReady_None in Ep as ->; simplify_eq; lia].
  destruct (record _ _ _ c _) as [[c2 s2] ef] eqn:Er.
  destruct (claim_step _ _ _ _ _ _ _ _ _ _ _ _ Hi Ep Er) as [G1 _].
  apply IH in E; [|apply G1|done]. rewrite (in_flight_granted _ _ _ _ _ _ _ G1) in E. lia.
Qed.

Lemma Claim_limit req (c c' : C) s s' r :
  scope_Claim req c s = (c', s', r) -> inv s -> (0 < c_MaxInFlight (claim_cfg s))%Z ->
  (Z.of_nat (in_flight s') <= Z.max (Z.of_nat (in_flight s)) (c_MaxInFlight (claim_cfg s)))%Z.
Proof.
  intros E Hi Hm. unfold scope_Claim in E. destruct (clk_Now c) as [now c0].
  destruct (reclaimExpired _ _ _ _ _ _) as [[[[c1 s1] o1] n] more] eqn:E1.
  destruct (promoteScheduled _ _ _) as [[c2 s2] o2] eqn:E2.
  destruct (claim_loop _ _ _ _ _ _ _ _ _ _) as [[[c3 s3] ls] o3] eqn:E3. injection E as <- <- <-.
  destruct (tidy_ok _ _ _ _ _ _ _ _ _ _ _ _ _ _ E1 E2 Hi) as (S & _ & _).
  apply claim_loop_limit in E3; [|apply S|done]. pose proof (in_flight_evolves _ _ (so_evolves _ _ _ S)).
  unfold claim_cfg in *. lia.
Qed.

End Limit.
