(* ===== verification/EdgeFacts.v ===== *)
(** * The rank reassignment of [reorder]

    [reorder] of [topo.go] is an instance of the renumbering of [Renumber]. *)
From S2P Require Import Prelude Types Heap Scope Topo TopoFacts Renumber Config HeapFacts Invariant ScopeFacts DepFacts Evolve.

(** ** [assign] *)

Lemma assign_notin ns pool ord n : n ∉ ns -> assign ns pool ord !!! n = ord !!! n.
Proof.
  unfold assign. revert pool ord. induction ns as [|m ns IH]; intros [|v pool] ord Hn; simpl; try done.
  rewrite IH by set_solver. apply list_lookup_total_insert_ne. set_solver.
Qed.

Lemma assign_length ns pool ord : length (assign ns pool ord) = length ord.
Proof.
  unfold assign. revert pool ord. induction ns as [|m ns IH]; intros [|v pool] ord; simpl; try done.
  by rewrite IH, length_insert.
Qed.

Lemma assign_in ns pool ord i n v :
  NoDup ns -> (forall m, m ∈ ns -> m < length ord) ->
  ns !! i = Some n -> pool !! i = Some v -> assign ns pool ord !!! n = v.
Proof.
  unfold assign. revert pool ord i. induction ns as [|m ns IH]; intros [|w pool] ord i Hnd Hlt Hn Hv;
    try done.
  apply NoDup_cons in Hnd as [Hm Hnd]. simpl. destruct i as [|i]; simplify_eq/=.
  - fold (assign ns pool (<[n:=v]> ord)). rewrite assign_notin by done.
    apply list_lookup_total_insert_eq. apply Hlt. left.
  - apply (IH _ _ i); auto. intros m' Hm'. rewrite length_insert. apply Hlt. by right.
Qed.

(** ** [byOrd] *)

#[export] Instance rank_le_trans ord : Transitive (rank_le ord).
Proof. intros a b c. unfold rank_le. lia. Qed.

#[export] Instance rank_le_total ord : Total (rank_le ord).
Proof. intros a b. unfold rank_le. lia. Qed.

Lemma byOrd_perm ord xs : byOrd ord xs ≡ₚ xs.
Proof. apply merge_sort_Permutation. Qed.

Lemma byOrd_incr ord xs :
  NoDup xs -> (forall a b, a ∈ xs -> b ∈ xs -> ord !!! a = ord !!! b -> a = b) ->
  incr ((fun n => ord !!! n) <$> byOrd ord xs).
Proof. intros Hnd Hinj. apply (sort_incr (fun n => ord !!! n)); [apply _|apply _|intros a b H; exact H|done|done]. Qed.

(** ** [reorder] *)

Section Reorder.
Context (ord : list Z) (B F : list nat).

Notation rk := (fun n => ord !!! n).

Lemma reorder_out u : u ∉ B -> u ∉ F -> reorder B F ord !!! u = ord !!! u.
Proof. intros HB HF. apply assign_notin. rewrite elem_of_app, !byOrd_perm. tauto. Qed.

Lemma reorder_at i u :
  NoDup B -> NoDup F -> (forall u, u ∈ B -> u ∉ F) -> (forall u, u ∈ B \/ u ∈ F -> u < length ord) ->
  (byOrd ord B ++ byOrd ord F) !! i = Some u ->
  pool rk (byOrd ord B) (byOrd ord F) !! i = Some (reorder B F ord !!! u).
Proof.
  intros HnB HnF Hdisj Hlt Hi. pose proof (lookup_lt_Some _ _ _ Hi) as Hl. rewrite length_app in Hl.
  destruct (pool rk (byOrd ord B) (byOrd ord F) !! i) as [v|] eqn:Hv.
  - f_equal. symmetry. apply (assign_in _ _ _ i); [..|done|done].
    + apply NoDup_app. split_and!; [by rewrite byOrd_perm| |by rewrite byOrd_perm].
      intros w. rewrite !byOrd_perm. apply Hdisj.
    + intros m Hm. apply Hlt. by rewrite elem_of_app, !byOrd_perm in Hm.
  - apply lookup_ge_None in Hv. rewrite pool_length in Hv. lia.
Qed.

End Reorder.

(** * [addEdgeOrder] accepts an edge exactly when it keeps the graph acyclic *)

Section PearceKelly.
Context (s : scope) (Hg : graph_wf s) (Hr : ranked s).
Context (x y : nat) (Hx : live s x) (Hy : live s y) (Hxy : x <> y).

Notation rk := (rank s).

Lemma edges_live u v : edge s u v -> live s u /\ live s v.
Proof. intros He. split; by apply (gw_live s Hg u v). Qed.

Section WithRegions.
Context (B F : list nat) (Hrg : regions rk (edge s) x y B F).

Let s' := s <| s_ord ::= reorder B F |>.
Let Hin : forall u, u ∈ B \/ u ∈ F -> live s u := region_live rk (edge s) (live s) edges_live x y Hx Hy B F Hrg.
Let Hdisj : forall u, u ∈ B -> u ∉ F := regions_disjoint rk (edge s) (rk_mono s Hr) x y B F Hrg.
Let Hinj : forall u v, u ∈ B \/ u ∈ F -> v ∈ B \/ v ∈ F -> rk u = rk v -> u = v :=
  region_inj rk (edge s) (live s) edges_live (rk_inj s Hr) x y Hx Hy B F Hrg.

Lemma reorder_incr_B : incr (rk <$> byOrd (s_ord s) B).
Proof. apply byOrd_incr; [apply Hrg|]. intros a b Ha Hb. apply Hinj; auto. Qed.

Lemma reorder_incr_F : incr (rk <$> byOrd (s_ord s) F).
Proof. apply byOrd_incr; [apply Hrg|]. intros a b Ha Hb. apply Hinj; auto. Qed.

Lemma region_at i u :
  (byOrd (s_ord s) B ++ byOrd (s_ord s) F) !! i = Some u ->
  pool rk (byOrd (s_ord s) B) (byOrd (s_ord s) F) !! i = Some (rank s' u).
Proof.
  apply reorder_at; [apply Hrg|apply Hrg|done|]. intros v Hv. rewrite (rk_len s Hr). by apply Hin.
Qed.

Lemma new_rank_out u : u ∉ B -> u ∉ F -> rank s' u = rank s u.
Proof. apply (reorder_out (s_ord s) B F). Qed.

Lemma reorder_ranked : ranked s' /\ (rank s' x < rank s' y)%Z.
Proof.
  pose proof (byOrd_perm (s_ord s) B) as PB. pose proof (byOrd_perm (s_ord s) F) as PF.
  split; [split|].
  - unfold s'. simpl. unfold reorder. by rewrite assign_length, (rk_len s Hr).
  - intros u v He. apply (renumber_mono rk (edge s) (live s) edges_live (rk_mono s Hr) (rk_inj s Hr) x y Hx Hy B F
      Hrg _ _ (rank s') PB PF reorder_incr_B reorder_incr_F region_at new_rank_out u v He).
  - intros u v Hu Hv. apply (renumber_inj rk (edge s) (live s) edges_live (rk_mono s Hr) (rk_inj s Hr) x y Hx Hy B F
      Hrg _ _ (rank s') PB PF region_at new_rank_out u v Hu Hv).
  - apply (renumber_new rk (edge s) (live s) edges_live (rk_mono s Hr) (rk_inj s Hr) x y Hx Hy B F
      Hrg _ _ (rank s') PB PF region_at).
Qed.

(** No rank value is invented. *)
Lemma reorder_ranks u : live s u -> exists v, live s v /\ rank s' u = rank s v.
Proof.
  apply (renumber_values rk (edge s) (live s) edges_live x y Hx Hy B F Hrg _ _ (rank s')
    (byOrd_perm (s_ord s) B) (byOrd_perm (s_ord s) F) region_at new_rank_out).
Qed.

End WithRegions.

(** What [addEdgeOrder] returns, by outcome. *)
Lemma addEdgeOrder_cases :
  let '(s', r) := addEdgeOrder x y s in
  match cyclePath r with
  | Some path => s' = s /\ is_path s path /\ head path = Some y /\ last path = Some x
  | None => s' = s <| s_ord := s_ord s' |> /\ ~ reach s y x /\
            ranked s' /\ (rank s' x < rank s' y)%Z /\
            (forall u, live s u -> exists v, live s v /\ rank s' u = rank s v) /\
            (forall u, (rank s u < rank s y)%Z \/ (rank s x < rank s u)%Z -> rank s' u = rank s u)
  end.
Proof.
  unfold addEdgeOrder. fold (rank s x) (rank s y).
  destruct (Z.ltb_spec (rank s x) (rank s y)) as [Hlt|Hge]; simpl.
  { split_and!; [by destruct s|by intros ?%(reach_rank s Hr); lia|done|done|eauto|done]. }
  assert (Hlt : (rank s y < rank s x)%Z).
  { assert (rank s x <> rank s y); [|lia]. intros E. apply Hxy. by apply (rk_inj s Hr). }
  pose proof (forwardSearch_ok s Hg Hr y (rank s x) Hy Hlt) as HF.
  destruct (forwardSearch s y (rank s x)) as [[F nF] [path|]]; simpl.
  { destruct HF as (x' & Ex & Hx' & Hp & Hh & Hl). split_and!; [done|done|done|].
    by rewrite Hl, (rk_inj s Hr x' x Hx' Hx Ex). }
  pose proof (backwardSearch_ok s Hg Hr x (rank s y) Hx Hlt) as HB.
  destruct (backwardSearch s x (rank s y)) as [B nB]. simpl.
  assert (Hrg : regions rk (edge s) x y B F) by (split; naive_solver).
  split_and!; [done|by apply (no_route rk (edge s) (rk_mono s Hr) x y B F)|by apply reorder_ranked..|by apply reorder_ranks|].
  intros u Hu. apply new_rank_out; intros Hin; pose proof (region_rank rk (edge s) (rk_mono s Hr) x y B F Hrg u); intuition lia.
Qed.

End PearceKelly.

(** * Adding and dropping one edge

    [linkEdge] after an accepting [addEdgeOrder], and [unlinkEdge], keep the
    invariant and change the graph by exactly that edge. *)

(** [s'] differs from [s] in edges, ranks and tallies only. *)
Record relinks (s s' : scope) : Prop := {
  rl_sched : same_sched s s';
  rl_log : same_log s s';
  rl_rec : forall h, exists d, rec s' h = (rec s h) <| deps := d |>;
  rl_dead : forall h, alive (rec s h) = false -> rec s' h = rec s h;
  rl_lens : length (s_succ s') = length (s_succ s) /\ length (s_pred s') = length (s_pred s);
  rl_index : s_index s' = s_index s /\ s_free s' = s_free s /\ s_nextOrd s' = s_nextOrd s;
  rl_misc : s_epochFloor s' = s_epochFloor s /\ s_cfg s' = s_cfg s /\ s_sealed s' = s_sealed s
}.

#[export] Instance relinks_preorder : PreOrder relinks.
Proof.
  split.
  - intros s. split; try done. intros h. exists (deps (rec s h)). by destruct (rec s h).
  - intros s1 s2 s3 [A1 B1 C1 D1 E1 F1 G1] [A2 B2 C2 D2 E2 F2 G2].
    split; try (destruct_and!; split_and?; congruence).
    + by etrans.
    + destruct B1, B2. split; congruence.
    + intros h. destruct (C1 h) as [d1 H1], (C2 h) as [d2 H2]. exists d2. by rewrite H2, H1.
    + intros h Hd. rewrite D2; [by apply D1|]. by rewrite D1.
Qed.

Lemma relinks_base s s' :
  relinks s s' -> base_inv none_pending s -> graph_inv s' -> deps_inv s' -> sat_inv none_pending s' ->
  base_inv none_pending s'.
Proof.
  intros R [G D S Q T L] G' D' S'. split; try done.
  - eapply ss_status_inv; [apply R|done].
  - eapply ss_stats_inv; [apply R|done].
  - eapply log_inv_same; [apply R|done].
Qed.

(** The parts of [graph_inv] that do not speak about edges. *)
Lemma relinks_graph s s' :
  relinks s s' -> graph_inv s -> graph_wf s' -> ranked s' ->
  (forall u, NoDup (s_succ s' !!! u)) -> (forall v, NoDup (from <$> s_pred s' !!! v)) ->
  (forall h, live s h -> (rank s' h <= s_nextOrd s)%Z) -> graph_inv s'.
Proof.
  intros [A B C D E F G] [? ? ? ? ? ? Hi Hn Hf Hdd ? ? ? ? ? ?] W R Ns Np Hr.
  pose proof (ss_len s s' A) as EL. destruct (ss_keys s s' A) as (K1 & K2 & K3). destruct_and!.
  split; try congruence; try done.
  - intros i h. rewrite (ss_live s s' A). destruct (C h) as [d ->]. simpl.
    replace (s_index s') with (s_index s) by congruence. apply Hi.
  - intros h. replace (s_free s') with (s_free s) by congruence. rewrite (ss_alive s s' A), EL. apply Hf.
  - intros h. rewrite (ss_alive s s' A). intros Hd. rewrite D by done. auto.
  - intros h Hh%(ss_live s s' A). replace (s_nextOrd s') with (s_nextOrd s) by congruence. auto.
Qed.

Lemma relinks_eclass s s' e : relinks s s' -> eclass s' e = eclass s e.
Proof.
  intros R. unfold eclass.
  by rewrite (ss_status s s' (rl_sched s s' R)), (ss_reason s s' (rl_sched s s' R)).
Qed.

Lemma relinks_dcount s s' v d :
  relinks s s' -> s_pred s' !!! v = s_pred s !!! v -> dcount s' v d = dcount s v d.
Proof. intros R E. apply dcount_same; [done|]. intros e _. by apply relinks_eclass. Qed.

(** ** [linkEdge] *)

Definition link_class (s : scope) (f : nat) : Dep :=
  if bool_decide (phase (rec s f) = PhaseDone) then class_of (status (rec s f)) (reason (rec s f)) else DUnsat.

Section Link.
Context (s s1 : scope) (f to : nat).
Hypothesis Hb : base_inv none_pending s.
Hypothesis Hf : live s f.
Hypothesis Ht : live s to.
Hypothesis Hne : f <> to.
Hypothesis Hnew : ~ edge s f to.
Context (r : topoResult).
Hypothesis Hord : addEdgeOrder f to s = (s1, r).
Hypothesis Hacc : cyclePath r = None.

Let Hg : graph_inv s := bi_graph _ _ Hb.
Let s' := linkEdge f to s1.

Lemma link_order :
  s1 = s <| s_ord := s_ord s1 |> /\ ranked s1 /\ (rank s1 f < rank s1 to)%Z /\
  (forall u, live s u -> exists v, live s v /\ rank s1 u = rank s v) /\ ~ reach s to f.
Proof.
  pose proof (addEdgeOrder_cases s (gi_wf s Hg) (gi_ranked s Hg) f to Hf Ht Hne) as H.
  rewrite Hord, Hacc in H. tauto.
Qed.

Lemma link_rec x :
  rec s' x = if decide (x = to) then set_deps (fun d =>
      if negb (bool_decide (phase (rec s f) = PhaseDone)) then d <| Unsatisfied ::= fun n => u32 (n + 1) |>
      else tally (status (rec s f)) (reason (rec s f)) d) (rec s to) else rec s x.
Proof.
  destruct link_order as (E & _). unfold s', linkEdge. rewrite E. rewrite (rec_upd to). simpl.
  destruct (decide (x = to)) as [->|]; [rewrite decide_True; [done|split; [done|by apply live_lt]]|].
  rewrite decide_False; [done|tauto].
Qed.

Lemma link_pred v :
  s_pred s' !!! v = s_pred s !!! v ++
    (if decide (v = to) then [mkPred f (bool_decide (phase (rec s f) = PhaseDone))] else []).
Proof.
  destruct link_order as (E & _). unfold s', linkEdge. rewrite E. simpl. rewrite lookup_total_alter.
  destruct (decide (v = to)) as [->|].
  - rewrite decide_True; [done|]. rewrite (gi_pred s Hg). by split; [|apply live_lt].
  - rewrite decide_False by tauto. by rewrite app_nil_r.
Qed.

Lemma link_succ u : s_succ s' !!! u = s_succ s !!! u ++ (if decide (u = f) then [to] else []).
Proof.
  destruct link_order as (E & _). unfold s', linkEdge. rewrite E. simpl. rewrite lookup_total_alter.
  destruct (decide (u = f)) as [->|].
  - rewrite decide_True; [done|]. rewrite (gi_succ s Hg). by split; [|apply live_lt].
  - rewrite decide_False by tauto. by rewrite app_nil_r.
Qed.

Lemma link_edge u v : edge s' u v <-> edge s u v \/ (u = f /\ v = to).
Proof.
  unfold edge. rewrite link_succ, elem_of_app. destruct (decide (u = f)); [|set_solver].
  rewrite list_elem_of_singleton. tauto.
Qed.

Lemma link_relinks : relinks s s'.
Proof.
  destruct link_order as (E & _). split.
  - split; try (unfold s', linkEdge; rewrite E; done).
    unfold s', linkEdge. rewrite E. simpl.
    by apply sview_alter.
  - unfold s', linkEdge; rewrite E; done.
  - intros h. rewrite link_rec. destruct (decide (h = to)) as [->|]; [by eexists|].
    exists (deps (rec s h)). by destruct (rec s h).
  - intros h Hd. rewrite link_rec. destruct (decide (h = to)) as [->|]; [|done].
    destruct Ht. congruence.
  - unfold s', linkEdge. rewrite E. simpl. by rewrite !length_alter.
  - unfold s', linkEdge. rewrite E. done.
  - unfold s', linkEdge. rewrite E. done.
Qed.

Lemma link_rank u : rank s' u = rank s1 u.
Proof. done. Qed.

Lemma link_graph : graph_inv s'.
Proof.
  destruct link_order as (E & [R1 R2 R3] & Hlt & Hval & _). pose proof link_relinks as Rl.
  assert (Hlive : forall h, live s' h <-> live s h) by apply (ss_live s s' (rl_sched _ _ Rl)).
  assert (Hed : forall u v, edge s1 u v <-> edge s u v) by (intros; by rewrite E).
  apply (relinks_graph s s' Rl Hg).
  - split.
    + intros u v [He|[-> ->]]%link_edge; rewrite !Hlive; [by apply (gw_live s (gi_wf s Hg))|done].
    + intros u v. rewrite link_edge, link_pred, fmap_app, elem_of_app, (gw_pred s (gi_wf s Hg)).
      destruct (decide (v = to)); [|set_solver]. simpl. rewrite list_elem_of_singleton. tauto.
  - split.
    + rewrite (ss_len s s' (rl_sched _ _ Rl)). rewrite <- (gi_succ s Hg). rewrite E in R1. simpl in R1.
      rewrite (gi_succ s Hg). exact R1.
    + intros u v [He|[-> ->]]%link_edge; rewrite !link_rank; [|done]. apply R2. by apply Hed.
    + intros u v Hu%Hlive Hv%Hlive. rewrite !link_rank. apply R3; by rewrite E.
  - intros u. rewrite link_succ. destruct (decide (u = f)) as [->|]; [|rewrite app_nil_r; apply Hg].
    apply NoDup_app. split; [apply Hg|]. split; [|apply NoDup_singleton].
    intros x Hx ->%list_elem_of_singleton. by apply Hnew.
  - intros v. rewrite link_pred, fmap_app. destruct (decide (v = to)) as [->|]; simpl;
      [|rewrite app_nil_r; apply Hg].
    apply NoDup_app. split; [apply Hg|]. split; [|apply NoDup_singleton].
    intros x Hx ->%list_elem_of_singleton. by apply Hnew, (gw_pred s (gi_wf s Hg)).
  - intros h Hh. rewrite link_rank. destruct (Hval h Hh) as (v & Hv & ->). by apply (gi_next s Hg).
Qed.

Lemma link_tallies : deps_inv s'.
Proof.
  pose proof link_relinks as Rl. intros v. rewrite link_rec, deps_of_counts.
  destruct (decide (v = to)) as [->|Hv].
  2:{ rewrite (bi_deps _ _ Hb v), deps_of_counts. unfold mk_counts.
      by rewrite !(relinks_dcount s s' v) by (rewrite ?link_pred, ?decide_False, ?app_nil_r by done; done). }
  assert (Hc : forall d, dcount s' to d = bump_class (link_class s f) (dcount s to) d).
  { intros d. unfold dcount at 1. rewrite link_pred, decide_True, count_app by done.
    rewrite (count_ext _ (fun e => bool_decide (eclass s e = d))) by (intros; by rewrite (relinks_eclass s s')).
    fold (dcount s to d). unfold bump_class, link_class. simpl. rewrite (relinks_eclass s s') by done.
    unfold eclass. simpl. destruct (bool_decide (phase (rec s f) = PhaseDone)); lia. }
  simpl. rewrite (bi_deps _ _ Hb to), deps_of_counts. pose proof (dcount_small s to Hg) as Hsm.
  unfold link_class in Hc. destruct (bool_decide (phase (rec s f) = PhaseDone)); simpl.
  - by apply tally_counts.
  - by apply inc_unsat_counts.
Qed.

Lemma link_sat : sat_inv none_pending s'.
Proof.
  pose proof link_relinks as Rl. intros v e. rewrite link_pred, (ss_phase s s' (rl_sched _ _ Rl)).
  intros [He|He]%elem_of_app; [by apply (bi_sat _ _ Hb v)|].
  destruct (decide (v = to)); [|by apply elem_of_nil in He].
  apply list_elem_of_singleton in He as ->. simpl. unfold none_pending. rewrite bool_decide_eq_true. tauto.
Qed.

Lemma link_ok : base_inv none_pending s' /\ relinks s s' /\ (forall u v, edge s' u v <-> edge s u v \/ (u = f /\ v = to)).
Proof.
  pose proof link_relinks as Rl. split_and!; [|done|apply link_edge].
  apply (relinks_base s); [done|done|apply link_graph|apply link_tallies|apply link_sat].
Qed.

End Link.

(** ** [unlinkEdge] *)

Lemma find_from_None (l : list predEdge) f :
  find_idx (fun e => from e =? f) l = None <-> f ∉ from <$> l.
Proof.
  split.
  - intros H [e [-> He]]%list_elem_of_fmap. pose proof (find_idx_None _ l H e He) as E.
    simpl in E. by rewrite Nat.eqb_refl in E.
  - intros Hn. destruct (find_idx _ l) as [i|] eqn:E; [|done]. destruct Hn.
    apply find_idx_Some in E as (e & He & <-%Nat.eqb_eq). apply list_elem_of_fmap.
    exists e. split; [done|]. apply list_elem_of_lookup. by exists i.
Qed.

Lemma unlinkEdge_None s f to : graph_wf s -> ~ edge s f to -> unlinkEdge f to s = (s, false).
Proof.
  intros W He. unfold unlinkEdge. rewrite (proj2 (find_from_None _ f)); [done|].
  by rewrite <- (gw_pred s W).
Qed.

(** Deleting the one occurrence of an element. *)
Lemma elem_of_delete (l : list nat) i x y :
  NoDup l -> l !! i = Some x -> y ∈ delete i l <-> y ∈ l /\ y <> x.
Proof.
  intros Hn Hi. pose proof (delete_Permutation l i x Hi) as P. rewrite P in Hn.
  apply NoDup_cons in Hn as [Hx _]. assert (y ∈ l <-> y = x \/ y ∈ delete i l) as ->; [|naive_solver].
  by rewrite P at 1; rewrite elem_of_cons.
Qed.

Lemma NoDup_delete {A} (l : list A) i : NoDup l -> NoDup (delete i l).
Proof. intros Hn. eapply sublist_NoDup; [exact Hn|apply sublist_delete]. Qed.

Lemma fmap_delete {A B} (g : A -> B) (l : list A) i : g <$> delete i l = delete i (g <$> l).
Proof. revert i. induction l as [|a l IH]; intros [|i]; simpl; [done..|]. by rewrite IH. Qed.

Section Unlink.
Context (s : scope) (f to : nat).
Hypothesis Hb : base_inv none_pending s.
Hypothesis He : edge s f to.

Let Hg : graph_inv s := bi_graph _ _ Hb.

Lemma unlink_live : live s f /\ live s to.
Proof. by apply (gw_live s (gi_wf s Hg)). Qed.

Definition undo_dep (e : predEdge) (d : DepCounts) : DepCounts :=
  if negb (satisfied e) then d <| Unsatisfied ::= dec |>
  else untally (status (rec s f)) (reason (rec s f)) d.

(** The state after the edge at position [i] of [to]'s list and [j] of [f]'s is gone. *)
Definition unlinked (i j : nat) (e : predEdge) : scope :=
  (upd_rec to (set_deps (undo_dep e)) (s <| s_pred ::= <[to := delete i (s_pred s !!! to)]> |>))
    <| s_succ ::= <[f := delete j (s_succ s !!! f)]> |>.

Lemma unlinkEdge_Some :
  exists i j e, unlinkEdge f to s = (unlinked i j e, true) /\ s_pred s !!! to !! i = Some e /\ from e = f /\
                s_succ s !!! f !! j = Some to.
Proof.
  destruct (find_idx (fun e => from e =? f) (s_pred s !!! to)) as [i|] eqn:Ei.
  2:{ apply find_from_None in Ei. by apply (gw_pred s (gi_wf s Hg)) in He. }
  destruct (find_idx (fun w => w =? to) (s_succ s !!! f)) as [j|] eqn:Ej.
  2:{ pose proof (find_idx_None _ _ Ej to He) as E. simpl in E. by rewrite Nat.eqb_refl in E. }
  pose proof (find_idx_Some _ _ _ Ei) as (e & Hi & Hf%Nat.eqb_eq).
  pose proof (find_idx_Some _ _ _ Ej) as (w & Hj & ->%Nat.eqb_eq).
  exists i, j, e. split_and!; try done. unfold unlinkEdge. rewrite Ei, Hi. simpl default.
  cbv zeta. change (s_succ (upd_rec _ _ _)) with (s_succ s). by rewrite Ej.
Qed.

Context (i j : nat) (e : predEdge).
Hypothesis Hi : s_pred s !!! to !! i = Some e.
Hypothesis Hfrom : from e = f.
Hypothesis Hj : s_succ s !!! f !! j = Some to.
Let s' := unlinked i j e.

Lemma unlink_rec x : rec s' x = if decide (x = to) then set_deps (undo_dep e) (rec s to) else rec s x.
Proof.
  unfold s', unlinked. etrans; [apply (rec_upd to (set_deps (undo_dep e)))|]. simpl.
  destruct (decide (x = to)) as [->|].
  - rewrite decide_True; [done|]. split; [done|]. by apply live_lt, unlink_live.
  - rewrite decide_False; [done|tauto].
Qed.

Lemma unlink_pred v :
  s_pred s' !!! v = if decide (v = to) then delete i (s_pred s !!! to) else s_pred s !!! v.
Proof.
  unfold s', unlinked. simpl. rewrite lookup_total_insert. destruct (decide (v = to)) as [->|].
  - rewrite decide_True; [done|]. rewrite (gi_pred s Hg). split; [done|]. by apply live_lt, unlink_live.
  - rewrite decide_False; [done|tauto].
Qed.

Lemma unlink_succ u :
  s_succ s' !!! u = if decide (u = f) then delete j (s_succ s !!! f) else s_succ s !!! u.
Proof.
  unfold s', unlinked. simpl. rewrite lookup_total_insert. destruct (decide (u = f)) as [->|].
  - rewrite decide_True; [done|]. rewrite (gi_succ s Hg). split; [done|]. by apply live_lt, unlink_live.
  - rewrite decide_False; [done|tauto].
Qed.

Lemma unlink_edge u v : edge s' u v <-> edge s u v /\ ~ (u = f /\ v = to).
Proof.
  unfold edge. rewrite unlink_succ. destruct (decide (u = f)) as [->|]; [|tauto].
  rewrite (elem_of_delete _ j to) by (done || apply Hg). tauto.
Qed.

Lemma unlink_relinks : relinks s s'.
Proof.
  destruct unlink_live as [Hlf Hlt]. split; try done.
  - split; try done. by apply (sview_alter (set_deps (undo_dep e))).
  - intros h. rewrite unlink_rec. destruct (decide (h = to)) as [->|]; [by eexists|].
    exists (deps (rec s h)). by destruct (rec s h).
  - intros h Hd. rewrite unlink_rec. destruct (decide (h = to)) as [->|]; [|done].
    destruct Hlt. congruence.
  - unfold s', unlinked. simpl. by rewrite !length_insert.
Qed.

Lemma unlink_graph : graph_inv s'.
Proof.
  pose proof unlink_relinks as Rl. destruct (gi_ranked s Hg) as [R1 R2 R3].
  assert (Hlive : forall h, live s' h <-> live s h) by apply (ss_live s s' (rl_sched _ _ Rl)).
  apply (relinks_graph s s' Rl Hg).
  - split.
    + intros u v [H _]%unlink_edge. rewrite !Hlive. by apply (gw_live s (gi_wf s Hg)).
    + intros u v. rewrite unlink_edge, unlink_pred, (gw_pred s (gi_wf s Hg)).
      destruct (decide (v = to)) as [->|]; [|tauto].
      rewrite fmap_delete, (elem_of_delete _ i f); [tauto|apply Hg|]. by rewrite list_lookup_fmap, Hi, <- Hfrom.
  - split.
    + by rewrite (ss_len s s' (rl_sched _ _ Rl)).
    + intros u v [H _]%unlink_edge. by apply R2.
    + intros u v Hu%Hlive Hv%Hlive. by apply R3.
  - intros u. rewrite unlink_succ. destruct (decide (u = f)); [apply NoDup_delete|]; apply Hg.
  - intros v. rewrite unlink_pred. destruct (decide (v = to)); [rewrite fmap_delete; apply NoDup_delete|]; apply Hg.
  - intros h. apply (gi_next s Hg).
Qed.

Lemma unlink_tallies : deps_inv s'.
Proof.
  pose proof unlink_relinks as Rl. intros v. rewrite unlink_rec, deps_of_counts.
  destruct (decide (v = to)) as [->|Hv].
  2:{ rewrite (bi_deps _ _ Hb v), deps_of_counts. unfold mk_counts.
      by rewrite !(relinks_dcount s s' v) by (rewrite ?unlink_pred, ?decide_False by done; done). }
  assert (Hc : forall d, dcount s to d = bump_class (eclass s e) (dcount s' to) d).
  { intros d. unfold bump_class, dcount. rewrite unlink_pred, decide_True by done.
    rewrite (count_ext (fun e => bool_decide (eclass s' e = d)) (fun e => bool_decide (eclass s e = d)))
      by (intros; by rewrite (relinks_eclass s s')).
    rewrite (count_delete _ _ i e Hi). lia. }
  simpl. rewrite (bi_deps _ _ Hb to), deps_of_counts. pose proof (dcount_small s to Hg) as Hsm.
  unfold undo_dep, eclass in *. rewrite <- Hfrom. destruct (satisfied e); simpl.
  - by apply untally_counts.
  - by apply dec_unsat_counts.
Qed.

Lemma unlink_sat : sat_inv none_pending s'.
Proof.
  intros v x. rewrite (ss_phase s s' (rl_sched _ _ unlink_relinks)), unlink_pred. intros Hx.
  apply (bi_sat _ _ Hb v). destruct (decide (v = to)) as [->|]; [|done].
  eapply elem_of_submseteq; [exact Hx|apply submseteq_delete].
Qed.

End Unlink.

(** One call of [unlinkEdge], whether or not the edge is there. *)
Lemma unlink_ok s s' f to b :
  unlinkEdge f to s = (s', b) -> base_inv none_pending s ->
  base_inv none_pending s' /\ relinks s s' /\
  (forall u v, edge s' u v <-> edge s u v /\ ~ (u = f /\ v = to)) /\ (b = true <-> edge s f to) /\
  (forall x, x <> to \/ b = false -> rec s' x = rec s x).
Proof.
  intros E Hb. pose proof (gi_wf s (bi_graph _ _ Hb)) as W.
  destruct (decide (to ∈ s_succ s !!! f)) as [He|He].
  - destruct (unlinkEdge_Some s f to Hb He) as (i & j & e & E' & Hi & Hf & Hj).
    rewrite E' in E. simplify_eq.
    pose proof (unlink_relinks s (from e) to Hb He i j e) as Rl. split_and!; [|done| |done|].
    + apply (relinks_base s); [done|done|by apply unlink_graph|by apply unlink_tallies|by apply unlink_sat].
    + intros u v. by apply unlink_edge.
    + intros x [Hx|Hx]; [|done]. by rewrite (unlink_rec s (from e) to Hb He i j e), decide_False.
  - rewrite (unlinkEdge_None s f to W He) in E. simplify_eq. split_and!; [done|done| |done|done].
    intros u v. split; [|tauto]. intros H. split; [done|]. by intros [-> ->].
Qed.
