(* ===== verification/NodeFacts.v ===== *)
(** * Creating and releasing a node

    [create] and [release] change what the scope holds at one handle that no
    edge and no heap mentions ([at_node]); everything else of the invariant
    carries over. *)
From S2P Require Import Prelude Types Config Heap HeapFacts Scope Topo TopoFacts Graph Invariant ScopeFacts DepFacts Evolve EdgeFacts.

Record at_node (h : nat) (s s' : scope) : Prop := {
  an_rec : forall x, x <> h -> rec s' x = rec s x;
  an_succ : forall u, s_succ s' !!! u = s_succ s !!! u;
  an_pred : forall v, s_pred s' !!! v = s_pred s !!! v;
  an_keys : forall x, x <> h -> s_deadline s' !!! x = s_deadline s !!! x /\
              s_readyAt s' !!! x = s_readyAt s !!! x /\ s_fifo s' !!! x = s_fifo s !!! x /\
              s_ord s' !!! x = s_ord s !!! x;
  an_heaps : s_ready s' = s_ready s /\ s_leases s' = s_leases s /\ s_scheduled s' = s_scheduled s;
  an_alone : forall u, ~ edge s h u /\ ~ edge s u h;
  an_log : same_log s s';
  an_next : s_nextFifo s' = s_nextFifo s /\ s_doorbell s' = s_doorbell s
}.

Section AtNode.
Context (h : nat) (s s' : scope) (A : at_node h s s').

Lemma an_live x : x <> h -> live s' x <-> live s x.
Proof. intros Hx. rewrite !live_alive. by rewrite (an_rec h s s' A). Qed.

Lemma an_edge u v : edge s' u v <-> edge s u v.
Proof. unfold edge. by rewrite (an_succ h s s' A). Qed.

Lemma an_ends u v : edge s u v -> u <> h /\ v <> h.
Proof. intros He. split; intros ->; by apply (an_alone h s s' A) in He. Qed.

Lemma an_wf : graph_wf s -> graph_wf s'.
Proof.
  intros [W1 W2]. split.
  - intros u v. rewrite an_edge. intros He. destruct (an_ends u v He). rewrite !an_live by done. by apply W1.
  - intros u v. rewrite an_edge, (an_pred h s s' A). apply W2.
Qed.

Lemma an_from v e : graph_wf s -> e ∈ s_pred s !!! v -> from e <> h.
Proof.
  intros W He. apply (an_ends (from e) v). apply (gw_pred s W), list_elem_of_fmap. by exists e.
Qed.

Lemma an_deps : graph_wf s -> deps (rec s' h) = mkDeps 0 0 0 0 -> deps_inv s -> deps_inv s'.
Proof.
  intros W Hh Hd v. rewrite deps_of_counts. unfold mk_counts.
  assert (E : forall d, dcount s' v d = dcount s v d).
  { intros d. apply dcount_same; [apply (an_pred h s s' A)|]. intros e He. unfold eclass.
    by rewrite (an_rec h s s' A) by (by apply (an_from v)). }
  rewrite !E. destruct (decide (v = h)) as [->|]; [|rewrite (an_rec h s s' A) by done; apply Hd].
  rewrite Hh. assert (Hp : s_pred s !!! h = []).
  { apply fmap_nil_inv with (f := from). apply elem_of_nil_inv. intros u Hu.
    apply (gw_pred s W) in Hu. by apply (an_alone h s s' A) in Hu. }
  unfold dcount. by rewrite Hp.
Qed.

Lemma an_sat : graph_wf s -> sat_inv none_pending s -> sat_inv none_pending s'.
Proof.
  intros W Hs v e. rewrite (an_pred h s s' A). intros He.
  rewrite (an_rec h s s' A) by (by apply (an_from v)). by apply Hs.
Qed.

Lemma an_status : (live s' h -> status_ok (rec s' h)) -> status_inv s -> status_inv s'.
Proof.
  intros Hh Hs x Hx. destruct (decide (x = h)) as [->|]; [by apply Hh|].
  rewrite (an_rec h s s' A) by done. apply Hs. by apply an_live.
Qed.

Lemma an_heap : heap_at h False False False s -> phase (rec s' h) = PhaseBlocked -> heap_inv s'.
Proof.
  intros [H1 H2 H3] Hp. apply (heap_at_inv h). destruct (an_heaps h s s' A) as (E1 & E2 & E3).
  assert (Hph : forall p x, x <> h -> in_phase s' p x <-> in_phase s p x).
  { intros p x Hx. unfold in_phase. by rewrite an_live, (an_rec h s s' A). }
  assert (Hno : forall p, p <> PhaseBlocked -> ~ in_phase s' p h) by (intros p Hne [_ ?]; congruence).
  assert (Hat : forall p q x, ~ q -> at_or h False (in_phase s p) x <-> at_or h q (in_phase s' p) x).
  { intros p q x Hq. unfold at_or. destruct (decide (x = h)) as [->|]; [tauto|]. rewrite Hph by done. tauto. }
  split.
  - rewrite E2. eapply good_iff; [intros x; by apply Hat; auto|].
    eapply good_keep; [|exact H1|unfold at_or; tauto]. intros a b Ha Hb. unfold less_leases.
    by destruct (an_keys h s s' A a Ha) as (-> & _), (an_keys h s s' A b Hb) as (-> & _).
  - rewrite E3. eapply good_iff; [intros x; by apply Hat; auto|].
    eapply good_keep; [|exact H2|unfold at_or; tauto]. intros a b Ha Hb. unfold less_scheduled.
    by destruct (an_keys h s s' A a Ha) as (_ & -> & _), (an_keys h s s' A b Hb) as (_ & -> & _).
  - intros k. rewrite (readyHeap_same s s' k E1).
    eapply (good_iff _ _ (at_or h (False /\ kind (rec s h) = k) (ready_in s k))).
    + intros x. unfold at_or, ready_in. destruct (decide (x = h)) as [->|]; [naive_solver|].
      rewrite (Hph PhaseReady x), (an_rec h s s' A x) by done. tauto.
    + eapply good_keep; [|apply H3|unfold at_or; tauto]. apply agree_ready; [apply A|].
      intros x Hx. by destruct (an_keys h s s' A x Hx) as (_ & _ & -> & _).
Qed.

Lemma an_base :
  graph_inv s' -> stats_inv s' -> deps (rec s' h) = mkDeps 0 0 0 0 -> (live s' h -> status_ok (rec s' h)) ->
  base_inv none_pending s -> base_inv none_pending s'.
Proof.
  intros G' T' Hd Hs [G D S Q T L]. pose proof (gi_wf s G) as W. split; try done.
  - by apply an_deps.
  - by apply an_sat.
  - by apply an_status.
  - eapply log_inv_same; [apply A|done].
Qed.

End AtNode.

(** ** [alloc] *)

(** Room for one more node: handles are [int32] and ranks [int64]. *)
Definition room (n : nat) (s : scope) : Prop :=
  (Z.of_nat (size_ s + n) <= 2 ^ 31)%Z /\ (s_nextOrd s + Z.of_nat n < 2 ^ 63)%Z.

Record allocated (h : nat) (s s0 : scope) : Prop := {
  al_node : at_node h s s0;
  al_rec : rec s0 h = zeroRec /\ rec s h = zeroRec;
  al_lt : h < size_ s0 /\ size_ s <= size_ s0 <= S (size_ s);
  al_lens : length (s_succ s0) = size_ s0 /\ length (s_pred s0) = size_ s0 /\
            length (s_deadline s0) = size_ s0 /\ length (s_readyAt s0) = size_ s0 /\
            length (s_fifo s0) = size_ s0 /\ length (s_ord s0) = size_ s0;
  al_free : NoDup (s_free s0) /\ forall x, x ∈ s_free s0 <-> x ∈ s_free s /\ x <> h;
  al_range : forall x, x < size_ s0 <-> x < size_ s \/ x = h;
  al_count : forall P, P zeroRec = false -> count P (s_recs s0) = count P (s_recs s);
  al_misc : s_index s0 = s_index s /\ s_nextOrd s0 = s_nextOrd s /\ s_stats s0 = s_stats s /\
            s_epochFloor s0 = s_epochFloor s /\ s_cfg s0 = s_cfg s /\ s_sealed s0 = s_sealed s
}.

Lemma dead_alone s h : graph_inv s -> alive (rec s h) = false -> forall u, ~ edge s h u /\ ~ edge s u h.
Proof.
  intros Hg Hd u. split; intros [[_ ?] [_ ?]]%(gw_live s (gi_wf s Hg)); congruence.
Qed.

Lemma dead_succ s h : graph_inv s -> alive (rec s h) = false -> s_succ s !!! h = [].
Proof.
  intros Hg Hd. apply elem_of_nil_inv. intros u Hu. by destruct (dead_alone s h Hg Hd u).
Qed.

Lemma dead_pred s h : graph_inv s -> alive (rec s h) = false -> s_pred s !!! h = [].
Proof.
  intros Hg Hd. apply fmap_nil_inv with (f := from). apply elem_of_nil_inv. intros u Hu.
  apply (gw_pred s (gi_wf s Hg)) in Hu. by destruct (dead_alone s h Hg Hd u).
Qed.

Lemma last_split {A} (l : list A) x : last l = Some x -> l = take (length l - 1) l ++ [x].
Proof.
  intros [k ->]%last_Some. rewrite length_app. simpl. rewrite Nat.add_sub, take_app_length. done.
Qed.

Lemma alloc_ok s h s0 : alloc s = (h, s0) -> graph_inv s -> allocated h s s0.
Proof.
  intros E Hg. pose proof Hg as [L1 L2 L3 L4 L5 Sm Ix Fr Fi De Wf [R1 R2 R3] Ns Np Nx Nn].
  unfold alloc in E. destruct (last (s_free s)) as [f|] eqn:El.
  - pose proof (last_split _ _ El) as Ef.
    assert (Hin : f ∈ s_free s) by (rewrite Ef; set_solver).
    apply Fi in Hin as [Hlt Hd]. pose proof (De f Hd) as Hz.
    assert (Hs : <[f:=[]]> (s_succ s) = s_succ s).
    { apply list_insert_id. rewrite <- (dead_succ s f Hg Hd). apply list_lookup_lookup_total_lt. lia. }
    assert (Hp : <[f:=[]]> (s_pred s) = s_pred s).
    { apply list_insert_id. rewrite <- (dead_pred s f Hg Hd). apply list_lookup_lookup_total_lt. lia. }
    assert (Hr : <[f:=zeroRec]> (s_recs s) = s_recs s).
    { apply list_insert_id. rewrite <- Hz. by apply list_lookup_lookup_total_lt. }
    rewrite Ef in Fr. apply NoDup_app in Fr as (Fr1 & Fr2 & _).
    cbn in E. rewrite Hs, Hp, Hr in E. injection E as <- <-. split; simpl; rewrite ?length_insert; try done.
    + split; simpl; try done.
      * intros x Hx. by rewrite !list_lookup_total_insert_ne.
      * by apply dead_alone.
    + lia.
    + split; [done|]. intros x.
      set (T := take (length (s_free s) - 1) (s_free s)) in *.
      assert (x ∈ s_free s <-> x ∈ T \/ x = f) as -> by (rewrite Ef, elem_of_app, list_elem_of_singleton; done).
      split; [|naive_solver]. intros Hx. split; [by left|]. intros ->. apply (Fr2 f Hx). by left.
    + intros x. split; [tauto|]. intros [? | ->]; done.
  - injection E as <- <-. apply last_None in El.
    assert (Hz : rec s (size_ s) = zeroRec) by (apply rec_ge; lia).
    assert (Hd : alive (rec s (size_ s)) = false) by (by rewrite Hz).
    assert (Hout : forall {A} `{!Inhabited A} (l : list A) x, (l ++ [inhabitant]) !!! x = l !!! x).
    { intros A IA l x. rewrite lookup_total_snoc. destruct (decide _) as [->|]; [|done].
      by rewrite list_lookup_total_alt, lookup_ge_None_2. }
    split; simpl; rewrite ?length_app; simpl; try lia; try done.
    + split; simpl; try done.
      * intros x _. exact (Hout nodeRec _ (s_recs s) x).
      * intros x Hx. by rewrite !lookup_total_snoc, !decide_False by congruence.
      * by apply dead_alone.
    + split; [|done]. unfold rec. simpl. by rewrite lookup_total_snoc, decide_True.
    + rewrite El. split; [constructor|]. intros x. set_solver.
    + intros P HP. rewrite count_app. simpl. rewrite HP. simpl. lia.
Qed.

(** ** [create] *)

Definition new_rec (spec : NodeSpec) (now e : Z) : nodeRec :=
  zeroRec <| id := sp_ID spec |> <| kind := sp_Kind spec |> <| priority := sp_Priority spec |>
    <| trigger := sp_Trigger spec |> <| retry := sp_Retry spec |> <| status := StatusNew |>
    <| phase := PhaseBlocked |> <| alive := true |> <| epoch := e |>
    <| createdAt := now |> <| updatedAt := now |>
    <| payload := sp_Payload spec |> <| labels := sp_Labels spec |>.

Record created_ok (spec : NodeSpec) (now : Z) (h : nat) (s s' : scope) : Prop := {
  cr_node : at_node h s s';
  cr_inv : inv s';
  cr_old : ~ live s h;
  cr_new : live s' h /\ rec s' h = new_rec spec now (s_epochFloor s);
  cr_index : s_index s' = <[sp_ID spec := h]> (s_index s) /\ s_index s !! sp_ID spec = None;
  cr_room : forall n, room (S n) s -> room n s';
  cr_misc : s_epochFloor s' = s_epochFloor s /\ s_cfg s' = s_cfg s /\ s_sealed s' = s_sealed s
}.

Definition create_writes (spec : NodeSpec) (now : Z) (h : nat) (s : scope) : scope :=
  let s := upd_rec h (fun r =>
    r <| id := sp_ID spec |> <| kind := sp_Kind spec |> <| priority := sp_Priority spec |>
      <| trigger := sp_Trigger spec |> <| retry := sp_Retry spec |> <| status := StatusNew |>
      <| phase := PhaseBlocked |> <| alive := true |> <| epoch := s_epochFloor s |>
      <| createdAt := now |> <| updatedAt := now |>
      <| payload := sp_Payload spec |> <| labels := sp_Labels spec |>) s in
  let s := s <| s_index ::= <[sp_ID spec := h]> |> in
  let s := s <| s_nextOrd ::= fun n => i64 (n + 1) |> in
  let s := s <| s_ord ::= <[h := s_nextOrd s]> |> in
  let s := s <| s_stats ::= fun st => st <| st_Total ::= fun n => u64 (n + 1) |> |> in
  enterBucket h s.

Lemma create_unfold spec now s :
  create spec now s = let '(h, s0) := alloc s in (h, create_writes spec now h s0).
Proof. unfold create. by destruct (alloc s). Qed.

Section Create.
Context (spec : NodeSpec) (now : Z) (s s0 : scope) (h : nat).
Hypothesis Hi : inv s.
Hypothesis Hal : alloc s = (h, s0).
Hypothesis Hfresh : lookup_id s (sp_ID spec) = None.
Hypothesis Hroom : room 1 s.

Let Hg : graph_inv s := bi_graph _ _ (inv_base _ Hi).
Let A : allocated h s s0 := alloc_ok s h s0 Hal Hg.
Let s' := create_writes spec now h s0.

Lemma create_next : s_nextOrd s' = (s_nextOrd s + 1)%Z.
Proof.
  unfold s', create_writes. simpl. destruct (al_misc h s s0 A) as (_ & -> & _).
  destruct Hroom as [_ H]. pose proof (gi_nextOrd s Hg). apply i64_small. lia.
Qed.

Lemma create_recs : s_recs s' = <[h := new_rec spec now (s_epochFloor s)]> (s_recs s0).
Proof.
  destruct (al_rec h s s0 A) as [Hz _]. destruct (al_lt h s s0 A) as [Hlt _].
  destruct (al_misc h s s0 A) as (_ & _ & _ & Ef & _).
  unfold s', create_writes. simpl. apply list_eq. intros i.
  destruct (decide (i = h)) as [->|Hne]; [|by rewrite list_lookup_alter_ne, list_lookup_insert_ne].
  rewrite list_lookup_alter_eq, list_lookup_insert_eq by done.
  rewrite (list_lookup_lookup_total_lt _ _ Hlt). fold (rec s0 h). rewrite Hz. simpl. by rewrite Ef.
Qed.

Lemma create_rec x : rec s' x = if decide (x = h) then new_rec spec now (s_epochFloor s) else rec s x.
Proof.
  unfold rec at 1. rewrite create_recs, lookup_total_insert. destruct (decide (x = h)) as [->|].
  - rewrite decide_True; [done|]. split; [done|apply A].
  - rewrite decide_False by tauto. by apply (an_rec h s s0 (al_node h s s0 A)).
Qed.

Lemma create_old : ~ live s h.
Proof. rewrite live_alive. by rewrite (proj2 (al_rec h s s0 A)). Qed.

Lemma create_size : size_ s' = size_ s0.
Proof. rewrite create_recs. apply length_insert. Qed.

Lemma create_live x : live s' x <-> live s x \/ x = h.
Proof.
  rewrite !live_alive, create_rec. destruct (decide (x = h)) as [->|]; [by split; auto|tauto].
Qed.

Lemma create_node : at_node h s s'.
Proof.
  destruct (al_node h s s0 A) as [N1 N2 N3 N4 N5 N6 N7 N8]. split; try done.
  - intros x Hx. by rewrite create_rec, decide_False.
  - intros x Hx. unfold s', create_writes. simpl. rewrite list_lookup_total_insert_ne by done. by apply N4.
  - by destruct N7.
Qed.

Lemma create_rank x : rank s' x = if decide (x = h) then (s_nextOrd s + 1)%Z else rank s x.
Proof.
  unfold rank at 1. destruct (decide (x = h)) as [->|Hx].
  - rewrite <- create_next. unfold s', create_writes. simpl. rewrite lookup_total_insert, decide_True; [done|].
    split; [done|]. destruct (al_lens h s s0 A) as (_ & _ & _ & _ & _ & ->). apply A.
  - by apply (an_keys h s s' create_node).
Qed.

Lemma create_graph : graph_inv s'.
Proof.
  pose proof Hg as [L1 L2 L3 L4 L5 Sm Ix Fr Fi De Wf [R1 R2 R3] Ns Np Nx Nn].
  destruct (al_lens h s s0 A) as (M1 & M2 & M3 & M4 & M5 & M6). pose proof create_node as N.
  pose proof create_size as Esz. destruct (al_free h s s0 A) as [F1 F2].
  destruct (al_misc h s s0 A) as (I1 & I2 & _). destruct (al_lt h s s0 A) as [B1 B2].
  split; try (rewrite Esz; done).
  - rewrite Esz. destruct Hroom. lia.
  - intros i x. unfold s', create_writes. simpl. rewrite I1, lookup_insert. fold s'.
    change (live _ x /\ id (rec _ x) = i) with (live s' x /\ id (rec s' x) = i).
    rewrite create_live, create_rec. case_decide as Ei.
    + subst i. split; [intros [= <-]; rewrite decide_True by done; auto|].
      intros [Hl Hid]. destruct (decide (x = h)) as [->|]; [done|]. exfalso. destruct Hl as [Hl|]; [|done].
      assert (s_index s !! sp_ID spec = Some x) as E by (by apply Ix). unfold lookup_id in Hfresh. congruence.
    + rewrite Ix. destruct (decide (x = h)) as [->|]; [|tauto]. simpl. split.
      * intros [Hl _]. by destruct (create_old Hl).
      * intros [_ ?]. done.
  - done.
  - intros x. rewrite Esz. change (s_free s') with (s_free s0). rewrite F2, Fi, create_rec, (al_range h s s0 A).
    destruct (decide (x = h)) as [->|]; [|tauto]. simpl. naive_solver.
  - intros x. rewrite create_rec. destruct (decide (x = h)); [done|apply De].
  - apply (an_wf h s s' N Wf).
  - split.
    + rewrite Esz. unfold s', create_writes. simpl. by rewrite length_insert.
    + intros u v He. apply (an_edge h s s' N) in He. destruct (an_ends h s s' N u v He).
      rewrite !create_rank, !decide_False by done. by apply R2.
    + intros u v Hu%create_live Hv%create_live. rewrite !create_rank.
      destruct (decide (u = h)) as [->|], (decide (v = h)) as [->|]; [done|..].
      * destruct Hv as [Hv|]; [|done]. specialize (Nx v Hv). lia.
      * destruct Hu as [Hu|]; [|done]. specialize (Nx u Hu). lia.
      * apply R3; tauto.
  - intros u. rewrite (an_succ h s s' N). apply Ns.
  - intros v. rewrite (an_pred h s s' N). apply Np.
  - intros x Hx%create_live. rewrite create_rank, create_next.
    destruct (decide (x = h)); [done|]. destruct Hx as [Hx|]; [|done]. specialize (Nx x Hx). lia.
  - rewrite create_next. lia.
Qed.

Lemma create_stats : stats_inv s'.
Proof.
  destruct (bi_stats _ _ (inv_base _ Hi)) as [T B S]. destruct (al_rec h s s0 A) as [Hz _].
  destruct (al_lt h s s0 A) as [Hlt _]. destruct (al_misc h s s0 A) as (_ & _ & Es & _ & _ & Ese).
  assert (Hh : s_recs s0 !! h = Some zeroRec).
  { rewrite <- Hz. by apply list_lookup_lookup_total_lt. }
  assert (Est : s_stats s' = bump BBlocked 1 ((s_stats s0) <| st_Total ::= fun n => u64 (n + 1) |>)).
  { unfold s', create_writes, enterBucket. simpl. f_equal. unfold bucket.
    change (rec _ h) with (rec s' h). by rewrite create_rec, decide_True. }
  split.
  - rewrite Est, Es, create_recs. simpl. rewrite T, u64_add_l. f_equal.
    pose proof (count_insert alive _ _ _ (new_rec spec now (s_epochFloor s)) Hh) as Hc. simpl in Hc.
    rewrite (al_count h s s0 A alive) in Hc by done. lia.
  - intros b. rewrite Est, counter_bump, Es, create_recs.
    pose proof (count_insert (in_bucket b) _ _ _ (new_rec spec now (s_epochFloor s)) Hh) as Hc.
    rewrite (al_count h s s0 A (in_bucket b)) in Hc by done.
    assert (E : forall st : ScopeStats, counter b (st <| st_Total ::= fun n => u64 (n + 1) |>) = counter b st)
      by (intros; by destruct b).
    rewrite E, B. rewrite (in_bucket_alive b (new_rec spec now (s_epochFloor s)) eq_refl) in Hc.
    change (in_bucket b zeroRec) with false in Hc. simpl in Hc.
    change (bucket (new_rec spec now (s_epochFloor s))) with BBlocked in Hc.
    destruct (decide (b = BBlocked)); rewrite ?u64_add_l; f_equal; lia.
  - rewrite Est, Es. simpl. unfold s', create_writes. simpl. by rewrite S, Ese.
Qed.

Lemma create_inv : inv s'.
Proof.
  pose proof create_node as N. split.
  - apply (an_base h s s' N); [apply create_graph|apply create_stats| | |apply Hi].
    + by rewrite create_rec, decide_True.
    + intros _. rewrite create_rec, decide_True by done. split; [done|]. split_and!; [done|done|by intros []|]. intros Hm. simpl in *. lia.
  - apply (an_heap h s s' N); [|by rewrite create_rec, decide_True].
    pose proof create_old. eapply heap_at_iff; [| | |apply (heap_at_inv h), Hi]; unfold in_phase; tauto.
Qed.

Lemma create_created : created_ok spec now h s s'.
Proof.
  destruct (al_misc h s s0 A) as (I1 & I2 & _ & I4 & I5 & I6). split.
  - apply create_node.
  - apply create_inv.
  - apply create_old.
  - split; [apply create_live; auto|by rewrite create_rec, decide_True].
  - unfold s', create_writes. simpl. split; [by rewrite I1|exact Hfresh].
  - intros n [H1 H2]. unfold room. rewrite create_next, create_size.
    destruct (al_lt h s s0 A) as [_ H3]. lia.
  - done.
Qed.

End Create.

Lemma create_ok spec now s h s' :
  create spec now s = (h, s') -> inv s -> lookup_id s (sp_ID spec) = None -> room 1 s ->
  created_ok spec now h s s'.
Proof.
  rewrite create_unfold. destruct (alloc s) as [h0 s0] eqn:E. intros [= <- <-] Hi Hf Hr.
  by apply (create_created spec now s s0 h0).
Qed.

(** ** Retiring a node *)

(** The tail that [rollback], [RemoveNode] and [CollectTerminal] share. *)
Definition retire (h : nat) (i : string) (s : scope) : scope :=
  let s := leaveBucket h s in
  let s := s <| s_stats ::= fun st => st <| st_Total ::= fun n => u64 (n - 1) |> |> in
  let s := s <| s_index ::= delete i |> in
  release h s.

Record retired (h : nat) (s s' : scope) : Prop := {
  rt_node : at_node h s s';
  rt_inv : inv s';
  rt_gone : ~ live s' h;
  rt_index : s_index s' = delete (id (rec s h)) (s_index s);
  rt_floor : s_epochFloor s' = Z.max (s_epochFloor s) (epoch (rec s h));
  rt_size : size_ s' = size_ s /\ s_nextOrd s' = s_nextOrd s;
  rt_misc : s_cfg s' = s_cfg s /\ s_sealed s' = s_sealed s
}.

Section Retire.
Context (s : scope) (h : nat).
Hypothesis Hl : live s h.
Hypothesis Hb : base_inv none_pending s.
Hypothesis Hh : heap_at h False False False s.
Hypothesis Halone : forall u, ~ edge s h u /\ ~ edge s u h.

Let Hg : graph_inv s := bi_graph _ _ Hb.
Let s' := retire h (id (rec s h)) s.

Lemma retire_rec x : rec s' x = if decide (x = h) then zeroRec else rec s x.
Proof.
  unfold rec at 1, s', retire, release. simpl. rewrite lookup_total_insert. destruct (decide (x = h)) as [->|].
  - rewrite decide_True; [done|]. by split; [|apply live_lt].
  - by rewrite decide_False by tauto.
Qed.

Lemma retire_live x : live s' x <-> live s x /\ x <> h.
Proof.
  rewrite !live_alive, retire_rec. destruct (decide (x = h)) as [->|]; [|tauto].
  split; [done|]. intros [_ ?]. done.
Qed.

Lemma retire_adj : s_succ s' = s_succ s /\ s_pred s' = s_pred s.
Proof.
  pose proof (live_lt s h Hl). unfold s', retire, release. simpl. split; apply list_insert_id.
  - rewrite list_lookup_lookup_total_lt by (rewrite (gi_succ s Hg); lia). f_equal.
    apply elem_of_nil_inv. intros u Hu. by destruct (Halone u).
  - rewrite list_lookup_lookup_total_lt by (rewrite (gi_pred s Hg); lia). f_equal.
    apply fmap_nil_inv with (f := from). apply elem_of_nil_inv. intros u Hu.
    apply (gw_pred s (gi_wf s Hg)) in Hu. by destruct (Halone u).
Qed.

Lemma retire_node : at_node h s s'.
Proof.
  destruct retire_adj as [E1 E2]. split; try done.
  - intros x Hx. by rewrite retire_rec, decide_False.
  - intros u. by rewrite E1.
  - intros v. by rewrite E2.
Qed.

Lemma retire_size : size_ s' = size_ s.
Proof. unfold s', retire, release. simpl. apply length_insert. Qed.

Lemma retire_graph : graph_inv s'.
Proof.
  pose proof Hg as [L1 L2 L3 L4 L5 Sm Ix Fr Fi De Wf [R1 R2 R3] Ns Np Nx Nn].
  destruct retire_adj as [E1 E2]. pose proof retire_node as N. pose proof retire_size as Esz.
  split; try (rewrite Esz; done); try done.
  - by rewrite E1, Esz.
  - by rewrite E2, Esz.
  - intros i x. unfold s', retire. simpl. fold s'.
    change (live _ x /\ id (rec _ x) = i) with (live s' x /\ id (rec s' x) = i).
    rewrite retire_live, retire_rec, lookup_delete. case_decide as Ei.
    + split; [done|]. intros [[Hlx Hne] Hid]. rewrite decide_False in Hid by done. exfalso. apply Hne.
      assert (s_index s !! i = Some x) by (by apply Ix). assert (s_index s !! i = Some h) by (by apply Ix). congruence.
    + rewrite Ix. destruct (decide (x = h)) as [->|]; [|tauto]. naive_solver.
  - unfold s', retire, release. simpl. apply NoDup_app. split; [done|]. split; [|apply NoDup_singleton].
    intros x Hx ->%list_elem_of_singleton. apply Fi in Hx as [_ Hd]. destruct Hl. congruence.
  - intros x. rewrite Esz, retire_rec. unfold s', retire, release. simpl.
    rewrite elem_of_app, list_elem_of_singleton, Fi. pose proof (live_lt s h Hl).
    destruct (decide (x = h)) as [->|]; naive_solver.
  - intros x. rewrite retire_rec. destruct (decide (x = h)); [done|apply De].
  - apply (an_wf h s s' N Wf).
  - split; [by rewrite Esz|by intros u v He%(an_edge h s s' N); apply R2|].
    intros u v [Hu _]%retire_live [Hv _]%retire_live. by apply R3.
  - intros u. rewrite E1. apply Ns.
  - intros v. rewrite E2. apply Np.
  - intros x [Hx _]%retire_live. by apply Nx.
Qed.

Lemma retire_stats : stats_inv s'.
Proof.
  destruct (bi_stats _ _ Hb) as [T B S]. pose proof (live_lt s h Hl) as Hlt.
  assert (Hr : s_recs s !! h = Some (rec s h)) by (by apply list_lookup_lookup_total_lt).
  assert (Ha : alive (rec s h) = true) by apply Hl.
  assert (Est : s_stats s' = (bump (bucket (rec s h)) (-1) (s_stats s)) <| st_Total ::= fun n => u64 (n - 1) |>) by done.
  split.
  - rewrite Est. simpl. rewrite total_bump, T. unfold Z.sub. rewrite u64_add_l. f_equal.
    pose proof (count_insert alive _ _ _ zeroRec Hr) as Hc. rewrite Ha in Hc. simpl in Hc.
    unfold s', retire, release. simpl. lia.
  - intros b. rewrite Est.
    assert (E : forall st : ScopeStats, counter b (st <| st_Total ::= fun n => u64 (n - 1) |>) = counter b st)
      by (intros; by destruct b).
    rewrite E, counter_bump, B. pose proof (count_insert (in_bucket b) _ _ _ zeroRec Hr) as Hc.
    rewrite (in_bucket_alive b (rec s h) Ha) in Hc. change (in_bucket b zeroRec) with false in Hc. simpl in Hc.
    unfold s', retire, release. simpl. destruct (decide (b = bucket (rec s h))); rewrite ?u64_add_l; f_equal; lia.
  - rewrite Est. simpl. by rewrite sealed_bump.
Qed.

Lemma retire_ok : retired h s s'.
Proof.
  pose proof retire_node as N. split; try done.
  - split.
    + apply (an_base h s s' N); [apply retire_graph|apply retire_stats| | |done].
      * by rewrite retire_rec, decide_True.
      * by intros [Hx ?]%retire_live.
    + apply (an_heap h s s' N Hh). by rewrite retire_rec, decide_True.
  - intros [_ ?]%retire_live. done.
  - unfold s', retire, release. simpl. change (rec _ h) with (rec s h).
    destruct (Z.ltb_spec (s_epochFloor s) (epoch (rec s h))); lia.
  - by rewrite retire_size.
Qed.

End Retire.
