(* ===== verification/GraphFacts.v ===== *)
(** * Batches of nodes and edges

    What the loops of [graph.go] do to a scope: [grown new s s'] after nodes
    were created, [linked es s s'] after edges were added, and the way back. *)
From S2P Require Import Prelude Types Config Heap HeapFacts Scope Topo TopoFacts Graph Invariant ScopeFacts DepFacts Evolve Terminate.
From S2P Require Import EdgeFacts NodeFacts.

(** ** Several edges at once *)

Section Unlinks.
Implicit Types es : list (nat * nat).

Definition unlink_all es (s : scope) : scope := foldl (fun s e => fst (unlinkEdge e.1 e.2 s)) s es.

Lemma unlink_all_ok es : forall s,
  base_inv none_pending s ->
  base_inv none_pending (unlink_all es s) /\ relinks s (unlink_all es s) /\
  (forall u v, edge (unlink_all es s) u v <-> edge s u v /\ (u, v) ∉ es).
Proof.
  induction es as [|[f to] es IH]; intros s Hb; simpl.
  - split_and!; [done|done|]. intros u v. set_solver.
  - destruct (unlinkEdge f to s) as [s1 b] eqn:E. simpl.
    destruct (unlink_ok s s1 f to b E Hb) as (B1 & R1 & E1 & _ & _).
    destruct (IH s1 B1) as (B2 & R2 & E2). split_and!; [done|by etrans|].
    intros u v. rewrite E2, E1, not_elem_of_cons. naive_solver.
Qed.

Lemma unlink_all_app es es' s : unlink_all (es ++ es') s = unlink_all es' (unlink_all es s).
Proof. apply foldl_app. Qed.

End Unlinks.

Lemma relinks_heap s s' : relinks s s' -> heap_inv s -> heap_inv s'.
Proof. intros R. apply ss_heap_inv, R. Qed.

Lemma relinks_live s s' h : relinks s s' -> live s' h <-> live s h.
Proof. intros R. apply ss_live, R. Qed.

Lemma relinks_phase s s' h : relinks s s' -> phase (rec s' h) = phase (rec s h).
Proof. intros R. apply ss_phase, R. Qed.

(** ** Nodes created *)

(** The scheduling data beside the record: lease deadline, retry time and
    place in the ready queue. *)
Definition keys_at (s s' : scope) (x : nat) : Prop :=
  s_deadline s' !!! x = s_deadline s !!! x /\ s_readyAt s' !!! x = s_readyAt s !!! x /\ s_fifo s' !!! x = s_fifo s !!! x.

Lemma keys_at_trans s1 s2 s3 x : keys_at s1 s2 x -> keys_at s2 s3 x -> keys_at s1 s3 x.
Proof. unfold keys_at. intuition congruence. Qed.

Lemma an_keys_at h s s' x : at_node h s s' -> x <> h -> keys_at s s' x.
Proof. intros A Hx. destruct (an_keys h s s' A x Hx) as (? & ? & ? & _). done. Qed.

Record grown (new : list nat) (s s' : scope) : Prop := {
  gn_inv : inv s';
  gn_nodup : NoDup new;
  gn_new : forall h, h ∈ new -> ~ live s h /\ live s' h /\ phase (rec s' h) = PhaseBlocked /\
                     epoch (rec s' h) = s_epochFloor s;
  gn_rec : forall x, x ∉ new -> rec s' x = rec s x;
  gn_succ : forall u, s_succ s' !!! u = s_succ s !!! u;
  gn_pred : forall v, s_pred s' !!! v = s_pred s !!! v;
  gn_keys : forall x, x ∉ new -> keys_at s s' x;
  gn_heaps : s_ready s' = s_ready s /\ s_leases s' = s_leases s /\ s_scheduled s' = s_scheduled s;
  gn_index : s_index s ⊆ s_index s';
  gn_log : same_log s s';
  gn_misc : s_epochFloor s' = s_epochFloor s /\ s_cfg s' = s_cfg s /\ s_sealed s' = s_sealed s;
  gn_next : s_nextFifo s' = s_nextFifo s /\ s_doorbell s' = s_doorbell s
}.

Lemma grown_nil s : inv s -> grown [] s s.
Proof. intros Hi. split; try done; try (by intros ? ?%elem_of_nil); constructor. Qed.

Lemma grown_live new s s' x : grown new s s' -> live s' x <-> live s x \/ x ∈ new.
Proof.
  intros G. destruct (decide (x ∈ new)) as [Hx|Hx].
  - destruct (gn_new _ _ _ G x Hx) as (_ & ? & _). tauto.
  - rewrite !live_alive, (gn_rec _ _ _ G) by done. tauto.
Qed.

Lemma grown_edge new s s' u v : grown new s s' -> edge s' u v <-> edge s u v.
Proof. intros G. unfold edge. by rewrite (gn_succ _ _ _ G). Qed.

Lemma grown_cons spec now h new s s1 s' :
  created_ok spec now h s s1 -> grown new s1 s' -> grown (h :: new) s s'.
Proof.
  intros [N I O [L1 R1] [Ix If] Rm M] [I2 D2 W2 R2 S2 P2 K2 Q2 X2 L2 M2 F2].
  assert (Hn : h ∉ new) by (intros Hh; by destruct (W2 h Hh)).
  split; try done.
  - by apply NoDup_cons.
  - intros x [->|Hx]%elem_of_cons.
    + split_and!; [done|by rewrite live_alive, (R2 h Hn), R1|by rewrite (R2 h Hn), R1..].
    + destruct (W2 x Hx) as (H1 & H2 & H3 & H4). split_and!; try done; [|destruct_and!; congruence].
      assert (x <> h) by (by intros ->). by rewrite <- (an_live h s s1 N).
  - intros x [Hx1 Hx2]%not_elem_of_cons. rewrite R2 by done. by apply (an_rec h s s1 N).
  - intros u. rewrite S2. apply N.
  - intros v. rewrite P2. apply N.
  - intros x [Hx1 Hx2]%not_elem_of_cons. eapply keys_at_trans; [by eapply an_keys_at|by apply K2].
  - destruct (an_heaps h s s1 N). destruct_and!. split_and!; congruence.
  - etrans; [|exact X2]. rewrite Ix. by apply insert_subseteq.
  - destruct (an_log h s s1 N), L2. split; congruence.
  - destruct_and!. split_and!; congruence.
  - destruct (an_next h s s1 N), F2. split; congruence.
Qed.

Lemma materialise_ok specs now : forall j s s' j' r,
  materialise specs now j s = (s', j', r) -> inv s -> room (length specs) s ->
  exists new, grown new s s' /\ created j' = created j ++ new /\ j_edges j' = j_edges j /\
    match r with
    | Fail _ => True
    | Ok fresh => fresh = new /\ (forall spec, spec ∈ specs -> is_Some (s_index s' !! sp_ID spec)) /\
                  (forall h, h ∈ new -> exists spec, spec ∈ specs /\ s_index s' !! sp_ID spec = Some h)
    end.
Proof.
  induction specs as [|spec specs IH]; intros j s s' j' r E Hi Hr; simpl in E.
  { simplify_eq. exists []. rewrite app_nil_r. split_and!; [by apply grown_nil|done|done|done|by intros ? ?%elem_of_nil..]. }
  destruct (lookup_id s (sp_ID spec)) as [h|] eqn:El.
  - destruct (negb (specMatches s h spec)).
    + simplify_eq. exists []. rewrite app_nil_r. split_and!; [by apply grown_nil|done..].
    + apply IH in E as (new & G & E1 & E2 & E3); [|done|unfold room in *; simpl in *; lia].
      exists new. split_and!; [done..|]. destruct r; [|done]. destruct E3 as (E3 & E4 & E5).
      split_and!; [done| |by intros x (sp & Hsp & Hx)%E5; exists sp; split; [right|]].
      intros sp [->|Hsp]%elem_of_cons; [|by apply E4]. exists h. eapply lookup_weaken; [exact El|apply G].
  - destruct (create spec now s) as [h s1] eqn:Ec.
    assert (Hc : created_ok spec now h s s1).
    { apply create_ok; [done..|]. unfold room in *; simpl in *; lia. }
    destruct (materialise specs now _ s1) as [[s2 j2] r2] eqn:E2. simplify_eq.
    apply IH in E2 as (new & G & E1 & E2 & E3); [|apply Hc|by apply (cr_room _ _ _ _ _ Hc)].
    exists (h :: new). split_and!; [by eapply grown_cons|rewrite E1; simpl; by rewrite <- app_assoc|done|].
    destruct r2; [|done]. destruct E3 as (-> & E4 & E5).
    assert (Hix : s_index s' !! sp_ID spec = Some h).
    { eapply lookup_weaken; [|apply G]. rewrite (proj1 (cr_index _ _ _ _ _ Hc)). apply lookup_insert_eq. }
    split_and!; [done| |].
    + intros sp [->|Hsp]%elem_of_cons; [by exists h|by apply E4].
    + intros x [->|Hx]%elem_of_cons; [exists spec; by split; [left|]|].
      destruct (E5 x Hx) as (sp & Hsp & Hi'). exists sp. by split; [right|].
Qed.

(** ** Edges added *)

(** Everything but the ranks, which no undo restores. *)
Definition forget_ord (s : scope) : scope := s <| s_ord := [] |>.

Lemma unlinkEdge_ord f to s :
  unlinkEdge f to (forget_ord s) = (forget_ord (fst (unlinkEdge f to s)), snd (unlinkEdge f to s)).
Proof.
  unfold unlinkEdge, forget_ord. simpl. destruct (find_idx _ (s_pred s !!! to)); [|done]. simpl.
  by destruct (find_idx _ (s_succ s !!! f)).
Qed.

Lemma unlink_all_ord es : forall s, unlink_all es (forget_ord s) = forget_ord (unlink_all es s).
Proof.
  induction es as [|[f to] es IH]; intros s; simpl; [done|]. by rewrite unlinkEdge_ord, <- IH.
Qed.

Lemma find_idx_snoc {A} (p : A -> bool) l x :
  (forall y, y ∈ l -> p y = false) -> p x = true -> find_idx p (l ++ [x]) = Some (length l).
Proof.
  induction l as [|y l IH]; intros Hl Hx; simpl; [by rewrite Hx|].
  rewrite (Hl y) by left. rewrite IH; [done| |done]. intros z Hz. apply Hl. by right.
Qed.

Lemma delete_snoc {A} (l : list A) x : delete (length l) (l ++ [x]) = l.
Proof. induction l as [|y l IH]; simpl; [done|]. by rewrite IH. Qed.

Lemma alter_insert_id {A} `{!Inhabited A} (g : A -> A) (l : list A) i :
  <[i := l !!! i]> (alter g i l) = l.
Proof.
  apply list_eq. intros j. destruct (decide (j = i)) as [->|].
  - destruct (decide (i < length l)).
    + rewrite list_lookup_insert_eq by (by rewrite length_alter). by rewrite list_lookup_lookup_total_lt.
    + rewrite !lookup_ge_None_2; [done|lia|rewrite length_insert, length_alter; lia].
  - by rewrite list_lookup_insert_ne, list_lookup_alter_ne.
Qed.

Lemma alter_compose_id {A} `{!Inhabited A} (g k : A -> A) (l : list A) i :
  g (k (l !!! i)) = l !!! i -> alter g i (alter k i l) = l.
Proof.
  intros E. apply list_eq. intros j. destruct (decide (j = i)) as [->|].
  - rewrite !list_lookup_alter_eq, list_lookup_total_alt in *. destruct (l !! i) as [x|]; simpl in *; congruence.
  - by rewrite !list_lookup_alter_ne.
Qed.

Definition do_dep (s : scope) (f : nat) (d : DepCounts) : DepCounts :=
  if negb (bool_decide (phase (rec s f) = PhaseDone)) then d <| Unsatisfied ::= fun n => u32 (n + 1) |>
  else tally (status (rec s f)) (reason (rec s f)) d.

Lemma undo_do s f v :
  graph_inv s ->
  undo_dep s f (mkPred f (bool_decide (phase (rec s f) = PhaseDone))) (do_dep s f (deps_of s v)) = deps_of s v.
Proof.
  intros Hg. rewrite deps_of_counts. pose proof (dcount_small s v Hg) as Hsm. unfold undo_dep, do_dep.
  assert (Hb : forall d, small (bump_class d (dcount s v))).
  { intros d x. pose proof (dcount_bound s v x Hg). unfold bump_class. case_bool_decide; simpl; lia. }
  destruct (bool_decide (phase (rec s f) = PhaseDone)); cbn [negb satisfied].
  - rewrite (tally_counts _ _ _ (bump_class (class_of (status (rec s f)) (reason (rec s f))) (dcount s v))) by done.
    by apply untally_counts.
  - rewrite (inc_unsat_counts _ (bump_class DUnsat (dcount s v))) by done. by apply dec_unsat_counts.
Qed.

(** [unlinkEdge] undoes [linkEdge]. *)
Lemma unlink_link f to s :
  graph_inv s -> deps_inv s -> live s f -> live s to -> f <> to -> ~ edge s f to ->
  unlinkEdge f to (linkEdge f to s) = (s, true).
Proof.
  intros Hg Hd Hf%live_lt Ht%live_lt Hne He. set (e := mkPred f (bool_decide (phase (rec s f) = PhaseDone))).
  set (L := linkEdge f to s).
  assert (Ep : s_pred L !!! to = s_pred s !!! to ++ [e]).
  { unfold L, linkEdge. simpl. rewrite lookup_total_alter, decide_True; [done|]. by rewrite (gi_pred s Hg). }
  assert (Es : s_succ L !!! f = s_succ s !!! f ++ [to]).
  { unfold L, linkEdge. simpl. rewrite lookup_total_alter, decide_True; [done|]. by rewrite (gi_succ s Hg). }
  assert (Er : rec L f = rec s f).
  { unfold L, linkEdge. rewrite (rec_upd to). rewrite decide_False; [done|]. intros [? _]. done. }
  unfold unlinkEdge. rewrite Ep. rewrite find_idx_snoc; [|..|by apply Nat.eqb_refl].
  2:{ intros y Hy. apply Nat.eqb_neq. intros <-. apply He, (gw_pred s (gi_wf s Hg)), list_elem_of_fmap. by exists y. }
  rewrite list_lookup_middle by done. simpl default. rewrite delete_snoc. cbv zeta.
  change (s_succ (upd_rec _ _ _)) with (s_succ L). rewrite Es.
  rewrite find_idx_snoc; [|..|by apply Nat.eqb_refl].
  2:{ intros y Hy. apply Nat.eqb_neq. intros ->. by apply He. }
  rewrite delete_snoc. f_equal.
  change (rec (L <| s_pred ::= _ |>) f) with (rec L f). rewrite Er.
  pose proof (undo_do s f to Hg) as Hu. rewrite <- (Hd to) in Hu. fold e in Hu.
  assert (H1 : <[to:=s_pred s !!! to]> (s_pred L) = s_pred s) by apply alter_insert_id.
  assert (H2 : <[f:=s_succ s !!! f]> (s_succ L) = s_succ s) by apply alter_insert_id.
  assert (H3 : alter (set_deps (undo_dep s f e)) to (s_recs L) = s_recs s).
  { apply (alter_compose_id (set_deps (undo_dep s f e)) (set_deps (do_dep s f))).
    unfold set_deps. simpl. fold (rec s to). rewrite Hu. by destruct (rec s to). }
  change (L <| s_recs := alter (set_deps (undo_dep s f e)) to (s_recs L) |>
            <| s_pred := <[to:=s_pred s !!! to]> (s_pred L) |>
            <| s_succ := <[f:=s_succ s !!! f]> (s_succ L) |> = s).
  rewrite H1, H2, H3. unfold L, linkEdge. by destruct s.
Qed.

Record linked (es : list (nat * nat)) (s s' : scope) : Prop := {
  ln_base : base_inv none_pending s';
  ln_relinks : relinks s s';
  ln_edge : forall u v, edge s' u v <-> edge s u v \/ (u, v) ∈ es;
  ln_new : forall u v, (u, v) ∈ es -> ~ edge s u v;
  ln_rec : forall x, (forall u, (u, x) ∉ es) -> rec s' x = rec s x;
  ln_undo : forget_ord (unlink_all (reverse es) s') = forget_ord s
}.

Lemma linked_nil s : base_inv none_pending s -> linked [] s s.
Proof. intros Hb. split; try done; intros u v; set_solver. Qed.

Lemma hasEdge_spec s f to : graph_wf s -> hasEdge s f to = true <-> edge s f to.
Proof.
  intros W. rewrite (gw_pred s W). unfold hasEdge. rewrite existsb_exists, list_elem_of_fmap.
  split.
  - intros (e & He & <-%Nat.eqb_eq). exists e. split; [done|]. by apply list_elem_of_In.
  - intros (e & -> & He). exists e. split; [by apply list_elem_of_In|]. apply Nat.eqb_refl.
Qed.

(** A rejected edge leaves the state as it was. *)
Lemma addEdgeOrder_reject s s1 f to r path :
  base_inv none_pending s -> live s f -> live s to -> f <> to ->
  addEdgeOrder f to s = (s1, r) -> cyclePath r = Some path -> s1 = s.
Proof.
  intros Hb Hf Ht Hne Ho Hc. pose proof (bi_graph _ _ Hb) as Hg.
  pose proof (addEdgeOrder_cases s (gi_wf s Hg) (gi_ranked s Hg) f to Hf Ht Hne) as H.
  rewrite Ho, Hc in H. tauto.
Qed.

Lemma linked_live es s s' h : linked es s s' -> live s' h <-> live s h.
Proof. intros L. apply relinks_live, L. Qed.

Lemma linked_app es es' s1 s2 s3 : linked es s1 s2 -> linked es' s2 s3 -> linked (es ++ es') s1 s3.
Proof.
  intros [B1 R1 E1 N1 Q1 U1] [B2 R2 E2 N2 Q2 U2]. split; [done|by etrans| | | |].
  - intros u v. rewrite E2, E1, elem_of_app. tauto.
  - intros u v [Huv|Huv]%elem_of_app; [by apply N1|]. intros He. apply (N2 u v Huv), E1. by left.
  - intros x Hx. rewrite Q2, Q1; [done|..]; intros u Hu; apply (Hx u), elem_of_app; auto.
  - rewrite reverse_app, unlink_all_app, <- unlink_all_ord, U2, unlink_all_ord. done.
Qed.

(** The invariant part of one step of [linkBatch] or [AddEdges]. *)
Lemma link_step s s1 f to r :
  base_inv none_pending s -> live s f -> live s to -> f <> to -> hasEdge s f to = false ->
  addEdgeOrder f to s = (s1, r) -> cyclePath r = None -> linked [(f, to)] s (linkEdge f to s1).
Proof.
  intros Hb Hf Ht Hne Hh Ho Hc. pose proof (bi_graph _ _ Hb) as Hg.
  assert (Hn : ~ edge s f to) by (rewrite <- (hasEdge_spec s f to) by apply Hg; by rewrite Hh).
  destruct (link_ok s s1 f to Hb Hf Ht Hne Hn r Ho Hc) as (B & R & E).
  destruct (link_order s s1 f to Hb Hf Ht Hne r Ho Hc) as (Es & _).
  split; [done|done|intros u v; rewrite E, list_elem_of_singleton; naive_solver| | |].
  - intros u v [= -> ->]%list_elem_of_singleton. done.
  - intros x Hx. rewrite (link_rec s s1 f to Hb Hf Ht Hne r Ho Hc). rewrite decide_False; [done|].
    intros ->. apply (Hx f). by left.
  - simpl.
    assert (El : forget_ord (linkEdge f to s1) = forget_ord (linkEdge f to s)) by (by rewrite Es).
    pose proof (unlinkEdge_ord f to (linkEdge f to s1)) as E1.
    pose proof (unlinkEdge_ord f to (linkEdge f to s)) as E2. rewrite El, E2 in E1.
    rewrite (unlink_link f to s) in E1; [|done|apply Hb|done..].
    apply (f_equal fst) in E1. cbn [fst] in E1. done.
Qed.

Lemma link_deps_ok to deps : forall j s s' j' e,
  link_deps to deps j s = (s', j', e) -> base_inv none_pending s -> live s to ->
  id (rec s to) ∉ deps ->
  exists es, linked es s s' /\ created j' = created j /\ j_edges j' = j_edges j ++ es /\
             (forall u v, (u, v) ∈ es -> v = to).
Proof.
  induction deps as [|dep deps IH]; intros j s s' j' e E Hb Hl Hid; simpl in E.
  { simplify_eq. exists []. rewrite app_nil_r. split_and!; [by apply linked_nil|done..|set_solver]. }
  apply not_elem_of_cons in Hid as [Hid1 Hid2].
  assert (Hstop : (s, j) = (s', j') -> exists es, linked es s s' /\ created j' = created j /\
    j_edges j' = j_edges j ++ es /\ (forall u v, (u, v) ∈ es -> v = to)).
  { intros [= <- <-]. exists []. rewrite app_nil_r. split_and!; [by apply linked_nil|done..|set_solver]. }
  destruct (lookup_id s dep) as [f|] eqn:El; [|apply Hstop; congruence].
  apply (gi_index s (bi_graph _ _ Hb)) in El as [Hf Hfid].
  assert (Hne : f <> to) by (intros ->; congruence).
  destruct (hasEdge s f to) eqn:Eh; [by eapply IH|].
  destruct (bool_decide _); [apply Hstop; congruence|].
  destruct (addEdgeOrder f to s) as [s1 r] eqn:Eo. destruct (cyclePath r) as [path|] eqn:Ec.
  { apply Hstop. rewrite (addEdgeOrder_reject s s1 f to r path Hb Hf Hl Hne Eo Ec) in E. congruence. }
  pose proof (link_step s s1 f to r Hb Hf Hl Hne Eh Eo Ec) as L1.
  apply IH in E as (es & L2 & E1 & E2 & E3).
  - exists ((f, to) :: es). split_and!; [by eapply (linked_app [(f, to)])|done| |].
    + rewrite E2. simpl. by rewrite <- app_assoc.
    + intros u v [[= -> ->]|Huv]%elem_of_cons; [done|by eapply E3].
  - apply L1.
  - by apply (linked_live _ _ _ _ L1).
  - destruct (rl_rec _ _ (ln_relinks _ _ _ L1) to) as [d ->]. done.
Qed.

(** *** The set of touched nodes *)

Definition os_ok (o : orderedSet) : Prop := forall x, x ∈ os_seen o <-> x ∈ os_items o.

Lemma os_add_ok o h : os_ok o -> os_ok (os_add o h) /\ forall x, x ∈ os_items (os_add o h) <-> x ∈ os_items o \/ x = h.
Proof.
  intros Ho. unfold os_add. case_bool_decide as Hh.
  - split; [done|]. intros x. apply Ho in Hh. split; [by left|]. intros [? | ->]; done.
  - simpl. split.
    + intros x. simpl. rewrite elem_of_union, elem_of_singleton, elem_of_app, list_elem_of_singleton, (Ho x). tauto.
    + intros x. rewrite elem_of_app, list_elem_of_singleton. done.
Qed.

Lemma newOrderedSet_ok : os_ok newOrderedSet.
Proof. intros x. simpl. set_solver. Qed.

(** [specs] are in the index and do not depend on themselves. *)
Definition batch_ok (s : scope) (specs : list NodeSpec) : Prop :=
  forall spec, spec ∈ specs -> is_Some (s_index s !! sp_ID spec) /\ sp_ID spec ∉ sp_Deps spec.

Lemma linkBatch_ok specs : forall touched j s s' j' r,
  linkBatch specs touched j s = (s', j', r) -> base_inv none_pending s -> batch_ok s specs -> os_ok touched ->
  (forall h, h ∈ os_items touched -> live s h) ->
  exists es, linked es s s' /\ created j' = created j /\ j_edges j' = j_edges j ++ es /\
    match r with
    | Fail _ => True
    | Ok t => (forall h, h ∈ os_items t -> live s h) /\ (forall h, h ∈ os_items touched -> h ∈ os_items t) /\
              (forall u v, (u, v) ∈ es -> v ∈ os_items t) /\
              (forall spec h, spec ∈ specs -> s_index s !! sp_ID spec = Some h -> h ∈ os_items t)
    end.
Proof.
  induction specs as [|spec specs IH]; intros touched j s s' j' r E Hb Hok Hos Hlv; simpl in E.
  { simplify_eq. exists []. rewrite app_nil_r. split_and!; [by apply linked_nil|done..|set_solver|set_solver]. }
  destruct (Hok spec) as [[h Hh] Hself]; [by left|]. rewrite Hh in E. simpl in E.
  pose proof Hh as [Hl Hid]%(gi_index s (bi_graph _ _ Hb)).
  destruct (os_add_ok touched h Hos) as [Hos' Hadd].
  destruct (link_deps h (sp_Deps spec) j s) as [[s1 j1] e] eqn:E1.
  apply link_deps_ok in E1 as (es1 & L1 & C1 & J1 & T1); [|done|done|by rewrite Hid].
  destruct e as [e|]; [simplify_eq; exists es1; done|].
  pose proof (rl_index _ _ (ln_relinks _ _ _ L1)) as (Ei & _).
  apply IH in E as (es2 & L2 & C2 & J2 & R2); [|apply L1| |done|].
  - exists (es1 ++ es2). split_and!; [by eapply linked_app|congruence|by rewrite J2, J1, app_assoc|].
    destruct r as [t|]; [|done]. destruct R2 as (R1 & R2 & R3 & R4). split_and!.
    + intros x Hx. by apply (linked_live _ _ _ _ L1), R1.
    + intros x Hx. apply R2, Hadd. by left.
    + intros u v [Huv|Huv]%elem_of_app; [|by eapply R3]. apply T1 in Huv as ->. apply R2, Hadd. by right.
    + intros sp x [->|Hsp]%elem_of_cons Hx; [|eapply R4; [done|by rewrite Ei]].
      assert (x = h) as -> by congruence. apply R2, Hadd. by right.
  - intros sp Hsp. rewrite Ei. apply Hok. by right.
  - intros x Hx. apply (linked_live _ _ _ _ L1). apply Hadd in Hx as [Hx|Hx]; [by apply Hlv|congruence].
Qed.

(** The targets of the edges [es] were collected. *)
Definition touched_ok (touched : orderedSet) (s : scope) (es : list (nat * nat)) (r : result orderedSet) : Prop :=
  match r with
  | Fail _ => True
  | Ok t => (forall h, h ∈ os_items t -> live s h) /\ (forall h, h ∈ os_items touched -> h ∈ os_items t) /\
            (forall u v, (u, v) ∈ es -> v ∈ os_items t)
  end.

Lemma link_edges_ok edges : forall touched j s s' j' r,
  link_edges edges touched j s = (s', j', r) -> base_inv none_pending s -> os_ok touched ->
  (forall h, h ∈ os_items touched -> live s h) ->
  exists es, linked es s s' /\ created j' = created j /\ j_edges j' = j_edges j ++ es /\
    touched_ok touched s es r.
Proof.
  induction edges as [|[a b] edges IH]; intros touched j s s' j' r E Hb Hos Hlv; simpl in E.
  { simplify_eq. exists []. rewrite app_nil_r. split_and!; [by apply linked_nil|done..|set_solver]. }
  assert (Hstop : forall e, (s, j, Fail e) = (s', j', r) -> exists es, linked es s s' /\ created j' = created j /\
    j_edges j' = j_edges j ++ es /\ touched_ok touched s es r).
  { intros e [= <- <- <-]. exists []. rewrite app_nil_r. split_and!; [by apply linked_nil|done..]. }
  destruct (lookup_id s a) as [f|] eqn:Ea; [|by eapply Hstop].
  destruct (lookup_id s b) as [to|] eqn:Eb; [|by eapply Hstop].
  apply (gi_index s (bi_graph _ _ Hb)) in Ea as [Hf _], Eb as [Ht _].
  destruct (Nat.eqb_spec f to) as [|Hne]; [by eapply Hstop|].
  destruct (hasEdge s f to) eqn:Eh; [by apply IH in E|].
  destruct (bool_decide _); [by eapply Hstop|].
  destruct (addEdgeOrder f to s) as [s1 t1] eqn:Eo. destruct (cyclePath t1) as [path|] eqn:Ec.
  { rewrite (addEdgeOrder_reject s s1 f to t1 path Hb Hf Ht Hne Eo Ec) in E. by eapply Hstop. }
  pose proof (link_step s s1 f to t1 Hb Hf Ht Hne Eh Eo Ec) as L1.
  destruct (os_add_ok touched to Hos) as [Hos' Hadd].
  apply IH in E as (es & L2 & C2 & J2 & R2); [|apply L1|done|].
  - exists ((f, to) :: es). split_and!; [by eapply (linked_app [(f, to)])|done| |].
    + rewrite J2. simpl. by rewrite <- app_assoc.
    + destruct r as [t|]; [|done]. destruct R2 as (R1 & R2 & R3). split_and!.
      * intros x Hx. by apply (linked_live _ _ _ _ L1), R1.
      * intros x Hx. apply R2, Hadd. by left.
      * intros u v [[= -> ->]|Huv]%elem_of_cons; [|by eapply R3]. apply R2, Hadd. by right.
  - intros x Hx. apply (linked_live _ _ _ _ L1). apply Hadd in Hx as [Hx|Hx]; [by apply Hlv|congruence].
Qed.

(** ** The edge loop of [RemoveEdges] *)

Lemma unlink_edges_ok edges : forall touched s s' r,
  unlink_edges edges touched s = (s', r) -> base_inv none_pending s -> os_ok touched ->
  (forall h, h ∈ os_items touched -> live s h) ->
  base_inv none_pending s' /\ relinks s s' /\ (forall u v, edge s' u v -> edge s u v) /\
  match r with
  | Fail _ => True
  | Ok t => (forall h, h ∈ os_items t -> live s h) /\ (forall h, h ∈ os_items touched -> h ∈ os_items t) /\
            (forall x, x ∉ os_items t -> rec s' x = rec s x)
  end.
Proof.
  induction edges as [|[a b] edges IH]; intros touched s s' r E Hb Hos Hlv; simpl in E.
  { simplify_eq. done. }
  destruct (lookup_id s a) as [f|] eqn:Ea; [|by simplify_eq].
  destruct (lookup_id s b) as [to|] eqn:Eb; [|by simplify_eq].
  apply (gi_index s (bi_graph _ _ Hb)) in Eb as [Ht _].
  destruct (unlinkEdge f to s) as [s1 present] eqn:Eu.
  destruct (unlink_ok s s1 f to present Eu Hb) as (B1 & R1 & E1 & P1 & Q1).
  destruct (os_add_ok touched to Hos) as [Hos' Hadd].
  set (t1 := if present then os_add touched to else touched) in E.
  assert (Ht1 : os_ok t1 /\ (forall x, x ∈ os_items t1 -> x ∈ os_items touched \/ x = to) /\
    (forall x, x ∈ os_items touched -> x ∈ os_items t1) /\ (present = true -> to ∈ os_items t1)).
  { unfold t1. destruct present; [|by split_and!; auto].
    split_and!; [done|by intros x Hx%Hadd|intros x Hx; apply Hadd; by left|intros _; apply Hadd; by right]. }
  destruct Ht1 as (O1 & O2 & O3 & O4).
  apply IH in E as (B2 & R2 & E2 & M2); [|done|done|].
  - split_and!; [done|by etrans|by intros u v [He _]%E2%E1|]. destruct r as [t|]; [|done].
    destruct M2 as (M1 & M2 & M3). split_and!.
    + intros x Hx. by apply (relinks_live s s1 x R1), M1.
    + intros x Hx. by apply M2, O3.
    + intros x Hx. rewrite M3 by done. apply Q1. destruct present; [left|by right].
      intros ->. by apply Hx, M2, O4.
  - intros x Hx. apply (relinks_live s s1 x R1). apply O2 in Hx as [Hx|Hx]; [by apply Hlv|congruence].
Qed.

(** * A rejected batch is undone

    [rollback] unlinks the journalled edges and retires the journalled nodes,
    latest first.  What it does not restore are the ranks ([Inspect] reports
    them), which may be another topological order of the same graph, the rank
    counter, and the slot arrays with their free list. *)

(** All the rest is the same. *)
Record restored (s s' : scope) : Prop := {
  rs_rec : forall x, rec s' x = rec s x;
  rs_succ : forall u, s_succ s' !!! u = s_succ s !!! u;
  rs_pred : forall v, s_pred s' !!! v = s_pred s !!! v;
  rs_keys : forall x, live s x -> keys_at s s' x;
  rs_heaps : s_ready s' = s_ready s /\ s_leases s' = s_leases s /\ s_scheduled s' = s_scheduled s;
  rs_index : s_index s' = s_index s;
  rs_stats : st_Total (s_stats s') = st_Total (s_stats s) /\
             forall b, counter b (s_stats s') = counter b (s_stats s);
  rs_log : same_log s s';
  rs_misc : s_epochFloor s' = s_epochFloor s /\ s_cfg s' = s_cfg s /\ s_sealed s' = s_sealed s;
  rs_next : s_nextFifo s' = s_nextFifo s /\ s_doorbell s' = s_doorbell s
}.

Lemma restored_live s s' x : restored s s' -> live s' x <-> live s x.
Proof. intros R. rewrite !live_alive. by rewrite (rs_rec s s' R). Qed.

Lemma restored_settled s s' x : restored s s' -> settled s x -> settled s' x.
Proof. intros R. apply settled_rec, R. Qed.

(** ** Retiring the created nodes *)

Record shrunk (hs : list nat) (s s' : scope) : Prop := {
  sh_inv : inv s';
  sh_rec : forall x, rec s' x = if decide (x ∈ hs) then zeroRec else rec s x;
  sh_succ : forall u, s_succ s' !!! u = s_succ s !!! u;
  sh_pred : forall v, s_pred s' !!! v = s_pred s !!! v;
  sh_keys : forall x, x ∉ hs -> keys_at s s' x;
  sh_heaps : s_ready s' = s_ready s /\ s_leases s' = s_leases s /\ s_scheduled s' = s_scheduled s;
  sh_log : same_log s s';
  sh_floor : s_epochFloor s' = s_epochFloor s;
  sh_misc : s_cfg s' = s_cfg s /\ s_sealed s' = s_sealed s;
  sh_next : s_nextFifo s' = s_nextFifo s /\ s_doorbell s' = s_doorbell s
}.

(** A node [rollback] may retire: created by the batch and left alone since. *)
Definition retirable (s : scope) (h : nat) : Prop :=
  in_phase s PhaseBlocked h /\ epoch (rec s h) = s_epochFloor s /\ forall u, ~ edge s h u /\ ~ edge s u h.

Lemma blocked_heap_at s h : heap_inv s -> in_phase s PhaseBlocked h -> heap_at h False False False s.
Proof.
  intros Hh [_ Hp]. eapply heap_at_iff; [| | |by apply (heap_at_inv h)]; unfold in_phase; rewrite Hp; naive_solver.
Qed.

Lemma rollback_node_retired s h : inv s -> retirable s h -> retired h s (rollback_node h s).
Proof.
  intros [Hb Hh] (Hp & He & Ha).
  apply retire_ok; [apply Hp|done|by apply blocked_heap_at|done].
Qed.

Lemma retirable_other h x s s' :
  retired h s s' -> epoch (rec s h) = s_epochFloor s -> x <> h -> retirable s x -> retirable s' x.
Proof.
  intros R He Hx ([Hl Hp] & Hex & Ha). pose proof (rt_node h s s' R) as N. unfold retirable, in_phase.
  rewrite (an_live h s s' N), (an_rec h s s' N), (rt_floor h s s' R) by done.
  split_and!; [done|done|lia|]. intros u. rewrite !(an_edge h s s' N). apply Ha.
Qed.

Lemma shrink_ok hs : forall s,
  inv s -> NoDup hs -> (forall h, h ∈ hs -> retirable s h) ->
  shrunk hs s (foldl (fun s h => rollback_node h s) s hs).
Proof.
  induction hs as [|h hs IH]; intros s Hi Hnd Hr; simpl.
  { split; try done. }
  apply NoDup_cons in Hnd as [Hh Hnd]. assert (Hrh : retirable s h) by (apply Hr; by left).
  pose proof (rollback_node_retired s h Hi Hrh) as R. destruct Hrh as (_ & He & _).
  pose proof (rt_node _ _ _ R) as N.
  destruct (IH (rollback_node h s)) as [I2 R2 S2 P2 D2 H2 L2 F2 M2 X2]; [apply R|done| |].
  { intros x Hx. eapply retirable_other; [exact R|done|by intros ->|]. apply Hr. by right. }
  split; try done.
  - intros x. rewrite R2. destruct (decide (x ∈ hs)) as [Hx|Hx].
    + rewrite decide_True; [done|by right].
    + destruct (decide (x = h)) as [->|Hne].
      * rewrite decide_True by left. apply (gi_dead _ (bi_graph _ _ (inv_base _ (rt_inv _ _ _ R)))).
        pose proof (rt_gone _ _ _ R) as Hg. rewrite live_alive in Hg. by apply not_true_is_false.
      * rewrite decide_False by (by rewrite not_elem_of_cons). by apply (an_rec h _ _ N).
  - intros u. rewrite S2. apply N.
  - intros v. rewrite P2. apply N.
  - intros x [Hx1 Hx2]%not_elem_of_cons. eapply keys_at_trans; [by eapply an_keys_at|by apply D2].
  - destruct (an_log h _ _ N), L2. split; congruence.
  - rewrite F2, (rt_floor _ _ _ R). lia.
Qed.

(** ** Counting over slot arrays of different length *)

Lemma count_default P (l : list nodeRec) :
  P zeroRec = false -> (forall x, l !!! x = zeroRec) -> count P l = 0.
Proof.
  intros HP Hl. apply count_zero. intros r [i Hi]%list_elem_of_lookup.
  specialize (Hl i). by rewrite (list_lookup_total_correct _ _ _ Hi) in Hl; subst.
Qed.

Lemma count_pointwise P (l l' : list nodeRec) :
  P zeroRec = false -> (forall x, l' !!! x = l !!! x) -> count P l' = count P l.
Proof.
  intros HP. revert l'. induction l as [|r l IH]; intros l' Hl.
  - by apply count_default.
  - destruct l' as [|r' l'].
    + symmetry. apply count_default; [done|]. intros x. by rewrite <- Hl.
    + simpl. rewrite (IH l'); [|intros x; apply (Hl (S x))].
      assert (r' = r) as -> by apply (Hl 0). done.
Qed.

Lemma stats_pointwise s s' :
  stats_inv s -> stats_inv s' -> (forall x, rec s' x = rec s x) ->
  st_Total (s_stats s') = st_Total (s_stats s) /\ forall b, counter b (s_stats s') = counter b (s_stats s).
Proof.
  intros [T B _] [T' B' _] Hr. split.
  - rewrite T, T'. do 2 f_equal. by apply count_pointwise.
  - intros b. rewrite B, B'. do 2 f_equal. by apply count_pointwise.
Qed.

Lemma index_pointwise s s' :
  graph_inv s -> graph_inv s' -> (forall x, rec s' x = rec s x) -> s_index s' = s_index s.
Proof.
  intros Hg Hg' Hr. apply map_eq. intros i. apply option_eq. intros h.
  rewrite (gi_index s Hg), (gi_index s' Hg'), !live_alive. by rewrite Hr.
Qed.

(** ** [rollback] *)

Lemma rollback_ok new es s sM sL :
  inv s -> grown new s sM -> linked es sM sL ->
  inv (rollback (mkJournal new es) sL) /\ restored s (rollback (mkJournal new es) sL).
Proof.
  intros Hi G L. unfold rollback. simpl. fold (unlink_all (reverse es) sL).
  destruct (unlink_all_ok (reverse es) sL (ln_base _ _ _ L)) as (BU & RU & _).
  set (sU := unlink_all (reverse es) sL) in *. pose proof (ln_undo _ _ _ L) as EU. fold sU in EU.
  assert (Erec : forall x, rec sU x = rec sM x) by (intros x; unfold rec; by apply (f_equal s_recs) in EU; simpl in EU; rewrite EU).
  pose proof (f_equal s_succ EU) as Es. pose proof (f_equal s_pred EU) as Ep.
  pose proof (f_equal s_deadline EU) as Ed. pose proof (f_equal s_readyAt EU) as Ea. pose proof (f_equal s_fifo EU) as Eq.
  pose proof (f_equal s_nextFifo EU) as En. pose proof (f_equal s_doorbell EU) as Eb.
  pose proof (f_equal s_epochFloor EU) as Ef.
  pose proof (f_equal s_cfg EU) as Ec. pose proof (f_equal s_sealed EU) as Ese. simpl in *.
  assert (HiU : inv sU).
  { split; [done|]. eapply relinks_heap; [exact RU|]. eapply relinks_heap; [apply L|]. apply G. }
  assert (Hed : forall u v, edge sU u v <-> edge s u v).
  { intros u v. unfold edge. by rewrite Es, (gn_succ _ _ _ G). }
  destruct (gn_misc _ _ _ G) as (M1 & M2 & M3).
  destruct (shrink_ok (reverse new) sU HiU) as [I R S P D H Lg F M X].
  { rewrite reverse_Permutation. apply G. }
  { intros h Hh. rewrite elem_of_reverse in Hh. destruct (gn_new _ _ _ G h Hh) as (H1 & H2 & H3 & H4).
    unfold retirable, in_phase. rewrite live_alive, !Erec, <- live_alive, Ef. split_and!; [done|done|congruence|].
    intros u. rewrite !Hed. split; intros [? ?]%(gw_live s (gi_wf s (bi_graph _ _ (inv_base _ Hi)))); done. }
  set (s' := foldl (fun s h => rollback_node h s) sU (reverse new)) in *.
  assert (Hrec : forall x, rec s' x = rec s x).
  { intros x. rewrite R. destruct (decide (x ∈ reverse new)) as [Hx|Hx].
    - rewrite elem_of_reverse in Hx. destruct (gn_new _ _ _ G x Hx) as (H1 & _).
      symmetry. apply (gi_dead s (bi_graph _ _ (inv_base _ Hi))). rewrite live_alive in H1. by apply not_true_is_false.
    - rewrite elem_of_reverse in Hx. rewrite Erec. by apply G. }
  split; [done|]. split; try done.
  - intros u. rewrite S, Es. apply G.
  - intros v. rewrite P, Ep. apply G.
  - intros x Hx. assert (x ∉ new) by (intros Hn; by destruct (gn_new _ _ _ G x Hn)).
    eapply keys_at_trans; [by apply G|]. eapply keys_at_trans; [|apply D; by rewrite elem_of_reverse].
    unfold keys_at. by rewrite Ed, Ea, Eq.
  - destruct (ss_heaps _ _ (rl_sched _ _ RU)) as (? & ? & ?).
    destruct (ss_heaps _ _ (rl_sched _ _ (ln_relinks _ _ _ L))) as (? & ? & ?).
    destruct (gn_heaps _ _ _ G) as (? & ? & ?), H as (? & ? & ?). split_and!; congruence.
  - apply index_pointwise; [apply Hi|apply I|done].
  - apply stats_pointwise; [apply Hi|apply I|done].
  - destruct (gn_log _ _ _ G), (rl_log _ _ (ln_relinks _ _ _ L)), (rl_log _ _ RU), Lg. split; congruence.
  - destruct M. split_and!; congruence.
  - destruct X, (gn_next _ _ _ G). split; congruence.
Qed.
