(* ===== verification/GraphOps.v ===== *)
(** * The operations of [graph.go] on a scope *)
From S2P Require Import Prelude Types Config Heap HeapFacts Scope Topo TopoFacts Graph Lease Invariant ScopeFacts DepFacts Evolve.
From S2P Require Import Terminate LeaseFacts EdgeFacts NodeFacts GraphFacts.

(** ** What no such operation does to a node that stays *)

Record kept (s s' : scope) : Prop := {
  kp_live : forall x, live s x -> live s' x;
  kp_fixed : forall x, live s x -> fixed (rec s' x) = fixed (rec s x);
  kp_done : forall x, live s x -> phase (rec s x) = PhaseDone -> outcome (rec s' x) = outcome (rec s x);
  kp_epoch : forall x, live s x -> epoch (rec s' x) = epoch (rec s x);
  kp_attempt : forall x, live s x -> attempt (rec s' x) = attempt (rec s x);
  kp_new : forall x, live s' x -> ~ live s x -> epoch (rec s' x) = s_epochFloor s;
  kp_floor : s_epochFloor s' = s_epochFloor s;
  kp_cfg : s_cfg s' = s_cfg s /\ s_sealed s' = s_sealed s /\ s_name s' = s_name s /\ s_logCap s' = s_logCap s
}.

#[export] Instance kept_preorder : PreOrder kept.
Proof.
  split; [by split|]. intros s1 s2 s3 [L1 F1 D1 E1 A1 N1 O1 C1] [L2 F2 D2 E2 A2 N2 O2 C2].
  split; try (destruct_and!; split_and?; congruence).
  - auto.
  - intros x Hx. rewrite F2; auto.
  - intros x Hx Hd. rewrite D2; [auto|auto|]. specialize (D1 x Hx Hd). unfold outcome in D1. congruence.
  - intros x Hx. rewrite E2; auto.
  - intros x Hx. rewrite A2; auto.
  - intros x Hx Hn. rewrite <- O1. destruct (decide (alive (rec s2 x) = true)) as [H2|H2].
    + apply live_alive in H2. rewrite E2 by done. rewrite O1. by apply N1.
    + apply N2; [done|]. by rewrite live_alive.
Qed.

Lemma evolves_kept s s' : evolves s s' -> kept s s'.
Proof.
  intros [G D K E A F C]. split; try done; intros x Hx; auto; [by apply (sg_live s s' G)|by apply G|].
  intros []. by apply (sg_live s s' G).
Qed.

Lemma grown_kept new s s' : grown new s s' -> kept s s'.
Proof.
  intros G. assert (Hn : forall x, live s x -> x ∉ new).
  { intros x Hx Hin. by destruct (gn_new _ _ _ G x Hin). }
  destruct (gn_misc _ _ _ G) as (M1 & M2 & M3). destruct (gn_log _ _ _ G).
  split; try done; intros x Hx; try (rewrite ?(gn_rec _ _ _ G x) by auto; done).
  - apply (grown_live _ _ _ _ G). by left.
  - intros Hno. apply (grown_live _ _ _ _ G) in Hx as [|Hx]; [done|]. by apply (gn_new _ _ _ G).
Qed.

Lemma relinks_kept s s' : relinks s s' -> kept s s'.
Proof.
  intros R. destruct (rl_misc _ _ R) as (M1 & M2 & M3). destruct (rl_log _ _ R).
  split; try done; intros x Hx; try (destruct (rl_rec _ _ R x) as [d ->]; done).
  - by apply (relinks_live s s' x R).
  - intros []. by apply (relinks_live s s' x R).
Qed.

Lemma restored_kept s s' : restored s s' -> kept s s'.
Proof.
  intros R. destruct (rs_misc _ _ R) as (M1 & M2 & M3). destruct (rs_log _ _ R).
  split; try done; intros x Hx; try (by rewrite ?(rs_rec _ _ R)).
  - by apply (restored_live s s' x R).
  - intros []. by apply (restored_live s s' x R).
Qed.

Lemma relinks_holds s s' x : relinks s s' -> holds s s' x.
Proof.
  intros R. unfold holds. destruct (ss_keys _ _ (rl_sched _ _ R)) as (-> & _).
  by destruct (rl_rec _ _ R x) as [d ->].
Qed.

Lemma grown_holds new s s' x : grown new s s' -> live s x -> holds s s' x.
Proof.
  intros G Hx. assert (x ∉ new) by (intros Hin; by destruct (gn_new _ _ _ G x Hin)).
  unfold holds. destruct (gn_keys _ _ _ G x) as (-> & _); [done|]. by rewrite (gn_rec _ _ _ G).
Qed.

(** ** Validation *)

Lemma validateBatch_self cfg specs spec :
  validateBatch cfg specs = None -> spec ∈ specs -> sp_ID spec ∉ sp_Deps spec.
Proof.
  unfold validateBatch. destruct (_ <? _)%Z; [done|]. generalize (∅ : gset string).
  induction specs as [|sp specs IH]; intros seen; simpl; [set_solver|].
  destruct (NodeSpec_Validate sp) eqn:Ev; [done|]. destruct (_ <? _)%Z; [done|].
  case_bool_decide; [done|]. intros E [->|Hs]%elem_of_cons; [by apply Validate_self|by eapply IH].
Qed.

(** ** [AddNodes] *)

Section Clocked.
Context {C : Type} `{!ClockSource C}.

Lemma record_step h k from (c c' : C) s s' ef :
  record h k from c s = (c', s', ef) -> inv s -> live s h -> step_ok nobody s s'.
Proof.
  intros (now & -> & _)%record_spec [Hb Hh] Hl. split.
  - by apply record_evolves.
  - split; [by apply record_base|by apply record_heap].
  - intros x. by apply record_settled.
  - intros x _. by apply record_holds.
Qed.

Lemma record_created_ok fresh : forall (c c' : C) s s' out out',
  record_created fresh c s out = (c', s', out') -> inv s -> (forall h, h ∈ fresh -> live s h) ->
  step_ok nobody s s'.
Proof.
  induction fresh as [|h fresh IH]; intros c c' s s' out out' E Hi Hl; simpl in E.
  { simplify_eq. by apply step_ok_refl. }
  destruct (record h _ _ c s) as [[c1 s1] ef] eqn:E1.
  apply record_step in E1; [|done|apply Hl; by left].
  eapply step_ok_trans; [exact E1|]. eapply IH; [exact E|apply E1|].
  intros x Hx. apply (ev_live _ _ (so_evolves _ _ _ E1)), Hl. by right.
Qed.

(** The two halves of an accepted batch: the writes, then the settling. *)
Record added (specs : list NodeSpec) (s s' : scope) : Prop := {
  ad_inv : inv s';
  ad_kept : kept s s';
  ad_holds : forall x, live s x -> holds s s' x;
  ad_settled : all_settled s -> all_settled s';
  ad_known : forall spec, spec ∈ specs -> exists h, s_index s' !! sp_ID spec = Some h;
  ad_edges : forall u v, edge s u v -> edge s' u v
}.

Lemma settle_batch_ok hs (c c' : C) s0 s s' out out' :
  settle_all hs c s out = (c', s', out') -> inv s -> (forall h, h ∈ hs -> live s h) ->
  (forall x, x ∉ hs -> settled s0 x -> settled s x) ->
  step_ok nobody s s' /\ (all_settled s0 -> all_settled s').
Proof.
  intros E Hi Hl Hs. apply settle_all_ok in E as [S H]; [|done|done]. split; [done|].
  intros Ha x. destruct (decide (x ∈ hs)) as [Hx|Hx]; [by apply H|]. apply S. by apply Hs.
Qed.

Lemma AddNodes_ok specs (c c' : C) s s' r :
  scope_AddNodes specs c s = (c', s', r) -> inv s -> room (length specs) s ->
  match r with
  | Fail _ => inv s' /\ restored s s'
  | Ok _ => added specs s s'
  end.
Proof.
  intros E Hi Hr. unfold scope_AddNodes in E.
  assert (Hre : restored s s) by (by split).
  destruct (s_sealed s); [by simplify_eq|]. destruct (validateBatch _ specs) eqn:Ev; [by simplify_eq|].
  destruct (clk_Now c) as [now c1]. destruct (materialise specs now _ s) as [[sM jM] rM] eqn:Em.
  apply materialise_ok in Em as (new & G & Ec & Ee & Em); [|done|done]. simpl in Ec, Ee.
  pose proof (gn_inv _ _ _ G) as HiM. destruct rM as [fresh|e].
  2:{ injection E as <- <- <-. assert (jM = mkJournal new []) as -> by (destruct jM; simpl in *; congruence).
      eapply rollback_ok; [done|done|by apply linked_nil, HiM]. }
  destruct Em as (Hfr & Hix & Hnew). subst fresh. destruct (linkBatch specs newOrderedSet jM sM) as [[sL jL] rL] eqn:El.
  apply linkBatch_ok in El as (es & L & Cl & Jl & Tl); [|apply HiM| |apply newOrderedSet_ok|set_solver].
  2:{ intros spec Hsp. split; [by apply Hix|]. by eapply validateBatch_self. }
  destruct rL as [touched|e].
  2:{ injection E as <- <- <-. rewrite Ee in Jl. assert (jL = mkJournal new es) as -> by (destruct jL; simpl in *; congruence).
      by eapply rollback_ok. }
  destruct Tl as (T1 & _ & T3 & T4).
  assert (HiL : inv sL) by (split; [apply L|eapply relinks_heap; [apply L|apply HiM]]).
  assert (HlL : forall x, live sM x -> live sL x) by (intros x; apply (linked_live _ _ _ _ L)).
  destruct (record_created new c1 sL []) as [[c2 s2] o2] eqn:E2.
  apply record_created_ok in E2; [|done|by intros h Hh; apply HlL, (gn_new _ _ _ G h Hh)].
  destruct (settle_all _ c2 s2 o2) as [[c3 s3] o3] eqn:E3. simplify_eq.
  eapply (settle_batch_ok _ _ _ s) in E3 as [S3 H3]; [|apply E2| |].
  - split.
    + by apply refreshComplete_inv, S3.
    + etrans; [by eapply grown_kept|]. etrans; [apply relinks_kept, L|].
      etrans; [apply evolves_kept, E2|]. etrans; [apply evolves_kept, S3|].
      by split.
    + intros x Hx. eapply holds_trans; [by eapply grown_holds|].
      eapply holds_trans; [by apply relinks_holds, (ln_relinks _ _ _ L)|].
      eapply holds_trans; [apply E2; by intros []|]. by apply S3; intros [].
    + intros Ha x. exact (H3 Ha x).
    + intros spec Hsp. destruct (Hix spec Hsp) as [h Hh]. exists h. simpl.
      rewrite (proj1 (sg_index _ _ (ev_graph _ _ (so_evolves _ _ _ S3)))).
      rewrite (proj1 (sg_index _ _ (ev_graph _ _ (so_evolves _ _ _ E2)))).
      by destruct (rl_index _ _ (ln_relinks _ _ _ L)) as (-> & _).
    + intros u v He. change (edge s3 u v). apply (ev_edge _ _ (so_evolves _ _ _ S3)), (ev_edge _ _ (so_evolves _ _ _ E2)).
      apply (ln_edge _ _ _ L). left. by apply (grown_edge _ _ _ _ _ G).
  - intros x Hx. apply (ev_live _ _ (so_evolves _ _ _ E2)), HlL. by apply T1.
  - intros x Hx Hs. apply E2. apply (settled_rec sM).
    { apply (ln_rec _ _ _ L). intros u Hu. by apply Hx, (T3 u). }
    apply (settled_rec s); [|done]. apply (gn_rec _ _ _ G). intros Hn. apply Hx.
    destruct (Hnew x Hn) as (spec & Hsp & Hi'). by apply (T4 spec).
Qed.

(** ** [AddEdges] and [RemoveEdges] *)

Lemma AddEdges_ok edges (c c' : C) s s' r :
  scope_AddEdges edges c s = (c', s', r) -> inv s ->
  match r with
  | Fail _ => inv s' /\ restored s s'
  | Ok _ => added [] s s'
  end.
Proof.
  intros E Hi. unfold scope_AddEdges in E.
  destruct (link_edges edges newOrderedSet _ s) as [[sL j] rL] eqn:El.
  apply link_edges_ok in El as (es & L & Cj & Ej & Tl); [|apply Hi|apply newOrderedSet_ok|set_solver].
  destruct rL as [touched|e].
  2:{ injection E as <- <- <-. assert (j = mkJournal [] es) as -> by (destruct j; simpl in *; congruence).
      eapply rollback_ok; [done|by apply grown_nil|done]. }
  destruct Tl as (T1 & _ & T3).
  assert (HiL : inv sL) by (split; [apply L|eapply relinks_heap; [apply L|apply Hi]]).
  destruct (settle_all _ c sL []) as [[c3 s3] o3] eqn:E3. injection E as <- <- <-.
  eapply (settle_batch_ok _ _ _ s) in E3 as [S3 H3]; [|done| |].
  - split; [apply S3| | |done|set_solver|].
    + etrans; [apply relinks_kept, L|apply evolves_kept, S3].
    + intros x Hx. eapply holds_trans; [by apply relinks_holds, (ln_relinks _ _ _ L)|]. by apply S3; intros [].
    + intros u v He. apply (ev_edge _ _ (so_evolves _ _ _ S3)), (ln_edge _ _ _ L). by left.
  - intros x Hx. apply (linked_live _ _ _ _ L). by apply T1.
  - intros x Hx. apply settled_rec, (ln_rec _ _ _ L). intros u Hu. by apply Hx, (T3 u).
Qed.

Record unadded (s s' : scope) : Prop := {
  ud_inv : inv s';
  ud_kept : kept s s';
  ud_holds : forall x, holds s s' x;
  ud_edges : forall u v, edge s' u v -> edge s u v;
  ud_live : forall x, live s' x <-> live s x
}.

Lemma RemoveEdges_ok edges (c c' : C) s s' r :
  scope_RemoveEdges edges c s = (c', s', r) -> inv s ->
  unadded s s' /\ match r with Fail _ => True | Ok _ => all_settled s -> all_settled s' end.
Proof.
  intros E Hi. unfold scope_RemoveEdges in E.
  destruct (unlink_edges edges newOrderedSet s) as [sU rU] eqn:El.
  apply unlink_edges_ok in El as (B & R & Ed & Tl); [|apply Hi|apply newOrderedSet_ok|set_solver].
  assert (HiU : inv sU) by (split; [done|eapply relinks_heap; [done|apply Hi]]).
  destruct rU as [touched|e].
  2:{ injection E as <- <- <-. split; [|done]. split; [done|by apply relinks_kept| |done|].
      - intros x. by apply relinks_holds.
      - intros x. by apply relinks_live. }
  destruct Tl as (T1 & _ & T3). destruct (settle_all _ c sU []) as [[c3 s3] o3] eqn:E3. injection E as <- <- <-.
  eapply (settle_batch_ok _ _ _ s) in E3 as [S3 H3]; [|done| |].
  - split; [|done]. split; [apply S3| | | |].
    + etrans; [by apply relinks_kept|apply evolves_kept, S3].
    + intros x. eapply holds_trans; [by apply relinks_holds|]. by apply S3; intros [].
    + intros u v He%(ev_edge _ _ (so_evolves _ _ _ S3)). by apply Ed.
    + intros x. rewrite (ev_live _ _ (so_evolves _ _ _ S3)). by apply relinks_live.
  - intros x Hx. apply (relinks_live s sU x R). by apply T1.
  - intros x Hx. apply settled_rec. by apply T3.
Qed.

(** ** [Cancel] and [CancelScope] *)

Lemma item_cancel s h : live s h -> item_ok s (mkItem h StatusError ReasonCancelled (terminalMessage ReasonCancelled)).
Proof. intros Hl. split; [done|by right]. Qed.

Lemma cancel_ids_ok ids : forall (c c' : C) s s' out out' e,
  cancel_ids ids c s out = (c', s', out', e) -> inv s ->
  step_ok (fun x => id (rec s x) ∈ ids) s s' /\
  (e = None -> forall i h, i ∈ ids -> s_index s !! i = Some h -> phase (rec s' h) = PhaseDone).
Proof.
  induction ids as [|i ids IH]; intros c c' s s' out out' e E Hi; simpl in E.
  { simplify_eq. split; [by apply step_ok_refl|set_solver]. }
  destruct (lookup_id s i) as [h|] eqn:El; [|simplify_eq; split; [by apply step_ok_refl|done]].
  destruct (lookup_live s i h (bi_graph _ _ (inv_base _ Hi)) El) as [Hl Hid].
  destruct (bool_decide (phase (rec s h) = PhaseDone)) eqn:Ed.
  - apply bool_decide_eq_true in Ed. apply IH in E as [S H]; [|done]. split.
    + eapply step_ok_weaken; [|exact S]. intros x Hx. by right.
    + intros He i' h' [->|Hi']%elem_of_cons Hh'; [|by eapply H].
      assert (h' = h) as -> by (unfold lookup_id in El; congruence). by apply (ev_phase_done _ _ (so_evolves _ _ _ S)).
  - destruct (terminate _ _ _ _ c s out) as [[c1 s1] o1] eqn:E1.
    apply terminate_inv in E1; [|by apply item_cancel|done].
    pose proof (ended_step _ _ _ E1) as S1. pose proof (so_evolves _ _ _ S1) as V1.
    apply IH in E as [S H]; [|apply S1]. split.
    + eapply step_ok_trans; [eapply step_ok_weaken; [|exact S1]|eapply step_ok_weaken; [|exact S]].
      * intros x ->%list_elem_of_singleton. rewrite Hid. by left.
      * intros x Hx. cbv beta in *. rewrite (sg_id _ _ (ev_graph _ _ V1)) in Hx. by right.
    + intros He i' h' [->|Hi']%elem_of_cons Hh'.
      * assert (h' = h) as -> by (unfold lookup_id in El; congruence).
        apply (ev_phase_done _ _ (so_evolves _ _ _ S)), (en_done _ _ _ E1). by left.
      * eapply H; [done|done|]. by rewrite (proj1 (sg_index _ _ (ev_graph _ _ V1))).
Qed.

Lemma Cancel_ok ids (c c' : C) s s' out e :
  scope_Cancel ids c s = (c', s', out, e) -> inv s ->
  step_ok (fun x => id (rec s x) ∈ ids) s s' /\
  (e = None -> forall i h, i ∈ ids -> s_index s !! i = Some h -> phase (rec s' h) = PhaseDone).
Proof.
  intros E Hi. unfold scope_Cancel in E. destruct (cancel_ids ids c s []) as [[[c1 s1] o1] e1] eqn:E1.
  apply cancel_ids_ok in E1 as [S H]; [|done].
  destruct e1; simplify_eq; [by split|]. split; [by apply refreshComplete_step|done].
Qed.

Lemma cancel_handles_ok hs : forall (c c' : C) s s' out out',
  cancel_handles hs c s out = (c', s', out') -> inv s -> (forall h, h ∈ hs -> live s h) ->
  step_ok (fun x => x ∈ hs) s s' /\ (forall h, h ∈ hs -> phase (rec s' h) = PhaseDone).
Proof.
  induction hs as [|h hs IH]; intros c c' s s' out out' E Hi Hl; simpl in E.
  { simplify_eq. split; [by apply step_ok_refl|set_solver]. }
  assert (Hlh : live s h) by (apply Hl; by left).
  destruct (bool_decide (phase (rec s h) = PhaseDone)) eqn:Ed.
  - apply bool_decide_eq_true in Ed. apply IH in E as [S H]; [|done|by intros x Hx; apply Hl; right]. split.
    + eapply step_ok_weaken; [|exact S]. intros x Hx. by right.
    + intros x [->|Hx]%elem_of_cons; [|by apply H]. by apply (ev_phase_done _ _ (so_evolves _ _ _ S)).
  - destruct (terminate _ _ _ _ c s out) as [[c1 s1] o1] eqn:E1.
    apply terminate_inv in E1; [|by apply item_cancel|done]. pose proof (ended_step _ _ _ E1) as S1.
    apply IH in E as [S H]; [|apply S1|].
    + split.
      * eapply step_ok_trans; [eapply step_ok_weaken; [|exact S1]|eapply step_ok_weaken; [|exact S]].
        -- intros x ->%list_elem_of_singleton. by left.
        -- intros x Hx. by right.
      * intros x [->|Hx]%elem_of_cons; [|by apply H].
        apply (ev_phase_done _ _ (so_evolves _ _ _ S)), (en_done _ _ _ E1). by left.
    + intros x Hx. apply (ev_live _ _ (so_evolves _ _ _ S1)), Hl. by right.
Qed.

(** [visit] lists every node once, as ranging over a Go map does. *)
Definition visits_all (visit : list nat) (s : scope) : Prop := forall h, h ∈ visit <-> live s h.

Lemma CancelScope_ok visit (c c' : C) s s' out :
  scope_CancelScope visit c s = (c', s', out) -> inv s -> visits_all visit s ->
  step_ok (fun _ => True) s s' /\ forall h, live s' h -> phase (rec s' h) = PhaseDone.
Proof.
  intros E Hi Hv. unfold scope_CancelScope in E.
  destruct (cancel_handles _ c s []) as [[c1 s1] o1] eqn:E1. simplify_eq.
  apply cancel_handles_ok in E1 as [S H]; [|done|by intros h [_ Hh]%list_elem_of_filter; apply Hv].
  split; [apply refreshComplete_step; eapply step_ok_weaken; [|exact S]; done|].
  intros h Hl. change (live s1 h) in Hl. change (phase (rec s1 h) = PhaseDone).
  apply (ev_live _ _ (so_evolves _ _ _ S)) in Hl.
  destruct (decide (phase (rec s h) = PhaseDone)) as [Hd|Hd]; [by apply (ev_phase_done _ _ (so_evolves _ _ _ S))|].
  apply H. apply list_elem_of_filter. split; [done|by apply Hv].
Qed.

End Clocked.

(** * What the graph operations add and remove

    The exact effect on nodes and edges of a batch that was accepted:
    [AddNodes], [AddEdges] and [RemoveEdges] leave the graph with the nodes
    and edges they name, and change no other edge. *)

(** ** Edges by name *)

(** The edge a pair of identifiers stands for. *)
Definition named (s : scope) (e : Edge) (u v : nat) : Prop :=
  s_index s !! e_From e = Some u /\ s_index s !! e_To e = Some v.

(** The dependency edges a batch of specs asks for. *)
Definition wanted (s : scope) (specs : list NodeSpec) (u v : nat) : Prop :=
  exists spec dep, spec ∈ specs /\ dep ∈ sp_Deps spec /\
    s_index s !! dep = Some u /\ s_index s !! sp_ID spec = Some v.

Lemma link_edges_exact edges : forall touched j s s' j' t,
  link_edges edges touched j s = (s', j', Ok t) -> base_inv none_pending s ->
  (forall u v, edge s' u v <-> edge s u v \/ exists e, e ∈ edges /\ named s e u v) /\
  (forall e, e ∈ edges -> exists u v, named s e u v).
Proof.
  induction edges as [|[a b] edges IH]; intros touched j s s' j' t E Hb; simpl in E.
  { simplify_eq. set_solver. }
  destruct (lookup_id s a) as [f|] eqn:Ea; [|done]. destruct (lookup_id s b) as [to|] eqn:Eb; [|done].
  assert (Hn : named s (mkEdge a b) f to) by done.
  apply (gi_index s (bi_graph _ _ Hb)) in Ea as [Hf _], Eb as [Ht _].
  destruct (Nat.eqb_spec f to) as [|Hne]; [done|]. destruct (hasEdge s f to) eqn:Eh.
  - apply IH in E as [E1 E2]; [|done]. apply (hasEdge_spec s f to (gi_wf s (bi_graph _ _ Hb))) in Eh. split.
    + intros u v. rewrite E1. split; [set_solver|]. intros [He|(e & [->|Hin]%elem_of_cons & Hm)]; [by left| |eauto].
      left. by replace u with f by (destruct Hn, Hm; congruence);
        replace v with to by (destruct Hn, Hm; congruence).
    + intros e [->|Hin]%elem_of_cons; [by exists f, to|by apply E2].
  - destruct (bool_decide _); [done|]. destruct (addEdgeOrder f to s) as [s1 t1] eqn:Eo.
    destruct (cyclePath t1) as [path|] eqn:Ec; [done|].
    pose proof (link_step s s1 f to t1 Hb Hf Ht Hne Eh Eo Ec) as L1.
    pose proof (rl_index _ _ (ln_relinks _ _ _ L1)) as (Ei & _).
    apply IH in E as [E1 E2]; [|apply L1]. unfold named in *. rewrite Ei in *. split.
    + intros u v. rewrite E1, (ln_edge _ _ _ L1). split.
      * intros [[He|[= -> ->]%list_elem_of_singleton]|(e & He & Hm)]; [by left|right|right; exists e; set_solver].
        exists (mkEdge a b). by split; [left|].
      * intros [He|(e & [->|Hin]%elem_of_cons & Hm)]; [by left; left| |eauto].
        left. right. apply list_elem_of_singleton. destruct Hn, Hm. congruence.
    + intros e [->|Hin]%elem_of_cons; [by exists f, to|by apply E2].
Qed.

Lemma link_deps_exact to deps : forall j s s' j',
  link_deps to deps j s = (s', j', None) -> base_inv none_pending s -> live s to -> id (rec s to) ∉ deps ->
  (forall u v, edge s' u v <-> edge s u v \/ v = to /\ exists d, d ∈ deps /\ s_index s !! d = Some u) /\
  (forall d, d ∈ deps -> is_Some (s_index s !! d)).
Proof.
  induction deps as [|d deps IH]; intros j s s' j' E Hb Hl Hid; simpl in E; [simplify_eq; set_solver|].
  apply not_elem_of_cons in Hid as [Hid1 Hid2].
  destruct (lookup_id s d) as [f|] eqn:El; [|done]. pose proof El as [Hf Hfid]%(gi_index s (bi_graph _ _ Hb)).
  unfold lookup_id in El. assert (Hne : f <> to) by (intros ->; congruence). destruct (hasEdge s f to) eqn:Eh.
  - apply IH in E as [E1 E2]; [|done..]. apply (hasEdge_spec s f to (gi_wf s (bi_graph _ _ Hb))) in Eh. split.
    + intros u v. rewrite E1. split; [set_solver|].
      intros [He|(-> & x & [->|Hin]%elem_of_cons & Hx)]; [by left| |right; eauto]. left. congruence.
    + intros x [->|Hin]%elem_of_cons; [by exists f|by apply E2].
  - destruct (bool_decide _); [done|]. destruct (addEdgeOrder f to s) as [s1 r] eqn:Eo.
    destruct (cyclePath r) as [path|] eqn:Ec; [done|].
    pose proof (link_step s s1 f to r Hb Hf Hl Hne Eh Eo Ec) as L1.
    pose proof (rl_index _ _ (ln_relinks _ _ _ L1)) as (Ei & _).
    apply IH in E as [E1 E2]; [|apply L1|by apply (linked_live _ _ _ _ L1)|
      by destruct (rl_rec _ _ (ln_relinks _ _ _ L1) to) as [? ->]].
    rewrite Ei in *. split.
    + intros u v. rewrite E1, (ln_edge _ _ _ L1). split.
      * intros [[He|[= -> ->]%list_elem_of_singleton]|(-> & x & Hx & Hm)]; [by left|right|right; set_solver].
        split; [done|]. exists d. by split; [left|].
      * intros [He|(-> & x & [->|Hin]%elem_of_cons & Hx)]; [by left; left| |right; eauto].
        left. right. apply list_elem_of_singleton. congruence.
    + intros x [->|Hin]%elem_of_cons; [by exists f|by apply E2].
Qed.

Lemma linkBatch_exact specs : forall touched j s s' j' t,
  linkBatch specs touched j s = (s', j', Ok t) -> base_inv none_pending s -> batch_ok s specs ->
  (forall u v, edge s' u v <-> edge s u v \/ wanted s specs u v) /\
  (forall spec d, spec ∈ specs -> d ∈ sp_Deps spec -> is_Some (s_index s !! d)).
Proof.
  induction specs as [|spec specs IH]; intros touched j s s' j' t E Hb Hok; simpl in E.
  { simplify_eq. unfold wanted. set_solver. }
  destruct (Hok spec) as [[h Hh] Hself]; [by left|]. rewrite Hh in E. simpl in E.
  pose proof Hh as [Hl Hid]%(gi_index s (bi_graph _ _ Hb)).
  destruct (link_deps h (sp_Deps spec) j s) as [[s1 j1] e] eqn:E1. destruct e; [done|].
  pose proof E1 as (es1 & L1 & _)%link_deps_ok; [|done|done|by rewrite Hid].
  apply link_deps_exact in E1 as [X1 Y1]; [|done|done|by rewrite Hid].
  pose proof (rl_index _ _ (ln_relinks _ _ _ L1)) as (Ei & _).
  apply IH in E as [X2 Y2]; [|apply L1|intros sp Hsp; rewrite Ei; apply Hok; by right].
  unfold wanted in *. rewrite Ei in *. split.
  - intros u v. rewrite X2, X1. split.
    + intros [[He|(-> & d & Hd & Hu)]|(sp & d & Hsp & Hd & Hu & Hv)]; [by left|right..].
      * exists spec, d. by split_and!; [left|..].
      * exists sp, d. by split_and!; [right|..].
    + intros [He|(sp & d & [->|Hsp]%elem_of_cons & Hd & Hu & Hv)]; [by left; left|left; right|right; eauto 8].
      split; [congruence|eauto].
  - intros sp d [->|Hsp]%elem_of_cons Hd; [by apply Y1|by eapply Y2].
Qed.

Lemma unlink_edges_exact edges : forall touched s s' t,
  unlink_edges edges touched s = (s', Ok t) -> base_inv none_pending s ->
  (forall u v, edge s' u v <-> edge s u v /\ ~ exists e, e ∈ edges /\ named s e u v) /\
  (forall e, e ∈ edges -> exists u v, named s e u v).
Proof.
  induction edges as [|[a b] edges IH]; intros touched s s' t E Hb; simpl in E.
  { simplify_eq. set_solver. }
  destruct (lookup_id s a) as [f|] eqn:Ea; [|done]. destruct (lookup_id s b) as [to|] eqn:Eb; [|done].
  assert (Hn : named s (mkEdge a b) f to) by done.
  destruct (unlinkEdge f to s) as [s1 present] eqn:Eu.
  destruct (unlink_ok s s1 f to present Eu Hb) as (B1 & R1 & X1 & _ & _).
  destruct (rl_index _ _ R1) as (Ei & _).
  apply IH in E as [E1 E2]; [|done]. unfold named in *. rewrite Ei in *. split.
  - intros u v. rewrite E1, X1. split.
    + intros [[He Hno] Hne]. split; [done|]. intros (e & [->|Hin]%elem_of_cons & Hm); [|by apply Hne; exists e].
      apply Hno. destruct Hn, Hm. split; congruence.
    + intros [He Hne]. split_and!; [done| |].
      * intros [-> ->]. apply Hne. exists (mkEdge a b). by split; [left|].
      * intros (e & Hin & Hm). apply Hne. exists e. by split; [right|].
  - intros e [->|Hin]%elem_of_cons; [by exists f, to|by apply E2].
Qed.

(** ** Nodes by name *)

Lemma specMatches_fixed s s' h spec :
  fixed (rec s' h) = fixed (rec s h) -> specMatches s' h spec = specMatches s h spec.
Proof. unfold fixed, specMatches. intros E. injection E as _ -> -> -> -> -> -> _ _. done. Qed.

Lemma specMatches_new spec now s s' h : created_ok spec now h s s' -> specMatches s' h spec = true.
Proof.
  intros Hc. destruct (cr_new _ _ _ _ _ Hc) as [_ E]. unfold specMatches. rewrite E. simpl.
  by rewrite Z.eqb_refl, !bool_decide_eq_true_2.
Qed.

(** Every spec of the batch has a node that matches it, and nothing else is new. *)
Record named_nodes (specs : list NodeSpec) (s s' : scope) : Prop := {
  nn_spec : forall spec, spec ∈ specs -> exists h, s_index s' !! sp_ID spec = Some h /\ specMatches s' h spec = true;
  nn_only : forall i, is_Some (s_index s' !! i) <-> is_Some (s_index s !! i) \/ exists spec, spec ∈ specs /\ sp_ID spec = i
}.

Lemma materialise_exact specs now : forall j s s' j' fresh,
  materialise specs now j s = (s', j', Ok fresh) -> inv s -> room (length specs) s -> named_nodes specs s s'.
Proof.
  induction specs as [|spec specs IH]; intros j s s' j' fresh E Hi Hr.
  { simpl in E. simplify_eq. split; [set_solver|]. intros i. split; [by left|]. set_solver. }
  pose proof (materialise_ok _ _ _ _ _ _ _ E Hi Hr) as (new0 & G0 & _ & _ & _). simpl in E.
  destruct (lookup_id s (sp_ID spec)) as [h|] eqn:El.
  - destruct (specMatches s h spec) eqn:Em; simpl in E; [|done].
    apply IH in E as [S1 O1]; [|done|unfold room in *; simpl in *; lia]. split.
    + intros sp [->|Hsp]%elem_of_cons; [|by apply S1]. exists h.
      split; [eapply lookup_weaken; [exact El|apply G0]|].
      rewrite (specMatches_fixed s); [done|]. f_equal. apply (gn_rec _ _ _ G0). intros Hn.
      destruct (gn_new _ _ _ G0 h Hn) as [Hl _]. by apply Hl, (lookup_live s (sp_ID spec) h); [apply Hi|].
    + intros i. rewrite O1. split; [set_solver|].
      intros [?|(sp & [->|Hsp]%elem_of_cons & <-)]; [by left|left; by exists h|right; eauto].
  - destruct (create spec now s) as [h s1] eqn:Ec.
    assert (Hc : created_ok spec now h s s1).
    { apply create_ok; [done..|]. unfold room in *; simpl in *; lia. }
    destruct (materialise specs now _ s1) as [[s2 j2] r2] eqn:E2. destruct r2 as [fresh2|]; simplify_eq.
    pose proof (materialise_ok _ _ _ _ _ _ _ E2 (cr_inv _ _ _ _ _ Hc) (cr_room _ _ _ _ _ Hc _ Hr)) as (new & G & _ & _ & _).
    apply IH in E2 as [S1 O1]; [|apply Hc|by apply (cr_room _ _ _ _ _ Hc)].
    destruct (cr_index _ _ _ _ _ Hc) as [Ex _]. split.
    + intros sp [->|Hsp]%elem_of_cons; [|by apply S1]. exists h. split.
      * eapply lookup_weaken; [|apply G]. rewrite Ex. apply lookup_insert_eq.
      * rewrite (specMatches_fixed s1); [by eapply specMatches_new|]. f_equal. apply (gn_rec _ _ _ G). intros Hn.
        destruct (gn_new _ _ _ G h Hn) as [Hl _]. destruct Hl; by apply (cr_new _ _ _ _ _ Hc).
    + intros i. rewrite O1, Ex. destruct (decide (i = sp_ID spec)) as [->|Hne].
      * rewrite lookup_insert_eq. split; [|by left]. intros _. right. exists spec. by split; [left|].
      * rewrite lookup_insert_ne by done. set_solver.
Qed.

(** ** The operations *)

Section Clocked.
Context {C : Type} `{!ClockSource C}.

(** What the graph of a scope looks like from outside. *)
Definition same_names (s s' : scope) : Prop :=
  s_index s' = s_index s /\ (forall u v, edge s' u v <-> edge s u v) /\ (forall h, fixed (rec s' h) = fixed (rec s h)).

Lemma step_names X s s' : step_ok X s s' -> same_names s s'.
Proof.
  intros [[G _ _ _ _ _ _] _ _ _].
  split_and!; [apply (sg_index _ _ G)|intros u v; apply (sg_edge _ _ G)|intros h; apply G].
Qed.

Lemma AddNodes_exact specs (c c' : C) s s' effects :
  scope_AddNodes specs c s = (c', s', Ok effects) -> inv s -> room (length specs) s ->
  named_nodes specs s s' /\ (forall u v, edge s' u v <-> edge s u v \/ wanted s' specs u v) /\
  (forall spec d, spec ∈ specs -> d ∈ sp_Deps spec -> is_Some (s_index s' !! d)).
Proof.
  intros E Hi Hr. unfold scope_AddNodes in E. destruct (s_sealed s); [done|].
  destruct (validateBatch _ specs) eqn:Ev; [done|]. destruct (clk_Now c) as [now c1].
  destruct (materialise specs now _ s) as [[sM jM] [fresh|e]] eqn:Em; [|done].
  pose proof (materialise_exact _ _ _ _ _ _ _ Em Hi Hr) as [N1 N2].
  apply materialise_ok in Em as (new & G & _ & _ & -> & Hix & _); [|done|done].
  pose proof (gn_inv _ _ _ G) as HiM.
  destruct (linkBatch specs newOrderedSet jM sM) as [[sL jL] [touched|e]] eqn:El; [|done].
  assert (Hbo : batch_ok sM specs).
  { intros spec Hsp. split; [by apply Hix|]. by eapply validateBatch_self. }
  pose proof (linkBatch_exact _ _ _ _ _ _ _ El (inv_base _ HiM) Hbo) as [X1 X2].
  apply linkBatch_ok in El as (es & L & _ & _ & T1 & _); [|apply HiM|done|apply newOrderedSet_ok|set_solver].
  assert (HiL : inv sL) by (split; [apply L|eapply relinks_heap; [apply L|apply HiM]]).
  assert (HlL : forall x, live sM x -> live sL x) by (intros x; apply (linked_live _ _ _ _ L)).
  destruct (record_created new c1 sL []) as [[c2 s2] o2] eqn:E2.
  apply record_created_ok in E2; [|done|by intros h Hh; apply HlL, (gn_new _ _ _ G h Hh)].
  destruct (settle_all _ c2 s2 o2) as [[c3 s3] o3] eqn:E3. simplify_eq.
  apply settle_all_ok in E3 as [S3 _]; [|apply E2|intros x Hx; by apply (ev_live _ _ (so_evolves _ _ _ E2)), HlL, T1].
  pose proof (step_ok_trans _ _ _ _ E2 S3) as (Ei & Ee & Ef)%step_names.
  destruct (rl_index _ _ (ln_relinks _ _ _ L)) as (EiL & _). rewrite EiL in Ei.
  change (s_index (refreshComplete s3)) with (s_index s3).
  change (edge (refreshComplete s3)) with (edge s3). unfold wanted.
  change (s_index (refreshComplete s3)) with (s_index s3). rewrite Ei. split_and!.
  - split; simpl; rewrite Ei; [|done]. intros spec Hsp. destruct (N1 spec Hsp) as (h & Hh & Hm). exists h.
    split; [done|]. rewrite (specMatches_fixed sM); [done|]. change (rec (refreshComplete s3) h) with (rec s3 h).
    rewrite Ef. by destruct (rl_rec _ _ (ln_relinks _ _ _ L) h) as [d ->].
  - intros u v. rewrite Ee, X1, (grown_edge _ _ _ _ _ G). done.
  - done.
Qed.

Lemma AddEdges_exact edges (c c' : C) s s' effects :
  scope_AddEdges edges c s = (c', s', Ok effects) -> inv s ->
  s_index s' = s_index s /\ (forall e, e ∈ edges -> exists u v, named s e u v) /\
  (forall u v, edge s' u v <-> edge s u v \/ exists e, e ∈ edges /\ named s e u v).
Proof.
  intros E Hi. unfold scope_AddEdges in E.
  destruct (link_edges edges newOrderedSet _ s) as [[sL j] [touched|e]] eqn:El; [|done].
  pose proof (link_edges_exact _ _ _ _ _ _ _ El (inv_base _ Hi)) as [X1 X2].
  apply link_edges_ok in El as (es & L & _ & _ & T1 & _); [|apply Hi|apply newOrderedSet_ok|set_solver].
  assert (HiL : inv sL) by (split; [apply L|eapply relinks_heap; [apply L|apply Hi]]).
  destruct (settle_all _ c sL []) as [[c3 s3] o3] eqn:E3. injection E as <- <- <-.
  apply settle_all_ok in E3 as [(Ei & Ee & _)%step_names _];
    [|done|intros x Hx; by apply (linked_live _ _ _ _ L), T1].
  destruct (rl_index _ _ (ln_relinks _ _ _ L)) as (EiL & _).
  split_and!; [congruence|done|]. intros u v. by rewrite Ee, X1.
Qed.

Lemma RemoveEdges_exact edges (c c' : C) s s' effects :
  scope_RemoveEdges edges c s = (c', s', Ok effects) -> inv s ->
  s_index s' = s_index s /\ (forall e, e ∈ edges -> exists u v, named s e u v) /\
  (forall u v, edge s' u v <-> edge s u v /\ ~ exists e, e ∈ edges /\ named s e u v).
Proof.
  intros E Hi. unfold scope_RemoveEdges in E.
  destruct (unlink_edges edges newOrderedSet s) as [sU [touched|e]] eqn:El; [|done].
  pose proof (unlink_edges_exact _ _ _ _ _ El (inv_base _ Hi)) as [X1 X2].
  apply unlink_edges_ok in El as (B & R & _ & T1 & _); [|apply Hi|apply newOrderedSet_ok|set_solver].
  assert (HiU : inv sU) by (split; [done|eapply relinks_heap; [done|apply Hi]]).
  destruct (settle_all _ c sU []) as [[c3 s3] o3] eqn:E3. injection E as <- <- <-.
  apply settle_all_ok in E3 as [(Ei & Ee & _)%step_names _];
    [|done|intros x Hx; by apply (relinks_live s sU x R), T1].
  destruct (rl_index _ _ R) as (EiL & _).
  split_and!; [congruence|done|]. intros u v. by rewrite Ee, X1.
Qed.

End Clocked.
