(* ===== verification/Removal.v ===== *)
(** * Removing nodes: [RemoveNode] and [CollectTerminal] *)
From S2P Require Import Prelude Types Config Heap HeapFacts Scope Topo TopoFacts Graph Lease Memory Invariant ScopeFacts DepFacts.
From S2P Require Import Evolve Terminate LeaseFacts EdgeFacts NodeFacts GraphFacts GraphOps.

(** ** Taking a node out of all heaps *)

Definition unheap (h : nat) (s : scope) : scope :=
  leases_Remove h (scheduled_Remove h (ready_Remove (kind (rec s h)) h s)).

Lemma unheap_data h s : same_data s (unheap h s).
Proof. by split. Qed.

Lemma unheap_at h s : heap_inv s -> heap_at h False False False (unheap h s).
Proof.
  intros Hh. destruct (proj1 (heap_at_inv h s) Hh) as [H1 H2 H3]. split.
  - eapply (good_at_remove (less_leases s)); [apply _..|apply agree_off_refl|exact H1|tauto].
  - eapply (good_at_remove (less_scheduled s)); [apply _..|apply agree_off_refl|exact H2|tauto].
  - exact (ready_at_remove s (unheap h s) h _ (fun _ _ => eq_refl) H3 eq_refl eq_refl).
Qed.

(** ** Dropping a node *)

(** [s'] is [s] without node [h]. *)
Record dropped (h : nat) (s s' : scope) : Prop := {
  dr_inv : inv s';
  dr_gone : ~ live s' h;
  dr_live : forall x, live s' x <-> live s x /\ x <> h;
  dr_rec : forall x, x <> h -> exists d, rec s' x = (rec s x) <| deps := d |>;
  dr_same : forall x, x <> h -> ~ edge s h x -> rec s' x = rec s x;
  dr_deadline : forall x, x <> h -> s_deadline s' !!! x = s_deadline s !!! x;
  dr_edge : forall u v, edge s' u v <-> edge s u v /\ u <> h /\ v <> h;
  dr_index : s_index s' = delete (id (rec s h)) (s_index s);
  dr_floor : s_epochFloor s' = Z.max (s_epochFloor s) (epoch (rec s h));
  dr_log : same_log s s';
  dr_size : size_ s' = size_ s /\ s_nextOrd s' = s_nextOrd s;
  dr_cfg : s_cfg s' = s_cfg s /\ s_sealed s' = s_sealed s
}.

Lemma unlink_all_rec es : forall s x,
  base_inv none_pending s -> (forall u, (u, x) ∉ es) -> rec (unlink_all es s) x = rec s x.
Proof.
  induction es as [|[f to] es IH]; intros s x Hb Hx; simpl; [done|].
  destruct (unlinkEdge f to s) as [s1 b] eqn:E. simpl.
  destruct (unlink_ok s s1 f to b E Hb) as (B1 & R1 & E1 & _ & Q1).
  rewrite IH; [|done|intros u Hu; apply (Hx u); by right].
  apply Q1. left. intros ->. apply (Hx f). by left.
Qed.

(** The edges [es] of [h] unlinked, then [h] out of the heaps, then retired. *)
Lemma retire_dropped es h s s2 s3 :
  inv s -> live s h -> s2 = unlink_all es s ->
  (forall u v, (u, v) ∈ es <-> edge s u v /\ (u = h \/ v = h)) ->
  same_data s2 s3 -> s_deadline s3 = s_deadline s2 -> heap_at h False False False s3 ->
  dropped h s (retire h (id (rec s h)) s3).
Proof.
  intros Hi Hl E2 Hes Hd Hdl Hat. destruct (unlink_all_ok es s (inv_base _ Hi)) as (B2 & R2 & D2).
  rewrite <- E2 in B2, R2, D2. pose proof (sd_graph s2 s3 Hd) as Hsg.
  assert (Hid : id (rec s h) = id (rec s3 h)).
  { rewrite (sd_rec s2 s3 Hd). by destruct (rl_rec _ _ R2 h) as [d ->]. }
  assert (Hl3 : live s3 h) by (by apply (sg_live _ _ Hsg), (relinks_live s s2 h R2)).
  assert (He3 : forall u v, edge s3 u v <-> edge s u v /\ u <> h /\ v <> h).
  { intros u v. rewrite (sg_edge _ _ Hsg), D2. split.
    - intros [He Hn]. split; [done|]. split; intros ->; apply Hn, Hes; auto.
    - intros (He & Hu & Hv). split; [done|]. intros [_ [|]]%Hes; done. }
  rewrite Hid. destruct (retire_ok s3 h Hl3) as [N I G Ix F Sz M]; [|done| |].
  { by apply (sd_base s2 s3 Hd). }
  { intros u. rewrite !He3. tauto. }
  set (s' := retire h (id (rec s3 h)) s3) in *. destruct (rl_misc _ _ R2) as (M1 & M2 & M3).
  destruct (sd_misc s2 s3 Hd) as [M4 M5]. destruct (sd_stats s2 s3 Hd) as [_ M6].
  destruct (sg_index _ _ Hsg) as [M7 _]. destruct (sg_ord _ _ Hsg) as [_ M8]. pose proof (sg_len _ _ Hsg) as M9.
  destruct (rl_index _ _ R2) as (M10 & _ & M11). split; try done.
  - intros x. destruct (decide (x = h)) as [->|Hx]; [tauto|].
    rewrite (an_live h s3 s' N x Hx), (sg_live _ _ Hsg), (relinks_live s s2 x R2). tauto.
  - intros x Hx. rewrite (an_rec h s3 s' N x Hx), (sd_rec s2 s3 Hd). apply (rl_rec _ _ R2).
  - intros x Hx Hn. rewrite (an_rec h s3 s' N x Hx), (sd_rec s2 s3 Hd), E2.
    apply unlink_all_rec; [apply Hi|]. intros u [He [->|]]%Hes; done.
  - intros x Hx. destruct (an_keys h s3 s' N x Hx) as (-> & _). rewrite Hdl.
    by destruct (ss_keys _ _ (rl_sched _ _ R2)) as (-> & _).
  - intros u v. rewrite (an_edge h s3 s' N). apply He3.
  - congruence.
  - rewrite F, M4, (sd_rec s2 s3 Hd), M1. by destruct (rl_rec _ _ R2 h) as [d ->].
  - destruct (an_log h s3 s' N), (rl_log _ _ R2), (sd_log s2 s3 Hd). split; congruence.
  - destruct Sz as [-> ->]. rewrite M9, M8, M11. by rewrite (ss_len _ _ (rl_sched _ _ R2)).
  - destruct M as [-> ->]. split; congruence.
Qed.

Lemma foldl_unlink_succ h ws s :
  foldl (fun s w => fst (unlinkEdge h w s)) s ws = unlink_all ((fun w => (h, w)) <$> ws) s.
Proof. revert s. induction ws as [|w ws IH]; intros s; simpl; [done|]. apply IH. Qed.

Lemma foldl_unlink_pred h es s :
  foldl (fun s e => fst (unlinkEdge (from e) h s)) s es = unlink_all ((fun u => (u, h)) <$> (from <$> es)) s.
Proof. revert s. induction es as [|e es IH]; intros s; simpl; [done|]. apply IH. Qed.

Lemma drop_ok h nid s : inv s -> live s h -> id (rec s h) = nid -> dropped h s (drop_node h nid s).
Proof.
  intros Hi Hl <-. unfold drop_node. rewrite foldl_unlink_succ.
  set (es1 := (fun w => (h, w)) <$> s_succ s !!! h). set (s1 := unlink_all es1 s).
  rewrite foldl_unlink_pred. set (es2 := (fun u => (u, h)) <$> (from <$> s_pred s1 !!! h)).
  cbv zeta. fold (unheap h (unlink_all es2 s1)).
  destruct (unlink_all_ok es1 s (inv_base _ Hi)) as (B1 & R1 & D1). fold s1 in B1, R1, D1.
  assert (HB : base_inv none_pending (unlink_all es2 s1) /\ relinks s1 (unlink_all es2 s1)).
  { by destruct (unlink_all_ok es2 s1 B1) as (? & ? & _). }
  apply (retire_dropped (es1 ++ es2) h s (unlink_all es2 s1)); [done|done|by rewrite unlink_all_app| |apply unheap_data|done|].
  2:{ apply unheap_at. eapply relinks_heap; [apply HB|]. eapply relinks_heap; [exact R1|apply Hi]. }
  assert (Hes1 : forall u v, (u, v) ∈ es1 <-> edge s u v /\ u = h).
  { intros u v. unfold es1. rewrite list_elem_of_fmap. split.
    - intros (w & [= -> ->] & Hw). done.
    - intros [He ->]. by exists v. }
  intros u v. rewrite elem_of_app, Hes1. unfold es2. rewrite list_elem_of_fmap.
  assert (Hp : forall x, x ∈ (from <$> s_pred s1 !!! h) <-> edge s x h /\ x <> h).
  { intros x. rewrite <- (gw_pred s1 (gi_wf s1 (bi_graph _ _ B1))), D1, Hes1. tauto. }
  split.
  - intros [[He ->]|(x & [= -> ->] & [He _]%Hp)]; auto.
  - intros [He [-> | ->]]; [by left|]. destruct (decide (u = h)) as [->|]; [by left|].
    right. exists u. split; [done|]. by apply Hp.
Qed.

(** A drop settles nothing but the successors. *)
Lemma dropped_settled h s s' x : dropped h s s' -> ~ edge s h x -> settled s x -> settled s' x.
Proof.
  intros D Hn. destruct (decide (x = h)) as [->|Hx].
  - by split; intros [Hl _]; destruct (dr_gone _ _ _ D).
  - apply settled_rec. by apply (dr_same _ _ _ D).
Qed.

Lemma dropped_holds h s s' x : dropped h s s' -> x <> h -> holds s s' x.
Proof.
  intros D Hx. unfold holds. rewrite (dr_deadline _ _ _ D x Hx). by destruct (dr_rec _ _ _ D x Hx) as [d ->].
Qed.

Section Clocked.
Context {C : Type} `{!ClockSource C}.

Lemma terminate_all_ok ws rs : forall (c c' : C) s s' out out',
  terminate_all ws StatusError rs c s out = (c', s', out') -> inv s -> (forall w, w ∈ ws -> live s w) ->
  step_ok (fun x => x ∈ ws) s s' /\ (forall w, w ∈ ws -> phase (rec s' w) = PhaseDone).
Proof.
  induction ws as [|w ws IH]; intros c c' s s' out out' E Hi Hl; simpl in E.
  { simplify_eq. split; [by apply step_ok_refl|set_solver]. }
  destruct (terminate _ _ _ _ c s out) as [[c1 s1] o1] eqn:E1.
  apply terminate_inv in E1; [|split; [apply Hl; by left|by right]|done].
  pose proof (ended_step _ _ _ E1) as S1. apply IH in E as [S H]; [|apply S1|].
  - split.
    + eapply step_ok_trans; [eapply step_ok_weaken; [|exact S1]|eapply step_ok_weaken; [|exact S]].
      * intros x ->%list_elem_of_singleton. by left.
      * intros x Hx. by right.
    + intros x [->|Hx]%elem_of_cons; [|by apply H].
      apply (ev_phase_done _ _ (so_evolves _ _ _ S)), (en_done _ _ _ E1). by left.
  - intros x Hx. apply (ev_live _ _ (so_evolves _ _ _ S1)), Hl. by right.
Qed.

(** [s1] is the state in which the node is dropped, [s2] the one after. *)
Record removed (nid : string) (policy : CascadePolicy) (h : nat) (s s1 s2 s' : scope) : Prop := {
  rm_node : lookup_id s nid = Some h;
  rm_idle : phase (rec s h) <> PhaseClaimed;
  rm_reject : policy = CascadeReject -> s_succ s !!! h = [];
  rm_fail : step_ok (fun x => policy = CascadeFail /\ edge s h x) s s1;
  rm_failed : policy = CascadeFail -> forall x, edge s h x -> phase (rec s1 x) = PhaseDone;
  rm_drop : dropped h s1 s2;
  rm_settle : step_ok nobody s2 s';
  rm_settled : (policy = CascadeReject \/ policy = CascadeDetach \/ policy = CascadeFail) ->
               all_settled s -> all_settled s'
}.

Lemma RemoveNode_ok nid policy (c c' : C) s s' r :
  scope_RemoveNode nid policy c s = (c', s', r) -> inv s ->
  match r with
  | Fail _ => s' = s
  | Ok _ => exists h s1 s2, removed nid policy h s s1 s2 s'
  end.
Proof.
  intros E Hi. unfold scope_RemoveNode in E.
  destruct (lookup_id s nid) as [h|] eqn:El; [|by simplify_eq].
  destruct (lookup_live s nid h (bi_graph _ _ (inv_base _ Hi)) El) as [Hl Hid].
  destruct (bool_decide (phase _ = PhaseClaimed)) eqn:Ep; [by simplify_eq|]. apply bool_decide_eq_false in Ep.
  destruct (negb (bool_decide (s_succ s !!! h = [])) && bool_decide (policy = CascadeReject)) eqn:Er; [by simplify_eq|].
  assert (Hrej : policy = CascadeReject -> s_succ s !!! h = []).
  { intros ->. rewrite (bool_decide_eq_true_2 (CascadeReject = CascadeReject)), andb_true_r in Er by done.
    by apply negb_false_iff, bool_decide_eq_true in Er. }
  destruct (if bool_decide (policy = CascadeFail) then _ else _) as [[c1 s1] o1] eqn:E1.
  assert (H1 : step_ok (fun x => policy = CascadeFail /\ edge s h x) s s1 /\
               (policy = CascadeFail -> forall x, edge s h x -> phase (rec s1 x) = PhaseDone)).
  { destruct (decide (policy = CascadeFail)) as [Hf|Hf];
      [rewrite (bool_decide_eq_true_2 _ Hf) in E1|rewrite (bool_decide_eq_false_2 _ Hf) in E1].
    2:{ injection E1 as <- <- <-. split; [by apply step_ok_refl|done]. }
    apply terminate_all_ok in E1 as [S H]; [|done|].
    - split; [|by intros _; apply H]. eapply step_ok_weaken; [|exact S]. done.
    - intros w Hw. by apply (gw_live s (gi_wf s (bi_graph _ _ (inv_base _ Hi))) h w). }
  destruct H1 as [S1 F1]. pose proof (so_evolves _ _ _ S1) as V1.
  assert (Hl1 : live s1 h) by (by apply (ev_live _ _ V1)).
  assert (D : dropped h s1 (drop_node h nid s1)).
  { apply drop_ok; [apply S1|done|]. by rewrite (sg_id _ _ (ev_graph _ _ V1)). }
  set (s2 := drop_node h nid s1) in *.
  destruct (if bool_decide (policy = CascadeDetach) then _ else _) as [[c3 s3] o3] eqn:E3. simplify_eq.
  assert (H3 : step_ok nobody s2 s3 /\ (policy = CascadeDetach -> forall x, edge s1 h x -> settled s3 x)).
  { destruct (decide (policy = CascadeDetach)) as [Hf|Hf];
      [rewrite (bool_decide_eq_true_2 _ Hf) in E3|rewrite (bool_decide_eq_false_2 _ Hf) in E3].
    2:{ injection E3 as <- <- <-. split; [by apply step_ok_refl, D|done]. }
    apply settle_all_ok in E3 as [S H]; [by split; [|intros _; apply H]|apply D|].
    intros w Hw. apply (dr_live _ _ _ D).
    split; [by apply (gw_live s1 (gi_wf s1 (bi_graph _ _ (inv_base _ (so_inv _ _ _ S1)))) h w)|].
    intros ->. pose proof (rk_mono s1 (gi_ranked s1 (bi_graph _ _ (inv_base _ (so_inv _ _ _ S1)))) h h Hw). lia. }
  destruct H3 as [S3 F3]. exists h, s1, s2. split; try done.
  - by apply refreshComplete_step.
  - intros Hpol Ha x. change (settled s3 x).
    destruct (decide (x ∈ s_succ s1 !!! h)) as [He|He].
    + destruct Hpol as [Hp|[Hp|Hp]].
      * rewrite (sg_succ _ _ (ev_graph _ _ V1)), Hrej in He by done. set_solver.
      * by apply F3.
      * apply S3. apply settled_done. assert (x <> h) as Hx.
        { intros ->. pose proof (rk_mono s1 (gi_ranked s1 (bi_graph _ _ (inv_base _ (so_inv _ _ _ S1)))) h h He). lia. }
        destruct (dr_rec _ _ _ D x Hx) as [d ->]. simpl. apply F1; [done|]. by apply (ev_edge _ _ V1).
    + apply S3, (dropped_settled h s1 s2 x D He), S1, Ha.
Qed.

End Clocked.

(** ** [CollectTerminal] *)

(** [s] with another list of incoming edges and another tally at [h]. *)
Definition patch (h : nat) (P : list predEdge) (d : DepCounts) (s : scope) : scope :=
  upd_rec h (set_deps (fun _ => d)) (s <| s_pred ::= <[h := P]> |>).

Lemma alter_fix_id {A} `{!Inhabited A} (g : A -> A) (l : list A) i : g (l !!! i) = l !!! i -> alter g i l = l.
Proof.
  intros E. apply list_eq. intros j. destruct (decide (j = i)) as [->|]; [|by rewrite list_lookup_alter_ne].
  rewrite list_lookup_alter_eq, list_lookup_total_alt in *. destruct (l !! i); simpl in *; congruence.
Qed.

Lemma alter_alter {A} (g k m : A -> A) (l : list A) (i : nat) :
  (forall x, g (k x) = m x) -> alter g i (alter k i l) = alter m i l.
Proof.
  intros E. apply list_eq. intros j. destruct (decide (j = i)) as [->|]; [|by rewrite !list_lookup_alter_ne].
  rewrite !list_lookup_alter_eq. destruct (l !! i); simpl; [by rewrite E|done].
Qed.

Lemma patch_id h s :
  h < length (s_pred s) -> patch h (s_pred s !!! h) (deps (rec s h)) s = s.
Proof.
  intros Hh. unfold patch, upd_rec.
  assert (E1 : <[h := s_pred s !!! h]> (s_pred s) = s_pred s).
  { apply list_insert_id. by apply list_lookup_lookup_total_lt. }
  assert (E2 : alter (set_deps (fun _ => deps (rec s h))) h (s_recs s) = s_recs s).
  { apply alter_fix_id. fold (rec s h). by destruct (rec s h). }
  simpl. rewrite E1, E2. by destruct s.
Qed.

Lemma unlink_patch h e L d s :
  h < length (s_pred s) ->
  exists d', fst (unlinkEdge (from e) h (patch h (e :: L) d s)) = patch h L d' (detachSucc (from e) h s).
Proof.
  intros Hh. unfold unlinkEdge.
  assert (E1 : s_pred (patch h (e :: L) d s) !!! h = e :: L).
  { simpl. by rewrite lookup_total_insert, decide_True. }
  rewrite E1. simpl find_idx. rewrite Nat.eqb_refl. cbv zeta. simpl default. simpl delete.
  change (s_succ (upd_rec _ _ _)) with (s_succ s).
  set (g := fun r : nodeRec => r <| deps ::= _ |>).
  exists (deps (g (zeroRec <| deps := d |>))).
  assert (E2 : forall sx, upd_rec h g ((patch h (e :: L) d sx) <| s_pred ::= <[h := L]> |>)
            = patch h L (deps (g (zeroRec <| deps := d |>))) sx).
  { intros sx. unfold patch, upd_rec. simpl. rewrite list_insert_insert_eq. f_equal.
    by apply alter_alter. }
  unfold detachSucc. destruct (find_idx _ (s_succ s !!! from e)); cbn [fst]; rewrite E2; done.
Qed.

Lemma detach_len f h s : length (s_pred (detachSucc f h s)) = length (s_pred s).
Proof. unfold detachSucc. by destruct (find_idx _ _). Qed.

Lemma unlink_all_patch h L : forall d s,
  h < length (s_pred s) ->
  exists d', unlink_all ((fun u => (u, h)) <$> (from <$> L)) (patch h L d s)
             = patch h [] d' (foldl (fun s e => detachSucc (from e) h s) s L).
Proof.
  induction L as [|e L IH]; intros d s Hh; [by exists d|].
  destruct (unlink_patch h e L d s Hh) as [d1 E]. change (unlink_all _ (patch h (e :: L) d s)) with
    (unlink_all ((fun u => (u, h)) <$> (from <$> L)) (fst (unlinkEdge (from e) h (patch h (e :: L) d s)))).
  rewrite E. apply IH. by rewrite detach_len.
Qed.

Lemma retire_eq h i s :
  retire h i s =
  mkScope (s_name s) (s_cfg s) (s_sealed s) (delete i (s_index s)) (<[h := zeroRec]> (s_recs s)) (s_free s ++ [h])
    (<[h := []]> (s_succ s)) (<[h := []]> (s_pred s)) (s_ord s) (s_deadline s) (s_readyAt s) (s_fifo s)
    (s_nextOrd s) (s_nextFifo s)
    (if (s_epochFloor s <? epoch (rec s h))%Z then epoch (rec s h) else s_epochFloor s)
    (s_ready s) (s_leases s) (s_scheduled s)
    ((bump (bucket (rec s h)) (-1) (s_stats s)) <| st_Total ::= fun n => u64 (n - 1) |>)
    (s_doorbell s) (s_cursor s) (s_log s) (s_logStart s) (s_logCap s) (s_logBell s).
Proof. done. Qed.

Lemma retire_patch h i P d s : retire h i (patch h P d s) = retire h i s.
Proof.
  assert (Hr : phase (rec (patch h P d s) h) = phase (rec s h) /\ status (rec (patch h P d s) h) = status (rec s h)
               /\ epoch (rec (patch h P d s) h) = epoch (rec s h)).
  { unfold patch. rewrite rec_upd. by destruct (decide _). }
  destruct Hr as (Hp & Hs & He).
  assert (Hb : bucket (rec (patch h P d s) h) = bucket (rec s h)) by (unfold bucket; by rewrite Hp, Hs).
  assert (E1 : <[h := []]> (s_pred (patch h P d s)) = <[h := []]> (s_pred s)) by apply list_insert_insert_eq.
  assert (E2 : <[h := zeroRec]> (s_recs (patch h P d s)) = <[h := zeroRec]> (s_recs s)).
  { apply list_eq. intros j. destruct (decide (j = h)) as [->|].
    - destruct (decide (h < size_ s)).
      + by rewrite !list_lookup_insert_eq by (simpl; rewrite ?length_alter; done).
      + rewrite !lookup_ge_None_2; [done|rewrite length_insert; lia|]. simpl. rewrite length_insert, length_alter. lia.
    - rewrite !list_lookup_insert_ne by done. by apply list_lookup_alter_ne. }
  rewrite !retire_eq, Hb, He, E1, E2. done.
Qed.

(** The deletion of a node without successors, as an unlinking and a retirement. *)
Lemma collect_node_eq i h s :
  h < length (s_pred s) ->
  collect_node i h s = retire h i (unlink_all ((fun u => (u, h)) <$> (from <$> s_pred s !!! h)) s).
Proof.
  intros Hh. destruct (unlink_all_patch h (s_pred s !!! h) (deps (rec s h)) s Hh) as [d E].
  rewrite (patch_id h s Hh) in E. rewrite E, retire_patch. done.
Qed.

Lemma collect_ok i h s :
  inv s -> live s h -> id (rec s h) = i -> phase (rec s h) = PhaseDone -> s_succ s !!! h = [] ->
  dropped h s (collect_node i h s).
Proof.
  intros Hi Hl <- Hp Hs. pose proof (bi_graph _ _ (inv_base _ Hi)) as Hg.
  rewrite collect_node_eq by (rewrite (gi_pred s Hg); by apply live_lt).
  set (es := (fun u => (u, h)) <$> (from <$> s_pred s !!! h)).
  destruct (unlink_all_ok es s (inv_base _ Hi)) as (B & R & _).
  eapply (retire_dropped es h s (unlink_all es s)); try done.
  - intros u v. unfold es. rewrite list_elem_of_fmap. split.
    + intros (x & [= -> ->] & Hx%(gw_pred s (gi_wf s Hg))). auto.
    + intros [He [-> | ->]]; [unfold edge in He; rewrite Hs in He; set_solver|].
      exists u. split; [done|]. by apply (gw_pred s (gi_wf s Hg)).
  - eapply heap_at_iff; [| | |apply (heap_at_inv h), (relinks_heap s _ R), Hi];
      unfold in_phase; rewrite (relinks_phase s _ h R), Hp; naive_solver.
Qed.

(** [visit] lists entries of the index, each node once. *)
Definition index_visit (visit : list (string * nat)) (s : scope) : Prop :=
  NoDup visit.*2 /\ forall i h, (i, h) ∈ visit -> s_index s !! i = Some h.

Record collected (cut : Z) (s s' : scope) : Prop := {
  co_inv : inv s';
  co_live : forall x, live s' x -> live s x;
  co_gone : forall x, live s x -> ~ live s' x -> phase (rec s x) = PhaseDone /\ (updatedAt (rec s x) <= cut)%Z;
  co_rec : forall x, live s' x -> rec s' x = rec s x;
  co_holds : forall x, live s' x -> holds s s' x;
  co_edge : forall u v, edge s' u v -> edge s u v;
  co_floor : (s_epochFloor s <= s_epochFloor s')%Z /\
             forall x, live s x -> ~ live s' x -> (epoch (rec s x) <= s_epochFloor s')%Z;
  co_bound : forall n, (s_epochFloor s <= n)%Z -> (forall x, live s x -> (epoch (rec s x) <= n)%Z) ->
             (s_epochFloor s' <= n)%Z;
  co_index : forall i h, s_index s' !! i = Some h -> s_index s !! i = Some h;
  co_closed : forall u v, edge s u v -> live s' v -> live s' u
}.

Lemma collected_refl cut s : inv s -> collected cut s s.
Proof.
  intros Hi. split; try done. intros u v He _. by apply (gw_live s (gi_wf s (bi_graph _ _ (inv_base _ Hi))) u v).
Qed.

Lemma collected_cons cut h s s1 s' :
  dropped h s s1 -> (forall u, ~ edge s h u) -> live s h ->
  phase (rec s h) = PhaseDone -> (updatedAt (rec s h) <= cut)%Z ->
  collected cut s1 s' -> collected cut s s'.
Proof.
  intros D Hno Hlh Hp Hc [I L G R H E [F1 F2] B X Y].
  assert (Hsame : forall x, x <> h -> rec s1 x = rec s x).
  { intros x Hx. apply (dr_same _ _ _ D); [done|apply Hno]. }
  assert (Hne : forall x, live s' x -> x <> h) by (intros x Hx%L%(dr_live _ _ _ D); tauto).
  split; try done.
  - intros x Hx%L. by apply (dr_live _ _ _ D) in Hx as [? _].
  - intros x Hx Hn. destruct (decide (x = h)) as [->|Hxh]; [done|].
    rewrite <- (Hsame x Hxh). apply G; [|done]. by apply (dr_live _ _ _ D).
  - intros x Hx. rewrite R by done. by apply Hsame, Hne.
  - intros x Hx. eapply holds_trans; [eapply dropped_holds; [exact D|by apply Hne]|by apply H].
  - intros u v He%E. by apply (dr_edge _ _ _ D) in He as [? _].
  - rewrite (dr_floor _ _ _ D) in F1. split; [lia|]. intros x Hx Hn.
    destruct (decide (x = h)) as [->|Hxh]; [lia|].
    rewrite <- (Hsame x Hxh). apply F2; [|done]. by apply (dr_live _ _ _ D).
  - intros n Hn Hm. apply B.
    + rewrite (dr_floor _ _ _ D). specialize (Hm h Hlh). lia.
    + intros x [Hx Hxh]%(dr_live _ _ _ D). rewrite (Hsame x Hxh). by apply Hm.
  - intros i x Hx%X. rewrite (dr_index _ _ _ D) in Hx. by apply lookup_delete_Some in Hx as [_ ?].
  - intros u v He Hv. apply (Y u v); [|done]. apply (dr_edge _ _ _ D). split_and!; [done| |by apply Hne].
    intros ->. by apply (Hno v).
Qed.

Lemma collect_loop_ok visit cut limit : forall n s s' n' more,
  collect_loop visit cut limit n s = (s', n', more) -> inv s -> index_visit visit s -> collected cut s s'.
Proof.
  induction visit as [|[i h] visit IH]; intros n s s' n' more E Hi [Hnd Hix]; simpl in E.
  { simplify_eq. by apply collected_refl. }
  simpl in Hnd. apply NoDup_cons in Hnd as [Hh Hnd].
  pose proof (bi_graph _ _ (inv_base _ Hi)) as Hg.
  destruct (lookup_live s i h Hg) as [Hl Hid]; [apply Hix; by left|].
  destruct (negb _ || _ || _) eqn:Ec.
  { eapply IH; [exact E|done|]. split; [done|]. intros i' h' Hin. apply Hix. by right. }
  rewrite !orb_false_iff, !negb_false_iff, !bool_decide_eq_true, Z.ltb_ge in Ec. destruct Ec as [[Ep Et] Es].
  destruct (n =? limit)%Z; [simplify_eq; by apply collected_refl|].
  pose proof (collect_ok i h s Hi Hl Hid Ep Es) as D.
  eapply (collected_cons cut h s); [exact D| |done|done|done|].
  - intros u Hu. unfold edge in Hu. rewrite Es in Hu. set_solver.
  - eapply IH; [exact E|apply D|]. split; [done|]. intros i' h' Hin.
    rewrite (dr_index _ _ _ D), Hid. rewrite lookup_delete_ne; [apply Hix; by right|].
    intros <-. assert (h' = h) as ->.
    { assert (s_index s !! i = Some h') by (apply Hix; by right). assert (s_index s !! i = Some h) by (apply Hix; by left). congruence. }
    apply Hh. apply list_elem_of_fmap. by exists (i, h).
Qed.

Lemma CollectTerminal_ok visit cut limit s s' n more :
  scope_CollectTerminal visit cut limit s = (s', n, more) -> inv s -> index_visit visit s -> collected cut s s'.
Proof. apply collect_loop_ok. Qed.

(** ** [Seal] and [SetScopeConfig] *)

Lemma Seal_core s : same_core s (scope_Seal s).
Proof. by split. Qed.

Lemma Seal_inv s : inv s -> inv (scope_Seal s).
Proof. apply inv_core; [apply Seal_core|done]. Qed.

Lemma set_cfg_inv cfg s : inv s -> inv (s <| s_cfg := cfg |>).
Proof. apply inv_core; by split. Qed.

Lemma newScope_inv name cap cfg : (0 < cap)%Z -> inv (newScope name cap cfg).
Proof.
  intros Hc. assert (Hr : forall x, rec (newScope name cap cfg) x = zeroRec) by (intros x; by apply rec_ge; simpl; lia).
  assert (Hl : forall x, ~ live (newScope name cap cfg) x) by (intros x; rewrite live_alive, Hr; done).
  assert (Hs : forall u, s_succ (newScope name cap cfg) !!! u = []) by (intros u; done).
  assert (Hp : forall u, s_pred (newScope name cap cfg) !!! u = []) by (intros u; done).
  assert (He : forall u v, ~ edge (newScope name cap cfg) u v) by (intros u v; unfold edge; rewrite Hs; set_solver).
  assert (Hg : forall less (P : nat -> Prop), (forall x, ~ P x) -> good less (Pq.New 0) P).
  { intros less P HP. split; [by split; intros i x|by intros k Hk; simpl in Hk; lia|].
    simpl. intros x. split; [by intros ?%elem_of_nil|]. by intros ?%HP. }
  split; [split|split].
  - split; try done; try lia.
    + intros i h. simpl. rewrite lookup_empty. split; [done|]. by intros [?%Hl _].
    + constructor.
    + intros h. simpl. split; [by intros ?%elem_of_nil|lia].
    + split; [by intros u v ?%He|]. intros u v. rewrite Hp. split; [by intros ?%He|]. simpl. by intros ?%elem_of_nil.
    + split; [done|by intros u v ?%He|by intros u v ?%Hl].
    + intros u. rewrite Hs. constructor.
    + intros v. rewrite Hp. constructor.
  - intros v. rewrite Hr, deps_of_counts. unfold mk_counts, dcount. by rewrite Hp.
  - intros v e. rewrite Hp. by intros ?%elem_of_nil.
  - by intros h ?%Hl.
  - split; [done|by intros []|done].
  - split; simpl; try done. lia.
  - apply Hg. by intros x [?%Hl _].
  - apply Hg. by intros x [?%Hl _].
  - intros k. unfold readyHeap. simpl. rewrite lookup_empty. apply Hg. by intros x [[?%Hl _] _].
Qed.
