(* ===== verification/Machine.v ===== *)
(** * A scope as a transition system

    One constructor of [op] per method of the store that writes to a scope;
    [exec] is the method's critical section, [step] one call whose arguments
    are [admissible], and [steps] a run.  Every call holds the scope's mutex
    throughout, so any interleaving of concurrent callers is such a run. *)
From S2P Require Import Prelude Types Config Heap HeapFacts Scope Topo TopoFacts Graph Lease Memory Invariant ScopeFacts DepFacts.
From S2P Require Import Evolve Terminate LeaseFacts EdgeFacts NodeFacts GraphFacts GraphOps Removal Watch.

Inductive op :=
| OpAddNodes (specs : list NodeSpec)
| OpAddEdges (edges : list Edge)
| OpRemoveEdges (edges : list Edge)
| OpRemoveNode (nid : string) (policy : CascadePolicy)
| OpCancel (ids : list string)
| OpCancelScope (visit : list nat)
| OpClaim (req : ClaimRequest)
| OpComplete (req : CompleteRequest)
| OpExtend (req : ExtendRequest)
| OpSweep (limit : Z)
| OpCollect (visit : list (string * nat)) (cut limit : Z)
| OpSeal
| OpConfig (cfg : ScopeConfig).

(** What the environment guarantees: there is room for the batch, and ranging
    over the index visits what the index holds, in whatever order. *)
Definition admissible (o : op) (s : scope) : Prop :=
  match o with
  | OpAddNodes specs => room (length specs) s
  | OpCancelScope visit => visits_all visit s
  | OpCollect visit _ _ => index_visit visit s
  | _ => True
  end.

(** Split an operation into the result of its critical section. *)
Ltac open_op :=
  match goal with
  | |- context [scope_Cancel ?a ?b ?d] =>
    let E := fresh "E" in destruct (scope_Cancel a b d) as [[[? ?] ?] ?] eqn:E; cbn [fst snd]
  | |- context [scope_CollectTerminal ?a ?b ?d ?e] =>
    let E := fresh "E" in destruct (scope_CollectTerminal a b d e) as [[? ?] ?] eqn:E; cbn [fst snd]
  | |- context [fst ?t] => let E := fresh "E" in destruct t as [[? ?] ?] eqn:E; cbn [fst snd]
  end.

Section Clocked.
Context {C : Type} `{!ClockSource C}.

Definition exec (o : op) (c : C) (s : scope) : C * scope :=
  match o with
  | OpAddNodes specs => fst (scope_AddNodes specs c s)
  | OpAddEdges edges => fst (scope_AddEdges edges c s)
  | OpRemoveEdges edges => fst (scope_RemoveEdges edges c s)
  | OpRemoveNode nid policy => fst (scope_RemoveNode nid policy c s)
  | OpCancel ids => fst (fst (scope_Cancel ids c s))
  | OpCancelScope visit => fst (scope_CancelScope visit c s)
  | OpClaim req => fst (scope_Claim req c s)
  | OpComplete req => fst (scope_Complete req c s)
  | OpExtend req => fst (scope_Extend req c s)
  | OpSweep limit => fst (scope_Sweep limit c s)
  | OpCollect visit cut limit => (c, fst (fst (scope_CollectTerminal visit cut limit s)))
  | OpSeal => (c, scope_Seal s)
  | OpConfig cfg => (c, s <| s_cfg := cfg |>)
  end.

Inductive step (o : op) : C * scope -> C * scope -> Prop :=
| step_exec c s : admissible o s -> step o (c, s) (exec o c s).

(** Runs, with the operations performed. *)
Inductive steps : list op -> C * scope -> C * scope -> Prop :=
| steps_nil cs : steps [] cs cs
| steps_cons o os cs1 cs2 cs3 : step o cs1 cs2 -> steps os cs2 cs3 -> steps (o :: os) cs1 cs3.

Lemma steps_app os1 os2 cs1 cs2 cs3 : steps os1 cs1 cs2 -> steps os2 cs2 cs3 -> steps (os1 ++ os2) cs1 cs3.
Proof. induction 1; simpl; [done|]. intros. econstructor; eauto. Qed.

Lemma exec_inv o c s : inv s -> admissible o s -> inv (snd (exec o c s)).
Proof.
  intros Hi Ha. destruct o; simpl in *; try open_op.
  - pose proof (AddNodes_ok _ _ _ _ _ _ E Hi Ha) as H. destruct r; apply H.
  - pose proof (AddEdges_ok _ _ _ _ _ _ E Hi) as H. destruct r; apply H.
  - apply (RemoveEdges_ok _ _ _ _ _ _ E Hi).
  - pose proof (RemoveNode_ok _ _ _ _ _ _ _ E Hi) as H. destruct r; [|by subst].
    destruct H as (h & s1 & s2 & H). apply (rm_settle _ _ _ _ _ _ _ H).
  - destruct (Cancel_ok _ _ _ _ _ _ _ E Hi) as [H _]. apply H.
  - destruct (CancelScope_ok _ _ _ _ _ _ E Hi Ha) as [H _]. apply H.
  - destruct (Claim_ok _ _ _ _ _ _ E Hi) as (s1 & hs & H & _). apply (ca_grant _ _ _ _ _ _ H).
  - pose proof (Complete_ok _ _ _ _ _ _ E Hi) as H. destruct r; [|by subst].
    destruct H as (h & _ & H & _). apply H.
  - pose proof (Extend_ok _ _ _ _ _ _ E Hi) as H. destruct r; [|by subst].
    by destruct H as (h & _ & _ & H & _).
  - apply (Sweep_ok _ _ _ _ _ _ E Hi).
  - apply (CollectTerminal_ok _ _ _ _ _ _ _ E Hi Ha).
  - by apply Seal_inv.
  - by apply set_cfg_inv.
Qed.

Lemma steps_inv os cs cs' : steps os cs cs' -> inv (snd cs) -> inv (snd cs').
Proof. induction 1 as [|o os ? ? ? [c s Ha] _ IH]; [done|]. intros Hi. by apply IH, exec_inv. Qed.

(** A run as a function of its operations. *)
Fixpoint exec_all (os : list op) (cs : C * scope) : C * scope :=
  match os with
  | [] => cs
  | o :: os => exec_all os (exec o (fst cs) (snd cs))
  end.

Fixpoint all_admissible (os : list op) (cs : C * scope) : Prop :=
  match os with
  | [] => True
  | o :: os => admissible o (snd cs) /\ all_admissible os (exec o (fst cs) (snd cs))
  end.

Lemma exec_all_steps os : forall cs, all_admissible os cs -> steps os cs (exec_all os cs).
Proof.
  induction os as [|o os IH]; intros [c s]; simpl; [constructor|]. intros [Ha Hs].
  econstructor; [by constructor|by apply IH].
Qed.

End Clocked.

(** Ranging over the index, in the order of [map_to_list] or any other, is an
    admissible order for the operations that take one. *)
Lemma range_visits s : graph_inv s -> visits_all (map_to_list (s_index s)).*2 s.
Proof.
  intros Hg h. rewrite list_elem_of_fmap. split.
  - intros ([i h'] & -> & Hin%elem_of_map_to_list). by apply (gi_index s Hg) in Hin as [].
  - intros Hl. exists (id (rec s h), h). split; [done|]. by apply elem_of_map_to_list, (gi_index s Hg).
Qed.

Lemma range_index s : graph_inv s -> index_visit (map_to_list (s_index s)) s.
Proof.
  intros Hg. split; [|intros i h; apply elem_of_map_to_list].
  apply NoDup_fmap_2_strong; [|apply NoDup_map_to_list].
  intros [i h] [i' h'] H1%elem_of_map_to_list H2%elem_of_map_to_list. simpl. intros ->.
  apply (gi_index s Hg) in H1 as [_ <-], H2 as [_ <-]. done.
Qed.

(** * The store's methods as one transition function

    [call] has a constructor per method of the store that can write;
    [invoke] performs it and reports the error, if any.  [target] names the
    scope a call addresses and the operation of [Machine] it stands for. *)

Inductive call :=
| SetScopeConfigCall (name : string) (cfg : ScopeConfig)
| SealCall (name : string)
| AddNodesCall (name : string) (specs : list NodeSpec)
| AddEdgesCall (name : string) (edges : list Edge)
| RemoveEdgesCall (name : string) (edges : list Edge)
| RemoveNodeCall (name nid : string) (policy : CascadePolicy)
| CancelCall (name : string) (ids : list string)
| CancelScopeCall (name : string) (visit : list nat)
| ClaimCall (req : ClaimRequest)
| CompleteCall (req : CompleteRequest)
| ExtendCall (req : ExtendRequest)
| SweepCall (name : string) (limit : Z)
| CollectCall (name : string) (visit : list (string * nat)) (cut limit : Z)
| CloseCall.

Definition error_of {A : Type} (r : result A) : option error :=
  match r with Ok _ => None | Fail e => Some e end.

(** Forget the answer, keep the error. *)
Definition judged {S A : Type} (x : S * result A) : S * option error := (x.1, error_of x.2).

Section Invoke.
Context {C : Type} `{!ClockSource C}.

Definition invoke (k : call) (st : Store C) : Store C * option error :=
  match k with
  | SetScopeConfigCall name cfg => judged (SetScopeConfig name cfg st)
  | SealCall name => judged (Seal name st)
  | AddNodesCall name specs => judged (AddNodes name specs st)
  | AddEdgesCall name edges => judged (AddEdges name edges st)
  | RemoveEdgesCall name edges => judged (RemoveEdges name edges st)
  | RemoveNodeCall name nid policy => judged (RemoveNode name nid policy st)
  | CancelCall name ids => let '(st, (_, e)) := Cancel name ids st in (st, e)
  | CancelScopeCall name visit => judged (CancelScope name visit st)
  | ClaimCall req => judged (Claim req st)
  | CompleteCall req => judged (Complete req st)
  | ExtendCall req => judged (Extend req st)
  | SweepCall name limit => judged (Sweep name limit st)
  | CollectCall name visit cut limit => judged (CollectTerminal name visit cut limit st)
  | CloseCall => (Close st, None)
  end.

End Invoke.

(** A new store. *)
Lemma New_logCap {C : Type} (src : C) opts : (0 < logCap (New src opts))%Z.
Proof. unfold New. cbv zeta. match goal with |- context [(?a <=? 0)%Z] => destruct (Z.leb_spec a 0) end; simpl; [|done]. by unfold DefaultEventLogSize. Qed.

Lemma New_scopes {C : Type} (src : C) opts : scopes (New src opts) = ∅ /\ closed (New src opts) = false.
Proof.
  unfold New. cbv zeta. set (st0 := mkStore ∅ src zeroConfig _ false).
  assert (H : forall l (st : Store C), scopes (foldl apply_option st l) = scopes st /\ closed (foldl apply_option st l) = closed st).
  { induction l as [|o l IH]; intros st; simpl; [done|]. destruct (IH (apply_option st o)) as [-> ->].
    destruct o; simpl; [done|]. by destruct (_ <? _)%Z. }
  destruct (_ <=? _)%Z; simpl; apply H.
Qed.

(** What a call does once its scope is found; the flag says whether the scope
    is created on demand. *)
Definition target (k : call) : option (bool * string * op) :=
  match k with
  | SetScopeConfigCall name cfg => Some (true, name, OpConfig cfg)
  | SealCall name => Some (true, name, OpSeal)
  | AddNodesCall name [] => None
  | AddNodesCall name specs => Some (true, name, OpAddNodes specs)
  | AddEdgesCall name [] => None
  | AddEdgesCall name edges => Some (false, name, OpAddEdges edges)
  | RemoveEdgesCall name [] => None
  | RemoveEdgesCall name edges => Some (false, name, OpRemoveEdges edges)
  | RemoveNodeCall name nid policy => Some (false, name, OpRemoveNode nid policy)
  | CancelCall name [] => None
  | CancelCall name ids => Some (false, name, OpCancel ids)
  | CancelScopeCall name visit => Some (false, name, OpCancelScope visit)
  | ClaimCall req => Some (false, cr_Scope req, OpClaim req)
  | CompleteCall req =>
    if Lease_Valid (co_Lease req) then Some (false, l_Scope (co_Lease req), OpComplete req) else None
  | ExtendCall req =>
    if Lease_Valid (ex_Lease req) then Some (false, l_Scope (ex_Lease req), OpExtend req) else None
  | SweepCall name limit => Some (false, name, OpSweep limit)
  | CollectCall name visit cut limit => Some (false, name, OpCollect visit cut limit)
  | CloseCall => None
  end.

Section Spec.
Context {C : Type} `{!ClockSource C}.

(** The scope a call works on: the one it finds, or a fresh one. *)
Definition found (create : bool) (name : string) (st : Store C) : option scope :=
  match scopes st !! name with
  | Some s => Some s
  | None => if create then Some (newScope name (logCap st) (defaults st)) else None
  end.

(** The abstract step: nothing, or one operation on one scope. *)
Definition spec_step (k : call) (st : Store C) : Store C :=
  match target k with
  | None => match k with CloseCall => st <| closed := true |> | _ => st end
  | Some (create, name, o) =>
    if closed st then st
    else
      match found create name st with
      | None => st
      | Some s => let '(c, s) := exec o (clock st) s in st <| clock := c |> <| scopes ::= <[name := s]> |>
      end
  end.

(** Two facts about how the methods find their scope. *)
Lemma on_created_spec {A : Type} name (f : C -> scope -> C * scope * result A) o st :
  (forall c s, fst (f c s) = exec o c s) ->
  fst (on_created name f st) =
  if closed st then st
  else match found true name st with
       | None => st
       | Some s => let '(c, s) := exec o (clock st) s in st <| clock := c |> <| scopes ::= <[name := s]> |>
       end.
Proof.
  intros H. unfold on_created, scopeFor, found, run. destruct (closed st); [done|].
  destruct (scopes st !! name) as [s|].
  - rewrite <- H. by destruct (f (clock st) s) as [[c' s'] a].
  - simpl. rewrite <- H. destruct (f (clock st) _) as [[c' s'] a]. simpl. by rewrite insert_insert_eq.
Qed.

Lemma on_existing_spec {A : Type} name (f : C -> scope -> C * scope * result A) o st :
  (forall c s, fst (f c s) = exec o c s) ->
  fst (on_existing name f st) =
  if closed st then st
  else match found false name st with
       | None => st
       | Some s => let '(c, s) := exec o (clock st) s in st <| clock := c |> <| scopes ::= <[name := s]> |>
       end.
Proof.
  intros H. unfold on_existing, mustScope, scopeFor, found, run. destruct (closed st); [done|].
  destruct (scopes st !! name) as [s|]; simpl; [|done]. rewrite <- H. by destruct (f (clock st) s) as [[c' s'] a].
Qed.

Lemma on_maybe_spec {A : Type} name (a : A) (f : C -> scope -> C * scope * A) o st :
  (forall c s, fst (f c s) = exec o c s) ->
  fst (on_maybe name a f st) =
  if closed st then st
  else match found false name st with
       | None => st
       | Some s => let '(c, s) := exec o (clock st) s in st <| clock := c |> <| scopes ::= <[name := s]> |>
       end.
Proof.
  intros H. unfold on_maybe, scopeFor, found, run. destruct (closed st); [done|].
  destruct (scopes st !! name) as [s|]; simpl; [|done]. rewrite <- H. by destruct (f (clock st) s) as [[c' s'] b].
Qed.

(** Every method implements the abstract step. *)
Lemma invoke_spec k st : fst (invoke k st) = spec_step k st.
Proof.
  unfold spec_step. destruct k; cbn [target invoke judged fst].
  - by apply (on_created_spec name _ (OpConfig cfg)).
  - by apply (on_created_spec name _ OpSeal).
  - destruct specs as [|x l]; [done|]. by apply (on_created_spec name _ (OpAddNodes (x :: l))).
  - destruct edges as [|x l]; [done|]. by apply (on_existing_spec name _ (OpAddEdges (x :: l))).
  - destruct edges as [|x l]; [done|]. by apply (on_existing_spec name _ (OpRemoveEdges (x :: l))).
  - by apply (on_existing_spec name _ (OpRemoveNode nid policy)).
  - destruct ids as [|i ids]; [done|]. unfold Cancel, mustScope, scopeFor, found, run. destruct (closed st); [done|].
    destruct (scopes st !! name) as [s|]; cbn [snd negb]; [|done]. cbn [exec].
    by destruct (scope_Cancel (i :: ids) (clock st) s) as [[[c' s'] out] e].
  - by apply (on_maybe_spec name _ _ (OpCancelScope visit)).
  - by apply (on_maybe_spec (cr_Scope req) _ _ (OpClaim req)).
  - unfold Complete. destruct (Lease_Valid (co_Lease req)); cbn [negb]; [|done]. by apply (on_existing_spec _ _ (OpComplete req)).
  - unfold Extend. destruct (Lease_Valid (ex_Lease req)); cbn [negb]; [|done]. by apply (on_existing_spec _ _ (OpExtend req)).
  - by apply (on_maybe_spec name _ _ (OpSweep limit)).
  - apply (on_maybe_spec name _ _ (OpCollect visit cut limit)). intros c s. simpl.
    by destruct (scope_CollectTerminal visit cut limit s) as [[s' n] more].
  - done.
Qed.

End Spec.
