(* ===== verification/Advance.v ===== *)
(** * What every operation does to the event log and to the doorbell

    [advances s s'] holds of the states before and after any operation: the
    log has only grown at its end and lost entries at its front, the cursor
    and the bell of the log count the entries appended, and, unless the
    doorbell rang, no node is ready that was not ready before; a node that
    becomes ready gets a number above all those given out before.  It needs no
    invariant, so each function is treated once, by its structure. *)
From S2P Require Import Prelude Types Config Heap Scope Topo Graph Lease Memory Invariant ScopeFacts LeaseFacts Machine.

(** A node the ready heaps should hold. *)
Definition rdy (s : scope) (x : nat) : Prop := alive (rec s x) = true /\ phase (rec s x) = PhaseReady.

Lemma rdy_in_phase s x : rdy s x <-> in_phase s PhaseReady x.
Proof. unfold rdy, in_phase. by rewrite live_alive. Qed.

(** [es] was appended on the way from [s] to [s']. *)
Definition appended (es : list Event) (s s' : scope) : Prop :=
  (exists lost, s_log s ++ es = lost ++ s_log s' /\
     u64 (s_logStart s') = u64 (s_logStart s + Z.of_nat (length lost))) /\
  u64 (s_cursor s') = u64 (s_cursor s + Z.of_nat (length es)) /\
  s_logBell s' = s_logBell s + length es.

(** The numbers by which ready nodes of one priority are ordered: on the way from
    [s] to [s'] a node kept its own, or it got one above all those given out
    before.  The doorbell rings for each number, so it bounds how many were. *)
Definition queues (s s' : scope) : Prop :=
  length (s_recs s) <= length (s_fifo s) -> (0 <= s_nextFifo s)%Z ->
  (s_nextFifo s + Z.of_nat (s_doorbell s' - s_doorbell s) < 2 ^ 64)%Z ->
  length (s_recs s') <= length (s_fifo s') /\
  (s_nextFifo s <= s_nextFifo s' <= s_nextFifo s + Z.of_nat (s_doorbell s' - s_doorbell s))%Z /\
  forall x, rdy s' x -> (rdy s x /\ s_fifo s' !!! x = s_fifo s !!! x) \/ (s_nextFifo s < s_fifo s' !!! x <= s_nextFifo s')%Z.

Record advances (s s' : scope) : Prop := {
  ad_log : (0 <= s_logCap s)%Z -> exists es, appended es s s';
  ad_cap : s_logCap s' = s_logCap s;
  ad_name : s_name s' = s_name s;
  ad_bell : s_doorbell s <= s_doorbell s';
  ad_quiet : s_doorbell s' = s_doorbell s ->
    forall x, rdy s' x -> rdy s x /\ kind (rec s' x) = kind (rec s x);
  ad_queue : queues s s'
}.

Lemma appended_nil s s' :
  s_log s' = s_log s -> s_logStart s' = s_logStart s -> s_cursor s' = s_cursor s -> s_logBell s' = s_logBell s ->
  appended [] s s'.
Proof.
  intros E1 E2 E3 E4. split_and!.
  - exists []. rewrite E1, E2, app_nil_r, Z.add_0_r. done.
  - by rewrite E3, Z.add_0_r.
  - simpl. lia.
Qed.

Lemma appended_app es1 es2 s1 s2 s3 : appended es1 s1 s2 -> appended es2 s2 s3 -> appended (es1 ++ es2) s1 s3.
Proof.
  intros ((l1 & A1 & B1) & C1 & D1) ((l2 & A2 & B2) & C2 & D2). split_and!.
  - exists (l1 ++ l2). rewrite app_assoc, A1, <- app_assoc, A2, <- app_assoc. split; [done|].
    rewrite B2, <- u64_add_l, B1, u64_add_l, length_app. f_equal. lia.
  - rewrite C2, <- u64_add_l, C1, u64_add_l, length_app. f_equal. lia.
  - rewrite D2, D1, length_app. lia.
Qed.

Lemma queues_still s s' :
  s_fifo s' = s_fifo s -> s_nextFifo s' = s_nextFifo s -> s_doorbell s' = s_doorbell s ->
  length (s_recs s') = length (s_recs s) -> (forall x, rdy s' x -> rdy s x) -> queues s s'.
Proof.
  intros E1 E2 E3 E4 Hx Hl Hn _. rewrite E1, E2, E3, E4. split_and!; [done|lia|lia|]. intros x H. left. auto.
Qed.

Lemma queues_trans s1 s2 s3 :
  s_doorbell s1 <= s_doorbell s2 <= s_doorbell s3 -> queues s1 s2 -> queues s2 s3 -> queues s1 s3.
Proof.
  intros Hd Q1 Q2 Hl Hn Hb. destruct (Q1 Hl Hn ltac:(lia)) as (L2 & N2 & X2).
  destruct (Q2 L2 ltac:(lia) ltac:(lia)) as (L3 & N3 & X3). split_and!; [done|lia|lia|].
  intros x Hx. destruct (X3 x Hx) as [[H1 E1]|H1]; [|right; lia].
  destruct (X2 x H1) as [[H2 E2]|H2]; [left|right; lia]. split; [done|congruence].
Qed.

#[export] Instance advances_refl : Reflexive advances.
Proof. intros s. split; [|done..|by apply queues_still]. intros _. exists []. by apply appended_nil. Qed.

#[export] Instance advances_trans : Transitive advances.
Proof.
  intros s1 s2 s3 [L1 K1 N1 B1 Q1 F1] [L2 K2 N2 B2 Q2 F2]. split.
  - intros Hc. destruct (L1 Hc) as [es1 A1]. destruct L2 as [es2 A2]; [by rewrite K1|].
    exists (es1 ++ es2). by eapply appended_app.
  - congruence.
  - congruence.
  - lia.
  - intros E x Hx. destruct (Q2 ltac:(lia) x Hx) as [H1 H2]. destruct (Q1 ltac:(lia) x H1) as [H3 H4].
    split; [done|congruence].
  - by eapply queues_trans.
Qed.

(** ** Writes that leave the log alone *)

(** Log, cursor and bells are those of [s]. *)
Definition silent (s s' : scope) : Prop :=
  s_log s' = s_log s /\ s_logStart s' = s_logStart s /\ s_cursor s' = s_cursor s /\
  s_logBell s' = s_logBell s /\ s_logCap s' = s_logCap s /\ s_name s' = s_name s.

Lemma adv_silent s s' :
  silent s s' -> s_doorbell s <= s_doorbell s' ->
  (s_doorbell s' = s_doorbell s -> forall x, rdy s' x -> rdy s x /\ kind (rec s' x) = kind (rec s x)) ->
  queues s s' -> advances s s'.
Proof. intros (E1 & E2 & E3 & E4 & E5 & E6) Hb Hq Hf. split; [|done..]. intros _. exists []. by apply appended_nil. Qed.

(** And no number was given out. *)
Definition mute (s s' : scope) : Prop :=
  silent s s' /\ s_fifo s' = s_fifo s /\ s_nextFifo s' = s_nextFifo s /\ s_doorbell s' = s_doorbell s.

Lemma adv_mute s s' :
  mute s s' -> length (s_recs s') = length (s_recs s) ->
  (forall x, rdy s' x -> rdy s x /\ kind (rec s' x) = kind (rec s x)) -> advances s s'.
Proof.
  intros (Hs & E1 & E2 & E3) El Hq. apply adv_silent; [done|lia|by intros _|].
  apply queues_still; [done..|]. intros x Hx. by apply Hq.
Qed.

Lemma adv_same s s' : mute s s' -> s_recs s' = s_recs s -> advances s s'.
Proof. intros Hm Hr. apply adv_mute; [done|by rewrite Hr|]. intros x. unfold rdy, rec. by rewrite Hr. Qed.

(** A write to one record that does not make it ready. *)
Definition keeps_unready (f : nodeRec -> nodeRec) : Prop :=
  forall r, alive (f r) = true -> phase (f r) = PhaseReady -> alive r = true /\ phase r = PhaseReady /\ kind (f r) = kind r.

Lemma adv_alter s s' h f : mute s s' -> s_recs s' = alter f h (s_recs s) -> keeps_unready f -> advances s s'.
Proof.
  intros Hm Hr Hf. apply adv_mute; [done|by rewrite Hr, length_alter|]. intros x. unfold rdy, rec. rewrite Hr, lookup_total_alter.
  case_decide as E; [|done]. destruct E as [-> _]. intros [Ha Hp]. destruct (Hf _ Ha Hp) as (? & ? & ?). done.
Qed.

Lemma adv_insert s s' h r : mute s s' -> s_recs s' = <[h := r]> (s_recs s) -> phase r <> PhaseReady -> advances s s'.
Proof.
  intros Hm Hr Hf. apply adv_mute; [done|by rewrite Hr, length_insert|]. intros x. unfold rdy, rec. rewrite Hr, lookup_total_insert.
  case_decide as E; [|done]. intros [_ Hp]. done.
Qed.

Create HintDb adv.
#[export] Hint Resolve advances_refl : adv.
#[export] Hint Extern 1 (keeps_unready _) => (by intros ? ? ?) : adv.


Ltac mute := repeat split; reflexivity.

(** ** The functions of [scope.go] and [watch.go] *)

Lemma makeReady_queues h s : queues s (makeReady h s).
Proof.
  intros Hl Hn Hb. assert (Ed : s_doorbell (makeReady h s) = S (s_doorbell s)) by done.
  assert (Ef : s_nextFifo (makeReady h s) = u64 (s_nextFifo s + 1)) by done.
  assert (Eq : s_fifo (makeReady h s) = <[h := u64 (s_nextFifo s + 1)]> (s_fifo s)) by done.
  assert (Er : exists f, s_recs (makeReady h s) = alter f h (s_recs s)) by (eexists; reflexivity). destruct Er as [f Er].
  rewrite Ed in Hb |- *. rewrite Ef, Eq, Er, length_alter, length_insert, u64_small by lia. split_and!; [done|lia|lia|].
  intros x. unfold rdy, rec. rewrite Er, lookup_total_alter, lookup_total_insert. destruct (decide (x = h)) as [->|Hne].
  - intros [Ha _]. right. rewrite decide_True; [lia|]. split; [done|].
    destruct (decide (h < length (s_fifo s))) as [|Hge]; [done|]. exfalso. rewrite decide_False in Ha by lia.
    rewrite list_lookup_total_alt, (proj2 (lookup_ge_None _ _)) in Ha by lia. done.
  - do 2 rewrite (decide_False (P := x = h /\ _)) by tauto. intros H. by left.
Qed.

Lemma makeReady_adv h s : advances s (makeReady h s).
Proof. apply adv_silent; [repeat split; reflexivity|simpl; lia|simpl; lia|apply makeReady_queues]. Qed.

Lemma makeBlocked_adv h s : advances s (makeBlocked h s).
Proof. eapply adv_alter; [mute|reflexivity..|]. by intros ? ? ?. Qed.

Lemma schedule_adv h a s : advances s (schedule h a s).
Proof. eapply adv_alter; [mute|reflexivity..|]. by intros ? ? ?. Qed.

Lemma finish_adv now i s : advances s (finish now i s).
Proof. eapply adv_alter; [mute|reflexivity..|]. by intros ? ? ?. Qed.

Lemma markSatisfied_adv w p st rs s : advances s (fst (markSatisfied w p st rs s)).
Proof.
  unfold markSatisfied. destruct (find_idx _ _); [|done]. eapply adv_alter; [mute|reflexivity..|].
  by intros r ? ?.
Qed.

Lemma linkEdge_adv u v s : advances s (linkEdge u v s).
Proof. eapply adv_alter; [mute|reflexivity..|]. by intros r ? ?. Qed.

Lemma unlinkEdge_adv u v s : advances s (fst (unlinkEdge u v s)).
Proof.
  unfold unlinkEdge. destruct (find_idx _ _) as [i|]; [|done]. cbv zeta.
  match goal with |- context [upd_rec v ?f _] => set (g := f) end.
  destruct (find_idx _ _); (eapply adv_alter; [mute|reflexivity|]); by intros r ? ?.
Qed.

Lemma alloc_adv s : advances s (snd (alloc s)).
Proof.
  unfold alloc. destruct (last (s_free s)) as [h|].
  - match goal with |- advances s (snd (_, ?t)) => set (s' := t) end. cbn [snd].
    assert (Hx : forall x, rdy s' x -> x <> h /\ rec s' x = rec s x).
    { intros x. unfold rdy, rec. simpl. rewrite lookup_total_insert. case_decide as E; [by intros []|].
      intros [Ha _]. split; [|done]. intros ->. destruct (decide (h < length (s_recs s))); [naive_solver|].
      rewrite list_lookup_total_alt, (proj2 (lookup_ge_None _ _)) in Ha by lia. done. }
    apply adv_silent; [repeat split; reflexivity|done| |].
    + intros _ x H. destruct (Hx x H) as [_ E]. unfold rdy in *. by rewrite E in *.
    + intros Hl Hn _. simpl. rewrite !length_insert. split_and!; [done|lia|lia|].
      intros x H. destruct (Hx x H) as [Hne E]. left. unfold rdy in *. rewrite E in H. by rewrite list_lookup_total_insert_ne.
  - match goal with |- advances s (snd (_, ?t)) => set (s' := t) end. cbn [snd].
    assert (Hx : forall x, rdy s' x -> x < length (s_recs s) /\ rec s' x = rec s x).
    { intros x. unfold rdy, rec. simpl. rewrite lookup_total_snoc. case_decide as E; [by intros []|].
      intros [Ha _]. split; [|done]. destruct (decide (x < length (s_recs s))); [done|].
      rewrite list_lookup_total_alt, (proj2 (lookup_ge_None _ _)) in Ha by lia. done. }
    apply adv_silent; [repeat split; reflexivity|done| |].
    + intros _ x H. destruct (Hx x H) as [_ E]. unfold rdy in *. by rewrite E in *.
    + intros Hl Hn _. simpl. rewrite !length_app. simpl. split_and!; [lia|lia|lia|].
      intros x H. destruct (Hx x H) as [Hlt E]. left. unfold rdy in *. rewrite E in H. split; [done|].
      rewrite lookup_total_app_l by lia. done.
Qed.

Lemma release_adv h s : advances s (release h s).
Proof. by eapply adv_insert; [mute|reflexivity..|]. Qed.

Lemma refreshComplete_adv s : advances s (refreshComplete s).
Proof. apply adv_same; [mute|reflexivity..]. Qed.

Lemma appendLog_appended ef s :
  (0 <= s_logCap s)%Z ->
  appended [event_of (s_name s) ef] s (appendLog ef (s <| s_cursor ::= fun n => u64 (n + 1) |>)).
Proof.
  intros Hc. unfold appendLog, appended. cbv zeta. simpl.
  destruct (Z.leb_spec (2 * s_logCap s) (Z.of_nat (length (s_log s ++ [event_of (s_name s) ef])))) as [H|H];
    simpl; split_and!; try (by rewrite u64_idemp); try lia.
  - set (l := s_log s ++ _) in *. set (d := Z.to_nat (Z.of_nat (length l) - s_logCap s)).
    exists (take d l). rewrite (take_ge (drop d l)) by (rewrite length_drop; unfold d; lia).
    rewrite take_drop. split; [done|]. rewrite u64_idemp, length_take. f_equal. unfold d. lia.
  - exists []. rewrite Z.add_0_r. done.
Qed.

Lemma appendLog_adv ef s :
  advances s (appendLog ef (s <| s_cursor ::= fun n => u64 (n + 1) |>)).
Proof.
  set (s0 := s <| s_cursor ::= fun n => u64 (n + 1) |>).
  assert (Hr : s_recs (appendLog ef s0) = s_recs s) by (unfold appendLog; by destruct (_ <=? _)%Z).
  assert (Hd : s_doorbell (appendLog ef s0) = s_doorbell s) by (unfold appendLog; by destruct (_ <=? _)%Z).
  split.
  - intros Hc. exists [event_of (s_name s) ef]. by apply appendLog_appended.
  - unfold appendLog. by destruct (_ <=? _)%Z.
  - unfold appendLog. by destruct (_ <=? _)%Z.
  - by rewrite Hd.
  - intros _ x. unfold rdy, rec. by rewrite Hr.
  - apply queues_still; [by unfold appendLog; destruct (_ <=? _)%Z..|done|by rewrite Hr|]. intros x. unfold rdy, rec. by rewrite Hr.
Qed.

Lemma record_at_adv now h k from s : advances s (fst (record_at now h k from s)).
Proof.
  unfold record_at. cbv zeta. cbn [fst]. etransitivity; [|apply appendLog_adv].
  eapply adv_alter; [mute|reflexivity..|]. by intros r ? ?.
Qed.

Lemma addEdgeOrder_adv u v s : advances s (fst (addEdgeOrder u v s)).
Proof.
  unfold addEdgeOrder. destruct (_ <? _)%Z; [done|]. destruct (forwardSearch _ _ _) as [[? ?] [?|]]; [done|].
  destruct (backwardSearch _ _ _). apply adv_same; [mute|reflexivity..].
Qed.

#[export] Hint Resolve makeReady_adv makeBlocked_adv schedule_adv finish_adv markSatisfied_adv linkEdge_adv : adv.
#[export] Hint Resolve unlinkEdge_adv alloc_adv release_adv refreshComplete_adv record_at_adv addEdgeOrder_adv : adv.

(** ** Operations that read the clock *)

Section Clocked.
Context {C : Type} `{!ClockSource C}.

Lemma record_adv h k from (c c' : C) s s' ef : record h k from c s = (c', s', ef) -> advances s s'.
Proof.
  unfold record. destruct (clk_Now c). pose proof (record_at_adv z h k from s) as H.
  destruct (record_at z h k from s). intros. by simplify_eq/=.
Qed.

Lemma notify_adv p st rs w (c c' : C) s s' q q' out out' :
  notify p st rs w c s q out = (c', s', q', out') -> advances s s'.
Proof.
  unfold notify. pose proof (markSatisfied_adv w p st rs s) as H.
  destruct (markSatisfied w p st rs s) as [s1 ch]. simpl in H. destruct ch; [|by intros; simplify_eq/=].
  simpl. intros E. repeat case_match; simplify_eq/=; try done.
  all: etransitivity; [exact H|]; etransitivity; [apply makeReady_adv|by eapply record_adv].
Qed.

Lemma notify_all_adv p st rs ws : forall (c c' : C) s s' q q' out out',
  notify_all p st rs ws c s q out = (c', s', q', out') -> advances s s'.
Proof.
  induction ws as [|w ws IH]; simpl; intros; [by simplify_eq|].
  destruct (notify p st rs w c s q out) as [[[c1 s1] q1] out1] eqn:E1.
  etransitivity; [by eapply notify_adv|by eapply IH].
Qed.

Lemma terminate_loop_adv fuel : forall q (c c' : C) s s' out out',
  terminate_loop fuel q c s out = (c', s', out') -> advances s s'.
Proof.
  induction fuel as [|fuel IH]; simpl; intros q c c' s s' out out' E; [by simplify_eq|].
  destruct q as [|i q]; [by simplify_eq|]. destruct (_ || _); [by eapply IH|].
  destruct (clk_Now c) as [now c1]. destruct (record _ _ _ _ _) as [[c2 s2] ef] eqn:E2.
  destruct (notify_all _ _ _ _ _ _ _ _) as [[[c3 s3] q3] out3] eqn:E3.
  etransitivity; [apply finish_adv|]. etransitivity; [by eapply record_adv|].
  etransitivity; [by eapply notify_all_adv|by eapply IH].
Qed.

Lemma terminate_adv h st rs msg (c c' : C) s s' out out' :
  terminate h st rs msg c s out = (c', s', out') -> advances s s'.
Proof. apply terminate_loop_adv. Qed.

Lemma settle_adv h (c c' : C) s s' out out' : settle h c s out = (c', s', out') -> advances s s'.
Proof.
  unfold settle. intros E. repeat case_match; simplify_eq/=; eauto using terminate_adv with adv.
  all: etransitivity; [apply makeReady_adv|by eapply record_adv].
Qed.

Lemma settle_all_adv hs : forall (c c' : C) s s' out out',
  settle_all hs c s out = (c', s', out') -> advances s s'.
Proof.
  induction hs as [|h hs IH]; simpl; intros; [by simplify_eq|].
  destruct (settle h c s out) as [[c1 s1] out1] eqn:E1. etransitivity; [by eapply settle_adv|by eapply IH].
Qed.

Lemma promote_loop_adv fuel : forall now (c c' : C) s s' out out',
  promote_loop fuel now c s out = (c', s', out') -> advances s s'.
Proof.
  induction fuel as [|fuel IH]; simpl; intros now c c' s s' out out' E; [by simplify_eq|].
  destruct (Pq.Peek (s_scheduled s)) as [h|]; [|by simplify_eq]. destruct (_ <? _)%Z; [by simplify_eq|].
  destruct (record _ _ _ _ _) as [[c1 s1] ef] eqn:E1.
  etransitivity; [|by eapply IH]. etransitivity; [|by eapply record_adv].
  etransitivity; [|apply makeReady_adv]. apply adv_same; [mute|reflexivity..].
Qed.

Lemma promoteScheduled_adv now (c c' : C) s s' out :
  promoteScheduled now c s = (c', s', out) -> advances s s'.
Proof. apply promote_loop_adv. Qed.

(** ** [lease.go] *)

Lemma failAttempt_adv h rs msg cfg now (c c' : C) s s' out out' :
  failAttempt h rs msg cfg now c s out = (c', s', out') -> advances s s'.
Proof.
  unfold failAttempt. destruct (effectiveRetry _ _) as [[m b] d]. cbv zeta. intros E.
  assert (H1 : advances s ((leases_Remove h s) <| s_deadline ::= <[h := 0%Z]> |>))
    by (apply adv_same; [mute|reflexivity..]).
  destruct (_ <=? _)%Z; [etransitivity; [exact H1|by eapply terminate_adv]|].
  destruct (Backoff _ _ _ _ _) as [delay c1]. destruct (record _ _ _ _ _) as [[c2 s2] ef] eqn:E2. simplify_eq.
  etransitivity; [exact H1|]. etransitivity; [|by eapply record_adv]. etransitivity; [|apply schedule_adv].
  eapply adv_alter; [mute|reflexivity..|]. by intros r ? ?.
Qed.

Lemma reclaim_loop_adv fuel : forall now cfg limit n (c c' : C) s s' out out' n' more,
  reclaim_loop fuel now cfg limit n c s out = (c', s', out', n', more) -> advances s s'.
Proof.
  induction fuel as [|fuel IH]; simpl; intros now cfg limit n c c' s s' out out' n' more E; [by simplify_eq|].
  destruct (_ <? _)%Z; [|by simplify_eq]. destruct (Pq.Peek _) as [h|]; [|by simplify_eq].
  destruct (_ <? _)%Z; [by simplify_eq|]. destruct (failAttempt _ _ _ _ _ _ _ _) as [[c1 s1] out1] eqn:E1.
  etransitivity; [by eapply failAttempt_adv|by eapply IH].
Qed.

Lemma reclaimExpired_adv now cfg limit (c c' : C) s s' out out' n more :
  reclaimExpired now cfg limit c s out = (c', s', out', n, more) -> advances s s'.
Proof. apply reclaim_loop_adv. Qed.

Lemma popReady_adv kinds s s' o : popReady kinds s = (s', o) -> advances s s'.
Proof.
  unfold popReady. destruct (best_of _ _) as [[h k]|]; intros; simplify_eq; [|done].
  apply adv_same; [mute|reflexivity..].
Qed.

Lemma grant_adv w now d h s : advances s (grant w now d h s).
Proof. eapply adv_alter; [mute|reflexivity..|]. by intros r ? ?. Qed.

Lemma claim_loop_adv fuel : forall req cfg now want d (c c' : C) s s' ls ls' out out',
  claim_loop fuel req cfg now want d c s ls out = (c', s', ls', out') -> advances s s'.
Proof.
  induction fuel as [|fuel IH]; simpl; intros req cfg now want d c c' s s' ls ls' out out' E; [by simplify_eq|].
  destruct (_ <? _)%Z; [|by simplify_eq]. destruct (_ && _); [by simplify_eq|].
  destruct (popReady _ s) as [s1 [h|]] eqn:E1; [|simplify_eq; by eapply popReady_adv].
  destruct (record _ _ _ _ _) as [[c2 s2] ef] eqn:E2.
  etransitivity; [by eapply popReady_adv|]. etransitivity; [apply grant_adv|].
  etransitivity; [by eapply record_adv|by eapply IH].
Qed.

Lemma Claim_adv req (c c' : C) s s' r : scope_Claim req c s = (c', s', r) -> advances s s'.
Proof.
  unfold scope_Claim. destruct (clk_Now c) as [now c0]. destruct (reclaimExpired _ _ _ _ _ _) as [[[[c1 s1] o1] n1] m1] eqn:E1.
  destruct (promoteScheduled now c1 s1) as [[c2 s2] o2] eqn:E2.
  destruct (claim_loop _ _ _ _ _ _ _ _ _ _) as [[[c3 s3] ls] o3] eqn:E3. intros. simplify_eq.
  etransitivity; [by eapply reclaimExpired_adv|]. etransitivity; [by eapply promoteScheduled_adv|by eapply claim_loop_adv].
Qed.

Lemma tidied_adv (c : C) s : advances s (tidied c s).
Proof.
  unfold tidied. destruct (clk_Now c) as [now c0]. destruct (reclaimExpired _ _ _ _ _ _) as [[[[c1 s1] o1] n1] m1] eqn:E1.
  destruct (promoteScheduled now c1 s1) as [[c2 s2] o2] eqn:E2.
  etransitivity; [by eapply reclaimExpired_adv|by eapply promoteScheduled_adv].
Qed.

Lemma Sweep_adv limit (c c' : C) s s' r : scope_Sweep limit c s = (c', s', r) -> advances s s'.
Proof.
  unfold scope_Sweep. destruct (clk_Now c) as [now c0]. destruct (reclaimExpired _ _ _ _ _ _) as [[[[c1 s1] o1] n1] m1] eqn:E1.
  destruct (promoteScheduled now c1 s1) as [[c2 s2] o2] eqn:E2. intros. simplify_eq.
  etransitivity; [by eapply reclaimExpired_adv|]. etransitivity; [by eapply promoteScheduled_adv|apply refreshComplete_adv].
Qed.

Lemma Extend_adv req (c c' : C) s s' r : scope_Extend req c s = (c', s', r) -> advances s s'.
Proof.
  unfold scope_Extend. intros E. repeat case_match; simplify_eq; try done. apply adv_same; [mute|reflexivity..].
Qed.

Lemma Complete_adv req (c c' : C) s s' r : scope_Complete req c s = (c', s', r) -> advances s s'.
Proof.
  unfold scope_Complete. intros E. repeat case_match; simplify_eq; try done.
  all: etransitivity; [|apply refreshComplete_adv].
  all: try (by eapply failAttempt_adv).
  all: etransitivity; [|by eapply terminate_adv].
  all: (eapply adv_alter; [mute|reflexivity..|]; by intros r ? ?).
Qed.

(** ** [graph.go] and [memory.go] *)

Lemma foldl_adv {A : Type} (f : scope -> A -> scope) (l : list A) : forall s,
  (forall s x, advances s (f s x)) -> advances s (foldl f s l).
Proof. induction l as [|x l IH]; intros s H; simpl; [done|]. etransitivity; [apply H|by apply IH]. Qed.

Lemma rollback_adv j s : advances s (rollback j s).
Proof.
  unfold rollback. etransitivity; [apply (foldl_adv (fun s e => fst (unlinkEdge e.1 e.2 s))); intros; apply unlinkEdge_adv|].
  apply (foldl_adv (fun s h => rollback_node h s)). intros s0 h. unfold rollback_node. cbv zeta. etransitivity; [|apply release_adv].
  apply adv_same; [mute|reflexivity..].
Qed.

Lemma create_adv spec now s h s' : create spec now s = (h, s') -> advances s s'.
Proof.
  unfold create. pose proof (alloc_adv s) as H. destruct (alloc s) as [h0 s0]. simpl in H. intros. simplify_eq.
  etransitivity; [exact H|]. eapply adv_alter; [mute|reflexivity..|]. by intros r ? ?.
Qed.

Lemma materialise_adv specs : forall now j s s' j' r,
  materialise specs now j s = (s', j', r) -> advances s s'.
Proof.
  induction specs as [|spec specs IH]; simpl; intros now j s s' j' r E; [by simplify_eq|].
  destruct (lookup_id s _) as [h|].
  - destruct (negb _); [by simplify_eq|by eapply IH].
  - destruct (create spec now s) as [h s1] eqn:E1. destruct (materialise _ _ _ s1) as [[s2 j2] r2] eqn:E2. simplify_eq.
    etransitivity; [by eapply create_adv|by eapply IH].
Qed.

Lemma link_deps_adv to ds : forall j s s' j' e, link_deps to ds j s = (s', j', e) -> advances s s'.
Proof.
  induction ds as [|d ds IH]; simpl; intros j s s' j' e E; [by simplify_eq|].
  destruct (lookup_id s d) as [f|]; [|by simplify_eq]. destruct (hasEdge _ _ _); [by eapply IH|].
  destruct (bool_decide _); [by simplify_eq|]. pose proof (addEdgeOrder_adv f to s) as H.
  destruct (addEdgeOrder f to s) as [s1 res]. simpl in H. destruct (cyclePath res); [by simplify_eq|].
  etransitivity; [exact H|]. etransitivity; [apply linkEdge_adv|by eapply IH].
Qed.

Lemma linkBatch_adv specs : forall t j s s' j' r, linkBatch specs t j s = (s', j', r) -> advances s s'.
Proof.
  induction specs as [|spec specs IH]; simpl; intros t j s s' j' r E; [by simplify_eq|].
  destruct (link_deps _ _ _ _) as [[s1 j1] [e|]] eqn:E1; simplify_eq; [by eapply link_deps_adv|].
  etransitivity; [by eapply link_deps_adv|by eapply IH].
Qed.

Lemma link_edges_adv edges : forall t j s s' j' r, link_edges edges t j s = (s', j', r) -> advances s s'.
Proof.
  induction edges as [|e edges IH]; simpl; intros t j s s' j' r E; [by simplify_eq|].
  destruct (lookup_id s _) as [f|]; [|by simplify_eq]. destruct (lookup_id s _) as [to|]; [|by simplify_eq].
  destruct (f =? to); [by simplify_eq|]. destruct (hasEdge _ _ _); [by eapply IH|].
  destruct (bool_decide _); [by simplify_eq|]. pose proof (addEdgeOrder_adv f to s) as H.
  destruct (addEdgeOrder f to s) as [s1 res]. simpl in H. destruct (cyclePath res); [by simplify_eq|].
  etransitivity; [exact H|]. etransitivity; [apply linkEdge_adv|by eapply IH].
Qed.

Lemma unlink_edges_adv edges : forall t s s' r, unlink_edges edges t s = (s', r) -> advances s s'.
Proof.
  induction edges as [|e edges IH]; simpl; intros t s s' r E; [by simplify_eq|].
  destruct (lookup_id s _) as [f|]; [|by simplify_eq]. destruct (lookup_id s _) as [to|]; [|by simplify_eq].
  pose proof (unlinkEdge_adv f to s) as H. destruct (unlinkEdge f to s) as [s1 b]. simpl in H.
  etransitivity; [exact H|by eapply IH].
Qed.

Lemma record_created_adv fresh : forall (c c' : C) s s' out out',
  record_created fresh c s out = (c', s', out') -> advances s s'.
Proof.
  induction fresh as [|h fresh IH]; simpl; intros; [by simplify_eq|].
  destruct (record _ _ _ c s) as [[c1 s1] ef] eqn:E1. etransitivity; [by eapply record_adv|by eapply IH].
Qed.

Lemma AddNodes_adv specs (c c' : C) s s' r : scope_AddNodes specs c s = (c', s', r) -> advances s s'.
Proof.
  unfold scope_AddNodes. intros E. destruct (s_sealed s); [by simplify_eq|]. destruct (validateBatch _ _); [by simplify_eq|].
  destruct (clk_Now c) as [now c0]. destruct (materialise _ _ _ s) as [[s1 j1] [fresh|e]] eqn:E1; apply materialise_adv in E1;
    [|simplify_eq; etransitivity; [exact E1|apply rollback_adv]].
  destruct (linkBatch _ _ _ s1) as [[s2 j2] [t|e]] eqn:E2; apply linkBatch_adv in E2;
    (etransitivity; [exact E1|]; etransitivity; [exact E2|]); [|simplify_eq; apply rollback_adv].
  destruct (record_created _ _ _ _) as [[c3 s3] o3] eqn:E3. destruct (settle_all _ _ _ _) as [[c4 s4] o4] eqn:E4. simplify_eq.
  etransitivity; [by eapply record_created_adv|]. etransitivity; [by eapply settle_all_adv|apply refreshComplete_adv].
Qed.

Lemma AddEdges_adv edges (c c' : C) s s' r : scope_AddEdges edges c s = (c', s', r) -> advances s s'.
Proof.
  unfold scope_AddEdges. destruct (link_edges _ _ _ s) as [[s1 j1] [t|e]] eqn:E1; apply link_edges_adv in E1; intros;
    (etransitivity; [exact E1|]); [|simplify_eq; apply rollback_adv].
  destruct (settle_all _ _ _ _) as [[c4 s4] o4] eqn:E4. simplify_eq. by eapply settle_all_adv.
Qed.

Lemma RemoveEdges_adv edges (c c' : C) s s' r : scope_RemoveEdges edges c s = (c', s', r) -> advances s s'.
Proof.
  unfold scope_RemoveEdges. destruct (unlink_edges _ _ s) as [s1 [t|e]] eqn:E1; apply unlink_edges_adv in E1; intros;
    (etransitivity; [exact E1|]); [|by simplify_eq].
  destruct (settle_all _ _ _ _) as [[c4 s4] o4] eqn:E4. simplify_eq. by eapply settle_all_adv.
Qed.

Lemma terminate_all_adv ws st rs : forall (c c' : C) s s' out out',
  terminate_all ws st rs c s out = (c', s', out') -> advances s s'.
Proof.
  induction ws as [|w ws IH]; simpl; intros; [by simplify_eq|].
  destruct (terminate _ _ _ _ c s out) as [[c1 s1] o1] eqn:E1. etransitivity; [by eapply terminate_adv|by eapply IH].
Qed.

Lemma drop_node_adv h nid s : advances s (drop_node h nid s).
Proof.
  unfold drop_node. cbv zeta. etransitivity; [|apply release_adv].
  etransitivity; [apply (foldl_adv (fun s w => fst (unlinkEdge h w s))); intros; apply unlinkEdge_adv|].
  etransitivity; [apply (foldl_adv (fun s e => fst (unlinkEdge (from e) h s))); intros; apply unlinkEdge_adv|].
  apply adv_same; [mute|reflexivity..].
Qed.

Lemma RemoveNode_adv nid policy (c c' : C) s s' r : scope_RemoveNode nid policy c s = (c', s', r) -> advances s s'.
Proof.
  unfold scope_RemoveNode. intros E. destruct (lookup_id s nid) as [h|]; [|by simplify_eq].
  destruct (bool_decide _); [by simplify_eq|]. destruct (_ && _); [by simplify_eq|].
  destruct (if bool_decide (policy = CascadeFail) then _ else _) as [[c1 s1] o1] eqn:E1.
  assert (H1 : advances s s1) by (destruct (bool_decide (policy = CascadeFail)); [by eapply terminate_all_adv|by simplify_eq]).
  destruct (if bool_decide (policy = CascadeDetach) then _ else _) as [[c2 s2] o2] eqn:E2. injection E as <- <- <-.
  etransitivity; [exact H1|]. etransitivity; [|apply refreshComplete_adv].
  etransitivity; [apply (drop_node_adv h nid)|]. destruct (bool_decide (policy = CascadeDetach)); [by eapply settle_all_adv|by simplify_eq].
Qed.

Lemma cancel_ids_adv ids : forall (c c' : C) s s' out out' e,
  cancel_ids ids c s out = (c', s', out', e) -> advances s s'.
Proof.
  induction ids as [|i ids IH]; simpl; intros c c' s s' out out' e E; [by simplify_eq|].
  destruct (lookup_id s i) as [h|]; [|by simplify_eq]. destruct (bool_decide _); [by eapply IH|].
  destruct (terminate _ _ _ _ c s out) as [[c1 s1] o1] eqn:E1. etransitivity; [by eapply terminate_adv|by eapply IH].
Qed.

Lemma Cancel_adv ids (c c' : C) s s' out e : scope_Cancel ids c s = (c', s', out, e) -> advances s s'.
Proof.
  unfold scope_Cancel. destruct (cancel_ids _ _ _ _) as [[[c1 s1] o1] [e1|]] eqn:E1; apply cancel_ids_adv in E1; intros; simplify_eq;
    [done|]. etransitivity; [exact E1|apply refreshComplete_adv].
Qed.

Lemma cancel_handles_adv hs : forall (c c' : C) s s' out out',
  cancel_handles hs c s out = (c', s', out') -> advances s s'.
Proof.
  induction hs as [|h hs IH]; simpl; intros c c' s s' out out' E; [by simplify_eq|].
  destruct (bool_decide _); [by eapply IH|].
  destruct (terminate _ _ _ _ c s out) as [[c1 s1] o1] eqn:E1. etransitivity; [by eapply terminate_adv|by eapply IH].
Qed.

Lemma CancelScope_adv visit (c c' : C) s s' out : scope_CancelScope visit c s = (c', s', out) -> advances s s'.
Proof.
  unfold scope_CancelScope. destruct (cancel_handles _ _ _ _) as [[c1 s1] o1] eqn:E1. intros. simplify_eq.
  etransitivity; [by eapply cancel_handles_adv|apply refreshComplete_adv].
Qed.

Lemma collect_node_adv i h s : advances s (collect_node i h s).
Proof.
  unfold collect_node. cbv zeta. etransitivity; [|apply release_adv].
  etransitivity; [apply (foldl_adv (fun s e => detachSucc (from e) h s))|apply adv_same; [mute|reflexivity..]].
  intros s0 e. unfold detachSucc. destruct (find_idx _ _); [|done]. apply adv_same; [mute|reflexivity..].
Qed.

Lemma collect_loop_adv visit cut limit : forall n s s' n' more,
  collect_loop visit cut limit n s = (s', n', more) -> advances s s'.
Proof.
  induction visit as [|[i h] visit IH]; simpl; intros n s s' n' more E; [by simplify_eq|].
  destruct (_ || _); [by eapply IH|]. destruct (_ =? _)%Z; [by simplify_eq|].
  etransitivity; [apply (collect_node_adv i h)|by eapply IH].
Qed.

Lemma exec_adv o (c : C) s : advances s (snd (exec o c s)).
Proof.
  destruct o; simpl; try open_op.
  all: eauto using AddNodes_adv, AddEdges_adv, RemoveEdges_adv, RemoveNode_adv, Cancel_adv, CancelScope_adv, Claim_adv,
         Complete_adv, Extend_adv, Sweep_adv, collect_loop_adv.
  all: apply adv_same; [mute|reflexivity..].
Qed.

Lemma steps_adv os (cs cs' : C * scope) : steps os cs cs' -> advances (snd cs) (snd cs').
Proof. induction 1 as [|o os ? ? ? [c s Ha] _ IH]; [done|]. etransitivity; [apply exec_adv|exact IH]. Qed.

End Clocked.
