(* ===== verification/Emit.v ===== *)
(** * The effects an operation returns are the events it logs

    [emits (s, out) (s', out')] holds across every function that threads a
    list of effects: the effects it adds to the list are, converted to events,
    what it appends to the log of the scope, in the same order. *)
From S2P Require Import Prelude Types Config Heap Scope Topo Graph Lease Memory Machine Advance.

Definition emits (x y : scope * list Effect) : Prop :=
  s_name y.1 = s_name x.1 /\ s_logCap y.1 = s_logCap x.1 /\ s_cfg y.1 = s_cfg x.1 /\
  ((0 <= s_logCap x.1)%Z -> exists es, y.2 = x.2 ++ es /\ appended (event_of (s_name x.1) <$> es) x.1 y.1).

#[export] Instance emits_refl : Reflexive emits.
Proof. intros [s out]. split_and!; [done..|]. intros _. exists []. rewrite app_nil_r. split; [done|by apply appended_nil]. Qed.

#[export] Instance emits_trans : Transitive emits.
Proof.
  unfold emits. intros [s1 o1] [s2 o2] [s3 o3] (N1 & K1 & G1 & H1) (N2 & K2 & G2 & H2). simpl in *. split_and!; [congruence..|]. intros Hc.
  destruct (H1 Hc) as (e1 & -> & A1). destruct H2 as (e2 & -> & A2); [by rewrite K1|]. exists (e1 ++ e2).
  rewrite app_assoc. split; [done|]. rewrite fmap_app. eapply appended_app; [exact A1|]. by rewrite <- N1.
Qed.

(** ** Functions that leave the log alone *)

Definition still (s s' : scope) : Prop := silent s s' /\ s_cfg s' = s_cfg s.

#[export] Instance still_refl : Reflexive still.
Proof. done. Qed.

#[export] Instance still_trans : Transitive still.
Proof. unfold still, silent. intros s1 s2 s3. naive_solver congruence. Qed.

Lemma emits_mute s s' out : still s s' -> emits (s, out) (s', out).
Proof.
  intros ((E1 & E2 & E3 & E4 & E5 & E6) & E7). split_and!; [done..|]. intros _. exists []. rewrite app_nil_r.
  split; [done|by apply appended_nil].
Qed.

Lemma foldl_mute {A : Type} (f : scope -> A -> scope) (l : list A) : forall s,
  (forall s x, still s (f s x)) -> still s (foldl f s l).
Proof. induction l as [|x l IH]; intros s H; simpl; [done|]. etransitivity; [apply H|by apply IH]. Qed.

Lemma markSatisfied_mute w p st rs s : still s (fst (markSatisfied w p st rs s)).
Proof. unfold markSatisfied. destruct (find_idx _ _); [mute|done]. Qed.

Lemma unlinkEdge_mute u v s : still s (fst (unlinkEdge u v s)).
Proof. unfold unlinkEdge. destruct (find_idx _ _) as [i|]; [|done]. cbv zeta. destruct (find_idx _ _); mute. Qed.

Lemma alloc_mute s : still s (snd (alloc s)).
Proof. unfold alloc. destruct (last (s_free s)); mute. Qed.

Lemma addEdgeOrder_mute u v s : still s (fst (addEdgeOrder u v s)).
Proof.
  unfold addEdgeOrder. destruct (_ <? _)%Z; [done|]. destruct (forwardSearch _ _ _) as [[? ?] [?|]]; [done|].
  destruct (backwardSearch _ _ _). mute.
Qed.

Lemma refreshComplete_mute s : still s (refreshComplete s).
Proof. mute. Qed.

Lemma rollback_mute j s : still s (rollback j s).
Proof.
  unfold rollback. etransitivity; [apply (foldl_mute (fun s e => fst (unlinkEdge e.1 e.2 s))); intros; apply unlinkEdge_mute|].
  apply (foldl_mute (fun s h => rollback_node h s)). intros. mute.
Qed.

Lemma create_mute spec now s h s' : create spec now s = (h, s') -> still s s'.
Proof.
  unfold create. pose proof (alloc_mute s) as H. destruct (alloc s) as [h0 s0]. simpl in H. intros. simplify_eq.
  etransitivity; [exact H|mute].
Qed.

Lemma materialise_mute specs : forall now j s s' j' r, materialise specs now j s = (s', j', r) -> still s s'.
Proof.
  induction specs as [|spec specs IH]; simpl; intros now j s s' j' r E; [by simplify_eq|].
  destruct (lookup_id s _) as [h|].
  - destruct (negb _); [by simplify_eq|by eapply IH].
  - destruct (create spec now s) as [h s1] eqn:E1. destruct (materialise _ _ _ s1) as [[s2 j2] r2] eqn:E2. simplify_eq.
    etransitivity; [by eapply create_mute|by eapply IH].
Qed.

(** The two ways an edge is tried. *)
Lemma linked_mute f to s s1 res : addEdgeOrder f to s = (s1, res) -> still s s1 /\ still s (linkEdge f to s1).
Proof. intros E. pose proof (addEdgeOrder_mute f to s) as H. rewrite E in H. split; [done|]. etransitivity; [exact H|mute]. Qed.

Lemma link_deps_mute to ds : forall j s s' j' e, link_deps to ds j s = (s', j', e) -> still s s'.
Proof.
  induction ds as [|d ds IH]; simpl; intros j s s' j' e E; [by simplify_eq|].
  destruct (lookup_id s d) as [f|]; [|by simplify_eq]. destruct (hasEdge _ _ _); [by eapply IH|].
  destruct (bool_decide _); [by simplify_eq|]. destruct (addEdgeOrder f to s) as [s1 res] eqn:E1.
  apply linked_mute in E1 as [H1 H2]. destruct (cyclePath res); [by simplify_eq|]. etransitivity; [exact H2|by eapply IH].
Qed.

Lemma linkBatch_mute specs : forall t j s s' j' r, linkBatch specs t j s = (s', j', r) -> still s s'.
Proof.
  induction specs as [|spec specs IH]; simpl; intros t j s s' j' r E; [by simplify_eq|].
  destruct (link_deps _ _ _ _) as [[s1 j1] [e|]] eqn:E1; simplify_eq; [by eapply link_deps_mute|].
  etransitivity; [by eapply link_deps_mute|by eapply IH].
Qed.

Lemma link_edges_mute edges : forall t j s s' j' r, link_edges edges t j s = (s', j', r) -> still s s'.
Proof.
  induction edges as [|e edges IH]; simpl; intros t j s s' j' r E; [by simplify_eq|].
  destruct (lookup_id s _) as [f|]; [|by simplify_eq]. destruct (lookup_id s _) as [to|]; [|by simplify_eq].
  destruct (f =? to); [by simplify_eq|]. destruct (hasEdge _ _ _); [by eapply IH|].
  destruct (bool_decide _); [by simplify_eq|]. destruct (addEdgeOrder f to s) as [s1 res] eqn:E1.
  apply linked_mute in E1 as [H1 H2]. destruct (cyclePath res); [by simplify_eq|]. etransitivity; [exact H2|by eapply IH].
Qed.

Lemma unlink_edges_mute edges : forall t s s' r, unlink_edges edges t s = (s', r) -> still s s'.
Proof.
  induction edges as [|e edges IH]; simpl; intros t s s' r E; [by simplify_eq|].
  destruct (lookup_id s _) as [f|]; [|by simplify_eq]. destruct (lookup_id s _) as [to|]; [|by simplify_eq].
  pose proof (unlinkEdge_mute f to s) as H. destruct (unlinkEdge f to s) as [s1 b]. simpl in H.
  etransitivity; [exact H|by eapply IH].
Qed.

Lemma drop_node_mute h nid s : still s (drop_node h nid s).
Proof.
  unfold drop_node. cbv zeta.
  etransitivity; [apply (foldl_mute (fun s w => fst (unlinkEdge h w s))); intros; apply unlinkEdge_mute|].
  etransitivity; [apply (foldl_mute (fun s e => fst (unlinkEdge (from e) h s))); intros; apply unlinkEdge_mute|]. mute.
Qed.

Lemma popReady_mute kinds s s' o : popReady kinds s = (s', o) -> still s s'.
Proof. unfold popReady. destruct (best_of _ _) as [[h k]|]; intros; simplify_eq; [mute|done]. Qed.

Lemma collect_loop_mute visit cut limit : forall n s s' n' more,
  collect_loop visit cut limit n s = (s', n', more) -> still s s'.
Proof.
  induction visit as [|[i h] visit IH]; simpl; intros n s s' n' more E; [by simplify_eq|].
  destruct (_ || _); [by eapply IH|]. destruct (_ =? _)%Z; [by simplify_eq|].
  etransitivity; [|by eapply IH]. unfold collect_node. cbv zeta.
  etransitivity; [apply (foldl_mute (fun s e => detachSucc (from e) h s))|mute].
  intros s0 e. unfold detachSucc. destruct (find_idx _ _); [mute|done].
Qed.

(** ** Functions that record *)

Lemma record_at_emits now h k from s out :
  emits (s, out) (fst (record_at now h k from s), out ++ [snd (record_at now h k from s)]).
Proof.
  unfold record_at. cbv zeta. cbn [fst snd].
  match goal with |- context [upd_rec h ?f s] => set (s0 := upd_rec h f s) end.
  match goal with |- context [out ++ [?e]] => set (ef := e) end.
  etransitivity; [apply (emits_mute s s0); mute|].
  destruct (appendLog_adv ef s0) as [_ K N _ _]. split_and!; [exact N|exact K|unfold appendLog; by destruct (_ <=? _)%Z|]. intros Hc.
  exists [ef]. split; [done|]. by apply appendLog_appended.
Qed.

Section Clocked.
Context {C : Type} `{!ClockSource C}.

Lemma record_emits h k from (c c' : C) s s' ef out :
  record h k from c s = (c', s', ef) -> emits (s, out) (s', out ++ [ef]).
Proof.
  unfold record. destruct (clk_Now c). pose proof (record_at_emits z h k from s out) as H.
  destruct (record_at z h k from s). intros. by simplify_eq/=.
Qed.

Lemma notify_emits p st rs w (c c' : C) s s' q q' out out' :
  notify p st rs w c s q out = (c', s', q', out') -> emits (s, out) (s', out').
Proof.
  unfold notify. pose proof (markSatisfied_mute w p st rs s) as H.
  destruct (markSatisfied w p st rs s) as [s1 ch]. simpl in H. destruct ch; [|intros; simplify_eq/=; by apply emits_mute].
  simpl. intros E. repeat case_match; simplify_eq/=; try by apply emits_mute.
  all: etransitivity; [apply emits_mute; exact H|]; etransitivity; [apply (emits_mute s1 (makeReady w s1)); mute|by eapply record_emits].
Qed.

Lemma notify_all_emits p st rs ws : forall (c c' : C) s s' q q' out out',
  notify_all p st rs ws c s q out = (c', s', q', out') -> emits (s, out) (s', out').
Proof.
  induction ws as [|w ws IH]; simpl; intros; [by simplify_eq|].
  destruct (notify p st rs w c s q out) as [[[c1 s1] q1] out1] eqn:E1.
  etransitivity; [by eapply notify_emits|by eapply IH].
Qed.

Lemma terminate_loop_emits fuel : forall q (c c' : C) s s' out out',
  terminate_loop fuel q c s out = (c', s', out') -> emits (s, out) (s', out').
Proof.
  induction fuel as [|fuel IH]; simpl; intros q c c' s s' out out' E; [by simplify_eq|].
  destruct q as [|i q]; [by simplify_eq|]. destruct (_ || _); [by eapply IH|].
  destruct (clk_Now c) as [now c1]. destruct (record _ _ _ _ _) as [[c2 s2] ef] eqn:E2.
  destruct (notify_all _ _ _ _ _ _ _ _) as [[[c3 s3] q3] out3] eqn:E3.
  etransitivity; [apply (emits_mute s (finish now i s)); mute|]. etransitivity; [by eapply record_emits|].
  etransitivity; [by eapply notify_all_emits|by eapply IH].
Qed.

Lemma terminate_emits h st rs msg (c c' : C) s s' out out' :
  terminate h st rs msg c s out = (c', s', out') -> emits (s, out) (s', out').
Proof. apply terminate_loop_emits. Qed.

Lemma settle_emits h (c c' : C) s s' out out' : settle h c s out = (c', s', out') -> emits (s, out) (s', out').
Proof.
  unfold settle. intros E. repeat case_match; simplify_eq/=; try done; try by eapply terminate_emits.
  all: try by (apply emits_mute; mute).
  all: etransitivity; [apply (emits_mute s (makeReady h s)); mute|by eapply record_emits].
Qed.

Lemma settle_all_emits hs : forall (c c' : C) s s' out out',
  settle_all hs c s out = (c', s', out') -> emits (s, out) (s', out').
Proof.
  induction hs as [|h hs IH]; simpl; intros; [by simplify_eq|].
  destruct (settle h c s out) as [[c1 s1] out1] eqn:E1. etransitivity; [by eapply settle_emits|by eapply IH].
Qed.

Lemma promote_loop_emits fuel : forall now (c c' : C) s s' out out',
  promote_loop fuel now c s out = (c', s', out') -> emits (s, out) (s', out').
Proof.
  induction fuel as [|fuel IH]; simpl; intros now c c' s s' out out' E; [by simplify_eq|].
  destruct (Pq.Peek (s_scheduled s)) as [h|]; [|by simplify_eq]. destruct (_ <? _)%Z; [by simplify_eq|].
  destruct (record _ _ _ _ _) as [[c1 s1] ef] eqn:E1. etransitivity; [|by eapply IH].
  etransitivity; [|by eapply record_emits]. apply emits_mute. mute.
Qed.

(** The list a promotion starts from does not matter. *)
Lemma emits_shift s s' out out' pre : emits (s, out) (s', out') -> emits (s, pre ++ out) (s', pre ++ out').
Proof.
  unfold emits. simpl. intros (N & K & G & H). split_and!; [done..|]. intros Hc. destruct (H Hc) as (es & -> & A).
  exists es. by rewrite app_assoc.
Qed.

Lemma promoteScheduled_emits now (c c' : C) s s' pre out :
  promoteScheduled now c s = (c', s', out) -> emits (s, pre) (s', pre ++ out).
Proof. intros E. rewrite <- (app_nil_r pre) at 1. by eapply emits_shift, promote_loop_emits. Qed.

(** ** [lease.go] *)

Lemma failAttempt_emits h rs msg cfg now (c c' : C) s s' out out' :
  failAttempt h rs msg cfg now c s out = (c', s', out') -> emits (s, out) (s', out').
Proof.
  unfold failAttempt. destruct (effectiveRetry _ _) as [[m b] d]. cbv zeta. intros E.
  set (s1 := (leases_Remove h s) <| s_deadline ::= <[h := 0%Z]> |>) in *.
  assert (H1 : emits (s, out) (s1, out)) by (apply emits_mute; mute).
  destruct (_ <=? _)%Z; [etransitivity; [exact H1|by eapply terminate_emits]|].
  destruct (Backoff _ _ _ _ _) as [delay c1]. destruct (record _ _ _ _ _) as [[c2 s2] ef] eqn:E2. simplify_eq.
  etransitivity; [exact H1|]. etransitivity; [|by eapply record_emits]. apply emits_mute. mute.
Qed.

Lemma reclaim_loop_emits fuel : forall now cfg limit n (c c' : C) s s' out out' n' more,
  reclaim_loop fuel now cfg limit n c s out = (c', s', out', n', more) -> emits (s, out) (s', out').
Proof.
  induction fuel as [|fuel IH]; simpl; intros now cfg limit n c c' s s' out out' n' more E; [by simplify_eq|].
  destruct (_ <? _)%Z; [|by simplify_eq]. destruct (Pq.Peek _) as [h|]; [|by simplify_eq].
  destruct (_ <? _)%Z; [by simplify_eq|]. destruct (failAttempt _ _ _ _ _ _ _ _) as [[c1 s1] out1] eqn:E1.
  etransitivity; [by eapply failAttempt_emits|by eapply IH].
Qed.

Lemma claim_loop_emits fuel : forall req cfg now want d (c c' : C) s s' ls ls' out out',
  claim_loop fuel req cfg now want d c s ls out = (c', s', ls', out') -> emits (s, out) (s', out').
Proof.
  induction fuel as [|fuel IH]; simpl; intros req cfg now want d c c' s s' ls ls' out out' E; [by simplify_eq|].
  destruct (_ <? _)%Z; [|by simplify_eq]. destruct (_ && _); [by simplify_eq|].
  destruct (popReady _ s) as [s1 [h|]] eqn:E1; apply popReady_mute, (emits_mute s s1 out) in E1; [|by simplify_eq].
  destruct (record _ _ _ _ _) as [[c2 s2] ef] eqn:E2.
  etransitivity; [exact E1|]. etransitivity; [apply (emits_mute s1 (grant (cr_WorkerID req) now d h s1)); mute|].
  etransitivity; [by eapply record_emits|by eapply IH].
Qed.

Lemma Claim_emits req (c c' : C) s s' r : scope_Claim req c s = (c', s', r) -> emits (s, []) (s', cl_Effects r).
Proof.
  unfold scope_Claim. destruct (clk_Now c) as [now c0]. destruct (reclaimExpired _ _ _ _ _ _) as [[[[c1 s1] o1] n1] m1] eqn:E1.
  destruct (promoteScheduled now c1 s1) as [[c2 s2] o2] eqn:E2.
  destruct (claim_loop _ _ _ _ _ _ _ _ _ _) as [[[c3 s3] ls] o3] eqn:E3. intros. simplify_eq.
  etransitivity; [by eapply reclaim_loop_emits|]. etransitivity; [by eapply promoteScheduled_emits|by eapply claim_loop_emits].
Qed.

Lemma Sweep_emits limit (c c' : C) s s' r : scope_Sweep limit c s = (c', s', r) -> emits (s, []) (s', sw_Effects r).
Proof.
  unfold scope_Sweep. destruct (clk_Now c) as [now c0]. destruct (reclaimExpired _ _ _ _ _ _) as [[[[c1 s1] o1] n1] m1] eqn:E1.
  destruct (promoteScheduled now c1 s1) as [[c2 s2] o2] eqn:E2. intros. simplify_eq.
  etransitivity; [by eapply reclaim_loop_emits|]. etransitivity; [by eapply promoteScheduled_emits|apply emits_mute; mute].
Qed.

Lemma Extend_emits req (c c' : C) s s' r : scope_Extend req c s = (c', s', r) -> emits (s, []) (s', []).
Proof. unfold scope_Extend. intros E. repeat case_match; simplify_eq; try done. apply emits_mute. mute. Qed.

(** The effects of a result that may be an error, which has none. *)
Definition effects_of {A : Type} (f : A -> list Effect) (r : result A) : list Effect :=
  match r with Ok a => f a | Fail _ => [] end.

Lemma Complete_emits req (c c' : C) s s' r :
  scope_Complete req c s = (c', s', r) -> emits (s, []) (s', effects_of cp_Effects r).
Proof.
  unfold scope_Complete. intros E. repeat case_match; simplify_eq; try done; simpl.
  all: etransitivity; [|apply emits_mute, refreshComplete_mute].
  all: try (by eapply failAttempt_emits).
  all: etransitivity; [|by eapply terminate_emits].
  all: apply emits_mute; mute.
Qed.

(** ** [graph.go] *)

Lemma record_created_emits fresh : forall (c c' : C) s s' out out',
  record_created fresh c s out = (c', s', out') -> emits (s, out) (s', out').
Proof.
  induction fresh as [|h fresh IH]; simpl; intros; [by simplify_eq|].
  destruct (record _ _ _ c s) as [[c1 s1] ef] eqn:E1. etransitivity; [by eapply record_emits|by eapply IH].
Qed.

Lemma AddNodes_emits specs (c c' : C) s s' r :
  scope_AddNodes specs c s = (c', s', r) -> emits (s, []) (s', effects_of (fun es => es) r).
Proof.
  unfold scope_AddNodes. intros E. destruct (s_sealed s); [by simplify_eq|]. destruct (validateBatch _ _); [by simplify_eq|].
  destruct (clk_Now c) as [now c0]. destruct (materialise _ _ _ s) as [[s1 j1] [fresh|e]] eqn:E1; apply materialise_mute in E1;
    [|simplify_eq; apply emits_mute; etransitivity; [exact E1|apply rollback_mute]].
  destruct (linkBatch _ _ _ s1) as [[s2 j2] [t|e]] eqn:E2; apply linkBatch_mute in E2;
    (etransitivity; [apply emits_mute; etransitivity; [exact E1|exact E2]|]); [|simplify_eq; apply emits_mute, rollback_mute].
  destruct (record_created _ _ _ _) as [[c3 s3] o3] eqn:E3. destruct (settle_all _ _ _ _) as [[c4 s4] o4] eqn:E4. simplify_eq.
  etransitivity; [by eapply record_created_emits|]. etransitivity; [by eapply settle_all_emits|apply emits_mute; mute].
Qed.

Lemma AddEdges_emits edges (c c' : C) s s' r :
  scope_AddEdges edges c s = (c', s', r) -> emits (s, []) (s', effects_of (fun es => es) r).
Proof.
  unfold scope_AddEdges. destruct (link_edges _ _ _ s) as [[s1 j1] [t|e]] eqn:E1; apply link_edges_mute in E1; intros;
    (etransitivity; [apply emits_mute; exact E1|]); [|simplify_eq; apply emits_mute, rollback_mute].
  destruct (settle_all _ _ _ _) as [[c4 s4] o4] eqn:E4. simplify_eq. by eapply settle_all_emits.
Qed.

Lemma RemoveEdges_emits edges (c c' : C) s s' r :
  scope_RemoveEdges edges c s = (c', s', r) -> emits (s, []) (s', effects_of (fun es => es) r).
Proof.
  unfold scope_RemoveEdges. destruct (unlink_edges _ _ s) as [s1 [t|e]] eqn:E1; apply unlink_edges_mute in E1; intros;
    (etransitivity; [apply emits_mute; exact E1|]); [|by simplify_eq].
  destruct (settle_all _ _ _ _) as [[c4 s4] o4] eqn:E4. simplify_eq. by eapply settle_all_emits.
Qed.

Lemma terminate_all_emits ws st rs : forall (c c' : C) s s' out out',
  terminate_all ws st rs c s out = (c', s', out') -> emits (s, out) (s', out').
Proof.
  induction ws as [|w ws IH]; simpl; intros; [by simplify_eq|].
  destruct (terminate _ _ _ _ c s out) as [[c1 s1] o1] eqn:E1. etransitivity; [by eapply terminate_emits|by eapply IH].
Qed.

Lemma RemoveNode_emits nid policy (c c' : C) s s' r :
  scope_RemoveNode nid policy c s = (c', s', r) -> emits (s, []) (s', effects_of (fun es => es) r).
Proof.
  unfold scope_RemoveNode. intros E. destruct (lookup_id s nid) as [h|]; [|by simplify_eq].
  destruct (bool_decide _); [by simplify_eq|]. destruct (_ && _); [by simplify_eq|].
  destruct (if bool_decide (policy = CascadeFail) then _ else _) as [[c1 s1] o1] eqn:E1.
  assert (H1 : emits (s, []) (s1, o1)) by (destruct (bool_decide (policy = CascadeFail)); [by eapply terminate_all_emits|by simplify_eq]).
  destruct (if bool_decide (policy = CascadeDetach) then _ else _) as [[c2 s2] o2] eqn:E2. injection E as <- <- <-.
  etransitivity; [exact H1|]. etransitivity; [|apply (emits_mute s2); mute].
  etransitivity; [apply emits_mute, (drop_node_mute h nid)|]. destruct (bool_decide (policy = CascadeDetach)); [by eapply settle_all_emits|by simplify_eq].
Qed.

Lemma cancel_ids_emits ids : forall (c c' : C) s s' out out' e,
  cancel_ids ids c s out = (c', s', out', e) -> emits (s, out) (s', out').
Proof.
  induction ids as [|i ids IH]; simpl; intros c c' s s' out out' e E; [by simplify_eq|].
  destruct (lookup_id s i) as [h|]; [|by simplify_eq]. destruct (bool_decide _); [by eapply IH|].
  destruct (terminate _ _ _ _ c s out) as [[c1 s1] o1] eqn:E1. etransitivity; [by eapply terminate_emits|by eapply IH].
Qed.

Lemma Cancel_emits ids (c c' : C) s s' out e : scope_Cancel ids c s = (c', s', out, e) -> emits (s, []) (s', out).
Proof.
  unfold scope_Cancel. destruct (cancel_ids _ _ _ _) as [[[c1 s1] o1] [e1|]] eqn:E1; apply cancel_ids_emits in E1; intros; simplify_eq;
    [done|]. etransitivity; [exact E1|apply emits_mute; mute].
Qed.

Lemma cancel_handles_emits hs : forall (c c' : C) s s' out out',
  cancel_handles hs c s out = (c', s', out') -> emits (s, out) (s', out').
Proof.
  induction hs as [|h hs IH]; simpl; intros c c' s s' out out' E; [by simplify_eq|].
  destruct (bool_decide _); [by eapply IH|].
  destruct (terminate _ _ _ _ c s out) as [[c1 s1] o1] eqn:E1. etransitivity; [by eapply terminate_emits|by eapply IH].
Qed.

Lemma CancelScope_emits visit (c c' : C) s s' out : scope_CancelScope visit c s = (c', s', out) -> emits (s, []) (s', out).
Proof.
  unfold scope_CancelScope. destruct (cancel_handles _ _ _ _) as [[c1 s1] o1] eqn:E1. intros. simplify_eq.
  etransitivity; [by eapply cancel_handles_emits|apply emits_mute; mute].
Qed.

End Clocked.
