(* ===== verification/Trace.v ===== *)
(** * What an operation reads of the clock determines what it does

    A run of an operation consumes a trace of readings.  Another clock that
    supplies the same trace leads the operation to the same state and answer:
    this is what replaying a command log against recorded readings relies on,
    and what makes the operations of one scope independent of the other calls
    that advance the store's clock in between. *)
From S2P Require Import Prelude Types Config Heap Scope Topo Graph Lease Memory Machine.

Inductive reading :=
| RNow (x : Z)
| RJitter (n x : Z).

Section Consumes.
Context {C : Type} `{!ClockSource C}.

Inductive consumes : C -> list reading -> C -> Prop :=
| co_nil c : consumes c [] c
| co_now c x c1 L c2 : clk_Now c = (x, c1) -> consumes c1 L c2 -> consumes c (RNow x :: L) c2
| co_jitter c n x c1 L c2 : clk_Jitter n c = (x, c1) -> consumes c1 L c2 -> consumes c (RJitter n x :: L) c2.

Lemma consumes_app c L1 c1 L2 c2 : consumes c L1 c1 -> consumes c1 L2 c2 -> consumes c (L1 ++ L2) c2.
Proof. induction 1; simpl; eauto using consumes. Qed.

Lemma consumes_split L1 L2 : forall c c2, consumes c (L1 ++ L2) c2 ->
  exists c1, consumes c L1 c1 /\ consumes c1 L2 c2.
Proof.
  induction L1 as [|r L1 IH]; intros c c2 H; simpl in H; [eauto using consumes|].
  inversion H as [|? ? ? ? ? E1 H1|? ? ? ? ? ? E1 H1]; subst; apply IH in H1 as (c3 & ? & ?); eauto using consumes.
Qed.

End Consumes.

Section Traced.
Context {C : Type} `{!ClockSource C}.

(** From [c] to [c'], and any clock that supplies the same readings satisfies [Q]. *)
Definition traced (c c' : C) (Q : forall D : Type, ClockSource D -> D -> D -> Prop) : Prop :=
  exists L, consumes c L c' /\ forall (D : Type) (HD : ClockSource D) (d d' : D),
    consumes d L d' -> Q D HD d d'.

Lemma traced_ret c (Q : forall D : Type, ClockSource D -> D -> D -> Prop) :
  (forall D HD d, Q D HD d d) -> traced c c Q.
Proof. intros H. exists []. split; [constructor|]. intros D HD d d' Hd. inversion Hd; subst. apply H. Qed.

Lemma traced_bind c c1 c2 (Q1 Q2 Q : forall D : Type, ClockSource D -> D -> D -> Prop) :
  traced c c1 Q1 -> traced c1 c2 Q2 ->
  (forall D HD d d1 d2, Q1 D HD d d1 -> Q2 D HD d1 d2 -> Q D HD d d2) -> traced c c2 Q.
Proof.
  intros (L1 & A1 & B1) (L2 & A2 & B2) H. exists (L1 ++ L2). split; [by eapply consumes_app|].
  intros D HD d d' (d1 & H1 & H2)%consumes_split. eauto.
Qed.

Lemma traced_mono c c' (Q Q' : forall D : Type, ClockSource D -> D -> D -> Prop) :
  traced c c' Q -> (forall D HD d d', Q D HD d d' -> Q' D HD d d') -> traced c c' Q'.
Proof. intros (L & A & B) H. exists L. eauto. Qed.

Lemma traced_now c x c1 : clk_Now c = (x, c1) -> traced c c1 (fun D HD d d1 => clk_Now d = (x, d1)).
Proof.
  intros E. exists [RNow x]. split; [by eapply co_now; [done|constructor]|].
  intros D HD d d' H. inversion H as [|? ? d1 ? ? E1 H1|]; subst. by inversion H1; subst.
Qed.

Lemma traced_jitter n c x c1 : clk_Jitter n c = (x, c1) -> traced c c1 (fun D HD d d1 => clk_Jitter n d = (x, d1)).
Proof.
  intros E. exists [RJitter n x]. split; [by eapply co_jitter; [done|constructor]|].
  intros D HD d d' H. inversion H as [| |? ? ? d1 ? ? E1 H1]; subst. by inversion H1; subst.
Qed.

End Traced.

(** Nothing more is read. *)
Ltac tr_done := apply traced_ret; intros D HD d; simpl; try done.

(** A part that reads, then the rest, which starts where the part left off. *)
Ltac tr_seq := intros D HD d d1 d2 H1 H2; cbn beta iota zeta in *; rewrite H1; cbn beta iota zeta; exact H2.
Ltac tr_lift t := eapply traced_mono; [by eapply t|intros D HD d d' H; by rewrite H].
Ltac tr_first t := eapply traced_bind; [t| |tr_seq].

(** ** The functions of [scope.go] *)

Section Functions.
Context {C : Type} `{!ClockSource C}.

Lemma record_traced h k from (c c' : C) s s' ef :
  record h k from c s = (c', s', ef) -> traced c c' (fun D HD d d' => record h k from d s = (d', s', ef)).
Proof.
  unfold record. destruct (clk_Now c) as [now c1] eqn:E. destruct (record_at now h k from s) as [s1 ef1] eqn:E1. intros. simplify_eq.
  eapply traced_mono; [by apply traced_now|]. intros D HD d d' ->. by rewrite E1.
Qed.

Lemma notify_traced p st rs w (c c' : C) s s' q q' out out' :
  notify p st rs w c s q out = (c', s', q', out') ->
  traced c c' (fun D HD d d' => notify p st rs w d s q out = (d', s', q', out')).
Proof.
  unfold notify. destruct (markSatisfied w p st rs s) as [s1 ch]. destruct ch; simpl; [|by intros; simplify_eq; tr_done].
  intros E. destruct (phase (rec s1 w)) eqn:Ep; try (simplify_eq; by tr_done).
  all: destruct (Unsatisfiable _ _); [simplify_eq; by tr_done|]; destruct (Types.Ready _ _); [|simplify_eq; by tr_done].
  - rewrite bool_decide_eq_false_2 in * by done. destruct (record _ _ _ c _) as [[c2 s2] ef] eqn:E2. simplify_eq.
    tr_lift record_traced.
  - rewrite bool_decide_eq_true_2 in * by done. simplify_eq. tr_done.
Qed.

Lemma notify_all_traced p st rs ws : forall (c c' : C) s s' q q' out out',
  notify_all p st rs ws c s q out = (c', s', q', out') ->
  traced c c' (fun D HD d d' => notify_all p st rs ws d s q out = (d', s', q', out')).
Proof.
  induction ws as [|w ws IH]; simpl; intros c c' s s' q q' out out' E; [simplify_eq; by tr_done|].
  destruct (notify p st rs w c s q out) as [[[c1 s1] q1] out1] eqn:E1.
  tr_first ltac:(by eapply notify_traced). by eapply IH.
Qed.

Lemma terminate_loop_traced fuel : forall q (c c' : C) s s' out out',
  terminate_loop fuel q c s out = (c', s', out') ->
  traced c c' (fun D HD d d' => terminate_loop fuel q d s out = (d', s', out')).
Proof.
  induction fuel as [|fuel IH]; simpl; intros q c c' s s' out out' E; [simplify_eq; by tr_done|].
  destruct q as [|i q]; [simplify_eq; by tr_done|]. destruct (_ || _); [by eapply IH|].
  destruct (clk_Now c) as [now c1] eqn:E1. destruct (record _ _ _ c1 _) as [[c2 s2] ef] eqn:E2.
  destruct (notify_all _ _ _ _ c2 _ _ _) as [[[c3 s3] q3] out3] eqn:E3.
  tr_first ltac:(by apply traced_now). tr_first ltac:(by eapply record_traced).
  tr_first ltac:(by eapply notify_all_traced). by eapply IH.
Qed.

Lemma terminate_traced h st rs msg (c c' : C) s s' out out' :
  terminate h st rs msg c s out = (c', s', out') ->
  traced c c' (fun D HD d d' => terminate h st rs msg d s out = (d', s', out')).
Proof. apply terminate_loop_traced. Qed.

Lemma ready_traced h (c c' : C) s s' (out out' : list Effect) :
  (let '(c, s, ef) := record h EventReady StatusNew c (makeReady h s) in (c, s, out ++ [ef])) = (c', s', out') ->
  traced c c' (fun D HD d d' =>
    (let '(d, s, ef) := record h EventReady StatusNew d (makeReady h s) in (d, s, out ++ [ef])) = (d', s', out')).
Proof.
  destruct (record _ _ _ c _) as [[c2 s2] ef] eqn:E2. intros. simplify_eq.
  tr_lift record_traced.
Qed.

Lemma settle_traced h (c c' : C) s s' out out' :
  settle h c s out = (c', s', out') -> traced c c' (fun D HD d d' => settle h d s out = (d', s', out')).
Proof.
  unfold settle. intros E. destruct (phase (rec s h)) eqn:Ep; try (simplify_eq; by tr_done).
  all: destruct (Unsatisfiable _ _); [by apply terminate_traced|]; destruct (Types.Ready _ _).
  - rewrite bool_decide_eq_false_2 in * by done. by apply ready_traced.
  - rewrite bool_decide_eq_true_2 in * by done. simplify_eq. tr_done.
  - rewrite bool_decide_eq_true_2 in * by done. simplify_eq. tr_done.
  - rewrite bool_decide_eq_false_2 in * by done. simplify_eq. tr_done.
Qed.

Lemma settle_all_traced hs : forall (c c' : C) s s' out out',
  settle_all hs c s out = (c', s', out') -> traced c c' (fun D HD d d' => settle_all hs d s out = (d', s', out')).
Proof.
  induction hs as [|h hs IH]; simpl; intros c c' s s' out out' E; [simplify_eq; by tr_done|].
  destruct (settle h c s out) as [[c1 s1] out1] eqn:E1. tr_first ltac:(by eapply settle_traced). by eapply IH.
Qed.

Lemma promote_loop_traced fuel : forall now (c c' : C) s s' out out',
  promote_loop fuel now c s out = (c', s', out') ->
  traced c c' (fun D HD d d' => promote_loop fuel now d s out = (d', s', out')).
Proof.
  induction fuel as [|fuel IH]; simpl; intros now c c' s s' out out' E; [simplify_eq; by tr_done|].
  destruct (Pq.Peek (s_scheduled s)) as [h|]; [|simplify_eq; by tr_done].
  destruct (_ <? _)%Z; [simplify_eq; by tr_done|]. destruct (record _ _ _ c _) as [[c1 s1] ef] eqn:E1.
  tr_first ltac:(by eapply record_traced). by eapply IH.
Qed.

Lemma promoteScheduled_traced now (c c' : C) s s' out :
  promoteScheduled now c s = (c', s', out) -> traced c c' (fun D HD d d' => promoteScheduled now d s = (d', s', out)).
Proof. apply promote_loop_traced. Qed.

(** ** [lease.go] *)

Lemma Backoff_traced a b m (c c' : C) x :
  Backoff a b m (Some clk_Jitter) c = (x, c') -> traced c c' (fun D HD d d' => Backoff a b m (Some clk_Jitter) d = (x, d')).
Proof.
  unfold Backoff. cbv zeta. intros E. destruct (_ <=? _)%Z; [simplify_eq; by tr_done|]. by apply traced_jitter.
Qed.

Lemma failAttempt_traced h rs msg cfg now (c c' : C) s s' out out' :
  failAttempt h rs msg cfg now c s out = (c', s', out') ->
  traced c c' (fun D HD d d' => failAttempt h rs msg cfg now d s out = (d', s', out')).
Proof.
  unfold failAttempt. destruct (effectiveRetry _ _) as [[m b] dl]. cbv zeta. intros E.
  destruct (_ <=? _)%Z; [by apply terminate_traced|].
  destruct (Backoff _ _ _ _ c) as [delay c1] eqn:E1. destruct (record _ _ _ c1 _) as [[c2 s2] ef] eqn:E2. simplify_eq.
  tr_first ltac:(by apply Backoff_traced). tr_lift record_traced.
Qed.

Lemma reclaim_loop_traced fuel : forall now cfg limit n (c c' : C) s s' out out' n' more,
  reclaim_loop fuel now cfg limit n c s out = (c', s', out', n', more) ->
  traced c c' (fun D HD d d' => reclaim_loop fuel now cfg limit n d s out = (d', s', out', n', more)).
Proof.
  induction fuel as [|fuel IH]; simpl; intros now cfg limit n c c' s s' out out' n' more E; [simplify_eq; by tr_done|].
  destruct (_ <? _)%Z; [|simplify_eq; by tr_done]. destruct (Pq.Peek _) as [h|]; [|simplify_eq; by tr_done].
  destruct (_ <? _)%Z; [simplify_eq; by tr_done|]. destruct (failAttempt _ _ _ _ _ c _ _) as [[c1 s1] out1] eqn:E1.
  tr_first ltac:(by eapply failAttempt_traced). by eapply IH.
Qed.

Lemma reclaimExpired_traced now cfg limit (c c' : C) s s' out out' n more :
  reclaimExpired now cfg limit c s out = (c', s', out', n, more) ->
  traced c c' (fun D HD d d' => reclaimExpired now cfg limit d s out = (d', s', out', n, more)).
Proof. apply reclaim_loop_traced. Qed.

Lemma claim_loop_traced fuel : forall req cfg now want lf (c c' : C) s s' ls ls' out out',
  claim_loop fuel req cfg now want lf c s ls out = (c', s', ls', out') ->
  traced c c' (fun D HD d d' => claim_loop fuel req cfg now want lf d s ls out = (d', s', ls', out')).
Proof.
  induction fuel as [|fuel IH]; simpl; intros req cfg now want lf c c' s s' ls ls' out out' E; [simplify_eq; by tr_done|].
  destruct (_ <? _)%Z; [|simplify_eq; by tr_done]. destruct (_ && _); [simplify_eq; by tr_done|].
  destruct (popReady _ s) as [s1 [h|]] eqn:E1; [|simplify_eq; by tr_done].
  destruct (record _ _ _ c _) as [[c2 s2] ef] eqn:E2. tr_first ltac:(by eapply record_traced). by eapply IH.
Qed.

Lemma Claim_traced req (c c' : C) s s' r :
  scope_Claim req c s = (c', s', r) -> traced c c' (fun D HD d d' => scope_Claim req d s = (d', s', r)).
Proof.
  unfold scope_Claim. destruct (clk_Now c) as [now c0] eqn:E0.
  destruct (reclaimExpired _ _ _ c0 _ _) as [[[[c1 s1] o1] n1] m1] eqn:E1.
  destruct (promoteScheduled now c1 s1) as [[c2 s2] o2] eqn:E2.
  destruct (claim_loop _ _ _ _ _ _ c2 _ _ _) as [[[c3 s3] ls] o3] eqn:E3. intros. simplify_eq.
  tr_first ltac:(by apply traced_now). tr_first ltac:(by eapply reclaimExpired_traced).
  tr_first ltac:(by eapply promoteScheduled_traced). tr_lift claim_loop_traced.
Qed.

Lemma Sweep_traced limit (c c' : C) s s' r :
  scope_Sweep limit c s = (c', s', r) -> traced c c' (fun D HD d d' => scope_Sweep limit d s = (d', s', r)).
Proof.
  unfold scope_Sweep. destruct (clk_Now c) as [now c0] eqn:E0.
  destruct (reclaimExpired _ _ _ c0 _ _) as [[[[c1 s1] o1] n1] m1] eqn:E1.
  destruct (promoteScheduled now c1 s1) as [[c2 s2] o2] eqn:E2. intros. simplify_eq.
  tr_first ltac:(by apply traced_now). tr_first ltac:(by eapply reclaimExpired_traced).
  tr_lift promoteScheduled_traced.
Qed.

Lemma Extend_traced req (c c' : C) s s' r :
  scope_Extend req c s = (c', s', r) -> traced c c' (fun D HD d d' => scope_Extend req d s = (d', s', r)).
Proof.
  unfold scope_Extend. destruct (lookup_id s _); [|intros; simplify_eq; by tr_done].
  destruct (fenced _ _); [intros; simplify_eq; by tr_done|]. destruct (clk_Now c) as [now c0] eqn:E0. intros. simplify_eq.
  tr_lift traced_now.
Qed.

Lemma Complete_traced req (c c' : C) s s' r :
  scope_Complete req c s = (c', s', r) -> traced c c' (fun D HD d d' => scope_Complete req d s = (d', s', r)).
Proof.
  unfold scope_Complete. destruct (lookup_id s _); [|intros; simplify_eq; by tr_done].
  destruct (fenced _ _); [intros; simplify_eq; by tr_done|]. destruct (clk_Now c) as [now c0] eqn:E0. intros E.
  tr_first ltac:(by apply traced_now). destruct (co_Success req).
  - destruct (_ <? _)%Z; [simplify_eq; by tr_done|]. destruct (terminate _ _ _ _ c0 _ _) as [[c1 s1] o1] eqn:E1. simplify_eq.
    tr_lift terminate_traced.
  - set (rs := if bool_decide (co_Reason req = ReasonNone) then _ else _) in *. destruct (bool_decide (rs = ReasonSkipped)).
    + destruct (terminate _ _ _ _ c0 _ _) as [[c1 s1] o1] eqn:E1. simplify_eq.
      tr_lift terminate_traced.
    + destruct (failAttempt _ _ _ _ _ c0 _ _) as [[c1 s1] o1] eqn:E1. simplify_eq.
      tr_lift failAttempt_traced.
Qed.

(** ** [graph.go] *)

Lemma record_created_traced fresh : forall (c c' : C) s s' out out',
  record_created fresh c s out = (c', s', out') ->
  traced c c' (fun D HD d d' => record_created fresh d s out = (d', s', out')).
Proof.
  induction fresh as [|h fresh IH]; simpl; intros c c' s s' out out' E; [simplify_eq; by tr_done|].
  destruct (record _ _ _ c s) as [[c1 s1] ef] eqn:E1. tr_first ltac:(by eapply record_traced). by eapply IH.
Qed.

Lemma AddNodes_traced specs (c c' : C) s s' r :
  scope_AddNodes specs c s = (c', s', r) -> traced c c' (fun D HD d d' => scope_AddNodes specs d s = (d', s', r)).
Proof.
  unfold scope_AddNodes. destruct (s_sealed s); [intros; simplify_eq; by tr_done|].
  destruct (validateBatch _ _); [intros; simplify_eq; by tr_done|]. destruct (clk_Now c) as [now c0] eqn:E0. intros E.
  tr_first ltac:(by apply traced_now). destruct (materialise _ _ _ s) as [[s1 j1] [fresh|e]]; [|simplify_eq; by tr_done].
  destruct (linkBatch _ _ _ s1) as [[s2 j2] [t|e]]; [|simplify_eq; by tr_done].
  destruct (record_created _ c0 _ _) as [[c3 s3] o3] eqn:E3. destruct (settle_all _ c3 _ _) as [[c4 s4] o4] eqn:E4. simplify_eq.
  tr_first ltac:(by eapply record_created_traced). tr_lift settle_all_traced.
Qed.

Lemma AddEdges_traced edges (c c' : C) s s' r :
  scope_AddEdges edges c s = (c', s', r) -> traced c c' (fun D HD d d' => scope_AddEdges edges d s = (d', s', r)).
Proof.
  unfold scope_AddEdges. destruct (link_edges _ _ _ s) as [[s1 j1] [t|e]]; intros E; [|simplify_eq; by tr_done].
  destruct (settle_all _ c _ _) as [[c4 s4] o4] eqn:E4. simplify_eq.
  tr_lift settle_all_traced.
Qed.

Lemma RemoveEdges_traced edges (c c' : C) s s' r :
  scope_RemoveEdges edges c s = (c', s', r) -> traced c c' (fun D HD d d' => scope_RemoveEdges edges d s = (d', s', r)).
Proof.
  unfold scope_RemoveEdges. destruct (unlink_edges _ _ s) as [s1 [t|e]]; intros E; [|simplify_eq; by tr_done].
  destruct (settle_all _ c _ _) as [[c4 s4] o4] eqn:E4. simplify_eq.
  tr_lift settle_all_traced.
Qed.

Lemma terminate_all_traced ws st rs : forall (c c' : C) s s' out out',
  terminate_all ws st rs c s out = (c', s', out') ->
  traced c c' (fun D HD d d' => terminate_all ws st rs d s out = (d', s', out')).
Proof.
  induction ws as [|w ws IH]; simpl; intros c c' s s' out out' E; [simplify_eq; by tr_done|].
  destruct (terminate _ _ _ _ c s out) as [[c1 s1] o1] eqn:E1. tr_first ltac:(by eapply terminate_traced). by eapply IH.
Qed.

Lemma RemoveNode_traced nid policy (c c' : C) s s' r :
  scope_RemoveNode nid policy c s = (c', s', r) -> traced c c' (fun D HD d d' => scope_RemoveNode nid policy d s = (d', s', r)).
Proof.
  unfold scope_RemoveNode. destruct (lookup_id s nid) as [h|]; [|intros; simplify_eq; by tr_done].
  destruct (bool_decide _); [intros; simplify_eq; by tr_done|]. destruct (_ && _); [intros; simplify_eq; by tr_done|]. intros E.
  destruct policy; simpl in *.
  - simplify_eq. tr_done.
  - destruct (settle_all _ c _ _) as [[c4 s4] o4] eqn:E4. simplify_eq.
    tr_lift settle_all_traced.
  - destruct (terminate_all _ _ _ c _ _) as [[c4 s4] o4] eqn:E4. simplify_eq.
    tr_lift terminate_all_traced.
  - simplify_eq. tr_done.
Qed.

Lemma cancel_ids_traced ids : forall (c c' : C) s s' out out' e,
  cancel_ids ids c s out = (c', s', out', e) -> traced c c' (fun D HD d d' => cancel_ids ids d s out = (d', s', out', e)).
Proof.
  induction ids as [|i ids IH]; simpl; intros c c' s s' out out' e E; [simplify_eq; by tr_done|].
  destruct (lookup_id s i) as [h|]; [|simplify_eq; by tr_done]. destruct (bool_decide _); [by eapply IH|].
  destruct (terminate _ _ _ _ c s out) as [[c1 s1] o1] eqn:E1. tr_first ltac:(by eapply terminate_traced). by eapply IH.
Qed.

Lemma Cancel_traced ids (c c' : C) s s' out e :
  scope_Cancel ids c s = (c', s', out, e) -> traced c c' (fun D HD d d' => scope_Cancel ids d s = (d', s', out, e)).
Proof.
  unfold scope_Cancel. destruct (cancel_ids _ c _ _) as [[[c1 s1] o1] e1] eqn:E1. intros E.
  assert (c1 = c') as -> by (by destruct e1; simplify_eq).
  eapply traced_mono; [by eapply cancel_ids_traced|]. intros D HD d d' ->. by destruct e1; simplify_eq.
Qed.

Lemma cancel_handles_traced hs : forall (c c' : C) s s' out out',
  cancel_handles hs c s out = (c', s', out') -> traced c c' (fun D HD d d' => cancel_handles hs d s out = (d', s', out')).
Proof.
  induction hs as [|h hs IH]; simpl; intros c c' s s' out out' E; [simplify_eq; by tr_done|].
  destruct (bool_decide _); [by eapply IH|].
  destruct (terminate _ _ _ _ c s out) as [[c1 s1] o1] eqn:E1. tr_first ltac:(by eapply terminate_traced). by eapply IH.
Qed.

Lemma CancelScope_traced visit (c c' : C) s s' out :
  scope_CancelScope visit c s = (c', s', out) -> traced c c' (fun D HD d d' => scope_CancelScope visit d s = (d', s', out)).
Proof.
  unfold scope_CancelScope. destruct (cancel_handles _ c _ _) as [[c1 s1] o1] eqn:E1. intros. simplify_eq.
  tr_lift cancel_handles_traced.
Qed.

(** Every operation of a scope. *)
Lemma exec_traced o (c c' : C) s s' : exec o c s = (c', s') -> traced c c' (fun D HD d d' => exec o d s = (d', s')).
Proof.
  destruct o; simpl; intros E.
  all: try (simplify_eq; by tr_done).
  - destruct (scope_AddNodes _ c s) as [[c1 s1] r] eqn:E1. simplify_eq/=.
    tr_lift AddNodes_traced.
  - destruct (scope_AddEdges _ c s) as [[c1 s1] r] eqn:E1. simplify_eq/=.
    tr_lift AddEdges_traced.
  - destruct (scope_RemoveEdges _ c s) as [[c1 s1] r] eqn:E1. simplify_eq/=.
    tr_lift RemoveEdges_traced.
  - destruct (scope_RemoveNode _ _ c s) as [[c1 s1] r] eqn:E1. simplify_eq/=.
    tr_lift RemoveNode_traced.
  - destruct (scope_Cancel _ c s) as [[[c1 s1] r] e] eqn:E1. simplify_eq/=.
    tr_lift Cancel_traced.
  - destruct (scope_CancelScope _ c s) as [[c1 s1] r] eqn:E1. simplify_eq/=.
    tr_lift CancelScope_traced.
  - destruct (scope_Claim _ c s) as [[c1 s1] r] eqn:E1. simplify_eq/=.
    tr_lift Claim_traced.
  - destruct (scope_Complete _ c s) as [[c1 s1] r] eqn:E1. simplify_eq/=.
    tr_lift Complete_traced.
  - destruct (scope_Extend _ c s) as [[c1 s1] r] eqn:E1. simplify_eq/=.
    tr_lift Extend_traced.
  - destruct (scope_Sweep _ c s) as [[c1 s1] r] eqn:E1. simplify_eq/=.
    tr_lift Sweep_traced.
Qed.

End Functions.
