(* ===== verification/LogFrames.v ===== *)
(** * The bytes of the command log: [storage/file/log.go]

    A frame is the length of the payload, its checksum, both little-endian
    32-bit, and the payload.  [gob] and [crc32] are not part of the sources:
    the encoder, the decoder and the checksum are parameters. *)
From S2P Require Import Prelude Types GoText Config Scope Memory Snapshot File.

Definition frameHeaderSize : nat := 8.

(** [binary.LittleEndian.PutUint32] and [Uint32]. *)
Definition PutUint32 (v : Z) : bytes :=
  [byte_of v; byte_of (Z.shiftr v 8); byte_of (Z.shiftr v 16); byte_of (Z.shiftr v 24)].

Definition Uint32 (b : bytes) : Z :=
  match b with
  | b0 :: b1 :: b2 :: b3 :: _ =>
    Z.lor (of_byte b0) (Z.lor (Z.shiftl (of_byte b1) 8) (Z.lor (Z.shiftl (of_byte b2) 16) (Z.shiftl (of_byte b3) 24)))
  | _ => 0
  end.

Section Frames.
Context (encode : log_record -> bytes) (decode : bytes -> option log_record) (checksum : bytes -> Z).

(** What [append] writes. *)
Definition frame (r : log_record) : bytes :=
  let payload := encode r in
  PutUint32 (u32 (Z.of_nat (length payload))) ++ PutUint32 (checksum payload) ++ payload.

(** The loop of [readAll] on [data[off:]]: the records, and what is left when
    it stops.  Every iteration takes at least the header off. *)
Fixpoint read_frames (fuel : nat) (data : bytes) : list log_record * bytes :=
  match fuel with
  | O => ([], data)
  | S fuel =>
    if frameHeaderSize <=? length data then
      let n := Z.to_nat (Uint32 (take 4 data)) in
      let sum := Uint32 (take 4 (drop 4 data)) in
      let body := drop frameHeaderSize data in
      if (length body <? n) || negb (checksum (take n body) =? sum)%Z then ([], data)
      else
        match decode (take n body) with
        | None => ([], data)
        | Some r => let '(rs, rest) := read_frames fuel (drop n body) in (r :: rs, rest)
        end
    else ([], data)
  end.

(** [readAll]: the intact records, the bytes discarded, and the file truncated
    before them. *)
Definition readAll (data : bytes) : list log_record * Z * bytes :=
  let '(rs, rest) := read_frames (length data) data in
  (rs, Z.of_nat (length rest), take (length data - length rest) data).

(** [append] to the file. *)
Definition append_record (r : log_record) (data : bytes) : bytes := data ++ frame r.

End Frames.

(** ** Integers *)

Lemma byte_bit v k n : (0 <= k)%Z -> (0 <= n)%Z ->
  Z.testbit (Z.shiftr v k mod 256) (n - k) = (k <=? n)%Z && (n <? k + 8)%Z && Z.testbit v n.
Proof.
  intros Hk Hn. change 256%Z with (2 ^ 8)%Z. destruct (Z.leb_spec k n); simpl; [|by apply Z.testbit_neg_r; lia].
  destruct (Z.ltb_spec n (k + 8)); simpl; [|by apply Z.mod_pow2_bits_high; lia].
  rewrite Z.mod_pow2_bits_low by lia. rewrite Z.shiftr_spec by lia. f_equal. lia.
Qed.

Lemma Uint32_Put v rest : (0 <= v < 2 ^ 32)%Z -> Uint32 (take 4 (PutUint32 v ++ rest)) = v.
Proof.
  intros Hv. simpl. rewrite !of_byte_of. apply Z.bits_inj'. intros n Hn. rewrite !Z.lor_spec, !Z.shiftl_spec by lia.
  pose proof (byte_bit v 0 n ltac:(lia) Hn) as B0. rewrite Z.shiftr_0_r, Z.sub_0_r in B0.
  rewrite B0, (byte_bit v 8), (byte_bit v 16), (byte_bit v 24) by lia.
  assert (Hhigh : (32 <= n)%Z -> Z.testbit v n = false).
  { intros H. rewrite <- (Z.mod_small v (2 ^ 32)) by lia. apply Z.mod_pow2_bits_high. lia. }
  destruct (Z.testbit v n); [|by rewrite !andb_false_r]. rewrite !andb_true_r.
  destruct (decide (32 <= n)%Z) as [H|H]; [by specialize (Hhigh H)|].
  repeat split_cmp; simpl; try done; lia.
Qed.

(** ** Reading what was written *)

Section Reading.
Context (encode : log_record -> bytes) (decode : bytes -> option log_record) (checksum : bytes -> Z).

(** What the code relies on: decoding inverts encoding, a record is shorter
    than 4 GiB, and the checksum is a [uint32]. *)
Definition codec_ok (r : log_record) : Prop :=
  decode (encode r) = Some r /\ (Z.of_nat (length (encode r)) < 2 ^ 32)%Z /\ (0 <= checksum (encode r) < 2 ^ 32)%Z.

Lemma frame_header r rest : codec_ok r ->
  Uint32 (take 4 (frame encode checksum r ++ rest)) = Z.of_nat (length (encode r)) /\
  Uint32 (take 4 (drop 4 (frame encode checksum r ++ rest))) = checksum (encode r) /\
  drop frameHeaderSize (frame encode checksum r ++ rest) = encode r ++ rest /\
  length (frame encode checksum r) = 8 + length (encode r).
Proof.
  intros (_ & Hl & Hc). unfold frame. cbv zeta. rewrite u32_small by lia. rewrite <- !app_assoc. split_and!; [|by apply Uint32_Put|done|].
  - apply Uint32_Put. lia.
  - by rewrite !length_app.
Qed.

(** One intact frame. *)
Lemma read_frame fuel r rest : codec_ok r ->
  read_frames decode checksum (S fuel) (frame encode checksum r ++ rest) =
  let '(rs, left_) := read_frames decode checksum fuel rest in (r :: rs, left_).
Proof.
  intros Hr. destruct (frame_header r rest Hr) as (H1 & H2 & H3 & H4). cbn [read_frames]. rewrite H1, H2, H3, Nat2Z.id.
  rewrite (proj2 (Nat.leb_le _ _)) by (rewrite length_app, H4; unfold frameHeaderSize; lia).
  rewrite (proj2 (Nat.ltb_ge _ _)) by (rewrite length_app; lia). rewrite take_app_length, drop_app_length, Z.eqb_refl. simpl.
  by rewrite (proj1 Hr).
Qed.

(** A frame cut short. *)
Lemma read_torn fuel r torn : codec_ok r -> torn `prefix_of` frame encode checksum r -> torn <> frame encode checksum r ->
  read_frames decode checksum fuel torn = ([], torn).
Proof.
  intros Hr [rest E] Hne. destruct fuel as [|fuel]; [done|]. cbn [read_frames].
  destruct (Nat.leb_spec frameHeaderSize (length torn)) as [Hlen|Hlen]; [|done]. unfold frameHeaderSize in *.
  destruct (frame_header r [] Hr) as (H1 & _ & _ & H4). rewrite app_nil_r, E in H1.
  rewrite take_app_le in H1 by lia. rewrite H1, Nat2Z.id.
  assert (Hrest : length rest <> 0) by (destruct rest; [|done]; rewrite app_nil_r in E; congruence).
  rewrite E, length_app in H4. rewrite (proj2 (Nat.ltb_lt _ _)) by (rewrite length_drop; lia). done.
Qed.

Lemma read_all rs : forall fuel tail, Forall codec_ok rs -> length rs <= fuel ->
  read_frames decode checksum fuel (concat (frame encode checksum <$> rs) ++ tail) =
  let '(rs', left_) := read_frames decode checksum (fuel - length rs) tail in (rs ++ rs', left_).
Proof.
  induction rs as [|r rs IH]; intros fuel tail Hok Hf.
  - simpl. rewrite Nat.sub_0_r. by destruct (read_frames _ _ fuel tail).
  - inversion Hok as [|? ? Hr Hrs]; subst. destruct fuel as [|fuel]; simpl in Hf; [lia|].
    rewrite fmap_cons. cbn [concat]. rewrite <- app_assoc, read_frame by done. cbn [length Nat.sub]. rewrite IH by (done || lia).
    by destruct (read_frames _ _ (fuel - length rs) tail).
Qed.

(** C32: the log survives a crash in the middle of an append.  When the file
    holds the frames of some records and then a proper prefix of another
    frame, [readAll] returns exactly those records, reports the length of the
    torn frame, and cuts it off; without a torn frame it discards nothing. *)
Theorem torn_tail_discarded rs r torn :
  Forall codec_ok rs -> codec_ok r -> torn `prefix_of` frame encode checksum r -> torn <> frame encode checksum r ->
  let file := concat (frame encode checksum <$> rs) in
  file = foldl (fun data r => append_record encode checksum r data) [] rs /\
  readAll decode checksum (file ++ torn) = (rs, Z.of_nat (length torn), file).
Proof.
  intros Hrs Hr Hp Hne file. split.
  - assert (H : forall l data, foldl (fun data r => append_record encode checksum r data) data l = data ++ concat (frame encode checksum <$> l)).
    { induction l as [|x l IH]; intros data; csimpl; [by rewrite app_nil_r|]. rewrite IH. unfold append_record. by rewrite <- app_assoc. }
    by rewrite H.
  - unfold readAll. assert (Hlen : length rs <= length (file ++ torn)).
    { rewrite length_app. enough (length rs <= length file) by lia. unfold file. clear -Hrs.
      induction rs as [|x l IH]; [done|]. inversion Hrs as [|? ? Hx Hl]; subst. rewrite fmap_cons. cbn [concat length].
      rewrite length_app. destruct (frame_header x [] Hx) as (_ & _ & _ & ->). specialize (IH Hl). lia. }
    unfold file. rewrite read_all by done. rewrite (read_torn _ r torn) by done. rewrite app_nil_r. f_equal.
    fold file. rewrite length_app. replace (length file + length torn - length torn) with (length file) by lia.
    by rewrite take_app_length.
Qed.

End Reading.

(** A log of two records, with a third cut after five bytes. *)
Lemma torn_tail_discarded_witness :
  let encode := fun r : log_record => PutUint32 (r_Op r) in
  let decode := fun b : bytes => if (Uint32 b =? 2)%Z then Some (blank opSeal "jobs") else None in
  let checksum := fun b : bytes => Z.of_nat (length b) in
  let seal := blank opSeal "jobs" in
  readAll decode checksum (frame encode checksum seal ++ frame encode checksum seal ++ take 5 (frame encode checksum seal)) =
  ([seal; seal], 5%Z, frame encode checksum seal ++ frame encode checksum seal).
Proof.
  intros encode decode checksum seal.
  assert (Hok : codec_ok encode decode checksum seal) by (split; [vm_compute; reflexivity|split; [vm_compute; reflexivity|split; vm_compute; [discriminate|reflexivity]]]).
  destruct (torn_tail_discarded encode decode checksum [seal; seal] seal (take 5 (frame encode checksum seal))) as [_ H].
  - constructor; [exact Hok|]. constructor; [exact Hok|]. constructor.
  - exact Hok.
  - apply prefix_take.
  - vm_compute. discriminate.
  - exact H.
Defined.
