(* ===== verification/Progress.v ===== *)
(** * Fencing tokens

    The epoch of a lease is a fencing token.  [fence_of s i] is the epoch that
    node [i] carries, or would carry if it were created now; it never goes
    down, over removal and re-creation of the node too, and every grant raises
    it.  So a lease that was superseded can never be used again. *)
From S2P Require Import Prelude Types Config Heap HeapFacts Scope Topo TopoFacts Graph Lease Memory Invariant ScopeFacts DepFacts.
From S2P Require Import Evolve Terminate LeaseFacts EdgeFacts NodeFacts GraphFacts GraphOps Removal Machine.

Definition fence_of (s : scope) (i : string) : Z :=
  match s_index s !! i with
  | Some h => epoch (rec s h)
  | None => s_epochFloor s
  end.

(** No epoch in the scope is above [n]. *)
Definition epochs_below (n : Z) (s : scope) : Prop :=
  (0 <= s_epochFloor s <= n)%Z /\ forall h, live s h -> (0 <= epoch (rec s h) <= n)%Z.

(** From [s], whose epochs are below [n], to [s'], whose epochs are below [n']. *)
Definition raises (n n' : Z) (s s' : scope) : Prop :=
  epochs_below n s -> epochs_below n' s' /\ forall i, (fence_of s i <= fence_of s' i)%Z.

Lemma raises_trans n1 n2 n3 s1 s2 s3 : raises n1 n2 s1 s2 -> raises n2 n3 s2 s3 -> raises n1 n3 s1 s3.
Proof.
  intros R1 R2 H. destruct (R1 H) as [B1 F1]. destruct (R2 B1) as [B2 F2]. split; [done|].
  intros i. etrans; [apply F1|apply F2].
Qed.

Lemma epochs_weaken n n' s : (n <= n')%Z -> epochs_below n s -> epochs_below n' s.
Proof. intros Hn [H1 H2]. split; [lia|]. intros h Hh. specialize (H2 h Hh). lia. Qed.

Lemma index_kept s s' i h :
  graph_inv s -> graph_inv s' -> kept s s' -> s_index s !! i = Some h -> s_index s' !! i = Some h.
Proof.
  intros Hg Hg' K. rewrite (gi_index s Hg), (gi_index s' Hg'). intros [Hl <-].
  split; [by apply K|]. pose proof (kp_fixed _ _ K h Hl) as E. unfold fixed in E. congruence.
Qed.

Lemma kept_raises n s s' : graph_inv s -> graph_inv s' -> kept s s' -> raises n n s s'.
Proof.
  intros Hg Hg' K [B1 B2]. split.
  - split; [by rewrite (kp_floor _ _ K)|]. intros h Hh.
    destruct (decide (alive (rec s h) = true)) as [Ha|Ha].
    + apply live_alive in Ha. rewrite (kp_epoch _ _ K h Ha). by apply B2.
    + rewrite (kp_new _ _ K h Hh) by (by rewrite live_alive). done.
  - intros i. unfold fence_of. destruct (s_index s !! i) as [h|] eqn:E.
    + rewrite (index_kept s s' i h Hg Hg' K E). apply (gi_index s Hg) in E as [Hl _].
      by rewrite (kp_epoch _ _ K h Hl).
    + destruct (s_index s' !! i) as [h|] eqn:E'; [|by rewrite (kp_floor _ _ K)].
      apply (gi_index s' Hg') in E' as [Hl Hid]. rewrite (kp_new _ _ K h Hl); [done|]. intros Hl0.
      assert (s_index s !! i = Some h); [|congruence]. apply (gi_index s Hg). split; [done|].
      pose proof (kp_fixed _ _ K h Hl0) as Ef. unfold fixed in Ef. congruence.
Qed.

Lemma dropped_raises n h s s' : graph_inv s -> live s h -> dropped h s s' -> raises n n s s'.
Proof.
  intros Hg Hl D [B1 B2]. pose proof (B2 h Hl) as Bh. split.
  - split; [rewrite (dr_floor _ _ _ D); lia|]. intros x [Hx Hne]%(dr_live _ _ _ D).
    destruct (dr_rec _ _ _ D x Hne) as [d ->]. by apply B2.
  - intros i. unfold fence_of. rewrite (dr_index _ _ _ D), (dr_floor _ _ _ D), lookup_delete.
    case_decide as Ei.
    + assert (s_index s !! i = Some h) as -> by (apply (gi_index s Hg); by split). lia.
    + destruct (s_index s !! i) as [x|] eqn:E; [|lia].
      apply (gi_index s Hg) in E as [Hx Hid]. assert (x <> h) as Hne by congruence.
      by destruct (dr_rec _ _ _ D x Hne) as [d ->].
Qed.

Lemma collected_raises n cut s s' : graph_inv s -> collected cut s s' -> raises n n s s'.
Proof.
  intros Hg [I L G R H E [F1 F2] B X _] [B1 B2]. pose proof (bi_graph _ _ (inv_base _ I)) as Hg'. split.
  - split; [split; [lia|]|].
    + apply B; [lia|]. intros x Hx. by apply B2.
    + intros x Hx. rewrite R by done. by apply B2, L.
  - intros i. unfold fence_of. destruct (s_index s !! i) as [h|] eqn:Ei.
    + destruct (s_index s' !! i) as [h'|] eqn:Ei'.
      * assert (h' = h) as -> by (apply X in Ei'; congruence).
        apply (gi_index s' Hg') in Ei' as [Hl _]. by rewrite R.
      * apply (gi_index s Hg) in Ei as [Hl Hid]. apply F2; [done|]. intros Hl'.
        assert (s_index s' !! i = Some h); [|congruence]. apply (gi_index s' Hg'). by rewrite R.
    + destruct (s_index s' !! i) as [h'|] eqn:Ei'; [apply X in Ei'; congruence|lia].
Qed.

Lemma granted_raises kinds w now d hs n s s' :
  granted kinds w now d hs s s' -> graph_inv s -> (n + 1 < 2 ^ 64)%Z ->
  raises n (n + 1) s s' /\
  (epochs_below n s -> forall h, h ∈ hs -> epoch (rec s' h) = (epoch (rec s h) + 1)%Z).
Proof.
  intros G Hg Hn.
  assert (Hnew : epochs_below n s -> forall h, h ∈ hs -> epoch (rec s' h) = (epoch (rec s h) + 1)%Z).
  { intros [B1 B2] h Hh. destruct (gr_new _ _ _ _ _ _ _ G h Hh) as ([[Hl _] _] & -> & _). simpl.
    specialize (B2 h Hl). apply u64_small. lia. }
  split; [|done]. intros B. pose proof (Hnew B) as Hnew'. destruct B as [B1 B2].
  assert (Hep : forall x, live s x -> (epoch (rec s x) <= epoch (rec s' x) <= n + 1)%Z).
  { intros x Hx. specialize (B2 x Hx). destruct (decide (x ∈ hs)) as [Hin|Hin]; [rewrite Hnew' by done; lia|].
    destruct (gr_old _ _ _ _ _ _ _ G x Hin) as [-> _]. lia. }
  destruct (gr_misc _ _ _ _ _ _ _ G) as (Ef & _). pose proof (gr_graph _ _ _ _ _ _ _ G) as Sg. split.
  - split; [lia|]. intros x Hx%(sg_live _ _ Sg). pose proof (Hep x Hx). specialize (B2 x Hx). lia.
  - intros i. unfold fence_of. rewrite (proj1 (sg_index _ _ Sg)), Ef.
    destruct (s_index s !! i) as [h|] eqn:E; [|lia]. apply (gi_index s Hg) in E as [Hl _]. by apply Hep.
Qed.

(** One more grant is possible per call of [Claim]. *)
Definition grants (o : op) : Z := match o with OpClaim _ => 1 | _ => 0 end.

Section Clocked.
Context {C : Type} `{!ClockSource C}.

Lemma step_ok_raises n X s s' : inv s -> step_ok X s s' -> raises n n s s'.
Proof. intros Hi S. apply kept_raises; [apply Hi|apply S|apply evolves_kept, S]. Qed.

Lemma exec_raises o (c : C) s n :
  inv s -> admissible o s -> (n + grants o < 2 ^ 64)%Z -> raises n (n + grants o) s (snd (exec o c s)).
Proof.
  intros Hi Ha Hn. pose proof (exec_inv o c s Hi Ha) as Hi'. pose proof (bi_graph _ _ (inv_base _ Hi)) as Hg.
  pose proof (bi_graph _ _ (inv_base _ Hi')) as Hg'.
  destruct o; simpl in *; rewrite ?Z.add_0_r; try open_op; simpl in *.
  - pose proof (AddNodes_ok _ _ _ _ _ _ E Hi Ha) as H. apply kept_raises; [done..|].
    destruct r; [apply H|apply restored_kept, H].
  - pose proof (AddEdges_ok _ _ _ _ _ _ E Hi) as H. apply kept_raises; [done..|].
    destruct r; [apply H|apply restored_kept, H].
  - apply kept_raises; [done..|]. apply (RemoveEdges_ok _ _ _ _ _ _ E Hi).
  - pose proof (RemoveNode_ok _ _ _ _ _ _ _ E Hi) as H. destruct r; [|subst; by intros ?].
    destruct H as (h & s1 & s2 & [H1 H2 H3 H4 H5 H6 H7 H8]).
    eapply raises_trans; [by eapply step_ok_raises|]. eapply raises_trans; [eapply dropped_raises; [|..|exact H6]|].
    + apply H4.
    + apply (ev_live _ _ (so_evolves _ _ _ H4)). by apply (lookup_live s nid h).
    + eapply step_ok_raises; [apply H6|exact H7].
  - destruct (Cancel_ok _ _ _ _ _ _ _ E Hi) as [H _]. by eapply step_ok_raises.
  - destruct (CancelScope_ok _ _ _ _ _ _ E Hi Ha) as [H _]. by eapply step_ok_raises.
  - destruct (Claim_ok _ _ _ _ _ _ E Hi) as (s1 & hs & [H1 H2 H3 H4 H5] & _).
    eapply raises_trans; [by eapply step_ok_raises|]. eapply granted_raises; [exact H3|apply H1|done].
  - pose proof (Complete_ok _ _ _ _ _ _ E Hi) as H. destruct r; [|subst; by intros ?].
    destruct H as (h & _ & H & _). by eapply step_ok_raises.
  - pose proof (Extend_ok _ _ _ _ _ _ E Hi) as H. destruct r; [|subst; by intros ?].
    destruct H as (h & _ & H & _ & _). apply kept_raises; [done..|]. by apply evolves_kept, sd_evolves.
  - eapply step_ok_raises; [done|]. apply (Sweep_ok _ _ _ _ _ _ E Hi).
  - eapply collected_raises; [done|]. apply (CollectTerminal_ok _ _ _ _ _ _ _ E Hi Ha).
  - intros B. by split.
  - intros B. by split.
Qed.

(** Over a run, with one more possible grant per [Claim]. *)
Definition total_grants (os : list op) : Z := foldr (fun o n => (grants o + n)%Z) 0%Z os.

Lemma grants_nonneg o : (0 <= grants o)%Z.
Proof. by destruct o. Qed.

Lemma total_grants_nonneg os : (0 <= total_grants os)%Z.
Proof. induction os as [|o os IH]; simpl; [done|]. pose proof (grants_nonneg o). lia. Qed.

Lemma steps_raises os (cs cs' : C * scope) : steps os cs cs' -> forall n,
  inv (snd cs) -> (n + total_grants os < 2 ^ 64)%Z -> raises n (n + total_grants os) (snd cs) (snd cs').
Proof.
  induction 1 as [|o os cs1 cs2 cs3 [c s Ha] _ IH]; intros n Hi Hn; simpl in *.
  { rewrite Z.add_0_r. by intros B. }
  pose proof (total_grants_nonneg os). eapply raises_trans; [apply exec_raises; [done|done|lia]|].
  rewrite Z.add_assoc. apply IH; [by apply exec_inv|lia].
Qed.

(** A lease is stale when the node's fencing token has moved past it. *)
Definition stale (s : scope) (l : Lease) : Prop := (l_Epoch l < fence_of s (l_NodeID l))%Z.

Lemma stale_refused l s h : stale s l -> lookup_id s (l_NodeID l) = Some h -> fenced (rec s h) l = true.
Proof.
  unfold stale, fence_of, lookup_id. intros Hl E. rewrite E in Hl. unfold fenced.
  apply orb_true_iff. right. apply negb_true_iff, Z.eqb_neq. lia.
Qed.

Lemma stale_Complete req (c : C) s :
  stale s (co_Lease req) ->
  exists e, scope_Complete req c s = (c, s, Fail (Err e)) /\ (e = ErrNotFound \/ e = ErrLeaseMismatch).
Proof.
  intros Hs. unfold scope_Complete. destruct (lookup_id _ _) as [h|] eqn:E; [|eauto].
  rewrite (stale_refused _ s h Hs E). eauto.
Qed.

Lemma stale_Extend req (c : C) s :
  stale s (ex_Lease req) ->
  exists e, scope_Extend req c s = (c, s, Fail (Err e)) /\ (e = ErrNotFound \/ e = ErrLeaseMismatch).
Proof.
  intros Hs. unfold scope_Extend. destruct (lookup_id _ _) as [h|] eqn:E; [|eauto].
  rewrite (stale_refused _ s h Hs E). eauto.
Qed.

(** A lease carries the node's token, which the grant has just raised. *)
Lemma Claim_fence req (c c' : C) s s' r l n :
  scope_Claim req c s = (c', s', r) -> inv s -> epochs_below n s -> (n + 1 < 2 ^ 64)%Z -> l ∈ cl_Leases r ->
  fence_of s' (l_NodeID l) = l_Epoch l /\ (fence_of s (l_NodeID l) < l_Epoch l)%Z.
Proof.
  intros E Hi B Hn Hl. destruct (Claim_ok _ _ _ _ _ _ E Hi) as (s1 & hs & [H1 _ G _ _] & El). rewrite El in Hl.
  apply list_elem_of_fmap in Hl as (h & -> & Hh). simpl.
  pose proof (gi_index s' (bi_graph _ _ (inv_base _ (gr_inv _ _ _ _ _ _ _ G)))) as X'.
  destruct (gr_new _ _ _ _ _ _ _ G h Hh) as ([[Hl1 _] _] & _ & _).
  pose proof (gr_graph _ _ _ _ _ _ _ G) as Sg.
  assert (E' : s_index s' !! id (rec s' h) = Some h) by (apply X'; split; [by apply (sg_live _ _ Sg)|done]).
  assert (E1 : s_index s1 !! id (rec s' h) = Some h) by (by rewrite <- (proj1 (sg_index _ _ Sg))).
  destruct (step_ok_raises n _ _ _ Hi H1 B) as [B1 F1]. specialize (F1 (id (rec s' h))).
  destruct (granted_raises _ _ _ _ _ n _ _ G) as [_ R]; [apply H1|done|]. specialize (R B1 h Hh).
  unfold fence_of in *. rewrite E'. rewrite E1 in F1. split; [done|lia].
Qed.

Lemma Claim_raises req (c c' : C) s s' r n :
  scope_Claim req c s = (c', s', r) -> inv s -> epochs_below n s -> (n + 1 < 2 ^ 64)%Z ->
  inv s' /\ epochs_below (n + 1) s'.
Proof.
  intros E Hi B Hn. pose proof (exec_inv (OpClaim req) c s Hi I) as Hi'.
  pose proof (exec_raises (OpClaim req) c s n Hi I Hn B) as [B' _]. simpl in *. by rewrite E in *.
Qed.

Lemma newScope_epochs name cap cfg : epochs_below 0 (newScope name cap cfg).
Proof. split; [done|]. intros h [Hl _]. simpl in Hl. lia. Qed.

End Clocked.

(** * What every operation of a scope preserves

    Two facts about single steps that hold for each of the operations of
    [Machine]: the outcome of a terminal node is final, and a node that was
    never claimed is ready exactly when its trigger rule says so. *)

(** ** Outcomes are final *)

(** A terminal node of [s] is gone from [s'], or is there with its outcome. *)
Definition final (s s' : scope) : Prop := forall i h,
  s_index s !! i = Some h -> phase (rec s h) = PhaseDone ->
  s_index s' !! i = None \/ (s_index s' !! i = Some h /\ outcome (rec s' h) = outcome (rec s h)).

Lemma final_refl s : final s s.
Proof. intros i h Hi _. by right. Qed.

Lemma final_kept s s' : graph_inv s -> graph_inv s' -> kept s s' -> final s s'.
Proof.
  intros Hg Hg' K i h Hi Hd. right. split; [by apply (index_kept s)|].
  apply (gi_index s Hg) in Hi as []. by apply (kp_done _ _ K).
Qed.

Lemma final_step X s s' : inv s -> step_ok X s s' -> final s s'.
Proof. intros Hi S. apply final_kept; [apply Hi|apply S|apply evolves_kept, S]. Qed.

Lemma outcome_phase r r' : outcome r' = outcome r -> phase r = PhaseDone -> phase r' = PhaseDone.
Proof. unfold outcome. congruence. Qed.

Lemma final_trans s1 s2 s3 :
  (forall i, s_index s2 !! i = None -> s_index s3 !! i = None) -> final s1 s2 -> final s2 s3 -> final s1 s3.
Proof.
  intros Hn F1 F2 i h Hi Hd. destruct (F1 i h Hi Hd) as [H|[H1 H2]]; [left; auto|].
  destruct (F2 i h H1) as [H|[H3 H4]]; [by eapply outcome_phase|by left|right]. split; [done|congruence].
Qed.

Lemma final_dropped h s s' : inv s -> live s h -> dropped h s s' -> final s s'.
Proof.
  intros Hi Hl D i x Hx Hd. rewrite (dr_index _ _ _ D), lookup_delete. case_decide as Ei; [by left|right].
  split; [done|]. apply (gi_index s (bi_graph _ _ (inv_base _ Hi))) in Hx as [Hx Hid].
  assert (x <> h) as Hne by congruence. by destruct (dr_rec _ _ _ D x Hne) as [d ->].
Qed.

Lemma final_collected cut s s' : collected cut s s' -> final s s'.
Proof.
  intros K i h Hi Hd. destruct (s_index s' !! i) as [h'|] eqn:E; [right|by left].
  assert (h' = h) as -> by (apply (co_index _ _ _ K) in E; congruence). split; [done|].
  pose proof (bi_graph _ _ (inv_base _ (co_inv _ _ _ K))) as Hg'.
  apply (gi_index s' Hg') in E as [Hl _]. by rewrite (co_rec _ _ _ K).
Qed.

Lemma final_granted kinds w now d hs s s' : granted kinds w now d hs s s' -> final s s'.
Proof.
  intros G i h Hi Hd. right. rewrite (proj1 (sg_index _ _ (gr_graph _ _ _ _ _ _ _ G))). split; [done|].
  by rewrite (granted_done _ _ _ _ _ _ _ _ G Hd).
Qed.

(** ** Attempts count grants *)

(** The node [i] of [s] is gone from [s'], or is there with [n] more attempts. *)
Definition tried (i : string) (n : Z) (s s' : scope) : Prop := forall h, s_index s !! i = Some h ->
  s_index s' !! i = None \/
  (s_index s' !! i = Some h /\ retry (rec s' h) = retry (rec s h) /\ attempt (rec s' h) = (attempt (rec s h) + n)%Z).

Lemma fixed_retry r r' : fixed r' = fixed r -> retry r' = retry r.
Proof. unfold fixed. congruence. Qed.

Lemma tried_refl i s : tried i 0 s s.
Proof. intros h Hh. right. split_and!; [done..|lia]. Qed.

Lemma tried_kept i s s' : graph_inv s -> graph_inv s' -> kept s s' -> tried i 0 s s'.
Proof.
  intros Hg Hg' K h Hi. right. split; [by apply (index_kept s)|]. apply (gi_index s Hg) in Hi as [Hl _].
  rewrite (kp_attempt _ _ K h Hl), Z.add_0_r. split; [apply fixed_retry, (kp_fixed _ _ K h Hl)|done].
Qed.

Lemma tried_step i X s s' : inv s -> step_ok X s s' -> tried i 0 s s'.
Proof. intros Hi S. apply tried_kept; [apply Hi|apply S|apply evolves_kept, S]. Qed.

Lemma tried_trans i n m s1 s2 s3 :
  (s_index s2 !! i = None -> s_index s3 !! i = None) -> tried i n s1 s2 -> tried i m s2 s3 -> tried i (n + m) s1 s3.
Proof.
  intros Hn T1 T2 h Hi. destruct (T1 h Hi) as [H|(H1 & H2 & H3)]; [left; auto|].
  destruct (T2 h H1) as [H|(H4 & H5 & H6)]; [by left|right]. split_and!; [done|congruence|lia].
Qed.

Lemma tried_dropped i h s s' : inv s -> live s h -> dropped h s s' -> tried i 0 s s'.
Proof.
  intros Hi Hl D x Hx. rewrite (dr_index _ _ _ D), lookup_delete. case_decide as Ei; [by left|right].
  apply (gi_index s (bi_graph _ _ (inv_base _ Hi))) in Hx as [Hx Hid]. rewrite Z.add_0_r.
  split; [by apply (gi_index s (bi_graph _ _ (inv_base _ Hi)))|].
  assert (x <> h) as Hne by congruence. by destruct (dr_rec _ _ _ D x Hne) as [d ->].
Qed.

Lemma tried_collected i cut s s' : collected cut s s' -> tried i 0 s s'.
Proof.
  intros K h Hi. destruct (s_index s' !! i) as [h'|] eqn:E; [right|by left].
  assert (h' = h) as -> by (apply (co_index _ _ _ K) in E; congruence). split; [done|].
  pose proof (bi_graph _ _ (inv_base _ (co_inv _ _ _ K))) as Hg'.
  apply (gi_index s' Hg') in E as [Hl _]. rewrite (co_rec _ _ _ K) by done. split; [done|lia].
Qed.

(** How many of the leases are on [i]. *)
Definition leases_on (i : string) (ls : list Lease) : nat := length (filter (fun l => l_NodeID l = i) ls).

Lemma leases_on_one i ls : NoDup (l_NodeID <$> ls) -> leases_on i ls = if decide (i ∈ l_NodeID <$> ls) then 1 else 0.
Proof.
  unfold leases_on. induction ls as [|l ls IH]; simpl; [done|]. intros [Hn Hd]%NoDup_cons. rewrite filter_cons. specialize (IH Hd).
  destruct (decide (l_NodeID l = i)) as [<-|Hne].
  - rewrite (decide_True (P := _ ∈ _ :: _)) by left. simpl. rewrite IH. by rewrite decide_False.
  - rewrite IH. destruct (decide (i ∈ l_NodeID <$> ls)) as [H|H].
    + by rewrite decide_True by (by right).
    + rewrite decide_False; [done|]. by intros [?|?]%elem_of_cons.
Qed.

Lemma granted_ids kinds w now d hs s s' : granted kinds w now d hs s s' -> NoDup (l_NodeID <$> (lease_of s' <$> hs)).
Proof.
  intros G. pose proof (gr_graph _ _ _ _ _ _ _ G) as Sg. pose proof (bi_graph _ _ (inv_base _ (gr_inv _ _ _ _ _ _ _ G))) as Hg'.
  assert (Hlv : forall h, h ∈ hs -> live s' h) by (intros h Hh; apply (sg_live _ _ Sg), (gr_new _ _ _ _ _ _ _ G h Hh)).
  rewrite <- list_fmap_compose. apply NoDup_fmap_on; [|apply G]. intros x y Hx Hy Exy. simpl in Exy.
  assert (s_index s' !! id (rec s' x) = Some x) by (apply (gi_index s' Hg'); auto).
  assert (s_index s' !! id (rec s' y) = Some y) by (apply (gi_index s' Hg'); auto). congruence.
Qed.

(** A limit that an [uint32] holds. *)
Definition limited (i : string) (s : scope) : Prop :=
  forall h, s_index s !! i = Some h -> (0 < rp_MaxAttempts (retry (rec s h)) < 2 ^ 32)%Z.

Lemma tried_granted i kinds w now d hs s s' :
  granted kinds w now d hs s s' -> inv s -> limited i s -> tried i (Z.of_nat (leases_on i (lease_of s' <$> hs))) s s'.
Proof.
  intros G Hi Hlim h Hh. right. pose proof (gr_graph _ _ _ _ _ _ _ G) as Sg. rewrite (proj1 (sg_index _ _ Sg)). split; [done|].
  pose proof (bi_graph _ _ (inv_base _ (gr_inv _ _ _ _ _ _ _ G))) as Hg'. specialize (Hlim h Hh).
  assert (Hh' : s_index s' !! i = Some h) by (by rewrite (proj1 (sg_index _ _ Sg))).
  pose proof Hh' as [Hl' Hid]%(gi_index s' Hg'). rewrite leases_on_one by (by eapply granted_ids).
  assert (Hin : i ∈ l_NodeID <$> (lease_of s' <$> hs) <-> h ∈ hs).
  { rewrite <- list_fmap_compose, list_elem_of_fmap. split; [|intros H; by exists h].
    intros (x & Ex & Hx). simpl in Ex. replace h with x; [done|].
    assert (s_index s' !! i = Some x); [|congruence]. apply (gi_index s' Hg'). split; [|done].
    apply (sg_live _ _ Sg), (gr_new _ _ _ _ _ _ _ G x Hx). }
  case_decide as Hd; rewrite Hin in Hd.
  - destruct (gr_new _ _ _ _ _ _ _ G h Hd) as ([[Hl Hp] _] & -> & _). split; [done|]. simpl.
    destruct (bi_status _ _ (inv_base _ Hi) h Hl) as (_ & Hr & _ & Hm). specialize (Hm ltac:(lia)). rewrite bool_decide_false in Hm by (rewrite Hp; naive_solver).
    unfold bumpAttempt, max_u32, u32 in *. destruct (Z.eqb_spec (attempt (rec s h)) (2 ^ 32 - 1)); [lia|]. rewrite Z.mod_small; lia.
  - destruct (gr_old _ _ _ _ _ _ _ G h Hd) as [-> _]. split; [done|lia].
Qed.

(** ** Nodes are where their rule puts them *)

Section Clocked.
Context {C : Type} `{!ClockSource C}.

(** The calls that leave every node settled: a [RemoveEdges] that succeeds, a
    [RemoveNode] with one of the named policies, any other operation. *)
Definition settles (o : op) (c : C) (s : scope) : Prop :=
  match o with
  | OpRemoveEdges edges => exists effects, snd (scope_RemoveEdges edges c s) = Ok effects
  | OpRemoveNode _ policy => policy = CascadeReject \/ policy = CascadeDetach \/ policy = CascadeFail
  | _ => True
  end.

Lemma step_all_settled X s s' : step_ok X s s' -> all_settled s -> all_settled s'.
Proof. intros S Ha x. apply S, Ha. Qed.

Lemma collected_settled cut s s' : collected cut s s' -> all_settled s -> all_settled s'.
Proof.
  intros K Ha x. split; intros [Hl Hp]; pose proof (co_rec _ _ _ K x Hl) as E; rewrite E in *;
    apply (Ha x); (split; [by apply (co_live _ _ _ K)|done]).
Qed.

Lemma exec_settled o c s :
  inv s -> admissible o s -> settles o c s -> all_settled s -> all_settled (snd (exec o c s)).
Proof.
  intros Hi Ha Hs. destruct o; simpl in *; try open_op; simpl in *.
  - pose proof (AddNodes_ok _ _ _ _ _ _ E Hi Ha) as H. destruct r; [apply H|].
    intros Hall x. by apply (restored_settled s); [apply H|].
  - pose proof (AddEdges_ok _ _ _ _ _ _ E Hi) as H. destruct r; [apply H|].
    intros Hall x. by apply (restored_settled s); [apply H|].
  - destruct (RemoveEdges_ok _ _ _ _ _ _ E Hi) as [_ H]. destruct Hs as [ef Hs].
    by subst r.
  - pose proof (RemoveNode_ok _ _ _ _ _ _ _ E Hi) as H. destruct r; [|by subst].
    destruct H as (h & s1 & s2 & H). by apply (rm_settled _ _ _ _ _ _ _ H).
  - destruct (Cancel_ok _ _ _ _ _ _ _ E Hi) as [H _]. by eapply step_all_settled.
  - destruct (CancelScope_ok _ _ _ _ _ _ E Hi Ha) as [H _]. by eapply step_all_settled.
  - destruct (Claim_ok _ _ _ _ _ _ E Hi) as (s1 & hs & H & _). intros Hall x.
    eapply granted_settled; [apply H|]. by eapply step_all_settled; [apply H|].
  - pose proof (Complete_ok _ _ _ _ _ _ E Hi) as H. destruct r; [|by subst].
    destruct H as (h & _ & H & _). by eapply step_all_settled.
  - pose proof (Extend_ok _ _ _ _ _ _ E Hi) as H. destruct r; [|by subst].
    destruct H as (h & _ & H & _ & _). intros Hall x. by apply (sd_settled _ _ H).
  - eapply step_all_settled, (Sweep_ok _ _ _ _ _ _ E Hi).
  - eapply collected_settled, (CollectTerminal_ok _ _ _ _ _ _ _ E Hi Ha).
  - intros Hall x. apply (sc_settled _ _ (Seal_core s)), Hall.
  - done.
Qed.

Lemma exec_final o c s : inv s -> admissible o s -> final s (snd (exec o c s)).
Proof.
  intros Hi Ha. pose proof (exec_inv o c s Hi Ha) as Hi'. pose proof (bi_graph _ _ (inv_base _ Hi)) as Hg.
  pose proof (bi_graph _ _ (inv_base _ Hi')) as Hg'.
  destruct o; simpl in *; try open_op; simpl in *.
  - pose proof (AddNodes_ok _ _ _ _ _ _ E Hi Ha) as H. apply final_kept; [done..|].
    destruct r; [apply H|apply restored_kept, H].
  - pose proof (AddEdges_ok _ _ _ _ _ _ E Hi) as H. apply final_kept; [done..|].
    destruct r; [apply H|apply restored_kept, H].
  - apply final_kept; [done..|]. apply (RemoveEdges_ok _ _ _ _ _ _ E Hi).
  - pose proof (RemoveNode_ok _ _ _ _ _ _ _ E Hi) as H. destruct r; [|subst; apply final_refl].
    destruct H as (h & s1 & s2 & [H1 H2 H3 H4 H5 H6 H7 H8]).
    assert (Hl1 : live s1 h).
    { apply (ev_live _ _ (so_evolves _ _ _ H4)). by apply (lookup_live s nid h). }
    eapply final_trans; [|by eapply final_step|].
    { intros i Hn. rewrite (proj1 (sg_index _ _ (ev_graph _ _ (so_evolves _ _ _ H7)))).
      by rewrite (dr_index _ _ _ H6), lookup_delete_None; right. }
    eapply final_trans; [|eapply final_dropped; [apply H4|done|done]|eapply final_step; [apply H6|done]].
    intros i Hn. by rewrite (proj1 (sg_index _ _ (ev_graph _ _ (so_evolves _ _ _ H7)))).
  - destruct (Cancel_ok _ _ _ _ _ _ _ E Hi) as [H _]. by eapply final_step.
  - destruct (CancelScope_ok _ _ _ _ _ _ E Hi Ha) as [H _]. by eapply final_step.
  - destruct (Claim_ok _ _ _ _ _ _ E Hi) as (s1 & hs & [H1 H2 H3 H4 H5] & _).
    eapply final_trans; [|by eapply final_step|by eapply final_granted].
    intros i. by rewrite (proj1 (sg_index _ _ (gr_graph _ _ _ _ _ _ _ H3))).
  - pose proof (Complete_ok _ _ _ _ _ _ E Hi) as H. destruct r; [|subst; apply final_refl].
    destruct H as (h & _ & H & _). by eapply final_step.
  - pose proof (Extend_ok _ _ _ _ _ _ E Hi) as H. destruct r; [|subst; apply final_refl].
    destruct H as (h & _ & H & _ & _). apply final_kept; [done..|]. by apply evolves_kept, sd_evolves.
  - eapply final_step; [done|]. apply (Sweep_ok _ _ _ _ _ _ E Hi).
  - eapply final_collected, (CollectTerminal_ok _ _ _ _ _ _ _ E Hi Ha).
  - intros i h Hh _. by right.
  - intros i h Hh _. by right.
Qed.

(** The leases a call grants on [i]. *)
Definition granted_to (i : string) (o : op) (c : C) (s : scope) : nat :=
  match o with OpClaim req => leases_on i (cl_Leases (snd (scope_Claim req c s))) | _ => 0 end.

Lemma exec_tried i o c s :
  inv s -> admissible o s -> limited i s -> tried i (Z.of_nat (granted_to i o c s)) s (snd (exec o c s)).
Proof.
  intros Hi Ha Hlim. pose proof (exec_inv o c s Hi Ha) as Hi'. pose proof (bi_graph _ _ (inv_base _ Hi)) as Hg.
  pose proof (bi_graph _ _ (inv_base _ Hi')) as Hg'.
  destruct o; simpl in *; try open_op; simpl in *.
  - pose proof (AddNodes_ok _ _ _ _ _ _ E Hi Ha) as H. apply tried_kept; [done..|].
    destruct r; [apply H|apply restored_kept, H].
  - pose proof (AddEdges_ok _ _ _ _ _ _ E Hi) as H. apply tried_kept; [done..|].
    destruct r; [apply H|apply restored_kept, H].
  - apply tried_kept; [done..|]. apply (RemoveEdges_ok _ _ _ _ _ _ E Hi).
  - pose proof (RemoveNode_ok _ _ _ _ _ _ _ E Hi) as H. destruct r; [|subst; apply tried_refl].
    destruct H as (h & s1 & s2 & [H1 H2 H3 H4 H5 H6 H7 H8]).
    assert (Hl1 : live s1 h).
    { apply (ev_live _ _ (so_evolves _ _ _ H4)). by apply (lookup_live s nid h). }
    eapply (tried_trans i 0 0); [|by eapply tried_step|].
    { intros Hn. rewrite (proj1 (sg_index _ _ (ev_graph _ _ (so_evolves _ _ _ H7)))).
      by rewrite (dr_index _ _ _ H6), lookup_delete_None; right. }
    eapply (tried_trans i 0 0); [|eapply tried_dropped; [apply H4|done|done]|eapply tried_step; [apply H6|done]].
    intros Hn. by rewrite (proj1 (sg_index _ _ (ev_graph _ _ (so_evolves _ _ _ H7)))).
  - destruct (Cancel_ok _ _ _ _ _ _ _ E Hi) as [H _]. by eapply tried_step.
  - destruct (CancelScope_ok _ _ _ _ _ _ E Hi Ha) as [H _]. by eapply tried_step.
  - destruct (Claim_ok _ _ _ _ _ _ E Hi) as (s1 & hs & [H1 H2 H3 H4 H5] & ->).
    change (Z.of_nat (leases_on i (lease_of s0 <$> hs))) with (0 + Z.of_nat (leases_on i (lease_of s0 <$> hs)))%Z.
    pose proof (proj1 (sg_index _ _ (ev_graph _ _ (so_evolves _ _ _ H1)))) as Ex.
    eapply tried_trans; [|by eapply tried_step|eapply tried_granted; [exact H3|apply H1|]].
    + by rewrite (proj1 (sg_index _ _ (gr_graph _ _ _ _ _ _ _ H3))).
    + intros h Hh. rewrite Ex in Hh. rewrite (fixed_retry (rec s h)); [by apply Hlim|]. apply (sg_fixed _ _ (ev_graph _ _ (so_evolves _ _ _ H1))).
  - pose proof (Complete_ok _ _ _ _ _ _ E Hi) as H. destruct r; [|subst; apply tried_refl].
    destruct H as (h & _ & H & _). by eapply tried_step.
  - pose proof (Extend_ok _ _ _ _ _ _ E Hi) as H. destruct r; [|subst; apply tried_refl].
    destruct H as (h & _ & H & _ & _). apply tried_kept; [done..|]. by apply evolves_kept, sd_evolves.
  - eapply tried_step; [done|]. apply (Sweep_ok _ _ _ _ _ _ E Hi).
  - eapply tried_collected, (CollectTerminal_ok _ _ _ _ _ _ _ E Hi Ha).
  - intros h Hh. right. split_and!; [done..|by rewrite Z.add_0_r].
  - intros h Hh. right. split_and!; [done..|by rewrite Z.add_0_r].
Qed.

(** The leases the calls of a run grant on [i], and that [i] is there all along. *)
Fixpoint grants_of (i : string) (os : list op) (cs : C * scope) : nat :=
  match os with
  | [] => 0
  | o :: os => granted_to i o (fst cs) (snd cs) + grants_of i os (exec o (fst cs) (snd cs))
  end.

Fixpoint stays (i : string) (os : list op) (cs : C * scope) : Prop :=
  is_Some (s_index (snd cs) !! i) /\
  match os with
  | [] => True
  | o :: os => stays i os (exec o (fst cs) (snd cs))
  end.

Lemma stays_here i os cs : stays i os cs -> is_Some (s_index (snd cs) !! i).
Proof. by destruct os; intros []. Qed.

Lemma stays_there i os cs cs' : steps os cs cs' -> stays i os cs -> is_Some (s_index (snd cs') !! i).
Proof. induction 1 as [|o os ? ? ? [c s Ha] _ IH]; intros [Hh Hst]; [done|by apply IH]. Qed.

Lemma steps_tried i os cs cs' :
  steps os cs cs' -> inv (snd cs) -> limited i (snd cs) -> stays i os cs ->
  tried i (Z.of_nat (grants_of i os cs)) (snd cs) (snd cs').
Proof.
  induction 1 as [cs|o os cs1 cs2 cs3 [c s Ha] _ IH]; intros Hi Hlim; [intros _; apply tried_refl|].
  cbn [stays grants_of fst snd] in *. intros [_ Hst] h Hh. pose proof (exec_tried i o c s Hi Ha Hlim h Hh) as [Hn|(H1 & H2 & H3)].
  { destruct (stays_here _ _ _ Hst) as [x Hx]. congruence. }
  assert (Hlim' : limited i (snd (exec o c s))).
  { intros x Hx. assert (x = h) as -> by congruence. rewrite H2. by apply Hlim. }
  destruct (IH (exec_inv o c s Hi Ha) Hlim' Hst h H1) as [?|(H4 & H5 & H6)]; [by left|right].
  split_and!; [done|congruence|]. rewrite H6, H3. lia.
Qed.

(** ** Orderly runs

    Runs in which every call leaves the nodes settled. *)
Inductive orderly : list op -> C * scope -> C * scope -> Prop :=
| orderly_nil cs : orderly [] cs cs
| orderly_cons o os c s cs :
    admissible o s -> settles o c s -> orderly os (exec o c s) cs -> orderly (o :: os) (c, s) cs.

Lemma orderly_steps os cs cs' : orderly os cs cs' -> steps os cs cs'.
Proof. induction 1; econstructor; eauto. by constructor. Qed.

Fixpoint all_settle (os : list op) (cs : C * scope) : Prop :=
  match os with
  | [] => True
  | o :: os => settles o (fst cs) (snd cs) /\ all_settle os (exec o (fst cs) (snd cs))
  end.

Lemma exec_all_orderly os : forall cs, all_admissible os cs -> all_settle os cs -> orderly os cs (exec_all os cs).
Proof.
  induction os as [|o os IH]; intros [c s]; simpl; [constructor|]. intros [Ha Hs] [Ht Hr].
  econstructor; [done|done|by apply IH].
Qed.

Lemma orderly_settled os cs cs' :
  orderly os cs cs' -> inv (snd cs) -> all_settled (snd cs) -> all_settled (snd cs').
Proof.
  induction 1 as [|o os c s cs Ha Hs _ IH]; [done|]. intros Hi Hall.
  apply IH; [by apply exec_inv|by apply exec_settled].
Qed.

End Clocked.

Lemma newScope_settled name cap cfg : all_settled (newScope name cap cfg).
Proof. intros h. split; intros [[Hl _] _]; simpl in Hl; lia. Qed.

(** * A scope does not deadlock

    While some node is not terminal, some node is ready, leased or waiting for
    its retry delay: were all of them blocked, the one of lowest rank would
    have only terminal predecessors, and its rule would be met or lost. *)

(** ** Every node has one of the named trigger rules *)

Definition rules_ok (s : scope) : Prop :=
  forall h, live s h -> TriggerRule_validate (trigger (rec s h)) = None.

Lemma rules_ok_sub s s' :
  (forall x, live s' x -> live s x /\ trigger (rec s' x) = trigger (rec s x)) -> rules_ok s -> rules_ok s'.
Proof. intros H Hr x Hx. destruct (H x Hx) as [Hl ->]. by apply Hr. Qed.

Lemma rules_evolves s s' : evolves s s' -> rules_ok s -> rules_ok s'.
Proof. intros E. apply rules_ok_sub. intros x Hx. by rewrite (ev_trigger _ _ E), <- (ev_live _ _ E). Qed.

Lemma fixed_trigger r r' : fixed r' = fixed r -> trigger r' = trigger r.
Proof. unfold fixed. congruence. Qed.

Lemma rules_kept s s' :
  graph_inv s -> graph_inv s' -> kept s s' ->
  (forall i h, s_index s' !! i = Some h -> s_index s !! i = None ->
    TriggerRule_validate (trigger (rec s' h)) = None) ->
  rules_ok s -> rules_ok s'.
Proof.
  intros Hg Hg' K Hnew Hr x Hx. destruct (decide (alive (rec s x) = true)) as [Ha|Ha].
  - apply live_alive in Ha. rewrite (fixed_trigger _ _ (kp_fixed _ _ K x Ha)). by apply Hr.
  - apply (Hnew (id (rec s' x)) x); [by apply (gi_index s' Hg')|].
    destruct (s_index s !! id (rec s' x)) as [h|] eqn:E; [|done].
    pose proof (index_kept s s' _ _ Hg Hg' K E) as E'. apply (gi_index s Hg) in E as [Hl _].
    assert (s_index s' !! id (rec s' x) = Some x) by (by apply (gi_index s' Hg')).
    assert (h = x) as -> by congruence. by apply live_alive in Hl.
Qed.

Lemma validate_rule spec : NodeSpec_Validate spec = None -> TriggerRule_validate (sp_Trigger spec) = None.
Proof. unfold NodeSpec_Validate, or_else. repeat (case_match; try done). Qed.

Lemma validateBatch_all cfg specs spec :
  validateBatch cfg specs = None -> spec ∈ specs -> NodeSpec_Validate spec = None.
Proof.
  unfold validateBatch. destruct (_ <? _)%Z; [done|]. generalize (∅ : gset string).
  induction specs as [|sp specs IH]; intros seen; simpl; [set_solver|].
  destruct (NodeSpec_Validate sp) eqn:Ev; [done|]. destruct (_ <? _)%Z; [done|].
  case_bool_decide; [done|]. intros E [->|Hs]%elem_of_cons; [done|by eapply IH].
Qed.

Section Clocked.
Context {C : Type} `{!ClockSource C}.

Lemma AddNodes_valid specs (c c' : C) s s' effects :
  scope_AddNodes specs c s = (c', s', Ok effects) -> forall spec, spec ∈ specs -> NodeSpec_Validate spec = None.
Proof.
  unfold scope_AddNodes. destruct (s_sealed s); [done|]. destruct (validateBatch _ specs) eqn:Ev; [done|].
  intros _ spec. by eapply validateBatch_all.
Qed.

Lemma AddNodes_rules specs (c c' : C) s s' r :
  scope_AddNodes specs c s = (c', s', r) -> inv s -> room (length specs) s -> rules_ok s -> rules_ok s'.
Proof.
  intros E Hi Hr. pose proof (AddNodes_ok _ _ _ _ _ _ E Hi Hr) as H.
  pose proof (bi_graph _ _ (inv_base _ Hi)) as Hg. destruct r as [effects|].
  - pose proof (bi_graph _ _ (inv_base _ (ad_inv _ _ _ H))) as Hg'.
    apply (rules_kept s s' Hg Hg'); [apply H|].
    destruct (AddNodes_exact _ _ _ _ _ _ E Hi Hr) as [[N1 N2] _]. intros i h Hh Hn.
    destruct (proj1 (N2 i)) as [[x Hx]|(spec & Hsp & <-)]; [by exists h|congruence|].
    destruct (N1 spec Hsp) as (h' & Hh' & Hm). assert (h' = h) as -> by congruence.
    unfold specMatches in Hm. rewrite !andb_true_iff, !bool_decide_eq_true in Hm. destruct_and! Hm.
    replace (trigger (rec s' h)) with (sp_Trigger spec). by apply validate_rule, (AddNodes_valid _ _ _ _ _ _ E).
  - destruct H as [_ R]. apply rules_ok_sub. intros x Hx. rewrite (rs_rec _ _ R).
    by apply (restored_live s s' x R) in Hx.
Qed.

Lemma exec_rules o (c : C) s : inv s -> admissible o s -> rules_ok s -> rules_ok (snd (exec o c s)).
Proof.
  intros Hi Ha. pose proof (bi_graph _ _ (inv_base _ Hi)) as Hg.
  destruct o; simpl in *; try open_op; simpl in *.
  - by eapply AddNodes_rules.
  - pose proof (AddEdges_ok _ _ _ _ _ _ E Hi) as H. destruct r as [effects|].
    + pose proof (bi_graph _ _ (inv_base _ (ad_inv _ _ _ H))) as Hg'.
      apply (rules_kept s _ Hg Hg'); [apply H|]. destruct (AddEdges_exact _ _ _ _ _ _ E Hi) as [Ei _].
      intros i h. rewrite Ei. congruence.
    + apply rules_ok_sub. intros x Hx. rewrite (rs_rec _ _ (proj2 H)). by apply (restored_live s s0 x (proj2 H)) in Hx.
  - destruct (RemoveEdges_ok _ _ _ _ _ _ E Hi) as [U _].
    apply rules_ok_sub. intros x Hx%(ud_live _ _ U). split; [done|].
    apply fixed_trigger, (kp_fixed _ _ (ud_kept _ _ U) x Hx).
  - pose proof (RemoveNode_ok _ _ _ _ _ _ _ E Hi) as H. destruct r; [|by subst].
    destruct H as (h & s1 & s2 & [H1 H2 H3 H4 H5 H6 H7 H8]). intros Hr.
    eapply rules_evolves; [apply H7|]. eapply (rules_ok_sub s1); [|eapply rules_evolves; [apply H4|done]].
    intros x [Hx Hne]%(dr_live _ _ _ H6). split; [done|]. by destruct (dr_rec _ _ _ H6 x Hne) as [d ->].
  - destruct (Cancel_ok _ _ _ _ _ _ _ E Hi) as [H _]. apply rules_evolves, H.
  - destruct (CancelScope_ok _ _ _ _ _ _ E Hi Ha) as [H _]. apply rules_evolves, H.
  - destruct (Claim_ok _ _ _ _ _ _ E Hi) as (s1 & hs & [H1 H2 H3 H4 H5] & _). intros Hr.
    eapply (rules_ok_sub s1); [|eapply rules_evolves; [apply H1|done]]. intros x Hx.
    pose proof (gr_graph _ _ _ _ _ _ _ H3) as G. by rewrite (sg_trigger _ _ G), <- (sg_live _ _ G).
  - pose proof (Complete_ok _ _ _ _ _ _ E Hi) as H. destruct r; [|by subst].
    destruct H as (h & _ & H & _). apply rules_evolves, H.
  - pose proof (Extend_ok _ _ _ _ _ _ E Hi) as H. destruct r; [|by subst].
    destruct H as (h & _ & H & _ & _). by apply rules_evolves, sd_evolves.
  - apply rules_evolves, (Sweep_ok _ _ _ _ _ _ E Hi).
  - pose proof (CollectTerminal_ok _ _ _ _ _ _ _ E Hi Ha) as K. apply rules_ok_sub. intros x Hx.
    split; [by apply (co_live _ _ _ K)|]. by rewrite (co_rec _ _ _ K).
  - done.
  - done.
Qed.

Lemma steps_rules os (cs cs' : C * scope) : steps os cs cs' -> inv (snd cs) -> rules_ok (snd cs) -> rules_ok (snd cs').
Proof.
  induction 1 as [|o os ? ? ? [c s Ha] _ IH]; [done|]. intros Hi Hr. apply IH; [by apply exec_inv|by apply exec_rules].
Qed.

End Clocked.

Lemma newScope_rules name cap cfg : rules_ok (newScope name cap cfg).
Proof. intros h [Hl _]. simpl in Hl. lia. Qed.

(** ** A rule with all its inputs known is met or lost *)

Lemma rule_decided d t :
  TriggerRule_validate t = None -> Unsatisfied d = 0%Z ->
  (0 <= Succeeded d)%Z -> (0 <= Skipped d)%Z -> (0 <= Failed d)%Z ->
  Ready d t = true \/ Unsatisfiable d t = true.
Proof.
  unfold Ready, Unsatisfiable. intros Ht -> H1 H2 H3. destruct t; simpl in *; auto; [..|done].
  - destruct (Z.eqb_spec (Failed d) 0), (Z.eqb_spec (Skipped d) 0), (Z.ltb_spec 0 (Failed d)), (Z.ltb_spec 0 (Skipped d)); simpl; auto; lia.
  - destruct (Z.eqb_spec (Failed d) 0), (Z.ltb_spec 0 (Failed d)); auto; lia.
  - destruct (Z.eqb_spec (Failed d) 0), (Z.ltb_spec 0 (Failed d)), (Z.eqb_spec (Succeeded d) 0), (Z.ltb_spec 0 (Succeeded d)); simpl; auto; lia.
Qed.

(** A blocked node of a settled scope waits for a node that is not terminal. *)
Lemma blocked_waits s h :
  inv s -> settled s h -> rules_ok s -> in_phase s PhaseBlocked h ->
  exists u, edge s u h /\ phase (rec s u) <> PhaseDone.
Proof.
  intros Hi [Hs _] Hr Hb. destruct (Hs Hb) as [Hn Hu]. destruct (inv_base _ Hi) as [Hg Hd Hsat _ _ _].
  rewrite (Hd h) in *. destruct (decide (dcount s h DUnsat = 0)) as [E0|E0].
  - exfalso. destruct (rule_decided (deps_of s h) (trigger (rec s h))); simpl; try lia; try congruence.
    apply Hr, Hb.
  - destruct (find_idx (fun e => bool_decide (eclass s e = DUnsat)) (s_pred s !!! h)) as [i|] eqn:Ef.
    + apply find_idx_Some in Ef as (e & He & Hc). apply bool_decide_eq_true in Hc.
      apply list_elem_of_lookup_2 in He. exists (from e). split.
      * apply (gw_pred s (gi_wf s Hg)), list_elem_of_fmap. by exists e.
      * intros Hdn. unfold eclass in Hc. assert (satisfied e = true) as Ht.
        { apply (Hsat h e He). split; [done|by intros []]. }
        rewrite Ht in Hc. unfold class_of in Hc. by repeat case_bool_decide.
    + exfalso. apply E0. apply count_zero. intros e He.
      by apply (find_idx_None _ _ Ef).
Qed.

(** Among nodes with a property there is one of lowest rank. *)
Lemma lowest_rank s (P : nat -> Prop) `{!forall h, Decision (P h)} :
  (exists h, live s h /\ P h) -> exists h, live s h /\ P h /\ forall u, live s u -> P u -> (rank s h <= rank s u)%Z.
Proof.
  intros (h0 & Hl0 & Hp0).
  set (l := filter (fun h => alive (rec s h) = true /\ P h) (seq 0 (size_ s))).
  assert (Hl : forall h, h ∈ l <-> live s h /\ P h).
  { intros h. unfold l. rewrite list_elem_of_filter, elem_of_seq. unfold live. simpl. intuition lia. }
  assert (Hmin : l <> [] -> exists h, h ∈ l /\ forall u, u ∈ l -> (rank s h <= rank s u)%Z).
  { clear. induction l as [|x l IH]; [done|]. intros _. destruct l as [|y l].
    - exists x. split; [by left|]. intros u ->%list_elem_of_singleton. done.
    - destruct IH as (h & Hh & Hm); [done|]. destruct (Z.le_gt_cases (rank s x) (rank s h)).
      + exists x. split; [by left|]. intros u [->|Hu]%elem_of_cons; [done|]. specialize (Hm u Hu). lia.
      + exists h. split; [by right|]. intros u [->|Hu]%elem_of_cons; [lia|auto]. }
  destruct Hmin as (h & [Hh1 Hh2]%Hl & Hm).
  { assert (h0 ∈ l) by (by apply Hl). intros E. rewrite E in *. set_solver. }
  exists h. split_and!; [done..|]. intros u H1 H2. by apply Hm, Hl.
Qed.

Lemma no_deadlock_inv s :
  inv s -> all_settled s -> rules_ok s ->
  (exists h, live s h /\ phase (rec s h) <> PhaseDone) ->
  exists h, in_phase s PhaseReady h \/ in_phase s PhaseClaimed h \/ in_phase s PhaseScheduled h.
Proof.
  intros Hi Ha Hr Hex.
  destruct (lowest_rank s (fun h => phase (rec s h) <> PhaseDone) Hex) as (h & Hl & Hp & Hm).
  exists h. destruct (phase (rec s h)) eqn:E; unfold in_phase; auto; [|done]. exfalso.
  destruct (blocked_waits s h Hi (Ha h) Hr (conj Hl E)) as (u & He & Hu).
  pose proof (bi_graph _ _ (inv_base _ Hi)) as Hg.
  pose proof (rk_mono s (gi_ranked s Hg) u h He). destruct (gw_live s (gi_wf s Hg) u h He) as [Hlu _].
  specialize (Hm u Hlu Hu). lia.
Qed.
