(* ===== verification/Scenario.v ===== *)
(** * A concrete scope

    A clock that advances by one at each reading, with a jitter that always
    draws the whole window, and a small graph in the states it goes through;
    the theorems of the development are applied to them. *)
From S2P Require Import Prelude Types Config Heap HeapFacts Scope Topo TopoFacts Graph Lease Memory Invariant ScopeFacts DepFacts.
From S2P Require Import Evolve Terminate LeaseFacts EdgeFacts NodeFacts GraphFacts GraphOps Removal Machine Progress.

(** ** The clock *)

Record ticker := Ticker { ticks : Z }.

#[export] Instance ticker_clock : ClockSource ticker := {|
  clk_Now t := (ticks t, Ticker (ticks t + 1));
  clk_Jitter n t := (n, t)
|}.

Notation clk0 := (Ticker 1000).

(** ** The graph: [a -> b -> c], and [d] on its own *)

Definition spec (i k : string) (prio : Z) (deps : list string) : NodeSpec :=
  mkSpec i k [] ∅ prio TriggerAllSuccess (mkRetry 2 0 0) deps.

Definition demo_specs : list NodeSpec :=
  [spec "a" "build" 0 []; spec "b" "build" 0 ["a"]; spec "c" "test" 0 ["b"]; spec "d" "test" 5 []].

Definition empty : scope := newScope "jobs" 4 zeroConfig.

(** Orders in which Go may range over the index of a scope. *)
Definition by_handle (s : scope) : list nat := (map_to_list (s_index s)).*2.
Definition by_index (s : scope) : list (string * nat) := map_to_list (s_index s).

(** The clock and the scope after a run from the empty scope. *)
Definition clock_after (os : list op) : ticker := fst (exec_all os (clk0, empty)).
Definition state_after (os : list op) : scope := snd (exec_all os (clk0, empty)).

Lemma run_after os : all_admissible os (clk0, empty) -> steps os (clk0, empty) (clock_after os, state_after os).
Proof. intros H%exec_all_steps. unfold clock_after, state_after. by destruct (exec_all os (clk0, empty)). Qed.

Lemma orderly_after os :
  all_admissible os (clk0, empty) -> all_settle os (clk0, empty) ->
  orderly os (clk0, empty) (clock_after os, state_after os).
Proof.
  intros H1 H2. pose proof (exec_all_orderly os _ H1 H2). unfold clock_after, state_after.
  by destruct (exec_all os (clk0, empty)).
Qed.

Lemma run_from os (cs : ticker * scope) :
  all_admissible os cs -> steps os cs (fst (exec_all os cs), snd (exec_all os cs)).
Proof. intros H%exec_all_steps. by destruct (exec_all os cs). Qed.

(** A result of the form (clock, scope, answer), taken apart. *)
Lemma triple_eta {A B D : Type} (x : A * B * D) : x = (fst (fst x), snd (fst x), snd x).
Proof. by destruct x as [[]]. Qed.

Definition is_ok {A : Type} (r : result A) : bool := match r with Ok _ => true | Fail _ => false end.

(** Decide a closed proposition about a run by evaluation. *)
Ltac by_evaluation := vm_compute; repeat split; discriminate.

Definition demo_ops : list op := [OpAddNodes demo_specs].
Definition demo : scope := state_after demo_ops.

Definition take_one : ClaimRequest := mkClaim "jobs" ["build"] 1 0 "w1".
Definition take_all : ClaimRequest := mkClaim "jobs" [] 10 0 "w2".

(** [a] is leased. *)
Definition leased_ops : list op := demo_ops ++ [OpClaim take_one].
Definition leased : scope := state_after leased_ops.
Definition lease_a : Lease := lease_of leased 0.

(** [a] has succeeded, and [b] is ready. *)
Definition done_ops : list op := leased_ops ++ [OpComplete (mkComplete lease_a true ReasonNone "" [])].
Definition done_a : scope := state_after done_ops.

(** [a] is removed and created again. *)
Definition again_ops : list op :=
  done_ops ++ [OpRemoveNode "a" CascadeDetach; OpAddNodes [spec "a" "build" 0 []]].
Definition again : scope := state_after again_ops.

(** ** They have the invariant *)

Lemma empty_inv : inv empty.
Proof. by apply newScope_inv. Qed.

Lemma state_after_inv os : all_admissible os (clk0, empty) -> inv (state_after os).
Proof. intros H%run_after. by apply (steps_inv _ _ _ H), empty_inv. Qed.

Lemma state_after_settled os :
  all_admissible os (clk0, empty) -> all_settle os (clk0, empty) -> all_settled (state_after os).
Proof. intros H1 H2. by apply (orderly_settled _ _ _ (orderly_after os H1 H2)); [apply empty_inv|apply newScope_settled]. Qed.

Lemma demo_inv : inv demo.
Proof. apply state_after_inv. by_evaluation. Qed.

Lemma demo_settled : all_settled demo.
Proof. apply state_after_settled; by_evaluation. Qed.

Lemma leased_inv : inv leased.
Proof. apply state_after_inv. by_evaluation. Qed.

Lemma done_a_inv : inv done_a.
Proof. apply state_after_inv. by_evaluation. Qed.

Lemma again_inv : inv again.
Proof. apply state_after_inv. by_evaluation. Qed.

(** Where the nodes stand in each of the states. *)
Definition phases (s : scope) : list (string * Phase) := (fun r => (id r, phase r)) <$> s_recs s.

Example demo_phases :
  phases demo = [("a", PhaseReady); ("b", PhaseBlocked); ("c", PhaseBlocked); ("d", PhaseReady)]%string.
Proof. vm_compute. reflexivity. Qed.

Example leased_phases :
  phases leased = [("a", PhaseClaimed); ("b", PhaseBlocked); ("c", PhaseBlocked); ("d", PhaseReady)]%string.
Proof. vm_compute. reflexivity. Qed.

Example done_a_phases :
  phases done_a = [("a", PhaseDone); ("b", PhaseReady); ("c", PhaseBlocked); ("d", PhaseReady)]%string.
Proof. vm_compute. reflexivity. Qed.

Example again_phases :
  phases again = [("a", PhaseReady); ("b", PhaseReady); ("c", PhaseBlocked); ("d", PhaseReady)]%string.
Proof. vm_compute. reflexivity. Qed.
