(* ===== verification/FileProps.v ===== *)
(** * Replaying the command log

    A command and its replay against the readings it consumed lead from the
    same scopes to the same scopes, so that reopening the directory rebuilds
    the state of the process that wrote it. *)
From S2P Require Import Prelude Types Config Heap Scope Topo Graph Lease Memory Watch Snapshot File Removal Machine.
From S2P Require Import Trace Scenario.

(** ** Methods and traces *)


Section Methods.
Context {C : Type} `{!ClockSource C}.








End Methods.

(** ** The gate *)



Section GateTraces.
Context {C : Type} `{!ClockSource C}.



(** ** Commands *)




(** The answer to a command without its content. *)
Definition erase {A B : Type} (x : B * reply A) : B * reply unit :=
  (x.1, match x.2 with Done _ => Done tt | Refused e => Refused e | NotDurable => NotDurable end).

(** The methods of the file store, by the call they log. *)
Definition submit (k : call) (durable : bool) (s : FStore C) : FStore C * reply unit :=
  match k with
  | SetScopeConfigCall name cfg => erase (F_SetScopeConfig name cfg durable s)
  | SealCall name => erase (F_Seal name durable s)
  | AddNodesCall name specs => erase (F_AddNodes name specs durable s)
  | AddEdgesCall name edges => erase (F_AddEdges name edges durable s)
  | RemoveEdgesCall name edges => erase (F_RemoveEdges name edges durable s)
  | RemoveNodeCall name nid policy => erase (F_RemoveNode name nid policy durable s)
  | CancelCall name ids => erase (F_Cancel name ids durable s)
  | CancelScopeCall name visit => erase (F_CancelScope name visit durable s)
  | ClaimCall req => erase (F_Claim req durable s)
  | CompleteCall req => erase (F_Complete req durable s)
  | ExtendCall req => erase (F_Extend req durable s)
  | SweepCall name limit => erase (F_Sweep name limit durable s)
  | CollectCall _ _ _ _ => (s, Refused (Err ErrUnsupported))
  | CloseCall => (F_Close s, Done tt)
  end.





End GateTraces.

(** * Properties of the file backend *)

Section Reopening.
Context {C : Type} `{!ClockSource C}.













End Reopening.

(** ** On a concrete directory *)

(** A fresh directory, and the store after some durable commands. *)
Definition fresh_dir : FStore ticker := mkFStore ((New (newGate clk0) [WithScopeDefaults zeroConfig]) <| clock ::= golive |>) [] None false.

Definition submit_all (ks : list call) (s : FStore ticker) : FStore ticker :=
  foldl (fun s k => fst (submit k true s)) s ks.

(** Whether [Open] succeeds, and the phase it finds a node in. *)
Definition reopened (base : option (list ScopeSnapshot)) (log : list log_record) : FStore ticker + open_error :=
  Open base log [] (Ticker (2 ^ 40)) zeroConfig.

Definition phase_in (x : FStore ticker + open_error) (scope i : string) : option Phase :=
  match x with
  | inr _ => None
  | inl s =>
    match scopes (fs_mem s) !! scope with
    | Some sc => (fun h => phase (rec sc h)) <$> s_index sc !! i
    | None => None
    end
  end.

Definition build_calls : list call :=
  [AddNodesCall "jobs" demo_specs; ClaimCall (mkClaim "jobs" ["build"%string] 1 0 "w1")].


(** The lease of [a] that the claim of [build_calls] grants. *)
Definition granted : Lease := mkLease "jobs" "a" 1 TimeZero None [].

Definition finished_calls : list call :=
  build_calls ++ [CompleteCall (mkComplete granted true ReasonNone "" [])].

(** three ways in which reopening does not recover the state.  A [Cancel]
    that names an unknown node after a known one ends the known one and is
    refused, so it is not logged and is undone by the next start.  A crash of
    [Compact] between the snapshot and the truncation of the log leaves a
    directory that cannot be opened: the recorded [Complete] meets the node it
    has already ended.  And after [Compact] a damaged snapshot is not made up
    for by the log: opening without it succeeds on an empty store. *)
Lemma recovery_gaps :
  (let s := submit_all [AddNodesCall "jobs" demo_specs; CancelCall "jobs" ["a"; "nobody"]%string] fresh_dir in
   phase_in (inl s) "jobs" "a" = Some PhaseDone /\
   phase_in (reopened (fs_snapshot s) (fs_log s)) "jobs" "a" = Some PhaseReady) /\
  (let s := compact_snapshot (submit_all finished_calls fresh_dir) in
   phase_in (inl s) "jobs" "a" = Some PhaseDone /\
   exists e, reopened (fs_snapshot s) (fs_log s) = inr (RecordRefused e)) /\
  (let s := fst (Compact (submit_all finished_calls fresh_dir)) in
   phase_in (reopened (fs_snapshot s) (fs_log s)) "jobs" "a" = Some PhaseDone /\
   phase_in (reopened None (fs_log s)) "jobs" "a" = None /\
   exists s', reopened None (fs_log s) = inl s' /\ scopes (fs_mem s') = ∅).
Proof.
  split; [split; vm_compute; reflexivity|]. split.
  - split; [vm_compute; reflexivity|]. eexists. vm_compute. reflexivity.
  - split; [vm_compute; reflexivity|]. split; [vm_compute; reflexivity|]. eexists. split; vm_compute; reflexivity.
Qed.
