(* ===== verification/DataProps.v ===== *)
(** * Properties of the data types

    Trigger rules, back-off, configuration and the indexed heap. *)
From S2P Require Import Prelude Types Config Heap HeapFacts Scope Topo TopoFacts Graph Lease Memory ListFacts Invariant ScopeFacts.
From S2P Require Import DepFacts Evolve Terminate LeaseFacts EdgeFacts NodeFacts GraphFacts GraphOps Removal Machine Progress Scenario.

(** ** Trigger rules *)

Definition counts_ok (d : DepCounts) : Prop :=
  (0 <= Unsatisfied d <= max_u32 /\ 0 <= Succeeded d < max_u32 /\ 0 <= Skipped d < max_u32 /\ 0 <= Failed d < max_u32)%Z.

(** One more predecessor ended with status [st] and reason [rs]. *)
Definition resolve_one (st : Status) (rs : Reason) (d : DepCounts) : DepCounts :=
  tally st rs (d <| Unsatisfied ::= dec |>).

Ltac decide_counts :=
  repeat match goal with
  | |- context [(?a <? ?b)%Z] => destruct (Z.ltb_spec a b)
  | |- context [(?a =? ?b)%Z] => destruct (Z.eqb_spec a b)
  end; simpl; try done; try lia.

(** trigger rules are coherent: a rule is never met and lost at once;
    once every predecessor is terminal it is one of the two; and a rule that
    is lost stays lost when more predecessors end. *)
Lemma trigger_rules_coherent d t :
  TriggerRule_validate t = None -> counts_ok d ->
  ~ (Ready d t = true /\ Unsatisfiable d t = true) /\
  (Unsatisfied d = 0%Z -> Ready d t = true \/ Unsatisfiable d t = true) /\
  (forall st rs, (0 < Unsatisfied d)%Z -> Unsatisfiable d t = true -> Unsatisfiable (resolve_one st rs d) t = true).
Proof.
  unfold counts_ok, max_u32. intros Ht (H1 & H2 & H3 & H4). split_and!.
  - unfold Ready, Unsatisfiable. destruct t; simpl in *; try done; decide_counts; intros [? ?]; done.
  - intros H0. apply rule_decided; [done|done|lia..].
  - intros st rs H0. destruct d as [u a b f]. simpl in *. unfold resolve_one, tally, u32, Unsatisfiable.
    destruct t; try done; repeat case_bool_decide; simpl; rewrite ?Z.mod_small by lia; decide_counts.
Qed.

Lemma trigger_rules_coherent_witness :
  let d := mkDeps 1 1 0 1 in
  Unsatisfiable d TriggerAllSuccess = true /\
  Unsatisfiable (resolve_one StatusSuccess ReasonNone d) TriggerAllSuccess = true.
Proof.
  intros d. split; [reflexivity|].
  destruct (trigger_rules_coherent d TriggerAllSuccess) as (_ & _ & H).
  - reflexivity.
  - unfold counts_ok, max_u32. simpl. lia.
  - apply H; [simpl; lia|reflexivity].
Defined.

(** ** Back-off *)

Lemma backoff_window_spec n : forall w m,
  (0 < w)%Z -> (w <= m)%Z -> (m <= max_i64)%Z ->
  (backoff_window n w m <= m)%Z /\ (w <= backoff_window n w m)%Z /\
  (backoff_window n w m = m \/ backoff_window n w m = (w * 2 ^ Z.of_nat n)%Z).
Proof.
  unfold max_i64. induction n as [|n IH]; intros w m Hw Hm Hx; cbn [backoff_window].
  { split_and!; [lia|lia|right; lia]. }
  rewrite Z.quot_div_nonneg by lia. pose proof (Z.div_mod m 2). pose proof (Z.mod_pos_bound m 2).
  destruct (Z.leb_spec (m / 2) w) as [Hle|Hlt]; [split_and!; [lia|lia|by left]|].
  rewrite i64_small by lia. destruct (IH (w * 2)%Z m) as (H1 & H2 & H3); [lia..|].
  split_and!; [lia|lia|]. destruct H3 as [-> | ->]; [by left|right].
  rewrite Nat2Z.inj_succ, Z.pow_succ_r by lia. lia.
Qed.

(** The policy values [Backoff] works with. *)
Definition eff_base (base : Z) : Z := if (base <=? 0)%Z then DefaultRetryBaseDelay else base.
Definition eff_max (maxDelay : Z) : Z := if (maxDelay <=? 0)%Z then DefaultRetryMaxDelay else maxDelay.

(** the back-off window doubles with every attempt up to the maximum
    delay, without overflow: it is the maximum or the base times a power of
    two given by the attempt, and at least the smaller of the two; a jitter
    that draws below its argument keeps the delay inside the window. *)
Lemma backoff_bounds {C : Type} (attempt base maxDelay : Z) (jitter : option (Z -> C -> Z * C)) (c : C) :
  (0 <= attempt <= max_u32)%Z -> (base <= max_i64)%Z -> (maxDelay <= max_i64)%Z ->
  (forall j n c, jitter = Some j -> (0 < n)%Z -> (0 <= fst (j n c) < n)%Z) ->
  let w := Backoff_window attempt base maxDelay in
  (0 < w <= eff_max maxDelay)%Z /\ (Z.min (eff_base base) (eff_max maxDelay) <= w)%Z /\
  (w = eff_max maxDelay \/ w = (eff_base base * 2 ^ (Z.max attempt 1 - 1))%Z) /\
  (0 <= fst (Backoff attempt base maxDelay jitter c) <= w)%Z.
Proof.
  intros Ha Hb Hm Hj w.
  assert (Hb0 : (0 < eff_base base <= max_i64)%Z).
  { unfold eff_base, DefaultRetryBaseDelay, max_i64 in *. destruct (Z.leb_spec base 0); unfold Second; lia. }
  assert (Hm0 : (0 < eff_max maxDelay <= max_i64)%Z).
  { unfold eff_max, DefaultRetryMaxDelay, max_i64 in *. destruct (Z.leb_spec maxDelay 0); unfold Minute, Second; lia. }
  assert (Ea : ((if (attempt =? 0)%Z then 1 else attempt) - 1 = Z.max attempt 1 - 1)%Z).
  { destruct (Z.eqb_spec attempt 0); lia. }
  assert (Hw : (0 < w <= eff_max maxDelay)%Z /\ (Z.min (eff_base base) (eff_max maxDelay) <= w)%Z /\
    (w = eff_max maxDelay \/ w = (eff_base base * 2 ^ (Z.max attempt 1 - 1))%Z)).
  { unfold w, Backoff_window. fold (eff_base base) (eff_max maxDelay). rewrite Ea.
    destruct (Z.le_gt_cases (eff_base base) (eff_max maxDelay)) as [Hle|Hgt].
    - destruct (backoff_window_spec (Z.to_nat (Z.max attempt 1 - 1)) (eff_base base) (eff_max maxDelay))
        as (H1 & H2 & H3); [lia..|]. rewrite Z2Nat.id in H3 by lia. rewrite !Z.min_l by lia. split_and!; [lia..|done].
    - assert (eff_max maxDelay <= backoff_window (Z.to_nat (Z.max attempt 1 - 1)) (eff_base base) (eff_max maxDelay))%Z.
      { destruct (Z.to_nat _) as [|n]; simpl; [lia|].
        rewrite Z.quot_div_nonneg by lia. pose proof (Z.div_le_upper_bound (eff_max maxDelay) 2 (eff_max maxDelay)).
        destruct (Z.leb_spec (eff_max maxDelay / 2) (eff_base base)); lia. }
      rewrite !Z.min_r by lia. split_and!; [lia..|by left]. }
  destruct Hw as (H1 & H2 & H3). split_and!; [lia|lia|done|done|..]; unfold Backoff; fold w.
  - destruct jitter as [j|]; simpl; [|lia]. destruct (Z.leb_spec w 0); [simpl; lia|]. pose proof (Hj j w c eq_refl). lia.
  - destruct jitter as [j|]; simpl; [|lia]. destruct (Z.leb_spec w 0); [simpl; lia|]. pose proof (Hj j w c eq_refl). lia.
Qed.

Lemma backoff_bounds_witness :
  (0 <= fst (Backoff 3 Second (60 * Second) (Some (fun n (c : unit) => ((n / 2)%Z, c))) tt) <= 4 * Second)%Z.
Proof.
  apply (backoff_bounds 3 Second (60 * Second) (Some (fun n (c : unit) => ((n / 2)%Z, c))) tt).
  - unfold max_u32. lia.
  - vm_compute. discriminate.
  - vm_compute. discriminate.
  - intros j n c [= <-] Hn. simpl. split; [apply Z.div_pos; lia|apply Z.div_lt_upper_bound; lia].
Defined.

(** ** Configuration *)

(** Resolving a configuration is idempotent, and a configuration that
    passes validation gives leases within its bounds: a timeout inside them is
    taken as it is, none asks for the default, and any other is clamped. *)
Lemma clampLease_bounds c d :
  ScopeConfig_validate c = None ->
  let r := Resolved c in
  Resolved r = r /\ (0 < c_MinLeaseTimeout r <= c_DefaultLeaseTimeout r)%Z /\
  (c_DefaultLeaseTimeout r <= c_MaxLeaseTimeout r)%Z /\
  (c_MinLeaseTimeout r <= ClampLease c d <= c_MaxLeaseTimeout r)%Z /\
  ((c_MinLeaseTimeout r <= d <= c_MaxLeaseTimeout r)%Z -> ClampLease c d = d) /\
  ((d <= 0)%Z -> ClampLease c d = c_DefaultLeaseTimeout r).
Proof.
  unfold ScopeConfig_validate. set (r := Resolved c). intros Hv.
  assert (Hmin : (0 < c_MinLeaseTimeout r)%Z).
  { unfold r, or_default. simpl. unfold or_default, DefaultMinLeaseTimeout, Second.
    destruct (Z.leb_spec (c_MinLeaseTimeout c) 0); lia. }
  destruct (Z.ltb_spec (c_MaxLeaseTimeout r) (c_MinLeaseTimeout r)) as [|H1]; [done|].
  destruct (Z.ltb_spec (c_DefaultLeaseTimeout r) (c_MinLeaseTimeout r)) as [|H2]; [done|].
  destruct (Z.ltb_spec (c_MaxLeaseTimeout r) (c_DefaultLeaseTimeout r)) as [|H3]; [done|].
  assert (Hid : forall x y, (0 < y)%Z -> or_default (or_default x y) y = or_default x y).
  { intros x y Hy. unfold or_default. destruct (Z.leb_spec x 0).
    - by destruct (Z.leb_spec y 0).
    - by rewrite (proj2 (Z.leb_gt x 0)). }
  assert (Hiu : forall x y, y <> 0%Z -> or_default_u (or_default_u x y) y = or_default_u x y).
  { intros x y Hy. unfold or_default_u. destruct (Z.eqb_spec x 0).
    - by destruct (Z.eqb_spec y 0).
    - by rewrite (proj2 (Z.eqb_neq x 0)). }
  split_and!; [| |lia|lia|..].
  - unfold r, Resolved. simpl. rewrite !Hid, !Hiu by done. done.
  - done.
  - unfold ClampLease. fold r. lia.
  - unfold ClampLease. fold r. lia.
  - intros Hd. unfold ClampLease. fold r. destruct (Z.leb_spec d 0); lia.
  - intros Hd. unfold ClampLease. fold r. rewrite (proj2 (Z.leb_le d 0) Hd). lia.
Qed.

Lemma clampLease_bounds_witness :
  ClampLease zeroConfig (100 * Hour) = (24 * Hour)%Z /\
  (c_MinLeaseTimeout (Resolved zeroConfig) <= ClampLease zeroConfig 5 <= c_MaxLeaseTimeout (Resolved zeroConfig))%Z.
Proof.
  split; [vm_compute; reflexivity|]. apply (clampLease_bounds zeroConfig 5). vm_compute. reflexivity.
Defined.

(** ** The indexed heap *)

#[export] Instance ltb_weak : WeakOrder Nat.ltb.
Proof.
  split.
  - intros a b. rewrite Nat.ltb_lt, Nat.ltb_ge. lia.
  - intros a b c. rewrite !Nat.ltb_ge. lia.
Qed.

(** Pushing a member again is [Fix]. *)
Lemma Push_present less h x : heap_wf h -> x ∈ items h -> Pq.Push less h x = fst (Pq.Fix less h x).
Proof.
  intros W Hx. apply (Contains_spec h x W) in Hx as Hc. unfold Pq.Push, Pq.ensure. unfold Pq.Contains in Hc.
  destruct (pos h !! x) as [p|] eqn:E; [|done]. pose proof (lookup_lt_Some _ _ _ E) as Hl.
  rewrite (proj2 (Nat.ltb_lt _ _) Hl), (list_lookup_total_correct _ _ _ E), Hc. done.
Qed.

Lemma Remove_reports less h x : heap_wf h -> snd (Pq.Remove less h x) = Pq.Contains h x.
Proof. intros W. unfold Pq.Remove. by destruct (Pq.Contains h x). Qed.

(** C39: the indexed heap is a priority queue over the set of its members.
    When the key of [x] alone has changed, [Push], [Remove] and [Fix] restore
    the order with the members expected, and [Pop] takes out a member that no
    other precedes. *)
Theorem heap_is_queue less less' h (P : nat -> Prop) x :
  WeakOrder less -> WeakOrder less' -> agree_off x less less' -> good less h P ->
  good less' (Pq.Push less' h x) (fun y => y = x \/ P y) /\
  good less' (fst (Pq.Remove less' h x)) (fun y => P y /\ y <> x) /\
  good less' (fst (Pq.Fix less' h x)) P /\
  (snd (Pq.Remove less' h x) = true <-> P x) /\ (Pq.Contains h x = true <-> P x) /\
  match Pq.Peek h with
  | None => snd (Pq.Pop less h) = None /\ forall y, ~ P y
  | Some t => snd (Pq.Pop less h) = Some t /\ P t /\ (forall y, P y -> less y t = false) /\
              good less (fst (Pq.Pop less h)) (fun y => P y /\ y <> t)
  end.
Proof.
  intros Hw Hw' He G. pose proof (good_wf _ _ _ G) as W.
  assert (Hc : Pq.Contains h x = true <-> P x) by (by rewrite Contains_spec, (good_mem _ _ _ G)).
  pose proof (good_fix less less' h P x He G) as Gf. split_and!.
  - destruct (decide (x ∈ items h)) as [Hx|Hx].
    + rewrite Push_present by done. eapply good_iff; [|exact Gf]. intros y. split; [by right|].
      intros [->|Hy]; [by apply (good_mem _ _ _ G)|done].
    + apply (good_push less); [done..|]. by rewrite <- (good_mem _ _ _ G).
  - by apply (good_remove less).
  - done.
  - by rewrite Remove_reports.
  - done.
  - destruct (Pq.Peek h) as [t|] eqn:Ep.
    + destruct (good_pop _ _ _ t G Ep) as (H1 & H2 & H3 & H4 & _). done.
    + split; [|by apply (good_peek_None less h)]. unfold Pq.Peek, Pq.Pop in *. by destruct (items h).
Qed.

(** Numbers by size, as in the lease heap with the deadlines [0, 10, 20, ...]. *)
Lemma heap_is_queue_witness :
  snd (Pq.Pop Nat.ltb (Pq.Push Nat.ltb (Pq.Push Nat.ltb (Pq.New 4) 3) 1)) = Some 1 /\
  good Nat.ltb (Pq.Push Nat.ltb (Pq.New 4) 3) (fun y => y = 3 \/ False).
Proof.
  split; [reflexivity|].
  apply (heap_is_queue Nat.ltb Nat.ltb (Pq.New 4) (fun _ => False) 3 ltb_weak ltb_weak).
  - apply agree_off_refl.
  - apply New_good.
Defined.

(** * Properties of the store and of its read paths

    Counters, event ring, listing, and the store as a family of independent
    scopes, each driven by the operations of [Machine]. *)

(** ** Counters *)

Definition in_state (b : Bucket) (s : scope) : nat := count (in_bucket b) (s_recs s).

Lemma in_state_small b s : inv s -> (0 <= Z.of_nat (in_state b s) <= 2 ^ 31)%Z.
Proof.
  intros Hi. pose proof (gi_small _ (bi_graph _ _ (inv_base _ Hi))).
  pose proof (count_le_length (in_bucket b) (s_recs s)). unfold in_state. lia.
Qed.

Lemma counter_exact b s : inv s -> counter b (s_stats s) = Z.of_nat (in_state b s).
Proof.
  intros Hi. rewrite (si_bucket _ (bi_stats _ _ (inv_base _ Hi)) b). pose proof (in_state_small b s Hi).
  apply u64_small. lia.
Qed.

Lemma in_state_zero b s : in_state b s = 0 <-> forall h, live s h -> bucket (rec s h) <> b.
Proof.
  unfold in_state. rewrite count_zero. split.
  - intros H h Hl Hb. assert (in_bucket b (rec s h) = false) as E.
    { apply H. apply list_elem_of_lookup. exists h. by apply list_lookup_lookup_total_lt, live_lt. }
    unfold in_bucket in E. apply live_alive in Hl. by rewrite Hl, bool_decide_eq_true_2 in E.
  - intros H r [h Hh]%list_elem_of_lookup. apply list_lookup_total_correct in Hh as Er. fold (rec s h) in Er. subst r.
    unfold in_bucket. destruct (alive (rec s h)) eqn:Ea; [|done]. apply bool_decide_eq_false_2, H. by apply live_alive.
Qed.

Lemma nonterminal_zero s :
  inv s -> NonTerminal (s_stats s) = 0%Z <-> forall h, live s h -> phase (rec s h) = PhaseDone.
Proof.
  intros Hi. pose proof (fun b => counter_exact b s Hi) as Hc. pose proof (fun b => in_state_small b s Hi) as Hs.
  unfold NonTerminal. rewrite (Hc BBlocked : st_Blocked _ = _), (Hc BScheduled : st_Scheduled _ = _),
    (Hc BReady : st_Ready _ = _), (Hc BInProgress : st_InProgress _ = _).
  rewrite u64_small by (pose proof (Hs BBlocked); pose proof (Hs BScheduled); pose proof (Hs BReady);
    pose proof (Hs BInProgress); lia).
  assert (Hz : forall b, in_state b s = 0 <-> forall h, live s h -> bucket (rec s h) <> b) by (intros; apply in_state_zero).
  unfold bucket in Hz. split.
  - intros E h Hl. destruct (phase (rec s h)) eqn:Ep; [exfalso..|done].
    + by apply (proj1 (Hz BBlocked) ltac:(lia) h Hl); rewrite Ep.
    + by apply (proj1 (Hz BScheduled) ltac:(lia) h Hl); rewrite Ep.
    + by apply (proj1 (Hz BReady) ltac:(lia) h Hl); rewrite Ep.
    + by apply (proj1 (Hz BInProgress) ltac:(lia) h Hl); rewrite Ep.
  - intros H. assert (E : forall b, b = BBlocked \/ b = BScheduled \/ b = BReady \/ b = BInProgress -> in_state b s = 0).
    { intros b Hb. apply Hz. intros h Hl. rewrite (H h Hl).
      destruct (bool_decide _); naive_solver. }
    rewrite !E by auto. done.
Qed.

(** the statistics are exact: the total is the number of nodes, each
    counter the number of nodes in that state, and the scope is reported
    complete exactly when it is sealed and every node is terminal. *)
Lemma stats_exact s :
  inv s ->
  let st := scope_Stats s in
  st_Total st = Z.of_nat (count alive (s_recs s)) /\
  (forall b, counter b st = Z.of_nat (in_state b s)) /\
  st_Sealed st = s_sealed s /\ st_Cursor st = s_cursor s /\
  (st_Complete st = true <-> s_sealed s = true /\ forall h, live s h -> phase (rec s h) = PhaseDone).
Proof.
  intros Hi st. split_and!.
  - simpl. rewrite (si_total _ (bi_stats _ _ (inv_base _ Hi))). apply u64_small.
    pose proof (gi_small _ (bi_graph _ _ (inv_base _ Hi))). pose proof (count_le_length alive (s_recs s)). lia.
  - intros b. rewrite <- counter_exact by done. by destruct b.
  - apply (si_sealed _ (bi_stats _ _ (inv_base _ Hi))).
  - done.
  - simpl. rewrite andb_true_iff, Z.eqb_eq, nonterminal_zero by done. done.
Qed.

Lemma stats_exact_witness :
  st_Ready (scope_Stats demo) = 2%Z /\ (forall b, counter b (scope_Stats demo) = Z.of_nat (in_state b demo)).
Proof. split; [vm_compute; reflexivity|]. apply (stats_exact demo demo_inv). Defined.

(** ** The event ring *)

(** The event ring loses only its oldest entries: appending drops a
    prefix, moves the start cursor past it, wakes the readers, and keeps at
    least the [logCap] most recent events and fewer than twice as many. *)
Lemma appendLog_ring ef s :
  (0 < s_logCap s)%Z -> (Z.of_nat (length (s_log s)) < 2 * s_logCap s)%Z -> s_logStart s = u64 (s_logStart s) ->
  let s' := appendLog ef s in
  exists lost, s_log s ++ [event_of (s_name s) ef] = lost ++ s_log s' /\
    s_logStart s' = u64 (s_logStart s + Z.of_nat (length lost)) /\
    (Z.of_nat (length (s_log s')) < 2 * s_logCap s')%Z /\
    (Z.min (s_logCap s') (Z.of_nat (length (s_log s) + 1)) <= Z.of_nat (length (s_log s')))%Z /\
    s_logBell s' = S (s_logBell s).
Proof.
  intros Hc Hl Hs. set (log := s_log s ++ [event_of (s_name s) ef]).
  assert (Hlen : length log = length (s_log s) + 1) by (unfold log; by rewrite length_app).
  unfold appendLog. fold log. simpl. destruct (Z.leb_spec (2 * s_logCap s) (Z.of_nat (length log))) as [Hd|Hd]; simpl.
  - assert (Ec : Z.of_nat (length log) = (2 * s_logCap s)%Z) by lia.
    exists (take (Z.to_nat (Z.of_nat (length log) - s_logCap s)) log).
    rewrite (take_ge (drop _ _)) by (rewrite length_drop; lia). rewrite take_drop, length_take, length_drop.
    rewrite Nat.min_l by lia. rewrite Z2Nat.id by lia. split_and!; [done|done|lia|lia|done].
  - exists []. simpl. rewrite Z.add_0_r. split_and!; [done|done|lia|lia|done].
Qed.

(** ** Listing *)

(** paging through a scope lists the matching nodes in identifier order,
    each exactly once: a page holds the first of what remains, the cursor it
    returns is empty when nothing is left, and otherwise continues with
    exactly the rest. *)
Lemma listNodes_pages opts s :
  inv s ->
  let L := Z.to_nat (page_limit opts) in
  let r := scope_ListNodes opts s in
  StronglySorted String.le (remaining s opts) /\ NoDup (remaining s opts) /\
  (nd_ID <$> lr_Nodes r) = take L (remaining s opts) /\
  (lr_Next r = ""%string <-> length (remaining s opts) <= L) /\
  (lr_Next r <> ""%string ->
   remaining s (mkListOptions (lo_Statuses opts) (lo_Kinds opts) (lr_Next r) (lo_Limit opts)) = drop L (remaining s opts)).
Proof.
  intros Hi L r. destruct (remaining_sorted s opts) as [N S].
  assert (Hid : forall i, i ∈ remaining s opts -> nd_ID (node_at s i) = i).
  { intros i (_ & _ & [h Hh])%remaining_elem. unfold node_at. rewrite Hh. simpl.
    by apply (gi_index s (bi_graph _ _ (inv_base _ Hi))) in Hh as [_ ?]. }
  assert (HL : 0 < L) by (unfold L, page_limit; destruct (Z.leb_spec (lo_Limit opts) 0); lia).
  unfold r. rewrite (ListNodes_page s opts). fold L. cbv zeta. simpl.
  set (M := remaining s opts) in *.
  assert (Hmap : nd_ID <$> (node_at s <$> take L M) = take L M).
  { rewrite <- list_fmap_compose. rewrite <- (list_fmap_id (take L M)) at 2. apply list_fmap_ext.
    intros j i Hj%list_elem_of_lookup_2. simpl. apply elem_of_take in Hj as (j' & Hj & _).
    by eapply Hid, list_elem_of_lookup_2. }
  split_and!; [done|done|done|..].
  all: assert (Hlast : forall x, last (take L M) = Some x -> last (node_at s <$> take L M) = Some (node_at s x) /\
         nd_ID (node_at s x) = x /\ x <> ""%string)
       by (intros x Hx; rewrite fmap_last, Hx; pose proof (last_Some_elem_of _ _ Hx) as Hin;
           assert (x ∈ M) as HxM by (apply elem_of_take in Hin as (j & Hj & _); by eapply list_elem_of_lookup_2);
           split_and!; [done|by apply Hid|];
           apply remaining_elem in HxM as (_ & Hlt & _); intros ->; by destruct (lo_Cursor opts)).
  all: destruct (Nat.leb_spec (length M) L) as [Hle|Hgt]; [try done|].
  - split; [|lia]. intros E. exfalso.
    destruct (last (take L M)) as [x|] eqn:El.
    + destruct (Hlast x eq_refl) as (E1 & E2 & E3). rewrite E1, E2 in E. done.
    + apply last_None in El. apply (f_equal length) in El. rewrite length_take in El. simpl in El. lia.
  - intros E. destruct (last (take L M)) as [x|] eqn:El.
    + destruct (Hlast x eq_refl) as (E1 & E2 & _). rewrite E1, E2. by apply remaining_next.
    + rewrite fmap_last, El in E. done.
Qed.

Lemma listNodes_pages_witness :
  let opts := mkListOptions [] ["build"%string] "" 1 in
  remaining demo opts = ["a"; "b"]%string /\ lr_Next (scope_ListNodes opts demo) = "a"%string /\
  remaining demo (mkListOptions [] ["build"%string] "a" 1) = ["b"%string].
Proof.
  intros opts. assert (E : remaining demo opts = ["a"; "b"]%string) by (vm_compute; reflexivity).
  assert (Nx : lr_Next (scope_ListNodes opts demo) = "a"%string) by (vm_compute; reflexivity).
  split; [exact E|]. split; [exact Nx|].
  destruct (listNodes_pages opts demo demo_inv) as (_ & _ & _ & _ & H).
  rewrite Nx, E in H. exact (H ltac:(discriminate)).
Defined.
