(* ===== verification/RunProps.v ===== *)
(** * Properties of runs of a scope

    What holds after any sequence of calls to a scope, whatever the clock and
    the jitter return and however concurrent callers interleave. *)
From S2P Require Import Prelude Types Config Heap HeapFacts Scope Topo TopoFacts Graph Lease Memory Invariant ScopeFacts DepFacts.
From S2P Require Import Evolve Terminate LeaseFacts EdgeFacts NodeFacts GraphFacts GraphOps Removal Machine Progress Scenario.

Section Runs.
Context {C : Type} `{!ClockSource C}.
Context (name : string) (cap : Z) (cfg : ScopeConfig) (c0 : C).

Notation start := (c0, newScope name cap cfg).

Lemma start_inv : (0 < cap)%Z -> inv (snd start).
Proof. by apply newScope_inv. Qed.

(** C1: the invariant holds after every run: handles, index and adjacency
    lists agree, ranks follow the edges, dependency tallies count the
    predecessors' outcomes, each heap is ordered and holds exactly the nodes
    of its phase, the counters count, and the event ring is contiguous. *)
Theorem reachable_invariant os c s :
  (0 < cap)%Z -> steps os start (c, s) -> inv s.
Proof. intros Hc H. by apply (steps_inv os start (c, s) H), start_inv. Qed.

(** C2: a lease that was superseded by a later grant of the same node is
    refused for ever, by [Complete] and by [Extend], with the scope left as it
    was; also when the node was removed and created again in between.  The
    bound excludes only runs of about 2^64 claims. *)
Theorem superseded_lease_refused os1 os2 os3 c1 s1 c1' s1' c2 s2 c2' s2' c3 s3 req1 req2 r1 r2 l l' :
  (0 < cap)%Z ->
  steps os1 start (c1, s1) ->
  scope_Claim req1 c1 s1 = (c1', s1', r1) -> l ∈ cl_Leases r1 ->
  steps os2 (c1', s1') (c2, s2) ->
  scope_Claim req2 c2 s2 = (c2', s2', r2) -> l' ∈ cl_Leases r2 -> l_NodeID l' = l_NodeID l ->
  steps os3 (c2', s2') (c3, s3) ->
  (total_grants os1 + total_grants os2 + total_grants os3 + 2 < 2 ^ 64)%Z ->
  (l_Epoch l < l_Epoch l')%Z /\
  (forall ok rs msg res, exists e, scope_Complete (mkComplete l ok rs msg res) c3 s3 = (c3, s3, Fail (Err e)) /\
     (e = ErrNotFound \/ e = ErrLeaseMismatch)) /\
  (forall d, exists e, scope_Extend (mkExtend l d) c3 s3 = (c3, s3, Fail (Err e)) /\
     (e = ErrNotFound \/ e = ErrLeaseMismatch)).
Proof.
  intros Hc S1 C1 L1 S2 C2 L2 Hid S3 Hb.
  pose proof (total_grants_nonneg os1). pose proof (total_grants_nonneg os2). pose proof (total_grants_nonneg os3).
  set (g1 := total_grants os1) in *. set (g2 := total_grants os2) in *. set (g3 := total_grants os3) in *.
  assert (I1 : inv s1) by (by apply (steps_inv os1 start (c1, s1) S1), start_inv).
  destruct (steps_raises os1 start (c1, s1) S1 0 (start_inv Hc)) as [B1 _]; [lia|apply newScope_epochs|].
  fold g1 in B1. rewrite Z.add_0_l in B1. simpl in B1.
  destruct (Claim_fence _ _ _ _ _ _ l g1 C1 I1 B1) as [F1 _]; [lia|done|].
  destruct (Claim_raises _ _ _ _ _ _ g1 C1 I1 B1) as [I1' B1']; [lia|].
  assert (I2 : inv s2) by (by apply (steps_inv os2 _ (c2, s2) S2)).
  destruct (steps_raises os2 _ (c2, s2) S2 (g1 + 1) I1') as [B2 F2]; [fold g2; lia|done|]. fold g2 in B2. simpl in B2.
  destruct (Claim_fence _ _ _ _ _ _ l' _ C2 I2 B2) as [F3 F4]; [lia|done|].
  destruct (Claim_raises _ _ _ _ _ _ _ C2 I2 B2) as [I2' B2']; [lia|].
  destruct (steps_raises os3 _ (c3, s3) S3 (g1 + 1 + g2 + 1) I2') as [_ F5]; [fold g3; lia|done|].
  specialize (F2 (l_NodeID l)). specialize (F5 (l_NodeID l)). rewrite Hid in *. simpl in *.
  assert (Hst : stale s3 l) by (unfold stale; lia). split_and!; [lia| |].
  - intros. by apply stale_Complete.
  - intros. by apply stale_Extend.
Qed.

(** C3: a node is not leased before its dependencies allow it.  After any run in
    which no [RemoveEdges] was refused part-way and every [RemoveNode] used one of
    the three named cascade policies ([orderly]), a lease on a first attempt is
    on a node whose trigger rule is met by the outcomes its predecessors have.
    The condition is needed: a refused [RemoveEdges] returns without settling the
    nodes it has already unlinked. *)
Theorem no_premature_lease os c s req c' s' r l :
  (0 < cap)%Z -> orderly os start (c, s) -> scope_Claim req c s = (c', s', r) -> l ∈ cl_Leases r ->
  exists h, s_index s' !! l_NodeID l = Some h /\ in_phase s' PhaseClaimed h /\
    (attempt (rec s' h) = 1%Z -> Ready (deps_of s' h) (trigger (rec s' h)) = true).
Proof.
  intros Hc O E Hl. pose proof (steps_inv os start (c, s) (orderly_steps _ _ _ O) (start_inv Hc)) as Hi.
  pose proof (orderly_settled _ _ _ O (start_inv Hc) (newScope_settled _ _ _)) as Ha. simpl in Hi, Ha.
  destruct (Claim_ok _ _ _ _ _ _ E Hi) as (s1 & hs & [H1 _ G _ _] & El). rewrite El in Hl.
  apply list_elem_of_fmap in Hl as (h & -> & Hh). exists h.
  destruct (gr_new _ _ _ _ _ _ _ G h Hh) as ([Hr _] & Er & _).
  pose proof (gr_graph _ _ _ _ _ _ _ G) as Sg. pose proof (gr_inv _ _ _ _ _ _ _ G) as Hi'.
  assert (Hl' : live s' h) by (apply (sg_live _ _ Sg), Hr). split_and!.
  - by apply (gi_index s' (bi_graph _ _ (inv_base _ Hi'))).
  - split; [done|]. by rewrite Er.
  - rewrite <- (bi_deps _ _ (inv_base _ Hi') h), Er. simpl. intros Hat.
    destruct (bi_status _ _ (inv_base _ (so_inv _ _ _ H1)) h (proj1 Hr)) as (_ & Hrg & _).
    apply (so_settled _ _ _ H1 h (Ha h)); [done|]. unfold bumpAttempt, max_u32, u32 in *.
    destruct (Z.eqb_spec (attempt (rec s1 h)) (2 ^ 32 - 1)); [lia|]. rewrite Z.mod_small in Hat; lia.
Qed.

(** C4: the scheduler does not deadlock.  After any run in which no [RemoveEdges]
    was refused part-way and every [RemoveNode] used one of the three named
    cascade policies ([orderly]), while a node is not terminal some node is
    ready, leased, or waiting for its retry delay. *)
Theorem no_deadlock os c s h :
  (0 < cap)%Z -> orderly os start (c, s) -> live s h -> phase (rec s h) <> PhaseDone ->
  exists x, in_phase s PhaseReady x \/ in_phase s PhaseClaimed x \/ in_phase s PhaseScheduled x.
Proof.
  intros Hc O Hl Hp. pose proof (orderly_steps _ _ _ O) as S. apply no_deadlock_inv.
  - apply (steps_inv os start (c, s) S), (start_inv Hc).
  - apply (orderly_settled _ _ _ O); [apply (start_inv Hc)|apply newScope_settled].
  - apply (steps_rules _ _ _ S); [apply (start_inv Hc)|apply newScope_rules].
  - by exists h.
Qed.

(** C5: the outcome of a terminal node is final: whatever call follows, the
    node is there with the same status, reason, message and result, or its
    identifier is gone. *)
Theorem outcome_final os c s o i h :
  (0 < cap)%Z -> steps os start (c, s) -> admissible o s ->
  s_index s !! i = Some h -> phase (rec s h) = PhaseDone ->
  let s' := snd (exec o c s) in
  s_index s' !! i = None \/ (s_index s' !! i = Some h /\ outcome (rec s' h) = outcome (rec s h)).
Proof.
  intros Hc S Ha Hh Hd s'. apply (exec_final o c s); [|done|done|done].
  by apply (steps_inv os start (c, s) S), start_inv.
Qed.


(** the dependency graph is acyclic after every run, and the maintained
    ranks are a topological order of it. *)
Lemma reachable_acyclic os c s u v :
  (0 < cap)%Z -> steps os start (c, s) -> edge s u v ->
  ~ reach s v u /\ (rank s u < rank s v)%Z /\ live s u /\ live s v.
Proof.
  intros Hc S He. assert (Hi : inv s) by (by apply (steps_inv os start (c, s) S), start_inv).
  pose proof (bi_graph _ _ (inv_base _ Hi)) as Hg. split_and!.
  - by apply (acyclic s (gi_ranked s Hg)).
  - by apply (rk_mono s (gi_ranked s Hg)).
  - by apply (gw_live s (gi_wf s Hg) u v).
  - by apply (gw_live s (gi_wf s Hg) u v).
Qed.

End Runs.

(** ** The properties at a concrete run *)

Lemma reachable_invariant_witness :
  steps done_ops (clk0, empty) (clock_after done_ops, done_a) /\ inv done_a.
Proof.
  assert (S : steps done_ops (clk0, empty) (clock_after done_ops, done_a)) by (apply run_after; by_evaluation).
  split; [exact S|]. apply (reachable_invariant "jobs" 4 zeroConfig clk0 done_ops (clock_after done_ops)); [lia|exact S].
Defined.

(** [a] is leased, completed, removed, created again and leased again; the
    first lease no longer counts. *)
Lemma superseded_lease_refused_witness :
  exists c3 s3 l', l_NodeID l' = "a"%string /\ (l_Epoch lease_a < l_Epoch l')%Z /\
    exists e, scope_Complete (mkComplete lease_a true ReasonNone "" []) c3 s3 = (c3, s3, Fail (Err e)).
Proof.
  pose (x1 := scope_Claim take_one (clock_after demo_ops) demo).
  pose (os2 := [OpComplete (mkComplete lease_a true ReasonNone "" []); OpRemoveNode "a" CascadeDetach;
                OpAddNodes [spec "a" "build" 0 []]]).
  pose (x2 := exec_all os2 (fst (fst x1), snd (fst x1))).
  pose (again_req := mkClaim "jobs" ["build"] 2 0 "w2").
  pose (x3 := scope_Claim again_req (fst x2) (snd x2)).
  assert (S1 : steps demo_ops (clk0, empty) (clock_after demo_ops, demo)) by (apply run_after; by_evaluation).
  assert (S2 : steps os2 (fst (fst x1), snd (fst x1)) (fst x2, snd x2)) by (apply run_from; by_evaluation).
  exists (fst (fst x3)), (snd (fst x3)), (lease_of (snd (fst x3)) 0).
  assert (L : l_NodeID (lease_of (snd (fst x3)) 0) = l_NodeID lease_a) by (vm_compute; reflexivity).
  assert (In1 : lease_a ∈ cl_Leases (snd x1)) by (apply list_elem_of_In; vm_compute; left; reflexivity).
  assert (In3 : lease_of (snd (fst x3)) 0 ∈ cl_Leases (snd x3))
    by (apply list_elem_of_In; vm_compute; right; left; reflexivity).
  destruct (superseded_lease_refused "jobs" 4 zeroConfig clk0 demo_ops os2 [] _ _ _ _ _ _ _ _
    (fst (fst x3)) (snd (fst x3)) take_one again_req (snd x1) (snd x3) lease_a (lease_of (snd (fst x3)) 0)
    ltac:(lia) S1 (triple_eta x1) In1 S2 (triple_eta x3) In3 L (steps_nil _) ltac:(vm_compute; reflexivity)) as (H1 & H2 & _).
  split; [vm_compute; reflexivity|]. split; [exact H1|].
  destruct (H2 true ReasonNone ""%string []) as (e & H & _). exists e. exact H.
Defined.

Lemma no_premature_lease_witness :
  lease_a ∈ cl_Leases (snd (scope_Claim take_one (clock_after demo_ops) demo)) /\
  exists h, s_index leased !! "a"%string = Some h /\ in_phase leased PhaseClaimed h /\
    (attempt (rec leased h) = 1%Z -> Ready (deps_of leased h) (trigger (rec leased h)) = true).
Proof.
  assert (In1 : lease_a ∈ cl_Leases (snd (scope_Claim take_one (clock_after demo_ops) demo)))
    by (apply list_elem_of_In; vm_compute; left; reflexivity).
  split; [exact In1|].
  apply (no_premature_lease "jobs" 4 zeroConfig clk0 demo_ops (clock_after demo_ops) demo take_one
    (fst (fst (scope_Claim take_one (clock_after demo_ops) demo))) leased
    (snd (scope_Claim take_one (clock_after demo_ops) demo)) lease_a).
  - lia.
  - apply orderly_after; by_evaluation.
  - vm_compute. reflexivity.
  - exact In1.
Defined.

Lemma no_deadlock_witness :
  exists x, in_phase demo PhaseReady x \/ in_phase demo PhaseClaimed x \/ in_phase demo PhaseScheduled x.
Proof.
  apply (no_deadlock "jobs" 4 zeroConfig clk0 demo_ops (clock_after demo_ops) demo 1).
  - lia.
  - apply orderly_after; by_evaluation.
  - split; [vm_compute; lia|vm_compute; reflexivity].
  - vm_compute. discriminate.
Defined.

Lemma outcome_final_witness :
  let s' := snd (exec (OpCancel ["a"%string]) (clock_after done_ops) done_a) in
  s_index s' !! "a"%string = None \/
  (s_index s' !! "a"%string = Some 0 /\ outcome (rec s' 0) = outcome (rec done_a 0)).
Proof.
  apply (outcome_final "jobs" 4 zeroConfig clk0 done_ops (clock_after done_ops) done_a (OpCancel ["a"%string]) "a" 0).
  - lia.
  - apply run_after; by_evaluation.
  - exact I.
  - vm_compute. reflexivity.
  - vm_compute. reflexivity.
Defined.



Lemma reachable_acyclic_witness :
  ~ reach demo 1 0 /\ (rank demo 0 < rank demo 1)%Z /\ live demo 0 /\ live demo 1.
Proof.
  apply (reachable_acyclic "jobs" 4 zeroConfig clk0 demo_ops (clock_after demo_ops) demo 0 1).
  - lia.
  - apply run_after; by_evaluation.
  - apply list_elem_of_In. vm_compute. left. reflexivity.
Defined.
