(* ===== verification/GraphProps.v ===== *)
(** * Properties of the graph operations

    Batches are atomic and do what they say, cycles are found exactly when
    they are there, and removal, cancellation and collection touch what they
    may touch. *)
From S2P Require Import Prelude Types Config Heap HeapFacts Scope Topo TopoFacts Graph Lease Memory Invariant ScopeFacts DepFacts.
From S2P Require Import Evolve Terminate LeaseFacts EdgeFacts NodeFacts GraphFacts GraphOps Removal Machine Progress Scenario.

Section Ops.
Context {C : Type} `{!ClockSource C}.

(** C33: a rejected [AddNodes] batch is undone: every node record, edge, lease
    deadline, retry time, queue position and queue number, the heaps, the
    index, the counters, the event log and its bells are those before the call,
    and the invariant holds.  The ranks, which [Inspect] reports, may be another
    topological order of the same graph; the rank counter and the allocation
    of free slots may differ too. *)
Theorem addNodes_atomic specs (c c' : C) s s' e :
  inv s -> room (length specs) s -> scope_AddNodes specs c s = (c', s', Fail e) -> restored s s' /\ inv s'.
Proof. intros Hi Hr E. destruct (AddNodes_ok _ _ _ _ _ _ E Hi Hr). done. Qed.

(** C34: an accepted [AddNodes] batch leaves, for every spec, a node that
    matches it and has an edge from each of its dependencies; no other node
    or edge is new and no edge is lost.  A node that was there keeps what it
    was created with, its epoch, its attempt count, its lease and, if it has
    ended, its outcome; one that has not ended may be placed anew or ended by
    its rule, and afterwards every node is where its rule puts it if that was
    so before. *)
Theorem addNodes_exact specs (c c' : C) s s' effects :
  inv s -> room (length specs) s -> scope_AddNodes specs c s = (c', s', Ok effects) ->
  named_nodes specs s s' /\
  (forall u v, edge s' u v <-> edge s u v \/ wanted s' specs u v) /\
  (forall spec d, spec ∈ specs -> d ∈ sp_Deps spec -> is_Some (s_index s' !! d)) /\
  kept s s' /\ (forall x, live s x -> holds s s' x) /\ inv s' /\ (all_settled s -> all_settled s').
Proof.
  intros Hi Hr E. destruct (AddNodes_exact _ _ _ _ _ _ E Hi Hr) as (H1 & H2 & H3).
  destruct (AddNodes_ok _ _ _ _ _ _ E Hi Hr). done.
Qed.

(** [AddEdges] either adds exactly the edges named, all of whose ends
    exist, or, on an error, leaves the scope as it was. *)
Lemma addEdges_all_or_nothing edges (c c' : C) s s' r :
  inv s -> scope_AddEdges edges c s = (c', s', r) ->
  match r with
  | Fail _ => restored s s' /\ inv s'
  | Ok _ => s_index s' = s_index s /\ (forall e, e ∈ edges -> exists u v, named s e u v) /\
            (forall u v, edge s' u v <-> edge s u v \/ exists e, e ∈ edges /\ named s e u v) /\
            kept s s' /\ inv s' /\ (all_settled s -> all_settled s')
  end.
Proof.
  intros Hi E. pose proof (AddEdges_ok _ _ _ _ _ _ E Hi) as H. destruct r as [effects|e].
  - destruct (AddEdges_exact _ _ _ _ _ _ E Hi) as (H1 & H2 & H3). by destruct H.
  - by destruct H.
Qed.

(** adding one edge between known nodes, the target not terminal, fails
    with a cycle error exactly when the target already reaches the source, and
    then the path reported is one from the target to the source. *)
Lemma cycle_rejected_iff a b u v (c c' : C) s s' r :
  inv s -> s_index s !! a = Some u -> s_index s !! b = Some v -> u <> v -> ~ edge s u v ->
  phase (rec s v) <> PhaseDone -> scope_AddEdges [mkEdge a b] c s = (c', s', r) ->
  (reach s v u ->
   exists path, r = Fail (CycleError (s_name s) a b ((fun h => id (rec s h)) <$> path)) /\
     is_path s path /\ head path = Some v /\ last path = Some u) /\
  (~ reach s v u -> exists effects, r = Ok effects).
Proof.
  intros Hi Ea Eb Hne He Hp E. pose proof (bi_graph _ _ (inv_base _ Hi)) as Hg.
  pose proof Ea as [Hu Hua]%(gi_index s Hg). pose proof Eb as [Hv Hvb]%(gi_index s Hg).
  unfold scope_AddEdges in E. simpl in E. unfold lookup_id in E. rewrite Ea, Eb in E.
  rewrite (proj2 (Nat.eqb_neq u v) Hne) in E.
  assert (hasEdge s u v = false) as Eh.
  { apply not_true_iff_false. by rewrite (hasEdge_spec s u v (gi_wf s Hg)). }
  rewrite Eh, (bool_decide_eq_false_2 _ Hp) in E.
  pose proof (addEdgeOrder_cases s (gi_wf s Hg) (gi_ranked s Hg) u v Hu Hv Hne) as Hc.
  destruct (addEdgeOrder u v s) as [s1 t]. destruct (cyclePath t) as [path|]; simpl in E.
  - destruct Hc as (-> & P1 & P2 & P3). injection E as _ _ <-. split; [intros _|].
    + exists path. split_and!; [|done..]. unfold cycleError. by rewrite Hua, Hvb.
    + intros Hno. destruct Hno. by apply (path_reach s path).
  - destruct Hc as (_ & Hno & _). destruct (settle_all _ _ _ _) as [[c3 s3] o3]. injection E as _ _ <-.
    split; [by intros ?%Hno|]. intros _. by exists o3.
Qed.

(** C35: Pearce and Kelly's routine on its own: it reports a cycle exactly
    when the target reaches the source, with a witness path; otherwise only
    ranks between those of the two ends move, and the result is a topological
    order of the old edges in which the source precedes the target. *)
Theorem addEdgeOrder_correct s x y :
  graph_wf s -> ranked s -> live s x -> live s y -> x <> y ->
  let '(s', r) := addEdgeOrder x y s in
  (is_Some (cyclePath r) <-> reach s y x) /\
  match cyclePath r with
  | Some path => s' = s /\ is_path s path /\ head path = Some y /\ last path = Some x
  | None => s' = s <| s_ord := s_ord s' |> /\ ranked s' /\ (rank s' x < rank s' y)%Z /\
            (forall u, (rank s u < rank s y)%Z \/ (rank s x < rank s u)%Z -> rank s' u = rank s u)
  end.
Proof.
  intros Hg Hr Hx Hy Hxy. pose proof (addEdgeOrder_cases s Hg Hr x y Hx Hy Hxy) as H.
  destruct (addEdgeOrder x y s) as [s' r]. destruct (cyclePath r) as [path|].
  - split; [|done]. split; [intros _|by eexists]. destruct H as (_ & P1 & P2 & P3). by apply (path_reach s path).
  - destruct H as (H1 & H2 & H3 & H4 & _ & H5). split; [|done]. split; [by intros []|done].
Qed.

(** a [RemoveEdges] that succeeds removes exactly the edges named, and
    places again the nodes that lost one. *)
Lemma removeEdges_exact edges (c c' : C) s s' effects :
  inv s -> scope_RemoveEdges edges c s = (c', s', Ok effects) ->
  s_index s' = s_index s /\ (forall e, e ∈ edges -> exists u v, named s e u v) /\
  (forall u v, edge s' u v <-> edge s u v /\ ~ exists e, e ∈ edges /\ named s e u v) /\
  inv s' /\ (all_settled s -> all_settled s').
Proof.
  intros Hi E. destruct (RemoveEdges_exact _ _ _ _ _ _ E Hi) as (H1 & H2 & H3).
  destruct (RemoveEdges_ok _ _ _ _ _ _ E Hi) as [[] H]. done.
Qed.

(** an accepted [RemoveNode] drops that node, its edges and its
    identifier and nothing else: every other node stays, keeps what it was
    created with and its outcome if it is terminal, and keeps its lease unless
    the policy fails the successors; the node was not in flight, and the
    epoch floor covers the epoch it had.  A refusal changes nothing. *)
Lemma removeNode_exact nid policy (c c' : C) s s' r :
  inv s -> scope_RemoveNode nid policy c s = (c', s', r) ->
  match r with
  | Fail _ => s' = s
  | Ok _ => exists h, s_index s !! nid = Some h /\ phase (rec s h) <> PhaseClaimed /\ inv s' /\
      s_index s' = delete nid (s_index s) /\
      (forall u v, edge s' u v <-> edge s u v /\ u <> h /\ v <> h) /\
      (forall x, live s' x <-> live s x /\ x <> h) /\
      (forall x, live s x -> x <> h -> fixed (rec s' x) = fixed (rec s x) /\
         (phase (rec s x) = PhaseDone -> outcome (rec s' x) = outcome (rec s x)) /\
         (~ (policy = CascadeFail /\ edge s h x) -> holds s s' x)) /\
      (policy = CascadeReject -> forall x, ~ edge s h x) /\
      (epoch (rec s h) <= s_epochFloor s')%Z
  end.
Proof.
  intros Hi E. pose proof (RemoveNode_ok _ _ _ _ _ _ _ E Hi) as H. destruct r as [ef|]; [|done].
  destruct H as (h & s1 & s2 & [H1 H2 H3 H4 H5 D H7 H8]). exists h.
  pose proof (so_evolves _ _ _ H4) as V1. pose proof (so_evolves _ _ _ H7) as V2.
  pose proof (lookup_live s nid h (bi_graph _ _ (inv_base _ Hi)) H1) as [Hl Hid].
  split_and!; [done|done|apply H7| | | | | |].
  - rewrite (proj1 (sg_index _ _ (ev_graph _ _ V2))), (dr_index _ _ _ D).
    by rewrite (proj1 (sg_index _ _ (ev_graph _ _ V1))), (sg_id _ _ (ev_graph _ _ V1)), Hid.
  - intros u v. by rewrite (ev_edge _ _ V2), (dr_edge _ _ _ D), (ev_edge _ _ V1).
  - intros x. by rewrite (ev_live _ _ V2), (dr_live _ _ _ D), (ev_live _ _ V1).
  - intros x Hx Hne. destruct (dr_rec _ _ _ D x Hne) as [d Ed]. split_and!.
    + rewrite (sg_fixed _ _ (ev_graph _ _ V2)), Ed. apply (sg_fixed _ _ (ev_graph _ _ V1)).
    + intros Hd. pose proof (ev_done _ _ V1 x Hd) as Eo.
      assert (Hd2 : phase (rec s2 x) = PhaseDone) by (rewrite Ed; by apply (ev_phase_done _ _ V1)).
      rewrite (ev_done _ _ V2 x Hd2), Ed. exact Eo.
    + intros Hn. eapply holds_trans; [by apply H4|]. eapply holds_trans; [by eapply dropped_holds|].
      by apply H7; intros [].
  - intros Hp x He. unfold edge in He. rewrite (H3 Hp) in He. set_solver.
  - rewrite (ev_floor _ _ V2), (dr_floor _ _ _ D), (ev_epoch _ _ V1). lia.
Qed.

(** when [Cancel] reports no error, every node it named is terminal;
    nodes it did not name keep their leases, and no outcome is overwritten. *)
Lemma cancel_terminates ids (c c' : C) s s' out e :
  inv s -> scope_Cancel ids c s = (c', s', out, e) ->
  inv s' /\ final s s' /\
  (forall x, id (rec s x) ∉ ids -> holds s s' x) /\
  (e = None -> forall i h, i ∈ ids -> s_index s !! i = Some h -> phase (rec s' h) = PhaseDone).
Proof.
  intros Hi E. destruct (Cancel_ok _ _ _ _ _ _ _ E Hi) as [S H].
  split_and!; [apply S|by eapply final_step|apply S|done].
Qed.

(** After [CancelScope] every node is terminal, in whatever order the
    index was visited; outcomes that were there are kept. *)
Lemma cancelScope_total visit (c c' : C) s s' out :
  inv s -> visits_all visit s -> scope_CancelScope visit c s = (c', s', out) ->
  inv s' /\ final s s' /\ (forall h, live s' h <-> live s h) /\
  (forall h, live s' h -> phase (rec s' h) = PhaseDone).
Proof.
  intros Hi Hv E. destruct (CancelScope_ok _ _ _ _ _ _ E Hi Hv) as [S H].
  split_and!; [apply S|by eapply final_step|apply ev_live, S|done].
Qed.

(** [CollectTerminal] deletes only terminal nodes last updated at or
    before the cut, none of which has a successor left; what remains is
    untouched. *)
Lemma collect_only_old_terminal visit cut limit s s' n more :
  inv s -> index_visit visit s -> scope_CollectTerminal visit cut limit s = (s', n, more) ->
  inv s' /\
  (forall x, live s x -> ~ live s' x -> phase (rec s x) = PhaseDone /\ (updatedAt (rec s x) <= cut)%Z) /\
  (forall x, live s' x -> live s x /\ rec s' x = rec s x) /\
  (forall u v, edge s u v -> live s' v -> live s' u).
Proof.
  intros Hi Hv E. pose proof (CollectTerminal_ok _ _ _ _ _ _ _ E Hi Hv) as K.
  split_and!; [apply K|apply K|intros x Hx; split; [by apply (co_live _ _ _ K)|by apply (co_rec _ _ _ K)]|apply K].
Qed.

(** ending a node ends: with the fuel the model gives it the fan-out stops
    because its queue is empty, and more would change nothing. *)
Lemma terminate_terminates k h st rs msg (c : C) s out :
  inv s -> live s h -> (st = StatusSuccess /\ rs = ReasonNone) \/ st = StatusError ->
  terminate_loop (terminate_fuel s + k) [mkItem h st rs msg] c s out = terminate h st rs msg c s out.
Proof.
  intros Hi Hl Hst. apply terminate_loop_more; [done|by apply Forall_singleton|].
  pose proof (terminate_fuel_enough s). simpl. lia.
Qed.

End Ops.

(** ** The properties at the concrete scope *)

Notation clk1 := (clock_after demo_ops).

Lemma addNodes_atomic_witness :
  exists c' s', scope_AddNodes [spec "x" "build" 0 ["nope"%string]] clk1 demo = (c', s', Fail (Err ErrNotFound)) /\
    restored demo s' /\ inv s'.
Proof.
  assert (R : snd (scope_AddNodes [spec "x" "build" 0 ["nope"%string]] clk1 demo) = Fail (Err ErrNotFound))
    by (vm_compute; reflexivity).
  destruct (scope_AddNodes [spec "x" "build" 0 ["nope"%string]] clk1 demo) as [[c' s'] r] eqn:E. simpl in R. subst r.
  exists c', s'. split; [reflexivity|].
  assert (Hr : room 1 demo) by by_evaluation.
  exact (addNodes_atomic [spec "x" "build" 0 ["nope"%string]] clk1 c' demo s' _ demo_inv Hr E).
Defined.

Lemma addNodes_exact_witness :
  exists c' s' effects, scope_AddNodes demo_specs clk0 empty = (c', s', Ok effects) /\
    named_nodes demo_specs empty s' /\ (forall u v, edge s' u v <-> edge empty u v \/ wanted s' demo_specs u v).
Proof.
  assert (R : is_ok (snd (scope_AddNodes demo_specs clk0 empty)) = true) by (vm_compute; reflexivity).
  destruct (scope_AddNodes demo_specs clk0 empty) as [[c' s'] [ef|e]] eqn:E; [|discriminate R].
  exists c', s', ef. split; [reflexivity|].
  assert (Hr : room 4 empty) by by_evaluation.
  destruct (addNodes_exact demo_specs clk0 c' empty s' ef empty_inv Hr E) as (H1 & H2 & _). split; [exact H1|exact H2].
Defined.

Lemma addEdges_all_or_nothing_witness :
  exists c' s' effects, scope_AddEdges [mkEdge "d" "c"] clk1 demo = (c', s', Ok effects) /\
    s_index s' = s_index demo /\ inv s'.
Proof.
  assert (R : is_ok (snd (scope_AddEdges [mkEdge "d" "c"] clk1 demo)) = true) by (vm_compute; reflexivity).
  destruct (scope_AddEdges [mkEdge "d" "c"] clk1 demo) as [[c' s'] [ef|e]] eqn:E; [|discriminate R].
  exists c', s', ef. split; [reflexivity|].
  destruct (addEdges_all_or_nothing _ _ _ _ _ _ demo_inv E) as (H1 & _ & _ & _ & H2 & _). split; [exact H1|exact H2].
Defined.

Lemma has_edge s u v : existsb (Nat.eqb v) (s_succ s !!! u) = true -> edge s u v.
Proof. intros (x & Hx & ->%Nat.eqb_eq)%existsb_exists. by apply list_elem_of_In. Qed.

(** [c -> a] would close the cycle [a -> b -> c -> a]. *)
Lemma cycle_rejected_iff_witness :
  exists c' s' r path, scope_AddEdges [mkEdge "c" "a"] clk1 demo = (c', s', r) /\
    r = Fail (CycleError (s_name demo) "c" "a" ((fun h => id (rec demo h)) <$> path)) /\
    is_path demo path /\ head path = Some 0 /\ last path = Some 2.
Proof.
  destruct (scope_AddEdges [mkEdge "c" "a"] clk1 demo) as [[c' s'] r] eqn:E.
  destruct (cycle_rejected_iff "c" "a" 2 0 clk1 c' demo s' r demo_inv ltac:(vm_compute; reflexivity)
    ltac:(vm_compute; reflexivity) ltac:(discriminate)
    ltac:(intros H%list_elem_of_In; vm_compute in H; exact H) ltac:(vm_compute; discriminate) E) as [H _].
  destruct H as [path H].
  - apply (rtc_l _ 0 1 2); [apply has_edge; vm_compute; reflexivity|]. apply rtc_once. apply has_edge; vm_compute; reflexivity.
  - exists c', s', r, path. split; [reflexivity|exact H].
Defined.

Lemma demo_live h : h < 4 -> live demo h.
Proof. intros H. apply live_alive. do 4 (destruct h as [|h]; [vm_compute; reflexivity|]). lia. Qed.

(** [d] is ranked after [b], so that [d -> b] needs a reordering. *)
Lemma addEdgeOrder_correct_witness :
  exists s' r, addEdgeOrder 3 1 demo = (s', r) /\ (rank demo 1 < rank demo 3)%Z /\
    ranked s' /\ (rank s' 3 < rank s' 1)%Z.
Proof.
  pose proof (addEdgeOrder_correct demo 3 1
    (gi_wf _ (bi_graph _ _ (inv_base _ demo_inv))) (gi_ranked _ (bi_graph _ _ (inv_base _ demo_inv)))
    (demo_live 3 ltac:(lia)) (demo_live 1 ltac:(lia)) ltac:(discriminate)) as H.
  assert (R : cyclePath (snd (addEdgeOrder 3 1 demo)) = None) by (vm_compute; reflexivity).
  destruct (addEdgeOrder 3 1 demo) as [s' r]. simpl in R. rewrite R in H.
  exists s', r. split; [reflexivity|]. split; [vm_compute; reflexivity|]. split; apply H.
Defined.

Lemma removeEdges_exact_witness :
  exists c' s' effects, scope_RemoveEdges [mkEdge "a" "b"] clk1 demo = (c', s', Ok effects) /\
    ~ edge s' 0 1 /\ inv s'.
Proof.
  assert (R : is_ok (snd (scope_RemoveEdges [mkEdge "a" "b"] clk1 demo)) = true) by (vm_compute; reflexivity).
  destruct (scope_RemoveEdges [mkEdge "a" "b"] clk1 demo) as [[c' s'] [ef|e]] eqn:E; [|discriminate R].
  exists c', s', ef. split; [reflexivity|].
  destruct (removeEdges_exact _ _ _ _ _ _ demo_inv E) as (_ & _ & H3 & H4 & _).
  split; [|exact H4]. intros [_ Hn]%H3. apply Hn. exists (mkEdge "a" "b"). split; [by left|].
  split; vm_compute; reflexivity.
Defined.

Lemma removeNode_exact_witness :
  exists c' s' effects, scope_RemoveNode "b" CascadeDetach clk1 demo = (c', s', Ok effects) /\
    s_index s' = delete "b"%string (s_index demo) /\ ~ live s' 1.
Proof.
  assert (R : is_ok (snd (scope_RemoveNode "b" CascadeDetach clk1 demo)) = true) by (vm_compute; reflexivity).
  destruct (scope_RemoveNode "b" CascadeDetach clk1 demo) as [[c' s'] [ef|e]] eqn:E; [|discriminate R].
  exists c', s', ef. split; [reflexivity|].
  destruct (removeNode_exact _ _ _ _ _ _ _ demo_inv E) as (h & H1 & _ & _ & H2 & _ & H3 & _).
  assert (E1 : s_index demo !! "b"%string = Some 1) by (vm_compute; reflexivity).
  split; [exact H2|]. intros [_ Hn]%H3. congruence.
Defined.

Lemma cancel_terminates_witness :
  exists c' s' out, scope_Cancel ["a"%string] clk1 demo = (c', s', out, None) /\ phase (rec s' 0) = PhaseDone.
Proof.
  assert (R : snd (scope_Cancel ["a"%string] clk1 demo) = None) by (vm_compute; reflexivity).
  destruct (scope_Cancel ["a"%string] clk1 demo) as [[[c' s'] out] e] eqn:E. simpl in R. subst e.
  exists c', s', out. split; [reflexivity|].
  destruct (cancel_terminates _ _ _ _ _ _ _ demo_inv E) as (_ & _ & _ & H).
  apply (H eq_refl "a"%string); [by left|vm_compute; reflexivity].
Defined.

Lemma cancelScope_total_witness :
  exists c' s' out, scope_CancelScope (map_to_list (s_index demo)).*2 clk1 demo = (c', s', out) /\
    forall h, live s' h -> phase (rec s' h) = PhaseDone.
Proof.
  destruct (scope_CancelScope (map_to_list (s_index demo)).*2 clk1 demo) as [[c' s'] out] eqn:E.
  exists c', s', out. split; [reflexivity|].
  apply (cancelScope_total _ _ _ _ _ _ demo_inv (range_visits _ (bi_graph _ _ (inv_base _ demo_inv))) E).
Defined.

(** [d] is cancelled and then collected. *)
Lemma collect_only_old_terminal_witness :
  exists s s' more, inv s /\ scope_CollectTerminal (map_to_list (s_index s)) 2000 10 s = (s', 1%Z, more) /\
    (forall x, live s x -> ~ live s' x -> phase (rec s x) = PhaseDone /\ (updatedAt (rec s x) <= 2000)%Z).
Proof.
  pose (s := state_after (demo_ops ++ [OpCancel ["d"%string]])).
  assert (Hi : inv s) by (apply state_after_inv; by_evaluation). exists s.
  assert (R : snd (fst (scope_CollectTerminal (map_to_list (s_index s)) 2000 10 s)) = 1%Z) by (vm_compute; reflexivity).
  destruct (scope_CollectTerminal (map_to_list (s_index s)) 2000 10 s) as [[s' n] more] eqn:E. simpl in R. subst n.
  exists s', more. split; [exact Hi|]. split; [reflexivity|].
  apply (collect_only_old_terminal _ _ _ _ _ _ _ Hi (range_index _ (bi_graph _ _ (inv_base _ Hi))) E).
Defined.

Lemma terminate_terminates_witness :
  terminate_loop (terminate_fuel demo + 7) [mkItem 0 StatusSuccess ReasonNone ""] clk0 demo [] =
  terminate 0 StatusSuccess ReasonNone "" clk0 demo [].
Proof.
  apply (terminate_terminates 7 0 StatusSuccess ReasonNone "" clk0 demo []).
  - apply demo_inv.
  - apply demo_live. lia.
  - left. split; reflexivity.
Defined.
