(* ===== verification/LeaseProps.v ===== *)
(** * Properties of the lease protocol

    What [Claim], [Complete], [Extend] and [Sweep] promise to workers. *)
From S2P Require Import Prelude Types Config Heap HeapFacts Scope Topo TopoFacts Graph Lease Memory Invariant ScopeFacts DepFacts.
From S2P Require Import Evolve Terminate LeaseFacts EdgeFacts NodeFacts GraphFacts GraphOps Removal Machine Advance Progress Scenario.

Section Ops.
Context {C : Type} `{!ClockSource C}.

(** C36: leases are exclusive: the leases one [Claim] returns are on distinct
    nodes of the requested kinds; each is the current lease of its node, in
    the name of the caller, and lasts for the clamped timeout; and a lease that had
    not expired when the call read the clock is neither revoked nor granted
    to the caller. *)
Theorem claim_exclusive req (c c' : C) s s' r :
  inv s -> scope_Claim req c s = (c', s', r) ->
  let now := fst (clk_Now c) in
  NoDup (l_NodeID <$> cl_Leases r) /\
  (forall l, l ∈ cl_Leases r -> exists h, current s' l h /\ worker (rec s' h) = cr_WorkerID req /\
     s_deadline s' !!! h = i64 (now + ClampLease (claim_cfg s) (cr_Timeout req)) /\
     allowed (cr_Kinds req) (kind (rec s' h))) /\
  (forall x, in_phase s PhaseClaimed x -> (now < s_deadline s !!! x)%Z ->
     holds s s' x /\ epoch (rec s' x) = epoch (rec s x) /\ forall l, l ∈ cl_Leases r -> l_NodeID l <> id (rec s x)).
Proof.
  intros Hi E now. destruct (Claim_ok _ _ _ _ _ _ E Hi) as (s1 & hs & [H1 _ G _ _] & ->). fold now in H1, G.
  pose proof (gr_graph _ _ _ _ _ _ _ G) as Sg. pose proof (bi_graph _ _ (inv_base _ (gr_inv _ _ _ _ _ _ _ G))) as Hg'.
  assert (Hlv : forall h, h ∈ hs -> live s' h).
  { intros h Hh. apply (sg_live _ _ Sg). apply (gr_new _ _ _ _ _ _ _ G h Hh). }
  assert (Hinj : forall x y, live s' x -> live s' y -> id (rec s' x) = id (rec s' y) -> x = y).
  { intros x y Hx Hy Exy. assert (s_index s' !! id (rec s' x) = Some x) by (by apply (gi_index s' Hg')).
    assert (s_index s' !! id (rec s' y) = Some y) by (by apply (gi_index s' Hg')). congruence. }
  split_and!.
  - rewrite <- list_fmap_compose. apply NoDup_fmap_on; [|apply G]. intros x y Hx Hy. by apply Hinj; apply Hlv.
  - intros l (h & -> & Hh)%list_elem_of_fmap. exists h.
    destruct (gr_new _ _ _ _ _ _ _ G h Hh) as ([Hr Hk] & Er & Ed). split_and!; [split_and!| | |].
    + by apply (gi_index s' Hg'); split; [apply Hlv|].
    + by rewrite Er.
    + done.
    + by rewrite Er.
    + exact Ed.
    + by rewrite (sg_kind _ _ Sg).
  - intros x [Hlx Hpx] Hd. assert (Hold : holds s s1 x) by (apply H1; unfold expired; lia).
    destruct (Hold Hpx) as (Hp1 & _ & _).
    assert (Hx : x ∉ hs) by (intros Hx; destruct (gr_new _ _ _ _ _ _ _ G x Hx) as ([[_ ?] _] & _); congruence).
    split_and!.
    + eapply holds_trans; [exact Hold|by eapply granted_holds].
    + destruct (gr_old _ _ _ _ _ _ _ G x Hx) as [-> _]. apply (ev_epoch _ _ (so_evolves _ _ _ H1)).
    + intros l (h & -> & Hh)%list_elem_of_fmap. simpl. intros Eid. apply Hx.
      replace x with h; [done|]. apply Hinj; [by apply Hlv| |].
      * by apply (sg_live _ _ Sg), (ev_live _ _ (so_evolves _ _ _ H1)).
      * by rewrite Eid, (sg_id _ _ Sg), (sg_id _ _ (ev_graph _ _ (so_evolves _ _ _ H1))).
Qed.






(** [Claim] is bounded and wastes nothing: it grants at most the number
    asked for, never raises the number of leases in flight above the scope's
    limit, and grants fewer than asked only when that limit is reached or no
    ready node of the requested kinds is left; retries that were due have been
    made ready by then. *)
Lemma claim_limits req (c c' : C) s s' r :
  inv s -> scope_Claim req c s = (c', s', r) ->
  let n := Z.of_nat (length (cl_Leases r)) in
  let limit := c_MaxInFlight (claim_cfg s) in
  (n <= Z.max (cr_Max req) 1)%Z /\
  ((0 < limit)%Z -> (Z.of_nat (in_flight s') <= Z.max (Z.of_nat (in_flight s)) limit)%Z) /\
  ((n < Z.max (cr_Max req) 1)%Z ->
   ((0 < limit)%Z /\ (limit <= Z.of_nat (in_flight s'))%Z) \/ (forall h, ~ claimable (cr_Kinds req) s' h)) /\
  (forall h, in_phase s' PhaseScheduled h -> (fst (clk_Now c) < s_readyAt s' !!! h)%Z).
Proof.
  intros Hi E n limit. pose proof (Claim_limit _ _ _ _ _ _ E Hi) as Hlim.
  destruct (Claim_ok _ _ _ _ _ _ E Hi) as (s1 & hs & K & Er).
  assert (n = Z.of_nat (length hs)) as En by (unfold n; by rewrite Er, length_fmap). rewrite En.
  pose proof (ca_grant _ _ _ _ _ _ K) as G. split_and!; [apply K|exact Hlim| |].
  - intros Hn. destruct (ca_stop _ _ _ _ _ _ K) as [?|[Hm|Hm]]; [lia|left|by right].
    rewrite (in_flight_stats _ (gr_inv _ _ _ _ _ _ _ G)) in Hm. done.
  - intros h [Hl Hp]. assert (Hx : h ∉ hs).
    { intros Hx. destruct (gr_new _ _ _ _ _ _ _ G h Hx) as (_ & Ew & _). rewrite Ew in Hp. done. }
    destruct (gr_old _ _ _ _ _ _ _ G h Hx) as [Eo _]. rewrite Eo in Hp.
    assert (Hs1 : in_phase s1 PhaseScheduled h) by (split; [by apply (sg_live _ _ (gr_graph _ _ _ _ _ _ _ G))|done]).
    pose proof (ca_due _ _ _ _ _ _ K h Hs1) as Hd. by rewrite (gr_readyAt _ _ _ _ _ _ _ G).
Qed.

(** C38: [Complete] does what the worker reported.  An accepted report ends
    the node with success and its result; or with an error and the reason
    skipped; or, for any other failure, ends it when its attempts are used up
    and otherwise schedules a retry after the back-off.  Other nodes keep
    their leases and outcomes. *)
Theorem complete_outcome req (c c' : C) s s' res :
  inv s -> scope_Complete req c s = (c', s', Ok res) ->
  exists h, current s (co_Lease req) h /\ completed req c s s' h res /\
    inv s' /\ final s s' /\ (forall x, x <> h -> holds s s' x) /\ (all_settled s -> all_settled s').
Proof.
  intros Hi E. destruct (Complete_ok _ _ _ _ _ _ E Hi) as (h & Hc & S & Hd). exists h.
  split_and!; [done|done|apply S|by eapply final_step| |by eapply step_all_settled].
  intros x Hx. apply S. congruence.
Qed.

(** [Complete] is refused only for cause, and then changes nothing: the
    node is unknown, the lease is not the one the node is held under, or the
    result is larger than the scope allows. *)
Lemma complete_refusal req (c c' : C) s s' e :
  scope_Complete req c s = (c', s', Fail e) ->
  s' = s /\
  ((e = Err ErrNotFound /\ lookup_id s (l_NodeID (co_Lease req)) = None) \/
   (e = Err ErrLeaseMismatch /\ exists h, lookup_id s (l_NodeID (co_Lease req)) = Some h /\ ~ current s (co_Lease req) h) \/
   (e = PayloadTooLargeError (Z.of_nat (length (co_Result req))) (c_PayloadCap (claim_cfg s)) /\ co_Success req = true /\
    (c_PayloadCap (claim_cfg s) < Z.of_nat (length (co_Result req)))%Z /\ exists h, current s (co_Lease req) h)).
Proof.
  unfold scope_Complete. destruct (lookup_id s _) as [h|] eqn:El; [|intros [= <- <- <-]; auto].
  destruct (fenced (rec s h) (co_Lease req)) eqn:Ef.
  { intros [= <- <- <-]. split; [done|]. right. left. split; [done|]. exists h. split; [done|].
    intros (_ & H1 & H2). assert (fenced (rec s h) (co_Lease req) = false); [by apply fenced_false|congruence]. }
  apply fenced_false in Ef. destruct (clk_Now c) as [now c1]. destruct (co_Success req).
  - destruct (Z.ltb_spec (c_PayloadCap (Resolved (s_cfg s))) (Z.of_nat (length (co_Result req)))) as [Hlt|_].
    + intros [= <- <- <-]. split; [done|]. right. right. split_and!; [done..|]. exists h. by split.
    + by destruct (terminate _ _ _ _ _ _ _) as [[]].
  - destruct (bool_decide _); [by destruct (terminate _ _ _ _ _ _ _) as [[]]|].
    destruct (failAttempt _ _ _ _ _ _ _ _) as [[]]. by destruct (bool_decide _).
Qed.

(** [Extend] renews exactly the lease it is given: it is accepted only
    while that lease is current, moves its deadline to now plus the clamped
    timeout, reports that deadline, and changes no record and no other lease. *)
Lemma extend_exact req (c c' : C) s s' r :
  inv s -> scope_Extend req c s = (c', s', r) ->
  match r with
  | Fail _ => s' = s /\ forall h, ~ current s (ex_Lease req) h
  | Ok t => exists h, current s (ex_Lease req) h /\ inv s' /\ s_recs s' = s_recs s /\
      let d := i64 (fst (clk_Now c) + ClampLease (claim_cfg s) (ex_Timeout req)) in
      t = unix d /\ s_deadline s' !!! h = d /\ forall x, x <> h -> s_deadline s' !!! x = s_deadline s !!! x
  end.
Proof.
  intros Hi E. pose proof (Extend_ok _ _ _ _ _ _ E Hi) as H. destruct r as [t|e].
  - destruct H as (h & Hc & Hd & Hi' & Ht & Ed). exists h. split_and!; [done|done|apply Hd|].
    intros d. fold d in Ht, Ed. split_and!; [done| |].
    + rewrite Ed, lookup_total_insert, decide_True; [done|]. split; [done|].
      rewrite (gi_deadline s (bi_graph _ _ (inv_base _ Hi))). destruct Hc as (Hc & _).
      apply live_lt. by apply (lookup_live s _ h (bi_graph _ _ (inv_base _ Hi)) Hc).
    + intros x Hx. by rewrite Ed, list_lookup_total_insert_ne.
  - split; [done|]. intros h (H1 & H2 & H3). unfold scope_Extend in E. rewrite H1 in E.
    rewrite (proj2 (fenced_false _ _) (conj H2 H3)) in E. by destruct (clk_Now c).
Qed.

(** [Sweep] reclaims expired leases and no others: at most the batch
    limit, all of them when it reports that no more is left; a lease that has
    not expired is kept, none is granted, and retries that were due are ready. *)
Lemma sweep_reclaims limit (c c' : C) s s' r :
  inv s -> scope_Sweep limit c s = (c', s', r) ->
  let now := fst (clk_Now c) in
  let batch := if (limit <=? 0)%Z then c_SweepBatchSize (claim_cfg s) else limit in
  inv s' /\ final s s' /\ (0 <= sw_Reclaimed r <= Z.max 0 batch)%Z /\
  (forall x, (now < s_deadline s !!! x)%Z -> holds s s' x) /\
  (forall x, in_phase s' PhaseClaimed x -> in_phase s PhaseClaimed x) /\
  (sw_More r = false -> forall x, in_phase s' PhaseClaimed x -> (now < s_deadline s' !!! x)%Z) /\
  (forall x, in_phase s' PhaseScheduled x -> (now < s_readyAt s' !!! x)%Z).
Proof.
  intros Hi E. pose proof (Sweep_ok _ _ _ _ _ _ E Hi) as S. unfold scope_Sweep in E.
  destruct (clk_Now c) as [now c0]. simpl in *. set (batch := if (limit <=? 0)%Z then _ else limit) in *.
  destruct (reclaimExpired _ _ _ _ _ _) as [[[[c1 s1] o1] n] more] eqn:E1.
  destruct (promoteScheduled _ _ _) as [[c2 s2] o2] eqn:E2. injection E as <- <- <-.
  destruct (tidy_ok _ _ _ _ _ _ _ _ _ _ _ _ _ _ E1 E2 Hi) as (_ & R & P).
  pose proof (rc_step _ _ _ _ _ _ _ R) as S1. apply promoteScheduled_ok in E2 as (S2 & _); [|apply S1].
  split_and!; [apply S|by eapply final_step| | | | | |].
  - apply (rc_count _ _ _ _ _ _ _ R).
  - apply (rc_count _ _ _ _ _ _ _ R).
  - intros x Hx. apply S. unfold expired. lia.
  - intros x [Hl Hp]. split; [by apply (ev_live _ _ (so_evolves _ _ _ S))|by apply (ev_claimed _ _ (so_evolves _ _ _ S))].
  - simpl. intros Hm x [Hl Hp]. change (live s2 x) in Hl. change (phase (rec s2 x) = PhaseClaimed) in Hp.
    assert (Hp1 : in_phase s1 PhaseClaimed x).
    { split; [by apply (ev_live _ _ (so_evolves _ _ _ S2))|by apply (ev_claimed _ _ (so_evolves _ _ _ S2))]. }
    destruct (so_holds _ _ _ S2 x ltac:(intros []) (proj2 Hp1)) as (_ & _ & ->).
    pose proof (rc_none _ _ _ _ _ _ _ R Hm x Hp1). unfold expired in *. lia.
  - exact P.
Qed.

End Ops.

(** ** The properties at the concrete scope *)

Notation clk1 := (clock_after demo_ops).
Notation clk2 := (clock_after leased_ops).

Lemma claim_exclusive_witness :
  exists c' s' r, scope_Claim take_all clk2 leased = (c', s', r) /\ length (cl_Leases r) = 1 /\
    NoDup (l_NodeID <$> cl_Leases r) /\ (in_phase leased PhaseClaimed 0 -> holds leased s' 0).
Proof.
  assert (L : length (cl_Leases (snd (scope_Claim take_all clk2 leased))) = 1) by (vm_compute; reflexivity).
  assert (D : (fst (clk_Now clk2) < s_deadline leased !!! 0%nat)%Z) by (vm_compute; reflexivity).
  destruct (scope_Claim take_all clk2 leased) as [[c' s'] r] eqn:E. exists c', s', r.
  destruct (claim_exclusive _ _ _ _ _ _ leased_inv E) as (H1 & _ & H3).
  split; [reflexivity|]. split; [exact L|]. split; [exact H1|]. intros Hp. apply (H3 0 Hp D).
Defined.



Lemma claim_limits_witness :
  exists c' s' r, scope_Claim take_all clk1 demo = (c', s', r) /\
    (Z.of_nat (length (cl_Leases r)) <= 10)%Z /\ forall h, ~ claimable [] s' h.
Proof.
  assert (L : length (cl_Leases (snd (scope_Claim take_all clk1 demo))) = 2) by (vm_compute; reflexivity).
  assert (M : c_MaxInFlight (claim_cfg demo) = 0%Z) by (vm_compute; reflexivity).
  destruct (scope_Claim take_all clk1 demo) as [[c' s'] r] eqn:E. exists c', s', r.
  destruct (claim_limits _ _ _ _ _ _ demo_inv E) as (H1 & _ & H3 & _). simpl in L.
  split; [reflexivity|]. split; [exact H1|]. rewrite L, M in H3. destruct H3 as [H3|H3]; [simpl; lia|lia|exact H3].
Defined.

Definition done_req : CompleteRequest := mkComplete lease_a true ReasonNone "" [].
Definition fail_req : CompleteRequest := mkComplete lease_a false ReasonNone "boom" [].

(** A first failure of two allowed attempts is retried. *)
Lemma complete_outcome_witness :
  exists c' s' res, scope_Complete fail_req clk2 leased = (c', s', Ok res) /\ cp_Retrying res = true /\
    exists h, current leased lease_a h /\ completed fail_req clk2 leased s' h res.
Proof.
  assert (R : is_ok (snd (scope_Complete fail_req clk2 leased)) = true) by (vm_compute; reflexivity).
  assert (T : match snd (scope_Complete fail_req clk2 leased) with Ok res => cp_Retrying res | Fail _ => false end = true)
    by (vm_compute; reflexivity).
  destruct (scope_Complete fail_req clk2 leased) as [[c' s'] [res|e]] eqn:E; [|discriminate R].
  destruct (complete_outcome _ _ _ _ _ _ leased_inv E) as (h & H1 & H2 & _).
  exists c', s', res. split; [reflexivity|]. split; [exact T|]. exists h. split; [exact H1|exact H2].
Defined.

(** A second report under the same lease is refused. *)
Lemma complete_refusal_witness :
  exists c' s', scope_Complete done_req (clock_after done_ops) done_a = (c', s', Fail (Err ErrLeaseMismatch)) /\ s' = done_a.
Proof.
  assert (R : snd (scope_Complete done_req (clock_after done_ops) done_a) = Fail (Err ErrLeaseMismatch))
    by (vm_compute; reflexivity).
  destruct (scope_Complete done_req (clock_after done_ops) done_a) as [[c' s'] r] eqn:E. simpl in R. subst r.
  exists c', s'. split; [reflexivity|]. apply (complete_refusal done_req (clock_after done_ops) c' done_a s' _ E).
Defined.

Lemma extend_exact_witness :
  exists c' s' t, scope_Extend (mkExtend lease_a (60 * Second)) clk2 leased = (c', s', Ok t) /\
    exists h, current leased lease_a h /\ s_recs s' = s_recs leased.
Proof.
  assert (R : is_ok (snd (scope_Extend (mkExtend lease_a (60 * Second)) clk2 leased)) = true) by (vm_compute; reflexivity).
  destruct (scope_Extend (mkExtend lease_a (60 * Second)) clk2 leased) as [[c' s'] [t|e]] eqn:E; [|discriminate R].
  exists c', s', t. split; [reflexivity|].
  destruct (extend_exact _ _ _ _ _ _ leased_inv E) as (h & H1 & _ & H2 & _). exists h. split; [exact H1|exact H2].
Defined.

(** Long after the deadline, the sweep takes the lease back. *)
Lemma sweep_reclaims_witness :
  exists c' s' r, scope_Sweep 0 (Ticker (100 * Second)) leased = (c', s', r) /\ sw_Reclaimed r = 1%Z /\
    forall x, ~ in_phase s' PhaseClaimed x.
Proof.
  assert (R : sw_Reclaimed (snd (scope_Sweep 0 (Ticker (100 * Second)) leased)) = 1%Z /\
              sw_More (snd (scope_Sweep 0 (Ticker (100 * Second)) leased)) = false /\
              items (s_leases (snd (fst (scope_Sweep 0 (Ticker (100 * Second)) leased)))) = [])
    by (vm_compute; repeat split).
  destruct (scope_Sweep 0 (Ticker (100 * Second)) leased) as [[c' s'] r] eqn:E. destruct R as (R1 & _ & R3).
  destruct (sweep_reclaims _ _ _ _ _ _ leased_inv E) as (Hi & _).
  exists c', s', r. split; [reflexivity|]. split; [exact R1|]. intros x Hx.
  apply (good_mem _ _ _ (hp_leases _ _ _ _ (inv_heap _ Hi)) x) in Hx. simpl in R3. rewrite R3 in Hx. apply elem_of_nil in Hx. exact Hx.
Defined.
