(* ===== verification/SubscribeProps.v ===== *)
(** * What a subscriber sees

    The stream of one subscription against the events offered to it, whatever
    its consumer does; the manager's delivery indexes against its registry;
    and [publish] against offering every event to every subscription. *)
From S2P Require Import Prelude Types Config Subscribe.

(** ** One subscription *)

(** What happens to a subscription: the producer offers, the consumer
    receives, someone ends it. *)
Inductive activity :=
| Offered (ev : Event) (n1 n2 : nat)
| Received (n : nat)
| Ended (err : option end_error).

(** The subscription and the events it was offered while it was open. *)
Definition act (x : Subscription * list Event) (a : activity) : Subscription * list Event :=
  let '(s, offered) := x in
  match a with
  | Offered ev n1 n2 =>
    (fst (offer n1 n2 ev s), if sub_done s then offered else offered ++ [ev])
  | Received n => (receive n s, offered)
  | Ended err => (finish err s, offered)
  end.

(** Everything the consumer has got or will still get. *)
Definition stream (s : Subscription) : list Event := sub_received s ++ sub_ch s.

(** An event as delivered: itself, or with the gap flag set. *)
Definition carries (e e' : Event) : Prop := e' = e \/ e' = e <| ev_Gap := true |>.

(** [thinned offered got]: [got] is [offered] in order, some events flagged,
    and after every event that is missing a flagged one follows. *)
Inductive thinned : list Event -> list Event -> Prop :=
| th_nil : thinned [] []
| th_keep e e' o g : carries e e' -> thinned o g -> thinned (e :: o) (e' :: g)
| th_lose e o g : Exists (fun x => ev_Gap x = true) g -> thinned o g -> thinned (e :: o) g.

Lemma thinned_snoc o g e e' : carries e e' -> thinned o g -> thinned (o ++ [e]) (g ++ [e']).
Proof.
  intros Hc. induction 1; simpl; [constructor; [done|constructor]|by constructor|].
  apply th_lose; [|done]. apply Exists_app. by left.
Qed.

(** Losing anything is covered by a flag on the next event. *)
Lemma thinned_drop o g g' e : thinned o g -> g' `sublist_of` g -> thinned (o ++ [e]) (g' ++ [e <| ev_Gap := true |>]).
Proof.
  intros H. revert g'.
  assert (Hx : forall g, Exists (fun x => ev_Gap x = true) (g ++ [e <| ev_Gap := true |>])).
  { intros g0. apply Exists_app. right. by constructor. }
  induction H as [|a a' o g Hc H IH|a o g Hg H IH]; intros g' Hs; simpl.
  - apply sublist_nil_r in Hs as ->. simpl. constructor; [by right|constructor].
  - apply sublist_cons_r in Hs as [Hs|(k & -> & Hs)]; [apply th_lose; eauto|simpl; constructor; eauto].
  - apply th_lose; eauto.
Qed.

Lemma thinned_length o g : thinned o g -> length g <= length o.
Proof. induction 1; simpl; lia. Qed.

Lemma stream_receive n s : stream (receive n s) = stream s.
Proof. unfold stream. simpl. by rewrite <- app_assoc, take_drop. Qed.

Lemma finish_stream err s : stream (finish err s) = stream s.
Proof. unfold finish, closeLocked. by destruct (sub_done s). Qed.

(** What a full channel looks like after the second [select] made room. *)
Definition evict (n1 n2 : nat) (s : Subscription) : Subscription :=
  receive n2 ((receive n1 s) <| sub_ch ::= drop 1 |>).

Lemma evict_stream n1 n2 s :
  exists k, length k <= 1 /\ sub_received s ++ sub_ch s = sub_received s ++ take n1 (sub_ch s) ++ k ++ drop (S n1) (sub_ch s) /\
  stream (evict n1 n2 s) = sub_received s ++ take n1 (sub_ch s) ++ drop (S n1) (sub_ch s).
Proof.
  exists (take 1 (drop n1 (sub_ch s))). split_and!.
  - rewrite length_take. lia.
  - f_equal. by rewrite <- (Nat.add_1_r n1), <- drop_drop, take_drop, take_drop.
  - unfold evict. rewrite stream_receive. unfold stream. simpl. rewrite drop_drop, Nat.add_1_r. by rewrite <- app_assoc.
Qed.

Definition lagged : end_error := LibraryError (Err ErrSubscriberLagged).

(** A run keeps this, by policy. *)
Record stream_ok (pol : OverflowPolicy) (cap : Z) (s : Subscription) (offered : list Event) : Prop := {
  sk_cap : sub_cap s = cap;
  sk_pol : sub_pol s = pol;
  sk_gap : sub_gap s = false;
  sk_open : sub_done s = false -> sub_err s = None;
  sk_room : (Z.of_nat (length (sub_ch s)) <= cap)%Z;
  sk_lossy : pol <> OverflowCloseSlow ->
    thinned offered (stream s) /\
    (forall e, last offered = Some e -> exists e', last (stream s) = Some e' /\ carries e e') /\
    (exists n, sub_dropped s = u64 n /\ (Z.of_nat (length offered) - Z.of_nat (length (stream s)) <= n <= Z.of_nat (length offered))%Z);
  sk_exact : pol = OverflowCloseSlow ->
    sub_dropped s = 0%Z /\
    (stream s = offered \/
     sub_done s = true /\ sub_err s = Some lagged /\ exists ev, offered = stream s ++ [ev])
}.

Lemma new_stream_ok opts pol cap : (1 <= cap)%Z -> stream_ok pol cap (new_subscription opts pol cap) [].
Proof.
  intros Hc. split; simpl; try done; [lia|intros _|intros _; split; [done|by left]].
  split_and!; [constructor|done|exists 0%Z; simpl; split; [done|lia]].
Qed.

Lemma receive_ok pol cap n s o : stream_ok pol cap s o -> stream_ok pol cap (receive n s) o.
Proof.
  intros [H1 H2 H3 H4 H5 H6 H7]. split; rewrite ?stream_receive; try done. simpl. rewrite length_drop. lia.
Qed.

Lemma finish_ok pol cap err s o : stream_ok pol cap s o -> stream_ok pol cap (finish err s) o.
Proof.
  intros H. unfold finish, closeLocked. destruct (sub_done s) eqn:Ed; [exact H|]. destruct H as [H1 H2 H3 H4 H5 H6 H7].
  split; try done. intros Hp. destruct (H7 Hp) as [? [E|[? _]]]; [|congruence]. split; [done|left; exact E].
Qed.

(** A send that succeeds. *)
Lemma send_ok pol cap ev s o :
  stream_ok pol cap s o -> sub_done s = false -> has_room s = true -> stream_ok pol cap (send ev s) (o ++ [ev]).
Proof.
  intros [H1 H2 H3 H4 H5 H6 H7] Hd Hr. unfold has_room in Hr. apply Z.ltb_lt in Hr. rewrite H1 in Hr.
  assert (Es : stream (send ev s) = stream s ++ [ev]) by (unfold stream; simpl; by rewrite app_assoc).
  split; try done; simpl; rewrite ?length_app, ?Es; simpl; [lia| |].
  - intros Hp. destruct (H6 Hp) as (Ht & Hl & n & Hn & Hb). split_and!.
    + apply thinned_snoc; [by left|done].
    + intros e. rewrite !last_snoc. intros [= <-]. exists ev. split; [done|by left].
    + exists n. split; [done|]. rewrite !length_app. simpl. lia.
  - intros Hp. destruct (H7 Hp) as [? [->|[? _]]]; [|congruence]. split; [done|by left].
Qed.

(** The drop-oldest path makes room, and its event goes to the end. *)
Lemma evict_ok pol cap n1 n2 ev s o :
  stream_ok pol cap s o -> (1 <= cap)%Z -> pol <> OverflowCloseSlow -> has_room s = false ->
  has_room (evict n1 n2 s) = true /\
  stream_ok pol cap ((send (ev <| ev_Gap := true |>) (evict n1 n2 s)) <| sub_dropped := u64 (sub_dropped s + 1) |>) (o ++ [ev]).
Proof.
  intros [H1 H2 H3 H4 H5 H6 H7] Hc Hp Hr. unfold has_room in *. apply Z.ltb_ge in Hr. rewrite H1 in Hr.
  assert (Hch : length (sub_ch (evict n1 n2 s)) <= length (sub_ch s) - 1)
    by (unfold evict; simpl; rewrite !length_drop; lia).
  assert (Hcap : sub_cap (evict n1 n2 s) = cap) by done.
  split; [apply Z.ltb_lt; rewrite Hcap; lia|].
  destruct (H6 Hp) as (Ht & Hl & n & Hn & Hb). destruct (evict_stream n1 n2 s) as (k & Hk & E1 & E2).
  assert (Es : stream ((send (ev <| ev_Gap := true |>) (evict n1 n2 s)) <| sub_dropped := u64 (sub_dropped s + 1) |>)
               = stream (evict n1 n2 s) ++ [ev <| ev_Gap := true |>])
    by (unfold stream at 1; simpl; by rewrite app_assoc).
  assert (Hsub : stream (evict n1 n2 s) `sublist_of` stream s).
  { rewrite E2. unfold stream. rewrite E1. apply sublist_app; [done|]. apply sublist_app; [done|]. by apply sublist_inserts_l. }
  assert (Hlen : length (stream s) <= length (stream (evict n1 n2 s)) + 1).
  { rewrite E2. unfold stream. rewrite E1, !length_app. lia. }
  split; try done; rewrite ?Es.
  - cbn [sub_ch send set]. simpl. rewrite length_app. simpl. simpl in Hch. lia.
  - intros _. split_and!.
    + by eapply thinned_drop.
    + intros e. rewrite !last_snoc. intros [= <-]. eexists. split; [done|by right].
    + exists (n + 1)%Z. rewrite !length_app. split; [|simpl; lia]. simpl. by rewrite Hn, u64_add_l.
Qed.

Lemma offer_ok pol cap n1 n2 ev s o :
  stream_ok pol cap s o -> (1 <= cap)%Z -> sub_done s = false -> stream_ok pol cap (fst (offer n1 n2 ev s)) (o ++ [ev]).
Proof.
  intros H Hc Hd. unfold offer. rewrite Hd, (sk_gap _ _ _ _ H). destruct (has_room s) eqn:Hr.
  - destruct (send_ok pol cap ev s o H Hd Hr) as [K1 K2 K3 K4 K5 K6 K7]. by split.
  - rewrite (sk_pol _ _ _ _ H). case_bool_decide as Ep; cbn [fst].
    + destruct H as [H1 H2 H3 H4 H5 H6 H7]. unfold closeLocked. rewrite Hd.
      split; try done. intros _. destruct (H7 Ep) as [? [<-|[? _]]]; [|congruence].
      split; [done|]. right. simpl. rewrite H4 by done. split_and!; [done..|]. by exists ev.
    + destruct (evict_ok pol cap n1 n2 ev s o H Hc Ep Hr) as [Hroom [K1 K2 K3 K4 K5 K6 K7]].
      match goal with |- context [has_room ?t] => change (has_room t) with (has_room (evict n1 n2 s)) end.
      rewrite Hroom. by split.
Qed.

Lemma act_ok pol cap a x : (1 <= cap)%Z -> stream_ok pol cap x.1 x.2 -> stream_ok pol cap (act x a).1 (act x a).2.
Proof.
  destruct x as [s o]. simpl. intros Hc H. destruct a as [ev n1 n2|n|err]; simpl; [|by apply receive_ok|by apply finish_ok].
  destruct (sub_done s) eqn:Hd; [unfold offer; by rewrite Hd|by apply offer_ok].
Qed.

Lemma acts_ok pol cap acts : forall x, (1 <= cap)%Z -> stream_ok pol cap x.1 x.2 ->
  stream_ok pol cap (foldl act x acts).1 (foldl act x acts).2.
Proof. induction acts as [|a acts IH]; intros x Hc H; simpl; [done|]. apply IH; [done|by apply act_ok]. Qed.

(** C30: what a subscriber sees.  Whatever its consumer does, a subscription
    never buffers more than its capacity.  Under drop-oldest the consumer gets
    the offered events in order; after every missing one an event with the gap
    flag follows; the newest event offered is never the one missing; and the
    counter is at least the number of missing events.  Under close-slow it
    gets all of them until it lags, and then ends with that error, short of
    exactly the event that did not fit. *)
Theorem subscription_stream opts pol cap acts s offered :
  (1 <= cap)%Z -> foldl act (new_subscription opts pol cap, []) acts = (s, offered) ->
  (Z.of_nat (length (sub_ch s)) <= cap)%Z /\
  (pol <> OverflowCloseSlow ->
     thinned offered (stream s) /\
     (forall e, last offered = Some e -> exists e', last (stream s) = Some e' /\ carries e e') /\
     ((Z.of_nat (length offered) < 2 ^ 64)%Z ->
        (Z.of_nat (length offered) - Z.of_nat (length (stream s)) <= sub_dropped s)%Z)) /\
  (pol = OverflowCloseSlow ->
     stream s = offered \/
     sub_done s = true /\ sub_err s = Some lagged /\ exists ev, offered = stream s ++ [ev]).
Proof.
  intros Hc E. pose proof (acts_ok pol cap acts (_, []) Hc (new_stream_ok opts pol cap Hc)) as H. rewrite E in H. simpl in H.
  destruct H as [_ _ _ _ H5 H6 H7]. split_and!; [done| |intros Hp; apply (H7 Hp)].
  intros Hp. destruct (H6 Hp) as (Ht & Hl & n & Hn & Hb). split_and!; [done..|]. intros Hbig.
  pose proof (thinned_length _ _ Ht). rewrite Hn, u64_small by lia. lia.
Qed.

(** The counter is an upper bound only: a consumer that empties the channel
    between the two [select]s of [offer] misses nothing and is told it did. *)
Lemma dropped_overcounts opts ev1 ev2 :
  let '(s, offered) := foldl act (new_subscription opts OverflowDropOldest 1, [])
                         [Offered ev1 0 0; Offered ev2 1 0] in
  stream s = [ev1; ev2 <| ev_Gap := true |>] /\ offered = [ev1; ev2] /\ sub_dropped s = 1%Z.
Proof. done. Qed.

(** ** The registry *)

(** The scope filter of the object at a pointer. *)
Definition filter_of (h : Hub) (p : nat) : string := so_Scope (sub_opts (object h p)).

(** The delivery indexes agree with the master table, and no bucket is empty. *)
Record hub_ok (h : Hub) : Prop := {
  ho_next : (0 <= h_nextSub h)%Z;
  ho_subs i p : h_subs h !! i = Some p ->
    p < length (h_objects h) /\ sub_id (object h p) = i /\ (i <= h_nextSub h)%Z;
  ho_any i p : h_anyScope h !! i = Some p <-> h_subs h !! i = Some p /\ filter_of h p = ""%string;
  ho_by sc i p : (h_byScope h !! sc ≫= lookup i) = Some p <->
    h_subs h !! i = Some p /\ filter_of h p = sc /\ sc <> ""%string;
  ho_full sc b : h_byScope h !! sc = Some b -> b <> ∅
}.

Lemma emptyHub_ok : hub_ok emptyHub.
Proof. split; simpl; intros; rewrite ?lookup_empty in *; simplify_eq/=; try done; split; intros; simplify_eq/=; naive_solver. Qed.

(** Changes to objects that keep identifier and options. *)
Definition tame (f : Subscription -> Subscription) : Prop :=
  forall s, sub_id (f s) = sub_id s /\ sub_opts (f s) = sub_opts s.

Lemma object_upd p f h q : object (upd_object p f h) q = if decide (q = p /\ p < length (h_objects h)) then f (object h p) else object h q.
Proof. unfold object, upd_object. simpl. apply lookup_total_alter. Qed.

Lemma upd_ok p f h : tame f -> hub_ok h -> hub_ok (upd_object p f h).
Proof.
  intros Hf [H0 H1 H2 H3 H4].
  assert (Hi : forall q, sub_id (object (upd_object p f h) q) = sub_id (object h q)).
  { intros q. rewrite object_upd. case_decide as E; [destruct E as [-> _]; apply Hf|done]. }
  assert (Ho : forall q, filter_of (upd_object p f h) q = filter_of h q).
  { intros q. unfold filter_of. rewrite object_upd. case_decide as E; [destruct E as [-> _]; by rewrite (proj2 (Hf _))|done]. }
  split; try done; intros; rewrite ?Hi, ?Ho; try by eauto.
  simpl in *. rewrite length_alter. eauto.
Qed.

(** What [dropSub] does to the table of a scope. *)
Lemma drop_byScope i p h sc j :
  h_subs h !! i = Some p ->
  (h_byScope (dropSub i h) !! sc ≫= lookup j) =
  if decide (sc = filter_of h p /\ j = i) then None else h_byScope h !! sc ≫= lookup j.
Proof.
  intros Ep. unfold dropSub, filter_of. rewrite Ep. cbv zeta. set (sc0 := so_Scope (sub_opts (object h p))).
  simpl. destruct (h_byScope h !! sc0) as [b|] eqn:Eb; simpl.
  - destruct (Nat.eqb_spec (size (delete i b)) 0) as [Hz|Hz]; simpl.
    + apply map_size_empty_inv in Hz. destruct (decide (sc = sc0)) as [->|Hs].
      * rewrite lookup_delete_eq, Eb. simpl. case_decide as E; [done|].
        rewrite <- (lookup_delete_ne b i j) by naive_solver. by rewrite Hz, lookup_empty.
      * rewrite lookup_delete_ne by done. rewrite decide_False; naive_solver.
    + destruct (decide (sc = sc0)) as [->|Hs].
      * rewrite lookup_insert_eq, Eb. simpl. case_decide as E; [destruct E as [_ ->]; by rewrite lookup_delete_eq|].
        rewrite lookup_delete_ne; naive_solver.
      * rewrite lookup_insert_ne by done. rewrite decide_False; naive_solver.
  - case_decide as E; [|done]. destruct E as [-> ->]. by rewrite Eb.
Qed.

Lemma drop_rest i p h :
  h_subs h !! i = Some p ->
  h_subs (dropSub i h) = delete i (h_subs h) /\ h_anyScope (dropSub i h) = delete i (h_anyScope h) /\
  h_objects (dropSub i h) = h_objects h /\ h_nextSub (dropSub i h) = h_nextSub h.
Proof.
  intros Ep. unfold dropSub. rewrite Ep. cbv zeta. simpl.
  destruct (h_byScope h !! _); simpl; [by destruct (_ =? _)|done].
Qed.

Lemma drop_full i h sc b : hub_ok h -> h_byScope (dropSub i h) !! sc = Some b -> b <> ∅.
Proof.
  intros H. unfold dropSub. destruct (h_subs h !! i) as [p|]; [|apply (ho_full _ H)]. cbv zeta. simpl.
  destruct (h_byScope h !! so_Scope _) as [b0|] eqn:Eb; simpl; [|apply (ho_full _ H)].
  destruct (Nat.eqb_spec (size (delete i b0)) 0) as [Hz|Hz]; simpl.
  - intros E. apply lookup_delete_Some in E as [_ E]. by apply (ho_full _ H sc).
  - rewrite lookup_insert. case_decide; [|apply (ho_full _ H)]. intros [= <-] E. by rewrite E, map_size_empty in Hz.
Qed.

Lemma dropSub_objects i h : h_objects (dropSub i h) = h_objects h.
Proof. destruct (h_subs h !! i) eqn:E; [apply (drop_rest _ _ _ E)|unfold dropSub; by rewrite E]. Qed.

Lemma dropSub_ok i h : hub_ok h -> hub_ok (dropSub i h).
Proof.
  intros H. destruct (h_subs h !! i) as [p|] eqn:Ep; [|unfold dropSub; by rewrite Ep].
  destruct (drop_rest i p h Ep) as (Es & Ea & Eo & En).
  assert (Hf : forall q, filter_of (dropSub i h) q = filter_of h q) by (intros q; unfold filter_of, object; by rewrite Eo).
  split.
  - rewrite En. apply (ho_next _ H).
  - intros j q. unfold object. rewrite Es, Eo, En. intros E. apply lookup_delete_Some in E as [_ E]. by apply (ho_subs _ H).
  - intros j q. rewrite Ea, Es, Hf, !lookup_delete_Some. rewrite (ho_any _ H). tauto.
  - intros sc j q. rewrite (drop_byScope i p) by done. rewrite Es, Hf, lookup_delete_Some. case_decide as E.
    + destruct E as [-> ->]. split; [done|]. tauto.
    + rewrite (ho_by _ H). split; [|tauto]. intros (Hs & Hq & Hn). split_and!; try done. intros ->.
      apply E. split; [|done]. congruence.
  - intros sc b. by apply drop_full.
Qed.

(** ** Registering *)

Lemma object_new s h p : object (snd (new_object s h)) p = if decide (p = length (h_objects h)) then s else object h p.
Proof.
  unfold object, new_object. simpl. rewrite !list_lookup_total_alt. case_decide as E.
  - subst p. by rewrite lookup_app_r, Nat.sub_diag by lia.
  - destruct (decide (p < length (h_objects h))); [by rewrite lookup_app_l|].
    rewrite lookup_app_r by lia. rewrite (lookup_ge_None_2 (h_objects h)) by lia.
    by rewrite lookup_ge_None_2 by (simpl; lia).
Qed.

Lemma add_ok p h :
  hub_ok h -> h_subs h !! sub_id (object h p) = None -> p < length (h_objects h) ->
  (sub_id (object h p) <= h_nextSub h)%Z -> hub_ok (addSubLocked p h).
Proof.
  intros H Hnew Hp Hid. unfold addSubLocked. set (i := sub_id (object h p)) in *. set (sc0 := so_Scope (sub_opts (object h p))).
  assert (Hi : forall q, h_subs h !! i = Some q -> False) by (intros q; by rewrite Hnew).
  assert (Hany : h_anyScope h !! i = None) by (apply eq_None_not_Some; intros [q [E _]%(ho_any _ H)]; eauto).
  assert (Hby : forall sc, (h_byScope h !! sc ≫= lookup i) = None)
    by (intros sc; apply eq_None_not_Some; intros [q (E & _)%(ho_by _ H)]; eauto).
  case_bool_decide as Esc; split; simpl; try apply H.
  - intros j q. rewrite lookup_insert_Some. intros [[<- <-]|[_ E]]; [done|by apply (ho_subs _ H)].
  - intros j q. rewrite !lookup_insert_Some. change (filter_of _ q) with (filter_of h q). rewrite (ho_any _ H).
    split; [intros [[<- <-]|(? & ? & ?)]; [split; [by left|done]|tauto]|]. intros [[[<- <-]|[? ?]] ?]; [by left|tauto].
  - intros sc j q. rewrite lookup_insert_Some. change (filter_of _ q) with (filter_of h q). rewrite (ho_by _ H).
    split; [intros (? & ? & ?); split; [right; split; [intros ->; eauto|done]|done]|].
    intros ([[<- <-]|[? ?]] & Hf & Hs); [|done]. unfold filter_of in Hf. fold sc0 in Hf. congruence.
  - intros j q. rewrite lookup_insert_Some. intros [[<- <-]|[_ E]]; [done|by apply (ho_subs _ H)].
  - intros j q. rewrite lookup_insert_Some. change (filter_of _ q) with (filter_of h q). rewrite (ho_any _ H).
    split; [intros [? ?]; split; [right; split; [intros ->; eauto|done]|done]|].
    intros ([[<- <-]|[? ?]] & Hf); [|done]. unfold filter_of in Hf. fold sc0 in Hf. congruence.
  - intros sc j q. rewrite lookup_insert_Some. change (filter_of _ q) with (filter_of h q).
    destruct (decide (sc = sc0)) as [->|Hsc].
    + rewrite lookup_insert_eq. simpl. rewrite lookup_insert_Some.
      assert (Eb : (default ∅ (h_byScope h !! sc0) : gmap Z nat) !! j = (h_byScope h !! sc0 ≫= lookup j))
        by (destruct (h_byScope h !! sc0); simpl; [done|apply lookup_empty]).
      rewrite Eb, (ho_by _ H). split; [intros [[<- <-]|(? & ? & ? & ?)]; [split; [by left|done]|tauto]|].
      intros ([[<- <-]|[? ?]] & ? & ?); [by left|tauto].
    + rewrite lookup_insert_ne by done. rewrite (ho_by _ H). split; [intros (? & ? & ?); split; [right; split; [intros ->; eauto|done]|done]|].
      intros ([[<- <-]|[? ?]] & Hf & ?); [|done]. unfold filter_of in Hf. fold sc0 in Hf. congruence.
  - intros sc b. rewrite lookup_insert. case_decide; [|apply (ho_full _ H)]. intros [= <-]. apply insert_non_empty.
Qed.

Lemma new_object_ok s h : hub_ok h -> hub_ok (snd (new_object s h)).
Proof.
  intros H. pose proof (object_new s h) as Ho. set (h' := snd (new_object s h)) in *.
  assert (Hold : forall i q, h_subs h !! i = Some q -> object h' q = object h q).
  { intros i q Hq. rewrite Ho, decide_False; [done|]. apply (ho_subs _ H) in Hq. lia. }
  split; try apply H.
  - intros i q Hq. rewrite (Hold i) by done. destruct (ho_subs _ H i q Hq) as (Hl & Hi & Hb). simpl. rewrite length_app. split_and!; [lia|done..].
  - intros i q. change (h_subs h') with (h_subs h). change (h_anyScope h') with (h_anyScope h). rewrite (ho_any _ H). unfold filter_of.
    split; intros [Hs Hx]; (split; [done|]); specialize (Hold _ _ Hs); congruence.
  - intros sc i q. change (h_subs h') with (h_subs h). change (h_byScope h') with (h_byScope h). rewrite (ho_by _ H). unfold filter_of.
    split; intros (Hs & Hx & ?); split_and!; try done; specialize (Hold _ _ Hs); congruence.
Qed.

Lemma register_ok s h : hub_ok h -> (h_nextSub h < max_i64)%Z -> hub_ok (snd (register s h)).
Proof.
  intros H Hn. pose proof (ho_next _ H) as H0. unfold register. unfold max_i64 in Hn.
  set (h1 := h <| h_nextSub ::= fun n => i64 (n + 1) |>). set (s1 := s <| sub_id := h_nextSub h1 |>).
  assert (En : h_nextSub h1 = (h_nextSub h + 1)%Z) by (simpl; apply i64_small; lia).
  assert (H1 : hub_ok h1).
  { split; try apply H; [rewrite En; lia|]. intros i p Hp. destruct (ho_subs _ H i p Hp) as (? & ? & ?). rewrite En. split_and!; [done..|lia]. }
  pose proof (new_object_ok s1 h1 H1) as H2. pose proof (object_new s1 h1 (length (h_objects h))) as Ho. rewrite decide_True in Ho by done.
  destruct (new_object s1 h1) as [p h2] eqn:E2. simpl in H2, Ho.
  assert (E : p = length (h_objects h) /\ h_subs h2 = h_subs h /\ h_nextSub h2 = h_nextSub h1 /\ length (h_objects h2) = S p)
    by (unfold new_object in E2; simplify_eq/=; rewrite length_app; simpl; split_and!; [done..|lia]).
  destruct E as (-> & Es & Ex & El). cbn [snd]. apply add_ok; [done|..]; rewrite ?Ho.
  - rewrite Es. apply eq_None_not_Some. intros [q Hq]. apply (ho_subs _ H) in Hq. simpl in *. lia.
  - lia.
  - rewrite Ex. done.
Qed.

(** ** Publishing *)

Lemma offer_tame n1 n2 ev : tame (fun s => fst (offer n1 n2 ev s)).
Proof.
  intros s. unfold offer, closeLocked. repeat case_match; done.
Qed.

Lemma finish_tame err : tame (finish err).
Proof. intros s. unfold finish, closeLocked. by destruct (sub_done s). Qed.

Lemma receive_tame n : tame (receive n).
Proof. done. Qed.

(** [offer_to] as a change of the object it is about. *)
Lemma offer_to_object dr ev h p q :
  object (offer_to dr ev h p) q =
  if decide (q = p /\ p < length (h_objects h)) then
    if wants (sub_opts (object h p)) ev then fst (offer (dr p ev).1 (dr p ev).2 ev (object h p)) else object h p
  else object h q.
Proof.
  unfold offer_to. destruct (wants _ ev) eqn:Ew; [|case_decide as E; [by destruct E as [-> _]|done]].
  destruct (dr p ev) as [n1 n2]. destruct (offer n1 n2 ev (object h p)) as [s l] eqn:Eo. simpl.
  assert (E : object (if l then dropSub (sub_id s) (upd_object p (fun _ => s) h) else upd_object p (fun _ => s) h) q
              = object (upd_object p (fun _ => s) h) q).
  { destruct l; [|done]. unfold object. by rewrite dropSub_objects. }
  rewrite E, object_upd, Eo. done.
Qed.

Lemma upd_here p f h : upd_object p (fun _ => f (object h p)) h = upd_object p f h.
Proof.
  unfold upd_object, object. simpl. f_equal. apply list_eq. intros q. destruct (decide (q = p)) as [->|Hn].
  - rewrite !list_lookup_alter_eq, list_lookup_total_alt. by destruct (h_objects h !! p).
  - by rewrite !list_lookup_alter_ne.
Qed.

Lemma offer_to_ok dr ev h p : hub_ok h -> hub_ok (offer_to dr ev h p).
Proof.
  intros H. unfold offer_to. destruct (wants _ ev); [|done]. destruct (dr p ev) as [n1 n2].
  pose proof (upd_here p (fun s => fst (offer n1 n2 ev s)) h) as E. cbv beta in E.
  pose proof (upd_ok p _ h (offer_tame n1 n2 ev) H) as Hu. rewrite <- E in Hu.
  destruct (offer n1 n2 ev (object h p)) as [s []]; [by apply dropSub_ok|done].
Qed.

Lemma foldl_pres {A B} (P : A -> Prop) (f : A -> B -> A) l : forall a, (forall a b, P a -> P (f a b)) -> P a -> P (foldl f a l).
Proof. induction l as [|b l IH]; intros a H Ha; simpl; eauto. Qed.

Lemma publish_ok dr sc efs h : hub_ok h -> hub_ok (publish dr sc efs h).
Proof.
  intros H. unfold publish. destruct efs; [done|]. destruct (subsFor sc h); [done|].
  apply foldl_pres; [|done]. intros h1 ef H1. apply foldl_pres; [|done]. intros. by apply offer_to_ok.
Qed.

(** ** What can happen to the registry *)

Inductive hub_act :=
| Register (s : Subscription)
| Allocate (s : Subscription)
| DropSub (i : Z)
| CloseSub (p : nat)
| Publish (dr : drains) (scope : string) (effects : list Effect)
| Consume (p n : nat)
| FinishSub (p : nat) (err : option end_error).

Definition hub_step (h : Hub) (a : hub_act) : Hub :=
  match a with
  | Register s => snd (register s h)
  | Allocate s => snd (new_object s h)
  | DropSub i => dropSub i h
  | CloseSub p => Subscription_Close p h
  | Publish dr sc efs => publish dr sc efs h
  | Consume p n => upd_object p (receive n) h
  | FinishSub p err => upd_object p (finish err) h
  end.

Lemma publish_next dr sc efs h : h_nextSub (publish dr sc efs h) = h_nextSub h.
Proof.
  assert (Hd : forall i g, h_nextSub (dropSub i g) = h_nextSub g).
  { intros i g. destruct (h_subs g !! i) eqn:E; [apply (drop_rest _ _ _ E)|unfold dropSub; by rewrite E]. }
  unfold publish. destruct efs as [|e efs]; [done|]. destruct (subsFor sc h) as [|p ps]; [done|].
  apply (foldl_pres (fun g => h_nextSub g = h_nextSub h)); [|done]. intros g ef Hg.
  apply (foldl_pres (fun g => h_nextSub g = h_nextSub h)); [|done]. intros g1 q Hg1. rewrite <- Hg1.
  unfold offer_to. destruct (wants _ _); [|done]. destruct (dr q _) as [n1 n2]. destruct (offer _ _ _ _) as [s []]; [by rewrite Hd|done].
Qed.

Definition is_register (a : hub_act) : bool := match a with Register _ => true | _ => false end.

Definition registrations (acts : list hub_act) : Z :=
  Z.of_nat (length (filter (fun a => is_register a = true) acts)).

Lemma hub_step_ok a h : hub_ok h -> (is_register a = true -> (h_nextSub h < max_i64)%Z) -> hub_ok (hub_step h a).
Proof.
  intros H Hn. destruct a as [s|s|i|p|dr sc efs|p n|p err]; simpl in *.
  - apply register_ok; [done|by apply Hn].
  - by apply new_object_ok.
  - by apply dropSub_ok.
  - apply upd_ok; [apply finish_tame|by apply dropSub_ok].
  - by apply publish_ok.
  - by apply upd_ok.
  - apply upd_ok; [apply finish_tame|done].
Qed.

Lemma hub_step_next a h : hub_ok h -> (is_register a = true -> (h_nextSub h < max_i64)%Z) ->
  h_nextSub (hub_step h a) = (h_nextSub h + if is_register a then 1 else 0)%Z.
Proof.
  intros H Hn. assert (Hd : forall i g, h_nextSub (dropSub i g) = h_nextSub g).
  { intros i g. destruct (h_subs g !! i) eqn:E; [apply (drop_rest _ _ _ E)|unfold dropSub; by rewrite E]. }
  destruct a as [s|s|i|p|dr sc efs|p n|p err]; cbn [hub_step is_register]; rewrite ?Z.add_0_r, ?publish_next, ?Hd; try done.
  - pose proof (ho_next _ H). specialize (Hn eq_refl). unfold max_i64 in *. rewrite <- (i64_small (h_nextSub h + 1)) by lia.
    unfold register, new_object, addSubLocked. simpl. by case_bool_decide.
  - unfold Subscription_Close. simpl. by rewrite Hd.
Qed.

Lemma hub_steps_ok acts : forall h,
  hub_ok h -> (h_nextSub h + registrations acts <= max_i64)%Z -> hub_ok (foldl hub_step h acts).
Proof.
  induction acts as [|a acts IH]; intros h H Hn; [done|]. simpl. unfold registrations in *. rewrite filter_cons in Hn.
  assert (Ha : is_register a = true -> (h_nextSub h < max_i64)%Z).
  { intros E. rewrite decide_True in Hn by done. simpl in Hn. lia. }
  apply IH; [by apply hub_step_ok|]. rewrite hub_step_next by done. destruct (is_register a); simpl in Hn; lia.
Qed.

Lemma snds_NoDup h (m : gmap Z nat) :
  (forall i p, m !! i = Some p -> sub_id (object h p) = i) -> NoDup (map_to_list m).*2.
Proof.
  intros Hm. apply NoDup_fmap_2_strong; [|apply NoDup_map_to_list].
  intros [i p] [j q] Hi Hj. simpl. intros <-. apply elem_of_map_to_list in Hi, Hj.
  apply Hm in Hi, Hj. by subst.
Qed.

Lemma elem_snds (m : gmap Z nat) p : p ∈ (map_to_list m).*2 <-> exists i, m !! i = Some p.
Proof.
  rewrite list_elem_of_fmap. split; [intros ([i q] & -> & H)|intros [i H]; exists (i, p); split; [done|]];
    by rewrite elem_of_map_to_list in *; eauto.
Qed.

Definition registered (h : Hub) (p : nat) : Prop := exists i, h_subs h !! i = Some p.

Lemma bucket_lookup h sc i : (default ∅ (h_byScope h !! sc) : gmap Z nat) !! i = (h_byScope h !! sc ≫= lookup i).
Proof. destruct (h_byScope h !! sc); simpl; [done|apply lookup_empty]. Qed.

Lemma subsFor_elem h sc p :
  hub_ok h -> p ∈ subsFor sc h <-> registered h p /\ (filter_of h p = ""%string \/ filter_of h p = sc).
Proof.
  intros H. unfold subsFor, registered. rewrite elem_of_app, !elem_snds. split.
  - intros [[i Hi]|[i Hi]]; [rewrite bucket_lookup in Hi; apply (ho_by _ H) in Hi|apply (ho_any _ H) in Hi]; naive_solver.
  - intros [[i Hi] Hf]. destruct (decide (filter_of h p = ""%string)) as [E|E].
    + right. exists i. by apply (ho_any _ H).
    + left. exists i. rewrite bucket_lookup. apply (ho_by _ H). split_and!; [done|naive_solver|naive_solver].
Qed.

Lemma subsFor_NoDup h sc : hub_ok h -> NoDup (subsFor sc h).
Proof.
  intros H. unfold subsFor. apply NoDup_app. split_and!.
  - apply (snds_NoDup h). intros i p. rewrite bucket_lookup, (ho_by _ H). intros [Hs _]. by apply (ho_subs _ H).
  - intros p. rewrite !elem_snds. intros [i Hi] [j Hj]. rewrite bucket_lookup in Hi. apply (ho_by _ H) in Hi. apply (ho_any _ H) in Hj. naive_solver.
  - apply (snds_NoDup h). intros i p. rewrite (ho_any _ H). intros [Hs _]. by apply (ho_subs _ H).
Qed.

(** ** Delivery *)

(** The reference: a subscription filters the whole stream of events itself. *)
Definition deliver (dr : drains) (p : nat) (s : Subscription) (ev : Event) : Subscription :=
  if wants (sub_opts s) ev then fst (offer (dr p ev).1 (dr p ev).2 ev s) else s.

Lemma offer_to_length dr ev h p : length (h_objects (offer_to dr ev h p)) = length (h_objects h).
Proof.
  unfold offer_to. destruct (wants _ _); [|done]. destruct (dr p ev) as [n1 n2].
  destruct (offer _ _ _ _) as [s []]; rewrite ?dropSub_objects; simpl; by rewrite length_alter.
Qed.

Lemma offers_object dr ev ps : forall h q,
  NoDup ps -> (forall p, p ∈ ps -> p < length (h_objects h)) ->
  object (foldl (offer_to dr ev) h ps) q = (if decide (q ∈ ps) then deliver dr q (object h q) ev else object h q) /\
  length (h_objects (foldl (offer_to dr ev) h ps)) = length (h_objects h).
Proof.
  induction ps as [|p ps IH]; intros h q Hnd Hlt; cbn [foldl]; [by rewrite decide_False by apply not_elem_of_nil|].
  apply NoDup_cons in Hnd as [Hp Hnd]. destruct (IH (offer_to dr ev h p) q Hnd) as [E1 E2].
  { intros p' Hp'. rewrite offer_to_length. apply Hlt. by right. }
  rewrite E1, E2, offer_to_length. split; [|done]. rewrite offer_to_object.
  destruct (decide (q = p)) as [->|Hn].
  - rewrite (decide_False (P := p ∈ ps)) by done. rewrite decide_True by (split; [done|apply Hlt; left]).
    rewrite decide_True by left. done.
  - rewrite (decide_False (P := q = p /\ _)) by tauto. repeat case_decide; try done; set_solver.
Qed.

Lemma effects_object dr sc ps efs : forall h q,
  NoDup ps -> (forall p, p ∈ ps -> p < length (h_objects h)) ->
  object (foldl (fun h ef => foldl (offer_to dr (event_for sc ef)) h ps) h efs) q =
  if decide (q ∈ ps) then foldl (deliver dr q) (object h q) (event_for sc <$> efs) else object h q.
Proof.
  induction efs as [|ef efs IH]; intros h q Hnd Hlt; simpl; [by case_decide|].
  destruct (offers_object dr (event_for sc ef) ps h q Hnd Hlt) as [E1 E2].
  rewrite IH; [|done|by rewrite E2]. rewrite E1. by case_decide.
Qed.

(** A subscription to another scope filters everything out. *)
Lemma deliver_other dr p s sc efs :
  so_Scope (sub_opts s) <> ""%string -> so_Scope (sub_opts s) <> sc -> foldl (deliver dr p) s (event_for sc <$> efs) = s.
Proof.
  intros H1 H2. induction efs as [|ef efs IH]; simpl; [done|].
  assert (E : deliver dr p s (event_for sc ef) = s); [|by rewrite E].
  unfold deliver, wants. simpl. by rewrite !bool_decide_eq_false_2 by congruence.
Qed.

(** The delivery indexes are exact.  After any registrations, removals,
    closings, publications and receptions, [subsFor] lists every registered
    subscription to the scope or to all scopes, each once and no other, and no
    scope keeps an empty bucket. *)
Lemma registry_exact acts scope h :
  (registrations acts <= max_i64)%Z -> h = foldl hub_step emptyHub acts ->
  NoDup (subsFor scope h) /\
  (forall p, p ∈ subsFor scope h <-> registered h p /\ (filter_of h p = ""%string \/ filter_of h p = scope)) /\
  (forall sc bucket, h_byScope h !! sc = Some bucket -> bucket <> ∅).
Proof.
  intros Hn ->. assert (H : hub_ok (foldl hub_step emptyHub acts)) by (apply hub_steps_ok; [apply emptyHub_ok|done]).
  split_and!; [by apply subsFor_NoDup|intros p; by apply subsFor_elem|apply (ho_full _ H)].
Qed.

(** Publishing through the indexes is the same as letting every registered
    subscription filter every event, in order; subscriptions that are not
    registered get nothing. *)
Lemma publish_object dr scope effects h p :
  hub_ok h ->
  (registered h p ->
     object (publish dr scope effects h) p = foldl (deliver dr p) (object h p) (event_for scope <$> effects)) /\
  (~ registered h p -> object (publish dr scope effects h) p = object h p).
Proof.
  intros H.
  assert (E : object (publish dr scope effects h) p =
    if decide (p ∈ subsFor scope h) then foldl (deliver dr p) (object h p) (event_for scope <$> effects) else object h p).
  { unfold publish. destruct effects as [|ef efs]; [by case_decide|]. destruct (subsFor scope h) as [|q ps] eqn:Es.
    - by rewrite decide_False by apply not_elem_of_nil.
    - rewrite <- Es. apply effects_object; [by apply subsFor_NoDup|]. intros p' Hp'.
      apply subsFor_elem in Hp' as [[i Hi] _]; [|done]. by apply (ho_subs _ H i). }
  rewrite E. split; intros Hr.
  - case_decide as Hp; [done|]. symmetry. rewrite subsFor_elem in Hp by done. unfold filter_of in Hp.
    apply deliver_other; intros ?; apply Hp; auto.
  - rewrite decide_False; [done|]. rewrite subsFor_elem by done. tauto.
Qed.

(** ** Examples *)

Definition note (k : Z) : Event :=
  mkEvent EventTransition "jobs" "a" k k StatusNew StatusInProgress ReasonNone "" 1 "" TimeZero false.

Definition all_jobs : SubscribeOptions := mkSubscribeOptions "jobs" [] [] 0 false 0 None false.

(** Three events into a buffer of two: the first is lost, the third says so. *)
Lemma subscription_stream_witness :
  exists s, foldl act (new_subscription all_jobs OverflowDropOldest 2, [])
              [Offered (note 1) 0 0; Offered (note 2) 0 0; Offered (note 3) 0 0; Received 1]
            = (s, [note 1; note 2; note 3]) /\
  stream s = [note 2; (note 3) <| ev_Gap := true |>] /\ thinned [note 1; note 2; note 3] (stream s).
Proof.
  eexists. split; [reflexivity|]. split; [reflexivity|].
  apply (subscription_stream all_jobs OverflowDropOldest 2
           [Offered (note 1) 0 0; Offered (note 2) 0 0; Offered (note 3) 0 0; Received 1]); [lia|reflexivity|done].
Defined.
