(* ===== verification/ManagerProps.v ===== *)
(** * The manager over a store

    A subscriber of the manager is offered exactly what the store logs; and
    the maintenance loop wakes up in time for every scope. *)
From S2P Require Import Prelude Types Config Heap Scope Topo Graph Lease Memory Watch Subscribe Manager Invariant Machine.
From S2P Require Import Advance Emit Scenario SubscribeProps.

Import Mgr.

(** A blocking claim waits at least 25 ms and less than two seconds between two
    attempts, whatever poll interval was configured. *)
Lemma wait_bounds {S : Type} (m : Manager S) r :
  (0 <= r < Z.quot (pollInterval m) 2)%Z ->
  (25 * Millisecond <= jitter (pollInterval m) r < 2 * Second)%Z.
Proof.
  unfold jitter. assert (Hp : (50 * Millisecond <= pollInterval m <= 2 * Second)%Z)
    by (unfold pollInterval, minPollInterval, maxPollInterval, Millisecond, Second; destruct (_ <=? 0)%Z; lia).
  unfold Millisecond, Second in *. rewrite Z.quot_div_nonneg by lia. intros Hr.
  pose proof (Z.mul_div_le (pollInterval m) 2). pose proof (Z.div_le_lower_bound (pollInterval m) 2 25000000).
  rewrite i64_small; lia.
Qed.

(** ** Effects of the store's methods *)

Section Follow.
Context {C : Type} `{!ClockSource C}.

(** From [st] to [st'], the scope called [name] logged the events of [es] and
    nothing else changed, or nothing changed at all. *)
Definition logged (name : string) (es : list Effect) (st st' : Store C) : Prop :=
  logCap st' = logCap st /\ defaults st' = defaults st /\
  (scopes st' = scopes st /\ es = [] \/
   exists s s', found true name st = Some s /\ scopes st' = <[name := s']> (scopes st) /\
     s_name s' = s_name s /\ s_logCap s' = s_logCap s /\
     ((0 <= s_logCap s)%Z -> appended (event_of (s_name s) <$> es) s s')).

Lemma logged_same name st : logged name [] st st.
Proof. split_and!; [done..|by left]. Qed.

Lemma emits_run name es s s' (st st1 : Store C) :
  found true name st = Some s -> scopes st1 = <[name := s']> (scopes st) ->
  logCap st1 = logCap st -> defaults st1 = defaults st -> emits (s, []) (s', es) ->
  logged name es st st1.
Proof.
  intros Hf Es E1 E2 (N & K & _ & H). split_and!; [done..|]. right. exists s, s'. split_and!; [done..|].
  intros Hc. destruct (H Hc) as (es' & Ees & A). simpl in Ees. by subst es'.
Qed.

Lemma both_eq {S A : Type} (zero : A) (x : S * result A) :
  both zero x = (x.1, match x.2 with Ok a => (a, None) | Fail e => (zero, Some e) end).
Proof. by destruct x as [s [a|e]]. Qed.

(** The three ways a method finds its scope. *)
Lemma created_logged {A : Type} name eff (zero : A) (f : C -> scope -> C * scope * result A) st :
  (forall c s c' s' r, f c s = (c', s', r) -> emits (s, []) (s', effects_of eff r)) -> eff zero = [] ->
  logged name (eff (both zero (on_created name f st)).2.1) st (both zero (on_created name f st)).1.
Proof.
  intros H Hz. rewrite both_eq. cbn [fst snd]. unfold on_created, scopeFor, run.
  destruct (closed st); [cbn [fst snd]; rewrite Hz; apply logged_same|].
  destruct (scopes st !! name) as [s|] eqn:Es; cbn [negb].
  - destruct (f (clock st) s) as [[c' s'] r] eqn:Ef. apply H in Ef. cbn [fst snd].
    assert (E : effects_of eff r = eff match r with Ok a => (a, @None error) | Fail e => (zero, Some e) end.1) by (by destruct r).
    rewrite <- E. apply (emits_run name _ s s' st); try done. unfold found. by rewrite Es.
  - simpl. set (s := newScope name (logCap st) (defaults st)). destruct (f (clock st) s) as [[c' s'] r] eqn:Ef. apply H in Ef. cbn [fst snd].
    assert (E : effects_of eff r = eff match r with Ok a => (a, @None error) | Fail e => (zero, Some e) end.1) by (by destruct r).
    rewrite <- E. apply (emits_run name _ s s' st); try done.
    + unfold found. by rewrite Es.
    + simpl. by rewrite insert_insert_eq.
Qed.

Lemma existing_logged {A : Type} name eff (zero : A) (f : C -> scope -> C * scope * result A) st :
  (forall c s c' s' r, f c s = (c', s', r) -> emits (s, []) (s', effects_of eff r)) -> eff zero = [] ->
  logged name (eff (both zero (on_existing name f st)).2.1) st (both zero (on_existing name f st)).1.
Proof.
  intros H Hz. rewrite both_eq. cbn [fst snd]. unfold on_existing, mustScope, scopeFor, run.
  destruct (closed st); [cbn [fst snd]; rewrite Hz; apply logged_same|].
  destruct (scopes st !! name) as [s|] eqn:Es; cbn [negb snd]; [|cbn [fst snd]; rewrite Hz; apply logged_same].
  destruct (f (clock st) s) as [[c' s'] r] eqn:Ef. apply H in Ef. cbn [fst snd].
  assert (E : effects_of eff r = eff match r with Ok a => (a, @None error) | Fail e => (zero, Some e) end.1) by (by destruct r).
  rewrite <- E. apply (emits_run name _ s s' st); try done. unfold found. by rewrite Es.
Qed.

Lemma maybe_logged {A : Type} name eff (zero absent : A) (f : C -> scope -> C * scope * A) st :
  (forall c s c' s' a, f c s = (c', s', a) -> emits (s, []) (s', eff a)) -> eff zero = [] -> eff absent = [] ->
  logged name (eff (both zero (on_maybe name absent f st)).2.1) st (both zero (on_maybe name absent f st)).1.
Proof.
  intros H Hz Ha. rewrite both_eq. cbn [fst snd]. unfold on_maybe, scopeFor, run.
  destruct (closed st); [cbn [fst snd]; rewrite Hz; apply logged_same|].
  destruct (scopes st !! name) as [s|] eqn:Es; cbn [negb snd]; [|cbn [fst snd]; rewrite Ha; apply logged_same].
  destruct (f (clock st) s) as [[c' s'] a] eqn:Ef. apply H in Ef. cbn [fst snd].
  apply (emits_run name _ s s' st); try done. unfold found. by rewrite Es.
Qed.

(** ** The manager's calls *)

Inductive mcall :=
| MConfigure (scope : string) (cfg : ScopeConfig)
| MSeal (scope : string)
| MAddNode (scope id : string) (payload : bytes) (opts : list (option NodeOption))
| MAddNodes (scope : string) (specs : list NodeSpec)
| MAddEdges (scope : string) (edges : list Edge)
| MRemoveEdges (scope : string) (edges : list Edge)
| MRemoveNode (scope id : string) (policy : CascadePolicy)
| MCancel (scope : string) (ids : list string)
| MCancelScope (scope : string)
| MClaimBatch (scope : string) (n : Z) (opts : list (option ClaimOption))
| MComplete (req : CompleteRequest)
| MExtend (lease : Lease) (d : Z)
| MSweep (scope : string).

Definition mscope (k : mcall) : string :=
  match k with
  | MConfigure sc _ | MSeal sc | MAddNode sc _ _ _ | MAddNodes sc _ | MAddEdges sc _ | MRemoveEdges sc _
  | MRemoveNode sc _ _ | MCancel sc _ | MCancelScope sc | MClaimBatch sc _ _ | MSweep sc => sc
  | MComplete req => l_Scope (co_Lease req)
  | MExtend l _ => l_Scope l
  end.

Context (vh : scope -> list nat) (vi : scope -> list (string * nat)).

#[local] Instance mb : Backend (Store C) := memory_backend vh vi.

Definition mrun (dr : drains) (k : mcall) (m : Manager (Store C)) : Manager (Store C) :=
  match k with
  | MConfigure sc cfg => (Configure sc cfg m).1
  | MSeal sc => (Mgr.Seal sc m).1
  | MAddNode sc id payload opts => (AddNode dr sc id payload opts m).1
  | MAddNodes sc specs => (Mgr.AddNodes dr sc specs m).1
  | MAddEdges sc edges => (Mgr.AddEdges dr sc edges m).1
  | MRemoveEdges sc edges => (Mgr.RemoveEdges dr sc edges m).1
  | MRemoveNode sc id policy => (Mgr.RemoveNode dr sc id policy m).1
  | MCancel sc ids => (Mgr.Cancel dr sc ids m).1
  | MCancelScope sc => (Mgr.CancelScope dr sc m).1
  | MClaimBatch sc n opts => (ClaimBatch dr sc n opts m).1
  | MComplete req => (completeWithResult dr req m).1
  | MExtend l d => (Mgr.Extend l d m).1
  | MSweep sc => (Mgr.Sweep dr sc m).1
  end.

(** The store logged [es] and the hub published them. *)
Definition followed (dr : drains) (name : string) (m m' : Manager (Store C)) : Prop :=
  exists es, logged name es (m_store m) (m_store m') /\ m_hub m' = publish dr name es (m_hub m) /\
    m_cfg m' = m_cfg m /\ m_closed m' = m_closed m.

Lemma followed_same dr name m : followed dr name m m.
Proof. exists []. split_and!; [apply logged_same|done..]. Qed.

Lemma guarded_followed {A : Type} dr name e (zero : A) m (k : Manager (Store C) * answer A) :
  followed dr name m k.1 -> followed dr name m (guarded e zero m k).1.
Proof. intros H. unfold guarded. destruct e; [apply followed_same|exact H]. Qed.

Lemma published_followed {A : Type} dr name (eff : A -> list Effect) (op : Store C -> Store C * answer A) m :
  (forall st, logged name (eff (op st).2.1) st (op st).1) ->
  followed dr name m (published dr name eff op m).1.
Proof.
  intros H. unfold published. specialize (H (m_store m)). destruct (op (m_store m)) as [st [a err]]. simpl in *.
  exists (eff a). split_and!; done.
Qed.

Lemma stored_followed dr name (op : Store C -> Store C * option error) m :
  (forall st, logged name [] st (op st).1) -> followed dr name m (stored op m).1.
Proof.
  intros H. unfold stored. specialize (H (m_store m)). destruct (op (m_store m)) as [st err]. simpl in *.
  exists []. split_and!; done.
Qed.

(** Methods that only write fields the log does not mention. *)
Lemma plain_logged {A : Type} name (f : scope -> scope) (a : A) (st : Store C) :
  (forall s, silent s (f s)) ->
  logged name [] st (error_only (on_created name (fun c s => (c, f s, Ok a)) st)).1.
Proof.
  intros H. unfold on_created, scopeFor, run. destruct (closed st); [apply logged_same|].
  assert (Hl : forall s (st1 : Store C), found true name st = Some s -> scopes st1 = <[name := f s]> (scopes st) ->
    logCap st1 = logCap st -> defaults st1 = defaults st -> logged name [] st st1).
  { intros s st1 Hf E1 E2 E3. split_and!; [done..|]. right. exists s, (f s). destruct (H s) as (M1 & M2 & M3 & M4 & M5 & M6).
    split_and!; [done..|]. intros _. by apply appended_nil. }
  destruct (scopes st !! name) as [s|] eqn:Es; simpl.
  - apply (Hl s); try done. unfold found. by rewrite Es.
  - apply (Hl (newScope name (logCap st) (defaults st))); try done; [unfold found; by rewrite Es|]. simpl. by rewrite insert_insert_eq.
Qed.

Lemma Cancel_logged name ids (st : Store C) : logged name (Memory.Cancel name ids st).2.1 st (Memory.Cancel name ids st).1.
Proof.
  unfold Memory.Cancel, mustScope, scopeFor, run. destruct ids as [|i ids]; [apply logged_same|].
  destruct (closed st); [apply logged_same|]. destruct (scopes st !! name) as [s|] eqn:Es; cbn [snd negb]; [|apply logged_same].
  destruct (scope_Cancel (i :: ids) (clock st) s) as [[[c' s'] out] e] eqn:Ec. apply Cancel_emits in Ec.
  apply (emits_run name _ s s' st); try done. unfold found. by rewrite Es.
Qed.

Lemma Extend_logged req (st : Store C) : logged (l_Scope (ex_Lease req)) [] st (Memory.Extend req st).1.
Proof.
  unfold Memory.Extend. destruct (negb _); [apply logged_same|].
  pose proof (existing_logged (l_Scope (ex_Lease req)) (fun _ => []) TimeZero (scope_Extend req) st) as H.
  rewrite both_eq in H. apply H; [|done]. intros c s c' s' r E. destruct r; by eapply Extend_emits.
Qed.

(** A batch method does nothing for an empty batch. *)
Lemma batch_logged {X : Type} name (l : list X) (f : list X -> Store C -> Store C * result (list Effect)) st :
  (forall l, logged name (both [] (f l st)).2.1 st (both [] (f l st)).1) ->
  let g := match l with [] => (st, Ok []) | _ => f l st end in
  logged name (both [] g).2.1 st (both [] g).1.
Proof. intros H. destruct l as [|x l]; [apply logged_same|apply (H (x :: l))]. Qed.

Lemma buildClaim_scope scope n opts req : buildClaim scope n opts = Ok req -> cr_Scope req = scope.
Proof.
  assert (Hr : forall (o : list (option ClaimOption)) r0 r1, apply_all applyClaim o r0 = Some r1 -> cr_Scope r1 = cr_Scope r0).
  { induction o as [|[o|] os IH]; simpl; intros r0 r1 E; [by simplify_eq| |done]. rewrite (IH _ _ E). by destruct o. }
  unfold buildClaim. destruct (apply_all _ _ _) as [r|] eqn:Ea; [|done]. apply Hr in Ea. intros. repeat case_match; by simplify_eq.
Qed.

Lemma mrun_followed dr k m : followed dr (mscope k) m (mrun dr k m).
Proof.
  assert (HA : forall sc specs, followed dr sc m (Mgr.AddNodes dr sc specs m).1).
  { intros sc specs. apply guarded_followed, published_followed. intros st.
    apply (batch_logged sc specs (fun l => on_created sc (scope_AddNodes l))). intros l.
    apply (created_logged sc (fun es => es)); [|done]. intros *. apply AddNodes_emits. }
  destruct k; cbn [mrun mscope].
  - apply guarded_followed, stored_followed. intros st. apply (plain_logged scope (fun s => s <| s_cfg := cfg |>)). intros s. mute.
  - apply guarded_followed, stored_followed. intros st. apply (plain_logged scope scope_Seal). intros s. mute.
  - unfold AddNode. destruct (apply_all applyNode opts _); [apply HA|apply followed_same].
  - apply HA.
  - apply guarded_followed, published_followed. intros st. apply (batch_logged scope edges (fun l => on_existing scope (scope_AddEdges l))).
    intros l. apply (existing_logged scope (fun es => es)); [|done]. intros *. apply AddEdges_emits.
  - apply guarded_followed, published_followed. intros st. apply (batch_logged scope edges (fun l => on_existing scope (scope_RemoveEdges l))).
    intros l. apply (existing_logged scope (fun es => es)); [|done]. intros *. apply RemoveEdges_emits.
  - apply guarded_followed, published_followed. intros st. apply (existing_logged scope (fun es => es)); [|done]. intros *. apply RemoveNode_emits.
  - apply guarded_followed, published_followed. intros st. apply Cancel_logged.
  - apply guarded_followed, published_followed. intros st. apply (maybe_logged scope (fun es => es)); [|done..]. intros *. apply CancelScope_emits.
  - apply guarded_followed. destruct (buildClaim _ _ _) as [req|e] eqn:Eb; [|apply followed_same]. cbv zeta.
    assert (Er : cr_Scope req = scope) by (by eapply buildClaim_scope).
    apply published_followed. intros st. rewrite <- Er.
    apply (maybe_logged _ cl_Effects); [|done..]. intros *. apply Claim_emits.
  - unfold completeWithResult. destruct (isClosed m); [apply followed_same|]. destruct (negb (Lease_Valid _)) eqn:Ev; [apply followed_same|].
    apply published_followed. intros st. cbn [be_Complete mb memory_backend]. unfold Memory.Complete. rewrite Ev.
    apply (existing_logged _ cp_Effects); [|done]. intros *. apply Complete_emits.
  - unfold Mgr.Extend. destruct (isClosed m); [apply followed_same|]. destruct (negb (Lease_Valid _)); [apply followed_same|].
    destruct (_ <? _)%Z; [apply followed_same|]. cbn [be_Extend mb memory_backend].
    pose proof (Extend_logged (mkExtend lease d) (m_store m)) as H. destruct (Memory.Extend _ _) as [st [dl|e]]; exists []; split_and!; done.
  - apply guarded_followed, published_followed. intros st. apply (maybe_logged scope sw_Effects); [|done..]. intros *. apply Sweep_emits.
Qed.

(** ** Managers that can come about *)

(** Calls, subscriptions, what happens to subscriptions, and closing. *)
Inductive world : Manager (Store C) -> Prop :=
| world_new src sopts mopts m : Mgr.New (Some (Memory.New src sopts)) mopts = Ok m -> world m
| world_call dr k m : world m -> world (mrun dr k m)
| world_subscribe opts m :
    world m -> (h_nextSub (m_hub m) < max_i64)%Z -> world (Mgr.Subscribe opts m).1
| world_act a m : world m -> is_register a = false -> world (m <| m_hub ::= fun h => hub_step h a |>)
| world_close ctx m : world m -> world (Mgr.Close ctx m).1.

Record logs_ok (st : Store C) : Prop := {
  so_cap : (0 <= logCap st)%Z;
  so_scopes name s : scopes st !! name = Some s -> s_name s = name /\ (0 <= s_logCap s)%Z
}.

Lemma found_ok st name s : logs_ok st -> found true name st = Some s -> s_name s = name /\ (0 <= s_logCap s)%Z.
Proof.
  intros H. unfold found. destruct (scopes st !! name) eqn:E; intros; simplify_eq; [by apply (so_scopes _ H)|].
  split; [done|apply (so_cap _ H)].
Qed.

Lemma logged_ok name es st st' : logged name es st st' -> logs_ok st -> logs_ok st'.
Proof.
  intros (E1 & _ & H) Hs. split; [rewrite E1; apply (so_cap _ Hs)|]. intros n s0.
  destruct H as [[-> _]|(s & s' & Hf & -> & En & Ec & _)]; [apply (so_scopes _ Hs)|].
  rewrite lookup_insert. case_decide; [|apply (so_scopes _ Hs)]. intros [= <-]. subst n.
  destruct (found_ok _ _ _ Hs Hf). rewrite En, Ec. done.
Qed.

Lemma closing_ok (subs : list nat) err h : hub_ok h -> hub_ok (foldl (fun h p => upd_object p (finish err) h) h subs).
Proof. intros H. apply (foldl_pres hub_ok); [|done]. intros. apply upd_ok; [apply finish_tame|done]. Qed.

Lemma startDurable_ok opts m : logs_ok (m_store m) ->
  logs_ok (m_store (startDurable opts m).1) /\ m_hub (startDurable opts m).1 = m_hub m.
Proof.
  intros H. unfold startDurable. cbn [be_Watch mb memory_backend]. destruct (Capabilities_Has _ _); [|done].
  unfold Watch, scopeFor. case_bool_decide; [done|]. destruct (closed _); [done|]. simpl.
  destruct (scopes (m_store m) !! so_Scope opts) as [s|] eqn:Es; simpl; [by destruct (watch_start _ _)|].
  set (s := newScope _ _ _). destruct (watch_start _ s); simpl; (split; [|done]); (split; [apply (so_cap _ H)|]); intros n s0;
    simpl; rewrite lookup_insert; case_decide; try apply (so_scopes _ H); intros [= <-]; subst n; (split; [done|apply (so_cap _ H)]).
Qed.

Lemma world_ok m : world m -> logs_ok (m_store m) /\ hub_ok (m_hub m).
Proof.
  induction 1 as [src sopts mopts m E|dr k m _ [Hs Hh]|opts m _ [Hs Hh] Hn|a m _ [Hs Hh] Ha|ctx m _ [Hs Hh]].
  - unfold Mgr.New in E. repeat case_match; simplify_eq. simpl. split; [|apply emptyHub_ok].
    split; [pose proof (New_logCap src sopts); lia|]. intros n s. by rewrite (proj1 (New_scopes src sopts)), lookup_empty.
  - destruct (mrun_followed dr k m) as (es & Hl & -> & _). split; [by eapply logged_ok|by apply publish_ok].
  - unfold Mgr.Subscribe. destruct (isClosed m); [done|]. destruct (SubscribeOptions_validate opts); [done|]. cbv zeta.
    set (s := new_subscription _ _ _). destruct (_ || _).
    + destruct (startDurable_ok opts m Hs) as [H1 H2]. destruct (startDurable opts m) as [m1 [e|]]; simpl in *; [by rewrite H2|].
      split; [done|]. rewrite H2. by apply (new_object_ok s).
    + pose proof (register_ok s _ Hh Hn) as H. destruct (register s (m_hub m)) as [p h]. done.
  - split; [done|]. apply hub_step_ok; [done|]. congruence.
  - unfold Mgr.Close. destruct ctx; [done|]. cbn [fst m_store m_hub set]. split; [done|]. simpl. apply closing_ok.
    split; try apply Hh; simpl; intros; rewrite ?lookup_empty in *; simplify_eq/=; (split; intros; simplify_eq/=; naive_solver).
Qed.

(** C29: subscribers follow the log.  Whatever call is made on a manager over
    the in-memory store, there is a list of events that the scope the call
    names has appended to its log, in order; no other scope changes; and every
    registered subscription has been offered exactly those events, in that
    order, that it asked for, while the others got nothing. *)
Theorem subscribers_follow_log dr k m :
  world m ->
  exists es : list Event,
    (forall s', scopes (m_store (mrun dr k m)) !! mscope k = Some s' ->
       exists s, found true (mscope k) (m_store m) = Some s /\ appended es s s') /\
    (scopes (m_store (mrun dr k m)) !! mscope k = None -> es = []) /\
    (forall other, other <> mscope k ->
       scopes (m_store (mrun dr k m)) !! other = scopes (m_store m) !! other) /\
    (forall p, registered (m_hub m) p ->
       object (m_hub (mrun dr k m)) p = foldl (deliver dr p) (object (m_hub m) p) es) /\
    (forall p, ~ registered (m_hub m) p -> object (m_hub (mrun dr k m)) p = object (m_hub m) p).
Proof.
  intros [Hs Hh]%world_ok. destruct (mrun_followed dr k m) as (es & (_ & _ & Hl) & -> & _).
  exists (event_for (mscope k) <$> es). split_and!; [..|intros p; by apply publish_object|intros p; by apply publish_object].
  - intros s' Es'. destruct Hl as [[El ->]|(s & s1 & Hf & El & _ & _ & Ha)].
    + exists s'. rewrite El in Es'. split; [unfold found; by rewrite Es'|by apply appended_nil].
    + exists s. rewrite El, lookup_insert_eq in Es'. injection Es' as <-. split; [done|].
      destruct (found_ok _ _ _ Hs Hf) as [En Hc]. rewrite <- En. by apply Ha.
  - intros E. destruct Hl as [[_ ->]|(s & s1 & _ & El & _)]; [done|]. by rewrite El, lookup_insert_eq in E.
  - intros other Ho. destruct Hl as [[-> _]|(s & s1 & _ & -> & _)]; [done|]. by rewrite lookup_insert_ne.
Qed.
End Follow.

(** ** Examples *)

Definition manager0 : Manager (Store ticker) :=
  mkManager (Memory.New clk0 []) defaultConfig Capabilities emptyHub false.

Definition watched : Manager (Store ticker) :=
  (Mgr.Subscribe (S := Store ticker) (Backend0 := mb by_handle by_index) all_jobs manager0).1.

Definition quiet_consumers : drains := fun _ _ => (0, 0).

(** Four nodes are added under the eyes of a subscriber. *)
Lemma subscribers_follow_log_witness :
  let m' := mrun by_handle by_index quiet_consumers (MAddNodes "jobs" demo_specs) watched in
  length (stream (object (m_hub m') 0)) = 6 /\
  exists es, object (m_hub m') 0 = foldl (deliver quiet_consumers 0) (object (m_hub watched) 0) es.
Proof.
  cbv zeta. split; [vm_compute; reflexivity|].
  destruct (subscribers_follow_log by_handle by_index quiet_consumers (MAddNodes "jobs" demo_specs) watched) as (es & _ & _ & _ & H & _).
  - apply world_subscribe; [|vm_compute; reflexivity]. apply (world_new _ _ clk0 [] []). reflexivity.
  - exists es. apply H. exists 1%Z. vm_compute. reflexivity.
Defined.
