(* ===== verification/Maintenance.v ===== *)
(** * The maintenance loop of the manager

    A pass sweeps exactly the scopes whose own interval has elapsed, and sets
    the timer so that the next pass comes in time for each of them.  The
    theorem is about any backend that keeps a scope's configuration while it
    sweeps and collects, a promise the in-memory store is shown to keep. *)
From S2P Require Import Prelude Types Config Heap Scope Graph Lease Memory Watch Subscribe Manager Machine Advance Emit.
From S2P Require Import Scenario SubscribeProps.

Import Mgr.

(** What the loop relies on. *)
Class SteadyConfig (S : Type) `{!Backend S} : Prop := {
  steady_sweep sc n (st : S) sc' : be_ScopeConfig sc' (be_Sweep sc n st).1 = be_ScopeConfig sc' st;
  steady_collect collect sc cut n (st : S) sc' : be_Collector = Some collect ->
    be_ScopeConfig sc' (collect sc cut n st).1 = be_ScopeConfig sc' st
}.

(** ** The in-memory store keeps it *)

Section Memory.
Context {C : Type} `{!ClockSource C}.

Lemma maybe_config {A : Type} name (absent : A) (f : C -> scope -> C * scope * A) (st : Store C) sc :
  (forall c s, s_cfg (f c s).1.2 = s_cfg s) ->
  Memory.get_ScopeConfig sc (on_maybe name absent f st).1 = Memory.get_ScopeConfig sc st.
Proof.
  intros H. unfold on_maybe, scopeFor, run. destruct (closed st) eqn:Ec; [done|].
  destruct (scopes st !! name) as [s|] eqn:Es; simpl; [|done]. specialize (H (clock st) s).
  destruct (f (clock st) s) as [[c' s'] a]. simpl in *. unfold Memory.get_ScopeConfig, scopeFor. simpl. rewrite Ec, lookup_insert.
  case_decide as E; [|by destruct (scopes st !! sc)]. subst sc. rewrite Es. simpl. by rewrite H.
Qed.

Lemma memory_steady vh vi : @SteadyConfig (Store C) (memory_backend vh vi).
Proof.
  split; cbn [be_ScopeConfig be_Sweep be_Collector memory_backend].
  - intros sc n st sc'. transitivity (Memory.get_ScopeConfig sc' (Memory.Sweep sc n st).1).
    + by destruct (Memory.Sweep sc n st) as [st' [a|e]].
    + apply maybe_config. intros c s. destruct (scope_Sweep n c s) as [[c' s'] r] eqn:E. apply (Sweep_emits n c c' s s' r E).
  - intros collect sc cut n st sc' [= <-]. apply maybe_config. intros c s. simpl.
    destruct (scope_CollectTerminal _ cut n s) as [[s' k] more] eqn:E. apply (collect_loop_mute _ _ _ _ _ _ _ _ E).
Qed.
End Memory.

(** ** Any backend *)

Section Loop.
Context {S : Type} `{!Backend S} `{!SteadyConfig S}.
Context (dr : drains) (clk : string -> Z * Z).

(** A scope is due if it was never swept, or its interval has elapsed. *)
Definition is_due (lastSwept : gmap string Z) (m : Manager S) (sc : string) : bool :=
  match lastSwept !! sc with
  | None => true
  | Some l => (sweepInterval sc m <=? (clk sc).1 - l)%Z
  end.

Definition tend (m : Manager S) (sc : string) : Manager S :=
  collectScope (clk sc).2 sc (scope_config sc m) (sweepScope dr sc m).

Lemma sweepScope_config sc m sc' : scope_config sc' (sweepScope dr sc m) = scope_config sc' m.
Proof.
  pose proof (steady_sweep sc 0 (m_store m) sc') as H. unfold sweepScope, scope_config.
  destruct (be_Sweep sc 0 (m_store m)) as [st [r [e|]]]; simpl in *; by rewrite H.
Qed.

Lemma collectScope_config now sc cfg m sc' : scope_config sc' (collectScope now sc cfg m) = scope_config sc' m.
Proof.
  unfold collectScope. destruct be_Collector as [f|] eqn:Ef; [|done]. destruct (negb _); [done|]. destruct (_ <=? _)%Z; [done|].
  unfold scope_config. simpl. by rewrite (steady_collect f).
Qed.

Lemma tend_interval sc m sc' : sweepInterval sc' (tend m sc) = sweepInterval sc' m.
Proof. unfold sweepInterval, tend. by rewrite collectScope_config, sweepScope_config. Qed.

Lemma sweepScope_same sc m : m_closed (sweepScope dr sc m) = m_closed m /\ m_cfg (sweepScope dr sc m) = m_cfg m.
Proof. unfold sweepScope. by destruct (be_Sweep sc 0 (m_store m)) as [st [r [e|]]]. Qed.

Lemma collectScope_same now sc cfg m : m_closed (collectScope now sc cfg m) = m_closed m /\ m_cfg (collectScope now sc cfg m) = m_cfg m.
Proof. unfold collectScope. repeat case_match; done. Qed.

Lemma tend_closed sc m : m_closed (tend m sc) = m_closed m.
Proof. unfold tend. destruct (collectScope_same (clk sc).2 sc (scope_config sc m) (sweepScope dr sc m)) as [-> _]. apply sweepScope_same. Qed.

Lemma interval_pos sc (m : Manager S) : (0 < sweepInterval sc m)%Z.
Proof. unfold sweepInterval, Resolved. simpl. unfold or_default. by destruct (Z.leb_spec (c_SweepInterval (scope_config sc m)) 0). Qed.

(** Clock readings do not go back, and intervals are [int64]. *)
Definition sane (lastSwept : gmap string Z) (m : Manager S) : Prop :=
  (forall sc l, lastSwept !! sc = Some l -> (l <= (clk sc).1)%Z) /\
  (forall sc, (sweepInterval sc m <= max_i64)%Z).

(** One scope, without the machine arithmetic. *)
Lemma maintainScope_eq sc lastSwept m :
  sane lastSwept m ->
  maintainScope dr clk sc lastSwept m =
  if is_due lastSwept m sc then (tend m sc, <[sc := (clk sc).1]> lastSwept, sweepInterval sc m)
  else (m, lastSwept, (sweepInterval sc m - ((clk sc).1 - default 0 (lastSwept !! sc)))%Z).
Proof.
  intros [Hl Hi]. specialize (Hi sc). pose proof (interval_pos sc m) as Hp. unfold maintainScope, is_due, tend.
  fold (sweepInterval sc m). destruct (clk sc) as [now now'] eqn:Ec. simpl.
  destruct (lastSwept !! sc) as [l|] eqn:El; simpl; [|done]. specialize (Hl _ _ El). rewrite Ec in Hl. simpl in Hl.
  change (c_SweepInterval (Resolved (scope_config sc m))) with (sweepInterval sc m) in *. unfold time_Sub, max_i64 in *.
  rewrite i64_small by lia. destruct (Z.leb_spec (sweepInterval sc m) (now - l)); destruct (Z.ltb_spec 0 (sweepInterval sc m - Z.min (Z.max (now - l) (- 2 ^ 63)) (2 ^ 63 - 1))); try done; try lia.
  do 2 f_equal. lia.
Qed.

Lemma sane_tend sc lastSwept m : sane lastSwept m -> sane (<[sc := (clk sc).1]> lastSwept) (tend m sc).
Proof.
  intros [Hl Hi]. split.
  - intros sc' l. rewrite lookup_insert. case_decide as E; [subst sc'; intros [= <-]; lia|apply Hl].
  - intros sc'. rewrite tend_interval. apply Hi.
Qed.

Lemma is_due_tend sc lastSwept m sc' :
  sc' <> sc -> is_due (<[sc := (clk sc).1]> lastSwept) (tend m sc) sc' = is_due lastSwept m sc'.
Proof. intros H. unfold is_due. by rewrite lookup_insert_ne, tend_interval. Qed.

(** What a pass over [scopes] leaves: [l] is when a scope was last swept. *)
Record passed (scopes : list string) (lastSwept : gmap string Z) (tick : Z) (m : Manager S)
    (m' : Manager S) (lastSwept' : gmap string Z) (tick' : Z) : Prop := {
  ps_swept : m' = foldl tend m (filter (fun sc => is_due lastSwept m sc = true) scopes);
  ps_last sc : lastSwept' !! sc =
    if decide (sc ∈ scopes /\ is_due lastSwept m sc = true) then Some (clk sc).1 else lastSwept !! sc;
  ps_tick : (tick' <= tick)%Z;
  ps_due sc : sc ∈ scopes -> exists l, lastSwept' !! sc = Some l /\ (tick' <= sweepInterval sc m - ((clk sc).1 - l))%Z
}.

Lemma filter_agree (p q : string -> bool) (l : list string) :
  (forall x, x ∈ l -> p x = q x) -> filter (fun x => p x = true) l = filter (fun x => q x = true) l.
Proof.
  induction l as [|x l IH]; intros H; [done|]. rewrite !filter_cons, (H x) by left. rewrite IH; [done|]. intros y Hy. apply H. by right.
Qed.

Lemma maintain_scopes_ok scopes : forall lastSwept tick m m' lastSwept' tick',
  NoDup scopes -> sane lastSwept m -> isClosed m = false ->
  maintain_scopes dr clk scopes lastSwept tick m = (m', lastSwept', tick') ->
  passed scopes lastSwept tick m m' lastSwept' tick'.
Proof.
  induction scopes as [|sc scopes IH]; intros last tick m m' last' tick' Hnd Hs Ho; simpl.
  { intros. simplify_eq. split; [done| |lia|by intros ? ?%elem_of_nil]. intros sc. rewrite decide_False; [done|]. intros [? _]. by eapply elem_of_nil. }
  apply NoDup_cons in Hnd as [Hsc Hnd]. rewrite Ho, maintainScope_eq by done. destruct (is_due last m sc) eqn:Ed; intros E.
  - apply IH in E; [|done|by apply sane_tend|unfold isClosed in *; by rewrite tend_closed]. destruct E as [E1 E2 E3 E4].
    assert (Hd : forall x, x ∈ scopes -> is_due (<[sc := (clk sc).1]> last) (tend m sc) x = is_due last m x).
    { intros x Hx. apply is_due_tend. by intros ->. }
    assert (Hl : last' !! sc = Some (clk sc).1) by (rewrite E2, decide_False, lookup_insert_eq by tauto; done).
    split.
    + rewrite filter_cons_True by done. simpl. rewrite E1. f_equal. by apply filter_agree.
    + intros x. destruct (decide (x = sc)) as [->|Hne]; [rewrite Hl, decide_True; [done|split; [left|done]]|].
      rewrite E2, lookup_insert_ne by done. destruct (decide (x ∈ scopes)) as [Hx|Hx].
      * rewrite Hd by done. repeat case_decide; try done; set_solver.
      * rewrite !decide_False; [done|set_solver|set_solver].
    + lia.
    + intros x Hx. apply elem_of_cons in Hx as [->|Hx]; [exists (clk sc).1; split; [done|lia]|].
      destruct (E4 x Hx) as (l & Hx1 & Hx2). exists l. split; [done|]. by rewrite tend_interval in Hx2.
  - apply IH in E; [|done..]. destruct E as [E1 E2 E3 E4]. split.
    + rewrite filter_cons_False by congruence. done.
    + intros x. rewrite E2. destruct (decide (x = sc)) as [->|Hne]; [rewrite !decide_False; [done|intros [_ ?]; congruence|tauto]|].
      repeat case_decide; try done; set_solver.
    + lia.
    + intros x Hx. apply elem_of_cons in Hx as [->|Hx]; [|by apply E4]. unfold is_due in Ed.
      destruct (last !! sc) as [l|] eqn:El; [|done]. exists l. rewrite E2, decide_False, El by tauto. split; [done|]. simpl in E3. lia.
Qed.

(** C31: maintenance is on time.  A pass of the loop on an open manager sweeps
    and collects exactly the scopes that were never swept or whose own interval
    has elapsed, and records when; the next tick is at least 50 ms away, at most
    the default interval (or those 50 ms), and, down to that floor, no later
    than any scope is due again; scopes that are gone are forgotten. *)
Theorem sweep_on_time scopes lastSwept tick m m' lastSwept' tick' :
  isClosed m = false -> be_Scopes (m_store m) = Ok scopes -> NoDup scopes -> sane lastSwept m ->
  maintain_pass dr clk lastSwept tick m = (m', lastSwept', tick') ->
  m' = foldl tend m (filter (fun sc => is_due lastSwept m sc = true) scopes) /\
  (minSweepTick <= tick' <= Z.max (c_SweepInterval (Resolved (cf_defaults (m_cfg m)))) minSweepTick)%Z /\
  (forall sc, sc ∈ scopes -> exists l,
     lastSwept' !! sc = Some l /\
     (if is_due lastSwept m sc then l = (clk sc).1 else lastSwept !! sc = Some l) /\
     (tick' <= Z.max minSweepTick (sweepInterval sc m - ((clk sc).1 - l)))%Z) /\
  (forall sc, sc ∉ scopes -> lastSwept' !! sc = None).
Proof.
  intros Ho Esc Hnd Hs. unfold maintain_pass. rewrite Esc.
  destruct (maintain_scopes dr clk scopes lastSwept _ m) as [[m1 l1] t1] eqn:E. intros E'. injection E' as <- <- <-.
  apply maintain_scopes_ok in E; [|done..]. destruct E as [E1 E2 E3 E4]. split_and!; [done|lia|lia|..].
  - intros sc Hsc. destruct (E4 sc Hsc) as (l & Hl & Hd). exists l. split_and!; [|..|lia].
    + apply map_lookup_filter_Some. split; [done|]. exact Hsc.
    + rewrite E2 in Hl. destruct (is_due lastSwept m sc).
      * rewrite decide_True in Hl by done. by simplify_eq.
      * rewrite decide_False in Hl; [done|]. by intros [_ ?].
  - intros sc Hsc. apply map_lookup_filter_None. right. intros l _. exact Hsc.
Qed.

End Loop.

(** ** Example: one scope with the default interval, last swept six seconds ago *)

#[local] Instance demo_backend : Backend (Store ticker) := memory_backend by_handle by_index.
#[local] Instance demo_steady : SteadyConfig (Store ticker) := memory_steady by_handle by_index.

Definition one_scope : Manager (Store ticker) :=
  mkManager (Memory.SetScopeConfig "jobs" zeroConfig (Memory.New clk0 [])).1 defaultConfig Capabilities emptyHub false.

Definition six_later : string -> Z * Z := fun _ => (6 * Second, 6 * Second)%Z.

Lemma one_interval sc : sweepInterval sc one_scope = DefaultSweepInterval.
Proof.
  unfold sweepInterval, scope_config. cbn [be_ScopeConfig demo_backend memory_backend]. unfold Memory.get_ScopeConfig, scopeFor.
  change (closed (m_store one_scope)) with false. cbn match.
  change (scopes (m_store one_scope)) with (<["jobs" := newScope "jobs" 4096 zeroConfig]> (<["jobs" := newScope "jobs" 4096 zeroConfig]> (∅ : gmap string scope))).
  rewrite !lookup_insert, lookup_empty. by repeat case_decide.
Qed.

Lemma sweep_on_time_witness :
  exists m' tick', maintain_pass (fun _ _ => (0, 0)) six_later {["jobs"%string := 0%Z]} 0 one_scope
                   = (m', {["jobs"%string := (6 * Second)%Z]}, tick') /\ (tick' <= Z.max minSweepTick DefaultSweepInterval)%Z.
Proof.
  destruct (maintain_pass (fun _ _ => (0, 0)) six_later {["jobs"%string := 0%Z]} 0 one_scope) as [[m' l'] t'] eqn:E.
  destruct (sweep_on_time (fun _ _ => (0, 0)) six_later ["jobs"%string] {["jobs"%string := 0%Z]} 0 one_scope m' l' t')
    as (_ & Ht & _); [reflexivity|vm_compute; reflexivity|apply NoDup_singleton| |exact E|].
  - split; [|intros sc; rewrite one_interval; vm_compute; discriminate].
    intros sc l Hl. apply lookup_singleton_Some in Hl as [_ <-]. vm_compute. discriminate.
  - exists m', t'. assert (El : l' = {["jobs"%string := (6 * Second)%Z]}).
    { apply (f_equal (fun x => x.1.2)) in E. cbn [fst snd] in E. rewrite <- E. vm_compute. reflexivity. }
    rewrite El. split; [reflexivity|]. change (c_SweepInterval (Resolved (cf_defaults (m_cfg one_scope)))) with DefaultSweepInterval in Ht. lia.
Defined.
