(* ===== verification/WatchProps.v ===== *)
(** * Properties of waiting and watching

    A subscription as a reader that runs beside the operations of the scope:
    [wstep] interleaves calls and the moves of [pump]. *)
From S2P Require Import Prelude Types Config Heap HeapFacts Scope Topo TopoFacts Graph Lease Memory Watch Invariant ScopeFacts.
From S2P Require Import LeaseFacts EdgeFacts Removal Machine Advance Scenario.

(** ** History *)

(** [H] is everything the scope ever recorded: the ring holds its end. *)
Record recorded (H : list Event) (s : scope) : Prop := {
  rc_log : exists lost, H = lost ++ s_log s /\ s_logStart s = (Z.of_nat (length lost) + 1)%Z;
  rc_cursor : s_cursor s = Z.of_nat (length H);
  rc_bell : s_logBell s = length H
}.

Lemma recorded_next H s s' :
  recorded H s -> inv s -> inv s' -> advances s s' -> (Z.of_nat (s_logBell s') < 2 ^ 63)%Z ->
  exists es, recorded (H ++ es) s' /\ (s_logStart s <= s_logStart s')%Z.
Proof.
  intros [(l0 & E0 & S0) Hc Hb] Hi Hi' Ha Hbound. pose proof (bi_log _ _ (inv_base _ Hi)) as L.
  destruct (ad_log _ _ Ha ltac:(apply Z.lt_le_incl, L)) as (es & (l1 & E1 & S1) & C1 & B1). exists es.
  pose proof (bi_log _ _ (inv_base _ Hi')) as L'.
  assert (Hlen : length (H ++ es) = s_logBell s') by (rewrite length_app; lia).
  assert (El : H ++ es = (l0 ++ l1) ++ s_log s') by (by rewrite E0, <- !app_assoc, E1).
  assert (length (l0 ++ l1) <= length (H ++ es)) by (rewrite El, !length_app; lia).
  assert (Hst : s_logStart s' = (Z.of_nat (length (l0 ++ l1)) + 1)%Z).
  { rewrite (li_start _ L'), S1, S0. rewrite !length_app in *. rewrite u64_small by lia. lia. }
  split; [|rewrite Hst, S0, length_app; lia]. split; [by exists (l0 ++ l1)| |done].
  - rewrite (li_cursor _ L'). rewrite (li_start _ L'), S1, S0, Hlen.
    assert (length (s_log s') + length (l0 ++ l1) = s_logBell s') by (rewrite <- Hlen, El, !length_app; lia).
    rewrite !length_app in *. rewrite (u64_small (_ + _)) by lia. rewrite u64_small by lia. lia.
Qed.

Section Watching.
Context {C : Type} `{!ClockSource C}.

(** ** A subscription beside the scope's operations *)

Definition watched : Type := C * scope * pump * list Event.

(** [stops]: whether the subscription may be cancelled and the store closed. *)
Context (stops : bool).

Inductive wstep : watched -> watched -> Prop :=
| ws_op o c s c' s' p out : step o (c, s) (c', s') -> wstep (c, s, p, out) (c', s', p, out)
| ws_pump c s p p' es out : pump_step s p = Some (p', es) -> wstep (c, s, p, out) (c, s, p', out ++ es)
| ws_stop c s p p' out : stops = true -> pump_stop p = Some p' -> wstep (c, s, p, out) (c, s, p', out).

(** The subscriber that starts at entry [a] was given the entries of [H] up
    to [k], under their cursors. *)
Definition delivered (a k : nat) (H out : list Event) : Prop :=
  a <= k <= length H /\ out = take (k - a) (drop a H) /\
  forall i e, out !! i = Some e -> ev_Cursor e = (Z.of_nat (a + i) + 1)%Z.

(** [lo] is the first cursor the ring still holds. *)
Definition reader_ok (a : nat) (H : list Event) (lo : Z) (p : pump) (out : list Event) : Prop :=
  match p with
  | Reading next => exists k, next = (Z.of_nat k + 1)%Z /\ delivered a k H out
  | Sending batch next => exists k, next = (Z.of_nat k + 1)%Z /\ delivered a k H (out ++ batch)
  | Waiting next bell => next = (Z.of_nat bell + 1)%Z /\ delivered a bell H out
  | Finished => exists k, delivered a k H out /\ (stops = true \/ (Z.of_nat k + 1 < lo)%Z)
  | Crashed => False
  end.

Record watch_ok (a : nat) (H : list Event) (s : scope) (p : pump) (out : list Event) : Prop := {
  wo_inv : inv s;
  wo_rec : recorded H s;
  wo_small : (Z.of_nat (s_logBell s) < 2 ^ 63)%Z;
  wo_reader : reader_ok a H (s_logStart s) p out
}.

Lemma delivered_more a k H es out : delivered a k H out -> delivered a k (H ++ es) out.
Proof.
  intros (Hk & E & Hc). split; [rewrite length_app; lia|]. split; [|done].
  rewrite E, drop_app_le by lia. rewrite take_app_le by (rewrite length_drop; lia). done.
Qed.

Lemma reader_more a H es lo lo' p out :
  (lo <= lo')%Z -> reader_ok a H lo p out -> reader_ok a (H ++ es) lo' p out.
Proof.
  intros Hlo. destruct p; simpl;
    [intros (k & ? & ?); exists k|intros (k & ? & ?); exists k|intros [? ?]|intros (k & ? & Hwhy); exists k|done];
    auto using delivered_more.
  split; [auto using delivered_more|]. destruct Hwhy; [by left|right; lia].
Qed.

Lemma delivered_prefix a k H out es : delivered a k H (out ++ es) -> delivered a (a + length out) H out.
Proof.
  intros (Hk & E & Hc). assert (Hl := f_equal length E). rewrite length_app, length_take, length_drop in Hl.
  split; [lia|]. split.
  - replace (a + length out - a) with (length out) by lia.
    transitivity (take (length out) (out ++ es)); [by rewrite take_app_length|].
    rewrite E, take_take. f_equal. lia.
  - intros i e Hi. apply Hc. by apply lookup_app_l_Some.
Qed.

(** A pass over the ring continues where the reader is. *)
Lemma pass_ok a k H s out :
  recorded H s -> inv s -> (Z.of_nat (s_logBell s) < 2 ^ 63)%Z -> delivered a k H out ->
  match pump_pass (Z.of_nat k + 1) s with
  | Expired => (Z.of_nat k + 1 < s_logStart s)%Z
  | Panic => False
  | Batch [] next bell => next = (Z.of_nat k + 1)%Z /\ bell = k /\ k = length H
  | Batch batch next _ => next = (Z.of_nat (length H) + 1)%Z /\ delivered a (length H) H (out ++ batch)
  end.
Proof.
  intros [(lost & EH & ES) Hc Hb] Hi Hs (Hk & Eo & Hcur). unfold pump_pass.
  assert (Hlen := f_equal length EH). rewrite length_app in Hlen.
  destruct (Z.ltb_spec (Z.of_nat k + 1) (s_logStart s)) as [Hlt|Hge]; [done|]. cbv zeta.
  rewrite u64_small by lia. rewrite i64_small by lia.
  destruct (Z.ltb_spec (Z.of_nat k + 1 - s_logStart s) (Z.of_nat (length (s_log s)))) as [Hin|Hout]; [|split_and!; lia].
  destruct (Z.ltb_spec (Z.of_nat k + 1 - s_logStart s) 0) as [Hneg|Hpos]; [lia|].
  set (idx := Z.to_nat _). assert (Hidx : k = length lost + idx) by (unfold idx; lia).
  assert (Ed : drop idx (s_log s) = drop k H) by (rewrite EH, Hidx, drop_app_add; done).
  destruct (drop idx (s_log s)) as [|e batch] eqn:Eb.
  { apply (f_equal length) in Eb. rewrite length_drop in Eb. simpl in Eb. unfold idx in Eb. lia. }
  rewrite Hc. split; [rewrite u64_small by lia; lia|]. split; [lia|]. split.
  - rewrite (take_ge (drop a H)) by (rewrite length_drop; lia).
    rewrite <- (take_drop (k - a) (drop a H)), Ed, Eo, drop_drop. do 2 f_equal. lia.
  - intros i ev Hev. apply lookup_app_Some in Hev as [Hev|[Hi1 Hev]]; [by apply Hcur|].
    assert (Hl := f_equal length Eo). rewrite length_take, length_drop in Hl.
    rewrite <- Eb, lookup_drop in Hev. pose proof (lookup_lt_Some _ _ _ Hev).
    apply (li_events _ (bi_log _ _ (inv_base _ Hi))) in Hev as [-> _]. rewrite u64_small by lia. lia.
Qed.

Lemma op_step o (c c' : C) s s' : step o (c, s) (c', s') -> advances s s' /\ (inv s -> inv s').
Proof.
  intros Hs. remember (c, s) as x eqn:Ex. remember (c', s') as y eqn:Ey. destruct Hs as [c1 s1 Ha]. simplify_eq.
  pose proof (exec_adv o c s) as H1. pose proof (fun Hi => exec_inv o c s Hi Ha) as H2. rewrite Ey in H1, H2. done.
Qed.

Lemma wstep_bell x y : wstep x y -> s_logBell x.1.1.2 <= s_logBell y.1.1.2 \/ (s_logCap x.1.1.2 < 0)%Z.
Proof.
  intros [o c s c' s' p out Hs|c s p p' es out _|c s p p' out _ _]; simpl; [|by left..].
  destruct (Z.ltb_spec (s_logCap s) 0); [by right|]. left. destruct (op_step _ _ _ _ _ Hs) as [Hadv _].
  destruct (ad_log _ _ Hadv ltac:(lia)) as (es & _ & _ & ->). lia.
Qed.

Lemma pump_step_ok a H s p p' es out :
  watch_ok a H s p out -> pump_step s p = Some (p', es) -> watch_ok a H s p' (out ++ es).
Proof.
  intros [Hi Hr Hs Hp] E. split; [done..|]. destruct p as [next|[|ev batch] next|next bell| |]; simpl in *; simplify_eq.
  - destruct Hp as (k & -> & Hd). pose proof (pass_ok a k H s out Hr Hi Hs Hd) as Hpass.
    destruct (pump_pass _ s) as [| |[|ev batch] next bell]; simplify_eq; rewrite ?app_nil_r; simpl in *; [eauto|done|..].
    + by destruct Hpass as (-> & -> & _).
    + destruct Hpass as [-> Hd']. eauto.
  - simpl. rewrite app_nil_r in *. done.
  - simpl. rewrite <- app_assoc. done.
  - destruct (rung _ _); simplify_eq. rewrite app_nil_r. simpl. destruct Hp as [-> Hd]. eauto.
Qed.

Lemma wstep_ok a H c s p out y :
  watch_ok a H s p out -> wstep (c, s, p, out) y -> (Z.of_nat (s_logBell y.1.1.2) < 2 ^ 63)%Z ->
  exists es, watch_ok a (H ++ es) y.1.1.2 y.1.2 y.2.
Proof.
  intros Hw Hstep. inversion Hstep as [o c1 s1 c' s' p1 out1 Hs| |]; subst; simpl; intros Hb.
  - destruct Hw as [Hi Hr Hsm Hp]. destruct (op_step _ _ _ _ _ Hs) as [Hadv Hi'].
    destruct (recorded_next H s s' Hr Hi (Hi' Hi) Hadv Hb) as (es & Hr' & Hlo). exists es. split; eauto using reader_more.
  - exists []. rewrite app_nil_r. by eapply pump_step_ok.
  - exists []. rewrite app_nil_r. destruct Hw as [Hi Hr Hsm Hp]. split; [done..|].
    destruct p as [next|[|ev batch] next|next bell| |]; simplify_eq/=.
    + destruct Hp as (k & _ & Hd). eexists. split; [by eapply delivered_prefix|by left].
    + destruct Hp as [_ Hd]. eauto.
Qed.

Lemma wstep_inv x y : wstep x y -> inv x.1.1.2 -> inv y.1.1.2.
Proof. intros [o c s c' s' p out Hs| |]; simpl; [|done..]. apply (op_step _ _ _ _ _ Hs). Qed.

Lemma wsteps_bell x y : rtc wstep x y -> inv x.1.1.2 -> s_logBell x.1.1.2 <= s_logBell y.1.1.2.
Proof.
  induction 1 as [x|x y z Hxy Hyz IH]; intros Hi; [done|].
  pose proof (li_cap _ (bi_log _ _ (inv_base _ Hi))). destruct (wstep_bell x y Hxy); [|lia].
  etransitivity; [done|]. apply IH. by eapply wstep_inv.
Qed.

Lemma watch_run a x y : rtc wstep x y -> forall H,
  watch_ok a H x.1.1.2 x.1.2 x.2 -> (Z.of_nat (s_logBell y.1.1.2) < 2 ^ 63)%Z ->
  exists es, watch_ok a (H ++ es) y.1.1.2 y.1.2 y.2.
Proof.
  induction 1 as [x|x y z Hxy Hyz IH]; intros H Hw Hb; [exists []; by rewrite app_nil_r|].
  pose proof (wstep_inv x y Hxy (wo_inv _ _ _ _ _ Hw)) as Hiy. pose proof (wsteps_bell y z Hyz Hiy).
  destruct x as [[[c s] p] out]. destruct (wstep_ok a H c s p out y Hw Hxy ltac:(lia)) as [es Hy].
  destruct (IH _ Hy Hb) as [es' Hz]. exists (es ++ es'). by rewrite app_assoc.
Qed.

(** ** The properties *)

Context (name : string) (cap : Z) (cfg : ScopeConfig) (c0 : C).

Notation start := (c0, newScope name cap cfg).

Lemma start_recorded os c s :
  (0 < cap)%Z -> steps os start (c, s) -> (Z.of_nat (s_logBell s) < 2 ^ 63)%Z -> exists H, recorded H s.
Proof.
  intros Hc Hs Hb. assert (R0 : recorded [] (newScope name cap cfg)) by (split; [by exists []|done..]).
  destruct (recorded_next [] (newScope name cap cfg) s R0) as (es & H & _); [by apply newScope_inv|..|done|by exists es].
  - by apply (steps_inv os start (c, s) Hs), newScope_inv.
  - exact (steps_adv os start (c, s) Hs).
Qed.

(** C27: a subscription delivers without gaps.  Whatever calls run beside it,
    a subscriber that starts anew, replays, or resumes from a cursor that is
    not ahead of the scope's receives the events from its start on, each once
    and in cursor order; the stream ends only if the subscription was cancelled
    or the store closed ([stops]), or because the ring has dropped the very
    event that comes next; and when the reader cannot move it has ended or has
    delivered everything.  The bound excludes only logs of 2^63 events. *)
Theorem watch_gapless os c1 s1 req next c s p out :
  (0 < cap)%Z -> steps os start (c1, s1) -> (wr_From req <= s_cursor s1)%Z ->
  watch_start req s1 = Ok next -> rtc wstep (c1, s1, Reading next, []) (c, s, p, out) ->
  (Z.of_nat (s_logBell s) < 2 ^ 63)%Z ->
  exists H, recorded H s /\ p <> Crashed /\
    out `prefix_of` drop (Z.to_nat next - 1) H /\
    (forall i e, out !! i = Some e -> ev_Cursor e = (next + Z.of_nat i)%Z) /\
    (p = Finished -> stops = true \/ (next + Z.of_nat (length out) < s_logStart s)%Z) /\
    (pump_step s p = None -> p = Finished \/ out = drop (Z.to_nat next - 1) H).
Proof.
  intros Hc Hs Hf Hstart Hrun Hb. assert (Hi : inv s1) by (by apply (steps_inv os start (c1, s1) Hs), newScope_inv).
  pose proof (wsteps_bell _ _ Hrun Hi) as Hmono. simpl in Hmono.
  destruct (start_recorded os c1 s1 Hc Hs ltac:(lia)) as [hist Hr].
  assert (Hn : exists a, next = (Z.of_nat a + 1)%Z /\ a <= length hist).
  { destruct Hr as [(lost & EH & ES) Ec Eb]. unfold watch_start in Hstart. assert (Hlen := f_equal length EH).
    rewrite length_app in Hlen. destruct (Z.ltb_spec 0 (wr_From req)); [|destruct (wr_Replay req)].
    - rewrite u64_small in Hstart by lia. destruct (Z.ltb_spec (wr_From req + 1) (s_logStart s1)); [done|]. injection Hstart as <-.
      exists (Z.to_nat (wr_From req)). lia.
    - injection Hstart as <-. exists (length lost). lia.
    - rewrite u64_small in Hstart by lia. injection Hstart as <-. exists (length hist). lia. }
  destruct Hn as (a & -> & Ha).
  destruct (watch_run a _ _ Hrun hist) as [es [Hi' Hr' _ Hp]]; [|done|].
  { split; simpl; [done|done|lia|]. exists a. split; [done|]. split; [lia|]. by rewrite Nat.sub_diag. }
  simpl in *. exists (hist ++ es). replace (Z.to_nat (Z.of_nat a + 1) - 1) with a by lia.
  assert (Hd : exists k, delivered a k (hist ++ es) out /\ (p = Finished -> stops = true \/ (Z.of_nat k + 1 < s_logStart s)%Z)).
  { destruct p; simpl in Hp; [naive_solver| |naive_solver|naive_solver|done].
    destruct Hp as (k & _ & Hd). eexists. split; [by eapply delivered_prefix|done]. }
  destruct Hd as (k & (Hk & Eo & Hcur) & Hend). split_and!; [done|by destruct p| | | |].
  - rewrite Eo. apply prefix_take.
  - intros i e He. rewrite (Hcur i e He). lia.
  - intros ->. destruct (Hend eq_refl) as [|Hlt]; [by left|right]. rewrite Eo, length_take, length_drop. lia.
  - intros Hnone. destruct p as [n|[|] n|n bell| |]; simplify_eq/=; [by repeat case_match| |by left|done]. right.
    unfold rung in Hnone. destruct (Nat.ltb_spec bell (s_logBell s)); [done|]. destruct Hp as [_ (Hk' & -> & _)].
    rewrite take_ge; [done|]. rewrite length_drop. pose proof (rc_bell _ _ Hr'). lia.
Qed.

End Watching.

(** ** Waiting for work *)

Lemma heap_nonempty less h P : good less h P -> (0 <? Pq.Len h) = true <-> exists x, P x.
Proof.
  intros [_ _ Hm]. unfold Pq.Len. rewrite Nat.ltb_lt. split.
  - destruct (items h) as [|x l] eqn:E; simpl; [lia|]. intros _. exists x. apply Hm. left.
  - intros [x Hx%Hm]. destruct (items h); [by apply not_elem_of_nil in Hx|simpl; lia].
Qed.

Lemma anyReady_spec kinds s : heap_inv s -> anyReady kinds s = true <-> exists h, claimable kinds s h.
Proof.
  intros [_ _ Hr].
  assert (Hk : forall k hp, s_ready s !! k = Some hp -> (0 <? Pq.Len hp) = true <-> exists x, ready_in s k x).
  { intros k hp Ek. specialize (Hr k). unfold readyHeap in Hr. rewrite Ek in Hr. by eapply heap_nonempty. }
  assert (Habs : forall x, in_phase s PhaseReady x -> exists hp, s_ready s !! kind (rec s x) = Some hp).
  { intros x Hx. destruct (s_ready s !! kind (rec s x)) as [hp|] eqn:E; [eauto|exfalso].
    pose proof (good_mem _ _ _ (Hr (kind (rec s x))) x) as Hm. unfold readyHeap in Hm. rewrite E in Hm.
    assert (x ∈ items (default (Pq.New 0) None)) as Hin by (by apply Hm). by apply not_elem_of_nil in Hin. }
  unfold claimable, allowed, anyReady. destruct kinds as [|k0 ks]; rewrite existsb_exists.
  - split.
    + intros ([k hp] & Hin & Hl). apply list_elem_of_In, elem_of_map_to_list in Hin.
      apply (Hk k hp Hin) in Hl as [x [Hx _]]. exists x. split; [done|by left].
    + intros (x & Hx & _). destruct (Habs x Hx) as [hp Ehp]. exists (kind (rec s x), hp).
      split; [by apply list_elem_of_In, elem_of_map_to_list|]. apply (Hk _ _ Ehp). by exists x.
  - split.
    + intros (k & Hin & Hl). destruct (s_ready s !! k) as [hp|] eqn:E; [|done].
      apply (Hk k hp E) in Hl as [x [Hx <-]]. exists x. split; [done|right]. by apply list_elem_of_In.
    + intros (x & Hx & [?|Hin]); [done|]. destruct (Habs x Hx) as [hp Ehp]. exists (kind (rec s x)).
      split; [by apply list_elem_of_In|]. rewrite Ehp. apply (Hk _ _ Ehp). by exists x.
Qed.

(** C28: no wakeup is lost.  [WaitForWork] returns at once exactly when a node
    of the requested kinds is ready; otherwise it parks on the scope's bell,
    and in every later state in which such a node is ready the bell has rung,
    so that the call can return. *)
Theorem no_lost_wakeup {C : Type} `{!ClockSource C} name kinds (st st' : Store C) w s :
  closed st = false -> WaitForWork name kinds st = (st', w) -> scopes st' !! name = Some s -> inv s ->
  (w = Returned (Ok tt) <-> exists h, claimable kinds s h) /\
  forall bell os c c' s' cancelled isClosed, w = Parked bell -> steps os (c, s) (c', s') ->
    (exists h, claimable kinds s' h) -> Woken ∈ select_work bell s' cancelled isClosed.
Proof.
  intros Hcl E Hs Hi. unfold WaitForWork in E.
  assert (E' : (if anyReady kinds s then Returned (Ok tt) else Parked (s_doorbell s)) = w).
  { destruct (scopeFor st name true) as [st1 r] eqn:E1. unfold scopeFor in E1. rewrite Hcl in E1.
    destruct (scopes st !! name) as [s0|] eqn:E2; simplify_eq/=.
    - destruct (anyReady kinds s0) eqn:Ea; simplify_eq; by rewrite Ea.
    - destruct (anyReady kinds (newScope _ _ _)) eqn:Ea; simplify_eq/=; rewrite lookup_insert_eq in Hs; simplify_eq; by rewrite Ea. }
  pose proof (anyReady_spec kinds s (inv_heap _ Hi)) as Ha. destruct (anyReady kinds s) eqn:Er; subst w.
  - split; [tauto|done].
  - split; [split; [done|intros H; by apply Ha in H]|].
    intros bell os c c' s' cancelled isClosed Hp Hst (h & Hh & Hk). simplify_eq.
    pose proof (steps_adv os _ _ Hst) as Hadv. simpl in Hadv. apply elem_of_app. left. unfold rung.
    destruct (Nat.ltb_spec (s_doorbell s) (s_doorbell s')) as [|Hge]; [by left|exfalso].
    pose proof (ad_bell _ _ Hadv). destruct (ad_quiet _ _ Hadv ltac:(lia) h) as [H1 H2]; [by apply rdy_in_phase|].
    assert (exists h, claimable kinds s h) as Hc by (exists h; split; [by apply rdy_in_phase|by rewrite <- H2]).
    by apply Ha in Hc.
Qed.

(** a subscriber that resumes far ahead of the log crashes the process:
    for a cursor so large that its distance to the ring does not fit an
    [int], [Watch] accepts the request and the first pass of [pump] slices
    with a negative index. *)
Lemma watch_far_ahead_crashes req s :
  inv s -> (2 ^ 63 + s_logStart s - 1 <= wr_From req < 2 ^ 64 - 1)%Z ->
  exists next, watch_start req s = Ok next /\ pump_step s (Reading next) = Some (Crashed, []).
Proof.
  intros Hi Hf. pose proof (bi_log _ _ (inv_base _ Hi)) as L. pose proof (li_start _ L) as Hs0.
  assert (0 <= s_logStart s < 2 ^ 64)%Z by (rewrite Hs0; unfold u64; apply Z.mod_pos_bound; lia).
  exists (wr_From req + 1)%Z. unfold watch_start. rewrite u64_small by lia.
  do 2 (split_cmp; [try lia|try lia]). split; [done|]. simpl. unfold pump_pass. split_cmp; [lia|].
  rewrite u64_small by lia. set (d := (wr_From req + 1 - s_logStart s)%Z).
  assert (Hneg : i64 d = (d - 2 ^ 64)%Z).
  { unfold i64. replace (d + 2 ^ 63)%Z with (d + 2 ^ 63 - 2 ^ 64 + 1 * 2 ^ 64)%Z by lia.
    rewrite Z.mod_add by lia. rewrite Z.mod_small; unfold d; lia. }
  cbv zeta. rewrite Hneg. unfold d. by repeat (split_cmp; [|lia]).
Qed.

(** ** On a concrete scope *)

(** The reader moves [n] times, or until it cannot. *)
Fixpoint pump_n (n : nat) (s : scope) (p : pump) (out : list Event) : pump * list Event :=
  match n with
  | O => (p, out)
  | S n => match pump_step s p with
           | None => (p, out)
           | Some (p', es) => pump_n n s p' (out ++ es)
           end
  end.

Lemma pump_n_steps {C : Type} `{!ClockSource C} stops (c : C) s n : forall p out,
  rtc (wstep stops) (c, s, p, out) (c, s, fst (pump_n n s p out), snd (pump_n n s p out)).
Proof.
  induction n as [|n IH]; intros p out; simpl; [constructor|]. destruct (pump_step s p) as [[p' es]|] eqn:E; [|constructor].
  econstructor; [by apply ws_pump|apply IH].
Qed.

(** A subscriber that replays the empty scope, is overtaken by [AddNodes], and
    catches up. *)
Lemma watch_gapless_witness :
  let out := snd (pump_n 9 demo (Reading 1) []) in
  length out = 6 /\ exists hist, recorded hist demo /\ out = hist.
Proof.
  intros out. split; [vm_compute; reflexivity|].
  destruct (watch_gapless false "jobs" 4 zeroConfig clk0 [] clk0 empty (mkWatch "jobs" 0 true) 1 (clock_after demo_ops) demo
              (fst (pump_n 9 demo (Reading 1) [])) out) as (hist & Hr & _ & _ & _ & _ & Hd).
  - lia.
  - constructor.
  - vm_compute. discriminate.
  - reflexivity.
  - eapply rtc_l; [|apply pump_n_steps]. apply (ws_op false (OpAddNodes demo_specs)).
    pose proof (run_after demo_ops ltac:(by_evaluation)) as Hs. inversion Hs as [|o os cs1 cs2 cs3 H1 H2]; subst.
    inversion H2; subst. exact H1.
  - vm_compute. reflexivity.
  - exists hist. split; [exact Hr|]. destruct Hd as [Hd|Hd].
    + vm_compute. reflexivity.
    + exfalso. vm_compute in Hd. discriminate.
    + exact Hd.
Defined.

Definition jobs_store (s : scope) : Store ticker := mkStore {["jobs"%string := s]} clk0 zeroConfig 4 false.

(** A worker that waits for builds while [a] is leased is woken once [a] has
    succeeded and [b] is ready. *)
Definition finish_a : list op := [OpComplete (mkComplete lease_a true ReasonNone "" [])].

Lemma no_lost_wakeup_witness :
  let s' := snd (exec_all finish_a (clock_after leased_ops, leased)) in
  Woken ∈ select_work (s_doorbell leased) s' false false.
Proof.
  intros s'. assert (E : anyReady ["build"%string] leased = false) by (vm_compute; reflexivity).
  destruct (no_lost_wakeup "jobs" ["build"%string] (jobs_store leased) (jobs_store leased)
              (Parked (s_doorbell leased)) leased) as [_ H].
  - reflexivity.
  - unfold WaitForWork, scopeFor, jobs_store. cbn [closed scopes]. rewrite lookup_singleton_eq, E. reflexivity.
  - apply lookup_singleton_eq.
  - exact leased_inv.
  - assert (Hk : kind (rec s' 1) = "build"%string) by (vm_compute; reflexivity).
    assert (Hl : live s' 1) by (split; [vm_compute; lia|vm_compute; reflexivity]).
    assert (Hp : phase (rec s' 1) = PhaseReady) by (vm_compute; reflexivity).
    apply (H (s_doorbell leased) finish_a (clock_after leased_ops) (fst (exec_all finish_a (clock_after leased_ops, leased))) s').
    + reflexivity.
    + apply run_from. by_evaluation.
    + exists 1. split; [split; [exact Hl|exact Hp]|]. right. rewrite Hk. left.
Defined.

Lemma watch_far_ahead_crashes_witness :
  exists next, watch_start (mkWatch "jobs" (2 ^ 63 + 5) false) demo = Ok next /\
    pump_step demo (Reading next) = Some (Crashed, []).
Proof.
  apply (watch_far_ahead_crashes (mkWatch "jobs" (2 ^ 63 + 5) false) demo demo_inv).
  split; vm_compute; [discriminate|reflexivity].
Defined.
