(* ===== verification/SnapshotProps.v ===== *)
(** * Restoring a snapshot

    [restoreScope] applied to the snapshot of a scope gives that scope with
    its handles renamed: node [L !! j] of the old scope is node [j] of the new
    one.  The loops are first put in closed form ([restore_nodes_eq],
    [restore_edges_eq]); [renamed] says what the result is, and the invariant
    is carried over along it. *)
From S2P Require Import Prelude Types Config Heap HeapFacts Scope Topo TopoFacts Graph Lease Memory Snapshot ListFacts Invariant.
From S2P Require Import ScopeFacts Removal Machine Scenario.

(** ** The loops in closed form *)

Fixpoint fill {A : Type} (i : nat) (vals l : list A) : list A :=
  match vals with
  | [] => l
  | v :: vals => fill (S i) vals (<[i := v]> l)
  end.

Lemma fill_all {A : Type} (vals : list A) : forall pre rest,
  length rest = length vals -> fill (length pre) vals (pre ++ rest) = pre ++ vals.
Proof.
  induction vals as [|v vals IH]; intros pre [|r rest] Hl; simplify_eq/=; [done|].
  rewrite insert_app_r_alt by lia. rewrite Nat.sub_diag. simpl.
  replace (pre ++ v :: rest) with ((pre ++ [v]) ++ rest) by (by rewrite <- app_assoc).
  replace (S (length pre)) with (length (pre ++ [v])) by (rewrite length_app; simpl; lia).
  rewrite IH by done. by rewrite <- app_assoc.
Qed.

Lemma fill_replicate {A : Type} (vals : list A) (v : A) n :
  n = length vals -> fill 0 vals (replicate n v) = vals.
Proof. intros ->. apply (fill_all vals [] (replicate _ v)). by rewrite length_replicate. Qed.

Fixpoint index_from (i : nat) (ids : list string) (m : gmap string nat) : gmap string nat :=
  match ids with
  | [] => m
  | x :: ids => index_from (S i) ids (<[x := i]> m)
  end.

Lemma index_from_spec ids : forall i m x j, NoDup ids -> (forall y, y ∈ ids -> m !! y = None) ->
  index_from i ids m !! x = Some j <-> m !! x = Some j \/ exists k, ids !! k = Some x /\ j = i + k.
Proof.
  induction ids as [|y ids IH]; intros i m x j Hn Hm; simpl.
  - split; [by left|]. intros [H|(k & H & _)]; [done|by rewrite lookup_nil in H].
  - apply NoDup_cons in Hn as [Hy Hn]. rewrite IH; [|done|].
    2:{ intros z Hz. rewrite lookup_insert_ne by (intros ->; done). apply Hm. by right. }
    rewrite lookup_insert. split.
    + case_decide as E; [intros [H|(k & H & ->)]|intros [H|(k & H & ->)]].
      * simplify_eq. right. exists 0. split; [done|lia].
      * right. exists (S k). split; [done|lia].
      * by left.
      * right. exists (S k). split; [done|lia].
    + intros [H|([|k] & H & ->)].
      * left. case_decide as E; [|done]. subst. rewrite Hm in H by left. done.
      * simplify_eq/=. left. rewrite decide_True by done. f_equal. lia.
      * right. exists k. split; [done|lia].
Qed.

Lemma restore_nodes_eq nodes : forall i s,
  NoDup (ns_ID <$> nodes) -> (forall n, n ∈ nodes -> s_index s !! ns_ID n = None) ->
  restore_nodes i nodes s =
  Ok (s <| s_index := index_from i (ns_ID <$> nodes) (s_index s) |>
        <| s_recs := s_recs s ++ (rec_of <$> nodes) |>
        <| s_ord := fill i (ns_Ord <$> nodes) (s_ord s) |>
        <| s_deadline := fill i (ns_Deadline <$> nodes) (s_deadline s) |>
        <| s_readyAt := fill i (ns_ReadyAt <$> nodes) (s_readyAt s) |>
        <| s_fifo := fill i (ns_Fifo <$> nodes) (s_fifo s) |>).
Proof.
  induction nodes as [|n nodes IH]; intros i s Hn Hf; simpl.
  - rewrite app_nil_r. by destruct s.
  - apply NoDup_cons in Hn as [Hn0 Hn]. rewrite bool_decide_eq_false_2.
    2:{ rewrite Hf by left. by intros []. }
    rewrite IH; [|done|].
    + simpl. by rewrite <- app_assoc.
    + intros m Hm. simpl. rewrite lookup_insert_ne; [apply Hf; by right|].
      intros E. apply Hn0. rewrite E. by apply list_elem_of_fmap_2.
Qed.

Lemma restore_edges_eq nodes : forall i s sws pws,
  Forall2 (fun n ws => mapM (fun w => s_index s !! w) (ns_Succ n) = Some ws) nodes sws ->
  Forall2 (fun n es => mapM (resolve_pred s) (ns_Pred n) = Some es) nodes pws ->
  restore_edges i nodes s = Ok (s <| s_succ := fill i sws (s_succ s) |> <| s_pred := fill i pws (s_pred s) |>).
Proof.
  induction nodes as [|n nodes IH]; intros i s sws pws H1 H2.
  - inversion H1; inversion H2; subst. simpl. by destruct s.
  - inversion H1 as [|? ws ? sws' E1 H1']; inversion H2 as [|? es ? pws' E2 H2']; subst. simpl. rewrite E1.
    assert (E2' : mapM (resolve_pred (s <| s_succ ::= <[i := ws]> |>)) (ns_Pred n) = Some es) by exact E2.
    simpl in E2'. rewrite E2'. by rewrite (IH (S i) _ sws' pws').
Qed.

(** ** A scope under new handles *)

Record renamed (L : list nat) (pos : nat -> nat) (s s' : scope) : Prop := {
  rn_recs : s_recs s' = rec s <$> L;
  rn_index : forall x j, s_index s' !! x = Some j <-> exists h, L !! j = Some h /\ id (rec s h) = x;
  rn_succ : s_succ s' = (fun h : nat => pos <$> (s_succ s !!! h : list nat)) <$> L;
  rn_pred : s_pred s' = (fun h : nat => (fun e => mkPred (pos (from e)) (satisfied e)) <$> (s_pred s !!! h : list predEdge)) <$> L;
  rn_ord : s_ord s' = (fun h : nat => s_ord s !!! h : Z) <$> L;
  rn_deadline : s_deadline s' = (fun h : nat => s_deadline s !!! h : Z) <$> L;
  rn_readyAt : s_readyAt s' = (fun h : nat => s_readyAt s !!! h : Z) <$> L;
  rn_fifo : s_fifo s' = (fun h : nat => s_fifo s !!! h : Z) <$> L;
  rn_free : s_free s' = [];
  rn_name : s_name s' = s_name s;
  rn_cfg : s_cfg s' = s_cfg s;
  rn_sealed : s_sealed s' = s_sealed s;
  rn_nextOrd : s_nextOrd s' = s_nextOrd s;
  rn_nextFifo : s_nextFifo s' = s_nextFifo s;
  rn_floor : s_epochFloor s' = s_epochFloor s;
  rn_stats : s_stats s' = s_stats s;
  rn_cursor : s_cursor s' = s_cursor s;
  rn_log : s_log s' = [];
  rn_start : s_logStart s' = u64 (s_cursor s + 1);
  rn_cap : (0 < s_logCap s')%Z
}.

(** What survives, said of the identifiers alone: every node with its whole
    record, its rank, lease deadline, retry time and queue number, its edges in
    their order with the satisfied flags, and the scope's own fields; the event
    log starts empty after the last cursor. *)
Record resumed (s s' : scope) : Prop := {
  re_ids : forall i, is_Some (s_index s' !! i) <-> is_Some (s_index s !! i);
  re_node : forall i h h', s_index s !! i = Some h -> s_index s' !! i = Some h' -> rec s' h' = rec s h /\
    s_ord s' !!! h' = s_ord s !!! h /\ s_deadline s' !!! h' = s_deadline s !!! h /\
    s_readyAt s' !!! h' = s_readyAt s !!! h /\ s_fifo s' !!! h' = s_fifo s !!! h;
  re_succ : forall i h h', s_index s !! i = Some h -> s_index s' !! i = Some h' ->
    (fun w => id (rec s' w)) <$> s_succ s' !!! h' = (fun w => id (rec s w)) <$> s_succ s !!! h;
  re_pred : forall i h h', s_index s !! i = Some h -> s_index s' !! i = Some h' ->
    (fun e => (id (rec s' (from e)), satisfied e)) <$> s_pred s' !!! h' =
    (fun e => (id (rec s (from e)), satisfied e)) <$> s_pred s !!! h;
  re_scope : s_name s' = s_name s /\ s_cfg s' = s_cfg s /\ s_sealed s' = s_sealed s /\ s_epochFloor s' = s_epochFloor s /\
    s_nextOrd s' = s_nextOrd s /\ s_nextFifo s' = s_nextFifo s /\ s_stats s' = s_stats s /\ s_cursor s' = s_cursor s;
  re_log : s_log s' = [] /\ s_logStart s' = u64 (s_cursor s + 1)
}.

Section Renamed.
Context (L : list nat) (pos : nat -> nat) (s s' : scope).
Context (Hi : inv s) (Hn : NoDup L) (HL : forall h, h ∈ L <-> live s h).
Context (Hpos : forall j h, L !! j = Some h -> pos h = j) (R : renamed L pos s s').

Let Hg := bi_graph _ _ (inv_base _ Hi).

Lemma pos_lookup h : live s h -> L !! pos h = Some h.
Proof. intros [j Hj]%HL%list_elem_of_lookup. by rewrite (Hpos j h Hj). Qed.

Lemma pos_inj a b : live s a -> live s b -> pos a = pos b -> a = b.
Proof. intros Ha%pos_lookup Hb%pos_lookup E. rewrite E in Ha. congruence. Qed.

Lemma rn_size : size_ s' = length L.
Proof. by rewrite (rn_recs _ _ _ _ R), length_fmap. Qed.

Section At.
Context (j h : nat) (Hj : L !! j = Some h).

Lemma at_rec : rec s' j = rec s h.
Proof. unfold rec at 1. rewrite (rn_recs _ _ _ _ R). apply list_lookup_total_correct. by rewrite list_lookup_fmap, Hj. Qed.

Lemma at_live : live s h.
Proof. apply HL. by eapply list_elem_of_lookup_2. Qed.

Lemma at_succ : s_succ s' !!! j = pos <$> s_succ s !!! h.
Proof. rewrite (rn_succ _ _ _ _ R). apply list_lookup_total_correct. by rewrite list_lookup_fmap, Hj. Qed.

Lemma at_pred : s_pred s' !!! j = (fun e => mkPred (pos (from e)) (satisfied e)) <$> s_pred s !!! h.
Proof. rewrite (rn_pred _ _ _ _ R). apply list_lookup_total_correct. by rewrite list_lookup_fmap, Hj. Qed.

Lemma at_ord : s_ord s' !!! j = s_ord s !!! h.
Proof. rewrite (rn_ord _ _ _ _ R). apply list_lookup_total_correct. by rewrite list_lookup_fmap, Hj. Qed.

Lemma at_deadline : s_deadline s' !!! j = s_deadline s !!! h.
Proof. rewrite (rn_deadline _ _ _ _ R). apply list_lookup_total_correct. by rewrite list_lookup_fmap, Hj. Qed.

Lemma at_readyAt : s_readyAt s' !!! j = s_readyAt s !!! h.
Proof. rewrite (rn_readyAt _ _ _ _ R). apply list_lookup_total_correct. by rewrite list_lookup_fmap, Hj. Qed.

Lemma at_fifo : s_fifo s' !!! j = s_fifo s !!! h.
Proof. rewrite (rn_fifo _ _ _ _ R). apply list_lookup_total_correct. by rewrite list_lookup_fmap, Hj. Qed.

End At.

(** Beyond the nodes there is nothing. *)
Lemma off_rec j : L !! j = None -> rec s' j = zeroRec.
Proof. intros H%lookup_ge_None. apply rec_ge. by rewrite rn_size. Qed.

Lemma off_succ j : L !! j = None -> s_succ s' !!! j = [].
Proof. intros H. rewrite (rn_succ _ _ _ _ R), list_lookup_total_alt, list_lookup_fmap, H. done. Qed.

Lemma off_pred j : L !! j = None -> s_pred s' !!! j = [].
Proof. intros H. rewrite (rn_pred _ _ _ _ R), list_lookup_total_alt, list_lookup_fmap, H. done. Qed.

Lemma new_live j : live s' j <-> exists h, L !! j = Some h.
Proof.
  rewrite live_alive. destruct (L !! j) as [h|] eqn:E.
  - rewrite (at_rec j h E). apply at_live, live_alive in E. naive_solver.
  - rewrite (off_rec j E). split; [done|by intros []].
Qed.

Lemma new_edge i j : edge s' i j <-> exists u v, L !! i = Some u /\ L !! j = Some v /\ edge s u v.
Proof.
  unfold edge. destruct (L !! i) as [u|] eqn:E.
  - rewrite (at_succ i u E), list_elem_of_fmap. split.
    + intros (v & -> & Hv). exists u, v. split_and!; [done| |done]. apply pos_lookup, (gw_live s (gi_wf s Hg) u v Hv).
    + intros (u' & v & [= <-] & Hv & He). exists v. split; [by rewrite (Hpos j v Hv)|done].
  - rewrite (off_succ i E). split; [by intros ?%not_elem_of_nil|]. intros (u & v & ? & _). done.
Qed.

Lemma new_class e : live s (from e) -> eclass s' (mkPred (pos (from e)) (satisfied e)) = eclass s e.
Proof. intros Hl. unfold eclass. simpl. by rewrite (at_rec _ _ (pos_lookup _ Hl)). Qed.

Lemma pred_live v e : e ∈ s_pred s !!! v -> live s (from e).
Proof. intros He. apply (gw_live s (gi_wf s Hg) (from e) v), (gw_pred s (gi_wf s Hg)). by apply list_elem_of_fmap_2. Qed.

Lemma new_dcount j h d : L !! j = Some h -> dcount s' j d = dcount s h d.
Proof.
  intros Hj. unfold dcount. rewrite (at_pred j h Hj).
  assert (Hl : forall e, e ∈ s_pred s !!! h -> live s (from e)) by (intros; by eapply pred_live).
  induction (s_pred s !!! h) as [|e l IH]; csimpl; [done|]. rewrite (new_class e) by (apply Hl; left).
  rewrite IH; [done|]. intros e' He'. apply Hl. by right.
Qed.

Lemma new_graph : graph_inv s'.
Proof.
  split.
  all: rewrite ?(rn_succ _ _ _ _ R), ?(rn_pred _ _ _ _ R), ?(rn_deadline _ _ _ _ R), ?(rn_readyAt _ _ _ _ R), ?(rn_fifo _ _ _ _ R),
         ?(rn_free _ _ _ _ R), ?(rn_nextOrd _ _ _ _ R), ?rn_size, ?length_fmap; try done.
  - pose proof (gi_small s Hg) as H. assert (length L <= size_ s); [|lia].
    rewrite <- (length_seq (size_ s) 0). apply submseteq_length, NoDup_submseteq; [done|].
    intros h [Hlt _]%HL. apply elem_of_seq. lia.
  - intros x j. rewrite (rn_index _ _ _ _ R), new_live. split.
    + intros (h & Hj & <-). rewrite (at_rec j h Hj). eauto.
    + intros [[h Hj] E]. rewrite (at_rec j h Hj) in E. eauto.
  - constructor.
  - intros j. split; [by intros ?%not_elem_of_nil|]. intros [Hlt Ha].
    destruct (lookup_lt_is_Some_2 L j Hlt) as [h Hj]. rewrite (at_rec j h Hj) in Ha.
    apply at_live, live_alive in Hj. congruence.
  - intros j Ha. destruct (L !! j) as [h|] eqn:Hj; [|by apply off_rec]. rewrite (at_rec j h Hj) in Ha.
    apply at_live, live_alive in Hj. congruence.
  - split.
    + intros i j (u & v & Hu & Hv & _)%new_edge. rewrite !new_live. eauto.
    + intros i j. rewrite new_edge. destruct (L !! j) as [v|] eqn:Hj.
      * rewrite (at_pred j v Hj), <- list_fmap_compose, list_elem_of_fmap. simpl. split.
        -- intros (u & v' & Hu & [= <-] & He). apply (gw_pred s (gi_wf s Hg)), list_elem_of_fmap in He as (e & -> & He).
           exists e. split; [by rewrite (Hpos i _ Hu)|done].
        -- intros (e & -> & He). exists (from e), v. split_and!; [by eapply pos_lookup, pred_live|done|].
           apply (gw_pred s (gi_wf s Hg)). by apply list_elem_of_fmap_2.
      * rewrite (off_pred j Hj). split; [naive_solver|by intros ?%not_elem_of_nil].
  - split.
    + by rewrite (rn_ord _ _ _ _ R), length_fmap, rn_size.
    + intros i j (u & v & Hu & Hv & He)%new_edge. unfold rank. rewrite (at_ord i u Hu), (at_ord j v Hv). by apply (rk_mono s (gi_ranked s Hg)).
    + intros i j [u Hu]%new_live [v Hv]%new_live. unfold rank. rewrite (at_ord i u Hu), (at_ord j v Hv). intros E.
      apply (rk_inj s (gi_ranked s Hg)) in E; [|by eapply at_live..]. subst v. by rewrite <- (Hpos i u Hu), (Hpos j u Hv).
  - intros j. destruct (L !! j) as [h|] eqn:Hj; [|rewrite list_lookup_total_alt, list_lookup_fmap, Hj; constructor].
    rewrite (list_lookup_total_correct _ _ (pos <$> s_succ s !!! h)) by (by rewrite list_lookup_fmap, Hj).
    apply NoDup_fmap_on; [|apply (gi_nodup_s s Hg)]. intros a b Ha Hb. apply pos_inj.
    + by apply (gw_live s (gi_wf s Hg) h a).
    + by apply (gw_live s (gi_wf s Hg) h b).
  - intros j. rewrite list_lookup_total_alt, list_lookup_fmap. destruct (L !! j) as [h|] eqn:Hj; simpl; [|constructor].
    rewrite <- list_fmap_compose. rewrite (list_fmap_compose from pos). apply NoDup_fmap_on; [|apply (gi_nodup_p s Hg)].
    intros a b (ea & -> & Ha)%list_elem_of_fmap (eb & -> & Hb)%list_elem_of_fmap. apply pos_inj; by eapply pred_live.
  - intros j [h Hj]%new_live. unfold rank. rewrite (at_ord j h Hj). by apply (gi_next s Hg), at_live with j.
  - apply (gi_nextOrd s Hg).
Qed.

Lemma new_count P : P zeroRec = false -> count P (s_recs s') = count P (s_recs s).
Proof.
  intros Hz. rewrite (rn_recs _ _ _ _ R).
  assert (Hsum : forall l : list nat, NoDup l -> (forall h, h ∈ l -> h < size_ s) ->
            (forall h, h < size_ s -> P (rec s h) = true -> h ∈ l) -> count P (rec s <$> l) = count P (s_recs s)).
  { intros l Hl Hin Hall. assert (Hs : rec s <$> seq 0 (size_ s) = s_recs s).
    { apply list_eq. intros k. rewrite list_lookup_fmap. destruct (decide (k < size_ s)) as [Hk|Hk].
      - rewrite lookup_seq_lt by done. simpl. symmetry. by apply list_lookup_lookup_total_lt.
      - rewrite lookup_seq_ge by lia. simpl. symmetry. apply lookup_ge_None. lia. }
    rewrite <- Hs. clear Hs.
    assert (Hc : forall a b : list nat, a ≡ₚ b -> count P (rec s <$> a) = count P (rec s <$> b)).
    { induction 1; csimpl; lia. }
    rewrite (Hc (seq 0 (size_ s)) (l ++ filter (fun h => h ∉ l) (seq 0 (size_ s)))).
    - rewrite fmap_app, count_app.
      assert (count P (rec s <$> filter (fun h => h ∉ l) (seq 0 (size_ s))) = 0) as ->; [|lia].
      apply count_zero. intros r (h & -> & [Hn' Hh]%list_elem_of_filter)%list_elem_of_fmap.
      destruct (P (rec s h)) eqn:E; [|done]. destruct Hn'. apply Hall; [|done]. apply elem_of_seq in Hh. lia.
    - apply NoDup_Permutation; [apply NoDup_seq| |].
      + apply NoDup_app. split_and!; [done| |apply NoDup_filter, NoDup_seq].
        intros x Hx [? _]%list_elem_of_filter. done.
      + intros x. rewrite elem_of_app, list_elem_of_filter, elem_of_seq. split.
        * intros ?. destruct (decide (x ∈ l)); [by left|right]. split; [done|lia].
        * intros [Hx|[_ Hx]]; [|done]. apply Hin in Hx. lia. }
  apply Hsum; [done|by intros h [? _]%HL|]. intros h Hlt Ht. apply HL, live_alive.
  destruct (alive (rec s h)) eqn:E; [done|]. rewrite (gi_dead s Hg h E) in Ht. congruence.
Qed.

Lemma new_base : base_inv none_pending s'.
Proof.
  split.
  - exact new_graph.
  - intros j. destruct (L !! j) as [h|] eqn:Hj.
    + rewrite (at_rec j h Hj), (bi_deps _ _ (inv_base _ Hi) h). unfold deps_of. by rewrite !(new_dcount j h _ Hj).
    + rewrite (off_rec j Hj). unfold deps_of, dcount. by rewrite (off_pred j Hj).
  - intros j e He. destruct (L !! j) as [h|] eqn:Hj; [|rewrite (off_pred j Hj) in He; by apply not_elem_of_nil in He].
    rewrite (at_pred j h Hj) in He. apply list_elem_of_fmap in He as (e0 & -> & He). simpl.
    rewrite (at_rec _ _ (pos_lookup _ (pred_live h e0 He))). apply (bi_sat _ _ (inv_base _ Hi) h e0 He).
  - intros j [h Hj]%new_live. rewrite (at_rec j h Hj). apply (bi_status _ _ (inv_base _ Hi)), (at_live j h Hj).
  - destruct (bi_stats _ _ (inv_base _ Hi)) as [H1 H2 H3]. split; rewrite (rn_stats _ _ _ _ R).
    + by rewrite new_count.
    + intros b. by rewrite new_count.
    + by rewrite (rn_sealed _ _ _ _ R).
  - pose proof (bi_log _ _ (inv_base _ Hi)) as Hl. split.
    + apply (rn_cap _ _ _ _ R).
    + rewrite (rn_log _ _ _ _ R). pose proof (rn_cap _ _ _ _ R). simpl. lia.
    + rewrite (rn_start _ _ _ _ R). by autorewrite with wrap.
    + rewrite (rn_log _ _ _ _ R), (rn_start _ _ _ _ R), (rn_cursor _ _ _ _ R). simpl.
      rewrite Z.add_0_r. replace (u64 (s_cursor s + 1) - 1)%Z with (u64 (s_cursor s + 1) + -1)%Z by lia.
      autorewrite with wrap. replace (s_cursor s + 1 + -1)%Z with (s_cursor s) by lia.
      rewrite (li_cursor s Hl). by autorewrite with wrap.
    + intros i e. rewrite (rn_log _ _ _ _ R), lookup_nil. done.
Qed.

(** The snapshot of one node is the same under either handle. *)
Lemma new_snap j h : L !! j = Some h -> node_snap s' j = node_snap s h.
Proof.
  intros Hj. unfold node_snap.
  rewrite (at_rec j h Hj), (at_succ j h Hj), (at_pred j h Hj), (at_ord j h Hj), (at_deadline j h Hj), (at_readyAt j h Hj), (at_fifo j h Hj).
  rewrite <- !list_fmap_compose. f_equal.
  - apply list_fmap_ext. intros k w Hw%list_elem_of_lookup_2. simpl.
    by rewrite (at_rec _ _ (pos_lookup w (proj2 (gw_live s (gi_wf s Hg) h w Hw)))).
  - apply list_fmap_ext. intros k e He%list_elem_of_lookup_2. simpl. by rewrite (at_rec _ _ (pos_lookup _ (pred_live h e He))).
Qed.

Lemma renamed_resumed : resumed s s'.
Proof.
  assert (Hix : forall i h h', s_index s !! i = Some h -> s_index s' !! i = Some h' -> L !! h' = Some h).
  { intros i h h' [Hl Hid]%(gi_index s Hg) (g & Hg' & Eg)%(rn_index _ _ _ _ R). rewrite Hg'. f_equal.
    assert (s_index s !! i = Some g) as I1 by (apply (gi_index s Hg); split; [by eapply at_live|done]).
    assert (s_index s !! i = Some h) as I2 by (by apply (gi_index s Hg)). congruence. }
  split; [|intros i h h' H1 H2; pose proof (Hix i h h' H1 H2) as Hj..|by destruct R|by destruct R].
  - intros i. split.
    + intros [j (h & Hj & E)%(rn_index _ _ _ _ R)]. exists h. apply (gi_index s Hg). split; [by eapply at_live|done].
    + intros [h [Hl%pos_lookup E]%(gi_index s Hg)]. exists (pos h). apply (rn_index _ _ _ _ R). eauto.
  - by rewrite (at_rec h' h Hj), (at_ord h' h Hj), (at_deadline h' h Hj), (at_readyAt h' h Hj), (at_fifo h' h Hj).
  - rewrite (at_succ h' h Hj), <- list_fmap_compose. apply list_fmap_ext. intros k w Hw%list_elem_of_lookup_2. simpl.
    rewrite (at_rec (pos w) w); [done|]. apply pos_lookup. by apply (gw_live s (gi_wf s Hg) h w).
  - rewrite (at_pred h' h Hj), <- list_fmap_compose. apply list_fmap_ext. intros k e He%list_elem_of_lookup_2. simpl.
    rewrite (at_rec (pos (from e)) (from e)); [done|]. apply pos_lookup. by eapply pred_live.
Qed.

End Renamed.

(** ** The heaps *)

(** [s'] differs from [s] in its heaps only. *)
Definition reheaped (s s' : scope) : Prop :=
  s' = s <| s_ready := s_ready s' |> <| s_leases := s_leases s' |> <| s_scheduled := s_scheduled s' |>.

Lemma restore_heap_reheaped h s : reheaped s (restore_heap s h).
Proof. unfold restore_heap, reheaped. destruct (phase _); by destruct s. Qed.

Lemma reheaped_trans s1 s2 s3 : reheaped s1 s2 -> reheaped s2 s3 -> reheaped s1 s3.
Proof. unfold reheaped. intros H1 H2. rewrite H2, H1. done. Qed.

Lemma restore_all_reheaped hs : forall s, reheaped s (foldl restore_heap s hs).
Proof.
  induction hs as [|h hs IH]; intros s; simpl; [by destruct s|].
  eapply reheaped_trans; [apply (restore_heap_reheaped h)|apply IH].
Qed.

Lemma reheaped_renamed L pos s s2 s' : renamed L pos s s2 -> reheaped s2 s' -> renamed L pos s s'.
Proof.
  intros R E. unfold reheaped in E. rewrite E. generalize (s_ready s') (s_leases s') (s_scheduled s'). clear s' E.
  intros r l sc. destruct s2, R. simpl in *. split; assumption.
Qed.

(** The nodes handled so far, in their heaps. *)
Definition among (P : nat -> Prop) (s : scope) (p : Phase) (x : nat) : Prop := P x /\ phase (rec s x) = p.

Definition heaps_among (P : nat -> Prop) (s : scope) : Prop :=
  heaps (among P s PhaseClaimed) (among P s PhaseScheduled) (fun k x => among P s PhaseReady x /\ kind (rec s x) = k) s.

Lemma heaps_iff L L' S S' R R' s :
  (forall x, L x <-> L' x) -> (forall x, S x <-> S' x) -> (forall k x, R k x <-> R' k x) -> heaps L S R s -> heaps L' S' R' s.
Proof. intros HL HS HR [H1 H2 H3]. split; [by eapply good_iff|by eapply good_iff|]. intros k. exact (good_iff _ _ _ _ (HR k) (H3 k)). Qed.

(** Membership after one more node, by the phase of that node. *)
Ltac by_phase := intros; unfold rec in *; simpl in *; intuition (subst; congruence).

Lemma restore_heap_among P h s :
  ~ P h -> heaps_among P s -> heaps_among (fun x => x = h \/ P x) (restore_heap s h).
Proof.
  intros Hh Hp. unfold heaps_among, among, restore_heap in *.
  destruct (phase (rec s h)) eqn:Ep.
  1,5: (eapply heaps_iff; [..|exact Hp]; by_phase).
  - destruct Hp as [H1 H2 H3]. split; simpl.
    + eapply good_iff; [|exact H1]. by_phase.
    + eapply good_iff; [|apply (good_push _ _ _ _ h (agree_off_refl _ _) H2); tauto]. by_phase.
    + intros k. eapply good_iff; [|exact (H3 k)]. by_phase.
  - destruct Hp as [H1 H2 H3]. split; simpl.
    + eapply good_iff; [|exact H1]. by_phase.
    + eapply good_iff; [|exact H2]. by_phase.
    + intros k. unfold readyHeap, ready_Push, set_readyHeap. simpl. rewrite lookup_insert. case_decide as Ek.
      * subst k. simpl. eapply good_iff; [|apply (good_push _ _ _ _ h (agree_off_refl _ _) (H3 _)); tauto]. by_phase.
      * eapply good_iff; [|exact (H3 k)]. by_phase.
  - destruct Hp as [H1 H2 H3]. split; simpl.
    + eapply good_iff; [|apply (good_push _ _ _ _ h (agree_off_refl _ _) H1); tauto]. by_phase.
    + eapply good_iff; [|exact H2]. by_phase.
    + intros k. eapply good_iff; [|exact (H3 k)]. by_phase.
Qed.

Lemma restore_all_among hs : forall P s,
  NoDup hs -> (forall h, h ∈ hs -> ~ P h) -> heaps_among P s ->
  heaps_among (fun x => x ∈ hs \/ P x) (foldl restore_heap s hs).
Proof.
  induction hs as [|h hs IH]; intros P s Hn Hd Hp; simpl.
  - eapply heaps_iff; [..|exact Hp]; unfold among; intros; rewrite elem_of_nil; tauto.
  - apply NoDup_cons in Hn as [Hh Hn]. eapply heaps_iff; [..|apply (IH (fun x => x = h \/ P x)); [done| |]].
    1,2,3: unfold among; intros; rewrite elem_of_cons; tauto.
    + intros x Hx [->|Hp']; [done|]. by apply (Hd x); [right|].
    + apply restore_heap_among; [apply Hd; left|done].
Qed.

(** ** The round trip *)

Lemma live_handles_spec s : NoDup (live_handles s) /\ forall h, h ∈ live_handles s <-> live s h.
Proof.
  split; [apply NoDup_filter, NoDup_seq|]. intros h. unfold live_handles, live.
  rewrite list_elem_of_filter, elem_of_seq. intuition lia.
Qed.

Lemma mapM_total {A B D : Type} (f : B -> option D) (g : A -> D) (k : A -> B) (l : list A) :
  (forall x, x ∈ l -> f (k x) = Some (g x)) -> mapM f (k <$> l) = Some (g <$> l).
Proof.
  intros H. by apply mapM_Some, Forall2_fmap, Forall_Forall2_diag, Forall_forall.
Qed.

#[export] Instance id_le_total : Total id_le.
Proof. intros a b. apply (total String.le). Qed.

#[export] Instance id_le_trans : Transitive id_le.
Proof. intros a b c. apply (transitivity (R := String.le)). Qed.

Section RoundTrip.
Context (s : scope) (cap : Z) (Hi : inv s) (Hcap : (0 < cap)%Z).

Let Hg := bi_graph _ _ (inv_base _ Hi).
Let N := merge_sort id_le (node_snap s <$> live_handles s).

Lemma nodes_in_order : exists L, N = node_snap s <$> L /\ NoDup L /\ forall h, h ∈ L <-> live s h.
Proof.
  destruct (live_handles_spec s) as [Hn Hl].
  destruct (Permutation_map_inv (node_snap s) (live_handles s) (l1 := N)) as (L & E & P); [apply merge_sort_Permutation|].
  exists L. split; [done|]. split; [by rewrite <- P|]. intros h. by rewrite <- P.
Qed.

Section Ordered.
Context (L : list nat) (EN : N = node_snap s <$> L) (Hn : NoDup L) (HL : forall h, h ∈ L <-> live s h).

Let ids := ns_ID <$> N.
Let index := index_from 0 ids ∅.
Let pos (h : nat) : nat := default 0 (index !! id (rec s h)).

Lemma ids_eq : ids = (fun h => id (rec s h)) <$> L.
Proof. unfold ids. rewrite EN, <- list_fmap_compose. done. Qed.

Lemma ids_nodup : NoDup ids.
Proof.
  rewrite ids_eq. apply NoDup_fmap_on; [|done]. intros a b Ha%HL Hb%HL E.
  assert (s_index s !! id (rec s a) = Some a) as H1 by (by apply (gi_index s Hg)).
  assert (s_index s !! id (rec s a) = Some b) as H2 by (by apply (gi_index s Hg)). congruence.
Qed.

Lemma index_lookup x j : index !! x = Some j <-> exists h, L !! j = Some h /\ id (rec s h) = x.
Proof.
  unfold index. rewrite index_from_spec; [|exact ids_nodup|done]. rewrite lookup_empty. split.
  - intros [?|(k & Hk & ->)]; [done|]. rewrite ids_eq, list_lookup_fmap in Hk.
    destruct (L !! k) as [h|] eqn:E; simplify_eq/=. eauto.
  - intros (h & Hj & <-). right. exists j. by rewrite ids_eq, list_lookup_fmap, Hj.
Qed.

Lemma pos_at j h : L !! j = Some h -> index !! id (rec s h) = Some j /\ pos h = j.
Proof. intros Hj. assert (index !! id (rec s h) = Some j) as E by (apply index_lookup; eauto). unfold pos. by rewrite E. Qed.

Lemma pos_index h : live s h -> index !! id (rec s h) = Some (pos h).
Proof. intros [j Hj]%HL%list_elem_of_lookup. by destruct (pos_at j h Hj) as [-> ->]. Qed.

Lemma restored : exists pos s', (forall j h, L !! j = Some h -> pos h = j) /\
  restoreScope cap (snapshotScope s) = Ok s' /\ renamed L pos s s' /\ heaps_among (fun x => x < length L) s'.
Proof.
  exists pos. unfold restoreScope. change (ss_Nodes (snapshotScope s)) with N. cbv zeta.
  set (s0 := _ <| s_fifo := _ |>). rewrite (restore_nodes_eq N 0 s0); [|exact ids_nodup|done].
  set (s1 := _ <| s_fifo := _ |>).
  assert (Hlen : length N = length L) by (by rewrite EN, length_fmap).
  rewrite (restore_edges_eq N 0 s1 ((fun h : nat => pos <$> (s_succ s !!! h : list nat)) <$> L)
            ((fun h : nat => (fun e => mkPred (pos (from e)) (satisfied e)) <$> (s_pred s !!! h : list predEdge)) <$> L)).
  2:{ rewrite EN. apply Forall2_fmap, Forall_Forall2_diag, Forall_forall. intros h _. simpl.
      apply (mapM_total (fun w => s_index s1 !! w) pos (fun w => id (rec s w))). intros w Hw.
      apply pos_index. by apply (gw_live s (gi_wf s Hg) h w). }
  2:{ rewrite EN. apply Forall2_fmap, Forall_Forall2_diag, Forall_forall. intros h _. simpl.
      apply (mapM_total (resolve_pred s1)). intros e He. unfold resolve_pred. simpl.
      change (s_index s1) with index. rewrite pos_index; [done|]. apply (gw_live s (gi_wf s Hg) (from e) h), (gw_pred s (gi_wf s Hg)).
      by apply list_elem_of_fmap_2. }
  set (s2 := s1 <| s_succ := _ |> <| s_pred := _ |>). eexists. split; [intros j h Hj; apply (pos_at j h Hj)|]. split; [done|].
  assert (R2 : renamed L pos s s2).
  { split; simpl; rewrite ?fill_replicate by (by rewrite length_fmap); try done.
    - rewrite EN, <- list_fmap_compose. apply list_fmap_ext. intros j h Hj%list_elem_of_lookup_2. simpl.
      apply HL, live_alive in Hj. unfold rec_of, node_snap. simpl. destruct (rec s h); simpl in *. by rewrite Hj.
    - apply index_lookup.
    - by rewrite EN, <- list_fmap_compose.
    - by rewrite EN, <- list_fmap_compose.
    - by rewrite EN, <- list_fmap_compose.
    - by rewrite EN, <- list_fmap_compose. }
  split.
  - exact (reheaped_renamed _ _ _ _ _ R2 (restore_all_reheaped (seq 0 (length N)) s2)).
  - eapply heaps_iff; [..|apply (restore_all_among (seq 0 (length N)) (fun _ => False) s2)].
    1,2,3: intros; unfold among; rewrite elem_of_seq, Hlen; intuition lia.
    + apply NoDup_seq.
    + by intros h _ [].
    + split; [| |intros k; unfold readyHeap; simpl; rewrite lookup_empty; simpl]; (eapply good_iff; [|apply New_good]; unfold among; tauto).
Qed.

End Ordered.

(** The restored snapshot is in order, so that sorting it changes nothing. *)
Lemma snapshot_again L pos s' : N = node_snap s <$> L -> NoDup L -> (forall h, h ∈ L <-> live s h) ->
  (forall j h, L !! j = Some h -> pos h = j) -> renamed L pos s s' -> merge_sort id_le (node_snap s' <$> live_handles s') = N.
Proof.
  intros EN Hn HL Hpos R. assert (E : live_handles s' = seq 0 (length L)).
  { unfold live_handles. rewrite (rn_size L pos s s' R). apply filter_all_true. intros j Hj%elem_of_seq.
    apply live_alive, (new_live L pos s s' HL R), lookup_lt_is_Some_2. lia. }
  assert (E2 : node_snap s' <$> live_handles s' = N).
  { rewrite E, EN. apply list_eq. intros j. rewrite !list_lookup_fmap. destruct (L !! j) as [h|] eqn:Hj.
    - rewrite lookup_seq_lt by (by eapply lookup_lt_Some). simpl. by rewrite (new_snap L pos s s' Hi HL Hpos R j h Hj).
    - rewrite lookup_seq_ge by (by apply lookup_ge_None). done. }
  rewrite E2. apply (StronglySorted_unique_strong id_le); [|apply StronglySorted_merge_sort; apply _..|apply merge_sort_Permutation].
  intros a b Ha Hb H1 H2. rewrite merge_sort_Permutation, EN in Ha. rewrite EN in Hb.
  apply list_elem_of_fmap in Ha as (u & -> & Hu%HL). apply list_elem_of_fmap in Hb as (v & -> & Hv%HL).
  assert (Eid : id (rec s u) = id (rec s v)) by (by apply (anti_symm String.le)).
  assert (s_index s !! id (rec s u) = Some u) as I1 by (by apply (gi_index s Hg)).
  assert (s_index s !! id (rec s u) = Some v) as I2 by (by apply (gi_index s Hg)). congruence.
Qed.

Lemma restore_snapshot : exists s', restoreScope cap (snapshotScope s) = Ok s' /\ inv s' /\
  snapshotScope s' = snapshotScope s /\ resumed s s'.
Proof.
  destruct nodes_in_order as (L & EN & Hn & HL). destruct (restored L EN Hn HL) as (pos & s' & Hpos & E & R & Hh).
  exists s'. split; [done|].
  assert (Hlive : forall x, live s' x <-> x < length L).
  { intros x. rewrite (new_live L pos s s' HL R). split; [intros [h Hx]; by eapply lookup_lt_Some|].
    intros Hx. by destruct (lookup_lt_is_Some_2 L x Hx) as [h ?]; eauto. }
  split_and!; [split| |by eapply renamed_resumed].
  - by apply (new_base L pos s s').
  - eapply heaps_iff; [..|exact Hh]; unfold among, in_phase, ready_in; intros; unfold in_phase; rewrite ?Hlive; tauto.
  - unfold snapshotScope. rewrite (snapshot_again L pos s' EN Hn HL Hpos R). destruct R. by f_equal.
Qed.

End RoundTrip.

(** * Properties of snapshots

    A restored store has the state the snapshot was taken of, and only the
    state: the layout of the heaps is new. *)

(** Every scope is well formed and filed under its own, non-empty, name. *)
Definition store_ok {C : Type} (st : Store C) : Prop :=
  forall name s, scopes st !! name = Some s -> inv s /\ s_name s = name /\ name <> ""%string.

Lemma restore_scopes_ok {C : Type} (st : Store C) names : store_ok st -> NoDup names ->
  (forall n, n ∈ names -> is_Some (scopes st !! n)) ->
  forall st0 : Store C, (0 < logCap st0)%Z ->
  exists st', restore_scopes (omap (fun n => snapshotScope <$> scopes st !! n) names) st0 = Ok st' /\
    closed st' = closed st0 /\
    forall n, if decide (n ∈ names)
              then exists s s', scopes st !! n = Some s /\ scopes st' !! n = Some s' /\ inv s' /\
                     snapshotScope s' = snapshotScope s /\ resumed s s'
              else scopes st' !! n = scopes st0 !! n.
Proof.
  intros Hok. induction names as [|n names IH]; intros Hn Hin st0 Hc.
  - exists st0. split_and!; [done..|]. intros n. rewrite decide_False by (by intros ?%not_elem_of_nil). done.
  - apply NoDup_cons in Hn as [Hnn Hn]. destruct (Hin n ltac:(left)) as [s Es]. destruct (Hok n s Es) as (Hi & Hname & Hne).
    assert (Eo : omap (fun n => snapshotScope <$> scopes st !! n) (n :: names) =
                 snapshotScope s :: omap (fun n => snapshotScope <$> scopes st !! n) names) by (csimpl; by rewrite Es).
    rewrite Eo. cbn [restore_scopes]. change (ss_Name (snapshotScope s)) with (s_name s).
    rewrite Hname, bool_decide_eq_false_2 by done.
    destruct (restore_snapshot s (logCap st0) Hi Hc) as (s' & -> & Hi' & Hs' & Hre').
    match goal with |- context [restore_scopes _ ?x] =>
      destruct (IH Hn ltac:(intros; apply Hin; by right) x Hc) as (st' & E & Hcl & H) end.
    exists st'. split_and!; [exact E|exact Hcl|]. intros m. specialize (H m). destruct (decide (m ∈ names)) as [Hm|Hm].
    + rewrite decide_True by (by right). done.
    + simpl in H. destruct (decide (m = n)) as [->|Hmn].
      * rewrite decide_True by left. rewrite lookup_insert_eq in H. eauto 10.
      * rewrite decide_False by (rewrite elem_of_cons; tauto). by rewrite lookup_insert_ne in H.
Qed.

Definition names {C : Type} (st : Store C) : list string := merge_sort String.le (map_to_list (scopes st)).*1.

Lemma names_spec {C : Type} (st : Store C) n : n ∈ names st <-> is_Some (scopes st !! n).
Proof.
  unfold names. rewrite merge_sort_Permutation, list_elem_of_fmap. split.
  - intros ([k s] & -> & H%elem_of_map_to_list). by exists s.
  - intros [s H]. exists (n, s). split; [done|by apply elem_of_map_to_list].
Qed.

Lemma names_nodup {C : Type} (st : Store C) : NoDup (names st).
Proof. unfold names. rewrite merge_sort_Permutation. apply NoDup_fst_map_to_list. Qed.

(** C25: restoring a snapshot gives back the state.  [Restore] accepts the
    snapshot of any well-formed store; the result is well formed and has the
    same scopes, each with the same nodes under the same identifiers: payload,
    result, labels and every other field of the record, lease deadline, retry
    time, queue number, rank, edges with their satisfied flags, and with the
    same counters, configuration, epoch floor and cursor.  The events
    themselves are not kept: the log starts empty after the cursor. *)
Theorem snapshot_roundtrip {C : Type} (st : Store C) (src : C) opts :
  store_ok st ->
  exists st', Restore src opts (Snapshot st) = Ok st' /\ store_ok st' /\ closed st' = false /\
    Snapshot st' = Snapshot st /\
    forall n, match scopes st !! n, scopes st' !! n with
              | Some s, Some s' => resumed s s'
              | None, None => True
              | _, _ => False
              end.
Proof.
  intros Hok. destruct (restore_scopes_ok st (names st) Hok (names_nodup st) (fun n => proj1 (names_spec st n))
    (New src opts) (New_logCap src opts)) as (st' & E & Hcl & H). destruct (New_scopes src opts) as [Hs0 Hc0].
  assert (Hm : forall n, match scopes st !! n, scopes st' !! n with
              | Some s, Some s' => snapshotScope s' = snapshotScope s /\ inv s' /\ resumed s s'
              | None, None => True | _, _ => False end).
  { intros n. specialize (H n). case_decide as Hn.
    - by destruct H as (s & s' & -> & -> & ? & ? & ?).
    - rewrite H, Hs0, lookup_empty. destruct (scopes st !! n) eqn:En; [|done]. destruct Hn. apply names_spec. by rewrite En. }
  exists st'. split_and!; [exact E| |congruence| |].
  - intros n s' En. specialize (Hm n). rewrite En in Hm. destruct (scopes st !! n) as [s|] eqn:Es; [|done].
    destruct Hm as (Hs & Hi & _), (Hok n s Es) as (_ & Hname & Hne). split; [done|]. split; [|done].
    apply (f_equal ss_Name) in Hs. simpl in Hs. congruence.
  - unfold Snapshot. change (merge_sort String.le (map_to_list (scopes st)).*1) with (names st).
    change (merge_sort String.le (map_to_list (scopes st')).*1) with (names st').
    assert (En : names st' = names st).
    { apply (StronglySorted_unique String.le); [apply StronglySorted_merge_sort; apply _..|].
      apply NoDup_Permutation; [apply names_nodup..|]. intros n. rewrite !names_spec. specialize (Hm n).
      destruct (scopes st !! n), (scopes st' !! n); [|done..|]; split; intros [? ?]; eauto. }
    rewrite En. generalize (names st) as l. induction l as [|n l IH]; csimpl; [done|]. specialize (Hm n).
    destruct (scopes st !! n), (scopes st' !! n); csimpl; [|done..|exact IH]. destruct Hm as [-> _]. by f_equal.
  - intros n. specialize (Hm n). by destruct (scopes st !! n), (scopes st' !! n); [destruct Hm as (_ & _ & ?)|..].
Qed.

Definition demo_store : Store ticker := mkStore {["jobs"%string := leased]} clk0 zeroConfig 4 false.

Lemma snapshot_roundtrip_witness :
  exists st' s', Restore clk0 [WithEventLogSize 8] (Snapshot demo_store) = Ok st' /\
    scopes st' !! "jobs"%string = Some s' /\ resumed leased s'.
Proof.
  destruct (snapshot_roundtrip demo_store clk0 [WithEventLogSize 8]) as (st' & E & _ & _ & _ & H).
  - intros n s. unfold demo_store. cbn [scopes]. intros [<- <-]%lookup_singleton_Some.
    split; [exact leased_inv|]. split; [vm_compute; reflexivity|discriminate].
  - specialize (H "jobs"%string). unfold demo_store in H. cbn [scopes] in H. rewrite lookup_singleton_eq in H.
    destruct (scopes st' !! "jobs"%string) as [s'|] eqn:Es; [|destruct H]. exists st', s'.
    split; [exact E|]. split; [exact Es|exact H].
Defined.

(** ** What a snapshot does not keep *)

(** Two leases granted by one call, so with one deadline; [z] was created first. *)
Definition tie_ops : list op :=
  [OpAddNodes [spec "z" "build" 0 []; spec "a" "build" 0 []]; OpClaim (mkClaim "jobs" [] 2 0 "w1")].
Definition tie : scope := state_after tie_ops.

(** The identifiers of the nodes whose leases [Sweep] with limit 1 reclaims
    when the leases have expired. *)
Definition swept (s : scope) : list string :=
  ef_NodeID <$> sw_Effects (snd (scope_Sweep 1 (Ticker (2 ^ 40)) s)).

(** a restored scope need not behave as the original.  The lease heap
    orders leases by deadline only and is rebuilt in identifier order, so that
    of two leases with the same deadline [Sweep] takes back one in the
    original and the other in the restored scope: replaying a command log on
    top of a snapshot can diverge from the run that wrote it. *)
Lemma restore_breaks_ties :
  exists s', restoreScope 4 (snapshotScope tie) = Ok s' /\ snapshotScope s' = snapshotScope tie /\
    swept tie = ["z"%string] /\ swept s' = ["a"%string].
Proof.
  destruct (restore_snapshot tie 4) as (s' & E & _ & H & _); [|done|].
  - apply state_after_inv. by_evaluation.
  - exists s'. split; [exact E|]. split; [exact H|]. split; [vm_compute; reflexivity|].
    assert (Ev : match restoreScope 4 (snapshotScope tie) with Ok x => swept x | Fail _ => [] end = ["a"%string])
      by (vm_compute; reflexivity).
    rewrite E in Ev. exact Ev.
Qed.
