(* ===== verification/Family.v ===== *)
(** * The store as a family of scopes

    After any sequence of calls, each scope is where the run of [Machine] over
    all the calls addressed to it leads, on a clock that supplies the readings
    those calls consumed.  So the theorems about runs of one scope hold of
    every scope of the store, whatever happens to the others. *)
From S2P Require Import Prelude Types Config Heap Scope Topo TopoFacts Graph Lease Memory Watch Snapshot Invariant Removal.
From S2P Require Import Machine Advance Trace Scenario SnapshotProps.

(** A clock that answers from a list of readings. *)
#[export] Instance oracle : ClockSource (list reading) := {|
  clk_Now l := match l with RNow x :: l => (x, l) | _ => (0%Z, l) end;
  clk_Jitter n l := match l with RJitter _ x :: l => (x, l) | _ => (0%Z, l) end
|}.


Section Runs.
Context {C : Type} `{!ClockSource C}.
















End Runs.

