(* ===== verification/MapSum.v ===== *)
(** * Sums over finite maps

    [msum f m] adds [f k v] over the entries of [m].  With an indicator for [f]
    it counts rows of a table; the lemmas say how the count follows an insert,
    an update, a delete and a filter.  At the end: the fields of a tally as a
    function of the class of an edge. *)
From S2P Require Import Prelude Types.

Section MapSum.
Context {K V : Type} `{Countable K}.
Implicit Types (m : gmap K V) (f g : K -> V -> Z).

Definition msum (f : K -> V -> Z) (m : gmap K V) : Z :=
  map_fold (fun k v acc => (f k v + acc)%Z) 0%Z m.

Lemma msum_empty f : msum f ∅ = 0%Z.
Proof. apply map_fold_empty. Qed.

Lemma msum_insert f m k v : m !! k = None -> msum f (<[k := v]> m) = (f k v + msum f m)%Z.
Proof. intros Hk. unfold msum. rewrite map_fold_insert_L; [done| |done]. intros; lia. Qed.

Lemma msum_delete f m k v : m !! k = Some v -> msum f m = (f k v + msum f (delete k m))%Z.
Proof. intros Hk. rewrite <- (insert_delete_id m k v) at 1 by done. apply msum_insert, lookup_delete_eq. Qed.

Lemma msum_update f m k v v' :
  m !! k = Some v -> msum f (<[k := v']> m) = (msum f m - f k v + f k v')%Z.
Proof.
  intros Hk. rewrite <- insert_delete_eq, msum_insert by apply lookup_delete_eq.
  rewrite (msum_delete f m k v Hk). lia.
Qed.

Lemma msum_ext f g m : (forall k v, m !! k = Some v -> f k v = g k v) -> msum f m = msum g m.
Proof.
  induction m as [|k v m Hk IH] using map_ind; intros E; [by rewrite !msum_empty|].
  rewrite !msum_insert by done. rewrite (E k v) by apply lookup_insert_eq. f_equal. apply IH.
  intros k' v' Hk'. apply E. rewrite lookup_insert_ne; [done|]. by intros ->; rewrite Hk in Hk'.
Qed.

Lemma msum_nonneg f m : (forall k v, m !! k = Some v -> (0 <= f k v)%Z) -> (0 <= msum f m)%Z.
Proof.
  induction m as [|k v m Hk IH] using map_ind; intros E; [by rewrite msum_empty|].
  rewrite msum_insert by done. pose proof (E k v (lookup_insert_eq m k v)).
  assert (0 <= msum f m)%Z; [|lia]. apply IH. intros k' v' Hk'. apply E.
  rewrite lookup_insert_ne; [done|]. by intros ->; rewrite Hk in Hk'.
Qed.

Lemma msum_ge f m k v :
  (forall k v, m !! k = Some v -> (0 <= f k v)%Z) -> m !! k = Some v -> (f k v <= msum f m)%Z.
Proof.
  intros E Hk. rewrite (msum_delete f m k v Hk). assert (0 <= msum f (delete k m))%Z; [|lia].
  apply msum_nonneg. intros k' v' [_ Hk']%lookup_delete_Some. by apply E.
Qed.

Lemma msum_zero f m : (forall k v, m !! k = Some v -> f k v = 0%Z) -> msum f m = 0%Z.
Proof.
  intros E. rewrite (msum_ext f (fun _ _ => 0%Z) m) by done. clear E.
  induction m as [|k v m Hk IH] using map_ind; [by rewrite msum_empty|]. by rewrite msum_insert, IH.
Qed.

Lemma msum_filter (P : K * V -> Prop) `{!forall x, Decision (P x)} f m :
  msum f (filter P m) = msum (fun k v => if decide (P (k, v)) then f k v else 0%Z) m.
Proof.
  induction m as [|k v m Hk IH] using map_ind; [by rewrite map_filter_empty, !msum_empty|].
  rewrite msum_insert by done. case_decide as HP.
  - rewrite map_filter_insert_True by done. rewrite msum_insert by (by rewrite map_lookup_filter_None; left).
    by rewrite IH.
  - rewrite map_filter_insert_False by done. by rewrite delete_id by done.
Qed.

End MapSum.

(** ** The class of an edge, and its field of the tally *)

Inductive DepClass := DUnsat | DSucc | DSkip | DFail.

#[export] Instance DepClass_eq_dec : EqDecision DepClass.
Proof. solve_decision. Defined.

Definition dep_field (c : DepClass) (t : DepCounts) : Z :=
  match c with
  | DUnsat => Unsatisfied t
  | DSucc => Succeeded t
  | DSkip => Skipped t
  | DFail => Failed t
  end.

Definition class_of (sat : bool) (st : Status) (rs : Reason) : DepClass :=
  if negb sat then DUnsat
  else if bool_decide (st = StatusSuccess) then DSucc
  else if bool_decide (rs = ReasonSkipped) then DSkip
  else DFail.
