(* ===== verification/PgDb.v ===== *)
(** * The database of the PostgreSQL backend

    The tables of [storage/postgres/migrations/*.sql], the codec of
    [codec.go], and the monad the Go code is translated into.  A SQL statement
    of the source is a function on the tables; every write goes through the
    column types and CHECK constraints of the schema ([row_check]), so a
    statement that PostgreSQL refuses is an error here too.

    What the server decides is an interface, [Server]: its clock, the order of
    the rows of a statement without ORDER BY, and whether a statement or a
    commit fails.  A transaction runs alone: the row locks and SKIP LOCKED
    clauses, which order concurrent transactions, have nothing to do. *)
From S2P Require Import Prelude Types Config Scope.

(** ** [codec.go]: saturating conversions *)

Definition max_i32 : Z := (2 ^ 31 - 1)%Z.
Definition min_i32 : Z := (- 2 ^ 31)%Z.

Definition narrowU32 (v : Z) : Z :=
  if (v <? 0)%Z then 0%Z else if (max_u32 <? v)%Z then max_u32 else v.

Definition narrowU64 (v : Z) : Z := if (v <? 0)%Z then 0%Z else v.

Definition widenI64 (v : Z) : Z := if (max_i64 <? v)%Z then max_i64 else v.

Definition narrowI32 (v : Z) : Z :=
  if (v <? min_i32)%Z then min_i32 else if (max_i32 <? v)%Z then max_i32 else v.

(** ** Rows of [dagw.nodes] *)

Record nodeRow := mkRow {
  n_ID : Z;
  n_Rank : Z;
  n_Scope : string;
  n_NodeID : string;
  n_Kind : string;
  n_Status : Status;
  n_Reason : Reason;
  n_Message : string;
  n_Phase : Phase;
  n_Attempt : Z;
  n_Epoch : Z;
  n_Priority : Z;
  n_Trigger : TriggerRule;
  n_RetryMaxAttempts : Z;
  n_RetryBaseDelay : Z;
  n_RetryMaxDelay : Z;
  n_Payload : bytes;             (* NULL and the empty bytea both read as no bytes *)
  n_Result : bytes;
  n_Labels : gmap string string;
  n_Worker : string;
  n_Seq : Z;
  n_Fifo : Z;
  n_Deps : DepCounts;
  n_Deadline : option Z;         (* None: NULL *)
  n_ReadyAt : option Z;
  n_CreatedAt : Z;
  n_UpdatedAt : Z
}.

#[export] Instance nodeRow_eta : Eta nodeRow := fun r =>
  mkRow (n_ID r) (n_Rank r) (n_Scope r) (n_NodeID r) (n_Kind r) (n_Status r) (n_Reason r)
    (n_Message r) (n_Phase r) (n_Attempt r) (n_Epoch r) (n_Priority r) (n_Trigger r)
    (n_RetryMaxAttempts r) (n_RetryBaseDelay r) (n_RetryMaxDelay r) (n_Payload r) (n_Result r)
    (n_Labels r) (n_Worker r) (n_Seq r) (n_Fifo r) (n_Deps r) (n_Deadline r) (n_ReadyAt r)
    (n_CreatedAt r) (n_UpdatedAt r).

(** [nodeRow{}], what a Go map answers for an absent key. *)
Definition zeroRow : nodeRow :=
  mkRow 0 0 "" "" "" StatusNew ReasonNone "" PhaseBlocked 0 0 0 TriggerAllSuccess 0 0 0 [] [] ∅ "" 0 0
    (mkDeps 0 0 0 0) None None 0 0.

(** [scanNode]: what reading a row narrows.  A row holds the status, reason,
    phase and trigger as the codes the CHECK constraints admit, on which
    [narrowU8] is the identity, and the labels as the map their JSON text decodes
    to: labels that are not valid UTF-8 or hold a NUL, which JSON text replaces
    and [jsonb] refuses, are outside of the model. *)
Definition scanNode (r : nodeRow) : nodeRow :=
  r <| n_Attempt ::= narrowU32 |>
    <| n_Epoch ::= narrowU64 |>
    <| n_RetryMaxAttempts ::= narrowU32 |>
    <| n_Deps ::= fun d => mkDeps (narrowU32 (Unsatisfied d)) (narrowU32 (Succeeded d))
                             (narrowU32 (Skipped d)) (narrowU32 (Failed d)) |>.

Definition derefTime (t : option Z) : Time :=
  match t with None => TimeZero | Some ns => TimeUnix ns end.

Definition snapshot (n : nodeRow) : Node :=
  mkNode (n_Scope n) (n_NodeID n) (n_Kind n) (n_Status n) (n_Reason n) (n_Message n)
    (n_Attempt n) (n_Priority n) (n_Trigger n)
    (mkRetry (n_RetryMaxAttempts n) (n_RetryBaseDelay n) (n_RetryMaxDelay n))
    (n_Payload n) (n_Labels n) (n_Seq n) (TimeUnix (n_CreatedAt n)) (TimeUnix (n_UpdatedAt n)).

Definition retryEffective (n : nodeRow) (cfg : ScopeConfig) : Z * Z * Z :=
  (if (0 <? n_RetryMaxAttempts n)%Z then n_RetryMaxAttempts n else c_MaxAttempts cfg,
   if (0 <? n_RetryBaseDelay n)%Z then n_RetryBaseDelay n else c_RetryBaseDelay cfg,
   if (0 <? n_RetryMaxDelay n)%Z then n_RetryMaxDelay n else c_RetryMaxDelay cfg).

(** ** Rows of [dagw.scopes] *)

(** The configuration columns.  There is none for [MaxClaimBatch]. *)
Record configCols := mkCols {
  default_lease_timeout_ns : Z;
  min_lease_timeout_ns : Z;
  max_lease_timeout_ns : Z;
  max_attempts : Z;
  retry_base_delay_ns : Z;
  retry_max_delay_ns : Z;
  terminal_retention_ns : Z;
  max_subscriber_lag_ns : Z;
  max_in_flight : Z;
  payload_cap : Z;
  max_batch_size : Z;
  sweep_batch_size : Z;
  sweep_interval_ns : Z;
  partition_count : Z
}.

(** The arguments [ensureScope] and [SetScopeConfig] bind. *)
Definition configArgs (c : ScopeConfig) : configCols :=
  mkCols (c_DefaultLeaseTimeout c) (c_MinLeaseTimeout c) (c_MaxLeaseTimeout c)
    (narrowI32 (c_MaxAttempts c)) (c_RetryBaseDelay c) (c_RetryMaxDelay c)
    (c_TerminalRetention c) (c_MaxSubscriberLag c) (narrowI32 (c_MaxInFlight c))
    (narrowI32 (c_PayloadCap c)) (narrowI32 (c_MaxBatchSize c)) (narrowI32 (c_SweepBatchSize c))
    (c_SweepInterval c) (narrowI32 (c_PartitionCount c)).

(** The configuration [scanScope] decodes. *)
Definition scanConfig (r : configCols) : ScopeConfig :=
  mkConfig (default_lease_timeout_ns r) (min_lease_timeout_ns r) (max_lease_timeout_ns r)
    (narrowU32 (max_attempts r)) (retry_base_delay_ns r) (retry_max_delay_ns r)
    (terminal_retention_ns r) (max_subscriber_lag_ns r) (narrowU32 (max_in_flight r))
    (payload_cap r) (max_batch_size r) 0 (sweep_batch_size r) (sweep_interval_ns r)
    (narrowU32 (partition_count r)).

(** A row of [dagw.scopes]; the [stat_*] columns by name, absent meaning the
    DEFAULT 0. *)
Record scopeTuple := mkTuple {
  sr_sealed : bool;
  sr_cfg : configCols;
  sr_stats : gmap string Z;
  sr_epoch_floor : Z
}.

#[export] Instance scopeTuple_eta : Eta scopeTuple := fun r =>
  mkTuple (sr_sealed r) (sr_cfg r) (sr_stats r) (sr_epoch_floor r).

(** The value of a counter in a table of counters. *)
Definition stat_of (m : gmap string Z) (col : string) : Z := default 0%Z (m !! col).

(** [scopeRow], and [scanScope] that makes it. *)
Record scopeRow := mkScopeRow {
  Sealed : bool;
  Cfg : ScopeConfig;
  Stats : ScopeStats
}.

Definition zeroScopeRow : scopeRow := mkScopeRow false zeroConfig zeroStats.

Definition scanScope (r : scopeTuple) : scopeRow :=
  let st := stat_of (sr_stats r) in
  mkScopeRow (sr_sealed r) (scanConfig (sr_cfg r))
    (mkStats (st "stat_total") (st "stat_blocked") (st "stat_scheduled") (st "stat_ready")
       (st "stat_in_progress") (st "stat_succeeded") (st "stat_failed") (sr_sealed r) false 0).

(** ** The database *)

Notation edgeKey := (string * Z * Z)%type (only parsing).

Record db := mkDb {
  d_nodes : gmap Z nodeRow;
  d_edges : gmap edgeKey bool;           (* (scope, from_id, to_id) to satisfied *)
  d_scopes : gmap string scopeTuple;
  d_events : list Event;
  d_migrations : list string;
  q_id : Z;                              (* the next value of each sequence *)
  q_rank : Z;
  q_fifo : Z;
  q_cursor : Z
}.

#[export] Instance db_eta : Eta db := fun d =>
  mkDb (d_nodes d) (d_edges d) (d_scopes d) (d_events d) (d_migrations d) (q_id d) (q_rank d)
    (q_fifo d) (q_cursor d).

Definition emptyDb : db := mkDb ∅ ∅ ∅ [] [] 1 1 1 1.

(** What a rolled-back transaction leaves: the tables as they were.  Values
    drawn from a sequence are not given back. *)
Definition rolled_back (old new : db) : db :=
  old <| q_id := q_id new |> <| q_rank := q_rank new |> <| q_fifo := q_fifo new |>
      <| q_cursor := q_cursor new |>.

(** ** The column types and CHECK constraints of [dagw.nodes] *)

Definition int2 (v : Z) : bool := (- 2 ^ 15 <=? v)%Z && (v <? 2 ^ 15)%Z.
Definition int4 (v : Z) : bool := (min_i32 <=? v)%Z && (v <=? max_i32)%Z.
Definition int8 (v : Z) : bool := (- 2 ^ 63 <=? v)%Z && (v <=? max_i64)%Z.

Definition status_check (s : Status) : bool := match s with StatusOther _ => false | _ => true end.
Definition reason_check (r : Reason) : bool := match r with ReasonOther _ => false | _ => true end.
Definition trigger_check (t : TriggerRule) : bool :=
  match t with TriggerOther _ => false | _ => true end.
Definition kind_check (k : EventKind) : bool := match k with EventOther _ => false | _ => true end.

Definition in_range (r : nodeRow) : bool :=
  int8 (n_ID r) && int8 (n_Rank r) && int4 (n_Attempt r) && int8 (n_Epoch r) && int2 (n_Priority r)
  && int4 (n_RetryMaxAttempts r) && int8 (n_RetryBaseDelay r) && int8 (n_RetryMaxDelay r)
  && int8 (n_Seq r) && int8 (n_Fifo r)
  && int4 (Unsatisfied (n_Deps r)) && int4 (Succeeded (n_Deps r)) && int4 (Skipped (n_Deps r))
  && int4 (Failed (n_Deps r)).

Definition checks (r : nodeRow) : bool :=
  status_check (n_Status r) && reason_check (n_Reason r) && trigger_check (n_Trigger r).

(** The SQLSTATE a row is refused with, if it is. *)
Definition row_check (r : nodeRow) : option string :=
  if negb (in_range r) then Some "22003"%string
  else if negb (checks r) then Some "23514"%string
  else None.

(** ** The server *)

Inductive commitOutcome :=
| Committed
| Aborted (code : string)          (* the server answered with an error: nothing was written *)
| Unacknowledged.                  (* it was written, and the answer was lost *)

Class Server (C : Type) := {
  srv_clock :: ClockSource C;                  (* clock_timestamp(), and the store's jitter *)
  srv_fault : C -> option string * C;          (* the error of the next statement, if it fails *)
  srv_commit : C -> commitOutcome * C;
  srv_interval : Z -> Z;                       (* make_interval(secs => d.Seconds()) *)
  srv_order : list Z -> C -> list Z * C;       (* the order of rows no ORDER BY fixes *)
  srv_order_perm l c : fst (srv_order l c) ≡ₚ l
}.

(** ** Errors and the monad

    [ConnectionLost] is an error without a SQLSTATE, of a connection that broke
    while the answer to a COMMIT was awaited.  [Diverged] is no error of the Go code: it marks a loop of the model that
    ran out of fuel. *)

Inductive pgerror :=
| Domain (e : error)
| SqlError (code : string)
| NoRows
| ContextDone
| ConnectionLost
| Diverged.

(** One call's view: the database as its transaction sees it, the fields
    [notify] and [stats] of its engine, and the [Store]'s [closed] and cached
    [migrateErr]. *)
Record pgst (C : Type) := mkPg {
  g_c : C;
  g_db : db;
  g_notify : bool;
  g_stats : gmap string Z;
  g_migrated : option (option pgerror);
  g_closed : bool
}.
Arguments mkPg {C}.
Arguments g_c {C}.
Arguments g_db {C}.
Arguments g_notify {C}.
Arguments g_stats {C}.
Arguments g_migrated {C}.
Arguments g_closed {C}.

#[export] Instance pgst_eta {C} : Eta (pgst C) := fun t =>
  mkPg (g_c t) (g_db t) (g_notify t) (g_stats t) (g_migrated t) (g_closed t).

Definition M (C A : Type) : Type := pgst C -> pgst C * (A + pgerror).

#[export] Instance M_ret {C} : MRet (M C) := fun A a t => (t, inl a).
#[export] Instance M_bind {C} : MBind (M C) := fun A B k m t =>
  match m t with
  | (t, inl a) => k a t
  | (t, inr e) => (t, inr e)
  end.

Section Monad.
Context {C : Type}.

Definition throw {A : Type} (e : pgerror) : M C A := fun t => (t, inr e).
Definition get : M C (pgst C) := fun t => (t, inl t).
Definition modify (f : pgst C -> pgst C) : M C unit := fun t => (f t, inl tt).
Definition gets {A : Type} (f : db -> A) : M C A := fun t => (t, inl (f (g_db t))).
Definition modify_db (f : db -> db) : M C unit := modify (fun t => t <| g_db ::= f |>).

(** A value a [Scan] needs: no row is an error of the caller's. *)
Definition must {A : Type} (o : option A) : M C A :=
  match o with Some a => mret a | None => throw NoRows end.

(** [for _, x := range l { acc, err = f(acc, x); if err != nil { return err } }]. *)
Fixpoint foldM {A B : Type} (f : B -> A -> M C B) (acc : B) (l : list A) : M C B :=
  match l with
  | [] => mret acc
  | x :: l => acc ← f acc x; foldM f acc l
  end.

End Monad.

(** ** Statements *)

Definition rows (d : db) : list nodeRow := (map_to_list (d_nodes d)).*2.

Definition rows_where (p : nodeRow -> bool) (d : db) : list nodeRow :=
  filter (fun r => p r = true) (rows d).

(** [WHERE scope = $1 AND node_id = $2]. *)
Definition ext_is (sc nid : string) (r : nodeRow) : bool :=
  bool_decide (n_Scope r = sc) && bool_decide (n_NodeID r = nid).

Definition find_ext (sc nid : string) (d : db) : option nodeRow := head (rows_where (ext_is sc nid) d).

Section Statements.
Context {C : Type} `{!Server C}.

(** Sending a statement: it fails, or it is executed. *)
Definition stmt : M C unit := fun t =>
  let '(f, c) := srv_fault (g_c t) in
  let t := t <| g_c := c |> in
  match f with
  | Some code => (t, inr (SqlError code))
  | None => (t, inl tt)
  end.

Definition query {A : Type} (f : db -> A) : M C A := stmt ;; gets f.

Definition exec (f : db -> db) : M C unit := stmt ;; modify_db f.

(** A statement sent by the pool, outside of a transaction: the server commits
    it, and the answer may be lost. *)
Definition autocommit (f : db -> db) : M C unit := fun t =>
  match stmt t with
  | (t, inr e) => (t, inr e)
  | (t, inl _) =>
    let '(o, c) := srv_commit (g_c t) in
    let t := t <| g_c := c |> in
    match o with
    | Committed => (t <| g_db ::= f |>, inl tt)
    | Aborted code => (t, inr (SqlError code))
    | Unacknowledged => (t <| g_db ::= f |>, inr ConnectionLost)
    end
  end.

(** [clock_timestamp()] within a statement. *)
Definition clock_timestamp : M C Z := fun t =>
  let '(now, c) := clk_Now (g_c t) in (t <| g_c := c |>, inl now).

Definition jitter (n : Z) : M C Z := fun t =>
  let '(v, c) := clk_Jitter n (g_c t) in (t <| g_c := c |>, inl v).

(** The rows selected by ids, in an order the server chooses. *)
Definition any_order (l : list Z) : M C (list Z) := fun t =>
  let '(l, c) := srv_order l (g_c t) in (t <| g_c := c |>, inl l).

(** Store a row, if the schema accepts it. *)
Definition put_row (r : nodeRow) : M C unit :=
  match row_check r with
  | Some code => throw (SqlError code)
  | None => modify_db (fun d => d <| d_nodes ::= <[n_ID r := r]> |>)
  end.

(** The write of [UPDATE dagw.nodes SET .. WHERE id = $1]; no row, no write. *)
Definition write_row (i : Z) (f : nodeRow -> nodeRow) : M C (option nodeRow) :=
  r ← gets (fun d => d_nodes d !! i);
  match r with
  | None => mret None
  | Some r => put_row (f r) ;; mret (Some (f r))
  end.

Definition update_row (i : Z) (f : nodeRow -> nodeRow) : M C (option nodeRow) :=
  stmt ;; write_row i f.

(** [UPDATE .. RETURNING ..] read with [Scan]. *)
Definition update_returning (i : Z) (f : nodeRow -> nodeRow) : M C nodeRow :=
  r ← update_row i f; must r.

Definition update_exec (i : Z) (f : nodeRow -> nodeRow) : M C unit :=
  _ ← update_row i f; mret tt.

(** ** Transactions *)

(** [beginTx], the body, [Commit]; the deferred [Rollback] after an error, and
    after a body whose answer does not commit. *)
Definition transact_if {A : Type} (commits : A -> bool) (body : M C A) : M C A := fun t0 =>
  match stmt (t0 <| g_notify := false |> <| g_stats := ∅ |>) with
  | (t1, inr e) => (t1, inr e)
  | (t1, inl _) =>
    match body t1 with
    | (t, inr e) => (t <| g_db := rolled_back (g_db t1) (g_db t) |>, inr e)
    | (t, inl a) =>
      if negb (commits a) then (t <| g_db := rolled_back (g_db t1) (g_db t) |>, inl a)
      else
        let '(o, c) := srv_commit (g_c t) in
        let t := t <| g_c := c |> in
        match o with
        | Committed => (t, inl a)
        | Aborted code => (t <| g_db := rolled_back (g_db t1) (g_db t) |>, inr (SqlError code))
        | Unacknowledged => (t, inr ConnectionLost)
        end
    end
  end.

Definition transact {A : Type} (body : M C A) : M C A := transact_if (fun _ => true) body.

End Statements.
