(* ===== verification/PgTopo.v ===== *)
(** * The topological order on SQL: [storage/postgres/topo.go]

    The searches keep an explicit stack, one query per node they take off it.
    A node is pushed once, so the number of nodes bounds the iterations; a
    loop that were to use up its fuel would answer [Diverged]. *)
From S2P Require Import Prelude Types Config Scope PgDb.

Record idRank := mkIdRank { ir_id : Z; ir_rank : Z }.

Record topoResult := mkTopo {
  fastPath : bool;
  cyclePath : option (list Z)      (* None: nil *)
}.

(** The rows of the successors and of the predecessors of a node, as the joins
    of [dagw.edges] with [dagw.nodes] give them. *)
Definition edge_in (d : db) (k : string * Z * Z) : bool :=
  match d_edges d !! k with Some _ => true | None => false end.

Definition succ_rows (sc : string) (i : Z) (d : db) : list nodeRow :=
  rows_where (fun c => bool_decide (n_Scope c = sc) && edge_in d (sc, i, n_ID c)) d.

Definition pred_rows (sc : string) (i : Z) (d : db) : list nodeRow :=
  rows_where (fun p => bool_decide (n_Scope p = sc) && edge_in d (sc, n_ID p, i)) d.

Definition rank_of (d : db) (i : Z) : Z :=
  match d_nodes d !! i with Some r => n_Rank r | None => 0%Z end.

(** Reading a Go map of ranks. *)
Definition rank_in (ranks : gmap Z Z) (i : Z) : Z := default 0%Z (ranks !! i).

(** ** [tracePath] *)

Fixpoint trace_back (fuel : nat) (parent : gmap Z Z) (start n : Z) : list Z :=
  n :: match fuel with
       | O => []
       | S fuel =>
         if bool_decide (n = start) then []
         else match parent !! n with
              | None => []
              | Some p => trace_back fuel parent start p
              end
       end.

Definition tracePath (parent : gmap Z Z) (start stop : Z) : list Z :=
  reverse (trace_back (size parent) parent start stop).

(** ** The state of a search *)

Record search := mkSearch {
  h_visited : gset Z;
  h_delta : list Z;
  h_parent : gmap Z Z;
  h_stack : list Z                 (* the top first *)
}.

#[export] Instance search_eta : Eta search := fun h =>
  mkSearch (h_visited h) (h_delta h) (h_parent h) (h_stack h).

(** [visited[s.id] = true; parent[s.id] = n; delta = append(..); stack = append(..)]. *)
Definition visit (n i : Z) (h : search) : search :=
  h <| h_visited ::= union {[i]} |> <| h_parent ::= <[i := n]> |>
    <| h_delta ::= fun l => l ++ [i] |> <| h_stack ::= cons i |>.

(** The loop over the successors of [n] in [forwardSearch]: the state, or the
    path of the cycle it found. *)
Fixpoint fwd_scan (x y ub n : Z) (ss : list idRank) (h : search) : search + list Z :=
  match ss with
  | [] => inl h
  | s :: ss =>
    if bool_decide (ir_id s = x) then inr (tracePath (<[ir_id s := n]> (h_parent h)) y x)
    else if negb (bool_decide (ir_id s ∈ h_visited h)) && (ir_rank s <? ub)%Z
    then fwd_scan x y ub n ss (visit n (ir_id s) h)
    else fwd_scan x y ub n ss h
  end.

(** The loop over the predecessors of [n] in [backwardSearch], which keeps no
    parents. *)
Fixpoint bwd_scan (lb n : Z) (ps : list idRank) (h : search) : search :=
  match ps with
  | [] => h
  | p :: ps =>
    if negb (bool_decide (ir_id p ∈ h_visited h)) && (lb <? ir_rank p)%Z
    then bwd_scan lb n ps (visit n (ir_id p) h)
    else bwd_scan lb n ps h
  end.

Definition rank_before (ranks : gmap Z Z) (a b : Z) : Prop := (rank_in ranks a <= rank_in ranks b)%Z.

#[export] Instance rank_before_dec ranks : RelDecision (rank_before ranks).
Proof. unfold rank_before. solve_decision. Defined.

Section Topo.
Context {C : Type} `{!Server C} (scope : string).

Definition ranksOf (ids : list Z) : M C (gmap Z Z) :=
  query (fun d => list_to_map (omap (fun i => (fun r => (i, n_Rank r)) <$> d_nodes d !! i) ids)).

(** The ids and ranks of some rows, in the order the server returns them. *)
Definition scanIDRanks (sel : db -> list nodeRow) : M C (list idRank) :=
  ids ← query (fun d => n_ID <$> sel d);
  ids ← any_order ids;
  gets (fun d => (fun i => mkIdRank i (rank_of d i)) <$> ids).

Definition successorRanks (i : Z) : M C (list idRank) := scanIDRanks (succ_rows scope i).

Definition predecessorRanks (i : Z) : M C (list idRank) := scanIDRanks (pred_rows scope i).

Fixpoint forward_loop (fuel : nat) (x y ub : Z) (h : search) : M C (option (list Z) * list Z) :=
  match fuel with
  | O => throw Diverged
  | S fuel =>
    match h_stack h with
    | [] => mret (None, h_delta h)
    | n :: stack =>
      succs ← successorRanks n;
      match fwd_scan x y ub n succs (h <| h_stack := stack |>) with
      | inr path => mret (Some path, h_delta h)
      | inl h => forward_loop fuel x y ub h
      end
    end
  end.

Definition search_fuel (d : db) : nat := S (S (size (d_nodes d))).

Definition forwardSearch (x y ub : Z) : M C (option (list Z) * list Z) :=
  fuel ← gets search_fuel;
  forward_loop fuel x y ub (mkSearch {[y]} [y] ∅ [y]).

Fixpoint backward_loop (fuel : nat) (lb : Z) (h : search) : M C (list Z) :=
  match fuel with
  | O => throw Diverged
  | S fuel =>
    match h_stack h with
    | [] => mret (h_delta h)
    | n :: stack =>
      preds ← predecessorRanks n;
      backward_loop fuel lb (bwd_scan lb n preds (h <| h_stack := stack |>))
    end
  end.

Definition backwardSearch (x lb : Z) : M C (list Z) :=
  fuel ← gets search_fuel;
  backward_loop fuel lb (mkSearch {[x]} [x] ∅ [x]).

(** [assign]: one UPDATE per node, in order. *)
Definition assign (ids pool : list Z) : M C unit :=
  foldM (fun _ iv => update_exec iv.1 (fun r => r <| n_Rank := iv.2 |>)) tt (zip ids pool).

Definition reorder (deltaB deltaF : list Z) : M C unit :=
  ranks ← ranksOf (deltaB ++ deltaF);
  let deltaB := merge_sort (rank_before ranks) deltaB in
  let deltaF := merge_sort (rank_before ranks) deltaF in
  let pool := merge_sort Z.le ((rank_in ranks <$> deltaB) ++ (rank_in ranks <$> deltaF)) in
  assign (deltaB ++ deltaF) pool.

Definition addEdgeOrder (x y : Z) : M C topoResult :=
  ranks ← ranksOf [x; y];
  let rx := rank_in ranks x in
  let ry := rank_in ranks y in
  if (rx <? ry)%Z then mret (mkTopo true None)
  else
    found ← forwardSearch x y rx;
    match found with
    | (Some path, _) => mret (mkTopo false (Some path))
    | (None, deltaF) =>
      deltaB ← backwardSearch x ry;
      reorder deltaB deltaF ;;
      mret (mkTopo false None)
    end.

End Topo.
