(* ===== verification/PgEngine.v ===== *)
(** * The engine: [storage/postgres/engine.go] and [pipeline.go]

    The fields [scope] and [cfg] of the engine are the variables of the
    section; its [notify] and [stats], and the transaction, are the state of
    the monad.  The pipelined operations of [pipeline.go] send the statements
    of a batch one after another. *)
From S2P Require Import Prelude Types Config Scope PgDb PgTopo.

Definition terminalMessage (r : Reason) : string :=
  match r with
  | ReasonUpstreamFailed => "a predecessor failed and the trigger rule can no longer be satisfied"
  | ReasonSkipped => "the trigger rule can no longer be satisfied"
  | ReasonRemoved => "a predecessor was removed"
  | ReasonCancelled => "cancelled"
  | ReasonNone | ReasonWorkerError | ReasonTimeout => ""
  | ReasonOther _ => ""
  end.

Definition bucketColumn (p : Phase) (s : Status) : string :=
  match p with
  | PhaseBlocked => "stat_blocked"
  | PhaseScheduled => "stat_scheduled"
  | PhaseReady => "stat_ready"
  | PhaseClaimed => "stat_in_progress"
  | PhaseDone => if bool_decide (s = StatusSuccess) then "stat_succeeded" else "stat_failed"
  end.

(** [e.stats[col] += d]. *)
Definition bump_stat (col : string) (d : Z) (m : gmap string Z) : gmap string Z :=
  <[col := (stat_of m col + d)%Z]> m.

(** What [flushCounters] adds to the scope's row: a column whose delta is 0 is
    left out of the statement. *)
Definition add_stats (deltas m : gmap string Z) : gmap string Z :=
  map_fold (fun col d m => if (d =? 0)%Z then m else bump_stat col d m) m deltas.

(** The column of the tally that a resolved predecessor belongs to. *)
Definition dep_col (st : Status) (rs : Reason) (d : Z) (t : DepCounts) : DepCounts :=
  if bool_decide (st = StatusSuccess) then t <| Succeeded ::= fun n => (n + d)%Z |>
  else if bool_decide (rs = ReasonSkipped) then t <| Skipped ::= fun n => (n + d)%Z |>
  else t <| Failed ::= fun n => (n + d)%Z |>.

(** The SET list of [applyDepDelta]. *)
Definition dep_delta (st : Status) (rs : Reason) (t : DepCounts) : DepCounts :=
  dep_col st rs 1 (t <| Unsatisfied ::= fun n => Z.max (n - 1) 0 |>).

(** [GREATEST(col - 1, 0)] on the column [unlinkDependency] picks. *)
Definition dep_undo (satisfied : bool) (st : Status) (rs : Reason) (t : DepCounts) : DepCounts :=
  if negb satisfied then t <| Unsatisfied ::= fun n => Z.max (n - 1) 0 |>
  else if bool_decide (st = StatusSuccess) then t <| Succeeded ::= fun n => Z.max (n - 1) 0 |>
  else if bool_decide (rs = ReasonSkipped) then t <| Skipped ::= fun n => Z.max (n - 1) 0 |>
  else t <| Failed ::= fun n => Z.max (n - 1) 0 |>.

(** The tally [linkDependency] gives the new dependent: uint32 increments. *)
Definition dep_link (satisfied : bool) (st : Status) (rs : Reason) (t : DepCounts) : DepCounts :=
  if negb satisfied then t <| Unsatisfied ::= fun n => u32 (n + 1) |>
  else if bool_decide (st = StatusSuccess) then t <| Succeeded ::= fun n => u32 (n + 1) |>
  else if bool_decide (rs = ReasonSkipped) then t <| Skipped ::= fun n => u32 (n + 1) |>
  else t <| Failed ::= fun n => u32 (n + 1) |>.

Record terminateItem := mkItem {
  i_id : Z; i_status : Status; i_reason : Reason; i_message : string
}.

(** The SET list of the UPDATE in [terminate]. *)
Definition ended (it : terminateItem) (r : nodeRow) : nodeRow :=
  r <| n_Phase := PhaseDone |> <| n_Status := i_status it |> <| n_Reason := i_reason it |>
    <| n_Message := i_message it |> <| n_Deadline := None |> <| n_ReadyAt := None |>
    <| n_Worker := ""%string |> <| n_Seq ::= Z.succ |>.

Record pendingEvent := mkPending {
  pe_nodeID : string;
  pe_nodeKind : string;
  pe_kind : EventKind;
  pe_from : Status;
  pe_to : Status;
  pe_reason : Reason;
  pe_message : string;
  pe_attempt : Z;
  pe_seq : Z
}.

Definition specMatches (n : nodeRow) (spec : NodeSpec) : bool :=
  bool_decide (n_Kind n = sp_Kind spec)
  && (n_Priority n =? sp_Priority spec)%Z
  && bool_decide (n_Trigger n = sp_Trigger spec)
  && (n_RetryMaxAttempts n =? rp_MaxAttempts (sp_Retry spec))%Z
  && (n_RetryBaseDelay n =? rp_BaseDelay (sp_Retry spec))%Z
  && (n_RetryMaxDelay n =? rp_MaxDelay (sp_Retry spec))%Z
  && bool_decide (n_Payload n = sp_Payload spec)
  && bool_decide (n_Labels n = sp_Labels spec).

Definition id_le (a b : nodeRow) : Prop := (n_ID a <= n_ID b)%Z.

#[export] Instance id_le_dec : RelDecision id_le.
Proof. unfold id_le. solve_decision. Defined.

Section Engine.
Context {C : Type} `{!Server C} (scope : string).

(** ** Counters *)

Definition bump_pending (col : string) (d : Z) : M C unit :=
  modify (fun t => t <| g_stats ::= bump_stat col d |>).

Definition moveBucket (oldPhase : Phase) (oldStatus : Status) (newPhase : Phase) (newStatus : Status)
  : M C unit :=
  let oldCol := bucketColumn oldPhase oldStatus in
  let newCol := bucketColumn newPhase newStatus in
  if bool_decide (oldCol = newCol) then mret tt
  else bump_pending oldCol (-1) ;; bump_pending newCol 1.

Definition enterBucket (p : Phase) (s : Status) : M C unit := bump_pending (bucketColumn p s) 1.

Definition leaveBucket (p : Phase) (s : Status) : M C unit := bump_pending (bucketColumn p s) (-1).

Definition addTotal (delta : Z) : M C unit := bump_pending "stat_total" delta.

Definition pendingStat (col : string) : M C Z := fun t => (t, inl (stat_of (g_stats t) col)).

(** Write the deltas in one UPDATE of the scope's row; a counter outside
    [bigint] is refused. *)
Definition flushCounters : M C unit :=
  t ← get;
  let deltas := g_stats t in
  if bool_decide (deltas = ∅) then mret tt
  else
    modify (fun t => t <| g_stats := ∅ |>) ;;
    if bool_decide (map_Forall (fun _ d => d = 0%Z) deltas) then mret tt
    else
      stmt ;;
      row ← gets (fun d => d_scopes d !! scope);
      match row with
      | None => mret tt
      | Some row =>
        let stats := add_stats deltas (sr_stats row) in
        if bool_decide (map_Forall (fun _ n => int8 n = true) stats)
        then modify_db (fun d => d <| d_scopes ::= <[scope := row <| sr_stats := stats |>]> |>)
        else throw (SqlError "22003")
      end.

(** ** The event log *)

(** [insertEventSQL]: the cursor is an identity column. *)
Definition insert_event (ev : pendingEvent) : M C Effect :=
  stmt ;;
  at_ ← clock_timestamp;
  cursor ← gets q_cursor;
  modify_db (fun d => d <| q_cursor ::= Z.succ |>) ;;
  let row := mkEvent (pe_kind ev) scope (pe_nodeID ev) (widenI64 (pe_seq ev)) cursor (pe_from ev)
               (pe_to ev) (pe_reason ev) (pe_message ev) (narrowI32 (pe_attempt ev)) (pe_nodeKind ev)
               (TimeUnix at_) false in
  if kind_check (pe_kind ev) && status_check (pe_from ev) && status_check (pe_to ev) && int8 cursor then
    modify_db (fun d => d <| d_events ::= fun l => l ++ [row] |>) ;;
    mret (mkEffect (pe_nodeID ev) (pe_kind ev) (pe_from ev) (pe_to ev) (pe_reason ev)
            (pe_message ev) (pe_attempt ev) (pe_nodeKind ev) (pe_seq ev) (narrowU64 cursor)
            (TimeUnix at_))
  else throw (SqlError "23514").

Definition set_notify : M C unit := modify (fun t => t <| g_notify := true |>).

Definition insertEvent (nodeID nodeKind : string) (k : EventKind) (from to : Status) (rs : Reason)
    (msg : string) (att sq : Z) : M C Effect :=
  ef ← insert_event (mkPending nodeID nodeKind k from to rs msg att sq);
  set_notify ;;
  mret ef.

Definition insertEvents (evs : list pendingEvent) : M C (list Effect) :=
  match evs with
  | [] => mret []
  | _ => out ← mapM insert_event evs; set_notify ;; mret out
  end.

(** ** Loading rows *)

Definition loadForUpdate (i : Z) : M C (option nodeRow) :=
  query (fun d => scanNode <$> d_nodes d !! i).

Definition loadForUpdateByExternal (nid : string) : M C (option nodeRow) :=
  query (fun d => scanNode <$> find_ext scope nid d).

(** [WHERE scope = $1 AND node_id = ANY($2)], keyed by external id. *)
Definition loadManyForUpdateByExternal (ids : list string) : M C (gmap string nodeRow) :=
  match ids with
  | [] => mret ∅
  | _ =>
    query (fun d =>
      list_to_map ((fun r => (n_NodeID r, scanNode r)) <$>
        rows_where (fun r => bool_decide (n_Scope r = scope) && bool_decide (n_NodeID r ∈ ids)) d))
  end.

Definition loadManyForUpdate (ids : list Z) : M C (list nodeRow) :=
  found ← mapM loadForUpdate ids;
  mret (omap (fun o => o) found).

(** [ORDER BY c.id]. *)
Definition successorsForUpdate (fromID : Z) : M C (list nodeRow) :=
  query (fun d => scanNode <$> merge_sort id_le (succ_rows scope fromID d)).

(** ** Edges and tallies *)

Definition markEdgeSatisfied (fromID toID : Z) : M C bool :=
  stmt ;;
  e ← gets (fun d => d_edges d !! (scope, fromID, toID));
  match e with
  | Some false =>
    modify_db (fun d => d <| d_edges ::= <[(scope, fromID, toID) := true]> |>) ;; mret true
  | _ => mret false
  end.

Definition applyDepDelta (succID : Z) (predStatus : Status) (predReason : Reason) : M C DepCounts :=
  r ← update_returning succID (fun r => r <| n_Deps ::= dep_delta predStatus predReason |>);
  mret (n_Deps (scanNode r)).

(** ** Moving one node *)

(** [nextval('dagw.fifo_seq')]. *)
Definition next_fifo : M C Z :=
  v ← gets q_fifo; modify_db (fun d => d <| q_fifo ::= Z.succ |>) ;; mret v.

Definition makeReady (n : nodeRow) : M C (nodeRow * Effect) :=
  stmt ;;
  fifo ← next_fifo;
  o ← write_row (n_ID n) (fun r => r <| n_Phase := PhaseReady |> <| n_Status := StatusNew |>
        <| n_ReadyAt := None |> <| n_Fifo := fifo |> <| n_Seq ::= Z.succ |>);
  r ← must o;
  let oldPhase := n_Phase n in
  let oldStatus := n_Status n in
  let n := n <| n_Phase := PhaseReady |> <| n_Status := StatusNew |> <| n_ReadyAt := None |>
             <| n_Fifo := n_Fifo r |> <| n_Seq := narrowU64 (n_Seq r) |> in
  moveBucket oldPhase oldStatus (n_Phase n) (n_Status n) ;;
  ef ← insertEvent (n_NodeID n) (n_Kind n) EventReady StatusNew StatusNew ReasonNone "" (n_Attempt n)
         (n_Seq n);
  mret (n, ef).

Definition makeBlocked (n : nodeRow) : M C nodeRow :=
  update_exec (n_ID n) (fun r => r <| n_Phase := PhaseBlocked |> <| n_Status := StatusNew |>) ;;
  let n' := n <| n_Phase := PhaseBlocked |> <| n_Status := StatusNew |> in
  moveBucket (n_Phase n) (n_Status n) (n_Phase n') (n_Status n') ;;
  mret n'.

(** [delay] is the duration; the server adds the interval to its own clock. *)
Definition schedule (n : nodeRow) (delay : Z) : M C nodeRow :=
  stmt ;;
  now ← clock_timestamp;
  o ← write_row (n_ID n) (fun r => r <| n_Phase := PhaseScheduled |> <| n_Status := StatusNew |>
        <| n_ReadyAt := Some (now + srv_interval delay)%Z |>);
  r ← must o;
  let n' := n <| n_Phase := PhaseScheduled |> <| n_Status := StatusNew |> <| n_ReadyAt := n_ReadyAt r |> in
  moveBucket (n_Phase n) (n_Status n) (n_Phase n') (n_Status n') ;;
  mret n'.

Definition bumpSeq (i : Z) : M C Z :=
  r ← update_returning i (fun r => r <| n_Seq ::= Z.succ |>);
  mret (narrowU64 (n_Seq r)).

Definition bumpSeqMany (ids : list Z) : M C (list Z) := mapM bumpSeq ids.

(** ** Terminating a node and its consequences *)

(** One successor of a node that just resolved, in [cascadeSuccessors]. *)
Definition cascade_one (fromID : Z) (fromStatus : Status) (fromReason : Reason)
    (acc : list terminateItem * list Effect) (succ : nodeRow)
  : M C (list terminateItem * list Effect) :=
  let '(queue, effects) := acc in
  flipped ← markEdgeSatisfied fromID (n_ID succ);
  if negb flipped then mret (queue, effects)
  else
    deps ← applyDepDelta (n_ID succ) fromStatus fromReason;
    let succ := succ <| n_Deps := deps |> in
    match n_Phase succ with
    | PhaseBlocked | PhaseReady =>
      if Unsatisfiable (n_Deps succ) (n_Trigger succ) then
        let rs := TerminalReason (n_Deps succ) in
        mret (queue ++ [mkItem (n_ID succ) StatusError rs (terminalMessage rs)], effects)
      else if Ready (n_Deps succ) (n_Trigger succ) then
        if bool_decide (n_Phase succ = PhaseReady) then mret (queue, effects)
        else
          '(_, ef) ← makeReady succ;
          mret (queue, effects ++ [ef])
      else mret (queue, effects)
    | _ => mret (queue, effects)
    end.

Definition cascadeSuccessors (queue : list terminateItem) (fromID : Z) (fromStatus : Status)
    (fromReason : Reason) : M C (list terminateItem * list Effect) :=
  succs ← successorsForUpdate fromID;
  foldM (cascade_one fromID fromStatus fromReason) (queue, []) succs.

(** The queue loop of [terminate].  Every item after the first stands for an
    edge this call turned to satisfied, so the number of edges bounds the
    iterations. *)
Fixpoint terminate_loop (fuel : nat) (queue : list terminateItem) (effects : list Effect)
  : M C (list Effect) :=
  match fuel with
  | O => throw Diverged
  | S fuel =>
    match queue with
    | [] => mret effects
    | it :: queue =>
      o ← loadForUpdate (i_id it);
      match o with
      | None => terminate_loop fuel queue effects
      | Some n =>
        if bool_decide (n_Phase n = PhaseDone) then terminate_loop fuel queue effects
        else
          let oldPhase := n_Phase n in
          let oldStatus := n_Status n in
          r ← update_returning (n_ID n) (ended it);
          let n := n <| n_Phase := PhaseDone |> <| n_Status := i_status it |>
                     <| n_Reason := i_reason it |> <| n_Message := i_message it |>
                     <| n_Seq := narrowU64 (n_Seq r) |> in
          moveBucket oldPhase oldStatus (n_Phase n) (n_Status n) ;;
          ef ← insertEvent (n_NodeID n) (n_Kind n) EventTransition oldStatus (n_Status n)
                 (n_Reason n) (n_Message n) (n_Attempt n) (n_Seq n);
          '(queue, more) ← cascadeSuccessors queue (n_ID n) (n_Status n) (n_Reason n);
          terminate_loop fuel queue (effects ++ [ef] ++ more)
      end
    end
  end.

Definition terminate_fuel (d : db) : nat := S (S (size (d_edges d))).

Definition terminate (root : Z) (st : Status) (rs : Reason) (msg : string) : M C (list Effect) :=
  fuel ← gets terminate_fuel;
  terminate_loop fuel [mkItem root st rs msg] [].

Definition settle (n : nodeRow) : M C (list Effect) :=
  match n_Phase n with
  | PhaseBlocked | PhaseReady =>
    if Unsatisfiable (n_Deps n) (n_Trigger n) then
      let rs := TerminalReason (n_Deps n) in
      terminate (n_ID n) StatusError rs (terminalMessage rs)
    else if Ready (n_Deps n) (n_Trigger n) then
      if bool_decide (n_Phase n = PhaseReady) then mret []
      else '(_, ef) ← makeReady n; mret [ef]
    else
      if bool_decide (n_Phase n = PhaseBlocked) then mret []
      else makeBlocked n ;; mret []
  | _ => mret []
  end.

(** ** Linking *)

(** [INSERT INTO dagw.edges]: the primary key and the two foreign keys. *)
Definition insert_edge (fromID toID : Z) (sat : bool) : M C unit :=
  stmt ;;
  t ← get;
  let d := g_db t in
  match d_nodes d !! fromID, d_nodes d !! toID with
  | Some _, Some _ =>
    if edge_in d (scope, fromID, toID) then throw (SqlError "23505")
    else modify_db (fun d => d <| d_edges ::= <[(scope, fromID, toID) := sat]> |>)
  | _, _ => throw (SqlError "23503")
  end.

(** [externalIDs] and the loop that names the nodes of a path; a node with no
    row reads as the empty string of a Go map. *)
Definition externalIDs (ids : list Z) : M C (list string) :=
  query (fun d => (fun i => match d_nodes d !! i with Some r => n_NodeID r | None => ""%string end) <$> ids).

(** [linkDependency]; the answer is [*to] as the call leaves it. *)
Definition linkDependency (from to : nodeRow) : M C nodeRow :=
  exists_ ← query (fun d => edge_in d (scope, n_ID from, n_ID to));
  if (exists_ : bool) then mret to
  else if bool_decide (n_Phase to = PhaseDone) then throw (Domain (Err ErrAlreadyTerminal))
  else
    res ← addEdgeOrder scope (n_ID from) (n_ID to);
    match cyclePath res with
    | Some ids =>
      path ← externalIDs ids;
      throw (Domain (CycleError scope (n_NodeID from) (n_NodeID to) path))
    | None =>
      let satisfied := bool_decide (n_Phase from = PhaseDone) in
      insert_edge (n_ID from) (n_ID to) satisfied ;;
      let deps := dep_link satisfied (n_Status from) (n_Reason from) (n_Deps to) in
      update_exec (n_ID to) (fun r => r <| n_Deps := deps |>) ;;
      mret (to <| n_Deps := deps |>)
    end.

Definition unlinkDependency (fromID toID : Z) : M C bool :=
  stmt ;;
  e ← gets (fun d => d_edges d !! (scope, fromID, toID));
  match e with
  | None => mret false
  | Some satisfied =>
    modify_db (fun d => d <| d_edges ::= delete (scope, fromID, toID) |>) ;;
    o ← loadForUpdate fromID;
    from ← must o;
    update_exec toID (fun r => r <| n_Deps ::= dep_undo satisfied (n_Status from) (n_Reason from) |>) ;;
    mret true
  end.

(** ** Creating *)

(** [insertNodeSQL]: the id and the rank are identity columns, and
    [(scope, node_id)] is unique. *)
Definition insert_node (spec : NodeSpec) : M C nodeRow :=
  stmt ;;
  created ← clock_timestamp;
  updated ← clock_timestamp;
  d ← gets (fun d => d);
  modify_db (fun d => d <| q_id ::= Z.succ |> <| q_rank ::= Z.succ |>) ;;
  let floor := match d_scopes d !! scope with Some row => sr_epoch_floor row | None => 0%Z end in
  let r := mkRow (q_id d) (q_rank d) scope (sp_ID spec) (sp_Kind spec) StatusNew ReasonNone ""
             PhaseBlocked 0 floor (sp_Priority spec) (sp_Trigger spec)
             (narrowI32 (rp_MaxAttempts (sp_Retry spec))) (rp_BaseDelay (sp_Retry spec))
             (rp_MaxDelay (sp_Retry spec)) (sp_Payload spec) [] (sp_Labels spec) "" 0 0
             (mkDeps 0 0 0 0) None None created updated in
  match find_ext scope (sp_ID spec) d with
  | Some _ => throw (SqlError "23505")
  | None => put_row r ;; mret (scanNode r)
  end.

Definition createNodes (specs : list NodeSpec) : M C (list nodeRow) :=
  out ← mapM insert_node specs;
  foldM (fun _ r => enterBucket (n_Phase r) (n_Status r) ;; addTotal 1) tt out ;;
  mret out.

(** ** The tail of every mutating call *)

Definition notifyIfDirty : M C unit :=
  t ← get;
  if g_notify t then stmt else mret tt.

Definition finalize : M C unit := flushCounters ;; notifyIfDirty.

End Engine.
