(* ===== verification/PgGraph.v ===== *)
(** * The graph operations of the PostgreSQL backend: [graph.go], [retry.go]
    and the scope rows they need ([scope_admin.go], [postgres.go]) *)
From S2P Require Import Prelude Types Config Scope PgDb PgTopo PgEngine.

(** ** [retry.go] *)

Definition sqlstateSerializationFailure : string := "40001".
Definition sqlstateDeadlockDetected : string := "40P01".
Definition maxTransactionAttempts : nat := 3.

Definition isTransientConflict (e : pgerror) : bool :=
  match e with
  | SqlError code =>
    bool_decide (code = sqlstateSerializationFailure) || bool_decide (code = sqlstateDeadlockDetected)
  | _ => false
  end.

(** ** [util.go] *)

Record orderedSet := mkOrdered { os_items : list Z; os_seen : gset Z }.

Definition newOrderedSet : orderedSet := mkOrdered [] ∅.

Definition os_add (v : Z) (o : orderedSet) : orderedSet :=
  if bool_decide (v ∈ os_seen o) then o
  else mkOrdered (os_items o ++ [v]) ({[v]} ∪ os_seen o).

(** ** Validation of a batch *)

Fixpoint validate_specs (cfg : ScopeConfig) (seen : gset string) (specs : list NodeSpec) : option error :=
  match specs with
  | [] => None
  | spec :: specs =>
    match NodeSpec_Validate spec with
    | Some e => Some e
    | None =>
      let size := Z.of_nat (length (sp_Payload spec)) in
      if (c_PayloadCap cfg <? size)%Z then Some (PayloadTooLargeError size (c_PayloadCap cfg))
      else if bool_decide (sp_ID spec ∈ seen) then Some (Err ErrInvalidArgument)
      else validate_specs cfg ({[sp_ID spec]} ∪ seen) specs
    end
  end.

Definition validateAddNodesBatch (cfg : ScopeConfig) (specs : list NodeSpec) : option error :=
  if (c_MaxBatchSize cfg <? Z.of_nat (length specs))%Z then Some (Err ErrInvalidArgument)
  else validate_specs cfg ∅ specs.

Section Graph.
Context {C : Type} `{!Server C}.

(** The [Store]'s default configuration, and whether the caller's context is
    done after the [n]-th wait of [retryTransient]. *)
Context (defaults : ScopeConfig) (cancelled : nat -> bool).

(** [retryTransient]: run the call again, at most three times in all, while it
    fails with a transient conflict; the wait between attempts draws the
    jitter. *)
Fixpoint retry_loop {A : Type} (tries attempt : nat) (fn : M C A) : M C A :=
  fun t =>
  match fn t with
  | (t, inl a) => (t, inl a)
  | (t, inr e) =>
    if negb (isTransientConflict e) then (t, inr e)
    else match tries with
         | O => (t, inr e)
         | S tries =>
           match jitter (Z.of_nat attempt * Millisecond) t with
           | (t, inr e) => (t, inr e)
           | (t, inl _) =>
             if cancelled attempt then (t, inr ContextDone)
             else retry_loop tries (S attempt) fn t
           end
         end
  end.

Definition retryTransient {A : Type} (fn : M C A) : M C A :=
  retry_loop (maxTransactionAttempts - 1) 1 fn.

(** ** Migrations ([postgres.go]) *)

Definition migration_names : list string :=
  ["0001_init.sql"; "0002_terminal_index.sql"; "0003_epoch_floor.sql"]%string.

(** The tables exist in the model from the start, so applying a file only
    records it. *)
Definition applyMigration (name : string) : M C unit :=
  applied ← query (fun d => bool_decide (name ∈ d_migrations d));
  if (applied : bool) then mret tt
  else transact (stmt ;; exec (fun d => d <| d_migrations ::= fun l => l ++ [name] |>)).

Definition migrate : M C unit :=
  stmt ;; foldM (fun _ name => applyMigration name) tt migration_names.

(** [migrateOnce.Do]: the first answer is kept, an error too. *)
Definition ensureMigrated : M C unit := fun t =>
  match g_migrated t with
  | Some None => (t, inl tt)
  | Some (Some e) => (t, inr e)
  | None =>
    match migrate t with
    | (t, inl _) => (t <| g_migrated := Some None |>, inl tt)
    | (t, inr e) => (t <| g_migrated := Some (Some e) |>, inr e)
    end
  end.

(** ** Scope rows *)

(** The row of a scope nobody has written to. *)
Definition new_scope (cfg : ScopeConfig) : scopeTuple := mkTuple false (configArgs cfg) ∅ 0.

(** [INSERT .. ON CONFLICT (scope) DO NOTHING]; the [querier] is a transaction
    ([exec]) or the pool ([autocommit]). *)
Definition ensureScope (q : (db -> db) -> M C unit) (scope : string) (cfg : ScopeConfig) : M C unit :=
  q (fun d =>
    match d_scopes d !! scope with
    | Some _ => d
    | None => d <| d_scopes ::= <[scope := new_scope cfg]> |>
    end).

Definition loadScope (scope : string) : M C (option scopeRow) :=
  query (fun d => scanScope <$> d_scopes d !! scope).

(** [pg_advisory_xact_lock]: nothing to wait for. *)
Definition lockScopeGraph : M C unit := stmt.

(** ** Settling the touched nodes *)

(** [settleOne]: the effects, and whether one of them is another node's. *)
Definition settleOne (scope : string) (i : Z) (snap : nodeRow) (reload : bool)
  : M C (list Effect * bool) :=
  o ← (if reload then loadForUpdate i else mret (Some snap));
  match o with
  | None => mret ([], false)
  | Some n =>
    effects ← settle scope n;
    mret (effects, existsb (fun ef => negb (bool_decide (ef_NodeID ef = n_NodeID n))) effects)
  end.

Definition settle_step (scope : string) (snapshots : gmap Z nodeRow) (acc : list Effect * bool) (i : Z)
  : M C (list Effect * bool) :=
  let '(effects, stale) := acc in
  match snapshots !! i with
  | None => mret (effects, stale)
  | Some n =>
    '(more, cascaded) ← settleOne scope i n stale;
    mret (effects ++ more, stale || cascaded)
  end.

Definition settleTouched (scope : string) (ids : list Z) : M C (list Effect) :=
  match ids with
  | [] => mret []
  | _ =>
    found ← loadManyForUpdate ids;
    let snapshots : gmap Z nodeRow := list_to_map ((fun r => (n_ID r, r)) <$> found) in
    '(effects, _) ← foldM (settle_step scope snapshots) ([], false) ids;
    mret effects
  end.

(** ** [AddNodes] *)

(** The loop that splits the batch into rows to keep and specs to create. *)
Fixpoint split_batch (existing : gmap string nodeRow) (specs : list NodeSpec)
    (nodes : gmap string nodeRow) (toCreate : list NodeSpec)
  : result (gmap string nodeRow * list NodeSpec) :=
  match specs with
  | [] => Ok (nodes, toCreate)
  | spec :: specs =>
    match existing !! sp_ID spec with
    | None => split_batch existing specs nodes (toCreate ++ [spec])
    | Some n =>
      if specMatches n spec then split_batch existing specs (<[sp_ID spec := n]> nodes) toCreate
      else Fail (Err ErrIDConflict)
    end
  end.

Definition materialiseAddNodesBatch (scope : string) (specs : list NodeSpec)
  : M C (gmap string nodeRow * list string) :=
  existing ← loadManyForUpdateByExternal scope (sp_ID <$> specs);
  match split_batch existing specs ∅ [] with
  | Fail e => throw (Domain e)
  | Ok (nodes, toCreate) =>
    created ← createNodes scope toCreate;
    mret (foldl (fun m ic => <[ic.1 := ic.2]> m) nodes (zip (sp_ID <$> toCreate) created),
          sp_ID <$> toCreate)
  end.

(** One declared dependency in [linkAddNodesBatch]; [to] is the local variable
    of the outer loop. *)
Definition link_dep (scope id : string) (acc : gmap string nodeRow * nodeRow) (dep : string)
  : M C (gmap string nodeRow * nodeRow) :=
  let '(nodes, to) := acc in
  from ← match nodes !! dep with
         | Some from => mret from
         | None =>
           o ← loadForUpdateByExternal scope dep;
           match o with Some from => mret from | None => throw (Domain (Err ErrNotFound)) end
         end;
  to ← linkDependency scope from to;
  mret (<[id := to]> (<[dep := from]> nodes), to).

Definition link_spec (scope : string) (acc : gmap string nodeRow * orderedSet) (spec : NodeSpec)
  : M C (gmap string nodeRow * orderedSet) :=
  let '(nodes, touched) := acc in
  let to := default zeroRow (nodes !! sp_ID spec) in
  let touched := os_add (n_ID to) touched in
  '(nodes, _) ← foldM (link_dep scope (sp_ID spec)) (nodes, to) (sp_Deps spec);
  mret (nodes, touched).

Definition linkAddNodesBatch (scope : string) (specs : list NodeSpec) (nodes : gmap string nodeRow)
  : M C (gmap string nodeRow * orderedSet) :=
  foldM (link_spec scope) (nodes, newOrderedSet) specs.

Definition announceFresh (scope : string) (nodes : gmap string nodeRow) (fresh : list string)
  : M C (list Effect) :=
  let ns := (fun i => default zeroRow (nodes !! i)) <$> fresh in
  seqs ← bumpSeqMany (n_ID <$> ns);
  insertEvents scope
    ((fun ns => mkPending (n_NodeID ns.1) (n_Kind ns.1) EventCreated StatusNew (n_Status ns.1)
                  (n_Reason ns.1) (n_Message ns.1) (n_Attempt ns.1) ns.2) <$> zip ns seqs).

Definition add_nodes_body (scope : string) (specs : list NodeSpec) : M C (list Effect) :=
  ensureScope exec scope defaults ;;
  lockScopeGraph ;;
  sc ← loadScope scope;
  let sc := default zeroScopeRow sc in
  if Sealed sc then throw (Domain (Err ErrScopeSealed))
  else
    let cfg := Resolved (Cfg sc) in
    match validateAddNodesBatch cfg specs with
    | Some e => throw (Domain e)
    | None =>
      '(nodes, fresh) ← materialiseAddNodesBatch scope specs;
      '(nodes, touched) ← linkAddNodesBatch scope specs nodes;
      effects ← announceFresh scope nodes fresh;
      more ← settleTouched scope (os_items touched);
      finalize scope ;;
      mret (effects ++ more)
    end.

Definition addNodesOnce (scope : string) (specs : list NodeSpec) : M C (list Effect) :=
  match specs with
  | [] => mret []
  | _ => ensureMigrated ;; transact (add_nodes_body scope specs)
  end.

Definition AddNodes (scope : string) (specs : list NodeSpec) : M C (list Effect) :=
  retryTransient (addNodesOnce scope specs).

(** ** The other graph operations *)

(** [beginGraphTx] and [finishGraphTx] around a body. *)
Definition graphTx {A : Type} (scope : string) (body : M C A) : M C A :=
  ensureMigrated ;;
  transact (
    sc ← loadScope scope;
    match sc with
    | None => throw (Domain (Err ErrNotFound))
    | Some _ =>
      lockScopeGraph ;;
      effects ← body;
      finalize scope ;;
      mret effects
    end).

(** [nodeLoader.endpoint]; the cache of the loader is threaded. *)
Definition endpoint (scope : string) (cache : gmap string nodeRow) (i : string)
  : M C (gmap string nodeRow * nodeRow) :=
  match cache !! i with
  | Some n => mret (cache, n)
  | None =>
    o ← loadForUpdateByExternal scope i;
    match o with
    | Some n => mret (<[i := n]> cache, n)
    | None => throw (Domain (Err ErrNotFound))
    end
  end.

Definition add_edge (scope : string) (acc : gmap string nodeRow * orderedSet) (e : Edge)
  : M C (gmap string nodeRow * orderedSet) :=
  let '(cache, touched) := acc in
  if bool_decide (e_From e = e_To e) then throw (Domain (Err ErrCycle))
  else
    '(cache, from) ← endpoint scope cache (e_From e);
    '(cache, to) ← endpoint scope cache (e_To e);
    to ← linkDependency scope from to;
    mret (<[e_To e := to]> (<[e_From e := from]> cache), os_add (n_ID to) touched).

Definition addEdgesOnce (scope : string) (edges : list Edge) : M C (list Effect) :=
  match edges with
  | [] => mret []
  | _ =>
    graphTx scope (
      '(_, touched) ← foldM (add_edge scope) (∅, newOrderedSet) edges;
      settleTouched scope (os_items touched))
  end.

Definition AddEdges (scope : string) (edges : list Edge) : M C (list Effect) :=
  retryTransient (addEdgesOnce scope edges).

Definition remove_edge (scope : string) (acc : gmap string nodeRow * orderedSet) (e : Edge)
  : M C (gmap string nodeRow * orderedSet) :=
  let '(cache, touched) := acc in
  '(cache, from) ← endpoint scope cache (e_From e);
  '(cache, to) ← endpoint scope cache (e_To e);
  changed ← unlinkDependency scope (n_ID from) (n_ID to);
  mret (cache, if (changed : bool) then os_add (n_ID to) touched else touched).

Definition removeEdgesOnce (scope : string) (edges : list Edge) : M C (list Effect) :=
  match edges with
  | [] => mret []
  | _ =>
    graphTx scope (
      '(_, touched) ← foldM (remove_edge scope) (∅, newOrderedSet) edges;
      settleTouched scope (os_items touched))
  end.

Definition RemoveEdges (scope : string) (edges : list Edge) : M C (list Effect) :=
  retryTransient (removeEdgesOnce scope edges).

Definition applyCascade (scope : string) (policy : CascadePolicy) (succs : list nodeRow)
  : M C (list Effect) :=
  match succs with
  | [] => mret []
  | _ =>
    match policy with
    | CascadeReject => throw (Domain (Err ErrHasSuccessors))
    | CascadeFail =>
      foldM (fun effects w =>
        more ← terminate scope (n_ID w) StatusError ReasonRemoved (terminalMessage ReasonRemoved);
        mret (effects ++ more)) [] succs
    | CascadeDetach => mret []
    | CascadeOther _ => mret []
    end
  end.

(** [DELETE FROM dagw.edges WHERE scope = $1 AND to_id = $2]. *)
Definition detach_preds (scope : string) (i : Z) : M C unit :=
  exec (fun d => d <| d_edges ::= filter (fun kv => ~ (fst (fst (fst kv)) = scope /\ snd (fst kv) = i)) |>).

(** [DELETE FROM dagw.nodes WHERE id = $1]; the foreign keys of [dagw.edges]
    cascade. *)
Definition delete_row (i : Z) : M C unit :=
  exec (fun d => d <| d_nodes ::= delete i |>
                   <| d_edges ::= filter (fun kv => ~ (snd (fst (fst kv)) = i \/ snd (fst kv) = i)) |>).

Definition raise_floor (scope : string) (e : Z) : M C unit :=
  exec (fun d =>
    match d_scopes d !! scope with
    | None => d
    | Some row => d <| d_scopes ::= <[scope := row <| sr_epoch_floor ::= fun f => Z.max f e |>]> |>
    end).

Definition deleteNodeRow (scope : string) (n : nodeRow) : M C unit :=
  leaveBucket (n_Phase n) (n_Status n) ;;
  addTotal (-1) ;;
  raise_floor scope (widenI64 (n_Epoch n)) ;;
  delete_row (n_ID n).

Definition remove_node_body (scope : string) (i : string) (policy : CascadePolicy) : M C (list Effect) :=
  o ← loadForUpdateByExternal scope i;
  match o with
  | None => throw (Domain (Err ErrNotFound))
  | Some n =>
    if bool_decide (n_Phase n = PhaseClaimed) then throw (Domain (Err ErrNodeInFlight))
    else
      succs ← successorsForUpdate scope (n_ID n);
      effects ← applyCascade scope policy succs;
      foldM (fun _ w => _ ← unlinkDependency scope (n_ID n) (n_ID w); mret tt) tt succs ;;
      detach_preds scope (n_ID n) ;;
      deleteNodeRow scope n ;;
      if bool_decide (policy = CascadeDetach) then
        more ← settleTouched scope (n_ID <$> succs);
        mret (effects ++ more)
      else mret effects
  end.

Definition removeNodeOnce (scope : string) (i : string) (policy : CascadePolicy) : M C (list Effect) :=
  graphTx scope (remove_node_body scope i policy).

Definition RemoveNode (scope : string) (i : string) (policy : CascadePolicy) : M C (list Effect) :=
  retryTransient (removeNodeOnce scope i policy).

Definition cancel_one (scope : string) (effects : list Effect) (i : string) : M C (list Effect) :=
  o ← query (find_ext scope i);
  match o with
  | None => throw (Domain (Err ErrNotFound))
  | Some r =>
    if bool_decide (n_Phase r = PhaseDone) then mret effects
    else
      more ← terminate scope (n_ID r) StatusError ReasonCancelled (terminalMessage ReasonCancelled);
      mret (effects ++ more)
  end.

Definition cancelOnce (scope : string) (ids : list string) : M C (list Effect) :=
  match ids with
  | [] => mret []
  | _ => graphTx scope (foldM (cancel_one scope) [] ids)
  end.

Definition Cancel (scope : string) (ids : list string) : M C (list Effect) :=
  retryTransient (cancelOnce scope ids).

(** [SELECT id .. WHERE scope = $1 AND phase <> $2]. *)
Definition live_ids (scope : string) : M C (list Z) :=
  ids ← query (fun d => n_ID <$> rows_where (fun r => bool_decide (n_Scope r = scope)
                               && negb (bool_decide (n_Phase r = PhaseDone))) d);
  any_order ids.

Definition CancelScope (scope : string) : M C (list Effect) :=
  ensureMigrated ;;
  effects ← transact_if (fun o => match o with Some _ => true | None => false end) (
    sc ← loadScope scope;
    match sc with
    | None => mret None                     (* returns before the Commit *)
    | Some _ =>
      lockScopeGraph ;;
      ids ← live_ids scope;
      effects ← foldM (fun effects i =>
        more ← terminate scope i StatusError ReasonCancelled (terminalMessage ReasonCancelled);
        mret (effects ++ more)) [] ids;
      finalize scope ;;
      mret (Some effects)
    end);
  mret (default [] effects).

End Graph.
