(* ===== verification/PgLease.v ===== *)
(** * Claims, completions and the sweeper: [storage/postgres/lease.go] *)
From S2P Require Import Prelude Types Config Scope PgDb PgTopo PgEngine PgGraph.

Definition timeoutMessage : string := "the worker did not acknowledge before the lease deadline".

(** ** The candidate queries *)

(** [ORDER BY priority DESC, fifo]. *)
Definition claim_before (a b : nodeRow) : Prop :=
  (n_Priority b < n_Priority a)%Z \/ (n_Priority a = n_Priority b /\ (n_Fifo a <= n_Fifo b)%Z).

#[export] Instance claim_before_dec : RelDecision claim_before.
Proof. unfold claim_before. solve_decision. Defined.

(** [$2::text[] IS NULL OR kind = ANY($2)]; an empty list binds NULL. *)
Definition kind_any (kinds : list string) (r : nodeRow) : bool :=
  match kinds with [] => true | _ => bool_decide (n_Kind r ∈ kinds) end.

Definition claimable (scope : string) (kinds : list string) (r : nodeRow) : bool :=
  bool_decide (n_Scope r = scope) && bool_decide (n_Phase r = PhaseReady) && kind_any kinds r.

(** [deadline < clock_timestamp()]; NULL compares as false. *)
Definition expired (scope : string) (now : Z) (r : nodeRow) : bool :=
  bool_decide (n_Scope r = scope) && bool_decide (n_Phase r = PhaseClaimed)
  && match n_Deadline r with Some t => (t <? now)%Z | None => false end.

(** [ready_at <= clock_timestamp()]. *)
Definition due (scope : string) (now : Z) (r : nodeRow) : bool :=
  bool_decide (n_Scope r = scope) && bool_decide (n_Phase r = PhaseScheduled)
  && match n_ReadyAt r with Some t => (t <=? now)%Z | None => false end.

(** [ORDER BY] a timestamp column; the rows it compares have one. *)
Definition time_before (f : nodeRow -> option Z) (a b : nodeRow) : Prop :=
  (default 0 (f a) <= default 0 (f b))%Z.

#[export] Instance time_before_dec f : RelDecision (time_before f).
Proof. unfold time_before. solve_decision. Defined.

Definition by_time (f : nodeRow -> option Z) (d : db) (ids : list Z) : list Z :=
  n_ID <$> merge_sort (time_before f) (omap (fun i => d_nodes d !! i) ids).

(** The SET list of [claimSQL]. *)
Definition granted (workerID : string) (deadline : Z) (r : nodeRow) : nodeRow :=
  r <| n_Phase := PhaseClaimed |> <| n_Status := StatusInProgress |>
    <| n_Epoch ::= Z.succ |> <| n_Attempt ::= Z.succ |> <| n_Worker := workerID |>
    <| n_Deadline := Some deadline |> <| n_Seq ::= Z.succ |>.

Section Lease.
Context {C : Type} `{!Server C}.

Section Engine.
Context (scope : string) (cfg : ScopeConfig).

(** ** [claimSQL] *)

Definition claimOne (kinds : list string) (leaseFor : Z) (workerID : string)
  : M C (option (nodeRow * Effect)) :=
  stmt ;;
  o ← gets (fun d => head (merge_sort claim_before (rows_where (claimable scope kinds) d)));
  match o with
  | None => mret None
  | Some r =>
    now ← clock_timestamp;
    o ← write_row (n_ID r) (granted workerID (now + srv_interval leaseFor));
    r ← must o;
    let n := scanNode r in
    moveBucket PhaseReady StatusNew (n_Phase n) (n_Status n) ;;
    ef ← insertEvent scope (n_NodeID n) (n_Kind n) EventTransition StatusNew (n_Status n) (n_Reason n)
           (n_Message n) (n_Attempt n) (n_Seq n);
    mret (Some (n, ef))
  end.

Definition lease_of (reqScope : string) (n : nodeRow) : Lease :=
  mkLease reqScope (n_NodeID n) (n_Epoch n) (derefTime (n_Deadline n)) (Some (snapshot n)) [].

(** The loop of [claimLoop]; [want] leases are still wanted. *)
Fixpoint claim_loop (want : nat) (req : ClaimRequest) (leaseFor inProgress : Z)
    (leases : list Lease) (effects : list Effect) : M C ClaimResult :=
  match want with
  | O => mret (mkClaimResult leases effects)
  | S want =>
    if (0 <? c_MaxInFlight cfg)%Z && (c_MaxInFlight cfg <=? inProgress)%Z
    then mret (mkClaimResult leases effects)
    else
      o ← claimOne (cr_Kinds req) leaseFor (cr_WorkerID req);
      match o with
      | None => mret (mkClaimResult leases effects)
      | Some (n, ef) =>
        claim_loop want req leaseFor (inProgress + 1) (leases ++ [lease_of (cr_Scope req) n])
          (effects ++ [ef])
      end
  end.

(** [SELECT stat_in_progress], plus what the transaction has not written yet. *)
Definition inflight_count : M C Z :=
  row ← query (fun d => d_scopes d !! scope);
  row ← must row;
  p ← pendingStat "stat_in_progress";
  mret (stat_of (sr_stats row) "stat_in_progress" + p)%Z.

Definition claimLoop (req : ClaimRequest) (want leaseFor : Z) : M C ClaimResult :=
  inProgress ← (if (0 <? c_MaxInFlight cfg)%Z then inflight_count else mret 0%Z);
  claim_loop (Z.to_nat want) req leaseFor inProgress [] [].

(** ** Failed attempts *)

Definition setRetryFields (n : nodeRow) (rs : Reason) (msg : string) : M C nodeRow :=
  update_exec (n_ID n) (fun r => r <| n_Reason := rs |> <| n_Message := msg |> <| n_Worker := ""%string |>) ;;
  mret (n <| n_Reason := rs |> <| n_Message := msg |> <| n_Worker := ""%string |>).

(** [dw.Backoff] with the store's jitter. *)
Definition backoff (att base maxDelay : Z) : M C Z := fun t =>
  let '(delay, c) := Backoff att base maxDelay (Some clk_Jitter) (g_c t) in
  (t <| g_c := c |>, inl delay).

(** The answer also carries [*n] as the call leaves it. *)
Definition failAttempt (n : nodeRow) (rs : Reason) (msg : string) : M C (nodeRow * list Effect) :=
  let '(maxAttempts, base, maxDelay) := retryEffective n cfg in
  if (maxAttempts <=? n_Attempt n)%Z then
    effects ← terminate scope (n_ID n) StatusError rs msg;
    mret (n, effects)
  else
    let from := n_Status n in
    delay ← backoff (n_Attempt n) base maxDelay;
    n ← setRetryFields n rs msg;
    n ← schedule n delay;
    seq ← bumpSeq (n_ID n);
    let n := n <| n_Seq := seq |> in
    ef ← insertEvent scope (n_NodeID n) (n_Kind n) EventTransition from (n_Status n) (n_Reason n)
           (n_Message n) (n_Attempt n) (n_Seq n);
    mret (n, [ef]).

(** ** The sweeper *)

(** A candidate query: the ids of the rows, by a timestamp, at most [limit]. *)
Definition candidates (p : Z -> nodeRow -> bool) (f : nodeRow -> option Z) : M C (list Z) :=
  stmt ;;
  now ← clock_timestamp;
  ids ← gets (fun d => n_ID <$> rows_where (p now) d);
  ids ← any_order ids;
  gets (fun d => by_time f d ids).

Definition reclaim_one (acc : list Effect * Z) (i : Z) : M C (list Effect * Z) :=
  let '(effects, reclaimed) := acc in
  o ← loadForUpdate i;
  match o with
  | None => mret (effects, reclaimed)
  | Some n =>
    if negb (bool_decide (n_Phase n = PhaseClaimed)) then mret (effects, reclaimed)
    else
      '(_, more) ← failAttempt n ReasonTimeout timeoutMessage;
      mret (effects ++ more, (reclaimed + 1)%Z)
  end.

Definition any_expired : M C bool :=
  stmt ;;
  now ← clock_timestamp;
  gets (fun d => negb (bool_decide (rows_where (expired scope now) d = []))).

Definition reclaimExpired (limit : Z) : M C (list Effect * Z * bool) :=
  let limit := if (limit <=? 0)%Z then 1%Z else limit in
  ids ← candidates (expired scope) n_Deadline;
  '(effects, reclaimed) ← foldM reclaim_one ([], 0%Z) (take (Z.to_nat limit) ids);
  more ← any_expired;
  mret (effects, reclaimed, more).

Definition promote_one (effects : list Effect) (i : Z) : M C (list Effect) :=
  o ← loadForUpdate i;
  match o with
  | None => mret effects
  | Some n =>
    if negb (bool_decide (n_Phase n = PhaseScheduled)) then mret effects
    else '(_, ef) ← makeReady scope n; mret (effects ++ [ef])
  end.

Definition promoteScheduled : M C (list Effect) :=
  ids ← candidates (due scope) n_ReadyAt;
  foldM promote_one [] ids.

(** ** Completion *)

Definition completeSuccess (n : nodeRow) (res : bytes) : M C (list Effect) :=
  update_exec (n_ID n) (fun r => r <| n_Result := res |> <| n_Worker := ""%string |>) ;;
  terminate scope (n_ID n) StatusSuccess ReasonNone "".

Definition completeSkip (n : nodeRow) (msg : string) : M C (list Effect) :=
  update_exec (n_ID n) (fun r => r <| n_Worker := ""%string |>) ;;
  terminate scope (n_ID n) StatusError ReasonSkipped msg.

Definition loadLeasedNode (lease : Lease) : M C nodeRow :=
  o ← loadForUpdateByExternal scope (l_NodeID lease);
  match o with
  | None => throw (Domain (Err ErrNotFound))
  | Some n =>
    if negb (bool_decide (n_Phase n = PhaseClaimed)) || negb (n_Epoch n =? l_Epoch lease)%Z
    then throw (Domain (Err ErrLeaseMismatch))
    else mret n
  end.

Definition applyOutcome (n : nodeRow) (req : CompleteRequest) : M C CompleteResult :=
  if co_Success req then
    let size := Z.of_nat (length (co_Result req)) in
    if (c_PayloadCap cfg <? size)%Z then throw (Domain (PayloadTooLargeError size (c_PayloadCap cfg)))
    else
      effects ← completeSuccess n (co_Result req);
      mret (mkCompleteResult effects false TimeZero)
  else if bool_decide (co_Reason req = ReasonSkipped) then
    effects ← completeSkip n (co_Message req);
    mret (mkCompleteResult effects false TimeZero)
  else
    let rs := if bool_decide (co_Reason req = ReasonNone) then ReasonWorkerError else co_Reason req in
    '(n, effects) ← failAttempt n rs (co_Message req);
    if bool_decide (n_Phase n = PhaseScheduled)
    then mret (mkCompleteResult effects true (derefTime (n_ReadyAt n)))
    else mret (mkCompleteResult effects false TimeZero).

End Engine.

(** ** The calls *)

Context (cancelled : nat -> bool).

Definition claim_body (cfg : ScopeConfig) (req : ClaimRequest) : M C ClaimResult :=
  let scope := cr_Scope req in
  '(reclaimed, _, _) ← reclaimExpired scope cfg (c_SweepBatchSize cfg);
  promoted ← promoteScheduled scope;
  res ← claimLoop scope cfg req (Z.max (cr_Max req) 1) (ClampLease cfg (cr_Timeout req));
  finalize scope ;;
  mret (mkClaimResult (cl_Leases res) (reclaimed ++ promoted ++ cl_Effects res)).

Definition Claim (req : ClaimRequest) : M C ClaimResult :=
  ensureMigrated ;;
  sc ← loadScope (cr_Scope req);
  match sc with
  | None => mret (mkClaimResult [] [])
  | Some sc => transact (claim_body (Resolved (Cfg sc)) req)
  end.

Definition complete_body (cfg : ScopeConfig) (req : CompleteRequest) : M C CompleteResult :=
  let scope := l_Scope (co_Lease req) in
  n ← loadLeasedNode scope (co_Lease req);
  out ← applyOutcome scope cfg n req;
  finalize scope ;;
  mret out.

Definition completeOnce (req : CompleteRequest) : M C CompleteResult :=
  if negb (Lease_Valid (co_Lease req)) then throw (Domain (Err ErrInvalidArgument))
  else
    ensureMigrated ;;
    sc ← loadScope (l_Scope (co_Lease req));
    match sc with
    | None => throw (Domain (Err ErrNotFound))
    | Some sc => transact (complete_body (Resolved (Cfg sc)) req)
    end.

Definition Complete (req : CompleteRequest) : M C CompleteResult :=
  retryTransient cancelled (completeOnce req).

(** The [WHERE] of the UPDATE of [Extend]. *)
Definition held (scope nid : string) (epoch : Z) (r : nodeRow) : bool :=
  ext_is scope nid r && bool_decide (n_Phase r = PhaseClaimed) && (n_Epoch r =? epoch)%Z.

Definition extend_body (cfg : ScopeConfig) (req : ExtendRequest) : M C Time :=
  let scope := l_Scope (ex_Lease req) in
  let nid := l_NodeID (ex_Lease req) in
  stmt ;;
  o ← gets (fun d => head (rows_where (held scope nid (widenI64 (l_Epoch (ex_Lease req)))) d));
  match o with
  | Some r =>
    now ← clock_timestamp;
    o ← write_row (n_ID r) (fun r =>
          r <| n_Deadline := Some (now + srv_interval (ClampLease cfg (ex_Timeout req)))%Z |>);
    r ← must o;
    mret (derefTime (n_Deadline r))
  | None =>
    o ← query (find_ext scope nid);
    match o with
    | None => throw (Domain (Err ErrNotFound))
    | Some _ => throw (Domain (Err ErrLeaseMismatch))
    end
  end.

Definition Extend (req : ExtendRequest) : M C Time :=
  if negb (Lease_Valid (ex_Lease req)) then throw (Domain (Err ErrInvalidArgument))
  else
    ensureMigrated ;;
    sc ← loadScope (l_Scope (ex_Lease req));
    match sc with
    | None => throw (Domain (Err ErrNotFound))
    | Some sc => transact (extend_body (Resolved (Cfg sc)) req)
    end.

Definition sweep_body (scope : string) (cfg : ScopeConfig) (limit : Z) : M C SweepResult :=
  '(effects, reclaimed, more) ← reclaimExpired scope cfg limit;
  promoted ← promoteScheduled scope;
  finalize scope ;;
  mret (mkSweepResult reclaimed (effects ++ promoted) more).

Definition Sweep (scope : string) (limit : Z) : M C SweepResult :=
  ensureMigrated ;;
  sc ← loadScope scope;
  match sc with
  | None => mret (mkSweepResult 0 [] false)
  | Some sc =>
    let cfg := Resolved (Cfg sc) in
    transact (sweep_body scope cfg (if (limit <=? 0)%Z then c_SweepBatchSize cfg else limit))
  end.

End Lease.
