(* ===== verification/PgAdmin.v ===== *)
(** * Reading, configuring, collecting and watching: [scope_admin.go],
    [list_collect.go], [watch.go], [notifier.go] and the rest of
    [postgres.go] *)
From S2P Require Import Prelude Types Config Scope PgDb PgTopo PgEngine PgGraph PgLease.

(** [heldBy]: the holder, while the node is claimed. *)
Definition heldBy (p : Phase) (w : string) : string :=
  if bool_decide (p = PhaseClaimed) then w else ""%string.

(** The order of [text] columns, which the database's collation decides. *)
Class Collation := {
  coll_le : string -> string -> Prop;
  coll_dec :: RelDecision coll_le;
  coll_order :: TotalOrder coll_le
}.

(** [node_id > $2 AND status = ANY(..) AND kind = ANY(..)]; a filter that is
    not given is not in the query. *)
Definition list_where `{!Collation} (scope : string) (opts : ListOptions) (r : nodeRow) : bool :=
  bool_decide (n_Scope r = scope)
  && negb (bool_decide (coll_le (n_NodeID r) (lo_Cursor opts)))
  && match lo_Statuses opts with [] => true | _ => bool_decide (n_Status r ∈ lo_Statuses opts) end
  && match lo_Kinds opts with [] => true | _ => bool_decide (n_Kind r ∈ lo_Kinds opts) end.

Definition name_le `{!Collation} (a b : nodeRow) : Prop := coll_le (n_NodeID a) (n_NodeID b).

#[export] Instance name_le_dec `{!Collation} : RelDecision name_le.
Proof. unfold name_le. solve_decision. Defined.

(** [terminalCandidateWhere]. *)
Definition collectible (scope : string) (cutoff : Z) (d : db) (r : nodeRow) : bool :=
  bool_decide (n_Scope r = scope) && bool_decide (n_Phase r = PhaseDone) && (n_UpdatedAt r <=? cutoff)%Z
  && bool_decide (map_Forall (fun k _ => ~ (k.1.1 = scope /\ k.1.2 = n_ID r)) (d_edges d)).

Record terminalCandidate := mkCandidate { tc_id : Z; tc_phase : Phase; tc_status : Status }.

(** ** [watch.go] *)

Definition eventBatchSize : nat := 256.

Definition cursor_le (a b : Event) : Prop := (ev_Cursor a <= ev_Cursor b)%Z.

#[export] Instance cursor_le_dec : RelDecision cursor_le.
Proof. unfold cursor_le. solve_decision. Defined.

(** [ev.Cursor = narrowU64(cursor)] and the like. *)
Definition scanEvent (e : Event) : Event :=
  e <| ev_Cursor ::= narrowU64 |> <| ev_Seq ::= narrowU64 |> <| ev_Attempt ::= narrowU32 |>.

(** Why [WaitForWork]'s select returned. *)
Inductive wake := Bell | PollElapsed | CtxDone | StoreClosed.

(** ** [notifier.go]: the map from a scope to the channel its waiters hold *)

Record notifier := mkNotifier {
  bell : gmap string nat;          (* channels are numbered as they are made *)
  chans : nat;
  closed : gset nat
}.

#[export] Instance notifier_eta : Eta notifier := fun n => mkNotifier (bell n) (chans n) (closed n).

Definition newNotifier : notifier := mkNotifier ∅ 0 ∅.

Definition waitChan (scope : string) (n : notifier) : notifier * nat :=
  match bell n !! scope with
  | Some ch => (n, ch)
  | None => (n <| bell ::= <[scope := chans n]> |> <| chans ::= S |>, chans n)
  end.

Definition ring (scope : string) (n : notifier) : notifier :=
  match bell n !! scope with
  | Some ch => n <| closed ::= union {[ch]} |> <| bell ::= delete scope |>
  | None => n
  end.

(** [listenOnce]: whether a connection is acquired and LISTEN succeeds, the
    payloads it delivers until [WaitForNotification] fails, and whether the
    notifier has been stopped by then. *)
Record connection := mkConn {
  conn_acquired : bool;
  conn_listens : bool;
  conn_notes : list string;
  conn_stopped : bool
}.

(** The doorbell afterwards, and whether an error is returned. *)
Definition listenOnce (k : connection) (n : notifier) : notifier * bool :=
  if negb (conn_acquired k) then (n, true)
  else if negb (conn_listens k) then (n, true)
  else (foldl (fun n payload => ring payload n) n (conn_notes k), negb (conn_stopped k)).

Definition startBackoff : Z := (100 * 10 ^ 6)%Z.
Definition maxBackoff : Z := (5 * 10 ^ 9)%Z.

(** One iteration of [run]: whether it finds the notifier stopped, the
    connection it gets otherwise, and whether the pause after an error is cut
    short by a stop. *)
Record turn := mkTurn { tn_stopped : bool; tn_conn : connection; tn_cut : bool }.

(** [run]: the doorbell after these iterations, and the pauses begun. *)
Fixpoint listen_run (turns : list turn) (backoff : Z) (n : notifier) : notifier * list Z :=
  match turns with
  | [] => (n, [])
  | t :: turns =>
    if tn_stopped t then (n, [])
    else
      let '(n, failed) := listenOnce (tn_conn t) n in
      if failed then
        if tn_cut t then (n, [backoff])
        else
          let backoff' := if (backoff <? maxBackoff)%Z then i64 (backoff * 2) else backoff in
          let '(n, pauses) := listen_run turns backoff' n in (n, backoff :: pauses)
      else listen_run turns startBackoff n
  end.

(** ** Construction ([postgres.go]) *)

Definition DefaultPollInterval : Z := (500 * 10 ^ 6)%Z.

(** The fields of [Store] its options set; no jitter is [rand.Int64N]. *)
Record settings := mkSettings {
  ownPool : bool;
  s_defaults : ScopeConfig;
  pollInterval : Z;
  s_jitter : option (Z -> Z)
}.

#[export] Instance settings_eta : Eta settings := fun s =>
  mkSettings (ownPool s) (s_defaults s) (pollInterval s) (s_jitter s).

Inductive Option :=
| WithScopeDefaults (cfg : ScopeConfig)
| WithPollInterval (d : Z)
| WithJitter (fn : option (Z -> Z)).

Definition apply_option (s : settings) (o : Option) : settings :=
  match o with
  | WithScopeDefaults cfg => s <| s_defaults := cfg |>
  | WithPollInterval d => if (0 <? d)%Z then s <| pollInterval := d |> else s
  | WithJitter None => s
  | WithJitter (Some fn) => s <| s_jitter := Some fn |>
  end.

Definition New (opts : list Option) : settings :=
  foldl apply_option (mkSettings false zeroConfig DefaultPollInterval None) opts.

(** ** The calls *)

Section Admin.
Context {C : Type} `{!Server C} (defaults : ScopeConfig).

Definition Capabilities : Z :=
  Z.lor (Z.lor (Z.lor (Z.lor (Z.lor CapList CapDurableEvents) CapDoorbell) CapCollect)
           CapDurableStorage) CapCrossProcess.

(** [Open]; [dialed] is the error of [pgxpool.New], if any. *)
Definition Open (dialed : option pgerror) (opts : list Option) : M C settings :=
  match dialed with
  | Some e => throw e
  | None => ensureMigrated ;; mret ((New opts) <| ownPool := true |>)
  end.

Definition Close : M C unit := modify (fun t => t <| g_closed := true |>).

Definition Scopes : M C (list string) :=
  ensureMigrated ;;
  t ← get;
  if g_closed t then throw (Domain (Err ErrClosed))
  else query (fun d => (map_to_list (d_scopes d)).*1).

Definition ScopeConfig_ (scope : string) : M C ScopeConfig :=
  ensureMigrated ;;
  sc ← loadScope scope;
  mret (match sc with None => defaults | Some sc => Cfg sc end).

(** An UPDATE of a scope's row. *)
Definition update_scope (scope : string) (f : scopeTuple -> scopeTuple) : M C unit :=
  autocommit (fun d => d <| d_scopes ::= alter f scope |>).

Definition SetScopeConfig (scope : string) (cfg : ScopeConfig) : M C unit :=
  ensureMigrated ;;
  ensureScope autocommit scope defaults ;;
  update_scope scope (fun row => row <| sr_cfg := configArgs cfg |>).

Definition Seal (scope : string) : M C unit :=
  ensureMigrated ;;
  ensureScope autocommit scope defaults ;;
  update_scope scope (fun row => row <| sr_sealed := true |>).

Definition ScopeStats_ (scope : string) : M C ScopeStats :=
  ensureMigrated ;;
  sc ← loadScope scope;
  mret (match sc with
        | None => zeroStats
        | Some sc => (Stats sc) <| st_Complete := Sealed sc && (NonTerminal (Stats sc) =? 0)%Z |>
        end).

Definition load_ext (scope i : string) : M C nodeRow :=
  o ← query (fun d => scanNode <$> find_ext scope i d);
  match o with Some n => mret n | None => throw (Domain (Err ErrNotFound)) end.

Definition GetNode (scope i : string) : M C Node :=
  ensureMigrated ;;
  n ← load_ext scope i;
  mret (snapshot n).

(** The external ids of some rows, in the order the server returns them. *)
Definition scanNodeIDs (sel : db -> list nodeRow) : M C (list string) :=
  ids ← query (fun d => n_ID <$> sel d);
  ids ← any_order ids;
  gets (fun d => omap (fun i => n_NodeID <$> d_nodes d !! i) ids).

Definition waiting_rows (scope : string) (i : Z) (d : db) : list nodeRow :=
  rows_where (fun p => bool_decide (n_Scope p = scope)
                       && bool_decide (d_edges d !! (scope, n_ID p, i) = Some false)) d.

Definition Inspect (scope i : string) : M C Inspection :=
  ensureMigrated ;;
  n ← load_ext scope i;
  waiting ← scanNodeIDs (waiting_rows scope (n_ID n));
  successors ← scanNodeIDs (succ_rows scope (n_ID n));
  mret (mkInspection (snapshot n) (n_Phase n) (n_Deps n) waiting successors (n_Rank n)
          (derefTime (n_Deadline n)) (heldBy (n_Phase n) (n_Worker n)) (n_Epoch n)
          (derefTime (n_ReadyAt n))).

(** One row more than the page, to learn whether another page exists. *)
Definition ListNodes `{!Collation} (scope : string) (opts : ListOptions) : M C ListResult :=
  ensureMigrated ;;
  let limit := Z.to_nat (if (lo_Limit opts <=? 0)%Z then 100 else lo_Limit opts) in
  rows ← query (fun d => take (S limit) (merge_sort name_le (rows_where (list_where scope opts) d)));
  let nodes := (fun r => snapshot (scanNode r)) <$> rows in
  if (limit <? length nodes)
  then mret (mkListResult (take limit nodes)
               (match nodes !! (limit - 1) with Some n => nd_ID n | None => ""%string end))
  else mret (mkListResult nodes "").

(** ** Collection *)

Definition findTerminalCandidates (scope : string) (cutoff : Z) (limit : nat)
  : M C (list terminalCandidate) :=
  query (fun d => (fun r => mkCandidate (n_ID r) (n_Phase r) (n_Status r)) <$>
    take limit (merge_sort id_le (rows_where (collectible scope cutoff d) d))).

(** The candidate becomes [nodeRow{ID, Phase, Status}]: every other field is
    its zero value, the epoch too. *)
Definition collect_one (scope : string) (c : terminalCandidate) : M C unit :=
  detach_preds scope (tc_id c) ;;
  deleteNodeRow scope
    (zeroRow <| n_ID := tc_id c |> <| n_Phase := tc_phase c |> <| n_Status := tc_status c |>).

Definition collect_body (scope : string) (cutoff : Z) (limit : nat) : M C (Z * bool) :=
  cands ← findTerminalCandidates scope cutoff limit;
  foldM (fun _ c => collect_one scope c) tt cands ;;
  more ← (if bool_decide (length cands = limit)
          then query (fun d => negb (bool_decide (rows_where (collectible scope cutoff d) d = [])))
          else mret false);
  mret (Z.of_nat (length cands), more).

Definition CollectTerminal (scope : string) (cutoff limit : Z) : M C (Z * bool) :=
  ensureMigrated ;;
  let limit := Z.to_nat (if (limit <=? 0)%Z then 100 else limit) in
  sc ← loadScope scope;
  match sc with
  | None => mret (0%Z, false)
  | Some _ => transact (collect_body scope cutoff limit)
  end.

(** ** Watching *)

Definition readEvents (scope : string) (from : Z) (limit : nat) : M C (list Event) :=
  query (fun d => scanEvent <$> take limit (merge_sort cursor_le
    (filter (fun e => ev_Scope e = scope /\ (from <= ev_Cursor e)%Z) (d_events d)))).

(** [Watch] up to the start of the pump: the first cursor it will ask for. *)
Definition watch_start (req : WatchRequest) : M C Z :=
  if bool_decide (wr_Scope req = ""%string) then throw (Domain (Err ErrUnsupported))
  else
    ensureMigrated ;;
    ensureScope autocommit (wr_Scope req) defaults ;;
    if (0 <? wr_From req)%Z then mret (i64 (widenI64 (wr_From req) + 1))
    else if wr_Replay req then mret 0%Z
    else
      query (fun d => i64 (foldr Z.max 0 (ev_Cursor <$> filter (fun e => ev_Scope e = wr_Scope req) (d_events d)) + 1))%Z.

(** One iteration of [pump] whose sends all succeed: the events delivered and
    the next cursor.  A read error delivers nothing and is retried. *)
Definition pump_step (scope : string) (next : Z) : M C (list Event * Z) := fun t =>
  match readEvents scope next eventBatchSize t with
  | (t, inr _) => (t, inl ([], next))
  | (t, inl batch) => (t, inl (batch, foldl (fun _ ev => i64 (widenI64 (ev_Cursor ev) + 1)) next batch))
  end.

Fixpoint pump (rounds : nat) (scope : string) (next : Z) (out : list Event) : M C (list Event * Z) :=
  match rounds with
  | O => mret (out, next)
  | S rounds =>
    '(batch, next) ← pump_step scope next;
    pump rounds scope next (out ++ batch)
  end.

Definition anyReady (scope : string) (kinds : list string) : M C bool :=
  query (fun d => negb (bool_decide (rows_where (claimable scope kinds) d = []))).

(** [WaitForWork]; [w] is the case its select takes when nothing is ready. *)
Definition WaitForWork (scope : string) (kinds : list string) (w : wake) : M C unit :=
  ensureMigrated ;;
  ensureScope autocommit scope defaults ;;
  ready ← anyReady scope kinds;
  if (ready : bool) then mret tt
  else match w with
       | Bell | PollElapsed => mret tt
       | CtxDone => throw ContextDone
       | StoreClosed => throw (Domain (Err ErrClosed))
       end.

End Admin.
