(* ===== verification/PgInv.v ===== *)
(** * Weakest preconditions for the PostgreSQL model

    [wp m Q d p]: started on the database [d] with the pending counters [p],
    the call [m] either answers with [Q] of the answer and of what it leaves,
    or fails with an error other than [Diverged]; either way it gives no value
    back to a sequence.  The server is arbitrary, so a statement may fail at
    any point, and what a failing call leaves is not described: the
    transaction around it rolls back. *)
From S2P Require Import Prelude Types Config Scope PgDb PgTopo PgEngine MapSum.

(** ** Sequences only advance *)

Definition qle (d d' : db) : Prop :=
  (q_id d <= q_id d' /\ q_rank d <= q_rank d' /\ q_fifo d <= q_fifo d' /\ q_cursor d <= q_cursor d')%Z.

#[export] Instance qle_refl : Reflexive qle.
Proof. intros d. unfold qle. lia. Qed.
#[export] Instance qle_trans : Transitive qle.
Proof. intros d1 d2 d3. unfold qle. lia. Qed.

(** A row written under its id. *)
Definition put (r : nodeRow) (d : db) : db := d <| d_nodes ::= <[n_ID r := r]> |>.

Arguments put _ _ : simpl never.

Create HintDb pg.
#[export] Hint Extern 1 (qle _ _) => (unfold qle, put; simpl; lia) : pg.
#[export] Hint Extern 1 (_ <> Diverged) => discriminate : pg.

Section Wp.
Context {C : Type} `{!Server C}.

(** Sequences only advance, and what the store has cached stays. *)
Definition frame (t t' : pgst C) : Prop := qle (g_db t) (g_db t') /\ g_migrated t' = g_migrated t.

Lemma frame_trans t1 t2 t3 : frame t1 t2 -> frame t2 t3 -> frame t1 t3.
Proof. intros [Q1 M1] [Q2 M2]. split; [by etrans|congruence]. Qed.

Definition wp {A : Type} (m : M C A) (Q : A -> db -> gmap string Z -> Prop) (d : db)
    (p : gmap string Z) : Prop :=
  forall t, g_db t = d -> g_stats t = p ->
  match m t with
  | (t', inl a) => frame t t' /\ Q a (g_db t') (g_stats t')
  | (t', inr e) => frame t t' /\ e <> Diverged
  end.

End Wp.

Section Rules.
Context {C : Type} `{!Server C} {A B : Type}.
Implicit Types (Q : A -> db -> gmap string Z -> Prop).

Lemma wp_mono (m : M C A) Q Q' d p :
  wp m Q d p -> (forall a d' p', qle d d' -> Q a d' p' -> Q' a d' p') -> wp m Q' d p.
Proof.
  intros Hm HQ t Hd Hp. specialize (Hm t Hd Hp). destruct (m t) as [t' [a|e]]; [|done].
  destruct Hm as [[]]. subst d. split; [by split|auto].
Qed.

Lemma wp_ret (a : A) Q d p : Q a d p -> wp (mret a : M C A) Q d p.
Proof. intros HQ t <- <-. by repeat split. Qed.

Lemma wp_bind (m : M C B) (k : B -> M C A) Q d p :
  wp m (fun b => wp (k b) Q) d p -> wp (m ≫= k) Q d p.
Proof.
  intros Hm t Hd Hp. specialize (Hm t Hd Hp). unfold mbind, M_bind.
  destruct (m t) as [t' [b|e]]; [|done]. destruct Hm as [Hq Hk]. specialize (Hk t' eq_refl eq_refl).
  destruct (k b t') as [t'' [a|e]]; destruct Hk; split; try done; by eapply frame_trans.
Qed.

Lemma wp_throw (e : pgerror) Q d p : e <> Diverged -> wp (throw e : M C A) Q d p.
Proof. intros He t <- <-. by repeat split. Qed.

Lemma wp_must (o : option A) Q d p : (forall a, o = Some a -> Q a d p) -> wp (must o : M C A) Q d p.
Proof. destruct o; intros H; [by apply wp_ret, H|by apply wp_throw]. Qed.

Lemma wp_gets (f : db -> A) Q d p : Q (f d) d p -> wp (gets f : M C A) Q d p.
Proof. intros HQ t <- <-. by repeat split. Qed.

Lemma wp_get (k : pgst C -> M C A) Q d p :
  (forall t, g_db t = d -> g_stats t = p -> wp (k t) Q d p) -> wp (get ≫= k) Q d p.
Proof. intros H t Hd Hp. apply (H t); done. Qed.

Lemma wp_modify (f : pgst C -> pgst C) (Q : unit -> db -> gmap string Z -> Prop) d p :
  (forall t, g_db t = d -> g_stats t = p -> frame t (f t) /\ Q tt (g_db (f t)) (g_stats (f t))) ->
  wp (modify f) Q d p.
Proof. intros H t Hd Hp. by apply H. Qed.

Lemma wp_modify_db (f : db -> db) (Q : unit -> db -> gmap string Z -> Prop) d p :
  qle d (f d) -> Q tt (f d) p -> wp (modify_db f : M C unit) Q d p.
Proof. intros Hq HQ. apply wp_modify. by intros t <- <-. Qed.

Lemma wp_stmt (Q : unit -> db -> gmap string Z -> Prop) d p : Q tt d p -> wp (stmt : M C unit) Q d p.
Proof.
  intros HQ t <- <-. unfold stmt. destruct (srv_fault (g_c t)) as [[code|] c]; by repeat split.
Qed.

End Rules.

Section Statements.
Context {C : Type} `{!Server C}.

Lemma wp_query {A : Type} (f : db -> A) (Q : A -> db -> gmap string Z -> Prop) d p : Q (f d) d p -> wp (query f : M C A) Q d p.
Proof. intros. unfold query. by apply wp_bind, wp_stmt, wp_gets. Qed.

Lemma wp_exec (f : db -> db) (Q : unit -> db -> gmap string Z -> Prop) d p :
  qle d (f d) -> Q tt (f d) p -> wp (exec f : M C unit) Q d p.
Proof. intros. unfold exec. by apply wp_bind, wp_stmt, wp_modify_db. Qed.

Lemma wp_clock (Q : Z -> db -> gmap string Z -> Prop) d p : (forall now, Q now d p) -> wp (clock_timestamp : M C Z) Q d p.
Proof. intros HQ t <- <-. unfold clock_timestamp. destruct (clk_Now (g_c t)). by repeat split. Qed.

Lemma wp_any_order l (Q : list Z -> db -> gmap string Z -> Prop) d p :
  (forall l', l' ≡ₚ l -> Q l' d p) -> wp (any_order l : M C (list Z)) Q d p.
Proof.
  intros HQ t <- <-. unfold any_order. pose proof (srv_order_perm l (g_c t)).
  destruct (srv_order l (g_c t)). split; [by split|]. by apply HQ.
Qed.

Lemma wp_foldM {A E : Type} (f : A -> E -> M C A) (I : list E -> A -> db -> gmap string Z -> Prop) l a d p :
  I l a d p ->
  (forall x l a d p, I (x :: l) a d p -> wp (f a x) (fun a d' p' => I l a d' p') d p) ->
  wp (foldM f a l) (fun a d' p' => I [] a d' p') d p.
Proof.
  intros HI Hf. revert a d p HI. induction l as [|x l IH]; intros a d p HI; [by apply wp_ret|].
  apply wp_bind. eapply wp_mono; [apply Hf, HI|]. auto.
Qed.

Lemma wp_mapM {A E : Type} (f : E -> M C A) (I : list E -> list A -> db -> gmap string Z -> Prop) l d p :
  I l [] d p ->
  (forall x l out d p, I (x :: l) out d p -> wp (f x) (fun a d' p' => I l (out ++ [a]) d' p') d p) ->
  wp (mapM f l) (fun out d' p' => I [] out d' p') d p.
Proof.
  intros HI Hf.
  enough (forall out d p, I l out d p ->
    wp (mapM f l) (fun out' d' p' => I [] (out ++ out') d' p') d p) as H by (by apply (H [])).
  clear HI d p. induction l as [|x l IH]; intros out d p HI; simpl.
  - apply wp_ret. by rewrite app_nil_r.
  - apply wp_bind. eapply wp_mono; [apply Hf, HI|]. intros a d' p' _ HI'. apply wp_bind.
    eapply wp_mono; [apply IH, HI'|]. intros out' d'' p'' _ H''. apply wp_ret.
    cbn beta in *. by rewrite <- app_assoc in H''.
Qed.

(** ** Rows *)


Lemma wp_put_row r (Q : unit -> db -> gmap string Z -> Prop) d p :
  (row_check r = None -> Q tt (put r d) p) -> wp (put_row r : M C unit) Q d p.
Proof.
  intros HQ. unfold put_row. destruct (row_check r); [by apply wp_throw|].
  apply wp_modify_db; [auto with pg|by apply HQ].
Qed.

Lemma wp_write_row i f (Q : option nodeRow -> db -> gmap string Z -> Prop) d p :
  (d_nodes d !! i = None -> Q None d p) ->
  (forall r, d_nodes d !! i = Some r -> row_check (f r) = None -> Q (Some (f r)) (put (f r) d) p) ->
  wp (write_row i f : M C _) Q d p.
Proof.
  intros HN HS. unfold write_row. apply wp_bind, wp_gets. destruct (d_nodes d !! i) as [r|]; [|by apply wp_ret, HN].
  apply wp_bind, wp_put_row. intros Hc. by apply wp_ret, HS.
Qed.

Lemma wp_update_returning i f (Q : nodeRow -> db -> gmap string Z -> Prop) d p :
  (forall r, d_nodes d !! i = Some r -> row_check (f r) = None -> Q (f r) (put (f r) d) p) ->
  wp (update_returning i f : M C _) Q d p.
Proof.
  intros HQ. unfold update_returning, update_row. apply wp_bind, wp_bind, wp_stmt, wp_write_row.
  - intros _. by apply wp_throw.
  - intros r Hr Hc. apply wp_ret. auto.
Qed.

Lemma wp_update_exec i f (Q : unit -> db -> gmap string Z -> Prop) d p :
  (d_nodes d !! i = None -> Q tt d p) ->
  (forall r, d_nodes d !! i = Some r -> row_check (f r) = None -> Q tt (put (f r) d) p) ->
  wp (update_exec i f : M C _) Q d p.
Proof. intros HN HS. unfold update_exec, update_row. apply wp_bind, wp_bind, wp_stmt, wp_write_row; intros; apply wp_ret; auto. Qed.

End Statements.

(** Apply the rule of the next step; what stays is the obligation of that step. *)
Ltac wp_step :=
  lazymatch goal with
  | |- wp (get ≫= _) _ _ _ => apply wp_get; intros ? ? ?
  | |- wp (_ ≫= _) _ _ _ => apply wp_bind
  | |- wp (mret _) _ _ _ => apply wp_ret
  | |- wp (throw _) _ _ _ => apply wp_throw; discriminate
  | |- wp stmt _ _ _ => apply wp_stmt
  | |- wp (gets _) _ _ _ => apply wp_gets
  | |- wp (query _) _ _ _ => apply wp_query
  | |- wp clock_timestamp _ _ _ => apply wp_clock; intros ?
  | |- wp (any_order _) _ _ _ => apply wp_any_order; intros ? ?
  | |- wp (must _) _ _ _ => apply wp_must; intros ? ?
  end.

Ltac wp_steps := repeat wp_step.

(** * The invariant of the PostgreSQL tables

    [graph_inv]: rows sit under their id, [(scope, node_id)] is a key, every
    edge joins two rows of its scope in increasing rank, the tally of a row
    counts the edges into it by what became of their source, and every row is
    within its column types.  [unsat_live]: an unsatisfied edge has a source
    that is not done.  [stat_inv]: the counters of a scope, with the pending
    deltas of the engine, are the numbers of its rows.  The lemmas say which
    writes keep them. *)

(** ** Definitions *)

Definition done (r : nodeRow) : bool := bool_decide (n_Phase r = PhaseDone).

Definition edge_class (ns : gmap Z nodeRow) (a : Z) (sat : bool) : DepClass :=
  match ns !! a with
  | Some r => class_of sat (n_Status r) (n_Reason r)
  | None => DUnsat
  end.

(** 1 for an edge into [b] of class [c]. *)
Definition into (ns : gmap Z nodeRow) (b : Z) (c : DepClass) (k : string * Z * Z) (sat : bool) : Z :=
  Z.b2z (bool_decide (k.2 = b) && bool_decide (edge_class ns k.1.2 sat = c)).

Definition edge_count (d : db) (b : Z) (c : DepClass) : Z := msum (into (d_nodes d) b c) (d_edges d).

(** The public status agrees with the phase. *)
Definition coherent (r : nodeRow) : bool :=
  match n_Phase r with
  | PhaseBlocked | PhaseScheduled | PhaseReady => bool_decide (n_Status r = StatusNew)
  | PhaseClaimed => bool_decide (n_Status r = StatusInProgress)
  | PhaseDone => Status_Terminal (n_Status r)
  end.

(** What a row carries by itself: the schema's checks, a status that agrees
    with the phase, and counters that are not negative. *)
Record row_inv (r : nodeRow) : Prop := {
  ri_check : row_check r = None;
  ri_coherent : coherent r = true;
  ri_epoch : (0 <= n_Epoch r)%Z;
  ri_attempt : (0 <= n_Attempt r)%Z
}.

Record graph_inv (d : db) : Prop := {
  gi_id : forall i r, d_nodes d !! i = Some r -> n_ID r = i /\ (i < q_id d)%Z;
  gi_ext : forall i j r r', d_nodes d !! i = Some r -> d_nodes d !! j = Some r' ->
    n_Scope r = n_Scope r' -> n_NodeID r = n_NodeID r' -> i = j;
  gi_row : forall i r, d_nodes d !! i = Some r -> row_inv r;
  gi_edge : forall s a b sat, d_edges d !! (s, a, b) = Some sat ->
    exists ra rb, d_nodes d !! a = Some ra /\ d_nodes d !! b = Some rb /\ n_Scope ra = s /\ n_Scope rb = s /\
      (n_Rank ra < n_Rank rb)%Z /\ (sat = true -> done ra = true);
  gi_deps : forall b rb c, d_nodes d !! b = Some rb -> dep_field c (n_Deps rb) = edge_count d b c;
  gi_rank : forall i r, d_nodes d !! i = Some r -> (n_Rank r < q_rank d)%Z;
  gi_rank_inj : forall i j r r', d_nodes d !! i = Some r -> d_nodes d !! j = Some r' ->
    n_Rank r = n_Rank r' -> i = j
}.

Definition unsat_live (skip : option Z) (d : db) : Prop :=
  forall s a b ra, d_edges d !! (s, a, b) = Some false -> d_nodes d !! a = Some ra ->
  done ra = true -> skip = Some a.

(** Whether a row counts for a column of [dagw.scopes]. *)
Definition in_col (col : string) (r : nodeRow) : bool :=
  bool_decide (col = "stat_total"%string) || bool_decide (bucketColumn (n_Phase r) (n_Status r) = col).

Definition counted (s col : string) (_ : Z) (r : nodeRow) : Z :=
  Z.b2z (bool_decide (n_Scope r = s) && in_col col r).

Definition node_count (d : db) (s col : string) : Z := msum (counted s col) (d_nodes d).

(** The stored counters of a scope exceed the numbers of its rows by [off],
    once the deltas [p] pending for the scope [sc] are added: [off] is 0 as long
    as nothing was collected. *)
Definition stat_inv (off : string -> string -> Z) (sc : string) (p : gmap string Z) (d : db) : Prop :=
  forall s row col, d_scopes d !! s = Some row ->
  (stat_of (sr_stats row) col + (if bool_decide (s = sc) then stat_of p col else 0) = node_count d s col + off s col)%Z.

(** Every row belongs to a scope that has a row, whose epoch floor is not
    negative. *)
Record scope_inv (d : db) : Prop := {
  si_row : forall i r, d_nodes d !! i = Some r -> exists row, d_scopes d !! n_Scope r = Some row;
  si_floor : forall s row, d_scopes d !! s = Some row -> (0 <= sr_epoch_floor row)%Z
}.

(** The log is in cursor order, below the next cursor. *)
Record log_inv (d : db) : Prop := {
  li_sorted : StronglySorted (fun a b => (ev_Cursor a < ev_Cursor b)%Z) (d_events d);
  li_below : forall e, e ∈ d_events d -> (0 <= ev_Cursor e < q_cursor d)%Z /\ (ev_Cursor e <= max_i64)%Z;
  li_q : (0 <= q_cursor d)%Z
}.

Record pg_inv (off : string -> string -> Z) (skip : option Z) (sc : string) (p : gmap string Z) (d : db) : Prop := {
  pi_graph : graph_inv d;
  pi_unsat : unsat_live skip d;
  pi_stat : stat_inv off sc p d;
  pi_scope : scope_inv d;
  pi_log : log_inv d
}.

Arguments pi_graph {off skip sc p d} _.
Arguments pi_unsat {off skip sc p d} _.
Arguments pi_stat {off skip sc p d} _.
Arguments pi_scope {off skip sc p d} _.
Arguments pi_log {off skip sc p d} _.

(** ** Small facts *)

Lemma stat_of_bump col c d m :
  stat_of (bump_stat c d m) col = (stat_of m col + (if bool_decide (col = c) then d else 0))%Z.
Proof.
  unfold bump_stat, stat_of at 1. case_bool_decide as E.
  - subst. by rewrite lookup_insert_eq.
  - rewrite lookup_insert_ne by done. unfold stat_of. lia.
Qed.

Lemma stat_of_empty col : stat_of ∅ col = 0%Z.
Proof. done. Qed.

Lemma stat_of_add deltas m col :
  stat_of (add_stats deltas m) col = (stat_of m col + stat_of deltas col)%Z.
Proof.
  unfold add_stats. induction deltas as [|c d deltas Hc IH] using map_ind.
  - rewrite map_fold_empty, stat_of_empty. lia.
  - rewrite map_fold_insert_L; [|..|done].
    + assert (stat_of (<[c := d]> deltas) col = stat_of deltas col + if bool_decide (col = c) then d else 0)%Z as ->.
      { unfold stat_of. case_bool_decide as E; [subst; by rewrite lookup_insert_eq, Hc|].
        rewrite lookup_insert_ne by done. lia. }
      destruct (Z.eqb_spec d 0) as [->|_]; [rewrite IH; by case_bool_decide; lia|].
      rewrite stat_of_bump, IH. lia.
    + intros j1 j2 z1 z2 y Hne _ _. repeat case_match; try done. unfold bump_stat.
      assert (stat_of (<[j2:=(stat_of y j2 + z2)%Z]> y) j1 = stat_of y j1) as ->
        by (unfold stat_of; by rewrite lookup_insert_ne).
      assert (stat_of (<[j1:=(stat_of y j1 + z1)%Z]> y) j2 = stat_of y j2) as ->
        by (unfold stat_of; by rewrite lookup_insert_ne).
      by apply insert_insert_ne.
Qed.

Lemma bucket_not_total ph st : bucketColumn ph st <> "stat_total"%string.
Proof. destruct ph; simpl; try done. by case_bool_decide. Qed.

Lemma lookup_put r d i : d_nodes (put r d) !! i = if decide (i = n_ID r) then Some r else d_nodes d !! i.
Proof.
  unfold put. simpl. case_decide as E; [subst; by rewrite lookup_insert_eq|by rewrite lookup_insert_ne].
Qed.

Lemma row_check_int4 r c : row_check r = None -> (- 2 ^ 31 <= dep_field c (n_Deps r) <= max_i32)%Z.
Proof.
  unfold row_check, in_range, int4, min_i32. intros H. destruct (negb _) eqn:E in H; [done|].
  apply negb_false_iff in E. repeat (apply andb_true_iff in E as [E ?]).
  repeat match goal with H : (_ && _) = true |- _ => apply andb_true_iff in H as [? ?] end.
  destruct c; simpl; lia.
Qed.

Lemma edge_count_nonneg d b c : (0 <= edge_count d b c)%Z.
Proof. apply msum_nonneg. intros. unfold into. by destruct (_ && _). Qed.

(** ** Tallies *)

Lemma dep_col_field st rs z t c :
  dep_field c (dep_col st rs z t) =
  (dep_field c t + if bool_decide (class_of true st rs = c) then z else 0)%Z.
Proof. unfold dep_col, class_of. simpl. repeat case_bool_decide; destruct c; simpl in *; try done; lia. Qed.

Lemma dep_delta_field st rs t c :
  (1 <= Unsatisfied t)%Z ->
  dep_field c (dep_delta st rs t) =
  (dep_field c t - Z.b2z (bool_decide (DUnsat = c)) + Z.b2z (bool_decide (class_of true st rs = c)))%Z.
Proof.
  intros H. unfold dep_delta. rewrite dep_col_field.
  assert (dep_field c (t <| Unsatisfied ::= fun n => Z.max (n - 1) 0 |>) =
          dep_field c t - Z.b2z (bool_decide (DUnsat = c)))%Z as -> by (destruct c; simpl; lia).
  by case_bool_decide.
Qed.

Lemma dep_undo_field sat st rs t c :
  (1 <= dep_field (class_of sat st rs) t)%Z ->
  dep_field c (dep_undo sat st rs t) = (dep_field c t - Z.b2z (bool_decide (class_of sat st rs = c)))%Z.
Proof.
  unfold dep_undo, class_of. destruct sat; simpl; repeat case_bool_decide; intros; destruct c; simpl in *; try done; lia.
Qed.

Lemma dep_link_field sat st rs t c :
  (forall c, 0 <= dep_field c t <= max_i32)%Z ->
  dep_field c (dep_link sat st rs t) = (dep_field c t + Z.b2z (bool_decide (class_of sat st rs = c)))%Z.
Proof.
  intros Hb. unfold dep_link, class_of. unfold max_i32 in Hb.
  pose proof (Hb DUnsat). pose proof (Hb DSucc). pose proof (Hb DSkip). pose proof (Hb DFail). simpl in *.
  destruct sat; simpl; repeat case_bool_decide; destruct c; simpl in *; try done; rewrite ?u32_small; lia.
Qed.

(** * Which writes keep the invariant of the tables *)

(** ** Writing one row *)

(** The row keeps its keys, and once done its outcome. *)
Record keeps (r r' : nodeRow) : Prop := {
  kp_id : n_ID r' = n_ID r;
  kp_scope : n_Scope r' = n_Scope r;
  kp_nid : n_NodeID r' = n_NodeID r;
  kp_rank : n_Rank r' = n_Rank r;
  kp_epoch : (n_Epoch r <= n_Epoch r')%Z;
  kp_done : done r = true -> done r' = true /\ n_Status r' = n_Status r /\ n_Reason r' = n_Reason r
}.

#[export] Instance keeps_refl : Reflexive keeps.
Proof. by intros r; split. Qed.

#[export] Hint Extern 1 (keeps ?r ?r) => reflexivity : pg.

#[export] Instance keeps_trans : Transitive keeps.
Proof.
  intros a b c [? ? ? ? ? H] [? ? ? ? ? H']. split; try congruence; [lia|]. intros Ha. destruct (H Ha) as (Hb & ? & ?).
  destruct (H' Hb) as (? & ? & ?). split_and!; congruence.
Qed.

(** The keys of the rows come from the old table: what is left of the
    invariant is what the rows carry, the edges and the tallies. *)
Lemma graph_keep d d' :
  graph_inv d -> qle d d' ->
  (forall i x, d_nodes d' !! i = Some x -> exists y, d_nodes d !! i = Some y /\ keeps y x) ->
  (forall i x, d_nodes d' !! i = Some x -> row_inv x) ->
  (forall s a b sat, d_edges d' !! (s, a, b) = Some sat -> exists ra rb, d_nodes d' !! a = Some ra /\
    d_nodes d' !! b = Some rb /\ n_Scope ra = s /\ n_Scope rb = s /\ (n_Rank ra < n_Rank rb)%Z /\
    (sat = true -> done ra = true)) ->
  (forall b rb c, d_nodes d' !! b = Some rb -> dep_field c (n_Deps rb) = edge_count d' b c) ->
  graph_inv d'.
Proof.
  intros Hg Hq Hback Hrow Hedge Hdeps. destruct Hq as (? & ? & _ & _). split; [..|done|done|done| |].
  - intros i x (y & Hy & Kx)%Hback. rewrite (kp_id _ _ Kx). destruct (gi_id d Hg i y Hy). split; [done|lia].
  - intros i j x x' (y & Hy & Kx)%Hback (y' & Hy' & Kx')%Hback.
    rewrite (kp_scope _ _ Kx), (kp_scope _ _ Kx'), (kp_nid _ _ Kx), (kp_nid _ _ Kx').
    by apply (gi_ext d Hg).
  - intros i x (y & Hy & Kx)%Hback. rewrite (kp_rank _ _ Kx). pose proof (gi_rank d Hg i y Hy). lia.
  - intros i j x x' (y & Hy & Kx)%Hback (y' & Hy' & Kx')%Hback.
    rewrite (kp_rank _ _ Kx), (kp_rank _ _ Kx'). by apply (gi_rank_inj d Hg).
Qed.

(** An edge of the old table, between rows that keep their keys. *)
Lemma edge_keep d d' s a b sat :
  graph_inv d -> d_edges d !! (s, a, b) = Some sat ->
  (forall i y, d_nodes d !! i = Some y -> exists x, d_nodes d' !! i = Some x /\ keeps y x) ->
  exists ra rb, d_nodes d' !! a = Some ra /\ d_nodes d' !! b = Some rb /\ n_Scope ra = s /\ n_Scope rb = s /\
    (n_Rank ra < n_Rank rb)%Z /\ (sat = true -> done ra = true).
Proof.
  intros Hg He Hforth. destruct (gi_edge d Hg s a b sat He) as (ra & rb & Ha & Hb & ? & ? & ? & Hs).
  destruct (Hforth a ra Ha) as (x & Hx & Kx), (Hforth b rb Hb) as (y & Hy & Ky).
  exists x, y. rewrite (kp_scope _ _ Kx), (kp_scope _ _ Ky), (kp_rank _ _ Kx), (kp_rank _ _ Ky).
  split_and!; try done. intros ->. by apply (kp_done _ _ Kx), Hs.
Qed.

(** Counting is by the classes of the edges. *)
Lemma into_ext (ns ns' : gmap Z nodeRow) (es : gmap (string * Z * Z) bool) b c :
  (forall s a b sat, es !! (s, a, b) = Some sat -> edge_class ns a sat = edge_class ns' a sat) ->
  msum (into ns b c) es = msum (into ns' b c) es.
Proof. intros H. apply msum_ext. intros [[s a] b'] sat He. unfold into. cbn [fst snd]. by rewrite (H s a b' sat He). Qed.

Section Put.
Context (d : db) (r r' : nodeRow) (Hg : graph_inv d).
Context (Hr : d_nodes d !! n_ID r' = Some r) (Hk : keeps r r').

Lemma put_lookup i : d_nodes (put r' d) !! i = if decide (i = n_ID r') then Some r' else d_nodes d !! i.
Proof. apply lookup_put. Qed.

(** A row of the new table is a row of the old one, with the same keys. *)
Lemma put_back i x : d_nodes (put r' d) !! i = Some x -> exists y, d_nodes d !! i = Some y /\ keeps y x.
Proof.
  rewrite put_lookup. case_decide as E; intros Hx; simplify_eq; [by exists r|by exists x].
Qed.

Lemma put_forth i y : d_nodes d !! i = Some y -> exists x, d_nodes (put r' d) !! i = Some x /\ keeps y x.
Proof.
  intros Hy. rewrite put_lookup. case_decide as E; [|by exists y].
  subst. exists r'. split; [done|]. by replace y with r by congruence.
Qed.

(** The class of an edge does not change: a satisfied edge has a source that
    is done, and its outcome is kept. *)
Lemma put_class s a b sat :
  d_edges d !! (s, a, b) = Some sat -> edge_class (d_nodes (put r' d)) a sat = edge_class (d_nodes d) a sat.
Proof.
  intros He. destruct (gi_edge d Hg s a b sat He) as (ra & rb & Ha & _ & _ & _ & _ & Hsat).
  destruct (put_forth a ra Ha) as (x & Hx & Kx). unfold edge_class. rewrite Ha, Hx.
  destruct sat; [|done]. destruct (kp_done _ _ Kx (Hsat eq_refl)) as (_ & -> & ->). done.
Qed.

Lemma put_edge_count b c : edge_count (put r' d) b c = edge_count d b c.
Proof.
  apply (into_ext (d_nodes (put r' d)) (d_nodes d)). intros. by eapply put_class.
Qed.

Lemma put_graph : n_Deps r' = n_Deps r -> row_inv r' -> graph_inv (put r' d).
Proof.
  intros Hdeps Hi. apply (graph_keep d); [done|auto with pg|apply put_back|..].
  - intros i x. rewrite put_lookup. case_decide; intros; simplify_eq; [done|by eapply (gi_row d Hg)].
  - intros s a b sat He. apply (edge_keep d); [done|done|apply put_forth].
  - intros b x c. rewrite put_edge_count, put_lookup. case_decide as E; intros; simplify_eq.
    + rewrite Hdeps. by apply (gi_deps d Hg).
    + by apply (gi_deps d Hg).
Qed.

Lemma put_unsat skip :
  unsat_live skip d -> (done r' = true -> done r = true \/ skip = Some (n_ID r')) -> unsat_live skip (put r' d).
Proof.
  intros Hu Hd s a b ra He. rewrite put_lookup. case_decide as E; intros Ha Hda; simplify_eq.
  - destruct (Hd Hda) as [Hdr|]; [by eapply (Hu s _ b r)|done].
  - by eapply Hu.
Qed.

Lemma put_count s col :
  node_count (put r' d) s col = (node_count d s col - counted s col 0 r + counted s col 0 r')%Z.
Proof. unfold node_count, put. simpl. by rewrite (msum_update _ _ _ r). Qed.

Lemma put_scope_inv : scope_inv d -> scope_inv (put r' d).
Proof.
  intros [H1 H2]. split; [|done]. intros i x (y & Hy & Kx)%put_back. rewrite (kp_scope _ _ Kx).
  by apply (H1 i y).
Qed.

End Put.

(** A write that moves no counter. *)
Lemma put_stat_same {off} sc p d r r' :
  d_nodes d !! n_ID r' = Some r -> n_Scope r' = n_Scope r ->
  bucketColumn (n_Phase r') (n_Status r') = bucketColumn (n_Phase r) (n_Status r) ->
  stat_inv off sc p d -> stat_inv off sc p (put r' d).
Proof.
  intros Hr Hs Hb Hst s row col Hrow. rewrite (put_count d r r' Hr). specialize (Hst s row col Hrow).
  unfold counted, in_col. rewrite Hs, Hb. change (d_scopes (put r' d)) with (d_scopes d) in *. lia.
Qed.

(** The pending deltas after [moveBucket]. *)
Definition move_stats (old new : string) (p : gmap string Z) : gmap string Z :=
  if bool_decide (old = new) then p else bump_stat new 1 (bump_stat old (-1) p).

Lemma stat_of_move old new p col :
  stat_of (move_stats old new p) col =
  (stat_of p col - Z.b2z (bool_decide (old = col)) + Z.b2z (bool_decide (new = col)))%Z.
Proof.
  unfold move_stats. case_bool_decide as E; [subst; lia|].
  rewrite !stat_of_bump. repeat case_bool_decide; simpl; subst; try done; lia.
Qed.

Lemma put_stat_move {off} sc p d r r' :
  d_nodes d !! n_ID r' = Some r -> n_Scope r' = n_Scope r -> n_Scope r = sc ->
  stat_inv off sc p d ->
  stat_inv off sc (move_stats (bucketColumn (n_Phase r) (n_Status r)) (bucketColumn (n_Phase r') (n_Status r')) p)
    (put r' d).
Proof.
  intros Hr Hs Hsc Hst s row col Hrow. rewrite (put_count d r r' Hr). specialize (Hst s row col Hrow).
  unfold counted, in_col. rewrite Hs, Hsc. rewrite stat_of_move.
  pose proof (bucket_not_total (n_Phase r) (n_Status r)). pose proof (bucket_not_total (n_Phase r') (n_Status r')).
  repeat case_bool_decide; subst; simpl; try done; lia.
Qed.

(** ** One row and one edge *)

(** [set_edge k v d]: an edge inserted or changed. *)
Definition set_edge (k : string * Z * Z) (sat : bool) (d : db) : db := d <| d_edges ::= <[k := sat]> |>.

Arguments set_edge _ _ _ : simpl never.

Lemma into_at ns s a b b' c ra sat :
  ns !! a = Some ra ->
  into ns b' c (s, a, b) sat =
  if bool_decide (b = b') then Z.b2z (bool_decide (class_of sat (n_Status ra) (n_Reason ra) = c)) else 0%Z.
Proof. intros Ha. unfold into, edge_class. simpl. rewrite Ha. by case_bool_decide. Qed.

(** The tallies follow an edge turned satisfied. *)
Lemma flip_count d s a b ra b' c :
  graph_inv d -> d_edges d !! (s, a, b) = Some false -> d_nodes d !! a = Some ra ->
  edge_count (set_edge (s, a, b) true d) b' c =
  (edge_count d b' c + (if bool_decide (b = b') then
     Z.b2z (bool_decide (class_of true (n_Status ra) (n_Reason ra) = c)) - Z.b2z (bool_decide (DUnsat = c)) else 0))%Z.
Proof.
  intros Hg He Ha. unfold edge_count, set_edge. simpl. rewrite (msum_update _ _ _ false) by done.
  rewrite !(into_at _ _ _ _ _ _ ra) by done. change (class_of false _ _) with DUnsat. case_bool_decide; lia.
Qed.

(** An edge is counted in the tally of its target. *)
Lemma tally_pos d s a b ra rb sat :
  graph_inv d -> d_edges d !! (s, a, b) = Some sat -> d_nodes d !! a = Some ra -> d_nodes d !! b = Some rb ->
  (1 <= dep_field (class_of sat (n_Status ra) (n_Reason ra)) (n_Deps rb))%Z.
Proof.
  intros Hg He Ha Hb. rewrite (gi_deps d Hg b rb _ Hb). unfold edge_count.
  etrans; [|eapply (msum_ge _ _ (s, a, b) sat); [|done]].
  - rewrite (into_at _ _ _ _ _ _ ra) by done. by rewrite !bool_decide_eq_true_2.
  - intros. unfold into. by destruct (_ && _).
Qed.

Section Flip.
Context (d : db) (s : string) (a b : Z) (ra rb : nodeRow) (Hg : graph_inv d).
Context (He : d_edges d !! (s, a, b) = Some false).
Context (Ha : d_nodes d !! a = Some ra) (Hda : done ra = true) (Hb : d_nodes d !! b = Some rb).

Let rb' := rb <| n_Deps ::= dep_delta (n_Status ra) (n_Reason ra) |>.
Let d1 := put rb' d.

Lemma flip_keeps : keeps rb rb'.
Proof. by split. Qed.

Lemma flip_at : d_nodes d !! n_ID rb' = Some rb.
Proof. simpl. by rewrite (proj1 (gi_id d Hg b rb Hb)). Qed.

(** The source of the edge is a row of rank below [rb], so another row. *)
Lemma flip_ne : a <> b.
Proof.
  intros ->. destruct (gi_edge d Hg s b b false He) as (x & y & Hx & Hy & _ & _ & Hlt & _).
  rewrite Hx in Hy. simplify_eq. lia.
Qed.

Lemma flip_graph : row_check rb' = None -> graph_inv (set_edge (s, a, b) true d1).
Proof.
  intros Hc. assert (Hrow : row_inv rb') by (destruct (gi_row d Hg b rb Hb); by split).
  assert (Hid := proj1 (gi_id d Hg b rb Hb)).
  apply (graph_keep d); [done|unfold set_edge; auto with pg|apply (put_back d rb rb' flip_at flip_keeps)|..].
  - intros i x. change (d_nodes (set_edge (s, a, b) true d1)) with (d_nodes (put rb' d)). rewrite lookup_put.
    case_decide; intros; simplify_eq; [done|by eapply (gi_row d Hg)].
  - intros s' a' b' sat He'. unfold set_edge in He'. simpl in He'.
    destruct (decide ((s', a', b') = (s, a, b))) as [E|E].
    + injection E as -> -> ->.
      destruct (edge_keep d (put rb' d) s a b false) as (x & y & Hx & ? & ? & ? & ? & _);
        [done..|apply (put_forth d rb rb' flip_at flip_keeps)|].
      exists x, y. split_and!; try done. intros _.
      rewrite lookup_put, decide_False in Hx by (simpl; rewrite Hid; apply flip_ne). congruence.
    + rewrite lookup_insert_ne in He' by done.
      apply (edge_keep d); [done|done|apply (put_forth d rb rb' flip_at flip_keeps)].
  - intros i x c Hx. assert (Hg1 : d_nodes d1 !! a = Some ra).
    { unfold d1. rewrite lookup_put, decide_False; [done|]. simpl. rewrite Hid. apply flip_ne. }
    assert (Hcount : edge_count (set_edge (s, a, b) true d1) i c = edge_count (set_edge (s, a, b) true d) i c).
    { apply (into_ext (d_nodes d1) (d_nodes d)). intros s' a' b' sat He'.
      destruct (decide ((s', a', b') = (s, a, b))) as [E|E].
      - injection E as -> -> ->. unfold edge_class. by rewrite Ha, Hg1.
      - unfold set_edge in He'. simpl in He'. rewrite lookup_insert_ne in He' by done.
        by apply (put_class d rb rb' Hg flip_at flip_keeps s' a' b'). }
    rewrite Hcount, (flip_count d s a b ra i c Hg He Ha).
    change (d_nodes (set_edge (s, a, b) true d1)) with (d_nodes (put rb' d)) in Hx. rewrite lookup_put in Hx.
    change (n_ID rb') with (n_ID rb) in Hx. rewrite Hid in Hx. case_decide as E.
    + subst i. injection Hx as <-. rewrite bool_decide_eq_true_2 by done.
      cbn [n_Deps]. change (n_Deps rb') with (dep_delta (n_Status ra) (n_Reason ra) (n_Deps rb)).
      rewrite dep_delta_field; [rewrite (gi_deps d Hg b rb c Hb); lia|].
      apply (tally_pos d s a b ra rb false Hg He Ha Hb).
    + rewrite bool_decide_eq_false_2 by congruence. rewrite (gi_deps d Hg i x c) by done. lia.
Qed.

End Flip.

(** ** Selecting rows *)

Lemma elem_rows d r : r ∈ rows d <-> exists i, d_nodes d !! i = Some r.
Proof.
  unfold rows. rewrite list_elem_of_fmap. split.
  - intros ([i r'] & -> & Hr%elem_of_map_to_list). eauto.
  - intros [i Hi]. exists (i, r). by rewrite elem_of_map_to_list.
Qed.

Lemma elem_rows_where p d r :
  graph_inv d -> r ∈ rows_where p d <-> d_nodes d !! n_ID r = Some r /\ p r = true.
Proof.
  intros Hg. unfold rows_where. rewrite list_elem_of_filter, elem_rows. split.
  - intros [Hp [i Hi]]. by rewrite (proj1 (gi_id d Hg i r Hi)).
  - intros [Hr Hp]. eauto.
Qed.

Lemma rows_ids d : graph_inv d -> n_ID <$> rows d = (map_to_list (d_nodes d)).*1.
Proof.
  intros Hg. unfold rows. rewrite <- list_fmap_compose. apply list_fmap_ext.
  intros i [k r] Hi%list_elem_of_lookup_2%elem_of_map_to_list. by apply (gi_id d Hg).
Qed.

Lemma rows_where_NoDup p d : graph_inv d -> NoDup (n_ID <$> rows_where p d).
Proof.
  intros Hg. eapply sublist_NoDup; [|apply fmap_sublist, sublist_filter].
  rewrite rows_ids by done. apply NoDup_fst_map_to_list.
Qed.

Lemma elem_find_ext sc nid d r :
  graph_inv d -> find_ext sc nid d = Some r ->
  d_nodes d !! n_ID r = Some r /\ n_Scope r = sc /\ n_NodeID r = nid.
Proof.
  intros Hg Hf. unfold find_ext in Hf. apply head_Some_elem_of in Hf.
  apply elem_rows_where in Hf as [Hr Hp]; [|done]. unfold ext_is in Hp.
  apply andb_true_iff in Hp as [?%bool_decide_eq_true ?%bool_decide_eq_true]. done.
Qed.

Lemma find_ext_None sc nid d :
  graph_inv d -> find_ext sc nid d = None ->
  forall i r, d_nodes d !! i = Some r -> n_Scope r = sc -> n_NodeID r <> nid.
Proof.
  intros Hg Hf i r Hr Hs Hn. unfold find_ext in Hf. apply head_None in Hf.
  assert (r ∈ rows_where (ext_is sc nid) d) as Hin.
  { apply elem_rows_where; [done|]. rewrite (proj1 (gi_id d Hg i r Hr)). split; [done|].
    unfold ext_is. by rewrite !bool_decide_eq_true_2. }
  rewrite Hf in Hin. by apply not_elem_of_nil in Hin.
Qed.

Lemma elem_succ_rows sc a d r :
  graph_inv d -> r ∈ succ_rows sc a d <->
  d_nodes d !! n_ID r = Some r /\ n_Scope r = sc /\ is_Some (d_edges d !! (sc, a, n_ID r)).
Proof.
  intros Hg. unfold succ_rows. rewrite elem_rows_where by done. unfold edge_in.
  rewrite andb_true_iff, bool_decide_eq_true. destruct (d_edges d !! (sc, a, n_ID r)); simpl; [|naive_solver].
  naive_solver.
Qed.
