(* ===== verification/PgTerminate.v ===== *)
(** * The engine keeps the invariant *)
From S2P Require Import Prelude Types Config Scope ListFacts MapSum PgDb PgTopo PgEngine PgInv.

(** ** Frames *)

(** What an engine call that moves nodes leaves of the tables: the rows keep
    their keys, the scopes and the edges stay (an edge may turn satisfied), and
    a row whose phase or status changed is named. *)
Record moved (names : list string) (d d' : db) : Prop := {
  mv_forth : forall i r, d_nodes d !! i = Some r -> exists r', d_nodes d' !! i = Some r' /\ keeps r r' /\
    ((n_Phase r' = n_Phase r /\ n_Status r' = n_Status r) \/ n_NodeID r ∈ names);
  mv_back : forall i r', d_nodes d' !! i = Some r' -> exists r, d_nodes d !! i = Some r /\ keeps r r';
  mv_scopes : d_scopes d' = d_scopes d;
  mv_edges : forall k, is_Some (d_edges d' !! k) <-> is_Some (d_edges d !! k)
}.

Lemma moved_refl d : moved [] d d.
Proof. split; [|by intros i r Hr; exists r|done|done]. intros i r Hr. exists r. auto with pg. Qed.

Lemma moved_trans n1 n2 d1 d2 d3 : moved n1 d1 d2 -> moved n2 d2 d3 -> moved (n1 ++ n2) d1 d3.
Proof.
  intros [F1 B1 S1 E1] [F2 B2 S2 E2]. split.
  - intros i r Hr. destruct (F1 i r Hr) as (r' & Hr' & K1 & P1). destruct (F2 i r' Hr') as (r'' & Hr'' & K2 & P2).
    exists r''. split_and!; [done|by etrans|]. rewrite elem_of_app. rewrite (kp_nid _ _ K1) in P2.
    destruct P1 as [[P1 Q1]|]; [|auto]. destruct P2 as [[P2 Q2]|]; [|auto]. left. split; congruence.
  - intros i r'' Hr''. destruct (B2 i r'' Hr'') as (r' & Hr' & K2). destruct (B1 i r' Hr') as (r & Hr & K1).
    exists r. split; [done|by etrans].
  - congruence.
  - intros k. by rewrite E2, E1.
Qed.

Lemma moved_weaken n1 n2 d d' : (forall x, x ∈ n1 -> x ∈ n2) -> moved n1 d d' -> moved n2 d d'.
Proof.
  intros Hs [F B S E]. split; [|done..]. intros i r Hr. destruct (F i r Hr) as (r' & ? & ? & [?|?]); eauto 6.
Qed.

(** Calls that only append to the log. *)
Lemma moved_same d d' :
  d_nodes d' = d_nodes d -> d_edges d' = d_edges d -> d_scopes d' = d_scopes d -> moved [] d d'.
Proof.
  intros Hn He Hs. split; [rewrite Hn; apply moved_refl..|done|by rewrite He].
Qed.

Lemma moved_put d r r' names :
  d_nodes d !! n_ID r' = Some r -> keeps r r' ->
  ((n_Phase r' = n_Phase r /\ n_Status r' = n_Status r) \/ n_NodeID r ∈ names) -> moved names d (put r' d).
Proof.
  intros Hr Hk Hn. split; [|by apply (put_back d r)|done|done].
  intros i y Hy. rewrite lookup_put. case_decide as E; [|exists y; split_and!; auto; done].
  subst i. rewrite Hr in Hy. simplify_eq. eauto.
Qed.

(** ** Carrying the invariant over the tables that matter to it *)

Lemma graph_inv_ext d d' :
  d_nodes d' = d_nodes d -> d_edges d' = d_edges d -> qle d d' -> graph_inv d -> graph_inv d'.
Proof.
  intros Hn He Hq Hg. apply (graph_keep d); [done|done|rewrite Hn; eauto with pg|..].
  - rewrite Hn. apply Hg.
  - rewrite Hn, He. apply Hg.
  - unfold edge_count. rewrite Hn, He. apply Hg.
Qed.

Lemma pg_inv_ext {off} skip sc p d d' :
  d_nodes d' = d_nodes d -> d_edges d' = d_edges d -> d_scopes d' = d_scopes d -> qle d d' -> log_inv d' ->
  pg_inv off skip sc p d -> pg_inv off skip sc p d'.
Proof.
  intros Hn He Hs Hq Hl [Hg Hu Hst [Hsc1 Hsc2] _]. split; [by eapply graph_inv_ext|..|done].
  - unfold unsat_live. rewrite Hn, He. apply Hu.
  - unfold stat_inv, node_count. rewrite Hn, Hs. apply Hst.
  - split; [rewrite Hn, Hs; apply Hsc1|rewrite Hs; apply Hsc2].
Qed.

(** A row write that moves a counter, with the pending deltas adjusted. *)
Lemma pg_inv_put {off} skip sc p d r r' :
  pg_inv off skip sc p d -> d_nodes d !! n_ID r' = Some r -> keeps r r' -> n_Scope r = sc ->
  n_Deps r' = n_Deps r -> row_inv r' -> (done r' = true -> done r = true \/ skip = Some (n_ID r')) ->
  pg_inv off skip sc (move_stats (bucketColumn (n_Phase r) (n_Status r)) (bucketColumn (n_Phase r') (n_Status r')) p)
    (put r' d).
Proof.
  intros [Hg Hu Hst Hsc Hl] Hr Hk Hs Hd Hi Hdone. split.
  - by apply (put_graph d r).
  - by apply (put_unsat d r).
  - apply put_stat_move; [done| |done|done]. apply (kp_scope _ _ Hk).
  - by apply (put_scope_inv d r).
  - destruct Hl; by split.
Qed.

(** A row write that moves none. *)
Lemma pg_inv_put_same {off} skip sc p d r r' :
  pg_inv off skip sc p d -> d_nodes d !! n_ID r' = Some r -> keeps r r' ->
  n_Deps r' = n_Deps r -> row_inv r' -> n_Phase r' = n_Phase r -> n_Status r' = n_Status r ->
  pg_inv off skip sc p (put r' d).
Proof.
  intros [Hg Hu Hst Hsc Hl] Hr Hk Hd Hi Hph Hs. split.
  - by apply (put_graph d r).
  - apply (put_unsat d r); [done..|]. unfold done. rewrite Hph. auto.
  - apply (put_stat_same sc p d r); [done|apply (kp_scope _ _ Hk)|by rewrite Hph, Hs|done].
  - by apply (put_scope_inv d r).
  - destruct Hl; by split.
Qed.

Section Engine.
Context {C : Type} `{!Server C} {off : string -> string -> Z} (sc : string).

Lemma wp_bump_pending col z (Q : unit -> db -> gmap string Z -> Prop) d p :
  Q tt d (bump_stat col z p) -> wp (bump_pending col z : M C unit) Q d p.
Proof. intros HQ. apply wp_modify. intros t <- <-. split; [by split|done]. Qed.

Lemma wp_moveBucket op os np ns (Q : unit -> db -> gmap string Z -> Prop) d p :
  Q tt d (move_stats (bucketColumn op os) (bucketColumn np ns) p) -> wp (moveBucket op os np ns : M C unit) Q d p.
Proof.
  unfold moveBucket, move_stats. case_bool_decide; intros HQ; [by apply wp_ret|].
  by apply wp_bind, wp_bump_pending, wp_bump_pending.
Qed.

(** ** The log *)

Lemma wp_insert_event skip ev d p :
  pg_inv off skip sc p d ->
  wp (insert_event sc ev : M C Effect)
    (fun ef d' p' => p' = p /\ pg_inv off skip sc p d' /\ moved [] d d' /\ d_nodes d' = d_nodes d /\
       d_edges d' = d_edges d /\ ef_NodeID ef = pe_nodeID ev) d p.
Proof.
  intros Hi. unfold insert_event. wp_steps. apply wp_modify_db; [auto with pg|].
  case_match eqn:Hck; [|by apply wp_throw]. apply andb_true_iff in Hck as [_ Hck].
  assert (q_cursor d <= max_i64)%Z by (unfold int8 in Hck; lia). clear Hck.
  wp_steps. apply wp_modify_db; [auto with pg|]. wp_steps. split_and!; [done| |by apply moved_same|done..].
  apply (pg_inv_ext skip sc p d); [done..|auto with pg| |done].
  destruct (pi_log Hi) as [Hs Hb Hq]. split; simpl; [|intros e He|lia].
  - apply StronglySorted_app_2; [|done|by repeat constructor].
    intros e e' He ->%list_elem_of_singleton. apply Hb, He.
  - apply elem_of_app in He as [He|He%list_elem_of_singleton]; [pose proof (Hb e He); lia|subst e; simpl; lia].
Qed.

Lemma wp_insertEvent skip nid nk k from to rs msg att sq d p :
  pg_inv off skip sc p d ->
  wp (insertEvent sc nid nk k from to rs msg att sq : M C Effect)
    (fun ef d' p' => p' = p /\ pg_inv off skip sc p d' /\ moved [] d d' /\ d_nodes d' = d_nodes d /\
       d_edges d' = d_edges d /\ ef_NodeID ef = nid) d p.
Proof.
  intros Hi. unfold insertEvent, set_notify. apply wp_bind. eapply wp_mono; [by apply wp_insert_event|].
  intros ef d' p' _ H. apply wp_bind, wp_modify. intros t <- <-. split; [by split|]. by apply wp_ret.
Qed.

End Engine.

(** * Epochs of the PostgreSQL backend

    The epoch a node identifier has reached: that of its row, or the scope's
    floor while there is none.  Every call but [CollectTerminal] lets it only
    grow. *)

Definition floor_of (d : db) (s : string) : Z :=
  match d_scopes d !! s with Some row => sr_epoch_floor row | None => 0%Z end.

Definition epoch_at (d : db) (s nid : string) : Z :=
  match find_ext s nid d with Some r => n_Epoch r | None => floor_of d s end.

Definition epochs_le (d d' : db) : Prop := forall s nid, (epoch_at d s nid <= epoch_at d' s nid)%Z.

#[export] Instance epochs_le_refl : Reflexive epochs_le.
Proof. intros d s nid. lia. Qed.
#[export] Instance epochs_le_trans : Transitive epochs_le.
Proof. intros d1 d2 d3 H1 H2 s nid. specialize (H1 s nid). specialize (H2 s nid). lia. Qed.

Lemma find_ext_Some d i r :
  graph_inv d -> d_nodes d !! i = Some r -> find_ext (n_Scope r) (n_NodeID r) d = Some r.
Proof.
  intros Hg Hr. destruct (find_ext (n_Scope r) (n_NodeID r) d) as [r'|] eqn:E.
  - destruct (elem_find_ext _ _ _ _ Hg E) as (Hr' & Hs & Hn).
    pose proof (gi_ext d Hg _ _ _ _ Hr' Hr Hs Hn) as Hid. rewrite Hid in Hr'. congruence.
  - by destruct (find_ext_None _ _ _ Hg E i r Hr eq_refl).
Qed.

Lemma epoch_at_row d i r : graph_inv d -> d_nodes d !! i = Some r -> epoch_at d (n_Scope r) (n_NodeID r) = n_Epoch r.
Proof. intros Hg Hr. unfold epoch_at. by rewrite (find_ext_Some d i r). Qed.

Lemma epoch_at_no_row d s nid :
  graph_inv d -> (forall i r, d_nodes d !! i = Some r -> n_Scope r = s -> n_NodeID r <> nid) ->
  epoch_at d s nid = floor_of d s.
Proof.
  intros Hg Hno. unfold epoch_at. destruct (find_ext s nid d) as [r|] eqn:E; [|done].
  destruct (elem_find_ext _ _ _ _ Hg E) as (Hr & Hs & Hn). by destruct (Hno _ _ Hr Hs).
Qed.

(** The two cases of an identifier. *)
Lemma epoch_at_cases d s nid :
  graph_inv d ->
  (exists r, d_nodes d !! n_ID r = Some r /\ n_Scope r = s /\ n_NodeID r = nid /\ epoch_at d s nid = n_Epoch r) \/
  ((forall i r, d_nodes d !! i = Some r -> n_Scope r = s -> n_NodeID r <> nid) /\ epoch_at d s nid = floor_of d s).
Proof.
  intros Hg. unfold epoch_at. destruct (find_ext s nid d) as [r|] eqn:E.
  - left. destruct (elem_find_ext _ _ _ _ Hg E) as (? & ? & ?). eauto.
  - right. split; [|done]. by apply find_ext_None.
Qed.

Lemma moved_epochs names d d' : graph_inv d -> graph_inv d' -> moved names d d' -> epochs_le d d'.
Proof.
  intros Hg Hg' Hm s nid. destruct (epoch_at_cases d s nid Hg) as [(r & Hr & Hs & Hn & ->)|[Hno ->]].
  - destruct (mv_forth _ _ _ Hm _ r Hr) as (r' & Hr' & K & _).
    rewrite <- Hs, <- Hn, <- (kp_scope _ _ K), <- (kp_nid _ _ K), (epoch_at_row d' _ r' Hg' Hr'). apply K.
  - rewrite (epoch_at_no_row d' s nid Hg'); [unfold floor_of; by rewrite (mv_scopes _ _ _ Hm)|].
    intros i r' Hr'. destruct (mv_back _ _ _ Hm i r' Hr') as (r & Hr & K).
    rewrite (kp_scope _ _ K), (kp_nid _ _ K). by apply (Hno i).
Qed.

(** * Moving nodes: [makeReady], [terminate], [settle]

    Every one keeps the invariant of the tables; [terminate] satisfies each edge
    out of a node it ends, and ends within its fuel. *)

(** A Go copy of a row whose phase and status are those of the table. *)
Definition fresh (sc : string) (n : nodeRow) (d : db) : Prop :=
  exists r, d_nodes d !! n_ID n = Some r /\ n_Scope r = sc /\ n_NodeID r = n_NodeID n /\
    n_Phase r = n_Phase n /\ n_Status r = n_Status n.

Lemma fresh_scan d i r sc : graph_inv d -> d_nodes d !! i = Some r -> n_Scope r = sc -> fresh sc (scanNode r) d.
Proof. intros Hg Hr Hs. exists r. simpl. by rewrite (proj1 (gi_id d Hg i r Hr)). Qed.

(** A move that does not name the node leaves its copy fresh. *)
Lemma fresh_moved sc n names d d' :
  fresh sc n d -> moved names d d' -> n_NodeID n ∉ names -> fresh sc n d'.
Proof.
  intros (r & Hr & Hs & Hn & Hp & Hst) Hm Hni. destruct (mv_forth _ _ _ Hm _ r Hr) as (r' & Hr' & K & P).
  destruct P as [[P1 P2]|P]; [|by rewrite Hn in P].
  exists r'. rewrite (kp_scope _ _ K), (kp_nid _ _ K). split_and!; congruence.
Qed.

(** The number of unsatisfied edges, which bounds what is still to be queued. *)
Definition unsat_edges (d : db) : Z := msum (fun _ sat => Z.b2z (negb sat)) (d_edges d).

Lemma unsat_edges_nonneg d : (0 <= unsat_edges d)%Z.
Proof. apply msum_nonneg. intros _ sat _. by destruct sat. Qed.

Lemma unsat_edges_le d : (unsat_edges d <= Z.of_nat (size (d_edges d)))%Z.
Proof.
  unfold unsat_edges. induction (d_edges d) as [|k sat m Hk IH] using map_ind; [by rewrite msum_empty|].
  rewrite msum_insert by done. rewrite map_size_insert_None by done. destruct sat; simpl; lia.
Qed.

(** Two readings of one row. *)
Ltac one_row H1 H2 := let E := fresh in pose proof (eq_trans (eq_sym H1) H2) as E; injection E as ->; clear H1.

Section Moves.
Context {C : Type} `{!Server C} {off : string -> string -> Z} (sc : string).

Lemma wp_next_fifo (Q : Z -> db -> gmap string Z -> Prop) d p :
  (forall v, Q v (d <| q_fifo ::= Z.succ |>) p) -> wp (next_fifo : M C Z) Q d p.
Proof. intros HQ. unfold next_fifo. wp_steps. apply wp_modify_db; [auto with pg|]. by wp_steps. Qed.

Lemma pg_inv_fifo skip p d : pg_inv off skip sc p d -> pg_inv off skip sc p (d <| q_fifo ::= Z.succ |>).
Proof. intros H. apply (pg_inv_ext skip sc p d); [done..|auto with pg| |done]. destruct (pi_log H). by split. Qed.

(** ** [makeReady], [makeBlocked], [schedule] *)

Lemma wp_makeReady skip n d p :
  pg_inv off skip sc p d -> fresh sc n d -> n_Phase n <> PhaseDone ->
  wp (makeReady sc n : M C _)
    (fun a d' p' => pg_inv off skip sc p' d' /\ moved [n_NodeID n] d d' /\ d_edges d' = d_edges d /\
       (forall j, j <> n_ID n -> d_nodes d' !! j = d_nodes d !! j) /\ ef_NodeID (snd a) = n_NodeID n) d p.
Proof.
  intros Hi (r & Hr & Hs & Hn & Hp & Hst) Hnd. unfold makeReady. wp_steps. apply wp_next_fifo. intros fifo.
  wp_steps. apply wp_write_row; [intros; by apply wp_throw|]. intros r0 Hr0 Hc. one_row Hr0 Hr.
  set (r' := r <| n_Phase := PhaseReady |> <| n_Status := StatusNew |> <| n_ReadyAt := None |>
               <| n_Fifo := fifo |> <| n_Seq ::= Z.succ |>) in *.
  assert (Hid : n_ID r' = n_ID n) by (apply (gi_id d (pi_graph Hi) _ r Hr)).
  assert (Hk : keeps r r').
  { split; try done. unfold done. rewrite Hp. by rewrite bool_decide_eq_false_2. }
  apply wp_bind, wp_ret, wp_bind, wp_moveBucket.
  set (d1 := d <| q_fifo ::= Z.succ |>).
  assert (Hi1 : pg_inv off skip sc (move_stats (bucketColumn (n_Phase r) (n_Status r)) "stat_ready" p) (put r' d1)).
  { apply (pg_inv_put skip sc p d1 r r'); [by apply pg_inv_fifo|by rewrite Hid|done|done|done| |done].
    destruct (gi_row d (pi_graph Hi) _ r Hr). by split. }
  rewrite Hp, Hst in Hi1. apply wp_bind. eapply wp_mono; [by eapply wp_insertEvent|].
  intros ef d' p' _ (-> & Hi' & Hm & En & Ee & Hef). apply wp_ret. split_and!; [done| |by rewrite Ee| |done].
  - eapply (moved_trans [n_NodeID n] []); [|done].
    apply (moved_trans [] [n_NodeID n] d d1); [by apply moved_same|]. apply (moved_put d1 r); [by rewrite Hid|done|].
    right. rewrite Hn. set_solver.
  - intros j Hj. rewrite En, lookup_put, Hid. by rewrite decide_False.
Qed.

Lemma wp_makeBlocked skip n d p :
  pg_inv off skip sc p d -> fresh sc n d -> n_Phase n <> PhaseDone ->
  wp (makeBlocked n : M C _)
    (fun _ d' p' => pg_inv off skip sc p' d' /\ moved [n_NodeID n] d d' /\ d_edges d' = d_edges d) d p.
Proof.
  intros Hi (r & Hr & Hs & Hn & Hp & Hst) Hnd. unfold makeBlocked. wp_steps.
  apply wp_update_exec; [by rewrite Hr|]. intros r0 Hr0 Hc. one_row Hr0 Hr.
  set (r' := r <| n_Phase := PhaseBlocked |> <| n_Status := StatusNew |>) in *.
  assert (Hid : n_ID r' = n_ID n) by (apply (gi_id d (pi_graph Hi) _ r Hr)).
  assert (Hk : keeps r r').
  { split; try done. unfold done. rewrite Hp. by rewrite bool_decide_eq_false_2. }
  apply wp_bind, wp_moveBucket, wp_ret. rewrite <- Hp, <- Hst. split_and!; [|apply (moved_put d r); try done|done].
  - apply (pg_inv_put skip sc p d r r'); [done|by rewrite Hid|done..| |done].
    destruct (gi_row d (pi_graph Hi) _ r Hr). by split.
  - by rewrite Hid.
  - right. rewrite Hn. set_solver.
Qed.

(** ** One successor *)

(** An edge turned satisfied and the tally that follows it. *)
Lemma pg_inv_flip a p d b ra rb :
  pg_inv off (Some a) sc p d -> d_edges d !! (sc, a, b) = Some false ->
  d_nodes d !! a = Some ra -> done ra = true -> d_nodes d !! b = Some rb ->
  let rb' := rb <| n_Deps ::= dep_delta (n_Status ra) (n_Reason ra) |> in
  row_check rb' = None -> pg_inv off (Some a) sc p (put rb' (set_edge (sc, a, b) true d)).
Proof.
  intros [Hg Hu Hst Hsc Hl] He Ha Hda Hb rb' Hc. assert (Hid : n_ID rb' = b) by (apply (gi_id d Hg b rb Hb)).
  assert (Hk : keeps rb rb') by by split. assert (Hat : d_nodes d !! n_ID rb' = Some rb) by by rewrite Hid.
  split.
  - apply (flip_graph d sc a b ra rb Hg He Ha Hda Hb Hc).
  - intros s x y rx Hxy Hx Hdx. unfold set_edge, put in Hxy. simpl in Hxy.
    destruct (decide ((s, x, y) = (sc, a, b))) as [E|E]; [by injection E as -> -> ->|].
    rewrite lookup_insert_ne in Hxy by done.
    apply (put_unsat d rb rb' Hat Hk (Some a) Hu) with (s := s) (b := y) (ra := rx); [auto|done..].
  - by apply (put_stat_same sc p d rb).
  - apply (put_scope_inv (set_edge (sc, a, b) true d) rb); [done|done|]. destruct Hsc; by split.
  - destruct Hl; by split.
Qed.

Lemma moved_flip a b d rb (st : Status) (rs : Reason) :
  d_nodes d !! b = Some rb -> n_ID rb = b -> d_edges d !! (sc, a, b) = Some false ->
  moved [] d (put (rb <| n_Deps ::= dep_delta st rs |>) (set_edge (sc, a, b) true d)).
Proof.
  intros Hb Hid He. set (rb' := rb <| n_Deps ::= _ |>).
  apply (moved_trans [] [] d (set_edge (sc, a, b) true d)).
  - split; [intros i r Hr; exists r; auto with pg|by intros i r Hr; exists r|done|]. intros k. unfold set_edge. simpl.
    destruct (decide (k = (sc, a, b))) as [->|E]; [rewrite lookup_insert_eq, He; by split|by rewrite lookup_insert_ne].
  - apply (moved_put _ rb); [unfold set_edge; simpl; by rewrite Hid|by split|auto].
Qed.

Lemma unsat_edges_flip d k : d_edges d !! k = Some false -> unsat_edges (set_edge k true d) = (unsat_edges d - 1)%Z.
Proof. intros Hk. unfold unsat_edges, set_edge. simpl. rewrite (msum_update _ _ _ false) by done. simpl. lia. Qed.

(** The items of the queue: failures, of rows of the scope, of rank [K] or
    more; the rows of a smaller rank do not change. *)
Context (K : Z).

Definition item_ok (d : db) (it : terminateItem) : Prop :=
  Status_Terminal (i_status it) = true /\
  forall r, d_nodes d !! i_id it = Some r -> n_Scope r = sc /\ (K <= n_Rank r)%Z.

Definition low_kept (d d' : db) : Prop :=
  forall j r, d_nodes d !! j = Some r -> (n_Rank r < K)%Z -> d_nodes d' !! j = Some r.

Lemma low_kept_trans d1 d2 d3 : low_kept d1 d2 -> low_kept d2 d3 -> low_kept d1 d3.
Proof. intros H1 H2 j r Hr Hk. apply H2; [|done]. by apply H1. Qed.

(** Only the row of [i] changed, and its rank is not low. *)
Lemma low_kept_but i r d d' :
  d_nodes d !! i = Some r -> (K <= n_Rank r)%Z -> (forall j, j <> i -> d_nodes d' !! j = d_nodes d !! j) -> low_kept d d'.
Proof. intros Hr Hk Ho j x Hx Hlt. rewrite Ho; [done|]. intros ->. simplify_eq. lia. Qed.

Lemma item_ok_moved names d d' it : moved names d d' -> item_ok d it -> item_ok d' it.
Proof.
  intros Hm [H1 H2]. split; [done|]. intros r' Hr'. destruct (mv_back _ _ _ Hm _ r' Hr') as (r & Hr & K0).
  rewrite (kp_scope _ _ K0), (kp_rank _ _ K0). auto.
Qed.

(** What one successor leaves: the effects it adds name what moved, no other
    row changed, its edge is no longer among the unsatisfied ones, and an item
    is paid for by an edge turned satisfied. *)
Definition cascade_post (a : Z) (w : nodeRow) (queue : list terminateItem) (effs : list Effect) (d : db)
    (acc : list terminateItem * list Effect) (d' : db) (p' : gmap string Z) : Prop :=
  pg_inv off (Some a) sc p' d' /\
  (exists more, snd acc = effs ++ more /\ moved (ef_NodeID <$> more) d d') /\
  Forall (item_ok d') (fst acc) /\ (forall it, it ∈ queue -> it ∈ fst acc) /\
  (forall j, j <> n_ID w -> d_nodes d' !! j = d_nodes d !! j) /\
  (forall s b, d_edges d' !! (s, a, b) = Some false -> d_edges d !! (s, a, b) = Some false /\ b <> n_ID w) /\
  (Z.of_nat (length (fst acc)) + unsat_edges d' <= Z.of_nat (length queue) + unsat_edges d)%Z.

Lemma wp_cascade_one a ra queue effs w d p :
  pg_inv off (Some a) sc p d -> d_nodes d !! a = Some ra -> done ra = true -> (K <= n_Rank ra)%Z ->
  fresh sc w d -> Forall (item_ok d) queue ->
  wp (cascade_one sc a (n_Status ra) (n_Reason ra) (queue, effs) w : M C _) (cascade_post a w queue effs d) d p.
Proof.
  intros Hi Ha Hda HK Hf Hq. unfold cascade_one. pose proof (pi_graph Hi) as Hg.
  destruct Hf as (rw & Hw & Hs & Hn & Hp & Hst).
  assert (Hsa : forall s b, d_edges d !! (s, a, b) = Some false -> n_ID w = b -> s = sc).
  { intros s b He <-. destruct (gi_edge d Hg s a _ _ He) as (? & y & _ & Hy & _ & Hys & _). congruence. }
  unfold markEdgeSatisfied. wp_steps.
  assert (Hskip : d_edges d !! (sc, a, n_ID w) <> Some false -> cascade_post a w queue effs d (queue, effs) d p).
  { intros Hne. split_and!; [done| |done|done|done| |done].
    - exists []. rewrite app_nil_r. split; [done|apply moved_refl].
    - intros s b He. split; [done|]. intros ->. apply Hne. by rewrite <- (Hsa s (n_ID w)). }
  destruct (d_edges d !! (sc, a, n_ID w)) as [[]|] eqn:He.
  1,3: apply wp_ret, wp_ret, Hskip; congruence.
  clear Hskip. wp_steps. apply wp_modify_db; [auto with pg|]. apply wp_ret. cbn [negb].
  apply wp_bind. unfold applyDepDelta. apply wp_bind, wp_update_returning. intros rb Hrb Hc. one_row Hrb Hw.
  apply wp_ret.
  assert (Hid : n_ID rw = n_ID w) by (apply (gi_id d Hg _ rw Hw)).
  pose proof (pg_inv_flip a p d (n_ID w) ra rw Hi He Ha Hda Hw Hc) as Hi1.
  pose proof (moved_flip a (n_ID w) d rw (n_Status ra) (n_Reason ra) Hw Hid He) as Hm1.
  set (rb' := rw <| n_Deps ::= _ |>) in *. set (d1 := put rb' (set_edge (sc, a, n_ID w) true d)) in *.
  change (put rb' _) with d1.
  assert (Hoth : forall j, j <> n_ID w -> d_nodes d1 !! j = d_nodes d !! j).
  { intros j Hj. unfold d1. rewrite lookup_put, decide_False; [done|]. simpl. congruence. }
  assert (Hself : d_nodes d1 !! n_ID w = Some rb').
  { unfold d1. rewrite lookup_put, decide_True; done. }
  assert (Hrem : forall s b, d_edges d1 !! (s, a, b) = Some false -> d_edges d !! (s, a, b) = Some false /\ b <> n_ID w).
  { intros s b. unfold d1, set_edge, put. simpl.
    destruct (decide ((s, a, b) = (sc, a, n_ID w))) as [E|E]; [rewrite E; by rewrite lookup_insert_eq|].
    rewrite lookup_insert_ne by done. intros He'. split; [done|]. intros ->. apply E. by rewrite (Hsa s (n_ID w)). }
  assert (Hu1 : unsat_edges d1 = (unsat_edges d - 1)%Z) by (by apply (unsat_edges_flip d)).
  assert (Hq1 : Forall (item_ok d1) queue).
  { eapply Forall_impl; [done|]. intros it. by apply (item_ok_moved [] d). }
  assert (Hf1 : forall dp, fresh sc (w <| n_Deps := dp |>) d1) by (intros dp; by exists rb').
  assert (Hstop : cascade_post a w queue effs d (queue, effs) d1 p).
  { split_and!; [done| |done|done|done|done|simpl; lia]. exists []. by rewrite app_nil_r. }
  destruct (n_Phase (w <| n_Deps := _ |>)) eqn:Hpw; try (apply wp_ret; exact Hstop).
  all: change (n_Phase w = ?ph) with (n_Phase w = ph) in Hpw.
  all: destruct (Unsatisfiable _ _).
  1,3: apply wp_ret; destruct Hstop as (? & (more & Hmore & ?) & ? & ? & ? & ? & ?);
       split_and!; [done|by exists more| |set_solver|done|done|cbn [fst]; rewrite length_app; simpl; lia];
       apply Forall_app; split; [done|]; apply Forall_singleton; split; [done|]; intros r Hr;
       one_row Hr Hself; split; [exact Hs|];
       destruct (gi_edge d Hg _ _ _ _ He) as (x & y & Hx & Hy & _ & _ & Hlt & _);
       one_row Hx Ha; one_row Hy Hw; simpl; lia.
  all: destruct (Ready _ _); [|apply wp_ret; exact Hstop].
  2: rewrite bool_decide_eq_true_2 by done; apply wp_ret; exact Hstop.
  rewrite bool_decide_eq_false_2 by done. apply wp_bind.
  eapply wp_mono; [eapply (wp_makeReady (Some a)); [done|apply Hf1|rewrite Hpw; done]|].
  intros [n' ef] d' p' _ (Hi' & Hm' & Ee' & Hoth' & Hef). apply wp_ret. split_and!; [done|..].
  - exists [ef]. split; [done|]. simpl. simpl in Hef. rewrite Hef. by apply (moved_trans [] _ d d1).
  - eapply Forall_impl; [exact Hq1|]. intros it. by apply (item_ok_moved _ d1 d' it Hm').
  - done.
  - intros j Hj. rewrite Hoth' by done. auto.
  - rewrite Ee'. done.
  - cbn [fst]. unfold unsat_edges in *. rewrite Ee'. lia.
Qed.

(** ** All the successors *)

Definition names (effs : list Effect) : list string := ef_NodeID <$> effs.

Lemma wp_cascadeSuccessors a ra queue d p :
  pg_inv off (Some a) sc p d -> d_nodes d !! a = Some ra -> done ra = true -> n_Scope ra = sc ->
  (K <= n_Rank ra)%Z -> Forall (item_ok d) queue ->
  wp (cascadeSuccessors sc queue a (n_Status ra) (n_Reason ra) : M C _)
    (fun acc d' p' => pg_inv off None sc p' d' /\ moved (names (snd acc)) d d' /\ Forall (item_ok d') (fst acc) /\
       (forall it, it ∈ queue -> it ∈ fst acc) /\
       (Z.of_nat (length (fst acc)) + unsat_edges d' <= Z.of_nat (length queue) + unsat_edges d)%Z /\
       low_kept d d') d p.
Proof.
  intros Hi Ha Hda Hsa HK Hq. unfold cascadeSuccessors, successorsForUpdate. wp_steps.
  pose proof (pi_graph Hi) as Hg.
  set (l := scanNode <$> _).
  assert (Hl : forall w, w ∈ l -> exists r, w = scanNode r /\ d_nodes d !! n_ID r = Some r /\ n_Scope r = sc /\
                 is_Some (d_edges d !! (sc, a, n_ID r))).
  { intros w (r & -> & Hr)%list_elem_of_fmap. rewrite merge_sort_Permutation in Hr.
    apply elem_succ_rows in Hr; [|done]. eauto. }
  eapply wp_mono; [apply (wp_foldM _ (fun l acc d1 p1 =>
    pg_inv off (Some a) sc p1 d1 /\ d_nodes d1 !! a = Some ra /\
    (forall w, w ∈ l -> fresh sc w d1 /\ n_ID w <> a /\ exists rw, d_nodes d1 !! n_ID w = Some rw /\ (K <= n_Rank rw)%Z) /\
    NoDup (n_ID <$> l) /\
    (forall s b, d_edges d1 !! (s, a, b) = Some false -> b ∈ n_ID <$> l) /\
    moved (names (snd acc)) d d1 /\ Forall (item_ok d1) (fst acc) /\ (forall it, it ∈ queue -> it ∈ fst acc) /\
    (Z.of_nat (length (fst acc)) + unsat_edges d1 <= Z.of_nat (length queue) + unsat_edges d)%Z /\ low_kept d d1))|].
  - split_and!; [done|done| | | |apply moved_refl|done|done|simpl; lia|by intros j r].
    + intros w Hw. destruct (Hl w Hw) as (r & -> & Hr & Hs & [sat He]). split; [by eapply fresh_scan|].
      simpl. destruct (gi_edge d Hg _ _ _ _ He) as (x & y & Hx & Hy & _ & _ & Hlt & _).
      one_row Hx Ha. one_row Hy Hr. split; [|exists r; split; [done|lia]].
      intros E. rewrite E in Hr. one_row Hr Ha. lia.
    + unfold l. rewrite <- list_fmap_compose. rewrite (list_fmap_ext _ n_ID _) by done.
      rewrite merge_sort_Permutation. by apply rows_where_NoDup.
    + intros s b He. destruct (gi_edge d Hg s a b _ He) as (x & y & Hx & Hy & Hsx & Hsy & _).
      assert (s = sc) as -> by congruence. pose proof (proj1 (gi_id d Hg b y Hy)) as Hid.
      apply list_elem_of_fmap. exists (scanNode y). simpl. split; [done|]. unfold l.
      apply list_elem_of_fmap. exists y. split; [done|]. rewrite merge_sort_Permutation.
      apply elem_succ_rows; [done|]. rewrite Hid. split_and!; [done|done|eauto].
  - intros w l' [queue1 effs1] d1 p1 (Hi1 & Ha1 & Hf1 & Hnd & Hrem & Hm1 & Hq1 & Hqq & Hle & Hlow). simpl in *.
    apply NoDup_cons in Hnd as [Hw Hnd]. destruct (Hf1 w) as (Hfw & Hne & rw & Hrw & HKw); [by left|].
    eapply wp_mono; [by eapply wp_cascade_one|].
    intros [queue2 effs2] d2 p2 _ (Hi2 & (more & Hmore & Hm2) & Hq2 & Hqq2 & Hoth & Hrem2 & Hle2). simpl in *. subst effs2.
    split_and!; [done|by rewrite Hoth| |done| | |done|by auto|lia|].
    + intros w' Hw'. destruct (Hf1 w') as ((r & Hr & ?) & ? & ?); [by right|]. unfold fresh.
      rewrite Hoth; [eauto|]. intros E. apply Hw. rewrite <- E. by apply list_elem_of_fmap_2.
    + intros s b He. destruct (Hrem2 s b He) as [He' Hb]. apply Hrem in He'. set_solver.
    + unfold names. rewrite fmap_app. by apply (moved_trans _ _ d d1).
    + apply (low_kept_trans d d1 d2 Hlow). by apply (low_kept_but (n_ID w) rw).
  - intros acc d' p' _ ([Hg' Hu' Hst' Hsc' Hl'] & Ha' & _ & _ & Hrem & Hm & Hq' & Hqq & Hle & Hlow).
    split_and!; [|done..]. split; [done| |done..].
    intros s x b rx He Hx Hdx. pose proof (Hu' s x b rx He Hx Hdx) as Hs. injection Hs as ->.
    apply Hrem in He. by apply not_elem_of_nil in He.
Qed.

(** ** [terminate] *)

(** The first item of the queue is carried out, if its node is live. *)
Definition first_ended (queue : list terminateItem) (d d' : db) : Prop :=
  forall it rest r, queue = it :: rest -> d_nodes d !! i_id it = Some r -> done r = false ->
  exists r', d_nodes d' !! i_id it = Some r' /\ done r' = true /\ n_Status r' = i_status it /\ n_Reason r' = i_reason it.

Lemma wp_terminate_loop fuel queue effs d p :
  pg_inv off None sc p d -> Forall (item_ok d) queue -> (Z.of_nat (length queue) + unsat_edges d < Z.of_nat fuel)%Z ->
  wp (terminate_loop sc fuel queue effs : M C _)
    (fun effs' d' p' => exists more, effs' = effs ++ more /\ pg_inv off None sc p' d' /\ moved (names more) d d' /\
       low_kept d d' /\ first_ended queue d d' /\ forall it r, it ∈ queue -> d_nodes d' !! i_id it = Some r -> done r = true) d p.
Proof.
  revert queue effs d p. induction fuel as [|fuel IH]; intros queue effs d p Hi Hq Hfuel.
  { pose proof (unsat_edges_nonneg d). lia. }
  destruct queue as [|it queue]; cbn [terminate_loop].
  { apply wp_ret. exists []. rewrite app_nil_r. split_and!; [done|done|apply moved_refl|by intros j r|by intros it rest r|].
    intros it r Hit. by apply not_elem_of_nil in Hit. }
  apply Forall_cons in Hq as [Hit Hq]. simpl in Hfuel. unfold loadForUpdate. wp_steps.
  pose proof (pi_graph Hi) as Hg.
  assert (Hnext : (forall r, d_nodes d !! i_id it = Some r -> done r = true) ->
    wp (terminate_loop sc fuel queue effs : M C _)
    (fun effs' d' p' => exists more, effs' = effs ++ more /\ pg_inv off None sc p' d' /\ moved (names more) d d' /\
       low_kept d d' /\ first_ended (it :: queue) d d' /\ forall it' r, it' ∈ it :: queue -> d_nodes d' !! i_id it' = Some r -> done r = true) d p).
  { intros Hd. eapply wp_mono; [apply IH; [done|done|lia]|].
    intros effs' d' p' _ (more & -> & Hi' & Hm & Hlow & _ & Hall). exists more. split_and!; [done..| |].
    { intros it' rest r [= <- <-] Hr Hlive. specialize (Hd r Hr). congruence. }
    intros it' r [->|Hin]%elem_of_cons Hr; [|by eapply Hall].
    destruct (mv_back _ _ _ Hm _ r Hr) as (r0 & Hr0 & K0). by apply (kp_done _ _ K0), Hd. }
  destruct (d_nodes d !! i_id it) as [r|] eqn:Hr; [|by apply Hnext]. cbn [fmap option_fmap option_map].
  change (n_Phase (scanNode r)) with (n_Phase r).
  case_bool_decide as Hph; [apply Hnext; intros r1 Hr1; simplify_eq; unfold done; by rewrite bool_decide_eq_true_2|].
  clear Hnext. assert (Hid : n_ID r = i_id it) by (by apply (gi_id d Hg)).
  destruct Hit as [Hterm Hscope]. destruct (Hscope r Hr) as [Hsr HK]. clear Hscope.
  apply wp_bind, wp_update_returning. change (n_ID (scanNode r)) with (n_ID r). rewrite Hid.
  intros r0 Hr0 Hc. one_row Hr0 Hr. set (r' := ended it r) in *.
  apply wp_bind, wp_moveBucket. change (n_Phase (scanNode r)) with (n_Phase r). change (n_Status (scanNode r)) with (n_Status r).
  assert (Hk : keeps r r') by (split; try done; unfold done; rewrite bool_decide_eq_false_2; done).
  assert (Hi1 : pg_inv off (Some (i_id it)) sc
    (move_stats (bucketColumn (n_Phase r) (n_Status r)) (bucketColumn (n_Phase r') (n_Status r')) p) (put r' d)).
  { apply pg_inv_put; [|change (n_ID r') with (n_ID r); by rewrite Hid|done|done|done| |change (n_ID r') with (n_ID r); rewrite Hid; auto].
    - destruct Hi as [? Hu ? ? ?]. split; try done. intros s a b ra He Ha Hd. pose proof (Hu s a b ra He Ha Hd). done.
    - destruct (gi_row d Hg _ r Hr). by split. }
  apply wp_bind. eapply wp_mono; [by eapply wp_insertEvent|].
  intros ef d2 p2 _ (-> & Hi2 & Hm2 & En & Ee & Hef).
  assert (Hr2 : d_nodes d2 !! i_id it = Some r').
  { rewrite En, lookup_put. change (n_ID r') with (n_ID r). rewrite Hid. by rewrite decide_True. }
  assert (Hm02 : moved [n_NodeID r] d d2).
  { apply (moved_trans [n_NodeID r] [] d (put r' d)); [|done]. apply (moved_put d r); [|done|right; set_solver].
    change (n_ID r') with (n_ID r). by rewrite Hid. }
  rewrite <- Hid in Hi2, Hr2. apply wp_bind.
  eapply wp_mono; [apply (wp_cascadeSuccessors (n_ID r) r' queue d2); [exact Hi2|done|done|done|done|]|].
  { eapply Forall_impl; [exact Hq|]. intros it'. by apply (item_ok_moved [n_NodeID r] d d2). }
  intros [queue3 more3] d3 p3 _ (Hi3 & Hm3 & Hq3 & Hqq & Hle & Hlow3). simpl in Hm3, Hq3, Hqq, Hle.
  assert (unsat_edges d2 = unsat_edges d) as Hu2 by (unfold unsat_edges; by rewrite Ee).
  eapply wp_mono; [apply IH; [done|done|lia]|].
  intros effs' d' p' _ (more & -> & Hi' & Hm & Hlow' & _ & Hall). exists ([ef] ++ more3 ++ more).
  assert (Hm' : moved (names ([ef] ++ more3 ++ more)) d d').
  { unfold names. rewrite !fmap_app. simpl. rewrite Hef.
    apply (moved_trans [n_NodeID r] _ d d2); [done|]. by apply (moved_trans _ _ d2 d3). }
  assert (Hlow : low_kept d d').
  { apply (low_kept_trans d d2 d'); [|by apply (low_kept_trans d2 d3 d')]. apply (low_kept_but (n_ID r) r); [by rewrite Hid|done|].
    intros j Hj. by rewrite En, lookup_put, decide_False. }
  assert (Hm2' : moved (names (more3 ++ more)) d2 d').
  { unfold names. rewrite fmap_app. by apply (moved_trans _ _ d2 d3). }
  split_and!; [by rewrite <- !app_assoc|done|done|done| |].
  { intros it' rest r0 [= <- <-] _ _. rewrite Hid in Hr2. destruct (mv_forth _ _ _ Hm2' _ r' Hr2) as (x & Hx & Kx & _).
    destruct (kp_done _ _ Kx) as (? & ? & ?); [done|]. exists x. by split_and!. }
  intros it' x [->|Hin]%elem_of_cons Hx.
  - destruct (mv_back _ _ _ Hm2' _ x Hx) as (y & Hy & K0). apply (kp_done _ _ K0). rewrite <- Hid in Hy.
    by assert (y = r') as -> by congruence.
  - eapply Hall; [by apply Hqq|done].
Qed.

End Moves.

Section Ends.
Context {C : Type} `{!Server C} {off : string -> string -> Z} (sc : string).

(** The rows of a rank below the root's do not change. *)
Lemma wp_terminate root st rs msg d p :
  pg_inv off None sc p d -> Status_Terminal st = true -> (forall r, d_nodes d !! root = Some r -> n_Scope r = sc) ->
  wp (terminate sc root st rs msg : M C _)
    (fun effs d' p' => pg_inv off None sc p' d' /\ moved (names effs) d d' /\
       (forall r, d_nodes d' !! root = Some r -> done r = true) /\
       (forall r, d_nodes d !! root = Some r -> done r = false ->
          exists r', d_nodes d' !! root = Some r' /\ done r' = true /\ n_Status r' = st /\ n_Reason r' = rs) /\
       forall j x r, d_nodes d !! j = Some x -> d_nodes d !! root = Some r -> (n_Rank x < n_Rank r)%Z ->
         d_nodes d' !! j = Some x) d p.
Proof.
  intros Hi Hst Hsc. unfold terminate. apply wp_bind, wp_gets.
  set (K := match d_nodes d !! root with Some r => n_Rank r | None => 0%Z end).
  eapply wp_mono; [eapply (wp_terminate_loop sc K); [done|apply Forall_singleton; split; [done|]|]|].
  - intros r Hr. simpl in Hr. split; [by apply Hsc|]. unfold K. by rewrite Hr.
  - unfold terminate_fuel. pose proof (unsat_edges_le d). simpl. lia.
  - intros effs d' p' _ (more & -> & Hi' & Hm & Hlow & Hfst & Hall). split_and!; [done|done| | |].
    + intros r Hr. eapply (Hall (mkItem root st rs msg)); [by left|done].
    + intros r Hr Hlive. by apply (Hfst (mkItem root st rs msg) [] r).
    + intros j x r Hx Hr Hlt. apply Hlow; [done|]. unfold K. by rewrite Hr.
Qed.

(** ** [settle] *)

Lemma wp_settle n d p :
  pg_inv off None sc p d -> fresh sc n d ->
  wp (settle sc n : M C _)
    (fun effs d' p' => pg_inv off None sc p' d' /\ moved (n_NodeID n :: names effs) d d') d p.
Proof.
  intros Hi Hf. unfold settle.
  assert (Hstay : pg_inv off None sc p d /\ moved (n_NodeID n :: names []) d d).
  { split; [done|]. eapply moved_weaken; [|apply moved_refl]. set_solver. }
  destruct (n_Phase n) eqn:Hph; try (by apply wp_ret).
  all: case_match; [eapply wp_mono; [eapply wp_terminate; [done|done|]|]|].
  all: try (destruct Hf as (r & Hr & Hs & _); intros r0 Hr0; congruence).
  all: try (intros effs d' p' _ (Hi' & Hm & _); split; [done|]; eapply moved_weaken; [|exact Hm]; set_solver).
  all: case_match; repeat case_bool_decide; try done; try (by apply wp_ret).
  - apply wp_bind. eapply wp_mono; [by eapply (wp_makeReady sc None); [| |rewrite Hph]|].
    intros [n' ef] d' p' _ (Hi' & Hm & _ & _ & Hef). apply wp_ret. split; [done|].
    eapply moved_weaken; [|exact Hm]. set_solver.
  - apply wp_bind. eapply wp_mono; [by eapply (wp_makeBlocked sc None); [| |rewrite Hph]|].
    intros n' d' p' _ (Hi' & Hm & _). apply wp_ret. split; [done|]. eapply moved_weaken; [|exact Hm]. set_solver.
Qed.

End Ends.
