(* ===== verification/PgTopoFacts.v ===== *)
(** * The order of the PostgreSQL backend: an edge is refused exactly when it
    would close a cycle, and the ranks stay a topological order *)
From S2P Require Import Prelude Types Config Scope Renumber ListFacts MapSum PgDb PgTopo PgEngine PgInv PgTerminate.

(** ** A worklist search, for any relation *)

(** The body of both scans, without the test for [x]. *)
Definition scan_all (ok : idRank -> bool) (n : Z) (ss : list idRank) (h : search) : search :=
  foldl (fun h s => if negb (bool_decide (ir_id s ∈ h_visited h)) && ok s then visit n (ir_id s) h else h) h ss.

Lemma bwd_scan_all lb n ps h : bwd_scan lb n ps h = scan_all (fun s => (lb <? ir_rank s)%Z) n ps h.
Proof. revert h. induction ps as [|p ps IH]; intros h; [done|]. simpl. case_match; apply IH. Qed.

Lemma fwd_scan_all x y ub n ss h :
  match fwd_scan x y ub n ss h with
  | inl h' => h' = scan_all (fun s => (ir_rank s <? ub)%Z) n ss h /\ (forall s, s ∈ ss -> ir_id s <> x)
  | inr _ => exists s, s ∈ ss /\ ir_id s = x
  end.
Proof.
  revert h. induction ss as [|s ss IH]; intros h; simpl.
  { split; [done|]. by intros s Hs%not_elem_of_nil. }
  case_bool_decide as Hx; [exists s; split; [by left|done]|].
  assert (Hstep : forall h', match fwd_scan x y ub n ss h' with
    | inl h'' => h'' = scan_all (fun s => (ir_rank s <? ub)%Z) n ss h' /\ (forall s', s' ∈ s :: ss -> ir_id s' <> x)
    | inr _ => exists s', s' ∈ s :: ss /\ ir_id s' = x end).
  { intros h'. specialize (IH h'). destruct (fwd_scan x y ub n ss h').
    - destruct IH as [-> IH]. split; [done|]. by intros s' [->|?]%elem_of_cons; [|apply IH].
    - destruct IH as (s' & ? & ?). exists s'. split; [by right|done]. }
  destruct (negb _ && _) eqn:E; apply Hstep.
Qed.

Section Search.
Context (nxt : relation Z) (good : Z -> bool) (start : Z).

(** What has been found is reachable and good; what has left the stack has all
    its good neighbours found.  [n] is the node being expanded. *)
Record found (n : option Z) (h : search) : Prop := {
  fo_nodup : NoDup (h_delta h);
  fo_visited : forall u, u ∈ h_visited h <-> u ∈ h_delta h;
  fo_start : start ∈ h_delta h;
  fo_reach : forall u, u ∈ h_delta h -> rtc nxt start u /\ good u = true;
  fo_stack : forall u, u ∈ h_stack h -> u ∈ h_delta h;
  fo_closed : forall u v, u ∈ h_delta h -> u ∉ h_stack h -> Some u <> n -> nxt u v -> v ∈ h_delta h \/ good v = false
}.

Lemma found_init : good start = true -> found None (mkSearch {[start]} [start] ∅ [start]).
Proof.
  intros Hg. split; simpl.
  - apply NoDup_singleton.
  - set_solver.
  - by left.
  - intros u ->%list_elem_of_singleton. by split.
  - done.
  - intros u v Hu Hnu. done.
Qed.

Lemma found_pop n stack h : found None h -> h_stack h = n :: stack -> found (Some n) (h <| h_stack := stack |>).
Proof.
  intros [H1 H2 H3 H4 H5 H6] Hs. split; simpl; try done.
  - intros u Hu. apply H5. rewrite Hs. by right.
  - intros u v Hu Hnu Hne. apply H6; [done| |done]. rewrite Hs, not_elem_of_cons. split; [congruence|done].
Qed.

(** Scanning the neighbours of [n]. *)
Lemma scan_found ok n ss h :
  found (Some n) h -> n ∈ h_delta h -> (forall s, s ∈ ss -> nxt n (ir_id s) /\ ok s = good (ir_id s)) ->
  let h' := scan_all ok n ss h in
  found (Some n) h' /\ (forall u, u ∈ h_delta h -> u ∈ h_delta h') /\
  (forall u, u ∈ h_delta h' -> u ∉ h_stack h' -> u ∈ h_delta h /\ u ∉ h_stack h) /\
  (forall s, s ∈ ss -> ir_id s ∈ h_delta h' \/ good (ir_id s) = false) /\
  length (h_stack h') + length (h_delta h) = length (h_stack h) + length (h_delta h').
Proof.
  revert h. induction ss as [|s ss IH]; intros h Hf Hn Hss; simpl.
  { split_and!; try done. by intros s Hs%not_elem_of_nil. }
  destruct (Hss s) as [Hnx Hok]; [by left|].
  assert (Hss' : forall s', s' ∈ ss -> nxt n (ir_id s') /\ ok s' = good (ir_id s')) by (intros; apply Hss; by right).
  destruct (bool_decide (ir_id s ∈ h_visited h)) eqn:Hv; simpl.
  - apply bool_decide_eq_true in Hv. destruct (IH h Hf Hn Hss') as (F & I & N & D & L). split_and!; [done..| |done].
    intros s' [->|Hs']%elem_of_cons; [|by apply D]. left. by apply I, (fo_visited _ _ Hf).
  - apply bool_decide_eq_false in Hv. destruct (ok s) eqn:Eok.
    2: { destruct (IH h Hf Hn Hss') as (F & I & N & D & L). split_and!; [done..| |done].
         intros s' [->|Hs']%elem_of_cons; [right; congruence|by apply D]. }
    destruct (fo_reach _ _ Hf n Hn) as [Hr _].
    assert (Hf' : found (Some n) (visit n (ir_id s) h)).
    { rewrite (fo_visited _ _ Hf) in Hv. destruct Hf as [H1 H2 H3 H4 H5 H6]. split; simpl.
      - apply NoDup_app. split_and!; [done| |apply NoDup_singleton]. intros u Hu ->%list_elem_of_singleton. done.
      - intros u. rewrite elem_of_union, elem_of_singleton, elem_of_app, list_elem_of_singleton, H2. tauto.
      - set_solver.
      - intros u [Hu| ->%list_elem_of_singleton]%elem_of_app; [by apply H4|]. split; [|congruence].
        eapply rtc_r; [exact Hr|done].
      - intros u [->|Hu]%elem_of_cons; rewrite elem_of_app; [right; by apply list_elem_of_singleton|left; by apply H5].
      - intros u v [Hu| ->%list_elem_of_singleton]%elem_of_app Hnu Hne Hnxt; [|by destruct Hnu; left].
        rewrite elem_of_app. destruct (H6 u v Hu) as [?|?]; [|done|done|by left; left|by right].
        intros Hst. apply Hnu. by right. }
    destruct (IH _ Hf') as (F & I & N & D & L); [simpl; by apply elem_of_app; left|done|]. split_and!; [done|..].
    + intros u Hu. apply I. simpl. by apply elem_of_app; left.
    + intros u Hu Hnu. destruct (N u Hu Hnu) as [Hd Hs]. simpl in Hd, Hs. apply not_elem_of_cons in Hs as [Hne Hs].
      apply elem_of_app in Hd as [Hd| ->%list_elem_of_singleton]; done.
    + intros s' [->|Hs']%elem_of_cons; [|by apply D]. left. apply I. simpl. apply elem_of_app. right. by left.
    + simpl in L. rewrite length_app in L. simpl in L. lia.
Qed.

(** The step of a search whose scan covers the neighbours of [n]. *)
Lemma found_step ok n ss stack h :
  found None h -> h_stack h = n :: stack ->
  (forall s, s ∈ ss -> nxt n (ir_id s) /\ ok s = good (ir_id s)) ->
  (forall v, nxt n v -> exists s, s ∈ ss /\ ir_id s = v) ->
  let h' := scan_all ok n ss (h <| h_stack := stack |>) in
  found None h' /\ S (length (h_stack h') + length (h_delta h)) = length (h_stack h) + length (h_delta h').
Proof.
  intros Hf Hs Hss Hall h'. pose proof (found_pop n stack h Hf Hs) as Hp.
  assert (Hn : n ∈ h_delta h) by (apply (fo_stack _ _ Hf); rewrite Hs; by left).
  destruct (scan_found ok n ss _ Hp Hn Hss) as (F & I & _ & D & L). fold h' in F, I, D, L.
  split; [|rewrite Hs; simpl in *; lia].
  destruct F as [H1 H2 H3 H4 H5 H6]. split; try done. intros u v Hu Hnu _ Hnxt.
  destruct (decide (u = n)) as [->|Hne]; [|by apply (H6 u v); [..|congruence|]].
  destruct (Hall v Hnxt) as (s & Hin & <-). by apply D.
Qed.

End Search.

(** ** The edges of the tables *)

Definition edge_rel (d : db) : relation Z := fun u v => exists s, is_Some (d_edges d !! (s, u, v)).

Definition is_node (d : db) (u : Z) : Prop := is_Some (d_nodes d !! u).

Lemma edge_nodes d u v : graph_inv d -> edge_rel d u v -> is_node d u /\ is_node d v.
Proof. intros Hg (s & sat & He). destruct (gi_edge d Hg s u v sat He) as (ru & rv & ? & ? & _). split; by eexists. Qed.

Lemma rank_of_at d u r : d_nodes d !! u = Some r -> rank_of d u = n_Rank r.
Proof. unfold rank_of. by intros ->. Qed.

Lemma edge_rank d u v : graph_inv d -> edge_rel d u v -> (rank_of d u < rank_of d v)%Z.
Proof.
  intros Hg (s & sat & He). destruct (gi_edge d Hg s u v sat He) as (ru & rv & Hu & Hv & _ & _ & Hlt & _).
  by rewrite (rank_of_at d u ru), (rank_of_at d v rv).
Qed.

Lemma rank_of_inj d u v : graph_inv d -> is_node d u -> is_node d v -> rank_of d u = rank_of d v -> u = v.
Proof.
  intros Hg [ru Hu] [rv Hv]. rewrite (rank_of_at d u ru), (rank_of_at d v rv) by done. by apply (gi_rank_inj d Hg).
Qed.

(** The rows of one scope. *)
Definition of_scope (d : db) (sc : string) (u : Z) : Prop := exists r, d_nodes d !! u = Some r /\ n_Scope r = sc.

Lemma edge_scope d sc u v : graph_inv d -> edge_rel d u v -> of_scope d sc u <-> of_scope d sc v.
Proof.
  intros Hg (s & sat & He). destruct (gi_edge d Hg s u v sat He) as (ru & rv & Hu & Hv & Hsu & Hsv & _).
  split; intros (r & Hr & Hs); [exists rv|exists ru]; split; try done; congruence.
Qed.

Lemma edge_in_scope d sc u v : graph_inv d -> of_scope d sc u \/ of_scope d sc v -> edge_rel d u v ->
  is_Some (d_edges d !! (sc, u, v)).
Proof.
  intros Hg Hor He. destruct (He) as (s & sat & He'). destruct (gi_edge d Hg s u v sat He') as (ru & rv & Hu & Hv & Hsu & Hsv & _).
  assert (s = sc) as ->; [|by eexists]. destruct Hor as [(r & Hr & Hs)|(r & Hr & Hs)]; congruence.
Qed.

Lemma rtc_scope d sc u v : graph_inv d -> rtc (edge_rel d) u v -> of_scope d sc u -> of_scope d sc v.
Proof. intros Hg. induction 1 as [|a b c Hab _ IH]; [done|]. intros Ha. by apply IH, (edge_scope d sc a b Hg Hab). Qed.

Lemma rtc_scope_r d sc u v : graph_inv d -> rtc (flip (edge_rel d)) u v -> of_scope d sc u -> of_scope d sc v.
Proof. intros Hg. induction 1 as [|a b c Hab _ IH]; [done|]. intros Ha. by apply IH, (edge_scope d sc b a Hg Hab). Qed.

Lemma nodup_size (d : db) (l : list Z) : NoDup l -> (forall u, u ∈ l -> is_node d u) -> length l <= size (d_nodes d).
Proof.
  intros Hn Hl. rewrite <- size_dom. rewrite <- (size_list_to_set (C := gset Z)) by done.
  apply subseteq_size. intros u Hu. apply elem_of_list_to_set in Hu. by apply elem_of_dom, Hl.
Qed.

Section Order.
Context {C : Type} `{!Server C} (sc : string) (d : db) (Hg : graph_inv d).

Notation rk := (rank_of d).

(** ** The neighbours a search reads *)

Lemma wp_scanIDRanks sel (Q : list idRank -> db -> gmap string Z -> Prop) p :
  (forall l, (forall s, s ∈ l -> ir_rank s = rk (ir_id s)) ->
     (forall u, (exists s, s ∈ l /\ ir_id s = u) <-> u ∈ n_ID <$> sel d) -> Q l d p) ->
  wp (scanIDRanks sel : M C _) Q d p.
Proof.
  intros HQ. unfold scanIDRanks. wp_steps. apply HQ.
  - by intros s (i & -> & _)%list_elem_of_fmap.
  - intros u. rewrite <- H. split.
    + by intros (s & (i & -> & Hi)%list_elem_of_fmap & <-).
    + intros Hu. exists (mkIdRank u (rk u)). split; [|done]. apply list_elem_of_fmap. eauto.
Qed.

Lemma wp_successorRanks n (Q : list idRank -> db -> gmap string Z -> Prop) p :
  of_scope d sc n ->
  (forall l, (forall s, s ∈ l -> edge_rel d n (ir_id s) /\ ir_rank s = rk (ir_id s)) ->
     (forall v, edge_rel d n v -> exists s, s ∈ l /\ ir_id s = v) -> Q l d p) ->
  wp (successorRanks sc n : M C _) Q d p.
Proof.
  intros Hn HQ. apply wp_scanIDRanks. intros l Hr Hl. apply HQ.
  - intros s Hs. split; [|by apply Hr]. 
    assert (ir_id s ∈ n_ID <$> succ_rows sc n d) as (r & -> & Hin)%list_elem_of_fmap by (apply Hl; eauto).
    apply elem_succ_rows in Hin as (_ & _ & He); [|done]. by exists sc.
  - intros v He. apply Hl. destruct (edge_in_scope d sc n v Hg (or_introl Hn) He) as [sat He'].
    destruct (gi_edge d Hg _ _ _ _ He') as (_ & rv & _ & Hv & _ & Hs & _).
    pose proof (proj1 (gi_id d Hg v rv Hv)) as Hid. apply list_elem_of_fmap. exists rv. split; [done|].
    apply elem_succ_rows; [done|]. rewrite Hid. split_and!; [done..|by eexists].
Qed.

Lemma wp_predecessorRanks n (Q : list idRank -> db -> gmap string Z -> Prop) p :
  of_scope d sc n ->
  (forall l, (forall s, s ∈ l -> edge_rel d (ir_id s) n /\ ir_rank s = rk (ir_id s)) ->
     (forall v, edge_rel d v n -> exists s, s ∈ l /\ ir_id s = v) -> Q l d p) ->
  wp (predecessorRanks sc n : M C _) Q d p.
Proof.
  intros Hn HQ. apply wp_scanIDRanks. intros l Hr Hl.
  assert (Hpred : forall r, r ∈ pred_rows sc n d <->
    d_nodes d !! n_ID r = Some r /\ n_Scope r = sc /\ is_Some (d_edges d !! (sc, n_ID r, n))).
  { intros r. unfold pred_rows. rewrite elem_rows_where by done. unfold edge_in.
    rewrite andb_true_iff, bool_decide_eq_true. destruct (d_edges d !! (sc, n_ID r, n)); simpl; naive_solver. }
  apply HQ.
  - intros s Hs. split; [|by apply Hr].
    assert (ir_id s ∈ n_ID <$> pred_rows sc n d) as (r & -> & Hin)%list_elem_of_fmap by (apply Hl; eauto).
    apply Hpred in Hin as (_ & _ & He). by exists sc.
  - intros v He. apply Hl. destruct (edge_in_scope d sc v n Hg (or_intror Hn) He) as [sat He'].
    destruct (gi_edge d Hg _ _ _ _ He') as (rv & _ & Hv & _ & Hs & _).
    pose proof (proj1 (gi_id d Hg v rv Hv)) as Hid. apply list_elem_of_fmap. exists rv. split; [done|].
    apply Hpred. rewrite Hid. split_and!; [done..|by eexists].
Qed.

(** ** The two searches *)

Lemma wp_forward_loop fuel x y ub h p :
  of_scope d sc y -> found (edge_rel d) (fun u => (rk u <? ub)%Z) y None h ->
  (forall u, u ∈ h_delta h -> u ∉ h_stack h -> ~ edge_rel d u x) ->
  length (h_stack h) + size (d_nodes d) < fuel + length (h_delta h) ->
  wp (forward_loop sc fuel x y ub h : M C _)
    (fun a d' p' => d' = d /\ p' = p /\
       match fst a with
       | Some _ => rtc (edge_rel d) y x
       | None => exists h', snd a = h_delta h' /\ h_stack h' = [] /\
                   found (edge_rel d) (fun u => (rk u <? ub)%Z) y None h' /\ forall u, u ∈ h_delta h' -> ~ edge_rel d u x
       end) d p.
Proof.
  intros Hy. revert h. induction fuel as [|fuel IH]; intros h Hf Hx Hfuel.
  { assert (length (h_delta h) <= size (d_nodes d)); [|lia]. apply nodup_size; [apply Hf|]. intros u Hu.
    apply (fo_reach _ _ _ _ _ Hf) in Hu as [Hu _].
    destruct (rtc_scope d sc y u Hg Hu Hy) as (r & Hr & _). by eexists. }
  cbn [forward_loop]. destruct (h_stack h) as [|n stack] eqn:Hs.
  { apply wp_ret. split_and!; [done..|]. exists h. split_and!; [done..|]. intros u Hu. apply Hx; [done|].
    apply not_elem_of_nil. }
  assert (Hn : n ∈ h_delta h) by (apply (fo_stack _ _ _ _ _ Hf); rewrite Hs; by left).
  destruct (fo_reach _ _ _ _ _ Hf n Hn) as [Hyn _].
  apply wp_bind, wp_successorRanks; [by eapply rtc_scope|]. intros ss Hss Hall.
  pose proof (fwd_scan_all x y ub n ss (h <| h_stack := stack |>)) as Hscan.
  destruct (fwd_scan x y ub n ss _) as [h'|path].
  2: { destruct Hscan as (s & Hin & <-). apply wp_ret. split_and!; [done..|]. simpl.
       eapply rtc_r; [done|]. by apply Hss. }
  destruct Hscan as [-> Hnx].
  destruct (found_step (edge_rel d) (fun u => (rk u <? ub)%Z) y (fun s => (ir_rank s <? ub)%Z) n ss stack h Hf Hs)
    as [Hf' Hlen].
  { intros s Hin. destruct (Hss s Hin) as [He ->]. done. }
  { done. }
  destruct (scan_found (edge_rel d) (fun u => (rk u <? ub)%Z) y (fun s => (ir_rank s <? ub)%Z) n ss (h <| h_stack := stack |>))
    as (_ & _ & Hback & _ & _); [by apply found_pop|done|intros s Hin; destruct (Hss s Hin) as [He ->]; done|].
  set (h' := scan_all _ n ss _) in *. apply IH; [done| |rewrite Hs in *; simpl in *; lia].
  (* a node that left the stack has no edge to x *)
  intros u Hu Hnu Hux. destruct (decide (u = n)) as [->|Hne].
  { destruct (Hall x Hux) as (s & Hin & E). by apply (Hnx s). }
  destruct (Hback u Hu Hnu) as [Hd Hst]. simpl in Hd, Hst. apply (Hx u); [done| |done].
  by rewrite not_elem_of_cons.
Qed.

Lemma wp_backward_loop fuel x lb h p :
  of_scope d sc x -> found (flip (edge_rel d)) (fun u => (lb <? rk u)%Z) x None h ->
  length (h_stack h) + size (d_nodes d) < fuel + length (h_delta h) ->
  wp (backward_loop sc fuel lb h : M C _)
    (fun a d' p' => d' = d /\ p' = p /\ exists h', a = h_delta h' /\ h_stack h' = [] /\
       found (flip (edge_rel d)) (fun u => (lb <? rk u)%Z) x None h') d p.
Proof.
  intros Hx. revert h. induction fuel as [|fuel IH]; intros h Hf Hfuel.
  { assert (length (h_delta h) <= size (d_nodes d)); [|lia]. apply nodup_size; [apply Hf|]. intros u Hu.
    apply (fo_reach _ _ _ _ _ Hf) in Hu as [Hu _].
    destruct (rtc_scope_r d sc x u Hg Hu Hx) as (r & Hr & _). by eexists. }
  cbn [backward_loop]. destruct (h_stack h) as [|n stack] eqn:Hs.
  { apply wp_ret. split_and!; [done..|]. by exists h. }
  assert (Hn : n ∈ h_delta h) by (apply (fo_stack _ _ _ _ _ Hf); rewrite Hs; by left).
  destruct (fo_reach _ _ _ _ _ Hf n Hn) as [Hxn _].
  apply wp_bind, wp_predecessorRanks; [by eapply rtc_scope_r|]. intros ss Hss Hall. rewrite bwd_scan_all.
  destruct (found_step (flip (edge_rel d)) (fun u => (lb <? rk u)%Z) x (fun s => (lb <? ir_rank s)%Z) n ss stack h Hf Hs)
    as [Hf' Hlen].
  { intros s Hin. destruct (Hss s Hin) as [He ->]. done. }
  { done. }
  apply IH; [done|]. rewrite Hs in Hlen. simpl in *. lia.
Qed.

(** ** Reading and writing ranks *)

Lemma rank_in_ranks (ids : list Z) u :
  u ∈ ids -> is_node d u ->
  rank_in (list_to_map (omap (fun i => (fun r => (i, n_Rank r)) <$> d_nodes d !! i) ids)) u = rk u.
Proof.
  intros Hin [r Hr]. unfold rank_in. induction ids as [|i ids IH]; [by apply not_elem_of_nil in Hin|]. simpl.
  destruct (decide (i = u)) as [->|Hne].
  - rewrite Hr. simpl. rewrite lookup_insert_eq. simpl. by rewrite (rank_of_at d u r).
  - apply elem_of_cons in Hin as [?|Hin]; [congruence|]. destruct (d_nodes d !! i); simpl; [|by apply IH].
    rewrite lookup_insert_ne by done. by apply IH.
Qed.

(** The tables with other ranks: [d'] differs from [d0] in the ranks only. *)
Record reranked (d0 d' : db) : Prop := {
  rr_forth : forall i r, d_nodes d0 !! i = Some r -> exists v, d_nodes d' !! i = Some (r <| n_Rank := v |>) /\
    row_check (r <| n_Rank := v |>) = None;
  rr_back : forall i r', d_nodes d' !! i = Some r' -> is_Some (d_nodes d0 !! i);
  rr_edges : d_edges d' = d_edges d0;
  rr_scopes : d_scopes d' = d_scopes d0;
  rr_events : d_events d' = d_events d0;
  rr_q : q_id d' = q_id d0 /\ q_rank d' = q_rank d0 /\ q_fifo d' = q_fifo d0 /\ q_cursor d' = q_cursor d0
}.

Lemma reranked_refl : reranked d d.
Proof.
  split; try done. intros i r Hr. exists (n_Rank r). split; [rewrite Hr; by destruct r|].
  pose proof (ri_check _ (gi_row d Hg i r Hr)) as Hc. by destruct r.
Qed.

Lemma wp_assign ids vals p :
  NoDup ids -> length vals = length ids ->
  wp (assign ids vals : M C _)
    (fun _ d' p' => p' = p /\ reranked d d' /\ (forall u, u ∉ ids -> rank_of d' u = rk u) /\
       forall i u v, ids !! i = Some u -> vals !! i = Some v -> is_node d u -> rank_of d' u = v) d p.
Proof.
  intros Hnd Hlen. unfold assign.
  eapply wp_mono; [apply (wp_foldM _ (fun l _ d1 p1 => p1 = p /\ reranked d d1 /\ NoDup l.*1 /\
    (forall u, u ∉ ids -> rank_of d1 u = rk u) /\
    (forall i u v, ids !! i = Some u -> vals !! i = Some v -> is_node d u -> (u, v) ∈ l \/ (u ∉ l.*1 /\ rank_of d1 u = v)) /\
    (forall x, x ∈ l.*1 -> x ∈ ids)))|].
  - split_and!; [done|apply reranked_refl|by rewrite fst_zip by lia|done| |by rewrite fst_zip by lia].
    intros i u v Hu Hv _. left. apply list_elem_of_lookup. exists i. rewrite lookup_zip_with, Hu. simpl. by rewrite Hv.
  - intros [i w] l [] d1 p1 (-> & Hrr & Hl & Hout & Hin & Hsub). simpl in Hl. apply NoDup_cons in Hl as [Hi Hl]. simpl.
    apply wp_update_exec.
    + intros Hno. split_and!; [done|done|done|done| |intros; apply Hsub; by right].
      intros j u v Hu Hv Hn. destruct (Hin j u v Hu Hv Hn) as [[E|H]%elem_of_cons|[H1 H2]]; [|by left|].
      * injection E as -> ->. destruct Hn as [r Hr]. destruct (rr_forth _ _ Hrr i r Hr) as (? & ? & _). congruence.
      * right. split; [|done]. set_solver.
    + intros r1 Hr1 Hc. destruct (rr_back _ _ Hrr i r1 Hr1) as [r Hr].
      destruct (rr_forth _ _ Hrr i r Hr) as (v1 & Hv1 & _). assert (r1 = r <| n_Rank := v1 |>) as -> by congruence.
      assert (Hid : n_ID r = i) by (apply (gi_id d Hg i r Hr)).
      change (row_check (r <| n_Rank := w |>) = None) in Hc.
      change (put _ d1) with (put (r <| n_Rank := w |>) d1).
      assert (Hlk : forall j, d_nodes (put (r <| n_Rank := w |>) d1) !! j =
                if decide (j = i) then Some (r <| n_Rank := w |>) else d_nodes d1 !! j).
      { intros j. rewrite lookup_put. simpl. by rewrite Hid. }
      assert (Hrk : forall j, rank_of (put (r <| n_Rank := w |>) d1) j = if decide (j = i) then w else rank_of d1 j).
      { intros j. unfold rank_of. rewrite Hlk. by case_decide. }
      split_and!; [done| |done| | |intros; apply Hsub; by right].
      * destruct Hrr as [F B E S V Q]. split; [..|done|done|done|done].
        -- intros j rj Hj. rewrite Hlk. case_decide; [|by apply F]. subst j. rewrite Hr in Hj. simplify_eq. eauto.
        -- intros j rj. rewrite Hlk. case_decide; [subst; intros _; by eexists|by apply B].
      * intros u Hu. rewrite Hrk. case_decide; [|by apply Hout]. subst u. destruct Hu. apply Hsub. by left.
      * intros j u v Hu Hv Hn. rewrite Hrk. destruct (Hin j u v Hu Hv Hn) as [[E|H]%elem_of_cons|[H1 H2]]; [|by left|].
        -- injection E as -> ->. right. by rewrite decide_True.
        -- right. simpl in H1. apply not_elem_of_cons in H1 as [H1 H1']. by rewrite decide_False.
  - intros [] d' p' _ (-> & Hrr & _ & Hout & Hin & _). split_and!; [done..|].
    intros i u v Hu Hv Hn. by destruct (Hin i u v Hu Hv Hn) as [H%not_elem_of_nil|[_ H]].
Qed.

#[local] Instance rank_before_total ranks : Total (rank_before ranks).
Proof. intros a b. unfold rank_before. lia. Qed.

#[local] Instance rank_before_trans ranks : Transitive (rank_before ranks).
Proof. intros a b c. unfold rank_before. lia. Qed.

(** ** [addEdgeOrder] *)

Lemma wp_reorder x y B F p :
  is_node d x -> is_node d y -> regions rk (edge_rel d) x y B F ->
  wp (reorder B F : M C _)
    (fun _ d' p' => p' = p /\ reranked d d' /\ (rank_of d' x < rank_of d' y)%Z /\
       (forall u v, edge_rel d u v -> (rank_of d' u < rank_of d' v)%Z) /\
       (forall u v, is_node d u -> is_node d v -> rank_of d' u = rank_of d' v -> u = v) /\
       (forall u, is_node d u -> exists v, is_node d v /\ rank_of d' u = rk v)) d p.
Proof.
  intros Hx Hy Hrg. unfold reorder, ranksOf. apply wp_bind, wp_query.
  set (ranks := list_to_map _).
  assert (Hmono := fun u v => edge_rank d u v Hg). assert (Hinj := fun u v => rank_of_inj d u v Hg).
  assert (Hlive := fun u v => edge_nodes d u v Hg).
  assert (Hnode := region_live rk (edge_rel d) (is_node d) Hlive x y Hx Hy B F Hrg).
  assert (Hdisj := regions_disjoint rk (edge_rel d) Hmono x y B F Hrg).
  assert (Hri := region_inj rk (edge_rel d) (is_node d) Hlive Hinj x y Hx Hy B F Hrg).
  destruct (rg_B _ _ _ _ _ _ Hrg) as [nB _]. destruct (rg_F _ _ _ _ _ _ Hrg) as [nF _].
  assert (Hrk : forall u, u ∈ B \/ u ∈ F -> rank_in ranks u = rk u).
  { intros u Hu. apply rank_in_ranks; [by apply elem_of_app|by apply Hnode]. }
  set (B' := merge_sort (rank_before ranks) B). set (F' := merge_sort (rank_before ranks) F).
  assert (PB : B' ≡ₚ B) by apply merge_sort_Permutation. assert (PF : F' ≡ₚ F) by apply merge_sort_Permutation.
  assert (EB : rank_in ranks <$> B' = rk <$> B').
  { apply list_fmap_ext. intros i u Hu%list_elem_of_lookup_2. apply Hrk. left. by rewrite <- PB. }
  assert (EF : rank_in ranks <$> F' = rk <$> F').
  { apply list_fmap_ext. intros i u Hu%list_elem_of_lookup_2. apply Hrk. right. by rewrite <- PF. }
  assert (HiB : incr (rk <$> B')).
  { rewrite <- EB. apply (sort_incr (rank_in ranks)); [apply _|apply _|intros a b H; exact H|done|].
    intros a b Ha Hb. rewrite !Hrk by auto. apply Hri; auto. }
  assert (HiF : incr (rk <$> F')).
  { rewrite <- EF. apply (sort_incr (rank_in ranks)); [apply _|apply _|intros a b H; exact H|done|].
    intros a b Ha Hb. rewrite !Hrk by auto. apply Hri; auto. }
  rewrite EB, EF. fold (pool rk B' F').
  assert (Hlen : length (pool rk B' F') = length (B' ++ F')) by (rewrite pool_length, length_app; done).
  eapply wp_mono; [apply wp_assign; [|done]|].
  { apply NoDup_app. split_and!; [by rewrite PB| |by rewrite PF]. intros u. rewrite PB, PF. apply Hdisj. }
  intros _ d' p' _ (-> & Hrr & Hout & Hin).
  assert (Hat : forall i u, (B' ++ F') !! i = Some u -> pool rk B' F' !! i = Some (rank_of d' u)).
  { intros i u Hi. pose proof (lookup_lt_Some _ _ _ Hi) as Hl. rewrite <- Hlen in Hl.
    destruct (lookup_lt_is_Some_2 _ _ Hl) as [v Hv]. rewrite Hv. f_equal. symmetry. apply (Hin i u v Hi Hv).
    apply Hnode. rewrite <- PB, <- PF, <- elem_of_app. by eapply list_elem_of_lookup_2. }
  assert (Hout' : forall u, u ∉ B -> u ∉ F -> rank_of d' u = rk u).
  { intros u H1 H2. apply Hout. rewrite elem_of_app, PB, PF. tauto. }
  split_and!; [done|done|..].
  - apply (renumber_new rk (edge_rel d) (is_node d) Hlive Hmono Hinj x y Hx Hy B F Hrg B' F' (rank_of d') PB PF Hat).
  - apply (renumber_mono rk (edge_rel d) (is_node d) Hlive Hmono Hinj x y Hx Hy B F Hrg B' F' (rank_of d') PB PF HiB HiF Hat Hout').
  - apply (renumber_inj rk (edge_rel d) (is_node d) Hlive Hmono Hinj x y Hx Hy B F Hrg B' F' (rank_of d') PB PF Hat Hout').
  - apply (renumber_values rk (edge_rel d) (is_node d) Hlive x y Hx Hy B F Hrg B' F' (rank_of d') PB PF Hat Hout').
Qed.

Lemma wp_addEdgeOrder x y p :
  of_scope d sc x -> of_scope d sc y -> x <> y ->
  wp (addEdgeOrder sc x y : M C _)
    (fun res d' p' => p' = p /\
       match cyclePath res with
       | Some _ => d' = d /\ rtc (edge_rel d) y x
       | None => ~ rtc (edge_rel d) y x /\ reranked d d' /\ (rank_of d' x < rank_of d' y)%Z /\
           (forall u v, edge_rel d u v -> (rank_of d' u < rank_of d' v)%Z) /\
           (forall u v, is_node d u -> is_node d v -> rank_of d' u = rank_of d' v -> u = v) /\
           (forall u, is_node d u -> exists v, is_node d v /\ rank_of d' u = rk v)
       end) d p.
Proof.
  intros Hxs Hys Hne. unfold addEdgeOrder, ranksOf. apply wp_bind, wp_query.
  assert (Hx : is_node d x) by (destruct Hxs as (r & ? & _); by eexists).
  assert (Hy : is_node d y) by (destruct Hys as (r & ? & _); by eexists).
  assert (Hmono := fun u v => edge_rank d u v Hg). assert (Hinj := fun u v => rank_of_inj d u v Hg).
  cbv zeta. rewrite !rank_in_ranks by (done || set_solver).
  destruct (Z.ltb_spec (rk x) (rk y)) as [Hlt|Hge].
  { apply wp_ret. simpl. split_and!; [done| |apply reranked_refl|done|done|done|eauto].
    intros Hr%(rtc_rank rk (edge_rel d) Hmono). lia. }
  assert (Hlt : (rk y < rk x)%Z).
  { assert (rk x <> rk y); [|lia]. intros E. apply Hne. by apply Hinj. }
  apply wp_bind. unfold forwardSearch. apply wp_bind, wp_gets.
  eapply wp_mono; [apply wp_forward_loop; [done| | |unfold search_fuel; simpl; lia]|].
  { apply found_init. by apply Z.ltb_lt. }
  { simpl. intros u Hu Hnu. done. }
  intros [[path|] F] d1 p1 _ (-> & -> & HF); [apply wp_ret; by simpl|].
  destruct HF as (hF & EF & HsF & HfF & HnxF). simpl in EF. subst F.
  apply wp_bind. unfold backwardSearch. apply wp_bind, wp_gets.
  eapply wp_mono; [apply (wp_backward_loop _ x); [done| |unfold search_fuel; simpl; lia]|].
  { apply found_init. by apply Z.ltb_lt. }
  intros B d2 p2 _ (-> & -> & hB & -> & HsB & HfB). apply wp_bind.
  assert (Hrg : regions rk (edge_rel d) x y (h_delta hB) (h_delta hF)).
  { split.
    - split; [apply (fo_nodup _ _ _ _ _ HfB)|apply (fo_start _ _ _ _ _ HfB)].
    - split; [apply (fo_nodup _ _ _ _ _ HfF)|apply (fo_start _ _ _ _ _ HfF)].
    - intros u Hu. destruct (fo_reach _ _ _ _ _ HfB u Hu) as [Hr Hgd%Z.ltb_lt]. split; [|done].
      clear -Hr. induction Hr as [|a b c Hab _ IH]; [done|]. by eapply rtc_r.
    - intros u Hu. destruct (fo_reach _ _ _ _ _ HfF u Hu) as [Hr Hgd%Z.ltb_lt]. done.
    - intros u v Hv He. destruct (fo_closed _ _ _ _ _ HfB v u Hv) as [?|Hb%Z.ltb_ge]; [|done|done|by left|right; lia].
      rewrite HsB. apply not_elem_of_nil.
    - intros u v Hu He. destruct (fo_closed _ _ _ _ _ HfF u v Hu) as [?|Hb%Z.ltb_ge]; [|done|done|by left|right].
      { rewrite HsF. apply not_elem_of_nil. }
      assert (rk x <> rk v); [|lia]. intros E. destruct (edge_nodes d u v Hg He) as [_ Hv].
      apply (HnxF u Hu). by rewrite (Hinj x v Hx Hv E). }
  eapply wp_mono; [by apply (wp_reorder x y)|]. intros _ d3 p3 _ (-> & H). apply wp_ret. split; [done|]. simpl.
  split; [|done]. apply (no_route rk (edge_rel d) Hmono x y _ _ Hrg).
Qed.

End Order.
