(* ===== verification/PgLinkFacts.v ===== *)
(** * Linking and unlinking keep the invariant *)
From S2P Require Import Prelude Types Config Scope ListFacts MapSum PgDb PgTopo PgEngine PgInv PgTerminate PgTopoFacts.

(** ** New ranks *)

Section Rerank.
Context (d d' : db) (Hg : graph_inv d) (Hrr : reranked d d').
Context (Hmono : forall u v, edge_rel d u v -> (rank_of d' u < rank_of d' v)%Z).
Context (Hinj : forall u v, is_node d u -> is_node d v -> rank_of d' u = rank_of d' v -> u = v).
Context (Hval : forall u, is_node d u -> exists v, is_node d v /\ rank_of d' u = rank_of d v).

(** A row of the new table is the old row with its new rank. *)
Lemma rerank_row i r' : d_nodes d' !! i = Some r' -> exists r, d_nodes d !! i = Some r /\ r' = r <| n_Rank := n_Rank r' |>.
Proof.
  intros Hr'. destruct (rr_back _ _ Hrr i r' Hr') as [r Hr]. destruct (rr_forth _ _ Hrr i r Hr) as (v & Hv & _).
  exists r. split; [done|]. assert (r' = r <| n_Rank := v |>) as -> by congruence. done.
Qed.

Lemma rerank_class a sat : edge_class (d_nodes d') a sat = edge_class (d_nodes d) a sat.
Proof.
  unfold edge_class. destruct (d_nodes d' !! a) as [r'|] eqn:Hr'.
  - destruct (rerank_row a r' Hr') as (r & -> & ->). done.
  - destruct (d_nodes d !! a) as [r|] eqn:Hr; [|done]. destruct (rr_forth _ _ Hrr a r Hr) as (v & Hv & _). congruence.
Qed.

Lemma rerank_count b c : edge_count d' b c = edge_count d b c.
Proof.
  unfold edge_count. rewrite (rr_edges _ _ Hrr). apply into_ext. intros. apply rerank_class.
Qed.

Lemma rerank_graph : graph_inv d'.
Proof.
  destruct (rr_q _ _ Hrr) as (Q1 & Q2 & _). split.
  - intros i r' (r & Hr & ->)%rerank_row. rewrite Q1. by apply (gi_id d Hg i r).
  - intros i j x x' (r & Hr & ->)%rerank_row (r2 & Hr2 & ->)%rerank_row. by apply (gi_ext d Hg i j r r2).
  - intros i r' Hr'. destruct (rerank_row i r' Hr') as (r & Hr & E). destruct (rr_forth _ _ Hrr i r Hr) as (v & Hv & Hc).
    assert (r' = r <| n_Rank := v |>) as -> by congruence. destruct (gi_row d Hg i r Hr). by split.
  - intros s a b sat He. rewrite (rr_edges _ _ Hrr) in He.
    destruct (gi_edge d Hg s a b sat He) as (ra & rb & Ha & Hb & ? & ? & _ & ?).
    destruct (rr_forth _ _ Hrr a ra Ha) as (va & Hva & _), (rr_forth _ _ Hrr b rb Hb) as (vb & Hvb & _).
    exists (ra <| n_Rank := va |>), (rb <| n_Rank := vb |>). split_and!; try done.
    rewrite <- (rank_of_at d' a _ Hva), <- (rank_of_at d' b _ Hvb). apply Hmono. exists s. by eexists.
  - intros b x c Hx. destruct (rerank_row b x Hx) as (r & Hr & ->). rewrite rerank_count. by apply (gi_deps d Hg b r c).
  - intros i r' Hr'. destruct (rerank_row i r' Hr') as (r & Hr & _).
    destruct (Hval i) as (v & [rv Hv] & E); [by eexists|]. rewrite (rank_of_at d' i r' Hr') in E.
    rewrite E, (rank_of_at d v rv Hv), Q2. by eapply (gi_rank d Hg).
  - intros i j x x' Hx Hx' E. destruct (rerank_row i x Hx) as (r & Hr & _). destruct (rerank_row j x' Hx') as (r2 & Hr2 & _).
    apply Hinj; [by eexists..|]. by rewrite (rank_of_at d' i x Hx), (rank_of_at d' j x' Hx').
Qed.

Lemma rerank_node_count s col : node_count d' s col = node_count d s col.
Proof.
  unfold node_count. assert (E : d_nodes d' = map_imap (fun i r => Some (r <| n_Rank := rank_of d' i |>)) (d_nodes d)).
  { apply map_eq. intros i. rewrite map_lookup_imap. destruct (d_nodes d !! i) as [r|] eqn:Hr; simpl.
    - destruct (rr_forth _ _ Hrr i r Hr) as (v & Hv & _). rewrite Hv. by rewrite (rank_of_at d' i _ Hv).
    - destruct (d_nodes d' !! i) as [r'|] eqn:Hr'; [|done]. destruct (rr_back _ _ Hrr i r' Hr'). congruence. }
  rewrite E. clear E. generalize (rank_of d'). intros f.
  induction (d_nodes d) as [|i r m Hi IH] using map_ind; [by rewrite map_imap_empty, !msum_empty|].
  rewrite map_imap_insert. rewrite !msum_insert; [|done|by rewrite map_lookup_imap, Hi]. by rewrite IH.
Qed.

Lemma rerank_inv {off} skip sc p : pg_inv off skip sc p d -> pg_inv off skip sc p d'.
Proof.
  intros [_ Hu Hst [Hs1 Hs2] [L1 L2 L3]]. destruct (rr_q _ _ Hrr) as (_ & _ & _ & Q4). split.
  - apply rerank_graph.
  - intros s a b ra He Ha Hd. rewrite (rr_edges _ _ Hrr) in He. destruct (rerank_row a ra Ha) as (r & Hr & E).
    eapply (Hu s a b r He Hr). rewrite E in Hd. exact Hd.
  - intros s row col Hrow. rewrite (rr_scopes _ _ Hrr) in Hrow. rewrite rerank_node_count. by apply Hst.
  - split; rewrite (rr_scopes _ _ Hrr); [|done]. intros i r' (r & Hr & ->)%rerank_row. by apply (Hs1 i r).
  - split; rewrite ?(rr_events _ _ Hrr), ?Q4; done.
Qed.

End Rerank.

(** ** One more edge *)

Section Link.
Context (d : db) (sc : string) (a b : Z) (ra rb : nodeRow) (Hg : graph_inv d).
Context (He : d_edges d !! (sc, a, b) = None).
Context (Ha : d_nodes d !! a = Some ra) (Hb : d_nodes d !! b = Some rb).
Context (Hsa : n_Scope ra = sc) (Hsb : n_Scope rb = sc) (Hlt : (n_Rank ra < n_Rank rb)%Z).

Let sat := done ra.
Let rb' := rb <| n_Deps := dep_link sat (n_Status ra) (n_Reason ra) (n_Deps rb) |>.
Let d1 := put rb' (set_edge (sc, a, b) sat d).

Lemma link_at : d_nodes d !! n_ID rb' = Some rb.
Proof. simpl. by rewrite (proj1 (gi_id d Hg b rb Hb)). Qed.

Lemma link_keeps : keeps rb rb'.
Proof. by split. Qed.

Lemma link_ne : a <> b.
Proof. intros ->. rewrite Ha in Hb. simplify_eq. lia. Qed.

Lemma link_a : d_nodes d1 !! a = Some ra.
Proof.
  unfold d1. rewrite lookup_put, decide_False; [done|]. simpl.
  rewrite (proj1 (gi_id d Hg b rb Hb)). apply link_ne.
Qed.

Lemma link_count i c :
  edge_count d1 i c =
  (edge_count d i c + if bool_decide (b = i) then Z.b2z (bool_decide (class_of sat (n_Status ra) (n_Reason ra) = c)) else 0)%Z.
Proof.
  unfold edge_count. change (d_edges d1) with (<[(sc, a, b) := sat]> (d_edges d)).
  rewrite (into_ext (d_nodes d1) (d_nodes d)).
  - rewrite msum_insert by done. rewrite (into_at _ _ _ _ _ _ ra) by done. case_bool_decide; lia.
  - intros s' a' b' sat' He'. destruct (decide ((s', a', b') = (sc, a, b))) as [E|E].
    + injection E as -> -> ->. unfold edge_class. by rewrite Ha, link_a.
    + rewrite lookup_insert_ne in He' by done. by apply (put_class d rb rb' Hg link_at link_keeps s' a' b').
Qed.

Lemma pg_link_graph : row_check rb' = None -> graph_inv d1.
Proof.
  intros Hc. assert (Hrow : row_inv rb') by (destruct (gi_row d Hg b rb Hb); by split).
  assert (Hid := proj1 (gi_id d Hg b rb Hb)).
  apply (graph_keep d); [done|unfold d1, set_edge; auto with pg|apply (put_back d rb rb' link_at link_keeps)|..].
  - intros i x. change (d_nodes d1) with (d_nodes (put rb' d)). rewrite lookup_put.
    case_decide; intros; simplify_eq; [done|by eapply (gi_row d Hg)].
  - intros s' a' b' sat' He'. change (d_edges d1) with (<[(sc, a, b) := sat]> (d_edges d)) in He'.
    destruct (decide ((s', a', b') = (sc, a, b))) as [E|E].
    + injection E as -> -> ->. rewrite lookup_insert_eq in He'. injection He' as <-. exists ra, rb'.
      split_and!; [apply link_a| |done..]. unfold d1. rewrite lookup_put. simpl. rewrite Hid. by rewrite decide_True.
    + rewrite lookup_insert_ne in He' by done.
      apply (edge_keep d); [done|done|apply (put_forth d rb rb' link_at link_keeps)].
  - intros i x c Hx. rewrite link_count. change (d_nodes d1) with (d_nodes (put rb' d)) in Hx. rewrite lookup_put in Hx.
    change (n_ID rb') with (n_ID rb) in Hx. rewrite Hid in Hx. case_decide as E.
    + subst i. injection Hx as <-. rewrite bool_decide_eq_true_2 by done.
      change (n_Deps rb') with (dep_link sat (n_Status ra) (n_Reason ra) (n_Deps rb)).
      rewrite dep_link_field; [by rewrite (gi_deps d Hg b rb c Hb)|]. intros c'.
      pose proof (row_check_int4 rb c' (ri_check _ (gi_row d Hg b rb Hb))). rewrite (gi_deps d Hg b rb c' Hb) in *.
      pose proof (edge_count_nonneg d b c'). lia.
    + rewrite bool_decide_eq_false_2 by congruence. rewrite (gi_deps d Hg i x c) by done. lia.
Qed.

Lemma link_inv {off} p : pg_inv off None sc p d -> row_check rb' = None -> pg_inv off None sc p d1.
Proof.
  intros [_ Hu Hst Hsc Hl] Hc. split.
  - by apply pg_link_graph.
  - intros s' x y rx Hxy Hx Hdx. change (d_edges d1) with (<[(sc, a, b) := sat]> (d_edges d)) in Hxy.
    destruct (decide ((s', x, y) = (sc, a, b))) as [E|E].
    + injection E as -> -> ->. rewrite lookup_insert_eq in Hxy. rewrite link_a in Hx. injection Hx as <-.
      injection Hxy as E. unfold sat in E. congruence.
    + rewrite lookup_insert_ne in Hxy by done.
      apply (put_unsat d rb rb' link_at link_keeps None Hu) with (s := s') (b := y) (ra := rx); [auto|done..].
  - by apply (put_stat_same sc p d rb); [apply link_at|..].
  - apply (put_scope_inv (set_edge (sc, a, b) sat d) rb); [apply link_at|done|]. destruct Hsc; by split.
  - destruct Hl; by split.
Qed.

End Link.

(** ** One edge less *)

(** [cut k d]: the edge [k] deleted. *)
Definition cut (k : string * Z * Z) (d : db) : db := d <| d_edges ::= delete k |>.

Arguments cut _ _ : simpl never.

Section Unlink.
Context (d : db) (sc : string) (a b : Z) (sat : bool) (ra rb : nodeRow) (Hg : graph_inv d).
Context (He : d_edges d !! (sc, a, b) = Some sat).
Context (Ha : d_nodes d !! a = Some ra) (Hb : d_nodes d !! b = Some rb).

Let rb' := rb <| n_Deps ::= dep_undo sat (n_Status ra) (n_Reason ra) |>.
Let d1 := put rb' (cut (sc, a, b) d).

Lemma unlink_at : d_nodes d !! n_ID rb' = Some rb.
Proof. simpl. by rewrite (proj1 (gi_id d Hg b rb Hb)). Qed.

Lemma unlink_keeps : keeps rb rb'.
Proof. by split. Qed.

Lemma unlink_count i c :
  edge_count d1 i c =
  (edge_count d i c - if bool_decide (b = i) then Z.b2z (bool_decide (class_of sat (n_Status ra) (n_Reason ra) = c)) else 0)%Z.
Proof.
  unfold edge_count. change (d_edges d1) with (delete (sc, a, b) (d_edges d)).
  rewrite (into_ext (d_nodes d1) (d_nodes d)).
  - rewrite (msum_delete _ (d_edges d) (sc, a, b) sat) by done. rewrite (into_at _ _ _ _ _ _ ra) by done.
    case_bool_decide; lia.
  - intros s' a' b' sat' [_ He']%lookup_delete_Some. by apply (put_class d rb rb' Hg unlink_at unlink_keeps s' a' b').
Qed.

Lemma pg_unlink_graph : row_check rb' = None -> graph_inv d1.
Proof.
  intros Hc. assert (Hrow : row_inv rb') by (destruct (gi_row d Hg b rb Hb); by split).
  assert (Hid := proj1 (gi_id d Hg b rb Hb)).
  apply (graph_keep d); [done|unfold d1, cut; auto with pg|apply (put_back d rb rb' unlink_at unlink_keeps)|..].
  - intros i x. change (d_nodes d1) with (d_nodes (put rb' d)). rewrite lookup_put.
    case_decide; intros; simplify_eq; [done|by eapply (gi_row d Hg)].
  - intros s' a' b' sat' He'. change (d_edges d1) with (delete (sc, a, b) (d_edges d)) in He'.
    apply lookup_delete_Some in He' as [_ He'].
    apply (edge_keep d); [done|done|apply (put_forth d rb rb' unlink_at unlink_keeps)].
  - intros i x c Hx. rewrite unlink_count. change (d_nodes d1) with (d_nodes (put rb' d)) in Hx. rewrite lookup_put in Hx.
    change (n_ID rb') with (n_ID rb) in Hx. rewrite Hid in Hx. case_decide as E.
    + subst i. injection Hx as <-. rewrite bool_decide_eq_true_2 by done.
      change (n_Deps rb') with (dep_undo sat (n_Status ra) (n_Reason ra) (n_Deps rb)).
      rewrite dep_undo_field; [by rewrite (gi_deps d Hg b rb c Hb)|]. by eapply (tally_pos d sc a b ra rb).
    + rewrite bool_decide_eq_false_2 by congruence. rewrite (gi_deps d Hg i x c) by done. lia.
Qed.

Lemma unlink_inv {off} p : pg_inv off None sc p d -> row_check rb' = None -> pg_inv off None sc p d1.
Proof.
  intros [_ Hu Hst Hsc Hl] Hc. split.
  - by apply pg_unlink_graph.
  - intros s' x y rx Hxy Hx Hdx. change (d_edges d1) with (delete (sc, a, b) (d_edges d)) in Hxy.
    apply lookup_delete_Some in Hxy as [_ Hxy].
    apply (put_unsat d rb rb' unlink_at unlink_keeps None Hu) with (s := s') (b := y) (ra := rx); [auto|done..].
  - by apply (put_stat_same sc p d rb); [apply unlink_at|..].
  - apply (put_scope_inv (cut (sc, a, b) d) rb); [apply unlink_at|done|]. destruct Hsc; by split.
  - destruct Hl; by split.
Qed.

End Unlink.

(** ** The calls *)

(** A Go copy of a row that agrees with the table in all that linking reads. *)
Definition copy (sc : string) (n : nodeRow) (d : db) : Prop :=
  exists r, d_nodes d !! n_ID n = Some r /\ n_Scope r = sc /\ n_NodeID r = n_NodeID n /\
    n_Phase r = n_Phase n /\ n_Status r = n_Status n /\ n_Reason r = n_Reason n /\ n_Deps r = n_Deps n.

Lemma copy_fresh sc n d : copy sc n d -> fresh sc n d.
Proof. intros (r & ? & ? & ? & ? & ? & _). by exists r. Qed.

Lemma scan_deps d i r : graph_inv d -> d_nodes d !! i = Some r -> n_Deps (scanNode r) = n_Deps r.
Proof.
  intros Hg Hr. simpl.
  assert (Hb : forall c, (0 <= dep_field c (n_Deps r) <= max_i32)%Z).
  { intros c. pose proof (row_check_int4 r c (ri_check _ (gi_row d Hg i r Hr))).
    rewrite (gi_deps d Hg i r c Hr) in *. pose proof (edge_count_nonneg d i c). lia. }
  assert (Hn : forall z, (0 <= z <= max_i32)%Z -> narrowU32 z = z).
  { intros z Hz. unfold narrowU32, max_i32, max_u32 in *. repeat split_cmp; lia. }
  pose proof (Hb DUnsat). pose proof (Hb DSucc). pose proof (Hb DSkip). pose proof (Hb DFail). simpl in *.
  rewrite !Hn by done. by destruct (n_Deps r).
Qed.

Lemma copy_scan sc d i r : graph_inv d -> d_nodes d !! i = Some r -> n_Scope r = sc -> copy sc (scanNode r) d.
Proof.
  intros Hg Hr Hs. exists r. rewrite (scan_deps d i r Hg Hr). simpl. rewrite (proj1 (gi_id d Hg i r Hr)).
  by split_and!.
Qed.

(** What linking leaves: the rows but for their ranks, and the tally of [t]. *)
Record relinked (t : Z) (d d' : db) : Prop := {
  rl_forth : forall i r, d_nodes d !! i = Some r -> exists v dp,
    d_nodes d' !! i = Some (r <| n_Rank := v |> <| n_Deps := dp |>) /\ (i <> t -> dp = n_Deps r);
  rl_back : forall i r', d_nodes d' !! i = Some r' -> is_Some (d_nodes d !! i);
  rl_scopes : d_scopes d' = d_scopes d
}.

Lemma relinked_refl t d : relinked t d d.
Proof.
  split; [|done|done]. intros i r Hr. exists (n_Rank r), (n_Deps r). rewrite Hr. split; [by destruct r|done].
Qed.

Lemma relinked_copy sc t n d d' : relinked t d d' -> n_ID n <> t -> copy sc n d -> copy sc n d'.
Proof.
  intros Hl Hne (r & Hr & Hs & H1 & H2 & H3 & H4 & H5). destruct (rl_forth _ _ _ Hl _ r Hr) as (v & dp & Hv & Hd).
  exists (r <| n_Rank := v |> <| n_Deps := dp |>). rewrite Hv. simpl. rewrite (Hd Hne). by split_and!.
Qed.

Lemma relinked_row t d d' i r' :
  relinked t d d' -> d_nodes d' !! i = Some r' ->
  exists r, d_nodes d !! i = Some r /\ r' = r <| n_Rank := n_Rank r' |> <| n_Deps := n_Deps r' |>.
Proof.
  intros Hl Hr'. destruct (rl_back _ _ _ Hl i r' Hr') as [r Hr]. destruct (rl_forth _ _ _ Hl i r Hr) as (v & dp & Hv & _).
  exists r. split; [done|]. assert (r' = r <| n_Rank := v |> <| n_Deps := dp |>) as -> by congruence. done.
Qed.

Lemma relinked_epochs t d d' : graph_inv d -> graph_inv d' -> relinked t d d' -> epochs_le d d'.
Proof.
  intros Hg Hg' Hl s nid. destruct (epoch_at_cases d s nid Hg) as [(r & Hr & <- & <- & ->)|[Hno ->]].
  - destruct (rl_forth _ _ _ Hl _ r Hr) as (v & dp & Hv & _).
    pose proof (epoch_at_row d' _ _ Hg' Hv) as E. simpl in E. rewrite E. lia.
  - rewrite (epoch_at_no_row d' s nid Hg'); [unfold floor_of; by rewrite (rl_scopes _ _ _ Hl)|].
    intros i r' Hr'. destruct (relinked_row _ _ _ i r' Hl Hr') as (r & Hr & ->). by apply (Hno i r).
Qed.

Section Calls.
Context {C : Type} `{!Server C} {off : string -> string -> Z} (sc : string).

Lemma wp_linkDependency from to d p :
  pg_inv off None sc p d -> copy sc from d -> copy sc to d -> n_ID from <> n_ID to ->
  wp (linkDependency sc from to : M C _)
    (fun to' d' p' => pg_inv off None sc p' d' /\ relinked (n_ID to) d d' /\ copy sc to' d' /\
       n_ID to' = n_ID to /\ n_NodeID to' = n_NodeID to /\
       (d' = d \/ (n_Phase to <> PhaseDone /\ ~ rtc (edge_rel d) (n_ID to) (n_ID from) /\
         is_Some (d_edges d' !! (sc, n_ID from, n_ID to))))) d p.
Proof.
  intros Hi (ra & Ha & Hsa & Hna & Hpa & Hsta & Hra & _) Hct Hne. pose proof (pi_graph Hi) as Hg.
  unfold linkDependency. apply wp_bind, wp_query.
  case_match eqn:Hex; [apply wp_ret; split_and!; auto using relinked_refl|].
  case_bool_decide as Hdone; [by apply wp_throw|].
  destruct Hct as (rb & Hb & Hsb & Hnb & Hpb & Hstb & Hrb & Hdb).
  apply wp_bind. eapply wp_mono; [apply wp_addEdgeOrder; [done|by exists ra|by exists rb|done]|].
  intros res d1 p1 _ (-> & Hres). destruct (cyclePath res) as [path|].
  { unfold externalIDs. apply wp_bind, wp_query. by apply wp_throw. }
  destruct Hres as (Hno & Hrr & Hlt & Hmono & Hinj & Hval).
  assert (Hi1 : pg_inv off None sc p d1) by (by apply (rerank_inv d d1)).
  pose proof (pi_graph Hi1) as Hg1.
  destruct (rr_forth _ _ Hrr _ ra Ha) as (va & Hva & _), (rr_forth _ _ Hrr _ rb Hb) as (vb & Hvb & _).
  rewrite (rank_of_at d1 _ _ Hva), (rank_of_at d1 _ _ Hvb) in Hlt.
  assert (He : d_edges d1 !! (sc, n_ID from, n_ID to) = None).
  { rewrite (rr_edges _ _ Hrr). unfold edge_in in Hex. by destruct (d_edges d !! (sc, n_ID from, n_ID to)). }
  apply wp_bind. unfold insert_edge. apply wp_bind, wp_stmt, wp_get. intros t Et _. rewrite Et, Hva, Hvb.
  unfold edge_in. rewrite He. apply wp_modify_db; [auto with pg|].
  apply wp_bind. apply wp_update_exec; [simpl; by rewrite Hvb|]. intros r0 Hr0 Hc. one_row Hr0 Hvb.
  apply wp_ret. set (rb1 := rb <| n_Rank := vb |>) in *. set (ra1 := ra <| n_Rank := va |>) in *.
  assert (Esat : bool_decide (n_Phase from = PhaseDone) = done ra1) by (unfold done; simpl; by rewrite Hpa).
  assert (Ecls : dep_link (bool_decide (n_Phase from = PhaseDone)) (n_Status from) (n_Reason from) (n_Deps to) =
                 dep_link (done ra1) (n_Status ra1) (n_Reason ra1) (n_Deps rb1)) by (simpl; rewrite Esat; congruence).
  rewrite Ecls, Esat in *.
  pose proof (link_inv d1 sc (n_ID from) (n_ID to) ra1 rb1 Hg1 He Hva Hvb Hsa Hsb Hlt p Hi1 Hc) as Hi2.
  set (rb' := rb1 <| n_Deps := _ |>) in *. set (k := (sc, n_ID from, n_ID to)) in *.
  change (put rb' _) with (put rb' (set_edge k (done ra1) d1)).
  assert (Hid : n_ID rb = n_ID to) by (apply (gi_id d Hg _ rb Hb)).
  assert (Hlk : forall i, d_nodes (put rb' (set_edge k (done ra1) d1)) !! i =
            if decide (i = n_ID to) then Some rb' else d_nodes d1 !! i).
  { intros i. rewrite lookup_put. simpl. by rewrite Hid. }
  split_and!; [done|split| |done|done|right; split_and!; [done|done|]].
  - intros i r Hr. rewrite Hlk. destruct (decide (i = n_ID to)) as [->|E].
    + rewrite Hb in Hr. injection Hr as <-. by exists vb, (n_Deps rb').
    + destruct (rr_forth _ _ Hrr i r Hr) as (v & Hv & _). exists v, (n_Deps r). rewrite Hv. by destruct r.
  - intros i r'. rewrite Hlk. destruct (decide (i = n_ID to)) as [->|E]; [intros _; by eexists|]. by apply (rr_back _ _ Hrr).
  - apply (rr_scopes _ _ Hrr).
  - exists rb'. change (n_ID (to <| n_Deps := _ |>)) with (n_ID to). rewrite Hlk, decide_True by done. by split_and!.
  - change (is_Some ((<[k := done ra1]> (d_edges d1) : gmap _ bool) !! k)). rewrite lookup_insert_eq. by eexists.
Qed.

Lemma wp_unlinkDependency fromID toID d p :
  pg_inv off None sc p d ->
  wp (unlinkDependency sc fromID toID : M C _)
    (fun changed d' p' => pg_inv off None sc p' d' /\ relinked toID d d' /\
       d_edges d' = delete (sc, fromID, toID) (d_edges d) /\
       (forall i, i <> toID -> d_nodes d' !! i = d_nodes d !! i)) d p.
Proof.
  intros Hi. pose proof (pi_graph Hi) as Hg. unfold unlinkDependency. apply wp_bind, wp_stmt, wp_bind, wp_gets.
  destruct (d_edges d !! (sc, fromID, toID)) as [sat|] eqn:He.
  2: { apply wp_ret. split_and!; [done|apply relinked_refl|by rewrite delete_id|done]. }
  destruct (gi_edge d Hg _ _ _ _ He) as (ra & rb & Ha & Hb & _).
  apply wp_bind, wp_modify_db; [auto with pg|]. apply wp_bind. unfold loadForUpdate. apply wp_query. simpl.
  rewrite Ha. simpl. apply wp_bind, wp_ret, wp_bind, wp_update_exec; [simpl; by rewrite Hb|].
  intros r0 Hr0 Hc. one_row Hr0 Hb. apply wp_ret.
  pose proof (unlink_inv d sc fromID toID sat ra rb Hg He Ha Hb p Hi Hc) as Hi2.
  change (n_Status (scanNode ra)) with (n_Status ra) in *. change (n_Reason (scanNode ra)) with (n_Reason ra) in *.
  set (rb' := rb <| n_Deps ::= _ |>) in *. change (put rb' _) with (put rb' (cut (sc, fromID, toID) d)).
  assert (Hid : n_ID rb = toID) by (apply (gi_id d Hg _ rb Hb)).
  assert (Hlk : forall i, d_nodes (put rb' (cut (sc, fromID, toID) d)) !! i =
            if decide (i = toID) then Some rb' else d_nodes d !! i).
  { intros i. rewrite lookup_put. simpl. by rewrite Hid. }
  split_and!; [done|split|done|].
  - intros i r Hr. rewrite Hlk. case_decide as E.
    + subst i. rewrite Hb in Hr. injection Hr as <-. exists (n_Rank rb), (n_Deps rb'). split; [|done]. by destruct rb.
    + exists (n_Rank r), (n_Deps r). rewrite Hr. by destruct r.
  - intros i r'. rewrite Hlk. case_decide as E; [subst; intros _; by eexists|by eexists].
  - done.
  - intros i Hne. rewrite Hlk. by rewrite decide_False.
Qed.

End Calls.
