(* ===== verification/PgLeaseFacts.v ===== *)
(** * Claims and attempts keep the invariant *)
From S2P Require Import Prelude Types Config Scope ListFacts MapSum PgDb PgTopo PgEngine PgGraph PgLease PgInv PgTerminate.

#[export] Instance claim_before_total : Total claim_before.
Proof. intros a b. unfold claim_before. lia. Qed.

#[export] Instance claim_before_trans : Transitive claim_before.
Proof. intros a b c. unfold claim_before. lia. Qed.

(** The head of a sorted list comes before every member. *)
Lemma head_merge_sort {A : Type} (R : relation A) `{!RelDecision R, !Transitive R, !Total R} (l : list A) x :
  head (merge_sort R l) = Some x -> x ∈ l /\ forall y, y ∈ l -> x = y \/ R x y.
Proof.
  intros Hx. pose proof (StronglySorted_merge_sort R l) as Hs. split.
  - rewrite <- (merge_sort_Permutation R l). by apply head_Some_elem_of.
  - intros y. rewrite <- (merge_sort_Permutation R l). destruct (merge_sort R l) as [|z k]; [done|].
    simplify_eq/=. inversion Hs as [|? ? ? Hf]; subst. rewrite Forall_forall in Hf.
    rewrite elem_of_cons. intros [->|Hy]; [by left|right; by apply Hf].
Qed.

Section Lease.
Context {C : Type} `{!Server C} {off : string -> string -> Z} (sc : string).

(** The writes that keep phase, status and tally: a copy of the row stays fresh. *)
Lemma wp_update_exec_same skip n f d p :
  pg_inv off skip sc p d -> fresh sc n d ->
  (forall r, d_nodes d !! n_ID n = Some r -> keeps r (f r) /\ n_Deps (f r) = n_Deps r /\
     n_Phase (f r) = n_Phase r /\ n_Status (f r) = n_Status r /\ n_Epoch (f r) = n_Epoch r /\ n_Attempt (f r) = n_Attempt r) ->
  wp (update_exec (n_ID n) f : M C _)
    (fun _ d' p' => pg_inv off skip sc p' d' /\ moved [] d d' /\ fresh sc n d') d p.
Proof.
  intros Hi (r & Hr & Hs & Hn & Hp & Hst) Hf. apply wp_update_exec; [by rewrite Hr|].
  intros r0 Hr0 Hc. one_row Hr0 Hr. destruct (Hf r Hr) as (K & Hd & Hph & Hss & He & Ha).
  assert (Hid : n_ID (f r) = n_ID n) by (rewrite (kp_id _ _ K); apply (gi_id d (pi_graph Hi) _ r Hr)).
  split_and!.
  - apply (pg_inv_put_same skip sc p d r); [done|by rewrite Hid|done..| |done|done].
    destruct (gi_row d (pi_graph Hi) _ r Hr) as [? Hco ? ?]. split; [done| |lia|lia].
    unfold coherent in *. by rewrite Hph, Hss.
  - apply (moved_put d r); [by rewrite Hid|done|by left].
  - exists (f r). rewrite lookup_put, decide_True by done. rewrite (kp_scope _ _ K), (kp_nid _ _ K). split_and!; congruence.
Qed.

Lemma wp_bumpSeq skip i r d p :
  pg_inv off skip sc p d -> d_nodes d !! i = Some r ->
  wp (bumpSeq i : M C _) (fun _ d' p' => pg_inv off skip sc p' d' /\ moved [] d d') d p.
Proof.
  intros Hi Hr. unfold bumpSeq. apply wp_bind, wp_update_returning. intros r0 Hr0 Hc. one_row Hr0 Hr.
  apply wp_ret. assert (Hid : n_ID r = i) by (apply (gi_id d (pi_graph Hi) _ r Hr)). split.
  - apply (pg_inv_put_same skip sc p d r); [done|simpl; by rewrite Hid|by split|done| |done|done].
    destruct (gi_row d (pi_graph Hi) _ r Hr). by split.
  - apply (moved_put d r); [simpl; by rewrite Hid|by split|by left].
Qed.

Lemma wp_schedule skip n delay d p :
  pg_inv off skip sc p d -> fresh sc n d -> n_Phase n <> PhaseDone ->
  wp (schedule n delay : M C _)
    (fun n' d' p' => pg_inv off skip sc p' d' /\ moved [n_NodeID n] d d' /\ fresh sc n' d' /\
       n_ID n' = n_ID n /\ n_NodeID n' = n_NodeID n /\ n_Phase n' = PhaseScheduled) d p.
Proof.
  intros Hi (r & Hr & Hs & Hn & Hp & Hst) Hnd. unfold schedule. wp_steps.
  apply wp_write_row; [by rewrite Hr|]. intros r0 Hr0 Hc. one_row Hr0 Hr. apply wp_bind, wp_ret.
  set (r' := r <| n_Phase := PhaseScheduled |> <| n_Status := StatusNew |> <| n_ReadyAt := _ |>) in *.
  assert (Hid : n_ID r' = n_ID n) by (apply (gi_id d (pi_graph Hi) _ r Hr)).
  assert (Hk : keeps r r').
  { split; try done. unfold done. rewrite Hp. by rewrite bool_decide_eq_false_2. }
  apply wp_bind, wp_moveBucket, wp_ret. rewrite <- Hp, <- Hst. split_and!; [|apply (moved_put d r); try done| |done|done|done].
  - apply (pg_inv_put skip sc p d r r'); [done|by rewrite Hid|done..| |done].
    destruct (gi_row d (pi_graph Hi) _ r Hr). by split.
  - by rewrite Hid.
  - right. rewrite Hn. set_solver.
  - exists r'. change (n_ID (n <| n_Phase := _ |> <| n_Status := _ |> <| n_ReadyAt := n_ReadyAt r' |>)) with (n_ID n).
    by rewrite lookup_put, decide_True by done.
Qed.

Lemma wp_backoff att base maxDelay (Q : Z -> db -> gmap string Z -> Prop) d p :
  (forall delay, Q delay d p) -> wp (backoff att base maxDelay : M C Z) Q d p.
Proof. intros HQ t <- <-. unfold backoff. destruct (Backoff _ _ _ _ _). split; [by split|apply HQ]. Qed.

Context (cfg : ScopeConfig).

(** What becomes of the node of a failed attempt: it ends when its attempts are
    used up, and waits for the next one otherwise. *)
Definition failed_row (n : nodeRow) (rs : Reason) (r' : nodeRow) : Prop :=
  if ((retryEffective n cfg).1.1 <=? n_Attempt n)%Z
  then n_Phase r' = PhaseDone /\ n_Status r' = StatusError /\ n_Reason r' = rs
  else n_Phase r' = PhaseScheduled /\ n_Status r' = StatusNew.

Lemma done_phase r : done r = true -> n_Phase r = PhaseDone.
Proof. apply bool_decide_eq_true. Qed.

Lemma wp_failAttempt n rs msg d p :
  pg_inv off None sc p d -> fresh sc n d -> n_Phase n = PhaseClaimed ->
  wp (failAttempt sc cfg n rs msg : M C _)
    (fun a d' p' => pg_inv off None sc p' d' /\ moved (n_NodeID n :: names (snd a)) d d' /\
       exists r', d_nodes d' !! n_ID n = Some r' /\ failed_row n rs r') d p.
Proof.
  intros Hi Hf Hph. unfold failAttempt, failed_row. destruct (retryEffective n cfg) as [[maxA base] maxD].
  assert (Hf' := Hf). destruct Hf' as (r & Hr & Hs & Hn & Hp & Hst).
  case_match.
  - apply wp_bind. eapply wp_mono; [eapply wp_terminate; [done|done|intros; congruence]|].
    intros effs d' p' _ (Hi' & Hm & _ & Hend & _). apply wp_ret. split_and!; [done| |].
    + eapply moved_weaken; [|exact Hm]. set_solver.
    + destruct (Hend r Hr) as (r' & Hr' & Hd & ? & ?); [unfold done; by rewrite Hp, Hph|]. exists r'. simpl.
      apply done_phase in Hd. case_match; [done|congruence].
  - apply wp_bind, wp_backoff. intros delay. apply wp_bind. unfold setRetryFields. apply wp_bind.
    eapply wp_mono; [eapply (wp_update_exec_same None n); [exact Hi|done|]|].
    { intros r0 Hr0. assert (r0 = r) as -> by congruence. split_and!; try done. split; try done.
      unfold done. by rewrite Hp, Hph. }
    intros _ d1 p1 _ (Hi1 & Hm1 & Hf1). apply wp_ret, wp_bind.
    eapply wp_mono; [eapply (wp_schedule None); [exact Hi1|exact Hf1|simpl; by rewrite Hph]|].
    intros n2 d2 p2 _ (Hi2 & Hm2 & Hf2 & Hid & Hnid & Hph2). apply wp_bind. assert (Hf2' := Hf2). destruct Hf2' as (r2 & Hr2 & _).
    eapply wp_mono; [by eapply (wp_bumpSeq None)|]. intros sq d3 p3 _ (Hi3 & Hm3). apply wp_bind.
    eapply wp_mono; [by eapply wp_insertEvent|]. intros ef d4 p4 _ (-> & Hi4 & Hm4 & _). apply wp_ret.
    assert (Hf4 : fresh sc n2 d4).
    { apply (fresh_moved sc n2 [] d3 d4); [|done|apply not_elem_of_nil].
      apply (fresh_moved sc n2 [] d2 d3); [done|done|apply not_elem_of_nil]. }
    split_and!; [done| |].
    2: { destruct Hf4 as (r4 & Hr4 & _ & _ & Hp4 & _). rewrite Hid in Hr4. exists r4. split; [exact Hr4|]. cbn [fst].
         case_match; [congruence|]. rewrite Hph2 in Hp4. split; [done|].
         pose proof (ri_coherent _ (gi_row _ (pi_graph Hi4) _ r4 Hr4)) as Hco. unfold coherent in Hco. rewrite Hp4 in Hco.
         by apply bool_decide_eq_true in Hco. }
    pose proof (moved_trans _ _ _ _ _ Hm1 (moved_trans _ _ _ _ _ Hm2 (moved_trans _ _ _ _ _ Hm3 Hm4))) as Hm.
    eapply moved_weaken; [|exact Hm]. simpl. set_solver.
Qed.

(** ** The sweeper *)

Lemma wp_reclaim_one acc i d p :
  pg_inv off None sc p d -> (forall r, d_nodes d !! i = Some r -> n_Scope r = sc) ->
  wp (reclaim_one sc cfg acc i : M C _)
    (fun _ d' p' => pg_inv off None sc p' d' /\ exists names, moved names d d') d p.
Proof.
  intros Hi Hs. destruct acc as [effs k]. unfold reclaim_one, loadForUpdate. wp_steps.
  destruct (d_nodes d !! i) as [r|] eqn:Hr; simpl; [|apply wp_ret; eauto using moved_refl].
  case_bool_decide as Hph; simpl; [|apply wp_ret; eauto using moved_refl].
  apply wp_bind. eapply wp_mono; [apply wp_failAttempt; [done|eapply fresh_scan; eauto; apply Hi|done]|].
  intros [n' more] d' p' _ (Hi' & Hm & _). apply wp_ret. eauto.
Qed.

Lemma wp_promote_one effs i d p :
  pg_inv off None sc p d -> (forall r, d_nodes d !! i = Some r -> n_Scope r = sc) ->
  wp (promote_one sc effs i : M C _)
    (fun _ d' p' => pg_inv off None sc p' d' /\ exists names, moved names d d') d p.
Proof.
  intros Hi Hs. unfold promote_one, loadForUpdate. wp_steps.
  destruct (d_nodes d !! i) as [r|] eqn:Hr; simpl; [|apply wp_ret; eauto using moved_refl].
  case_bool_decide as Hph; simpl; [|apply wp_ret; eauto using moved_refl].
  apply wp_bind. eapply wp_mono; [eapply (wp_makeReady sc None); [done|eapply fresh_scan; eauto; apply Hi|simpl; congruence]|].
  intros [n' ef] d' p' _ (Hi' & Hm & _). apply wp_ret. eauto.
Qed.

(** A loop over ids of the scope whose body moves nodes. *)
Lemma wp_each {A : Type} (f : A -> Z -> M C A) ids a d p :
  pg_inv off None sc p d -> (forall i r, i ∈ ids -> d_nodes d !! i = Some r -> n_Scope r = sc) ->
  (forall a i d p, pg_inv off None sc p d -> (forall r, d_nodes d !! i = Some r -> n_Scope r = sc) ->
     wp (f a i) (fun _ d' p' => pg_inv off None sc p' d' /\ exists names, moved names d d') d p) ->
  wp (foldM f a ids) (fun _ d' p' => pg_inv off None sc p' d' /\ exists names, moved names d d') d p.
Proof.
  intros Hi Hs Hf. eapply wp_mono; [apply (wp_foldM f (fun l _ d1 p1 => pg_inv off None sc p1 d1 /\ (exists names, moved names d d1) /\
    (forall i r, i ∈ l -> d_nodes d1 !! i = Some r -> n_Scope r = sc)))|].
  - eauto using moved_refl.
  - intros i l a1 d1 p1 (Hi1 & (n1 & Hm1) & Hs1). eapply wp_mono; [apply Hf; [done|intros; by eapply Hs1; [left|]]|].
    intros a2 d2 p2 _ (Hi2 & (n2 & Hm2)). split_and!; [done|eauto using moved_trans|].
    intros j r2 Hj Hr2. destruct (mv_back _ _ _ Hm2 j r2 Hr2) as (r1 & Hr1 & K). rewrite (kp_scope _ _ K).
    eapply Hs1; [by right|done].
  - intros a1 d1 p1 _ (? & ? & _). eauto.
Qed.

(** The candidates of the sweeper are rows of the scope. *)
Lemma wp_candidates test f (Q : list Z -> db -> gmap string Z -> Prop) d p :
  graph_inv d -> (forall now r, test now r = true -> n_Scope r = sc) ->
  (forall ids, (forall i r, i ∈ ids -> d_nodes d !! i = Some r -> n_Scope r = sc) -> Q ids d p) ->
  wp (candidates test f : M C _) Q d p.
Proof.
  intros Hg Ht HQ. unfold candidates. wp_steps. apply HQ. intros i r Hi Hr.
  unfold by_time in Hi. apply list_elem_of_fmap in Hi as (x & -> & Hx). rewrite merge_sort_Permutation in Hx.
  apply list_elem_of_omap in Hx as (j & Hj & Hx). rewrite H in Hj. apply list_elem_of_fmap in Hj as (y & -> & Hy).
  apply elem_rows_where in Hy as [Hy Hty]; [|done]. rewrite Hy in Hx. simplify_eq. by eapply Ht.
Qed.

Lemma expired_scope now r : expired sc now r = true -> n_Scope r = sc.
Proof. unfold expired. case_bool_decide; [done|]. by rewrite andb_false_l. Qed.

Lemma due_scope now r : due sc now r = true -> n_Scope r = sc.
Proof. unfold due. case_bool_decide; [done|]. by rewrite andb_false_l. Qed.

Lemma wp_reclaimExpired limit d p :
  pg_inv off None sc p d ->
  wp (reclaimExpired sc cfg limit : M C _)
    (fun _ d' p' => pg_inv off None sc p' d' /\ exists names, moved names d d') d p.
Proof.
  intros Hi. unfold reclaimExpired. apply wp_bind.
  apply wp_candidates; [apply Hi|apply expired_scope|]. intros ids Hids. apply wp_bind.
  eapply wp_mono; [eapply wp_each; [done| |apply wp_reclaim_one]|].
  { intros i r Hin. apply Hids. by eapply elem_of_take in Hin as (? & ?%list_elem_of_lookup_2 & _). }
  intros [effs k] d' p' _ (Hi' & Hm). unfold any_expired. by wp_steps.
Qed.

Lemma wp_promoteScheduled d p :
  pg_inv off None sc p d ->
  wp (promoteScheduled sc : M C _)
    (fun _ d' p' => pg_inv off None sc p' d' /\ exists names, moved names d d') d p.
Proof.
  intros Hi. unfold promoteScheduled. apply wp_bind.
  apply wp_candidates; [apply Hi|apply due_scope|]. intros ids Hids.
  by apply wp_each; [done|done|apply wp_promote_one].
Qed.

End Lease.

(** * Granting leases *)

(** ** Leases issued between two states *)

Definition lease_key (l : Lease) : string * string * Z := (l_Scope l, l_NodeID l, l_Epoch l).

(** Every lease has an epoch above what its node had reached before, and the
    node has reached it after; no two have the same epoch for one node. *)
Definition issued (d d' : db) (ls : list Lease) : Prop :=
  (forall l, l ∈ ls -> (epoch_at d (l_Scope l) (l_NodeID l) < l_Epoch l <= epoch_at d' (l_Scope l) (l_NodeID l))%Z) /\
  NoDup (lease_key <$> ls).

Lemma issued_nil d d' : issued d d' [].
Proof. split; [by intros l Hl%not_elem_of_nil|constructor]. Qed.

Lemma issued_app d1 d2 d3 l1 l2 :
  issued d1 d2 l1 -> issued d2 d3 l2 -> epochs_le d1 d2 -> epochs_le d2 d3 -> issued d1 d3 (l1 ++ l2).
Proof.
  intros [H1 N1] [H2 N2] L1 L2. split.
  - intros l [Hl|Hl]%elem_of_app.
    + pose proof (H1 l Hl). pose proof (L2 (l_Scope l) (l_NodeID l)). lia.
    + pose proof (H2 l Hl). pose proof (L1 (l_Scope l) (l_NodeID l)). lia.
  - rewrite fmap_app. apply NoDup_app. split_and!; [done| |done].
    intros k (a & -> & Ha)%list_elem_of_fmap (b & E & Hb)%list_elem_of_fmap.
    pose proof (H1 a Ha) as Ea. pose proof (H2 b Hb) as Eb. unfold lease_key in E. injection E as E1 E2 E3.
    rewrite E1, E2, E3 in Ea. lia.
Qed.

Section Claim.
Context {C : Type} `{!Server C} {off : string -> string -> Z} (sc : string) (cfg : ScopeConfig).

(** ** One grant *)

Lemma claimable_spec kinds r :
  claimable sc kinds r = true -> n_Scope r = sc /\ n_Phase r = PhaseReady /\ kind_any kinds r = true.
Proof. unfold claimable. rewrite !andb_true_iff, !bool_decide_eq_true. tauto. Qed.

Lemma wp_claimOne kinds leaseFor workerID d p :
  pg_inv off None sc p d ->
  wp (claimOne sc kinds leaseFor workerID : M C _)
    (fun o d' p' =>
       match o with
       | None => d' = d /\ p' = p /\ rows_where (claimable sc kinds) d = []
       | Some (n, ef) =>
         pg_inv off None sc p' d' /\ moved [n_NodeID n] d d' /\ p' = move_stats "stat_ready" "stat_in_progress" p /\
         exists r deadline, d_nodes d !! n_ID r = Some r /\ claimable sc kinds r = true /\
           (forall x, d_nodes d !! n_ID x = Some x -> claimable sc kinds x = true -> r = x \/ claim_before r x) /\
           n = scanNode (granted workerID deadline r) /\
           d_nodes d' !! n_ID r = Some (granted workerID deadline r)
       end) d p.
Proof.
  intros Hi. unfold claimOne. pose proof (pi_graph Hi) as Hg. wp_steps.
  destruct (head _) as [r|] eqn:Hh.
  2: { apply wp_ret. split_and!; [done..|]. apply head_None in Hh.
       apply Permutation_nil. symmetry. rewrite <- Hh. symmetry. apply merge_sort_Permutation. }
  apply head_merge_sort in Hh as [Hin Hbest]; [|apply _..].
  apply elem_rows_where in Hin as [Hr Hcl]; [|done]. destruct (claimable_spec kinds r Hcl) as (Hs & Hph & _).
  wp_steps. apply wp_write_row; [by rewrite Hr|]. intros r0 Hr0 Hc. one_row Hr0 Hr. apply wp_bind, wp_ret.
  set (r' := granted workerID (now + srv_interval leaseFor) r) in *.
  destruct (gi_row d Hg _ r Hr) as [_ Hco Hep Hat].
  assert (Hst : n_Status r = StatusNew) by (unfold coherent in Hco; rewrite Hph in Hco; by apply bool_decide_eq_true in Hco).
  assert (Hk : keeps r r').
  { split; try done; [simpl; lia|]. unfold done. by rewrite Hph. }
  assert (Hi1 : pg_inv off None sc (move_stats "stat_ready" "stat_in_progress" p) (put r' d)).
  { pose proof (pg_inv_put (off := off) None sc p d r r') as H. rewrite Hph, Hst in H. apply H; try done. split; try done; simpl; lia. }
  apply wp_bind, wp_moveBucket, wp_bind. eapply wp_mono; [by eapply wp_insertEvent|].
  intros ef d' p' _ (-> & Hi' & Hm & En & Ee & Hef). apply wp_ret. split_and!; [done| |done|].
  - apply (moved_trans [n_NodeID r] [] d (put r' d)); [|done]. apply (moved_put d r); [done|done|right; simpl; set_solver].
  - exists r, (now + srv_interval leaseFor)%Z. split_and!; [done|done| |done|rewrite En, lookup_put; by rewrite decide_True].
    intros x Hx Hcx. apply Hbest. by apply elem_rows_where.
Qed.

(** The lease of a grant. *)
Lemma granted_issued d d' reqScope workerID deadline r names :
  graph_inv d -> graph_inv d' -> reqScope = sc -> n_Scope r = sc ->
  d_nodes d !! n_ID r = Some r -> d_nodes d' !! n_ID r = Some (granted workerID deadline r) -> moved names d d' ->
  issued d d' [lease_of reqScope (scanNode (granted workerID deadline r))].
Proof.
  intros Hg Hg' -> Hs Hr Hr' Hm. split; [|by apply NoDup_singleton].
  intros l ->%list_elem_of_singleton. simpl.
  pose proof (epoch_at_row d _ r Hg Hr) as E. pose proof (epoch_at_row d' _ _ Hg' Hr') as E'. simpl in E'.
  rewrite Hs in E, E'. rewrite E, E'. destruct (gi_row d Hg _ r Hr) as [_ _ He _].
  unfold narrowU64. split_cmp; lia.
Qed.

(** ** The loop *)

(** The rows in progress, counted; what [claimLoop] reads from the counters. *)
Definition in_flight (d : db) : Z := node_count d sc "stat_in_progress".

Lemma in_flight_move p d d' row :
  stat_inv off sc p d -> stat_inv off sc (move_stats "stat_ready" "stat_in_progress" p) d' ->
  d_scopes d !! sc = Some row -> d_scopes d' = d_scopes d -> in_flight d' = (in_flight d + 1)%Z.
Proof.
  intros H H' Hrow Es. pose proof (H sc row "stat_in_progress" Hrow) as E.
  rewrite <- Es in Hrow. pose proof (H' sc row "stat_in_progress" Hrow) as E'.
  rewrite bool_decide_eq_true_2 in E, E' by done. rewrite stat_of_move in E'. unfold in_flight.
  simpl in E'. lia.
Qed.

(** The bound [MaxInFlight] puts on the rows in progress. *)
Definition under_limit (before after : Z) : Prop :=
  (0 < c_MaxInFlight cfg)%Z -> (after <= Z.max before (c_MaxInFlight cfg))%Z.

Lemma wp_claim_loop want req leaseFor inP leases effs d p row :
  pg_inv off None sc p d -> cr_Scope req = sc -> d_scopes d !! sc = Some row ->
  ((0 < c_MaxInFlight cfg)%Z -> inP = in_flight d) ->
  wp (claim_loop sc cfg want req leaseFor inP leases effs : M C _)
    (fun res d' p' => pg_inv off None sc p' d' /\ (exists names, moved names d d') /\
       under_limit (in_flight d) (in_flight d') /\
       exists new, cl_Leases res = leases ++ new /\ length new <= want /\ issued d d' new) d p.
Proof.
  intros Hi Hreq. revert inP leases effs d p Hi. induction want as [|want IH]; intros inP leases effs d p Hi Hrow HinP.
  all: assert (Hstop : forall k, pg_inv off None sc p d /\ (exists names, moved names d d) /\
    under_limit (in_flight d) (in_flight d) /\ exists new, leases = leases ++ new /\ length new <= k /\ issued d d new).
  1,3: intros k; split_and!; [done|eauto using moved_refl|intros ?; lia|]; exists []; rewrite app_nil_r;
       split_and!; [done|simpl; lia|apply issued_nil].
  all: cbn [claim_loop].
  { apply wp_ret, Hstop. }
  case_match eqn:Hfull.
  { apply wp_ret, Hstop. }
  apply wp_bind. eapply wp_mono; [by eapply wp_claimOne|]. intros [[n ef]|] d1 p1 _.
  2: { intros (-> & -> & _). apply wp_ret, Hstop. }
  clear Hstop. intros (Hi1 & Hm1 & -> & r & deadline & Hr & Hcl & _ & -> & Hr1).
  destruct (claimable_spec _ r Hcl) as (Hs & _ & _).
  assert (Hiss : issued d d1 [lease_of (cr_Scope req) (scanNode (granted (cr_WorkerID req) deadline r))]).
  { eapply granted_issued; eauto; [apply Hi|apply Hi1]. }
  assert (Hfl : in_flight d1 = (in_flight d + 1)%Z).
  { eapply (in_flight_move p d); [apply Hi|apply Hi1|done|apply Hm1]. }
  eapply wp_mono; [apply IH; [done| |]|].
  - by rewrite (mv_scopes _ _ _ Hm1).
  - intros Hpos. rewrite HinP by done. lia.
  - intros res d' p' _ (Hi' & (names & Hm') & Hlim & new & Hnew & Hlen & Hiss'). split_and!; [done|eauto using moved_trans| |].
    + intros Hpos. specialize (Hlim Hpos). rewrite HinP in Hfull by done.
      apply andb_false_iff in Hfull as [Hfull|Hfull]; lia.
    + eexists. rewrite Hnew, <- app_assoc. split_and!; [done|simpl; lia|].
      apply (issued_app d d1 d'); [done|done|eapply moved_epochs; eauto; [apply Hi|apply Hi1]|].
      eapply moved_epochs; eauto; [apply Hi1|apply Hi'].
Qed.

Lemma wp_claimLoop req want leaseFor d p row :
  pg_inv off None sc p d -> off sc "stat_in_progress" = 0%Z ->
  cr_Scope req = sc -> d_scopes d !! sc = Some row -> (1 <= want)%Z ->
  wp (claimLoop sc cfg req want leaseFor : M C _)
    (fun res d' p' => pg_inv off None sc p' d' /\ (exists names, moved names d d') /\
       under_limit (in_flight d) (in_flight d') /\
       (Z.of_nat (length (cl_Leases res)) <= want)%Z /\ issued d d' (cl_Leases res)) d p.
Proof.
  intros Hi Hoff Hreq Hrow Hw. unfold claimLoop. apply wp_bind.
  assert (Hgo : forall inP, ((0 < c_MaxInFlight cfg)%Z -> inP = in_flight d) ->
    wp (claim_loop sc cfg (Z.to_nat want) req leaseFor inP [] [] : M C _)
    (fun res d' p' => pg_inv off None sc p' d' /\ (exists names, moved names d d') /\
       under_limit (in_flight d) (in_flight d') /\
       (Z.of_nat (length (cl_Leases res)) <= want)%Z /\ issued d d' (cl_Leases res)) d p).
  { intros inP HinP. eapply wp_mono; [by eapply wp_claim_loop|].
    intros res d' p' _ (? & ? & ? & new & -> & ? & ?). split_and!; try done. simpl. lia. }
  case_match eqn:Hpos; [|apply wp_ret, Hgo; lia].
  unfold inflight_count. wp_steps. simplify_eq. unfold pendingStat. intros t <- <-. split; [by split|].
  apply wp_ret; [|done..]. apply Hgo. intros _. unfold in_flight.
  pose proof (pi_stat Hi sc _ "stat_in_progress" Hrow) as E. rewrite bool_decide_eq_true_2 in E by done. lia.
Qed.

End Claim.
