(* ===== verification/PgBatch.v ===== *)
(** * Settling the nodes a batch touched

    [settleTouched] keeps the invariant of the tables, although it may act on
    copies of rows that its own cascades have made stale: what it writes depends
    on the phase and the status of a copy, and a cascade that changes those of
    another node is noticed. *)
From S2P Require Import Prelude Types Config Scope ListFacts MapSum PgDb PgTopo PgEngine PgGraph PgInv PgTerminate PgLinkFacts PgLeaseFacts.

(** ** Ordered sets *)

Definition os_ok (o : orderedSet) : Prop := NoDup (os_items o) /\ forall i, i ∈ os_items o <-> i ∈ os_seen o.

Lemma os_ok_new : os_ok newOrderedSet.
Proof. split; [constructor|]. intros i. simpl. set_solver. Qed.

Lemma os_ok_add v o : os_ok o -> os_ok (os_add v o).
Proof.
  intros [Hn Hs]. unfold os_add. case_bool_decide as E; [done|]. split; simpl.
  - apply NoDup_app. split_and!; [done| |apply NoDup_singleton].
    intros x Hx ->%list_elem_of_singleton. by apply Hs in Hx.
  - intros i. rewrite elem_of_app, list_elem_of_singleton, Hs. set_solver.
Qed.

Lemma elem_os_add v o i : i ∈ os_items (os_add v o) -> i = v \/ i ∈ os_items o.
Proof. unfold os_add. case_bool_decide; simpl; [auto|]. rewrite elem_of_app, list_elem_of_singleton. tauto. Qed.

(** The ids of a list are those of rows of the scope, where they have a row. *)
Definition ids_of (sc : string) (ids : list Z) (d : db) : Prop :=
  forall i r, i ∈ ids -> d_nodes d !! i = Some r -> n_Scope r = sc.

Lemma ids_of_moved sc ids names d d' : moved names d d' -> ids_of sc ids d -> ids_of sc ids d'.
Proof.
  intros Hm Hi i r' Hin Hr'. destruct (mv_back _ _ _ Hm i r' Hr') as (r & Hr & K). rewrite (kp_scope _ _ K). by apply (Hi i).
Qed.

Lemma ids_of_relinked sc ids t d d' : relinked t d d' -> ids_of sc ids d -> ids_of sc ids d'.
Proof.
  intros Hl Hi i r' Hin Hr'. destruct (relinked_row _ _ _ i r' Hl Hr') as (r & Hr & ->). by apply (Hi i r).
Qed.

Section Settle.
Context {C : Type} `{!Server C} {off : string -> string -> Z} (sc : string).

Lemma wp_loadForUpdate i (Q : option nodeRow -> db -> gmap string Z -> Prop) d p :
  Q (scanNode <$> d_nodes d !! i) d p -> wp (loadForUpdate i : M C _) Q d p.
Proof. intros HQ. unfold loadForUpdate. by apply wp_query. Qed.

Lemma wp_loadMany ids d p :
  wp (loadManyForUpdate ids : M C _)
    (fun found d' p' => d' = d /\ p' = p /\ found = omap (fun i => scanNode <$> d_nodes d !! i) ids) d p.
Proof.
  unfold loadManyForUpdate. apply wp_bind.
  eapply wp_mono; [apply (wp_mapM _ (fun l out d1 p1 => d1 = d /\ p1 = p /\
    exists done, ids = done ++ l /\ out = (fun i => scanNode <$> d_nodes d !! i) <$> done))|].
  - split_and!; [done|done|]. by exists [].
  - intros x l out d1 p1 (-> & -> & done & -> & ->). apply wp_loadForUpdate. split_and!; [done|done|].
    exists (done ++ [x]). rewrite <- app_assoc, fmap_app. done.
  - intros out d1 p1 _ (-> & -> & done & -> & ->). apply wp_ret. split_and!; [done|done|].
    rewrite app_nil_r. induction done as [|i done IH]; [done|]. cbn.
    destruct (d_nodes d !! i); [f_equal; exact IH|exact IH].
Qed.

(** The snapshots are those of the rows. *)
Lemma snapshots_spec d ids i n :
  graph_inv d ->
  (list_to_map ((fun r => (n_ID r, r)) <$> omap (fun i => scanNode <$> d_nodes d !! i) ids) : gmap Z nodeRow) !! i = Some n ->
  i ∈ ids /\ exists r, d_nodes d !! i = Some r /\ n = scanNode r.
Proof.
  intros Hg Hn. apply elem_of_list_to_map_2, list_elem_of_fmap in Hn as (x & E & Hx). injection E as -> ->.
  apply list_elem_of_omap in Hx as (j & Hj & Hx). destruct (d_nodes d !! j) as [r|] eqn:Hr; [|done].
  injection Hx as <-. simpl. rewrite (proj1 (gi_id d Hg j r Hr)). eauto.
Qed.

(** What a pass over the remaining ids relies on: as long as nothing was
    noticed, the copies of the nodes still to come are fresh. *)
Definition settling (snaps : gmap Z nodeRow) (d0 : db) (l : list Z) (acc : list Effect * bool) (d : db)
    (p : gmap string Z) : Prop :=
  pg_inv off None sc p d /\ (exists names, moved names d0 d) /\ NoDup l /\ ids_of sc l d /\
  (forall i n, snaps !! i = Some n -> n_ID n = i) /\
  (forall i j n m, i <> j -> snaps !! i = Some n -> snaps !! j = Some m -> n_NodeID n <> n_NodeID m) /\
  (snd acc = false -> forall i n, i ∈ l -> snaps !! i = Some n -> fresh sc n d).

Lemma wp_settle_step snaps d0 i l acc d p :
  settling snaps d0 (i :: l) acc d p ->
  wp (settle_step sc snaps acc i : M C _) (fun acc' d' p' => settling snaps d0 l acc' d' p') d p.
Proof.
  intros (Hi & (n1 & Hm) & Hnd & Hids & Hkey & Hdist & Hfr). apply NoDup_cons in Hnd as [Hni Hnd].
  destruct acc as [effects stale]. unfold settle_step. simpl in Hfr.
  assert (Hskip : settling snaps d0 l (effects, stale) d p).
  { split_and!; [done|eauto|done|intros j r Hj; apply Hids; by right|done|done|].
    intros Hs j n Hj. apply Hfr; [done|by right]. }
  destruct (snaps !! i) as [n|] eqn:Hn; [|by apply wp_ret]. unfold settleOne.
  assert (Hgo : forall n', fresh sc n' d -> n_NodeID n' = n_NodeID n \/ stale = true ->
    wp (effs ← settle sc n'; mret (effs, existsb (fun ef => negb (bool_decide (ef_NodeID ef = n_NodeID n'))) effs) : M C _)
      (fun a d' p' => settling snaps d0 l (effects ++ a.1, stale || a.2) d' p') d p).
  { intros n' Hf Hsame. apply wp_bind. eapply wp_mono; [by eapply wp_settle|].
    intros effs d' p' _ (Hi' & Hm'). apply wp_ret. simpl.
    split_and!; [done|eauto using moved_trans|done| |done|done|].
    - eapply ids_of_moved; [done|]. intros j r Hj. apply Hids. by right.
    - intros [-> Hex]%orb_false_iff j m Hj Hsm. destruct Hsame as [Hsame|]; [|done].
      eapply (fresh_moved sc m _ d d'); [apply Hfr with (i := j); [done|by right|done]|exact Hm'|].
      assert (n_NodeID m <> n_NodeID n') as Hne.
      { rewrite Hsame. apply (Hdist j i); [by intros ->|done|done]. }
      rewrite not_elem_of_cons. split; [done|]. intros (ef & E & Hef)%list_elem_of_fmap. apply Hne. rewrite E.
      destruct (decide (ef_NodeID ef = n_NodeID n')) as [|Hd]; [done|]. exfalso.
      assert (existsb (fun ef => negb (bool_decide (ef_NodeID ef = n_NodeID n'))) effs = true) as Ht; [|congruence].
      apply existsb_exists. exists ef. rewrite bool_decide_eq_false_2 by done. split; [|done]. by apply list_elem_of_In. }
  apply wp_bind, (wp_mono _ (fun a d' p' => settling snaps d0 l (effects ++ a.1, stale || a.2) d' p')).
  2: { intros [more cascaded] d' p' _ H. apply wp_ret. exact H. }
  destruct stale.
  - apply wp_bind, wp_loadForUpdate. destruct (d_nodes d !! i) as [r|] eqn:Hr; cbn [fmap option_fmap option_map].
    + apply Hgo; [|by right]. eapply fresh_scan; [apply Hi|done|]. eapply Hids; [by left|done].
    + apply wp_ret. simpl. rewrite app_nil_r. exact Hskip.
  - apply wp_bind, wp_ret. apply Hgo; [|by left]. apply (Hfr eq_refl i); [by left|done].
Qed.

Lemma wp_settleTouched ids d p :
  pg_inv off None sc p d -> NoDup ids -> ids_of sc ids d ->
  wp (settleTouched sc ids : M C _) (fun _ d' p' => pg_inv off None sc p' d' /\ exists names, moved names d d') d p.
Proof.
  intros Hi Hnd Hids. unfold settleTouched. pose proof (pi_graph Hi) as Hg.
  destruct ids as [|i0 ids0] eqn:Eids; [apply wp_ret; eauto using moved_refl|]. rewrite <- Eids in *. clear Eids i0 ids0.
  apply wp_bind. eapply wp_mono; [apply wp_loadMany|]. intros found d1 p1 _ (-> & -> & ->).
  set (snaps := list_to_map _ : gmap Z nodeRow). apply wp_bind.
  eapply wp_mono; [apply (wp_foldM _ (settling snaps d))|].
  - split_and!; [done|eauto using moved_refl|done|done|..].
    + intros i n (_ & r & Hr & ->)%snapshots_spec; [|done]. apply (gi_id d Hg i r Hr).
    + intros i j n m Hne (Hi1 & r & Hr & ->)%snapshots_spec (Hj & r' & Hr' & ->)%snapshots_spec E; [|done..].
      apply Hne, (gi_ext d Hg i j r r' Hr Hr'); [|done]. by rewrite (Hids i r), (Hids j r').
    + intros _ i n Hin (_ & r & Hr & ->)%snapshots_spec; [|done]. eapply fresh_scan; [done|done|by apply (Hids i)].
  - intros. by apply wp_settle_step.
  - intros [effects stale] d' p' _ (Hi' & Hm & _). apply wp_ret. done.
Qed.

End Settle.

(** * Creating nodes keeps the invariant *)

(** The deltas of a row that enters blocked. *)
Definition entered (p : gmap string Z) : gmap string Z := bump_stat "stat_total" 1 (bump_stat "stat_blocked" 1 p).

(** Rows were added, and nothing else of the tables changed. *)
Record grown (d d' : db) : Prop := {
  gr_rows : forall i r, d_nodes d !! i = Some r -> d_nodes d' !! i = Some r;
  gr_edges : d_edges d' = d_edges d;
  gr_scopes : d_scopes d' = d_scopes d;
  gr_epochs : epochs_le d d'
}.

Lemma grown_refl d : grown d d.
Proof. split; done. Qed.

Lemma grown_trans d1 d2 d3 : grown d1 d2 -> grown d2 d3 -> grown d1 d3.
Proof. intros [R1 E1 S1 L1] [R2 E2 S2 L2]. split; [auto|congruence|congruence|by etrans]. Qed.

Lemma grown_copy sc n d d' : grown d d' -> copy sc n d -> copy sc n d'.
Proof. intros Hg (r & Hr & ?). exists r. split; [by apply (gr_rows _ _ Hg)|done]. Qed.

Section Insert.
Context (d : db) (r : nodeRow) (Hg : graph_inv d).
Context (Hid : n_ID r = q_id d) (Hrank : n_Rank r = q_rank d) (Hrow : row_inv r).
Context (Hdeps : n_Deps r = mkDeps 0 0 0 0) (Hph : n_Phase r = PhaseBlocked).
Context (Hnew : find_ext (n_Scope r) (n_NodeID r) d = None).

Let d1 := put r (d <| q_id ::= Z.succ |> <| q_rank ::= Z.succ |>).

Lemma insert_ne i x : d_nodes d !! i = Some x -> i <> n_ID r.
Proof. intros Hx ->. destruct (gi_id d Hg _ x Hx). lia. Qed.

Lemma insert_lookup i : d_nodes d1 !! i = if decide (i = n_ID r) then Some r else d_nodes d !! i.
Proof. unfold d1. by rewrite lookup_put. Qed.

Lemma insert_old i x : d_nodes d !! i = Some x -> d_nodes d1 !! i = Some x.
Proof. intros Hx. rewrite insert_lookup, decide_False; [done|by eapply insert_ne]. Qed.

Lemma insert_row i x : d_nodes d1 !! i = Some x -> (i = n_ID r /\ x = r) \/ d_nodes d !! i = Some x.
Proof. rewrite insert_lookup. case_decide; intros; simplify_eq; auto. Qed.

Lemma insert_count b c : edge_count d1 b c = edge_count d b c.
Proof.
  apply (into_ext (d_nodes d1) (d_nodes d)). intros s a b' sat He.
  destruct (gi_edge d Hg s a b' sat He) as (ra & _ & Ha & _). unfold edge_class. by rewrite (insert_old a ra Ha), Ha.
Qed.

Lemma insert_no_edges c : edge_count d (n_ID r) c = 0%Z.
Proof.
  apply msum_zero.
  intros [[s a] b] sat He. destruct (gi_edge d Hg s a b sat He) as (_ & rb & _ & Hb & _).
  unfold into. simpl. by rewrite bool_decide_eq_false_2 by (by eapply insert_ne).
Qed.

Lemma insert_graph : graph_inv d1.
Proof.
  assert (q_id d1 = Z.succ (q_id d) /\ q_rank d1 = Z.succ (q_rank d)) as [Q1 Q2] by done. split.
  - intros i x [[-> ->]|Hx]%insert_row; [lia|]. destruct (gi_id d Hg i x Hx). lia.
  - intros i j x y [[-> ->]|Hx]%insert_row [[-> ->]|Hy]%insert_row Hs Hn; [done|..].
    + by destruct (find_ext_None _ _ _ Hg Hnew j y Hy).
    + by destruct (find_ext_None _ _ _ Hg Hnew i x Hx).
    + by apply (gi_ext d Hg i j x y).
  - intros i x [[-> ->]|Hx]%insert_row; [done|by apply (gi_row d Hg i)].
  - intros s a b sat He. destruct (gi_edge d Hg s a b sat He) as (ra & rb & Ha & Hb & ?).
    exists ra, rb. by rewrite (insert_old a ra Ha), (insert_old b rb Hb).
  - intros b x c Hx. rewrite insert_count. apply insert_row in Hx as [[-> ->]|Hx]; [|by apply (gi_deps d Hg)].
    rewrite insert_no_edges, Hdeps. by destruct c.
  - intros i x [[-> ->]|Hx]%insert_row; [lia|]. pose proof (gi_rank d Hg i x Hx). lia.
  - intros i j x y [[-> ->]|Hx]%insert_row [[-> ->]|Hy]%insert_row E; [done|..].
    + pose proof (gi_rank d Hg j y Hy). lia.
    + pose proof (gi_rank d Hg i x Hx). lia.
    + by apply (gi_rank_inj d Hg i j x y).
Qed.

Lemma insert_grown : floor_of d (n_Scope r) = n_Epoch r -> grown d d1.
Proof.
  intros Hf. split; [apply insert_old|done|done|]. intros s nid.
  destruct (epoch_at_cases d s nid Hg) as [(x & Hx & <- & <- & ->)|[Hno ->]].
  - rewrite (epoch_at_row d1 (n_ID x) x insert_graph); [done|]. by apply insert_old.
  - destruct (epoch_at_cases d1 s nid insert_graph) as [(x & Hx & <- & <- & ->)|[_ ->]]; [|done].
    apply insert_row in Hx as [[_ ->]|Hx]; [lia|]. by destruct (Hno _ x Hx).
Qed.

Lemma insert_inv {off} p :
  pg_inv off None (n_Scope r) p d -> is_Some (d_scopes d !! n_Scope r) -> pg_inv off None (n_Scope r) (entered p) d1.
Proof.
  intros [_ Hu Hst [Hsr Hsf] Hl] [row Hsc]. split.
  - apply insert_graph.
  - intros s a b ra He Ha Hd. destruct (gi_edge d Hg s a b _ He) as (x & _ & Hx & _). apply insert_row in Ha as [[E _]|Ha].
    + by destruct (insert_ne _ _ Hx).
    + by apply (Hu s a b ra).
  - intros s row' col Hs. change (d_scopes d1) with (d_scopes d) in Hs. specialize (Hst s row' col Hs).
    assert (node_count d1 s col = counted s col 0 r + node_count d s col)%Z as ->.
    { unfold node_count, d1, put. simpl. rewrite msum_insert; [done|].
      destruct (d_nodes d !! n_ID r) as [x|] eqn:Hx; [|done]. by destruct (insert_ne _ _ Hx). }
    unfold entered, counted, in_col. rewrite Hph, !stat_of_bump. cbn [bucketColumn].
    repeat case_bool_decide; subst; simpl; try done; lia.
  - split; [|exact Hsf]. intros i x [[_ ->]|Hx]%insert_row; [by exists row|by eapply Hsr].
  - destruct Hl; by split.
Qed.

End Insert.

(** ** The calls *)

Definition cache_ok (sc : string) (nodes : gmap string nodeRow) (d : db) : Prop :=
  forall k n, nodes !! k = Some n -> copy sc n d /\ n_NodeID n = k.

Section Create.
Context {C : Type} `{!Server C} {off : string -> string -> Z} (sc : string).

Lemma wp_insert_node spec d p v :
  pg_inv off None sc v d -> is_Some (d_scopes d !! sc) ->
  wp (insert_node sc spec : M C _)
    (fun n d' p' => p' = p /\ pg_inv off None sc (entered v) d' /\ grown d d' /\ copy sc n d' /\
       n_NodeID n = sp_ID spec /\ n_Phase n = PhaseBlocked /\ n_Status n = StatusNew) d p.
Proof.
  intros Hi [row Hsc]. pose proof (pi_graph Hi) as Hg. unfold insert_node.
  apply wp_bind, wp_stmt, wp_bind, wp_clock. intros created. apply wp_bind, wp_clock. intros updated.
  apply wp_bind, wp_gets, wp_bind, wp_modify_db; [auto with pg|].
  rewrite Hsc. set (r := mkRow _ _ _ _ _ _ _ _ _ _ _ _ _ _ _ _ _ _ _ _ _ _ _ _ _ _ _).
  destruct (find_ext sc (sp_ID spec) d) eqn:Hnew; [by apply wp_throw|].
  apply wp_bind, wp_put_row. intros Hc. apply wp_ret.
  assert (Hrow : row_inv r) by (split; [done..|simpl; by apply (si_floor d (pi_scope Hi) sc)|done]).
  assert (Hg1 : graph_inv (put r (d <| q_id ::= Z.succ |> <| q_rank ::= Z.succ |>))) by by apply (insert_graph d r).
  split_and!; [done| | | |done..].
  - apply (insert_inv d r); [done..|by exists row].
  - apply (insert_grown d r); [done..|]. unfold floor_of. simpl. by rewrite Hsc.
  - apply (copy_scan sc _ (n_ID r) r); [done| |done]. by rewrite lookup_put, decide_True.
Qed.

Lemma Nat_iter_shift {A : Type} (f : A -> A) k x : Nat.iter k f (f x) = f (Nat.iter k f x).
Proof. induction k as [|k IH]; simpl; congruence. Qed.

Lemma wp_enter_all (out : list nodeRow) d p :
  (forall n, n ∈ out -> n_Phase n = PhaseBlocked /\ n_Status n = StatusNew) ->
  wp (foldM (fun _ r => enterBucket (n_Phase r) (n_Status r) ;; addTotal 1) tt out : M C _)
    (fun _ d' p' => d' = d /\ p' = Nat.iter (length out) entered p) d p.
Proof.
  intros Hout. revert p. induction out as [|n out IH]; intros p; [by apply wp_ret|].
  destruct (Hout n) as [Hph Hst]; [by left|]. cbn [foldM]. rewrite Hph, Hst.
  apply wp_bind, wp_bind, wp_bump_pending, wp_bump_pending. fold (entered p).
  eapply wp_mono; [apply IH; intros m Hm; apply Hout; by right|].
  intros _ d' p' _ [-> ->]. split; [done|]. apply (Nat_iter_shift entered).
Qed.

Lemma wp_createNodes specs d p :
  pg_inv off None sc p d -> is_Some (d_scopes d !! sc) ->
  wp (createNodes sc specs : M C _)
    (fun out d' p' => pg_inv off None sc p' d' /\ grown d d' /\ length out = length specs /\
       forall k spec n, specs !! k = Some spec -> out !! k = Some n -> copy sc n d' /\ n_NodeID n = sp_ID spec) d p.
Proof.
  intros Hi Hsc. unfold createNodes. apply wp_bind.
  eapply wp_mono; [apply (wp_mapM _ (fun l out d1 p1 => p1 = p /\ grown d d1 /\
    pg_inv off None sc (Nat.iter (length out) entered p) d1 /\
    exists pre, specs = pre ++ l /\ Forall2 (fun spec n => copy sc n d1 /\ n_NodeID n = sp_ID spec /\
      n_Phase n = PhaseBlocked /\ n_Status n = StatusNew) pre out))|].
  - split_and!; [done|apply grown_refl|done|]. exists []. split; [done|constructor].
  - intros spec l out d1 p1 (-> & Hgr & Hi1 & pre & -> & Hall).
    eapply wp_mono; [eapply wp_insert_node; [exact Hi1|by rewrite (gr_scopes _ _ Hgr)]|].
    intros n d2 p2 _ (-> & Hi2 & Hgr2 & Hcp & Hn & Hph & Hst). split_and!; [done|by eapply grown_trans| |].
    + rewrite length_app. simpl. by rewrite Nat.add_1_r.
    + exists (pre ++ [spec]). rewrite <- app_assoc. split; [done|]. apply Forall2_app; [|by repeat constructor].
      eapply Forall2_impl; [exact Hall|]. intros x y (Hc & ?). split; [by eapply grown_copy|done].
  - intros out d1 p1 _ (-> & Hgr & Hi1 & pre & -> & Hall). rewrite app_nil_r in *. apply wp_bind.
    eapply wp_mono; [apply wp_enter_all|].
    { intros n Hn. apply list_elem_of_lookup in Hn as [k Hk].
      destruct (Forall2_lookup_r _ _ _ _ _ Hall Hk) as (x & _ & _ & _ & ? & ?). done. }
    intros _ d2 p2 _ [-> ->]. apply wp_ret. split_and!; [done|done|by rewrite (Forall2_length _ _ _ Hall)|].
    intros k spec n Hk Hn. by destruct (Forall2_lookup_lr _ _ _ _ _ _ Hall Hk Hn) as (? & ? & _).
Qed.

End Create.

(** * Batches of nodes and edges keep the invariant

    [materialiseAddNodesBatch], [linkAddNodesBatch], [announceFresh] and the
    edge loops of [AddEdges] and [RemoveEdges].  The maps the Go code keeps hold,
    for every identifier, a copy of its row. *)

(** ** What a stage of a call may change *)

(** Every scope keeps its row, its configuration and its seal. *)
Definition scopes_kept (d d' : db) : Prop :=
  forall s row, d_scopes d !! s = Some row ->
  exists row', d_scopes d' !! s = Some row' /\ sr_sealed row' = sr_sealed row /\ sr_cfg row' = sr_cfg row.

#[export] Instance scopes_kept_trans : Transitive scopes_kept.
Proof.
  intros d1 d2 d3 H1 H2 s row Hs. destruct (H1 s row Hs) as (row2 & Hs2 & E2 & F2).
  destruct (H2 s row2 Hs2) as (row3 & Hs3 & E3 & F3). exists row3. split_and!; congruence.
Qed.

Lemma scopes_same d d' : d_scopes d' = d_scopes d -> scopes_kept d d'.
Proof. intros E s row Hs. exists row. by rewrite E. Qed.

Record advance (d d' : db) : Prop := {
  ad_epochs : epochs_le d d';
  ad_scopes : scopes_kept d d'
}.

#[export] Instance advance_refl : Reflexive advance.
Proof. intros d. split; [done|by apply scopes_same]. Qed.

#[export] Instance advance_trans : Transitive advance.
Proof. intros d1 d2 d3 [E1 S1] [E2 S2]. split; by etrans. Qed.

Lemma moved_advance names d d' : graph_inv d -> graph_inv d' -> moved names d d' -> advance d d'.
Proof. intros Hg Hg' Hm. split; [by eapply moved_epochs|apply scopes_same, Hm]. Qed.

Lemma relinked_advance t d d' : graph_inv d -> graph_inv d' -> relinked t d d' -> advance d d'.
Proof. intros Hg Hg' Hm. split; [by eapply relinked_epochs|apply scopes_same, Hm]. Qed.

Lemma grown_advance d d' : grown d d' -> advance d d'.
Proof. intros []. split; [done|by apply scopes_same]. Qed.

(** ** The specs of a batch *)

Lemma split_batch_spec existing specs nodes toCreate nodes' toCreate' :
  split_batch existing specs nodes toCreate = Ok (nodes', toCreate') ->
  (forall k n, nodes' !! k = Some n -> nodes !! k = Some n \/ existing !! k = Some n) /\
  (forall k, is_Some (nodes !! k) -> is_Some (nodes' !! k)) /\
  (forall sp, sp ∈ toCreate -> sp ∈ toCreate') /\
  (forall sp, sp ∈ specs -> is_Some (nodes' !! sp_ID sp) \/ sp ∈ toCreate').
Proof.
  revert nodes toCreate. induction specs as [|sp specs IH]; intros nodes toCreate; simpl.
  - intros [= <- <-]. split_and!; auto. set_solver.
  - destruct (existing !! sp_ID sp) as [n|] eqn:En; [destruct (specMatches n sp); [|done]|].
    + intros (H1 & H2 & H3 & H4)%IH. split_and!; [..|done|].
      * intros k m Hk. destruct (H1 k m Hk) as [Hi|]; [|by right]. destruct (decide (sp_ID sp = k)) as [<-|Hne].
        -- rewrite lookup_insert_eq in Hi. injection Hi as ->. by right.
        -- rewrite lookup_insert_ne in Hi by done. by left.
      * intros k Hk. apply H2. by apply lookup_insert_is_Some'; right.
      * intros x [->|Hx]%elem_of_cons; [|by apply H4]. left. apply H2. rewrite lookup_insert_eq. by eexists.
    + intros (H1 & H2 & H3 & H4)%IH. split_and!; [done|done|set_solver|].
      intros x [->|Hx]%elem_of_cons; [|by apply H4]. right. apply H3. set_solver.
Qed.

(** The map after the created rows were entered in it. *)
Lemma foldl_insert_spec {V : Type} (l : list (string * V)) (m : gmap string V) k v :
  foldl (fun m ic => <[ic.1 := ic.2]> m) m l !! k = Some v -> m !! k = Some v \/ (k, v) ∈ l.
Proof.
  revert m. induction l as [|[k' v'] l IH]; intros m; simpl; [auto|].
  intros [Hm|Hl]%IH; [|right; by right]. destruct (decide (k' = k)) as [->|Hne].
  - rewrite lookup_insert_eq in Hm. injection Hm as ->. right. by left.
  - rewrite lookup_insert_ne in Hm by done. by left.
Qed.

Lemma foldl_insert_dom {V : Type} (l : list (string * V)) (m : gmap string V) k :
  is_Some (m !! k) \/ k ∈ l.*1 -> is_Some (foldl (fun m ic => <[ic.1 := ic.2]> m) m l !! k).
Proof.
  revert m. induction l as [|[k' v'] l IH]; intros m; simpl.
  - intros [?|?%not_elem_of_nil]; done.
  - intros H. apply IH. rewrite lookup_insert_is_Some'. rewrite elem_of_cons in H. naive_solver.
Qed.

Section Batch.
Context {C : Type} `{!Server C} {off : string -> string -> Z} (sc : string).

Lemma wp_loadByExternal nid (Q : option nodeRow -> db -> gmap string Z -> Prop) d p :
  Q (scanNode <$> find_ext sc nid d) d p -> wp (loadForUpdateByExternal sc nid : M C _) Q d p.
Proof. intros HQ. unfold loadForUpdateByExternal. by apply wp_query. Qed.

Lemma find_copy d nid r :
  graph_inv d -> find_ext sc nid d = Some r -> copy sc (scanNode r) d /\ n_NodeID (scanNode r) = nid.
Proof. intros Hg (Hr & Hs & Hn)%elem_find_ext; [|done]. split; [by apply (copy_scan sc d (n_ID r))|done]. Qed.

Lemma wp_loadManyByExternal ids d p :
  graph_inv d ->
  wp (loadManyForUpdateByExternal sc ids : M C _) (fun m d' p' => d' = d /\ p' = p /\ cache_ok sc m d) d p.
Proof.
  intros Hg. unfold loadManyForUpdateByExternal. destruct ids as [|i0 ids0] eqn:E; [by apply wp_ret|].
  rewrite <- E. clear E i0 ids0. apply wp_query. split_and!; [done|done|]. intros k n Hk.
  apply elem_of_list_to_map_2, list_elem_of_fmap in Hk as (r & Er & Hr). injection Er as -> ->.
  apply elem_rows_where in Hr as [Hr Hp]; [|done]. apply andb_true_iff in Hp as [Hs%bool_decide_eq_true _].
  split; [by apply (copy_scan sc d (n_ID r))|done].
Qed.

Lemma wp_materialise specs d p :
  pg_inv off None sc p d -> is_Some (d_scopes d !! sc) ->
  wp (materialiseAddNodesBatch sc specs : M C _)
    (fun a d' p' => pg_inv off None sc p' d' /\ advance d d' /\ cache_ok sc (fst a) d' /\
       forall sp, sp ∈ specs -> is_Some (fst a !! sp_ID sp)) d p.
Proof.
  intros Hi Hsc. unfold materialiseAddNodesBatch. apply wp_bind.
  eapply wp_mono; [apply wp_loadManyByExternal, Hi|]. intros existing d1 p1 _ (-> & -> & Hex).
  destruct (split_batch existing specs ∅ []) as [[nodes toCreate]|e] eqn:Hsb; [|by apply wp_throw].
  apply split_batch_spec in Hsb as (H1 & _ & _ & H4). apply wp_bind.
  eapply wp_mono; [by eapply wp_createNodes|]. intros out d' p' _ (Hi' & Hgr & Hlen & Hout). apply wp_ret. simpl.
  split_and!; [done|by apply grown_advance| |].
  - intros k n [Hn|Hn]%foldl_insert_spec.
    + destruct (H1 k n Hn) as [?|Hk]; [set_solver|]. destruct (Hex k n Hk). split; [by eapply grown_copy|done].
    + apply list_elem_of_lookup in Hn as [j Hj]. apply lookup_zip_Some in Hj as [Hj1 Hj2].
      rewrite list_lookup_fmap in Hj1. destruct (toCreate !! j) as [sp|] eqn:Hsp; [|done]. injection Hj1 as <-.
      by apply (Hout j).
  - intros sp Hsp. apply foldl_insert_dom. destruct (H4 sp Hsp) as [?|Hin]; [by left|right].
    rewrite fst_zip by (rewrite length_fmap; lia). by apply list_elem_of_fmap_2.
Qed.

(** ** Links *)

Lemma cache_insert nodes k n d : cache_ok sc nodes d -> copy sc n d -> n_NodeID n = k -> cache_ok sc (<[k := n]> nodes) d.
Proof.
  intros Hc Hn Hk j m. destruct (decide (k = j)) as [<-|Hne].
  - rewrite lookup_insert_eq. by intros [= <-].
  - rewrite lookup_insert_ne by done. apply Hc.
Qed.

(** Only the row of [to] has changed in what a copy holds, and it is entered anew. *)
Lemma cache_relinked nodes to d d' :
  cache_ok sc nodes d -> relinked (n_ID to) d d' -> copy sc to d' -> cache_ok sc (<[n_NodeID to := to]> nodes) d'.
Proof.
  intros Hc Hl Hto j m. destruct (decide (n_NodeID to = j)) as [<-|Hne].
  - rewrite lookup_insert_eq. by intros [= <-].
  - rewrite lookup_insert_ne by done. intros Hm. destruct (Hc j m Hm) as [Hcm Hj]. split; [|done].
    apply (relinked_copy sc (n_ID to) m d d'); [done| |done]. intros E. apply Hne. rewrite <- Hj.
    destruct Hto as (r' & Hr' & _ & Hn' & _), Hcm as (r & Hr & _ & Hn & _). rewrite E in Hr.
    destruct (relinked_row _ _ _ _ r' Hl Hr') as (x & Hx & Er). rewrite Er in Hn'. simpl in Hn'. congruence.
Qed.

Lemma copy_ne from to d : copy sc from d -> copy sc to d -> n_NodeID from <> n_NodeID to -> n_ID from <> n_ID to.
Proof. intros (r & Hr & _ & Hn & _) (r' & Hr' & _ & Hn' & _) Hne E. apply Hne. rewrite E in Hr. congruence. Qed.

(** A link between two entries of a cache. *)
Lemma wp_link nodes from to d p :
  pg_inv off None sc p d -> cache_ok sc nodes d -> copy sc from d -> copy sc to d -> n_NodeID from <> n_NodeID to ->
  wp (linkDependency sc from to : M C _)
    (fun to' d' p' => pg_inv off None sc p' d' /\ advance d d' /\
       cache_ok sc (<[n_NodeID to := to']> (<[n_NodeID from := from]> nodes)) d' /\ copy sc to' d' /\
       n_NodeID to' = n_NodeID to /\ n_ID to' = n_ID to /\ forall ids, ids_of sc ids d -> ids_of sc ids d') d p.
Proof.
  intros Hi Hc Hf Ht Hne. eapply wp_mono; [eapply wp_linkDependency; [done..|by eapply copy_ne]|].
  intros to' d' p' _ (Hi' & Hl & Hto & Hid & Hnid & _).
  split_and!; [done|eapply relinked_advance; [apply Hi|apply Hi'|done]| |done|done|done|].
  - rewrite <- Hnid. apply (cache_relinked _ to' d d'); [by apply cache_insert|by rewrite Hid|done].
  - intros ids. by eapply ids_of_relinked.
Qed.

(** The row an identifier stands for, from the cache or from the table: what
    holds of both holds of the answer. *)
Lemma wp_endpoint (P : string -> nodeRow -> Prop) cache i d p :
  (forall k n, cache !! k = Some n -> P k n) -> (forall r, find_ext sc i d = Some r -> P i (scanNode r)) ->
  wp (endpoint sc cache i : M C _)
    (fun a d' p' => d' = d /\ p' = p /\ (forall k n, fst a !! k = Some n -> P k n) /\ P i (snd a)) d p.
Proof.
  intros Hc Hf. unfold endpoint. destruct (cache !! i) as [n|] eqn:Hn; [by apply wp_ret; auto|].
  apply wp_bind, wp_loadByExternal. destruct (find_ext sc i d) as [r|] eqn:Hr; simpl; [|by apply wp_throw].
  apply wp_ret. simpl. split_and!; auto. intros k n. destruct (decide (i = k)) as [<-|Hne].
  - rewrite lookup_insert_eq. intros [= <-]. auto.
  - rewrite lookup_insert_ne by done. apply Hc.
Qed.

(** ** [linkAddNodesBatch] *)

Lemma wp_link_dep id nodes to dep d p :
  pg_inv off None sc p d -> cache_ok sc nodes d -> copy sc to d -> n_NodeID to = id -> dep <> id ->
  wp (link_dep sc id (nodes, to) dep : M C _)
    (fun a d' p' => pg_inv off None sc p' d' /\ advance d d' /\ cache_ok sc (fst a) d' /\ copy sc (snd a) d' /\
       n_NodeID (snd a) = id /\ (forall ids, ids_of sc ids d -> ids_of sc ids d') /\
       forall k, is_Some (nodes !! k) -> is_Some (fst a !! k)) d p.
Proof.
  intros Hi Hc Ht Hid Hne. unfold link_dep. apply wp_bind.
  apply (wp_mono _ (fun from d' p' => d' = d /\ p' = p /\ copy sc from d /\ n_NodeID from = dep)).
  { destruct (nodes !! dep) as [from|] eqn:Hf; [apply wp_ret; by destruct (Hc dep from Hf)|].
    apply wp_bind, wp_loadByExternal. destruct (find_ext sc dep d) as [r|] eqn:Hr; simpl; [|by apply wp_throw].
    destruct (find_copy d dep r (pi_graph Hi) Hr). by apply wp_ret. }
  intros from d1 p1 _ (-> & -> & Hf & Hdep). apply wp_bind.
  eapply wp_mono; [eapply (wp_link nodes from to); [done..|congruence]|].
  intros to' d' p' _ (Hi' & Had & Hc' & Hto & Hn' & _ & Hids). rewrite Hid, Hdep in Hc'. apply wp_ret. simpl.
  split_and!; [done..|congruence|done|]. intros k Hk. rewrite !lookup_insert_is_Some'. auto.
Qed.

Definition linking (specs : list NodeSpec) (d0 : db) (acc : gmap string nodeRow * orderedSet) (d : db)
    (p : gmap string Z) : Prop :=
  pg_inv off None sc p d /\ advance d0 d /\ cache_ok sc (fst acc) d /\ os_ok (snd acc) /\
  ids_of sc (os_items (snd acc)) d /\ (forall sp, sp ∈ specs -> is_Some (fst acc !! sp_ID sp) /\ sp_ID sp ∉ sp_Deps sp).

Lemma wp_link_spec spec specs d0 acc d p :
  linking (spec :: specs) d0 acc d p ->
  wp (link_spec sc acc spec : M C _) (fun acc' d' p' => linking specs d0 acc' d' p') d p.
Proof.
  destruct acc as [nodes touched]. intros (Hi & Had & Hc & Hos & Hids & Hsp). simpl in *. unfold link_spec.
  destruct (Hsp spec) as [[to Hto] Hself]; [by left|]. rewrite Hto. cbn [default from_option id].
  destruct (Hc _ to Hto) as [Hct Hn]. apply wp_bind.
  eapply wp_mono; [apply (wp_foldM _ (fun l acc d1 p1 => pg_inv off None sc p1 d1 /\ advance d d1 /\
    cache_ok sc (fst acc) d1 /\ copy sc (snd acc) d1 /\ n_NodeID (snd acc) = sp_ID spec /\
    (forall ids, ids_of sc ids d -> ids_of sc ids d1) /\ (forall k, is_Some (nodes !! k) -> is_Some (fst acc !! k)) /\
    sp_ID spec ∉ l))|].
  - by split_and!.
  - intros dep l [nodes1 to1] d1 p1 (Hi1 & Had1 & Hc1 & Hct1 & Hn1 & Hids1 & Hdom1 & Hl). simpl in *.
    apply not_elem_of_cons in Hl as [Hne Hl]. eapply wp_mono; [eapply wp_link_dep; [done..|congruence]|].
    intros acc2 d2 p2 _ (Hi2 & Had2 & Hc2 & Hct2 & Hn2 & Hids2 & Hdom2). split_and!; auto. by etrans.
  - intros [nodes' to'] d' p' _ (Hi' & Had' & Hc' & _ & _ & Hids' & Hdom' & _). simpl in *. apply wp_ret.
    split_and!; simpl; [done|by etrans|done|by apply os_ok_add| |].
    + apply Hids'. intros i r [->|Hin]%elem_os_add Hr; [|by apply (Hids i)].
      destruct Hct as (x & Hx & Hs & _). congruence.
    + intros sp Hin. destruct (Hsp sp); [by right|]. auto.
Qed.

(** ** [AddEdges] and [RemoveEdges] *)

Definition edging (d0 : db) (acc : gmap string nodeRow * orderedSet) (d : db) (p : gmap string Z) : Prop :=
  pg_inv off None sc p d /\ advance d0 d /\ cache_ok sc (fst acc) d /\ os_ok (snd acc) /\ ids_of sc (os_items (snd acc)) d.

Lemma edging_init d p : pg_inv off None sc p d -> edging d (∅, newOrderedSet) d p.
Proof. intros Hi. split_and!; [done|done|by intros k n|apply os_ok_new|]. intros i r Hin. simpl in Hin. set_solver. Qed.

(** A touched row of the scope. *)
Lemma ids_of_add n touched d : copy sc n d -> ids_of sc (os_items touched) d -> ids_of sc (os_items (os_add (n_ID n) touched)) d.
Proof.
  intros (x & Hx & Hs & _) Hids i r [->|Hin]%elem_os_add Hr; [congruence|by apply (Hids i)].
Qed.

Lemma wp_add_edge e d0 acc d p :
  edging d0 acc d p -> wp (add_edge sc acc e : M C _) (fun acc' d' p' => edging d0 acc' d' p') d p.
Proof.
  destruct acc as [cache touched]. intros (Hi & Had & Hc & Hos & Hids). simpl in *. unfold add_edge.
  case_bool_decide as Hne; [by apply wp_throw|]. pose proof (pi_graph Hi) as Hg. apply wp_bind.
  eapply wp_mono; [apply wp_endpoint; [exact Hc|intros r; by apply find_copy]|].
  intros [cache1 from] d1 p1 _ (-> & -> & Hc1 & Hf & Hfn). simpl in *. apply wp_bind.
  eapply wp_mono; [apply wp_endpoint; [exact Hc1|intros r; by apply find_copy]|].
  intros [cache2 to] d2 p2 _ (-> & -> & Hc2 & Ht & Htn). simpl in *. apply wp_bind.
  eapply wp_mono; [eapply (wp_link cache2 from to); [done..|congruence]|].
  intros to' d' p' _ (Hi' & Had' & Hc' & Hto & Hn' & Hid' & Hids'). rewrite Hfn, Htn in Hc'. apply wp_ret.
  split_and!; simpl; [done|by etrans|done|by apply os_ok_add|]. apply ids_of_add; auto.
Qed.

(** [RemoveEdges] reads no more of a cached row than its id. *)
Definition known (d : db) (n : nodeRow) : Prop := exists r, d_nodes d !! n_ID n = Some r /\ n_Scope r = sc.

Definition cutting (d0 : db) (acc : gmap string nodeRow * orderedSet) (d : db) (p : gmap string Z) : Prop :=
  pg_inv off None sc p d /\ advance d0 d /\ (forall k n, fst acc !! k = Some n -> known d n) /\ os_ok (snd acc) /\
  ids_of sc (os_items (snd acc)) d.

Lemma known_relinked t n d d' : relinked t d d' -> known d n -> known d' n.
Proof. intros Hl (r & Hr & Hs). destruct (rl_forth _ _ _ Hl _ r Hr) as (v & dp & Hv & _). by eexists. Qed.

Lemma find_known d i r : graph_inv d -> find_ext sc i d = Some r -> known d (scanNode r).
Proof. intros Hg (Hr & Hs & _)%elem_find_ext; [|done]. by exists r. Qed.

Lemma wp_remove_edge e d0 acc d p :
  cutting d0 acc d p -> wp (remove_edge sc acc e : M C _) (fun acc' d' p' => cutting d0 acc' d' p') d p.
Proof.
  destruct acc as [cache touched]. intros (Hi & Had & Hc & Hos & Hids). simpl in *. unfold remove_edge.
  pose proof (pi_graph Hi) as Hg. apply wp_bind.
  eapply wp_mono; [apply (wp_endpoint (fun _ => known d)); [exact Hc|intros r; by apply find_known]|].
  intros [cache1 from] d1 p1 _ (-> & -> & Hc1 & Hf). simpl in *. apply wp_bind.
  eapply wp_mono; [apply (wp_endpoint (fun _ => known d)); [exact Hc1|intros r; by apply find_known]|].
  intros [cache2 to] d2 p2 _ (-> & -> & Hc2 & Ht). simpl in *. apply wp_bind.
  eapply wp_mono; [by eapply wp_unlinkDependency|]. intros changed d' p' _ (Hi' & Hl & _ & _). apply wp_ret.
  assert (Hids' : ids_of sc (os_items touched) d') by (by eapply ids_of_relinked).
  split_and!; simpl; [done|etrans; [done|]; eapply relinked_advance; [apply Hi|apply Hi'|done]|..].
  - intros k n Hk. eapply known_relinked; eauto.
  - destruct changed; [by apply os_ok_add|done].
  - destruct changed; [|done]. intros i r [->|Hin]%elem_os_add Hr; [|by apply (Hids' i)].
    destruct (known_relinked _ to d d' Hl Ht) as (x & Hx & Hs). congruence.
Qed.

(** ** [announceFresh] *)

Lemma wp_bumpSeqs ids d p :
  pg_inv off None sc p d ->
  wp (bumpSeqMany ids : M C _) (fun _ d' p' => pg_inv off None sc p' d' /\ moved [] d d') d p.
Proof.
  intros Hi. unfold bumpSeqMany.
  eapply wp_mono; [apply (wp_mapM _ (fun _ _ d1 p1 => pg_inv off None sc p1 d1 /\ moved [] d d1))|].
  - auto using moved_refl.
  - intros i l out d1 p1 (Hi1 & Hm1). destruct (d_nodes d1 !! i) as [r|] eqn:Hr.
    + eapply wp_mono; [by eapply wp_bumpSeq|]. intros sq d2 p2 _ (Hi2 & Hm2). split; [done|]. by apply (moved_trans [] [] d d1).
    + unfold bumpSeq. apply wp_bind, wp_update_returning. intros r Hr'. congruence.
  - done.
Qed.

Lemma wp_insertEvents evs d p :
  pg_inv off None sc p d ->
  wp (insertEvents sc evs : M C _) (fun _ d' p' => pg_inv off None sc p' d' /\ moved [] d d') d p.
Proof.
  intros Hi. unfold insertEvents. destruct evs as [|e0 evs0] eqn:E; [apply wp_ret; auto using moved_refl|].
  rewrite <- E. clear E. apply wp_bind.
  eapply wp_mono; [apply (wp_mapM _ (fun _ _ d1 p1 => pg_inv off None sc p1 d1 /\ moved [] d d1))|].
  - auto using moved_refl.
  - intros ev l out d1 p1 (Hi1 & Hm1). eapply wp_mono; [by eapply wp_insert_event|].
    intros ef d2 p2 _ (-> & Hi2 & Hm2 & _). split; [done|]. by apply (moved_trans [] [] d d1).
  - intros out d1 p1 _ H. apply wp_bind, wp_modify. intros t <- <-. split; [by split|]. by apply wp_ret.
Qed.

Lemma wp_announceFresh nodes fresh d p :
  pg_inv off None sc p d ->
  wp (announceFresh sc nodes fresh : M C _) (fun _ d' p' => pg_inv off None sc p' d' /\ moved [] d d') d p.
Proof.
  intros Hi. unfold announceFresh. apply wp_bind. eapply wp_mono; [by eapply wp_bumpSeqs|].
  intros seqs d1 p1 _ (Hi1 & Hm1). eapply wp_mono; [by eapply wp_insertEvents|].
  intros effs d2 p2 _ (Hi2 & Hm2). split; [done|]. by apply (moved_trans [] [] d d1).
Qed.

End Batch.

(** * Deleting rows keeps the invariant *)

(** The deltas of a row that leaves. *)
Definition left_stats (ph : Phase) (st : Status) (p : gmap string Z) : gmap string Z :=
  bump_stat "stat_total" (-1) (bump_stat (bucketColumn ph st) (-1) p).

(** [removed sc i e d d']: the row [i] and the edges into it are gone, and the
    epoch floor of the scope was raised to [e]. *)
Record removed (sc : string) (i e : Z) (d d' : db) : Prop := {
  rm_nodes : d_nodes d' = delete i (d_nodes d);
  rm_edges : forall k, d_edges d' !! k = if decide (k.2 = i) then None else d_edges d !! k;
  rm_scope : forall row, d_scopes d !! sc = Some row ->
    d_scopes d' !! sc = Some (row <| sr_epoch_floor ::= fun f => Z.max f e |>);
  rm_scopes : forall s, s <> sc -> d_scopes d' !! s = d_scopes d !! s;
  rm_events : d_events d' = d_events d;
  rm_q : q_id d' = q_id d /\ q_rank d' = q_rank d /\ q_fifo d' = q_fifo d /\ q_cursor d' = q_cursor d
}.

Section Remove.
Context (d d' : db) (sc : string) (i e : Z) (r : nodeRow) (Hg : graph_inv d).
Context (Hr : d_nodes d !! i = Some r) (Hs : n_Scope r = sc).
Context (Hout : forall s b, d_edges d !! (s, i, b) = None) (Hrm : removed sc i e d d').

Lemma removed_row j x : d_nodes d' !! j = Some x -> j <> i /\ d_nodes d !! j = Some x.
Proof. rewrite (rm_nodes _ _ _ _ _ Hrm). by intros [? ?]%lookup_delete_Some. Qed.

Lemma removed_lookup j : j <> i -> d_nodes d' !! j = d_nodes d !! j.
Proof. intros Hne. rewrite (rm_nodes _ _ _ _ _ Hrm). by apply lookup_delete_ne. Qed.

Lemma removed_edge s a b sat : d_edges d' !! (s, a, b) = Some sat -> d_edges d !! (s, a, b) = Some sat /\ a <> i /\ b <> i.
Proof.
  rewrite (rm_edges _ _ _ _ _ Hrm). simpl. case_decide as E; [done|]. intros He. split_and!; [done| |done].
  intros ->. by rewrite Hout in He.
Qed.

Lemma removed_count b c : b <> i -> edge_count d' b c = edge_count d b c.
Proof.
  intros Hb. unfold edge_count.
  assert (d_edges d' = filter (fun kv => kv.1.2 <> i) (d_edges d)) as ->.
  { apply map_eq. intros k. rewrite (rm_edges _ _ _ _ _ Hrm), map_lookup_filter.
    destruct (d_edges d !! k); simpl; repeat case_decide || case_guard; done. }
  rewrite msum_filter. apply msum_ext. intros [[s a] b'] sat He. cbn [fst snd].
  unfold into. cbn [fst snd]. unfold edge_class. rewrite removed_lookup.
  - case_decide as E; [done|]. by rewrite bool_decide_eq_false_2 by congruence.
  - intros ->. by rewrite Hout in He.
Qed.

Lemma removed_graph : graph_inv d'.
Proof.
  destruct (rm_q _ _ _ _ _ Hrm) as (Q1 & Q2 & _). split.
  - intros j x [_ Hx]%removed_row. rewrite Q1. by apply (gi_id d Hg).
  - intros j k x y [_ Hx]%removed_row [_ Hy]%removed_row. by apply (gi_ext d Hg).
  - intros j x [_ Hx]%removed_row. by apply (gi_row d Hg j).
  - intros s a b sat (He & Ha & Hb)%removed_edge. rewrite !removed_lookup by done. by apply (gi_edge d Hg).
  - intros b x c [Hb Hx]%removed_row. rewrite removed_count by done. by apply (gi_deps d Hg).
  - intros j x [_ Hx]%removed_row. rewrite Q2. by eapply (gi_rank d Hg).
  - intros j k x y [_ Hx]%removed_row [_ Hy]%removed_row. by apply (gi_rank_inj d Hg).
Qed.

Lemma removed_scopes s row' : d_scopes d' !! s = Some row' -> scope_inv d -> is_Some (d_scopes d !! sc) ->
  exists row, d_scopes d !! s = Some row /\ sr_stats row' = sr_stats row /\ (sr_epoch_floor row <= sr_epoch_floor row')%Z /\
    sr_sealed row' = sr_sealed row /\ sr_cfg row' = sr_cfg row.
Proof.
  intros Hrow Hsi [row0 Hrow0]. destruct (decide (s = sc)) as [->|Hne].
  - rewrite (rm_scope _ _ _ _ _ Hrm row0 Hrow0) in Hrow. injection Hrow as <-. exists row0. simpl. split_and!; try done. lia.
  - rewrite (rm_scopes _ _ _ _ _ Hrm s Hne) in Hrow. by exists row'.
Qed.

Lemma removed_inv {off} p :
  pg_inv off None sc p d -> pg_inv off None sc (left_stats (n_Phase r) (n_Status r) p) d'.
Proof.
  intros [_ Hu Hst Hsi Hl]. destruct (si_row d Hsi i r Hr) as [row0 Hrow0]. rewrite Hs in Hrow0.
  assert (Hsc : is_Some (d_scopes d !! sc)) by by eexists. split.
  - apply removed_graph.
  - intros s a b ra (He & Ha & _)%removed_edge. rewrite removed_lookup by done. by apply (Hu s a b ra).
  - intros s row' col Hrow'. destruct (removed_scopes s row' Hrow' Hsi Hsc) as (row & Hrow & -> & _).
    specialize (Hst s row col Hrow). assert (node_count d s col = counted s col 0 r + node_count d' s col)%Z as Hc.
    { unfold node_count. rewrite (rm_nodes _ _ _ _ _ Hrm). exact (msum_delete (counted s col) _ i r Hr). }
    pose proof (bucket_not_total (n_Phase r) (n_Status r)). unfold left_stats. rewrite !stat_of_bump.
    unfold counted, in_col in Hc. rewrite Hs in Hc.
    repeat case_bool_decide; subst; simpl in *; try done; lia.
  - split.
    + intros j x [_ Hx]%removed_row. destruct (si_row d Hsi j x Hx) as [row Hrow]. destruct (decide (n_Scope x = sc)) as [E|E].
      * rewrite E in *. eexists. by apply (rm_scope _ _ _ _ _ Hrm).
      * exists row. by rewrite (rm_scopes _ _ _ _ _ Hrm).
    + intros s row' Hrow'. destruct (removed_scopes s row' Hrow' Hsi Hsc) as (row & Hrow & _ & Hle & _).
      pose proof (si_floor d Hsi s row Hrow). lia.
  - destruct (rm_q _ _ _ _ _ Hrm) as (_ & _ & _ & Q). destruct Hl as [L1 L2 L3].
    split; rewrite ?(rm_events _ _ _ _ _ Hrm), ?Q; done.
Qed.

Lemma removed_kept : scopes_kept d d'.
Proof.
  intros s row Hrow. destruct (decide (s = sc)) as [->|Hne].
  - eexists. by rewrite (rm_scope _ _ _ _ _ Hrm row Hrow).
  - exists row. by rewrite (rm_scopes _ _ _ _ _ Hrm s Hne).
Qed.

(** With the epoch of the row as the floor, no epoch is lost. *)
Lemma removed_advance : scope_inv d -> e = n_Epoch r -> advance d d'.
Proof.
  intros Hsi He. split; [|apply removed_kept]. destruct (si_row d Hsi i r Hr) as [row0 Hrow0]. rewrite Hs in Hrow0.
  assert (Hfloor : forall s, (floor_of d s <= floor_of d' s)%Z).
  { intros s. unfold floor_of. destruct (decide (s = sc)) as [->|Hne].
    - rewrite (rm_scope _ _ _ _ _ Hrm row0 Hrow0), Hrow0. simpl. lia.
    - by rewrite (rm_scopes _ _ _ _ _ Hrm s Hne). }
  intros s nid. destruct (epoch_at_cases d s nid Hg) as [(x & Hx & <- & <- & ->)|[Hno ->]].
  - destruct (decide (n_ID x = i)) as [E|E].
    + rewrite E in Hx. rewrite Hr in Hx. injection Hx as <-.
      rewrite (epoch_at_no_row d' _ _ removed_graph).
      * unfold floor_of. rewrite Hs, (rm_scope _ _ _ _ _ Hrm row0 Hrow0). simpl. lia.
      * intros j y [Hj Hy]%removed_row Hs' Hn'. apply Hj. by apply (gi_ext d Hg j i y r).
    + rewrite (epoch_at_row d' (n_ID x) x removed_graph); [done|]. by rewrite removed_lookup.
  - rewrite (epoch_at_no_row d' s nid removed_graph); [done|]. intros j y [_ Hy]%removed_row. by apply (Hno j).
Qed.

End Remove.

(** ** The calls *)

Lemma row_check_epoch r : row_check r = None -> (n_Epoch r <= max_i64)%Z.
Proof.
  unfold row_check, in_range, int8. intros H. destruct (negb _) eqn:E in H; [done|]. apply negb_false_iff in E.
  repeat match goal with H : (_ && _) = true |- _ => apply andb_true_iff in H as [? ?] end. lia.
Qed.

Lemma row_check_attempt r : row_check r = None -> (n_Attempt r <= max_i32)%Z.
Proof.
  unfold row_check, in_range, int4. intros H. destruct (negb _) eqn:E in H; [done|]. apply negb_false_iff in E.
  repeat match goal with H : (_ && _) = true |- _ => apply andb_true_iff in H as [? ?] end. lia.
Qed.

Lemma scan_epoch d i r : graph_inv d -> d_nodes d !! i = Some r -> widenI64 (n_Epoch (scanNode r)) = n_Epoch r.
Proof.
  intros Hg Hr. destruct (gi_row d Hg i r Hr) as [Hck _ Hep _]. apply row_check_epoch in Hck.
  simpl. unfold widenI64, narrowU64. rewrite (proj2 (Z.ltb_ge (n_Epoch r) 0)) by lia. split_cmp; lia.
Qed.

Section Calls.
Context {C : Type} `{!Server C} {off : string -> string -> Z} (sc : string).

(** The tables after [detach_preds]. *)
Record detached (i : Z) (d d1 : db) : Prop := {
  dt_nodes : d_nodes d1 = d_nodes d;
  dt_scopes : d_scopes d1 = d_scopes d;
  dt_events : d_events d1 = d_events d;
  dt_q : q_id d1 = q_id d /\ q_rank d1 = q_rank d /\ q_fifo d1 = q_fifo d /\ q_cursor d1 = q_cursor d;
  dt_edges : forall k, d_edges d1 !! k = if decide (k.1.1 = sc /\ k.2 = i) then None else d_edges d !! k
}.

Lemma wp_detach_preds i (Q : unit -> db -> gmap string Z -> Prop) d p :
  (forall d1, detached i d d1 -> Q tt d1 p) -> wp (detach_preds sc i : M C _) Q d p.
Proof.
  intros HQ. apply wp_exec; [auto with pg|]. apply HQ. split; try done. intros k. simpl. rewrite map_lookup_filter.
  destruct (d_edges d !! k); simpl; repeat case_decide || case_guard; try done; tauto.
Qed.

Lemma removed_detached i e d d1 d' : detached i d d1 -> removed sc i e d1 d' -> removed sc i e d d'.
Proof.
  intros [En Es Ev Eq Ee] [R1 R2 R3 R4 R5 R6]. split.
  - congruence.
  - intros x. rewrite R2, Ee. repeat case_decide; naive_solver.
  - by rewrite <- Es.
  - intros s Hne. rewrite R4 by done. congruence.
  - congruence.
  - destruct R6 as (-> & -> & -> & ->). done.
Qed.

Lemma wp_deleteNodeRow n (Q : unit -> db -> gmap string Z -> Prop) d p :
  (forall s b, d_edges d !! (s, n_ID n, b) = None) ->
  (forall d', removed sc (n_ID n) (widenI64 (n_Epoch n)) d d' -> Q tt d' (left_stats (n_Phase n) (n_Status n) p)) ->
  wp (deleteNodeRow sc n : M C _) Q d p.
Proof.
  intros Hout HQ. unfold deleteNodeRow, leaveBucket, addTotal, raise_floor, delete_row.
  apply wp_bind, wp_bump_pending, wp_bind, wp_bump_pending, wp_bind, wp_exec; [destruct (d_scopes d !! sc); auto with pg|].
  apply wp_exec; [destruct (d_scopes d !! sc); auto with pg|]. apply HQ.
  assert (Hf : forall k, filter (fun kv => ~ (kv.1.1.2 = n_ID n \/ kv.1.2 = n_ID n)) (d_edges d) !! k =
    if decide (k.2 = n_ID n) then None else d_edges d !! k).
  { intros [[s a] b]. rewrite map_lookup_filter. cbn [fst snd].
    destruct (decide (a = n_ID n)) as [->|Ha]; [rewrite Hout; by case_decide|].
    destruct (d_edges d !! (s, a, b)); simpl; repeat case_decide || case_guard; try done; exfalso; tauto. }
  destruct (d_scopes d !! sc) as [row|] eqn:Hsc; split; try done; simpl.
  - intros row' Hrow. rewrite lookup_insert_eq. congruence.
  - intros s Hne. by rewrite lookup_insert_ne.
  - congruence.
Qed.

(** The row [i] with the edges into it. *)
Lemma wp_delete n (Q : unit -> db -> gmap string Z -> Prop) d p :
  (forall s b, d_edges d !! (s, n_ID n, b) = None) ->
  (forall d', removed sc (n_ID n) (widenI64 (n_Epoch n)) d d' -> Q tt d' (left_stats (n_Phase n) (n_Status n) p)) ->
  wp (detach_preds sc (n_ID n) : M C _) (fun _ => wp (deleteNodeRow sc n : M C _) Q) d p.
Proof.
  intros Hout HQ. apply wp_detach_preds. intros d1 Hd. apply wp_deleteNodeRow.
  - intros s b. rewrite (dt_edges _ _ _ Hd). by case_decide.
  - intros d' Hrm. apply HQ. by eapply removed_detached.
Qed.

(** ** [RemoveNode] *)

(** The rank of a node stays below that of its successors while they are ended. *)
Lemma wp_fail_succs succs i r effs d p :
  pg_inv off None sc p d -> d_nodes d !! i = Some r ->
  (forall w, w ∈ succs -> exists rw, d_nodes d !! n_ID w = Some rw /\ n_Scope rw = sc /\ (n_Rank r < n_Rank rw)%Z) ->
  wp (foldM (fun effects w =>
        more ← terminate sc (n_ID w) StatusError ReasonRemoved (terminalMessage ReasonRemoved);
        mret (effects ++ more)) effs succs : M C _)
    (fun _ d' p' => pg_inv off None sc p' d' /\ (exists names, moved names d d') /\ d_nodes d' !! i = Some r) d p.
Proof.
  intros Hi Hr Hs.
  eapply wp_mono; [apply (wp_foldM _ (fun l _ d1 p1 => pg_inv off None sc p1 d1 /\ (exists names, moved names d d1) /\
    d_nodes d1 !! i = Some r /\ forall w, w ∈ l -> exists rw, d_nodes d1 !! n_ID w = Some rw /\ n_Scope rw = sc /\ (n_Rank r < n_Rank rw)%Z))|].
  - split_and!; eauto using moved_refl.
  - intros w l effs1 d1 p1 (Hi1 & [n1 Hm1] & Hr1 & Hs1). destruct (Hs1 w) as (rw & Hw & Hsw & Hlt); [by left|].
    apply wp_bind. eapply wp_mono; [eapply wp_terminate; [done|done|intros; congruence]|].
    intros more d2 p2 _ (Hi2 & Hm2 & _ & _ & Hlow). apply wp_ret. split_and!; [done|eauto using moved_trans|by eapply Hlow|].
    intros w' Hw'. destruct (Hs1 w') as (rw' & Hrw' & Hsw' & Hlt'); [by right|].
    destruct (mv_forth _ _ _ Hm2 _ rw' Hrw') as (x & Hx & K & _). exists x. by rewrite (kp_scope _ _ K), (kp_rank _ _ K).
  - intros effs1 d1 p1 _ (? & ? & ? & _). done.
Qed.

(** Cut every edge to the successors. *)
Lemma wp_unlink_succs succs i r d p :
  pg_inv off None sc p d -> d_nodes d !! i = Some r -> (forall w, w ∈ succs -> n_ID w <> i) ->
  wp (foldM (fun _ w => _ ← unlinkDependency sc i (n_ID w); mret tt) tt succs : M C _)
    (fun _ d' p' => pg_inv off None sc p' d' /\ advance d d' /\ d_nodes d' !! i = Some r /\
       (forall ids, ids_of sc ids d -> ids_of sc ids d') /\
       forall k, is_Some (d_edges d' !! k) -> is_Some (d_edges d !! k) /\ forall w, w ∈ succs -> k <> (sc, i, n_ID w)) d p.
Proof.
  intros Hi Hr Hne.
  eapply wp_mono; [apply (wp_foldM _ (fun l _ d1 p1 => pg_inv off None sc p1 d1 /\ advance d d1 /\ d_nodes d1 !! i = Some r /\
    (forall ids, ids_of sc ids d -> ids_of sc ids d1) /\ (forall w, w ∈ l -> n_ID w <> i) /\
    forall k, is_Some (d_edges d1 !! k) -> is_Some (d_edges d !! k) /\
      forall w, w ∈ succs -> w ∈ l \/ k <> (sc, i, n_ID w)))|].
  - split_and!; auto. reflexivity.
  - intros w l [] d1 p1 (Hi1 & Had & Hr1 & Hids & Hne1 & Hk). apply wp_bind.
    eapply wp_mono; [by eapply wp_unlinkDependency|]. intros ch d2 p2 _ (Hi2 & Hl & Ee & Hoth). apply wp_ret.
    split_and!; [done|etrans; [done|]; eapply relinked_advance; [apply Hi1|apply Hi2|done]| | | |].
    + rewrite Hoth; [done|]. assert (w ∈ w :: l) as Hw by by left. specialize (Hne1 w Hw). congruence.
    + intros ids Hids0. eapply ids_of_relinked; [done|auto].
    + intros w' Hw'. apply Hne1. by right.
    + intros k Hk2. rewrite Ee in Hk2. destruct (decide (k = (sc, i, n_ID w))) as [->|Hkw].
      { rewrite lookup_delete_eq in Hk2. by destruct Hk2. }
      rewrite lookup_delete_ne in Hk2 by done. destruct (Hk k Hk2) as [? Hk']. split; [done|].
      intros w' Hw'. destruct (Hk' w' Hw') as [[->|?]%elem_of_cons|?]; auto.
  - intros [] d1 p1 _ (? & ? & ? & ? & _ & Hk). split_and!; [done..|]. intros k Hk1. destruct (Hk k Hk1) as [? Hk'].
    split; [done|]. intros w Hw. destruct (Hk' w Hw) as [?%not_elem_of_nil|?]; done.
Qed.

Lemma wp_remove_node_body nid policy d p :
  pg_inv off None sc p d ->
  wp (remove_node_body sc nid policy : M C _) (fun _ d' p' => pg_inv off None sc p' d' /\ advance d d') d p.
Proof.
  intros Hi. pose proof (pi_graph Hi) as Hg. unfold remove_node_body. apply wp_bind, wp_loadByExternal.
  destruct (find_ext sc nid d) as [r|] eqn:Hf; cbn [fmap option_fmap option_map]; [|by apply wp_throw].
  destruct (elem_find_ext _ _ _ _ Hg Hf) as (Hr & Hs & Hn). set (n := scanNode r).
  change (n_Phase n) with (n_Phase r). change (n_ID n) with (n_ID r). case_bool_decide as Hcl; [by apply wp_throw|].
  unfold successorsForUpdate. apply wp_bind, wp_query. set (succs := scanNode <$> _).
  assert (Hsuccs : forall w, w ∈ succs -> exists rw, d_nodes d !! n_ID w = Some rw /\ n_Scope rw = sc /\ (n_Rank r < n_Rank rw)%Z).
  { intros w (x & -> & Hx)%list_elem_of_fmap. rewrite merge_sort_Permutation in Hx.
    apply elem_succ_rows in Hx as (Hx & Hxs & [sat He]); [|done]. exists x. split_and!; [done|done|].
    destruct (gi_edge d Hg _ _ _ _ He) as (y & z & Hy & Hz & _ & _ & Hlt & _). congruence. }
  assert (Hall : forall s b, is_Some (d_edges d !! (s, n_ID r, b)) -> s = sc /\ b ∈ n_ID <$> succs).
  { intros s b [sat He]. destruct (gi_edge d Hg _ _ _ _ He) as (y & z & Hy & Hz & Hys & Hzs & _).
    assert (s = sc) as -> by congruence. split; [done|]. pose proof (proj1 (gi_id d Hg b z Hz)) as Hid.
    apply list_elem_of_fmap. exists (scanNode z). split; [done|]. apply list_elem_of_fmap. exists z. split; [done|].
    rewrite merge_sort_Permutation. apply elem_succ_rows; [done|]. rewrite Hid. eauto. }
  assert (Hnd : NoDup (n_ID <$> succs)).
  { unfold succs. rewrite <- list_fmap_compose, (list_fmap_ext _ n_ID _) by done.
    rewrite merge_sort_Permutation. by apply rows_where_NoDup. }
  clearbody succs. apply wp_bind.
  apply (wp_mono _ (fun _ d' p' => pg_inv off None sc p' d' /\ (exists names, moved names d d') /\ d_nodes d' !! n_ID r = Some r)).
  { unfold applyCascade. destruct succs as [|w0 succs0] eqn:E; [apply wp_ret; eauto using moved_refl|].
    destruct policy; [by apply wp_throw|apply wp_ret; eauto using moved_refl|by eapply wp_fail_succs|apply wp_ret; eauto using moved_refl]. }
  intros effects d1 p1 _ (Hi1 & [names1 Hm1] & Hr1). apply wp_bind.
  assert (Hids1 : ids_of sc (n_ID <$> succs) d1).
  { eapply ids_of_moved; [done|]. intros j x (w & -> & Hw)%list_elem_of_fmap Hx. destruct (Hsuccs w Hw) as (y & Hy & ? & _). congruence. }
  eapply wp_mono; [eapply wp_unlink_succs; [done|exact Hr1|]|].
  { intros w Hw E. destruct (Hsuccs w Hw) as (y & Hy & _ & Hlt). rewrite E, Hr in Hy. injection Hy as <-. lia. }
  intros _ d2 p2 _ (Hi2 & Had2 & Hr2 & Hids2 & Hedges).
  assert (Hout : forall s b, d_edges d2 !! (s, n_ID n, b) = None).
  { intros s b. destruct (d_edges d2 !! (s, n_ID n, b)) eqn:He; [|done]. exfalso.
    destruct (Hedges (s, n_ID n, b)) as [He1 Hno]; [by eexists|]. apply (mv_edges _ _ _ Hm1) in He1.
    destruct (Hall s b He1) as [-> (w & -> & Hw)%list_elem_of_fmap]. by destruct (Hno w Hw). }
  change (n_ID r) with (n_ID n) in Hr2. apply wp_bind. eapply wp_mono; [apply (wp_delete n (fun _ d' p' => removed sc (n_ID n) (widenI64 (n_Epoch n)) d2 d' /\
    p' = left_stats (n_Phase n) (n_Status n) p2)); [done|auto]|].
  intros [] d2' p2' _ Hdel. apply wp_bind. eapply wp_mono; [exact Hdel|]. clear Hdel. intros _ d3 p3 _ [Hrm ->].
  pose proof (scan_epoch d _ r Hg Hr) as Hep. fold n in Hep. rewrite Hep in Hrm.
  change (n_Phase n) with (n_Phase r). change (n_Status n) with (n_Status r).
  assert (Hi3 : pg_inv off None sc (left_stats (n_Phase r) (n_Status r) p2) d3)
    by (by eapply (removed_inv d2 d3 sc (n_ID n) _ r); [apply Hi2|..]).
  assert (Had3 : advance d d3).
  { etrans; [eapply moved_advance; [done|apply Hi1|done]|]. etrans; [done|].
    by eapply (removed_advance d2 d3 sc (n_ID n) _ r); [apply Hi2|..|apply Hi2|]. }
  case_bool_decide; [|by apply wp_ret]. apply wp_bind.
  eapply wp_mono; [eapply wp_settleTouched; [done|done|]|].
  { intros j x Hj Hx. apply (Hids2 _ Hids1 j); [done|]. by apply (removed_row d2 d3 sc (n_ID n) (n_Epoch r)) in Hx as [_ Hx]. }
  intros more d4 p4 _ (Hi4 & [names4 Hm4]). apply wp_ret. split; [done|]. etrans; [done|].
  eapply moved_advance; [apply Hi3|apply Hi4|done].
Qed.

End Calls.
