(* ===== verification/PgBodies.v ===== *)
(** * The bodies of the transactions keep the invariant

    Each body, run on tables that satisfy the invariant with nothing pending,
    either fails or leaves tables that satisfy it, with nothing pending. *)
From S2P Require Import Prelude Types Config Scope ListFacts MapSum PgDb PgTopo PgEngine PgGraph PgLease PgAdmin PgInv PgTerminate.
From S2P Require Import PgLinkFacts PgLeaseFacts PgBatch.

(** ** Tables between two calls *)

(** Only rows that are done are collected, so only their counters drift. *)
Record off_ok (off : string -> string -> Z) (d : db) : Prop := {
  ok_scope : forall s col, d_scopes d !! s = None -> off s col = 0%Z;
  ok_live : forall s col, col ∈ ["stat_blocked"; "stat_scheduled"; "stat_ready"; "stat_in_progress"]%string -> off s col = 0%Z
}.

Record db_inv (off : string -> string -> Z) (d : db) : Prop := {
  db_pg : pg_inv off None "" ∅ d;
  db_off : off_ok off d
}.

Arguments db_pg {off d} _.
Arguments db_off {off d} _.

Lemma pg_inv_rescope {off} sc sc' d : pg_inv off None sc ∅ d -> pg_inv off None sc' ∅ d.
Proof.
  intros [Hg Hu Hst Hsc Hl]. split; [done|done| |done|done]. intros s row col Hrow. specialize (Hst s row col Hrow).
  rewrite stat_of_empty in *. by repeat case_bool_decide.
Qed.

Lemma db_inv_intro {off} sc d d' :
  off_ok off d -> scopes_kept d d' -> pg_inv off None sc ∅ d' -> db_inv off d'.
Proof.
  intros [H1 H2] Hk Hi. split; [by eapply pg_inv_rescope|]. split; [|done]. intros s col Hs.
  destruct (d_scopes d !! s) as [row|] eqn:E; [|by apply H1]. destruct (Hk s row E) as (row' & Hrow' & _). congruence.
Qed.

Lemma db_inv_sc {off} sc d : db_inv off d -> pg_inv off None sc ∅ d.
Proof. intros [H _]. by eapply pg_inv_rescope. Qed.

(** Tables that differ in the scopes only by what was pending. *)
Lemma floors_advance d d' :
  d_nodes d' = d_nodes d -> scopes_kept d d' -> (forall s, floor_of d' s = floor_of d s) -> advance d d'.
Proof.
  intros Hn Hk Hf. split; [|done]. intros s nid. unfold epoch_at, find_ext, rows_where, rows. rewrite Hn, Hf. done.
Qed.

(** ** Tables that differ in scope rows only *)

(** [quiet]: no row of a node or an edge and no event is written; a scope keeps
    its counters and its epoch floor, and a new scope has none. *)
Record quiet (d d' : db) : Prop := {
  qu_nodes : d_nodes d' = d_nodes d;
  qu_edges : d_edges d' = d_edges d;
  qu_events : d_events d' = d_events d;
  qu_q : qle d d';
  qu_old : forall s row, d_scopes d !! s = Some row -> exists row', d_scopes d' !! s = Some row' /\
    sr_stats row' = sr_stats row /\ sr_epoch_floor row' = sr_epoch_floor row;
  qu_new : forall s row', d_scopes d !! s = None -> d_scopes d' !! s = Some row' ->
    sr_stats row' = ∅ /\ sr_epoch_floor row' = 0%Z
}.

(** The rows of new scopes a call may leave when it fails. *)
Class NewRows := may_appear : string -> scopeTuple -> Prop.

(** [residue]: what a call that failed may leave.  Beside values drawn from
    sequences and recorded migrations, only such rows. *)
Record residue {nrows : NewRows} (d d' : db) : Prop := {
  rs_quiet : quiet d d';
  rs_rows : forall s row, d_scopes d !! s = Some row -> d_scopes d' !! s = Some row;
  rs_new : forall s row, d_scopes d !! s = None -> d_scopes d' !! s = Some row -> may_appear s row
}.

Lemma quiet_same {nrows : NewRows} d d' :
  d_nodes d' = d_nodes d -> d_edges d' = d_edges d -> d_events d' = d_events d -> d_scopes d' = d_scopes d -> qle d d' ->
  residue d d'.
Proof.
  intros Hn He Hv Hs Hq. split; [split; try done|..].
  - intros s row Hrow. exists row. by rewrite Hs.
  - intros s row' H1 H2. congruence.
  - by rewrite Hs.
  - intros s row H1 H2. congruence.
Qed.

#[export] Instance residue_refl {nrows : NewRows} : Reflexive residue.
Proof. intros d. by apply quiet_same. Qed.

#[export] Instance quiet_trans : Transitive quiet.
Proof.
  intros d1 d2 d3 [N1 E1 V1 Q1 O1 W1] [N2 E2 V2 Q2 O2 W2]. split; try congruence; [by etrans|..].
  - intros s row Hrow. destruct (O1 s row Hrow) as (row2 & Hrow2 & ? & ?).
    destruct (O2 s row2 Hrow2) as (row3 & Hrow3 & ? & ?). exists row3. split_and!; congruence.
  - intros s row' H1 H3. destruct (d_scopes d2 !! s) as [row2|] eqn:H2; [|by apply (W2 s)].
    destruct (W1 s row2 H1 H2). destruct (O2 s row2 H2) as (row3 & Hrow3 & ? & ?).
    assert (row3 = row') as -> by congruence. split; congruence.
Qed.

#[export] Instance residue_trans {nrows : NewRows} : Transitive residue.
Proof.
  intros d1 d2 d3 [Q1 R1 N1] [Q2 R2 N2]. split; [by etrans|auto|]. intros s row H1 H3.
  destruct (d_scopes d2 !! s) as [row2|] eqn:H2; [|by apply N2]. apply N1; [done|]. rewrite <- H3. symmetry. by rewrite (R2 s row2).
Qed.

Lemma quiet_floor d d' s : quiet d d' -> floor_of d' s = floor_of d s.
Proof.
  intros Hq. unfold floor_of. destruct (d_scopes d !! s) as [row|] eqn:Hrow.
  - by destruct (qu_old _ _ Hq s row Hrow) as (row' & -> & _ & ->).
  - destruct (d_scopes d' !! s) as [row'|] eqn:Hrow'; [|done]. by destruct (qu_new _ _ Hq s row' Hrow Hrow').
Qed.

Lemma quiet_epochs d d' : quiet d d' -> epochs_le d d'.
Proof.
  intros Hq s nid. unfold epoch_at, find_ext, rows_where, rows. rewrite (qu_nodes _ _ Hq), (quiet_floor d d' s Hq). done.
Qed.

Lemma residue_advance {nrows : NewRows} d d' : residue d d' -> advance d d'.
Proof. intros Hr. split; [apply quiet_epochs, Hr|]. intros s row Hrow. exists row. by rewrite (rs_rows _ _ Hr s row). Qed.

Lemma quiet_inv off d d' : db_inv off d -> quiet d d' -> db_inv off d'.
Proof.
  intros [[Hg Hu Hst [Hs1 Hs2] [L1 L2 L3]] [Ho1 Ho2]] [Hn He Hv Hq Hold Hnew].
  assert (Hbirth : forall s row', d_scopes d !! s = None -> d_scopes d' !! s = Some row' -> forall col, node_count d' s col = 0%Z).
  { intros s row' Hno _ col. unfold node_count. rewrite Hn. apply msum_zero. intros i r Hr. unfold counted.
    rewrite bool_decide_eq_false_2; [done|]. intros Hs. destruct (Hs1 i r Hr) as [x Hx]. congruence. }
  split; [split|split; [|exact Ho2]].
  - by apply (graph_inv_ext d).
  - unfold unsat_live. rewrite Hn, He. exact Hu.
  - intros s row' col Hrow'. rewrite stat_of_empty. destruct (d_scopes d !! s) as [row|] eqn:Hrow.
    + destruct (Hold s row Hrow) as (x & Hx & Ex & _). assert (x = row') as -> by congruence.
      specialize (Hst s row col Hrow). rewrite stat_of_empty in Hst. unfold node_count. rewrite Ex, Hn. exact Hst.
    + destruct (Hnew s row' Hrow Hrow') as [-> _]. rewrite (Hbirth s row' Hrow Hrow'), Ho1, stat_of_empty by done. by case_bool_decide.
  - split.
    + intros i r Hr. rewrite Hn in Hr. destruct (Hs1 i r Hr) as [x Hx]. destruct (Hold _ x Hx) as (y & Hy & _). by exists y.
    + intros s row' Hrow'. destruct (d_scopes d !! s) as [row|] eqn:Hrow.
      * destruct (Hold s row Hrow) as (x & Hx & _ & Ex). assert (x = row') as -> by congruence. rewrite Ex. by eapply Hs2.
      * destruct (Hnew s row' Hrow Hrow') as [_ ->]. done.
  - destruct Hq as (_ & _ & _ & Hq). split; rewrite ?Hv; [done| |lia]. intros e He'. pose proof (L2 e He'). lia.
  - intros s col Hs. apply Ho1. destruct (d_scopes d !! s) as [row|] eqn:E; [|done].
    destruct (Hold s row E) as (x & Hx & _). congruence.
Qed.

Section Bodies.
Context {C : Type} `{!Server C} {off : string -> string -> Z}.

(** ** Scope rows *)

Lemma ensure_residue {nrows : NewRows} sc cfg d :
  may_appear sc (new_scope cfg) ->
  residue d (match d_scopes d !! sc with
             | Some _ => d
             | None => d <| d_scopes ::= <[sc := new_scope cfg]> |>
             end).
Proof.
  intros Hap. destruct (d_scopes d !! sc) as [row|] eqn:Hsc; [reflexivity|].
  assert (Hlk : forall s, (<[sc := new_scope cfg]> (d_scopes d) : gmap _ _) !! s =
    if decide (s = sc) then Some (new_scope cfg) else d_scopes d !! s).
  { intros s. case_decide as E; [subst; by rewrite lookup_insert_eq|by rewrite lookup_insert_ne]. }
  split; [split; try done; [auto with pg|..]|..]; simpl.
  - intros s row Hrow. exists row. rewrite Hlk. case_decide; [congruence|done].
  - intros s row'. rewrite Hlk. case_decide; intros; simplify_eq; done.
  - intros s row Hrow. rewrite Hlk. case_decide; [congruence|done].
  - intros s row Hno. rewrite Hlk. case_decide; [by intros [= <-]; subst|congruence].
Qed.

Lemma wp_ensureScope sc cfg d p :
  db_inv off d ->
  wp (ensureScope exec sc cfg : M C _) (fun _ d' p' => p' = p /\ db_inv off d' /\ advance d d' /\ is_Some (d_scopes d' !! sc)) d p.
Proof.
  intros Hi. pose proof (@ensure_residue (fun _ _ => True) sc cfg d I) as Hr. unfold ensureScope. apply wp_exec; [apply Hr|].
  split_and!; [done|by eapply quiet_inv; [|apply Hr]|by eapply residue_advance|].
  destruct (d_scopes d !! sc) eqn:E; [by eexists|]. simpl. rewrite lookup_insert_eq. by eexists.
Qed.

Lemma wp_finalize sc d p :
  pg_inv off None sc p d ->
  wp (finalize sc : M C _) (fun _ d' p' => p' = ∅ /\ pg_inv off None sc ∅ d' /\ advance d d' /\ d_nodes d' = d_nodes d) d p.
Proof.
  intros Hi. unfold finalize. apply wp_bind.
  apply (wp_mono _ (fun _ d' p' => p' = ∅ /\ pg_inv off None sc ∅ d' /\ advance d d' /\ d_nodes d' = d_nodes d)).
  2: { intros [] d' p' _ H. unfold notifyIfDirty. apply wp_get. intros t _ _. destruct (g_notify t); wp_steps; exact H. }
  assert (Hzero : (forall col, stat_of p col = 0%Z) -> pg_inv off None sc ∅ d).
  { intros Hz. destruct Hi as [Hg Hu Hst Hs Hl]. split; try done. intros s row col Hrow.
    specialize (Hst s row col Hrow). by rewrite Hz in Hst. }
  unfold flushCounters. apply wp_get. intros t Et Ep. rewrite Ep.
  case_bool_decide as He; [apply wp_ret; rewrite He in *; split_and!; [done|done|reflexivity|done]|].
  apply wp_bind, wp_modify. clear t Et Ep. intros t <- <-. split; [by split|]. simpl.
  case_bool_decide as Hall.
  { apply wp_ret. split_and!; [done| |reflexivity|done]. apply Hzero. intros col. unfold stat_of.
    destruct (g_stats t !! col) as [z|] eqn:Ez; [|done]. by rewrite (Hall col z Ez). }
  apply wp_bind, wp_stmt, wp_bind, wp_gets. set (d := g_db t) in *. set (p := g_stats t) in *.
  destruct (d_scopes d !! sc) as [row|] eqn:Hrow.
  2: { apply wp_ret. split_and!; [done| |reflexivity|done]. destruct Hi as [Hg Hu Hst Hs Hl]. split; try done.
       intros s row col Hr. specialize (Hst s row col Hr). rewrite bool_decide_eq_false_2 in * by (intros ->; congruence). done. }
  case_bool_decide; [|by apply wp_throw]. apply wp_modify_db; [auto with pg|].
  set (row' := row <| sr_stats := add_stats p (sr_stats row) |>). set (d' := d <| d_scopes ::= <[sc := row']> |>).
  assert (Hlk : forall s, d_scopes d' !! s = if decide (s = sc) then Some row' else d_scopes d !! s).
  { intros s. unfold d'. simpl. case_decide as E; [subst; by rewrite lookup_insert_eq|by rewrite lookup_insert_ne]. }
  destruct Hi as [Hg Hu Hst [Hs1 Hs2] Hl]. split_and!; [done|split|apply floors_advance|done].
  - by apply (graph_inv_ext d); [done|done|auto with pg|].
  - exact Hu.
  - intros s x col. rewrite Hlk, stat_of_empty. case_decide as E.
    + intros [= <-]. subst s. specialize (Hst sc row col Hrow). rewrite bool_decide_eq_true_2 in * by done.
      simpl. rewrite stat_of_add. rewrite Z.add_0_r. exact Hst.
    + intros Hx. specialize (Hst s x col Hx). by rewrite bool_decide_eq_false_2 in * by done.
  - split.
    + intros i r Hr. rewrite Hlk. case_decide; [by eexists|by eapply Hs1].
    + intros s x. rewrite Hlk. case_decide; [intros [= <-]; simpl; by eapply Hs2|apply Hs2].
  - destruct Hl; by split.
  - done.
  - intros s x Hx. rewrite Hlk. case_decide; [|by exists x]. exists row'. simpl. split_and!; congruence.
  - intros s. unfold floor_of. rewrite Hlk. case_decide; [subst; by rewrite Hrow|done].
Qed.

(** The end of every mutating transaction. *)
Lemma wp_close {A : Type} sc (a : A) (Q : A -> db -> gmap string Z -> Prop) d0 d p :
  off_ok off d0 -> advance d0 d -> pg_inv off None sc p d ->
  (forall d', db_inv off d' -> advance d d' -> d_nodes d' = d_nodes d -> Q a d' ∅) ->
  wp (finalize sc ;; mret a : M C _) Q d p.
Proof.
  intros Hoff Had Hi HQ. apply wp_bind. eapply wp_mono; [by eapply wp_finalize|].
  intros [] d' p' _ (-> & Hi' & Had' & Hn). apply wp_ret, HQ; [|done|done].
  eapply (db_inv_intro sc d0 d'); [done|by etrans; [apply ad_scopes|apply ad_scopes]|done].
Qed.

(** ** Graph operations *)

Lemma validate_specs_self cfg seen specs sp :
  validate_specs cfg seen specs = None -> sp ∈ specs -> sp_ID sp ∉ sp_Deps sp.
Proof.
  revert seen. induction specs as [|x specs IH]; intros seen; simpl; [set_solver|].
  destruct (NodeSpec_Validate x) eqn:Ev; [done|]. destruct (_ <? _)%Z; [done|]. case_bool_decide; [done|].
  intros H' [->|Hin]%elem_of_cons; [by apply Validate_self|by eapply IH].
Qed.

Lemma wp_add_nodes_body defaults sc specs d :
  db_inv off d ->
  wp (add_nodes_body defaults sc specs : M C _) (fun _ d' p' => db_inv off d' /\ advance d d') d ∅.
Proof.
  intros Hi. unfold add_nodes_body. apply wp_bind.
  eapply wp_mono; [by eapply wp_ensureScope|]. intros _ d1 p1 _ (-> & Hdb1 & Had1 & Hsc).
  pose proof (db_inv_sc sc d1 Hdb1) as Hi1.
  apply wp_bind, wp_stmt, wp_bind, wp_query. destruct (Sealed _); [by apply wp_throw|].
  set (cfg := Resolved _). destruct (validateAddNodesBatch cfg specs) eqn:Hv; [by apply wp_throw|].
  apply wp_bind. eapply wp_mono; [by eapply wp_materialise|].
  intros [nodes fresh] d2 p2 _ (Hi2 & Had2 & Hc2 & Hdom). simpl in Hc2, Hdom. apply wp_bind.
  eapply wp_mono; [apply (wp_foldM _ (fun l acc d3 p3 => linking (off := off) sc l d2 acc d3 p3))|].
  { split_and!; [done|reflexivity|done|apply os_ok_new|intros i r Hin; simpl in Hin; set_solver|].
    intros sp Hsp. split; [by apply Hdom|]. unfold validateAddNodesBatch in Hv. case_match; [done|]. by eapply validate_specs_self. }
  { intros. by apply wp_link_spec. }
  intros [nodes' touched] d3 p3 _ (Hi3 & Had3 & _ & [Hnd _] & Hids & _). simpl in *. apply wp_bind.
  eapply wp_mono; [by eapply wp_announceFresh|]. intros effects d4 p4 _ (Hi4 & Hm4). apply wp_bind.
  eapply wp_mono; [eapply wp_settleTouched; [done|done|by eapply ids_of_moved]|].
  intros more d5 p5 _ (Hi5 & [names Hm5]).
  assert (Had : advance d d5).
  { do 3 (etrans; [done|]). etrans; [eapply moved_advance; [apply Hi3|apply Hi4|done]|].
    eapply moved_advance; [apply Hi4|apply Hi5|done]. }
  eapply (wp_close sc _ _ d); [apply Hi|done|done|]. intros d6 Hi6 Had6 _. split; [done|by etrans].
Qed.

(** A loop over touched rows, then [settleTouched]. *)
Lemma wp_settle_after {A : Type} sc (m : M C (A * orderedSet)) (I : A * orderedSet -> db -> gmap string Z -> Prop) d p :
  wp m I d p ->
  (forall acc d' p', I acc d' p' -> pg_inv off None sc p' d' /\ advance d d' /\ os_ok (snd acc) /\ ids_of sc (os_items (snd acc)) d') ->
  wp ('(_, touched) ← m; settleTouched sc (os_items touched) : M C _)
    (fun _ d' p' => pg_inv off None sc p' d' /\ advance d d') d p.
Proof.
  intros Hm HI. apply wp_bind. eapply wp_mono; [exact Hm|]. intros [x touched] d1 p1 _ Hacc.
  destruct (HI _ _ _ Hacc) as (Hi1 & Had1 & [Hnd _] & Hids). simpl in *.
  eapply wp_mono; [by eapply wp_settleTouched|]. intros effs d2 p2 _ (Hi2 & [names Hm2]). split; [done|].
  etrans; [done|]. eapply moved_advance; [apply Hi1|apply Hi2|done].
Qed.

Lemma wp_add_edges_body sc edges d p :
  pg_inv off None sc p d ->
  wp ('(_, touched) ← foldM (add_edge sc) (∅, newOrderedSet) edges; settleTouched sc (os_items touched) : M C _)
    (fun _ d' p' => pg_inv off None sc p' d' /\ advance d d') d p.
Proof.
  intros Hi. eapply (wp_settle_after sc _ (fun acc d' p' => edging (off := off) sc d acc d' p')).
  - apply (wp_foldM _ (fun _ acc d' p' => edging (off := off) sc d acc d' p')); [by apply edging_init|].
    intros. by apply wp_add_edge.
  - intros acc d' p' (? & ? & ? & ? & ?). done.
Qed.

Lemma wp_remove_edges_body sc edges d p :
  pg_inv off None sc p d ->
  wp ('(_, touched) ← foldM (remove_edge sc) (∅, newOrderedSet) edges; settleTouched sc (os_items touched) : M C _)
    (fun _ d' p' => pg_inv off None sc p' d' /\ advance d d') d p.
Proof.
  intros Hi. eapply (wp_settle_after sc _ (fun acc d' p' => cutting (off := off) sc d acc d' p')).
  - apply (wp_foldM _ (fun _ acc d' p' => cutting (off := off) sc d acc d' p')).
    + split_and!; [done|reflexivity|by intros k n|apply os_ok_new|intros i r Hin; simpl in Hin; set_solver].
    + intros. by apply wp_remove_edge.
  - intros acc d' p' (? & ? & ? & ? & ?). done.
Qed.

(** A loop that ends nodes of the scope. *)
Lemma wp_end_each {A : Type} sc (f : list Effect -> A -> M C (list Effect)) l effs d p :
  pg_inv off None sc p d ->
  (forall effs x d p, pg_inv off None sc p d ->
     wp (f effs x) (fun _ d' p' => pg_inv off None sc p' d' /\ advance d d') d p) ->
  wp (foldM f effs l) (fun _ d' p' => pg_inv off None sc p' d' /\ advance d d') d p.
Proof.
  intros Hi Hf. apply (wp_foldM f (fun _ _ d1 p1 => pg_inv off None sc p1 d1 /\ advance d d1)); [by split|].
  intros x k effs1 d1 p1 [Hi1 Had1]. eapply wp_mono; [by apply Hf|]. intros e d2 p2 _ [Hi2 Had2]. split; [done|by etrans].
Qed.

Lemma wp_terminate_advance sc root st rs msg d p :
  pg_inv off None sc p d -> Status_Terminal st = true -> (forall r, d_nodes d !! root = Some r -> n_Scope r = sc) ->
  wp (terminate sc root st rs msg : M C _) (fun _ d' p' => pg_inv off None sc p' d' /\ advance d d') d p.
Proof.
  intros Hi Hst Hs. eapply wp_mono; [by eapply wp_terminate|]. intros effs d' p' _ (Hi' & Hm & _). split; [done|].
  eapply moved_advance; [apply Hi|apply Hi'|done].
Qed.

Lemma wp_cancel_one sc effs nid d p :
  pg_inv off None sc p d ->
  wp (cancel_one sc effs nid : M C _) (fun _ d' p' => pg_inv off None sc p' d' /\ advance d d') d p.
Proof.
  intros Hi. unfold cancel_one. apply wp_bind, wp_query. destruct (find_ext sc nid d) as [r|] eqn:Hf; [|by apply wp_throw].
  destruct (elem_find_ext _ _ _ _ (pi_graph Hi) Hf) as (Hr & Hs & _).
  case_bool_decide; [apply wp_ret; split; [done|reflexivity]|]. apply wp_bind.
  eapply wp_mono; [eapply wp_terminate_advance; [done|done|intros; congruence]|]. intros more d' p' _ HQ. by apply wp_ret.
Qed.

Lemma wp_cancel_scope sc ids effs d p :
  pg_inv off None sc p d -> ids_of sc ids d ->
  wp (foldM (fun effects i =>
        more ← terminate sc i StatusError ReasonCancelled (terminalMessage ReasonCancelled);
        mret (effects ++ more)) effs ids : M C _)
    (fun _ d' p' => pg_inv off None sc p' d' /\ advance d d') d p.
Proof.
  intros Hi Hids. eapply wp_mono; [eapply wp_each; [done|exact Hids|]|].
  - intros effs1 i d1 p1 Hi1 Hs1. apply wp_bind. eapply wp_mono; [by eapply wp_terminate|].
    intros more d2 p2 _ (Hi2 & Hm2 & _). apply wp_ret. eauto.
  - intros effs1 d1 p1 _ [Hi1 [names Hm]]. split; [done|]. eapply moved_advance; [apply Hi|apply Hi1|done].
Qed.

(** ** Leases *)

(** What a granting call promises of its leases. *)
Definition granting (leases : list Lease) (d d' : db) : Prop := advance d d' /\ issued d d' leases.

Lemma issued_same d d1 d2 leases :
  issued d d1 leases -> epochs_le d1 d2 -> issued d d2 leases.
Proof. intros [H N] L. split; [|done]. intros l Hl. pose proof (H l Hl). pose proof (L (l_Scope l) (l_NodeID l)). lia. Qed.

Lemma issued_before d0 d d1 leases : epochs_le d0 d -> issued d d1 leases -> issued d0 d1 leases.
Proof. intros L [H N]. split; [|done]. intros l Hl. pose proof (H l Hl). pose proof (L (l_Scope l) (l_NodeID l)). lia. Qed.

Lemma wp_claim_body cfg req d row :
  db_inv off d -> d_scopes d !! cr_Scope req = Some row ->
  wp (claim_body cfg req : M C _) (fun res d' p' => db_inv off d' /\ granting (cl_Leases res) d d') d ∅.
Proof.
  intros Hdb Hrow. unfold claim_body. set (sc := cr_Scope req) in *. pose proof (db_inv_sc sc d Hdb) as Hi.
  apply wp_bind. eapply wp_mono; [by eapply wp_reclaimExpired|].
  intros [[reclaimed k] more] d1 p1 _ (Hi1 & [n1 Hm1]). apply wp_bind.
  eapply wp_mono; [by eapply wp_promoteScheduled|]. intros promoted d2 p2 _ (Hi2 & [n2 Hm2]). apply wp_bind.
  assert (Hm02 : moved (n1 ++ n2) d d2) by (by eapply moved_trans).
  assert (Hrow2 : d_scopes d2 !! sc = Some row) by (by rewrite (mv_scopes _ _ _ Hm02)).
  eapply wp_mono; [eapply (wp_claimLoop sc cfg req); [exact Hi2| |done|exact Hrow2|lia]|].
  { apply (ok_live _ _ (db_off Hdb)). set_solver. }
  intros res d3 p3 _ (Hi3 & [n3 Hm3] & _ & _ & Hiss).
  assert (Had2 : advance d d2) by (eapply moved_advance; [apply Hi|apply Hi2|done]).
  assert (Had3 : advance d d3) by (etrans; [done|]; eapply moved_advance; [apply Hi2|apply Hi3|done]).
  eapply (wp_close sc _ _ d); [apply Hdb|done|done|]. intros d4 Hi4 Had4 _. split; [done|]. split; [by etrans|].
  simpl. apply (issued_same d d3); [|apply Had4]. apply (issued_before d d2); [apply Had2|done].
Qed.

Lemma wp_sweep_body sc cfg limit d :
  db_inv off d -> wp (sweep_body sc cfg limit : M C _) (fun _ d' p' => db_inv off d' /\ advance d d') d ∅.
Proof.
  intros Hdb. unfold sweep_body. pose proof (db_inv_sc sc d Hdb) as Hi.
  apply wp_bind. eapply wp_mono; [by eapply wp_reclaimExpired|].
  intros [[effs k] more] d1 p1 _ (Hi1 & [n1 Hm1]). apply wp_bind.
  eapply wp_mono; [by eapply wp_promoteScheduled|]. intros promoted d2 p2 _ (Hi2 & [n2 Hm2]).
  assert (Had2 : advance d d2) by (eapply moved_advance; [apply Hi|apply Hi2|by eapply moved_trans]).
  eapply (wp_close sc _ _ d); [apply Hdb|done|done|]. intros d3 Hi3 Had3 _. split; [done|by etrans].
Qed.

(** What [Complete] makes of the row [n] of its lease. *)
Definition outcome_row (cfg : ScopeConfig) (req : CompleteRequest) (n r' : nodeRow) : Prop :=
  if co_Success req then n_Phase r' = PhaseDone /\ n_Status r' = StatusSuccess
  else if bool_decide (co_Reason req = ReasonSkipped)
  then n_Phase r' = PhaseDone /\ n_Status r' = StatusError /\ n_Reason r' = ReasonSkipped
  else failed_row cfg n (if bool_decide (co_Reason req = ReasonNone) then ReasonWorkerError else co_Reason req) r'.

(** A completion that answers: the lease was the current one of a claimed node,
    whose row now holds the outcome. *)
Definition completed (cfg : ScopeConfig) (req : CompleteRequest) (d d' : db) : Prop :=
  exists r r', find_ext (l_Scope (co_Lease req)) (l_NodeID (co_Lease req)) d = Some r /\
    n_Phase r = PhaseClaimed /\ n_Epoch r = l_Epoch (co_Lease req) /\
    find_ext (l_Scope (co_Lease req)) (l_NodeID (co_Lease req)) d' = Some r' /\ outcome_row cfg req (scanNode r) r'.

Lemma find_moved names d d' sc nid r r' :
  graph_inv d -> graph_inv d' -> moved names d d' -> find_ext sc nid d = Some r -> d_nodes d' !! n_ID r = Some r' ->
  find_ext sc nid d' = Some r'.
Proof.
  intros Hg Hg' Hm Hf Hr'. destruct (elem_find_ext _ _ _ _ Hg Hf) as (Hr & <- & <-).
  destruct (mv_back _ _ _ Hm _ r' Hr') as (x & Hx & K). rewrite Hr in Hx. injection Hx as <-.
  rewrite <- (kp_scope _ _ K), <- (kp_nid _ _ K). by apply (find_ext_Some d' (n_ID r)).
Qed.

Lemma find_ext_nodes sc nid d d' : d_nodes d' = d_nodes d -> find_ext sc nid d' = find_ext sc nid d.
Proof. intros E. unfold find_ext, rows_where, rows. by rewrite E. Qed.

(** The write of the result, then the end of the node. *)
Lemma wp_finish sc f n st rs msg d p :
  pg_inv off None sc p d -> fresh sc n d -> n_Phase n = PhaseClaimed -> Status_Terminal st = true ->
  (forall r, keeps r (f r) /\ n_Deps (f r) = n_Deps r /\ n_Phase (f r) = n_Phase r /\ n_Status (f r) = n_Status r /\
     n_Epoch (f r) = n_Epoch r /\ n_Attempt (f r) = n_Attempt r) ->
  wp (update_exec (n_ID n) f ;; terminate sc (n_ID n) st rs msg : M C _)
    (fun _ d' p' => pg_inv off None sc p' d' /\ (exists names, moved names d d') /\
       exists r', d_nodes d' !! n_ID n = Some r' /\ n_Phase r' = PhaseDone /\ n_Status r' = st /\ n_Reason r' = rs) d p.
Proof.
  intros Hi Hf Hph Hst Hsame. apply wp_bind. eapply wp_mono; [by eapply wp_update_exec_same|].
  intros _ d1 p1 _ (Hi1 & Hm1 & (x & Hx & Hxs & _ & Hxp & _)).
  eapply wp_mono; [eapply wp_terminate; [done|done|intros; congruence]|].
  intros effs d2 p2 _ (Hi2 & Hm2 & _ & Hend & _). split_and!; [done|eauto using moved_trans|].
  destruct (Hend x Hx) as (r' & ? & Hd & ? & ?); [unfold done; by rewrite Hxp, Hph|]. exists r'. by rewrite (done_phase r' Hd).
Qed.

Lemma wp_complete_body cfg req d :
  db_inv off d ->
  wp (complete_body cfg req : M C _) (fun _ d' p' => db_inv off d' /\ advance d d' /\ completed cfg req d d') d ∅.
Proof.
  intros Hdb. unfold complete_body. set (sc := l_Scope (co_Lease req)). pose proof (db_inv_sc sc d Hdb) as Hi.
  apply wp_bind. unfold loadLeasedNode. apply wp_bind, wp_loadByExternal.
  destruct (find_ext sc _ d) as [r|] eqn:Hf; cbn [fmap option_fmap option_map]; [|by apply wp_throw].
  case_match eqn:Hok; [by apply wp_throw|]. apply wp_ret. apply orb_false_iff in Hok as [Hph Hep].
  apply negb_false_iff, bool_decide_eq_true in Hph. apply negb_false_iff, Z.eqb_eq in Hep.
  destruct (elem_find_ext _ _ _ _ (pi_graph Hi) Hf) as (Hr & Hs & _).
  assert (Hep' : n_Epoch r = l_Epoch (co_Lease req)).
  { rewrite <- Hep. simpl. pose proof (ri_epoch _ (gi_row d (pi_graph Hi) _ r Hr)). unfold narrowU64. split_cmp; lia. }
  set (n := scanNode r) in *. assert (Hfr : fresh sc n d) by (by eapply fresh_scan; [apply Hi|..]).
  apply wp_bind.
  apply (wp_mono _ (fun _ d' p' => pg_inv off None sc p' d' /\ (exists names, moved names d d') /\
    exists r', d_nodes d' !! n_ID r = Some r' /\ outcome_row cfg req n r')).
  2: { intros out d1 p1 _ (Hi1 & [n1 Hm1] & r' & Hr' & Hout).
       assert (Had1 : advance d d1) by (eapply moved_advance; [apply Hi|apply Hi1|done]).
       eapply (wp_close sc _ _ d); [apply Hdb|done|done|]. intros d3 Hi3 Had3 Hn3. split_and!; [done|by etrans|].
       exists r, r'. split_and!; [done..| |done]. rewrite (find_ext_nodes _ _ d1) by done.
       eapply (find_moved n1 d); [apply Hi|apply Hi1|done|done|done]. }
  unfold applyOutcome, outcome_row, completeSuccess, completeSkip. destruct (co_Success req).
  { case_match; [by apply wp_throw|]. apply wp_bind. eapply wp_mono; [by eapply wp_finish|].
    intros effs d1 p1 _ (? & ? & r' & ? & ? & ? & _). apply wp_ret. eauto 6. }
  case_bool_decide.
  { apply wp_bind. eapply wp_mono; [by eapply wp_finish|].
    intros effs d1 p1 _ (? & ? & r' & ? & ? & ? & ?). apply wp_ret. eauto 8. }
  apply wp_bind. eapply wp_mono; [by eapply wp_failAttempt|]. intros [n' effs] d1 p1 _ (Hi1 & Hm1 & Hrow). simpl in *.
  destruct (bool_decide (n_Phase n' = PhaseScheduled)); apply wp_ret; eauto.
Qed.

Lemma wp_extend_body cfg req d :
  db_inv off d -> wp (extend_body cfg req : M C _) (fun _ d' p' => db_inv off d' /\ advance d d') d ∅.
Proof.
  intros Hdb. unfold extend_body. set (sc := l_Scope (ex_Lease req)). pose proof (db_inv_sc sc d Hdb) as Hi.
  pose proof (pi_graph Hi) as Hg.
  apply wp_bind, wp_stmt, wp_bind, wp_gets. destruct (head _) as [r|] eqn:Hh.
  2: { apply wp_bind, wp_query. destruct (find_ext _ _ d); by apply wp_throw. }
  apply head_Some_elem_of, elem_rows_where in Hh as [Hr Hheld]; [|done].
  apply wp_bind, wp_clock. intros now. apply wp_bind, wp_write_row; [by rewrite Hr|].
  intros r0 Hr0 Hc. one_row Hr0 Hr. apply wp_bind, wp_ret, wp_ret. set (r' := r <| n_Deadline := _ |>) in *.
  assert (Hi' : pg_inv off None sc ∅ (put r' d)).
  { apply (pg_inv_put_same None sc ∅ d r); [done|done|by split|done| |done|done]. destruct (gi_row d Hg _ r Hr). by split. }
  assert (Hm : moved [] d (put r' d)) by (apply (moved_put d r); [done|by split|by left]).
  split; [|eapply moved_advance; [done|apply Hi'|done]].
  eapply (db_inv_intro sc d); [apply Hdb|apply scopes_same, Hm|done].
Qed.

(** ** Collection *)

(** What the candidates still to be deleted are. *)
Definition candidate (sc : string) (d : db) (c : terminalCandidate) : Prop :=
  (exists r, d_nodes d !! tc_id c = Some r /\ n_Scope r = sc /\ n_Phase r = tc_phase c /\ n_Status r = tc_status c /\
     tc_phase c = PhaseDone) /\
  forall s b, d_edges d !! (s, tc_id c, b) = None.

Definition live_col (col : string) : Prop := col ∈ ["stat_blocked"; "stat_scheduled"; "stat_ready"; "stat_in_progress"]%string.

Lemma left_live st p col : live_col col -> stat_of (left_stats PhaseDone st p) col = stat_of p col.
Proof.
  intros Hc. unfold left_stats. rewrite !stat_of_bump. unfold live_col in Hc.
  rewrite (bool_decide_eq_false_2 (col = "stat_total"%string)) by (intros ->; set_solver).
  rewrite (bool_decide_eq_false_2 (col = bucketColumn _ _)); [lia|]. intros ->. simpl in Hc. case_bool_decide; set_solver.
Qed.

Definition collecting (sc : string) (d0 : db) (l : list terminalCandidate) (d : db) (p : gmap string Z) : Prop :=
  pg_inv off None sc p d /\ scopes_kept d0 d /\ (forall col, live_col col -> stat_of p col = 0%Z) /\
  NoDup (tc_id <$> l) /\ forall c, c ∈ l -> candidate sc d c.

Lemma wp_collect_one sc d0 c l d p :
  collecting sc d0 (c :: l) d p -> wp (collect_one sc c : M C _) (fun _ d' p' => collecting sc d0 l d' p') d p.
Proof.
  intros (Hi & Hk & Hlive & Hnd & Hc). apply NoDup_cons in Hnd as [Hni Hnd].
  destruct (Hc c) as [(r & Hr & Hs & Hph & Hst & Hdone) Hout]; [by left|].
  unfold collect_one. set (n := zeroRow <| n_ID := _ |> <| n_Phase := _ |> <| n_Status := _ |>).
  apply wp_bind, (wp_delete (off := off) sc n); [done|]. intros d' Hrm. change (n_ID n) with (tc_id c) in Hrm.
  change (n_Phase n) with (tc_phase c). change (n_Status n) with (tc_status c).
  split_and!; [|etrans; [done|by eapply removed_kept]| |done|].
  - rewrite <- Hph, <- Hst. by eapply (removed_inv d d' sc (tc_id c) _ r); [apply Hi|..].
  - intros col Hcol. rewrite Hdone, left_live by done. auto.
  - intros c' Hc'. assert (tc_id c' <> tc_id c) as Hne.
    { intros E. apply Hni. rewrite <- E. by apply list_elem_of_fmap_2. }
    destruct (Hc c') as [(r' & Hr' & Hrest) Hout']; [by right|]. split.
    + exists r'. by rewrite (removed_lookup d d' sc (tc_id c) _ Hrm) by done.
    + intros s b. rewrite (rm_edges _ _ _ _ _ Hrm). by case_decide.
Qed.

Lemma collectible_spec sc cutoff d r :
  graph_inv d -> r ∈ rows_where (collectible sc cutoff d) d ->
  d_nodes d !! n_ID r = Some r /\ n_Scope r = sc /\ n_Phase r = PhaseDone /\ forall s b, d_edges d !! (s, n_ID r, b) = None.
Proof.
  intros Hg (Hr & Hc)%elem_rows_where; [|done]. unfold collectible in Hc. rewrite !andb_true_iff, !bool_decide_eq_true in Hc.
  destruct Hc as [[[Hs Hph] _] Hall]. split_and!; [done..|]. intros s b. destruct (d_edges d !! (s, n_ID r, b)) as [sat|] eqn:He; [|done].
  exfalso. apply (Hall _ _ He). simpl. split; [|done].
  destruct (gi_edge d Hg _ _ _ _ He) as (ra & _ & Ha & _ & Hsa & _). congruence.
Qed.

Lemma wp_collect_body sc cutoff limit d :
  db_inv off d ->
  wp (collect_body sc cutoff limit : M C _) (fun _ d' p' => collecting sc d [] d' p') d ∅.
Proof.
  intros Hdb. pose proof (db_inv_sc sc d Hdb) as Hi. pose proof (pi_graph Hi) as Hg. unfold collect_body.
  apply wp_bind. unfold findTerminalCandidates. apply wp_query. set (cands := _ <$> _). apply wp_bind.
  eapply wp_mono; [apply (wp_foldM _ (fun l _ d1 p1 => collecting sc d l d1 p1))|].
  - set (sel := take limit (merge_sort id_le (rows_where (collectible sc cutoff d) d))) in *. assert (Hsel : forall r, r ∈ sel -> r ∈ rows_where (collectible sc cutoff d) d).
    { intros r (? & ?%list_elem_of_lookup_2 & _)%elem_of_take. by rewrite merge_sort_Permutation in *. }
    split_and!; [done|by apply scopes_same|done|..].
    + unfold cands. rewrite <- list_fmap_compose. rewrite (list_fmap_ext _ n_ID _) by done.
      eapply sublist_NoDup; [|apply fmap_sublist, sublist_take]. rewrite merge_sort_Permutation. by apply rows_where_NoDup.
    + intros c (r & -> & Hr)%list_elem_of_fmap. destruct (collectible_spec sc cutoff d r Hg) as (? & ? & ? & ?); [by apply Hsel|].
      split; [|done]. by exists r.
  - intros. by apply wp_collect_one.
  - intros [] d1 p1 _ H1. apply wp_bind. case_bool_decide; wp_steps; exact H1.
Qed.

End Bodies.

(** The counters a collection leaves behind. *)
Definition drift (sc : string) (p : gmap string Z) (off : string -> string -> Z) : string -> string -> Z :=
  fun s col => (off s col - if bool_decide (s = sc) then stat_of p col else 0)%Z.

Lemma collected_inv off sc d d' p :
  db_inv off d -> is_Some (d_scopes d !! sc) -> collecting (off := off) sc d [] d' p -> db_inv (drift sc p off) d'.
Proof.
  intros [_ [Ho1 Ho2]] [row Hrow] ([Hg Hu Hst Hs Hl] & Hk & Hlive & _). split; [split; try done|split].
  - intros s r col Hr. specialize (Hst s r col Hr). unfold drift. rewrite stat_of_empty. repeat case_bool_decide; lia.
  - intros s col Hs'. unfold drift. destruct (Hk sc row Hrow) as (row' & Hrow' & _). rewrite bool_decide_eq_false_2 by congruence.
    rewrite Ho1; [done|]. destruct (d_scopes d !! s) as [x|] eqn:E; [|done]. destruct (Hk s x E) as (? & ? & _). congruence.
  - intros s col Hcol. unfold drift. rewrite Ho2 by done. case_bool_decide; [rewrite Hlive by done|]; done.
Qed.

(** * Calls of the PostgreSQL store

    A call runs statements and transactions one after another.  [call J P m Q]:
    on tables that satisfy the invariant and [P], the call [m] either answers
    with [Q] of the answer and of the tables before and after, or fails and
    leaves nothing but a [residue], unless the connection broke while the answer
    to its COMMIT was awaited: then what it wrote is there, and is what a
    successful call writes.  [J] says which offsets the stored counters may
    have. *)

Definition Offsets : Type := (string -> string -> Z) -> Prop.

Section Calls.
Context {C : Type} `{!Server C} {nrows : NewRows} (J : Offsets).

Definition tables_ok (d : db) : Prop := exists off, J off /\ db_inv off d.

(** The invariant of the store: of its tables, and of the error it has cached. *)
Definition st_inv (t : pgst C) : Prop := tables_ok (g_db t) /\ g_migrated t <> Some (Some Diverged).

Definition outcome {A : Type} (Q : A -> db -> db -> Prop) (d : db) (r : pgst C * (A + pgerror)) : Prop :=
  match r with
  | (t', inl a) => st_inv t' /\ qle d (g_db t') /\ Q a d (g_db t')
  | (t', inr e) => st_inv t' /\ qle d (g_db t') /\ e <> Diverged /\
      (residue d (g_db t') \/ (e = ConnectionLost /\ exists a, Q a d (g_db t')))
  end.

Definition call {A : Type} (P : db -> Prop) (m : M C A) (Q : A -> db -> db -> Prop) : Prop :=
  forall t, st_inv t -> P (g_db t) -> outcome Q (g_db t) (m t).

(** What may follow a residue. *)
Definition closed_under {A : Type} (Q : A -> db -> db -> Prop) : Prop :=
  forall a d1 d2 d3, residue d1 d2 -> Q a d2 d3 -> Q a d1 d3.

Lemma tables_residue d d' : tables_ok d -> residue d d' -> tables_ok d'.
Proof. intros (off & HJ & Hi) Hr. exists off. split; [done|]. by eapply quiet_inv; [|apply Hr]. Qed.

(** An outcome seen from before a residue. *)
Lemma outcome_after {A : Type} (Q : A -> db -> db -> Prop) d d1 r :
  closed_under Q -> residue d d1 -> outcome Q d1 r -> outcome Q d r.
Proof.
  intros Hcl Hr. pose proof (qu_q _ _ (rs_quiet _ _ Hr)) as Hq. unfold outcome. destruct r as [t [a|e]].
  - intros (? & ? & ?). split_and!; [done|by etrans|by eapply Hcl].
  - intros (? & ? & ? & Hor). split_and!; [done|by etrans|done|].
    destruct Hor as [?|(? & a & Ha)]; [left; by etrans|right; split; [done|]; exists a; by eapply Hcl].
Qed.

(** ** Rules *)

Section Rules.
Context {A B : Type}.
Implicit Types (Q : A -> db -> db -> Prop) (P : db -> Prop).

Lemma call_mono P P' (m : M C A) Q Q' :
  call P m Q -> (forall d, P' d -> P d) -> (forall a d d', P' d -> Q a d d' -> Q' a d d') -> call P' m Q'.
Proof.
  intros Hm HP HQ t Ht Hp. specialize (Hm t Ht (HP _ Hp)). unfold outcome in *. destruct (m t) as [t' [a|e]]; [naive_solver|].
  destruct Hm as (? & ? & ? & [?|(? & a & Ha)]); split_and!; eauto.
Qed.

Lemma call_ret P (a : A) Q : (forall d, P d -> Q a d d) -> call P (mret a) Q.
Proof. intros HQ t Ht Hp. split_and!; [apply Ht..|done|by apply HQ]. Qed.

Lemma call_throw P (e : pgerror) Q : e <> Diverged -> call P (throw e : M C A) Q.
Proof. intros He t Ht Hp. split_and!; [apply Ht..|done|done|]. by left. Qed.

Lemma call_bind P (P' : B -> db -> Prop) (m : M C B) (k : B -> M C A) Q :
  call P m (fun b d d' => residue d d' /\ P' b d') -> closed_under Q -> (forall b, call (P' b) (k b) Q) -> call P (m ≫= k) Q.
Proof.
  intros Hm Hcl Hk t Ht Hp. specialize (Hm t Ht Hp). unfold mbind, M_bind. unfold outcome in *.
  destruct (m t) as [t1 [b|e]].
  - destruct Hm as (Ht1 & Hq1 & Hr1 & Hp1). specialize (Hk b t1 Ht1 Hp1).
    by apply (outcome_after Q _ (g_db t1)).
  - destruct Hm as (? & ? & ? & [?|(-> & b & ? & _)]); split_and!; auto.
Qed.

End Rules.

Lemma closed_residue {A : Type} : closed_under (fun (_ : A) d d' => residue d d').
Proof. intros a d1 d2 d3 H1 H2. by etrans. Qed.

Lemma closed_advance {A : Type} : closed_under (fun (_ : A) d d' => advance d d').
Proof. intros a d1 d2 d3 H1 H2. etrans; [by apply residue_advance|done]. Qed.

Lemma call_stmt P : call P (stmt : M C unit) (fun _ d d' => d' = d).
Proof.
  intros t Ht Hp. unfold outcome, stmt. destruct (srv_fault (g_c t)) as [[code|] c]; simpl; split_and!; try apply Ht; try done.
  by left.
Qed.

(** A statement that only reads. *)
Lemma call_query {A : Type} P (f : db -> A) : call P (query f : M C A) (fun a d d' => d' = d /\ a = f d).
Proof.
  intros t Ht Hp. pose proof (call_stmt P t Ht Hp) as H. unfold query, mbind, M_bind. unfold outcome in *.
  destruct (stmt t) as [t1 [[]|e]]; simpl.
  - destruct H as (? & ? & E). rewrite <- E. done.
  - destruct H as (? & ? & ? & [?|(-> & [] & E)]); split_and!; auto. left. by rewrite E.
Qed.

(** A statement outside of a transaction that writes. *)
Lemma call_autocommit P (f : db -> db) :
  (forall d, tables_ok d -> P d -> tables_ok (f d) /\ qle d (f d)) ->
  call P (autocommit f : M C unit) (fun _ d d' => d' = f d).
Proof.
  intros Hf t Ht Hp. pose proof (call_stmt P t Ht Hp) as H. unfold autocommit. unfold outcome in *.
  destruct (stmt t) as [t1 [[]|e]]; simpl.
  - destruct H as ([Ht1 Hm1] & ? & E). destruct (Hf (g_db t) (proj1 Ht) Hp).
    destruct (srv_commit (g_c t1)) as [[|code|] c]; simpl; rewrite E in *; split_and!; try done; [by left|right; split; [done|by exists tt]].
  - destruct H as (? & ? & ? & [?|(-> & [] & E)]); split_and!; auto. left. by rewrite E.
Qed.

(** ** Transactions *)

Lemma rolled_back_residue d d' : qle d d' -> residue d (rolled_back d d').
Proof. intros Hq. by apply quiet_same. Qed.

Lemma call_transact_if {A : Type} P (commits : A -> bool) (body : M C A) Q :
  (forall off d, J off -> db_inv off d -> P d ->
    wp body (fun a d' _ => if commits a then tables_ok d' /\ Q a d d' else forall d'', residue d d'' -> Q a d d'') d ∅) ->
  call P (transact_if commits body) Q.
Proof.
  intros Hb t0 [Ht0 Hmg] Hp. unfold transact_if, outcome.
  set (t00 := t0 <| g_notify := false |> <| g_stats := ∅ |>).
  destruct (stmt t00) as [t1 [[]|e]] eqn:Hst.
  2: { assert (g_db t1 = g_db t0 /\ g_migrated t1 = g_migrated t0 /\ e <> Diverged) as (E1 & E2 & He).
       { unfold stmt in Hst. destruct (srv_fault (g_c t00)) as [[code|] c]; by simplify_eq. }
       unfold st_inv. rewrite E1, E2. split_and!; try done. by left. }
  assert (g_db t1 = g_db t0 /\ g_migrated t1 = g_migrated t0 /\ g_stats t1 = ∅) as (E1 & E2 & E3).
  { unfold stmt in Hst. destruct (srv_fault (g_c t00)) as [[code|] c]; by simplify_eq. }
  destruct Ht0 as (off & HJ & Hi). specialize (Hb off (g_db t0) HJ Hi Hp t1 E1 E3).
  assert (Hroll : forall t, frame t1 t -> st_inv (t <| g_db := rolled_back (g_db t1) (g_db t) |>) /\
    residue (g_db t0) (rolled_back (g_db t1) (g_db t))).
  { intros t [Hq Hmt]. rewrite <- E1. pose proof (rolled_back_residue _ _ Hq) as Hr. split; [|done]. split; simpl; [|congruence].
    eapply tables_residue; [|exact Hr]. exists off. rewrite E1. done. }
  destruct (body t1) as [t [a|e]].
  2: { destruct Hb as [Hf He]. destruct (Hroll t Hf) as [? Hr]. split_and!; [done|apply Hr|done|]. by left. }
  destruct Hb as [Hf Hb]. destruct (commits a); cbn [negb].
  2: { destruct (Hroll t Hf) as [? Hr]. split_and!; [done|apply Hr|by apply Hb]. }
  destruct Hb as [Ht HQ]. destruct (srv_commit (g_c t)) as [[|code|] c].
  - split_and!; [split; [done|]|rewrite <- E1; apply Hf|done]. simpl. destruct Hf as [_ ->]. congruence.
  - destruct (Hroll t Hf) as [[? ?] Hr]. split_and!; [by split|apply Hr|done|]. by left.
  - split_and!; [split; [done|]|rewrite <- E1; apply Hf|done|right; by eauto]. simpl. destruct Hf as [_ ->]. congruence.
Qed.

Lemma call_transact {A : Type} P (body : M C A) Q :
  (forall off d, J off -> db_inv off d -> P d -> wp body (fun a d' _ => tables_ok d' /\ Q a d d') d ∅) ->
  call P (transact body) Q.
Proof. intros Hb. exact (call_transact_if P (fun _ => true) body Q Hb). Qed.

(** ** Retries *)

Lemma jitter_frame n (t : pgst C) : exists c v, jitter n t = (t <| g_c := c |>, inl v).
Proof. unfold jitter. destruct (clk_Jitter n (g_c t)) as [v c]. eauto. Qed.

Lemma call_retry {A : Type} P (fn : M C A) Q cancelled tries k :
  closed_under Q -> (forall d d', P d -> residue d d' -> P d') -> call P fn Q -> call P (retry_loop cancelled tries k fn) Q.
Proof.
  intros Hcl HP Hfn. revert k. induction tries as [|tries IH]; intros k t Ht Hp; cbn [retry_loop].
  all: pose proof (Hfn t Ht Hp) as H; unfold outcome in *; destruct (fn t) as [t1 [a|e]]; [done|].
  all: destruct (isTransientConflict e) eqn:He; cbn [negb]; [|done].
  { done. }
  assert (e <> ConnectionLost) as Hne by (by intros ->). destruct H as (Ht1 & Hq1 & _ & [Hr|[? _]]); [|done].
  destruct (jitter_frame (Z.of_nat k * Millisecond) t1) as (c & v & ->).
  destruct (cancelled k); [split_and!; auto|].
  set (t2 := t1 <| g_c := c |>). assert (Hnext : outcome Q (g_db t1) (retry_loop cancelled tries (S k) fn t2))
    by exact (IH (S k) t2 Ht1 (HP _ _ Hp Hr)).
  exact (outcome_after Q (g_db t) (g_db t1) _ Hcl Hr Hnext).
Qed.

Lemma call_retryTransient {A : Type} (fn : M C A) Q cancelled :
  closed_under Q -> call (fun _ => True) fn Q -> call (fun _ => True) (retryTransient cancelled fn) Q.
Proof. intros. by apply call_retry. Qed.

(** ** Migrations *)

Lemma call_applyMigration P name : call P (applyMigration name : M C unit) (fun _ d d' => residue d d').
Proof.
  unfold applyMigration. eapply (call_bind _ (fun _ _ => True)); [|apply closed_residue|].
  - eapply call_mono; [apply call_query|done|]. intros b d d' _ [-> _]. split; [reflexivity|done].
  - intros [|]; [apply call_ret; reflexivity|]. apply call_transact. intros off d HJ Hi _. apply wp_bind, wp_stmt, wp_exec; [auto with pg|].
    assert (Hr : residue d (d <| d_migrations ::= fun l => l ++ [name] |>)) by (apply quiet_same; done).
    split; [|done]. eapply tables_residue; [|done]. by exists off.
Qed.

Lemma call_migrate P : call P (migrate : M C unit) (fun _ d d' => residue d d').
Proof.
  unfold migrate. eapply (call_bind _ (fun _ _ => True)); [|apply closed_residue|].
  - eapply call_mono; [apply call_stmt|done|]. intros b d d' _ ->. split; [reflexivity|done].
  - intros _. generalize tt. generalize migration_names. intros l. induction l as [|x l IH]; intros u; [apply call_ret; reflexivity|].
    cbn [foldM]. eapply (call_bind _ (fun _ _ => True)); [|apply closed_residue|done].
    eapply call_mono; [apply (call_applyMigration (fun _ => True))|done|done].
Qed.

Lemma call_ensureMigrated P : call P (ensureMigrated : M C unit) (fun _ d d' => residue d d').
Proof.
  intros t Ht Hp. unfold ensureMigrated. destruct (g_migrated t) as [[e|]|] eqn:E.
  - split_and!; [done|reflexivity| |left; reflexivity]. intros ->. by destruct Ht.
  - split_and!; [done|reflexivity|reflexivity].
  - pose proof (call_migrate P t Ht Hp) as H. unfold outcome in *. destruct (migrate t) as [t1 [[]|e]].
    + destruct H as ([? ?] & ? & ?). by split_and!.
    + destruct H as ([Ht1 _] & ? & ? & ?). split_and!; try done. split; [done|]. simpl. congruence.
Qed.

(** [ensureMigrated] first, as every call does. *)
Lemma call_migrated {A : Type} (k : M C A) Q :
  closed_under Q -> call (fun _ => True) k Q -> call (fun _ => True) (ensureMigrated ;; k) Q.
Proof.
  intros Hcl Hk. eapply (call_bind _ (fun _ _ => True)); [|done|done].
  eapply call_mono; [apply (call_ensureMigrated (fun _ => True))|done|done].
Qed.

Lemma call_loadScope {A : Type} P scope (k : option scopeRow -> M C A) Q :
  closed_under Q -> (forall o, call (fun d => P d /\ o = scanScope <$> d_scopes d !! scope) (k o) Q) ->
  call P (loadScope scope ≫= k) Q.
Proof.
  intros Hcl Hk. eapply (call_bind _ (fun o d => P d /\ o = scanScope <$> d_scopes d !! scope)); [|done|done].
  eapply call_mono; [apply call_query|done|]. intros o d d' Hp [-> ->]. split; [reflexivity|done].
Qed.

End Calls.
