(* ===== verification/PgStore.v ===== *)
(** * The PostgreSQL store as a machine

    [op] lists the calls of the store, [exec_op] runs one, [run] a sequence of
    them, against any server.  Each call keeps the invariant of the tables, and
    each but [CollectTerminal] lets the epoch of a node identifier only grow. *)
From S2P Require Import Prelude Types Config Scope ListFacts MapSum PgDb PgTopo PgEngine PgGraph PgLease PgAdmin PgInv PgTerminate.
From S2P Require Import PgLeaseFacts PgBatch PgBodies.

(** ** Operations *)

Inductive op :=
| OAddNodes (scope : string) (specs : list NodeSpec)
| OAddEdges (scope : string) (edges : list Edge)
| ORemoveEdges (scope : string) (edges : list Edge)
| ORemoveNode (scope id : string) (policy : CascadePolicy)
| OCancel (scope : string) (ids : list string)
| OCancelScope (scope : string)
| OClaim (req : ClaimRequest)
| OComplete (req : CompleteRequest)
| OExtend (req : ExtendRequest)
| OSweep (scope : string) (limit : Z)
| OCollect (scope : string) (cutoff limit : Z)
| OSetScopeConfig (scope : string) (cfg : ScopeConfig)
| OSeal (scope : string)
| OGetNode (scope id : string)
| OInspect (scope id : string)
| OListNodes (scope : string) (opts : ListOptions)
| OScopeStats (scope : string)
| OScopeConfig (scope : string)
| OScopes
| OWatch (req : WatchRequest)
| OWaitForWork (scope : string) (kinds : list string) (w : wake)
| OClose.

Definition collects (o : op) : bool := match o with OCollect _ _ _ => true | _ => false end.

(** The scope a call creates by a statement of its own, outside of its
    transaction if it has one. *)
Definition creates (o : op) : option string :=
  match o with
  | OSetScopeConfig scope _ | OSeal scope | OWaitForWork scope _ _ => Some scope
  | OWatch req => Some (wr_Scope req)
  | _ => None
  end.

Section Machine.
Context {C : Type} `{!Server C} {coll : Collation} (defaults : ScopeConfig) (cancelled : nat -> bool).

Definition quietly {A : Type} (m : M C A) : M C (list Lease) := m ≫= fun _ => mret [].

(** A call, and the leases it hands out. *)
Definition exec_op (o : op) : M C (list Lease) :=
  match o with
  | OAddNodes scope specs => quietly (AddNodes defaults cancelled scope specs)
  | OAddEdges scope edges => quietly (AddEdges cancelled scope edges)
  | ORemoveEdges scope edges => quietly (RemoveEdges cancelled scope edges)
  | ORemoveNode scope i policy => quietly (RemoveNode cancelled scope i policy)
  | OCancel scope ids => quietly (Cancel cancelled scope ids)
  | OCancelScope scope => quietly (CancelScope scope)
  | OClaim req => res ← Claim req; mret (cl_Leases res)
  | OComplete req => quietly (Complete cancelled req)
  | OExtend req => quietly (Extend req)
  | OSweep scope limit => quietly (Sweep scope limit)
  | OCollect scope cutoff limit => quietly (CollectTerminal scope cutoff limit)
  | OSetScopeConfig scope cfg => quietly (SetScopeConfig defaults scope cfg)
  | OSeal scope => quietly (Seal defaults scope)
  | OGetNode scope i => quietly (GetNode scope i)
  | OInspect scope i => quietly (Inspect scope i)
  | OListNodes scope opts => quietly (ListNodes scope opts)
  | OScopeStats scope => quietly (ScopeStats_ scope)
  | OScopeConfig scope => quietly (ScopeConfig_ defaults scope)
  | OScopes => quietly Scopes
  | OWatch req => quietly (watch_start defaults req)
  | OWaitForWork scope kinds w => quietly (WaitForWork defaults scope kinds w)
  | OClose => quietly Close
  end.

(** A sequence of calls: the leases of the ones that answered. *)
Fixpoint run (ops : list op) (t : pgst C) : pgst C * list Lease :=
  match ops with
  | [] => (t, [])
  | o :: ops =>
    let '(t, r) := exec_op o t in
    let '(t, ls) := run ops t in
    (t, match r with inl l => l ++ ls | inr _ => ls end)
  end.

End Machine.

(** The store on an empty database. *)
Definition pg_init {C : Type} (c : C) : pgst C := mkPg c emptyDb false ∅ None false.

(** ** The calls *)

Section Calls.
Context {C : Type} `{!Server C} {nrows : NewRows} (J : Offsets) (defaults : ScopeConfig) (cancelled : nat -> bool).

Notation any := (fun _ : db => True).

(** The answer of a call changed by a function. *)
Lemma call_fmap {A B : Type} (m : M C A) (f : A -> B) P Q (Q' : B -> db -> db -> Prop) :
  call J P m Q -> (forall a d d', Q a d d' -> Q' (f a) d d') -> call J P (m ≫= fun a => mret (f a)) Q'.
Proof.
  intros Hm HQ t Ht Hp. specialize (Hm t Ht Hp). unfold mbind, M_bind. unfold outcome in *.
  destruct (m t) as [t1 [a|e]]; simpl; [naive_solver|].
  destruct Hm as (? & ? & ? & [?|(? & a & Ha)]); split_and!; eauto 6.
Qed.

(** A transaction whose body keeps the tables. *)
Lemma call_transact_db {A : Type} P (body : M C A) Q :
  (forall off d, db_inv off d -> P d -> wp body (fun a d' _ => db_inv off d' /\ Q a d d') d ∅) ->
  call J P (transact body) Q.
Proof.
  intros Hb. apply call_transact. intros off d HJ Hi Hp. eapply wp_mono; [by apply Hb|].
  intros a d' p' _ [Hi' HQ]. split; [by exists off|done].
Qed.

Lemma call_graphTx {A : Type} scope (body : M C A) :
  (forall off d p, pg_inv off None scope p d -> wp body (fun _ d' p' => pg_inv off None scope p' d' /\ advance d d') d p) ->
  call J any (graphTx scope body) (fun _ d d' => advance d d').
Proof.
  intros Hb. unfold graphTx. apply call_migrated; [apply closed_advance|]. apply call_transact_db. intros off d Hi _.
  apply wp_bind, wp_query. destruct (scanScope <$> d_scopes d !! scope); [|by apply wp_throw].
  apply wp_bind, wp_stmt, wp_bind. eapply wp_mono; [apply Hb, db_inv_sc, Hi|].
  intros a d1 p1 _ [Hi1 Had1]. eapply (wp_close scope _ _ d); [apply Hi|done|done|].
  intros d2 Hi2 Had2 _. split; [done|by etrans].
Qed.

Lemma call_AddNodes scope specs : call J any (AddNodes defaults cancelled scope specs : M C _) (fun _ d d' => advance d d').
Proof.
  apply call_retryTransient; [apply closed_advance|]. unfold addNodesOnce.
  destruct specs as [|x0 l0] eqn:E; [apply call_ret; reflexivity|]. rewrite <- E. clear E.
  apply call_migrated; [apply closed_advance|]. apply call_transact_db. intros off d Hi _. by eapply wp_add_nodes_body.
Qed.

Lemma call_AddEdges scope edges : call J any (AddEdges cancelled scope edges : M C _) (fun _ d d' => advance d d').
Proof.
  apply call_retryTransient; [apply closed_advance|]. unfold addEdgesOnce.
  destruct edges as [|x0 l0] eqn:E; [apply call_ret; reflexivity|]. rewrite <- E. clear E.
  apply call_graphTx. intros. by apply wp_add_edges_body.
Qed.

Lemma call_RemoveEdges scope edges : call J any (RemoveEdges cancelled scope edges : M C _) (fun _ d d' => advance d d').
Proof.
  apply call_retryTransient; [apply closed_advance|]. unfold removeEdgesOnce.
  destruct edges as [|x0 l0] eqn:E; [apply call_ret; reflexivity|]. rewrite <- E. clear E.
  apply call_graphTx. intros. by apply wp_remove_edges_body.
Qed.

Lemma call_RemoveNode scope i policy : call J any (RemoveNode cancelled scope i policy : M C _) (fun _ d d' => advance d d').
Proof.
  apply call_retryTransient; [apply closed_advance|]. apply call_graphTx. intros. by apply wp_remove_node_body.
Qed.

Lemma call_Cancel scope ids : call J any (Cancel cancelled scope ids : M C _) (fun _ d d' => advance d d').
Proof.
  apply call_retryTransient; [apply closed_advance|]. unfold cancelOnce.
  destruct ids as [|x0 l0] eqn:E; [apply call_ret; reflexivity|]. rewrite <- E. clear E.
  apply call_graphTx. intros. apply wp_end_each; [done|]. intros. by apply wp_cancel_one.
Qed.

Lemma call_CancelScope scope : call J any (CancelScope scope : M C _) (fun _ d d' => advance d d').
Proof.
  unfold CancelScope. apply call_migrated; [apply closed_advance|].
  apply (call_fmap _ (default []) _ (fun _ d d' => advance d d')); [|done]. apply call_transact_if. intros off d HJ Hi _.
  apply wp_bind, wp_query. destruct (scanScope <$> d_scopes d !! scope); [|apply wp_ret; intros d''; apply residue_advance].
  apply wp_bind, wp_stmt, wp_bind. unfold live_ids. apply wp_bind, wp_query, wp_any_order. intros ids Hids. apply wp_bind.
  pose proof (db_inv_sc scope d Hi) as Hsc. eapply wp_mono; [eapply wp_cancel_scope; [done|]|].
  { intros j r Hj Hr. rewrite Hids in Hj. apply list_elem_of_fmap in Hj as (x & -> & Hx).
    apply elem_rows_where in Hx as [Hx Hp]; [|apply Hsc]. apply andb_true_iff in Hp as [Hp%bool_decide_eq_true _]. congruence. }
  intros effs d1 p1 _ [Hi1 Had1]. eapply (wp_close scope _ _ d); [apply Hi|done|done|].
  intros d2 Hi2 Had2 _. split; [by exists off|by etrans].
Qed.

Lemma closed_granting : closed_under (fun (res : ClaimResult) d d' => granting (cl_Leases res) d d').
Proof.
  intros a d1 d2 d3 Hr [Had Hiss]. apply residue_advance in Hr as Hr'. split; [by etrans|].
  eapply issued_before; [apply Hr'|done].
Qed.

Lemma call_Claim req : call J any (Claim req : M C _) (fun res d d' => granting (cl_Leases res) d d').
Proof.
  unfold Claim. apply call_migrated; [apply closed_granting|]. apply call_loadScope; [apply closed_granting|].
  intros [sc|].
  - apply call_transact_db. intros off d Hi [_ Hsc]. destruct (d_scopes d !! cr_Scope req) as [row|] eqn:Hrow; [|done].
    by eapply wp_claim_body.
  - apply call_ret. intros d _. split; [reflexivity|apply issued_nil].
Qed.

(** What [Complete] promises, with the configuration of its scope. *)
Definition completes (req : CompleteRequest) (d d' : db) : Prop :=
  advance d d' /\ exists row, d_scopes d' !! l_Scope (co_Lease req) = Some row /\
    completed (Resolved (scanConfig (sr_cfg row))) req d d'.

Lemma closed_completes req : closed_under (fun (_ : CompleteResult) d d' => completes req d d').
Proof.
  intros a d1 d2 d3 Hr [Had (row & Hrow & r & r' & Hf & Hrest)]. split; [etrans; [by apply residue_advance|done]|].
  exists row. split; [done|]. exists r, r'. split; [|done]. rewrite <- Hf. symmetry. apply find_ext_nodes, Hr.
Qed.

Lemma call_Complete req : call J any (Complete cancelled req : M C _) (fun _ d d' => completes req d d').
Proof.
  apply call_retryTransient; [apply closed_completes|]. unfold completeOnce. case_match; [by apply call_throw|].
  apply call_migrated; [apply closed_completes|]. apply call_loadScope; [apply closed_completes|].
  intros [sc|]; [|by apply call_throw]. apply call_transact_db. intros off d Hi [_ Hsc].
  destruct (d_scopes d !! l_Scope (co_Lease req)) as [row|] eqn:Hrow; [|done]. injection Hsc as ->.
  eapply wp_mono; [by eapply wp_complete_body|]. intros a d' p' _ (Hi' & Had & Hc). split; [done|]. split; [done|].
  destruct (ad_scopes _ _ Had _ row Hrow) as (row' & Hrow' & _ & E). exists row'. split; [done|]. by rewrite E.
Qed.

Lemma call_Extend req : call J any (Extend req : M C _) (fun _ d d' => advance d d').
Proof.
  unfold Extend. case_match; [by apply call_throw|].
  apply call_migrated; [apply closed_advance|]. apply call_loadScope; [apply closed_advance|].
  intros [sc|]; [|by apply call_throw]. apply call_transact_db. intros off d Hi _. by apply wp_extend_body.
Qed.

Lemma call_Sweep scope limit : call J any (Sweep scope limit : M C _) (fun _ d d' => advance d d').
Proof.
  unfold Sweep. apply call_migrated; [apply closed_advance|]. apply call_loadScope; [apply closed_advance|].
  intros [sc|]; [|apply call_ret; reflexivity]. apply call_transact_db. intros off d Hi _. by apply wp_sweep_body.
Qed.

End Calls.

(** ** Reading and configuring *)

Section Admin.
Context {C : Type} `{!Server C} {nrows : NewRows} (J : Offsets) (defaults : ScopeConfig).

Notation any := (fun _ : db => True).
Notation still := (fun _ d d' => residue d d').

(** A read, then more. *)
Lemma call_read {A B : Type} (f : db -> A) (k : A -> M C B) Q :
  closed_under Q -> (forall a, call J any (k a) Q) -> call J any (query f ≫= k) Q.
Proof.
  intros Hcl Hk. eapply (call_bind J _ (fun _ _ => True)); [|done|done].
  eapply call_mono; [apply (call_query J any)|done|]. intros a d d' _ [-> _]. split; [reflexivity|done].
Qed.

Lemma call_gets {A : Type} (f : db -> A) : call J any (gets f : M C A) still.
Proof. intros t Ht _. split_and!; [exact Ht|reflexivity|reflexivity]. Qed.

Lemma call_any_order {B : Type} l (k : list Z -> M C B) Q :
  closed_under Q -> (forall a, call J any (k a) Q) -> call J any (any_order l ≫= k) Q.
Proof.
  intros Hcl Hk. eapply (call_bind J _ (fun _ _ => True)); [|done|done].
  intros t Ht _. unfold any_order. destruct (srv_order l (g_c t)) as [l' c].
  split_and!; [exact Ht|reflexivity|reflexivity|done].
Qed.

Lemma call_seq {A B : Type} (m : M C A) (k : A -> M C B) Q :
  call J any m still -> closed_under Q -> (forall a, call J any (k a) Q) -> call J any (m ≫= k) Q.
Proof. intros Hm Hcl Hk. eapply (call_bind J _ (fun _ _ => True)); [|done|done]. by eapply call_mono. Qed.

(** An UPDATE of a scope's row outside of a transaction. *)
Lemma update_quiet scope f d :
  (forall row, sr_stats (f row) = sr_stats row /\ sr_epoch_floor (f row) = sr_epoch_floor row) ->
  quiet d (d <| d_scopes ::= alter f scope |>).
Proof.
  intros Hf. split; try done; simpl; [auto with pg|..].
  - intros s row Hrow. destruct (decide (s = scope)) as [->|Hne].
    + exists (f row). rewrite lookup_alter_eq, Hrow. simpl. by destruct (Hf row).
    + exists row. by rewrite lookup_alter_ne.
  - intros s row' Hno. destruct (decide (s = scope)) as [->|Hne].
    + rewrite lookup_alter_eq, Hno. done.
    + rewrite lookup_alter_ne by done. congruence.
Qed.

Lemma call_ensureScope scope cfg :
  may_appear scope (new_scope cfg) -> call J any (ensureScope autocommit scope cfg : M C _) still.
Proof.
  intros Hap. eapply call_mono; [apply (call_autocommit J any)|done|].
  - intros d Hok _. pose proof (ensure_residue scope cfg d Hap) as Hr. split; [by eapply tables_residue|apply Hr].
  - intros [] d d' _ ->. by apply ensure_residue.
Qed.

Lemma call_update_scope scope f :
  (forall row, sr_stats (f row) = sr_stats row /\ sr_epoch_floor (f row) = sr_epoch_floor row) ->
  call J any (update_scope scope f : M C _) (fun _ d d' => quiet d d').
Proof.
  intros Hf. eapply call_mono; [apply (call_autocommit J any)|done|].
  - intros d (off & HJ & Hi) _. pose proof (update_quiet scope f d Hf) as Hq. split; [|apply Hq]. exists off. split; [done|by eapply quiet_inv].
  - intros [] d d' _ ->. by apply update_quiet.
Qed.

Lemma closed_quiet {A : Type} : closed_under (fun (_ : A) d d' => quiet d d').
Proof. intros a d1 d2 d3 H1 H2. etrans; [apply H1|done]. Qed.

Lemma call_SetScopeConfig scope cfg : may_appear scope (new_scope defaults) ->
  call J any (SetScopeConfig defaults scope cfg : M C _) (fun _ d d' => quiet d d').
Proof.
  intros Hap. apply call_migrated; [apply closed_quiet|]. apply call_seq; [by apply call_ensureScope|apply closed_quiet|].
  intros _. by apply call_update_scope.
Qed.

Lemma call_Seal scope : may_appear scope (new_scope defaults) ->
  call J any (Seal defaults scope : M C _) (fun _ d d' => quiet d d').
Proof.
  intros Hap. apply call_migrated; [apply closed_quiet|]. apply call_seq; [by apply call_ensureScope|apply closed_quiet|].
  intros _. by apply call_update_scope.
Qed.

Lemma call_query_still {A : Type} (f : db -> A) : call J any (query f : M C A) still.
Proof. eapply call_mono; [apply (call_query J any)|done|]. by intros a d d' _ [-> _]. Qed.

Lemma call_ret_still {A : Type} (a : A) : call J any (mret a : M C A) still.
Proof. apply call_ret. reflexivity. Qed.

Lemma call_get {A : Type} (k : pgst C -> M C A) Q : (forall t, call J any (k t) Q) -> call J any (get ≫= k) Q.
Proof. intros Hk t Ht Hp. by apply (Hk t). Qed.

(** The reads, one statement after another. *)
Ltac read :=
  repeat lazymatch goal with
  | |- call _ _ (ensureMigrated ;; _) _ => apply call_migrated; [apply closed_residue|]
  | |- call _ _ (query _ ≫= _) _ => apply call_read; [apply closed_residue|intros ?]
  | |- call _ _ (any_order _ ≫= _) _ => apply call_any_order; [apply closed_residue|intros ?]
  | |- call _ _ (get ≫= _) _ => apply call_get; intros ?
  | |- call _ _ (_ ≫= _) _ => apply call_seq; [|apply closed_residue|intros ?]
  | |- call _ _ (gets _) _ => apply call_gets
  | |- call _ _ (query _) _ => apply call_query_still
  | |- call _ _ (mret _) _ => apply call_ret_still
  | |- call _ _ (ensureScope _ _ _) _ => by apply call_ensureScope
  | |- call _ _ (throw _) _ => apply call_throw; discriminate
  | |- call _ _ (match ?x with _ => _ end) _ => destruct x
  end.

Lemma call_GetNode scope i : call J any (GetNode scope i : M C _) still.
Proof. unfold GetNode, load_ext. read. Qed.

Lemma call_Inspect scope i : call J any (Inspect scope i : M C _) still.
Proof. unfold Inspect, load_ext, scanNodeIDs. read. Qed.

Lemma call_ListNodes `{!Collation} scope opts : call J any (ListNodes scope opts : M C _) still.
Proof. unfold ListNodes. read. Qed.

Lemma call_ScopeStats scope : call J any (ScopeStats_ scope : M C _) still.
Proof. unfold ScopeStats_, loadScope. read. Qed.

Lemma call_ScopeConfig scope : call J any (ScopeConfig_ defaults scope : M C _) still.
Proof. unfold ScopeConfig_, loadScope. read. Qed.

Lemma call_Scopes : call J any (Scopes : M C _) still.
Proof. unfold Scopes. read. Qed.

Lemma call_watch_start req :
  may_appear (wr_Scope req) (new_scope defaults) -> call J any (watch_start defaults req : M C _) still.
Proof. intros Hap. unfold watch_start. read. Qed.

Lemma call_WaitForWork scope kinds w :
  may_appear scope (new_scope defaults) -> call J any (WaitForWork defaults scope kinds w : M C _) still.
Proof. intros Hap. unfold WaitForWork, anyReady. read. Qed.

Lemma call_Close : call J any (Close : M C _) still.
Proof. intros t Ht _. split_and!; [exact Ht|reflexivity|reflexivity]. Qed.

End Admin.

(** ** Collection *)

Definition any_offset : Offsets := fun _ => True.

Lemma call_CollectTerminal {C : Type} `{!Server C} {nrows : NewRows} scope cutoff limit :
  call any_offset (fun _ => True) (CollectTerminal scope cutoff limit : M C _) (fun _ d d' => scopes_kept d d').
Proof.
  assert (Hcl : forall A, closed_under (fun (_ : A) d d' => scopes_kept d d')).
  { intros A a d1 d2 d3 Hr H. etrans; [apply residue_advance, Hr|done]. }
  unfold CollectTerminal. apply call_migrated; [apply Hcl|]. apply call_loadScope; [apply Hcl|].
  intros [sc|]; [|apply call_ret; intros; by apply scopes_same]. apply call_transact. intros off d _ Hi [_ Hsc].
  eapply wp_mono; [by eapply wp_collect_body|]. intros a d' p' _ Hc. split; [|apply Hc].
  exists (drift scope p' off). split; [done|]. eapply collected_inv; [done| |done].
  destruct (d_scopes d !! scope); [by eexists|done].
Qed.

(** * Runs of the PostgreSQL store

    What holds after any sequence of calls, on any server: statements and
    commits may fail at any point, and failed transactions are retried. *)

(** ** One call *)

(** What a call that does not collect does to the epochs. *)
Definition stepped (ls : list Lease) (d d' : db) : Prop := epochs_le d d' /\ issued d d' ls.

Lemma stepped_nil d d' : epochs_le d d' -> stepped [] d d'.
Proof. intros H. split; [done|apply issued_nil]. Qed.

Section Op.
Context {C : Type} `{!Server C} {nrows : NewRows} {coll : Collation} (defaults : ScopeConfig) (cancelled : nat -> bool) (J : Offsets).

Lemma call_quietly {A : Type} (m : M C A) Q :
  call J (fun _ => True) m Q -> (forall a d d', Q a d d' -> epochs_le d d') ->
  call J (fun _ => True) (quietly m) stepped.
Proof. intros Hm HQ. eapply call_fmap; [exact Hm|]. intros a d d' HQa. apply stepped_nil. eauto. Qed.

Lemma op_call o : collects o = false -> (forall s, creates o = Some s -> may_appear s (new_scope defaults)) ->
  call J (fun _ => True) (exec_op defaults cancelled o : M C _) stepped.
Proof.
  destruct o; intros Hc Hap; try discriminate Hc; unfold exec_op.
  - eapply call_quietly; [apply call_AddNodes|by intros ? ? ? [? _]].
  - eapply call_quietly; [apply call_AddEdges|by intros ? ? ? [? _]].
  - eapply call_quietly; [apply call_RemoveEdges|by intros ? ? ? [? _]].
  - eapply call_quietly; [apply call_RemoveNode|by intros ? ? ? [? _]].
  - eapply call_quietly; [apply call_Cancel|by intros ? ? ? [? _]].
  - eapply call_quietly; [apply call_CancelScope|by intros ? ? ? [? _]].
  - eapply call_fmap; [apply call_Claim|]. intros res d d' [[? _] ?]. by split.
  - eapply call_quietly; [apply call_Complete|by intros ? ? ? [[? _] _]].
  - eapply call_quietly; [apply call_Extend|by intros ? ? ? [? _]].
  - eapply call_quietly; [apply call_Sweep|by intros ? ? ? [? _]].
  - eapply call_quietly; [by apply call_SetScopeConfig, Hap|intros ? ? ?; apply quiet_epochs].
  - eapply call_quietly; [by apply call_Seal, Hap|intros ? ? ?; apply quiet_epochs].
  - eapply call_quietly; [apply call_GetNode|intros ? ? ? Hr; apply quiet_epochs, Hr].
  - eapply call_quietly; [apply call_Inspect|intros ? ? ? Hr; apply quiet_epochs, Hr].
  - eapply call_quietly; [apply call_ListNodes|intros ? ? ? Hr; apply quiet_epochs, Hr].
  - eapply call_quietly; [apply call_ScopeStats|intros ? ? ? Hr; apply quiet_epochs, Hr].
  - eapply call_quietly; [apply call_ScopeConfig|intros ? ? ? Hr; apply quiet_epochs, Hr].
  - eapply call_quietly; [apply call_Scopes|intros ? ? ? Hr; apply quiet_epochs, Hr].
  - eapply call_quietly; [by apply call_watch_start, Hap|intros ? ? ? Hr; apply quiet_epochs, Hr].
  - eapply call_quietly; [by apply call_WaitForWork, Hap|intros ? ? ? Hr; apply quiet_epochs, Hr].
  - eapply call_quietly; [apply call_Close|intros ? ? ? Hr; apply quiet_epochs, Hr].
Qed.

End Op.

Section Runs.
Context {C : Type} `{!Server C} {coll : Collation} (defaults : ScopeConfig) (cancelled : nat -> bool).

Notation exec_op := (exec_op defaults cancelled).
Notation run := (run defaults cancelled).

(** A failed call leaves no new row but that of the scope it creates. *)
Definition implicit (o : op) : NewRows := fun s row => creates o = Some s /\ row = new_scope defaults.

(** Any call keeps the invariant, and ends. *)
Lemma op_any o : call (nrows := implicit o) any_offset (fun _ => True) (exec_op o : M C _) (fun _ _ _ => True).
Proof.
  destruct (collects o) eqn:Hc.
  - destruct o; try discriminate Hc. eapply call_fmap; [apply call_CollectTerminal|done].
  - eapply call_mono; [apply op_call; [done|]|done|done]. by split.
Qed.

Lemma run_any ops t : st_inv any_offset t -> st_inv (C := C) any_offset (run ops t).1.
Proof.
  revert t. induction ops as [|o ops IH]; intros t Ht; [done|]. cbn [PgStore.run].
  pose proof (op_any o t Ht I) as H. unfold outcome in H. destruct (exec_op o t) as [t1 r].
  assert (Ht1 : st_inv any_offset t1) by (destruct r; apply H). specialize (IH t1 Ht1). by destruct (run ops t1).
Qed.

(** An outcome that may have written lets the epochs grow. *)
Lemma outcome_epochs {nrows : NewRows} J (ls : list Lease + pgerror) d (t' : pgst C) :
  outcome J stepped d (t', ls) -> epochs_le d (g_db t').
Proof.
  destruct ls as [l|e]; simpl; [by intros (_ & _ & ? & _)|]. intros (_ & _ & _ & [Hr|(_ & a & ? & _)]); [|done].
  apply quiet_epochs, Hr.
Qed.

Lemma run_steps J ops t :
  st_inv J t -> Forall (fun o => collects o = false) ops ->
  st_inv J (run ops t).1 /\ epochs_le (g_db t) (g_db (run ops t).1) /\ issued (g_db t) (g_db (run ops t).1) (run ops t).2.
Proof.
  intros Ht Hops. revert t Ht. induction Hops as [|o ops Ho Hops IH]; intros t Ht.
  { split_and!; [done|done|apply issued_nil]. }
  cbn [PgStore.run]. pose proof (op_call (nrows := implicit o) defaults cancelled J o Ho ltac:(by split) t Ht I) as H.
  destruct (exec_op o t) as [t1 r]. pose proof (outcome_epochs J r _ t1 H) as He1. unfold outcome in H.
  assert (Ht1 : st_inv J t1) by (destruct r; apply H). destruct (IH t1 Ht1) as (Ht2 & He2 & Hi2).
  destruct (run ops t1) as [t2 ls]. simpl in *. split_and!; [done|by etrans|].
  destruct r as [l|e].
  - destruct H as (_ & _ & _ & Hl). by eapply issued_app.
  - by eapply issued_before.
Qed.

End Runs.

(** ** The empty store *)

Definition exact : Offsets := fun off => forall s col, off s col = 0%Z.

Lemma empty_db_inv : db_inv (fun _ _ => 0%Z) emptyDb.
Proof.
  assert (En : d_nodes emptyDb = ∅) by done. assert (Ee : d_edges emptyDb = ∅) by done.
  assert (Es : d_scopes emptyDb = ∅) by done. split; [split|].
  - split; intros *; rewrite ?En, ?Ee, ?lookup_empty; done.
  - intros s a b ra. by rewrite Ee, lookup_empty.
  - intros s row col. by rewrite Es, lookup_empty.
  - split; intros *; rewrite ?En, ?Es, ?lookup_empty; done.
  - split; simpl; [constructor|by intros e ?%not_elem_of_nil|done].
  - by split.
Qed.

Lemma init_inv {C : Type} J (c : C) : J (fun _ _ => 0%Z) -> st_inv J (pg_init c).
Proof. intros HJ. split; [|done]. exists (fun _ _ => 0%Z). split; [done|apply empty_db_inv]. Qed.
