(* ===== verification/PgScenario.v ===== *)
(** * A server to evaluate the PostgreSQL model on

    Its clock advances by one at every reading; it returns rows as they are
    stored; the faults of its statements and the outcomes of its commits are
    read off two scripts, and a script that is used up means success. *)
From S2P Require Import Prelude Types Config Scope PgDb PgTopo PgEngine PgGraph PgLease PgAdmin.
From S2P Require Import PgStore.

Record script := mkScript {
  sv_now : Z;
  sv_faults : list (option string);
  sv_commits : list commitOutcome
}.

#[export] Instance script_clock : ClockSource script := {|
  clk_Now s := (sv_now s, mkScript (sv_now s + 1) (sv_faults s) (sv_commits s));
  clk_Jitter n s := (n, s)
|}.

#[export, refine] Instance script_server : Server script := {|
  srv_clock := script_clock;
  srv_fault s :=
    match sv_faults s with
    | [] => (None, s)
    | f :: fs => (f, mkScript (sv_now s) fs (sv_commits s))
    end;
  srv_commit s :=
    match sv_commits s with
    | [] => (Committed, s)
    | o :: os => (o, mkScript (sv_now s) (sv_faults s) os)
    end;
  srv_interval d := d;
  srv_order l s := (l, s)
|}.
Proof. done. Defined.

(** A collation: any order of the strings will do. *)
#[export, refine] Instance some_collation : Collation := {|
  coll_le a b := (encode a <= encode b)%positive
|}.
Proof.
  - intros a b. apply _.
  - split; [split; [split|]|].
    + intros a. lia.
    + intros a b c. lia.
    + intros a b H1 H2. apply (inj encode). lia.
    + intros a b. unfold strict. destruct (decide (a = b)) as [|Hne]; [by right; left|].
      assert (encode a <> encode b) by (by intros ?%(inj encode)). lia.
Defined.

Definition never : nat -> bool := fun _ => false.

(** The server that runs every statement as sent. *)
Definition server : script := mkScript 1000 [] [].

Definition node (i : string) (t : TriggerRule) (deps : list string) : NodeSpec :=
  mkSpec i "k" [] ∅ 0 t (mkRetry 1 0 0) deps.

(** A node, its first lease, and its completion. *)
Definition add_n : op := OAddNodes "s" [node "n" TriggerAllSuccess []].

Definition claim_req : ClaimRequest := mkClaim "s" [] 1 0 "w".

Definition claim_n : op := OClaim claim_req.

Definition lease_n : Lease := mkLease "s" "n" 1 TimeZero None [].

Definition finish_req : CompleteRequest := mkComplete lease_n true ReasonNone "" [].

Definition finish_n : op := OComplete finish_req.

(** Whether a call answered. *)
Definition answered {C A : Type} (r : pgst C * (A + pgerror)) : bool :=
  match r.2 with inl _ => true | inr _ => false end.
