(* ===== verification/PgProps.v ===== *)
(** * Properties of the PostgreSQL store

    Each holds after any sequence of calls from an empty database, on any server
    (an instance of [Server]) and with any collation: the statements of a call
    and its commit may fail at any point. *)
From S2P Require Import Prelude Types Config Scope ListFacts MapSum PgDb PgTopo PgEngine PgGraph PgLease PgAdmin PgInv PgTerminate.
From S2P Require Import PgTopoFacts PgLinkFacts PgLeaseFacts PgBatch PgBodies PgStore PgScenario.

(** ** Counting rows *)

(** The rows of a scope that satisfy a test. *)
Definition count_rows (s : string) (p : nodeRow -> bool) (d : db) : Z :=
  Z.of_nat (length (rows_where (fun r => bool_decide (n_Scope r = s) && p r) d)).

Definition in_phase (ph : Phase) (r : nodeRow) : bool := bool_decide (n_Phase r = ph).

Lemma msum_rows (p : nodeRow -> bool) (m : gmap Z nodeRow) :
  msum (fun _ r => Z.b2z (p r)) m = Z.of_nat (length (filter (fun r => p r = true) (map_to_list m).*2)).
Proof.
  induction m as [|i r m Hi IH] using map_ind; [by rewrite msum_empty, map_to_list_empty|].
  rewrite msum_insert by done. rewrite map_to_list_insert by done. rewrite fmap_cons, filter_cons, IH. cbn [snd].
  destruct (p r); [rewrite decide_True by done|rewrite decide_False by done]; cbn [length Z.b2z]; lia.
Qed.

Lemma node_count_rows d s col : node_count d s col = count_rows s (in_col col) d.
Proof. apply (msum_rows (fun r => bool_decide (n_Scope r = s) && in_col col r)). Qed.

Lemma count_rows_ext s p q d : (forall r, p r = q r) -> count_rows s p d = count_rows s q d.
Proof.
  intros E. unfold count_rows, rows_where. do 2 f_equal. apply list_filter_iff. intros r. by rewrite E.
Qed.

(** The counters [ScopeStats] answers with for the nodes that have not ended. *)
Definition live_counters_exact (d : db) : Prop :=
  map_Forall (fun s row => let st := Stats (scanScope row) in
    st_Blocked st = count_rows s (in_phase PhaseBlocked) d /\ st_Scheduled st = count_rows s (in_phase PhaseScheduled) d /\
    st_Ready st = count_rows s (in_phase PhaseReady) d /\ st_InProgress st = count_rows s (in_phase PhaseClaimed) d) (d_scopes d).

(** Those of the others, and the total. *)
Definition done_counters_exact (d : db) : Prop :=
  map_Forall (fun s row => let st := Stats (scanScope row) in
    st_Total st = count_rows s (fun _ => true) d /\
    st_Succeeded st = count_rows s (fun r => in_phase PhaseDone r && bool_decide (n_Status r = StatusSuccess)) d /\
    st_Failed st = count_rows s (fun r => in_phase PhaseDone r && negb (bool_decide (n_Status r = StatusSuccess))) d) (d_scopes d).

Lemma pg_counter_exact off d s row col :
  db_inv off d -> d_scopes d !! s = Some row -> off s col = 0%Z -> stat_of (sr_stats row) col = count_rows s (in_col col) d.
Proof.
  intros Hi Hrow Hoff. pose proof (pi_stat (db_pg Hi) s row col Hrow) as E. rewrite stat_of_empty, node_count_rows, Hoff in E.
  destruct (bool_decide (s = "")); lia.
Qed.

(** The rows a column counts. *)
Ltac by_column :=
  apply count_rows_ext; intros r; unfold in_col, in_phase; destruct (n_Phase r); simpl; repeat case_bool_decide; done.

Lemma live_counters off d : db_inv off d -> live_counters_exact d.
Proof.
  intros Hi s row Hrow. cbn [scanScope Stats st_Blocked st_Scheduled st_Ready st_InProgress].
  assert (Hoff : forall col, live_col col -> off s col = 0%Z) by (intros; by apply (ok_live _ _ (db_off Hi))).
  split_and!; (etrans; [eapply pg_counter_exact; [done|done|apply Hoff; unfold live_col; set_solver]|by_column]).
Qed.

Lemma done_counters off d : db_inv off d -> (forall s col, off s col = 0%Z) -> done_counters_exact d.
Proof.
  intros Hi Hoff s row Hrow. cbn [scanScope Stats st_Total st_Succeeded st_Failed].
  split_and!; (etrans; [by eapply pg_counter_exact|by_column]).
Qed.

Section Props.
Context {C : Type} `{!Server C} {coll : Collation} (defaults : ScopeConfig) (cancelled : nat -> bool).

(** The store after some calls on an empty database. *)
Definition after (ops : list op) (c : C) : pgst C := (run defaults cancelled ops (pg_init c)).1.

Lemma after_inv ops c : exists off, db_inv off (g_db (after ops c)).
Proof.
  destruct (run_any defaults cancelled ops (pg_init c)) as [(off & _ & Hi) _]; [by apply init_inv|]. by exists off.
Qed.

(** Every row the store ever leaves in [dagw.nodes] is one the schema accepts,
    sits under its own id and has a public status that agrees with its phase;
    the saturating conversions of [scanNode] change neither its attempts nor its
    epoch nor its tally. *)
Lemma pg_rows_typed ops c :
  map_Forall (fun i r => n_ID r = i /\ row_check r = None /\ coherent r = true /\
    n_Attempt (scanNode r) = n_Attempt r /\ n_Epoch (scanNode r) = n_Epoch r /\ n_Deps (scanNode r) = n_Deps r)
    (d_nodes (g_db (after ops c))).
Proof.
  intros i r Hr. destruct (after_inv ops c) as [off [Hi _]]. pose proof (pi_graph Hi) as Hg.
  destruct (gi_row _ Hg i r Hr) as [Hc Hco He Ha]. split_and!; [by apply (gi_id _ Hg)|done|done| | |by apply (scan_deps _ i r Hg)].
  - pose proof (row_check_attempt r Hc). simpl. unfold narrowU32, max_i32, max_u32 in *. repeat split_cmp; lia.
  - simpl. unfold narrowU64. split_cmp; lia.
Qed.

(** C9: the graph in the tables is sound after any calls: an edge joins two
    stored nodes of its scope and leads to a higher rank, so that no node
    reaches itself; the tally of a node counts its incoming edges by what became
    of their source; a source that is done has satisfied all its edges. *)
Theorem pg_graph_sound ops c :
  let d := g_db (after ops c) in
  map_Forall (fun '(s, a, b) _ => exists ra rb, d_nodes d !! a = Some ra /\ d_nodes d !! b = Some rb /\
    n_Scope ra = s /\ n_Scope rb = s /\ (n_Rank ra < n_Rank rb)%Z) (d_edges d) /\
  (forall u, ~ tc (edge_rel d) u u) /\
  map_Forall (fun b r => forall cl, dep_field cl (n_Deps r) = edge_count d b cl) (d_nodes d) /\
  map_Forall (fun '(s, a, b) sat => sat = match d_nodes d !! a with Some r => in_phase PhaseDone r | None => false end) (d_edges d).
Proof.
  destruct (after_inv ops c) as [off [Hi _]]. pose proof (pi_graph Hi) as Hg. intros d. split_and!.
  - intros [[s a] b] sat He. destruct (gi_edge _ Hg _ _ _ _ He) as (ra & rb & ? & ? & ? & ? & ? & _). eauto 8.
  - intros u Hu. assert (forall v, tc (edge_rel d) u v -> (rank_of d u < rank_of d v)%Z) as Hlt; [|specialize (Hlt u Hu); lia].
    intros v Hv. clear Hu. induction Hv as [x y He|x y z He _ IH]; [by apply edge_rank|]. pose proof (edge_rank d x y Hg He). lia.
  - intros b r Hr cl. by apply (gi_deps _ Hg).
  - intros [[s a] b] sat He. destruct (gi_edge _ Hg _ _ _ _ He) as (ra & rb & Ha & _ & _ & _ & _ & Hd). fold d in Ha. rewrite Ha.
    change (in_phase PhaseDone ra) with (done ra). destruct sat; [by rewrite Hd|].
    destruct (done ra) eqn:E; [|done]. by specialize (pi_unsat Hi s a b ra He Ha E).
Qed.

(** C11: [ScopeStats] counts exactly.  The counters of blocked, scheduled, ready
    and claimed nodes are the numbers of such rows after any calls; the total
    and the counters of ended nodes are, after calls none of which is
    [CollectTerminal]. *)
Theorem pg_counters_exact ops c :
  live_counters_exact (g_db (after ops c)) /\
  (forallb (fun o => negb (collects o)) ops = true -> done_counters_exact (g_db (after ops c))).
Proof.
  split; [destruct (after_inv ops c) as [off Hi]; by eapply live_counters|]. intros Hops.
  destruct (run_steps defaults cancelled exact ops (pg_init c)) as ([(off & Hoff & Hi) _] & _); [by apply init_inv| |by eapply done_counters].
  apply Forall_forall. intros o Ho%list_elem_of_In. rewrite forallb_forall in Hops. by apply negb_true_iff, Hops.
Qed.

(** C10: no two leases handed out for a node, over any calls none of which is
    [CollectTerminal], carry the same epoch: not after the node was removed and
    added again, nor when transactions fail, are retried or are committed
    without an answer. *)
Theorem pg_epochs_never_repeat ops c :
  forallb (fun o => negb (collects o)) ops = true ->
  NoDup (lease_key <$> (run defaults cancelled ops (pg_init c)).2).
Proof.
  intros Hops. destruct (run_steps defaults cancelled any_offset ops (pg_init c)) as (_ & _ & _ & Hnd); [by apply init_inv| |done].
  apply Forall_forall. intros o Ho%list_elem_of_In. rewrite forallb_forall in Hops. by apply negb_true_iff, Hops.
Qed.

(** C12: a call that fails, other than by losing the answer to a commit, leaves
    the nodes, the edges, the log and the rows of the scopes that existed as they
    were.  A row of a scope that did not exist may be left by [SetScopeConfig],
    [Seal], [Watch] and [WaitForWork] alone, which create their scope by a
    statement of its own: it is the row of that scope, with the default
    configuration, not sealed, and with all counters 0. *)
Theorem pg_failed_call_leaves_nothing ops c o t' e :
  exec_op defaults cancelled o (after ops c) = (t', inr e) -> e <> ConnectionLost ->
  let d := g_db (after ops c) in
  d_nodes (g_db t') = d_nodes d /\ d_edges (g_db t') = d_edges d /\ d_events (g_db t') = d_events d /\
  d_scopes d ⊆ d_scopes (g_db t') /\
  (forall s row, d_scopes d !! s = None -> d_scopes (g_db t') !! s = Some row ->
    creates o = Some s /\ row = new_scope defaults).
Proof.
  intros He Hne d. pose proof (run_any defaults cancelled ops (pg_init c) (init_inv any_offset c I)) as Hst.
  pose proof (op_any defaults cancelled o (after ops c) Hst I) as H. rewrite He in H.
  destruct H as (_ & _ & _ & [[[? ? ? ? ? ?] Hrows Hnew]|[? _]]); [|done]. split_and!; [done..| |exact Hnew].
  apply map_subseteq_spec. intros s row. apply Hrows.
Qed.

(** C13: every call ends: no loop of the model (the cascade of [terminate], the
    searches of the ordering, the retries) runs out of its bound, on any
    reachable tables and any server. *)
Theorem pg_calls_end ops c o : (exec_op defaults cancelled o (after ops c)).2 <> inr Diverged.
Proof.
  pose proof (run_any defaults cancelled ops (pg_init c) (init_inv any_offset c I)) as Hst.
  pose proof (op_any defaults cancelled o (after ops c) Hst I) as H.
  destruct (exec_op defaults cancelled o (after ops c)) as [t' [a|e]]; simpl; [done|]. destruct H as (_ & _ & H & _). congruence.
Qed.

(** C14: [Complete] answers only for the current lease of a claimed node, and
    then the node holds the outcome: ended with success, ended as skipped, or,
    for a failure, ended once its attempts are used up and scheduled for a retry
    before. *)
Theorem pg_complete_outcome ops c req t' res :
  Complete cancelled req (after ops c) = (t', inl res) ->
  exists row r r', d_scopes (g_db t') !! l_Scope (co_Lease req) = Some row /\
    find_ext (l_Scope (co_Lease req)) (l_NodeID (co_Lease req)) (g_db (after ops c)) = Some r /\
    n_Phase r = PhaseClaimed /\ n_Epoch r = l_Epoch (co_Lease req) /\
    find_ext (l_Scope (co_Lease req)) (l_NodeID (co_Lease req)) (g_db t') = Some r' /\
    outcome_row (Resolved (scanConfig (sr_cfg row))) req (scanNode r) r'.
Proof.
  intros He. pose proof (run_any defaults cancelled ops (pg_init c) (init_inv any_offset c I)) as Hst.
  pose proof (call_Complete (nrows := fun _ _ => True) any_offset cancelled req (after ops c) Hst I) as H. rewrite He in H.
  destruct H as (_ & _ & _ & row & Hrow & r & r' & ? & ? & ? & ? & ?). exists row, r, r'. by split_and!.
Qed.

End Props.

(** ** Witnesses *)

Notation started ops := (after zeroConfig never ops server).

(** A run in which a node is added, claimed and completed. *)
Lemma pg_counters_exact_witness :
  forallb (fun o => negb (collects o)) [add_n; claim_n; finish_n] = true /\
  done_counters_exact (g_db (started [add_n; claim_n; finish_n])).
Proof.
  assert (H : forallb (fun o => negb (collects o)) [add_n; claim_n; finish_n] = true) by reflexivity.
  split; [exact H|]. exact (proj2 (pg_counters_exact zeroConfig never [add_n; claim_n; finish_n] server) H).
Defined.

(** Two lives of a node: removed, and added again. *)
Definition two_lives : list op := [add_n; claim_n; finish_n; ORemoveNode "s" "n" CascadeReject; add_n; claim_n].

Lemma pg_epochs_never_repeat_witness :
  length (run zeroConfig never two_lives (pg_init server)).2 = 2 /\
  NoDup (lease_key <$> (run zeroConfig never two_lives (pg_init server)).2).
Proof. split; [vm_compute; reflexivity|]. apply pg_epochs_never_repeat. reflexivity. Defined.

(** A claimed node is not removed. *)
Lemma pg_failed_call_witness :
  let t := started [add_n; claim_n] in
  match exec_op zeroConfig never (ORemoveNode "s" "n" CascadeReject) t with
  | (t', inr e) => d_nodes (g_db t') = d_nodes (g_db t)
  | _ => False
  end.
Proof.
  set (t := started [add_n; claim_n]). cbv zeta. set (o := ORemoveNode "s" "n" CascadeReject).
  assert (H : (exec_op zeroConfig never o t).2 = inr (Domain (Err ErrNodeInFlight))) by (vm_compute; reflexivity).
  destruct (exec_op zeroConfig never o t) as [t' [a|e]] eqn:E; simpl in H; [discriminate H|]. injection H as ->.
  assert (Hne : Domain (Err ErrNodeInFlight) <> ConnectionLost) by discriminate.
  destruct (pg_failed_call_leaves_nothing zeroConfig never [add_n; claim_n] server o t' _ E Hne) as [Hn _]. exact Hn.
Defined.

(** The lease of the node is completed with success. *)
Lemma pg_complete_outcome_witness :
  let t := started [add_n; claim_n] in
  match Complete never finish_req t with
  | (t', inl _) => exists r r', find_ext "s" "n" (g_db t) = Some r /\ n_Epoch r = 1%Z /\
      find_ext "s" "n" (g_db t') = Some r' /\ n_Phase r' = PhaseDone /\ n_Status r' = StatusSuccess
  | _ => False
  end.
Proof.
  set (t := started [add_n; claim_n]). cbv zeta.
  assert (H : answered (Complete never finish_req t) = true) by (vm_compute; reflexivity).
  destruct (Complete never finish_req t) as [t' [a|e]] eqn:E; [|discriminate H].
  destruct (pg_complete_outcome (coll := some_collation) zeroConfig never [add_n; claim_n] server finish_req t' a E) as (row & r & r' & _ & Hr & _ & He & Hr' & Ho).
  exists r, r'. destruct Ho as [Hp Hs]. exact (conj Hr (conj He (conj Hr' (conj Hp Hs)))).
Defined.
