(* ===== verification/PgReads.v ===== *)
(** * Claims, order, configuration, pages and the event log of the PostgreSQL store *)
From S2P Require Import Prelude Types Config Scope ListFacts MapSum PgDb PgTopo PgEngine PgGraph PgLease PgAdmin PgInv PgTerminate.
From S2P Require Import PgTopoFacts PgLinkFacts PgLeaseFacts PgBatch PgBodies PgStore PgScenario PgProps.

(** The state in which [transact] starts a body. *)
Definition begun {C : Type} (t : pgst C) : pgst C := t <| g_notify := false |> <| g_stats := ∅ |>.

(** ** Configuration *)









(** ** Sorted lists *)

(** A list sorted strictly is the only sorted list of its members. *)
Lemma sorted_perm_eq {A : Type} (S W : relation A) (l k : list A) :
  (forall a b, S a b -> ~ W b a) -> StronglySorted S l -> StronglySorted W k -> k ≡ₚ l -> k = l.
Proof.
  intros HSW Hl. revert k. induction Hl as [|x l Hl IH Hx]; intros k Hk Hp.
  { by apply Permutation_nil_r in Hp. }
  destruct k as [|y k]; [by apply Permutation_nil_cons in Hp|]. apply StronglySorted_inv in Hk as [Hk Hy].
  rewrite Forall_forall in Hx, Hy. assert (y = x) as ->; [|f_equal; apply IH; [done|by eapply Permutation_cons_inv]].
  assert (y ∈ x :: l) as Hyl by (rewrite <- Hp; by left). assert (x ∈ y :: k) as Hxk by (rewrite Hp; by left).
  apply elem_of_cons in Hyl as [?|Hyl]; [done|]. apply elem_of_cons in Hxk as [?|Hxk]; [done|].
  exfalso. apply (HSW x y); [by apply Hx|by apply Hy].
Qed.

Lemma filter_keep {A : Type} (p : A -> Prop) `{!forall x, Decision (p x)} (l : list A) :
  (forall a, a ∈ l -> p a) -> filter p l = l.
Proof.
  induction l as [|x l IH]; intros Hp; [done|]. rewrite filter_cons, decide_True by (apply Hp; by left).
  f_equal. apply IH. intros a Ha. apply Hp. by right.
Qed.

Lemma filter_lose {A : Type} (p : A -> Prop) `{!forall x, Decision (p x)} (l : list A) :
  (forall a, a ∈ l -> ~ p a) -> filter p l = [].
Proof.
  induction l as [|x l IH]; intros Hp; [done|]. rewrite filter_cons, decide_False by (apply Hp; by left).
  apply IH. intros a Ha. apply Hp. by right.
Qed.

Lemma sorted_filter {A : Type} (R : relation A) (p : A -> Prop) `{!forall x, Decision (p x)} (l : list A) :
  StronglySorted R l -> StronglySorted R (filter p l).
Proof.
  intros Hl. induction Hl as [|x l Hl IH Hx]; [constructor|]. rewrite filter_cons. case_decide; [|done].
  constructor; [done|]. rewrite Forall_forall in *. intros y [_ Hy]%list_elem_of_filter. auto.
Qed.

(** What follows a member of a sorted list. *)
Lemma filter_after {A : Type} (S : relation A) (p : A -> Prop) `{!forall x, Decision (p x)} (l1 l2 : list A) x :
  StronglySorted S (l1 ++ x :: l2) -> (forall a, S a x -> ~ p a) -> ~ p x -> (forall a, S x a -> p a) ->
  filter p (l1 ++ x :: l2) = l2.
Proof.
  intros Hs Hbefore Hx Hafter. apply StronglySorted_app in Hs as (Hlt & _ & Hs). rewrite filter_app.
  apply StronglySorted_inv in Hs as [_ Hx2]. rewrite Forall_forall in Hx2.
  rewrite (filter_lose _ l1) by (intros a Ha; apply Hbefore, Hlt; [done|by left]).
  rewrite filter_cons, decide_False by done. apply filter_keep. intros a Ha. by apply Hafter, Hx2.
Qed.

Section Reads.
Context {C : Type} `{!Server C} {coll : Collation} (defaults : ScopeConfig) (cancelled : nat -> bool).

Notation after := (after defaults cancelled).

Lemma wp_begun {A : Type} (m : M C A) Q t d t' a :
  g_db t = d -> wp m Q d ∅ -> m (begun t) = (t', inl a) -> Q a (g_db t') (g_stats t').
Proof. intros Hd Hm He. specialize (Hm (begun t) Hd eq_refl). rewrite He in Hm. apply Hm. Qed.

(** ** Inversion of calls that answered *)

Lemma bind_answer {A B : Type} (m : M C A) (k : A -> M C B) t t' b :
  (m ≫= k) t = (t', inl b) -> exists t1 a, m t = (t1, inl a) /\ k a t1 = (t', inl b).
Proof. unfold mbind, M_bind. destruct (m t) as [t1 [a|e]]; [eauto|done]. Qed.


Lemma query_answer {A : Type} (f : db -> A) t t' a :
  query f t = (t', inl a) -> g_db t' = g_db t /\ g_migrated t' = g_migrated t /\ a = f (g_db t).
Proof.
  unfold query, stmt, gets, mbind, M_bind. destruct (srv_fault (g_c t)) as [[code|] c]; [done|]. intros [= <- <-]. done.
Qed.




(** ** Claims *)

(** [claimSQL] takes a ready node of a wanted kind that no other ready node
    of a wanted kind precedes in priority and then in the order of becoming
    ready, makes it claimed for the worker with the next epoch and attempt, and
    answers that there is none only when there is none. *)
Lemma pg_claim_best ops c scope kinds leaseFor workerID t' o :
  claimOne scope kinds leaseFor workerID (begun (after ops c)) = (t', inl o) ->
  match o with
  | None => rows_where (claimable scope kinds) (g_db (after ops c)) = []
  | Some (n, _) =>
    exists r deadline, d_nodes (g_db (after ops c)) !! n_ID r = Some r /\ claimable scope kinds r = true /\
      (forall x, x ∈ rows_where (claimable scope kinds) (g_db (after ops c)) -> r = x \/ claim_before r x) /\
      n = scanNode (granted workerID deadline r) /\ d_nodes (g_db t') !! n_ID r = Some (granted workerID deadline r)
  end.
Proof.
  intros He. destruct (after_inv defaults cancelled ops c) as [off Hi]. pose proof (db_inv_sc scope _ Hi) as Hp.
  pose proof (wp_begun _ _ _ _ _ _ eq_refl (wp_claimOne (off := off) scope kinds leaseFor workerID _ _ Hp) He) as H. cbn beta in H.
  destruct o as [[n ef]|]; [|by destruct H as (_ & _ & ->)].
  destruct H as (_ & _ & _ & r & deadline & Hr & Hc & Hbest & Hn & Hr'). exists r, deadline. split_and!; [done..| |done|done].
  intros x Hx. apply elem_rows_where in Hx as [Hx1 Hx2]; [|apply Hp]. by apply Hbest.
Qed.

(** [claimLoop] grants no more leases than asked for, each with an epoch
    above what its node had reached, and keeps the number of claimed nodes of
    the scope within [MaxInFlight] when it was within it before. *)
Lemma pg_claim_limits ops c cfg req want leaseFor row t' res :
  d_scopes (g_db (after ops c)) !! cr_Scope req = Some row -> (1 <= want)%Z ->
  claimLoop (cr_Scope req) cfg req want leaseFor (begun (after ops c)) = (t', inl res) ->
  let claimed := count_rows (cr_Scope req) (in_phase PhaseClaimed) in
  (Z.of_nat (length (cl_Leases res)) <= want)%Z /\ issued (g_db (after ops c)) (g_db t') (cl_Leases res) /\
  ((0 < c_MaxInFlight cfg)%Z -> (claimed (g_db (after ops c)) <= c_MaxInFlight cfg)%Z ->
   (claimed (g_db t') <= c_MaxInFlight cfg)%Z).
Proof.
  intros Hrow Hw He claimed. destruct (after_inv defaults cancelled ops c) as [off Hi].
  pose proof (db_inv_sc (cr_Scope req) _ Hi) as Hp.
  assert (Hoff : off (cr_Scope req) "stat_in_progress" = 0%Z) by (apply (ok_live _ _ (db_off Hi)); set_solver).
  pose proof (wp_begun _ _ _ _ _ _ eq_refl (wp_claimLoop (off := off) (cr_Scope req) cfg req want leaseFor _ _ row Hp Hoff eq_refl Hrow Hw) He) as H.
  destruct H as (_ & _ & Hlim & Hlen & Hiss). split_and!; [done|done|]. intros Hpos Hb.
  assert (Hcl : forall d, in_flight (cr_Scope req) d = claimed d).
  { intros d. unfold in_flight. rewrite node_count_rows. apply count_rows_ext. intros r. unfold in_col, in_phase.
    destruct (n_Phase r); simpl; repeat case_bool_decide; done. }
  specialize (Hlim Hpos). rewrite !Hcl in Hlim. change (g_db (begun _)) with (g_db (after ops c)) in Hlim. lia.
Qed.

(** ** The order of the graph *)

(** [addEdgeOrder] refuses the edge from [x] to [y] exactly when [y] already
    reaches [x]; otherwise it leaves ranks, a permutation of the old ones, under
    which every edge and the new one lead upwards. *)
Lemma pg_edge_order ops c scope x y t' res :
  let d := g_db (after ops c) in
  of_scope d scope x -> of_scope d scope y -> x <> y -> addEdgeOrder scope x y (begun (after ops c)) = (t', inl res) ->
  (cyclePath res <> None <-> rtc (edge_rel d) y x) /\
  (cyclePath res = None ->
    (rank_of (g_db t') x < rank_of (g_db t') y)%Z /\
    (forall u v, edge_rel d u v -> (rank_of (g_db t') u < rank_of (g_db t') v)%Z) /\
    (forall u v, is_node d u -> is_node d v -> rank_of (g_db t') u = rank_of (g_db t') v -> u = v) /\
    (forall u, is_node d u -> exists v, is_node d v /\ rank_of (g_db t') u = rank_of d v)).
Proof.
  intros d Hx Hy Hne He. destruct (after_inv defaults cancelled ops c) as [off [Hi _]].
  pose proof (wp_begun _ _ _ _ _ _ eq_refl (wp_addEdgeOrder scope d (pi_graph Hi) x y _ Hx Hy Hne) He) as [_ H].
  destruct (cyclePath res) as [path|].
  - destruct H as [_ H]. done.
  - destruct H as (Hno & _ & H). split; [|done]. split; [done|]. intros Hr. by destruct (Hno Hr).
Qed.

(** ** The event log *)

(** The events of a scope from a cursor on. *)
Definition log_from (scope : string) (next : Z) (d : db) : list Event :=
  filter (fun e => ev_Scope e = scope /\ (next <= ev_Cursor e)%Z) (d_events d).

Lemma log_from_sorted scope next d :
  log_inv d -> merge_sort cursor_le (log_from scope next d) = log_from scope next d.
Proof.
  intros Hl. apply (sorted_perm_eq (fun a b => (ev_Cursor a < ev_Cursor b)%Z) cursor_le).
  - unfold cursor_le. lia.
  - apply sorted_filter, Hl.
  - assert (Total cursor_le) by (intros a b; unfold cursor_le; lia). apply StronglySorted_merge_sort; [|done].
    intros a b e. unfold cursor_le. lia.
  - apply merge_sort_Permutation.
Qed.

Lemma log_from_next scope next d l e rest :
  log_inv d -> log_from scope next d = l ++ e :: rest -> log_from scope (ev_Cursor e + 1) d = rest.
Proof.
  intros Hl E. assert (He : e ∈ log_from scope next d) by (rewrite E; set_solver).
  apply list_elem_of_filter in He as [[_ Hn] _].
  assert (log_from scope (ev_Cursor e + 1) d = filter (fun x => (ev_Cursor e + 1 <= ev_Cursor x)%Z) (log_from scope next d)) as ->.
  { unfold log_from. rewrite list_filter_filter. apply list_filter_iff. intros x. naive_solver lia. }
  rewrite E. apply (filter_after (fun a b => (ev_Cursor a < ev_Cursor b)%Z)); [|lia..].
  rewrite <- E. apply sorted_filter, Hl.
Qed.

(** A batch the pump delivers is the head of what is left of the log. *)
Lemma pump_step_spec scope next t d :
  g_db t = d -> log_inv d -> (q_cursor d <= max_i64)%Z -> exists t' l next', pump_step scope next t = (t', inl (scanEvent <$> l, next')) /\ g_db t' = d /\
    log_from scope next d = l ++ log_from scope next' d.
Proof.
  intros Hd Hl Hq. unfold pump_step, readEvents. destruct (query _ t) as [t' [batch|e]] eqn:Eq.
  2: { exists t', [], next. split_and!; [done| |done].
       unfold query, stmt, mbind, M_bind in Eq. destruct (srv_fault (g_c t)) as [[code|] c]; by simplify_eq. }
  apply query_answer in Eq as (Hd' & _ & ->). rewrite Hd in *. fold (log_from scope next d). rewrite log_from_sorted by done.
  set (l := take eventBatchSize (log_from scope next d)).
  assert (El : log_from scope next d = l ++ drop eventBatchSize (log_from scope next d)) by (unfold l; by rewrite take_drop).
  clearbody l. eexists t', l, _. split_and!; [done|done|].
  destruct l as [|e l _] using rev_ind; [done|]. rewrite fmap_app, foldl_app. simpl.
  assert (He : e ∈ d_events d).
  { assert (e ∈ log_from scope next d) as He by (rewrite El; set_solver). by apply list_elem_of_filter in He as [_ ?]. }
  destruct (li_below _ Hl e He) as [? ?].
  assert (widenI64 (narrowU64 (ev_Cursor e)) = ev_Cursor e) as ->.
  { unfold widenI64, narrowU64. rewrite (proj2 (Z.ltb_ge (ev_Cursor e) 0)) by lia. split_cmp; lia. }
  rewrite i64_small by (unfold max_i64 in *; lia).
  rewrite <- app_assoc in El |- *. simpl in El |- *. by rewrite (log_from_next scope next d l e _ Hl El) at 1.
Qed.

Lemma pump_spec rounds scope next out t d :
  g_db t = d -> log_inv d -> (q_cursor d <= max_i64)%Z -> exists t' l next', pump rounds scope next out t = (t', inl (out ++ (scanEvent <$> l), next')) /\
    log_from scope next d = l ++ log_from scope next' d.
Proof.
  revert next out t. induction rounds as [|rounds IH]; intros next out t Hd Hl Hq; cbn [pump].
  { exists t, [], next. rewrite fmap_nil, app_nil_r. done. }
  destruct (pump_step_spec scope next t d Hd Hl Hq) as (t1 & l1 & next1 & E1 & Hd1 & El1).
  unfold mbind, M_bind. rewrite E1. destruct (IH next1 (out ++ (scanEvent <$> l1)) t1 Hd1 Hl Hq) as (t2 & l2 & next2 & -> & El2).
  exists t2, (l1 ++ l2), next2. rewrite fmap_app, <- !app_assoc. split; [done|]. by rewrite El1, El2.
Qed.

(** however many reads fail, the rounds of a watch's pump deliver the events
    of the scope from the first cursor on, in the order of the log, each once
    and none left out before the cursor the pump has reached, while the sequence
    of cursors has not run out of [int64]. *)
Lemma pg_pump_in_order ops c rounds scope next :
  let d := g_db (after ops c) in
  (q_cursor d <= max_i64)%Z ->
  exists t' l next', pump rounds scope next [] (after ops c) = (t', inl (scanEvent <$> l, next')) /\
    log_from scope next d = l ++ log_from scope next' d.
Proof.
  intros d Hq. destruct (after_inv defaults cancelled ops c) as [off [Hi _]]. by apply (pump_spec rounds scope next []); [|apply Hi|].
Qed.

(** ** Pages *)

(** The rows [ListNodes] pages through, in the order of their identifiers. *)
Definition listed (scope : string) (opts : ListOptions) (d : db) : list nodeRow :=
  merge_sort name_le (rows_where (list_where scope opts) d).

(** The request for the page after a cursor. *)
Definition page_from (cursor : string) (opts : ListOptions) : ListOptions :=
  mkListOptions (lo_Statuses opts) (lo_Kinds opts) cursor (lo_Limit opts).

Definition page_limit (opts : ListOptions) : nat := Z.to_nat (if (lo_Limit opts <=? 0)%Z then 100 else lo_Limit opts).

Definition name_lt (a b : nodeRow) : Prop := name_le a b /\ n_NodeID a <> n_NodeID b.

Lemma listed_perm scope opts d : listed scope opts d ≡ₚ rows_where (list_where scope opts) d.
Proof. apply merge_sort_Permutation. Qed.

Lemma listed_weak scope opts d : StronglySorted name_le (listed scope opts d).
Proof.
  apply StronglySorted_merge_sort.
  - intros a b e. unfold name_le. by intros ? ?; etrans.
  - intros a b. unfold name_le. apply (total coll_le).
Qed.

Lemma listed_strict scope opts d : graph_inv d -> StronglySorted name_lt (listed scope opts d).
Proof.
  intros Hg. assert (Hnd : NoDup (n_ID <$> listed scope opts d)) by (rewrite listed_perm; by apply rows_where_NoDup).
  assert (Hin : forall r, r ∈ listed scope opts d -> d_nodes d !! n_ID r = Some r /\ n_Scope r = scope).
  { intros r. rewrite listed_perm. intros [Hr Hw]%elem_rows_where; [|done]. split; [done|].
    unfold list_where in Hw. rewrite !andb_true_iff, bool_decide_eq_true in Hw. tauto. }
  pose proof (listed_weak scope opts d) as Hs. induction Hs as [|x l Hs IH Hx]; [constructor|].
  rewrite fmap_cons in Hnd. apply NoDup_cons in Hnd as [Hni Hnd]. constructor; [apply IH; [done|intros; apply Hin; by right]|].
  rewrite Forall_forall in *. intros y Hy. split; [by apply Hx|]. intros E. apply Hni.
  destruct (Hin x) as [Hx1 Hx2]; [by left|]. destruct (Hin y) as [Hy1 Hy2]; [by right|].
  rewrite (gi_ext d Hg _ _ _ _ Hx1 Hy1) by congruence. by apply list_elem_of_fmap_2.
Qed.

(** The rows after a page are those after its last row. *)
Lemma listed_after scope opts d l x rest :
  graph_inv d -> listed scope opts d = l ++ x :: rest -> listed scope (page_from (n_NodeID x) opts) d = rest.
Proof.
  intros Hg E. pose proof (listed_strict scope opts d Hg) as Hs. rewrite E in Hs.
  assert (Hx : x ∈ listed scope opts d) by (rewrite E; set_solver).
  rewrite listed_perm in Hx. apply elem_rows_where in Hx as [_ Hx]; [|done].
  assert (Ef : rest = filter (fun r => ~ coll_le (n_NodeID r) (n_NodeID x)) (listed scope opts d)).
  { rewrite E. symmetry. apply (filter_after name_lt); [done|..].
    - intros a [Ha _] Hn. by apply Hn.
    - intros Hn. apply Hn. reflexivity.
    - intros a [Ha Hne] Hle. apply Hne. by apply (anti_symm coll_le). }
  apply (sorted_perm_eq name_lt name_le).
  - intros a b [H1 H2] H3. apply H2. by apply (anti_symm coll_le).
  - apply StronglySorted_app in Hs as (_ & _ & Hs). by apply StronglySorted_inv in Hs as [? _].
  - apply listed_weak.
  - rewrite Ef, !listed_perm. unfold rows_where. rewrite list_filter_filter.
    rewrite (list_filter_iff _ (fun r => ~ coll_le (n_NodeID r) (n_NodeID x) /\ list_where scope opts r = true)); [done|].
    intros r. unfold list_where in *. simpl. rewrite !andb_true_iff, !negb_true_iff, !bool_decide_eq_true, !bool_decide_eq_false in *.
    destruct Hx as [[[_ Hc] _] _]. assert (coll_le (n_NodeID r) (lo_Cursor opts) -> coll_le (n_NodeID r) (n_NodeID x)) as Htr; [|tauto].
    intros Hr. etrans; [done|]. destruct (total coll_le (lo_Cursor opts) (n_NodeID x)) as [?|?]; [done|by destruct Hc].
Qed.

(** a page of [ListNodes] holds the first rows of the listing after its
    cursor, at most the limit of them; the cursor it answers with is empty when
    the listing ends there, and otherwise the listing after it is what is left:
    following the cursors visits every row once, in order. *)
Lemma pg_list_pages ops c scope opts t' res :
  ListNodes scope opts (after ops c) = (t', inl res) ->
  let d := g_db (after ops c) in
  lr_Nodes res = (fun r => snapshot (scanNode r)) <$> take (page_limit opts) (listed scope opts d) /\
  if length (listed scope opts d) <=? page_limit opts then lr_Next res = ""%string
  else listed scope (page_from (lr_Next res) opts) d = drop (page_limit opts) (listed scope opts d).
Proof.
  intros He d. destruct (after_inv defaults cancelled ops c) as [off [Hi _]]. pose proof (pi_graph Hi) as Hg. fold d in Hg.
  unfold ListNodes in He. apply bind_answer in He as (t1 & [] & Hm & He).
  pose proof (run_any defaults cancelled ops (pg_init c) (init_inv any_offset c I)) as Hst.
  pose proof (call_ensureMigrated (nrows := fun _ _ => True) any_offset (fun _ => True) (after ops c) Hst I) as Hmig. rewrite Hm in Hmig.
  destruct Hmig as (_ & _ & Hr). apply bind_answer in He as (t2 & rs & Hq & He). apply query_answer in Hq as (_ & _ & Hrs).
  fold (page_limit opts) in Hrs, He.
  assert (Ers : rs = take (S (page_limit opts)) (listed scope opts d)).
  { rewrite Hrs. unfold listed, rows_where, rows. by rewrite (qu_nodes _ _ (rs_quiet _ _ Hr)). }
  clear Hrs. assert (Hpos : 0 < page_limit opts) by (unfold page_limit; split_cmp; lia).
  set (l := listed scope opts d) in *. set (lim := page_limit opts) in *. subst rs.
  rewrite length_fmap, length_take in He. destruct (Nat.leb_spec (length l) lim) as [Hle|Hgt].
  - rewrite (proj2 (Nat.ltb_ge _ _)) in He by lia. injection He as _ <-. simpl. split; [|done]. by rewrite !take_ge by lia.
  - rewrite (proj2 (Nat.ltb_lt _ _)) in He by lia. injection He as _ <-. cbn [lr_Nodes lr_Next].
    rewrite <- fmap_take, take_take, (Nat.min_l lim) by lia. split; [done|].
    destruct (lookup_lt_is_Some_2 l (lim - 1)) as [x Hx]; [lia|].
    rewrite list_lookup_fmap, lookup_take_lt, Hx by lia. simpl.
    apply (listed_after scope opts d (take (lim - 1) l)); [done|]. fold l.
    rewrite <- (take_drop_middle l (lim - 1) x Hx) at 1. f_equal. f_equal. f_equal. lia.
Qed.

End Reads.

(** ** Witnesses *)

Notation started ops := (PgProps.after zeroConfig never ops server).

Definition small_config : ScopeConfig := zeroConfig <| c_MaxInFlight := 1%Z |> <| c_MaxAttempts := 3%Z |>.



Lemma pg_claim_best_witness :
  match claimOne "s" [] 0 "w" (begun (started [add_n])) with
  | (t', inl (Some (n, _))) => exists r deadline, n = scanNode (granted "w" deadline r)
  | _ => False
  end.
Proof.
  assert (H : match (claimOne "s" [] 0 "w" (begun (started [add_n]))).2 with inl (Some _) => true | _ => false end = true)
    by (vm_compute; reflexivity).
  destruct (claimOne "s" [] 0 "w" (begun (started [add_n]))) as [t' [[[n ef]|]|e]] eqn:E; [|discriminate H..].
  destruct (pg_claim_best (coll := some_collation) zeroConfig never [add_n] server "s" [] 0 "w" t' _ E) as (r & deadline & _ & _ & _ & Hn & _).
  exists r, deadline. exact Hn.
Defined.

Lemma pg_claim_limits_witness :
  match claimLoop "s" small_config claim_req 1 0 (begun (started [add_n])) with
  | (t', inl res) => (Z.of_nat (length (cl_Leases res)) <= 1)%Z /\ (count_rows "s" (in_phase PhaseClaimed) (g_db t') <= 1)%Z
  | _ => False
  end.
Proof.
  assert (Hone : (1 <= 1)%Z) by reflexivity.
  assert (H : answered (claimLoop "s" small_config claim_req 1 0 (begun (started [add_n]))) = true) by (vm_compute; reflexivity).
  assert (Hrow : is_Some (d_scopes (g_db (started [add_n])) !! cr_Scope claim_req)) by (vm_compute; eexists; reflexivity).
  assert (Hb : (count_rows (cr_Scope claim_req) (in_phase PhaseClaimed) (g_db (started [add_n])) <=? 1)%Z = true) by (vm_compute; reflexivity).
  destruct (claimLoop "s" small_config claim_req 1 0 (begun (started [add_n]))) as [t' [res|e]] eqn:E; [|discriminate H].
  destruct Hrow as [row Hrow].
  destruct (pg_claim_limits (coll := some_collation) zeroConfig never [add_n] server small_config claim_req 1 0 row t' res Hrow Hone E) as (Hl & _ & Hc).
  split; [exact Hl|]. apply Hc; [reflexivity|]. apply Z.leb_le. exact Hb.
Defined.

(** Two nodes, the later one first. *)
Definition chain_ops : list op := [OAddNodes "s" [node "b" TriggerAllSuccess []; node "a" TriggerAllSuccess []]].

Lemma pg_edge_order_witness :
  match addEdgeOrder "s" 2 1 (begun (started chain_ops)) with
  | (t', inl res) => cyclePath res = None /\ (rank_of (g_db t') 2 < rank_of (g_db t') 1)%Z
  | _ => False
  end.
Proof.
  assert (I1 : 1%Z ∈ [1; 2]%Z) by (left). assert (I2 : 2%Z ∈ [1; 2]%Z) by (right; left). assert (Hne : 2%Z <> 1%Z) by discriminate.
  assert (H : match (addEdgeOrder "s" 2 1 (begun (started chain_ops))).2 with
              | inl res => match cyclePath res with None => true | _ => false end | _ => false end = true) by (vm_compute; reflexivity).
  assert (Hs : forall i, i ∈ [1; 2]%Z ->
    match d_nodes (g_db (started chain_ops)) !! i with Some r => bool_decide (n_Scope r = "s"%string) | None => false end = true).
  { intros i Hi. apply list_elem_of_In in Hi. destruct Hi as [<-|[<-|[]]]; vm_compute; reflexivity. }
  assert (Hscope : forall i, i ∈ [1; 2]%Z -> of_scope (g_db (started chain_ops)) "s" i).
  { intros i Hi. specialize (Hs i Hi). destruct (d_nodes (g_db (started chain_ops)) !! i) as [r|] eqn:Er; [|discriminate Hs].
    exists r. split; [exact Er|]. apply bool_decide_eq_true in Hs. exact Hs. }
  destruct (addEdgeOrder "s" 2 1 (begun (started chain_ops))) as [t' [res|e]] eqn:E; [|discriminate H]. simpl in H.
  destruct (pg_edge_order (coll := some_collation) zeroConfig never chain_ops server "s" 2 1 t' res (Hscope 2%Z I2) (Hscope 1%Z I1) Hne E)
    as [_ Hn].
  destruct (cyclePath res); [discriminate H|]. destruct (Hn eq_refl) as [Hlt _]. exact (conj eq_refl Hlt).
Defined.

(** Both nodes were announced. *)
Lemma pg_pump_in_order_witness :
  exists t' l next', pump 2 "s" 0 [] (started chain_ops) = (t', inl (scanEvent <$> l, next')) /\
    log_from "s" 0 (g_db (started chain_ops)) = l ++ log_from "s" next' (g_db (started chain_ops)).
Proof.
  assert (H : (q_cursor (g_db (started chain_ops)) <=? max_i64)%Z = true) by (vm_compute; reflexivity).
  apply Z.leb_le in H. exact (pg_pump_in_order (coll := some_collation) zeroConfig never chain_ops server 2 "s" 0 H).
Defined.

Lemma pg_list_pages_witness :
  let opts := mkListOptions [] [] "" 1 in
  match ListNodes "s" opts (started chain_ops) with
  | (_, inl res) => lr_Nodes res = (fun r => snapshot (scanNode r)) <$> take (page_limit opts) (listed "s" opts (g_db (started chain_ops)))
  | _ => False
  end.
Proof.
  set (opts := mkListOptions [] [] "" 1). cbv zeta.
  assert (H : answered (ListNodes "s" opts (started chain_ops)) = true) by (vm_compute; reflexivity).
  destruct (ListNodes "s" opts (started chain_ops)) as [t' [res|e]] eqn:E; [|discriminate H].
  destruct (pg_list_pages (coll := some_collation) zeroConfig never chain_ops server "s" opts t' res E) as [Hn _]. exact Hn.
Defined.
