(* ===== verification/PgFindings.v ===== *)
(** * Waking waiters and retrying transactions: [notifier.go] and [retry.go] *)
From S2P Require Import Prelude Types Config Scope PgDb PgTopo PgEngine PgGraph PgLease PgAdmin PgStore PgScenario PgInv PgLeaseFacts.
From S2P Require Import PgProps.

(** ** The doorbell *)

Inductive bellOp := Wait (scope : string) | Ring (scope : string).

#[export] Instance bellOp_eq_dec : EqDecision bellOp.
Proof. solve_decision. Defined.

Definition bell_step (n : notifier) (o : bellOp) : notifier :=
  match o with Wait s => fst (waitChan s n) | Ring s => ring s n end.

Definition bell_run (ops : list bellOp) (n : notifier) : notifier := foldl bell_step n ops.

(** Channels are made in order; the ones in the map are open, and no two scopes
    share one. *)
Record bell_inv (n : notifier) : Prop := {
  bi_open : forall s ch, bell n !! s = Some ch -> ch ∉ closed n;
  bi_made : forall s ch, bell n !! s = Some ch -> ch < chans n;
  bi_old : forall ch, ch ∈ closed n -> ch < chans n;
  bi_inj : forall s s' ch, bell n !! s = Some ch -> bell n !! s' = Some ch -> s = s'
}.

Lemma bell_inv_new : bell_inv newNotifier.
Proof. split; simpl; intros *; rewrite ?lookup_empty; try done; set_solver. Qed.

Lemma waitChan_inv s n : bell_inv n -> bell_inv (fst (waitChan s n)).
Proof.
  intros [H1 H2 H3 H4]. unfold waitChan. destruct (bell n !! s) as [ch|] eqn:E; [by split|]. split; simpl.
  - intros s' ch [[<- <-]|[_ Hs]]%lookup_insert_Some; [|eauto]. intros Hc%H3. lia.
  - intros s' ch [[<- <-]|[_ Hs]]%lookup_insert_Some; [lia|]. apply H2 in Hs. lia.
  - intros ch Hc%H3. lia.
  - intros s1 s2 ch [[<- <-]|[_ Hs1]]%lookup_insert_Some [[<- E2]|[_ Hs2]]%lookup_insert_Some; try done; [..|by eapply H4].
    + apply H2 in Hs2. lia.
    + apply H2 in Hs1. lia.
Qed.

Lemma ring_inv s n : bell_inv n -> bell_inv (ring s n).
Proof.
  intros [H1 H2 H3 H4]. unfold ring. destruct (bell n !! s) as [ch|] eqn:E; [|by split]. split; simpl.
  - intros s' ch' [Hne Hs]%lookup_delete_Some. rewrite elem_of_union, elem_of_singleton. intros [->|Hc]; [|by eapply H1].
    apply Hne. by eapply H4.
  - intros s' ch' [_ Hs]%lookup_delete_Some. eauto.
  - intros ch'. rewrite elem_of_union, elem_of_singleton. intros [->|Hc]; eauto.
  - intros s1 s2 ch' [_ Hs1]%lookup_delete_Some [_ Hs2]%lookup_delete_Some. eauto.
Qed.

Lemma bell_run_inv ops n : bell_inv n -> bell_inv (bell_run ops n).
Proof.
  revert n. induction ops as [|o ops IH]; intros n Hn; [done|]. apply IH. destruct o; [by apply waitChan_inv|by apply ring_inv].
Qed.

Lemma bell_closed_mono ops n ch : ch ∈ closed n -> ch ∈ closed (bell_run ops n).
Proof.
  revert n. induction ops as [|o ops IH]; intros n Hc; [done|]. apply IH. destruct o as [s|s]; simpl.
  - unfold waitChan. by destruct (bell n !! s).
  - unfold ring. destruct (bell n !! s); simpl; [set_solver|done].
Qed.

(** A channel in the map is closed by a ring of its scope, and only by it. *)
Lemma bell_woken ops n scope ch :
  bell_inv n -> bell n !! scope = Some ch -> ch ∈ closed (bell_run ops n) <-> Ring scope ∈ ops.
Proof.
  revert n. induction ops as [|o ops IH]; intros n Hn Hs.
  { split; [intros Hc; by destruct (bi_open n Hn scope ch Hs)|by intros ?%not_elem_of_nil]. }
  rewrite elem_of_cons. change (bell_run (o :: ops) n) with (bell_run ops (bell_step n o)).
  destruct (decide (o = Ring scope)) as [->|Ho].
  { split; [auto|]. intros _. apply bell_closed_mono. cbn [bell_step]. unfold ring. rewrite Hs. simpl. set_solver. }
  rewrite (IH (bell_step n o)); [split; [auto|by intros [<-|?]]|destruct o; [by apply waitChan_inv|by apply ring_inv]|].
  destruct o as [s|s]; cbn [bell_step].
  - unfold waitChan. destruct (bell n !! s) eqn:E; [done|]. simpl. rewrite lookup_insert_ne by congruence. done.
  - unfold ring. destruct (bell n !! s) eqn:E; [|done]. simpl. rewrite lookup_delete_ne by congruence. done.
Qed.

(** a waiter cannot miss a wake-up.  The channel [waitChan] hands it is open,
    and after any further calls it is closed exactly if the scope was rung since. *)
Lemma pg_bell_wakes before later scope :
  let n := bell_run before newNotifier in
  let '(n1, ch) := waitChan scope n in
  ch ∉ closed n1 /\ (ch ∈ closed (bell_run later n1) <-> Ring scope ∈ later).
Proof.
  intros n. pose proof (bell_run_inv before newNotifier bell_inv_new) as Hn. fold n in Hn.
  pose proof (waitChan_inv scope n Hn) as Hn1.
  assert (Hs : bell (fst (waitChan scope n)) !! scope = Some (snd (waitChan scope n))).
  { unfold waitChan. destruct (bell n !! scope) eqn:E; [done|]. simpl. by rewrite lookup_insert_eq. }
  destruct (waitChan scope n) as [n1 ch]. simpl in *. split; [by eapply bi_open|by apply bell_woken].
Qed.

(** ** The listening goroutine *)

(** It rings the scopes its connections name, and nothing else. *)
Definition heard (k : connection) : list string := if conn_acquired k && conn_listens k then conn_notes k else [].

Lemma listenOnce_rings k n : fst (listenOnce k n) = bell_run (Ring <$> heard k) n.
Proof.
  unfold listenOnce, heard. destruct (conn_acquired k), (conn_listens k); simpl; try done.
  unfold bell_run. generalize (conn_notes k) as l, n. induction l as [|s l IH]; intros m; [done|apply IH].
Qed.

Lemma bell_run_app l1 l2 n : bell_run (l1 ++ l2) n = bell_run l2 (bell_run l1 n).
Proof. apply foldl_app. Qed.

Lemma listen_run_rings turns b n :
  exists heard_scopes : list string, heard_scopes ⊆ concat (heard ∘ tn_conn <$> turns) /\
    fst (listen_run turns b n) = bell_run (Ring <$> heard_scopes) n.
Proof.
  revert b n. induction turns as [|t turns IH]; intros b n; simpl; [by exists []|].
  destruct (tn_stopped t); [exists []; split; [apply list_subseteq_nil|done]|].
  pose proof (listenOnce_rings (tn_conn t) n) as Hl. destruct (listenOnce (tn_conn t) n) as [n1 failed]. simpl in Hl. subst n1.
  assert (Hstep : forall b', exists l : list string, l ⊆ heard (tn_conn t) ++ concat (heard ∘ tn_conn <$> turns) /\
    fst (listen_run turns b' (bell_run (Ring <$> heard (tn_conn t)) n)) = bell_run (Ring <$> l) n).
  { intros b'. destruct (IH b' (bell_run (Ring <$> heard (tn_conn t)) n)) as (l & Hl & ->).
    exists (heard (tn_conn t) ++ l). rewrite fmap_app, bell_run_app. split; [set_solver|done]. }
  destruct failed; [|apply Hstep]. destruct (tn_cut t); [exists (heard (tn_conn t)); split; [set_solver|done]|].
  specialize (Hstep (if (b <? maxBackoff)%Z then i64 (b * 2) else b)). by destruct (listen_run turns _ _).
Qed.

(** The pauses of [run] double up to 6.4 s. *)
Lemma listen_run_pauses turns b n :
  (exists k, (k <= 6)%nat /\ b = startBackoff * 2 ^ Z.of_nat k)%Z ->
  Forall (fun p => startBackoff <= p <= 64 * startBackoff)%Z (snd (listen_run turns b n)).
Proof.
  assert (Hrange : forall b, (exists k, (k <= 6)%nat /\ b = startBackoff * 2 ^ Z.of_nat k)%Z -> (startBackoff <= b <= 64 * startBackoff)%Z).
  { intros b' (k & Hk & ->). change 64%Z with (2 ^ 6)%Z. pose proof (Z.pow_le_mono_r 2 (Z.of_nat k) 6 ltac:(lia) ltac:(lia)).
    pose proof (Z.pow_le_mono_r 2 0 (Z.of_nat k) ltac:(lia) ltac:(lia)). unfold startBackoff. lia. }
  revert b n. induction turns as [|t turns IH]; intros b n Hb; simpl; [constructor|].
  destruct (tn_stopped t); [constructor|]. destruct (listenOnce (tn_conn t) n) as [n1 failed].
  destruct failed; [|apply IH; exists 0; split; [lia|reflexivity]]. pose proof (Hrange b Hb) as Hr.
  destruct (tn_cut t); [by constructor|]. set (b' := if (b <? maxBackoff)%Z then _ else b).
  assert (Hb' : (exists k, (k <= 6)%nat /\ b' = startBackoff * 2 ^ Z.of_nat k)%Z).
  { unfold b'. split_cmp; [|done]. rewrite i64_small by (unfold startBackoff in Hr; lia). destruct Hb as (k & Hk & ->).
    exists (S k). assert (k <> 6) by (intros ->; unfold maxBackoff, startBackoff in *; lia). split; [lia|].
    rewrite Nat2Z.inj_succ, Z.pow_succ_r by lia. lia. }
  specialize (IH b' n1 Hb'). destruct (listen_run turns b' n1) as [n2 ps]. by constructor.
Qed.

(** A poll interval of zero or less is ignored: a waiter never spins. *)
Lemma New_polls opts : (0 < pollInterval (New opts))%Z.
Proof.
  unfold New. set (s := mkSettings _ _ _ _). assert (Hs : (0 < pollInterval s)%Z) by (unfold s, DefaultPollInterval; simpl; lia).
  clearbody s. revert s Hs. induction opts as [|o opts IH]; intros s Hs; [done|]. apply IH.
  destruct o as [cfg|d|[fn|]]; simpl; [done| |done..]. split_cmp; simpl; lia.
Qed.

(** ** Retries *)

Section Retry.
Context {C : Type} `{!Server C} {A : Type} (fn : M C A) (cancelled : nat -> bool).

(** [attempts n t r]: [fn] was run [n] times, each run but the last failed with
    a transient conflict and left what the next one started from, and the last
    one answered [r]. *)
Inductive attempts : nat -> pgst C -> pgst C * (A + pgerror) -> Prop :=
| attempt_last t : attempts 1 t (fn t)
| attempt_again n t t1 t2 e r :
    fn t = (t1, inr e) -> isTransientConflict e = true -> g_db t2 = g_db t1 -> attempts n t2 r -> attempts (S n) t r.

Lemma retry_attempts tries k t :
  (exists n, n <= S tries /\ attempts n t (retry_loop cancelled tries k fn t) /\
     (n = S tries \/ forall e, (retry_loop cancelled tries k fn t).2 = inr e -> isTransientConflict e = false)) \/
  (retry_loop cancelled tries k fn t).2 = inr ContextDone.
Proof.
  revert k t. induction tries as [|tries IH]; intros k t; cbn [retry_loop].
  - left. exists 1. pose proof (attempt_last t) as Hl. destruct (fn t) as [t1 [a|e]]; [split_and!; [lia|done|by left]|].
    destruct (negb _); (split_and!; [lia|done|by left]).
  - destruct (fn t) as [t1 [a|e]] eqn:E.
    { left. exists 1. split_and!; [lia|rewrite <- E; constructor|right; discriminate]. }
    destruct (isTransientConflict e) eqn:Et; cbn [negb].
    2: { left. exists 1. split_and!; [lia|rewrite <- E; constructor|right]. by intros e' [= <-]. }
    unfold jitter. destruct (clk_Jitter _ (g_c t1)) as [v c]. destruct (cancelled k); [by right|].
    destruct (IH (S k) (t1 <| g_c := c |>)) as [(n & Hn & Ha & Hlast)|Hc]; [left|by right].
    exists (S n). split_and!; [lia|eapply attempt_again; [exact E|exact Et| |exact Ha]; done|]. destruct Hlast as [->|?]; [by left|by right].
Qed.

(** [retryTransient] runs its transaction at most three times, again only
    after a serialization failure or a deadlock; it gives up with such an error
    only after the third run, and otherwise answers what the last run answered,
    unless its context ended between two runs. *)
Lemma pg_retries_bounded t :
  let r := retryTransient cancelled fn t in
  (exists n, n <= 3 /\ attempts n t r /\ (n = 3 \/ forall e, r.2 = inr e -> isTransientConflict e = false)) \/
  r.2 = inr ContextDone.
Proof. apply (retry_attempts 2 1 t). Qed.

End Retry.

(** * What the PostgreSQL store does otherwise than it means to

    Each theorem evaluates a short sequence of calls on a server that runs every
    statement as sent. *)

Definition play (ops : list op) : pgst script * list Lease := run zeroConfig never ops (pg_init server).

(** ** Collection *)

(** A node is run and collected. *)
Definition collected_ops : list op := [add_n; claim_n; finish_n; OCollect "s" 1000000 10].

(** [CollectTerminal] deletes a node without raising the epoch floor of its
    scope to the node's epoch, because it passes [deleteNodeRow] a row whose
    epoch is the zero value: the node, added again, is leased with the same
    epoch, and a completion with the lease of the first life ends the second.
    It also commits without [finalize], so that the total and the number of
    succeeded nodes of the scope keep counting the nodes it deleted. *)
Lemma pg_collection_gaps :
  (lease_key <$> (play (collected_ops ++ [add_n; claim_n])).2 = [("s", "n", 1%Z); ("s", "n", 1%Z)]) /\
  (n_Status <$> find_ext "s" "n" (g_db (play (collected_ops ++ [add_n; claim_n; finish_n])).1)) = Some StatusSuccess /\
  (Stats ∘ scanScope <$> d_scopes (g_db (play collected_ops).1) !! "s"%string) = Some (mkStats 1 0 0 0 0 1 0 false false 0) /\
  rows (g_db (play collected_ops).1) = [].
Proof. vm_compute. by split_and!. Qed.

(** ** Settling *)

(** The first edge ends [n1], whose failure satisfies the edge into [n2]; the
    snapshot of [n2] is older. *)
Definition stale_ops : list op :=
  [OAddNodes "s" [node "f" TriggerAllSuccess []; node "g" TriggerAllSuccess []; node "n1" TriggerAllSuccess ["g"%string];
                  node "n2" TriggerAllDone []];
   OCancel "s" ["f"%string];
   OAddEdges "s" [mkEdge "f" "n1"; mkEdge "n1" "n2"]].

(** [settleTouched] notices a stale copy only when a cascade produced an
    effect for another node.  A cascade that resolves the last dependency of a
    node still to be settled produces none, and the node is settled on the old
    tally: it is left blocked although its rule is satisfied, and nothing will
    ever make it ready. *)
Lemma pg_settle_leaves_ready_node_blocked :
  (fun r => (n_Phase r, n_Deps r, Ready (n_Deps r) (n_Trigger r))) <$> find_ext "s" "n2" (g_db (play stale_ops).1) =
  Some (PhaseBlocked, mkDeps 0 0 0 1, true).
Proof. vm_compute. done. Qed.

(** ** Migrations and specifications *)

(** the outcome of the first migration is cached, an error too: after one
    failed statement every later call fails with the same error, although the
    server has recovered. *)
Lemma pg_migration_error_sticks :
  let t := (run zeroConfig never [add_n] (pg_init (mkScript 1000 [Some "57014"%string] []))).1 in
  (exec_op zeroConfig never add_n t).2 = inr (SqlError "57014") /\ sv_faults (g_c t) = [].
Proof. vm_compute. by split. Qed.

(** [RetryPolicy.MaxAttempts] is stored saturated at the largest [integer]
    but compared unsaturated: adding the same specification again, which is
    meant to change nothing, is refused as a conflict when it asks for more
    attempts than that. *)
Lemma pg_readding_spec_conflicts :
  let spec := mkSpec "n" "k" [] ∅ 0 TriggerAllSuccess (mkRetry (2 ^ 31) 0 0) [] in
  let t := (play [OAddNodes "s" [spec]]).1 in
  (exec_op zeroConfig never (OAddNodes "s" [spec]) t).2 = inr (Domain (Err ErrIDConflict)) /\
  NodeSpec_Validate spec = None.
Proof. vm_compute. by split. Qed.

(** ** Watching and listening *)

(** Resuming from the largest cursor an [int64] holds, or beyond, starts the
    pump at the smallest: the whole log is delivered again. *)
Lemma pg_watch_wraps from :
  (max_i64 <= from)%Z ->
  (watch_start zeroConfig (mkWatch "s" from false) (play [add_n]).1).2 = inl (- 2 ^ 63)%Z.
Proof.
  intros Hf. assert (Hw : i64 (widenI64 from + 1) = (- 2 ^ 63)%Z).
  { unfold widenI64. split_cmp; [done|]. assert (from = max_i64) as -> by lia. reflexivity. }
  unfold watch_start. cbn [wr_From wr_Scope]. rewrite (proj2 (Z.ltb_lt 0 from)) by (unfold max_i64 in Hf; lia). rewrite Hw.
  vm_compute. done.
Qed.

(** The pause of the listening goroutine is doubled while it is below
    [maxBackoff], and so exceeds it: seven failures lead to 6.4 s. *)
Lemma listener_exceeds_maxBackoff :
  let broken := mkTurn false (mkConn false false [] false) false in
  last (snd (listen_run (replicate 7 broken) startBackoff newNotifier)) = Some 6400000000%Z /\ (maxBackoff < 6400000000)%Z.
Proof. vm_compute. by split. Qed.
