(* ===== verification/RedisData.v ===== *)
(** * The data of the Redis backend

    [storage/redis/encode.go], [keys.go] and [errors.go], the keys of one scope
    as a record, and the monad of the Lua scripts.

    A Redis hash, set or sorted set exists exactly while it has an entry, so a
    family of them, one per node or kind, is one map from the pair of owner and
    entry.  A Lua number is a double and a stored field is its decimal text:
    both are integers here, exact while counters, ranks and instants in
    milliseconds stay below 2^53. *)
From S2P Require Import Prelude Types GoText Config Scope.
From stdpp Require Import pretty.

(** ** Conversions ([encode.go]) *)

Definition durToMs (d : Z) : Z := Z.quot d Millisecond.
Definition msToDur (ms : Z) : Z := i64 (ms * Millisecond).
Definition msToTime (ms : Z) : Time := if (ms =? 0)%Z then TimeZero else TimeUnix (ms * Millisecond).

(** [strconv.ParseInt] and [ParseUint] of a decimal text, the error ignored: out
    of range is the nearest bound, and a sign is no digit of a uint. *)
Definition atoi64 (v : Z) : Z := Z.max min_i64 (Z.min v max_i64).
Definition atou64 (v : Z) : Z := if (v <? 0)%Z then 0%Z else Z.min v max_u64.

Definition narrowU32 (v : Z) : Z :=
  if (v <? 0)%Z then 0%Z else if (max_u32 <? v)%Z then max_u32 else v.
Definition narrowI16 (v : Z) : Z := Z.max (- 2 ^ 15) (Z.min v (2 ^ 15 - 1)).
Definition narrowU64 (v : Z) : Z := if (v <? 0)%Z then 0%Z else v.
Definition widenU64 (v : Z) : Z := if (max_i64 <? v)%Z then max_i64 else v.

(** [encoding/json] on a map of strings. *)
Class Json := {
  json_Marshal : gmap string string -> string;
  json_Unmarshal : string -> gmap string string;
  json_text m : json_Marshal m <> ""%string;
  json_roundtrip m : validateLabels m = None -> json_Unmarshal (json_Marshal m) = m
}.

Definition encodeLabels `{!Json} (labels : gmap string string) : string :=
  if bool_decide (labels = ∅) then ""%string else json_Marshal labels.

Definition decodeLabels `{!Json} (s : string) : gmap string string :=
  if bool_decide (s = ""%string) then ∅ else json_Unmarshal s.

(** ** Configuration *)

Definition fDefaultLeaseMs : string := "defaultLeaseMs".
Definition fMinLeaseMs : string := "minLeaseMs".
Definition fMaxLeaseMs : string := "maxLeaseMs".
Definition fMaxAttempts : string := "maxAttempts".
Definition fRetryBaseMs : string := "retryBaseMs".
Definition fRetryMaxMs : string := "retryMaxMs".
Definition fTerminalRetentionMs : string := "terminalRetentionMs".
Definition fMaxSubscriberLagMs : string := "maxSubscriberLagMs".
Definition fMaxInFlight : string := "maxInFlight".
Definition fPayloadCap : string := "payloadCap".
Definition fMaxBatchSize : string := "maxBatchSize".
Definition fSweepBatchSize : string := "sweepBatchSize".
Definition fSweepIntervalMs : string := "sweepIntervalMs".
Definition fPartitionCount : string := "partitionCount".

Definition cfgToHash (cfg : ScopeConfig) : gmap string Z :=
  list_to_map
    [(fDefaultLeaseMs, durToMs (c_DefaultLeaseTimeout cfg));
     (fMinLeaseMs, durToMs (c_MinLeaseTimeout cfg));
     (fMaxLeaseMs, durToMs (c_MaxLeaseTimeout cfg));
     (fMaxAttempts, c_MaxAttempts cfg);
     (fRetryBaseMs, durToMs (c_RetryBaseDelay cfg));
     (fRetryMaxMs, durToMs (c_RetryMaxDelay cfg));
     (fTerminalRetentionMs, durToMs (c_TerminalRetention cfg));
     (fMaxSubscriberLagMs, durToMs (c_MaxSubscriberLag cfg));
     (fMaxInFlight, c_MaxInFlight cfg);
     (fPayloadCap, c_PayloadCap cfg);
     (fMaxBatchSize, c_MaxBatchSize cfg);
     (fSweepBatchSize, c_SweepBatchSize cfg);
     (fSweepIntervalMs, durToMs (c_SweepInterval cfg));
     (fPartitionCount, c_PartitionCount cfg)].

(** [atoi64(m[f])]; a missing field is the empty text, which is 0. *)
Definition field (m : gmap string Z) (f : string) : Z := atoi64 (default 0%Z (m !! f)).

Definition hashToCfg (m : gmap string Z) : ScopeConfig :=
  mkConfig
    (msToDur (field m fDefaultLeaseMs)) (msToDur (field m fMinLeaseMs)) (msToDur (field m fMaxLeaseMs))
    (narrowU32 (field m fMaxAttempts)) (msToDur (field m fRetryBaseMs)) (msToDur (field m fRetryMaxMs))
    (msToDur (field m fTerminalRetentionMs)) (msToDur (field m fMaxSubscriberLagMs))
    (narrowU32 (field m fMaxInFlight)) (field m fPayloadCap) (field m fMaxBatchSize) 0
    (field m fSweepBatchSize) (msToDur (field m fSweepIntervalMs)) (narrowU32 (field m fPartitionCount)).

(** ** Keys ([keys.go] and the head of [lua_prelude.go]) *)

Definition key_prefix (keyspace scope : string) : string := ("{" ++ keyspace ++ scope ++ "}:")%string.

Inductive key :=
| KNode (id : string) | KBlob (id : string) | KSucc (id : string) | KPred (id : string)
| KReady (kind : string)
| KStats | KIdx | KKinds | KLeases | KSched | KCfg | KCursor | KNextOrd | KNextFifo | KEvents | KBell.

Definition key_suffix (k : key) : string :=
  match k with
  | KNode id => "n:" ++ id
  | KBlob id => "b:" ++ id
  | KSucc id => "s:" ++ id
  | KPred id => "p:" ++ id
  | KReady kind => "r:" ++ kind
  | KStats => "stats"
  | KIdx => "idx"
  | KKinds => "kinds"
  | KLeases => "leases"
  | KSched => "sched"
  | KCfg => "cfg"
  | KCursor => "cursor"
  | KNextOrd => "nextord"
  | KNextFifo => "nextfifo"
  | KEvents => "events"
  | KBell => "bell"
  end.

Definition key_name (keyspace scope : string) (k : key) : string := (key_prefix keyspace scope ++ key_suffix k)%string.

(** ** Error replies ([errors.go]) *)

Definition arg (args : list string) (i : nat) : string := default ""%string (args !! i).

Definition scriptSentinels (code : string) : option Sentinel :=
  list_to_map (M := gmap string Sentinel)
    [("NOTFOUND", ErrNotFound); ("NOTFOUND-FROM", ErrNotFound); ("NOTFOUND-TO", ErrNotFound);
     ("IDCONFLICT", ErrIDConflict); ("SEALED", ErrScopeSealed); ("TERMINAL", ErrAlreadyTerminal);
     ("HASSUCC", ErrHasSuccessors); ("INFLIGHT", ErrNodeInFlight); ("LEASEMISMATCH", ErrLeaseMismatch)]%string
  !! code.

(** The error an error reply stands for; [None] for one that is passed on as it
    is. *)
Definition mapScriptErr (scope msg : string) : option error :=
  match CutPrefix msg "DWERR " with
  | None => None
  | Some rest =>
    match Fields rest with
    | [] => None
    | code :: args =>
      match scriptSentinels code with
      | Some s => Some (Err s)
      | None =>
        if bool_decide (code = "BATCHSIZE"%string) then Some (InvalidArgumentError "specs")
        else if bool_decide (code = "PAYLOADCAP"%string)
        then Some (PayloadTooLargeError (Atoi (arg args 0)) (Atoi (arg args 1)))
        else if bool_decide (code = "CYCLE"%string) then Some (CycleError scope (arg args 0) (arg args 1) [])
        else if bool_decide (code = "CYCLESELF"%string) then Some (Err ErrCycle)
        else None
      end
    end
  end.

(** ** The keys of a scope *)

(** The hash [n:<id>].  The field [worker] is absent until the first claim, which
    reads as the empty text. *)
Record hnode := mkHash {
  h_kind : string;
  h_status : Status;
  h_phase : Phase;
  h_reason : Reason;
  h_message : string;
  h_priority : Z;
  h_trigger : TriggerRule;
  h_retryMaxAttempts : Z;
  h_retryBaseMs : Z;
  h_retryMaxMs : Z;
  h_attempt : Z;
  h_epoch : Z;
  h_seq : Z;
  h_createdAt : Z;
  h_updatedAt : Z;
  h_ord : Z;
  h_deadline : Z;
  h_readyAt : Z;
  h_fifo : Z;
  h_deps : DepCounts;       (* depsUnsatisfied, depsSucceeded, depsSkipped, depsFailed *)
  h_worker : string
}.

#[export] Instance hnode_eta : Eta hnode := fun h =>
  mkHash (h_kind h) (h_status h) (h_phase h) (h_reason h) (h_message h) (h_priority h)
    (h_trigger h) (h_retryMaxAttempts h) (h_retryBaseMs h) (h_retryMaxMs h) (h_attempt h) (h_epoch h)
    (h_seq h) (h_createdAt h) (h_updatedAt h) (h_ord h) (h_deadline h) (h_readyAt h) (h_fifo h)
    (h_deps h) (h_worker h).

(** The hash [b:<id>]. *)
Record blob := mkBlob { b_payload : bytes; b_result : bytes; b_labels : string }.

#[export] Instance blob_eta : Eta blob := fun b => mkBlob (b_payload b) (b_result b) (b_labels b).

Record keys := mkKeys {
  k_node : gmap string hnode;
  k_blob : gmap string blob;
  k_succ : gset (string * string);          (* (from, to): [to] is in the set s:from *)
  k_pred : gmap (string * string) bool;     (* (to, from): the field [from] of the hash p:to *)
  k_ready : gmap (string * string) Z;       (* (kind, id): the score of [id] in r:kind *)
  k_stats : gmap string Z;
  k_idx : gset string;
  k_kinds : gset string;
  k_leases : gmap string Z;
  k_sched : gmap string Z;
  k_cfg : gmap string Z;                    (* the hash cfg, but for its field [sealed] *)
  k_sealed : bool;
  k_cursor : Z;
  k_nextord : Z;
  k_nextfifo : Z;
  k_events : list Event;                    (* the stream; an entry's ID is "<cursor>-0" *)
  k_rung : nat                              (* messages published on the bell *)
}.

#[export] Instance keys_eta : Eta keys := fun k =>
  mkKeys (k_node k) (k_blob k) (k_succ k) (k_pred k) (k_ready k) (k_stats k) (k_idx k) (k_kinds k)
    (k_leases k) (k_sched k) (k_cfg k) (k_sealed k) (k_cursor k) (k_nextord k) (k_nextfifo k)
    (k_events k) (k_rung k).

Definition noKeys : keys := mkKeys ∅ ∅ ∅ ∅ ∅ ∅ ∅ ∅ ∅ ∅ ∅ false 0 0 0 [] 0.

(** ** The server and the monad of a script

    What the sources do not fix: the clock ([TIME]) and [math.random], the order
    in which the members of a set or hash are returned, how many old entries
    [XADD .. MAXLEN ~] trims, and how a command fares: the client sends it again
    when the connection fails, so it is executed some number of times without an
    answer, and then answered, or given up. *)

Inductive delivery := Answered (retries : nat) | Lost (executions : nat).

Class RedisServer (C : Type) := {
  rs_clock :: ClockSource C;
  rs_order : list string -> C -> list string * C;
  rs_order_perm l c : fst (rs_order l c) ≡ₚ l;
  rs_trim : C -> nat * C;
  rs_delivery : C -> delivery * C
}.

(** How a script stops early: with an error reply; with a Lua error, arithmetic
    or comparison on a missing field; by leaving a hash with some of its fields
    only, which [hnode] cannot hold; or, in the model, without fuel. *)
Inductive lerror :=
| ErrorReply (msg : string)
| NilError
| Torn
| NoFuel.

(** A script at work: the server, the keys of its scope, the table [EFFECTS]. *)
Record lst (C : Type) := mkLst { l_c : C; l_k : keys; l_effects : list Effect }.
Arguments mkLst {C}.
Arguments l_c {C}.
Arguments l_k {C}.
Arguments l_effects {C}.

#[export] Instance lst_eta {C} : Eta (lst C) := fun t => mkLst (l_c t) (l_k t) (l_effects t).

Definition L (C A : Type) : Type := lst C -> lst C * (A + lerror).

#[export] Instance L_ret {C} : MRet (L C) := fun A a t => (t, inl a).
#[export] Instance L_bind {C} : MBind (L C) := fun A B f m t =>
  match m t with
  | (t, inl a) => f a t
  | (t, inr e) => (t, inr e)
  end.

Section Monad.
Context {C : Type}.

Definition fail {A : Type} (e : lerror) : L C A := fun t => (t, inr e).
Definition error_reply {A : Type} (msg : string) : L C A := fail (ErrorReply msg).
Definition read {A : Type} (f : keys -> A) : L C A := fun t => (t, inl (f (l_k t))).
Definition write (f : keys -> keys) : L C unit := fun t => (t <| l_k ::= f |>, inl tt).

(** A loop over a Lua array. *)
Fixpoint each {A : Type} (l : list A) (f : A -> L C unit) : L C unit :=
  match l with
  | [] => mret tt
  | x :: l => f x ;; each l f
  end.

(** The value of a field that arithmetic or a comparison needs. *)
Definition need {A : Type} (o : option A) : L C A := match o with Some a => mret a | None => fail NilError end.

(** HSET or HINCRBY on fields of an existing node. *)
Definition set_node (id : string) (f : hnode -> hnode) : L C unit := fun t =>
  match k_node (l_k t) !! id with
  | Some h => (t <| l_k ::= fun k => k <| k_node ::= <[id := f h]> |> |>, inl tt)
  | None => (t, inr Torn)
  end.

Context `{!RedisServer C}.

Definition any_order (l : list string) : L C (list string) := fun t =>
  let '(l, c) := rs_order l (l_c t) in (t <| l_c := c |>, inl l).

(** SMEMBERS of [s:<id>], HKEYS of [p:<id>]. *)
Definition succs_of (k : keys) (id : string) : list string :=
  snd <$> filter (fun e => e.1 = id) (elements (k_succ k)).
Definition preds_of (k : keys) (id : string) : list string :=
  snd <$> filter (fun e => e.1 = id) (map_to_list (k_pred k)).*1.

Definition smembers_succ (id : string) : L C (list string) := l ← read (fun k => succs_of k id); any_order l.
Definition hkeys_pred (id : string) : L C (list string) := l ← read (fun k => preds_of k id); any_order l.

End Monad.

(** A sorted set in the order of ZRANGE: by score, then by member. *)
Definition z_before (a b : string * Z) : Prop := (a.2 < b.2)%Z \/ (a.2 = b.2 /\ String.le a.1 b.1).

#[export] Instance z_before_dec : RelDecision z_before.
Proof. unfold z_before. solve_decision. Defined.

Definition zrange (z : gmap string Z) : list (string * Z) := merge_sort z_before (map_to_list z).

(** The sorted set [r:<kind>]. *)
Definition ready_of (k : keys) (kind : string) : list (string * Z) :=
  merge_sort z_before ((fun e => (e.1.2, e.2)) <$> filter (fun e => e.1.1 = kind) (map_to_list (k_ready k))).

(** ZRANGEBYLEX of the index, all of whose scores are 0. *)
Definition idx_of (k : keys) : list string := merge_sort String.le (elements (k_idx k)).
