(* ===== verification/RedisScripts.v ===== *)
(** * The Lua prelude of the Redis backend: [storage/redis/lua_prelude.go]

    The functions every script shares, in the order of the source.  A function
    of the prelude takes the prefix [p] of its scope's keys; here the keys of
    the scope are the state. *)
From S2P Require Import Prelude Types GoText Config Scope RedisData.
From stdpp Require Import pretty.

Definition DEFAULT_RETRY_BASE_MS : Z := 1000.
Definition DEFAULT_RETRY_MAX_MS : Z := 300000.
Definition DEFAULT_MAX_ATTEMPTS : Z := 3.
Definition PROMOTE_CAP : nat := Z.to_nat 10000.

(** ** Scores and buckets *)

Definition PRIORITY_BIAS : Z := 32768.
Definition FIFO_SCALE : Z := 4294967296.

Definition packScore (priority fifo : Z) : Z :=
  ((65535 - (priority + PRIORITY_BIAS)) * FIFO_SCALE + fifo)%Z.

Definition bucketField (p : Phase) (s : Status) : string :=
  match p with
  | PhaseBlocked => "Blocked"
  | PhaseScheduled => "Scheduled"
  | PhaseReady => "Ready"
  | PhaseClaimed => "InProgress"
  | PhaseDone => if bool_decide (s = StatusSuccess) then "Succeeded" else "Failed"
  end.

Definition stat (m : gmap string Z) (f : string) : Z := default 0%Z (m !! f).

Definition hincr (f : string) (d : Z) (m : gmap string Z) : gmap string Z := <[f := (stat m f + d)%Z]> m.

Definition terminalMessage (r : Reason) : string :=
  match r with
  | ReasonUpstreamFailed => "a predecessor failed and the trigger rule can no longer be satisfied"
  | ReasonSkipped => "the trigger rule can no longer be satisfied"
  | ReasonRemoved => "a predecessor was removed"
  | ReasonCancelled => "cancelled"
  | _ => ""
  end.

(** ** Trigger rules *)

Definition depsReady (trigger : TriggerRule) (unsat succ skip fail : Z) : bool :=
  if bool_decide (trigger = TriggerAlways) then true
  else if (0 <? unsat)%Z then false
  else match trigger with
       | TriggerAllSuccess => (fail =? 0)%Z && (skip =? 0)%Z
       | TriggerAllDone => true
       | TriggerNoneFailed => (fail =? 0)%Z
       | TriggerNoneFailedMinOneSuccess => (fail =? 0)%Z && (0 <? succ)%Z
       | _ => false
       end.

Definition depsUnsatisfiable (trigger : TriggerRule) (unsat succ skip fail : Z) : bool :=
  match trigger with
  | TriggerAlways | TriggerAllDone => false
  | TriggerAllSuccess => (0 <? fail)%Z || (0 <? skip)%Z
  | TriggerNoneFailed => (0 <? fail)%Z
  | TriggerNoneFailedMinOneSuccess => (0 <? fail)%Z || ((unsat =? 0)%Z && (succ =? 0)%Z)
  | TriggerOther _ => false
  end.

Definition depsTerminalReason (fail : Z) : Reason :=
  if (0 <? fail)%Z then ReasonUpstreamFailed else ReasonSkipped.

(** The two rules on the fields of a node. *)
Definition rule_lost (h : hnode) : bool :=
  let t := h_deps h in
  depsUnsatisfiable (h_trigger h) (Unsatisfied t) (Succeeded t) (Skipped t) (Failed t).
Definition rule_met (h : hnode) : bool :=
  let t := h_deps h in depsReady (h_trigger h) (Unsatisfied t) (Succeeded t) (Skipped t) (Failed t).

(** ** Tallies *)

(** [HINCRBY field d] on the field a resolved predecessor counts in. *)
Definition bump_dep (st : option Status) (rs : option Reason) (d : Z) (t : DepCounts) : DepCounts :=
  if bool_decide (st = Some StatusSuccess) then t <| Succeeded ::= Z.add d |>
  else if bool_decide (rs = Some ReasonSkipped) then t <| Skipped ::= Z.add d |>
  else t <| Failed ::= Z.add d |>.

(** [if cur > 0 then HINCRBY depsUnsatisfied -1]. *)
Definition drop_unsat (t : DepCounts) : DepCounts :=
  t <| Unsatisfied ::= fun n => if (0 <? n)%Z then (n - 1)%Z else n |>.

(** The same guard on the field a resolved predecessor counts in. *)
Definition drop_dep (st : option Status) (rs : option Reason) (t : DepCounts) : DepCounts :=
  let cur := if bool_decide (st = Some StatusSuccess) then Succeeded t
             else if bool_decide (rs = Some ReasonSkipped) then Skipped t else Failed t in
  if (0 <? cur)%Z then bump_dep st rs (-1) t else t.

(** ** Back-off *)

Fixpoint window_loop (n : nat) (window maxDelay : Z) : Z :=
  match n with
  | O => window
  | S n => if (maxDelay <=? 2 * window)%Z then maxDelay else window_loop n (window * 2)%Z maxDelay
  end.

Definition backoffWindow (attempt base maxDelay : Z) : Z :=
  let attempt := if (attempt =? 0)%Z then 1%Z else attempt in
  let base := if (base <=? 0)%Z then DEFAULT_RETRY_BASE_MS else base in
  let maxDelay := if (maxDelay <=? 0)%Z then DEFAULT_RETRY_MAX_MS else maxDelay in
  Z.min (window_loop (Z.to_nat (attempt - 1)) base maxDelay) maxDelay.

(** A missing or zero value means the default. *)
Definition orDefault (v : option Z) (def : Z) : Z :=
  match v with
  | None => def
  | Some v => if (v =? 0)%Z then def else v
  end.

(** ** The searches of the topological order *)

Definition ord_of (k : keys) (id : string) : option Z := h_ord <$> k_node k !! id.

Inductive scanned :=
| Scanned (visited : gset string) (delta : list string)
| FoundStop
| NoOrd.

(** The loop over the neighbours [ws] of a node: [stop] is [x] in the forward
    search, [ok] the bound on the rank. *)
Fixpoint scan (k : keys) (stop : option string) (ok : Z -> bool) (ws : list string)
    (visited : gset string) (delta : list string) : scanned :=
  match ws with
  | [] => Scanned visited delta
  | w :: ws =>
    if bool_decide (Some w = stop) then FoundStop
    else if bool_decide (w ∈ visited) then scan k stop ok ws visited delta
    else match ord_of k w with
         | None => NoOrd
         | Some ow => if ok ow then scan k stop ok ws ({[w]} ∪ visited) (delta ++ [w])
                      else scan k stop ok ws visited delta
         end
  end.

Inductive order_result := Fast | CycleFound | Reordered.

#[export] Instance order_result_eq_dec : EqDecision order_result.
Proof. solve_decision. Defined.

Definition ord_before (k : keys) (a b : string) : Prop :=
  (default 0 (ord_of k a) <= default 0 (ord_of k b))%Z.

#[export] Instance ord_before_dec k : RelDecision (ord_before k).
Proof. unfold ord_before. solve_decision. Defined.

Section Lua.
Context {C : Type} `{!RedisServer C}.

(** ** Clock, counters, events *)

Definition nowMs : L C Z := fun t =>
  let '(now, c) := clk_Now (l_c t) in (t <| l_c := c |>, inl (now / Millisecond)%Z).

Definition random_below (n : Z) : L C Z := fun t =>
  let '(v, c) := clk_Jitter n (l_c t) in (t <| l_c := c |>, inl v).

Definition adjustBucket (p : Phase) (s : Status) (delta : Z) : L C unit :=
  write (fun k => k <| k_stats ::= hincr (bucketField p s) delta |>).

Definition pushEffect (ef : Effect) : L C unit := fun t => (t <| l_effects ::= fun l => l ++ [ef] |>, inl tt).

(** [XADD .. MAXLEN ~ 20000]: the server may trim entries beyond the newest 20000. *)
Definition xadd (ev : Event) : L C unit := fun t =>
  let '(n, c) := rs_trim (l_c t) in
  (t <| l_c := c |>
     <| l_k ::= fun k => k <| k_events ::= fun l => drop (n `min` (length l + 1 - Z.to_nat 20000)) (l ++ [ev]) |> |>,
   inl tt).

Definition recordEvent (id : string) (kind : EventKind) (from to : Status) (reason : Reason)
    (message : string) (attempt : Z) (nodeKind : string) (atMs : Z) : L C unit :=
  set_node id (fun h => h <| h_seq ::= Z.succ |>) ;;
  seq ← read (fun k => default 0%Z (h_seq <$> k_node k !! id));
  write (fun k => k <| k_cursor ::= Z.succ |>) ;;
  cursor ← read k_cursor;
  xadd (mkEvent kind "" id seq cursor from to reason message attempt nodeKind (msToTime atMs) false) ;;
  pushEffect (mkEffect id kind from to reason message attempt nodeKind seq cursor (msToTime atMs)).

(** ** Phase transitions *)

Definition makeReady (id kind : string) (priority : Z) (oldPhase : Phase) (oldStatus : Status) : L C unit :=
  adjustBucket oldPhase oldStatus (-1) ;;
  write (fun k => k <| k_sched ::= delete id |> <| k_nextfifo ::= Z.succ |>) ;;
  fifo ← read k_nextfifo;
  write (fun k => k <| k_kinds ::= union {[kind]} |> <| k_ready ::= <[(kind, id) := packScore priority fifo]> |>) ;;
  set_node id (fun h => h <| h_phase := PhaseReady |> <| h_status := StatusNew |> <| h_fifo := fifo |>
                          <| h_readyAt := 0%Z |>) ;;
  adjustBucket PhaseReady StatusNew 1 ;;
  write (fun k => k <| k_rung ::= S |>).

Definition makeBlocked (id kind : string) (oldPhase : Phase) (oldStatus : Status) : L C unit :=
  adjustBucket oldPhase oldStatus (-1) ;;
  write (fun k => k <| k_ready ::= delete (kind, id) |> <| k_sched ::= delete id |>) ;;
  set_node id (fun h => h <| h_phase := PhaseBlocked |> <| h_status := StatusNew |> <| h_readyAt := 0%Z |>) ;;
  adjustBucket PhaseBlocked StatusNew 1.

Definition scheduleRetry (id kind : string) (atMs : Z) (oldPhase : Phase) (oldStatus : Status) : L C unit :=
  adjustBucket oldPhase oldStatus (-1) ;;
  write (fun k => k <| k_ready ::= delete (kind, id) |>) ;;
  set_node id (fun h => h <| h_phase := PhaseScheduled |> <| h_status := StatusNew |> <| h_readyAt := atMs |>) ;;
  write (fun k => k <| k_sched ::= <[id := atMs]> |>) ;;
  adjustBucket PhaseScheduled StatusNew 1.

(** ** Edges *)

Definition hasEdge (from to : string) : L C bool := read (fun k => bool_decide (is_Some (k_pred k !! (to, from)))).

Definition markSatisfied (succId predId : string) (predStatus : Status) (predReason : Reason) : L C bool :=
  val ← read (fun k => k_pred k !! (succId, predId));
  match val with
  | None | Some true => mret false
  | Some false =>
    write (fun k => k <| k_pred ::= <[(succId, predId) := true]> |>) ;;
    set_node succId (fun h => h <| h_deps ::= fun t => bump_dep (Some predStatus) (Some predReason) 1 (drop_unsat t) |>) ;;
    mret true
  end.

Definition linkEdge (from to : string) : L C unit :=
  fn ← read (fun k => k_node k !! from);
  let satisfied := bool_decide (h_phase <$> fn = Some PhaseDone) in
  write (fun k => k <| k_pred ::= <[(to, from) := satisfied]> |> <| k_succ ::= union {[(from, to)]} |>) ;;
  set_node to (fun h => h <| h_deps ::= fun t =>
    if negb satisfied then t <| Unsatisfied ::= Z.add 1 |>
    else bump_dep (h_status <$> fn) (h_reason <$> fn) 1 t |>).

Definition unlinkEdge (from to : string) : L C bool :=
  val ← read (fun k => k_pred k !! (to, from));
  match val with
  | None => mret false
  | Some satisfied =>
    write (fun k => k <| k_pred ::= delete (to, from) |>) ;;
    fn ← read (fun k => k_node k !! from);
    write (fun k => k <| k_node ::= alter (fun h => h <| h_deps ::=
      if negb satisfied then drop_unsat else drop_dep (h_status <$> fn) (h_reason <$> fn) |>) to |>) ;;
    write (fun k => k <| k_succ ::= fun s => s ∖ {[(from, to)]} |>) ;;
    mret true
  end.

(** ** Topological order *)

(** The [while head <= #delta] loop; [None] is the early return on a cycle. *)
Fixpoint bfs (fuel : nat) (nbrs : string -> L C (list string)) (stop : option string) (ok : Z -> bool)
    (head : nat) (visited : gset string) (delta : list string) : L C (option (list string)) :=
  match fuel with
  | O => fail NoFuel
  | S fuel =>
    match delta !! head with
    | None => mret (Some delta)
    | Some n =>
      ws ← nbrs n;
      k ← read (fun k => k);
      match scan k stop ok ws visited delta with
      | Scanned visited delta => bfs fuel nbrs stop ok (S head) visited delta
      | FoundStop => mret None
      | NoOrd => fail NilError
      end
    end
  end.

Definition search_fuel (k : keys) : nat := S (S (size (k_node k))).

(** The ranks of the pool, handed out in order. *)
Definition assign (ids : list string) (pool : list Z) : L C unit :=
  each (zip ids pool) (fun iv => set_node iv.1 (fun h => h <| h_ord := iv.2 |>)).

Definition reorder (deltaB deltaF : list string) : L C unit :=
  k ← read (fun k => k);
  let rk id := default 0%Z (ord_of k id) in
  let sB := merge_sort (ord_before k) deltaB in
  let sF := merge_sort (ord_before k) deltaF in
  assign (sB ++ sF) (merge_sort Z.le ((rk <$> sB) ++ (rk <$> sF))).

Definition addEdgeOrder (x y : string) : L C order_result :=
  ordx ← read (fun k => ord_of k x);
  ordy ← read (fun k => ord_of k y);
  ordx ← need ordx;
  ordy ← need ordy;
  if (ordx <? ordy)%Z then mret Fast
  else
    fuel ← read search_fuel;
    deltaF ← bfs fuel smembers_succ (Some x) (fun ow => (ow <? ordx)%Z) 0 {[y]} [y];
    match deltaF with
    | None => mret CycleFound
    | Some deltaF =>
      deltaB ← bfs fuel hkeys_pred None (fun ow => (ordy <? ow)%Z) 0 {[x]} [x];
      match deltaB with
      | None => mret CycleFound
      | Some deltaB => reorder deltaB deltaF ;; mret Reordered
      end
    end.

(** ** Settle and terminate *)

Definition ending := (Status * Reason * string)%type.

(** One successor [w] of the node [id] that ended with [st] and [rs]: the queue
    and the tables [qStatus], [qReason], [qMsg] afterwards. *)
Definition fanout_one (id : string) (st : Status) (rs : Reason) (now : Z)
    (acc : list string * gmap string ending) (w : string) : L C (list string * gmap string ending) :=
  changed ← markSatisfied w id st rs;
  if negb changed then mret acc
  else
    wn ← read (fun k => k_node k !! w);
    match wn with
    | Some h =>
      match h_phase h with
      | PhaseBlocked | PhaseReady =>
        if rule_lost h then
          let r := depsTerminalReason (Failed (h_deps h)) in
          mret (acc.1 ++ [w], <[w := (StatusError, r, terminalMessage r)]> acc.2)
        else if rule_met h then
          if negb (bool_decide (h_phase h = PhaseReady)) then
            makeReady w (h_kind h) (h_priority h) (h_phase h) (h_status h) ;;
            recordEvent w EventReady StatusNew StatusNew ReasonNone "" 0 (h_kind h) now ;;
            mret acc
          else mret acc
        else mret acc
      | _ => mret acc
      end
    | None => mret acc
    end.

Fixpoint fanout (id : string) (st : Status) (rs : Reason) (now : Z) (ws : list string)
    (acc : list string * gmap string ending) : L C (list string * gmap string ending) :=
  match ws with
  | [] => mret acc
  | w :: ws => acc ← fanout_one id st rs now acc w; fanout id st rs now ws acc
  end.

(** The body for a node that has not ended yet. *)
Definition end_node (id : string) (h : hnode) (e : ending) (now : Z) : L C unit :=
  let '(st, rs, mg) := e in
  adjustBucket (h_phase h) (h_status h) (-1) ;;
  write (fun k => k <| k_ready ::= delete (h_kind h, id) |> <| k_sched ::= delete id |>
                    <| k_leases ::= delete id |>) ;;
  set_node id (fun h => h <| h_phase := PhaseDone |> <| h_status := st |> <| h_reason := rs |>
    <| h_message := mg |> <| h_deadline := 0%Z |> <| h_readyAt := 0%Z |> <| h_updatedAt := now |>) ;;
  adjustBucket PhaseDone st 1 ;;
  recordEvent id EventTransition (h_status h) st rs mg (h_attempt h) (h_kind h) now.

Fixpoint terminate_loop (fuel : nat) (queue : list string) (q : gmap string ending) (now : Z) : L C unit :=
  match fuel with
  | O => fail NoFuel
  | S fuel =>
    match queue with
    | [] => mret tt
    | id :: queue =>
      n ← read (fun k => k_node k !! id);
      match n with
      | Some h =>
        if bool_decide (h_phase h = PhaseDone) then terminate_loop fuel queue q now
        else
          e ← need (q !! id);
          end_node id h e now ;;
          succs ← smembers_succ id;
          acc ← fanout id e.1.1 e.1.2 now succs (queue, q);
          terminate_loop fuel acc.1 acc.2 now
      | None => terminate_loop fuel queue q now
      end
    end
  end.

Definition terminate_fuel (k : keys) : nat := S (S (size (k_pred k))).

Definition terminate (root : string) (st : Status) (rs : Reason) (msg : string) (now : Z) : L C unit :=
  fuel ← read terminate_fuel;
  terminate_loop fuel [root] {[root := (st, rs, msg)]} now.

Definition settle (id : string) (now : Z) : L C unit :=
  n ← read (fun k => k_node k !! id);
  match n with
  | None => mret tt
  | Some h =>
    match h_phase h with
    | PhaseBlocked | PhaseReady =>
      if rule_lost h then
        let r := depsTerminalReason (Failed (h_deps h)) in
        terminate id StatusError r (terminalMessage r) now
      else if rule_met h then
        if negb (bool_decide (h_phase h = PhaseReady)) then
          makeReady id (h_kind h) (h_priority h) (h_phase h) (h_status h) ;;
          recordEvent id EventReady StatusNew StatusNew ReasonNone "" 0 (h_kind h) now
        else mret tt
      else
        if negb (bool_decide (h_phase h = PhaseBlocked))
        then makeBlocked id (h_kind h) (h_phase h) (h_status h)
        else mret tt
    | _ => mret tt
    end
  end.

(** ** Attempts *)

Definition jitterMs (window : Z) : L C Z := if (window <=? 0)%Z then mret 0%Z else random_below window.

(** [true]: the node waits for another attempt. *)
Definition failAttempt (id : string) (reason : Reason) (msg : string) (now : Z) : L C bool :=
  n ← read (fun k => k_node k !! id);
  cfg ← read k_cfg;
  write (fun k => k <| k_leases ::= delete id |>) ;;
  set_node id (fun h => h <| h_deadline := 0%Z |>) ;;
  h ← need n;
  let or_node v d := if (0 <? v)%Z then v else d in
  let maxAttempts := or_node (h_retryMaxAttempts h) (orDefault (cfg !! fMaxAttempts) DEFAULT_MAX_ATTEMPTS) in
  let base := or_node (h_retryBaseMs h) (orDefault (cfg !! fRetryBaseMs) DEFAULT_RETRY_BASE_MS) in
  let maxDelay := or_node (h_retryMaxMs h) (orDefault (cfg !! fRetryMaxMs) DEFAULT_RETRY_MAX_MS) in
  if (maxAttempts <=? h_attempt h)%Z then terminate id StatusError reason msg now ;; mret false
  else
    delay ← jitterMs (backoffWindow (h_attempt h) base maxDelay);
    set_node id (fun h => h <| h_reason := reason |> <| h_message := msg |> <| h_updatedAt := now |>) ;;
    scheduleRetry id (h_kind h) (now + delay) (h_phase h) (h_status h) ;;
    recordEvent id EventTransition (h_status h) StatusNew reason msg (h_attempt h) (h_kind h) now ;;
    mret true.

(** [ZRANGEBYSCORE leases -inf now LIMIT 0 limit]; a negative limit is none. *)
Definition expired (k : keys) (now limit : Z) : list string :=
  let l := fst <$> filter (fun e => (e.2 <= now)%Z) (zrange (k_leases k)) in
  if (limit <? 0)%Z then l else take (Z.to_nat limit) l.

Definition timeoutMessage : string := "the worker did not acknowledge before the lease deadline".

Definition reclaimExpired (now limit : Z) : L C Z :=
  ids ← read (fun k => expired k now limit);
  each ids (fun id => _ ← failAttempt id ReasonTimeout timeoutMessage now; mret tt) ;;
  mret (Z.of_nat (length ids)).

Fixpoint promote_loop (n : nat) (now : Z) : L C unit :=
  match n with
  | O => mret tt
  | S n =>
    top ← read (fun k => head (zrange (k_sched k)));
    match top with
    | None => mret tt
    | Some (id, score) =>
      if (now <? score)%Z then mret tt
      else
        write (fun k => k <| k_sched ::= delete id |>) ;;
        o ← read (fun k => k_node k !! id);
        h ← need o;
        makeReady id (h_kind h) (h_priority h) (h_phase h) (h_status h) ;;
        recordEvent id EventReady StatusNew StatusNew ReasonNone "" 0 (h_kind h) now ;;
        promote_loop n now
    end
  end.

Definition promoteScheduled (now : Z) : L C unit := promote_loop PROMOTE_CAP now.

(** ** Node lifecycle *)

Definition retireEpoch (id : string) : L C unit :=
  e ← read (fun k => default 0%Z (h_epoch <$> k_node k !! id));
  floor ← read (fun k => stat (k_stats k) "EpochFloor");
  if (floor <? e)%Z then write (fun k => k <| k_stats ::= <["EpochFloor"%string := e]> |>) else mret tt.

(** DEL of the four keys of a node. *)
Definition del_keys (id : string) (k : keys) : keys :=
  k <| k_node ::= delete id |> <| k_blob ::= delete id |>
    <| k_succ ::= filter (fun e => e.1 <> id) |>
    <| k_pred ::= filter (fun e => e.1.1 <> id) |>.

Definition deleteNodeKeys (id : string) : L C unit :=
  retireEpoch id ;;
  write (fun k => del_keys id k <| k_idx ::= fun s => s ∖ {[id]} |>).

(** A specification as the scripts receive it. *)
Record lspec := mkLspec {
  ls_id : string;
  ls_kind : string;
  ls_priority : Z;
  ls_trigger : TriggerRule;
  ls_rma : Z;
  ls_rbd : Z;
  ls_rmd : Z;
  ls_payload : bytes;
  ls_labels : string;
  ls_deps : list string
}.

Definition createNode (s : lspec) (now : Z) : L C unit :=
  write (fun k => k <| k_nextord ::= Z.succ |>) ;;
  ordv ← read k_nextord;
  write (fun k => k
    <| k_node ::= <[ls_id s := mkHash (ls_kind s) StatusNew PhaseBlocked ReasonNone "" (ls_priority s)
         (ls_trigger s) (ls_rma s) (ls_rbd s) (ls_rmd s) 0
         (orDefault (k_stats k !! "EpochFloor"%string) 0) 0 now now ordv 0 0 0 (mkDeps 0 0 0 0) ""]> |>
    <| k_blob ::= <[ls_id s := mkBlob (ls_payload s) [] (ls_labels s)]> |>
    <| k_idx ::= union {[ls_id s]} |>
    <| k_stats ::= hincr "Total" 1 |>) ;;
  adjustBucket PhaseBlocked StatusNew 1.

Definition specMatches (k : keys) (s : lspec) : bool :=
  match k_node k !! ls_id s, k_blob k !! ls_id s with
  | Some h, Some b =>
    bool_decide (h_kind h = ls_kind s) && (h_priority h =? ls_priority s)%Z
    && bool_decide (h_trigger h = ls_trigger s) && (h_retryMaxAttempts h =? ls_rma s)%Z
    && (h_retryBaseMs h =? ls_rbd s)%Z && (h_retryMaxMs h =? ls_rmd s)%Z
    && bool_decide (b_payload b = ls_payload s) && bool_decide (b_labels b = ls_labels s)
  | _, _ => false
  end.

Definition rollbackBatch (createdIds : list string) (linkedEdges : list (string * string)) : L C unit :=
  each (reverse linkedEdges) (fun e => _ ← unlinkEdge e.1 e.2; mret tt) ;;
  each (reverse createdIds) (fun id =>
    adjustBucket PhaseBlocked StatusNew (-1) ;;
    write (fun k => k <| k_stats ::= hincr "Total" (-1) |>) ;;
    deleteNodeKeys id).

End Lua.

(** * The scripts of the Redis backend: [storage/redis/lua_scripts.go]

    One definition per script.  A script answers with its header, or ends with
    an error reply; the effects it returns beside the header are
    [l_effects] of the state it leaves.  [ARGV] is decoded already. *)

Definition dwerr (words : list string) : string := String.concat " " ("DWERR" :: words)%string.

(** [touch]. *)
Definition touch (touched : list string) (id : string) : list string :=
  if bool_decide (id ∈ touched) then touched else touched ++ [id].

(** [EXISTS n:<id>]. *)
Definition exists_node (k : keys) (id : string) : bool := bool_decide (is_Some (k_node k !! id)).

(** What [Claim] returns of a node it leased. *)
Record lgrant := mkGrant {
  lg_id : string;
  lg_epoch : Z;
  lg_deadline : Z;
  lg_node : hnode;
  lg_blob : option blob
}.

Section Scripts.
Context {C : Type} `{!RedisServer C}.

(** ** Graph *)

(** [rollbackBatch] and the error reply after it. *)
Definition abort {A : Type} (created : list string) (linked : list (string * string)) (msg : string) : L C A :=
  rollbackBatch created linked ;; error_reply msg.

Fixpoint create_specs (specs : list lspec) (created : list string) (now : Z) : L C (list string) :=
  match specs with
  | [] => mret created
  | s :: specs =>
    k ← read (fun k => k);
    if exists_node k (ls_id s) then
      if specMatches k s then create_specs specs created now
      else abort created [] (dwerr ["IDCONFLICT"; ls_id s])
    else
      createNode s now ;;
      create_specs specs (created ++ [ls_id s]) now
  end.

(** The dependencies [deps] of the specification [id]; the edges linked so far. *)
Fixpoint link_deps (id : string) (deps : list string) (created : list string)
    (linked : list (string * string)) : L C (list (string * string)) :=
  match deps with
  | [] => mret linked
  | dep :: deps =>
    k ← read (fun k => k);
    if negb (exists_node k dep) then abort created linked (dwerr ["NOTFOUND"; id; dep])
    else
      present ← hasEdge dep id;
      if (present : bool) then link_deps id deps created linked
      else if bool_decide (h_phase <$> k_node k !! id = Some PhaseDone) then
        abort created linked (dwerr ["TERMINAL"; id])
      else
        res ← addEdgeOrder dep id;
        if bool_decide (res = CycleFound) then abort created linked (dwerr ["CYCLE"; dep; id])
        else
          linkEdge dep id ;;
          link_deps id deps created (linked ++ [(dep, id)])
  end.

Fixpoint link_specs (specs : list lspec) (created : list string)
    (linked : list (string * string)) : L C (list (string * string)) :=
  match specs with
  | [] => mret linked
  | s :: specs =>
    linked ← link_deps (ls_id s) (ls_deps s) created linked;
    link_specs specs created linked
  end.

Definition settle_all (ids : list string) (now : Z) : L C unit := each ids (fun id => settle id now).

Definition record_created (now : Z) (id : string) : L C unit :=
  kind ← read (fun k => default ""%string (h_kind <$> k_node k !! id));
  recordEvent id EventCreated StatusNew StatusNew ReasonNone "" 0 kind now.

Definition scriptAddNodes (p : string) (maxBatch : Z) (specs : list lspec) : L C unit :=
  sealed ← read k_sealed;
  if (sealed : bool) then error_reply (dwerr ["SEALED"; p])
  else if (maxBatch <? Z.of_nat (length specs))%Z then
    error_reply (dwerr ["BATCHSIZE"; pretty (Z.of_nat (length specs)); pretty maxBatch])
  else
    now ← nowMs;
    created ← create_specs specs [] now;
    _ ← link_specs specs created [];
    each created (record_created now) ;;
    settle_all (foldl touch [] (ls_id <$> specs)) now.

(** The edges still to add, and what [linkedEdges] and [touched] hold. *)
Fixpoint add_edges (edges : list (string * string)) (linked : list (string * string))
    (touched : list string) : L C (list string) :=
  match edges with
  | [] => mret touched
  | (from, to) :: edges =>
    k ← read (fun k => k);
    if negb (exists_node k from) then abort [] linked (dwerr ["NOTFOUND-FROM"; from])
    else if negb (exists_node k to) then abort [] linked (dwerr ["NOTFOUND-TO"; to])
    else if bool_decide (from = to) then abort [] linked (dwerr ["CYCLESELF"; from])
    else
      present ← hasEdge from to;
      if (present : bool) then add_edges edges linked touched
      else if bool_decide (h_phase <$> k_node k !! to = Some PhaseDone) then
        abort [] linked (dwerr ["TERMINAL"; to])
      else
        res ← addEdgeOrder from to;
        if bool_decide (res = CycleFound) then abort [] linked (dwerr ["CYCLE"; from; to])
        else
          linkEdge from to ;;
          add_edges edges (linked ++ [(from, to)]) (touch touched to)
  end.

Definition scriptAddEdges (edges : list (string * string)) : L C unit :=
  now ← nowMs;
  touched ← add_edges edges [] [];
  settle_all touched now.

Fixpoint remove_edges (edges : list (string * string)) (touched : list string) : L C (list string) :=
  match edges with
  | [] => mret touched
  | (from, to) :: edges =>
    k ← read (fun k => k);
    if negb (exists_node k from) then error_reply (dwerr ["NOTFOUND-FROM"; from])
    else if negb (exists_node k to) then error_reply (dwerr ["NOTFOUND-TO"; to])
    else
      was ← unlinkEdge from to;
      remove_edges edges (if (was : bool) then touch touched to else touched)
  end.

Definition scriptRemoveEdges (edges : list (string * string)) : L C unit :=
  now ← nowMs;
  touched ← remove_edges edges [];
  settle_all touched now.

Definition scriptRemoveNode (id : string) (policy : CascadePolicy) : L C unit :=
  now ← nowMs;
  n ← read (fun k => k_node k !! id);
  match n with
  | None => error_reply (dwerr ["NOTFOUND"; id])
  | Some h0 =>
    if bool_decide (h_phase h0 = PhaseClaimed) then error_reply (dwerr ["INFLIGHT"; id])
    else
      succs ← smembers_succ id;
      match succs, policy with
      | _ :: _, CascadeReject => error_reply (dwerr ["HASSUCC"; id; pretty (Z.of_nat (length succs))])
      | _, _ =>
        (if bool_decide (policy = CascadeFail) then
           each succs (fun w => terminate w StatusError ReasonRemoved (terminalMessage ReasonRemoved) now)
         else mret tt) ;;
        h ← (n ← read (fun k => k_node k !! id); need n);
        each succs (fun w => _ ← unlinkEdge id w; mret tt) ;;
        preds ← hkeys_pred id;
        each preds (fun q => _ ← unlinkEdge q id; mret tt) ;;
        write (fun k => k <| k_ready ::= delete (h_kind h, id) |> <| k_sched ::= delete id |>
                          <| k_leases ::= delete id |>) ;;
        adjustBucket (h_phase h0) (h_status h) (-1) ;;
        write (fun k => k <| k_stats ::= hincr "Total" (-1) |>) ;;
        deleteNodeKeys id ;;
        if bool_decide (policy = CascadeDetach) then settle_all succs now else mret tt
      end
  end.

(** ** Cancelling *)

(** The loop of both cancelling scripts; a missing node is passed over, which in
    [Cancel] cannot be. *)
Definition cancel_one (now : Z) (id : string) : L C unit :=
  n ← read (fun k => k_node k !! id);
  match n with
  | Some h =>
    if bool_decide (h_phase h = PhaseDone) then mret tt
    else terminate id StatusError ReasonCancelled (terminalMessage ReasonCancelled) now
  | None => mret tt
  end.

Definition scriptCancelNodes (ids : list string) : L C unit :=
  k ← read (fun k => k);
  match filter (fun id => exists_node k id = false) ids with
  | id :: _ => error_reply (dwerr ["NOTFOUND"; id])
  | [] => now ← nowMs; each ids (cancel_one now)
  end.

Definition scriptCancelScope : L C unit :=
  now ← nowMs;
  ids ← read idx_of;
  each ids (cancel_one now).

(** ** Leases *)

(** The head of each kind's ready set, and the lowest of them: the first kind
    wins a tie. *)
Definition best_head (k : keys) (kinds : list string) : option (string * string * Z) :=
  foldl (fun best kind =>
    match head (ready_of k kind) with
    | None => best
    | Some (id, score) =>
      match best with
      | Some (_, _, s) => if (score <? s)%Z then Some (kind, id, score) else best
      | None => Some (kind, id, score)
      end
    end) None kinds.

(** The limit on the nodes in flight has been reached. *)
Definition saturated (k : keys) (maxInFlight : Z) : bool :=
  (0 <? maxInFlight)%Z
  && match k_stats k !! "InProgress"%string with Some n => (maxInFlight <=? n)%Z | None => false end.

Definition grant_one (kind id : string) (leaseMs : Z) (workerId : string) (now : Z) : L C lgrant :=
  write (fun k => k <| k_ready ::= delete (kind, id) |>) ;;
  n ← read (fun k => k_node k !! id);
  match n with
  | None => fail Torn
  | Some h =>
    let epoch := (h_epoch h + 1)%Z in
    let attempt := (h_attempt h + 1)%Z in
    let deadline := (now + leaseMs)%Z in
    adjustBucket (h_phase h) (h_status h) (-1) ;;
    set_node id (fun h => h <| h_phase := PhaseClaimed |> <| h_status := StatusInProgress |>
      <| h_epoch := epoch |> <| h_attempt := attempt |> <| h_updatedAt := now |>
      <| h_deadline := deadline |> <| h_worker := workerId |>) ;;
    adjustBucket PhaseClaimed StatusInProgress 1 ;;
    write (fun k => k <| k_leases ::= <[id := deadline]> |>) ;;
    recordEvent id EventTransition (h_status h) StatusInProgress ReasonNone "" attempt kind now ;;
    k ← read (fun k => k);
    h ← need (k_node k !! id);
    mret (mkGrant id epoch deadline h (k_blob k !! id))
  end.

Fixpoint claim_loop (n : nat) (kinds : list string) (leaseMs maxInFlight : Z) (workerId : string)
    (now : Z) (leases : list lgrant) : L C (list lgrant) :=
  match n with
  | O => mret leases
  | S n =>
    k ← read (fun k => k);
    if saturated k maxInFlight then mret leases
    else match best_head k kinds with
         | None => mret leases
         | Some (kind, id, _) =>
           g ← grant_one kind id leaseMs workerId now;
           claim_loop n kinds leaseMs maxInFlight workerId now (leases ++ [g])
         end
  end.

Definition scriptClaim (kinds : list string) (maxN leaseMs sweepBatch maxInFlight : Z)
    (workerId : string) : L C (list lgrant) :=
  now ← nowMs;
  _ ← reclaimExpired now sweepBatch;
  promoteScheduled now ;;
  kinds ← match kinds with
          | [] => l ← read (fun k => elements (k_kinds k)); any_order l
          | _ => mret kinds
          end;
  claim_loop (Z.to_nat maxN) kinds leaseMs maxInFlight workerId now [].

(** Whether another attempt follows, and when. *)
Definition scriptComplete (id : string) (presentedEpoch : Z) (success : bool) (reason : Reason)
    (message : string) (result : bytes) (payloadCap : Z) : L C (bool * Z) :=
  n ← read (fun k => k_node k !! id);
  match n with
  | None => error_reply (dwerr ["NOTFOUND"; id])
  | Some h =>
    if negb (bool_decide (h_phase h = PhaseClaimed)) || negb (h_epoch h =? presentedEpoch)%Z then
      error_reply (dwerr ["LEASEMISMATCH"; id; pretty (h_epoch h); pretty presentedEpoch])
    else
      now ← nowMs;
      if success then
        if (payloadCap <? Z.of_nat (length result))%Z then
          error_reply (dwerr ["PAYLOADCAP"; pretty (Z.of_nat (length result)); pretty payloadCap])
        else
          b ← read (fun k => k_blob k !! id);
          match b with
          | None => fail Torn
          | Some b =>
            write (fun k => k <| k_blob ::= <[id := b <| b_result := result |>]> |>) ;;
            terminate id StatusSuccess ReasonNone "" now ;;
            mret (false, 0%Z)
          end
      else
        let reason := if bool_decide (reason = ReasonNone) then ReasonWorkerError else reason in
        if bool_decide (reason = ReasonSkipped) then
          write (fun k => k <| k_leases ::= delete id |>) ;;
          set_node id (fun h => h <| h_deadline := 0%Z |>) ;;
          terminate id StatusError ReasonSkipped message now ;;
          mret (false, 0%Z)
        else
          wasRetrying ← failAttempt id reason message now;
          if (wasRetrying : bool) then
            at_ ← read (fun k => default 0%Z (h_readyAt <$> k_node k !! id));
            mret (true, at_)
          else mret (false, 0%Z)
  end.

Definition scriptExtend (id : string) (presentedEpoch leaseMs : Z) : L C Z :=
  n ← read (fun k => k_node k !! id);
  match n with
  | None => error_reply (dwerr ["NOTFOUND"; id])
  | Some h =>
    if negb (bool_decide (h_phase h = PhaseClaimed)) || negb (h_epoch h =? presentedEpoch)%Z then
      error_reply (dwerr ["LEASEMISMATCH"; id])
    else
      now ← nowMs;
      let deadline := (now + leaseMs)%Z in
      set_node id (fun h => h <| h_deadline := deadline |>) ;;
      write (fun k => k <| k_leases ::= <[id := deadline]> |>) ;;
      mret deadline
  end.

Definition scriptSweep (limit : Z) : L C (Z * bool) :=
  now ← nowMs;
  reclaimed ← reclaimExpired now limit;
  promoteScheduled now ;;
  more ← read (fun k => (limit <=? reclaimed)%Z && negb (bool_decide (expired k now 1 = [])));
  mret (reclaimed, more).

(** ** Reads and collection *)

Definition scriptGetNode (id : string) : L C (hnode * option blob) :=
  k ← read (fun k => k);
  match k_node k !! id with
  | None => error_reply (dwerr ["NOTFOUND"; id])
  | Some h => mret (h, k_blob k !! id)
  end.

(** The hash of the node, its incoming edges and its successors. *)
Definition scriptInspect (id : string) : L C (hnode * list (string * bool) * list string) :=
  k ← read (fun k => k);
  match k_node k !! id with
  | None => error_reply (dwerr ["NOTFOUND"; id])
  | Some h =>
    preds ← hkeys_pred id;
    succs ← smembers_succ id;
    mret (h, (fun q => (q, default false (k_pred k !! (id, q)))) <$> preds, succs)
  end.

Definition scriptCollectIfEligible (id : string) (cutoffMs : Z) : L C bool :=
  k ← read (fun k => k);
  match k_node k !! id with
  | None => mret false
  | Some h =>
    if negb (bool_decide (h_phase h = PhaseDone)) then mret false
    else if (cutoffMs <? h_updatedAt h)%Z then mret false
    else if (0 <? length (succs_of k id)) then mret false
    else
      let f := (if bool_decide (h_status h = StatusSuccess) then "Succeeded" else "Failed")%string in
      write (fun k => del_keys id (k <| k_stats ::= fun m => hincr "Total" (-1) (hincr f (-1) m) |>)
                        <| k_idx ::= fun s => s ∖ {[id]} |>) ;;
      mret true
  end.

(** A call of a script: the effects table starts empty. *)
Definition run_script {A : Type} (m : L C A) (c : C) (k : keys) : C * keys * (A * list Effect + lerror) :=
  match m (mkLst c k []) with
  | (t, inl a) => (l_c t, l_k t, inl (a, l_effects t))
  | (t, inr e) => (l_c t, l_k t, inr e)
  end.

End Scripts.
