(* ===== verification/RedisStore.v ===== *)
(** * The store of the Redis backend

    [redis.go], [ops_graph.go], [ops_lease.go], [reads.go], [watch.go] and
    [bells.go]: the Go methods around the scripts of [RedisScripts], for one
    client.  Every method is a sequence of commands, each atomic. *)
From S2P Require Import Prelude Types GoText Config Scope RedisData RedisScripts.

(** ** State and monad *)

(** [Reply]: an error reply that [mapScriptErr] passes on, or a script that
    broke off. *)
Inductive rerror := Domain (e : error) | Reply (e : lerror) | Transport | CtxDone.

(** The keys of the server, scope by scope: a scope without an entry has no
    keys.  Names are built from the scope without escaping ([prefix] of
    [keys.go]), so that the keys of two scopes are apart only if no scope has a
    closing brace in its name; [redis_keys_collide] of [RedisProps] is a
    collision the model does not follow. *)
Record rst (C : Type) := mkRst {
  r_c : C;
  r_scopes : gmap string keys;
  r_registry : gset string;   (* the set dagworker:scopes *)
  r_closed : bool             (* the channel [closed] is closed *)
}.
Arguments mkRst {C}.
Arguments r_c {C}.
Arguments r_scopes {C}.
Arguments r_registry {C}.
Arguments r_closed {C}.

#[export] Instance rst_eta {C} : Eta (rst C) := fun s =>
  mkRst (r_c s) (r_scopes s) (r_registry s) (r_closed s).

Definition R (C A : Type) : Type := rst C -> rst C * (A + rerror).

#[export] Instance R_ret {C} : MRet (R C) := fun A a s => (s, inl a).
#[export] Instance R_bind {C} : MBind (R C) := fun A B f m s =>
  match m s with
  | (s, inl a) => f a s
  | (s, inr e) => (s, inr e)
  end.

Definition keys_of {C} (s : rst C) (scope : string) : keys := default noKeys (r_scopes s !! scope).

(** ** Decoding replies ([encode.go]) *)

Definition decodeEffect (ef : Effect) : Effect :=
  mkEffect (ef_NodeID ef) (ef_Kind ef) (ef_From ef) (ef_To ef) (ef_Reason ef) (ef_Message ef)
    (narrowU32 (ef_Attempt ef)) (ef_NodeKind ef) (narrowU64 (ef_Seq ef)) (narrowU64 (ef_Cursor ef)) (ef_At ef).

Definition decodeEffects (rows : list Effect) : list Effect := decodeEffect <$> rows.

(** A missing blob reads as empty fields. *)
Definition nodeFromHash `{!Json} (scope id : string) (n : hnode) (b : option blob) : Node :=
  mkNode scope id (h_kind n) (h_status n) (h_reason n) (h_message n)
    (narrowU32 (atoi64 (h_attempt n))) (narrowI16 (atoi64 (h_priority n))) (h_trigger n)
    (mkRetry (narrowU32 (atoi64 (h_retryMaxAttempts n))) (msToDur (atoi64 (h_retryBaseMs n)))
       (msToDur (atoi64 (h_retryMaxMs n))))
    (default [] (b_payload <$> b)) (decodeLabels (default ""%string (b_labels <$> b)))
    (atou64 (h_seq n)) (msToTime (atoi64 (h_createdAt n))) (msToTime (atoi64 (h_updatedAt n))).

(** [strings.Cut] of a stream ID, "<cursor>-0" throughout, is its cursor. *)
Definition decodeStreamEvent (scope : string) (msg : Event) : Event :=
  mkEvent (ev_Kind msg) scope (ev_NodeID msg) (atou64 (ev_Seq msg)) (atou64 (ev_Cursor msg))
    (ev_From msg) (ev_To msg) (ev_Reason msg) (ev_Message msg) (narrowU32 (atoi64 (ev_Attempt msg)))
    (ev_NodeKind msg) (ev_At msg) false.

Definition heldBy (p : Phase) (worker : string) : string :=
  if negb (bool_decide (p = PhaseClaimed)) then ""%string else worker.

(** ** Listing *)

Definition matches (node : Node) (opts : ListOptions) : bool :=
  if negb (bool_decide (lo_Statuses opts = [])) && negb (bool_decide (nd_Status node ∈ lo_Statuses opts)) then false
  else negb (negb (bool_decide (lo_Kinds opts = [])) && negb (bool_decide (nd_Kind node ∈ lo_Kinds opts))).

(** ZRANGEBYLEX from [lower], exclusive, or from the start. *)
Definition index_after (k : keys) (lower : option string) : list string :=
  match lower with
  | None => idx_of k
  | Some l => filter (fun id => ~ String.le id l) (idx_of k)
  end.

Definition index_page (k : keys) (lower : option string) (count : nat) : list string := take count (index_after k lower).

(** ** Construction *)

Record settings := mkSettings { s_ownsClient : bool; s_defaults : ScopeConfig; s_keyspace : string }.

#[export] Instance settings_eta : Eta settings := fun s =>
  mkSettings (s_ownsClient s) (s_defaults s) (s_keyspace s).

Inductive Option := WithScopeDefaults (cfg : ScopeConfig) | withKeyspace (ns : string).

Definition apply_option (s : settings) (o : Option) : settings :=
  match o with
  | WithScopeDefaults cfg => s <| s_defaults := cfg |>
  | withKeyspace ns => s <| s_keyspace := ns |>
  end.

Definition New (opts : list Option) : settings := foldl apply_option (mkSettings false zeroConfig "") opts.

(** [pinged] is whether the server answers the PING. *)
Definition Open (pinged : bool) (opts : list Option) : settings + rerror :=
  if pinged then inl ((New opts) <| s_ownsClient := true |>) else inr Transport.

Definition Capabilities : Z :=
  Z.lor (Z.lor (Z.lor (Z.lor CapList CapDurableEvents) CapDoorbell) CapCollect) CapCrossProcess.

Section Store.
Context {C : Type} `{!RedisServer C} `{!Json} (cfg0 : settings).

(** ** Commands *)

Definition execute {A : Type} (scope : string) (m : L C A) (s : rst C) : rst C * (A * list Effect + lerror) :=
  let '(c, k, r) := run_script m (r_c s) (keys_of s scope) in
  (s <| r_c := c |> <| r_scopes ::= <[scope := k]> |>, r).

Fixpoint execute_n {A : Type} (n : nat) (scope : string) (m : L C A) (s : rst C) : rst C :=
  match n with
  | O => s
  | S n => execute_n n scope m (fst (execute scope m s))
  end.

Definition command {A : Type} (scope : string) (m : L C A) : R C (A * list Effect) := fun s =>
  let '(d, c) := rs_delivery (r_c s) in
  let s := s <| r_c := c |> in
  match d with
  | Lost n => (execute_n n scope m s, inr Transport)
  | Answered n =>
    match execute scope m (execute_n n scope m s) with
    | (s, inl a) => (s, inl a)
    | (s, inr e) => (s, inr (Reply e))
    end
  end.

Definition query {A : Type} (scope : string) (f : keys -> A) : R C A :=
  r ← command scope (read f : L C A); mret r.1.

Definition throw {A : Type} (e : rerror) : R C A := fun s => (s, inr e).

(** [if err == nil]: the error is dropped. *)
Definition attempt {A : Type} (m : R C A) : R C (A + rerror) := fun s => let '(s, r) := m s in (s, inl r).

Definition script_error (scope : string) (e : lerror) : rerror :=
  match e with
  | ErrorReply msg => match mapScriptErr scope msg with Some e => Domain e | None => Reply e end
  | _ => Reply e
  end.

Definition mapped {A : Type} (scope : string) (m : R C A) : R C A := fun s =>
  match m s with
  | (s, inr (Reply e)) => (s, inr (script_error scope e))
  | r => r
  end.

Definition runScript {A : Type} (scope : string) (m : L C A) : R C (A * list Effect) :=
  r ← mapped scope (command scope m);
  mret (r.1, decodeEffects r.2).

Definition isClosed : R C bool := fun s => (s, inl (r_closed s)).

(** [if s.isClosed() { return .., ErrClosed }]. *)
Definition unless_closed {A : Type} (m : R C A) : R C A :=
  c ← isClosed;
  if (c : bool) then throw (Domain (Err ErrClosed)) else m.

(** ** [redis.go] *)

Definition Close : R C unit := fun s => (s <| r_closed := true |>, inl tt).

(** [SAdd] on the registry; its error is dropped. *)
Definition registerScope (scope : string) : R C unit := fun s =>
  let '(d, c) := rs_delivery (r_c s) in
  let s := s <| r_c := c |> in
  match d with
  | Lost O => (s, inl tt)
  | _ => (s <| r_registry ::= union {[scope]} |>, inl tt)
  end.

(** HGETALL of the hash [cfg]; [None] when it has no field at all. *)
Definition stored_config (k : keys) : option ScopeConfig :=
  if bool_decide (k_cfg k = ∅) && negb (k_sealed k) then None else Some (hashToCfg (k_cfg k)).

Definition ScopeConfig_ (scope : string) : R C ScopeConfig :=
  unless_closed (
    o ← query scope stored_config;
    mret (default (s_defaults cfg0) o)).

Definition SetScopeConfig (scope : string) (cfg : ScopeConfig) : R C unit :=
  unless_closed (
    _ ← command scope (write (fun k => k <| k_cfg ::= union (cfgToHash cfg) |>));
    registerScope scope).

Definition Seal (scope : string) : R C unit :=
  unless_closed (
    _ ← command scope (write (fun k => k <| k_sealed := true |>));
    registerScope scope).

Definition stats_of (k : keys) : ScopeStats :=
  let f x := atou64 (stat (k_stats k) x) in
  let out := mkStats (f "Total"%string) (f "Blocked"%string) (f "Scheduled"%string) (f "Ready"%string)
               (f "InProgress"%string) (f "Succeeded"%string) (f "Failed"%string)
               (k_sealed k) false (atou64 (k_cursor k)) in
  out <| st_Complete := st_Sealed out && (NonTerminal out =? 0)%Z |>.

(** The three commands of the pipeline, not one transaction: each may see what
    other clients did in between. *)
Definition ScopeStats_ (scope : string) : R C ScopeStats :=
  unless_closed (
    m ← query scope k_stats;
    sealed ← query scope k_sealed;
    cursor ← query scope k_cursor;
    mret (stats_of (noKeys <| k_stats := m |> <| k_sealed := sealed |> <| k_cursor := cursor |>))).

(** SMEMBERS of the registry. *)
Definition Scopes : R C (list string) :=
  unless_closed (fun s =>
    let '(d, c) := rs_delivery (r_c s) in
    match d with
    | Lost _ => (s <| r_c := c |>, inr Transport)
    | Answered _ => let '(l, c) := rs_order (elements (r_registry s)) c in (s <| r_c := c |>, inl l)
    end).

Definition resolvedConfig (scope : string) : R C ScopeConfig := cfg ← ScopeConfig_ scope; mret (Resolved cfg).

(** ** [ops_graph.go] *)

Definition wire_spec (s : NodeSpec) : lspec :=
  mkLspec (sp_ID s) (sp_Kind s) (sp_Priority s) (sp_Trigger s) (rp_MaxAttempts (sp_Retry s))
    (durToMs (rp_BaseDelay (sp_Retry s))) (durToMs (rp_MaxDelay (sp_Retry s)))
    (sp_Payload s) (encodeLabels (sp_Labels s)) (sp_Deps s).

(** The first error of a loop over the specifications. *)
Definition first_error {A : Type} (f : A -> option error) (l : list A) : option error :=
  foldr (fun x e => or_else (f x) e) None l.

Fixpoint check_duplicates (seen : gset string) (specs : list NodeSpec) : option error :=
  match specs with
  | [] => None
  | s :: specs => if bool_decide (sp_ID s ∈ seen) then Some (Err ErrInvalidArgument)
                  else check_duplicates ({[sp_ID s]} ∪ seen) specs
  end.

Definition check_payload (cfg : ScopeConfig) (s : NodeSpec) : option error :=
  let size := Z.of_nat (length (sp_Payload s)) in
  if (c_PayloadCap cfg <? size)%Z then Some (PayloadTooLargeError size (c_PayloadCap cfg)) else None.

(** [if err != nil { return nil, err }]. *)
Definition must_be_none {A : Type} (e : option error) (m : R C A) : R C A :=
  match e with Some e => throw (Domain e) | None => m end.

Definition AddNodes (scope : string) (specs : list NodeSpec) : R C (list Effect) :=
  if bool_decide (specs = []) then mret []
  else unless_closed (
    must_be_none (first_error NodeSpec_Validate specs) (
    must_be_none (check_duplicates ∅ specs) (
    cfg ← resolvedConfig scope;
    if (c_MaxBatchSize cfg <? Z.of_nat (length specs))%Z then throw (Domain (Err ErrInvalidArgument))
    else must_be_none (first_error (check_payload cfg) specs) (
    r ← runScript scope (scriptAddNodes (key_prefix (s_keyspace cfg0) scope) (c_MaxBatchSize cfg) (wire_spec <$> specs));
    registerScope scope ;;
    mret r.2)))).

Definition wire_edge (e : Edge) : string * string := (e_From e, e_To e).

Definition AddEdges (scope : string) (edges : list Edge) : R C (list Effect) :=
  if bool_decide (length edges = 0) then mret []
  else unless_closed (r ← runScript scope (scriptAddEdges (wire_edge <$> edges)); mret r.2).

Definition RemoveEdges (scope : string) (edges : list Edge) : R C (list Effect) :=
  if bool_decide (length edges = 0) then mret []
  else unless_closed (r ← runScript scope (scriptRemoveEdges (wire_edge <$> edges)); mret r.2).

Definition RemoveNode (scope id : string) (policy : CascadePolicy) : R C (list Effect) :=
  unless_closed (r ← runScript scope (scriptRemoveNode id policy); mret r.2).

Definition Cancel (scope : string) (ids : list string) : R C (list Effect) :=
  if bool_decide (ids = []) then mret []
  else unless_closed (r ← runScript scope (scriptCancelNodes ids); mret r.2).

Definition CancelScope (scope : string) : R C (list Effect) :=
  unless_closed (r ← runScript scope scriptCancelScope; mret r.2).

(** ** [ops_lease.go] *)

Definition lease_of (scope : string) (g : lgrant) : Lease :=
  mkLease scope (lg_id g) (narrowU64 (lg_epoch g)) (msToTime (lg_deadline g))
    (Some (nodeFromHash scope (lg_id g) (lg_node g) (lg_blob g))) [].

Definition Claim (req : ClaimRequest) : R C ClaimResult :=
  unless_closed (
    if bool_decide (cr_Scope req = ""%string) then throw (Domain (Err ErrInvalidArgument))
    else
      cfg ← resolvedConfig (cr_Scope req);
      let leaseFor := ClampLease cfg (cr_Timeout req) in
      let max := if (cr_Max req <? 1)%Z then 1%Z else cr_Max req in
      r ← runScript (cr_Scope req)
            (scriptClaim (cr_Kinds req) max (durToMs leaseFor) (c_SweepBatchSize cfg) (c_MaxInFlight cfg) (cr_WorkerID req));
      mret (mkClaimResult (lease_of (cr_Scope req) <$> r.1) r.2)).

Definition Complete (req : CompleteRequest) : R C CompleteResult :=
  unless_closed (
    let l := co_Lease req in
    if negb (Lease_Valid l) then throw (Domain (Err ErrInvalidArgument))
    else
      cfg ← resolvedConfig (l_Scope l);
      r ← runScript (l_Scope l)
            (scriptComplete (l_NodeID l) (widenU64 (l_Epoch l)) (co_Success req) (co_Reason req) (co_Message req)
               (co_Result req) (c_PayloadCap cfg));
      let '(retrying, ms) := r.1 in
      mret (mkCompleteResult r.2 retrying (if (0 <? ms)%Z then msToTime ms else TimeZero))).

Definition Extend (req : ExtendRequest) : R C Time :=
  unless_closed (
    let l := ex_Lease req in
    if negb (Lease_Valid l) then throw (Domain (Err ErrInvalidArgument))
    else
      cfg ← resolvedConfig (l_Scope l);
      let leaseFor := ClampLease cfg (ex_Timeout req) in
      r ← runScript (l_Scope l) (scriptExtend (l_NodeID l) (widenU64 (l_Epoch l)) (durToMs leaseFor));
      mret (msToTime r.1)).

Definition Sweep (scope : string) (limit : Z) : R C SweepResult :=
  unless_closed (
    limit ← (if (limit <=? 0)%Z then cfg ← resolvedConfig scope; mret (c_SweepBatchSize cfg) else mret limit);
    r ← runScript scope (scriptSweep limit);
    mret (mkSweepResult r.1.1 r.2 r.1.2)).

(** ** [reads.go] *)

Definition GetNode (scope id : string) : R C Node :=
  unless_closed (
    r ← mapped scope (command scope (scriptGetNode id));
    mret (nodeFromHash scope id r.1.1 r.1.2)).

Definition Inspect (scope id : string) : R C Inspection :=
  unless_closed (
    node ← GetNode scope id;
    r ← mapped scope (command scope (scriptInspect id));
    let '(n, pred, succ) := r.1 in
    mret (mkInspection node (h_phase n)
      (mkDeps (narrowU32 (Unsatisfied (h_deps n))) (narrowU32 (Succeeded (h_deps n)))
         (narrowU32 (Skipped (h_deps n))) (narrowU32 (Failed (h_deps n))))
      (fst <$> filter (fun e => e.2 = false) pred) succ (atoi64 (h_ord n))
      (msToTime (atoi64 (h_deadline n))) (heldBy (h_phase n) (h_worker n))
      (narrowU64 (atoi64 (h_epoch n))) (msToTime (atoi64 (h_readyAt n))))).

(** The page so far; [Some next] once it is full. *)
Fixpoint collectPage (scope : string) (ids : list string) (opts : ListOptions) (limit : nat)
    (nodes : list Node) : R C (list Node * option string) :=
  match ids with
  | [] => mret (nodes, None)
  | id :: ids =>
    r ← attempt (GetNode scope id);
    match r with
    | inr _ => collectPage scope ids opts limit nodes
    | inl node =>
      if negb (matches node opts) then collectPage scope ids opts limit nodes
      else if bool_decide (length nodes = limit) then mret (nodes, Some (default ""%string (nd_ID <$> last nodes)))
      else collectPage scope ids opts limit (nodes ++ [node])
    end
  end.

Fixpoint list_loop (fuel : nat) (scope : string) (opts : ListOptions) (limit : nat)
    (lower : option string) (nodes : list Node) : R C ListResult :=
  match fuel with
  | O => throw (Reply NoFuel)
  | S fuel =>
    ids ← query scope (fun k => index_page k lower 200);
    if bool_decide (ids = []) then mret (mkListResult nodes "")
    else
      '(nodes, next) ← collectPage scope ids opts limit nodes;
      match next with
      | Some next => mret (mkListResult nodes next)
      | None => if length ids <? 200 then mret (mkListResult nodes "") else list_loop fuel scope opts limit (last ids) nodes
      end
  end.

(** Each batch takes 200 entries of the index. *)
Definition index_fuel (s : rst C) (scope : string) : nat := S (S (size (k_idx (keys_of s scope)))).

Definition ListNodes (scope : string) (opts : ListOptions) : R C ListResult :=
  unless_closed (fun s =>
    let limit := Z.to_nat (if (lo_Limit opts <=? 0)%Z then 100 else lo_Limit opts) in
    let lower := if bool_decide (lo_Cursor opts = ""%string) then None else Some (lo_Cursor opts) in
    list_loop (index_fuel s scope) scope opts limit lower [] s).

(** The candidates of one batch: how many have been deleted, and the result if
    the call returns. *)
Fixpoint collect_batch (scope : string) (ids : list string) (cutoffMs : Z) (limit deleted : nat)
    : R C (nat * option (bool * option rerror)) :=
  match ids with
  | [] => mret (deleted, None)
  | id :: ids =>
    if bool_decide (deleted = limit) then mret (deleted, Some (true, None))
    else
      r ← attempt (command scope (scriptCollectIfEligible id cutoffMs));
      match r with
      | inr e => mret (deleted, Some (false, Some e))
      | inl (n, _) => collect_batch scope ids cutoffMs limit (if (n : bool) then S deleted else deleted)
      end
  end.

Fixpoint collect_loop (fuel : nat) (scope : string) (cutoffMs : Z) (limit : nat) (lower : option string)
    (deleted : nat) : R C (nat * bool * option rerror) :=
  match fuel with
  | O => throw (Reply NoFuel)
  | S fuel =>
    r ← attempt (query scope (fun k => index_page k lower 500));
    match r with
    | inr e => mret (deleted, false, Some e)
    | inl ids =>
      if bool_decide (ids = []) then mret (deleted, false, None)
      else
        '(deleted, r) ← collect_batch scope ids cutoffMs limit deleted;
        match r with
        | Some (more, e) => mret (deleted, more, e)
        | None => if length ids <? 500 then mret (deleted, false, None)
                  else collect_loop fuel scope cutoffMs limit (last ids) deleted
        end
    end
  end.

(** [cutoff] is an instant in nanoseconds, and [UnixMilli] rounds down. *)
Definition CollectTerminal (scope : string) (cutoff limit : Z) : R C (nat * bool * option rerror) := fun s =>
  if r_closed s then (s, inl (0, false, Some (Domain (Err ErrClosed))))
  else
    let limit := Z.to_nat (if (limit <=? 0)%Z then 100 else limit) in
    collect_loop (index_fuel s scope) scope (cutoff / Millisecond)%Z limit None 0 s.

(** ** [watch.go] *)

(** The stream ID to resume after, by its cursor. *)
Definition watchStartID (req : WatchRequest) : R C Z :=
  if (0 <? wr_From req)%Z then
    oldest ← query (wr_Scope req) (fun k => head (k_events k));
    match oldest with
    | Some ev => if (u64 (wr_From req + 1) <? atou64 (ev_Cursor ev))%Z then throw (Domain (Err ErrCursorExpired))
                 else mret (wr_From req)
    | None =>
      cur ← query (wr_Scope req) k_cursor;
      if (wr_From req <? atou64 cur)%Z then throw (Domain (Err ErrCursorExpired)) else mret (wr_From req)
    end
  else if wr_Replay req then mret 0%Z
  else query (wr_Scope req) k_cursor.

Definition Watch (req : WatchRequest) : R C Z :=
  unless_closed (
    if bool_decide (wr_Scope req = ""%string) then throw (Domain (Err ErrUnsupported))
    else
      registerScope (wr_Scope req) ;;
      watchStartID req).

(** XREAD COUNT 256 after [lastID]. *)
Definition stream_after (k : keys) (lastID : Z) : list Event :=
  take 256 (filter (fun e => (lastID < ev_Cursor e)%Z) (k_events k)).

(** One round of [pumpEvents] whose sends all succeed: what it delivers, and the
    next [lastID].  A failed read ends the subscription. *)
Definition pump_step (scope : string) (lastID : Z) : R C (list Event * Z) :=
  msgs ← query scope (fun k => stream_after k lastID);
  mret (decodeStreamEvent scope <$> msgs, default lastID (ev_Cursor <$> last msgs)).

Fixpoint pumpEvents (rounds : nat) (scope : string) (lastID : Z) (out : list Event) : R C (list Event * Z) :=
  match rounds with
  | O => mret (out, lastID)
  | S rounds =>
    '(batch, lastID) ← pump_step scope lastID;
    pumpEvents rounds scope lastID (out ++ batch)
  end.

(** ** [WaitForWork] *)

Fixpoint any_kind_ready (scope : string) (kinds : list string) : R C bool :=
  match kinds with
  | [] => mret false
  | k :: kinds =>
    n ← query scope (fun ks => length (ready_of ks k));
    if 0 <? n then mret true else any_kind_ready scope kinds
  end.

Definition anyReady (scope : string) (kinds : list string) : R C bool :=
  match kinds with
  | [] => v ← query scope (fun k => stat (k_stats k) "Ready"); mret (0 <? atoi64 v)%Z
  | _ => any_kind_ready scope kinds
  end.

(** A case of the select; an empty list is a waiter still parked. *)
Inductive wake := Bell | PollElapsed | ContextEnded | StoreClosed.

Definition poll (scope : string) (kinds : list string) : R C bool :=
  r ← attempt (anyReady scope kinds);
  mret (match r with inl b => b | inr _ => false end).

(** [None]: the caller is still parked when the cases are used up. *)
Fixpoint park (scope : string) (kinds : list string) (cases : list wake) : R C (option unit) :=
  match cases with
  | [] => mret None
  | Bell :: _ => mret (Some tt)
  | PollElapsed :: cases =>
    ready ← poll scope kinds;
    if (ready : bool) then mret (Some tt) else park scope kinds cases
  | ContextEnded :: _ => throw CtxDone
  | StoreClosed :: _ => throw (Domain (Err ErrClosed))
  end.

Definition WaitForWork (scope : string) (kinds : list string) (cases : list wake) : R C (option unit) :=
  unless_closed (
    registerScope scope ;;
    ready ← anyReady scope kinds;
    if (ready : bool) then mret (Some tt)
    else
      ready ← poll scope kinds;
      if (ready : bool) then mret (Some tt) else park scope kinds cases).

End Store.

(** ** [bells.go]: one shared subscription per scope with waiters *)

(** Channels and subscriptions are numbered as they are made. *)
Record bell := mkBell { be_ch : nat; be_sub : nat; be_waiters : Z }.

Record bells := mkBells {
  bs_state : gmap string bell;
  bs_chans : nat;
  bs_rung : gset nat;      (* channels that have been closed *)
  bs_subs : nat;
  bs_live : gset nat       (* subscriptions that hold a connection *)
}.

#[export] Instance bells_eta : Eta bells := fun b =>
  mkBells (bs_state b) (bs_chans b) (bs_rung b) (bs_subs b) (bs_live b).

Definition newBells : bells := mkBells ∅ 0 ∅ 0 ∅.

Definition open (scope : string) (b : bells) : bells * bell :=
  let e := mkBell (bs_chans b) (bs_subs b) 0 in
  (b <| bs_chans ::= S |> <| bs_subs ::= S |> <| bs_live ::= union {[be_sub e]} |>, e).

(** The channel to select on. *)
Definition join (scope : string) (b : bells) : bells * nat :=
  let '(b, e) := match bs_state b !! scope with Some e => (b, e) | None => open scope b end in
  (b <| bs_state ::= <[scope := mkBell (be_ch e) (be_sub e) (be_waiters e + 1)]> |>, be_ch e).

Definition ring (scope : string) (b : bells) : bells :=
  match bs_state b !! scope with
  | None => b
  | Some e =>
    b <| bs_rung ::= union {[be_ch e]} |> <| bs_chans ::= S |>
      <| bs_state ::= <[scope := mkBell (bs_chans b) (be_sub e) (be_waiters e)]> |>
  end.

(** [leave] up to the unlock, and the subscription to close then. *)
Definition leave (scope : string) (b : bells) : bells * option nat :=
  match bs_state b !! scope with
  | None => (b, None)
  | Some e =>
    if (0 <? be_waiters e - 1)%Z
    then (b <| bs_state ::= <[scope := mkBell (be_ch e) (be_sub e) (be_waiters e - 1)]> |>, None)
    else (b <| bs_state ::= delete scope |>, Some (be_sub e))
  end.

(** [e.stop(); e.sub.Close()]. *)
Definition unsubscribe (sub : nat) (b : bells) : bells := b <| bs_live ::= fun l => l ∖ {[sub]} |>.

(** [closeAll] up to the unlock, and the subscriptions to close then. *)
Definition closeAll (b : bells) : bells * list nat :=
  (b <| bs_state := ∅ |>, (fun e => be_sub e.2) <$> map_to_list (bs_state b)).
