(* ===== verification/RedisInv.v ===== *)
(** * Weakest preconditions for the scripts, and the invariant of the keys

    [wp m Q E k]: run on the keys [k], whatever the server, the script [m]
    answers with [Q] of the answer and of the keys it leaves, or stops with [E]
    of the error and of the keys.  A script is atomic but has no rollback of its
    own, so [E] matters: with [never] for it, [m] cannot stop early at all.

    [kinv]: the hashes, sets and sorted sets of a scope agree. *)
From S2P Require Import Prelude Types GoText Config Scope MapSum RedisData RedisScripts.

(** ** Rules *)

Definition never (e : lerror) (k : keys) : Prop := False.

Section Wp.
Context {C : Type} `{!RedisServer C}.

Definition wp {A : Type} (m : L C A) (Q : A -> keys -> Prop) (E : lerror -> keys -> Prop) (k : keys) : Prop :=
  forall t, l_k t = k ->
  match m t with
  | (t', inl a) => Q a (l_k t')
  | (t', inr e) => E e (l_k t')
  end.

Section Rules.
Context {A B : Type}.
Implicit Types (Q : A -> keys -> Prop) (E : lerror -> keys -> Prop).

Lemma lwp_mono (m : L C A) Q Q' E k : wp m Q E k -> (forall a k', Q a k' -> Q' a k') -> wp m Q' E k.
Proof. intros Hm HQ t Ht. specialize (Hm t Ht). destruct (m t) as [t' [a|e]]; auto. Qed.

Lemma lwp_conseq (m : L C A) Q Q' E E' k :
  wp m Q E k -> (forall a k', Q a k' -> Q' a k') -> (forall e k', E e k' -> E' e k') -> wp m Q' E' k.
Proof. intros Hm HQ HE t Ht. specialize (Hm t Ht). destruct (m t) as [t' [a|e]]; auto. Qed.

Lemma lwp_never (m : L C A) Q E k : wp m Q never k -> wp m Q E k.
Proof. intros Hm t Ht. specialize (Hm t Ht). by destruct (m t) as [t' [a|e]]. Qed.

Lemma lwp_ret (a : A) Q E k : Q a k -> wp (mret a : L C A) Q E k.
Proof. by intros HQ t <-. Qed.

Lemma lwp_bind (m : L C B) (f : B -> L C A) Q E k : wp m (fun b => wp (f b) Q E) E k -> wp (m ≫= f) Q E k.
Proof.
  intros Hm t Ht. specialize (Hm t Ht). unfold mbind, L_bind. destruct (m t) as [t' [b|e]]; [by apply Hm|done].
Qed.

Lemma lwp_fail (e : lerror) Q E k : E e k -> wp (fail e : L C A) Q E k.
Proof. by intros HE t <-. Qed.

Lemma lwp_read (f : keys -> A) Q E k : Q (f k) k -> wp (read f : L C A) Q E k.
Proof. by intros HQ t <-. Qed.

Lemma lwp_need (o : option A) a Q E k : o = Some a -> Q a k -> wp (need o : L C A) Q E k.
Proof. intros -> HQ. by apply lwp_ret. Qed.

End Rules.

Lemma lwp_write f (Q : unit -> keys -> Prop) E k : Q tt (f k) -> wp (write f : L C unit) Q E k.
Proof. by intros HQ t <-. Qed.

Lemma lwp_set_node id f h (Q : unit -> keys -> Prop) E k :
  k_node k !! id = Some h -> Q tt (k <| k_node ::= <[id := f h]> |>) -> wp (set_node id f : L C unit) Q E k.
Proof. intros Hh HQ t <-. unfold set_node. by rewrite Hh. Qed.

Lemma lwp_any_order l (Q : list string -> keys -> Prop) E k :
  (forall l', l' ≡ₚ l -> Q l' k) -> wp (any_order l : L C _) Q E k.
Proof.
  intros HQ t <-. unfold any_order. pose proof (rs_order_perm l (l_c t)) as Hp. destruct (rs_order l (l_c t)). by apply HQ.
Qed.

Lemma lwp_nowMs (Q : Z -> keys -> Prop) E k : (forall now, Q now k) -> wp (nowMs : L C Z) Q E k.
Proof. intros HQ t <-. unfold nowMs. destruct (clk_Now (l_c t)). apply HQ. Qed.

Lemma lwp_random n (Q : Z -> keys -> Prop) E k : (forall v, Q v k) -> wp (random_below n : L C Z) Q E k.
Proof. intros HQ t <-. unfold random_below. destruct (clk_Jitter n (l_c t)). apply HQ. Qed.

(** A loop whose [i]-th round finds [I] of what is left. *)
Lemma lwp_each {A : Type} (f : A -> L C unit) (I : list A -> keys -> Prop) E l k :
  I l k -> (forall x l k, I (x :: l) k -> wp (f x) (fun _ => I l) E k) -> wp (each l f) (fun _ => I []) E k.
Proof.
  intros HI Hf. revert k HI. induction l as [|x l IH]; intros k HI; [by apply lwp_ret|].
  apply lwp_bind. eapply lwp_mono; [by apply Hf|]. intros [] k' HI'. by apply IH.
Qed.

(** ** Counters and events *)

Definition bump_bucket (p : Phase) (s : Status) (d : Z) (k : keys) : keys := k <| k_stats ::= hincr (bucketField p s) d |>.

Lemma lwp_adjustBucket p s d (Q : unit -> keys -> Prop) E k :
  Q tt (bump_bucket p s d k) -> wp (adjustBucket p s d : L C unit) Q E k.
Proof. by apply lwp_write. Qed.

(** An event in the stream, of whose older entries the server drops [n]. *)
Definition logged (id : string) (ev : Event) (n : nat) (k : keys) : keys :=
  k <| k_node ::= alter (fun h => h <| h_seq ::= Z.succ |>) id |> <| k_cursor ::= Z.succ |>
    <| k_events ::= fun l => drop n (l ++ [ev]) |>.

Lemma lwp_recordEvent id kind from to reason message attempt nodeKind atMs (Q : unit -> keys -> Prop) E k :
  is_Some (k_node k !! id) ->
  (forall ev n, ev_Cursor ev = Z.succ (k_cursor k) -> n <= length (k_events k) -> Q tt (logged id ev n k)) ->
  wp (recordEvent id kind from to reason message attempt nodeKind atMs : L C unit) Q E k.
Proof.
  intros [h Hh] HQ. unfold recordEvent. eapply lwp_bind, lwp_set_node; [exact Hh|]. apply lwp_bind, lwp_read, lwp_bind, lwp_write, lwp_bind, lwp_read.
  intros t Ht. unfold xadd, mbind, L_bind. destruct (rs_trim (l_c t)) as [n c]. simpl. rewrite Ht. simpl.
  rewrite lookup_insert_eq. simpl.
  specialize (HQ (mkEvent kind "" id (Z.succ (h_seq h)) (Z.succ (k_cursor k)) from to reason message attempt nodeKind (msToTime atMs) false)
    (n `min` (length (k_events k) + 1 - Z.to_nat 20000)) eq_refl).
  assert (E0 : <[id := h <| h_seq ::= Z.succ |>]> (k_node k) = alter (fun h => h <| h_seq ::= Z.succ |>) id (k_node k)).
  { apply map_eq. intros j. destruct (decide (j = id)) as [->|Hj].
    - by rewrite lookup_insert_eq, lookup_alter_eq, Hh.
    - by rewrite lookup_insert_ne, lookup_alter_ne. }
  unfold logged in HQ. unfold set in *. simpl in *. rewrite E0. apply HQ.
  assert (1 <= Z.to_nat 20000) by (apply (Z2Nat.inj_le 1 20000); lia). lia.
Qed.

End Wp.

(** Apply the rule of the next step; what stays is the obligation of that step. *)
Ltac lwp_step :=
  lazymatch goal with
  | |- wp (_ ≫= _) _ _ _ => apply lwp_bind
  | |- wp (mret _) _ _ _ => apply lwp_ret
  | |- wp (read _) _ _ _ => apply lwp_read
  | |- wp (write _) _ _ _ => apply lwp_write
  | |- wp (adjustBucket _ _ _) _ _ _ => apply lwp_adjustBucket
  | |- wp nowMs _ _ _ => apply lwp_nowMs; intros ?
  | |- wp (random_below _) _ _ _ => apply lwp_random; intros ?
  | |- wp (any_order _) _ _ _ => apply lwp_any_order; intros ? ?
  | |- wp (error_reply _) _ _ _ => apply lwp_fail
  end.

Ltac lwp_steps := repeat lwp_step.

(** ** The invariant *)

Definition done (h : hnode) : bool := bool_decide (h_phase h = PhaseDone).

Definition coherent (h : hnode) : bool :=
  match h_phase h with
  | PhaseBlocked | PhaseScheduled | PhaseReady => bool_decide (h_status h = StatusNew)
  | PhaseClaimed => bool_decide (h_status h = StatusInProgress)
  | PhaseDone => Status_Terminal (h_status h)
  end.

Definition edge_class (ns : gmap string hnode) (a : string) (sat : bool) : DepClass :=
  match ns !! a with
  | Some h => class_of sat (h_status h) (h_reason h)
  | None => DUnsat
  end.

(** 1 for an edge into [b] of class [c]. *)
Definition into (ns : gmap string hnode) (b : string) (c : DepClass) (e : string * string) (sat : bool) : Z :=
  Z.b2z (bool_decide (e.1 = b) && bool_decide (edge_class ns e.2 sat = c)).

Definition edge_count (k : keys) (b : string) (c : DepClass) : Z := msum (into (k_node k) b c) (k_pred k).

Definition floor (k : keys) : Z := stat (k_stats k) "EpochFloor".

(** Hashes, sets of edges and the index: an edge is in both directions, joins
    two nodes in increasing rank, and is counted in the tally of its target by
    what became of its source. *)
Record ginv (k : keys) : Prop := {
  gi_blob : forall i, is_Some (k_blob k !! i) <-> is_Some (k_node k !! i);
  gi_idx : forall i, i ∈ k_idx k <-> is_Some (k_node k !! i);
  gi_edge : forall a b sat, k_pred k !! (b, a) = Some sat ->
    exists ha hb, k_node k !! a = Some ha /\ k_node k !! b = Some hb /\ (h_ord ha < h_ord hb)%Z /\
      (sat = true -> done ha = true);
  gi_succ : forall a b, (a, b) ∈ k_succ k <-> is_Some (k_pred k !! (b, a));
  gi_deps : forall b hb c, k_node k !! b = Some hb -> dep_field c (h_deps hb) = edge_count k b c;
  gi_coh : forall i h, k_node k !! i = Some h -> coherent h = true;
  gi_rank : forall i h, k_node k !! i = Some h -> (h_ord h <= k_nextord k)%Z;
  gi_rank_inj : forall i j h h', k_node k !! i = Some h -> k_node k !! j = Some h' -> h_ord h = h_ord h' -> i = j;
  gi_epoch : forall i h, k_node k !! i = Some h -> (0 <= h_epoch h)%Z;
  gi_floor : (0 <= floor k)%Z
}.

(** An unsatisfied edge has a source that is not done, [skip] apart. *)
Definition live (skip : option string) (k : keys) : Prop :=
  forall a b ha, k_pred k !! (b, a) = Some false -> k_node k !! a = Some ha -> done ha = true -> skip = Some a.

(** What the sorted sets hold for a node. *)
Definition zready (h : hnode) (kind : string) : option Z :=
  if decide (h_phase h = PhaseReady /\ h_kind h = kind) then Some (packScore (h_priority h) (h_fifo h)) else None.
Definition zsched (h : hnode) : option Z := if decide (h_phase h = PhaseScheduled) then Some (h_readyAt h) else None.
Definition zlease (h : hnode) : option Z := if decide (h_phase h = PhaseClaimed) then Some (h_deadline h) else None.

(** The sorted sets are the nodes of each phase; the entry of [d] among the
    leases or the scheduled nodes may have been taken out already. *)
Record zinv (d : option string) (k : keys) : Prop := {
  zi_ready : forall kind i, k_ready k !! (kind, i) = (k_node k !! i ≫= fun h => zready h kind);
  zi_sched : forall i, k_sched k !! i = (k_node k !! i ≫= zsched) \/ (d = Some i /\ k_sched k !! i = None);
  zi_lease : forall i, k_leases k !! i = (k_node k !! i ≫= zlease) \/ (d = Some i /\ k_leases k !! i = None);
  zi_kinds : forall kind i, is_Some (k_ready k !! (kind, i)) -> kind ∈ k_kinds k;
  zi_fifo : forall i h, k_node k !! i = Some h -> (0 <= h_fifo h <= k_nextfifo k)%Z;
  zi_next : (0 <= k_nextfifo k)%Z
}.

(** Whether a node counts in a field of the hash [stats]. *)
Definition counted (f : string) (_ : string) (h : hnode) : Z :=
  Z.b2z (bool_decide (f = "Total"%string) || bool_decide (bucketField (h_phase h) (h_status h) = f)).

Definition sinv (k : keys) : Prop :=
  forall f, f <> "EpochFloor"%string -> stat (k_stats k) f = msum (counted f) (k_node k).

(** The phase follows the trigger rule: a node that is blocked waits, and one
    that is ready, leased or waiting to be tried again may run. *)
Definition rule_ok (h : hnode) : Prop :=
  match h_phase h with
  | PhaseBlocked => rule_lost h = false /\ rule_met h = false
  | PhaseDone => True
  | _ => rule_lost h = false /\ rule_met h = true
  end.

(** It does for every node but those of [Y]. *)
Definition settled (Y : string -> Prop) (k : keys) : Prop :=
  forall i h, k_node k !! i = Some h -> Y i \/ rule_ok h.

(** The stream ends at the cursor and has no gap. *)
Definition einv (k : keys) : Prop :=
  (0 <= k_cursor k - Z.of_nat (length (k_events k)))%Z /\
  forall i ev, k_events k !! i = Some ev ->
    ev_Cursor ev = (k_cursor k - Z.of_nat (length (k_events k)) + 1 + Z.of_nat i)%Z.

Record kinv (skip d : option string) (Y : string -> Prop) (k : keys) : Prop := {
  ki_graph : ginv k;
  ki_live : live skip k;
  ki_z : zinv d k;
  ki_stat : sinv k;
  ki_settled : settled Y k;
  ki_log : einv k
}.

Arguments ki_graph {skip d Y k} _.
Arguments ki_live {skip d Y k} _.
Arguments ki_z {skip d Y k} _.
Arguments ki_stat {skip d Y k} _.
Arguments ki_settled {skip d Y k} _.
Arguments ki_log {skip d Y k} _.

(** * Which writes keep the invariant of the keys *)

(** ** Small facts *)

Lemma stat_hincr f g d m : stat (hincr g d m) f = (stat m f + (if bool_decide (f = g) then d else 0))%Z.
Proof.
  unfold hincr, stat at 1. case_bool_decide as E.
  - subst. by rewrite lookup_insert_eq.
  - rewrite lookup_insert_ne by done. unfold stat. lia.
Qed.

Lemma bucket_name p s : bucketField p s <> "EpochFloor"%string /\ bucketField p s <> "Total"%string.
Proof. destruct p; simpl; try done. by case_bool_decide. Qed.

Lemma stat_bump p s d k f :
  stat (k_stats (bump_bucket p s d k)) f = (stat (k_stats k) f + (if bool_decide (f = bucketField p s) then d else 0))%Z.
Proof. apply stat_hincr. Qed.

Lemma floor_bump p s d k : floor (bump_bucket p s d k) = floor k.
Proof. unfold floor. rewrite stat_bump, bool_decide_eq_false_2; [lia|]. intros E%eq_sym. by apply bucket_name in E. Qed.

Lemma into_nonneg ns b c e sat : (0 <= into ns b c e sat)%Z.
Proof. unfold into. by destruct (_ && _). Qed.

Lemma key_edge_count_nonneg k b c : (0 <= edge_count k b c)%Z.
Proof. apply msum_nonneg. intros. apply into_nonneg. Qed.

Lemma class_unsat st rs : class_of true st rs <> DUnsat.
Proof. unfold class_of. simpl. repeat case_bool_decide; done. Qed.

(** The tally after an edge of class [c] was counted in or out. *)
Definition tally_add (c : DepClass) (d : Z) (t t' : DepCounts) : Prop :=
  forall c', dep_field c' t' = (dep_field c' t + (if bool_decide (c' = c) then d else 0))%Z.

Lemma bump_dep_field st rs d t : tally_add (class_of true st rs) d t (bump_dep (Some st) (Some rs) d t).
Proof.
  intros c. unfold bump_dep, class_of. simpl.
  repeat case_bool_decide; simplify_eq/=; try destruct c; simpl in *; try done; lia.
Qed.

Lemma drop_unsat_field t : (1 <= Unsatisfied t)%Z -> tally_add DUnsat (-1) t (drop_unsat t).
Proof.
  intros Hp c. unfold drop_unsat. case_bool_decide as E; [subst|destruct c; simpl; try done; lia].
  simpl. replace (0 <? Unsatisfied t)%Z with true by lia. lia.
Qed.

Lemma drop_dep_field st rs t :
  (1 <= dep_field (class_of true st rs) t)%Z -> tally_add (class_of true st rs) (-1) t (drop_dep (Some st) (Some rs) t).
Proof.
  intros Hp. unfold drop_dep. replace (0 <? _)%Z with true; [apply bump_dep_field|].
  symmetry. apply Z.ltb_lt. unfold class_of in Hp. simpl in Hp. repeat case_bool_decide; simplify_eq/=; lia.
Qed.

Lemma deps_ext t t' : (forall c, dep_field c t = dep_field c t') -> t = t'.
Proof.
  intros H. pose proof (H DUnsat). pose proof (H DSucc). pose proof (H DSkip). pose proof (H DFail).
  destruct t, t'; simpl in *; congruence.
Qed.

(** ** Nodes that go on *)

(** The hash keeps what identifies it, and once done its outcome. *)
Record keeps (h h' : hnode) : Prop := {
  kp_kind : h_kind h' = h_kind h;
  kp_trigger : h_trigger h' = h_trigger h;
  kp_priority : h_priority h' = h_priority h;
  kp_ord : h_ord h' = h_ord h;
  kp_epoch : (h_epoch h <= h_epoch h')%Z;
  kp_done : done h = true -> done h' = true /\ h_status h' = h_status h /\ h_reason h' = h_reason h
}.

#[export] Instance keeps_refl : Reflexive keeps.
Proof. by intros h; split. Qed.

#[export] Instance keeps_trans : Transitive keeps.
Proof.
  intros a b c [? ? ? ? ? H] [? ? ? ? ? H']. split; try congruence; [lia|]. intros Ha. destruct (H Ha) as (Hb & ? & ?).
  destruct (H' Hb) as (? & ? & ?). split_and!; congruence.
Qed.

(** The ready sets are queues: a node that is ready has been so all along, with
    the number it had, or has become so since, with a number above every one
    handed out before. *)
Definition queued (k k' : keys) : Prop :=
  (k_nextfifo k <= k_nextfifo k')%Z /\
  forall i h h', k_node k !! i = Some h -> k_node k' !! i = Some h' -> h_phase h' = PhaseReady ->
    (h_phase h = PhaseReady /\ h_fifo h' = h_fifo h) \/ (k_nextfifo k < h_fifo h')%Z.

(** Nodes go on, and edges are only satisfied. *)
Record evolve (k k' : keys) : Prop := {
  ev_forth : forall i h, k_node k !! i = Some h -> exists h', k_node k' !! i = Some h' /\ keeps h h';
  ev_back : forall i h', k_node k' !! i = Some h' -> exists h, k_node k !! i = Some h /\ keeps h h';
  ev_blob : k_blob k' = k_blob k;
  ev_pred : forall e, k_pred k' !! e = k_pred k !! e \/ (k_pred k !! e = Some false /\ k_pred k' !! e = Some true);
  ev_succ : k_succ k' = k_succ k;
  ev_idx : k_idx k' = k_idx k;
  ev_cfg : k_cfg k' = k_cfg k /\ k_sealed k' = k_sealed k;
  ev_ord : k_nextord k' = k_nextord k;
  ev_floor : floor k' = floor k;
  ev_queue : queued k k'
}.

#[export] Instance evolve_refl : Reflexive evolve.
Proof.
  intros k. split; try done; [by intros i h Hh; exists h|by intros i h Hh; exists h|by left|].
  split; [done|]. intros i h h' H1 H2 Hp. left. by simplify_eq.
Qed.

#[export] Instance evolve_trans : Transitive evolve.
Proof.
  intros a b c [F1 B1 L1 P1 S1 I1 C1 O1 E1 [N1 Q1]] [F2 B2 L2 P2 S2 I2 C2 O2 E2 [N2 Q2]].
  split; try (destruct C1, C2; split); try congruence.
  - intros i h (h1 & H1 & K1)%F1. destruct (F2 i h1 H1) as (h2 & H2 & K2). exists h2. split; [done|by etrans].
  - intros i h (h1 & H1 & K1)%B2. destruct (B1 i h1 H1) as (h2 & H2 & K2). exists h2. split; [done|by etrans].
  - intros e. destruct (P1 e) as [E|[Ea Eb]], (P2 e) as [E'|[Ea' Eb']]; [left|right|right|]; naive_solver congruence.
  - lia.
  - intros i h h3 Ha Hc Hp. destruct (F1 i h Ha) as (h2 & Hb & _).
    destruct (Q2 i h2 h3 Hb Hc Hp) as [[Hp2 E]|?]; [|right; lia].
    destruct (Q1 i h h2 Ha Hb Hp2) as [[? ?]|?]; [left; split; congruence|right; lia].
Qed.

Lemma evolve_pred_dom k k' e : evolve k k' -> is_Some (k_pred k' !! e) <-> is_Some (k_pred k !! e).
Proof. intros Hv. destruct (ev_pred _ _ Hv e) as [->|[-> ->]]; [done|]. split; by eexists. Qed.

Lemma evolve_node_dom k k' i : evolve k k' -> is_Some (k_node k' !! i) <-> is_Some (k_node k !! i).
Proof.
  intros Hv. split; intros [h Hh].
  - destruct (ev_back _ _ Hv i h Hh) as (? & ? & _). by eexists.
  - destruct (ev_forth _ _ Hv i h Hh) as (? & ? & _). by eexists.
Qed.

Lemma evolve_done k k' i h : evolve k k' -> k_node k !! i = Some h -> done h = true ->
  exists h', k_node k' !! i = Some h' /\ done h' = true.
Proof. intros Hv Hh Hd. destruct (ev_forth _ _ Hv i h Hh) as (h' & ? & K). exists h'. split; [done|]. by apply (kp_done _ _ K). Qed.

(** The epoch of an identifier: that of its node, or the floor the next node of
    that name starts from. *)
Definition epoch_of (k : keys) (i : string) : Z := match k_node k !! i with Some h => h_epoch h | None => floor k end.

(** No epoch goes back. *)
Definition adv (k k' : keys) : Prop := (floor k <= floor k')%Z /\ forall i, (epoch_of k i <= epoch_of k' i)%Z.

#[export] Instance adv_refl : Reflexive adv.
Proof. by intros k. Qed.

#[export] Instance adv_trans : Transitive adv.
Proof. intros a b c [F1 E1] [F2 E2]. split; [lia|]. intros i. specialize (E1 i). specialize (E2 i). lia. Qed.

Lemma evolve_adv k k' : evolve k k' -> adv k k'.
Proof.
  intros Hv. split; [by rewrite (ev_floor _ _ Hv)|]. intros i. unfold epoch_of.
  destruct (k_node k !! i) as [h|] eqn:Hh.
  - destruct (ev_forth _ _ Hv i h Hh) as (h' & -> & K). apply K.
  - destruct (k_node k' !! i) as [h'|] eqn:Hh'; [|by rewrite (ev_floor _ _ Hv)].
    destruct (ev_back _ _ Hv i h' Hh') as (h & ? & _). congruence.
Qed.

Lemma ginv_evolve k k' :
  ginv k -> evolve k k' -> (forall i h, k_node k' !! i = Some h -> coherent h = true) ->
  (forall a b ha, k_pred k' !! (b, a) = Some true -> k_node k' !! a = Some ha -> done ha = true) ->
  (forall b hb c, k_node k' !! b = Some hb -> dep_field c (h_deps hb) = edge_count k' b c) ->
  ginv k'.
Proof.
  intros Hg Hv Hco Hsat Hdeps. split; [..|done|done| | | |].
  - intros i. rewrite (ev_blob _ _ Hv), (evolve_node_dom k k' i Hv). apply Hg.
  - intros i. rewrite (ev_idx _ _ Hv), (evolve_node_dom k k' i Hv). apply Hg.
  - intros a b sat He. assert (is_Some (k_pred k !! (b, a))) as [sat0 He0] by (apply (evolve_pred_dom k k'); [done|by eexists]).
    destruct (gi_edge k Hg a b sat0 He0) as (ha & hb & Ha & Hb & Hlt & _).
    destruct (ev_forth _ _ Hv a ha Ha) as (ha' & Ha' & Ka), (ev_forth _ _ Hv b hb Hb) as (hb' & Hb' & Kb).
    exists ha', hb'. rewrite (kp_ord _ _ Ka), (kp_ord _ _ Kb). split_and!; try done. intros ->. by eapply Hsat.
  - intros a b. rewrite (ev_succ _ _ Hv), (evolve_pred_dom k k' (b, a) Hv). apply Hg.
  - intros i h' (h & Hh & K)%(ev_back _ _ Hv). rewrite (kp_ord _ _ K), (ev_ord _ _ Hv). by apply (gi_rank k Hg i).
  - intros i j x x' (y & Hy & Kx)%(ev_back _ _ Hv) (y' & Hy' & Kx')%(ev_back _ _ Hv).
    rewrite (kp_ord _ _ Kx), (kp_ord _ _ Kx'). by apply (gi_rank_inj k Hg).
  - intros i h' (h & Hh & K)%(ev_back _ _ Hv). pose proof (kp_epoch _ _ K). pose proof (gi_epoch k Hg i h Hh). lia.
  - rewrite (ev_floor _ _ Hv). apply Hg.
Qed.

(** The class of an edge stays while its source is the same, or the edge is
    unsatisfied, or the source was done. *)
Lemma class_evolve k k' a b sat :
  ginv k -> evolve k k' -> k_pred k !! (b, a) = Some sat -> edge_class (k_node k') a sat = edge_class (k_node k) a sat.
Proof.
  intros Hg Hv He. destruct (gi_edge k Hg a b sat He) as (ha & hb & Ha & _ & _ & Hsat).
  destruct (ev_forth _ _ Hv a ha Ha) as (ha' & Ha' & K). unfold edge_class. rewrite Ha, Ha'.
  destruct sat; [|done]. by destruct (kp_done _ _ K (Hsat eq_refl)) as (_ & -> & ->).
Qed.

Lemma key_into_ext (ns ns' : gmap string hnode) (es : gmap (string * string) bool) b c :
  (forall a b' sat, es !! (b', a) = Some sat -> edge_class ns a sat = edge_class ns' a sat) ->
  msum (into ns b c) es = msum (into ns' b c) es.
Proof. intros H. apply msum_ext. intros [b' a] sat He. unfold into. cbn [fst snd]. by rewrite (H a b' sat He). Qed.

Lemma edge_count_evolve k k' b c :
  ginv k -> evolve k k' -> k_pred k' = k_pred k -> edge_count k' b c = edge_count k b c.
Proof.
  intros Hg Hv Hp. unfold edge_count. rewrite Hp. apply key_into_ext. intros a b' sat He. by apply (class_evolve k k' a b').
Qed.

(** ** One node moves *)

(** [k'] is [k] with the hash of [id] changed from [h] to [h'], and what goes
    with its phase. *)
Record moves (id : string) (h h' : hnode) (d' : option string) (k k' : keys) : Prop := {
  mv_at : k_node k !! id = Some h;
  mv_node : k_node k' = <[id := h']> (k_node k);
  mv_pred : k_pred k' = k_pred k;
  mv_succ : k_succ k' = k_succ k;
  mv_idx : k_idx k' = k_idx k;
  mv_blob : k_blob k' = k_blob k;
  mv_cfg : k_cfg k' = k_cfg k /\ k_sealed k' = k_sealed k;
  mv_ord : k_nextord k' = k_nextord k;
  mv_log : k_cursor k' = k_cursor k /\ k_events k' = k_events k;
  mv_keeps : keeps h h';
  mv_deps : h_deps h' = h_deps h;
  mv_coh : coherent h' = true;
  mv_stat : forall f, stat (k_stats k') f = (stat (k_stats k) f
    + (if bool_decide (f = bucketField (h_phase h) (h_status h)) then -1 else 0)
    + (if bool_decide (f = bucketField (h_phase h') (h_status h')) then 1 else 0))%Z;
  mv_z : zinv d' k';
  mv_queue : (k_nextfifo k <= k_nextfifo k')%Z /\
    (h_phase h' = PhaseReady -> (h_phase h = PhaseReady /\ h_fifo h' = h_fifo h) \/ (k_nextfifo k < h_fifo h')%Z)
}.

Section Move.
Context {skip d d' : option string} {Y : string -> Prop} {k k' : keys} {id : string} {h h' : hnode}.
Context (Hi : kinv skip d Y k) (Hm : moves id h h' d' k k').

Lemma move_lookup i : k_node k' !! i = if decide (i = id) then Some h' else k_node k !! i.
Proof.
  rewrite (mv_node _ _ _ _ _ _ Hm). case_decide as E; [subst; by rewrite lookup_insert_eq|by rewrite lookup_insert_ne].
Qed.

Lemma move_floor : floor k' = floor k.
Proof.
  unfold floor. rewrite (mv_stat _ _ _ _ _ _ Hm). destruct (bucket_name (h_phase h) (h_status h)).
  destruct (bucket_name (h_phase h') (h_status h')). rewrite !bool_decide_eq_false_2 by congruence. lia.
Qed.

Lemma move_evolve : evolve k k'.
Proof.
  split; try apply Hm; [| | |apply move_floor|].
  - intros i x Hx. rewrite move_lookup. case_decide as E; [|by exists x]. subst i. exists h'. split; [done|].
    pose proof (mv_at _ _ _ _ _ _ Hm). simplify_eq. apply Hm.
  - intros i x. rewrite move_lookup. case_decide as E; [|by exists x]. intros [= <-]. subst i. exists h. split; [apply Hm|apply Hm].
  - intros e. left. by rewrite (mv_pred _ _ _ _ _ _ Hm).
  - destruct (mv_queue _ _ _ _ _ _ Hm) as [Hn Hq]. split; [done|]. intros i x x' Hx. rewrite move_lookup.
    case_decide as E; intros; simplify_eq; [|by left]. pose proof (mv_at _ _ _ _ _ _ Hm). simplify_eq. by apply Hq.
Qed.

Lemma move_graph : ginv k'.
Proof.
  pose proof (ki_graph Hi) as Hg. pose proof move_evolve as Hv. apply (ginv_evolve k); [done|done|..].
  - intros i x. rewrite move_lookup. case_decide; intros; simplify_eq; [apply Hm|by eapply (gi_coh k Hg)].
  - intros a b ha He Ha. rewrite (mv_pred _ _ _ _ _ _ Hm) in He. destruct (gi_edge k Hg a b true He) as (x & _ & Hx & _ & _ & Hd).
    destruct (evolve_done k k' a x Hv Hx (Hd eq_refl)) as (y & Hy & ?). by simplify_eq.
  - intros b x c. rewrite (edge_count_evolve k k' b c Hg Hv (mv_pred _ _ _ _ _ _ Hm)), move_lookup.
    case_decide; intros; simplify_eq; [|by apply (gi_deps k Hg)].
    rewrite (mv_deps _ _ _ _ _ _ Hm). apply (gi_deps k Hg), Hm.
Qed.

Lemma move_live : (done h' = true -> done h = true \/ skip = Some id) -> live skip k'.
Proof.
  intros Hd a b ha. rewrite (mv_pred _ _ _ _ _ _ Hm), move_lookup. intros He. pose proof (mv_at _ _ _ _ _ _ Hm) as Hat.
  case_decide as E; intros Ha Hda; simplify_eq; [|by eapply (ki_live Hi)].
  destruct (Hd Hda) as [Hdh|]; [|done]. by eapply (ki_live Hi).
Qed.

Lemma move_stat : sinv k'.
Proof.
  intros f Hf. rewrite (mv_stat _ _ _ _ _ _ Hm), (mv_node _ _ _ _ _ _ Hm), (msum_update _ _ _ h) by apply Hm.
  rewrite (ki_stat Hi f Hf). unfold counted. destruct (bucket_name (h_phase h) (h_status h)), (bucket_name (h_phase h') (h_status h')).
  repeat case_bool_decide; simpl; subst; try done; lia.
Qed.

(** A move settles or does not: [Y'] is what is left unsettled. *)
Lemma move_settled (Y' : string -> Prop) :
  (forall i, i <> id -> Y i -> Y' i) -> (Y' id \/ rule_ok h') -> settled Y' k'.
Proof.
  intros Hy Hr i x. rewrite move_lookup. case_decide as E; intros Hx; simplify_eq; [done|].
  destruct (ki_settled Hi i x Hx); auto.
Qed.

Lemma move_log : einv k'.
Proof. unfold einv. destruct (mv_log _ _ _ _ _ _ Hm) as [-> ->]. apply (ki_log Hi). Qed.

Lemma kinv_move (Y' : string -> Prop) :
  (done h' = true -> done h = true \/ skip = Some id) ->
  (forall i, i <> id -> Y i -> Y' i) -> (Y' id \/ rule_ok h') -> kinv skip d' Y' k'.
Proof.
  intros. split; [apply move_graph|by apply move_live|apply Hm|apply move_stat|by apply move_settled|apply move_log].
Qed.

End Move.

(** Where the sorted sets and the node change at one id only. *)
Lemma zinv_at d d' id k k' :
  zinv d k -> (forall i, i <> id -> k_node k' !! i = k_node k !! i) ->
  (forall kind i, i <> id -> k_ready k' !! (kind, i) = k_ready k !! (kind, i)) ->
  (forall i, i <> id -> k_sched k' !! i = k_sched k !! i) ->
  (forall i, i <> id -> k_leases k' !! i = k_leases k !! i) ->
  (d = None \/ d = Some id) ->
  (forall kind, k_ready k' !! (kind, id) = (k_node k' !! id ≫= fun h => zready h kind)) ->
  (k_sched k' !! id = (k_node k' !! id ≫= zsched) \/ (d' = Some id /\ k_sched k' !! id = None)) ->
  (k_leases k' !! id = (k_node k' !! id ≫= zlease) \/ (d' = Some id /\ k_leases k' !! id = None)) ->
  (forall kind, kind ∈ k_kinds k -> kind ∈ k_kinds k') ->
  (forall kind, is_Some (k_ready k' !! (kind, id)) -> kind ∈ k_kinds k') ->
  (k_nextfifo k <= k_nextfifo k')%Z ->
  (forall h, k_node k' !! id = Some h -> (0 <= h_fifo h <= k_nextfifo k')%Z) ->
  zinv d' k'.
Proof.
  intros [R S L K F N] En Er Es El Hd Hr Hs Hl Hk Hkr Hf Hfi. split; [| | | | |lia].
  - intros kind i. destruct (decide (i = id)) as [->|Hne]; [done|]. rewrite Er, En by done. apply R.
  - intros i. destruct (decide (i = id)) as [->|Hne]; [done|]. rewrite Es, En by done.
    destruct (S i) as [?|[E _]]; [by left|]. destruct Hd as [->| ->]; congruence.
  - intros i. destruct (decide (i = id)) as [->|Hne]; [done|]. rewrite El, En by done.
    destruct (L i) as [?|[E _]]; [by left|]. destruct Hd as [->| ->]; congruence.
  - intros kind i. destruct (decide (i = id)) as [->|Hne]; [apply Hkr|]. rewrite Er by done. intros ?%K. auto.
  - intros i h. destruct (decide (i = id)) as [->|Hne]; [apply Hfi|]. rewrite En by done. intros ?%F. lia.
Qed.

(** ** Events *)

Lemma logged_lookup id ev n k i :
  k_node (logged id ev n k) !! i = (if decide (i = id) then (fun h => h <| h_seq ::= Z.succ |>) <$> k_node k !! i else k_node k !! i).
Proof. simpl. case_decide as E; [subst; by rewrite lookup_alter_eq|by rewrite lookup_alter_ne]. Qed.

(** Every hash but for its sequence number. *)
Lemma logged_node id ev n k i h' :
  k_node (logged id ev n k) !! i = Some h' -> exists h, k_node k !! i = Some h /\ (h' = h \/ h' = h <| h_seq ::= Z.succ |>).
Proof.
  rewrite logged_lookup. case_decide; [|intros Hh; exists h'; auto].
  intros (h & Hh & ->)%fmap_Some. exists h. auto.
Qed.

Lemma logged_node_fwd id ev n k i h :
  k_node k !! i = Some h -> exists h', k_node (logged id ev n k) !! i = Some h' /\ (h' = h \/ h' = h <| h_seq ::= Z.succ |>).
Proof. intros Hh. rewrite logged_lookup, Hh. case_decide; simpl; eauto. Qed.

Lemma logged_bind {A : Type} id ev n k i (g : hnode -> option A) :
  (forall h, g (h <| h_seq ::= Z.succ |>) = g h) -> (k_node (logged id ev n k) !! i ≫= g) = (k_node k !! i ≫= g).
Proof. intros Hg. rewrite logged_lookup. case_decide; [|done]. destruct (k_node k !! i); simpl; [apply Hg|done]. Qed.

Lemma logged_evolve id ev n k : evolve k (logged id ev n k).
Proof.
  split; try done; [|  |by left|].
  - intros i h (h' & ? & [->| ->])%(logged_node_fwd id ev n); eexists; (split; [done|by split]).
  - intros i h' (h & ? & [->| ->])%logged_node; eexists; (split; [done|by split]).
  - split; [done|]. intros i h h' H1 (h0 & H2 & E)%logged_node Hp. left. destruct E as [->| ->]; by simplify_eq.
Qed.

Lemma logged_msum {f : string -> hnode -> Z} id ev n k :
  (forall i h, f i (h <| h_seq ::= Z.succ |>) = f i h) -> msum f (k_node (logged id ev n k)) = msum f (k_node k).
Proof.
  intros Hf. change (k_node (logged id ev n k)) with (alter (fun h => h <| h_seq ::= Z.succ |>) id (k_node k)).
  destruct (k_node k !! id) as [h|] eqn:Hh.
  - assert (alter (fun h => h <| h_seq ::= Z.succ |>) id (k_node k) = <[id := h <| h_seq ::= Z.succ |>]> (k_node k)) as ->.
    { apply map_eq. intros j. destruct (decide (j = id)) as [->|Hj].
      - by rewrite lookup_insert_eq, lookup_alter_eq, Hh.
      - by rewrite lookup_insert_ne, lookup_alter_ne. }
    rewrite (msum_update _ _ _ h) by done. rewrite Hf. lia.
  - rewrite alter_id; [done|]. intros h Hh'. congruence.
Qed.

Lemma kinv_logged {skip d Y} id ev n k :
  kinv skip d Y k -> ev_Cursor ev = Z.succ (k_cursor k) -> n <= length (k_events k) -> kinv skip d Y (logged id ev n k).
Proof.
  intros [Hg Hl Hz Hs Hy He] Hc Hn. pose proof (logged_evolve id ev n k) as Hv. split.
  - apply (ginv_evolve k); [done|done|..].
    + intros i h (h0 & Hh & [->| ->])%logged_node; by apply (gi_coh k Hg i h0).
    + intros a b ha Hp (h0 & Hh & E)%logged_node. destruct (gi_edge k Hg a b true Hp) as (x & _ & Hx & _ & _ & Hd). simplify_eq.
      destruct E as [->| ->]; by apply Hd.
    + intros b hb c (h0 & Hh & E)%logged_node. rewrite (edge_count_evolve k) by done.
      destruct E as [->| ->]; by apply (gi_deps k Hg b h0 c).
  - intros a b ha Hp (h0 & Hh & E)%logged_node Hd. apply (Hl a b h0); [done..|]. by destruct E as [->| ->].
  - destruct Hz as [R S L K F N]. split; [| | |done| |done].
    + intros kind i. rewrite (logged_bind id ev n k i) by done. apply R.
    + intros i. rewrite (logged_bind id ev n k i) by done. apply S.
    + intros i. rewrite (logged_bind id ev n k i) by done. apply L.
    + intros i h (h0 & Hh & E)%logged_node. destruct E as [->| ->]; by apply (F i h0).
  - intros f Hf. rewrite logged_msum by done. by apply Hs.
  - intros i h (h0 & Hh & E)%logged_node. pose proof (Hy i h0 Hh). by destruct E as [->| ->].
  - destruct He as [H1 H2]. unfold einv. simpl. rewrite length_drop, length_app. simpl. split; [lia|].
    intros i e. rewrite lookup_drop. intros Hi. destruct (decide (n + i = length (k_events k))) as [E|E].
    + rewrite E, lookup_app_r, Nat.sub_diag in Hi by lia. simpl in Hi. simplify_eq. rewrite Hc. lia.
    + pose proof (lookup_lt_Some _ _ _ Hi) as Hlt. rewrite length_app in Hlt. simpl in Hlt.
      rewrite lookup_app_l in Hi by lia. rewrite (H2 _ _ Hi). lia.
Qed.

(** * Moving nodes: [makeReady] .. [failAttempt] and the leases

    Each keeps the invariant of the keys and cannot stop early; [terminate]
    satisfies each edge out of a node it ends, and ends within its fuel. *)

(** Only the hash of [id] changed, and no edge. *)
Definition only (id : string) (k k' : keys) : Prop :=
  (forall j, j <> id -> k_node k' !! j = k_node k !! j) /\ k_pred k' = k_pred k.

Lemma only_logged id ev n k : only id k (logged id ev n k).
Proof. split; [|done]. intros j Hj. rewrite logged_lookup. by case_decide. Qed.

Lemma only_trans id k1 k2 k3 : only id k1 k2 -> only id k2 k3 -> only id k1 k3.
Proof. intros [A1 B1] [A2 B2]. split; [|congruence]. intros j Hj. rewrite A2 by done. auto. Qed.

Lemma zready_ne h kind : h_kind h <> kind -> zready h kind = None.
Proof. intros Hne. unfold zready. rewrite decide_False; [done|]. by intros [_ ?]. Qed.

(** The sets [r:<kind>] of a node that is in none, or only in the one of its kind. *)
Lemma ready_delete {d k} h id kind :
  zinv d k -> k_node k !! id = Some h -> delete (h_kind h, id) (k_ready k) !! (kind, id) = None.
Proof.
  intros Hz Hh.
  destruct (decide (kind = h_kind h)) as [->|Hne]; [by rewrite lookup_delete_eq|].
  rewrite lookup_delete_ne by congruence. rewrite (zi_ready _ _ Hz), Hh. simpl. by apply zready_ne.
Qed.

Lemma sched_none {d k} id h :
  zinv d k -> k_node k !! id = Some h -> h_phase h <> PhaseScheduled -> k_sched k !! id = None.
Proof.
  intros Hz Hh Hp. destruct (zi_sched _ _ Hz id) as [->|[_ ?]]; [|done]. rewrite Hh. simpl. unfold zsched. by rewrite decide_False.
Qed.

Lemma lease_none {d k} id h :
  zinv d k -> k_node k !! id = Some h -> h_phase h <> PhaseClaimed -> k_leases k !! id = None.
Proof.
  intros Hz Hh Hp. destruct (zi_lease _ _ Hz id) as [->|[_ ?]]; [|done]. rewrite Hh. simpl. unfold zlease. by rewrite decide_False.
Qed.

(** Nothing that moves at one id moves the counters more than once each way. *)
Lemma stat_twice f p s p' s' (d d' : Z) m :
  stat (hincr (bucketField p' s') d' (hincr (bucketField p s) d m)) f =
  (stat m f + (if bool_decide (f = bucketField p s) then d else 0) + (if bool_decide (f = bucketField p' s') then d' else 0))%Z.
Proof. by rewrite !stat_hincr. Qed.

Section Moves.
Context {C : Type} `{!RedisServer C}.
Implicit Types (Y : string -> Prop) (skip d : option string).

(** ** [makeReady], [makeBlocked], [scheduleRetry] *)

Lemma lwp_makeReady skip d Y Y' id h k :
  kinv skip d Y k -> (d = None \/ d = Some id) -> k_node k !! id = Some h ->
  h_phase h = PhaseBlocked \/ h_phase h = PhaseScheduled ->
  (forall i, i <> id -> Y i -> Y' i) -> Y' id \/ (rule_lost h = false /\ rule_met h = true) ->
  wp (makeReady id (h_kind h) (h_priority h) (h_phase h) (h_status h) : L C unit)
    (fun _ k' => kinv skip None Y' k' /\ evolve k k' /\ only id k k' /\
       exists h', k_node k' !! id = Some h' /\ h_phase h' = PhaseReady /\ h_deps h' = h_deps h /\ h_trigger h' = h_trigger h) never k.
Proof.
  intros Hi Hd Hh Hp HY Hrule. unfold makeReady. lwp_steps. eapply lwp_set_node; [exact Hh|]. lwp_steps.
  set (h' := h <| h_phase := PhaseReady |> <| h_status := StatusNew |> <| h_fifo := Z.succ (k_nextfifo k) |> <| h_readyAt := 0%Z |>).
  assert (Hnd : h_phase h <> PhaseDone) by (destruct Hp as [E|E]; rewrite E; done).
  set (k' := _ <| k_rung ::= S |>).
  assert (Hnode : k_node k' = <[id := h']> (k_node k)) by done.
  assert (Hm : moves id h h' None k k').
  { split; try done.
    - split; try done. unfold done. by rewrite bool_decide_eq_false_2.
    - intros f. apply (stat_twice f _ _ PhaseReady StatusNew).
    - assert (Hz := ki_z Hi). pose proof (zi_next _ _ Hz).
      apply (zinv_at d None id k k' Hz).
      + intros i Hne. rewrite Hnode. by apply lookup_insert_ne.
      + intros kind i Hne. change (<[(h_kind h, id) := packScore (h_priority h) (Z.succ (k_nextfifo k))]> (k_ready k) !! (kind, i) = k_ready k !! (kind, i)).
        apply lookup_insert_ne. congruence.
      + intros i Hne. apply lookup_delete_ne. congruence.
      + done.
      + done.
      + intros kind. rewrite Hnode, lookup_insert_eq.
        change (<[(h_kind h, id) := packScore (h_priority h) (Z.succ (k_nextfifo k))]> (k_ready k) !! (kind, id) = zready h' kind).
        unfold zready. change (h_kind h') with (h_kind h). case_decide as E.
        * destruct E as [_ <-]. by rewrite lookup_insert_eq.
        * rewrite lookup_insert_ne; [|intros [= Hk]; by apply E]. rewrite (zi_ready _ _ Hz), Hh. simpl. apply zready_ne. intros ?. by apply E.
      + left. rewrite Hnode, lookup_insert_eq. apply lookup_delete_eq.
      + left. rewrite Hnode, lookup_insert_eq. change (k_leases k !! id = None). eapply lease_none; [done..|]. destruct Hp as [E|E]; rewrite E; done.
      + intros kind Hk. change (kind ∈ {[h_kind h]} ∪ k_kinds k). set_solver.
      + intros kind. change (is_Some (<[(h_kind h, id) := packScore (h_priority h) (Z.succ (k_nextfifo k))]> (k_ready k) !! (kind, id)) -> kind ∈ {[h_kind h]} ∪ k_kinds k).
        intros [v [[[= <-] _]|[_ Hv]]%lookup_insert_Some]; [set_solver|]. apply elem_of_union_r. eapply (zi_kinds _ _ Hz). by eexists.
      + change (k_nextfifo k <= Z.succ (k_nextfifo k))%Z. lia.
      + intros x. rewrite Hnode, lookup_insert_eq. intros [= <-]. change (0 <= Z.succ (k_nextfifo k) <= Z.succ (k_nextfifo k))%Z. lia.
    - change ((k_nextfifo k <= Z.succ (k_nextfifo k))%Z /\
        (PhaseReady = PhaseReady -> (h_phase h = PhaseReady /\ Z.succ (k_nextfifo k) = h_fifo h) \/ (k_nextfifo k < Z.succ (k_nextfifo k))%Z)).
      split; [lia|]. right. lia. }
  split_and!; [|by eapply move_evolve|split; [|done]|].
  - by eapply (kinv_move Hi Hm).
  - intros j Hj. rewrite Hnode. by apply lookup_insert_ne.
  - exists h'. by rewrite Hnode, lookup_insert_eq.
Qed.

Lemma lwp_makeBlocked skip Y Y' id h k :
  kinv skip None Y k -> k_node k !! id = Some h -> h_phase h = PhaseReady ->
  (forall i, i <> id -> Y i -> Y' i) -> Y' id \/ (rule_lost h = false /\ rule_met h = false) ->
  wp (makeBlocked id (h_kind h) (h_phase h) (h_status h) : L C unit)
    (fun _ k' => kinv skip None Y' k' /\ evolve k k' /\ only id k k' /\
       exists h', k_node k' !! id = Some h' /\ h_phase h' = PhaseBlocked) never k.
Proof.
  intros Hi Hh Hp HY Hrule. unfold makeBlocked. lwp_steps. eapply lwp_set_node; [exact Hh|]. lwp_steps.
  set (h' := h <| h_phase := PhaseBlocked |> <| h_status := StatusNew |> <| h_readyAt := 0%Z |>).
  set (k' := bump_bucket PhaseBlocked StatusNew 1 _).
  assert (Hnode : k_node k' = <[id := h']> (k_node k)) by done.
  assert (Hm : moves id h h' None k k').
  { split; try done.
    - split; try done. unfold done. rewrite Hp. by rewrite bool_decide_eq_false_2.
    - intros f. apply (stat_twice f _ _ PhaseBlocked StatusNew).
    - assert (Hz := ki_z Hi). apply (zinv_at None None id k k' Hz).
      + intros i Hne. rewrite Hnode. by apply lookup_insert_ne.
      + intros kind i Hne. apply lookup_delete_ne. congruence.
      + intros i Hne. apply lookup_delete_ne. congruence.
      + done.
      + by left.
      + intros kind. rewrite Hnode, lookup_insert_eq. exact (ready_delete h id kind Hz Hh).
      + left. rewrite Hnode, lookup_insert_eq. apply lookup_delete_eq.
      + left. rewrite Hnode, lookup_insert_eq. change (k_leases k !! id = None). eapply lease_none; [done..|by rewrite Hp].
      + done.
      + intros kind [v Hv]. assert (delete (h_kind h, id) (k_ready k) !! (kind, id) = None) as E by exact (ready_delete h id kind Hz Hh).
        change (delete (h_kind h, id) (k_ready k) !! (kind, id) = Some v) in Hv. congruence.
      + done.
      + intros x. rewrite Hnode, lookup_insert_eq. intros [= <-]. by apply (zi_fifo _ _ Hz id h). }
  split_and!; [|by eapply move_evolve|split; [|done]|].
  - eapply (kinv_move Hi Hm); done.
  - intros j Hj. rewrite Hnode. by apply lookup_insert_ne.
  - exists h'. by rewrite Hnode, lookup_insert_eq.
Qed.

Lemma lwp_scheduleRetry skip d Y id h atMs k :
  kinv skip d Y k -> (d = None \/ d = Some id) -> k_leases k !! id = None -> k_node k !! id = Some h -> h_phase h = PhaseClaimed ->
  wp (scheduleRetry id (h_kind h) atMs (h_phase h) (h_status h) : L C unit)
    (fun _ k' => kinv skip None Y k' /\ evolve k k' /\ only id k k' /\
       k_node k' !! id = Some (h <| h_phase := PhaseScheduled |> <| h_status := StatusNew |> <| h_readyAt := atMs |>)) never k.
Proof.
  intros Hi Hd Hl Hh Hp. unfold scheduleRetry. lwp_steps. eapply lwp_set_node; [exact Hh|]. lwp_steps.
  set (h' := h <| h_phase := PhaseScheduled |> <| h_status := StatusNew |> <| h_readyAt := atMs |>).
  set (k' := bump_bucket PhaseScheduled StatusNew 1 _).
  assert (Hnode : k_node k' = <[id := h']> (k_node k)) by done.
  assert (Hm : moves id h h' None k k').
  { split; try done.
    - split; try done. unfold done. rewrite Hp. by rewrite bool_decide_eq_false_2.
    - intros f. apply (stat_twice f _ _ PhaseScheduled StatusNew).
    - assert (Hz := ki_z Hi). apply (zinv_at d None id k k' Hz).
      + intros i Hne. rewrite Hnode. by apply lookup_insert_ne.
      + intros kind i Hne. apply lookup_delete_ne. congruence.
      + intros i Hne. apply lookup_insert_ne. congruence.
      + done.
      + done.
      + intros kind. rewrite Hnode, lookup_insert_eq. exact (ready_delete h id kind Hz Hh).
      + left. rewrite Hnode, lookup_insert_eq. apply lookup_insert_eq.
      + left. by rewrite Hnode, lookup_insert_eq.
      + done.
      + intros kind [v Hv]. assert (delete (h_kind h, id) (k_ready k) !! (kind, id) = None) as E by exact (ready_delete h id kind Hz Hh).
        change (delete (h_kind h, id) (k_ready k) !! (kind, id) = Some v) in Hv. congruence.
      + done.
      + intros x. rewrite Hnode, lookup_insert_eq. intros [= <-]. by apply (zi_fifo _ _ Hz id h). }
  split_and!; [|by eapply move_evolve|split; [|done]|].
  - eapply (kinv_move Hi Hm); try done. destruct (ki_settled Hi id h Hh) as [?|Hr]; [by left|right].
    unfold rule_ok in *. by rewrite Hp in Hr.
  - intros j Hj. rewrite Hnode. by apply lookup_insert_ne.
  - by rewrite Hnode, lookup_insert_eq.
Qed.

(** ** Ending a node *)

Lemma live_weaken skip k : live None k -> live skip k.
Proof. intros Hl a b ha He Ha Hd. by specialize (Hl a b ha He Ha Hd). Qed.

Lemma kinv_skip skip d Y k : kinv None d Y k -> kinv skip d Y k.
Proof. intros []. split; try done. by apply live_weaken. Qed.

(** The node is done afterwards; its edges are still to be satisfied. *)
Lemma lwp_end_node d Y Y' id h e now k :
  kinv None d Y k -> (d = None \/ d = Some id) -> k_node k !! id = Some h -> done h = false ->
  Status_Terminal e.1.1 = true -> (forall i, i <> id -> Y i -> Y' i) ->
  wp (end_node id h e now : L C unit)
    (fun _ k' => kinv (Some id) None Y' k' /\ evolve k k' /\ only id k k' /\
       exists h', k_node k' !! id = Some h' /\ done h' = true /\ h_status h' = e.1.1 /\ h_reason h' = e.1.2) never k.
Proof.
  intros Hi Hd Hh Hnd Hst HY. destruct e as [[st rs] mg]. simpl in Hst. unfold end_node. lwp_steps.
  eapply lwp_set_node; [exact Hh|]. lwp_steps.
  set (h' := h <| h_phase := PhaseDone |> <| h_status := st |> <| h_reason := rs |> <| h_message := mg |>
               <| h_deadline := 0%Z |> <| h_readyAt := 0%Z |> <| h_updatedAt := now |>).
  set (k' := bump_bucket PhaseDone st 1 _).
  assert (Hnode : k_node k' = <[id := h']> (k_node k)) by done.
  assert (Hm : moves id h h' None k k').
  { split; try done.
    - split; try done. congruence.
    - intros f. apply (stat_twice f _ _ PhaseDone st).
    - assert (Hz := ki_z Hi). apply (zinv_at d None id k k' Hz).
      + intros i Hne. rewrite Hnode. by apply lookup_insert_ne.
      + intros kind i Hne. apply lookup_delete_ne. congruence.
      + intros i Hne. apply lookup_delete_ne. congruence.
      + intros i Hne. apply lookup_delete_ne. congruence.
      + done.
      + intros kind. rewrite Hnode, lookup_insert_eq. exact (ready_delete h id kind Hz Hh).
      + left. rewrite Hnode, lookup_insert_eq. apply lookup_delete_eq.
      + left. rewrite Hnode, lookup_insert_eq. apply lookup_delete_eq.
      + done.
      + intros kind [v Hv]. assert (delete (h_kind h, id) (k_ready k) !! (kind, id) = None) as E by exact (ready_delete h id kind Hz Hh).
        change (delete (h_kind h, id) (k_ready k) !! (kind, id) = Some v) in Hv. congruence.
      + done.
      + intros x. rewrite Hnode, lookup_insert_eq. intros [= <-]. by apply (zi_fifo _ _ Hz id h). }
  assert (Hi' : kinv (Some id) None Y' k').
  { eapply (kinv_move (kinv_skip (Some id) _ _ _ Hi) Hm); [by right|done|by right]. }
  assert (Hat : k_node k' !! id = Some h') by (by rewrite Hnode, lookup_insert_eq).
  apply lwp_recordEvent; [by eexists|]. intros ev n Hc Hn. split_and!.
  - by apply kinv_logged.
  - etrans; [by eapply move_evolve|apply logged_evolve].
  - apply (only_trans id k k'); [|apply only_logged]. split; [|done]. intros j Hj. rewrite Hnode. by apply lookup_insert_ne.
  - destruct (logged_node_fwd id ev n k' id h' Hat) as (x & Hx & [->| ->]); eexists; (split; [done|by split_and!]).
Qed.

End Moves.
