(* ===== verification/RedisLease.v ===== *)
(** * [terminate] and [settle] on the keys *)
From S2P Require Import Prelude Types GoText Config Scope MapSum RedisData RedisScripts RedisInv.

(** ** Edges and successors *)

Lemma elem_succs_of k a b : b ∈ succs_of k a <-> (a, b) ∈ k_succ k.
Proof.
  unfold succs_of. rewrite list_elem_of_fmap. split.
  - intros ([x y] & -> & [E Hin]%list_elem_of_filter). simpl in *. subst. by apply elem_of_elements in Hin.
  - intros Hin. exists (a, b). split; [done|]. apply list_elem_of_filter. split; [done|]. by apply elem_of_elements.
Qed.

Lemma elem_preds_of k a b : a ∈ preds_of k b <-> is_Some (k_pred k !! (b, a)).
Proof.
  unfold preds_of. rewrite list_elem_of_fmap. split.
  - intros ([x y] & -> & [E Hin]%list_elem_of_filter). simpl in *. subst.
    apply list_elem_of_fmap in Hin as ([e sat] & E & Hin%elem_of_map_to_list). simpl in E. rewrite E. by eexists.
  - intros [sat Hs]. exists (b, a). split; [done|]. apply list_elem_of_filter. split; [done|].
    apply list_elem_of_fmap. exists ((b, a), sat). split; [done|]. by apply elem_of_map_to_list.
Qed.

Lemma lwp_smembers {C : Type} `{!RedisServer C} i (Q : list string -> keys -> Prop) E k :
  (forall l, l ≡ₚ succs_of k i -> Q l k) -> wp (smembers_succ i : L C _) Q E k.
Proof. intros HQ. unfold smembers_succ. by apply lwp_bind, lwp_read, lwp_any_order. Qed.

Lemma lwp_hkeys {C : Type} `{!RedisServer C} i (Q : list string -> keys -> Prop) E k :
  (forall l, l ≡ₚ preds_of k i -> Q l k) -> wp (hkeys_pred i : L C _) Q E k.
Proof. intros HQ. unfold hkeys_pred. by apply lwp_bind, lwp_read, lwp_any_order. Qed.

(** The number of unsatisfied edges, which bounds what is still to be queued. *)
Definition unsat_edges (k : keys) : Z := msum (fun _ sat => Z.b2z (negb sat)) (k_pred k).

Lemma key_unsat_edges_nonneg k : (0 <= unsat_edges k)%Z.
Proof. apply msum_nonneg. intros _ sat _. by destruct sat. Qed.

Lemma key_unsat_edges_le k : (unsat_edges k <= Z.of_nat (size (k_pred k)))%Z.
Proof.
  unfold unsat_edges. induction (k_pred k) as [|e sat m Hk IH] using map_ind; [by rewrite msum_empty|].
  rewrite msum_insert by done. rewrite map_size_insert_None by done. destruct sat; simpl; lia.
Qed.

(** A node whose rule is met waits for no edge, unless it never waits. *)
Lemma met_no_unsat k b h :
  ginv k -> k_node k !! b = Some h -> rule_met h = true -> h_trigger h = TriggerAlways \/ forall a, k_pred k !! (b, a) <> Some false.
Proof.
  intros Hg Hb Hm. destruct (decide (h_trigger h = TriggerAlways)) as [?|Ht]; [by left|right]. intros a He.
  unfold rule_met, depsReady in Hm. rewrite bool_decide_eq_false_2 in Hm by done.
  destruct (0 <? Unsatisfied (h_deps h))%Z eqn:E; [done|]. apply Z.ltb_ge in E.
  pose proof (gi_deps k Hg b h DUnsat Hb) as Hd. simpl in Hd.
  assert (1 <= edge_count k b DUnsat)%Z; [|lia]. unfold edge_count.
  etrans; [|eapply (msum_ge _ _ (b, a) false); [|done]].
  - unfold into, edge_class. simpl. rewrite bool_decide_eq_true_2 by done. destruct (k_node k !! a); simpl; by rewrite ?bool_decide_eq_true_2.
  - intros. apply into_nonneg.
Qed.

(** ** An edge turned satisfied *)

Definition flip (b a : string) (hb : hnode) (k : keys) : keys :=
  k <| k_pred ::= <[(b, a) := true]> |> <| k_node ::= <[b := hb]> |>.

Lemma key_into_at ns a b b' c ha sat :
  ns !! a = Some ha ->
  into ns b' c (b, a) sat =
  if bool_decide (b = b') then Z.b2z (bool_decide (class_of sat (h_status ha) (h_reason ha) = c)) else 0%Z.
Proof. intros Ha. unfold into, edge_class. simpl. rewrite Ha. by case_bool_decide. Qed.

(** An edge is counted in the tally of its target. *)
Lemma key_tally_pos k a b ha hb sat :
  ginv k -> k_pred k !! (b, a) = Some sat -> k_node k !! a = Some ha -> k_node k !! b = Some hb ->
  (1 <= dep_field (class_of sat (h_status ha) (h_reason ha)) (h_deps hb))%Z.
Proof.
  intros Hg He Ha Hb. rewrite (gi_deps k Hg b hb _ Hb). unfold edge_count.
  etrans; [|eapply (msum_ge _ _ (b, a) sat); [|done]].
  - rewrite (key_into_at _ _ _ _ _ ha) by done. by rewrite !bool_decide_eq_true_2.
  - intros. apply into_nonneg.
Qed.

Section Flip.
Context {Y : string -> Prop} {k : keys} (a b : string) (ha hb : hnode).
Context (Hi : kinv (Some a) None Y k) (He : k_pred k !! (b, a) = Some false).
Context (Ha : k_node k !! a = Some ha) (Hda : done ha = true) (Hb : k_node k !! b = Some hb).

Definition flipped : hnode := hb <| h_deps ::= fun t => bump_dep (Some (h_status ha)) (Some (h_reason ha)) 1 (drop_unsat t) |>.

Lemma key_flip_ne : a <> b.
Proof.
  intros ->. destruct (gi_edge k (ki_graph Hi) b b false He) as (x & y & Hx & Hy & Hlt & _). simplify_eq. lia.
Qed.

Lemma flip_lookup i : k_node (flip b a flipped k) !! i = if decide (i = b) then Some flipped else k_node k !! i.
Proof. simpl. case_decide as E; [subst; by rewrite lookup_insert_eq|by rewrite lookup_insert_ne]. Qed.

Lemma flip_pred e : k_pred (flip b a flipped k) !! e = if decide (e = (b, a)) then Some true else k_pred k !! e.
Proof. simpl. case_decide as E; [subst; by rewrite lookup_insert_eq|by rewrite lookup_insert_ne]. Qed.

Lemma flip_evolve : evolve k (flip b a flipped k).
Proof.
  split; try done.
  - intros i h Hh. rewrite flip_lookup. case_decide as E; [|by exists h]. subst. simplify_eq. exists flipped. split; [done|by split].
  - intros i h. rewrite flip_lookup. case_decide as E; [|by exists h]. intros [= <-]. subst. exists hb. split; [done|by split].
  - intros e. rewrite flip_pred. case_decide; subst; auto.
  - split; [done|]. intros i h h' Hh. rewrite flip_lookup. case_decide as E; intros; left; subst; by simplify_eq.
Qed.

Lemma key_flip_count b' c :
  edge_count (flip b a flipped k) b' c =
  (edge_count k b' c + (if bool_decide (b = b') then
     Z.b2z (bool_decide (class_of true (h_status ha) (h_reason ha) = c)) - Z.b2z (bool_decide (DUnsat = c)) else 0))%Z.
Proof.
  unfold edge_count. rewrite (key_into_ext _ (k_node k)).
  - simpl. rewrite (msum_update _ _ _ false) by done. rewrite !(key_into_at _ _ _ _ _ ha) by done.
    change (class_of false _ _) with DUnsat. case_bool_decide; lia.
  - intros x y sat. rewrite flip_pred. unfold edge_class. rewrite flip_lookup. case_decide as E; [|intros He'].
    + injection E as -> ->. by rewrite decide_False by apply key_flip_ne.
    + case_decide; [|done]. subst. destruct (gi_edge k (ki_graph Hi) b y sat He') as (z & _ & Hz & _). by rewrite Hb.
Qed.

Lemma flip_kinv (Y' : string -> Prop) :
  (forall i, i <> b -> Y i -> Y' i) -> (Y' b \/ rule_ok flipped) -> kinv (Some a) None Y' (flip b a flipped k).
Proof.
  intros HY Hrule. pose proof (ki_graph Hi) as Hg. split.
  - apply (ginv_evolve k); [done|apply flip_evolve|..].
    + intros i h. rewrite flip_lookup. case_decide; intros; simplify_eq; [exact (gi_coh k Hg b hb Hb)|by eapply (gi_coh k Hg)].
    + intros x y hx. rewrite flip_pred, flip_lookup. case_decide as E.
      * injection E as -> ->. intros _. rewrite decide_False by apply key_flip_ne. congruence.
      * intros Hp. destruct (gi_edge k Hg x y true Hp) as (z & _ & Hz & _ & _ & Hd).
        case_decide; intros; simplify_eq; by apply Hd.
    + intros x hx c. rewrite key_flip_count, flip_lookup. case_decide as E; intros Hx.
      * subst x. injection Hx as <-. rewrite bool_decide_eq_true_2 by done.
        change (h_deps flipped) with (bump_dep (Some (h_status ha)) (Some (h_reason ha)) 1 (drop_unsat (h_deps hb))).
        rewrite (bump_dep_field _ _ _ _ c), (drop_unsat_field _ (key_tally_pos k a b ha hb false Hg He Ha Hb) c).
        rewrite (gi_deps k Hg b hb c Hb). repeat case_bool_decide; subst; simpl; try done; lia.
      * rewrite bool_decide_eq_false_2 by congruence. rewrite (gi_deps k Hg x hx c) by done. lia.
  - intros x y hx. rewrite flip_pred, flip_lookup. case_decide; [done|]. intros Hp.
    case_decide; intros; simplify_eq; [by eapply (ki_live Hi _ y hb)|by eapply (ki_live Hi)].
  - pose proof (ki_z Hi) as [R S L K F N]. split; [..|done| |done].
    + intros kind i. rewrite flip_lookup. simpl. rewrite R. case_decide; [|done]. subst. by rewrite Hb.
    + intros i. rewrite flip_lookup. simpl. destruct (S i) as [->|[? _]]; [|done]. left. case_decide; [|done]. subst. by rewrite Hb.
    + intros i. rewrite flip_lookup. simpl. destruct (L i) as [->|[? _]]; [|done]. left. case_decide; [|done]. subst. by rewrite Hb.
    + intros i h. rewrite flip_lookup. case_decide; intros; simplify_eq; [by eapply (F _ hb)|by eapply F].
  - intros f Hf. simpl. rewrite (msum_update _ _ _ hb) by done. rewrite (ki_stat Hi f Hf). unfold counted. simpl. lia.
  - intros i h. rewrite flip_lookup. case_decide; intros Hh; simplify_eq; [done|].
    destruct (ki_settled Hi i h Hh); auto.
  - apply (ki_log Hi).
Qed.

Lemma flip_unsat : unsat_edges (flip b a flipped k) = (unsat_edges k - 1)%Z.
Proof. unfold unsat_edges. simpl. rewrite (msum_update _ _ _ false) by done. simpl. lia. Qed.

End Flip.

(** ** The cascade *)

(** The nodes of a rank below [K] do not change. *)
Definition low_kept (K : Z) (k k' : keys) : Prop :=
  forall j h, k_node k !! j = Some h -> (h_ord h < K)%Z -> k_node k' !! j = Some h.

#[export] Instance low_kept_refl K : Reflexive (low_kept K).
Proof. by intros k j h. Qed.

Lemma key_low_kept_trans K k1 k2 k3 : low_kept K k1 k2 -> low_kept K k2 k3 -> low_kept K k1 k3.
Proof. intros H1 H2 j h Hh Hk. apply H2; [|done]. by apply H1. Qed.

Lemma low_kept_only K id h k k' :
  k_node k !! id = Some h -> (K <= h_ord h)%Z -> (forall j, j <> id -> k_node k' !! j = k_node k !! j) -> low_kept K k k'.
Proof. intros Hh Hk Ho j x Hx Hlt. rewrite Ho; [done|]. intros ->. simplify_eq. lia. Qed.

(** A claimed or scheduled node stays as it is, [ex] apart, and no other node
    becomes one. *)
Definition is_busy (h : hnode) : bool :=
  match h_phase h with PhaseClaimed | PhaseScheduled => true | _ => false end.

Definition busy_kept (ex : option string) (k k' : keys) : Prop :=
  forall j h h', Some j <> ex -> k_node k !! j = Some h -> k_node k' !! j = Some h' ->
  is_busy h' = is_busy h /\ (is_busy h = true -> h_phase h' = h_phase h /\ h_deadline h' = h_deadline h).

#[export] Instance busy_kept_refl ex : Reflexive (busy_kept ex).
Proof. intros k j h h' _ Hh Hh'. by simplify_eq. Qed.

Lemma busy_kept_trans ex k1 k2 k3 : evolve k1 k2 -> busy_kept ex k1 k2 -> busy_kept ex k2 k3 -> busy_kept ex k1 k3.
Proof.
  intros Hv H1 H2 j h h' Hne Hh Hh'. destruct (ev_forth _ _ Hv j h Hh) as (x & Hx & _).
  destruct (H1 j h x Hne Hh Hx) as [E1 F1], (H2 j x h' Hne Hx Hh') as [E2 F2]. split; [congruence|]. intros Hb.
  destruct (F1 Hb), F2; [congruence|]. split; congruence.
Qed.

Lemma busy_kept_only id h h' k k' :
  (forall j, j <> id -> k_node k' !! j = k_node k !! j) -> k_node k !! id = Some h -> k_node k' !! id = Some h' ->
  is_busy h = false -> is_busy h' = false -> busy_kept None k k'.
Proof.
  intros Ho Hh Hh' B B' j x x' _ Hx Hx'. destruct (decide (j = id)) as [->|Hne]; [simplify_eq; by rewrite B, B'|].
  rewrite Ho in Hx' by done. by simplify_eq.
Qed.

Lemma busy_kept_but id k k' : (forall j, j <> id -> k_node k' !! j = k_node k !! j) -> busy_kept (Some id) k k'.
Proof. intros Ho j x x' Hne Hx Hx'. rewrite Ho in Hx' by congruence. by simplify_eq. Qed.

Lemma busy_kept_weaken ex k k' : busy_kept None k k' -> busy_kept ex k k'.
Proof. intros H j h h' _. by apply H. Qed.

Lemma done_not_busy h : done h = true -> is_busy h = false.
Proof. unfold done, is_busy. intros E%bool_decide_eq_true. by rewrite E. Qed.

(** What is queued has an ending, no low rank, and neither lease nor retry. *)
Definition q_ok (K : Z) (k : keys) (queue : list string) (q : gmap string ending) : Prop :=
  forall i, i ∈ queue -> (exists e, q !! i = Some e /\ Status_Terminal e.1.1 = true) /\
    forall h, k_node k !! i = Some h -> (K <= h_ord h)%Z /\ is_busy h = false.

Lemma q_ok_evolve K k k' queue q : evolve k k' -> busy_kept None k k' -> q_ok K k queue q -> q_ok K k' queue q.
Proof.
  intros Hv Hb Hq i Hi. destruct (Hq i Hi) as [He Hk]. split; [done|]. intros h' Hh'.
  destruct (ev_back _ _ Hv i h' Hh') as (h & Hh & Kp). rewrite (kp_ord _ _ Kp). destruct (Hk h Hh). split; [done|].
  destruct (Hb i h h') as [-> _]; done.
Qed.

Lemma kinv_weaken {skip d} {Y} (Y' : string -> Prop) k :
  kinv skip d Y k -> (forall i h, k_node k !! i = Some h -> Y i -> Y' i \/ rule_ok h) -> kinv skip d Y' k.
Proof.
  intros [? ? ? ? Hs ?] HY. split; try done. intros i h Hh. destruct (Hs i h Hh); eauto.
Qed.

Section Cascade.
Context {C : Type} `{!RedisServer C} (K : Z).
Implicit Types (Y : string -> Prop).

Notation queue_state := (list string * gmap string ending)%type.

(** What one successor [w] of [a] leaves: its edge is no longer among the
    unsatisfied ones, and what is queued is paid for by an edge turned
    satisfied. *)
Definition fanout_post Y (a w : string) (acc : queue_state) (k : keys) (acc' : queue_state) (k' : keys) : Prop :=
  kinv (Some a) None (fun i => Y i \/ i ∈ acc'.1) k' /\ evolve k k' /\ q_ok K k' acc'.1 acc'.2 /\
  (forall i, i ∈ acc.1 -> i ∈ acc'.1) /\ low_kept K k k' /\ busy_kept None k k' /\
  (forall b, k_pred k' !! (b, a) = Some false -> k_pred k !! (b, a) = Some false /\ b <> w) /\
  (Z.of_nat (length acc'.1) + unsat_edges k' <= Z.of_nat (length acc.1) + unsat_edges k)%Z.

Lemma lwp_fanout_one Y a ha now acc w k :
  kinv (Some a) None (fun i => Y i \/ i ∈ acc.1) k -> k_node k !! a = Some ha -> done ha = true -> (K <= h_ord ha)%Z ->
  q_ok K k acc.1 acc.2 ->
  wp (fanout_one a (h_status ha) (h_reason ha) now acc w : L C queue_state) (fanout_post Y a w acc k) never k.
Proof.
  intros Hi Ha Hda HK Hq. unfold fanout_one, markSatisfied. lwp_steps.
  assert (Hskip : k_pred k !! (w, a) <> Some false -> fanout_post Y a w acc k acc k).
  { intros Hne. split_and!; try done. intros b Hb. split; [done|]. by intros ->. }
  destruct (k_pred k !! (w, a)) as [[]|] eqn:He; [lwp_steps; cbn [negb]; lwp_steps; by apply Hskip| |lwp_steps; cbn [negb]; lwp_steps; by apply Hskip].
  clear Hskip. pose proof (ki_graph Hi) as Hg.
  destruct (gi_edge k Hg a w false He) as (x & hw & Hx & Hw & Hlt & _). assert (x = ha) as -> by congruence. clear Hx.
  lwp_steps. eapply lwp_set_node; [exact Hw|].
  lazymatch goal with |- wp _ _ _ ?kk => change kk with (flip w a (flipped ha hw) k) end.
  set (k1 := flip w a (flipped ha hw) k). lwp_steps. cbn [negb]. lwp_steps.
  assert (Hk := fun Y' => flip_kinv a w ha hw Hi He Ha Hda Hw Y'). fold k1 in Hk.
  assert (Hev : evolve k k1) by (by apply flip_evolve).
  assert (Hu : unsat_edges k1 = (unsat_edges k - 1)%Z) by (by apply flip_unsat).
  assert (Hat : k_node k1 !! w = Some (flipped ha hw)) by (unfold k1; by rewrite flip_lookup, decide_True).
  assert (Hoth : forall j, j <> w -> k_node k1 !! j = k_node k !! j) by (intros j Hj; unfold k1; by rewrite flip_lookup, decide_False).
  assert (Hlow : low_kept K k k1) by (apply (low_kept_only K w hw); [done|lia|done]).
  assert (Hrem : forall b, k_pred k1 !! (b, a) = Some false -> k_pred k !! (b, a) = Some false /\ b <> w).
  { intros b. unfold k1. rewrite flip_pred. case_decide as E; [done|]. intros Hb. split; [done|]. intros ->. by apply E. }
  assert (Hbz : busy_kept None k k1).
  { intros j x y _ Hx Hy. destruct (decide (j = w)) as [->|Hne]; [|rewrite Hoth in Hy by done]; by simplify_eq. }
  assert (Hq1 : q_ok K k1 acc.1 acc.2) by (by apply (q_ok_evolve K k)).
  clearbody k1. rewrite Hat.
  assert (Hstop : (Y w \/ w ∈ acc.1) \/ rule_ok (flipped ha hw) -> fanout_post Y a w acc k acc k1).
  { intros Hr. split_and!; try done; [|lia]. by apply Hk. }
  (* a node that may run waits for no edge, unless it never waits *)
  assert (Hkeep : h_phase hw <> PhaseBlocked -> (Y w \/ w ∈ acc.1) \/ rule_ok (flipped ha hw)).
  { intros Hnb. destruct (ki_settled Hi w hw Hw) as [?|Hr]; [by left|right]. unfold rule_ok in *.
    change (h_phase (flipped ha hw)) with (h_phase hw).
    assert (Hmet : rule_met hw = true -> rule_lost (flipped ha hw) = false /\ rule_met (flipped ha hw) = true).
    { intros Hmet. destruct (met_no_unsat k w hw Hg Hw Hmet) as [Ht|Hn]; [|by destruct (Hn a)].
      unfold rule_lost, rule_met, depsReady. change (h_trigger (flipped ha hw)) with (h_trigger hw). by rewrite Ht. }
    destruct (h_phase hw); try done; apply Hmet, Hr. }
  set (h := flipped ha hw) in *.
  assert (Hph : h_phase h = h_phase hw) by done.
  assert (Hpush : h_phase hw = PhaseBlocked \/ h_phase hw = PhaseReady -> fanout_post Y a w acc k (acc.1 ++ [w], <[w := (StatusError, depsTerminalReason (Failed (h_deps h)),
                    terminalMessage (depsTerminalReason (Failed (h_deps h))))]> acc.2) k1).
  { intros Hnb. split_and!; simpl; try done.
    - apply Hk; [set_solver|left; set_solver].
    - intros i [Hin| ->%list_elem_of_singleton]%elem_of_app.
      + destruct (Hq1 i Hin) as [(e & Ee & Et) HKi]. split; [|done].
        destruct (decide (i = w)) as [->|Hne]; [rewrite lookup_insert_eq; by eexists|rewrite lookup_insert_ne by done; by eexists].
      + split; [rewrite lookup_insert_eq; by eexists|]. intros h' Hh'. simplify_eq. change (h_ord h) with (h_ord hw).
        split; [lia|]. unfold is_busy. change (h_phase h) with (h_phase hw). by destruct Hnb as [-> | ->].
    - set_solver.
    - rewrite length_app. simpl. lia. }
  destruct (h_phase h) eqn:Ep; try (apply lwp_ret, Hstop, Hkeep; by rewrite <- Hph).
  all: destruct (rule_lost h) eqn:El; [apply lwp_ret, Hpush; rewrite <- Hph; auto|].
  all: destruct (rule_met h) eqn:Em; cbn [negb].
  - (* Blocked, and the rule is met *)
    rewrite bool_decide_eq_false_2 by done. cbn [negb]. lwp_steps. rewrite <- Ep.
    eapply lwp_mono; [apply (lwp_makeReady (Some a) None (fun i => (Y i \/ i ∈ acc.1) \/ i = w) (fun i => Y i \/ i ∈ acc.1) w h)|]; try done.
    + apply Hk; [by auto|by left; right].
    + by left.
    + by left.
    + intros i Hne [?|?]; done.
    + by right.
    + intros [] k2 (Hi2 & Hev2 & [Ho2 Hp2] & h2 & Hh2 & Hr2 & _). lwp_steps. apply lwp_recordEvent; [by eexists|]. intros ev n Hc Hn.
      lwp_steps. assert (Hv : evolve k1 (logged w ev n k2)) by (etrans; [done|apply logged_evolve]).
      assert (Hb : busy_kept None k1 (logged w ev n k2)).
      { destruct (logged_node_fwd w ev n k2 w h2 Hh2) as (h3 & Hh3 & E3).
        apply (busy_kept_only w h h3); [|done|done|unfold is_busy; by rewrite Ep|].
        - intros j Hj. rewrite (proj1 (only_logged w ev n k2)) by done. by apply Ho2.
        - unfold is_busy. destruct E3 as [->| ->]; simpl; by rewrite Hr2. }
      split_and!; [by apply kinv_logged|by etrans|by apply (q_ok_evolve K k1)|done| |by apply (busy_kept_trans None k k1)| |].
      * apply (low_kept_only K w hw); [done|lia|]. intros j Hj. rewrite (proj1 (only_logged w ev n k2)) by done.
        rewrite Ho2 by done. auto.
      * intros b. simpl. rewrite Hp2. auto.
      * unfold unsat_edges in *. simpl. rewrite Hp2. lia.
  - apply lwp_ret, Hstop. right. unfold rule_ok. by rewrite Ep.
  - rewrite bool_decide_eq_true_2 by done. cbn [negb]. apply lwp_ret, Hstop. right. unfold rule_ok. by rewrite Ep.
  - apply lwp_ret, Hstop, Hkeep. by rewrite <- Hph.
Qed.

(** All the successors [ws] that are left: no unsatisfied edge leads elsewhere. *)
Lemma lwp_fanout Y a ha now ws acc k :
  kinv (Some a) None (fun i => Y i \/ i ∈ acc.1) k -> k_node k !! a = Some ha -> done ha = true -> (K <= h_ord ha)%Z ->
  q_ok K k acc.1 acc.2 -> (forall b, k_pred k !! (b, a) = Some false -> b ∈ ws) ->
  wp (fanout a (h_status ha) (h_reason ha) now ws acc : L C queue_state)
    (fun acc' k' => kinv None None (fun i => Y i \/ i ∈ acc'.1) k' /\ evolve k k' /\ q_ok K k' acc'.1 acc'.2 /\
       (forall i, i ∈ acc.1 -> i ∈ acc'.1) /\ low_kept K k k' /\ busy_kept None k k' /\
       (Z.of_nat (length acc'.1) + unsat_edges k' <= Z.of_nat (length acc.1) + unsat_edges k)%Z) never k.
Proof.
  revert ha acc k. induction ws as [|w ws IH]; intros ha acc k Hi Ha Hda HK Hq Hcov; cbn [fanout].
  { apply lwp_ret. split_and!; try done. destruct Hi as [Hg Hl Hz Hs Hy He]. split; try done.
    intros x b hx Hp Hx Hd. assert (E : Some a = Some x) by (by eapply Hl). injection E as ->.
    by apply Hcov, not_elem_of_nil in Hp. }
  apply lwp_bind. eapply lwp_mono; [by apply (lwp_fanout_one Y)|].
  intros acc1 k1 (Hi1 & Hv1 & Hq1 & Hin1 & Ho1 & Hb1 & Hr1 & Hn1).
  destruct (ev_forth _ _ Hv1 a ha Ha) as (ha1 & Ha1 & Kp). destruct (kp_done _ _ Kp Hda) as (Hda1 & Es & Er).
  rewrite <- Es, <- Er. eapply lwp_mono; [apply (IH ha1 acc1 k1); try done|].
  - by rewrite (kp_ord _ _ Kp).
  - intros b [Hb Hne]%Hr1. specialize (Hcov b Hb). by apply elem_of_cons in Hcov as [?|?].
  - intros acc2 k2 (Hi2 & Hv2 & Hq2 & Hin2 & Hl2 & Hb2 & Hn2). split_and!; [done|by etrans|done|auto| | |lia].
    + by apply (key_low_kept_trans K k k1).
    + by apply (busy_kept_trans None k k1).
Qed.

Lemma lwp_terminate_loop fuel Y queue q now k :
  kinv None None (fun i => Y i \/ i ∈ queue) k -> q_ok K k queue q ->
  (Z.of_nat (length queue) + unsat_edges k < Z.of_nat fuel)%Z ->
  wp (terminate_loop fuel queue q now : L C unit)
    (fun _ k' => kinv None None Y k' /\ evolve k k' /\ low_kept K k k' /\ busy_kept None k k' /\
       forall i h, i ∈ queue -> k_node k' !! i = Some h -> done h = true) never k.
Proof.
  revert queue q k. induction fuel as [|fuel IH]; intros queue q k Hi Hq Hf.
  { pose proof (key_unsat_edges_nonneg k). lia. }
  cbn [terminate_loop]. destruct queue as [|id queue].
  { apply lwp_ret. split_and!; try done; [|by intros i h Hin%not_elem_of_nil].
    eapply kinv_weaken; [exact Hi|]. intros i h _ [?|Hin%not_elem_of_nil]; [by left|done]. }
  lwp_steps. destruct (Hq id) as [(e & Ee & Et) HK]; [by left|].
  assert (Hq' : q_ok K k queue q) by (intros i Hin; apply Hq; by right).
  assert (Hdrop : (forall h, k_node k !! id = Some h -> done h = true) ->
    wp (terminate_loop fuel queue q now : L C unit) (fun _ k' => kinv None None Y k' /\ evolve k k' /\ low_kept K k k' /\ busy_kept None k k' /\
       forall i h, i ∈ id :: queue -> k_node k' !! i = Some h -> done h = true) never k).
  { intros Hd. eapply lwp_mono; [apply IH; [|done|simpl in Hf; lia]|].
    - eapply kinv_weaken; [exact Hi|]. intros i h Hh [?|[->|?]%elem_of_cons]; [by left; left| |by left; right].
      right. specialize (Hd h Hh). unfold rule_ok. apply bool_decide_eq_true in Hd. by rewrite Hd.
    - intros [] k' (Hi' & Hv' & Hl' & Hb' & Hall). split_and!; try done. intros i h [->|Hin]%elem_of_cons Hh; [|by eapply Hall].
      destruct (ev_back _ _ Hv' id h Hh) as (h0 & Hh0 & Kp). by apply (kp_done _ _ Kp), Hd. }
  destruct (k_node k !! id) as [h|] eqn:Hh; [|by apply Hdrop].
  case_bool_decide as Hph; [apply Hdrop; intros h0 [= <-]; by apply bool_decide_eq_true|]. clear Hdrop.
  lwp_steps. eapply lwp_need; [exact Ee|]. lwp_steps.
  eapply lwp_mono; [apply (lwp_end_node None _ (fun i => Y i \/ i ∈ queue) id h e now k Hi); [by left|done|by apply bool_decide_eq_false|done|]|].
  { intros i Hne [?|[?|?]%elem_of_cons]; [by left|done|by right]. }
  intros [] k1 (Hi1 & Hv1 & [Ho1 Hp1] & h1 & Hh1 & Hd1 & Es & Er). lwp_steps. apply lwp_smembers. intros ws Hws. lwp_steps.
  rewrite <- Es, <- Er.
  assert (Hb1 : busy_kept None k k1).
  { apply (busy_kept_only id h h1); try done; [by apply (HK h)|by apply done_not_busy]. }
  eapply lwp_mono; [apply (lwp_fanout Y id h1 now ws (queue, q) k1); try done|].
  - destruct (ev_back _ _ Hv1 id h1 Hh1) as (h0 & Hh0 & Kp). rewrite (kp_ord _ _ Kp). assert (h0 = h) as -> by congruence. by apply (HK h).
  - by apply (q_ok_evolve K k).
  - intros b Hb. rewrite Hws, elem_succs_of. apply (gi_succ k1 (ki_graph Hi1)). by eexists.
  - intros acc k2 (Hi2 & Hv2 & Hq2 & Hin2 & Hl2 & Hb2 & Hn2).
    assert (Hu1 : unsat_edges k1 = unsat_edges k) by (unfold unsat_edges; by rewrite Hp1).
    eapply lwp_mono; [apply IH; [done|done|simpl in *; lia]|].
    intros [] k3 (Hi3 & Hv3 & Hl3 & Hb3 & Hall). split_and!; [done|by etrans; [|etrans]| | |].
    + apply (key_low_kept_trans K k k1); [|by apply (key_low_kept_trans K k1 k2)].
      apply (low_kept_only K id h); [done|by apply (HK h)|done].
    + apply (busy_kept_trans None k k1); [done|done|by apply (busy_kept_trans None k1 k2)].
    + intros i x [->|Hin]%elem_of_cons Hx; [|by eapply Hall; [apply Hin2|]].
      assert (Hv : evolve k1 k3) by (by etrans). destruct (ev_back _ _ Hv id x Hx) as (y & Hy & Kp).
      apply (kp_done _ _ Kp). by simplify_eq.
Qed.

End Cascade.

Section Ends.
Context {C : Type} `{!RedisServer C}.
Implicit Types (Y : string -> Prop).

(** [terminate]: the root is done, with the ending asked for if it was not
    already; nothing of a lower rank changes. *)
Definition terminated (root : string) (st : Status) (rs : Reason) (k k' : keys) : Prop :=
  evolve k k' /\
  (forall h, k_node k' !! root = Some h -> done h = true) /\
  (forall h, k_node k !! root = Some h -> done h = false ->
     exists h', k_node k' !! root = Some h' /\ h_status h' = st /\ h_reason h' = rs) /\
  (forall h, k_node k !! root = Some h -> low_kept (h_ord h) k k') /\
  busy_kept (Some root) k k'.

Lemma lwp_terminate d Y Y' root st rs msg now k :
  kinv None d Y k -> (d = None \/ exists h, d = Some root /\ k_node k !! root = Some h /\ done h = false) ->
  Status_Terminal st = true -> (forall i, i <> root -> Y i -> Y' i) ->
  wp (terminate root st rs msg now : L C unit)
    (fun _ k' => kinv None None Y' k' /\ terminated root st rs k k') never k.
Proof.
  intros Hi Hd Hst HY. unfold terminate. lwp_steps. unfold terminate_fuel. cbn [terminate_loop]. lwp_steps.
  assert (Hfuel := key_unsat_edges_le k).
  destruct (k_node k !! root) as [h|] eqn:Hh.
  2: { assert (d = None) as -> by (destruct Hd as [?|(h & _ & ? & _)]; congruence).
       apply lwp_ret. split; [|by split_and!; try done; intros; simplify_eq].
       eapply kinv_weaken; [exact Hi|]. intros i h Hi' HYi. left. apply HY; [|done]. congruence. }
  case_bool_decide as Hph.
  { assert (d = None) as ->.
    { destruct Hd as [?|(h' & _ & E & Hn)]; [done|]. simplify_eq. apply bool_decide_eq_false in Hn. done. }
    apply lwp_ret. split; [|split_and!; try done].
    - eapply kinv_weaken; [exact Hi|]. intros i x Hx HYi. destruct (decide (i = root)) as [->|]; [right|left; auto].
      simplify_eq. unfold rule_ok. by rewrite Hph.
    - intros x Hx. simplify_eq. by apply bool_decide_eq_true.
    - intros x Hx Hn. simplify_eq. by apply bool_decide_eq_false in Hn. }
  lwp_steps. eapply lwp_need; [apply lookup_insert_eq|]. lwp_steps.
  eapply lwp_mono; [apply (lwp_end_node d Y Y' root h (st, rs, msg) now k Hi); [|done|by apply bool_decide_eq_false|done|done]|].
  { destruct Hd as [->|(? & -> & _)]; auto. }
  intros [] k1 (Hi1 & Hv1 & [Ho1 Hp1] & h1 & Hh1 & Hd1 & Es & Er). simpl in Es, Er. lwp_steps. apply lwp_smembers. intros ws Hws.
  lwp_steps. cbn [fst snd]. subst st rs.
  destruct (ev_forth _ _ Hv1 root h Hh) as (x & Hx & Kp). assert (x = h1) as -> by congruence. clear Hx.
  eapply lwp_mono; [apply (lwp_fanout (h_ord h) Y' root h1 now ws ([], _) k1)|]; try done.
  - eapply kinv_weaken; [exact Hi1|]. intros i y _ ?. by left; left.
  - by rewrite (kp_ord _ _ Kp).
  - by intros i Hin%not_elem_of_nil.
  - intros b Hb. rewrite Hws, elem_succs_of. apply (gi_succ k1 (ki_graph Hi1)). by eexists.
  - intros acc k2 (Hi2 & Hv2 & Hq2 & _ & Hl2 & Hb2 & Hn2). cbn [fst] in Hn2.
    assert (Hu1 : unsat_edges k1 = unsat_edges k) by (unfold unsat_edges; by rewrite Hp1).
    eapply lwp_mono; [apply (lwp_terminate_loop (h_ord h) (S (size (k_pred k))) Y' acc.1 acc.2 now k2); [done|done|simpl in *; lia]|].
    intros [] k3 (Hi3 & Hv3 & Hl3 & Hb3 & _). split; [done|]. assert (Hv13 : evolve k1 k3) by (by etrans).
    destruct (ev_forth _ _ Hv13 root h1 Hh1) as (h3 & Hh3 & K3). destruct (kp_done _ _ K3 Hd1) as (Hd3 & Es3 & Er3).
    split_and!; [by etrans|..].
    + intros y Hy. by simplify_eq.
    + intros y Hy Hn. exists h3. split_and!; congruence.
    + intros y Hy. simplify_eq. apply (key_low_kept_trans _ k k1); [|by apply (key_low_kept_trans _ k1 k2)].
      by apply (low_kept_only _ root h).
    + apply (busy_kept_trans _ k k1); [done|by apply busy_kept_but|]. apply busy_kept_weaken.
      by apply (busy_kept_trans None k1 k2).
Qed.

(** ** [settle] *)

(** A node that is leased or waiting to be tried again is left as it is. *)
Lemma lwp_settle Y Y' id now k :
  kinv None None Y k -> (forall i, i <> id -> Y i -> Y' i) ->
  (forall h, k_node k !! id = Some h -> is_busy h = true -> Y id -> Y' id) ->
  wp (settle id now : L C unit) (fun _ k' => kinv None None Y' k' /\ evolve k k' /\ busy_kept None k k') never k.
Proof.
  intros Hi HY Hbusy. unfold settle. lwp_steps.
  assert (Hstay : (forall h, k_node k !! id = Some h -> Y id -> Y' id \/ rule_ok h) -> kinv None None Y' k /\ evolve k k /\ busy_kept None k k).
  { intros Hr. split; [|done]. eapply kinv_weaken; [exact Hi|]. intros i h Hh HYi.
    destruct (decide (i = id)) as [->|]; [by apply Hr|left; auto]. }
  destruct (k_node k !! id) as [h|] eqn:Hh; [|lwp_steps; by apply Hstay].
  assert (Hok : (Y id -> Y' id \/ rule_ok h) -> kinv None None Y' k /\ evolve k k /\ busy_kept None k k)
    by (intros Hr; apply Hstay; intros x Hx; by simplify_eq).
  clear Hstay. unfold rule_ok, is_busy in *. destruct (h_phase h) eqn:Hp;
    try (lwp_steps; apply Hok; intros; left; apply (Hbusy h); try done; by rewrite Hp); try (lwp_steps; apply Hok; by right).
  all: destruct (rule_lost h) eqn:El;
    [eapply lwp_mono; [apply (lwp_terminate None Y Y'); [done|by left|done|done]|]|].
  all: try (intros [] k' (Hi' & Hv' & Hd' & _ & _ & Hb'); split_and!; [done|done|]; intros j x y _ Hx Hy;
    destruct (decide (j = id)) as [->|Hne]; [|apply (Hb' j); congruence];
    simplify_eq; rewrite (done_not_busy y) by (by apply Hd'); unfold is_busy; by rewrite Hp).
  all: destruct (rule_met h) eqn:Em.
  - rewrite bool_decide_eq_false_2 by done. cbn [negb]. lwp_steps. rewrite <- Hp.
    eapply lwp_mono; [apply (lwp_makeReady None None Y Y' id h k Hi); try done|].
    + by left.
    + by left.
    + by right.
    + intros [] k1 (Hi1 & Hv1 & [Ho1 _] & h1 & Hh1 & Hr1 & _). apply lwp_recordEvent; [by eexists|]. intros ev n Hc Hn.
      split_and!; [by apply kinv_logged|etrans; [done|apply logged_evolve]|].
      destruct (logged_node_fwd id ev n k1 id h1 Hh1) as (h2 & Hh2 & E2).
      apply (busy_kept_only id h h2); [|done|done|unfold is_busy; by rewrite Hp|].
      * intros j Hj. rewrite (proj1 (only_logged id ev n k1)) by done. by apply Ho1.
      * unfold is_busy. destruct E2 as [->| ->]; simpl; by rewrite Hr1.
  - rewrite bool_decide_eq_true_2 by done. cbn [negb]. lwp_steps. apply Hok. by right.
  - rewrite bool_decide_eq_true_2 by done. cbn [negb]. lwp_steps. apply Hok. by right.
  - rewrite bool_decide_eq_false_2 by done. cbn [negb]. rewrite <- Hp.
    eapply lwp_mono; [apply (lwp_makeBlocked None Y Y' id h k Hi); try done; by right|].
    intros [] k' (? & ? & [Ho' _] & h' & Hh' & Hr'). split_and!; [done|done|].
    apply (busy_kept_only id h h'); try done; unfold is_busy; by rewrite ?Hp, ?Hr'.
Qed.

End Ends.

(** * Attempts and leases on the keys: [failAttempt] .. [scriptSweep] *)

(** ** Sorted sets *)

Lemma elem_zrange z e : e ∈ zrange z <-> z !! e.1 = Some e.2.
Proof. unfold zrange. rewrite merge_sort_Permutation. destruct e. apply elem_of_map_to_list. Qed.

Lemma zrange_NoDup z : NoDup (zrange z).*1.
Proof.
  assert (zrange z ≡ₚ map_to_list z) as -> by apply merge_sort_Permutation. apply NoDup_fst_map_to_list.
Qed.

Lemma expired_sub k now limit : expired k now limit `sublist_of` (zrange (k_leases k)).*1.
Proof.
  unfold expired. assert (H : (filter (fun e => (e.2 <= now)%Z) (zrange (k_leases k))).*1 `sublist_of` (zrange (k_leases k)).*1)
    by apply fmap_sublist, sublist_filter.
  case_match; [done|]. etrans; [apply sublist_take|done].
Qed.

Lemma expired_lease k now limit i : i ∈ expired k now limit -> exists v, k_leases k !! i = Some v /\ (v <= now)%Z.
Proof.
  intros Hi. assert (i ∈ (filter (fun e => (e.2 <= now)%Z) (zrange (k_leases k))).*1) as Hin.
  { unfold expired in Hi. case_match; [done|]. eapply sublist_elem_of; [done|apply sublist_take] || by apply elem_of_take in Hi as (? & ? & _); eapply list_elem_of_lookup_2. }
  apply list_elem_of_fmap in Hin as ([j v] & -> & [Hv Hz]%list_elem_of_filter). apply elem_zrange in Hz. eauto.
Qed.

Lemma lease_claimed k i v :
  zinv None k -> k_leases k !! i = Some v -> exists h, k_node k !! i = Some h /\ h_phase h = PhaseClaimed /\ h_deadline h = v.
Proof.
  intros Hz Hv. destruct (zi_lease _ _ Hz i) as [E|[E _]]; [|done]. rewrite Hv in E.
  destruct (k_node k !! i) as [h|]; [|done]. simpl in E. unfold zlease in E. case_decide; [|done]. simplify_eq. eauto.
Qed.

Lemma sched_scheduled k i v :
  zinv None k -> k_sched k !! i = Some v -> exists h, k_node k !! i = Some h /\ h_phase h = PhaseScheduled /\ h_readyAt h = v.
Proof.
  intros Hz Hv. destruct (zi_sched _ _ Hz i) as [E|[E _]]; [|done]. rewrite Hv in E.
  destruct (k_node k !! i) as [h|]; [|done]. simpl in E. unfold zsched in E. case_decide; [|done]. simplify_eq. eauto.
Qed.

Section Lease.
Context {C : Type} `{!RedisServer C}.
Implicit Types (Y : string -> Prop).

(** ** [failAttempt] *)

(** A write to fields of a hash that nothing else depends on, its lease taken
    out. *)
Lemma kinv_touch d d' Y id h h' k k' :
  kinv None d Y k -> (d = None \/ d = Some id) -> (d' = None \/ d' = Some id) -> k_node k !! id = Some h ->
  h_phase h' = h_phase h -> h_status h' = h_status h -> h_priority h' = h_priority h -> h_fifo h' = h_fifo h ->
  h_readyAt h' = h_readyAt h -> h_deps h' = h_deps h -> keeps h h' ->
  k' = k <| k_node ::= <[id := h']> |> <| k_leases := k_leases k' |> ->
  (forall j, j <> id -> k_leases k' !! j = k_leases k !! j) ->
  (k_leases k' !! id = zlease h' \/ (d' = Some id /\ k_leases k' !! id = None)) ->
  (k_sched k !! id = zsched h \/ (d' = Some id /\ k_sched k !! id = None)) ->
  kinv None d' Y k' /\ evolve k k'.
Proof.
  intros Hi Hd Hd' Hh Ep Es Epr Ef Er Edp Hk Ek Hl Hlid Hsid.
  assert (Hnode : k_node k' = <[id := h']> (k_node k)) by (by rewrite Ek).
  assert (Hz := ki_z Hi).
  assert (Hzr : forall kind, zready h' kind = zready h kind).
  { intros kind. unfold zready. by rewrite Ep, (kp_kind _ _ Hk), Epr, Ef. }
  assert (Hzs : zsched h' = zsched h) by (unfold zsched; by rewrite Ep, Er).
  assert (Hm : moves id h h' d' k k').
  { split; try done; try (by rewrite Ek).
    - unfold coherent. rewrite Ep, Es. by apply (gi_coh k (ki_graph Hi) id).
    - intros f. rewrite Ep, Es. rewrite Ek. simpl. case_bool_decide; lia.
    - apply (zinv_at d d' id k k' Hz); try done; try (by rewrite Ek).
      + intros i Hne. rewrite Hnode. by apply lookup_insert_ne.
      + intros kind. rewrite Hnode, lookup_insert_eq. rewrite Ek. simpl. rewrite Hzr, (zi_ready _ _ Hz), Hh. done.
      + rewrite Hnode, lookup_insert_eq. rewrite Ek. simpl. by rewrite Hzs.
      + rewrite Hnode, lookup_insert_eq. simpl. done.
      + intros kind. rewrite Ek. simpl. apply (zi_kinds _ _ Hz).
      + intros x. rewrite Hnode, lookup_insert_eq. intros [= <-]. rewrite Ek, Ef. by apply (zi_fifo _ _ Hz id h).
    - rewrite Ek, Ep, Ef. split; [done|]. by left. }
  split; [|by eapply move_evolve]. eapply (kinv_move Hi Hm).
  - unfold done. rewrite Ep. by left.
  - done.
  - destruct (ki_settled Hi id h Hh) as [?|Hr]; [by left|right]. unfold rule_ok, rule_lost, rule_met in *.
    by rewrite Ep, Edp, (kp_trigger _ _ Hk).
Qed.

Definition retried (id : string) (reason : Reason) (k' : keys) (b : bool) : Prop :=
  exists h', k_node k' !! id = Some h' /\ h_reason h' = reason /\
    if b then h_phase h' = PhaseScheduled else h_phase h' = PhaseDone /\ h_status h' = StatusError.

(** The tries a node gets: its own policy, the configuration of the scope, or
    the default. *)
Definition tries_of (k : keys) (h : hnode) : Z :=
  if (0 <? h_retryMaxAttempts h)%Z then h_retryMaxAttempts h else orDefault (k_cfg k !! fMaxAttempts) DEFAULT_MAX_ATTEMPTS.

Lemma lwp_failAttempt Y id reason msg now h k :
  kinv None None Y k -> k_node k !! id = Some h -> h_phase h = PhaseClaimed ->
  wp (failAttempt id reason msg now : L C bool)
    (fun b k' => kinv None None Y k' /\ evolve k k' /\ busy_kept (Some id) k k' /\ retried id reason k' b /\
       b = negb (tries_of k h <=? h_attempt h)%Z) never k.
Proof.
  intros Hi Hh Hp. unfold failAttempt. lwp_steps. eapply lwp_set_node; [exact Hh|]. lwp_steps.
  set (h1 := h <| h_deadline := 0%Z |>). set (k1 := _ <| k_node ::= _ |>).
  assert (Hk1 : kinv None (Some id) Y k1 /\ evolve k k1).
  { apply (kinv_touch None (Some id) Y id h h1 k k1); try done; [by left|by right| | |].
    - intros j Hj. change (delete id (k_leases k) !! j = k_leases k !! j). by apply lookup_delete_ne.
    - right. split; [done|]. apply lookup_delete_eq.
    - left. rewrite (sched_none id h (ki_z Hi) Hh) by (by rewrite Hp). unfold zsched. by rewrite decide_False by (by rewrite Hp). }
  destruct Hk1 as [Hi1 Hv1].
  assert (Hat1 : k_node k1 !! id = Some h1) by apply lookup_insert_eq.
  assert (Hl1 : k_leases k1 !! id = None) by apply lookup_delete_eq.
  assert (Hb1 : busy_kept (Some id) k k1).
  { apply busy_kept_but. intros j Hj. by apply lookup_insert_ne. }
  rewrite Hh. eapply lwp_need; [done|]. clearbody k1.
  fold (tries_of k h). destruct (tries_of k h <=? h_attempt h)%Z.
  - lwp_steps. eapply lwp_mono; [apply (lwp_terminate (Some id) Y Y id StatusError reason msg now k1 Hi1)|]; try done.
    { right. exists h1. split_and!; try done. unfold done, h1. simpl. rewrite Hp. by rewrite bool_decide_eq_false_2. }
    intros [] k2 (Hi2 & Hv2 & Hd2 & Hend & _ & Hb2). lwp_steps. split_and!; [done|by etrans| | |done].
    + by apply (busy_kept_trans _ k k1).
    + destruct (Hend h1 Hat1) as (h2 & Hh2 & Es & Er).
      { unfold done, h1. simpl. rewrite Hp. by rewrite bool_decide_eq_false_2. }
      exists h2. split_and!; try done. by eapply bool_decide_eq_true, Hd2.
  - lwp_steps.
    assert (Hj : forall (Q : Z -> keys -> Prop) E w, (forall v, Q v k1) -> wp (jitterMs w : L C Z) Q E k1).
    { intros Q E w HQ. unfold jitterMs. destruct (w <=? 0)%Z; [by apply lwp_ret|by apply lwp_random]. }
    apply Hj. intros delay. lwp_steps. eapply lwp_set_node; [exact Hat1|]. lwp_steps.
    set (h2 := h1 <| h_reason := reason |> <| h_message := msg |> <| h_updatedAt := now |>). set (k2 := _ <| k_node ::= _ |>).
    assert (Hk2 : kinv None (Some id) Y k2 /\ evolve k1 k2).
    { apply (kinv_touch (Some id) (Some id) Y id h1 h2 k1 k2); try done; [by right|by right| |by right|].
      - split; try done. unfold done, h1. simpl. rewrite Hp. by rewrite bool_decide_eq_false_2.
      - left. rewrite (sched_none id h1 (ki_z Hi1) Hat1) by (unfold h1; simpl; by rewrite Hp). unfold zsched.
        by rewrite decide_False by (unfold h1; simpl; by rewrite Hp). }
    destruct Hk2 as [Hi2 Hv2]. assert (Hat2 : k_node k2 !! id = Some h2) by apply lookup_insert_eq.
    assert (Hb2 : busy_kept (Some id) k1 k2).
    { apply busy_kept_but. intros j Hj'. by apply lookup_insert_ne. }
    assert (Hl2 : k_leases k2 !! id = None) by done. clearbody k2.
    eapply lwp_mono; [apply (lwp_scheduleRetry None (Some id) Y id h2 (now + delay) k2 Hi2); [by right|done..]|].
    intros [] k3 (Hi3 & Hv3 & [Ho3 _] & Hat3). lwp_steps. apply lwp_recordEvent; [by eexists|]. intros ev n Hc Hn. lwp_steps.
    assert (Hv13 : evolve k1 k3) by (by etrans).
    split_and!; [by apply kinv_logged| | | |done].
    + etrans; [done|]. etrans; [done|apply logged_evolve].
    + apply (busy_kept_trans _ k k1); [done|done|]. apply (busy_kept_trans _ k1 k2); [done|done|]. apply busy_kept_but.
      intros j Hj'. rewrite (proj1 (only_logged id ev n k3)) by done. by apply Ho3.
    + destruct (logged_node_fwd id ev n k3 id _ Hat3) as (x & Hx & [->| ->]); eexists; (split; [done|by simpl]).
Qed.

(** ** Reclaiming and promoting *)

Lemma lwp_reclaimExpired Y now limit k :
  kinv None None Y k ->
  wp (reclaimExpired now limit : L C Z)
    (fun n k' => kinv None None Y k' /\ evolve k k' /\ n = Z.of_nat (length (expired k now limit)) /\
       forall i, i ∈ expired k now limit -> exists h, k_node k' !! i = Some h /\ h_phase h <> PhaseClaimed) never k.
Proof.
  intros Hi. unfold reclaimExpired. lwp_steps. set (ids := expired k now limit).
  assert (Hnd : NoDup ids) by (eapply sublist_NoDup; [apply zrange_NoDup|apply expired_sub]).
  assert (Hcl : forall i, i ∈ ids -> exists h, k_node k !! i = Some h /\ h_phase h = PhaseClaimed).
  { intros i (v & Hv & _)%expired_lease. destruct (lease_claimed k i v (ki_z Hi) Hv) as (h & ? & ? & _). eauto. }
  eapply lwp_mono; [apply (lwp_each _ (fun l k1 => kinv None None Y k1 /\ evolve k k1 /\ NoDup l /\ (forall i, i ∈ l -> i ∈ ids) /\
    (forall i, i ∈ l -> exists h, k_node k1 !! i = Some h /\ h_phase h = PhaseClaimed) /\
    (forall i, i ∈ ids -> i ∉ l -> exists h, k_node k1 !! i = Some h /\ h_phase h <> PhaseClaimed)))|].
  - split_and!; try done. 
  - intros id l k1 (Hi1 & Hv1 & [Hid Hl]%NoDup_cons & Hsub & Hcl1 & Hun1).
    destruct (Hcl1 id) as (h & Hh & Hp); [by left|]. lwp_steps.
    eapply lwp_mono; [by eapply (lwp_failAttempt Y)|]. intros b k2 (Hi2 & Hv2 & Hb2 & (y & Hy & _ & Hpy) & _). lwp_steps.
    split_and!; [done|by etrans|done|intros i ?; apply Hsub; by right| |].
    + intros i Hin. destruct (Hcl1 i) as (x & Hx & Hpx); [by right|]. destruct (ev_forth _ _ Hv2 i x Hx) as (z & Hz & _).
      exists z. split; [done|]. assert (Some i <> Some id) as Hne by (intros [= ->]; done).
      destruct (Hb2 i x z Hne Hx Hz) as [_ [-> _]]; [by unfold is_busy; rewrite Hpx|done].
    + intros i Hin Hni. destruct (decide (i = id)) as [->|Hne]; [exists y; split; [done|]; destruct b; [by rewrite Hpy|by destruct Hpy as [-> _]]|].
      destruct (Hun1 i Hin) as (x & Hx & Hpx); [by apply not_elem_of_cons|].
      destruct (ev_forth _ _ Hv2 i x Hx) as (z & Hz & _). exists z. split; [done|].
      assert (Some i <> Some id) as Hne' by congruence. destruct (Hb2 i x z Hne' Hx Hz) as [E F].
      intros Hpz. unfold is_busy in *. rewrite Hpz in *. destruct (h_phase x); try done; by destruct F.
  - intros [] k' (? & ? & _ & _ & _ & Hun). lwp_steps. split_and!; try done. intros i Hin. apply Hun; [done|]. apply not_elem_of_nil.
Qed.

Lemma lwp_promote_loop Y n now k :
  kinv None None Y k ->
  wp (promote_loop n now : L C unit) (fun _ k' => kinv None None Y k' /\ evolve k k') never k.
Proof.
  revert k. induction n as [|n IH]; intros k Hi; cbn [promote_loop]; [by apply lwp_ret|]. lwp_steps.
  destruct (head (zrange (k_sched k))) as [[id score]|] eqn:Hz; [|by lwp_steps].
  apply head_Some_elem_of, elem_zrange in Hz. simpl in Hz. case_match; [by lwp_steps|].
  destruct (sched_scheduled k id score (ki_z Hi) Hz) as (h & Hh & Hp & Hr). lwp_steps.
  set (k1 := _ <| k_sched ::= _ |>).
  assert (Hat1 : k_node k1 !! id = Some h) by done.
  assert (Hi1 : kinv None (Some id) Y k1).
  { pose proof Hi as [Hg Hl [R S L K F N] Hs Hst He]. split; try done; [by destruct Hg|]. split; try done.
    - intros i. change (k_sched k1) with (delete id (k_sched k)). destruct (decide (i = id)) as [->|Hne].
      + right. split; [done|]. apply lookup_delete_eq.
      + rewrite lookup_delete_ne by done. destruct (S i) as [?|[? _]]; [by left|done].
    - intros i. destruct (L i) as [?|[? _]]; [by left|done]. }
  assert (Hv1 : evolve k k1) by (by destruct (evolve_refl k); split).
  clearbody k1. eapply lwp_need; [exact Hat1|]. lwp_steps.
  eapply lwp_mono; [apply (lwp_makeReady None (Some id) Y Y id h k1 Hi1); try done|].
  - by right.
  - by right.
  - destruct (ki_settled Hi id h Hh) as [?|HY]; [by left|right]. unfold rule_ok in HY. by rewrite Hp in HY.
  - intros [] k2 (Hi2 & Hv2 & _ & h2 & Hh2 & _). lwp_steps. apply lwp_recordEvent; [by eexists|]. intros ev m Hc Hm.
    eapply lwp_mono; [apply IH; by apply kinv_logged|]. intros [] k3 [Hi3 Hv3]. split; [done|].
    etrans; [done|]. etrans; [done|]. etrans; [apply logged_evolve|done].
Qed.

(** ** Granting *)

(** The best head of some ready sets. *)
Lemma elem_ready_of k kind id v : (id, v) ∈ ready_of k kind <-> k_ready k !! (kind, id) = Some v.
Proof.
  unfold ready_of. rewrite merge_sort_Permutation, list_elem_of_fmap. split.
  - intros ([[kd i] v'] & E & [Ek Hin%elem_of_map_to_list]%list_elem_of_filter). simpl in *. by simplify_eq.
  - intros Hr. exists (kind, id, v). split; [done|]. apply list_elem_of_filter. split; [done|]. by apply elem_of_map_to_list.
Qed.

#[local] Instance z_before_total : Total z_before.
Proof.
  intros [a x] [b y]. unfold z_before. simpl. destruct (Z.lt_trichotomy x y) as [?|[->|?]]; [by left; left| |by right; left].
  destruct (total String.le a b); [left|right]; by right.
Qed.

#[local] Instance z_before_trans : Transitive z_before.
Proof.
  intros [a x] [b y] [c z]. unfold z_before. simpl. intros [?|[-> ?]] [?|[-> ?]]; try (left; lia). right. split; [done|]. by etrans.
Qed.

Lemma ready_head_min k kind id v :
  head (ready_of k kind) = Some (id, v) ->
  k_ready k !! (kind, id) = Some v /\ forall id' v', k_ready k !! (kind, id') = Some v' -> (v <= v')%Z.
Proof.
  intros Hh. split; [by apply elem_ready_of, head_Some_elem_of|]. intros id' v' Hr%elem_ready_of.
  pose proof (StronglySorted_merge_sort z_before ((fun e => (e.1.2, e.2)) <$> filter (fun e => e.1.1 = kind) (map_to_list (k_ready k)))) as Hs.
  change (merge_sort z_before _) with (ready_of k kind) in Hs. destruct (ready_of k kind) as [|[i w] l]; [done|]. simpl in Hh. simplify_eq.
  apply elem_of_cons in Hr as [E|Hin]; [simplify_eq; lia|]. inversion Hs as [|x y Hs' Hf]; subst. rewrite Forall_forall in Hf.
  destruct (Hf _ Hin) as [?|[? _]]; simpl in *; lia.
Qed.

Definition best_ok (k : keys) (kinds : list string) (o : option (string * string * Z)) : Prop :=
  match o with
  | Some (kind, id, v) => kind ∈ kinds /\ k_ready k !! (kind, id) = Some v /\
      forall kind' id' v', kind' ∈ kinds -> k_ready k !! (kind', id') = Some v' -> (v <= v')%Z
  | None => forall kind id, kind ∈ kinds -> k_ready k !! (kind, id) = None
  end.

Lemma best_head_ok k kinds : best_ok k kinds (best_head k kinds).
Proof.
  unfold best_head.
  enough (forall l o l', best_ok k l' o -> best_ok k (l' ++ l) (foldl (fun best kind =>
    match head (ready_of k kind) with
    | None => best
    | Some (id, score) => match best with Some (_, _, s) => if (score <? s)%Z then Some (kind, id, score) else best
                                        | None => Some (kind, id, score) end
    end) o l)) as H.
  { apply (H kinds None []). intros kind id Hin%not_elem_of_nil. done. }
  induction l as [|kind l IH]; intros o l' Ho; simpl; [by rewrite app_nil_r|].
  replace (l' ++ kind :: l) with ((l' ++ [kind]) ++ l) by (by rewrite <- app_assoc). apply IH. clear IH.
  assert (Hsplit : forall kd, kd ∈ l' ++ [kind] <-> kd ∈ l' \/ kd = kind).
  { intros kd. by rewrite elem_of_app, list_elem_of_singleton. }
  destruct (head (ready_of k kind)) as [[id v]|] eqn:Hh.
  - destruct (ready_head_min k kind id v Hh) as [Hr Hmin]. destruct o as [[[kd i] s]|].
    + destruct Ho as (Hk & Hi & Hb). destruct (Z.ltb_spec v s) as [Hlt|Hge]; split_and!; try done.
      * apply Hsplit. by right.
      * intros kind' id' v' [Hin| ->]%Hsplit Hr'; [|by eapply Hmin]. specialize (Hb kind' id' v' Hin Hr'). lia.
      * apply Hsplit. by left.
      * intros kind' id' v' [Hin| ->]%Hsplit Hr'; [by eapply Hb|]. specialize (Hmin id' v' Hr'). lia.
    + split_and!; [apply Hsplit; by right|done|]. intros kind' id' v' [Hin| ->]%Hsplit Hr'; [|by eapply Hmin].
      by rewrite (Ho kind' id' Hin) in Hr'.
  - assert (Hno : forall id, k_ready k !! (kind, id) = None).
    { intros id. apply eq_None_not_Some. intros [v Hv%elem_ready_of]. apply head_None in Hh. rewrite Hh in Hv.
      by apply not_elem_of_nil in Hv. }
    destruct o as [[[kd i] s]|].
    + destruct Ho as (Hk & Hi & Hb). split_and!; [apply Hsplit; by left|done|].
      intros kind' id' v' [Hin| ->]%Hsplit Hr'; [by eapply Hb|]. by rewrite Hno in Hr'.
    + intros kd i [Hin| ->]%Hsplit; [by apply Ho|done].
Qed.

Lemma ready_node k kind id v :
  zinv None k -> k_ready k !! (kind, id) = Some v ->
  exists h, k_node k !! id = Some h /\ h_phase h = PhaseReady /\ h_kind h = kind /\ v = packScore (h_priority h) (h_fifo h).
Proof.
  intros Hz Hv. rewrite (zi_ready _ _ Hz) in Hv. destruct (k_node k !! id) as [h|]; [|done]. simpl in Hv. unfold zready in Hv.
  case_decide as E; [|done]. destruct E. simplify_eq. eauto.
Qed.

(** What a lease says of the node it is for: [h] is the hash before. *)
Record grant_of (leaseMs now : Z) (workerId : string) (h : hnode) (g : lgrant) : Prop := {
  gr_phase : h_phase (lg_node g) = PhaseClaimed;
  gr_epoch : lg_epoch g = (h_epoch h + 1)%Z /\ h_epoch (lg_node g) = lg_epoch g;
  gr_attempt : h_attempt (lg_node g) = (h_attempt h + 1)%Z;
  gr_deadline : lg_deadline g = (now + leaseMs)%Z /\ h_deadline (lg_node g) = lg_deadline g;
  gr_worker : h_worker (lg_node g) = workerId
}.

Lemma grant_not_ready leaseMs now workerId h g kind : grant_of leaseMs now workerId h g -> zready (lg_node g) kind = None.
Proof. intros [Hp _ _ _ _]. unfold zready. rewrite decide_False; [done|]. rewrite Hp. by intros [? _]. Qed.

Lemma lwp_grant_one Y id leaseMs workerId now h k :
  kinv None None Y k -> k_node k !! id = Some h -> h_phase h = PhaseReady ->
  wp (grant_one (h_kind h) id leaseMs workerId now : L C lgrant)
    (fun g k' => kinv None None Y k' /\ evolve k k' /\ only id k k' /\ lg_id g = id /\ k_node k' !! id = Some (lg_node g) /\
       lg_blob g = k_blob k !! id /\ grant_of leaseMs now workerId h g) never k.
Proof.
  intros Hi Hh Hp. unfold grant_one. lwp_steps. cbn [k_node]. change (k_node (_ <| k_ready ::= _ |>)) with (k_node k).
  rewrite Hh. lwp_steps. eapply lwp_set_node; [exact Hh|]. lwp_steps.
  set (h' := h <| h_phase := PhaseClaimed |> <| h_status := StatusInProgress |> <| h_epoch := (h_epoch h + 1)%Z |>
      <| h_attempt := (h_attempt h + 1)%Z |> <| h_updatedAt := now |> <| h_deadline := (now + leaseMs)%Z |> <| h_worker := workerId |>).
  set (k' := _ <| k_leases ::= _ |>).
  assert (Hnode : k_node k' = <[id := h']> (k_node k)) by done.
  assert (Hm : moves id h h' None k k').
  { split; try done.
    - split; try done; [simpl; lia|]. unfold done. rewrite Hp. by rewrite bool_decide_eq_false_2.
    - intros f. apply (stat_twice f _ _ PhaseClaimed StatusInProgress).
    - assert (Hz := ki_z Hi). apply (zinv_at None None id k k' Hz).
      + intros i Hne. rewrite Hnode. by apply lookup_insert_ne.
      + intros kind i Hne. change (delete (h_kind h, id) (k_ready k) !! (kind, i) = k_ready k !! (kind, i)).
        apply lookup_delete_ne. congruence.
      + done.
      + intros i Hne. change (<[id := (now + leaseMs)%Z]> (k_leases k) !! i = k_leases k !! i). by apply lookup_insert_ne.
      + by left.
      + intros kind. rewrite Hnode, lookup_insert_eq. exact (ready_delete h id kind Hz Hh).
      + left. rewrite Hnode, lookup_insert_eq. change (k_sched k !! id = None). eapply sched_none; [done..|by rewrite Hp].
      + left. rewrite Hnode, lookup_insert_eq. change (<[id := (now + leaseMs)%Z]> (k_leases k) !! id = zlease h').
        by rewrite lookup_insert_eq.
      + done.
      + intros kind [v Hv]. assert (delete (h_kind h, id) (k_ready k) !! (kind, id) = None) as E by exact (ready_delete h id kind Hz Hh).
        change (delete (h_kind h, id) (k_ready k) !! (kind, id) = Some v) in Hv. congruence.
      + done.
      + intros x. rewrite Hnode, lookup_insert_eq. intros [= <-]. by apply (zi_fifo _ _ Hz id h). }
  assert (Hi' : kinv None None Y k').
  { eapply (kinv_move Hi Hm); try done. destruct (ki_settled Hi id h Hh) as [?|Hr]; [by left|right].
    unfold rule_ok in *. by rewrite Hp in Hr. }
  assert (Hat : k_node k' !! id = Some h') by (by rewrite Hnode, lookup_insert_eq).
  assert (Hv : evolve k k') by (by eapply move_evolve).
  assert (Ho : only id k k') by (split; [|done]; intros j Hj; rewrite Hnode; by apply lookup_insert_ne).
  clearbody k'. apply lwp_recordEvent; [by eexists|]. intros ev n Hc Hn. lwp_steps.
  assert (Hlog : k_node (logged id ev n k') !! id = Some (h' <| h_seq ::= Z.succ |>)).
  { rewrite logged_lookup, decide_True by done. exact (f_equal (fmap (fun h => h <| h_seq ::= Z.succ |>)) Hat). }
  eapply lwp_need; [exact Hlog|]. lwp_steps. split_and!; [by apply kinv_logged|etrans; [done|apply logged_evolve]| |done|done| |].
  - apply (only_trans id k k'); [done|apply only_logged].
  - simpl. by rewrite (ev_blob _ _ Hv).
  - by split.
Qed.

Lemma ready_only id k k' kind i :
  zinv None k -> zinv None k' -> only id k k' -> i <> id -> k_ready k' !! (kind, i) = k_ready k !! (kind, i).
Proof. intros Hz Hz' [Ho _] Hne. by rewrite (zi_ready _ _ Hz), (zi_ready _ _ Hz'), Ho. Qed.

(** The leases [gs] handed out from the keys [k], which leave [k']: each for a
    node that was ready in one of the sets, the lowest scores first; they stop
    at [n], at the limit in flight, or when the sets are empty. *)
Record grants_ok (n : nat) (kinds : list string) (leaseMs maxInFlight : Z) (workerId : string) (now : Z) (Y : string -> Prop)
    (k k' : keys) (gs : list lgrant) : Prop := {
  go_nodup : NoDup (lg_id <$> gs);
  go_each : forall g, g ∈ gs -> exists h kind v, k_node k !! lg_id g = Some h /\ h_phase h = PhaseReady /\ kind ∈ kinds /\
    k_ready k !! (kind, lg_id g) = Some v /\ grant_of leaseMs now workerId h g /\ k_node k' !! lg_id g = Some (lg_node g) /\
    lg_blob g = k_blob k !! lg_id g /\ (Y (lg_id g) \/ (rule_lost h = false /\ rule_met h = true));
  go_order : forall i j g g' kind kind' v v', i < j -> gs !! i = Some g -> gs !! j = Some g' -> kind ∈ kinds -> kind' ∈ kinds ->
    k_ready k !! (kind, lg_id g) = Some v -> k_ready k !! (kind', lg_id g') = Some v' -> (v <= v')%Z;
  go_best : forall g kind kind' v id v', g ∈ gs -> kind ∈ kinds -> kind' ∈ kinds -> k_ready k !! (kind, lg_id g) = Some v ->
    k_ready k' !! (kind', id) = Some v' -> (v <= v')%Z;
  go_stop : length gs = n \/ saturated k' maxInFlight = true \/ forall kind id, kind ∈ kinds -> k_ready k' !! (kind, id) = None;
  go_length : length gs <= n
}.

Lemma lwp_claim_loop Y n kinds leaseMs maxInFlight workerId now leases k :
  kinv None None Y k ->
  wp (claim_loop n kinds leaseMs maxInFlight workerId now leases : L C (list lgrant))
    (fun ls k' => exists gs, ls = leases ++ gs /\ kinv None None Y k' /\ evolve k k' /\
       grants_ok n kinds leaseMs maxInFlight workerId now Y k k' gs /\
       (forall j, j ∉ lg_id <$> gs -> k_node k' !! j = k_node k !! j) /\ k_pred k' = k_pred k) never k.
Proof.
  revert leases k. induction n as [|n IH]; intros leases k Hi; cbn [claim_loop].
  { apply lwp_ret. exists []. rewrite app_nil_r. split_and!; try done.
    split; [apply NoDup_nil_2|by intros * ?%not_elem_of_nil|done|by intros * ?%not_elem_of_nil|by left|done]. }
  assert (Hnone : forall (P : Prop), P -> (saturated k maxInFlight = true \/ forall kind id, kind ∈ kinds -> k_ready k !! (kind, id) = None) ->
    wp (mret leases : L C _) (fun ls k' => exists gs, ls = leases ++ gs /\ kinv None None Y k' /\ evolve k k' /\
       grants_ok (S n) kinds leaseMs maxInFlight workerId now Y k k' gs /\
       (forall j, j ∉ lg_id <$> gs -> k_node k' !! j = k_node k !! j) /\ k_pred k' = k_pred k) never k).
  { intros P _ Hs. apply lwp_ret. exists []. rewrite app_nil_r. split_and!; try done.
    split; [apply NoDup_nil_2|by intros * ?%not_elem_of_nil|done|by intros * ?%not_elem_of_nil|by right|simpl; lia]. }
  lwp_steps. destruct (saturated k maxInFlight) eqn:Hsat; [by apply (Hnone True I); left|].
  pose proof (best_head_ok k kinds) as Hbest. destruct (best_head k kinds) as [[[kind id] v]|]; [|by apply (Hnone True I); right].
  clear Hnone. destruct Hbest as (Hkind & Hr & Hmin). pose proof (ki_z Hi) as Hz.
  destruct (ready_node k kind id v Hz Hr) as (h & Hh & Hp & <- & Ev). lwp_steps.
  eapply lwp_mono; [by apply (lwp_grant_one Y)|]. intros g k1 (Hi1 & Hv1 & Ho1 & Eid & Hg1 & Hbl & Hgr). subst id.
  pose proof (ki_z Hi1) as Hz1.
  assert (Hkeep : forall kd i, i <> lg_id g -> k_ready k1 !! (kd, i) = k_ready k !! (kd, i)) by (intros; by eapply ready_only).
  assert (Hgone : forall kd, k_ready k1 !! (kd, lg_id g) = None).
  { intros kd. rewrite (zi_ready _ _ Hz1), Hg1. simpl. by eapply grant_not_ready. }
  eapply lwp_mono; [apply IH, Hi1|]. intros ls k2 (gs & -> & Hi2 & Hv2 & [N E O B S Len] & Hoth & Hpr).
  assert (Hnot : lg_id g ∉ lg_id <$> gs).
  { intros (g' & Eg & Hin)%list_elem_of_fmap. destruct (E g' Hin) as (h' & kd & w & Hh' & Hp' & _). rewrite <- Eg, Hg1 in Hh'.
    simplify_eq. by rewrite (gr_phase _ _ _ _ _ Hgr) in Hp'. }
  exists (g :: gs). split_and!; [by rewrite <- app_assoc|done|by etrans| | |by rewrite Hpr; apply Ho1].
  2: { intros j [Hj Hj']%not_elem_of_cons. rewrite Hoth by done. by apply Ho1. }
  assert (Hstart : forall kd g', g' ∈ gs -> k_ready k1 !! (kd, lg_id g') = k_ready k !! (kd, lg_id g')).
  { intros kd g' Hin. apply Hkeep. intros Eg. apply Hnot. rewrite <- Eg. apply list_elem_of_fmap. eauto. }
  split.
  - apply NoDup_cons. done.
  - intros g' [->|Hin]%elem_of_cons.
    + exists h, (h_kind h), v. split_and!; try done; [by rewrite Hoth|].
      destruct (ki_settled Hi (lg_id g) h Hh) as [?|Hok]; [by left|right]. unfold rule_ok in Hok. by rewrite Hp in Hok.
    + destruct (E g' Hin) as (h' & kd & w & Hh' & Hp' & Hk' & Hr' & G' & Hn' & Hb' & Hrule). exists h', kd, w.
      rewrite Hstart in Hr' by done. rewrite (ev_blob _ _ Hv1) in Hb'. split_and!; try done.
      rewrite <- Hh'. symmetry. apply Ho1. intros Eg. apply Hnot. rewrite <- Eg. apply list_elem_of_fmap. eauto.
  - intros [|i] [|j] g1 g2 k1' k2' v1 v2 Hij H1 H2 Hk1 Hk2 Hr1 Hr2; [lia| |lia|]; simpl in H1, H2.
    + simplify_eq. rewrite (zi_ready _ _ Hz), Hh in Hr1. simpl in Hr1. unfold zready in Hr1. case_decide; [|done]. simplify_eq.
      by eapply (Hmin k2').
    + rewrite <- (Hstart k1' g1) in Hr1 by (by eapply list_elem_of_lookup_2).
      rewrite <- (Hstart k2' g2) in Hr2 by (by eapply list_elem_of_lookup_2).
      apply (O i j g1 g2 k1' k2' v1 v2); try done. lia.
  - intros g1 k1' k2' v1 id v2 [->|Hin]%elem_of_cons Hk1 Hk2 Hr1 Hr2.
    + rewrite (zi_ready _ _ Hz), Hh in Hr1. simpl in Hr1. unfold zready in Hr1. case_decide; [|done]. simplify_eq.
      assert (Hne : id <> lg_id g).
      { intros ->. rewrite (zi_ready _ _ (ki_z Hi2)) in Hr2. rewrite Hoth, Hg1 in Hr2 by done. simpl in Hr2.
        by rewrite (grant_not_ready _ _ _ _ _ _ Hgr) in Hr2. }
      assert (Hin2 : id ∉ lg_id <$> gs).
      { intros (g' & -> & Hin')%list_elem_of_fmap. destruct (E g' Hin') as (x & _ & _ & _ & _ & _ & _ & G' & Hn' & _).
        rewrite (zi_ready _ _ (ki_z Hi2)), Hn' in Hr2. simpl in Hr2.
        by rewrite (grant_not_ready _ _ _ _ _ _ G') in Hr2. }
      eapply (Hmin k2'); [done|]. rewrite <- Hkeep by done. rewrite <- Hr2.
      by rewrite (zi_ready _ _ Hz1), (zi_ready _ _ (ki_z Hi2)), Hoth.
    + rewrite <- (Hstart k1' g1) in Hr1 by done. by eapply (B g1 k1' k2').
  - destruct S as [<-|S]; [by left|by right].
  - simpl. lia.
Qed.

(** ** The scripts *)

(** The codes of error replies, and a reply with one of them. *)
Definition script_codes : list string :=
  ["NOTFOUND"; "NOTFOUND-FROM"; "NOTFOUND-TO"; "IDCONFLICT"; "SEALED"; "TERMINAL"; "HASSUCC"; "INFLIGHT"; "LEASEMISMATCH";
   "BATCHSIZE"; "PAYLOADCAP"; "CYCLE"; "CYCLESELF"]%string.

Definition coded (e : lerror) : Prop := exists code x args, e = ErrorReply (dwerr (code :: x :: args)) /\ code ∈ script_codes.

(** An error reply that changed nothing. *)
Definition refused (k : keys) (e : lerror) (k' : keys) : Prop := k' = k /\ coded e.

Lemma refused_reply k code x args : bool_decide (code ∈ script_codes) = true -> refused k (ErrorReply (dwerr (code :: x :: args))) k.
Proof. intros Hc%bool_decide_eq_true. split; [done|]. by exists code, x, args. Qed.

Lemma kinv_blob skip d Y k f :
  kinv skip d Y k -> (forall i, is_Some (f (k_blob k) !! i) <-> is_Some (k_blob k !! i)) -> kinv skip d Y (k <| k_blob ::= f |>).
Proof.
  intros [[] Hl [] Hs Hy He] Hf. split; try done. split; try done. intros i. simpl. by rewrite Hf.
Qed.

(** The kinds a claim looks at. *)
Definition candidates (k : keys) (kinds l : list string) : Prop :=
  if bool_decide (kinds = []) then forall kind, kind ∈ l <-> kind ∈ k_kinds k else l = kinds.

(** A claim in two halves: first leases that have run out and retries that are
    due are dealt with, at the time [now] of the server. *)
Definition tidy (sweepBatch : Z) : L C Z :=
  now ← nowMs;
  _ ← reclaimExpired now sweepBatch;
  promoteScheduled now ;;
  mret now.

Definition claim_from (kinds : list string) (maxN leaseMs maxInFlight : Z) (workerId : string) (now : Z) : L C (list lgrant) :=
  kinds ← match kinds with
          | [] => l ← read (fun k => elements (k_kinds k)); any_order l
          | _ => mret kinds
          end;
  claim_loop (Z.to_nat maxN) kinds leaseMs maxInFlight workerId now [].

Lemma scriptClaim_halves kinds maxN leaseMs sweepBatch maxInFlight workerId (t : lst C) :
  scriptClaim kinds maxN leaseMs sweepBatch maxInFlight workerId t =
  match tidy sweepBatch t with
  | (t, inl now) => claim_from kinds maxN leaseMs maxInFlight workerId now t
  | (t, inr e) => (t, inr e)
  end.
Proof.
  unfold scriptClaim, tidy, mbind, L_bind. destruct (nowMs t) as [t1 [now|e]]; [|done].
  destruct (reclaimExpired now sweepBatch t1) as [t2 [n|e]]; [|done]. by destruct (promoteScheduled now t2) as [t3 [[]|e]].
Qed.

Lemma lwp_tidy Y sweepBatch k :
  kinv None None Y k -> wp (tidy sweepBatch : L C Z) (fun _ k' => kinv None None Y k' /\ evolve k k') never k.
Proof.
  intros Hi. unfold tidy. apply lwp_bind, lwp_nowMs. intros now. lwp_steps.
  eapply lwp_mono; [by apply (lwp_reclaimExpired Y)|]. intros n k1 (Hi1 & Hv1 & _). lwp_steps.
  eapply lwp_mono; [by apply (lwp_promote_loop Y)|]. intros [] k2 (Hi2 & Hv2). lwp_steps. split; [done|by etrans].
Qed.

Lemma tidy_now sweepBatch (t t1 : lst C) now :
  tidy sweepBatch t = (t1, inl now) -> now = ((clk_Now (l_c t)).1 / Millisecond)%Z.
Proof.
  unfold tidy, mbind, L_bind, nowMs. destruct (clk_Now (l_c t)) as [ns c]. simpl.
  destruct (reclaimExpired _ _ _) as [t2 [n|e]]; [|done]. destruct (promoteScheduled _ t2) as [t3 [[]|e]]; [|done]. by intros [= _ <-].
Qed.

Lemma lwp_claim_from Y kinds maxN leaseMs maxInFlight workerId now k :
  kinv None None Y k ->
  wp (claim_from kinds maxN leaseMs maxInFlight workerId now : L C (list lgrant))
    (fun gs k' => kinv None None Y k' /\ evolve k k' /\ exists l, candidates k kinds l /\
       grants_ok (Z.to_nat maxN) l leaseMs maxInFlight workerId now Y k k' gs /\ k_pred k' = k_pred k) never k.
Proof.
  intros Hi. unfold claim_from.
  assert (Hloop : forall l, candidates k kinds l ->
    wp (claim_loop (Z.to_nat maxN) l leaseMs maxInFlight workerId now [] : L C _)
      (fun gs k' => kinv None None Y k' /\ evolve k k' /\ exists l, candidates k kinds l /\
         grants_ok (Z.to_nat maxN) l leaseMs maxInFlight workerId now Y k k' gs /\ k_pred k' = k_pred k) never k).
  { intros l Hl. eapply lwp_mono; [by apply (lwp_claim_loop Y)|]. intros gs k3 (gs' & -> & Hi3 & Hv3 & Hg & _ & Hp). simpl.
    split_and!; [done|done|]. exists l. by split_and!. }
  destruct kinds as [|kd kinds].
  - apply lwp_bind, lwp_bind, lwp_read, lwp_any_order. intros l Hl. apply Hloop. unfold candidates. rewrite bool_decide_eq_true_2 by done.
    intros kind. rewrite Hl. apply elem_of_elements.
  - lwp_steps. apply Hloop. unfold candidates. by rewrite bool_decide_eq_false_2.
Qed.

Lemma lwp_scriptClaim Y kinds maxN leaseMs sweepBatch maxInFlight workerId k :
  kinv None None Y k ->
  wp (scriptClaim kinds maxN leaseMs sweepBatch maxInFlight workerId : L C (list lgrant))
    (fun gs k' => kinv None None Y k' /\ evolve k k' /\ exists k1 now l, kinv None None Y k1 /\ evolve k k1 /\ evolve k1 k' /\
       candidates k1 kinds l /\ grants_ok (Z.to_nat maxN) l leaseMs maxInFlight workerId now Y k1 k' gs /\ k_pred k' = k_pred k1) never k.
Proof.
  intros Hi t Ht. rewrite scriptClaim_halves. pose proof (lwp_tidy Y sweepBatch k Hi t Ht) as H1.
  destruct (tidy sweepBatch t) as [t1 [now|e]]; [|done]. destruct H1 as [Hi1 Hv1].
  pose proof (lwp_claim_from Y kinds maxN leaseMs maxInFlight workerId now (l_k t1) Hi1 t1 eq_refl) as H2.
  destruct (claim_from _ _ _ _ _ _ t1) as [t2 [gs|e]]; [|done]. destruct H2 as (Hi2 & Hv2 & l & Hc & Hg & Hp).
  split_and!; [done|by etrans|]. exists (l_k t1), now, l. by split_and!.
Qed.

(** A claim that answers, by its halves. *)
Lemma claim_halves Y k kinds maxN leaseMs sweepBatch maxInFlight workerId (s s' : C) k' gs ef :
  kinv None None Y k ->
  run_script (scriptClaim kinds maxN leaseMs sweepBatch maxInFlight workerId) s k = (s', k', inl (gs, ef)) ->
  exists s1 k1 ef1 l, let now := ((clk_Now s).1 / Millisecond)%Z in
    run_script (tidy sweepBatch) s k = (s1, k1, inl (now, ef1)) /\ kinv None None Y k1 /\ evolve k k1 /\ kinv None None Y k' /\
    candidates k1 kinds l /\ grants_ok (Z.to_nat maxN) l leaseMs maxInFlight workerId now Y k1 k' gs.
Proof.
  intros Hi. unfold run_script. set (t := mkLst s k []). rewrite scriptClaim_halves.
  pose proof (lwp_tidy Y sweepBatch k Hi t eq_refl) as H1. pose proof (tidy_now sweepBatch t) as Hn.
  destruct (tidy sweepBatch t) as [t1 [now|e]]; [|done]. destruct H1 as [Hi1 Hv1]. specialize (Hn t1 now eq_refl). subst now.
  pose proof (lwp_claim_from Y kinds maxN leaseMs maxInFlight workerId ((clk_Now (l_c t)).1 / Millisecond)%Z (l_k t1) Hi1 t1 eq_refl) as H2.
  destruct (claim_from _ _ _ _ _ _ t1) as [t2 [gs'|e]]; [|done]. destruct H2 as (Hi2 & Hv2 & l & Hc & Hg & Hp).
  intros [= <- <- <- <-]. exists (l_c t1), (l_k t1), (l_effects t1), l. by split_and!.
Qed.

(** What an acknowledgement makes of the node [h]: another try, or its end. *)
Definition nack_reason (r : Reason) : Reason := if bool_decide (r = ReasonNone) then ReasonWorkerError else r.

Definition retries (k : keys) (success : bool) (reason : Reason) (h : hnode) : bool :=
  negb success && negb (bool_decide (nack_reason reason = ReasonSkipped)) && negb (tries_of k h <=? h_attempt h)%Z.

Definition completed (id : string) (success : bool) (reason : Reason) (result : bytes) (h : hnode) (r : bool * Z) (k k' : keys) : Prop :=
  r.1 = retries k success reason h /\
  exists h', k_node k' !! id = Some h' /\ h_reason h' = (if success then ReasonNone else nack_reason reason) /\
    (if r.1 then h_phase h' = PhaseScheduled /\ r.2 = h_readyAt h'
     else h_phase h' = PhaseDone /\ h_status h' = (if success then StatusSuccess else StatusError)) /\
    (success = true -> b_result <$> k_blob k' !! id = Some result).

Lemma ended id h1 st rs k1 k' :
  k_node k1 !! id = Some h1 -> done h1 = false -> terminated id st rs k1 k' ->
  exists h', k_node k' !! id = Some h' /\ h_reason h' = rs /\ h_phase h' = PhaseDone /\ h_status h' = st.
Proof.
  intros Hh Hn (_ & Hd & He & _). destruct (He h1 Hh Hn) as (h' & Hh' & Es & Er). exists h'. split_and!; try done.
  by eapply bool_decide_eq_true, Hd.
Qed.

Lemma lwp_scriptComplete Y id ep success reason message result cap k :
  kinv None None Y k ->
  wp (scriptComplete id ep success reason message result cap : L C (bool * Z))
    (fun r k' => kinv None None Y k' /\ adv k k' /\ exists h, k_node k !! id = Some h /\ h_phase h = PhaseClaimed /\ h_epoch h = ep /\
       (success = true -> (Z.of_nat (length result) <= cap)%Z) /\ completed id success reason result h r k k') (refused k) k.
Proof.
  intros Hi. unfold scriptComplete. lwp_steps. destruct (k_node k !! id) as [h|] eqn:Hh; [|lwp_steps; by apply refused_reply].
  destruct (negb _ || negb _) eqn:E; [lwp_steps; by apply refused_reply|].
  apply orb_false_iff in E as [Hp%negb_false_iff%bool_decide_eq_true Hep%negb_false_iff%Z.eqb_eq].
  assert (Hlive : done h = false) by (unfold done; by rewrite Hp, bool_decide_eq_false_2).
  apply lwp_bind, lwp_nowMs. intros now. destruct success.
  - destruct (Z.ltb_spec cap (Z.of_nat (length result))); [lwp_steps; by apply refused_reply|]. lwp_steps.
    destruct (proj2 (gi_blob k (ki_graph Hi) id)) as [b Hb]; [by eexists|]. rewrite Hb. lwp_steps.
    set (k1 := _ <| k_blob ::= _ |>).
    assert (Hi1 : kinv None None Y k1).
    { apply kinv_blob; [done|]. intros i. destruct (decide (i = id)) as [->|Hne].
      - rewrite lookup_insert_eq, Hb. split; intros _; by eexists.
      - by rewrite lookup_insert_ne. }
    apply lwp_never. eapply lwp_mono; [apply (lwp_terminate None Y Y id StatusSuccess ReasonNone ""%string now k1 Hi1); [by left|done|done]|].
    intros [] k' (Hi' & Ht). lwp_steps. pose proof Ht as [Hv _].
    destruct (ended id h StatusSuccess ReasonNone k1 k' Hh Hlive Ht) as (h' & Hh' & Er & Ep' & Es).
    split_and!; [done|by apply (evolve_adv k1)|]. exists h. split_and!; try done. split; [done|]. exists h'. split_and!; try done.
    intros _. rewrite (ev_blob _ _ Hv). change (b_result <$> <[id := b <| b_result := result |>]> (k_blob k) !! id = Some result).
    by rewrite lookup_insert_eq.
  - apply lwp_never. fold (nack_reason reason). case_bool_decide as Hr.
    + lwp_steps. eapply lwp_set_node; [exact Hh|]. set (k1 := _ <| k_node ::= _ |>).
      set (h1 := h <| h_deadline := 0%Z |>).
      assert (Hk1 : kinv None (Some id) Y k1 /\ evolve k k1).
      { apply (kinv_touch None (Some id) Y id h h1 k k1); try done; [by left|by right| | |].
        - intros j Hj. change (delete id (k_leases k) !! j = k_leases k !! j). by apply lookup_delete_ne.
        - right. split; [done|]. apply lookup_delete_eq.
        - left. rewrite (sched_none id h (ki_z Hi) Hh) by (by rewrite Hp). unfold zsched. by rewrite decide_False by (by rewrite Hp). }
      destruct Hk1 as [Hi1 Hv1]. assert (Hat1 : k_node k1 !! id = Some h1) by apply lookup_insert_eq. clearbody k1. lwp_steps.
      eapply lwp_mono; [apply (lwp_terminate (Some id) Y Y id StatusError ReasonSkipped message now k1 Hi1)|]; try done.
      { right. exists h1. by split_and!. }
      intros [] k' (Hi' & Ht). lwp_steps. pose proof Ht as [Hv _].
      destruct (ended id h1 StatusError ReasonSkipped k1 k' Hat1 Hlive Ht) as (h' & Hh' & Er & Ep' & Es).
      split_and!; [done|apply evolve_adv; by etrans|]. exists h. split_and!; try done. split.
      * unfold retries. by rewrite Hr, bool_decide_eq_true_2.
      * exists h'. rewrite Hr. by split_and!.
    + lwp_steps. eapply lwp_mono; [by eapply (lwp_failAttempt Y)|]. intros b k' (Hi' & Hv & _ & (h' & Hh' & Er & Hend) & Eb).
      assert (Hret : b = retries k false reason h) by (unfold retries; by rewrite bool_decide_eq_false_2).
      destruct b; lwp_steps; (split_and!; [done|by apply evolve_adv|]); exists h; (split_and!; try done); (split; [done|]); exists h'; split_and!; try done.
      by rewrite Hh'.
Qed.

Lemma lwp_scriptExtend Y id ep leaseMs k :
  kinv None None Y k ->
  wp (scriptExtend id ep leaseMs : L C Z)
    (fun r k' => kinv None None Y k' /\ evolve k k' /\ only id k k' /\ exists h, k_node k !! id = Some h /\ h_phase h = PhaseClaimed /\ h_epoch h = ep /\
       k_node k' !! id = Some (h <| h_deadline := r |>) /\ k_leases k' = <[id := r]> (k_leases k)) (refused k) k.
Proof.
  intros Hi. unfold scriptExtend. lwp_steps. destruct (k_node k !! id) as [h|] eqn:Hh; [|lwp_steps; by apply refused_reply].
  destruct (negb _ || negb _) eqn:E; [lwp_steps; by apply refused_reply|].
  apply orb_false_iff in E as [Hp%negb_false_iff%bool_decide_eq_true Hep%negb_false_iff%Z.eqb_eq].
  apply lwp_bind, lwp_nowMs. intros now. lwp_steps. eapply lwp_set_node; [exact Hh|]. lwp_steps.
  set (h1 := h <| h_deadline := (now + leaseMs)%Z |>). set (k1 := _ <| k_leases ::= _ |>).
  assert (Hk1 : kinv None None Y k1 /\ evolve k k1).
  { apply (kinv_touch None None Y id h h1 k k1); try done; [by left|by left| | |].
    - intros j Hj. change (<[id := (now + leaseMs)%Z]> (k_leases k) !! j = k_leases k !! j). by apply lookup_insert_ne.
    - left. change (<[id := (now + leaseMs)%Z]> (k_leases k) !! id = zlease h1). rewrite lookup_insert_eq.
      unfold zlease. by rewrite decide_True.
    - left. rewrite (sched_none id h (ki_z Hi) Hh) by (by rewrite Hp). unfold zsched. by rewrite decide_False by (by rewrite Hp). }
  destruct Hk1 as [Hi1 Hv1]. split_and!; [done|done|..].
  - split; [|done]. intros j Hj. by apply lookup_insert_ne.
  - exists h. split_and!; try done. apply lookup_insert_eq.
Qed.

Lemma lwp_scriptSweep Y limit k :
  kinv None None Y k ->
  wp (scriptSweep limit : L C (Z * bool))
    (fun r k' => kinv None None Y k' /\ evolve k k' /\ exists now, r.1 = Z.of_nat (length (expired k now limit)) /\
       (r.2 = true <-> (limit <= r.1)%Z /\ exists i v, k_leases k' !! i = Some v /\ (v <= now)%Z)) never k.
Proof.
  intros Hi. unfold scriptSweep. apply lwp_bind, lwp_nowMs. intros now. lwp_steps.
  eapply lwp_mono; [by apply (lwp_reclaimExpired Y)|]. intros n k1 (Hi1 & Hv1 & -> & _). lwp_steps.
  eapply lwp_mono; [by apply (lwp_promote_loop Y)|]. intros [] k2 (Hi2 & Hv2). lwp_steps.
  split_and!; [done|by etrans|]. exists now. split; [done|]. cbn [fst snd]. rewrite andb_true_iff, Z.leb_le, negb_true_iff, bool_decide_eq_false.
  split; intros [Hl He]; (split; [done|]).
  - destruct (expired k2 now 1) as [|i l] eqn:E; [done|].
    destruct (expired_lease k2 now 1 i) as (v & ? & ?); [rewrite E; by left|]. eauto.
  - destruct He as (i & v & Hv & Hle). unfold expired. simpl.
    assert (i ∈ (filter (fun e => (e.2 <= now)%Z) (zrange (k_leases k2))).*1) as Hin.
    { apply list_elem_of_fmap. exists (i, v). split; [done|]. apply list_elem_of_filter. split; [done|]. by apply elem_zrange. }
    destruct (filter _ _).*1 as [|x l]; [by apply not_elem_of_nil in Hin|]. done.
Qed.

End Lease.
