(* ===== verification/RedisGraph.v ===== *)
(** * The order of the Redis backend: an edge is refused exactly when it would
    close a cycle, and the ranks stay a topological order *)
From S2P Require Import Prelude Types GoText Config Scope Renumber ListFacts MapSum RedisData RedisScripts RedisInv RedisLease.

(** ** A breadth-first search, for any relation *)

Section Search.
Context (nxt : relation string) (good : string -> bool) (start : string).

(** What has been found is reachable and good; the first [head] of it have all
    their good neighbours found. *)
Record found (head : nat) (visited : gset string) (delta : list string) : Prop := {
  fo_nodup : NoDup delta;
  fo_visited : forall u, u ∈ visited <-> u ∈ delta;
  fo_start : start ∈ delta;
  fo_reach : forall u, u ∈ delta -> rtc nxt start u /\ good u = true;
  fo_closed : forall i u v, i < head -> delta !! i = Some u -> nxt u v -> v ∈ delta \/ good v = false;
  fo_head : head <= length delta
}.

Lemma key_found_init : good start = true -> found 0 {[start]} [start].
Proof.
  intros Hg. split; [apply NoDup_singleton|set_solver|by left| |lia|simpl; lia]. intros u ->%list_elem_of_singleton. by split.
Qed.

Lemma key_scan_found k stop ok n head ws visited delta :
  found head visited delta -> n ∈ delta ->
  (forall w, w ∈ ws -> nxt n w /\ exists o, ord_of k w = Some o /\ ok o = good w) ->
  match scan k stop ok ws visited delta with
  | Scanned visited' delta' => found head visited' delta' /\ delta `prefix_of` delta' /\
      (forall w, w ∈ ws -> Some w <> stop /\ (w ∈ delta' \/ good w = false))
  | FoundStop => exists w, w ∈ ws /\ Some w = stop
  | NoOrd => False
  end.
Proof.
  revert visited delta. induction ws as [|w ws IH]; intros visited delta Hf Hn Hws; simpl.
  { split_and!; try done. by intros w Hw%not_elem_of_nil. }
  assert (Hws' : forall w, w ∈ ws -> nxt n w /\ exists o, ord_of k w = Some o /\ ok o = good w) by (intros; apply Hws; by right).
  destruct (Hws w) as (Hnx & o & Eo & Eg); [by left|].
  case_bool_decide as Hst; [exists w; split; [by left|done]|].
  assert (Hgo : forall visited' delta', found head visited' delta' -> delta `prefix_of` delta' -> (w ∈ delta' \/ good w = false) ->
    match scan k stop ok ws visited' delta' with
    | Scanned visited'' delta'' => found head visited'' delta'' /\ delta `prefix_of` delta'' /\
        (forall x, x ∈ w :: ws -> Some x <> stop /\ (x ∈ delta'' \/ good x = false))
    | FoundStop => exists x, x ∈ w :: ws /\ Some x = stop
    | NoOrd => False
    end).
  { intros visited' delta' Hf' Hpre Hw. specialize (IH visited' delta' Hf' (elem_of_prefix _ _ _ Hn Hpre) Hws').
    destruct (scan k stop ok ws visited' delta') as [v'' d''| |]; [|destruct IH as (x & ? & ?); exists x; split; [by right|done]|done].
    destruct IH as (F & P & D). split_and!; [done|by etrans|]. intros x [->|Hx]%elem_of_cons; [|by apply D]. split; [done|].
    destruct Hw as [Hw|?]; [left; by eapply elem_of_prefix|by right]. }
  case_bool_decide as Hv; [apply Hgo; [done|done|left; by apply (fo_visited _ _ _ Hf)]|]. rewrite Eo.
  destruct (ok o) eqn:Eok; [|apply Hgo; [done|done|right; congruence]]. clear IH.
  destruct (fo_reach _ _ _ Hf n Hn) as [Hr _].
  apply Hgo; [|by apply prefix_app_r|left; apply elem_of_app; right; by apply list_elem_of_singleton].
  rewrite (fo_visited _ _ _ Hf) in Hv. destruct Hf as [H1 H2 H3 H4 H5 H6]. split.
  - apply NoDup_app. split_and!; [done| |apply NoDup_singleton]. intros u Hu ->%list_elem_of_singleton. done.
  - intros u. rewrite elem_of_union, elem_of_singleton, elem_of_app, list_elem_of_singleton, H2. tauto.
  - apply elem_of_app. by left.
  - intros u [Hu| ->%list_elem_of_singleton]%elem_of_app; [by apply H4|]. split; [|congruence]. by eapply rtc_r.
  - intros i u v Hi Hu Hnxt. rewrite lookup_app_l in Hu by lia. rewrite elem_of_app. destruct (H5 i u v Hi Hu Hnxt); auto.
  - rewrite length_app. simpl. lia.
Qed.

End Search.

(** ** The edges of the keys *)

Definition edge (k : keys) : relation string := fun u v => is_Some (k_pred k !! (v, u)).
Definition is_node (k : keys) (u : string) : Prop := is_Some (k_node k !! u).
Definition rk (k : keys) (u : string) : Z := default 0%Z (ord_of k u).

Lemma ord_of_at k u h : k_node k !! u = Some h -> ord_of k u = Some (h_ord h).
Proof. unfold ord_of. by intros ->. Qed.

Lemma rk_at k u h : k_node k !! u = Some h -> rk k u = h_ord h.
Proof. intros Hh. unfold rk. by rewrite (ord_of_at k u h). Qed.

Section Order.
Context {C : Type} `{!RedisServer C} (k : keys) (Hg : ginv k).

Lemma key_edge_nodes u v : edge k u v -> is_node k u /\ is_node k v.
Proof. intros (sat & He). destruct (gi_edge k Hg u v sat He) as (hu & hv & ? & ? & _). split; by eexists. Qed.

Lemma key_edge_rank u v : edge k u v -> (rk k u < rk k v)%Z.
Proof.
  intros (sat & He). destruct (gi_edge k Hg u v sat He) as (hu & hv & Hu & Hv & Hlt & _). by rewrite (rk_at k u hu), (rk_at k v hv).
Qed.

Lemma rk_inj u v : is_node k u -> is_node k v -> rk k u = rk k v -> u = v.
Proof. intros [hu Hu] [hv Hv]. rewrite (rk_at k u hu), (rk_at k v hv) by done. by apply (gi_rank_inj k Hg). Qed.

Lemma key_nodup_size (l : list string) : NoDup l -> (forall u, u ∈ l -> is_node k u) -> length l <= size (k_node k).
Proof.
  intros Hnd Hl. rewrite <- (size_list_to_set (C := gset string) l Hnd), <- (size_dom (D := gset string)).
  apply subseteq_size. intros u. rewrite elem_of_list_to_set. intros Hu. apply elem_of_dom. by apply Hl.
Qed.

Lemma lwp_bfs (nxt : relation string) (nbrs : string -> L C (list string)) stop ok fuel start head visited delta :
  let good := fun u => ok (rk k u) in
  (forall u v, nxt u v -> is_node k v) -> is_node k start ->
  (forall n (Q : list string -> keys -> Prop), (forall l, (forall w, w ∈ l <-> nxt n w) -> Q l k) -> wp (nbrs n) Q never k) ->
  found nxt good start head visited delta ->
  (forall i u v, i < head -> delta !! i = Some u -> nxt u v -> Some v <> stop) ->
  size (k_node k) < fuel + head ->
  wp (bfs fuel nbrs stop ok head visited delta : L C _)
    (fun r k' => k' = k /\ match r with
       | Some delta' => (exists visited', found nxt good start (length delta') visited' delta') /\
           (forall u v, u ∈ delta' -> nxt u v -> Some v <> stop)
       | None => exists x, stop = Some x /\ rtc nxt start x
       end) never k.
Proof.
  intros good Hnode Hstart Hnbrs. revert head visited delta. induction fuel as [|fuel IH]; intros head visited delta Hf Hst Hfuel.
  { pose proof (fo_head _ _ _ _ _ _ Hf). assert (length delta <= size (k_node k)); [|lia].
    apply key_nodup_size; [apply Hf|]. intros u Hu. apply (fo_reach _ _ _ _ _ _ Hf) in Hu as [Hu _].
    apply rtc_inv_r in Hu as [<-|(z & _ & Hz)]; [done|by eapply Hnode]. }
  cbn [bfs]. destruct (delta !! head) as [n|] eqn:Hn.
  2: { apply lookup_ge_None in Hn. pose proof (fo_head _ _ _ _ _ _ Hf). assert (head = length delta) as -> by lia. lwp_steps.
       split_and!; [done|by exists visited|]. intros u v [i Hi]%list_elem_of_lookup. apply (Hst i u v); [|done]. by eapply lookup_lt_Some. }
  pose proof (list_elem_of_lookup_2 _ _ _ Hn) as Hnd.
  apply lwp_bind, Hnbrs. intros ws Hws. lwp_steps.
  pose proof (key_scan_found nxt good start k stop ok n head ws visited delta Hf Hnd) as Hscan.
  destruct (scan k stop ok ws visited delta) as [v' d'| |].
  3: { destruct Hscan. intros w Hw%Hws. destruct (Hnode n w Hw) as [h Hh]. split; [done|]. exists (h_ord h).
       rewrite (ord_of_at k w h) by done. split; [done|]. unfold good. by rewrite (rk_at k w h). }
  2: { destruct Hscan as (w & Hw%Hws & Ew).
       { intros w Hw%Hws. destruct (Hnode n w Hw) as [h Hh]. split; [done|]. exists (h_ord h).
         rewrite (ord_of_at k w h) by done. split; [done|]. unfold good. by rewrite (rk_at k w h). }
       lwp_steps. split; [done|]. exists w. split; [done|]. eapply rtc_r; [|done]. by apply (fo_reach _ _ _ _ _ _ Hf). }
  destruct Hscan as (F & P & D).
  { intros w Hw%Hws. destruct (Hnode n w Hw) as [h Hh]. split; [done|]. exists (h_ord h).
    rewrite (ord_of_at k w h) by done. split; [done|]. unfold good. by rewrite (rk_at k w h). }
  assert (Hpre : forall i u, i < S head -> d' !! i = Some u -> delta !! i = Some u).
  { intros i u Hi Hu. pose proof (lookup_lt_Some _ _ _ Hn). destruct P as [z ->]. by rewrite lookup_app_l in Hu by lia. }
  apply IH; [|intros i u v Hi Hu Hnx|lia].
  - destruct F as [F1 F2 F3 F4 F5 F6]. split; try done.
    + intros i u v Hi Hu Hnx. destruct (decide (i = head)) as [->|Hne].
      * rewrite (Hpre head u) in Hn by done. simplify_eq. by apply D, Hws.
      * apply (F5 i u v); [lia|done|done].
    + pose proof (lookup_lt_Some _ _ _ Hn). apply prefix_length in P. lia.
  - destruct (decide (i = head)) as [->|Hne].
    + rewrite (Hpre head u) in Hn by done. simplify_eq. by apply D, Hws.
    + apply (Hst i u v); [lia|by apply Hpre|done].
Qed.

(** ** Writing ranks *)

(** [k'] differs from [k] in the ranks only, which are [o]. *)
Record reranked (o : string -> Z) (k' : keys) : Prop := {
  rr_node : forall i, k_node k' !! i = (fun h => h <| h_ord := o i |>) <$> k_node k !! i;
  rr_rest : k' = k <| k_node := k_node k' |>
}.

Lemma reranked_rk o k' u : reranked o k' -> is_node k u -> rk k' u = o u.
Proof. intros Hr [h Hh]. rewrite (rk_at k' u (h <| h_ord := o u |>)); [done|]. by rewrite (rr_node _ _ Hr), Hh. Qed.

Lemma key_reranked_refl : reranked (rk k) k.
Proof.
  split; [|by destruct k]. intros i. destruct (k_node k !! i) as [h|] eqn:Hh; [|done]. simpl. rewrite (rk_at k i h Hh).
  by destruct h.
Qed.

Lemma lwp_assign ids vals :
  NoDup ids -> length vals = length ids -> (forall u, u ∈ ids -> is_node k u) ->
  wp (assign ids vals : L C unit)
    (fun _ k' => exists o, reranked o k' /\ (forall u, u ∉ ids -> o u = rk k u) /\
       forall i u v, ids !! i = Some u -> vals !! i = Some v -> o u = v) never k.
Proof.
  intros Hnd Hlen Hin. unfold assign.
  eapply lwp_mono; [apply (lwp_each _ (fun l k1 => exists o, reranked o k1 /\ NoDup l.*1 /\ (forall u, u ∉ ids -> o u = rk k u) /\
    (forall i u v, ids !! i = Some u -> vals !! i = Some v -> (u, v) ∈ l \/ (u ∉ l.*1 /\ o u = v)) /\ (forall u, u ∈ l.*1 -> u ∈ ids)))|].
  - exists (rk k). rewrite fst_zip by lia. split_and!; [apply key_reranked_refl|done|done| |done].
    intros i u v Hu Hv. left. apply list_elem_of_lookup. exists i. rewrite lookup_zip_with, Hu. simpl. by rewrite Hv.
  - intros [i w] l k1 (o & Hrr & [Hi Hl]%NoDup_cons & Hout & Hat & Hsub). simpl in *.
    destruct (Hin i) as [h Hh]; [apply Hsub; by left|].
    assert (Hk1 : k_node k1 !! i = Some (h <| h_ord := o i |>)) by (by rewrite (rr_node _ _ Hrr), Hh).
    eapply lwp_set_node; [exact Hk1|]. exists (fun u => if decide (u = i) then w else o u). split_and!; [|done| | |].
    + split.
      * intros j. cbn [k_node]. change (k_node (k1 <| k_node ::= ?f |>)) with (f (k_node k1)).
        destruct (decide (j = i)) as [->|Hne].
        -- simpl. rewrite lookup_insert_eq, Hh. done.
        -- simpl. rewrite lookup_insert_ne by done. apply (rr_node _ _ Hrr).
      * rewrite (rr_rest _ _ Hrr). done.
    + intros u Hu. case_decide; [|by apply Hout]. subst u. destruct Hu. apply Hsub. by left.
    + intros j u v Hu Hv. destruct (Hat j u v Hu Hv) as [[E|H]%elem_of_cons|[H1 H2]]; [|by left|].
      * injection E as -> ->. right. by rewrite decide_True.
      * right. apply not_elem_of_cons in H1 as [H1 H1']. by rewrite decide_False.
    + intros u Hu. apply Hsub. by right.
  - intros [] k' (o & Hrr & _ & Hout & Hat & _). exists o. split_and!; try done.
    intros i u v Hu Hv. by destruct (Hat i u v Hu Hv) as [H%not_elem_of_nil|[_ H]].
Qed.

#[local] Instance ord_before_total k0 : Total (ord_before k0).
Proof. intros a b. unfold ord_before. lia. Qed.

#[local] Instance ord_before_trans k0 : Transitive (ord_before k0).
Proof. intros a b c. unfold ord_before. lia. Qed.

(** ** [addEdgeOrder] *)

(** The ranks are still those of a topological order. *)
Record reordered (k' : keys) : Prop := {
  ro_ranks : exists o, reranked o k';
  ro_mono : forall u v, edge k u v -> (rk k' u < rk k' v)%Z;
  ro_inj : forall u v, is_node k u -> is_node k v -> rk k' u = rk k' v -> u = v;
  ro_val : forall u, is_node k u -> exists v, is_node k v /\ rk k' u = rk k v
}.

Lemma reordered_refl : reordered k.
Proof. split; [exists (rk k); apply key_reranked_refl|apply key_edge_rank|apply rk_inj|eauto]. Qed.

Lemma lwp_reorder x y B F :
  is_node k x -> is_node k y -> regions (rk k) (edge k) x y B F ->
  wp (reorder B F : L C unit) (fun _ k' => reordered k' /\ (rk k' x < rk k' y)%Z) never k.
Proof.
  intros Hx Hy Hrg. unfold reorder. apply lwp_bind, lwp_read. fold (rk k).
  change (fun id => default 0%Z (ord_of k id)) with (rk k).
  assert (Hmono := key_edge_rank). assert (Hinj := rk_inj). assert (Hlive := key_edge_nodes).
  assert (Hnode := region_live (rk k) (edge k) (is_node k) Hlive x y Hx Hy B F Hrg).
  assert (Hdisj := regions_disjoint (rk k) (edge k) Hmono x y B F Hrg).
  assert (Hri := region_inj (rk k) (edge k) (is_node k) Hlive Hinj x y Hx Hy B F Hrg).
  destruct (rg_B _ _ _ _ _ _ Hrg) as [nB _]. destruct (rg_F _ _ _ _ _ _ Hrg) as [nF _].
  set (B' := merge_sort (ord_before k) B). set (F' := merge_sort (ord_before k) F).
  assert (PB : B' ≡ₚ B) by apply merge_sort_Permutation. assert (PF : F' ≡ₚ F) by apply merge_sort_Permutation.
  assert (HiB : incr (rk k <$> B')).
  { apply (sort_incr (rk k)); [apply _|apply _|intros a b H; exact H|done|]. intros a b Ha Hb. apply Hri; auto. }
  assert (HiF : incr (rk k <$> F')).
  { apply (sort_incr (rk k)); [apply _|apply _|intros a b H; exact H|done|]. intros a b Ha Hb. apply Hri; auto. }
  fold (pool (rk k) B' F').
  assert (Hlen : length (pool (rk k) B' F') = length (B' ++ F')) by (rewrite pool_length, length_app; done).
  assert (Hin : forall u, u ∈ B' ++ F' -> is_node k u).
  { intros u. rewrite elem_of_app, PB, PF. apply Hnode. }
  eapply lwp_mono; [apply lwp_assign; [|done|done]|].
  { apply NoDup_app. split_and!; [by rewrite PB| |by rewrite PF]. intros u. rewrite PB, PF. apply Hdisj. }
  intros [] k' (o & Hrr & Hout & Hat0).
  assert (Hat : forall i u, (B' ++ F') !! i = Some u -> pool (rk k) B' F' !! i = Some (o u)).
  { intros i u Hi. pose proof (lookup_lt_Some _ _ _ Hi) as Hl. rewrite <- Hlen in Hl.
    destruct (lookup_lt_is_Some_2 _ _ Hl) as [v Hv]. rewrite Hv. f_equal. symmetry. by apply (Hat0 i u v Hi Hv). }
  assert (Hout' : forall u, u ∉ B -> u ∉ F -> o u = rk k u).
  { intros u H1 H2. apply Hout. rewrite elem_of_app, PB, PF. tauto. }
  assert (Hrk : forall u, is_node k u -> rk k' u = o u) by (intros u Hu; by apply reranked_rk).
  split; [split; [by exists o|..]|].
  - intros u v He. destruct (Hlive u v He). rewrite !Hrk by done.
    by apply (renumber_mono (rk k) (edge k) (is_node k) Hlive Hmono Hinj x y Hx Hy B F Hrg B' F' o PB PF HiB HiF Hat Hout').
  - intros u v Hu Hv. rewrite !Hrk by done.
    by apply (renumber_inj (rk k) (edge k) (is_node k) Hlive Hmono Hinj x y Hx Hy B F Hrg B' F' o PB PF Hat Hout').
  - intros u Hu. rewrite Hrk by done.
    by apply (renumber_values (rk k) (edge k) (is_node k) Hlive x y Hx Hy B F Hrg B' F' o PB PF Hat Hout').
  - rewrite !Hrk by done.
    by apply (renumber_new (rk k) (edge k) (is_node k) Hlive Hmono Hinj x y Hx Hy B F Hrg B' F' o PB PF Hat).
Qed.

Lemma lwp_addEdgeOrder x y :
  is_node k x -> is_node k y -> x <> y ->
  wp (addEdgeOrder x y : L C order_result)
    (fun res k' => match res with
       | CycleFound => k' = k /\ rtc (edge k) y x
       | _ => ~ rtc (edge k) y x /\ reordered k' /\ (rk k' x < rk k' y)%Z
       end) never k.
Proof.
  intros Hx Hy Hne. unfold addEdgeOrder. lwp_steps.
  pose proof Hx as [hx Ehx]. pose proof Hy as [hy Ehy].
  eapply lwp_need; [by apply ord_of_at|]. lwp_steps. eapply lwp_need; [by apply ord_of_at|].
  rewrite <- (rk_at k x hx Ehx), <- (rk_at k y hy Ehy).
  destruct (Z.ltb_spec (rk k x) (rk k y)) as [Hlt|Hge].
  { lwp_steps. split_and!; [|apply reordered_refl|done]. intros Hr%(rtc_rank (rk k) (edge k) key_edge_rank). lia. }
  assert (Hlt : (rk k y < rk k x)%Z).
  { assert (rk k x <> rk k y); [|lia]. intros E. apply Hne. by apply rk_inj. }
  lwp_steps.
  eapply lwp_mono; [apply (lwp_bfs (edge k) smembers_succ (Some x) (fun ow => (ow <? rk k x)%Z) (search_fuel k) y 0 {[y]} [y])|].
  { intros u v He. by apply (key_edge_nodes u v). }
  { done. }
  { intros n Q HQ. apply lwp_smembers. intros l Hl. apply HQ. intros w. rewrite Hl, elem_succs_of. apply (gi_succ k Hg). }
  { apply key_found_init. by apply Z.ltb_lt. }
  { intros; lia. }
  { unfold search_fuel. lia. }
  intros [F|] k1 [-> HF]; [|destruct HF as (x' & [= <-] & Hr); by lwp_steps]. lwp_steps.
  eapply lwp_mono; [apply (lwp_bfs (fun u v => edge k v u) hkeys_pred None (fun ow => (rk k y <? ow)%Z) (search_fuel k) x 0 {[x]} [x])|].
  { intros u v He. by apply (key_edge_nodes v u). }
  { done. }
  { intros n Q HQ. apply lwp_hkeys. intros l Hl. apply HQ. intros w. by rewrite Hl, elem_preds_of. }
  { apply key_found_init. by apply Z.ltb_lt. }
  { intros; lia. }
  { unfold search_fuel. lia. }
  intros [B|] k2 [-> HB]; [|by destruct HB as (? & ? & _)]. lwp_steps.
  destruct HF as [(vF & HfF) HnxF]. destruct HB as [(vB & HfB) _].
  assert (Hrg : regions (rk k) (edge k) x y B F).
  { split.
    - split; [apply (fo_nodup _ _ _ _ _ _ HfB)|apply (fo_start _ _ _ _ _ _ HfB)].
    - split; [apply (fo_nodup _ _ _ _ _ _ HfF)|apply (fo_start _ _ _ _ _ _ HfF)].
    - intros u Hu. destruct (fo_reach _ _ _ _ _ _ HfB u Hu) as [Hr Hgd%Z.ltb_lt]. split; [|done].
      clear -Hr. induction Hr as [|a b c Hab _ IH]; [done|]. by eapply rtc_r.
    - intros u Hu. destruct (fo_reach _ _ _ _ _ _ HfF u Hu) as [Hr Hgd%Z.ltb_lt]. done.
    - intros u v [i Hi]%list_elem_of_lookup He.
      destruct (fo_closed _ _ _ _ _ _ HfB i v u (lookup_lt_Some _ _ _ Hi) Hi He) as [?|Hb%Z.ltb_ge]; [by left|right; lia].
    - intros u v Hu He. pose proof Hu as [i Hi]%list_elem_of_lookup.
      destruct (fo_closed _ _ _ _ _ _ HfF i u v (lookup_lt_Some _ _ _ Hi) Hi He) as [?|Hb%Z.ltb_ge]; [by left|right].
      assert (rk k x <> rk k v); [|lia]. intros E. destruct (key_edge_nodes u v He) as [_ Hv].
      apply (HnxF u v Hu He). f_equal. symmetry. by apply rk_inj. }
  eapply lwp_mono; [by apply (lwp_reorder x y)|]. intros [] k3 [Hro Hlt3]. lwp_steps. split_and!; try done.
  apply (no_route (rk k) (edge k) key_edge_rank x y _ _ Hrg).
Qed.

End Order.

(** * Edges and nodes that come and go *)

Lemma msum_change {K V : Type} `{Countable K} (f : K -> V -> Z) (m m' : gmap K V) e :
  (forall e', e' <> e -> m' !! e' = m !! e') ->
  msum f m' = (msum f m - from_option (f e) 0%Z (m !! e) + from_option (f e) 0%Z (m' !! e))%Z.
Proof.
  intros Hm. assert (E : delete e m' = delete e m).
  { apply map_eq. intros i. destruct (decide (i = e)) as [->|Hne]; [by rewrite !lookup_delete_eq|].
    rewrite !lookup_delete_ne by done. by apply Hm. }
  assert (H1 : forall n, msum f n = (from_option (f e) 0%Z (n !! e) + msum f (delete e n))%Z).
  { intros n. destruct (n !! e) as [v|] eqn:Hv; simpl; [by apply msum_delete|]. rewrite delete_id by done. lia. }
  rewrite (H1 m), (H1 m'), E. lia.
Qed.

(** ** Other ranks *)

Lemma kinv_reordered {skip d Y} k k' : kinv skip d Y k -> reordered k k' -> kinv skip d Y k'.
Proof.
  intros [Hg Hl Hz Hs Hy He] [[o Hrr] Hmono Hinj Hval].
  assert (Hnode : forall i, k_node k' !! i = (fun h => h <| h_ord := o i |>) <$> k_node k !! i) by apply Hrr.
  assert (Hback : forall i h', k_node k' !! i = Some h' -> exists h, k_node k !! i = Some h /\ h' = h <| h_ord := o i |>).
  { intros i h' Hh'. rewrite Hnode in Hh'. apply fmap_Some in Hh' as (h & ? & ->). eauto. }
  assert (Hdom : forall i, is_Some (k_node k' !! i) <-> is_Some (k_node k !! i)) by (intros i; by rewrite Hnode, fmap_is_Some).
  assert (Hbind : forall {A : Type} (f : hnode -> option A) i, (forall h, f (h <| h_ord := o i |>) = f h) ->
    (k_node k' !! i ≫= f) = (k_node k !! i ≫= f)).
  { intros A f i Hf. rewrite Hnode. destruct (k_node k !! i); [apply Hf|done]. }
  assert (Hrk : forall i h, k_node k !! i = Some h -> rk k' i = h_ord (h <| h_ord := o i |>)).
  { intros i h Hh. unfold rk, ord_of. by rewrite Hnode, Hh. }
  rewrite (rr_rest _ _ _ Hrr) in *. clear Hrr. set (ns := k_node k') in *. clearbody ns. clear k'.
  split.
  - split; simpl; try done; try (intros i; rewrite Hdom); try (by apply Hg).
    + intros a b sat He'. destruct (gi_edge k Hg a b sat He') as (ha & hb & Ha & Hb & Hlt & Hd).
      exists (ha <| h_ord := o a |>), (hb <| h_ord := o b |>). rewrite !Hnode, Ha, Hb. split_and!; try done.
      assert (Hr := Hmono a b (ex_intro _ sat He')).
      rewrite (rk_at _ a (ha <| h_ord := o a |>)), (rk_at _ b (hb <| h_ord := o b |>)) in Hr; [done|simpl; by rewrite Hnode, Hb|simpl; by rewrite Hnode, Ha].
    + intros b hb c (h & Hh & ->)%Hback. change (dep_field c (h_deps h) = edge_count (k <| k_node := ns |>) b c).
      rewrite (gi_deps k Hg b h c Hh). unfold edge_count. simpl. apply key_into_ext. intros a b' sat He'. unfold edge_class.
      rewrite Hnode. by destruct (k_node k !! a).
    + intros i h' (h & Hh & ->)%Hback. by apply (gi_coh k Hg i h).
    + intros i h' (h & Hh & ->)%Hback. destruct (Hval i) as (v & [hv Hv] & E); [by eexists|].
      rewrite (rk_at _ i (h <| h_ord := o i |>)) in E by (simpl; by rewrite Hnode, Hh). rewrite (rk_at k v hv Hv) in E.
      rewrite E. by apply (gi_rank k Hg v).
    + intros i j h h' Hh Hh' E. destruct (Hback i h Hh) as (x & Hx & ->), (Hback j h' Hh') as (y & Hy' & ->).
      apply Hinj; [by eexists|by eexists|].
      rewrite <- (Hrk i x Hx) in E. rewrite <- (Hrk j y Hy') in E. exact E.
    + intros i h' (h & Hh & ->)%Hback. by apply (gi_epoch k Hg i h).
  - intros a b ha He' (h & Hh & ->)%Hback Hd. by apply (Hl a b h).
  - destruct Hz as [R S L K F N]. split; simpl; try done.
    + intros kind i. rewrite Hbind by done. apply R.
    + intros i. rewrite Hbind by done. apply S.
    + intros i. rewrite Hbind by done. apply L.
    + intros i h' (h & Hh & ->)%Hback. by apply (F i h).
  - intros f Hf. etransitivity; [exact (Hs f Hf)|]. simpl.
    assert (ns = map_imap (fun i h => Some (h <| h_ord := o i |>)) (k_node k)) as ->.
    { apply map_eq. intros i. rewrite Hnode, map_lookup_imap. by destruct (k_node k !! i). }
    clear. induction (k_node k) as [|i h m Hi IH] using map_ind; [by rewrite map_imap_empty|].
    rewrite map_imap_insert. rewrite !msum_insert by (done || by rewrite map_lookup_imap, Hi). by rewrite IH.
  - intros i h' (h & Hh & ->)%Hback. by apply (Hy i h).
  - done.
Qed.

Lemma reordered_adv k k' : reordered k k' -> adv k k'.
Proof.
  intros [[o Hrr] _ _ _]. assert (Hf : floor k' = floor k) by (rewrite (rr_rest _ _ _ Hrr); done).
  split; [by rewrite Hf|]. intros i. unfold epoch_of. rewrite (rr_node _ _ _ Hrr), Hf. by destruct (k_node k !! i).
Qed.

(** ** One edge and the tally of its target *)

Section EdgeChange.
Context {d : option string} {Y : string -> Prop} {k k' : keys} (a b : string) (ha hb : hnode) (t' : DepCounts).
Context (Hi : kinv None d Y k) (Ha : k_node k !! a = Some ha) (Hb : k_node k !! b = Some hb).
Context (Hnode : k_node k' = <[b := hb <| h_deps := t' |>]> (k_node k)).
Context (Hrest : k' = k <| k_node := k_node k' |> <| k_pred := k_pred k' |> <| k_succ := k_succ k' |>).
Context (Hpred : forall e, e <> (b, a) -> k_pred k' !! e = k_pred k !! e).
Context (Hnew : forall sat, k_pred k' !! (b, a) = Some sat -> sat = done ha /\ (h_ord ha < h_ord hb)%Z).
Context (Hsucc : forall x y, (x, y) ∈ k_succ k' <-> is_Some (k_pred k' !! (y, x))).

Definition contrib (c : DepClass) (o : option bool) : Z :=
  match o with Some sat => Z.b2z (bool_decide (class_of sat (h_status ha) (h_reason ha) = c)) | None => 0%Z end.

Context (Hdeps : forall c, dep_field c t' = (dep_field c (h_deps hb) - contrib c (k_pred k !! (b, a)) + contrib c (k_pred k' !! (b, a)))%Z).

Let hb' := hb <| h_deps := t' |>.

Lemma edge_lookup i : k_node k' !! i = if decide (i = b) then Some hb' else k_node k !! i.
Proof. rewrite Hnode. case_decide as E; [subst; by rewrite lookup_insert_eq|by rewrite lookup_insert_ne]. Qed.

(** Every hash but for a tally. *)
Lemma edge_back i h' : k_node k' !! i = Some h' -> exists h, k_node k !! i = Some h /\ (h' = h \/ (i = b /\ h = hb /\ h' = hb')).
Proof. rewrite edge_lookup. case_decide as E; intros Hh; [|by eauto]. subst. injection Hh as <-. exists hb. auto. Qed.

Lemma edge_class_same i sat : edge_class (k_node k') i sat = edge_class (k_node k) i sat.
Proof. unfold edge_class. rewrite edge_lookup. case_decide; [|done]. subst. by rewrite Hb. Qed.

Lemma edge_count_change b' c :
  edge_count k' b' c = (edge_count k b' c + if bool_decide (b = b') then contrib c (k_pred k' !! (b, a)) - contrib c (k_pred k !! (b, a)) else 0)%Z.
Proof.
  unfold edge_count. rewrite (key_into_ext (k_node k') (k_node k)) by (intros; apply edge_class_same).
  rewrite (msum_change _ (k_pred k) (k_pred k') (b, a)) by done.
  assert (E : forall o, from_option (into (k_node k) b' c (b, a)) 0%Z o = if bool_decide (b = b') then contrib c o else 0%Z).
  { intros [sat|]; simpl; [|by case_bool_decide]. by rewrite (key_into_at _ _ _ _ _ ha). }
  rewrite !E. case_bool_decide; lia.
Qed.

Lemma kinv_edge (Y' : string -> Prop) : (forall i, i <> b -> Y i -> Y' i) -> Y' b -> kinv None d Y' k'.
Proof.
  intros HY HYb. pose proof Hi as [Hg Hl Hz Hs Hy He].
  assert (Hdom : forall i, is_Some (k_node k' !! i) <-> is_Some (k_node k !! i)).
  { intros i. rewrite edge_lookup. case_decide; [|done]. subst. rewrite Hb. split; intros _; by eexists. }
  assert (Hbind : forall {A : Type} (f : hnode -> option A) i, f hb' = f hb -> (k_node k' !! i ≫= f) = (k_node k !! i ≫= f)).
  { intros A f i Hf. rewrite edge_lookup. case_decide; [|done]. subst. by rewrite Hb. }
  assert (Hb' : k_blob k' = k_blob k) by (by rewrite Hrest).
  assert (Hidx : k_idx k' = k_idx k) by (by rewrite Hrest).
  assert (Hord : k_nextord k' = k_nextord k) by (by rewrite Hrest).
  assert (Hst : k_stats k' = k_stats k) by (by rewrite Hrest).
  split.
  - split.
    + intros i. rewrite Hb', Hdom. apply Hg.
    + intros i. rewrite Hidx, Hdom. apply Hg.
    + intros x y sat He'. destruct (decide ((y, x) = (b, a))) as [E|E].
      * injection E as -> ->. destruct (Hnew sat He') as [-> Hlt]. rewrite !edge_lookup. rewrite (decide_True (P := b = b)) by done.
        destruct (decide (a = b)) as [->|Hab]; [simplify_eq; lia|]. exists ha, hb'. by split_and!.
      * rewrite Hpred in He' by done. destruct (gi_edge k Hg x y sat He') as (hx & hy & Hx & Hy' & Hlt & Hd).
        assert (Hkeep : forall i h, k_node k !! i = Some h -> exists h', k_node k' !! i = Some h' /\ h_ord h' = h_ord h /\ done h' = done h).
        { intros i h Hh. rewrite edge_lookup. case_decide; [subst; simplify_eq; by exists hb'|by exists h]. }
        destruct (Hkeep x hx Hx) as (hx' & -> & Ex & Edx), (Hkeep y hy Hy') as (hy' & -> & Ey & _). exists hx', hy'.
        rewrite Ex, Ey, Edx. by split_and!.
    + done.
    + intros y hy c. rewrite edge_count_change, edge_lookup. case_decide as E.
      * subst y. intros [= <-]. rewrite bool_decide_eq_true_2 by done. change (h_deps hb') with t'. rewrite Hdeps, (gi_deps k Hg b hb c Hb). lia.
      * rewrite bool_decide_eq_false_2 by congruence. intros Hh. rewrite (gi_deps k Hg y hy c Hh). lia.
    + intros i h (h0 & Hh & E)%edge_back. pose proof (gi_coh k Hg i h0 Hh). destruct E as [->|(-> & -> & ->)]; done.
    + rewrite Hord. intros i h (h0 & Hh & E)%edge_back. pose proof (gi_rank k Hg i h0 Hh). destruct E as [->|(-> & -> & ->)]; done.
    + intros i j h h' (x & Hx & Ex)%edge_back (y & Hy' & Ey)%edge_back E. apply (gi_rank_inj k Hg i j x y); try done.
      destruct Ex as [->|(-> & -> & ->)], Ey as [->|(-> & -> & ->)]; done.
    + intros i h (h0 & Hh & E)%edge_back. pose proof (gi_epoch k Hg i h0 Hh). destruct E as [->|(-> & -> & ->)]; done.
    + unfold floor. rewrite Hst. apply Hg.
  - intros x y hx He' (h0 & Hh & Eh)%edge_back Hd.
    assert (Hd0 : done h0 = true) by (by destruct Eh as [->|(-> & -> & ->)]).
    destruct (decide ((y, x) = (b, a))) as [E|E]; [|rewrite Hpred in He' by done; by eapply Hl].
    injection E as -> ->. destruct (Hnew false He') as [E _]. by simplify_eq; rewrite <- E in Hd0.
  - destruct Hz as [R S L K F N]. split; try (rewrite Hrest; simpl; done).
    + intros kind i. rewrite Hbind by done. rewrite Hrest. apply R.
    + intros i. rewrite Hbind by done. rewrite Hrest. apply S.
    + intros i. rewrite Hbind by done. rewrite Hrest. apply L.
    + intros i h (h0 & Hh & E)%edge_back. pose proof (F i h0 Hh). rewrite Hrest. destruct E as [->|(-> & -> & ->)]; done.
  - intros f Hf. rewrite Hst, (Hs f Hf), Hnode. rewrite (msum_update _ _ _ hb) by done. unfold counted. simpl. lia.
  - intros i h (h0 & Hh & [->|(-> & -> & ->)])%edge_back; [|by left]. destruct (decide (i = b)) as [->|Hne]; [by left|].
    destruct (Hy i h0 Hh); auto.
  - rewrite Hrest. apply He.
Qed.

Lemma edge_adv : adv k k'.
Proof.
  assert (Hf : floor k' = floor k) by (rewrite Hrest; done). split; [by rewrite Hf|]. intros i. unfold epoch_of.
  rewrite edge_lookup, Hf. case_decide; [|done]. subst. by rewrite Hb.
Qed.

End EdgeChange.

(** ** [linkEdge] and [unlinkEdge] *)

(** The edge [a] -> [b] is [o] now; only the tally of [b] went with it. *)
Record edged (a b : string) (o : option bool) (k k' : keys) : Prop := {
  eg_other : forall i, i <> b -> k_node k' !! i = k_node k !! i;
  eg_at : exists h t, k_node k !! b = Some h /\ k_node k' !! b = Some (h <| h_deps := t |>);
  eg_pred : forall e, k_pred k' !! e = if decide (e = (b, a)) then o else k_pred k !! e;
  eg_rest : k' = k <| k_node := k_node k' |> <| k_pred := k_pred k' |> <| k_succ := k_succ k' |>
}.

Section Edges.
Context {C : Type} `{!RedisServer C} {d : option string} (Y Y' : string -> Prop).

Lemma lwp_linkEdge a b k :
  kinv None d Y k -> is_node k a -> is_node k b -> k_pred k !! (b, a) = None -> (rk k a < rk k b)%Z ->
  (forall i, i <> b -> Y i -> Y' i) -> Y' b ->
  wp (linkEdge a b : L C unit)
    (fun _ k' => kinv None d Y' k' /\ adv k k' /\ exists sat, edged a b (Some sat) k k') never k.
Proof.
  intros Hi [ha Ha] [hb Hb] He Hrk HY HYb. unfold linkEdge. lwp_steps. rewrite Ha. lwp_steps.
  eapply lwp_set_node; [exact Hb|].
  change (bool_decide (h_phase <$> Some ha = Some PhaseDone)) with (bool_decide (Some (h_phase ha) = Some PhaseDone)).
  assert (E : bool_decide (Some (h_phase ha) = Some PhaseDone) = done ha).
  { apply bool_decide_ext. split; [by intros [= ->]|by intros ->]. }
  rewrite E. clear E. change (h_status <$> Some ha) with (Some (h_status ha)). change (h_reason <$> Some ha) with (Some (h_reason ha)).
  set (t' := if negb (done ha) then (h_deps hb) <| Unsatisfied ::= Z.add 1 |> else bump_dep (Some (h_status ha)) (Some (h_reason ha)) 1 (h_deps hb)).
  change (hb <| h_deps ::= _ |>) with (hb <| h_deps := t' |>).
  set (k' := k <| k_pred ::= <[(b, a) := done ha]> |> <| k_succ ::= union {[(a, b)]} |> <| k_node ::= <[b := hb <| h_deps := t' |>]> |>).
  change (kinv None d Y' k' /\ adv k k' /\ exists sat, edged a b (Some sat) k k').
  assert (Hnode : k_node k' = <[b := hb <| h_deps := t' |>]> (k_node k)) by done.
  assert (Hp : forall e, k_pred k' !! e = if decide (e = (b, a)) then Some (done ha) else k_pred k !! e).
  { intros e. change (<[(b, a) := done ha]> (k_pred k) !! e = if decide (e = (b, a)) then Some (done ha) else k_pred k !! e).
    case_decide as Ee; [subst; apply lookup_insert_eq|by apply lookup_insert_ne]. }
  assert (Hrest : k' = k <| k_node := k_node k' |> <| k_pred := k_pred k' |> <| k_succ := k_succ k' |>) by done.
  split_and!.
  - apply (kinv_edge a b ha hb t' Hi Ha Hb Hnode Hrest); [..|done|done].
    + intros e Hne. by rewrite Hp, decide_False.
    + intros sat. rewrite Hp, decide_True by done. intros [= <-]. split; [done|]. by rewrite <- (rk_at k a ha), <- (rk_at k b hb).
    + intros x y. rewrite Hp. change ((x, y) ∈ {[(a, b)]} ∪ k_succ k <-> is_Some (if decide ((y, x) = (b, a)) then Some (done ha) else k_pred k !! (y, x))).
      rewrite elem_of_union, elem_of_singleton, (gi_succ k (ki_graph Hi)). case_decide as Ee.
      * injection Ee as -> ->. split; [by eexists|by left].
      * split; [intros [[= -> ->]|?]; done|by right].
    + intros c. rewrite Hp, decide_True, He by done. simpl. unfold t', class_of. destruct (done ha); simpl.
      * rewrite (bump_dep_field (h_status ha) (h_reason ha) 1 (h_deps hb) c). unfold class_of. simpl.
        rewrite Z.sub_0_r. f_equal. repeat case_bool_decide; subst; done.
      * destruct c; simpl; lia.
  - by apply (edge_adv b hb t' Hb Hnode Hrest).
  - exists (done ha). split; [|by exists hb, t'; rewrite Hnode, lookup_insert_eq|done|done].
    intros i Hne. rewrite Hnode. by apply lookup_insert_ne.
Qed.

Lemma lwp_unlinkEdge a b k :
  kinv None d Y k -> (forall i, i <> b -> Y i -> Y' i) -> Y' b ->
  wp (unlinkEdge a b : L C bool)
    (fun r k' => if r then kinv None d Y' k' /\ adv k k' /\ is_Some (k_pred k !! (b, a)) /\ edged a b None k k'
                 else k' = k /\ k_pred k !! (b, a) = None) never k.
Proof.
  intros Hi HY HYb. unfold unlinkEdge. lwp_steps. destruct (k_pred k !! (b, a)) as [sat|] eqn:He; [|by lwp_steps].
  destruct (gi_edge k (ki_graph Hi) a b sat He) as (ha & hb & Ha & Hb & Hlt & Hsat).
  assert (Es : sat = done ha).
  { destruct sat; [by symmetry; apply Hsat|]. destruct (done ha) eqn:Ed; [|done]. by pose proof (ki_live Hi a b ha He Ha Ed). }
  lwp_steps. change (k_node (k <| k_pred ::= delete (b, a) |>)) with (k_node k). rewrite Ha.
  change (h_status <$> Some ha) with (Some (h_status ha)). change (h_reason <$> Some ha) with (Some (h_reason ha)).
  set (f := if negb sat then drop_unsat else drop_dep (Some (h_status ha)) (Some (h_reason ha))). set (t' := f (h_deps hb)).
  set (k' := _ <| k_succ ::= _ |>).
  assert (Hnode : k_node k' = <[b := hb <| h_deps := t' |>]> (k_node k)).
  { change (alter (fun h => h <| h_deps ::= f |>) b (k_node k) = <[b := hb <| h_deps := t' |>]> (k_node k)).
    apply map_eq. intros j. destruct (decide (j = b)) as [->|Hj].
    - by rewrite lookup_insert_eq, lookup_alter_eq, Hb.
    - by rewrite lookup_insert_ne, lookup_alter_ne. }
  assert (Hp : forall e, k_pred k' !! e = if decide (e = (b, a)) then None else k_pred k !! e).
  { intros e. change (delete (b, a) (k_pred k) !! e = if decide (e = (b, a)) then None else k_pred k !! e).
    case_decide as Ee; [subst; apply lookup_delete_eq|by apply lookup_delete_ne]. }
  assert (Hrest : k' = k <| k_node := k_node k' |> <| k_pred := k_pred k' |> <| k_succ := k_succ k' |>) by done.
  assert (Hsucc : forall x y, (x, y) ∈ k_succ k' <-> (x, y) ∈ k_succ k ∖ {[(a, b)]}) by done.
  clearbody k'. assert (Htally := key_tally_pos k a b ha hb sat (ki_graph Hi) He Ha Hb).
  split_and!; [| |by eexists|].
  - apply (kinv_edge a b ha hb t' Hi Ha Hb Hnode Hrest); [..|done|done].
    + intros e Hne. by rewrite Hp, decide_False.
    + intros s. by rewrite Hp, decide_True.
    + intros x y. rewrite Hp, Hsucc, elem_of_difference, elem_of_singleton, (gi_succ k (ki_graph Hi)). case_decide as Ee.
      * injection Ee as -> ->. split; [by intros [_ []]|by intros [? ?]].
      * split; [by intros [? _]|]. intros ?. split; [done|]. by intros [= -> ->].
    + intros c. rewrite Hp, decide_True, He by done. cbn [contrib]. unfold t', f. destruct sat; cbn [negb] in *.
      * rewrite (drop_dep_field _ _ _ Htally c). repeat case_bool_decide; subst; simpl; try done; lia.
      * change (class_of false (h_status ha) (h_reason ha)) with DUnsat in *. rewrite (drop_unsat_field _ Htally c).
        repeat case_bool_decide; subst; simpl; try done; lia.
  - by apply (edge_adv b hb t' Hb Hnode Hrest).
  - split; [|by exists hb, t'; rewrite Hnode, lookup_insert_eq|done|done].
    intros i Hne. rewrite Hnode. by apply lookup_insert_ne.
Qed.

End Edges.

(** ** Nodes that come and go *)

(** The tallies count the edges by their sources' hashes only. *)
Lemma edge_count_same k k' b c :
  ginv k -> k_pred k' = k_pred k -> (forall a h, edge k a b -> k_node k !! a = Some h -> exists h', k_node k' !! a = Some h' /\
    h_status h' = h_status h /\ h_reason h' = h_reason h) -> edge_count k' b c = edge_count k b c.
Proof.
  intros Hg Hp Hn. unfold edge_count. rewrite Hp. apply msum_ext. intros [y x] sat He. unfold into. cbn [fst snd].
  case_bool_decide as E; [|done]. subst y. destruct (gi_edge k Hg x b sat He) as (hx & _ & Hx & _).
  destruct (Hn x hx) as (h' & Hh' & Es & Er); [by exists sat|done|]. unfold edge_class. by rewrite Hx, Hh', Es, Er.
Qed.

(** [h] is the hash of a new node. *)
Record newborn (k : keys) (h : hnode) : Prop := {
  nb_phase : h_phase h = PhaseBlocked;
  nb_status : h_status h = StatusNew;
  nb_deps : h_deps h = mkDeps 0 0 0 0;
  nb_epoch : h_epoch h = floor k;
  nb_ord : h_ord h = Z.succ (k_nextord k);
  nb_fifo : h_fifo h = 0%Z
}.

(** [k'] is [k] with the node [id] added. *)
Record born (id : string) (h : hnode) (k k' : keys) : Prop := {
  bn_new : newborn k h;
  bn_node : k_node k' = <[id := h]> (k_node k);
  bn_blob : exists b, k_blob k' = <[id := b]> (k_blob k);
  bn_idx : k_idx k' = {[id]} ∪ k_idx k;
  bn_ord : k_nextord k' = Z.succ (k_nextord k);
  bn_stat : forall f, stat (k_stats k') f = (stat (k_stats k) f + if bool_decide (f = "EpochFloor"%string) then 0 else counted f id h)%Z;
  bn_rest : k' = k <| k_node := k_node k' |> <| k_blob := k_blob k' |> <| k_idx := k_idx k' |> <| k_nextord := k_nextord k' |>
                   <| k_stats := k_stats k' |>
}.

Section Born.
Context {d : option string} {Y : string -> Prop} {k k' : keys} {id : string} {h : hnode}.
Context (Hi : kinv None d Y k) (Hb : born id h k k') (Hid : k_node k !! id = None).

Lemma born_no_edge a b : edge k a b -> a <> id /\ b <> id.
Proof.
  intros (sat & He). destruct (gi_edge k (ki_graph Hi) a b sat He) as (x & y & ? & ? & _). split; congruence.
Qed.

Lemma born_lookup i : k_node k' !! i = if decide (i = id) then Some h else k_node k !! i.
Proof. rewrite (bn_node _ _ _ _ Hb). case_decide as E; [subst; by rewrite lookup_insert_eq|by rewrite lookup_insert_ne]. Qed.

Lemma born_floor : floor k' = floor k.
Proof. unfold floor. rewrite (bn_stat _ _ _ _ Hb), bool_decide_eq_true_2 by done. lia. Qed.

Lemma born_old i x : k_node k' !! i = Some x -> (i = id /\ x = h) \/ (i <> id /\ k_node k !! i = Some x).
Proof. rewrite born_lookup. case_decide; intros; simplify_eq; auto. Qed.

Lemma born_graph : ginv k'.
Proof.
  pose proof (ki_graph Hi) as Hg. pose proof (bn_new _ _ _ _ Hb) as Hn.
  assert (Hp : k_pred k' = k_pred k) by (by rewrite (bn_rest _ _ _ _ Hb)).
  assert (Hs : k_succ k' = k_succ k) by (by rewrite (bn_rest _ _ _ _ Hb)).
  assert (Hcount : forall b c, edge_count k' b c = edge_count k b c).
  { intros b c. apply edge_count_same; try done. intros a x He Hx. exists x. split; [|done].
    rewrite born_lookup, decide_False by (by apply (born_no_edge a b)). done. }
  split.
  - intros i. destruct (bn_blob _ _ _ _ Hb) as [b ->]. rewrite born_lookup. case_decide as E.
    + subst. rewrite lookup_insert_eq. split; by eexists.
    + rewrite lookup_insert_ne by done. apply Hg.
  - intros i. rewrite (bn_idx _ _ _ _ Hb), born_lookup, elem_of_union, elem_of_singleton, (gi_idx k Hg). case_decide as E.
    + split; [by eexists|by left].
    + split; [by intros [?|?]|by right].
  - intros a b sat. rewrite Hp. intros He. destruct (gi_edge k Hg a b sat He) as (x & y & Hx & Hy & ?). exists x, y.
    destruct (born_no_edge a b) as [? ?]; [by exists sat|]. by rewrite !born_lookup, !decide_False.
  - by rewrite Hp, Hs; apply Hg.
  - intros b x c [[-> ->]|[Hne Hx]]%born_old; rewrite Hcount; [|by apply (gi_deps k Hg)].
    rewrite (nb_deps _ _ Hn). assert (edge_count k id c = 0%Z) as ->; [|by destruct c].
    unfold edge_count. apply msum_zero. intros [y z] sat He.
    unfold into. cbn [fst]. rewrite bool_decide_eq_false_2; [done|]. by apply (born_no_edge z y); exists sat.
  - intros i x [[-> ->]|[_ Hx]]%born_old; [|by apply (gi_coh k Hg i)]. unfold coherent. by rewrite (nb_phase _ _ Hn), (nb_status _ _ Hn).
  - rewrite (bn_ord _ _ _ _ Hb). intros i x [[-> ->]|[_ Hx]]%born_old; [rewrite (nb_ord _ _ Hn); lia|].
    pose proof (gi_rank k Hg i x Hx). lia.
  - intros i j x y [[-> ->]|[_ Hx]]%born_old [[-> ->]|[_ Hy]]%born_old E; [done| | |by apply (gi_rank_inj k Hg i j x y)].
    + pose proof (gi_rank k Hg j y Hy). rewrite (nb_ord _ _ Hn) in E. lia.
    + pose proof (gi_rank k Hg i x Hx). rewrite (nb_ord _ _ Hn) in E. lia.
  - intros i x [[-> ->]|[_ Hx]]%born_old; [rewrite (nb_epoch _ _ Hn); apply Hg|by apply (gi_epoch k Hg i)].
  - rewrite born_floor. apply Hg.
Qed.

Lemma born_kinv (Y' : string -> Prop) : (forall i, i <> id -> Y i -> Y' i) -> Y' id -> kinv None d Y' k'.
Proof.
  intros HY HYid. pose proof (bn_new _ _ _ _ Hb) as Hn. split.
  - apply born_graph.
  - assert (Hp : k_pred k' = k_pred k) by (by rewrite (bn_rest _ _ _ _ Hb)). intros a b x. rewrite Hp. intros He [[-> ->]|[_ Hx]]%born_old Hd.
    + by destruct (born_no_edge id b) as [[] _]; [exists false|].
    + by apply (ki_live Hi a b x).
  - pose proof (ki_z Hi) as [R S L K F N]. split; try (rewrite (bn_rest _ _ _ _ Hb); simpl; done).
    + intros kind i. rewrite born_lookup. assert (k_ready k' = k_ready k) as -> by (by rewrite (bn_rest _ _ _ _ Hb)). rewrite R. case_decide; [|done].
      subst. rewrite Hid. simpl. unfold zready. rewrite decide_False; [done|]. rewrite (nb_phase _ _ Hn). by intros [? _].
    + intros i. rewrite born_lookup. assert (k_sched k' = k_sched k) as -> by (by rewrite (bn_rest _ _ _ _ Hb)). destruct (S i) as [->|[? E]]; [|by right].
      left. case_decide; [|done]. subst. rewrite Hid. simpl. unfold zsched. rewrite decide_False; [done|]. by rewrite (nb_phase _ _ Hn).
    + intros i. rewrite born_lookup. assert (k_leases k' = k_leases k) as -> by (by rewrite (bn_rest _ _ _ _ Hb)). destruct (L i) as [->|[? E]]; [|by right].
      left. case_decide; [|done]. subst. rewrite Hid. simpl. unfold zlease. rewrite decide_False; [done|]. by rewrite (nb_phase _ _ Hn).
    + assert (k_nextfifo k' = k_nextfifo k) as -> by (by rewrite (bn_rest _ _ _ _ Hb)).
      intros i x [[-> ->]|[_ Hx]]%born_old; [rewrite (nb_fifo _ _ Hn); lia|by apply (F i)].
  - intros f Hf. rewrite (bn_stat _ _ _ _ Hb), (bn_node _ _ _ _ Hb), msum_insert by done. rewrite (ki_stat Hi f Hf), bool_decide_eq_false_2 by done.
    lia.
  - intros i x [[-> ->]|[Hne Hx]]%born_old; [by left|]. destruct (ki_settled Hi i x Hx); auto.
  - rewrite (bn_rest _ _ _ _ Hb). apply (ki_log Hi).
Qed.

Lemma born_adv : adv k k'.
Proof.
  split; [by rewrite born_floor|]. intros i. unfold epoch_of. rewrite born_lookup, born_floor. case_decide; [|done].
  subst. rewrite Hid, (nb_epoch _ _ (bn_new _ _ _ _ Hb)). done.
Qed.

End Born.

(** [k'] is [k] without the node [id], which no edge touched. *)
Record dropped (id : string) (h : hnode) (k k' : keys) : Prop := {
  dr_at : k_node k !! id = Some h;
  dr_node : k_node k' = delete id (k_node k);
  dr_blob : k_blob k' = delete id (k_blob k);
  dr_idx : k_idx k' = k_idx k ∖ {[id]};
  dr_ready : forall kind i, k_ready k' !! (kind, i) = if decide (i = id) then None else k_ready k !! (kind, i);
  dr_sched : k_sched k' = delete id (k_sched k);
  dr_leases : k_leases k' = delete id (k_leases k);
  dr_stat : forall f, f <> "EpochFloor"%string -> stat (k_stats k') f = (stat (k_stats k) f - counted f id h)%Z;
  dr_floor : floor k' = Z.max (floor k) (h_epoch h);
  dr_rest : k' = k <| k_node := k_node k' |> <| k_blob := k_blob k' |> <| k_idx := k_idx k' |> <| k_ready := k_ready k' |>
                   <| k_sched := k_sched k' |> <| k_leases := k_leases k' |> <| k_stats := k_stats k' |>
}.

Section Dropped.
Context {d : option string} {Y : string -> Prop} {k k' : keys} {id : string} {h : hnode}.
Context (Hi : kinv None d Y k) (Hdr : dropped id h k k').
Context (Hfree : forall a b, edge k a b -> a <> id /\ b <> id).

Lemma dropped_old i x : k_node k' !! i = Some x -> i <> id /\ k_node k !! i = Some x.
Proof. rewrite (dr_node _ _ _ _ Hdr). intros [? ?]%lookup_delete_Some. auto. Qed.

Lemma dropped_lookup i : i <> id -> k_node k' !! i = k_node k !! i.
Proof. intros Hne. rewrite (dr_node _ _ _ _ Hdr). by apply lookup_delete_ne. Qed.

Lemma dropped_kinv (Y' : string -> Prop) : (forall i, i <> id -> Y i -> Y' i) -> kinv None d Y' k'.
Proof.
  intros HY. pose proof (ki_graph Hi) as Hg. pose proof (dr_at _ _ _ _ Hdr) as Hat.
  assert (Hp : k_pred k' = k_pred k) by (by rewrite (dr_rest _ _ _ _ Hdr)).
  assert (Hs : k_succ k' = k_succ k) by (by rewrite (dr_rest _ _ _ _ Hdr)).
  assert (Hnone : k_node k' !! id = None) by (rewrite (dr_node _ _ _ _ Hdr); apply lookup_delete_eq).
  split.
  - split.
    + intros i. rewrite (dr_blob _ _ _ _ Hdr), (dr_node _ _ _ _ Hdr). destruct (decide (i = id)) as [->|Hne].
      * rewrite !lookup_delete_eq. split; by intros [? ?].
      * rewrite !lookup_delete_ne by done. apply Hg.
    + intros i. rewrite (dr_idx _ _ _ _ Hdr), elem_of_difference, elem_of_singleton, (gi_idx k Hg). destruct (decide (i = id)) as [->|Hne].
      * rewrite Hnone. split; [by intros [_ []]|by intros [? ?]].
      * rewrite dropped_lookup by done. tauto.
    + intros a b sat. rewrite Hp. intros He. destruct (gi_edge k Hg a b sat He) as (x & y & Hx & Hy & ?). exists x, y.
      destruct (Hfree a b) as [? ?]; [by exists sat|]. by rewrite !dropped_lookup.
    + by rewrite Hp, Hs; apply Hg.
    + intros b x c [Hne Hx]%dropped_old. rewrite (edge_count_same k k'); [by apply (gi_deps k Hg)|done|done|].
      intros a y He Hy. exists y. split; [|done]. rewrite dropped_lookup; [done|]. by apply (Hfree a b).
    + intros i x [_ Hx]%dropped_old. by apply (gi_coh k Hg i).
    + assert (k_nextord k' = k_nextord k) as -> by (by rewrite (dr_rest _ _ _ _ Hdr)). intros i x [_ Hx]%dropped_old. by apply (gi_rank k Hg i).
    + intros i j x y [_ Hx]%dropped_old [_ Hy]%dropped_old. by apply (gi_rank_inj k Hg i j x y).
    + intros i x [_ Hx]%dropped_old. by apply (gi_epoch k Hg i).
    + rewrite (dr_floor _ _ _ _ Hdr). pose proof (gi_floor k Hg). lia.
  - intros a b x. rewrite Hp. intros He [_ Hx]%dropped_old. by apply (ki_live Hi a b x).
  - pose proof (ki_z Hi) as [R S L K F N]. split; try (rewrite (dr_rest _ _ _ _ Hdr); simpl; done).
    + intros kind i. rewrite (dr_ready _ _ _ _ Hdr). case_decide; [subst; by rewrite Hnone|]. by rewrite dropped_lookup.
    + intros i. rewrite (dr_sched _ _ _ _ Hdr). destruct (decide (i = id)) as [->|Hne]; [left; by rewrite lookup_delete_eq, Hnone|].
      rewrite lookup_delete_ne, dropped_lookup by done. apply S.
    + intros i. rewrite (dr_leases _ _ _ _ Hdr). destruct (decide (i = id)) as [->|Hne]; [left; by rewrite lookup_delete_eq, Hnone|].
      rewrite lookup_delete_ne, dropped_lookup by done. apply L.
    + intros kind i. rewrite (dr_ready _ _ _ _ Hdr). case_decide; [by intros [? ?]|].
      assert (k_kinds k' = k_kinds k) as -> by (by rewrite (dr_rest _ _ _ _ Hdr)). apply K.
    + assert (k_nextfifo k' = k_nextfifo k) as -> by (by rewrite (dr_rest _ _ _ _ Hdr)). intros i x [_ Hx]%dropped_old. by apply (F i).
  - intros f Hf. rewrite (dr_stat _ _ _ _ Hdr f Hf), (dr_node _ _ _ _ Hdr), (ki_stat Hi f Hf).
    rewrite (msum_delete _ (k_node k) id h) by done. lia.
  - intros i x [Hne Hx]%dropped_old. destruct (ki_settled Hi i x Hx); auto.
  - rewrite (dr_rest _ _ _ _ Hdr). apply (ki_log Hi).
Qed.

Lemma dropped_adv : adv k k'.
Proof.
  pose proof (dr_at _ _ _ _ Hdr) as Hat. split; [rewrite (dr_floor _ _ _ _ Hdr); lia|]. intros i. unfold epoch_of.
  destruct (decide (i = id)) as [->|Hne].
  - rewrite Hat, (dr_node _ _ _ _ Hdr), lookup_delete_eq, (dr_floor _ _ _ _ Hdr). lia.
  - rewrite dropped_lookup by done. destruct (k_node k !! i); [done|]. rewrite (dr_floor _ _ _ _ Hdr). lia.
Qed.

End Dropped.
