(* ===== verification/RedisGraphOps.v ===== *)
(** * What a batch leaves: the journal of [scriptAddNodes] and [scriptAddEdges] *)
From S2P Require Import Prelude Types GoText Config Scope MapSum RedisData RedisScripts RedisInv RedisLease RedisGraph.

Definition anyid : string -> Prop := fun _ => True.

Lemma kinv_any {skip d Y} k : kinv skip d Y k -> kinv skip d anyid k.
Proof. intros Hi. eapply kinv_weaken; [exact Hi|]. by left. Qed.

(** A hash but for its rank and its tally. *)
Definition bare (h : hnode) : hnode := h <| h_ord := 0%Z |> <| h_deps := mkDeps 0 0 0 0 |>.

Lemma bare_phase h h' : bare h = bare h' -> h_phase h = h_phase h'.
Proof. intros E. by assert (h_phase (bare h) = h_phase (bare h')) as E' by (by rewrite E). Qed.

Lemma bare_status h h' : bare h = bare h' -> h_status h = h_status h'.
Proof. intros E. by assert (h_status (bare h) = h_status (bare h')) as E' by (by rewrite E). Qed.

Lemma bare_reason h h' : bare h = bare h' -> h_reason h = h_reason h'.
Proof. intros E. by assert (h_reason (bare h) = h_reason (bare h')) as E' by (by rewrite E). Qed.

Lemma bare_trigger h h' : bare h = bare h' -> h_trigger h = h_trigger h'.
Proof. intros E. by assert (h_trigger (bare h) = h_trigger (bare h')) as E' by (by rewrite E). Qed.

Lemma bare_eq h h' : bare h = bare h' -> h_deps h = h_deps h' -> h' = h <| h_ord := h_ord h' |>.
Proof. destruct h, h'. unfold bare. simpl. intros E ?. injection E as -> -> -> -> -> -> -> -> -> -> -> -> -> -> -> -> -> -> ->. by subst. Qed.

Lemma bare_phase_eq i k k' : bare <$> k_node k !! i = bare <$> k_node k' !! i ->
  h_phase <$> k_node k !! i = h_phase <$> k_node k' !! i.
Proof.
  destruct (k_node k !! i) as [h|], (k_node k' !! i) as [h'|]; try done. intros E. simpl. f_equal. by apply bare_phase, (inj Some).
Qed.

(** The keys [k] but for the ranks, and for counters that are used up. *)
Record restored (k k' : keys) : Prop := {
  re_node : exists o, forall i, k_node k' !! i = (fun h => h <| h_ord := o i |>) <$> k_node k !! i;
  re_stat : forall f, stat (k_stats k') f = stat (k_stats k) f;
  re_ord : (k_nextord k <= k_nextord k')%Z;
  re_rest : k' = k <| k_node := k_node k' |> <| k_stats := k_stats k' |> <| k_nextord := k_nextord k' |>
}.

(** What a new node adds to a field of [stats]. *)
Definition fresh (f : string) : Z := Z.b2z (bool_decide (f = "Total"%string) || bool_decide (bucketField PhaseBlocked StatusNew = f)).

(** Since [k0] the nodes [cr] were created, then the edges [li] linked. *)
Record journal (k0 : keys) (cr : list string) (li : list (string * string)) (k : keys) : Prop := {
  jn_inv : kinv None None anyid k;
  jn_nodup : NoDup cr;
  jn_created : forall i, i ∈ cr -> k_node k0 !! i = None /\
    exists h, k_node k !! i = Some h /\ h_phase h = PhaseBlocked /\ h_status h = StatusNew /\ h_epoch h = floor k0;
  jn_node : forall i, i ∉ cr -> bare <$> k_node k !! i = bare <$> k_node k0 !! i;
  jn_blob : forall i, i ∉ cr -> k_blob k !! i = k_blob k0 !! i;
  jn_linked : NoDup li;
  jn_edge : forall a b, (a, b) ∈ li -> k_pred k0 !! (b, a) = None /\ is_Some (k_pred k !! (b, a));
  jn_pred : forall a b, (a, b) ∉ li -> k_pred k !! (b, a) = k_pred k0 !! (b, a);
  jn_stat : forall f, stat (k_stats k) f = (stat (k_stats k0) f + Z.of_nat (length cr) * fresh f)%Z;
  jn_ord : (k_nextord k0 <= k_nextord k)%Z;
  jn_rest : k = k0 <| k_node := k_node k |> <| k_blob := k_blob k |> <| k_pred := k_pred k |> <| k_succ := k_succ k |>
                   <| k_stats := k_stats k |> <| k_idx := k_idx k |> <| k_nextord := k_nextord k |>
}.

Lemma fresh_floor : fresh "EpochFloor" = 0%Z.
Proof. done. Qed.

Lemma fresh_counted f i h : h_phase h = PhaseBlocked -> h_status h = StatusNew -> counted f i h = fresh f.
Proof. intros Hp Hs. unfold counted, fresh. by rewrite Hp, Hs. Qed.

Section Journal.
Context {k0 : keys}.

Lemma journal_start Y : kinv None None Y k0 -> journal k0 [] [] k0.
Proof.
  intros Hi. split; try done; [by eapply kinv_any|apply NoDup_nil_2|by intros i ?%not_elem_of_nil|apply NoDup_nil_2|by intros a b ?%not_elem_of_nil| |by destruct k0].
  intros f. simpl. lia.
Qed.

Lemma journal_floor cr li k : journal k0 cr li k -> floor k = floor k0.
Proof. intros Hj. unfold floor. rewrite (jn_stat _ _ _ _ Hj), fresh_floor. lia. Qed.

Lemma journal_phase cr li k i : journal k0 cr li k -> i ∉ cr -> h_phase <$> k_node k !! i = h_phase <$> k_node k0 !! i.
Proof. intros Hj Hi. by apply bare_phase_eq, (jn_node _ _ _ _ Hj). Qed.

Lemma journal_exists cr li k i : journal k0 cr li k -> i ∉ cr -> is_Some (k_node k !! i) <-> is_Some (k_node k0 !! i).
Proof. intros Hj Hi. pose proof (jn_node _ _ _ _ Hj i Hi) as E. destruct (k_node k !! i), (k_node k0 !! i); try done; split; by eexists. Qed.

Lemma journal_create cr k k' id h :
  journal k0 cr [] k -> k_node k !! id = None -> born id h k k' -> journal k0 (cr ++ [id]) [] k'.
Proof.
  intros Hj Hid Hb. pose proof (bn_new _ _ _ _ Hb) as Hn.
  assert (Hnew : id ∉ cr).
  { intros Hin. destruct (jn_created _ _ _ _ Hj id Hin) as (_ & x & Hx & _). congruence. }
  assert (Hid0 : k_node k0 !! id = None).
  { apply eq_None_not_Some. rewrite <- (journal_exists cr [] k id Hj Hnew). rewrite Hid. by intros [? ?]. }
  split.
  - apply (born_kinv (jn_inv _ _ _ _ Hj) Hb Hid); done.
  - apply NoDup_app. split_and!; [apply Hj| |apply NoDup_singleton]. intros i Hi ->%list_elem_of_singleton. done.
  - intros i [Hi| ->%list_elem_of_singleton]%elem_of_app.
    + destruct (jn_created _ _ _ _ Hj i Hi) as (? & x & Hx & ?). split; [done|]. exists x. split; [|done].
      rewrite (born_lookup Hb). by rewrite decide_False by (by intros ->).
    + split; [done|]. exists h. rewrite (born_lookup Hb), decide_True by done. split_and!; [done|apply Hn..|].
      rewrite (nb_epoch _ _ Hn). by eapply journal_floor.
  - intros i [Hi Hne%not_elem_of_cons]%not_elem_of_app. rewrite (born_lookup Hb), decide_False by (by destruct Hne).
    by apply (jn_node _ _ _ _ Hj).
  - intros i [Hi Hne%not_elem_of_cons]%not_elem_of_app. destruct (bn_blob _ _ _ _ Hb) as [b ->].
    rewrite lookup_insert_ne by (by destruct Hne). by apply (jn_blob _ _ _ _ Hj).
  - apply NoDup_nil_2.
  - by intros a b ?%not_elem_of_nil.
  - intros a b ?. assert (k_pred k' = k_pred k) as -> by (by rewrite (bn_rest _ _ _ _ Hb)). by apply (jn_pred _ _ _ _ Hj).
  - intros f. rewrite (bn_stat _ _ _ _ Hb), (jn_stat _ _ _ _ Hj), length_app, (fresh_counted f id h) by apply Hn. simpl.
    case_bool_decide as E; [subst; rewrite fresh_floor|]; lia.
  - rewrite (bn_ord _ _ _ _ Hb). pose proof (jn_ord _ _ _ _ Hj). lia.
  - rewrite (bn_rest _ _ _ _ Hb), (jn_rest _ _ _ _ Hj). done.
Qed.

Lemma bare_deps h t : bare (h <| h_deps := t |>) = bare h.
Proof. done. Qed.

(** An edge changed and nothing else but a tally: what the journal says of the nodes stays. *)
Lemma edged_node a b o k k' i : edged a b o k k' -> bare <$> k_node k' !! i = bare <$> k_node k !! i.
Proof.
  intros He. destruct (decide (i = b)) as [->|Hne]; [|by rewrite (eg_other _ _ _ _ _ He)].
  destruct (eg_at _ _ _ _ _ He) as (h & t & -> & ->). done.
Qed.

Lemma edged_created a b o k k' i (P : Phase -> Status -> Z -> Prop) : edged a b o k k' ->
  (exists h, k_node k !! i = Some h /\ P (h_phase h) (h_status h) (h_epoch h)) ->
  exists h, k_node k' !! i = Some h /\ P (h_phase h) (h_status h) (h_epoch h).
Proof.
  intros He (h & Hh & HP). destruct (decide (i = b)) as [->|Hne]; [|exists h; by rewrite (eg_other _ _ _ _ _ He)].
  destruct (eg_at _ _ _ _ _ He) as (x & t & Hx & ->). exists (x <| h_deps := t |>). split; [done|]. by simplify_eq.
Qed.

Lemma journal_edged cr li li' k k' a b o :
  journal k0 cr li k -> edged a b o k k' -> kinv None None anyid k' -> NoDup li' ->
  (forall x y, (x, y) ∈ li' -> k_pred k0 !! (y, x) = None /\ is_Some (k_pred k' !! (y, x))) ->
  (forall x y, (x, y) ∉ li' -> k_pred k' !! (y, x) = k_pred k0 !! (y, x)) ->
  journal k0 cr li' k'.
Proof.
  intros Hj He Hi Hnd H1 H2. split; try done.
  - apply Hj.
  - intros i Hin. destruct (jn_created _ _ _ _ Hj i Hin) as (? & Hx). split; [done|].
    by apply (edged_created a b o k k' i (fun p s e => p = PhaseBlocked /\ s = StatusNew /\ e = floor k0)).
  - intros i Hin. rewrite (edged_node a b o k k' i He). by apply (jn_node _ _ _ _ Hj).
  - intros i Hin. assert (k_blob k' = k_blob k) as -> by (by rewrite (eg_rest _ _ _ _ _ He)). by apply (jn_blob _ _ _ _ Hj).
  - intros f. assert (k_stats k' = k_stats k) as -> by (by rewrite (eg_rest _ _ _ _ _ He)). apply (jn_stat _ _ _ _ Hj).
  - assert (k_nextord k' = k_nextord k) as -> by (by rewrite (eg_rest _ _ _ _ _ He)). apply (jn_ord _ _ _ _ Hj).
  - rewrite (eg_rest _ _ _ _ _ He), (jn_rest _ _ _ _ Hj). done.
Qed.

Lemma journal_link cr li k k' a b sat :
  journal k0 cr li k -> k_pred k !! (b, a) = None -> edged a b (Some sat) k k' -> kinv None None anyid k' ->
  journal k0 cr (li ++ [(a, b)]) k'.
Proof.
  intros Hj Hp He Hi.
  assert (Hnew : (a, b) ∉ li).
  { intros Hin. destruct (jn_edge _ _ _ _ Hj a b Hin) as [_ [? ?]]. congruence. }
  apply (journal_edged cr li _ k k' a b (Some sat) Hj He Hi).
  - apply NoDup_app. split_and!; [apply Hj| |apply NoDup_singleton]. intros e Hin ->%list_elem_of_singleton. done.
  - intros x y [Hin|[= -> ->]%list_elem_of_singleton]%elem_of_app.
    + destruct (jn_edge _ _ _ _ Hj x y Hin) as [? Hs]. split; [done|]. rewrite (eg_pred _ _ _ _ _ He). case_decide; [by eexists|done].
    + split; [|rewrite (eg_pred _ _ _ _ _ He), decide_True by done; by eexists]. by rewrite <- (jn_pred _ _ _ _ Hj).
  - intros x y [Hin Hne]%not_elem_of_app. rewrite (eg_pred _ _ _ _ _ He), decide_False.
    + by apply (jn_pred _ _ _ _ Hj).
    + intros [= -> ->]. apply Hne, list_elem_of_singleton. done.
Qed.

Lemma journal_unlink cr li k k' a b :
  journal k0 cr (li ++ [(a, b)]) k -> edged a b None k k' -> kinv None None anyid k' -> journal k0 cr li k'.
Proof.
  intros Hj He Hi. pose proof (jn_linked _ _ _ _ Hj) as (Hnd & Hdis & _)%NoDup_app.
  assert (Hnot : (a, b) ∉ li) by (intros Hin; by apply (Hdis (a, b)); [|apply list_elem_of_singleton]).
  apply (journal_edged cr _ li k k' a b None Hj He Hi); [done|..].
  - intros x y Hin. destruct (jn_edge _ _ _ _ Hj x y) as [? ?]; [apply elem_of_app; by left|]. split; [done|].
    rewrite (eg_pred _ _ _ _ _ He), decide_False; [done|]. by intros [= -> ->].
  - intros x y Hin. rewrite (eg_pred _ _ _ _ _ He). case_decide as E.
    + injection E as -> ->. symmetry. apply (jn_edge _ _ _ _ Hj). apply elem_of_app. right. by apply list_elem_of_singleton.
    + apply (jn_pred _ _ _ _ Hj). intros [?|[= -> ->]%list_elem_of_singleton]%elem_of_app; done.
Qed.

Lemma journal_reorder cr li k k' : journal k0 cr li k -> reordered k k' -> journal k0 cr li k'.
Proof.
  intros Hj Hr. pose proof (kinv_reordered k k' (jn_inv _ _ _ _ Hj) Hr) as Hi. destruct Hr as [[o Ho] _ _ _].
  assert (Hp : k_pred k' = k_pred k) by (by rewrite (rr_rest _ _ _ Ho)).
  split; try apply Hj; [done|..].
  - intros i Hin. destruct (jn_created _ _ _ _ Hj i Hin) as (? & h & Hh & ?). split; [done|]. exists (h <| h_ord := o i |>).
    rewrite (rr_node _ _ _ Ho), Hh. done.
  - intros i Hin. rewrite (rr_node _ _ _ Ho), <- (jn_node _ _ _ _ Hj i Hin). by destruct (k_node k !! i).
  - intros i Hin. assert (k_blob k' = k_blob k) as -> by (by rewrite (rr_rest _ _ _ Ho)). by apply (jn_blob _ _ _ _ Hj).
  - intros a b Hin. rewrite Hp. by apply (jn_edge _ _ _ _ Hj).
  - intros a b Hin. rewrite Hp. by apply (jn_pred _ _ _ _ Hj).
  - intros f. assert (k_stats k' = k_stats k) as -> by (by rewrite (rr_rest _ _ _ Ho)). apply (jn_stat _ _ _ _ Hj).
  - assert (k_nextord k' = k_nextord k) as -> by (by rewrite (rr_rest _ _ _ Ho)). apply (jn_ord _ _ _ _ Hj).
  - rewrite (rr_rest _ _ _ Ho), (jn_rest _ _ _ _ Hj). done.
Qed.

(** An edge that was there already joins nodes that were. *)
Lemma journal_old_edge cr li k a b : ginv k0 -> journal k0 cr li k -> edge k0 a b -> a ∉ cr /\ b ∉ cr.
Proof.
  intros Hg Hj (sat & He). destruct (gi_edge k0 Hg a b sat He) as (x & y & Hx & Hy & _).
  split; intros Hin; destruct (jn_created _ _ _ _ Hj _ Hin) as [? _]; congruence.
Qed.

Lemma journal_drop cr k k' id h :
  ginv k0 -> journal k0 (cr ++ [id]) [] k -> dropped id h k k' -> journal k0 cr [] k'.
Proof.
  intros Hg Hj Hd. pose proof (jn_nodup _ _ _ _ Hj) as (Hnd & Hdis & _)%NoDup_app.
  assert (Hnot : id ∉ cr) by (intros Hin; by apply (Hdis id); [|apply list_elem_of_singleton]).
  assert (Hin : id ∈ cr ++ [id]) by (apply elem_of_app; right; by apply list_elem_of_singleton).
  destruct (jn_created _ _ _ _ Hj id Hin) as (Hid0 & x & Hx & Hp & Hs & He). pose proof (dr_at _ _ _ _ Hd) as Hat. simplify_eq.
  assert (Hfree : forall a b, edge k a b -> a <> id /\ b <> id).
  { intros a b Hab. assert (edge k0 a b) as H0 by (unfold edge in *; by rewrite <- (jn_pred _ _ _ _ Hj) by apply not_elem_of_nil).
    destruct (journal_old_edge _ _ _ _ _ Hg Hj H0). split; by intros ->. }
  assert (Hz := ki_z (jn_inv _ _ _ _ Hj)).
  assert (Hpr : k_pred k' = k_pred k) by (by rewrite (dr_rest _ _ _ _ Hd)).
  split; try done.
  - by apply (dropped_kinv (jn_inv _ _ _ _ Hj) Hd).
  - intros i Hi. destruct (jn_created _ _ _ _ Hj i) as (? & y & Hy & ?); [apply elem_of_app; by left|]. split; [done|]. exists y.
    rewrite (dropped_lookup Hd); [done|]. by intros ->.
  - intros i Hi. destruct (decide (i = id)) as [->|Hne].
    + by rewrite (dr_node _ _ _ _ Hd), lookup_delete_eq, Hid0.
    + rewrite (dropped_lookup Hd) by done. apply (jn_node _ _ _ _ Hj). intros [?|?%list_elem_of_singleton]%elem_of_app; done.
  - intros i Hi. rewrite (dr_blob _ _ _ _ Hd). destruct (decide (i = id)) as [->|Hne].
    + rewrite lookup_delete_eq. symmetry. apply eq_None_not_Some. rewrite (gi_blob k0 Hg). by rewrite Hid0; intros [? ?].
    + rewrite lookup_delete_ne by done. apply (jn_blob _ _ _ _ Hj). intros [?|?%list_elem_of_singleton]%elem_of_app; done.
  - apply NoDup_nil_2.
  - intros a b Hi. rewrite Hpr. by apply (jn_edge _ _ _ _ Hj).
  - intros a b Hi. rewrite Hpr. by apply (jn_pred _ _ _ _ Hj).
  - intros f. destruct (decide (f = "EpochFloor"%string)) as [->|Hf].
    + rewrite fresh_floor. change (floor k' = (floor k0 + Z.of_nat (length cr) * 0)%Z).
      rewrite (dr_floor _ _ _ _ Hd), (journal_floor _ _ _ Hj), He. lia.
    + rewrite (dr_stat _ _ _ _ Hd), (jn_stat _ _ _ _ Hj), (fresh_counted f id x), length_app by done. simpl. lia.
  - assert (k_nextord k' = k_nextord k) as -> by (by rewrite (dr_rest _ _ _ _ Hd)). apply (jn_ord _ _ _ _ Hj).
  - assert (Er : k_ready k' = k_ready k).
    { apply map_eq. intros [kind i]. rewrite (dr_ready _ _ _ _ Hd). case_decide as E; [|done]. subst. rewrite (zi_ready _ _ Hz), Hx.
      simpl. unfold zready. rewrite decide_False; [done|]. rewrite Hp. by intros [? _]. }
    assert (Es : k_sched k' = k_sched k).
    { rewrite (dr_sched _ _ _ _ Hd). apply delete_id, (sched_none id x Hz Hx). by rewrite Hp. }
    assert (El : k_leases k' = k_leases k).
    { rewrite (dr_leases _ _ _ _ Hd). apply delete_id, (lease_none id x Hz Hx). by rewrite Hp. }
    pose proof (dr_rest _ _ _ _ Hd) as A. pose proof (jn_rest _ _ _ _ Hj) as B. rewrite Er, Es, El in A. clear -A B.
    destruct k0, k, k'. cbn in A, B |- *. injection A. injection B. intros. subst. reflexivity.
Qed.

(** ** What became of the tallies *)

Lemma journal_deps cr li k i h h0 :
  ginv k0 -> journal k0 cr li k -> i ∉ cr -> i ∉ li.*2 -> k_node k !! i = Some h -> k_node k0 !! i = Some h0 -> h_deps h = h_deps h0.
Proof.
  intros Hg Hj Hcr Hli Hh Hh0. pose proof (ki_graph (jn_inv _ _ _ _ Hj)) as Hg'. apply deps_ext. intros c.
  rewrite (gi_deps k Hg' i h c Hh), (gi_deps k0 Hg i h0 c Hh0).
  assert (Hfil : forall kk, edge_count kk i c = msum (into (k_node kk) i c) (filter (fun e => e.1.1 = i) (k_pred kk))).
  { intros kk. rewrite msum_filter. apply msum_ext. intros e sat _. case_decide as E; [done|]. unfold into.
    simpl in E. by rewrite bool_decide_eq_false_2. }
  rewrite !Hfil.
  assert (filter (fun e : string * string * bool => e.1.1 = i) (k_pred k) = filter (fun e => e.1.1 = i) (k_pred k0)) as ->.
  { apply map_eq. intros [y x]. assert (Hsame : y = i -> k_pred k !! (y, x) = k_pred k0 !! (y, x)).
    { intros ->. apply (jn_pred _ _ _ _ Hj). intros Hin. apply Hli, list_elem_of_fmap. by exists (x, i). }
    apply option_eq. intros sat. rewrite !map_lookup_filter_Some. simpl. split; intros [Hp ->]; by rewrite Hsame in *. }
  apply msum_ext. intros [y x] sat [Hp Hy]%map_lookup_filter_Some. simpl in Hy. subst y. unfold into. cbn [fst snd].
  f_equal. f_equal. destruct (gi_edge k0 Hg x i sat Hp) as (hx & _ & Hx & _).
  assert (x ∉ cr) as Hxc by (intros Hin; destruct (jn_created _ _ _ _ Hj x Hin) as [? _]; congruence).
  pose proof (jn_node _ _ _ _ Hj x Hxc) as E. unfold edge_class. rewrite Hx in *. destruct (k_node k !! x) as [hx'|]; [|done].
  simpl in E. pose proof (inj Some _ _ E : bare hx' = bare hx) as E'. by rewrite (bare_status _ _ E'), (bare_reason _ _ E').
Qed.

Lemma journal_settled Y cr li k :
  kinv None None Y k0 -> journal k0 cr li k -> kinv None None (fun i => Y i \/ i ∈ cr \/ i ∈ li.*2) k.
Proof.
  intros Hi0 Hj. pose proof Hj as [Hi _ _ _ _ _ _ _ _ _ _]. destruct Hi as [Hg Hl Hz Hs _ He]. split; try done.
  intros i h Hh. destruct (decide (i ∈ cr)) as [?|Hcr]; [by left; right; left|].
  destruct (decide (i ∈ li.*2)) as [?|Hli]; [by left; right; right|].
  pose proof (jn_node _ _ _ _ Hj i Hcr) as E. rewrite Hh in E. destruct (k_node k0 !! i) as [h0|] eqn:Hh0; [|done].
  pose proof (inj Some _ _ E : bare h = bare h0) as E'. clear E.
  assert (Ed := journal_deps cr li k i h h0 (ki_graph Hi0) Hj Hcr Hli Hh Hh0).
  destruct (ki_settled Hi0 i h0 Hh0) as [?|Hr]; [by left; left|right].
  unfold rule_ok, rule_lost, rule_met in *. by rewrite (bare_phase _ _ E'), (bare_trigger _ _ E'), Ed.
Qed.

Lemma journal_undone k : ginv k0 -> journal k0 [] [] k -> restored k0 k.
Proof.
  intros Hg Hj. pose proof (ki_graph (jn_inv _ _ _ _ Hj)) as Hg'.
  assert (Hp : k_pred k = k_pred k0).
  { apply map_eq. intros [y x]. apply (jn_pred _ _ _ _ Hj), not_elem_of_nil. }
  assert (Hdom : forall i, is_Some (k_node k !! i) <-> is_Some (k_node k0 !! i)).
  { intros i. by apply (journal_exists [] [] k i Hj), not_elem_of_nil. }
  split.
  - exists (rk k). intros i. pose proof (jn_node _ _ _ _ Hj i (not_elem_of_nil i)) as E.
    destruct (k_node k !! i) as [h|] eqn:Hh, (k_node k0 !! i) as [h0|] eqn:Hh0; try done.
    pose proof (inj Some _ _ E : bare h = bare h0) as E'. simpl. f_equal. rewrite (rk_at k i h Hh). apply bare_eq; [done|].
    symmetry. by apply (journal_deps [] [] k i h h0 Hg Hj (not_elem_of_nil i) (not_elem_of_nil i)).
  - intros f. rewrite (jn_stat _ _ _ _ Hj). simpl. lia.
  - apply Hj.
  - assert (Hb : k_blob k = k_blob k0).
    { apply map_eq. intros i. apply (jn_blob _ _ _ _ Hj), not_elem_of_nil. }
    assert (Hs : k_succ k = k_succ k0).
    { apply set_eq. intros [x y]. by rewrite (gi_succ k Hg'), (gi_succ k0 Hg), Hp. }
    assert (Hx : k_idx k = k_idx k0).
    { apply set_eq. intros i. by rewrite (gi_idx k Hg'), (gi_idx k0 Hg), Hdom. }
    rewrite (jn_rest _ _ _ _ Hj) at 1. by rewrite Hp, Hb, Hs, Hx.
Qed.

End Journal.

(** * The graph scripts: [scriptAddNodes], [scriptAddEdges] *)

Lemma counted_floor i h : counted "EpochFloor" i h = 0%Z.
Proof.
  unfold counted. destruct (bucket_name (h_phase h) (h_status h)). by rewrite !bool_decide_eq_false_2.
Qed.

Lemma stat_insert f g v m : stat (<[g := v]> m) f = if bool_decide (f = g) then v else stat m f.
Proof.
  unfold stat. case_bool_decide; [subst; by rewrite lookup_insert_eq|by rewrite lookup_insert_ne].
Qed.

Section BatchWp.
Context {C : Type} `{!RedisServer C}.
Implicit Types (Y : string -> Prop).

Lemma lwp_createNode s now k :
  wp (createNode s now : L C unit) (fun _ k' => exists h, born (ls_id s) h k k' /\ h_kind h = ls_kind s) never k.
Proof.
  unfold createNode. lwp_steps. set (h := mkHash _ _ _ _ _ _ _ _ _ _ _ _ _ _ _ _ _ _ _ _ _). exists h. split; [|done]. split; try done.
  - split; try done. unfold h, floor, stat. simpl. destruct (k_stats k !! "EpochFloor"%string) as [v|]; [|done]. simpl.
    destruct (Z.eqb_spec v 0); [by subst|done].
  - by eexists.
  - intros f. change (stat (hincr "Blocked" 1 (hincr "Total" 1 (k_stats k))) f = (stat (k_stats k) f + if bool_decide (f = "EpochFloor"%string) then 0 else counted f (ls_id s) h)%Z).
    rewrite !stat_hincr. unfold counted. change (bucketField (h_phase h) (h_status h)) with "Blocked"%string.
    repeat case_bool_decide; subst; simpl; try done; lia.
Qed.

(** [deleteNodeKeys] on the keys [k1], which are [k] but for what the node [id]
    had in the sorted sets and the counters. *)
Lemma lwp_deleteNodeKeys id h k k1 :
  ginv k -> k_node k !! id = Some h -> (forall a b, edge k a b -> a <> id /\ b <> id) ->
  k1 = k <| k_ready := k_ready k1 |> <| k_sched := k_sched k1 |> <| k_leases := k_leases k1 |> <| k_stats := k_stats k1 |> ->
  (forall kind i, k_ready k1 !! (kind, i) = if decide (i = id) then None else k_ready k !! (kind, i)) ->
  k_sched k1 = delete id (k_sched k) -> k_leases k1 = delete id (k_leases k) ->
  (forall f, stat (k_stats k1) f = (stat (k_stats k) f - counted f id h)%Z) ->
  wp (deleteNodeKeys id : L C unit) (fun _ k' => dropped id h k k') never k1.
Proof.
  intros Hg Hh Hfree Hrest Hr Hs Hl Hst. unfold deleteNodeKeys, retireEpoch.
  assert (En : k_node k1 = k_node k) by (by rewrite Hrest). assert (Ep : k_pred k1 = k_pred k) by (by rewrite Hrest).
  assert (Ec : k_succ k1 = k_succ k) by (by rewrite Hrest). assert (Eb : k_blob k1 = k_blob k) by (by rewrite Hrest).
  assert (Ei : k_idx k1 = k_idx k) by (by rewrite Hrest).
  assert (Hkp : filter (fun e : string * string * bool => e.1.1 <> id) (k_pred k) = k_pred k).
  { apply map_filter_id. intros [b a] sat He. simpl. by apply (Hfree a b); exists sat. }
  assert (Hks : filter (fun e : string * string => e.1 <> id) (k_succ k) = k_succ k).
  { apply set_eq. intros [a b]. rewrite elem_of_filter. split; [by intros [_ ?]|]. intros Hin. split; [|done].
    simpl. apply (Hfree a b). by apply (gi_succ k Hg). }
  assert (Hfl : stat (k_stats k1) "EpochFloor" = floor k) by (rewrite Hst, counted_floor; unfold floor; lia).
  assert (Hend : forall k2, k2 = k1 <| k_stats := k_stats k2 |> -> floor k2 = Z.max (floor k) (h_epoch h) ->
    (forall f, f <> "EpochFloor"%string -> stat (k_stats k2) f = stat (k_stats k1) f) ->
    dropped id h k (del_keys id k2 <| k_idx ::= fun s => s ∖ {[id]} |>)).
  { intros k2 E2 F2 S2. split.
    - done.
    - change (delete id (k_node k2) = delete id (k_node k)). by rewrite E2, <- En.
    - change (delete id (k_blob k2) = delete id (k_blob k)). by rewrite E2, <- Eb.
    - change (k_idx k2 ∖ {[id]} = k_idx k ∖ {[id]}). by rewrite E2, <- Ei.
    - change (forall kind i, k_ready k2 !! (kind, i) = if decide (i = id) then None else k_ready k !! (kind, i)). by rewrite E2.
    - change (k_sched k2 = delete id (k_sched k)). by rewrite E2, <- Hs.
    - change (k_leases k2 = delete id (k_leases k)). by rewrite E2, <- Hl.
    - intros f Hf. change (stat (k_stats k2) f = (stat (k_stats k) f - counted f id h)%Z). by rewrite S2, Hst.
    - exact F2.
    - assert (X1 : filter (fun e : string * string * bool => e.1.1 <> id) (k_pred k2) = k_pred k) by (by rewrite E2, <- Hkp, <- Ep).
      assert (X2 : filter (fun e : string * string => e.1 <> id) (k_succ k2) = k_succ k) by (by rewrite E2, <- Hks, <- Ec).
      rewrite E2, Hrest in X1, X2 |- *. revert X1 X2. clear. destruct k1, k2, k. cbn. intros X1 X2. unfold del_keys. cbn. f_equal; [exact X2|exact X1]. }
  lwp_steps. rewrite En, Hh, Hfl. change (default 0%Z (h_epoch <$> Some h)) with (h_epoch h). destruct (Z.ltb_spec (floor k) (h_epoch h)).
  - lwp_steps. apply Hend.
    + done.
    + unfold floor. change (stat (<["EpochFloor"%string := h_epoch h]> (k_stats k1)) "EpochFloor" = Z.max (floor k) (h_epoch h)).
      rewrite stat_insert, bool_decide_eq_true_2 by done. lia.
    + intros f Hf. change (stat (<["EpochFloor"%string := h_epoch h]> (k_stats k1)) f = stat (k_stats k1) f).
      by rewrite stat_insert, bool_decide_eq_false_2.
  - lwp_steps. apply Hend; [by destruct k1| |done]. unfold floor at 1. rewrite Hfl. lia.
Qed.

Lemma reverse_app_one {A : Type} (l : list A) x : reverse (l ++ [x]) = x :: reverse l.
Proof. by rewrite reverse_app, reverse_singleton. Qed.

Lemma lwp_undo_created k0 cr k :
  ginv k0 -> journal k0 cr [] k ->
  wp (each (reverse cr) (fun id => adjustBucket PhaseBlocked StatusNew (-1) ;;
        write (fun k => k <| k_stats ::= hincr "Total" (-1) |>) ;; deleteNodeKeys id) : L C unit)
    (fun _ k' => journal k0 [] [] k') never k.
Proof.
  intros Hg. revert k. induction cr as [|id cr IH] using rev_ind; intros k Hj; [by apply lwp_ret|].
  rewrite reverse_app_one. cbn [each]. lwp_steps.
  assert (Hin : id ∈ cr ++ [id]) by (apply elem_of_app; right; by apply list_elem_of_singleton).
  destruct (jn_created _ _ _ _ Hj id Hin) as (Hid0 & h & Hh & Hp & Hs & He).
  assert (Hz := ki_z (jn_inv _ _ _ _ Hj)).
  eapply lwp_mono; [apply (lwp_deleteNodeKeys id h k); [apply (ki_graph (jn_inv _ _ _ _ Hj))|done|..]|].
  - intros a b Hab. assert (edge k0 a b) as H0 by (unfold edge in *; by rewrite <- (jn_pred _ _ _ _ Hj) by apply not_elem_of_nil).
    destruct (journal_old_edge _ _ _ _ _ Hg Hj H0). split; by intros ->.
  - done.
  - intros kind i. change (k_ready k !! (kind, i) = if decide (i = id) then None else k_ready k !! (kind, i)). case_decide as E; [|done].
    subst. rewrite (zi_ready _ _ Hz), Hh. simpl. unfold zready. rewrite decide_False; [done|]. rewrite Hp. by intros [? _].
  - symmetry. apply delete_id, (sched_none id h Hz Hh). by rewrite Hp.
  - symmetry. apply delete_id, (lease_none id h Hz Hh). by rewrite Hp.
  - intros f. change (stat (hincr "Total" (-1) (hincr "Blocked" (-1) (k_stats k))) f = (stat (k_stats k) f - counted f id h)%Z).
    rewrite !stat_hincr, (fresh_counted f id h) by done. unfold fresh. change (bucketField PhaseBlocked StatusNew) with "Blocked"%string.
    repeat case_bool_decide; subst; simpl; try done; lia.
  - intros [] k' Hd. apply IH. by eapply journal_drop.
Qed.

Lemma lwp_undo_linked k0 cr li k :
  journal k0 cr li k ->
  wp (each (reverse li) (fun e => _ ← unlinkEdge e.1 e.2; mret tt) : L C unit) (fun _ k' => journal k0 cr [] k') never k.
Proof.
  revert k. induction li as [|[a b] li IH] using rev_ind; intros k Hj; [by apply lwp_ret|].
  rewrite reverse_app_one. cbn [each]. lwp_steps.
  assert (Hin : (a, b) ∈ li ++ [(a, b)]) by (apply elem_of_app; right; by apply list_elem_of_singleton).
  eapply lwp_mono; [apply (lwp_unlinkEdge anyid anyid a b k (jn_inv _ _ _ _ Hj)); done|].
  intros [] k'; lwp_steps.
  - intros (Hi & _ & _ & He). lwp_steps. apply IH. by eapply journal_unlink.
  - intros [_ Hn]. destruct (jn_edge _ _ _ _ Hj a b Hin) as [_ [? ?]]. congruence.
Qed.

(** A batch that fails leaves the keys as they were, ranks apart. *)
Lemma lwp_abort {A : Type} k0 cr li msg k (Q : A -> keys -> Prop) :
  ginv k0 -> journal k0 cr li k ->
  wp (abort cr li msg : L C A) Q (fun e k' => (restored k0 k' /\ kinv None None anyid k') /\ e = ErrorReply msg) k.
Proof.
  intros Hg Hj. unfold abort, rollbackBatch. lwp_steps. apply lwp_never.
  eapply lwp_mono; [by apply (lwp_undo_linked k0 cr li)|]. intros [] k1 Hj1.
  apply lwp_never. eapply lwp_mono; [by apply (lwp_undo_created k0 cr)|]. intros [] k2 Hj2. lwp_steps. split_and!; [by apply journal_undone|apply Hj2|done].
Qed.

(** An error reply from a script that changed ranks only. *)
Definition undone (k0 : keys) (e : lerror) (k' : keys) : Prop := (restored k0 k' /\ kinv None None anyid k') /\ coded e.

Lemma lwp_aborted {A : Type} k0 cr li code x args k (Q : A -> keys -> Prop) :
  ginv k0 -> journal k0 cr li k -> bool_decide (code ∈ script_codes) = true ->
  wp (abort cr li (dwerr (code :: x :: args)) : L C A) Q (undone k0) k.
Proof.
  intros Hg Hj Hc%bool_decide_eq_true t Ht. pose proof (lwp_abort k0 cr li (dwerr (code :: x :: args)) k Q Hg Hj t Ht) as H.
  destruct (abort _ _ _ t) as [t' [a|e]]; [done|]. destruct H as [? ->]. split; [done|]. by exists code, x, args.
Qed.

(** ** [scriptAddNodes] *)

Definition present (k : keys) (ids : list string) : Prop := forall i, i ∈ ids -> is_node k i.

Lemma lwp_create_specs k0 specs cr now k :
  ginv k0 -> journal k0 cr [] k ->
  wp (create_specs specs cr now : L C (list string))
    (fun cr' k' => journal k0 cr' [] k' /\ adv k k' /\ present k' (ls_id <$> specs) /\ (forall i, is_node k i -> is_node k' i) /\
       forall i, i ∈ cr' -> i ∈ cr \/ i ∈ ls_id <$> specs) (undone k0) k.
Proof.
  intros Hg. revert cr k. induction specs as [|s specs IH]; intros cr k Hj; cbn [create_specs].
  { lwp_steps. split_and!; try done; [by intros i ?%not_elem_of_nil|by left]. }
  lwp_steps. unfold exists_node. case_bool_decide as Hex.
  - destruct (specMatches k s); [|by apply (lwp_aborted k0 cr [])].
    eapply lwp_mono; [by apply IH|]. intros cr' k' (Hj' & Ha & Hp & Hk & Hc). split_and!; try done.
    + intros i [->|Hin]%elem_of_cons; [by apply Hk|by apply Hp].
    + intros i [?|?]%Hc; [by left|right; by apply elem_of_cons; right].
  - assert (Hid : k_node k !! ls_id s = None) by (by apply eq_None_not_Some). lwp_steps. apply lwp_never.
    eapply lwp_mono; [apply lwp_createNode|]. intros [] k1 (h & Hb & _).
    assert (Hj1 : journal k0 (cr ++ [ls_id s]) [] k1) by (by eapply journal_create).
    assert (Hgrow : forall i, is_node k i \/ i = ls_id s -> is_node k1 i).
    { intros i Hi. unfold is_node. rewrite (born_lookup Hb). case_decide; [by eexists|]. by destruct Hi as [?|?]. }
    eapply lwp_mono; [by apply IH|]. intros cr' k' (Hj' & Ha & Hp & Hk & Hc). split_and!; try done.
    + etrans; [|done]. by eapply (born_adv Hb).
    + intros i [->|Hin]%elem_of_cons; [apply Hk, Hgrow; by right|by apply Hp].
    + intros i Hi. apply Hk, Hgrow. by left.
    + intros i [[?| ->%list_elem_of_singleton]%elem_of_app|?]%Hc; [by left|right; by left|right; by right].
Qed.

Lemma edged_nodes a b o k k' i : edged a b o k k' -> is_node k i -> is_node k' i.
Proof.
  intros He [h Hh]. unfold is_node. destruct (decide (i = b)) as [->|Hne].
  - destruct (eg_at _ _ _ _ _ He) as (x & t & _ & ->). by eexists.
  - rewrite (eg_other _ _ _ _ _ He) by done. by eexists.
Qed.

Lemma reordered_nodes k k' i : reordered k k' -> is_node k i -> is_node k' i.
Proof. intros [[o Ho] _ _ _] [h Hh]. unfold is_node. rewrite (rr_node _ _ _ Ho), Hh. by eexists. Qed.

Lemma reordered_edge k k' a b : reordered k k' -> edge k' a b <-> edge k a b.
Proof. intros [[o Ho] _ _ _]. unfold edge. assert (k_pred k' = k_pred k) as -> by (by rewrite (rr_rest _ _ _ Ho)). done. Qed.

(** What linking leaves: the edges [new] on top of the journal. *)
Definition linked_up (k0 : keys) (cr : list string) (li : list (string * string)) (k : keys)
    (new : list (string * string)) (li' : list (string * string)) (k' : keys) : Prop :=
  journal k0 cr li' k' /\ adv k k' /\ (forall i, is_node k i -> is_node k' i) /\ (forall a b, edge k a b -> edge k' a b) /\
  (forall a b, (a, b) ∈ new -> edge k' a b) /\ (forall e, e ∈ li' -> e ∈ li \/ e ∈ new).

Lemma linked_up_refl k0 cr li k : journal k0 cr li k -> linked_up k0 cr li k [] li k.
Proof. intros Hj. split_and!; try done; [by intros a b ?%not_elem_of_nil|by left]. Qed.

Lemma linked_up_trans k0 cr li k new1 li1 k1 new2 li2 k2 :
  linked_up k0 cr li k new1 li1 k1 -> linked_up k0 cr li1 k1 new2 li2 k2 -> linked_up k0 cr li k (new1 ++ new2) li2 k2.
Proof.
  intros (_ & A1 & N1 & E1 & W1 & L1) (J2 & A2 & N2 & E2 & W2 & L2). split_and!; try done; [by etrans|auto|auto| |].
  - intros a b [?|?]%elem_of_app; auto.
  - intros e [[?|?]%L1|?]%L2; [by left|right; apply elem_of_app; by left|right; apply elem_of_app; by right].
Qed.

(** One edge that is not there yet, between two nodes. *)
Lemma lwp_link_new {A : Type} k0 cr li dep id k (f : list (string * string) -> L C A) (Q : A -> keys -> Prop) :
  ginv k0 -> journal k0 cr li k -> is_node k dep -> is_node k id -> dep <> id -> k_pred k !! (id, dep) = None ->
  (forall k', linked_up k0 cr li k [(dep, id)] (li ++ [(dep, id)]) k' -> wp (f (li ++ [(dep, id)])) Q (undone k0) k') ->
  wp (res ← addEdgeOrder dep id;
      if bool_decide (res = CycleFound) then abort cr li (dwerr ["CYCLE"; dep; id])%string
      else linkEdge dep id ;; f (li ++ [(dep, id)])) Q (undone k0) k.
Proof.
  intros Hg Hj Hd Hid Hne He HQ. pose proof (jn_inv _ _ _ _ Hj) as Hi. lwp_steps. apply lwp_never.
  eapply lwp_mono; [by apply (lwp_addEdgeOrder k (ki_graph Hi) dep id)|]. intros res k1 Hres.
  case_bool_decide as Hc.
  { subst res. destruct Hres as [-> _]. by apply (lwp_aborted k0 cr li). }
  assert (Hr : reordered k k1 /\ (rk k1 dep < rk k1 id)%Z) by (by destruct res; [apply Hres| |apply Hres]).
  destruct Hr as [Hr Hlt]. clear Hres. assert (Hj1 : journal k0 cr li k1) by (by eapply journal_reorder).
  assert (He1 : k_pred k1 !! (id, dep) = None).
  { apply eq_None_not_Some. change (~ edge k1 dep id). rewrite (reordered_edge k k1 dep id Hr). unfold edge. rewrite He. by intros [? ?]. }
  lwp_steps. apply lwp_never.
  eapply lwp_mono; [apply (lwp_linkEdge anyid anyid dep id k1 (jn_inv _ _ _ _ Hj1)); try done; by eapply reordered_nodes|].
  intros [] k2 (Hi2 & Ha2 & sat & He2). apply HQ. split_and!.
  - by eapply journal_link.
  - etrans; [by apply reordered_adv|done].
  - intros i Hn. eapply edged_nodes; [done|]. by eapply reordered_nodes.
  - intros a b Hab. unfold edge. rewrite (eg_pred _ _ _ _ _ He2). case_decide; [by eexists|]. by apply (reordered_edge k k1).
  - intros a b [= -> ->]%list_elem_of_singleton. unfold edge. rewrite (eg_pred _ _ _ _ _ He2), decide_True by done. by eexists.
  - intros e [?|?]%elem_of_app; auto.
Qed.

Lemma lwp_link_deps k0 cr id deps li k :
  ginv k0 -> journal k0 cr li k -> is_node k id -> id ∉ deps ->
  wp (link_deps id deps cr li : L C (list (string * string)))
    (fun li' k' => linked_up k0 cr li k ((fun d => (d, id)) <$> deps) li' k') (undone k0) k.
Proof.
  intros Hg. revert li k. induction deps as [|dep deps IH]; intros li k Hj Hid Hself; cbn [link_deps].
  { lwp_steps. by apply linked_up_refl. }
  apply not_elem_of_cons in Hself as [Hne Hself]. lwp_steps. unfold exists_node. case_bool_decide as Hex; cbn [negb];
    [|by apply (lwp_aborted k0 cr li)].
  unfold hasEdge. lwp_steps. case_bool_decide as He.
  { eapply lwp_mono; [by apply IH|]. intros li' k' Hup.
    apply (linked_up_trans k0 cr li k [(dep, id)] li k); [|done]. split_and!; try done; [|by left].
    intros a b [= -> ->]%list_elem_of_singleton. done. }
  case_bool_decide as Hdone; [by apply (lwp_aborted k0 cr li)|].
  apply (lwp_link_new k0 cr li dep id k (fun li' => link_deps id deps cr li')); try done; [by apply eq_None_not_Some|].
  intros k' Hup. eapply lwp_mono; [apply IH; try done; [apply Hup|by apply Hup]|].
  intros li' k2 Hup2. by apply (linked_up_trans k0 cr li k [(dep, id)] (li ++ [(dep, id)]) k').
Qed.

(** The edges the specifications ask for. *)
Definition spec_edges (specs : list lspec) : list (string * string) := specs ≫= fun s => (fun d => (d, ls_id s)) <$> ls_deps s.

Definition loopless (specs : list lspec) : Prop := forall s, s ∈ specs -> ls_id s ∉ ls_deps s.

Lemma lwp_link_specs k0 cr specs li k :
  ginv k0 -> journal k0 cr li k -> present k (ls_id <$> specs) -> loopless specs ->
  wp (link_specs specs cr li : L C (list (string * string)))
    (fun li' k' => linked_up k0 cr li k (spec_edges specs) li' k') (undone k0) k.
Proof.
  intros Hg. revert li k. induction specs as [|s specs IH]; intros li k Hj Hp Hs; cbn [link_specs].
  { lwp_steps. by apply linked_up_refl. }
  lwp_steps. eapply lwp_mono; [apply (lwp_link_deps k0 cr (ls_id s)); try done; [apply Hp; by left|apply Hs; by left]|].
  intros li1 k1 Hup. eapply lwp_mono; [apply IH|].
  - apply Hup.
  - intros i Hi. apply Hup, Hp. by right.
  - intros s' Hs'. apply Hs. by right.
  - intros li2 k2 Hup2. by eapply linked_up_trans.
Qed.

(** ** [settle_all] *)

Definition busy_at (k : keys) (i : string) : Prop := exists h, k_node k !! i = Some h /\ is_busy h = true.

Lemma lwp_settle_all Y ids now k :
  kinv None None Y k ->
  wp (settle_all ids now : L C unit)
    (fun _ k' => kinv None None (fun i => Y i /\ (i ∈ ids -> busy_at k i)) k' /\ evolve k k' /\ busy_kept None k k') never k.
Proof.
  unfold settle_all. revert Y k. induction ids as [|id ids IH]; intros Y k Hi; cbn [each].
  { lwp_steps. split_and!; try done. eapply kinv_weaken; [exact Hi|]. intros i h _ HY. left. split; [done|by intros ?%not_elem_of_nil]. }
  lwp_steps. eapply lwp_mono; [apply (lwp_settle Y (fun i => Y i /\ (i = id -> busy_at k i)) id now k Hi)|].
  - intros i Hne HY. by split.
  - intros h Hh Hb HY. split; [done|]. intros _. by exists h.
  - intros [] k1 (Hi1 & Hv1 & Hb1). eapply lwp_mono; [by apply IH|]. intros [] k2 (Hi2 & Hv2 & Hb2).
    split_and!; [|by etrans|by apply (busy_kept_trans None k k1)].
    eapply kinv_weaken; [exact Hi2|]. intros i h Hh [[HY H1] H2]. left. split; [done|]. intros [->|Hin]%elem_of_cons; [by apply H1|].
    destruct (H2 Hin) as (x & Hx & Hbx). destruct (ev_back _ _ Hv1 i x Hx) as (y & Hy & _). exists y. split; [done|].
    destruct (Hb1 i y x) as [<- _]; done.
Qed.

Lemma elem_touch l i j : i ∈ touch l j <-> i ∈ l \/ i = j.
Proof.
  unfold touch. case_bool_decide as E; [|by rewrite elem_of_app, list_elem_of_singleton].
  split; [by left|]. by intros [?| ->].
Qed.

Lemma elem_touched ids l i : i ∈ foldl touch l ids <-> i ∈ l \/ i ∈ ids.
Proof.
  revert l. induction ids as [|j ids IH]; intros l; cbn [foldl]; [set_solver|]. rewrite IH, elem_touch, elem_of_cons. tauto.
Qed.

Lemma lwp_record_created Y now ids k :
  kinv None None Y k -> present k ids ->
  wp (each ids (record_created now) : L C unit)
    (fun _ k' => kinv None None Y k' /\ evolve k k' /\ busy_kept None k k') never k.
Proof.
  intros Hi Hp. eapply lwp_mono; [apply (lwp_each _ (fun l k' => (kinv None None Y k' /\ evolve k k' /\ busy_kept None k k') /\ present k' l))|].
  - by split.
  - intros id l k1 [(Hi1 & Hv1 & Hb1) Hp1]. unfold record_created. lwp_steps. apply lwp_recordEvent; [apply Hp1; by left|].
    intros ev n Hc Hn. split_and!; [by apply kinv_logged|etrans; [done|apply logged_evolve]| |].
    + apply (busy_kept_trans None k k1); [done..|]. intros j x x' _ Hx (y & Hy & E)%logged_node. simplify_eq. by destruct E as [->| ->].
    + intros i Hin. apply (evolve_node_dom k1); [apply logged_evolve|]. apply Hp1. by right.
  - by intros [] k' [? _].
Qed.

End BatchWp.

(** * The graph scripts on the keys: [scriptAddNodes] .. [scriptCancelScope] *)

Lemma restored_refl k : restored k k.
Proof.
  split; [|done|done|by destruct k]. exists (rk k). intros i. destruct (k_node k !! i) as [h|] eqn:Hh; [|done]. simpl.
  rewrite (rk_at k i h Hh). by destruct h.
Qed.

Lemma undone_reply Y k code x args :
  kinv None None Y k -> bool_decide (code ∈ script_codes) = true -> undone k (ErrorReply (dwerr (code :: x :: args))) k.
Proof. intros Hi Hc%bool_decide_eq_true. split; [split; [apply restored_refl|by eapply kinv_any]|]. by exists code, x, args. Qed.

Lemma journal_busy k0 cr li k i : journal k0 cr li k -> busy_at k i -> busy_at k0 i.
Proof.
  intros Hj (h & Hh & Hb). destruct (decide (i ∈ cr)) as [Hin|Hin].
  - destruct (jn_created _ _ _ _ Hj i Hin) as (_ & x & Hx & Hp & _). simplify_eq. unfold is_busy in Hb. by rewrite Hp in Hb.
  - pose proof (jn_node _ _ _ _ Hj i Hin) as E. rewrite Hh in E. destruct (k_node k0 !! i) as [h0|] eqn:Hh0; [|done].
    exists h0. split; [done|]. unfold is_busy in *. by rewrite <- (bare_phase _ _ (inj Some _ _ E : bare h = bare h0)).
Qed.

Lemma busy_back k k' i : evolve k k' -> busy_kept None k k' -> busy_at k' i -> busy_at k i.
Proof.
  intros Hv Hb (h' & Hh' & Hbu). destruct (ev_back _ _ Hv i h' Hh') as (h & Hh & _). exists h. split; [done|].
  by destruct (Hb i h h') as [<- _].
Qed.

Section GraphOps.
Context {C : Type} `{!RedisServer C}.
Implicit Types (Y : string -> Prop).

(** What a change of the graph leaves: the nodes of [ids] that are leased or
    waiting to be tried again keep their phase whatever their rule says now. *)
Definition rewired Y (ids : list string) (k k' : keys) : Prop :=
  kinv None None (fun i => Y i \/ (i ∈ ids /\ busy_at k i)) k' /\ adv k k'.

Lemma evolve_edge k k' a b : evolve k k' -> edge k a b -> edge k' a b.
Proof. intros Hv. unfold edge. by rewrite (evolve_pred_dom k k' _ Hv). Qed.

Lemma evolve_is_node k k' i : evolve k k' -> is_node k i -> is_node k' i.
Proof. intros Hv. unfold is_node. by rewrite (evolve_node_dom k k' _ Hv). Qed.

(** The end of a batch: every node it touched settles. *)
Lemma lwp_settle_batch Y k0 cr li ids now k k1 :
  kinv None None Y k0 -> journal k0 cr li k -> kinv None None (fun i => Y i \/ i ∈ cr \/ i ∈ li.*2) k1 ->
  evolve k k1 -> busy_kept None k k1 -> adv k0 k -> (forall i, i ∈ cr \/ i ∈ li.*2 -> i ∈ ids) ->
  wp (settle_all ids now : L C unit) (fun _ k' => rewired Y ids k0 k' /\ evolve k k') never k1.
Proof.
  intros Hi0 Hj Hi1 Hv Hb Ha Hids. eapply lwp_mono; [by eapply lwp_settle_all|].
  intros [] k2 (Hi2 & Hv2 & _). split_and!; [split|by etrans].
  - eapply kinv_weaken; [exact Hi2|]. intros i h _ [[?|Hin] Hbusy]; [by left; left|].
    left. right. split; [by apply Hids|]. eapply journal_busy; [done|]. by apply (busy_back k k1), Hbusy, Hids.
  - etrans; [done|]. apply evolve_adv. by etrans.
Qed.

Definition added (specs : list lspec) (k k' : keys) : Prop :=
  present k' (ls_id <$> specs) /\ (forall a b, (a, b) ∈ spec_edges specs -> edge k' a b) /\
  (forall i, is_node k i -> is_node k' i) /\ (forall a b, edge k a b -> edge k' a b).

Lemma lwp_scriptAddNodes Y p maxBatch specs k :
  kinv None None Y k -> loopless specs ->
  wp (scriptAddNodes p maxBatch specs : L C unit)
    (fun _ k' => rewired Y (ls_id <$> specs) k k' /\ added specs k k' /\ k_sealed k = false) (undone k) k.
Proof.
  intros Hi Hl. unfold scriptAddNodes. lwp_steps. destruct (k_sealed k) eqn:Hseal; [lwp_steps; by eapply undone_reply|].
  destruct (_ <? _)%Z; [lwp_steps; by eapply undone_reply|]. apply lwp_bind, lwp_nowMs. intros now. lwp_steps.
  pose proof (ki_graph Hi) as Hg.
  eapply lwp_mono; [apply (lwp_create_specs k specs [] now k Hg); by eapply journal_start|].
  intros cr k1 (Hj1 & Ha1 & Hp1 & Hk1 & Hcr). lwp_steps.
  eapply lwp_mono; [by apply (lwp_link_specs k cr specs [] k1 Hg)|].
  intros li k2 (Hj2 & Ha2 & Hn2 & He2 & Hw2 & Hli). lwp_steps. apply lwp_never.
  assert (Hi2 := journal_settled Y cr li k2 Hi Hj2).
  eapply lwp_mono; [eapply lwp_record_created; [exact Hi2|]|].
  { intros i Hin. destruct (jn_created _ _ _ _ Hj2 i Hin) as (_ & h & Hh & _). by eexists. }
  intros [] k3 (Hi3 & Hv3 & Hb3). apply lwp_never.
  eapply lwp_mono; [apply (lwp_settle_batch Y k cr li _ now k2 k3); try done|].
  - by etrans.
  - intros i Hin. apply elem_touched. right. destruct Hin as [[?%not_elem_of_nil|?]%Hcr|Hin]; [done|done|].
    apply list_elem_of_fmap in Hin as ([a b] & -> & [?%not_elem_of_nil|Hin]%Hli); [done|]. cbn [snd].
    apply list_elem_of_bind in Hin as (s & (d & [= -> ->] & _)%list_elem_of_fmap & Hs). apply list_elem_of_fmap. by exists s.
  - intros [] k4 [[Hi4 Ha4] Hv4]. split_and!; [split; [|done]|unfold added; split_and!|done].
    + eapply kinv_weaken; [exact Hi4|]. intros i h _ [?|[Hin%elem_touched ?]]; [by left; left|]. left. right. split; [|done].
      by destruct Hin as [?%not_elem_of_nil|?].
    + intros i Hin. eapply evolve_is_node; [done|]. auto.
    + intros a b Hin. eapply evolve_edge; [done|]. auto.
    + intros i Hin. eapply evolve_is_node; [done|]. auto.
    + intros a b Hin. eapply evolve_edge; [done|]. apply He2.
      unfold edge in *. rewrite (jn_pred _ _ _ _ Hj1); [done|]. apply not_elem_of_nil.
Qed.

Lemma lwp_add_edges k0 edges li touched k :
  ginv k0 -> journal k0 [] li k -> (forall e, e ∈ li -> e.2 ∈ touched) ->
  wp (add_edges edges li touched : L C (list string))
    (fun touched' k' => exists li', linked_up k0 [] li k edges li' k' /\ (forall e, e ∈ li' -> e.2 ∈ touched') /\
       (forall i, i ∈ touched' -> i ∈ touched \/ i ∈ edges.*2)) (undone k0) k.
Proof.
  intros Hg. revert li touched k. induction edges as [|[from to] edges IH]; intros li touched k Hj Ht; cbn [add_edges].
  { lwp_steps. exists li. split_and!; [by apply linked_up_refl|done|by left]. }
  lwp_steps. unfold exists_node. case_bool_decide as Hf; cbn [negb]; [|by apply (lwp_aborted k0 [] li)].
  case_bool_decide as Hto; cbn [negb]; [|by apply (lwp_aborted k0 [] li)].
  case_bool_decide as Hne; [by apply (lwp_aborted k0 [] li)|]. unfold hasEdge. lwp_steps. case_bool_decide as He.
  { eapply lwp_mono; [by apply IH|]. intros t' k' (li' & Hup & H1 & H2). exists li'. split_and!; [|done|].
    - apply (linked_up_trans k0 [] li k [(from, to)] li k); [|done]. split_and!; try done; [|by left].
      intros a b [= -> ->]%list_elem_of_singleton. done.
    - intros i [?|?]%H2; [by left|right; by right]. }
  case_bool_decide as Hdone; [by apply (lwp_aborted k0 [] li)|].
  apply (lwp_link_new k0 [] li from to k (fun li' => add_edges edges li' (touch touched to))); try done; [by apply eq_None_not_Some|].
  intros k1 Hup. eapply lwp_mono; [apply IH; [apply Hup|]|].
  - intros e [Hin| ->%list_elem_of_singleton]%elem_of_app; apply elem_touch; [left; auto|by right].
  - intros t' k2 (li' & Hup2 & H1 & H2). exists li'. split_and!; [|done|].
    + by apply (linked_up_trans k0 [] li k [(from, to)] (li ++ [(from, to)]) k1).
    + intros i [[?| ->]%elem_touch|?]%H2; [by left|right; by left|right; by right].
Qed.

Lemma lwp_scriptAddEdges Y edges k :
  kinv None None Y k ->
  wp (scriptAddEdges edges : L C unit)
    (fun _ k' => rewired Y edges.*2 k k' /\ (forall a b, (a, b) ∈ edges -> edge k' a b) /\ (forall a b, edge k a b -> edge k' a b))
    (undone k) k.
Proof.
  intros Hi. unfold scriptAddEdges. apply lwp_bind, lwp_nowMs. intros now. lwp_steps.
  eapply lwp_mono; [apply (lwp_add_edges k edges [] [] k (ki_graph Hi)); [by eapply journal_start|by intros e ?%not_elem_of_nil]|].
  intros t k1 (li & (Hj1 & Ha1 & Hn1 & He1 & Hw1 & Hli) & H1 & H2). apply lwp_never.
  eapply lwp_mono; [apply (lwp_settle_batch Y k [] li t now k1 k1); try done|].
  - exact (journal_settled Y [] li k1 Hi Hj1).
  - intros i [?%not_elem_of_nil|Hin]; [done|]. apply list_elem_of_fmap in Hin as (e & -> & Hin). by apply H1.
  - intros [] k2 [[Hi2 Ha2] Hv2]. split_and!; [split; [|done]|..].
    + eapply kinv_weaken; [exact Hi2|]. intros i h _ [?|[Hin ?]]; [by left; left|]. left. right. split; [|done].
      by destruct (H2 i Hin) as [?%not_elem_of_nil|?].
    + intros a b Hin. eapply evolve_edge; [done|]. auto.
    + intros a b Hin. eapply evolve_edge; [done|]. auto.
Qed.

(** ** Unlinking *)

Definition bare_same (k k' : keys) : Prop := forall i, bare <$> k_node k' !! i = bare <$> k_node k !! i.

Lemma bare_same_trans k1 k2 k3 : bare_same k1 k2 -> bare_same k2 k3 -> bare_same k1 k3.
Proof. intros H1 H2 i. by rewrite H2. Qed.

Lemma bare_same_at k k' i h' : bare_same k k' -> k_node k' !! i = Some h' -> exists h, k_node k !! i = Some h /\ bare h' = bare h.
Proof.
  intros Hb Hh'. specialize (Hb i). rewrite Hh' in Hb. destruct (k_node k !! i) as [h|]; [|done]. exists h. split; [done|].
  exact (inj Some _ _ Hb).
Qed.

Lemma bare_same_busy k k' i : bare_same k k' -> busy_at k' i -> busy_at k i.
Proof.
  intros Hb (h' & Hh' & Hbu). destruct (bare_same_at k k' i h' Hb Hh') as (h & Hh & E). exists h. split; [done|].
  unfold is_busy in *. by rewrite <- (bare_phase _ _ E).
Qed.

(** [k'] is [k] without the edges [es]. *)
Record unlinked (es : list (string * string)) (k k' : keys) : Prop := {
  ul_adv : adv k k';
  ul_bare : bare_same k k';
  ul_pred : forall a b, k_pred k' !! (b, a) = if decide ((a, b) ∈ es) then None else k_pred k !! (b, a);
  ul_rest : k' = k <| k_node := k_node k' |> <| k_pred := k_pred k' |> <| k_succ := k_succ k' |>
}.

Lemma unlinked_refl k : unlinked [] k k.
Proof. split; try done; by destruct k. Qed.

Lemma unlinked_none a b k : k_pred k !! (b, a) = None -> unlinked [(a, b)] k k.
Proof.
  intros Hn. split; try done; [|by destruct k]. intros x y. case_decide as E; [|done].
  apply list_elem_of_singleton in E as [= -> ->]. done.
Qed.

Lemma unlinked_one a b k k' : adv k k' -> edged a b None k k' -> unlinked [(a, b)] k k'.
Proof.
  intros Ha He. split; [done| | |apply He].
  - intros i. by apply (edged_node a b None).
  - intros x y. rewrite (eg_pred _ _ _ _ _ He). destruct (decide ((x, y) = (a, b))) as [[= -> ->]|Hne].
    + rewrite !decide_True; [done|by apply list_elem_of_singleton|done].
    + rewrite !decide_False; [done|by intros ?%list_elem_of_singleton|congruence].
Qed.

Lemma unlinked_trans es1 es2 k1 k2 k3 : unlinked es1 k1 k2 -> unlinked es2 k2 k3 -> unlinked (es1 ++ es2) k1 k3.
Proof.
  intros [A1 B1 P1 R1] [A2 B2 P2 R2]. split; [by etrans|by eapply bare_same_trans| |].
  - intros a b. rewrite P2, P1. repeat case_decide; set_solver.
  - rewrite R2, R1. done.
Qed.

Lemma each_fmap {A B : Type} (f : A -> B) (g : B -> L C unit) l : each (f <$> l) g = each l (fun x => g (f x)).
Proof. induction l as [|x l IH]; [done|]. cbn. by rewrite <- IH. Qed.

(** One call of [unlinkEdge], whether the edge is there or not. *)
Lemma lwp_unlink_step Y a b k :
  kinv None None Y k ->
  wp (unlinkEdge a b : L C bool)
    (fun r k' => kinv None None (fun i => Y i \/ (i = b /\ r = true)) k' /\ unlinked [(a, b)] k k') never k.
Proof.
  intros Hi. eapply lwp_mono; [apply (lwp_unlinkEdge Y (fun i => Y i \/ i = b) a b k Hi); [by left|by right]|].
  intros [] k'; [intros (Hi' & Ha & _ & He)|intros [-> Hn]].
  - split; [|by apply unlinked_one]. eapply kinv_weaken; [exact Hi'|]. intros i h _ [?|?]; [by left; left|by left; right].
  - split; [|by apply unlinked_none]. eapply kinv_weaken; [exact Hi|]. by left; left.
Qed.

Lemma lwp_unlink_all Y es k :
  kinv None None Y k ->
  wp (each es (fun e => _ ← unlinkEdge e.1 e.2; mret tt) : L C unit)
    (fun _ k' => kinv None None (fun i => Y i \/ i ∈ es.*2) k' /\ unlinked es k k') never k.
Proof.
  revert Y k. induction es as [|[a b] es IH]; intros Y k Hi; cbn [each].
  { lwp_steps. split; [|apply unlinked_refl]. eapply kinv_weaken; [exact Hi|]. by left; left. }
  lwp_steps. eapply lwp_mono; [by apply (lwp_unlink_step Y a b k)|]. intros r k1 [Hi1 Hu1]. lwp_steps.
  eapply lwp_mono; [by apply IH|]. intros [] k2 [Hi2 Hu2]. split; [|by apply (unlinked_trans [(a, b)] es k k1)].
  eapply kinv_weaken; [exact Hi2|]. intros i h _ [[?|[-> _]]|?]; left; [by left|right; by left|right; by right].
Qed.

(** ** [scriptRemoveEdges] *)

Lemma lwp_remove_edges Y edges touched k :
  kinv None None (fun i => Y i \/ i ∈ touched) k ->
  wp (remove_edges edges touched : L C (list string))
    (fun touched' k' => kinv None None (fun i => Y i \/ i ∈ touched') k' /\ unlinked edges k k' /\
       (forall i, i ∈ touched' -> i ∈ touched \/ i ∈ edges.*2))
    (fun e k' => kinv None None (fun i => Y i \/ i ∈ touched \/ i ∈ edges.*2) k' /\ adv k k' /\ coded e) k.
Proof.
  revert touched k. induction edges as [|[from to] edges IH]; intros touched k Hi; cbn [remove_edges].
  { lwp_steps. split_and!; [done|apply unlinked_refl|by left]. }
  assert (Hrefuse : forall code x args, bool_decide (code ∈ script_codes) = true -> kinv None None (fun i => Y i \/ i ∈ touched \/ i ∈ ((from, to) :: edges).*2) k /\ adv k k /\ coded (ErrorReply (dwerr (code :: x :: args)))).
  { intros code x args Hc%bool_decide_eq_true. split_and!; [|done|by exists code, x, args]. eapply kinv_weaken; [exact Hi|]. intros i h _ [?|?]; auto. }
  lwp_steps. unfold exists_node. case_bool_decide as Hf; cbn [negb]; [|lwp_steps; by apply Hrefuse].
  case_bool_decide as Hto; cbn [negb]; [|lwp_steps; by apply Hrefuse]. lwp_steps. apply lwp_never.
  eapply lwp_mono; [by eapply lwp_unlink_step|]. intros r k1 [Hi1 Hu1].
  assert (Hi1' : kinv None None (fun i => Y i \/ i ∈ (if r then touch touched to else touched)) k1).
  { eapply kinv_weaken; [exact Hi1|]. intros i h _ [[?|?]|[-> ->]]; left; [by left|right|right; apply elem_touch; by right].
    destruct r; [apply elem_touch; by left|done]. }
  intros t Ht. pose proof (IH _ k1 Hi1' t Ht) as H. destruct (remove_edges _ _ t) as [t' [x|e]].
  - destruct H as (Hi2 & Hu2 & Hsub). split_and!; [done|by apply (unlinked_trans [(from, to)] edges k k1)|].
    intros i [Hin|?]%Hsub; [|right; by right]. destruct r; [apply elem_touch in Hin as [?| ->]; [by left|right; by left]|by left].
  - destruct H as (Hi2 & Ha2 & ?). split_and!; [|by etrans; [apply Hu1|]|done].
    eapply kinv_weaken; [exact Hi2|]. intros i h _ [?|[Hin|?]]; left; [by left|right|right; right; by right].
    destruct r; [apply elem_touch in Hin as [?| ->]; [by left|right; by left]|by left].
Qed.

(** A target of an edge that was removed before the call failed is left as it
    is. *)
Lemma lwp_scriptRemoveEdges Y edges k :
  kinv None None Y k ->
  wp (scriptRemoveEdges edges : L C unit)
    (fun _ k' => rewired Y edges.*2 k k' /\ (forall a b, edge k' a b <-> edge k a b /\ (a, b) ∉ edges))
    (fun e k' => kinv None None (fun i => Y i \/ i ∈ edges.*2) k' /\ adv k k' /\ coded e) k.
Proof.
  intros Hi. unfold scriptRemoveEdges. apply lwp_bind, lwp_nowMs. intros now. lwp_steps.
  assert (Hi0 : kinv None None (fun i => Y i \/ i ∈ []) k) by (eapply kinv_weaken; [exact Hi|]; by left; left).
  intros t Ht. pose proof (lwp_remove_edges Y edges [] k Hi0 t Ht) as H. destruct (remove_edges edges [] t) as [t' [x|e]].
  2: { destruct H as (Hi1 & ? & ?). split_and!; try done. eapply kinv_weaken; [exact Hi1|].
       intros i h _ [?|[?%not_elem_of_nil|?]]; [by left; left|done|by left; right]. }
  destruct H as (Hi1 & Hu1 & Hsub). apply lwp_never.
  eapply lwp_mono; [by eapply lwp_settle_all|]. intros [] k2 (Hi2 & Hv2 & _). split_and!; [split|].
  - eapply kinv_weaken; [exact Hi2|]. intros i h _ [[?|Hin] Hb]; [by left; left|]. left. right.
    split; [by destruct (Hsub i Hin) as [?%not_elem_of_nil|?]|]. eapply bare_same_busy; [apply Hu1|auto].
  - etrans; [apply Hu1|by apply evolve_adv].
  - intros a b. unfold edge. rewrite (evolve_pred_dom _ _ _ Hv2), (ul_pred _ _ _ Hu1). case_decide; [|tauto].
    split; [by intros [? ?]|by intros [_ []]].
Qed.

(** ** [scriptRemoveNode] *)

(** The successors end; the node itself ranks below them all. *)
Lemma lwp_fail_succs Y id h ws rs msg now k :
  kinv None None Y k -> k_node k !! id = Some h -> (forall w, w ∈ ws -> edge k id w) ->
  wp (each ws (fun w => terminate w StatusError rs msg now) : L C unit)
    (fun _ k' => kinv None None Y k' /\ evolve k k' /\ k_node k' !! id = Some h /\
       forall w x, w ∈ ws -> k_node k' !! w = Some x -> done x = true) never k.
Proof.
  intros Hi Hh Hws. eapply lwp_mono; [apply (lwp_each _ (fun l k1 => kinv None None Y k1 /\ evolve k k1 /\ k_node k1 !! id = Some h /\
    (forall w, w ∈ l -> edge k id w) /\ forall w x, w ∈ ws -> k_node k1 !! w = Some x -> w ∈ l \/ done x = true))|].
  - split_and!; try done. by left.
  - intros w l k1 (Hi1 & Hv1 & Hh1 & Hl & Hd1).
    assert (He : edge k1 id w) by (eapply evolve_edge; [done|]; apply Hl; by left).
    destruct He as [sat He]. destruct (gi_edge k1 (ki_graph Hi1) id w sat He) as (x & hw & Hx & Hw & Hlt & _). simplify_eq.
    eapply lwp_mono; [apply (lwp_terminate None Y Y w StatusError rs msg now k1 Hi1); [by left|done|done]|].
    intros [] k2 (Hi2 & Hv2 & Hd2 & _ & Hlow & _). split_and!; [done|by etrans|by apply (Hlow hw Hw)|intros; apply Hl; by right|].
    intros w' y Hin Hy. destruct (decide (w' = w)) as [->|Hne]; [right; by apply Hd2|].
    destruct (ev_back _ _ Hv2 w' y Hy) as (z & Hz & Kp). destruct (Hd1 w' z Hin Hz) as [[?|?]%elem_of_cons|Hdz]; [done|by left|right].
    by apply (kp_done _ _ Kp).
  - intros [] k' (? & ? & ? & _ & Hd). split_and!; try done. intros w x Hin Hx. by destruct (Hd w x Hin Hx) as [?%not_elem_of_nil|?].
Qed.

(** Which successors of a removed node may be left out of step. *)
Definition orphan (policy : CascadePolicy) (k : keys) (i : string) : Prop :=
  match policy with
  | CascadeDetach => busy_at k i
  | CascadeOther _ => True
  | CascadeReject | CascadeFail => False
  end.

Record removed (id : string) (policy : CascadePolicy) Y (k k' : keys) : Prop := {
  rm_inv : kinv None None (fun i => Y i \/ (edge k id i /\ orphan policy k i)) k';
  rm_adv : adv k k';
  rm_node : forall i, is_node k' i <-> is_node k i /\ i <> id;
  rm_edge : forall a b, edge k' a b <-> edge k a b /\ a <> id /\ b <> id;
  rm_policy : policy = CascadeReject -> forall b, ~ edge k id b
}.

(** The end of the script, once the successors have been dealt with. *)
Lemma lwp_take_out Y id h now succs policy k :
  kinv None None Y k -> k_node k !! id = Some h -> (forall w, w ∈ succs <-> edge k id w) ->
  (policy = CascadeFail -> forall w x, w ∈ succs -> k_node k !! w = Some x -> done x = true) ->
  (policy = CascadeReject -> succs = []) ->
  wp (each succs (fun w => _ ← unlinkEdge id w; mret tt) ;;
      preds ← hkeys_pred id;
      each preds (fun q => _ ← unlinkEdge q id; mret tt) ;;
      write (fun k => k <| k_ready ::= delete (h_kind h, id) |> <| k_sched ::= delete id |> <| k_leases ::= delete id |>) ;;
      adjustBucket (h_phase h) (h_status h) (-1) ;;
      write (fun k => k <| k_stats ::= hincr "Total" (-1) |>) ;;
      deleteNodeKeys id ;;
      if bool_decide (policy = CascadeDetach) then settle_all succs now else mret tt : L C unit)
    (fun _ k' => removed id policy Y k k') never k.
Proof.
  intros Hi Hh Hsucc Hfail Hrej. lwp_steps.
  rewrite <- (each_fmap (fun w => (id, w)) (fun e => _ ← unlinkEdge e.1 e.2; mret tt)).
  eapply lwp_mono; [by apply (lwp_unlink_all Y)|]. intros [] k1 [Hi1 Hu1]. lwp_steps. apply lwp_hkeys. intros preds Hpr. lwp_steps.
  rewrite <- (each_fmap (fun q => (q, id)) (fun e => _ ← unlinkEdge e.1 e.2; mret tt)).
  eapply lwp_mono; [by eapply (lwp_unlink_all _ _ k1)|]. intros [] k2 [Hi2 Hu2].
  assert (Hu := unlinked_trans _ _ _ _ _ Hu1 Hu2).
  assert (Hin1 : forall a b, (a, b) ∈ ((fun w => (id, w)) <$> succs) <-> a = id /\ edge k id b).
  { intros a b. rewrite list_elem_of_fmap. split; [intros (w & [= -> ->] & ?%Hsucc); done|]. intros [-> ?%Hsucc]. by exists b. }
  assert (Hedge : forall a b, edge k2 a b <-> edge k a b /\ a <> id /\ b <> id).
  { intros a b. unfold edge. rewrite (ul_pred _ _ _ Hu2), (ul_pred _ _ _ Hu1). case_decide as E2.
    - apply list_elem_of_fmap in E2 as (q & [= -> ->] & _). split; [by intros [? ?]|]. by intros (_ & _ & []).
    - case_decide as E1; [apply Hin1 in E1 as [-> _]; split; [by intros [? ?]|by intros (_ & [] & _)]|].
      split; [|by intros [? _]]. intros Hab. split_and!; [done|..].
      + intros ->. by apply E1, Hin1.
      + intros ->. apply E2, list_elem_of_fmap. exists a. split; [done|]. rewrite Hpr. apply elem_preds_of.
        by rewrite (ul_pred _ _ _ Hu1), decide_False. }
  assert (Hbare := ul_bare _ _ _ Hu).
  assert (exists h2, k_node k2 !! id = Some h2 /\ bare h2 = bare h) as (h2 & Hh2 & E2).
  { specialize (Hbare id). rewrite Hh in Hbare. destruct (k_node k2 !! id) as [h2|]; [|done]. exists h2. split; [done|]. exact (inj Some _ _ Hbare). }
  assert (Ek : h_kind h2 = h_kind h) by exact (f_equal h_kind E2).
  lwp_steps. assert (Hz := ki_z Hi2).
  eapply lwp_mono; [apply (lwp_deleteNodeKeys id h2 k2); [apply (ki_graph Hi2)|done|..]|].
  - intros a b Hab. by apply Hedge.
  - done.
  - intros kind i. change (delete (h_kind h, id) (k_ready k2) !! (kind, i) = if decide (i = id) then None else k_ready k2 !! (kind, i)).
    rewrite <- Ek. case_decide as E; [subst; by apply (ready_delete h2 id kind Hz)|]. apply lookup_delete_ne. congruence.
  - done.
  - done.
  - intros f. change (stat (hincr "Total" (-1) (hincr (bucketField (h_phase h) (h_status h)) (-1) (k_stats k2))) f = (stat (k_stats k2) f - counted f id h2)%Z).
    rewrite !stat_hincr. unfold counted. rewrite (bare_phase _ _ E2), (bare_status _ _ E2).
    destruct (bucket_name (h_phase h) (h_status h)). repeat case_bool_decide; subst; simpl; try done; lia.
  - intros [] k3 Hdr.
    assert (Hfree : forall a b, edge k2 a b -> a <> id /\ b <> id) by (intros a b Hab; by apply Hedge).
    assert (Hi3 : kinv None None (fun i => Y i \/ edge k id i) k3).
    { apply (dropped_kinv Hi2 Hdr Hfree). intros i Hne [[?|Hin]|Hin]; [by left|right|].
      - apply list_elem_of_fmap in Hin as ([a b] & -> & [_ ?]%Hin1). done.
      - apply list_elem_of_fmap in Hin as ([a b] & -> & (q & [= -> ->] & _)%list_elem_of_fmap). done. }
    assert (Ha3 : adv k k3) by (etrans; [apply Hu|by eapply (dropped_adv Hdr)]).
    assert (Hn3 : forall i, is_node k3 i <-> is_node k i /\ i <> id).
    { intros i. unfold is_node. rewrite (dr_node _ _ _ _ Hdr), lookup_delete_is_Some. specialize (Hbare i).
      destruct (k_node k2 !! i), (k_node k !! i); try done; unfold is_Some; naive_solver. }
    assert (He3 : forall a b, edge k3 a b <-> edge k a b /\ a <> id /\ b <> id).
    { intros a b. rewrite <- Hedge. unfold edge. assert (k_pred k3 = k_pred k2) as -> by (by rewrite (dr_rest _ _ _ _ Hdr)). done. }
    assert (Hat3 : forall i x, k_node k3 !! i = Some x -> exists y, k_node k !! i = Some y /\ bare x = bare y).
    { intros i x [_ Hx]%(dropped_old Hdr). by apply (bare_same_at k k2). }
    case_bool_decide as Hdet.
    + eapply lwp_mono; [by eapply lwp_settle_all|]. intros [] k4 (Hi4 & Hv4 & _). split.
      * eapply kinv_weaken; [exact Hi4|]. intros i x _ [[?|He] Hb]; [by left; left|]. left. right. split; [done|]. subst policy.
        destruct (Hb (proj2 (Hsucc i) He)) as (y & Hy & Hby). destruct (Hat3 i y Hy) as (z & Hz' & E). exists z. split; [done|].
        unfold is_busy in *. by rewrite <- (bare_phase _ _ E).
      * etrans; [done|by apply evolve_adv].
      * intros i. rewrite <- Hn3. unfold is_node. apply (evolve_node_dom k3 k4 i Hv4).
      * intros a b. rewrite <- He3. unfold edge. apply (evolve_pred_dom k3 k4 _ Hv4).
      * by subst.
    + lwp_steps. split; try done.
      * eapply kinv_weaken; [exact Hi3|]. intros i x Hx [?|He]; [by left; left|]. destruct policy; try done.
        -- rewrite (Hrej eq_refl) in Hsucc. by apply Hsucc, not_elem_of_nil in He.
        -- right. destruct (Hat3 i x Hx) as (y & Hy & E). assert (Hd := Hfail eq_refl i y (proj2 (Hsucc i) He) Hy).
           unfold rule_ok. rewrite (bare_phase _ _ E). apply bool_decide_eq_true in Hd. by rewrite Hd.
        -- left. right. done.
      * intros -> b He. rewrite (Hrej eq_refl) in Hsucc. by apply Hsucc, not_elem_of_nil in He.
Qed.

Lemma lwp_scriptRemoveNode Y id policy k :
  kinv None None Y k ->
  wp (scriptRemoveNode id policy : L C unit)
    (fun _ k' => removed id policy Y k k' /\ exists h, k_node k !! id = Some h /\ h_phase h <> PhaseClaimed) (refused k) k.
Proof.
  intros Hi. unfold scriptRemoveNode. apply lwp_bind, lwp_nowMs. intros now. lwp_steps.
  destruct (k_node k !! id) as [h|] eqn:Hh; [|lwp_steps; by apply refused_reply].
  case_bool_decide as Hp; [lwp_steps; by apply refused_reply|]. lwp_steps. apply lwp_smembers. intros succs Hs.
  assert (Hsucc : forall w, w ∈ succs <-> edge k id w).
  { intros w. rewrite Hs, elem_succs_of. apply (gi_succ k (ki_graph Hi)). }
  assert (Hgo : (policy = CascadeReject -> succs = []) ->
    wp ((if bool_decide (policy = CascadeFail) then
           each succs (fun w => terminate w StatusError ReasonRemoved (terminalMessage ReasonRemoved) now)
         else mret tt) ;;
        h1 ← (n ← read (fun k => k_node k !! id); need n);
        each succs (fun w => _ ← unlinkEdge id w; mret tt) ;;
        preds ← hkeys_pred id;
        each preds (fun q => _ ← unlinkEdge q id; mret tt) ;;
        write (fun k => k <| k_ready ::= delete (h_kind h1, id) |> <| k_sched ::= delete id |> <| k_leases ::= delete id |>) ;;
        adjustBucket (h_phase h) (h_status h1) (-1) ;;
        write (fun k => k <| k_stats ::= hincr "Total" (-1) |>) ;;
        deleteNodeKeys id ;;
        if bool_decide (policy = CascadeDetach) then settle_all succs now else mret tt : L C unit)
      (fun _ k' => removed id policy Y k k') never k).
  { intros Hrej. apply lwp_bind. case_bool_decide as Hf.
    - eapply lwp_mono; [by apply (lwp_fail_succs Y id h); [| |intros w ?; apply Hsucc]|].
      intros [] k1 (Hi1 & Hv1 & Hh1 & Hd1). apply lwp_bind, lwp_bind, lwp_read. eapply lwp_need; [exact Hh1|].
      assert (Hs1 : forall w, w ∈ succs <-> edge k1 id w).
      { intros w. rewrite Hsucc. unfold edge. by rewrite (evolve_pred_dom k k1 _ Hv1). }
      eapply lwp_mono; [by apply (lwp_take_out Y id h now succs policy k1)|]. intros [] k2 [Hi2 Ha2 Hn2 He2 Hp2].
      split.
      + eapply kinv_weaken; [exact Hi2|]. subst policy. intros i x _ [?|[_ []]]. by left; left.
      + etrans; [by apply evolve_adv|done].
      + intros i. rewrite Hn2. unfold is_node. by rewrite (evolve_node_dom k k1 i Hv1).
      + intros a b. rewrite He2. unfold edge. by rewrite (evolve_pred_dom k k1 _ Hv1).
      + by subst.
    - apply lwp_ret, lwp_bind, lwp_bind, lwp_read. eapply lwp_need; [exact Hh|]. by apply (lwp_take_out Y id h now succs policy k). }
  assert (Hdone : forall m : L C unit, wp m (fun _ k' => removed id policy Y k k') never k ->
    wp m (fun _ k' => removed id policy Y k k' /\ exists h0, Some h = Some h0 /\ h_phase h0 <> PhaseClaimed) (refused k) k).
  { intros m Hm. apply lwp_never. eapply lwp_mono; [exact Hm|]. intros [] k' ?. split; [done|]. by exists h. }
  destruct succs as [|w ws]; [by apply Hdone, Hgo|]. destruct policy; [lwp_steps; by apply refused_reply|by apply Hdone, Hgo..].
Qed.

(** ** Cancelling *)

Lemma lwp_cancel_all Y ids now k :
  kinv None None Y k ->
  wp (each ids (cancel_one now) : L C unit)
    (fun _ k' => kinv None None Y k' /\ evolve k k' /\ forall i h, i ∈ ids -> k_node k' !! i = Some h -> done h = true) never k.
Proof.
  intros Hi. eapply lwp_mono; [apply (lwp_each _ (fun l k1 => kinv None None Y k1 /\ evolve k k1 /\
    forall i h, i ∈ ids -> k_node k1 !! i = Some h -> i ∈ l \/ done h = true))|].
  - split_and!; try done. by left.
  - intros id l k1 (Hi1 & Hv1 & Hd1). unfold cancel_one. lwp_steps.
    assert (Hskip : (forall h, k_node k1 !! id = Some h -> done h = true) -> kinv None None Y k1 /\ evolve k k1 /\
      forall i h, i ∈ ids -> k_node k1 !! i = Some h -> i ∈ l \/ done h = true).
    { intros Hdone. split_and!; try done. intros i h Hin Hh. destruct (Hd1 i h Hin Hh) as [[->|?]%elem_of_cons|?]; [right|by left|by right]. auto. }
    destruct (k_node k1 !! id) as [h|] eqn:Hh; [|by lwp_steps; apply Hskip].
    case_bool_decide as Hp; [lwp_steps; apply Hskip; intros x [= <-]; by apply bool_decide_eq_true|].
    eapply lwp_mono; [apply (lwp_terminate None Y Y id StatusError ReasonCancelled _ now k1 Hi1); [by left|done|done]|].
    intros [] k2 (Hi2 & Hv2 & Hd2 & _). split_and!; [done|by etrans|]. intros i x Hin Hx.
    destruct (decide (i = id)) as [->|Hne]; [right; by apply Hd2|]. destruct (ev_back _ _ Hv2 i x Hx) as (y & Hy & Kp).
    destruct (Hd1 i y Hin Hy) as [[?|?]%elem_of_cons|?]; [done|by left|right; by apply (kp_done _ _ Kp)].
  - intros [] k' (? & ? & Hd). split_and!; try done. intros i h Hin Hh. by destruct (Hd i h Hin Hh) as [?%not_elem_of_nil|?].
Qed.

Lemma lwp_scriptCancelNodes Y ids k :
  kinv None None Y k ->
  wp (scriptCancelNodes ids : L C unit)
    (fun _ k' => kinv None None Y k' /\ evolve k k' /\ forall i, i ∈ ids -> exists h, k_node k' !! i = Some h /\ done h = true) (refused k) k.
Proof.
  intros Hi. unfold scriptCancelNodes. lwp_steps. destruct (filter _ ids) as [|x l] eqn:Hf; [|lwp_steps; by apply refused_reply].
  apply lwp_bind, lwp_nowMs. intros now. apply lwp_never. eapply lwp_mono; [by apply (lwp_cancel_all Y)|].
  intros [] k' (? & Hv & Hd). split_and!; try done. intros i Hin.
  assert (is_Some (k_node k !! i)) as [h Hh].
  { destruct (exists_node k i) eqn:E; [by apply bool_decide_eq_true in E|]. assert (i ∈ filter (fun id => exists_node k id = false) ids) as Hin'.
    { by apply list_elem_of_filter. } rewrite Hf in Hin'. by apply not_elem_of_nil in Hin'. }
  destruct (ev_forth _ _ Hv i h Hh) as (h' & Hh' & _). exists h'. split; [done|]. by apply (Hd i).
Qed.

Lemma lwp_scriptCancelScope Y k :
  kinv None None Y k ->
  wp (scriptCancelScope : L C unit)
    (fun _ k' => kinv None None Y k' /\ evolve k k' /\ forall i h, k_node k' !! i = Some h -> done h = true) never k.
Proof.
  intros Hi. unfold scriptCancelScope. apply lwp_bind, lwp_nowMs. intros now. lwp_steps.
  eapply lwp_mono; [by apply (lwp_cancel_all Y)|]. intros [] k' (? & Hv & Hd). split_and!; try done. intros i h Hh.
  apply (Hd i); [|done]. unfold idx_of. rewrite merge_sort_Permutation. apply elem_of_elements, (gi_idx k (ki_graph Hi)).
  destruct (ev_back _ _ Hv i h Hh) as (x & ? & _). by eexists.
Qed.

End GraphOps.
