(* ===== verification/RedisRun.v ===== *)
(** * Clients of one scope

    Every method of the Redis store is a sequence of commands, each atomic, so
    whatever the clients of a scope do together is a sequence of commands on its
    keys.  [reached]: the keys such a sequence leads to, the leases it handed
    out, and the nodes whose phase it may have left out of step with their
    trigger rule. *)
From S2P Require Import Prelude Types GoText Config Scope MapSum RedisData RedisScripts RedisInv RedisLease RedisGraph RedisGraphOps RedisStore.

(** The commands that write, [scriptCollectIfEligible] apart. *)
Inductive cmd :=
| DoAddNodes (p : string) (maxBatch : Z) (specs : list lspec)
| DoAddEdges (edges : list (string * string))
| DoRemoveEdges (edges : list (string * string))
| DoRemoveNode (id : string) (policy : CascadePolicy)
| DoCancelNodes (ids : list string)
| DoCancelScope
| DoClaim (kinds : list string) (maxN leaseMs sweepBatch maxInFlight : Z) (workerId : string)
| DoComplete (id : string) (epoch : Z) (success : bool) (reason : Reason) (message : string) (result : bytes) (payloadCap : Z)
| DoExtend (id : string) (epoch leaseMs : Z)
| DoSweep (limit : Z)
| DoSetConfig (cfg : ScopeConfig)
| DoSeal.

(** No specification depends on itself, which [NodeSpec.Validate] sees to. *)
Definition valid_cmd (c : cmd) : Prop := match c with DoAddNodes _ _ specs => loopless specs | _ => True end.

Section Run.
Context {C : Type} `{!RedisServer C}.

(** The leases it hands out. *)
Definition run_cmd (c : cmd) : L C (list lgrant) :=
  match c with
  | DoAddNodes p maxBatch specs => scriptAddNodes p maxBatch specs ;; mret []
  | DoAddEdges edges => scriptAddEdges edges ;; mret []
  | DoRemoveEdges edges => scriptRemoveEdges edges ;; mret []
  | DoRemoveNode id policy => scriptRemoveNode id policy ;; mret []
  | DoCancelNodes ids => scriptCancelNodes ids ;; mret []
  | DoCancelScope => scriptCancelScope ;; mret []
  | DoClaim kinds maxN leaseMs sweepBatch maxInFlight w => scriptClaim kinds maxN leaseMs sweepBatch maxInFlight w
  | DoComplete id epoch success reason message result cap => _ ← scriptComplete id epoch success reason message result cap; mret []
  | DoExtend id epoch leaseMs => _ ← scriptExtend id epoch leaseMs; mret []
  | DoSweep limit => _ ← scriptSweep limit; mret []
  | DoSetConfig cfg => write (fun k => k <| k_cfg ::= union (cfgToHash cfg) |>) ;; mret []
  | DoSeal => write (fun k => k <| k_sealed := true |>) ;; mret []
  end.

(** The nodes a command may leave in a phase their rule does not call for:
    targets of changed edges that are leased or waiting to be tried again, of
    edges removed by a call that failed later, and the successors of a node
    removed under an unknown policy. *)
Definition excuse (c : cmd) (k : keys) (ok : bool) (i : string) : Prop :=
  match c with
  | DoAddNodes _ _ specs => ok = true /\ i ∈ ls_id <$> specs /\ busy_at k i
  | DoAddEdges edges => ok = true /\ i ∈ edges.*2 /\ busy_at k i
  | DoRemoveEdges edges => i ∈ edges.*2 /\ (ok = true -> busy_at k i)
  | DoRemoveNode id policy => ok = true /\ edge k id i /\ orphan policy k i
  | _ => False
  end.

Definition answered {A : Type} (r : A + lerror) : bool := match r with inl _ => true | inr _ => false end.

Inductive reached : (string -> Prop) -> list lgrant -> keys -> Prop :=
| reached_nil : reached (fun _ => False) [] noKeys
| reached_cmd Y gs k c s s' k' r :
    reached Y gs k -> valid_cmd c -> run_script (run_cmd c) s k = (s', k', r) ->
    reached (fun i => Y i \/ excuse c k (answered r) i) (gs ++ match r with inl (gs', _) => gs' | inr _ => [] end) k'.

(** ** One command *)

Lemma kinv_none : kinv None None (fun _ => False) noKeys.
Proof.
  split.
  - split; try done; try (intros; by rewrite ?lookup_empty in *).
    + intros i. split; by intros [? ?].
    + intros i. split; [set_solver|by intros [? ?]].
    + intros a b. split; [set_solver|by intros [? ?]].
  - intros a b ha He. done.
  - split; try done; [by left|by left|by intros ? ? [? ?]].
  - intros f Hf. symmetry. apply msum_empty.
  - intros i h Hh. done.
  - split; [done|]. intros i ev Hev. done.
Qed.

(** New epochs, above those of the keys before, and recorded in those after. *)
Definition new_leases (k k' : keys) (gs : list lgrant) : Prop :=
  NoDup (lg_id <$> gs) /\ forall g, g ∈ gs -> (epoch_of k (lg_id g) < lg_epoch g)%Z /\ (lg_epoch g <= epoch_of k' (lg_id g))%Z.

Lemma no_leases k k' : new_leases k k' [].
Proof. split; [apply NoDup_nil_2|]. by intros g ?%not_elem_of_nil. Qed.

Definition after (Y : string -> Prop) (c : cmd) (k : keys) (ok : bool) (k' : keys) : Prop :=
  kinv None None (fun i => Y i \/ excuse c k ok i) k' /\ adv k k'.

Lemma after_evolve Y c k ok k' : kinv None None Y k' -> evolve k k' -> after Y c k ok k'.
Proof. intros Hi Hv. split; [|by apply evolve_adv]. eapply kinv_weaken; [exact Hi|]. by left; left. Qed.

Lemma after_same Y c k ok : kinv None None Y k -> after Y c k ok k.
Proof. intros Hi. by apply after_evolve. Qed.

(** Other ranks only. *)
Lemma restored_after Y c k k' : kinv None None Y k -> kinv None None anyid k' -> restored k k' -> after Y c k false k'.
Proof.
  intros Hi Hi' [[o Ho] Hst _ _]. split.
  - destruct Hi' as [Hg Hl Hz Hs _ He]. split; try done. intros i h. rewrite Ho. intros (x & Hx & ->)%fmap_Some.
    destruct (ki_settled Hi i x Hx); [by left; left|right]. done.
  - assert (Hf : floor k' = floor k) by apply Hst. split; [by rewrite Hf|]. intros i. unfold epoch_of. rewrite Ho, Hf. by destruct (k_node k !! i).
Qed.

Lemma kinv_settings Y k k' :
  kinv None None Y k -> k' = k <| k_cfg := k_cfg k' |> <| k_sealed := k_sealed k' |> -> kinv None None Y k' /\ adv k k'.
Proof. intros [[] Hl [] Hs Hy He] ->. split; [by split|by split]. Qed.

Lemma claim_leases n kinds leaseMs maxInFlight w now Y k k1 k' gs :
  evolve k k1 -> grants_ok n kinds leaseMs maxInFlight w now Y k1 k' gs -> new_leases k k' gs.
Proof.
  intros Hv [Hn He _ _ _ _]. split; [done|]. intros g Hin.
  destruct (He g Hin) as (h & kd & v & Hh & _ & _ & _ & [_ [E1 E2] _ _ _] & Hn' & _).
  pose proof (proj2 (evolve_adv k k1 Hv) (lg_id g)) as Ha. unfold epoch_of in *. rewrite Hh in Ha. rewrite Hn'. lia.
Qed.

Lemma refused_after Y c k e k' : kinv None None Y k -> refused k e k' -> after Y c k false k' /\ coded e.
Proof. intros Hi [-> Hc]. split; [by apply after_same|done]. Qed.

Lemma undone_after Y c k e k' : kinv None None Y k -> undone k e k' -> after Y c k false k' /\ coded e.
Proof. intros Hi [[Hr Hi'] Hc]. split; [by apply restored_after|done]. Qed.

Lemma lwp_quiet {A : Type} Y c k (m : L C A) (Q : A -> keys -> Prop) (E : lerror -> keys -> Prop) :
  wp m Q E k -> (forall a k', Q a k' -> after Y c k true k') -> (forall e k', E e k' -> after Y c k false k' /\ coded e) ->
  wp (_ ← m; mret [] : L C (list lgrant)) (fun gs k' => after Y c k true k' /\ new_leases k k' gs) (fun e k' => after Y c k false k' /\ coded e) k.
Proof.
  intros Hm HQ HE. apply lwp_bind. eapply lwp_conseq; [exact Hm| |exact HE]. intros a k' Ha. lwp_steps. split; [by eapply HQ|apply no_leases].
Qed.

Lemma lwp_run_cmd Y c k :
  kinv None None Y k -> valid_cmd c ->
  wp (run_cmd c) (fun gs k' => after Y c k true k' /\ new_leases k k' gs) (fun e k' => after Y c k false k' /\ coded e) k.
Proof.
  intros Hi Hc. destruct c as [p mb specs|edges|edges|id policy|ids| |kinds n ms sb mif w|id ep ok rs msg res cap|id ep ms|limit|cfg|]; cbn [run_cmd].
  - eapply lwp_quiet; [by apply (lwp_scriptAddNodes Y)| |intros e k'; by apply undone_after].
    intros [] k' ([Hi' Ha] & _). split; [|done]. eapply kinv_weaken; [exact Hi'|]. intros i h _ [?|[? ?]]; left; [by left|by right].
  - eapply lwp_quiet; [by apply (lwp_scriptAddEdges Y)| |intros e k'; by apply undone_after].
    intros [] k' ([Hi' Ha] & _). split; [|done]. eapply kinv_weaken; [exact Hi'|]. intros i h _ [?|[? ?]]; left; [by left|by right].
  - eapply lwp_quiet; [by apply (lwp_scriptRemoveEdges Y)| |].
    + intros [] k' ([Hi' Ha] & _). split; [|done]. eapply kinv_weaken; [exact Hi'|]. intros i h _ [?|[? ?]]; left; [by left|by right].
    + intros e k' (Hi' & Ha & ?). split; [split; [|done]|done]. eapply kinv_weaken; [exact Hi'|].
      intros i h _ [?|?]; left; [by left|by right].
  - eapply lwp_quiet; [by apply (lwp_scriptRemoveNode Y)| |intros e k'; by apply refused_after].
    intros [] k' ([Hi' Ha _ _ _] & _). split; [|done]. eapply kinv_weaken; [exact Hi'|]. intros i h _ [?|[? ?]]; left; [by left|by right].
  - eapply lwp_quiet; [by apply (lwp_scriptCancelNodes Y)| |intros e k'; by apply refused_after].
    intros [] k' (? & ? & _). by apply after_evolve.
  - eapply lwp_quiet; [by apply (lwp_scriptCancelScope Y)| |done]. intros [] k' (? & ? & _). by apply after_evolve.
  - eapply lwp_conseq; [by apply (lwp_scriptClaim Y)| |done]. intros gs k' (Hi' & Hv & k1 & now & l & _ & Hv1 & _ & _ & Hg & _).
    split; [by apply after_evolve|by eapply claim_leases].
  - eapply lwp_quiet; [by apply (lwp_scriptComplete Y)| |intros e k'; by apply refused_after].
    intros r k' (Hi' & Ha & _). split; [|done]. eapply kinv_weaken; [exact Hi'|]. by left; left.
  - eapply lwp_quiet; [by apply (lwp_scriptExtend Y)| |intros e k'; by apply refused_after]. intros r k' (? & ? & _). by apply after_evolve.
  - eapply lwp_quiet; [by apply (lwp_scriptSweep Y)| |done]. intros r k' (? & ? & _). by apply after_evolve.
  - lwp_steps. split; [|apply no_leases]. destruct (kinv_settings Y k (k <| k_cfg ::= union (cfgToHash cfg) |>) Hi eq_refl) as [Hi' Ha].
    split; [|done]. eapply kinv_weaken; [exact Hi'|]. by left; left.
  - lwp_steps. split; [|apply no_leases]. destruct (kinv_settings Y k (k <| k_sealed := true |>) Hi eq_refl) as [Hi' Ha].
    split; [|done]. eapply kinv_weaken; [exact Hi'|]. by left; left.
Qed.

Lemma run_script_wp {A : Type} (m : L C A) Q E k s :
  wp m Q E k -> match run_script m s k with (_, k', inl (a, _)) => Q a k' | (_, k', inr e) => E e k' end.
Proof. intros Hm. unfold run_script. specialize (Hm (mkLst s k []) eq_refl). by destruct (m _) as [t [a|e]]. Qed.

(** ** Every sequence of commands *)

Definition lease_key (g : lgrant) : string * Z := (lg_id g, lg_epoch g).

Record run_ok (Y : string -> Prop) (gs : list lgrant) (k : keys) : Prop := {
  ro_inv : kinv None None Y k;
  ro_keys : NoDup (lease_key <$> gs);
  ro_seen : forall g, g ∈ gs -> (lg_epoch g <= epoch_of k (lg_id g))%Z
}.

Lemma run_ok_step Y Y' gs gs' k k' :
  run_ok Y gs k -> kinv None None Y' k' -> adv k k' -> new_leases k k' gs' -> run_ok Y' (gs ++ gs') k'.
Proof.
  intros [_ Hk Hs] Hi' [_ Ha] [Hn Hnew]. split; [done|..].
  - rewrite fmap_app. apply NoDup_app. split_and!; [done| |].
    + intros e (g & -> & Hg)%list_elem_of_fmap (g' & E & Hg')%list_elem_of_fmap. injection E as Eid Eep.
      specialize (Hs g Hg). destruct (Hnew g' Hg') as [Hlt _]. rewrite Eid in Hs. lia.
    + apply (NoDup_fmap_1 fst). by rewrite <- list_fmap_compose.
  - intros g [Hg|Hg]%elem_of_app; [|by apply Hnew]. specialize (Hs g Hg). specialize (Ha (lg_id g)). lia.
Qed.

Lemma reached_ok Y gs k : reached Y gs k -> run_ok Y gs k.
Proof.
  induction 1 as [|Y gs k c s s' k' r _ IH Hc Hrun].
  - split; [apply kinv_none|apply NoDup_nil_2|by intros g ?%not_elem_of_nil].
  - pose proof (run_script_wp _ _ _ k s (lwp_run_cmd Y c k (ro_inv _ _ _ IH) Hc)) as H. rewrite Hrun in H.
    destruct r as [[gs' ef]|e]; destruct H as [[Hi' Ha] Hg]; cbn [answered].
    + by eapply run_ok_step.
    + eapply run_ok_step; [done|done|done|apply no_leases].
Qed.

End Run.

(** * The store's methods are sequences of commands

    Each method of the Redis store leaves every scope where some sequence of
    commands leads, whatever the server does with the commands it sends: answer,
    execute more than once, or lose; and no script breaks off. *)

(** ** Error replies *)

(** The sentinel each code stands for. *)
Definition code_means (code : string) : option Sentinel :=
  match scriptSentinels code with
  | Some s => Some s
  | None =>
    if bool_decide (code ∈ ["CYCLE"; "CYCLESELF"]%string) then Some ErrCycle
    else if bool_decide (code = "PAYLOADCAP"%string) then Some ErrPayloadTooLarge
    else if bool_decide (code = "BATCHSIZE"%string) then Some ErrInvalidArgument
    else None
  end.

Lemma dwerr_cons code x args : exists rest, dwerr (code :: x :: args) = ("DWERR " ++ code ++ " " ++ rest)%string.
Proof. by exists (String.concat " " (x :: args)). Qed.

Lemma code_mapped scope code x args :
  code ∈ script_codes -> unwrap <$> mapScriptErr scope (dwerr (code :: x :: args)) = code_means code.
Proof.
  intros Hc. destruct (dwerr_cons code x args) as [rest ->]. unfold script_codes in Hc.
  repeat (apply elem_of_cons in Hc as [->|Hc]; [vm_compute; reflexivity|]). by apply not_elem_of_nil in Hc.
Qed.

Lemma coded_domain scope e : coded e -> exists err, script_error scope e = Domain err.
Proof.
  intros (code & x & args & -> & Hc). cbn [script_error]. pose proof (code_mapped scope code x args Hc) as H.
  destruct (mapScriptErr scope _) as [err|]; [by exists err|]. exfalso. unfold script_codes in Hc.
  repeat (apply elem_of_cons in Hc as [->|Hc]; [discriminate H|]). by apply not_elem_of_nil in Hc.
Qed.

Section Clients.
Context {C : Type} `{!RedisServer C} `{!Json} (cfg0 : settings).
Implicit Types (s : rst C).

Definition scope_ok (k : keys) : Prop := exists Y gs, reached (C := C) Y gs k.
Definition store_ok (s : rst C) : Prop := forall scope, scope_ok (keys_of s scope).

(** ** Commands *)

(** A script that leads from reached keys to reached keys, and whose errors are
    replies with a code. *)
Definition fine {A : Type} (m : L C A) : Prop := forall c k, scope_ok k ->
  scope_ok (run_script m c k).1.2 /\ forall e, (run_script m c k).2 = inr e -> coded e.

Lemma fine_cmd {A : Type} (m : L C A) (cm : cmd) :
  valid_cmd cm -> (forall c k, (run_script m c k).1 = (run_script (run_cmd cm) c k).1) ->
  (forall c k e, (run_script m c k).2 = inr e -> (run_script (run_cmd cm) c k).2 = inr e) -> fine m.
Proof.
  intros Hv H1 H2 c k (Y & gs & Hr).
  pose proof (run_script_wp _ _ _ k c (lwp_run_cmd Y cm k (ro_inv _ _ _ (reached_ok Y gs k Hr)) Hv)) as Hw.
  pose proof (fun c' k' r => reached_cmd Y gs k cm c c' k' r Hr Hv) as Hs. specialize (H1 c k). specialize (H2 c k).
  destruct (run_script (run_cmd cm) c k) as [[c' k'] r]. rewrite H1. split; [eexists _, _; by eapply Hs|].
  intros e He. specialize (H2 e He). simpl in H2. subst r. apply Hw.
Qed.

Lemma fine_quiet {A : Type} (m : L C A) (cm : cmd) :
  valid_cmd cm -> run_cmd cm = (_ ← m; mret []) -> fine m.
Proof.
  intros Hv E. apply (fine_cmd m cm Hv); rewrite E; intros c k; unfold run_script, mbind, L_bind; destruct (m _) as [t [a|e]]; try done;
    by intros e0 [= <-].
Qed.

Lemma fine_same (m : L C (list lgrant)) (cm : cmd) : valid_cmd cm -> run_cmd cm = m -> fine m.
Proof. intros Hv E. apply (fine_cmd m cm Hv); rewrite E; done. Qed.

Lemma fine_look {A : Type} (m : L C A) :
  (forall k, wp m (fun _ k' => k' = k) (refused k) k) -> fine m.
Proof.
  intros Hm c k Hk. pose proof (run_script_wp m _ _ k c (Hm k)) as Hw. destruct (run_script m c k) as [[c' k'] [[a ef]|e]].
  - by subst.
  - destruct Hw as [-> He]. split; [done|]. by intros e' [= <-].
Qed.

Lemma keys_of_execute {A : Type} scope scope' (m : L C A) s :
  keys_of (execute scope m s).1 scope' = if decide (scope' = scope) then (run_script m (r_c s) (keys_of s scope)).1.2 else keys_of s scope'.
Proof.
  unfold execute. destruct (run_script m (r_c s) (keys_of s scope)) as [[c k] r]. unfold keys_of. simpl. case_decide as E.
  - subst. by rewrite lookup_insert_eq.
  - by rewrite lookup_insert_ne.
Qed.

Lemma execute_ok {A : Type} scope (m : L C A) s :
  fine m -> store_ok s -> store_ok (execute scope m s).1 /\ forall e, (execute scope m s).2 = inr e -> coded e.
Proof.
  intros Hm Hs. destruct (Hm (r_c s) (keys_of s scope) (Hs scope)) as [Hk He]. split.
  - intros scope'. rewrite keys_of_execute. by case_decide.
  - intros e. unfold execute. intros E. apply He. by destruct (run_script m (r_c s) (keys_of s scope)) as [[c k] r].
Qed.

Lemma execute_n_ok {A : Type} n scope (m : L C A) s : fine m -> store_ok s -> store_ok (execute_n n scope m s).
Proof. intros Hm. revert s. induction n as [|n IH]; intros s Hs; [done|]. cbn. apply IH. by apply execute_ok. Qed.

Definition reply_ok {A : Type} (r : A + rerror) : Prop := match r with inr (Reply e) => coded e | _ => True end.
Definition unbroken {A : Type} (r : A + rerror) : Prop := match r with inr (Reply e) => False | _ => True end.

Lemma command_ok {A : Type} scope (m : L C A) s :
  fine m -> store_ok s -> store_ok (command scope m s).1 /\ reply_ok (command scope m s).2.
Proof.
  intros Hm Hs. unfold command. destruct (rs_delivery (r_c s)) as [[n|n] c].
  - assert (Hn : store_ok (execute_n n scope m (s <| r_c := c |>))) by (by apply execute_n_ok).
    destruct (execute_ok scope m _ Hm Hn) as [H1 H2]. destruct (execute scope m _) as [s' [a|e]]; [done|]. split; [done|]. by apply H2.
  - split; [by apply execute_n_ok|done].
Qed.

(** ** Methods *)

(** From a store all of whose scopes are reached to another, without a script
    that breaks off. *)
Definition sound {A : Type} (m : R C A) : Prop := forall s, store_ok s -> store_ok (m s).1 /\ unbroken (m s).2.

Lemma sound_ret {A : Type} (a : A) : sound (mret a).
Proof. by intros s Hs. Qed.

Lemma sound_bind {A B : Type} (m : R C A) (f : A -> R C B) : sound m -> (forall a, sound (f a)) -> sound (m ≫= f).
Proof.
  intros Hm Hf s Hs. unfold mbind, R_bind. destruct (Hm s Hs) as [H1 H2]. destruct (m s) as [s' [a|e]]; [by apply Hf|]. split; [done|by destruct e].
Qed.

Lemma sound_domain {A : Type} (e : error) : sound (throw (Domain e) : R C A).
Proof. by intros s Hs. Qed.

Lemma sound_closed {A : Type} (m : R C A) : sound m -> sound (unless_closed m).
Proof. intros Hm. apply sound_bind; [by intros s Hs|]. intros []; [apply sound_domain|done]. Qed.

Lemma sound_checked {A : Type} (e : option error) (m : R C A) : (e = None -> sound m) -> sound (must_be_none e m).
Proof. destruct e; [intros _; apply sound_domain|auto]. Qed.

Lemma sound_register scope : sound (registerScope scope : R C unit).
Proof. intros s Hs. unfold registerScope. destruct (rs_delivery (r_c s)) as [[n|[|n]] c]; done. Qed.

Lemma sound_command {A : Type} scope (m : L C A) :
  fine m -> (forall c k, exists a, (run_script m c k).2 = inl a) -> sound (command scope m).
Proof.
  intros Hm Hok s Hs. destruct (command_ok scope m s Hm Hs) as [H1 _]. split; [done|]. unfold command.
  destruct (rs_delivery (r_c s)) as [[n|n] c]; [|done]. unfold execute.
  destruct (Hok (r_c (execute_n n scope m (s <| r_c := c |>))) (keys_of (execute_n n scope m (s <| r_c := c |>)) scope)) as [a Ha].
  by destruct (run_script m _ _) as [[c' k'] r]; simpl in Ha; subst r.
Qed.

Lemma sound_query {A : Type} scope (f : keys -> A) : sound (query scope f).
Proof.
  apply sound_bind; [|intros; apply sound_ret]. apply sound_command; [|by intros; eexists].
  apply fine_look. intros k. by apply lwp_read.
Qed.

Lemma sound_mapped {A : Type} scope (m : L C A) : fine m -> sound (mapped scope (command scope m)).
Proof.
  intros Hm s Hs. destruct (command_ok scope m s Hm Hs) as [H1 H2]. unfold mapped. destruct (command scope m s) as [s' [a|[]]]; try done.
  split; [done|]. simpl in *. by destruct (coded_domain scope e H2) as [err ->].
Qed.

Lemma sound_script {A : Type} scope (m : L C A) : fine m -> sound (runScript scope m).
Proof. intros Hm. apply sound_bind; [by apply sound_mapped|intros; apply sound_ret]. Qed.

Lemma sound_config scope : sound (ScopeConfig_ cfg0 scope).
Proof. apply sound_closed, sound_bind; [apply sound_query|intros; apply sound_ret]. Qed.

Lemma sound_resolved scope : sound (resolvedConfig cfg0 scope).
Proof. apply sound_bind; [apply sound_config|intros; apply sound_ret]. Qed.

(** ** Reads *)

Lemma lwp_getNode id k : wp (scriptGetNode id : L C _) (fun _ k' => k' = k) (refused k) k.
Proof. unfold scriptGetNode. lwp_steps. destruct (k_node k !! id); lwp_steps; [done|by apply refused_reply]. Qed.

Lemma lwp_inspect id k : wp (scriptInspect id : L C _) (fun _ k' => k' = k) (refused k) k.
Proof.
  unfold scriptInspect. lwp_steps. destruct (k_node k !! id); [|lwp_steps; by apply refused_reply].
  unfold hkeys_pred, smembers_succ. by lwp_steps.
Qed.

Lemma sound_getNode scope id : sound (GetNode scope id).
Proof.
  apply sound_closed, sound_bind; [|intros; apply sound_ret]. apply sound_mapped, fine_look. intros k. apply lwp_getNode.
Qed.

Lemma sound_attempt {A : Type} (m : R C A) : sound m -> sound (attempt m).
Proof. intros Hm s Hs. destruct (Hm s Hs) as [H1 _]. unfold attempt. by destruct (m s). Qed.

(** A method that changes no key. *)
Definition still {A : Type} (m : R C A) : Prop := forall s scope, keys_of (m s).1 scope = keys_of s scope.

Lemma still_ret {A : Type} (a : A) : still (mret a).
Proof. by intros s. Qed.

Lemma still_bind {A B : Type} (m : R C A) (f : A -> R C B) : still m -> (forall a, still (f a)) -> still (m ≫= f).
Proof.
  intros Hm Hf s scope. unfold mbind, R_bind. specialize (Hm s scope). destruct (m s) as [s' [a|e]]; [|done]. by rewrite Hf.
Qed.

Lemma still_command {A : Type} scope (m : L C A) : (forall k, wp m (fun _ k' => k' = k) (refused k) k) -> still (command scope m).
Proof.
  intros Hm. assert (Hex : forall s scope', keys_of (execute scope m s).1 scope' = keys_of s scope').
  { intros s scope'. rewrite keys_of_execute. case_decide; [|done]. subst.
    pose proof (run_script_wp m _ _ (keys_of s scope) (r_c s) (Hm _)) as Hw.
    by destruct (run_script m _ _) as [[c k] [[a ef]|e]]; [|destruct Hw]. }
  assert (Hn : forall n s scope', keys_of (execute_n n scope m s) scope' = keys_of s scope').
  { induction n as [|n IH]; intros s scope'; [done|]. cbn. by rewrite IH, Hex. }
  intros s scope'. unfold command. destruct (rs_delivery (r_c s)) as [[n|n] c]; [|exact (Hn n (s <| r_c := c |>) scope')].
  specialize (Hex (execute_n n scope m (s <| r_c := c |>)) scope'). rewrite Hn in Hex.
  by destruct (execute scope m _) as [s' [a|e]].
Qed.

Lemma still_mapped {A : Type} scope (m : R C A) : still m -> still (mapped scope m).
Proof. intros Hm s scope'. specialize (Hm s scope'). unfold mapped. by destruct (m s) as [s' [a|[]]]. Qed.

Lemma still_getNode scope id : still (GetNode scope id).
Proof.
  unfold GetNode, unless_closed. apply still_bind; [by intros s|]. intros []; [by intros s|].
  apply still_bind; [|intros; apply still_ret]. apply still_mapped, still_command. intros k. apply lwp_getNode.
Qed.

Lemma still_attempt {A : Type} (m : R C A) : still m -> still (attempt m).
Proof. intros Hm s scope. specialize (Hm s scope). unfold attempt. by destruct (m s). Qed.

Lemma query_spec {A : Type} scope (f : keys -> A) s :
  still (query scope f) /\ ((query scope f s).2 = inl (f (keys_of s scope)) \/ (query scope f s).2 = inr Transport).
Proof.
  assert (Hw : forall k, wp (read f : L C A) (fun _ k' => k' = k) (refused k) k) by (intros k; by apply lwp_read). split.
  - apply still_bind; [by apply still_command|intros; apply still_ret].
  - unfold query, mbind, R_bind, command. destruct (rs_delivery (r_c s)) as [[n|n] c]; [left|by right].
    assert (Hn : forall j s0, keys_of (execute_n j scope (read f : L C A) s0) scope = keys_of s0 scope).
    { intros j. induction j as [|j IH]; intros s0; [done|]. cbn [execute_n]. rewrite IH, keys_of_execute, decide_True by done. done. }
    specialize (Hn n (s <| r_c := c |>)). exact (f_equal (fun k => inl (f k)) Hn).
Qed.

Lemma sound_collectPage scope ids opts limit nodes : sound (collectPage scope ids opts limit nodes).
Proof.
  revert nodes. induction ids as [|id ids IH]; intros nodes; cbn [collectPage]; [apply sound_ret|].
  apply sound_bind; [apply sound_attempt, sound_getNode|]. intros [node|e]; [|apply IH].
  destruct (negb (matches node opts)); [apply IH|]. case_bool_decide; [apply sound_ret|apply IH].
Qed.

Lemma still_collectPage scope ids opts limit nodes : still (collectPage scope ids opts limit nodes).
Proof.
  revert nodes. induction ids as [|id ids IH]; intros nodes; cbn [collectPage]; [apply still_ret|].
  apply still_bind; [apply still_attempt, still_getNode|]. intros [node|e]; [|apply IH].
  destruct (negb (matches node opts)); [apply IH|]. case_bool_decide; [apply still_ret|apply IH].
Qed.

(** A page moves on. *)
Lemma index_next k lower n x :
  last (index_page k lower n) = Some x -> length (index_after k (Some x)) < length (index_after k lower).
Proof.
  intros Hx. assert (Hin : x ∈ index_after k lower).
  { apply last_Some_elem_of in Hx. by apply elem_of_take in Hx as (i & Hi & _); eapply list_elem_of_lookup_2. }
  assert (index_after k (Some x) = filter (fun id => ~ String.le id x) (index_after k lower)) as ->.
  { unfold index_after. destruct lower as [l|]; [|done]. symmetry. apply list_filter_filter_l. intros y Hy Hyl. apply Hy.
    unfold index_after in Hin. apply list_elem_of_filter in Hin as [Hxl _]. etrans; [exact Hyl|].
    by destruct (total String.le l x). }
  eapply length_filter_lt; [exact Hin|]. intros Hn. by apply Hn.
Qed.

Definition sound_at {A : Type} (m : R C A) (s : rst C) : Prop := store_ok (m s).1 /\ unbroken (m s).2.

Lemma sound_at_bind {A B : Type} (m : R C A) (f : A -> R C B) s :
  sound_at m s -> (forall a s', m s = (s', inl a) -> store_ok s' -> sound_at (f a) s') -> sound_at (m ≫= f) s.
Proof.
  intros [H1 H2] Hf. unfold sound_at, mbind, R_bind. destruct (m s) as [s' [a|e]]; [by apply Hf|]. split; [done|by destruct e].
Qed.

Lemma list_loop_ends fuel scope opts limit lower nodes s :
  store_ok s -> length (index_after (keys_of s scope) lower) < fuel ->
  sound_at (list_loop fuel scope opts limit lower nodes) s.
Proof.
  revert lower nodes s. induction fuel as [|fuel IH]; intros lower nodes s Hs Hf; [lia|]. cbn [list_loop].
  apply sound_at_bind; [by apply sound_query|]. intros ids s1 Eq Hs1.
  destruct (query_spec scope (fun k => index_page k lower 200) s) as [Hst Hres]. specialize (Hst s scope).
  rewrite Eq in Hst, Hres. simpl in Hst, Hres. destruct Hres as [[= ->]|?]; [|done].
  case_bool_decide as Hne; [done|]. apply sound_at_bind; [by apply sound_collectPage|]. intros [nodes' next] s2 Ec Hs2.
  pose proof (still_collectPage scope (index_page (keys_of s scope) lower 200) opts limit nodes s1 scope) as Hk2.
  rewrite Ec in Hk2. simpl in Hk2. destruct next as [next|]; [done|]. case_match; [done|]. apply IH; [done|]. rewrite Hk2, Hst.
  destruct (last (index_page (keys_of s scope) lower 200)) as [x|] eqn:Hx; [|by apply last_None in Hx].
  pose proof (index_next _ _ _ _ Hx). lia.
Qed.

Lemma index_after_le k lower : length (index_after k lower) <= size (k_idx k).
Proof.
  assert (Hi : length (idx_of k) = size (k_idx k)).
  { unfold idx_of. rewrite (Permutation_length (merge_sort_Permutation _ _)). done. }
  unfold index_after. destruct lower; [|lia]. etrans; [apply length_filter|lia].
Qed.

Lemma sound_listNodes scope opts : sound (ListNodes scope opts).
Proof.
  apply sound_closed. intros s Hs. apply list_loop_ends; [done|]. unfold index_fuel.
  pose proof (index_after_le (keys_of s scope) (if bool_decide (lo_Cursor opts = ""%string) then None else Some (lo_Cursor opts))). lia.
Qed.

(** ** Every method *)

Inductive call :=
| CallAddNodes (scope : string) (specs : list NodeSpec)
| CallAddEdges (scope : string) (edges : list Edge)
| CallRemoveEdges (scope : string) (edges : list Edge)
| CallRemoveNode (scope id : string) (policy : CascadePolicy)
| CallCancel (scope : string) (ids : list string)
| CallCancelScope (scope : string)
| CallClaim (req : ClaimRequest)
| CallComplete (req : CompleteRequest)
| CallExtend (req : ExtendRequest)
| CallSweep (scope : string) (limit : Z)
| CallSetScopeConfig (scope : string) (cfg : ScopeConfig)
| CallScopeConfig (scope : string)
| CallSeal (scope : string)
| CallScopeStats (scope : string)
| CallScopes
| CallGetNode (scope id : string)
| CallInspect (scope id : string)
| CallListNodes (scope : string) (opts : ListOptions)
| CallWatch (req : WatchRequest) (rounds : nat)
| CallWaitForWork (scope : string) (kinds : list string) (cases : list wake)
| CallClose.

(** The scope a call names. *)
Definition call_scope (c : call) : option string :=
  match c with
  | CallAddNodes scope _ | CallAddEdges scope _ | CallRemoveEdges scope _ | CallRemoveNode scope _ _ | CallCancel scope _
  | CallCancelScope scope | CallSweep scope _ | CallSetScopeConfig scope _ | CallScopeConfig scope | CallSeal scope
  | CallScopeStats scope | CallGetNode scope _ | CallInspect scope _ | CallListNodes scope _ | CallWaitForWork scope _ _ => Some scope
  | CallClaim req => Some (cr_Scope req)
  | CallComplete req => Some (l_Scope (co_Lease req))
  | CallExtend req => Some (l_Scope (ex_Lease req))
  | CallWatch req _ => Some (wr_Scope req)
  | CallScopes | CallClose => None
  end.

Definition ignore {A : Type} (m : R C A) : R C unit := _ ← m; mret tt.

Definition run_call (c : call) : R C unit :=
  match c with
  | CallAddNodes scope specs => ignore (AddNodes cfg0 scope specs)
  | CallAddEdges scope edges => ignore (AddEdges scope edges)
  | CallRemoveEdges scope edges => ignore (RemoveEdges scope edges)
  | CallRemoveNode scope id policy => ignore (RemoveNode scope id policy)
  | CallCancel scope ids => ignore (Cancel scope ids)
  | CallCancelScope scope => ignore (CancelScope scope)
  | CallClaim req => ignore (Claim cfg0 req)
  | CallComplete req => ignore (Complete cfg0 req)
  | CallExtend req => ignore (Extend cfg0 req)
  | CallSweep scope limit => ignore (Sweep cfg0 scope limit)
  | CallSetScopeConfig scope cfg => SetScopeConfig scope cfg
  | CallScopeConfig scope => ignore (ScopeConfig_ cfg0 scope)
  | CallSeal scope => Seal scope
  | CallScopeStats scope => ignore (ScopeStats_ scope)
  | CallScopes => ignore Scopes
  | CallGetNode scope id => ignore (GetNode scope id)
  | CallInspect scope id => ignore (Inspect scope id)
  | CallListNodes scope opts => ignore (ListNodes scope opts)
  | CallWatch req rounds => from ← Watch req; ignore (pumpEvents rounds (wr_Scope req) from [])
  | CallWaitForWork scope kinds cases => ignore (WaitForWork scope kinds cases)
  | CallClose => Close
  end.

Lemma sound_ignore {A : Type} (m : R C A) : sound m -> sound (ignore m).
Proof. intros Hm. apply sound_bind; [done|intros; apply sound_ret]. Qed.

Lemma sound_pump rounds scope from out : sound (pumpEvents rounds scope from out : R C _).
Proof.
  revert from out. induction rounds as [|n IH]; intros from out; cbn [pumpEvents]; [apply sound_ret|].
  apply sound_bind; [apply sound_bind; [apply sound_query|intros; apply sound_ret]|]. intros [batch next]. apply IH.
Qed.

Lemma sound_watch req : sound (Watch req : R C _).
Proof.
  apply sound_closed. case_bool_decide; [apply sound_domain|]. apply sound_bind; [apply sound_register|]. intros [].
  unfold watchStartID. case_match; [|case_match; [apply sound_ret|apply sound_query]].
  apply sound_bind; [apply sound_query|]. intros [ev|]; [case_match; [apply sound_domain|apply sound_ret]|].
  apply sound_bind; [apply sound_query|]. intros cur. case_match; [apply sound_domain|apply sound_ret].
Qed.

Lemma sound_anyReady scope kinds : sound (anyReady scope kinds : R C _).
Proof.
  assert (Hk : sound (any_kind_ready scope kinds : R C _)).
  { induction kinds as [|kd kinds IH]; cbn [any_kind_ready]; [apply sound_ret|]. apply sound_bind; [apply sound_query|].
    intros n. case_match; [apply sound_ret|apply IH]. }
  unfold anyReady. destruct kinds; [|done]. apply sound_bind; [apply sound_query|intros; apply sound_ret].
Qed.

Lemma sound_poll scope kinds : sound (poll scope kinds : R C _).
Proof. apply sound_bind; [apply sound_attempt, sound_anyReady|intros; apply sound_ret]. Qed.

Lemma sound_wait scope kinds cases : sound (WaitForWork scope kinds cases : R C _).
Proof.
  apply sound_closed, sound_bind; [apply sound_register|]. intros []. apply sound_bind; [apply sound_anyReady|].
  intros []; [apply sound_ret|]. apply sound_bind; [apply sound_poll|]. intros []; [apply sound_ret|].
  induction cases as [|[] cases IH]; cbn [park]; try apply sound_ret; try apply sound_domain; [|by intros s Hs].
  apply sound_bind; [apply sound_poll|]. intros []; [apply sound_ret|apply IH].
Qed.

Lemma valid_specs specs : first_error NodeSpec_Validate specs = None -> loopless (wire_spec <$> specs).
Proof.
  unfold first_error. intros Hv s (sp & -> & Hin)%list_elem_of_fmap. cbn. apply Validate_self. revert Hv.
  induction Hin as [x l|x y l Hin IH]; cbn [foldr]; unfold or_else at 1; case_match; done || auto.
Qed.

Lemma sound_call c : sound (run_call c).
Proof.
  assert (Hnil : forall {A : Type} (b : bool) (a : A) (m : R C A), sound m -> sound (if b then mret a else m)) by (intros A [] a m Hm; [apply sound_ret|done]).
  destruct c; cbn [run_call]; try apply sound_ignore.
  - apply Hnil, sound_closed, sound_checked. intros Hv. apply sound_checked. intros _. apply sound_bind; [apply sound_resolved|]. intros cfg.
    case_match; [apply sound_domain|]. apply sound_checked. intros _. apply sound_bind.
    + apply sound_script, (fine_quiet _ (DoAddNodes (key_prefix (s_keyspace cfg0) scope) (c_MaxBatchSize cfg) (wire_spec <$> specs))); [by apply valid_specs|done].
    + intros r. apply sound_bind; [apply sound_register|intros; apply sound_ret].
  - apply Hnil, sound_closed, sound_bind; [|intros; apply sound_ret]. by apply sound_script, (fine_quiet _ (DoAddEdges (wire_edge <$> edges))).
  - apply Hnil, sound_closed, sound_bind; [|intros; apply sound_ret]. by apply sound_script, (fine_quiet _ (DoRemoveEdges (wire_edge <$> edges))).
  - apply sound_closed, sound_bind; [|intros; apply sound_ret]. by apply sound_script, (fine_quiet _ (DoRemoveNode id policy)).
  - apply Hnil, sound_closed, sound_bind; [|intros; apply sound_ret]. by apply sound_script, (fine_quiet _ (DoCancelNodes ids)).
  - apply sound_closed, sound_bind; [|intros; apply sound_ret]. by apply sound_script, (fine_quiet _ DoCancelScope).
  - apply sound_closed. case_bool_decide; [apply sound_domain|]. apply sound_bind; [apply sound_resolved|]. intros cfg.
    apply sound_bind; [|intros; apply sound_ret]. apply sound_script. eapply (fine_same _ (DoClaim _ _ _ _ _ _)); [|reflexivity]. done.
  - apply sound_closed. cbv zeta. case_match; [apply sound_domain|]. apply sound_bind; [apply sound_resolved|]. intros cfg.
    apply sound_bind; [|intros [[r at_] ef]; apply sound_ret]. apply sound_script. eapply (fine_quiet _ (DoComplete _ _ _ _ _ _ _)); [|reflexivity]. done.
  - apply sound_closed. cbv zeta. case_match; [apply sound_domain|]. apply sound_bind; [apply sound_resolved|]. intros cfg.
    apply sound_bind; [|intros; apply sound_ret]. apply sound_script. eapply (fine_quiet _ (DoExtend _ _ _)); [|reflexivity]. done.
  - apply sound_closed, sound_bind.
    + case_match; [apply sound_bind; [apply sound_resolved|intros; apply sound_ret]|apply sound_ret].
    + intros n. apply sound_bind; [|intros; apply sound_ret]. by apply sound_script, (fine_quiet _ (DoSweep n)).
  - apply sound_closed, sound_bind; [|intros; apply sound_register]. apply sound_command; [by apply (fine_quiet _ (DoSetConfig cfg))|by intros; eexists].
  - apply sound_config.
  - apply sound_closed, sound_bind; [|intros; apply sound_register]. apply sound_command; [by apply (fine_quiet _ DoSeal)|by intros; eexists].
  - apply sound_closed. repeat (apply sound_bind; [apply sound_query|intros]). apply sound_ret.
  - apply sound_closed. intros s Hs. destruct (rs_delivery (r_c s)) as [[n|n] c]; [|done]. by destruct (rs_order _ c).
  - apply sound_getNode.
  - apply sound_closed, sound_bind; [apply sound_getNode|]. intros node. apply sound_bind; [|intros [[[n p] q] ef]; apply sound_ret].
    apply sound_mapped, fine_look. intros k. apply lwp_inspect.
  - apply sound_listNodes.
  - apply sound_bind; [apply sound_watch|]. intros from. apply sound_ignore, sound_pump.
  - apply sound_wait.
  - by intros s Hs.
Qed.

Fixpoint run_calls (cs : list call) (s : rst C) : rst C * list (unit + rerror) :=
  match cs with
  | [] => (s, [])
  | c :: cs => let '(s, r) := run_call c s in let '(s, rs) := run_calls cs s in (s, r :: rs)
  end.

(** A client of a server without keys. *)
Definition fresh_store (c : C) : rst C := mkRst c ∅ ∅ false.

Lemma fresh_ok c : store_ok (fresh_store c).
Proof. intros scope. eexists _, _. apply reached_nil. Qed.

Lemma run_calls_ok cs s : store_ok s -> store_ok (run_calls cs s).1 /\ Forall unbroken (run_calls cs s).2.
Proof.
  revert s. induction cs as [|c cs IH]; intros s Hs; cbn [run_calls]; [done|].
  destruct (sound_call c s Hs) as [H1 H2]. destruct (run_call c s) as [s1 r]. specialize (IH s1 H1).
  destruct (run_calls cs s1) as [s2 rs]. destruct IH. split; [done|]. by constructor.
Qed.

End Clients.
