(* ===== verification/RedisProps.v ===== *)
(** * Properties of the Redis backend *)
From S2P Require Import Prelude Types GoText Config Scope MapSum RedisData RedisScripts RedisStore RedisInv RedisLease RedisGraph RedisGraphOps RedisRun.

(** ** A server to evaluate the scripts on

    Its clock advances by a millisecond at every reading; it returns sets in
    their stored order, keeps the whole stream and answers every command. *)

#[export] Instance plain_clock : ClockSource Z := {| clk_Now c := (c, (c + Millisecond)%Z); clk_Jitter n c := (0%Z, c) |}.

#[export, refine] Instance plain_server : RedisServer Z := {|
  rs_clock := plain_clock;
  rs_order l c := (l, c);
  rs_trim c := (0, c);
  rs_delivery c := (Answered 0, c)
|}.
Proof. done. Defined.

Definition start_time : Z := (1000 * Second)%Z.

Definition a_spec (id : string) (priority : Z) (deps : list string) : lspec :=
  mkLspec id "k" priority TriggerAllSuccess 2 0 0 [] "" deps.

(** The keys after some commands from [k]. *)
Definition play (cs : list cmd) (k : keys) : keys :=
  foldl (fun k c => (run_script (run_cmd c) start_time k).1.2) k cs.

(** The leases a command hands out. *)
Definition leases_of (c : cmd) (k : keys) : list lgrant :=
  match (run_script (run_cmd c) start_time k).2 with inl (gs, _) => gs | inr _ => [] end.

Fixpoint leases_after (cs : list cmd) (k : keys) : list lgrant :=
  match cs with
  | [] => []
  | c :: cs => leases_of c k ++ leases_after cs (play [c] k)
  end.

(** Some leases, by node and epoch. *)
Definition keys_of_leases (gs : list lgrant) : list (string * Z) := lease_key <$> gs.

Lemma play_reached Y gs k cs :
  reached (C := Z) Y gs k -> Forall valid_cmd cs -> exists Y', reached (C := Z) Y' (gs ++ leases_after cs k) (play cs k).
Proof.
  intros Hr Hv. revert Y gs k Hr. induction Hv as [|c cs Hc _ IH]; intros Y gs k Hr; cbn [leases_after].
  { exists Y. by rewrite app_nil_r. }
  unfold leases_of, play in *. cbn [foldl] in *. destruct (run_script (run_cmd c) start_time k) as [[s' k'] r] eqn:E. cbn [fst snd].
  pose proof (reached_cmd Y gs k c start_time s' k' r Hr Hc E) as Hr'. rewrite app_assoc. eapply IH. exact Hr'.
Qed.

(** Keys that some commands lead to. *)
Lemma played cs : Forall valid_cmd cs -> exists Y, reached (C := Z) Y (leases_after cs noKeys) (play cs noKeys).
Proof. exact (play_reached _ [] noKeys cs reached_nil). Qed.

(** ** The scripts agree with the Go rules *)

Lemma window_loop_agrees n w M :
  (0 <= w)%Z -> (0 < M)%Z -> (M * Millisecond <= max_i64)%Z ->
  backoff_window n (w * Millisecond) (M * Millisecond) = (window_loop n w M * Millisecond)%Z.
Proof.
  intros Hw HM Hb. revert w Hw. induction n as [|n IH]; intros w Hw; [done|]. cbn [backoff_window window_loop].
  assert (Eq : Z.quot (M * Millisecond) 2 = (M * 500000)%Z).
  { unfold Millisecond. replace (M * 1000000)%Z with (M * 500000 * 2)%Z by lia. apply Z.quot_mul. lia. }
  rewrite Eq. unfold Millisecond in *. destruct (Z.leb_spec M (2 * w)), (Z.leb_spec (M * 500000) (w * 1000000)); try lia.
  replace (i64 (w * 1000000 * 2)) with (w * 2 * 1000000)%Z; [apply IH; lia|].
  rewrite i64_small; [lia|]. unfold max_i64 in *. lia.
Qed.

(** C22: The Lua versions of the trigger rules, of the reason a node ends with
    when its rule is lost, and of the back-off window are the Go functions: the
    window in milliseconds is the one [Backoff] computes in nanoseconds, for a
    cap that an int64 of nanoseconds holds. *)
Theorem redis_rules_agree :
  (forall h, rule_met h = Ready (h_deps h) (h_trigger h)) /\
  (forall h, rule_lost h = Unsatisfiable (h_deps h) (h_trigger h)) /\
  (forall d, depsTerminalReason (Failed d) = TerminalReason d) /\
  (forall attempt base maxDelay, (0 <= attempt)%Z -> (maxDelay * Millisecond <= max_i64)%Z ->
     (backoffWindow attempt base maxDelay * Millisecond)%Z =
     Backoff_window attempt (base * Millisecond) (maxDelay * Millisecond)).
Proof.
  split_and!.
  - intros h. unfold rule_met, depsReady, Ready. case_bool_decide as E; [done|]. by destruct (0 <? _)%Z, (h_trigger h).
  - intros h. done.
  - done.
  - intros attempt base M Ha HM. unfold backoffWindow, Backoff_window. cbv zeta.
    set (n := Z.to_nat _). unfold DEFAULT_RETRY_BASE_MS, DEFAULT_RETRY_MAX_MS.
    set (b := if (base <=? 0)%Z then 1000%Z else base). set (m := if (M <=? 0)%Z then 300000%Z else M).
    assert (Eb : (if (base * Millisecond <=? 0)%Z then DefaultRetryBaseDelay else base * Millisecond)%Z = (b * Millisecond)%Z).
    { unfold b, Millisecond. destruct (Z.leb_spec base 0), (Z.leb_spec (base * 1000000) 0); try done; lia. }
    assert (Em : (if (M * Millisecond <=? 0)%Z then DefaultRetryMaxDelay else M * Millisecond)%Z = (m * Millisecond)%Z).
    { unfold m, Millisecond. destruct (Z.leb_spec M 0), (Z.leb_spec (M * 1000000) 0); try done; lia. }
    rewrite Eb, Em, window_loop_agrees; [unfold Millisecond; lia|..].
    + unfold b. destruct (Z.leb_spec base 0); lia.
    + unfold m. destruct (Z.leb_spec M 0); lia.
    + unfold m. destruct (Z.leb_spec M 0); [done|lia].
Qed.

Lemma redis_rules_agree_witness : (backoffWindow 4 100 1000 * Millisecond)%Z = Backoff_window 4 (100 * Millisecond) (1000 * Millisecond).
Proof. apply (proj2 (proj2 (proj2 redis_rules_agree))); [lia|by vm_compute]. Defined.

(** C23: Within a ready set the score puts a higher priority first and, at equal
    priority, the node that became ready first; scores of different nodes
    differ, and a double holds each exactly, as long as fewer than 2^32 nodes
    have become ready and priorities are int16. *)
Theorem redis_score_order (p p' f f' : Z) :
  (- 2 ^ 15 <= p < 2 ^ 15)%Z -> (- 2 ^ 15 <= p' < 2 ^ 15)%Z -> (0 <= f < 2 ^ 32)%Z -> (0 <= f' < 2 ^ 32)%Z ->
  (packScore p f < packScore p' f' <-> p' < p \/ (p = p' /\ f < f'))%Z /\
  (packScore p f = packScore p' f' -> p = p' /\ f = f') /\ (0 <= packScore p f < 2 ^ 53)%Z.
Proof.
  intros Hp Hp' Hf Hf'. unfold packScore, PRIORITY_BIAS, FIFO_SCALE.
  change (2 ^ 15)%Z with 32768%Z in *. change (2 ^ 32)%Z with 4294967296%Z in *. change (2 ^ 53)%Z with 9007199254740992%Z.
  split_and!; [split|..].
  - intros Hlt. destruct (Z.lt_trichotomy p p') as [?|[->|?]]; [lia|right; lia|by left].
  - lia.
  - intros E. destruct (Z.lt_trichotomy p p') as [?|[->|?]]; lia.
  - lia.
  - lia.
Qed.

Lemma redis_score_order_witness : (packScore 5 7 < packScore 4 1)%Z /\ (packScore 4 1 < packScore 4 2)%Z.
Proof.
  split.
  - apply (redis_score_order 5 4 7 1); lia.
  - apply (redis_score_order 4 4 1 2); lia.
Defined.

(** ** Scopes have their own keys *)

(** No closing brace. *)
Fixpoint braceless (s : string) : bool :=
  match s with
  | EmptyString => true
  | String a s => negb (bool_decide (a = Ascii.ascii_of_nat 125)) && braceless s
  end.

Lemma braced_inj s s' r r' :
  braceless s = true -> braceless s' = true -> (s ++ "}:" ++ r = s' ++ "}:" ++ r')%string -> s = s' /\ r = r'.
Proof.
  revert s'. induction s as [|a s IH]; intros [|b s'] Hs Hs' E; simpl in *.
  - by injection E.
  - injection E as <- _. done.
  - injection E as -> _. done.
  - injection E as -> E. apply andb_true_iff in Hs as [_ Hs], Hs' as [_ Hs']. by destruct (IH s' Hs Hs' E) as [-> ->].
Qed.

Lemma append_assoc_l (a b c : string) : ((a ++ b) ++ c = a ++ b ++ c)%string.
Proof. induction a as [|x a IH]; [done|]. exact (f_equal (String x) IH). Qed.

Lemma key_suffix_inj k k' : key_suffix k = key_suffix k' -> k = k'.
Proof.
  destruct k, k'; cbn [key_suffix]; intros E; try discriminate E; try done; apply (inj (String.append _)) in E; by subst.
Qed.

Lemma key_name_inj (keyspace scope scope' : string) (k k' : key) :
  braceless scope = true -> braceless scope' = true ->
  key_name keyspace scope k = key_name keyspace scope' k' -> scope = scope' /\ k = k'.
Proof.
  intros Hs Hs' E. unfold key_name, key_prefix in E. rewrite !append_assoc_l in E.
  apply (inj (String.append _)), (inj (String.append _)) in E.
  destruct (braced_inj scope scope' (key_suffix k) (key_suffix k') Hs Hs' E) as [-> Ek]. split; [done|]. by apply key_suffix_inj.
Qed.

(** C24: In one keyspace no two keys of the backend have the same name, neither
    within a scope nor across scopes, as long as no scope has a closing brace
    in its name: scopes share no state. *)
Theorem redis_keys_apart (keyspace scope scope' : string) (k k' : key) :
  braceless scope = true -> braceless scope' = true ->
  key_name keyspace scope k = key_name keyspace scope' k' -> scope = scope' /\ k = k'.
Proof. apply key_name_inj. Qed.

Lemma redis_keys_apart_witness : "orders"%string = "orders"%string /\ KNode "a" = KNode "a".
Proof. apply (redis_keys_apart "ks:" "orders" "orders" (KNode "a") (KNode "a")); reflexivity. Defined.

(** A scope with a closing brace can name a node of another scope. *)
Lemma redis_keys_collide : key_name "" "a}:n:q" KStats = key_name "" "a" (KNode "q}:stats").
Proof. reflexivity. Qed.

(** ** Configuration *)

(** The types of the fields. *)
Record config_typed (c : ScopeConfig) : Prop := {
  ct_durations : Forall (fun d => - 2 ^ 63 <= d < 2 ^ 63)%Z
    [c_DefaultLeaseTimeout c; c_MinLeaseTimeout c; c_MaxLeaseTimeout c; c_RetryBaseDelay c; c_RetryMaxDelay c;
     c_TerminalRetention c; c_MaxSubscriberLag c; c_SweepInterval c];
  ct_ints : Forall (fun n => - 2 ^ 63 <= n < 2 ^ 63)%Z [c_PayloadCap c; c_MaxBatchSize c; c_SweepBatchSize c];
  ct_counts : Forall (fun n => 0 <= n <= max_u32)%Z [c_MaxAttempts c; c_MaxInFlight c; c_PartitionCount c]
}.

Definition whole_ms (d : Z) : Z := (Z.quot d Millisecond * Millisecond)%Z.

Definition ms_config (c : ScopeConfig) : ScopeConfig :=
  mkConfig (whole_ms (c_DefaultLeaseTimeout c)) (whole_ms (c_MinLeaseTimeout c)) (whole_ms (c_MaxLeaseTimeout c)) (c_MaxAttempts c)
    (whole_ms (c_RetryBaseDelay c)) (whole_ms (c_RetryMaxDelay c)) (whole_ms (c_TerminalRetention c)) (whole_ms (c_MaxSubscriberLag c))
    (c_MaxInFlight c) (c_PayloadCap c) (c_MaxBatchSize c) 0 (c_SweepBatchSize c) (whole_ms (c_SweepInterval c)) (c_PartitionCount c).

Lemma ms_back d : (- 2 ^ 63 <= d < 2 ^ 63)%Z -> msToDur (atoi64 (durToMs d)) = whole_ms d.
Proof.
  intros Hd. assert (Hq : (- 2 ^ 63 <= whole_ms d < 2 ^ 63)%Z /\ (Z.abs (Z.quot d Millisecond) <= 2 ^ 62)%Z).
  { unfold whole_ms. pose proof (Z.quot_rem' d Millisecond) as E. unfold Millisecond in *.
    change (2 ^ 63)%Z with 9223372036854775808%Z in *. change (2 ^ 62)%Z with 4611686018427387904%Z. destruct (Z.le_gt_cases 0 d).
    - pose proof (Z.rem_bound_pos d 1000000 ltac:(lia) ltac:(lia)). lia.
    - pose proof (Z.rem_bound_pos (- d) 1000000 ltac:(lia) ltac:(lia)) as Hr. rewrite Z.rem_opp_l in Hr by lia. lia. }
  destruct Hq as [H1 H2]. unfold msToDur, atoi64, durToMs. unfold min_i64, max_i64 in *.
  rewrite Z.min_l, Z.max_r by lia. by apply i64_small.
Qed.

(** What SetScopeConfig writes reads back, in whole milliseconds and without
    [MaxClaimBatch], whatever the hash held before. *)
Lemma redis_config_roundtrip c m : config_typed c -> hashToCfg (cfgToHash c ∪ m) = ms_config c.
Proof.
  intros [Hd Hi Hc].
  assert (Hat : forall f v, cfgToHash c !! f = Some v -> field (cfgToHash c ∪ m) f = atoi64 v).
  { intros f v Hv. unfold field. by rewrite (lookup_union_Some_l _ _ _ _ Hv). }
  repeat (apply Forall_cons in Hd as [? Hd]). repeat (apply Forall_cons in Hi as [? Hi]). repeat (apply Forall_cons in Hc as [? Hc]).
  assert (Hn : forall n, (- 2 ^ 63 <= n < 2 ^ 63)%Z -> atoi64 n = n) by (intros n Hn; unfold atoi64, min_i64, max_i64; lia).
  assert (Hu : forall n, (0 <= n <= max_u32)%Z -> narrowU32 (atoi64 n) = n).
  { intros n Hn'. rewrite Hn by (unfold max_u32 in *; lia). unfold narrowU32. destruct (Z.ltb_spec n 0), (Z.ltb_spec max_u32 n); lia. }
  unfold hashToCfg, ms_config. rewrite (Hat fDefaultLeaseMs (durToMs (c_DefaultLeaseTimeout c)) eq_refl),
    (Hat fMinLeaseMs (durToMs (c_MinLeaseTimeout c)) eq_refl),
    (Hat fMaxLeaseMs (durToMs (c_MaxLeaseTimeout c)) eq_refl),
    (Hat fMaxAttempts (c_MaxAttempts c) eq_refl),
    (Hat fRetryBaseMs (durToMs (c_RetryBaseDelay c)) eq_refl),
    (Hat fRetryMaxMs (durToMs (c_RetryMaxDelay c)) eq_refl),
    (Hat fTerminalRetentionMs (durToMs (c_TerminalRetention c)) eq_refl),
    (Hat fMaxSubscriberLagMs (durToMs (c_MaxSubscriberLag c)) eq_refl),
    (Hat fMaxInFlight (c_MaxInFlight c) eq_refl),
    (Hat fPayloadCap (c_PayloadCap c) eq_refl),
    (Hat fMaxBatchSize (c_MaxBatchSize c) eq_refl),
    (Hat fSweepBatchSize (c_SweepBatchSize c) eq_refl),
    (Hat fSweepIntervalMs (durToMs (c_SweepInterval c)) eq_refl),
    (Hat fPartitionCount (c_PartitionCount c) eq_refl).
  by rewrite !ms_back, !Hu, !Hn.
Qed.

(** ** Watching *)

Lemma key_filter_after {base : Z} (l : list Event) (last : Z) :
  (forall i ev, l !! i = Some ev -> ev_Cursor ev = (base + 1 + Z.of_nat i)%Z) ->
  filter (fun e => (last < ev_Cursor e)%Z) l = drop (Z.to_nat (last - base)) l.
Proof.
  revert base. induction l as [|e l IH]; intros base Hl; [by rewrite drop_nil|].
  assert (Hl' : forall i ev, l !! i = Some ev -> ev_Cursor ev = (base + 1 + 1 + Z.of_nat i)%Z).
  { intros i ev Hi. rewrite (Hl (S i) ev Hi). lia. }
  pose proof (Hl 0 e eq_refl) as He. simpl in He. rewrite filter_cons. case_decide as Hlt.
  - rewrite (IH _ Hl'). replace (Z.to_nat (last - base)) with 0 by lia. by replace (Z.to_nat (last - (base + 1))) with 0 by lia.
  - rewrite (IH _ Hl'). replace (Z.to_nat (last - base)) with (S (Z.to_nat (last - (base + 1)))) by lia. done.
Qed.

(** A read of the stream returns consecutive events, the first right after
    [last] unless the server has trimmed it, and none only when there is none. *)
Lemma redis_pump_gapless k last :
  einv k -> (last <= k_cursor k)%Z ->
  let first := Z.max last (k_cursor k - Z.of_nat (length (k_events k))) in
  (forall i ev, stream_after k last !! i = Some ev -> ev_Cursor ev = (first + 1 + Z.of_nat i)%Z) /\
  (stream_after k last = [] -> last = k_cursor k \/ k_events k = []).
Proof.
  intros [Hpos He] Hlast first. unfold stream_after. rewrite (key_filter_after (k_events k) last He). split.
  - intros i ev (Hi & _)%lookup_take_Some. rewrite lookup_drop in Hi. rewrite (He _ _ Hi). unfold first. lia.
  - intros E. destruct (k_events k) as [|ev l] eqn:El; [by right|left]. rewrite <- El in *.
    assert (length (drop (Z.to_nat (last - (k_cursor k - Z.of_nat (length (k_events k))))) (k_events k)) = 0) as Hlen.
    { destruct (drop _ (k_events k)) as [|x y]; [done|]. discriminate E. }
    rewrite length_drop in Hlen. assert (1 <= length (k_events k)) by (rewrite El; simpl; lia). lia.
Qed.

(** ** Bells *)

(** One live subscription per scope with waiters, and no closed channel to wait
    on. *)
Record bells_ok (b : bells) : Prop := {
  bo_live : forall n, n ∈ bs_live b <-> exists scope e, bs_state b !! scope = Some e /\ be_sub e = n;
  bo_apart : forall s s' e e', bs_state b !! s = Some e -> bs_state b !! s' = Some e' -> be_sub e = be_sub e' -> s = s';
  bo_chan : forall s s' e e', bs_state b !! s = Some e -> bs_state b !! s' = Some e' -> be_ch e = be_ch e' -> s = s';
  bo_each : forall s e, bs_state b !! s = Some e -> be_sub e < bs_subs b /\ be_ch e < bs_chans b /\ be_ch e ∉ bs_rung b /\ (1 <= be_waiters e)%Z;
  bo_rung : forall n, n ∈ bs_rung b -> n < bs_chans b
}.

Lemma newBells_ok : bells_ok newBells.
Proof. split; try done; set_solver. Qed.

Lemma join_ok scope b : bells_ok b -> bells_ok (join scope b).1 /\ (join scope b).2 ∉ bs_rung (join scope b).1.
Proof.
  intros [Hl Ha Hc' He Hr]. unfold join. destruct (bs_state b !! scope) as [e|] eqn:E.
  - destruct (He scope e E) as (? & ? & ? & ?). split; [|done]. split; simpl; try done.
    + intros n. rewrite Hl. split; intros (s & x & Hx & <-).
      * destruct (decide (s = scope)) as [->|Hne]; [simplify_eq; exists scope; eexists; by rewrite lookup_insert_eq|].
        exists s, x. by rewrite lookup_insert_ne.
      * apply lookup_insert_Some in Hx as [[<- <-]|[? ?]]; [by exists scope, e|by exists s, x].
    + intros s s' x x' [[<- <-]|[? Hx]]%lookup_insert_Some [[<- <-]|[? Hx']]%lookup_insert_Some; simpl; eauto.
    + intros s s' x x' [[<- <-]|[? Hx]]%lookup_insert_Some [[<- <-]|[? Hx']]%lookup_insert_Some; simpl; eauto.
    + intros s x [[<- <-]|[? Hx]]%lookup_insert_Some; simpl; [split_and!; try done; lia|by apply (He s)].
  - simpl. assert (Hfresh : bs_chans b ∉ bs_rung b) by (intros Hin%Hr; lia). split; [|done]. split; simpl.
    + intros n. rewrite elem_of_union, elem_of_singleton, Hl. split.
      * intros [->|(s & x & Hx & <-)]; [exists scope; eexists; by rewrite lookup_insert_eq|].
        exists s, x. rewrite lookup_insert_ne; [done|congruence].
      * intros (s & x & [[<- <-]|[? Hx]]%lookup_insert_Some & <-); [by left|right; eauto].
    + intros s s' x x' [[<- <-]|[? Hx]]%lookup_insert_Some [[<- <-]|[? Hx']]%lookup_insert_Some; simpl; try done; intros Es; [| |by eapply Ha].
      * destruct (He _ _ Hx') as (? & _). lia.
      * destruct (He _ _ Hx) as (? & _). lia.
    + intros s s' x x' [[<- <-]|[? Hx]]%lookup_insert_Some [[<- <-]|[? Hx']]%lookup_insert_Some; simpl; try done; intros Es; [| |by eapply Hc'].
      * destruct (He _ _ Hx') as (_ & ? & _). lia.
      * destruct (He _ _ Hx) as (_ & ? & _). lia.
    + intros s x [[<- <-]|[? Hx]]%lookup_insert_Some; simpl; [split_and!; try done; lia|]. destruct (He s x Hx) as (? & ? & ? & ?). split_and!; try done; lia.
    + intros n Hn%Hr. lia.
Qed.

(** A publication wakes everyone parked on the scope's channel, and the scope
    gets a new one. *)
Lemma ring_ok scope b : bells_ok b -> bells_ok (ring scope b) /\
  forall e, bs_state b !! scope = Some e -> be_ch e ∈ bs_rung (ring scope b).
Proof.
  intros Hb. pose proof Hb as [Hl Ha Hc' He Hr]. unfold ring. destruct (bs_state b !! scope) as [e|] eqn:E; [|by split].
  destruct (He scope e E) as (? & ? & ? & ?). split; [|intros x [= <-]; simpl; set_solver].
  assert (Hfresh : bs_chans b ∉ bs_rung b) by (intros Hin%Hr; lia). split; simpl.
  - intros n. rewrite Hl. split; intros (s & x & Hx & <-).
    + destruct (decide (s = scope)) as [->|Hne]; [simplify_eq; exists scope; eexists; by rewrite lookup_insert_eq|].
      exists s, x. by rewrite lookup_insert_ne.
    + apply lookup_insert_Some in Hx as [[<- <-]|[? ?]]; [by exists scope, e|by exists s, x].
  - intros s s' x x' [[<- <-]|[? Hx]]%lookup_insert_Some [[<- <-]|[? Hx']]%lookup_insert_Some; simpl; eauto.
  - intros s s' x x' [[<- <-]|[? Hx]]%lookup_insert_Some [[<- <-]|[? Hx']]%lookup_insert_Some; simpl; intros Es; [done| | |by eapply Hc'].
    + destruct (He _ _ Hx') as (_ & ? & _). lia.
    + destruct (He _ _ Hx) as (_ & ? & _). lia.
  - intros s x [[<- <-]|[? Hx]]%lookup_insert_Some; simpl; [split_and!; try done; [lia|]|].
    + intros [?%elem_of_singleton|?]%elem_of_union; [lia|done].
    + destruct (He s x Hx) as (? & ? & Hn & ?). split_and!; try done; [lia|]. intros [Hc%elem_of_singleton|?]%elem_of_union; [|done].
      assert (s = scope) as -> by (by eapply Hc'). done.
  - intros n [->%elem_of_singleton|Hn%Hr]%elem_of_union; lia.
Qed.

(** The last waiter to leave closes the scope's subscription, no other does. *)
Lemma leave_ok scope b : bells_ok b ->
  let '(b', sub) := leave scope b in bells_ok (match sub with Some n => unsubscribe n b' | None => b' end).
Proof.
  intros Hb. pose proof Hb as [Hl Ha Hc' He Hr]. unfold leave. destruct (bs_state b !! scope) as [e|] eqn:E; [|done].
  destruct (He scope e E) as (? & ? & ? & ?). destruct (Z.ltb_spec 0 (be_waiters e - 1)).
  - split; simpl; try done.
    + intros n. rewrite Hl. split; intros (s & x & Hx & <-).
      * destruct (decide (s = scope)) as [->|Hne]; [simplify_eq; exists scope; eexists; by rewrite lookup_insert_eq|].
        exists s, x. by rewrite lookup_insert_ne.
      * apply lookup_insert_Some in Hx as [[<- <-]|[? ?]]; [by exists scope, e|by exists s, x].
    + intros s s' x x' [[<- <-]|[? Hx]]%lookup_insert_Some [[<- <-]|[? Hx']]%lookup_insert_Some; simpl; eauto.
    + intros s s' x x' [[<- <-]|[? Hx]]%lookup_insert_Some [[<- <-]|[? Hx']]%lookup_insert_Some; simpl; eauto.
    + intros s x [[<- <-]|[? Hx]]%lookup_insert_Some; simpl; [split_and!; try done; lia|by apply (He s)].
  - split; simpl; try done.
    + intros n. rewrite elem_of_difference, elem_of_singleton, Hl. split.
      * intros [(s & x & Hx & <-) Hne]. exists s, x. rewrite lookup_delete_ne; [done|]. intros <-. by simplify_eq.
      * intros (s & x & [? Hx]%lookup_delete_Some & <-). split; [eauto|]. intros Es. by pose proof (Ha s scope x e Hx E Es).
    + intros s s' x x' [? Hx]%lookup_delete_Some [? Hx']%lookup_delete_Some. by eapply Ha.
    + intros s s' x x' [? Hx]%lookup_delete_Some [? Hx']%lookup_delete_Some. by eapply Hc'.
    + intros s x [? Hx]%lookup_delete_Some. by apply (He s).
Qed.

(** Closing the store closes every subscription. *)
Lemma closeAll_ok b : bells_ok b -> let '(b', subs) := closeAll b in bs_live (foldl (fun b n => unsubscribe n b) b' subs) = ∅.
Proof.
  intros Hb. unfold closeAll.
  assert (Hf : forall subs b0, bs_live (foldl (fun b n => unsubscribe n b) b0 subs) = bs_live b0 ∖ list_to_set subs).
  { induction subs as [|n subs IH]; intros b0; cbn [foldl]; [set_solver|]. rewrite IH. cbn. set_solver. }
  rewrite Hf. apply set_eq. intros n. rewrite elem_of_difference, elem_of_list_to_set. split; [|set_solver].
  intros [Hin Hnot]. destruct Hnot. apply (bo_live _ Hb) in Hin as (s & e & Hs & <-). apply list_elem_of_fmap.
  exists (s, e). split; [done|]. by apply elem_of_map_to_list.
Qed.

(** ** Runs *)

Definition load : list cmd :=
  [DoAddNodes "{s}:" 100 [a_spec "a" 0 []; a_spec "b" 0 ["a"%string]; a_spec "c" 5 []]; DoClaim [] 1 30000 100 0 "w"].

Lemma load_valid : Forall valid_cmd load.
Proof.
  repeat constructor. intros s Hs. repeat (apply elem_of_cons in Hs as [->|Hs]; [cbn; set_solver|]). by apply not_elem_of_nil in Hs.
Qed.

Section Runs.
Context {C : Type} `{!RedisServer C}.

(** C15: Whatever commands the clients of a scope send, collection aside, and in
    whatever order they reach the server, the keys agree afterwards: hashes,
    blobs and index list the same nodes; every edge is in both directions,
    joins two nodes in increasing rank and is counted in its target's tally by
    what became of its source; the sorted sets hold exactly the ready,
    scheduled and leased nodes; each counter is the number of its nodes; the
    stream ends at the cursor without a gap; and every node but the excused
    ones is in the phase its trigger rule calls for. *)
Theorem redis_keys_agree (Y : string -> Prop) (gs : list lgrant) (k : keys) :
  reached (C := C) Y gs k -> kinv None None Y k.
Proof. intros Hr. apply (ro_inv _ _ _ (reached_ok Y gs k Hr)). Qed.

(** C16: No two leases handed out for a node carry the same epoch, whatever else
    happens to the scope, removal and re-creation of the node included, as long
    as nothing is collected. *)
Theorem redis_epochs_never_repeat (Y : string -> Prop) (gs : list lgrant) (k : keys) :
  reached (C := C) Y gs k -> NoDup (keys_of_leases gs).
Proof. intros Hr. apply (ro_keys _ _ _ (reached_ok Y gs k Hr)). Qed.

(** C18: An AddNodes or AddEdges that is refused, be it after half of its nodes
    and edges were written, leaves every key as it was: only ranks may have
    moved, to another topological order of the same graph. *)
Theorem redis_failed_batch_undone (Y : string -> Prop) (gs : list lgrant) (k : keys) (c : cmd) s s' k' e :
  reached (C := C) Y gs k -> valid_cmd c -> match c with DoAddNodes _ _ _ | DoAddEdges _ => True | _ => False end ->
  run_script (run_cmd c) s k = (s', k', inr e) -> restored k k' /\ kinv None None anyid k' /\ coded e.
Proof.
  intros Hr Hv Hc Hrun. pose proof (ro_inv _ _ _ (reached_ok Y gs k Hr)) as Hi.
  assert (Hw : wp (run_cmd c : L C _) (fun _ _ => True) (undone k) k).
  { destruct c; try done; cbn [run_cmd]; apply lwp_bind.
    - eapply lwp_mono; [by apply (lwp_scriptAddNodes Y)|]. intros [] k1 _. by lwp_steps.
    - eapply lwp_mono; [by apply (lwp_scriptAddEdges Y)|]. intros [] k1 _. by lwp_steps. }
  pose proof (run_script_wp _ _ _ k s Hw) as H. rewrite Hrun in H. destruct H as [[? ?] ?]. done.
Qed.




(** C20: Complete answers only for the current lease of a claimed node, and then
    the node holds the outcome: done with the result and the status reported,
    skipped, or failed, and instead of failed waiting for another try when it
    has tries left. *)
Theorem redis_complete_outcome (Y : string -> Prop) (gs : list lgrant) (k : keys) id ep success reason message result cap s s' k' r ef :
  reached (C := C) Y gs k ->
  run_script (scriptComplete id ep success reason message result cap) s k = (s', k', inl (r, ef)) ->
  exists h, k_node k !! id = Some h /\ h_phase h = PhaseClaimed /\ h_epoch h = ep /\ completed id success reason result h r k k'.
Proof.
  intros Hr Hrun. pose proof (ro_inv _ _ _ (reached_ok Y gs k Hr)) as Hi.
  pose proof (run_script_wp _ _ _ k s (lwp_scriptComplete Y id ep success reason message result cap k Hi)) as H. rewrite Hrun in H.
  destruct H as (_ & _ & h & Hh & Hp & He & _ & Hc). by exists h.
Qed.

(** C21: [addEdgeOrder] reports a cycle exactly when the target of the new edge
    reaches its source, and then changes nothing; otherwise it leaves ranks in
    which every edge and the new one ascend, handed out among the same nodes,
    and changes nothing else. *)
Theorem redis_edge_order (Y : string -> Prop) (gs : list lgrant) (k : keys) (x y : string) t :
  reached (C := C) Y gs k -> is_node k x -> is_node k y -> x <> y -> l_k t = k ->
  match addEdgeOrder x y t with
  | (t', inl CycleFound) => l_k t' = k /\ rtc (edge k) y x
  | (t', inl _) => ~ rtc (edge k) y x /\ reordered k (l_k t') /\ (rk (l_k t') x < rk (l_k t') y)%Z
  | (_, inr _) => False
  end.
Proof.
  intros Hr Hx Hy Hne Ht. pose proof (ki_graph (ro_inv _ _ _ (reached_ok Y gs k Hr))) as Hg.
  pose proof (lwp_addEdgeOrder (C := C) k Hg x y Hx Hy Hne t Ht) as H. destruct (addEdgeOrder x y t) as [t' [[]|e]]; done.
Qed.

(** C17: Let a client make whatever calls but [CollectTerminal], on whatever
    server, commands lost and repeated included, on scopes without a closing
    brace in their names.  Then the keys of these scopes all have different
    names, each scope is where a sequence of commands leads from no keys, and no
    call ends because a script broke off: searches and cascades end within their
    bounds, no script meets a missing field, and every refusal is one of the
    library's errors. *)
Theorem redis_calls_sound `{!Json} (cfg0 : settings) (cs : list call) (c : C) :
  (forall scope, scope ∈ omap call_scope cs -> braceless scope = true) ->
  (forall scope scope' k k', scope ∈ omap call_scope cs -> scope' ∈ omap call_scope cs ->
    key_name (s_keyspace cfg0) scope k = key_name (s_keyspace cfg0) scope' k' -> scope = scope' /\ k = k') /\
  (forall scope, exists Y gs, reached (C := C) Y gs (keys_of (run_calls cfg0 cs (fresh_store c)).1 scope)) /\
  Forall unbroken (run_calls cfg0 cs (fresh_store c)).2.
Proof.
  intros Hb. split; [|by apply run_calls_ok, fresh_ok]. intros scope scope' k k' H1 H2. by apply key_name_inj; apply Hb.
Qed.

End Runs.

(** ** Examples *)

Lemma redis_keys_agree_witness : exists Y, kinv None None Y (play load noKeys) /\
  k_leases (play load noKeys) = {[ "c"%string := 1030000%Z ]}.
Proof.
  destruct (played load load_valid) as [Y Hr]. exists Y. split; [exact (redis_keys_agree Y _ _ Hr)|]. vm_compute. reflexivity.
Defined.

(** A node that is leased, fails, is leased again, removed, added and leased. *)
Definition lives : list cmd :=
  [DoAddNodes "{s}:" 100 [a_spec "a" 0 []]; DoClaim [] 1 30000 100 0 "w"; DoComplete "a" 1 false ReasonNone "" [] 1000;
   DoClaim [] 1 30000 100 0 "w"; DoComplete "a" 2 true ReasonNone "" [] 1000; DoRemoveNode "a" CascadeReject;
   DoAddNodes "{s}:" 100 [a_spec "a" 0 []]; DoClaim [] 1 30000 100 0 "w"].

Lemma lives_valid : Forall valid_cmd lives.
Proof.
  repeat constructor; intros s Hs; repeat (apply elem_of_cons in Hs as [->|Hs]; [cbn; apply not_elem_of_nil|]); by apply not_elem_of_nil in Hs.
Qed.

Lemma redis_epochs_never_repeat_witness : NoDup (keys_of_leases (leases_after lives noKeys)) /\
  keys_of_leases (leases_after lives noKeys) = [("a"%string, 1%Z); ("a"%string, 2%Z); ("a"%string, 3%Z)].
Proof.
  destruct (played lives lives_valid) as [Y Hr]. split; [exact (redis_epochs_never_repeat Y _ _ Hr)|]. vm_compute. reflexivity.
Defined.

(** A cycle that is found after one edge of the batch was linked. *)
Definition cyclic : cmd := DoAddEdges [("a", "c"); ("b", "a")]%string.

Lemma redis_failed_batch_undone_witness : exists s' k' e,
  run_script (run_cmd cyclic) start_time (play load noKeys) = (s', k', inr e) /\ restored (play load noKeys) k'.
Proof.
  destruct (played load load_valid) as [Y Hr].
  destruct (run_script (run_cmd cyclic) start_time (play load noKeys)) as [[s' k'] [x|e]] eqn:E.
  - exfalso. assert (Hb : match (run_script (run_cmd cyclic) start_time (play load noKeys)).2 with inl _ => true | inr _ => false end = false)
      by (vm_compute; reflexivity). by rewrite E in Hb.
  - exists s', k', e. split; [done|]. by eapply (redis_failed_batch_undone Y _ (play load noKeys) cyclic).
Defined.


Lemma redis_complete_outcome_witness : exists s' k' r ef h,
  run_script (scriptComplete "c" 1 true ReasonNone "" [] 1000) start_time (play load noKeys) = (s', k', inl (r, ef)) /\
  k_node (play load noKeys) !! "c"%string = Some h /\ completed "c" true ReasonNone [] h r (play load noKeys) k'.
Proof.
  destruct (played load load_valid) as [Y Hr].
  assert (Hb : match (run_script (scriptComplete "c" 1 true ReasonNone "" [] 1000) start_time (play load noKeys)).2 with
               | inl _ => true | inr _ => false end = true) by (vm_compute; reflexivity).
  destruct (run_script (scriptComplete "c" 1 true ReasonNone "" [] 1000) start_time (play load noKeys)) as [[s' k'] [[r ef]|e]] eqn:E; [|discriminate Hb].
  destruct (redis_complete_outcome Y _ _ "c" 1 true ReasonNone "" [] 1000 start_time s' k' r ef Hr E) as (h & Hh & _ & _ & Hc).
  exists s', k', r, ef, h. split_and!; done.
Defined.

Lemma redis_edge_order_witness : rtc (edge (play load noKeys)) "a"%string "b"%string.
Proof.
  destruct (played load load_valid) as [Y Hr].
  assert (Hb : match (addEdgeOrder "b" "a" (mkLst start_time (play load noKeys) [])).2 with inl CycleFound => true | _ => false end = true)
    by (vm_compute; reflexivity).
  pose proof (redis_edge_order Y _ _ "b" "a" (mkLst start_time (play load noKeys) []) Hr) as H.
  destruct (addEdgeOrder "b" "a" (mkLst start_time (play load noKeys) [])) as [t' [[]|e]]; try discriminate Hb.
  apply H; [vm_compute; by eexists|vm_compute; by eexists|done|done].
Defined.

(** Some text for a map of strings. *)
Fixpoint bits (p : positive) : string :=
  match p with
  | xH => "."
  | xO p => String (Ascii.ascii_of_nat 48) (bits p)
  | xI p => String (Ascii.ascii_of_nat 49) (bits p)
  end.

Fixpoint unbits (s : string) : positive :=
  match s with
  | String a s =>
    if bool_decide (a = Ascii.ascii_of_nat 48) then xO (unbits s)
    else if bool_decide (a = Ascii.ascii_of_nat 49) then xI (unbits s) else xH
  | EmptyString => xH
  end.

Lemma unbits_bits p : unbits (bits p) = p.
Proof. induction p as [p IH|p IH|]; [..|done]; exact (f_equal _ IH). Qed.

#[export, refine] Instance some_json : Json := {|
  json_Marshal m := bits (encode m);
  json_Unmarshal s := default ∅ (decode (unbits s))
|}.
Proof.
  - intros m. by destruct (encode m).
  - intros m _. by rewrite unbits_bits, decode_encode.
Defined.

Definition plain_spec (id : string) (deps : list string) : NodeSpec := mkSpec id "k" [] ∅ 0 TriggerAllSuccess (mkRetry 1 0 0) deps.

Definition some_calls : list call :=
  [CallAddNodes "s" [plain_spec "a" []; plain_spec "b" ["a"%string]]; CallAddEdges "s" [mkEdge "b" "a"]; CallCancel "s" ["a"%string];
   CallRemoveNode "s" "b" CascadeReject].

(** The two nodes and the refused edge; the second node ends with the first, and
    can then be removed. *)
Lemma redis_calls_sound_witness :
  Forall unbroken (run_calls (New []) some_calls (fresh_store start_time)).2 /\
  (run_calls (New []) some_calls (fresh_store start_time)).2 =
    [inl tt; inr (Domain (CycleError "s" "b" "a" [])); inl tt; inl tt] /\
  elements (k_idx (keys_of (run_calls (New []) some_calls (fresh_store start_time)).1 "s")) = ["a"%string].
Proof.
  assert (Hb : forall scope, scope ∈ omap call_scope some_calls -> braceless scope = true).
  { intros scope. cbn. intros Hin. repeat (apply elem_of_cons in Hin as [->|Hin]; [reflexivity|]). by apply not_elem_of_nil in Hin. }
  split; [exact (proj2 (proj2 (redis_calls_sound (New []) some_calls start_time Hb)))|]. vm_compute. split; reflexivity.
Defined.

(** * Where the Redis backend departs from its promises

    Each lemma evaluates the model on one history. *)

(** [scriptCollectIfEligible] with a cutoff in the future. *)
Definition collected (id : string) (k : keys) : keys := (run_script (scriptCollectIfEligible id 9000000) start_time k).1.2.

Definition answer_of {A : Type} (m : L Z A) (k : keys) : A + lerror :=
  match (run_script m start_time k).2 with inl (a, _) => inl a | inr e => inr e end.

Definition one_life : list cmd :=
  [DoAddNodes "{s}:" 100 [a_spec "a" 0 []]; DoClaim [] 1 30000 100 0 "w"; DoComplete "a" 1 true ReasonNone "" [] 1000].

(** The script that collects does not raise the epoch floor, so a node that is
    collected and added again is leased with an epoch already used. *)
Lemma redis_collect_reuses_epoch :
  let again := [DoAddNodes "{s}:" 100 [a_spec "a" 0 []]; DoClaim [] 1 30000 100 0 "w"] in
  keys_of_leases (leases_after one_life noKeys) = [("a"%string, 1%Z)] /\
  keys_of_leases (leases_after again (collected "a" (play one_life noKeys))) = [("a"%string, 1%Z)].
Proof. vm_compute. split; reflexivity. Qed.

Definition always (id : string) (deps : list string) : lspec := mkLspec id "k" 0 TriggerAlways 2 0 0 [] "" deps.

(** Three nodes in a row; the last two have ended, and the last is collected. *)
Definition row : list cmd :=
  [DoAddNodes "{s}:" 100 [always "p" []; always "a" ["p"%string]; always "b" ["a"%string]];
   DoClaim [] 3 30000 100 0 "w"; DoComplete "a" 1 true ReasonNone "" [] 1000; DoComplete "b" 1 true ReasonNone "" [] 1000].

Definition dangling : keys := collected "b" (play row noKeys).

(** The collected node stays among its predecessor's successors: the
    predecessor is never collected or removed, and a later search for a cycle
    that comes by breaks off in the middle of a batch, whose earlier node
    stays. *)
Lemma redis_collect_leaves_edge :
  k_node dangling !! "b"%string = None /\ succs_of dangling "a" = ["b"%string] /\
  answer_of (scriptCollectIfEligible "a" 9000000) dangling = inl false /\
  answer_of (scriptRemoveNode "a" CascadeReject) dangling = inr (ErrorReply "DWERR HASSUCC a 1") /\
  (let batch := scriptAddNodes "{s}:" 100 [always "q" []; always "p" ["q"%string]] in
   answer_of batch dangling = inr NilError /\
   bool_decide (is_Some (k_node (run_script batch start_time dangling).1.2 !! "q"%string)) = true).
Proof. vm_compute. split_and!; reflexivity. Qed.

(** Sealing a scope without a configuration makes the store read a configuration
    of zeroes instead of the defaults it was opened with. *)
Lemma redis_seal_hides_defaults :
  stored_config noKeys = None /\ stored_config (play [DoSeal] noKeys) = Some zeroConfig.
Proof. vm_compute. split; reflexivity. Qed.

(** The retry settings given to [WithScopeDefaults] never reach the scripts. *)
Lemma redis_defaults_ignored k h : k_cfg k = ∅ -> h_retryMaxAttempts h = 0%Z -> tries_of k h = 3%Z.
Proof. intros Hc Hr. unfold tries_of. by rewrite Hc, Hr. Qed.

(** An error reply is split at white space, which an identifier may contain. *)
Lemma redis_cycle_error_garbled :
  NodeID_validate "a b" = None /\
  mapScriptErr "s" (dwerr ["CYCLE"; "a b"; "c"]%string) = Some (CycleError "s" "a" "b" []).
Proof. vm_compute. split; reflexivity. Qed.

(** RemoveEdges that fails at its second edge leaves the target of the first
    blocked although nothing holds it back. *)
Lemma redis_removeEdges_leaves_blocked :
  let k := play [DoAddNodes "{s}:" 100 [a_spec "a" 0 []; a_spec "b" 0 ["a"%string]]; DoRemoveEdges [("a", "b"); ("x", "b")]%string] noKeys in
  match k_node k !! "b"%string with Some h => (h_phase h, rule_met h) | None => (PhaseDone, false) end = (PhaseBlocked, true).
Proof. vm_compute. reflexivity. Qed.

(** A node that waits for its retry and is given a new predecessor meanwhile is
    leased before that predecessor ends. *)
Lemma redis_retry_ignores_new_edge :
  let k := play [DoAddNodes "{s}:" 100 [a_spec "a" 0 []]; DoClaim [] 1 30000 100 0 "w"; DoComplete "a" 1 false ReasonNone "" [] 1000;
                 DoAddNodes "{s}:" 100 [a_spec "z" 0 []]; DoAddEdges [("z", "a")]%string; DoClaim [] 2 30000 100 0 "w"] noKeys in
  match k_node k !! "a"%string with Some h => (h_phase h, rule_met h) | None => (PhaseDone, true) end = (PhaseClaimed, false).
Proof. vm_compute. reflexivity. Qed.
