(* ===== verification/Http.v ===== *)
(** * The HTTP adapter: [adapters/http]

    The routes, the wire types, the errors, the authorization and the handlers,
    over the manager of [Manager].  A request is its method, the segments of its
    path with their escapes undone, its query, headers and body; a response is
    its status, headers and the value that is marshalled into its body.  What
    [net/http] does before the handler sees the request (parsing, redirects to
    clean paths) and [encoding/json] are not part of the sources: a decoder is a
    parameter.  Error texts and logging are left out. *)
From S2P Require Import Prelude Types GoText Config Subscribe Manager.
From stdpp Require Import pretty.
From Stdlib Require Import Ascii.

#[local] Existing Instance Mgr.Manager_eta.

(** [time.ParseDuration] and [Duration.String]. *)
Class DurationText := {
  ParseDuration : string -> option Z;
  Duration_String : Z -> string;
  duration_roundtrip d : (- 2 ^ 63 <= d < 2 ^ 63)%Z -> ParseDuration (Duration_String d) = Some d;
  duration_text d : Duration_String d <> ""%string
}.

(** ** Requests and responses *)

Inductive method := GET | HEAD | PUT | POST | DELETE | OtherMethod.

#[export] Instance method_eq_dec : EqDecision method.
Proof. solve_decision. Defined.

Record Request := mkRequest {
  rq_Method : method;
  rq_Path : list string;
  rq_Query : gmap string (list string);
  rq_Header : gmap string string;
  rq_Body : bytes
}.

(** [r.URL.Path]. *)
Definition URL_Path (r : Request) : string := foldr (fun s acc => ("/" ++ s ++ acc)%string) ""%string (rq_Path r).

Definition Header_Get (r : Request) (name : string) : string := default ""%string (rq_Header r !! name).
Definition Query_All (r : Request) (name : string) : list string := default [] (rq_Query r !! name).
Definition Query_Get (r : Request) (name : string) : string := default ""%string (head (Query_All r name)).

(** ** [leaseid.go] *)

Definition encodeLeaseID (node : string) (epoch : Z) : string :=
  EncodeToString RawURLEncoding (PutUint64 epoch ++ String.list_byte_of_string node).

Definition decodeLeaseID (token : string) : result (string * Z) :=
  match DecodeString RawURLEncoding token with
  | Some buf => if length buf <? 8 then Fail (Err ErrInvalidArgument)
                else Ok (String.string_of_list_byte (drop 8 buf), Uint64 (take 8 buf))
  | None => Fail (Err ErrInvalidArgument)
  end.

(** ** [problem.go] *)

Record slugEntry := mkSlug { sl_status : Z; sl_slug : string; sl_title : string }.

Definition errorTable : list (Sentinel * slugEntry) :=
  [(ErrNotFound, mkSlug 404 "not-found" "Not Found");
   (ErrIDConflict, mkSlug 409 "id-conflict" "ID Conflict");
   (ErrCycle, mkSlug 409 "cycle" "Dependency Cycle");
   (ErrCrossScopeEdge, mkSlug 400 "cross-scope-edge" "Cross-Scope Edge");
   (ErrAlreadyTerminal, mkSlug 409 "already-terminal" "Already Terminal");
   (ErrNodeInFlight, mkSlug 409 "node-in-flight" "Node In Flight");
   (ErrHasSuccessors, mkSlug 409 "has-successors" "Has Successors");
   (ErrLeaseMismatch, mkSlug 409 "lease-superseded" "Lease Superseded");
   (ErrLeaseExpired, mkSlug 409 "lease-expired" "Lease Expired");
   (ErrScopeSealed, mkSlug 409 "scope-sealed" "Scope Sealed");
   (ErrPayloadTooLarge, mkSlug 413 "payload-too-large" "Payload Too Large");
   (ErrSubscriberLagged, mkSlug 409 "subscriber-lagged" "Subscriber Lagged");
   (ErrCursorExpired, mkSlug 410 "cursor-expired" "Cursor Expired");
   (ErrInvalidArgument, mkSlug 400 "invalid-argument" "Invalid Argument");
   (ErrInvalidConfig, mkSlug 400 "invalid-argument" "Invalid Argument");
   (ErrUnsupported, mkSlug 501 "unsupported" "Unsupported");
   (ErrClosed, mkSlug 503 "shutting-down" "Shutting Down")].

Definition mapError (err : error) : slugEntry :=
  match List.find (fun row => errors_Is err row.1) errorTable with
  | Some row => row.2
  | None => mkSlug 500 "internal" "Internal Server Error"
  end.

(** A member of a problem beside the fixed ones. *)
Inductive member := Text (s : string) | Number (n : Z).

(** The detail, a text, is left out. *)
Record problem := mkProblem {
  p_Type : string;
  p_Title : string;
  p_Status : Z;
  p_Instance : string;
  p_Extra : list (string * member)
}.

(** ** [wire.go] *)

Definition encodingBase64 : string := "base64".

Record nodeWire := mkNodeWire {
  w_Name : string;
  w_Scope : string;
  w_ID : string;
  w_Kind : string;
  w_Status : Status;
  w_Reason : Reason;
  w_Message : string;
  w_Attempt : Z;
  w_Priority : Z;
  w_Trigger : string;
  w_RetryMaxAttempts : Z;
  w_RetryBaseDelay : string;
  w_RetryMaxDelay : string;
  w_PayloadEncoding : string;
  w_Payload : string;
  w_Labels : gmap string string;
  w_Seq : Z;
  w_CreatedAt : Time;
  w_UpdatedAt : Time
}.

Definition resourceName (scope id : string) : string := ("scopes/" ++ scope ++ "/nodes/" ++ id)%string.

(** [TriggerRule.String] ([node.go]). *)
Definition Trigger_String (t : TriggerRule) : string :=
  match t with
  | TriggerAllSuccess => "all_success"
  | TriggerAllDone => "all_done"
  | TriggerNoneFailed => "none_failed"
  | TriggerNoneFailedMinOneSuccess => "none_failed_min_one_success"
  | TriggerAlways => "always"
  | TriggerOther n => "trigger(" ++ pretty n ++ ")"
  end.

(** [Status.String] and [Status.UnmarshalText], [Reason.String] ([status.go]). *)
Definition Status_String (s : Status) : string :=
  match s with
  | StatusNew => "new"
  | StatusInProgress => "in_progress"
  | StatusSuccess => "success"
  | StatusError => "error"
  | StatusOther n => "status(" ++ pretty n ++ ")"
  end.

Definition Status_UnmarshalText (s : string) : result Status :=
  if bool_decide (s = "new"%string) then Ok StatusNew
  else if bool_decide (s = "in_progress"%string) then Ok StatusInProgress
  else if bool_decide (s = "success"%string) then Ok StatusSuccess
  else if bool_decide (s = "error"%string) then Ok StatusError
  else Fail (Err ErrInvalidArgument).

Definition Reason_String (r : Reason) : string :=
  match r with
  | ReasonNone => "none"
  | ReasonWorkerError => "worker_error"
  | ReasonTimeout => "timeout"
  | ReasonUpstreamFailed => "upstream_failed"
  | ReasonSkipped => "skipped"
  | ReasonCancelled => "cancelled"
  | ReasonRemoved => "removed"
  | ReasonOther n => "reason(" ++ pretty n ++ ")"
  end.

(** [EventKind.String] ([event.go]). *)
Definition EventKind_String (k : EventKind) : string :=
  match k with
  | EventCreated => "created"
  | EventTransition => "transition"
  | EventReady => "ready"
  | EventOther n => "event(" ++ pretty n ++ ")"
  end.

Definition quote : string := String (ascii_of_nat 34) EmptyString.

Definition nodeETag (n : Node) : string := (quote ++ "v" ++ pretty (nd_Seq n) ++ quote)%string.

Record createNodeRequest := mkCreate {
  cq_Kind : string;
  cq_PayloadEncoding : string;
  cq_Payload : string;
  cq_Priority : Z;
  cq_Trigger : string;
  cq_MaxAttempts : Z;
  cq_RetryBaseDelay : string;
  cq_RetryMaxDelay : string;
  cq_Labels : gmap string string;
  cq_Dependencies : list string
}.

Definition decodePayload (encoding payload : string) : result bytes :=
  if bool_decide (payload = ""%string) then Ok []
  else if negb (bool_decide (encoding = encodingBase64)) then Fail (Err ErrInvalidArgument)
  else match DecodeString StdEncoding payload with
       | Some raw => Ok raw
       | None => Fail (Err ErrInvalidArgument)
       end.

Definition triggerFromWire (s : string) : result TriggerRule :=
  if bool_decide (s = ""%string) || bool_decide (s = "all_success"%string) then Ok TriggerAllSuccess
  else if bool_decide (s = "all_done"%string) then Ok TriggerAllDone
  else if bool_decide (s = "none_failed"%string) then Ok TriggerNoneFailed
  else if bool_decide (s = "none_failed_min_one_success"%string) then Ok TriggerNoneFailedMinOneSuccess
  else if bool_decide (s = "always"%string) then Ok TriggerAlways
  else Fail (Err ErrInvalidArgument).

Definition cascadeFromWire (s : string) : result CascadePolicy :=
  if bool_decide (s = ""%string) || bool_decide (s = "reject"%string) then Ok CascadeReject
  else if bool_decide (s = "detach"%string) then Ok CascadeDetach
  else if bool_decide (s = "fail"%string) then Ok CascadeFail
  else Fail (Err ErrInvalidArgument).

Definition eventKindFromWire (s : string) : result EventKind :=
  if bool_decide (s = "created"%string) then Ok EventCreated
  else if bool_decide (s = "transition"%string) then Ok EventTransition
  else if bool_decide (s = "ready"%string) then Ok EventReady
  else Fail (Err ErrInvalidArgument).

Definition eventKindToWire (k : EventKind) : string :=
  match k with
  | EventCreated => "node.created"
  | EventTransition => "node.status"
  | EventReady => "work.available"
  | EventOther _ => EventKind_String k
  end.

Record scopeConfigWire := mkConfigWire {
  cw_DefaultLeaseTimeout : string;
  cw_MinLeaseTimeout : string;
  cw_MaxLeaseTimeout : string;
  cw_MaxAttempts : Z;
  cw_RetryBaseDelay : string;
  cw_RetryMaxDelay : string;
  cw_TerminalRetention : string;
  cw_MaxSubscriberLag : string;
  cw_MaxInFlight : Z;
  cw_PayloadCap : Z;
  cw_MaxBatchSize : Z;
  cw_SweepBatchSize : Z;
  cw_SweepInterval : string;
  cw_PartitionCount : Z
}.

Record scopeWire := mkScopeWire { sw_Name : string; sw_Config : scopeConfigWire; sw_Stats : ScopeStats }.

Record claimRequest := mkClaimWire {
  cl_WorkerID : string;
  cl_MaxNodes : Z;
  cl_LeaseSeconds : Z;
  cl_Wait : string;
  cl_Kinds : list string
}.

Record leaseWire := mkLeaseWire { lw_LeaseID : string; lw_FencingEpoch : Z; lw_Node : nodeWire; lw_Deadline : Time }.

Record completeRequest := mkCompleteWire { cm_ResultEncoding : string; cm_Result : string }.

Record failRequest := mkFailWire { fl_Message : string }.
Record skipRequest := mkSkipWire { sk_Reason : string }.
Record renewRequest := mkRenewWire { rw_LeaseSeconds : Z }.

Record completeResponse := mkCompletion {
  cs_Node : string;
  cs_Status : Status;
  cs_Reason : Reason;
  cs_CompletedAt : Time;
  cs_Retrying : bool;
  cs_NextAttemptAt : option Time
}.

Record renewResponse := mkRenewal { rn_LeaseID : string; rn_FencingEpoch : Z; rn_LeaseDeadline : Time }.

Record leaseInspectResponse := mkLeaseInspection {
  li_LeaseID : string;
  li_Node : string;
  li_FencingEpoch : Z;
  li_Active : bool;
  li_LeaseDeadline : Time
}.

(** ** [events.go], the data *)

Record eventWire := mkEventWire {
  ew_Scope : string;
  ew_Node : string;
  ew_Kind : string;
  ew_NodeKind : string;
  ew_From : string;
  ew_To : string;
  ew_Reason : string;
  ew_Message : string;
  ew_Attempt : Z;
  ew_At : Time;
  ew_Cursor : Z;
  ew_Gap : bool
}.

Definition eventToWire (ev : Event) : eventWire :=
  let named := bool_decide (ev_Kind ev = EventTransition) || bool_decide (ev_Kind ev = EventCreated) in
  mkEventWire (ev_Scope ev) (ev_NodeID ev) (eventKindToWire (ev_Kind ev)) (ev_NodeKind ev)
    (if named then Status_String (ev_From ev) else "")
    (if named then Status_String (ev_To ev) else "")
    (if bool_decide (ev_Reason ev = ReasonNone) then "" else Reason_String (ev_Reason ev))
    (ev_Message ev) (ev_Attempt ev) (ev_At ev) (ev_Cursor ev) (ev_Gap ev).

(** What a stream of server-sent events carries. *)
Inductive chunk := SSEEvent (id : Z) (event : string) (data : eventWire) | Heartbeat.

Definition writeSSEEvent (ev : Event) : chunk := SSEEvent (ev_Cursor ev) (eventKindToWire (ev_Kind ev)) (eventToWire ev).

(** The value marshalled into a body. *)
Inductive content :=
| NoContent
| NodeContent (n : nodeWire)
| NodesContent (ns : list nodeWire) (next : string)
| ScopeContent (s : scopeWire)
| ScopesContent (names : list string)
| LeasesContent (ls : list leaseWire)
| CompletionContent (c : completeResponse)
| RenewalContent (r : renewResponse)
| LeaseContent (l : leaseInspectResponse)
| EventsContent (es : list eventWire)
| StreamContent (cs : list chunk)
| ProblemContent (p : problem)
| OpenAPIContent
| PlainContent.      (* what net/http writes itself *)

Record Response := mkResponse { rs_Status : Z; rs_Header : gmap string string; rs_Content : content }.

Section Durations.
Context `{!DurationText}.

Definition nodeToWire (n : Node) : nodeWire :=
  let r := nd_Retry n in
  let some_payload := negb (bool_decide (nd_Payload n = [])) in
  mkNodeWire (resourceName (nd_Scope n) (nd_ID n)) (nd_Scope n) (nd_ID n) (nd_Kind n) (nd_Status n) (nd_Reason n)
    (nd_Message n) (nd_Attempt n) (nd_Priority n) (Trigger_String (nd_Trigger n))
    (if (0 <? rp_MaxAttempts r)%Z then rp_MaxAttempts r else 0)
    (if (0 <? rp_BaseDelay r)%Z then Duration_String (rp_BaseDelay r) else "")
    (if (0 <? rp_MaxDelay r)%Z then Duration_String (rp_MaxDelay r) else "")
    (if some_payload then encodingBase64 else "")
    (if some_payload then EncodeToString StdEncoding (nd_Payload n) else "")
    (nd_Labels n) (nd_Seq n) (nd_CreatedAt n) (nd_UpdatedAt n).

Definition parseDuration (s : string) : option Z :=
  if bool_decide (s = ""%string) then Some 0%Z else ParseDuration s.

Definition formatDuration (d : Z) : string := if (d <=? 0)%Z then ""%string else Duration_String d.

(** [parseDuration] with its error wrapped. *)
Definition duration_field (s : string) : result Z :=
  match parseDuration s with Some d => Ok d | None => Fail (Err ErrInvalidArgument) end.

Definition toNodeSpec (req : createNodeRequest) (id : string) : result NodeSpec :=
  match decodePayload (cq_PayloadEncoding req) (cq_Payload req) with
  | Fail e => Fail e
  | Ok payload =>
    match triggerFromWire (cq_Trigger req) with
    | Fail e => Fail e
    | Ok trigger =>
      match duration_field (cq_RetryBaseDelay req), duration_field (cq_RetryMaxDelay req) with
      | Ok base, Ok max =>
        Ok (mkSpec id (cq_Kind req) payload (cq_Labels req) (cq_Priority req) trigger
              (mkRetry (cq_MaxAttempts req) base max) (cq_Dependencies req))
      | Fail e, _ | _, Fail e => Fail e
      end
    end
  end.

Definition scopeConfigToWire (c : ScopeConfig) : scopeConfigWire :=
  mkConfigWire (formatDuration (c_DefaultLeaseTimeout c)) (formatDuration (c_MinLeaseTimeout c))
    (formatDuration (c_MaxLeaseTimeout c)) (c_MaxAttempts c) (formatDuration (c_RetryBaseDelay c))
    (formatDuration (c_RetryMaxDelay c)) (formatDuration (c_TerminalRetention c))
    (formatDuration (c_MaxSubscriberLag c)) (c_MaxInFlight c) (c_PayloadCap c) (c_MaxBatchSize c)
    (c_SweepBatchSize c) (formatDuration (c_SweepInterval c)) (c_PartitionCount c).

Definition toDomain (w : scopeConfigWire) : result ScopeConfig :=
  match duration_field (cw_DefaultLeaseTimeout w), duration_field (cw_MinLeaseTimeout w),
        duration_field (cw_MaxLeaseTimeout w), duration_field (cw_RetryBaseDelay w),
        duration_field (cw_RetryMaxDelay w), duration_field (cw_TerminalRetention w),
        duration_field (cw_MaxSubscriberLag w), duration_field (cw_SweepInterval w) with
  | Ok dl, Ok mn, Ok mx, Ok rb, Ok rm, Ok tr, Ok lag, Ok sw =>
    Ok (mkConfig dl mn mx (cw_MaxAttempts w) rb rm tr lag (cw_MaxInFlight w) (cw_PayloadCap w)
          (cw_MaxBatchSize w) 0 (cw_SweepBatchSize w) sw (cw_PartitionCount w))
  | _, _, _, _, _, _, _, _ => Fail (Err ErrInvalidArgument)
  end.

Definition leaseToWire (l : Lease) : leaseWire :=
  mkLeaseWire (encodeLeaseID (l_NodeID l) (l_Epoch l)) (l_Epoch l) (nodeToWire (default zeroNode (l_Node l))) (l_Deadline l).

(** ** [claim.go], the request *)

Definition clampWait (raw : string) (maxWait budget : Z) : result Z :=
  match parseDuration raw with
  | None => Fail (Err ErrInvalidArgument)
  | Some d =>
    if (d <? 0)%Z then Fail (Err ErrInvalidArgument)
    else let effective := Z.min d maxWait in Ok (if (budget <? effective)%Z then (effective - budget)%Z else effective)
  end.

End Durations.

Definition claimOptionsFromWire (req : claimRequest) : list (option Mgr.ClaimOption) :=
  (if bool_decide (cl_WorkerID req = ""%string) then [] else [Some (Mgr.AsWorker (cl_WorkerID req))])
  ++ (if bool_decide (cl_Kinds req = []) then [] else [Some (Mgr.OfKind (cl_Kinds req))])
  ++ (if (0 <? cl_LeaseSeconds req)%Z then [Some (Mgr.WithLeaseTimeout (i64 (cl_LeaseSeconds req * Second)))] else []).

(** ** [nodes.go], the options of a node *)

Definition nodeOptionsFromSpec (spec : NodeSpec) : list (option NodeOption) :=
  [Some (WithKind (sp_Kind spec)); Some (WithPriority (sp_Priority spec)); Some (WithTrigger (sp_Trigger spec))]
  ++ (if bool_decide (sp_Deps spec = []) then [] else [Some (WithDeps (sp_Deps spec))])
  ++ (if bool_decide (sp_Labels spec = ∅) then [] else [Some (WithLabels (sp_Labels spec))])
  ++ (if bool_decide (sp_Retry spec = mkRetry 0 0 0) then []
      else [Some (WithRetry (rp_MaxAttempts (sp_Retry spec)) (rp_BaseDelay (sp_Retry spec)) (rp_MaxDelay (sp_Retry spec)))]).

(** ** [requestutil.go] *)

(** What [Decode] reports: a value, the end of the body before one, or an
    error.  [cut] says that the body was longer than the limit, so that reading
    on fails. *)
Inductive decoded (T : Type) := Decoded (v : T) | EOF | Malformed.
Arguments Decoded {T}.
Arguments EOF {T}.
Arguments Malformed {T}.

Class Decoder (T : Type) := Decode : bytes -> bool -> decoded T.

Definition decodeJSON {T : Type} `{!Decoder T} (zero : T) (limit : nat) (r : Request) : result T :=
  match Decode (take limit (rq_Body r)) (limit <? length (rq_Body r)) with
  | Decoded v => Ok v
  | EOF => Ok zero
  | Malformed => Fail (Err ErrInvalidArgument)
  end.

Definition queryInt (r : Request) (name : string) (def : Z) : result Z :=
  let raw := Query_Get r name in
  if bool_decide (raw = ""%string) then Ok def
  else match ParseInt raw with Some n => Ok n | None => Fail (Err ErrInvalidArgument) end.

Definition queryCSV (r : Request) (name : string) : list string :=
  v ← Query_All r name;
  part ← Split v ",";
  let part := TrimSpace part in if bool_decide (part = ""%string) then [] else [part].

(** The results of a loop that stops at the first error. *)
Fixpoint collect {A B : Type} (f : A -> result B) (l : list A) : result (list B) :=
  match l with
  | [] => Ok []
  | x :: l =>
    match f x with
    | Fail e => Fail e
    | Ok y => match collect f l with Ok ys => Ok (y :: ys) | Fail e => Fail e end
    end
  end.

Definition statusesFromWire (values : list string) : result (list Status) := collect Status_UnmarshalText values.

Definition subscribeOptionsFromRequest (r : Request) (scope : string) : result SubscribeOptions :=
  match collect eventKindFromWire (queryCSV r "event_kinds") with
  | Fail e => Fail e
  | Ok kinds =>
    let replay := bool_decide (Query_Get r "replay" = "true"%string) in
    let last := Header_Get r "Last-Event-ID" in
    let cursor := if bool_decide (last = ""%string) then Query_Get r "cursor" else last in
    let opts from := mkSubscribeOptions scope kinds (queryCSV r "node_kinds") from replay 0 None false in
    if bool_decide (cursor = ""%string) then Ok (opts 0%Z)
    else match ParseUint cursor with Some n => Ok (opts n) | None => Fail (Err ErrInvalidArgument) end
  end.

(** ** [routes.go] *)

Definition splitVerb (segment : string) : option (string * string) :=
  match cut_last segment ":" with
  | Some (id, verb) => if bool_decide (id = ""%string) || bool_decide (verb = ""%string) then None else Some (id, verb)
  | None => None
  end.

Definition splitEdgeTail (segment : string) : option (string * string) :=
  match Cut segment ".." with
  | Some (from, to) => if bool_decide (from = ""%string) || bool_decide (to = ""%string) then None else Some (from, to)
  | None => None
  end.

Inductive endpoint :=
| ListScopes
| PutScope (scope : string)
| GetScope (scope : string)
| ScopeAction (tail : string)
| PutNode (scope node : string)
| GetNode (scope node : string)
| DeleteNode (scope node : string)
| ListNodes (scope : string)
| ClaimNodes (scope : string)
| NodeAction (scope tail : string)
| PutEdge (scope tail : string)
| DeleteEdge (scope tail : string)
| GetLease (scope lease : string)
| LeaseAction (scope tail : string)
| Events (scope : string)
| OpenAPI.

(** A segment of a pattern: a literal or a wildcard, which matches any segment
    that is not empty. *)
Inductive segment := Lit (s : string) | Wild.

Fixpoint match_path (p : list segment) (path : list string) : option (list string) :=
  match p, path with
  | [], [] => Some []
  | Lit s :: p, x :: path => if bool_decide (x = s) then match_path p path else None
  | Wild :: p, x :: path =>
    if bool_decide (x = ""%string) then None
    else match match_path p path with Some vs => Some (x :: vs) | None => None end
  | _, _ => None
  end.

Definition scopes_ (rest : list segment) : list segment := Lit "v1" :: Lit "scopes" :: rest.

Definition two (f : string -> string -> endpoint) (vs : list string) : endpoint :=
  match vs with [a; b] => f a b | _ => OpenAPI end.
Definition one (f : string -> endpoint) (vs : list string) : endpoint :=
  match vs with [a] => f a | _ => OpenAPI end.

(** No two patterns of one method match the same path, so their order does not
    matter. *)
Definition routes : list (method * list segment * (list string -> endpoint)) :=
  [(GET, scopes_ [], fun _ => ListScopes);
   (PUT, scopes_ [Wild], one PutScope);
   (GET, scopes_ [Wild], one GetScope);
   (POST, scopes_ [Wild], one ScopeAction);
   (PUT, scopes_ [Wild; Lit "nodes"; Wild], two PutNode);
   (GET, scopes_ [Wild; Lit "nodes"; Wild], two GetNode);
   (DELETE, scopes_ [Wild; Lit "nodes"; Wild], two DeleteNode);
   (GET, scopes_ [Wild; Lit "nodes"], one ListNodes);
   (POST, scopes_ [Wild; Lit "nodes:claim"], one ClaimNodes);
   (POST, scopes_ [Wild; Lit "nodes"; Wild], two NodeAction);
   (PUT, scopes_ [Wild; Lit "edges"; Wild], two PutEdge);
   (DELETE, scopes_ [Wild; Lit "edges"; Wild], two DeleteEdge);
   (GET, scopes_ [Wild; Lit "leases"; Wild], two GetLease);
   (POST, scopes_ [Wild; Lit "leases"; Wild], two LeaseAction);
   (GET, scopes_ [Wild; Lit "events"], one Events);
   (GET, [Lit "openapi.yaml"], fun _ => OpenAPI)].

(** A pattern for GET also matches HEAD. *)
Definition match_method (pattern m : method) : bool :=
  bool_decide (pattern = m) || (bool_decide (pattern = GET) && bool_decide (m = HEAD)).

Fixpoint match_routes (rs : list (method * list segment * (list string -> endpoint))) (m : method) (path : list string)
    : option endpoint :=
  match rs with
  | [] => None
  | (pm, p, f) :: rs =>
    match match_path p path with
    | Some vs => if match_method pm m then Some (f vs) else match_routes rs m path
    | None => match_routes rs m path
    end
  end.

(** What the multiplexer finds: an endpoint, or that only the method is wrong,
    or nothing. *)
Inductive routed := Found (e : endpoint) | MethodNotAllowed | NotFound.

Definition route (r : Request) : routed :=
  match match_routes routes (rq_Method r) (rq_Path r) with
  | Some e => Found e
  | None => if existsb (fun row => bool_decide (is_Some (match_path row.1.2 (rq_Path r)))) routes then MethodNotAllowed
            else NotFound
  end.

(** ** [auth.go] *)

(** What an authorizer may answer with. *)
Inductive denial := ErrUnauthenticated | ErrPermissionDenied | OtherDenial.

Definition Authorizer := Request -> option denial.

(** Before routing no path value is set. *)
Definition RequestScope (r : Request) : string :=
  match CutPrefix (URL_Path r) "/v1/scopes/" with
  | None => ""
  | Some p =>
    let p := match Cut p "/" with Some (l, _) => l | None => p end in
    match cut_last p ":" with
    | Some (l, _) => if bool_decide (l = ""%string) then p else l
    | None => p
    end
  end.

Definition bearerCredential (header : string) : option string :=
  match Cut header " " with
  | None => None
  | Some (scheme, rest) =>
    if negb (EqualFold scheme "Bearer") then None
    else let rest := TrimSpace rest in if bool_decide (rest = ""%string) then None else Some rest
  end.

(** [BearerToken], for a digest. *)
Definition BearerToken (sha256 : string -> bytes) (tokens : list string) : Authorizer := fun r =>
  let digests := sha256 <$> filter (fun t => t <> ""%string) tokens in
  match bearerCredential (Header_Get r "Authorization") with
  | None => Some ErrUnauthenticated
  | Some presented =>
    let sum := sha256 presented in
    if existsb (fun d => bool_decide (sum = d)) digests then None else Some ErrPermissionDenied
  end.

(** ** [options.go] *)

Definition defaultMaxWait : Z := 60 * Second.
Definition defaultWaitBudget : Z := 500 * Millisecond.
Definition defaultHeartbeat : Z := 15 * Second.
Definition defaultReadHeaderTimeout : Z := 5 * Second.
Definition defaultWriteTimeout : Z := 30 * Second.
Definition defaultIdleTimeout : Z := 120 * Second.
Definition defaultMaxBodyBytes : Z := Z.shiftl 1 20.
Definition defaultProblemBaseURI : string := "https://dagworker.dev/problems/".

Record options := mkOptions {
  op_authorizer : option Authorizer;
  op_maxWait : Z;
  op_waitBudget : Z;
  op_heartbeat : Z;
  op_readHeaderTimeout : Z;
  op_writeTimeout : Z;
  op_idleTimeout : Z;
  op_maxBodyBytes : Z;
  op_problemBaseURI : string
}.

#[export] Instance options_eta : Eta options := fun o =>
  mkOptions (op_authorizer o) (op_maxWait o) (op_waitBudget o) (op_heartbeat o) (op_readHeaderTimeout o)
    (op_writeTimeout o) (op_idleTimeout o) (op_maxBodyBytes o) (op_problemBaseURI o).

Definition defaultOptions : options :=
  mkOptions None defaultMaxWait defaultWaitBudget defaultHeartbeat defaultReadHeaderTimeout defaultWriteTimeout
    defaultIdleTimeout defaultMaxBodyBytes defaultProblemBaseURI.

Inductive Option :=
| WithMaxWait (d : Z)
| WithHeartbeatInterval (d : Z)
| WithTimeouts (readHeader write idle : Z)
| WithMaxBodyBytes (n : Z)
| WithProblemBaseURI (uri : string)
| WithAuthorizer (a : option Authorizer).

Definition positive (d old : Z) : Z := if (0 <? d)%Z then d else old.

Definition apply_option (o : Option) (c : options) : options :=
  match o with
  | WithMaxWait d => c <| op_maxWait ::= positive d |>
  | WithHeartbeatInterval d => c <| op_heartbeat ::= positive d |>
  | WithTimeouts h w i =>
    c <| op_readHeaderTimeout ::= positive h |> <| op_writeTimeout ::= positive w |> <| op_idleTimeout ::= positive i |>
  | WithMaxBodyBytes n => c <| op_maxBodyBytes ::= positive n |>
  | WithProblemBaseURI uri => if bool_decide (uri = ""%string) then c else c <| op_problemBaseURI := uri |>
  | WithAuthorizer a => match a with Some a => c <| op_authorizer := Some a |> | None => c end
  end.

(** [apply_all] over the options; [None] is a nil option or manager. *)
Definition New {M : Type} (m : option M) (opts : list (option Option)) : result options :=
  match m with
  | None => Fail (Err ErrInvalidArgument)
  | Some _ =>
    match apply_all apply_option opts defaultOptions with
    | None => Fail (Err ErrInvalidArgument)
    | Some o => Ok o
    end
  end.

(** ** The handlers *)

(** The case a turn of the loop over a stream takes. *)
Inductive stream_case := RequestDone | ServerDone | EventReceived | HeartbeatDue.

Definition problemContentType : string := "application/problem+json".

(** A body of a content type, beside the headers already set. *)
Definition typed (contentType : string) (h : gmap string string) : gmap string string :=
  <["Content-Type"%string := contentType]> h.

Section Server.
Context {S : Type} `{!Backend S} `{!DurationText}.
Context `{!Decoder createNodeRequest} `{!Decoder scopeConfigWire} `{!Decoder claimRequest}
  `{!Decoder completeRequest} `{!Decoder failRequest} `{!Decoder skipRequest} `{!Decoder renewRequest}.

(** What happens around a request: how far the consumers of subscriptions get
    while its effects are published, what everyone else does to the manager
    between two of its calls, the rounds of a waiting claim, and the cases of a
    stream. *)
Record world := mkWorld {
  wd_drains : drains;
  wd_others : Mgr.Manager S -> Mgr.Manager S;
  wd_rounds : list (Mgr.round (S := S));
  wd_cases : list stream_case
}.

Context (o : options) (w : world).

Local Notation Manager := (Mgr.Manager S).

Definition limit : nat := Z.to_nat (op_maxBodyBytes o).

(** *** Problems *)

Definition extra_of (e : error) : list (string * member) :=
  match e with
  | InvalidArgumentError f => [("field"%string, Text f)]
  | CycleError _ from to _ => [("from"%string, Text from); ("to"%string, Text to)]
  | PayloadTooLargeError size cap => [("size"%string, Number size); ("cap"%string, Number cap)]
  | Err _ => []
  end.

Definition writeProblem (r : Request) (e : error) : Response :=
  let entry := mapError e in
  mkResponse (sl_status entry) (typed problemContentType ∅)
    (ProblemContent (mkProblem (op_problemBaseURI o ++ sl_slug entry) (sl_title entry) (sl_status entry) (URL_Path r) (extra_of e))).

(** [http.StatusText] of the only status it is used for. *)
Definition writeProblemStatus (r : Request) (status : Z) (slug : string) : Response :=
  mkResponse status (typed problemContentType ∅) (ProblemContent (mkProblem (op_problemBaseURI o ++ slug) "Not Found" status (URL_Path r) [])).

Definition writeAuthProblem (r : Request) (d : denial) : Response :=
  match d with
  | ErrUnauthenticated =>
    mkResponse 401 (typed problemContentType {[ "WWW-Authenticate"%string := ("Bearer realm=" ++ quote ++ "dagworker" ++ quote)%string ]})
      (ProblemContent (mkProblem (op_problemBaseURI o ++ "unauthenticated") "Unauthenticated" 401 (URL_Path r) []))
  | ErrPermissionDenied | OtherDenial =>
    mkResponse 403 (typed problemContentType ∅)
      (ProblemContent (mkProblem (op_problemBaseURI o ++ "permission-denied") "Permission Denied" 403 (URL_Path r) []))
  end.

Definition writeJSON (status : Z) (c : content) : Response := mkResponse status (typed "application/json" ∅) c.

(** Answer without touching the manager any more. *)
Definition reply {A : Type} (m : Manager) (x : result A) (r : Request) (k : A -> Manager * Response) : Manager * Response :=
  match x with Ok a => k a | Fail e => (m, writeProblem r e) end.

(** A call on the manager that may fail, and then what others do. *)
Definition calling {A : Type} (x : Manager * answer A) (r : Request) (k : A -> Manager -> Manager * Response) : Manager * Response :=
  match x with
  | (m, (_, Some e)) => (m, writeProblem r e)
  | (m, (a, None)) => k a (wd_others w m)
  end.

(** *** [scopes.go] *)

Definition scopeSnapshot (scope : string) (m : Manager) : result scopeWire :=
  match Mgr.get_ScopeConfig scope m with
  | Fail e => Fail e
  | Ok cfg =>
    match Mgr.Stats scope (wd_others w m) with
    | Fail e => Fail e
    | Ok stats => Ok (mkScopeWire scope (scopeConfigToWire cfg) stats)
    end
  end.

Definition with_snapshot (r : Request) (scope : string) (m : Manager) : Manager * Response :=
  reply (wd_others w m) (scopeSnapshot scope m) r (fun snap => (wd_others w m, writeJSON 200 (ScopeContent snap))).

Definition handleListScopes (r : Request) (m : Manager) : Manager * Response :=
  reply m (Mgr.Scopes m) r (fun names => (m, writeJSON 200 (ScopesContent names))).

Definition zeroConfigWire : scopeConfigWire := mkConfigWire "" "" "" 0 "" "" "" "" 0 0 0 0 "" 0.

Definition handlePutScope (r : Request) (scope : string) (m : Manager) : Manager * Response :=
  reply m (decodeJSON zeroConfigWire limit r) r (fun wire =>
  reply m (toDomain wire) r (fun cfg =>
  calling (Mgr.Configure scope cfg m) r (fun _ m => with_snapshot r scope m))).

Definition handleGetScope (r : Request) (scope : string) (m : Manager) : Manager * Response := with_snapshot r scope m.

Definition handleScopeAction (r : Request) (tail : string) (m : Manager) : Manager * Response :=
  match splitVerb tail with
  | None => (m, writeProblemStatus r 404 "not-found")
  | Some (scope, verb) =>
    if bool_decide (verb = "seal"%string) then
      calling (Mgr.Seal scope m) r (fun _ m => with_snapshot r scope m)
    else if bool_decide (verb = "cancel"%string) then
      calling (Mgr.CancelScope (wd_drains w) scope m) r (fun _ m => with_snapshot r scope m)
    else (m, writeProblemStatus r 404 "not-found")
  end.

(** *** [nodes.go] *)

(** [true]: the precondition holds. *)
Definition checkIfMatch (r : Request) (existing : option Node) : bool :=
  let want := Header_Get r "If-Match" in
  if bool_decide (want = ""%string) then true
  else match existing with
       | None => false
       | Some n => bool_decide (want = "*"%string) || bool_decide (want = nodeETag n)
       end.

Definition writePreconditionFailed (r : Request) (current : option Node) : Response :=
  let extra := match current with Some n => [("current_etag"%string, Text (nodeETag n))] | None => [] end in
  mkResponse 412 (typed problemContentType ∅)
    (ProblemContent (mkProblem (op_problemBaseURI o ++ "precondition-failed") "Precondition Failed" 412 (URL_Path r) extra)).

Definition lookupNode (scope id : string) (m : Manager) : result (option Node) :=
  match Mgr.GetNode scope id m with
  | Ok n => Ok (Some n)
  | Fail e => if errors_Is e ErrNotFound then Ok None else Fail e
  end.

Definition zeroCreate : createNodeRequest := mkCreate "" "" "" 0 "" 0 "" "" ∅ [].

Definition handlePutNode (r : Request) (scope id : string) (m : Manager) : Manager * Response :=
  reply m (lookupNode scope id m) r (fun existing =>
  let m := wd_others w m in
  if negb (checkIfMatch r existing) then (m, writePreconditionFailed r existing)
  else
    reply m (decodeJSON zeroCreate limit r) r (fun req =>
    reply m (toNodeSpec req id) r (fun spec =>
    calling (Mgr.AddNode (wd_drains w) scope (sp_ID spec) (sp_Payload spec) (nodeOptionsFromSpec spec) m) r (fun _ m =>
    reply m (Mgr.GetNode scope id m) r (fun created =>
    (m, mkResponse (if existing then 200 else 201)
          (typed "application/json" (<["ETag"%string := nodeETag created]> {[ "Location"%string := URL_Path r ]}))
          (NodeContent (nodeToWire created)))))))).

Definition handleGetNode (r : Request) (scope id : string) (m : Manager) : Manager * Response :=
  reply m (Mgr.GetNode scope id m) r (fun n =>
  let etag := nodeETag n in
  let inm := Header_Get r "If-None-Match" in
  if negb (bool_decide (inm = ""%string)) && bool_decide (inm = etag)
  then (m, mkResponse 304 {[ "ETag"%string := etag ]} NoContent)
  else (m, mkResponse 200 (typed "application/json" {[ "ETag"%string := etag ]}) (NodeContent (nodeToWire n)))).

Definition remove_node (r : Request) (scope id : string) (m : Manager) : Manager * Response :=
  reply m (cascadeFromWire (Query_Get r "cascade")) r (fun policy =>
  match Mgr.RemoveNode (wd_drains w) scope id policy m with
  | (m, (_, Some e)) => (m, writeProblem r e)
  | (m, (_, None)) => (m, mkResponse 204 ∅ NoContent)
  end).

Definition handleDeleteNode (r : Request) (scope id : string) (m : Manager) : Manager * Response :=
  if bool_decide (Header_Get r "If-Match" = ""%string) then remove_node r scope id m
  else
    reply m (lookupNode scope id m) r (fun existing =>
    let m := wd_others w m in
    if checkIfMatch r existing then remove_node r scope id m else (m, writePreconditionFailed r existing)).

Definition handleListNodes (r : Request) (scope : string) (m : Manager) : Manager * Response :=
  reply m (statusesFromWire (queryCSV r "status")) r (fun statuses =>
  reply m (queryInt r "page_size" 0) r (fun limit =>
  reply m (Mgr.ListNodes scope (mkListOptions statuses (queryCSV r "kind") (Query_Get r "cursor") limit) m) r (fun res =>
  (m, writeJSON 200 (NodesContent (nodeToWire <$> lr_Nodes res) (lr_Next res)))))).

Definition handleNodeAction (r : Request) (scope tail : string) (m : Manager) : Manager * Response :=
  match splitVerb tail with
  | None => (m, writeProblemStatus r 404 "not-found")
  | Some (id, verb) =>
    if negb (bool_decide (verb = "cancel"%string)) then (m, writeProblemStatus r 404 "not-found")
    else
      calling (Mgr.Cancel (wd_drains w) scope [id] m) r (fun _ m =>
      reply m (Mgr.GetNode scope id m) r (fun n => (m, writeJSON 200 (NodeContent (nodeToWire n)))))
  end.

(** *** [edges.go] *)

Definition edge_reply (x : Manager * answer (list Effect)) (r : Request) (status : Z) : Manager * Response :=
  match x with
  | (m, (_, Some e)) => (m, writeProblem r e)
  | (m, (_, None)) => (m, mkResponse status ∅ NoContent)
  end.

Definition handlePutEdge (r : Request) (scope tail : string) (m : Manager) : Manager * Response :=
  match splitEdgeTail tail with
  | None => (m, writeProblemStatus r 404 "not-found")
  | Some (from, to) => edge_reply (Mgr.AddEdge (wd_drains w) scope from to m) r 201
  end.

Definition handleDeleteEdge (r : Request) (scope tail : string) (m : Manager) : Manager * Response :=
  match splitEdgeTail tail with
  | None => (m, writeProblemStatus r 404 "not-found")
  | Some (from, to) => edge_reply (Mgr.RemoveEdge (wd_drains w) scope from to m) r 204
  end.

(** *** [claim.go] *)

(** [None] while the wait lasts.  The jitter only moves the deadline of the
    wait, which the rounds stand for. *)
Definition blockForOne (scope : string) (maxNodes : Z) (opts : list (option Mgr.ClaimOption)) (m : Manager)
    : Manager * option (result (list Lease)) :=
  match Mgr.Claim scope opts (wd_rounds w) m with
  | (m, None) => (m, None)
  | (m, Some (Mgr.Got lease)) =>
    if (1 <? maxNodes)%Z then
      match Mgr.ClaimBatch (wd_drains w) scope (maxNodes - 1) opts (wd_others w m) with
      | (m, (_, Some _)) => (m, Some (Ok [lease]))
      | (m, (res, None)) => (m, Some (Ok (lease :: cl_Leases res)))
      end
    else (m, Some (Ok [lease]))
  | (m, Some (Mgr.Gone (ContextError _))) => (m, Some (Ok []))
  | (m, Some (Mgr.Gone (LibraryError e))) => (m, Some (Fail e))
  end.

Definition claim_reply (leases : list Lease) : Response :=
  match leases with
  | [] => mkResponse 204 ∅ NoContent
  | _ => writeJSON 200 (LeasesContent (leaseToWire <$> leases))
  end.

Definition zeroClaim : claimRequest := mkClaimWire "" 0 0 "" [].

Definition handleClaim (r : Request) (scope : string) (m : Manager) : Manager * option Response :=
  match decodeJSON zeroClaim limit r with
  | Fail e => (m, Some (writeProblem r e))
  | Ok req =>
    match clampWait (cl_Wait req) (op_maxWait o) (op_waitBudget o) with
    | Fail e => (m, Some (writeProblem r e))
    | Ok wait =>
      let maxNodes := Z.max (cl_MaxNodes req) 1 in
      let opts := claimOptionsFromWire req in
      match Mgr.ClaimBatch (wd_drains w) scope maxNodes opts m with
      | (m, (_, Some e)) => (m, Some (writeProblem r e))
      | (m, (res, None)) =>
        if bool_decide (cl_Leases res = []) && (0 <? wait)%Z then
          match blockForOne scope maxNodes opts (wd_others w m) with
          | (m, None) => (m, None)
          | (m, Some (Fail e)) => (m, Some (writeProblem r e))
          | (m, Some (Ok leases)) => (m, Some (claim_reply leases))
          end
        else (m, Some (claim_reply (cl_Leases res)))
      end
    end
  end.

(** *** [leases.go] *)

Definition handleGetLease (r : Request) (scope token : string) (m : Manager) : Manager * Response :=
  reply m (decodeLeaseID token) r (fun '(node, epoch) =>
  reply m (Mgr.Inspect scope node m) r (fun insp =>
  let active := bool_decide (in_Phase insp = PhaseClaimed) && (in_LeaseEpoch insp =? epoch)%Z in
  (m, writeJSON 200 (LeaseContent (mkLeaseInspection token (resourceName scope node) epoch active
        (if active then in_LeaseDeadline insp else TimeZero)))))).

Definition completionResponse (scope id : string) (m : Manager) : result completeResponse :=
  match Mgr.Inspect scope id m with
  | Fail e => Fail e
  | Ok insp =>
    let n := in_Node insp in
    let retrying := bool_decide (in_Phase insp = PhaseScheduled) in
    Ok (mkCompletion (resourceName scope id) (nd_Status n) (nd_Reason n) (nd_UpdatedAt n) retrying
          (if retrying then Some (in_ReadyAt insp) else None))
  end.

(** The outcome of the call, where the caller has one, replaces what is read
    back. *)
Definition with_outcome (outcome : option CompleteResult) (c : completeResponse) : completeResponse :=
  match outcome with
  | None => c
  | Some res =>
    mkCompletion (cs_Node c) (cs_Status c) (cs_Reason c) (cs_CompletedAt c) (cp_Retrying res)
      (if bool_decide (cp_NextAttemptAt res = TimeZero) then None else Some (cp_NextAttemptAt res))
  end.

Definition writeCompletionWithOutcome (r : Request) (lease : Lease) (outcome : option CompleteResult) (m : Manager)
    : Manager * Response :=
  reply m (completionResponse (l_Scope lease) (l_NodeID lease) m) r (fun c =>
  (m, writeJSON 200 (CompletionContent (with_outcome outcome c)))).

Definition writeCompletion (r : Request) (lease : Lease) (m : Manager) : Manager * Response :=
  writeCompletionWithOutcome r lease None m.

Definition handleComplete (r : Request) (lease : Lease) (m : Manager) : Manager * Response :=
  reply m (decodeJSON (mkCompleteWire "" "") limit r) r (fun body =>
  reply m (decodePayload (cm_ResultEncoding body) (cm_Result body)) r (fun result =>
  calling (Mgr.Ack (wd_drains w) lease result m) r (fun _ m => writeCompletion r lease m))).

Definition handleFail (r : Request) (lease : Lease) (m : Manager) : Manager * Response :=
  reply m (decodeJSON (mkFailWire "") limit r) r (fun body =>
  calling (Mgr.Nack (wd_drains w) lease (fl_Message body) m) r (fun res m =>
  writeCompletionWithOutcome r lease (Some res) m)).

Definition handleSkip (r : Request) (lease : Lease) (m : Manager) : Manager * Response :=
  reply m (decodeJSON (mkSkipWire "") limit r) r (fun body =>
  calling (Mgr.Skip (wd_drains w) lease (sk_Reason body) m) r (fun _ m => writeCompletion r lease m)).

Definition handleRenew (r : Request) (lease : Lease) (m : Manager) : Manager * Response :=
  reply m (decodeJSON (mkRenewWire 0) limit r) r (fun body =>
  match Mgr.Extend lease (i64 (rw_LeaseSeconds body * Second)) m with
  | (m, (_, Some e)) => (m, writeProblem r e)
  | (m, (l, None)) =>
    (m, writeJSON 200 (RenewalContent (mkRenewal (encodeLeaseID (l_NodeID l) (l_Epoch l)) (l_Epoch l) (l_Deadline l))))
  end).

Definition handleLeaseAction (r : Request) (scope tail : string) (m : Manager) : Manager * Response :=
  match splitVerb tail with
  | None => (m, writeProblemStatus r 404 "not-found")
  | Some (token, verb) =>
    reply m (decodeLeaseID token) r (fun '(node, epoch) =>
    let lease := mkLease scope node epoch TimeZero None [] in
    if bool_decide (verb = "complete"%string) then handleComplete r lease m
    else if bool_decide (verb = "fail"%string) then handleFail r lease m
    else if bool_decide (verb = "skip"%string) then handleSkip r lease m
    else if bool_decide (verb = "renew"%string) then handleRenew r lease m
    else (m, writeProblemStatus r 404 "not-found"))
  end.

(** *** [events.go] *)

Definition channel (p : nat) (m : Manager) : Subscription := object (Mgr.m_hub m) p.

Definition unsubscribe (p : nat) (m : Manager) : Manager := m <| Mgr.m_hub ::= Subscription_Close p |>.

(** The loop of [handleEventsSSE]: each case is taken after what others do
    meanwhile.  An event is received only when there is one; a closed channel
    with nothing left ends the stream. *)
Fixpoint sse_loop (p : nat) (cases : list stream_case) (m : Manager) : Manager * list chunk :=
  match cases with
  | [] => (m, [])
  | c :: cases =>
    let m := wd_others w m in
    match c with
    | RequestDone | ServerDone => (m, [])
    | HeartbeatDue => let '(m, out) := sse_loop p cases m in (m, Heartbeat :: out)
    | EventReceived =>
      match sub_ch (channel p m) with
      | ev :: _ =>
        let '(m, out) := sse_loop p cases (m <| Mgr.m_hub ::= upd_object p (receive 1) |>) in
        (m, writeSSEEvent ev :: out)
      | [] => if sub_done (channel p m) then (m, []) else sse_loop p cases m
      end
    end
  end.

Definition handleEventsSSE (r : Request) (opts : SubscribeOptions) (m : Manager) : Manager * Response :=
  match Mgr.Subscribe opts m with
  | (m, Fail e) => (m, writeProblem r e)
  | (m, Ok p) =>
    let '(m, out) := sse_loop p (wd_cases w) m in
    (unsubscribe p m,
     mkResponse 200
       (typed "text/event-stream" (<["Cache-Control"%string := "no-cache, no-transform"%string]> {[ "X-Accel-Buffering"%string := "no"%string ]}))
       (StreamContent out))
  end.

(** The events that are there when the wait is over, whichever way it ends. *)
Definition handleEventsPoll (r : Request) (opts : SubscribeOptions) (m : Manager) : Manager * Response :=
  reply m (clampWait (Query_Get r "wait") (op_maxWait o) (op_waitBudget o)) r (fun _ =>
  match Mgr.Subscribe opts m with
  | (m, Fail e) => (m, writeProblem r e)
  | (m, Ok p) =>
    let m := wd_others w m in
    let events := sub_ch (channel p m) in
    let m := unsubscribe p (m <| Mgr.m_hub ::= upd_object p (receive (length events)) |>) in
    match events with
    | [] => (m, mkResponse 204 ∅ NoContent)
    | _ => (m, mkResponse 200 (typed "application/x-ndjson" ∅) (EventsContent (eventToWire <$> events)))
    end
  end).

Definition handleEvents (r : Request) (scope : string) (m : Manager) : Manager * Response :=
  reply m (subscribeOptionsFromRequest r scope) r (fun opts =>
  if bool_decide (Query_Get r "mode" = "poll"%string) then handleEventsPoll r opts m else handleEventsSSE r opts m).

(** *** [server.go] *)

Definition handleOpenAPI : Response := mkResponse 200 (typed "application/yaml" ∅) OpenAPIContent.

Definition answered (x : Manager * Response) : Manager * option Response := (x.1, Some x.2).

Definition dispatch (r : Request) (e : endpoint) (m : Manager) : Manager * option Response :=
  match e with
  | ListScopes => answered (handleListScopes r m)
  | PutScope scope => answered (handlePutScope r scope m)
  | GetScope scope => answered (handleGetScope r scope m)
  | ScopeAction tail => answered (handleScopeAction r tail m)
  | PutNode scope node => answered (handlePutNode r scope node m)
  | GetNode scope node => answered (handleGetNode r scope node m)
  | DeleteNode scope node => answered (handleDeleteNode r scope node m)
  | ListNodes scope => answered (handleListNodes r scope m)
  | ClaimNodes scope => handleClaim r scope m
  | NodeAction scope tail => answered (handleNodeAction r scope tail m)
  | PutEdge scope tail => answered (handlePutEdge r scope tail m)
  | DeleteEdge scope tail => answered (handleDeleteEdge r scope tail m)
  | GetLease scope lease => answered (handleGetLease r scope lease m)
  | LeaseAction scope tail => answered (handleLeaseAction r scope tail m)
  | Events scope => answered (handleEvents r scope m)
  | OpenAPI => (m, Some handleOpenAPI)
  end.

Definition mux (r : Request) (m : Manager) : Manager * option Response :=
  match route r with
  | Found e => dispatch r e m
  | MethodNotAllowed => (m, Some (mkResponse 405 ∅ PlainContent))
  | NotFound => (m, Some (mkResponse 404 ∅ PlainContent))
  end.

(** [authMiddleware] around the rest of the chain. *)
Definition authMiddleware (a : option Authorizer) (next : Request -> Manager -> Manager * option Response)
    (r : Request) (m : Manager) : Manager * option Response :=
  match a with
  | None => next r m
  | Some a => match a r with Some d => (m, Some (writeAuthProblem r d)) | None => next r m end
  end.

(** The chain [New] builds; logging and recovery do not change an answer. *)
Definition serve (r : Request) (m : Manager) : Manager * option Response := authMiddleware (op_authorizer o) mux r m.

End Server.
