(* ===== verification/Grpc.v ===== *)
(** * The gRPC adapter: [adapters/grpc]

    The two services over the manager of [Manager], the task token, the error
    table, the interceptors, and a Watch stream as a machine of its goroutines.
    The messages are those of the protobuf definitions with their fields; a
    protobuf duration or timestamp is the [time.Duration] or [time.Time] it
    stands for, and the wire encoding of the task token is a parameter.  Error
    texts and logging are left out. *)
From S2P Require Import Prelude Types GoText Config Subscribe Manager.

#[local] Existing Instance Mgr.Manager_eta.

(** ** [tasktoken.go] *)

Record TaskToken := mkTaskToken { tt_Scope : string; tt_NodeId : string; tt_Epoch : Z }.

(** [proto.Marshal] and [proto.Unmarshal] of a task token: a string that is not
    UTF-8 is refused. *)
Class TokenCodec := {
  token_Marshal : TaskToken -> option bytes;
  token_Unmarshal : bytes -> option TaskToken;
  token_roundtrip t : ValidString (tt_Scope t) = true -> ValidString (tt_NodeId t) = true -> (0 <= tt_Epoch t < 2 ^ 64)%Z ->
    exists b, token_Marshal t = Some b /\ token_Unmarshal b = Some t
}.

(** ** Status codes, [errors.go] *)

Inductive code :=
| OK | CodeCanceled | Unknown | InvalidArgument | CodeDeadlineExceeded | NotFound | AlreadyExists | PermissionDenied
| ResourceExhausted | FailedPrecondition | Aborted | OutOfRange | Unimplemented | Internal | Unavailable | DataLoss
| Unauthenticated.

#[export] Instance code_eq_dec : EqDecision code.
Proof. solve_decision. Defined.

(** A status: its code and the reason of its ErrorInfo, the slug of the contract
    (the code upper-cases it). *)
Record status := mkStatus { st_Code : code; st_Reason : option string }.

Definition table : list (Sentinel * (code * string)) :=
  [(ErrNotFound, (NotFound, "not-found"));
   (ErrIDConflict, (AlreadyExists, "id-conflict"));
   (ErrCycle, (FailedPrecondition, "cycle"));
   (ErrCrossScopeEdge, (InvalidArgument, "cross-scope-edge"));
   (ErrAlreadyTerminal, (FailedPrecondition, "already-terminal"));
   (ErrNodeInFlight, (FailedPrecondition, "node-in-flight"));
   (ErrHasSuccessors, (FailedPrecondition, "has-successors"));
   (ErrLeaseMismatch, (Aborted, "lease-superseded"));
   (ErrLeaseExpired, (Aborted, "lease-expired"));
   (ErrScopeSealed, (FailedPrecondition, "scope-sealed"));
   (ErrPayloadTooLarge, (InvalidArgument, "payload-too-large"));
   (ErrSubscriberLagged, (Aborted, "subscriber-lagged"));
   (ErrCursorExpired, (OutOfRange, "cursor-expired"));
   (ErrInvalidArgument, (InvalidArgument, "invalid-argument"));
   (ErrInvalidConfig, (InvalidArgument, "invalid-argument"));
   (ErrUnsupported, (Unimplemented, "unsupported"));
   (ErrClosed, (Unavailable, "shutting-down"));
   (ErrNilStore, (InvalidArgument, "invalid-argument"))]%string.

Definition mapError (err : end_error) : status :=
  match err with
  | ContextError Canceled => mkStatus CodeCanceled None
  | ContextError DeadlineExceeded => mkStatus CodeDeadlineExceeded None
  | LibraryError e =>
    match List.find (fun row => errors_Is e row.1) table with
    | Some (_, (c, slug)) => mkStatus c (Some slug)
    | None => mkStatus Internal (Some "internal"%string)
    end
  end.

Section Token.
Context `{!TokenCodec}.

Definition encodeTaskToken (l : Lease) : option bytes := token_Marshal (mkTaskToken (l_Scope l) (l_NodeID l) (l_Epoch l)).

Definition decodeTaskToken (b : bytes) : Lease + status :=
  match token_Unmarshal b with
  | Some t =>
    if bool_decide (tt_Scope t = ""%string) || bool_decide (tt_NodeId t = ""%string) || (tt_Epoch t =? 0)%Z
    then inr (mkStatus NotFound None)
    else inl (mkLease (tt_Scope t) (tt_NodeId t) (tt_Epoch t) TimeZero None [])
  | None => inr (mkStatus NotFound None)
  end.

End Token.

(** ** [convert.go] *)

Definition clampInt32ToInt16 (v : Z) : Z :=
  if (2 ^ 15 - 1 <? v)%Z then (2 ^ 15 - 1)%Z else if (v <? - 2 ^ 15)%Z then (- 2 ^ 15)%Z else v.

(** A protobuf enumeration is open: [.._OTHER] is a number without a name. *)
Inductive NodeStatus :=
| NODE_STATUS_UNSPECIFIED | NODE_STATUS_NEW | NODE_STATUS_IN_PROGRESS | NODE_STATUS_SUCCESS | NODE_STATUS_ERROR
| NODE_STATUS_OTHER (n : Z).

Inductive PbReason :=
| REASON_UNSPECIFIED | REASON_NONE | REASON_WORKER_ERROR | REASON_TIMEOUT | REASON_UPSTREAM_FAILED | REASON_SKIPPED
| REASON_CANCELLED | REASON_REMOVED.

Inductive PbTrigger :=
| TRIGGER_RULE_UNSPECIFIED | TRIGGER_RULE_ALL_SUCCESS | TRIGGER_RULE_ALL_DONE | TRIGGER_RULE_NONE_FAILED
| TRIGGER_RULE_NONE_FAILED_MIN_ONE_SUCCESS | TRIGGER_RULE_ALWAYS | TRIGGER_RULE_OTHER (n : Z).

Inductive PbCascade :=
| CASCADE_POLICY_UNSPECIFIED | CASCADE_POLICY_REJECT | CASCADE_POLICY_DETACH | CASCADE_POLICY_FAIL | CASCADE_POLICY_OTHER (n : Z).

(** A time or duration that is not set. *)
Definition timeToProto (t : Time) : option Time := if bool_decide (t = TimeZero) then None else Some t.
Definition durationFromProto (d : option Z) : Z := default 0%Z d.
Definition durationToProto (d : Z) : option Z := if (d =? 0)%Z then None else Some d.

Definition statusToProto (s : Status) : NodeStatus :=
  match s with
  | StatusNew => NODE_STATUS_NEW
  | StatusInProgress => NODE_STATUS_IN_PROGRESS
  | StatusSuccess => NODE_STATUS_SUCCESS
  | StatusError => NODE_STATUS_ERROR
  | StatusOther _ => NODE_STATUS_UNSPECIFIED
  end.

Definition statusFromProto (s : NodeStatus) : Status :=
  match s with
  | NODE_STATUS_NEW | NODE_STATUS_UNSPECIFIED => StatusNew
  | NODE_STATUS_IN_PROGRESS => StatusInProgress
  | NODE_STATUS_SUCCESS => StatusSuccess
  | NODE_STATUS_ERROR => StatusError
  | NODE_STATUS_OTHER _ => StatusNew
  end.

Definition reasonToProto (r : Reason) : PbReason :=
  match r with
  | ReasonNone => REASON_NONE
  | ReasonWorkerError => REASON_WORKER_ERROR
  | ReasonTimeout => REASON_TIMEOUT
  | ReasonUpstreamFailed => REASON_UPSTREAM_FAILED
  | ReasonSkipped => REASON_SKIPPED
  | ReasonCancelled => REASON_CANCELLED
  | ReasonRemoved => REASON_REMOVED
  | ReasonOther _ => REASON_UNSPECIFIED
  end.

Definition triggerToProto (t : TriggerRule) : PbTrigger :=
  match t with
  | TriggerAllSuccess => TRIGGER_RULE_ALL_SUCCESS
  | TriggerAllDone => TRIGGER_RULE_ALL_DONE
  | TriggerNoneFailed => TRIGGER_RULE_NONE_FAILED
  | TriggerNoneFailedMinOneSuccess => TRIGGER_RULE_NONE_FAILED_MIN_ONE_SUCCESS
  | TriggerAlways => TRIGGER_RULE_ALWAYS
  | TriggerOther _ => TRIGGER_RULE_UNSPECIFIED
  end.

Definition triggerFromProto (t : PbTrigger) : TriggerRule :=
  match t with
  | TRIGGER_RULE_UNSPECIFIED | TRIGGER_RULE_ALL_SUCCESS => TriggerAllSuccess
  | TRIGGER_RULE_ALL_DONE => TriggerAllDone
  | TRIGGER_RULE_NONE_FAILED => TriggerNoneFailed
  | TRIGGER_RULE_NONE_FAILED_MIN_ONE_SUCCESS => TriggerNoneFailedMinOneSuccess
  | TRIGGER_RULE_ALWAYS => TriggerAlways
  | TRIGGER_RULE_OTHER _ => TriggerAllSuccess
  end.

Definition cascadeFromProto (c : PbCascade) : CascadePolicy :=
  match c with
  | CASCADE_POLICY_UNSPECIFIED | CASCADE_POLICY_REJECT => CascadeReject
  | CASCADE_POLICY_DETACH => CascadeDetach
  | CASCADE_POLICY_FAIL => CascadeFail
  | CASCADE_POLICY_OTHER _ => CascadeReject
  end.

Record PbRetry := mkPbRetry { pr_MaxAttempts : Z; pr_BaseDelay : option Z; pr_MaxDelay : option Z }.

Definition retryPolicyToProto (r : RetryPolicy) : PbRetry :=
  mkPbRetry (rp_MaxAttempts r) (durationToProto (rp_BaseDelay r)) (durationToProto (rp_MaxDelay r)).

Definition retryPolicyFromProto (r : option PbRetry) : RetryPolicy :=
  match r with
  | None => mkRetry 0 0 0
  | Some r => mkRetry (pr_MaxAttempts r) (durationFromProto (pr_BaseDelay r)) (durationFromProto (pr_MaxDelay r))
  end.

Record PbNode := mkPbNode {
  pn_Scope : string;
  pn_Id : string;
  pn_Kind : string;
  pn_Status : NodeStatus;
  pn_Reason : PbReason;
  pn_Message : string;
  pn_Attempt : Z;
  pn_Priority : Z;
  pn_Trigger : PbTrigger;
  pn_Retry : option PbRetry;
  pn_Payload : bytes;
  pn_Labels : gmap string string;
  pn_Seq : Z;
  pn_CreatedAt : option Time;
  pn_UpdatedAt : option Time
}.

Definition nodeToProto (n : Node) : PbNode :=
  mkPbNode (nd_Scope n) (nd_ID n) (nd_Kind n) (statusToProto (nd_Status n)) (reasonToProto (nd_Reason n)) (nd_Message n)
    (nd_Attempt n) (nd_Priority n) (triggerToProto (nd_Trigger n)) (Some (retryPolicyToProto (nd_Retry n)))
    (nd_Payload n) (nd_Labels n) (nd_Seq n) (timeToProto (nd_CreatedAt n)) (timeToProto (nd_UpdatedAt n)).

Record NewNode := mkNewNode {
  nn_Id : string;
  nn_Kind : string;
  nn_Payload : bytes;
  nn_Labels : gmap string string;
  nn_Priority : Z;                     (* int32 *)
  nn_Trigger : PbTrigger;
  nn_Retry : option PbRetry;
  nn_Deps : list string
}.

Definition newNodeToSpec (n : NewNode) : NodeSpec :=
  mkSpec (nn_Id n) (nn_Kind n) (nn_Payload n) (nn_Labels n) (clampInt32ToInt16 (nn_Priority n))
    (triggerFromProto (nn_Trigger n)) (retryPolicyFromProto (nn_Retry n)) (nn_Deps n).

Record PbEdge := mkPbEdge { pe_From : string; pe_To : string }.

Definition edgeFromProto (e : PbEdge) : Edge := mkEdge (pe_From e) (pe_To e).

Record PbConfig := mkPbConfig {
  pc_DefaultLeaseTimeout : option Z;
  pc_MinLeaseTimeout : option Z;
  pc_MaxLeaseTimeout : option Z;
  pc_MaxAttempts : Z;
  pc_RetryBaseDelay : option Z;
  pc_RetryMaxDelay : option Z;
  pc_TerminalRetention : option Z;
  pc_MaxSubscriberLag : option Z;
  pc_MaxInFlight : Z;
  pc_PayloadCap : Z;
  pc_MaxBatchSize : Z;
  pc_SweepBatchSize : Z;
  pc_SweepInterval : option Z;
  pc_PartitionCount : Z
}.

Definition scopeConfigFromProto (c : option PbConfig) : ScopeConfig :=
  match c with
  | None => zeroConfig
  | Some c =>
    mkConfig (durationFromProto (pc_DefaultLeaseTimeout c)) (durationFromProto (pc_MinLeaseTimeout c))
      (durationFromProto (pc_MaxLeaseTimeout c)) (pc_MaxAttempts c) (durationFromProto (pc_RetryBaseDelay c))
      (durationFromProto (pc_RetryMaxDelay c)) (durationFromProto (pc_TerminalRetention c))
      (durationFromProto (pc_MaxSubscriberLag c)) (pc_MaxInFlight c) (pc_PayloadCap c) (pc_MaxBatchSize c) 0
      (pc_SweepBatchSize c) (durationFromProto (pc_SweepInterval c)) (pc_PartitionCount c)
  end.

Record PbInspection := mkPbInspection {
  pi_Node : PbNode;
  pi_Phase : Phase;
  pi_Deps : DepCounts;
  pi_Waiting : list string;
  pi_Successors : list string;
  pi_Rank : Z;
  pi_LeaseDeadline : option Time;
  pi_ReadyAt : option Time
}.

(** The message has no field for the holder and the epoch of the lease. *)
Definition inspectionToProto (i : Inspection) : PbInspection :=
  mkPbInspection (nodeToProto (in_Node i)) (in_Phase i) (in_Deps i) (in_Waiting i) (in_Successors i) (in_Rank i)
    (timeToProto (in_LeaseDeadline i)) (timeToProto (in_ReadyAt i)).

Record PbLease := mkPbLease { pl_TaskToken : bytes; pl_FencingToken : Z; pl_Node : PbNode; pl_LeaseExpiresAt : option Time }.

Definition leaseToProto `{!TokenCodec} (l : Lease) : option PbLease :=
  match encodeTaskToken l with
  | Some tok => Some (mkPbLease tok (l_Epoch l) (nodeToProto (default zeroNode (l_Node l))) (timeToProto (l_Deadline l)))
  | None => None
  end.

(** ** Requests *)

Record ClaimNodeRequest := mkClaimNode {
  cn_Scope : string;
  cn_Kinds : list string;
  cn_WorkerId : string;
  cn_LeaseDuration : option Z;
  cn_PollTimeout : option Z
}.

Inductive request :=
(* WorkerService *)
| ClaimNode (req : ClaimNodeRequest)
| ExtendLease (token : bytes) (extension : option Z)
| CompleteNode (token : bytes) (result : bytes)
| FailNode (token : bytes) (message : string)
| SkipNode (token : bytes) (reason : string)
(* ControlService *)
| AddNodes (scope : string) (nodes : list NewNode)
| AddEdges (scope : string) (edges : list PbEdge)
| RemoveEdges (scope : string) (edges : list PbEdge)
| RemoveNode (scope id : string) (cascade : PbCascade)
| GetNode (scope id : string)
| Inspect (scope id : string)
| Cancel (scope : string) (ids : list string)
| CancelScope (scope : string)
| Seal (scope : string)
| GetScopeStats (scope : string)
| Configure (scope : string) (cfg : option PbConfig)
| ListNodes (scope : string) (statuses : list NodeStatus) (kinds : list string) (cursor : string) (limit : Z).

Inductive response :=
| Empty
| Claimed (l : option PbLease)
| Extended (deadline : option Time)
| FailedNode (will_retry : bool) (next : option Time)
| GotNode (n : PbNode)
| Inspected (i : PbInspection)
| GotStats (s : ScopeStats)
| Listed (ns : list PbNode) (next : string).

(** ** [auth.go] *)

(** An authorizer's answer: nothing, a status, or another error. *)
Inductive denial := StatusDenial (c : code) | PlainDenial.

(** A caller is what its context carries. *)
Record Authorizer (caller : Type) := mkAuthorizer {
  az_Authorize : caller -> string -> option denial;
  az_AuthorizeScope : option (caller -> string -> string -> option denial)   (* [ScopeAuthorizer] *)
}.
Arguments mkAuthorizer {caller}.
Arguments az_Authorize {caller}.
Arguments az_AuthorizeScope {caller}.

Definition authStatus (d : denial) : status :=
  match d with
  | StatusDenial Unauthenticated => mkStatus Unauthenticated None
  | StatusDenial _ | PlainDenial => mkStatus PermissionDenied None
  end.

(** The first usable credential among the values of the header. *)
Fixpoint bearerCredential (values : list string) : option string :=
  match values with
  | [] => None
  | v :: values =>
    match Cut v " " with
    | Some (scheme, rest) =>
      if negb (EqualFold scheme "Bearer") then bearerCredential values
      else let rest := TrimSpace rest in
           if bool_decide (rest = ""%string) then bearerCredential values else Some rest
    | None => bearerCredential values
    end
  end.

(** [BearerToken], for a digest; a caller is the values of its header. *)
Definition BearerToken (sha256 : string -> bytes) (tokens : list string) : Authorizer (list string) :=
  let digests := sha256 <$> filter (fun t => t <> ""%string) tokens in
  mkAuthorizer (fun values _ =>
    match bearerCredential values with
    | None => Some (StatusDenial Unauthenticated)
    | Some presented =>
      if existsb (fun d => bool_decide (sha256 presented = d)) digests then None else Some (StatusDenial PermissionDenied)
    end) None.

(** The scope field of a request, or its token. *)
Inductive shape := HasScope (scope : string) | HasToken (token : bytes).

Definition shape_of (req : request) : shape :=
  match req with
  | ClaimNode r => HasScope (cn_Scope r)
  | ExtendLease t _ | CompleteNode t _ | FailNode t _ | SkipNode t _ => HasToken t
  | AddNodes s _ | AddEdges s _ | RemoveEdges s _ | RemoveNode s _ _ | GetNode s _ | Inspect s _ | Cancel s _
  | CancelScope s | Seal s | GetScopeStats s | Configure s _ | ListNodes s _ _ _ _ => HasScope s
  end.

Definition scopeOfRequest `{!TokenCodec} (req : request) : string + status :=
  match shape_of req with
  | HasScope s => inl s
  | HasToken t => match decodeTaskToken t with inl l => inl (l_Scope l) | inr st => inr st end
  end.

(** ** [options.go] *)

Record serverConfig := mkServerConfig {
  sc_maxConcurrentStreams : Z;
  sc_maxConnectionAge : Z;
  sc_maxConnectionAgeGrace : Z;
  sc_maxPollTimeout : Z;
  sc_defaultPollTimeout : Z
}.

#[export] Instance serverConfig_eta : Eta serverConfig := fun c =>
  mkServerConfig (sc_maxConcurrentStreams c) (sc_maxConnectionAge c) (sc_maxConnectionAgeGrace c) (sc_maxPollTimeout c)
    (sc_defaultPollTimeout c).

Definition defaultServerConfig : serverConfig := mkServerConfig 4096 (30 * Minute) (5 * Minute) (600 * Second) (30 * Second).

Inductive Option :=
| WithMaxConcurrentStreams (n : Z)
| WithMaxConnectionAge (age grace : Z)
| WithMaxPollTimeout (d : Z)
| WithDefaultPollTimeout (d : Z).

Definition apply_option (o : Option) (c : serverConfig) : serverConfig :=
  match o with
  | WithMaxConcurrentStreams n => c <| sc_maxConcurrentStreams := n |>
  | WithMaxConnectionAge age grace => c <| sc_maxConnectionAge := age |> <| sc_maxConnectionAgeGrace := grace |>
  | WithMaxPollTimeout d => if (0 <? d)%Z then c <| sc_maxPollTimeout := d |> else c
  | WithDefaultPollTimeout d => if (0 <? d)%Z then c <| sc_defaultPollTimeout := d |> else c
  end.

Definition pollTimeout (c : serverConfig) (requested : Z) : Z :=
  if (requested <=? 0)%Z then sc_defaultPollTimeout c
  else if (sc_maxPollTimeout c <? requested)%Z then sc_maxPollTimeout c else requested.

(** ** [worker_service.go], [control_service.go] *)

Definition claimOptionsFromProto (req : ClaimNodeRequest) : list (option Mgr.ClaimOption) :=
  (if bool_decide (cn_Kinds req = []) then [] else [Some (Mgr.OfKind (cn_Kinds req))])
  ++ (if bool_decide (cn_WorkerId req = ""%string) then [] else [Some (Mgr.AsWorker (cn_WorkerId req))])
  ++ (let d := durationFromProto (cn_LeaseDuration req) in
      if (0 <? d)%Z then [Some (Mgr.WithLeaseTimeout d)] else []).

Section Services.
Context {S : Type} `{!Backend S} `{!TokenCodec}.

(** How far the consumers get, the rounds of a waiting claim, the error of the
    caller's context when the claim is over, and whether the select of ClaimNode
    takes its shutdown case. *)
Record world := mkWorld {
  wd_drains : drains;
  wd_rounds : list (Mgr.round (S := S));
  wd_ctx : option ctx_error;
  wd_shutdown : bool
}.

Context (w : world).

Local Notation Manager := (Mgr.Manager S).
Local Notation answered := (option (response + status))%type.

Definition claimResponse (x : Mgr.outcome Lease) : response + status :=
  match x with
  | Mgr.Got l => match leaseToProto l with Some p => inl (Claimed (Some p)) | None => inr (mkStatus Internal (Some "internal"%string)) end
  | Mgr.Gone (ContextError DeadlineExceeded) => inl (Claimed None)
  | Mgr.Gone (ContextError Canceled) =>
    match wd_ctx w with Some e => inr (mapError (ContextError e)) | None => inl (Claimed None) end
  | Mgr.Gone (LibraryError e) => inr (mapError (LibraryError e))
  end.

(** The poll timeout bounds the rounds.  In the shutdown case the goroutine that
    claims goes on by itself, and what it gets is dropped. *)
Definition claimNode (req : ClaimNodeRequest) (m : Manager) : Manager * answered :=
  let '(m, out) := Mgr.Claim (cn_Scope req) (claimOptionsFromProto req) (wd_rounds w) m in
  if wd_shutdown w then (m, Some (inl (Claimed None)))
  else (m, claimResponse <$> out).

(** [if err != nil { return nil, mapError(err) }]. *)
Definition finished {A : Type} (x : Manager * answer A) (f : A -> response) : Manager * answered :=
  match x with
  | (m, (_, Some e)) => (m, Some (inr (mapError (LibraryError e))))
  | (m, (a, None)) => (m, Some (inl (f a)))
  end.

Definition reading {A : Type} (m : Manager) (x : result A) (f : A -> response) : Manager * answered :=
  match x with
  | Fail e => (m, Some (inr (mapError (LibraryError e))))
  | Ok a => (m, Some (inl (f a)))
  end.

Definition with_token (m : Manager) (token : bytes) (k : Lease -> Manager * answered) : Manager * answered :=
  match decodeTaskToken token with
  | inr st => (m, Some (inr st))
  | inl lease => k lease
  end.

Definition handle (req : request) (m : Manager) : Manager * answered :=
  let dr := wd_drains w in
  match req with
  | ClaimNode r => claimNode r m
  | ExtendLease t d =>
    with_token m t (fun lease => finished (Mgr.Extend lease (durationFromProto d) m) (fun l => Extended (timeToProto (l_Deadline l))))
  | CompleteNode t result => with_token m t (fun lease => finished (Mgr.Ack dr lease result m) (fun _ => Empty))
  | FailNode t msg =>
    with_token m t (fun lease => finished (Mgr.Nack dr lease msg m) (fun res => FailedNode (cp_Retrying res) (timeToProto (cp_NextAttemptAt res))))
  | SkipNode t reason => with_token m t (fun lease => finished (Mgr.Skip dr lease reason m) (fun _ => Empty))
  | AddNodes s nodes => finished (Mgr.AddNodes dr s (newNodeToSpec <$> nodes) m) (fun _ => Empty)
  | AddEdges s edges => finished (Mgr.AddEdges dr s (edgeFromProto <$> edges) m) (fun _ => Empty)
  | RemoveEdges s edges => finished (Mgr.RemoveEdges dr s (edgeFromProto <$> edges) m) (fun _ => Empty)
  | RemoveNode s id c => finished (Mgr.RemoveNode dr s id (cascadeFromProto c) m) (fun _ => Empty)
  | GetNode s id => reading m (Mgr.GetNode s id m) (fun n => GotNode (nodeToProto n))
  | Inspect s id => reading m (Mgr.Inspect s id m) (fun i => Inspected (inspectionToProto i))
  | Cancel s ids => finished (Mgr.Cancel dr s ids m) (fun _ => Empty)
  | CancelScope s => finished (Mgr.CancelScope dr s m) (fun _ => Empty)
  | Seal s => finished (Mgr.Seal s m) (fun _ => Empty)
  | GetScopeStats s => reading m (Mgr.Stats s m) GotStats
  | Configure s cfg => finished (Mgr.Configure s (scopeConfigFromProto cfg) m) (fun _ => Empty)
  | ListNodes s sts kinds cursor limit =>
    reading m (Mgr.ListNodes s (mkListOptions (statusFromProto <$> sts) kinds cursor limit) m)
      (fun res => Listed (nodeToProto <$> lr_Nodes res) (lr_Next res))
  end.

(** ** The interceptors *)

(** [authUnaryInterceptor]; a service without an authorizer has none. *)
Definition authUnary {caller : Type} (a : option (Authorizer caller)) (c : caller) (fullMethod : string) (req : request)
    (m : Manager) : Manager * answered :=
  match a with
  | None => handle req m
  | Some a =>
    match az_Authorize a c fullMethod with
    | Some d => (m, Some (inr (authStatus d)))
    | None =>
      match az_AuthorizeScope a with
      | None => handle req m
      | Some f =>
        match scopeOfRequest req with
        | inr st => (m, Some (inr st))
        | inl scope =>
          match f c fullMethod scope with
          | Some d => (m, Some (inr (authStatus d)))
          | None => handle req m
          end
        end
      end
    end
  end.

End Services.

(** ** [watch.go] *)

Inductive watchRequest :=
| CreateWatch (id : Z) (scope filter : string) (start : Z) (replay : bool)
| CancelWatch (id : Z).

(** The scope a message of the stream names, if it names one. *)
Definition scopeOfStreamMessage (req : watchRequest) : option string :=
  match req with
  | CreateWatch _ scope _ _ _ => Some scope
  | CancelWatch _ => None
  end.

(** [scopeCheckedStream.RecvMsg], for a message that has been received. *)
Definition RecvMsg {caller : Type} (a : Authorizer caller) (c : caller) (fullMethod : string) (req : watchRequest) : option status :=
  match az_AuthorizeScope a, scopeOfStreamMessage req with
  | Some f, Some scope => authStatus <$> f c fullMethod scope
  | _, _ => None
  end.

Inductive WatchEventKind := KIND_UNSPECIFIED | KIND_CREATED | KIND_TRANSITION | KIND_WORK_AVAILABLE.

Record WatchEvent := mkWatchEvent {
  we_Revision : Z;
  we_Kind : WatchEventKind;
  we_Node : option PbNode;
  we_PreviousStatus : NodeStatus;
  we_Gap : bool
}.

Definition watchTransitionEvent (ev : Event) (kind : WatchEventKind) : WatchEvent :=
  mkWatchEvent (ev_Cursor ev) kind
    (Some (mkPbNode (ev_Scope ev) (ev_NodeID ev) (ev_NodeKind ev) (statusToProto (ev_To ev)) (reasonToProto (ev_Reason ev))
       (ev_Message ev) (ev_Attempt ev) 0 TRIGGER_RULE_UNSPECIFIED None [] ∅ (ev_Seq ev) None None))
    (statusToProto (ev_From ev)) (ev_Gap ev).

Definition watchEventToProto (ev : Event) : WatchEvent :=
  match ev_Kind ev with
  | EventReady => mkWatchEvent (ev_Cursor ev) KIND_WORK_AVAILABLE None NODE_STATUS_UNSPECIFIED (ev_Gap ev)
  | EventCreated => watchTransitionEvent ev KIND_CREATED
  | EventTransition => watchTransitionEvent ev KIND_TRANSITION
  | EventOther _ => watchTransitionEvent ev KIND_UNSPECIFIED
  end.

Inductive watchResponse :=
| WatchCreated (id : Z)
| WatchCanceled (id : Z) (compacted : Z)
| WatchDelivers (id : Z) (ev : WatchEvent).

(** One watch: its subscription, whether its context is still live, and whether
    its pump runs. *)
Record watch := mkWatchState { wt_id : Z; wt_filter : string; wt_sub : nat; wt_live : bool; wt_pumping : bool }.

#[export] Instance watch_eta : Eta watch := fun x =>
  mkWatchState (wt_id x) (wt_filter x) (wt_sub x) (wt_live x) (wt_pumping x).

(** [watchSession]: the map of cancel functions, which are numbers of watches,
    every watch ever opened, and what has been sent. *)
Record watchSession := mkSession {
  ws_watches : gmap Z nat;
  ws_opened : list watch;
  ws_sent : list watchResponse
}.

#[export] Instance watchSession_eta : Eta watchSession := fun s =>
  mkSession (ws_watches s) (ws_opened s) (ws_sent s).

(** [send]; [ok] says whether the stream takes the message. *)
Definition send (ok : bool) (resp : watchResponse) (s : watchSession) : watchSession :=
  if ok then s <| ws_sent ::= fun l => l ++ [resp] |> else s.

(** The cancel function of a watch. *)
Definition cancel (k : nat) (s : watchSession) : watchSession :=
  s <| ws_opened ::= alter (fun x => x <| wt_live := false |>) k |>.

Definition closeAll (s : watchSession) : watchSession :=
  foldr (fun e s => cancel e.2 s) s (map_to_list (ws_watches s)).

Definition cancelWatch (ok : bool) (id : Z) (s : watchSession) : watchSession :=
  match ws_watches s !! id with
  | None => s
  | Some k => send ok (WatchCanceled id 0) (cancel k (s <| ws_watches ::= delete id |>))
  end.

Section Watch.
Context {S : Type} `{!Backend S}.

Local Notation Manager := (Mgr.Manager S).

Definition watch_options (scope : string) (start : Z) (replay : bool) : SubscribeOptions :=
  mkSubscribeOptions scope [EventCreated; EventTransition; EventReady] [] start replay 0 None ((0 <? start)%Z || replay).

Definition sendWatchOpenError (ok : bool) (id : Z) (scope : string) (e : error) (m : Manager) (s : watchSession) : watchSession :=
  let compacted :=
    if errors_Is e ErrCursorExpired then match Mgr.Stats scope m with Ok st => st_Cursor st | Fail _ => 0%Z end else 0%Z in
  send ok (WatchCanceled id compacted) s.

Definition createWatch (ok : bool) (id : Z) (scope filter : string) (start : Z) (replay : bool) (s : watchSession) (m : Manager)
    : watchSession * Manager :=
  if bool_decide (scope = ""%string) then (send ok (WatchCanceled id 0) s, m)
  else
    let s := match ws_watches s !! id with Some old => cancel old s | None => s end in
    match Mgr.Subscribe (watch_options scope start replay) m with
    | (m, Fail e) => (sendWatchOpenError ok id scope e m s, m)
    | (m, Ok p) =>
      let k := length (ws_opened s) in
      let s := s <| ws_watches ::= <[id := k]> |> in
      (send ok (WatchCreated id) (s <| ws_opened ::= fun l => l ++ [mkWatchState id filter p ok ok] |>), m)
    end.

Definition dispatchWatchRequest (ok : bool) (req : watchRequest) (s : watchSession) (m : Manager) : watchSession * Manager :=
  match req with
  | CreateWatch id scope filter start replay => createWatch ok id scope filter start replay s m
  | CancelWatch id => (cancelWatch ok id s, m)
  end.

(** The pump of a watch takes the next event of its subscription, or finds the
    channel closed and empty. *)
Definition pumpWatch (ok : bool) (k : nat) (s : watchSession) (m : Manager) : watchSession * Manager :=
  match ws_opened s !! k with
  | Some x =>
    if negb (wt_pumping x) then (s, m)
    else
      let sub := object (Mgr.m_hub m) (wt_sub x) in
      let stop s := s <| ws_opened ::= alter (fun x => x <| wt_pumping := false |>) k |> in
      match sub_ch sub with
      | ev :: _ =>
        let m := m <| Mgr.m_hub ::= upd_object (wt_sub x) (receive 1) |> in
        if negb (bool_decide (wt_filter x = ""%string)) && negb (bool_decide (ev_NodeID ev = wt_filter x)) then (s, m)
        else if ok then (send true (WatchDelivers (wt_id x) (watchEventToProto ev)) s, m)
        else (stop (s <| ws_watches ::= delete (wt_id x) |>), m)
      | [] =>
        if negb (sub_done sub) then (s, m)
        else match ws_watches s !! wt_id x with
             | None => (stop s, m)
             | Some _ => (send ok (WatchCanceled (wt_id x) 0) (stop (s <| ws_watches ::= delete (wt_id x) |>)), m)
             end
      end
  | None => (s, m)
  end.

(** A step of the stream: a request, a turn of a pump, the end of the
    subscription of a watch whose context was cancelled, or what happens to the
    manager outside of the stream. *)
Inductive watch_step :=
| OnRequest (ok : bool) (req : watchRequest)
| OnPump (ok : bool) (k : nat)
| OnCancelled (k : nat)
| Elsewhere (f : Manager -> Manager).

Definition run_step (st : watch_step) (sm : watchSession * Manager) : watchSession * Manager :=
  let '(s, m) := sm in
  match st with
  | OnRequest ok req => dispatchWatchRequest ok req s m
  | OnPump ok k => pumpWatch ok k s m
  | OnCancelled k =>
    match ws_opened s !! k with
    | Some x => if wt_live x then (s, m) else (s, Mgr.subscription_cancelled (wt_sub x) Canceled m)
    | None => (s, m)
    end
  | Elsewhere f => (s, f m)
  end.

Definition run_steps (l : list watch_step) (sm : watchSession * Manager) : watchSession * Manager :=
  foldl (fun sm st => run_step st sm) sm l.

Definition newSession : watchSession := mkSession ∅ [] [].

End Watch.
