(* ===== verification/AdapterProps.v ===== *)
(** * Properties of the HTTP and gRPC adapters

    What a client is handed leads back to what it stands for: lease
    identifiers, task tokens, configurations, node specifications.  A report on
    a lease reaches the manager as a report on that very lease, whose fencing
    then decides; the two adapters name every error alike. *)
From S2P Require Import Prelude Types GoText Config Scope Lease Memory Subscribe Manager Invariant ScopeFacts Machine Progress Scenario.
From S2P Require Import Grpc Http.
From Stdlib Require Import Ascii.

#[local] Existing Instance Mgr.Manager_eta.

(** ** Lease identifiers ([leaseid.go]) *)

Lemma lease_id_roundtrip node epoch :
  (0 <= epoch < 2 ^ 64)%Z -> decodeLeaseID (encodeLeaseID node epoch) = Ok (node, epoch).
Proof.
  intros He. unfold decodeLeaseID, encodeLeaseID. rewrite (base64_roundtrip _ _ letters_url).
  destruct (Uint64_Put epoch (String.list_byte_of_string node) He) as [E1 E2].
  rewrite E1, E2, String.string_of_list_byte_of_string. by rewrite length_app.
Qed.

(** No two leases share an identifier. *)
Lemma lease_id_inj node node' epoch epoch' :
  (0 <= epoch < 2 ^ 64)%Z -> (0 <= epoch' < 2 ^ 64)%Z ->
  encodeLeaseID node epoch = encodeLeaseID node' epoch' -> node = node' /\ epoch = epoch'.
Proof.
  intros H H' E. pose proof (lease_id_roundtrip node epoch H) as R. rewrite E, (lease_id_roundtrip node' epoch' H') in R.
  by simplify_eq.
Qed.

Lemma lease_id_nonempty node epoch : (0 <= epoch < 2 ^ 64)%Z -> encodeLeaseID node epoch <> ""%string.
Proof. intros H E. pose proof (lease_id_roundtrip node epoch H) as R. rewrite E in R. discriminate R. Qed.

(** ** Verbs ([routes.go]) *)

Lemma cut_last_app (s t : string) c : cut_last t c = None -> cut_last (s ++ String c t) c = Some (s, t).
Proof.
  intros Ht. induction s as [|a s IH]; simpl.
  - rewrite Ht. by rewrite bool_decide_true.
  - by rewrite IH.
Qed.

Lemma splitVerb_app (s verb : string) :
  s <> ""%string -> verb <> ""%string -> cut_last verb ":" = None -> splitVerb (s ++ ":" ++ verb) = Some (s, verb).
Proof.
  intros Hs Hv Hc. unfold splitVerb. change (s ++ ":" ++ verb)%string with (s ++ String ":" verb)%string.
  rewrite (cut_last_app s verb ":" Hc). by rewrite !bool_decide_false.
Qed.

Lemma nonempty_app (s t : string) : s <> ""%string -> (s ++ t)%string <> ""%string.
Proof. by destruct s. Qed.

Lemma route_lease (r : Request) scope tail :
  scope <> ""%string -> tail <> ""%string -> rq_Method r = POST -> rq_Path r = ["v1"; "scopes"; scope; "leases"; tail]%string ->
  route r = Found (LeaseAction scope tail).
Proof.
  intros Hs Ht Em Ep. unfold route. rewrite Em, Ep. destruct scope as [|a scope]; [done|]. destruct tail as [|b tail]; [done|].
  vm_compute. reflexivity.
Qed.

(** ** Fencing, seen from the adapter *)

Section Fencing.
Context {C : Type} `{!ClockSource C} (vh : scope -> list nat) (vi : scope -> list (string * nat)).

#[local] Instance store_backend : Backend (Store C) := memory_backend vh vi.

(** Errors that refuse a report. *)
Definition refusal (e : error) : Prop :=
  unwrap e = ErrInvalidArgument \/ unwrap e = ErrClosed \/ unwrap e = ErrNotFound \/ unwrap e = ErrLeaseMismatch.

(** Errors the adapter answers with 400, 404, 409 or 503. *)
Definition rejected (e : error) : Prop := sl_status (mapError e) ∈ [400; 404; 409; 503]%Z.

Lemma refusal_rejected e : refusal e -> rejected e.
Proof.
  unfold rejected, mapError, errors_Is. intros [->|[->|[->| ->]]]; vm_compute; set_solver.
Qed.

(** Errors of the calls and of the decoders, all of them refusals. *)
Ltac refused := eexists _, _; split; [done|]; apply refusal_rejected; unfold refusal; simpl; auto.

Lemma write_back {A : Type} (st : Store C) name s (a : A) f :
  scopes st !! name = Some s -> f (clock st) s = (clock st, s, a) -> run name f s st = (st, a).
Proof.
  intros Hs Hf. unfold run. rewrite Hf. destruct st. simpl in *. by rewrite insert_id.
Qed.

(** The lease is current: its node is claimed, under its epoch. *)
Definition current (st : Store C) (l : Lease) : Prop :=
  exists s h, scopes st !! l_Scope l = Some s /\ lookup_id s (l_NodeID l) = Some h /\
    phase (rec s h) = PhaseClaimed /\ epoch (rec s h) = l_Epoch l.

Lemma not_current st l s h :
  ~ current st l -> scopes st !! l_Scope l = Some s -> lookup_id s (l_NodeID l) = Some h -> fenced (rec s h) l = true.
Proof.
  intros Hn Hs Hh. unfold fenced. apply orb_true_iff. destruct (decide (phase (rec s h) = PhaseClaimed)) as [Hp|Hp].
  - right. apply negb_true_iff, Z.eqb_neq. intros He. apply Hn. by exists s, h.
  - left. by rewrite bool_decide_false.
Qed.

Lemma on_existing_refused {A : Type} name (f : C -> scope -> C * scope * result A) (st : Store C) :
  (forall s, scopes st !! name = Some s -> exists e, f (clock st) s = (clock st, s, Fail (Err e)) /\ refusal (Err e)) ->
  exists e, on_existing name f st = (st, Fail e) /\ refusal e.
Proof.
  intros Hf. unfold on_existing, mustScope, scopeFor. destruct (closed st); [eexists; split; [done|]; unfold refusal; simpl; auto|].
  destruct (scopes st !! name) as [s|] eqn:Hs; simpl; [|eexists; split; [done|]; unfold refusal; simpl; auto].
  destruct (Hf s eq_refl) as (e & E & He). exists (Err e). split; [|done]. exact (write_back st name s _ f Hs E).
Qed.

Lemma complete_refused req (st : Store C) :
  ~ current st (co_Lease req) -> exists e, Memory.Complete req st = (st, Fail e) /\ refusal e.
Proof.
  intros Hn. unfold Memory.Complete. destruct (negb _); [eexists; split; [done|]; unfold refusal; simpl; auto|].
  apply on_existing_refused. intros s Hs. unfold scope_Complete.
  destruct (lookup_id _ _) as [h|] eqn:Hh; [rewrite (not_current _ _ s h Hn Hs Hh)|]; eexists; split; try done; unfold refusal; simpl; auto.
Qed.

Lemma extend_refused req (st : Store C) :
  ~ current st (ex_Lease req) -> exists e, Memory.Extend req st = (st, Fail e) /\ refusal e.
Proof.
  intros Hn. unfold Memory.Extend. destruct (negb _); [eexists; split; [done|]; unfold refusal; simpl; auto|].
  apply on_existing_refused. intros s Hs. unfold scope_Extend.
  destruct (lookup_id _ _) as [h|] eqn:Hh; [rewrite (not_current _ _ s h Hn Hs Hh)|]; eexists; split; try done; unfold refusal; simpl; auto.
Qed.

Lemma published_refused dr req m :
  ~ current (Mgr.m_store m) (co_Lease req) ->
  exists a e, Mgr.completeWithResult dr req m = (m, (a, Some e)) /\ rejected e.
Proof.
  intros Hn. unfold Mgr.completeWithResult, Mgr.isClosed. destruct (Mgr.m_closed m) eqn:Ecl; [refused|].
  destruct (negb _); [refused|]. destruct (complete_refused req _ Hn) as (e & E & He).
  eexists _, e. split; [|by apply refusal_rejected]. unfold Mgr.published. simpl. rewrite E. simpl. by destruct m.
Qed.

Lemma extended_refused l d m :
  ~ current (Mgr.m_store m) l -> exists a e, Mgr.Extend l d m = (m, (a, Some e)) /\ rejected e.
Proof.
  intros Hn. unfold Mgr.Extend, Mgr.isClosed. destruct (Mgr.m_closed m) eqn:Ecl; [refused|].
  destruct (negb _); [refused|]. destruct (d <? 0)%Z; [refused|].
  destruct (extend_refused (mkExtend l d) _ Hn) as (e & E & He).
  eexists _, e. split; [|by apply refusal_rejected]. simpl. rewrite E. by destruct m.
Qed.

Context `{!DurationText} `{!Decoder createNodeRequest} `{!Decoder scopeConfigWire} `{!Decoder claimRequest}
  `{!Decoder completeRequest} `{!Decoder failRequest} `{!Decoder skipRequest} `{!Decoder renewRequest}.
Context (o : options) (w : world (S := Store C)).

(** A response that turns the request down, the manager as it was. *)
Definition turned_down (m : Mgr.Manager (Store C)) (x : Mgr.Manager (Store C) * Response) : Prop :=
  x.1 = m /\ rs_Status x.2 ∈ [400; 404; 409; 503]%Z.

Lemma problem_down (m : Mgr.Manager (Store C)) r e : rejected e -> turned_down m (m, writeProblem o r e).
Proof. intros He. by split. Qed.

(** Whatever a handler is asked to decode, it is decoded or the request is
    turned down. *)
Lemma reply_down {A : Type} (m : Mgr.Manager (Store C)) (x : result A) r k :
  (forall e, x = Fail e -> rejected e) -> (forall a, turned_down m (k a)) -> turned_down m (reply o m x r k).
Proof. intros Hx Hk. destruct x as [a|e]; [apply Hk|apply problem_down; by apply Hx]. Qed.

Lemma decode_rejected {T : Type} `{!Decoder T} (zero : T) n r e : decodeJSON zero n r = Fail e -> rejected e.
Proof. unfold decodeJSON. destruct (Decode _ _); intros; simplify_eq; apply refusal_rejected; unfold refusal; simpl; auto. Qed.

Lemma payload_rejected enc p e : decodePayload enc p = Fail e -> rejected e.
Proof. unfold decodePayload. repeat case_match; intros; simplify_eq; apply refusal_rejected; unfold refusal; simpl; auto. Qed.

Lemma calling_down {A : Type} (m : Mgr.Manager (Store C)) (x : Mgr.Manager (Store C) * (A * option error)) r k :
  (exists a e, x = (m, (a, Some e)) /\ rejected e) -> turned_down m (calling o w x r k).
Proof. intros (a & e & -> & He). by apply problem_down. Qed.

(** What a verb does with a lease. *)
Definition report (verb : string) (r : Request) (lease : Lease) (m : Mgr.Manager (Store C)) : Mgr.Manager (Store C) * Response :=
  if bool_decide (verb = "complete"%string) then handleComplete o w r lease m
  else if bool_decide (verb = "fail"%string) then handleFail o w r lease m
  else if bool_decide (verb = "skip"%string) then handleSkip o w r lease m
  else if bool_decide (verb = "renew"%string) then handleRenew o r lease m
  else (m, writeProblemStatus o r 404 "not-found").

Lemma report_refused verb r lease m : ~ current (Mgr.m_store m) lease -> turned_down m (report verb r lease m).
Proof.
  intros Hn. unfold report. repeat case_bool_decide.
  - apply reply_down; [exact (decode_rejected _ _ _)|]. intros b. apply reply_down; [exact (payload_rejected _ _)|].
    intros res. apply calling_down. by apply published_refused.
  - apply reply_down; [exact (decode_rejected _ _ _)|]. intros b. apply calling_down. by apply published_refused.
  - apply reply_down; [exact (decode_rejected _ _ _)|]. intros b. apply calling_down. by apply published_refused.
  - apply reply_down; [exact (decode_rejected _ _ _)|]. intros b.
    destruct (extended_refused lease (i64 (rw_LeaseSeconds b * Second)) m Hn) as (a & e & -> & He). by apply problem_down.
  - split; [done|]. simpl. set_solver.
Qed.

(** The authorizer, if there is one, lets the request pass. *)
Definition admitted (r : Request) : Prop := match op_authorizer o with None => True | Some a => a r = None end.

Lemma serve_lease r m scope node epoch verb :
  scope <> ""%string -> (0 <= epoch < 2 ^ 64)%Z -> verb <> ""%string -> cut_last verb ":" = None -> rq_Method r = POST ->
  rq_Path r = ["v1"; "scopes"; scope; "leases"; encodeLeaseID node epoch ++ ":" ++ verb]%string -> admitted r ->
  serve o w r m = answered (report verb r (mkLease scope node epoch TimeZero None []) m).
Proof.
  intros Hs He Hv Hc Em Ep Ha. unfold serve, authMiddleware. unfold admitted in Ha.
  assert (Hmux : mux o w r m = answered (report verb r (mkLease scope node epoch TimeZero None []) m)).
  { unfold mux. rewrite (route_lease r _ _ Hs (nonempty_app _ _ (lease_id_nonempty node epoch He)) Em Ep).
    cbn [dispatch]. unfold handleLeaseAction. rewrite splitVerb_app by auto using lease_id_nonempty.
    rewrite (lease_id_roundtrip node epoch He). done. }
  destruct (op_authorizer o) as [a|]; [by rewrite Ha|done].
Qed.

(** What a report is held against is the scope, the node and the epoch. *)
Definition bare (l : Lease) : Lease := mkLease (l_Scope l) (l_NodeID l) (l_Epoch l) TimeZero None [].

Lemma complete_bare l ok reason msg res dr m :
  Mgr.completeWithResult dr (mkComplete (bare l) ok reason msg res) m = Mgr.completeWithResult dr (mkComplete l ok reason msg res) m.
Proof. reflexivity. Qed.

Lemma renew_bare r l m : handleRenew o r (bare l) m = handleRenew o r l m.
Proof.
  unfold handleRenew, reply. destruct (decodeJSON _ _ _) as [b|]; [|done]. unfold Mgr.Extend.
  destruct (Mgr.isClosed m); [done|]. change (Lease_Valid (bare l)) with (Lease_Valid l).
  destruct (negb (Lease_Valid l)); [done|]. destruct (_ <? 0)%Z; [done|]. simpl.
  set (d := i64 _). change (Memory.Extend (mkExtend (bare l) d)) with (Memory.Extend (mkExtend l d)).
  by destruct (Memory.Extend _ _) as [? []].
Qed.

Lemma report_bare verb r l m : report verb r (bare l) m = report verb r l m.
Proof. unfold report. rewrite renew_bare. reflexivity. Qed.

(** C40: what a claim answers as the identifier of a lease leads back to the
    lease.  A POST on it, with one of the four verbs, in the scope of the
    lease, does to the manager and answers what the handler of that verb does
    with the lease itself (so the deadline, the node and the token the
    identifier leaves out do not matter to the in-memory store).  If the lease is
    not current (its node is not claimed under its epoch: it was reported,
    claimed again, removed, or its scope is not there), the manager is left as
    it was and the client gets 400, 404, 409 or 503, whatever the body is.  Two leases on one
    scope have the same identifier only if they are on the same node and of the
    same epoch.  The scope has a name, the epoch is a [uint64] and the
    authorizer, if there is one, lets the request pass. *)
Theorem http_lease_token (r : Request) (m : Mgr.Manager (Store C)) (l : Lease) (verb : string) :
  l_Scope l <> ""%string -> (0 <= l_Epoch l < 2 ^ 64)%Z -> verb ∈ ["complete"; "fail"; "skip"; "renew"]%string ->
  rq_Method r = POST ->
  rq_Path r = ["v1"; "scopes"; l_Scope l; "leases"; lw_LeaseID (leaseToWire l) ++ ":" ++ verb]%string ->
  admitted r ->
  (verb = "complete"%string -> serve o w r m = answered (handleComplete o w r l m)) /\
  (verb = "fail"%string -> serve o w r m = answered (handleFail o w r l m)) /\
  (verb = "skip"%string -> serve o w r m = answered (handleSkip o w r l m)) /\
  (verb = "renew"%string -> serve o w r m = answered (handleRenew o r l m)) /\
  (~ current (Mgr.m_store m) l ->
     exists resp, serve o w r m = (m, Some resp) /\ rs_Status resp ∈ [400; 404; 409; 503]%Z) /\
  (forall l', (0 <= l_Epoch l' < 2 ^ 64)%Z -> lw_LeaseID (leaseToWire l') = lw_LeaseID (leaseToWire l) ->
     l_NodeID l' = l_NodeID l /\ l_Epoch l' = l_Epoch l).
Proof.
  intros Hs He Hv Em Ep Ha.
  assert (E : serve o w r m = answered (report verb r l m)).
  { rewrite <- report_bare. apply serve_lease; try done; set_unfold in Hv; by destruct Hv as [->|[->|[->|[->|[]]]]]. }
  do 4 (split; [intros ->; exact E|]). split; [|intros l' He' Ei; by apply lease_id_inj].
  intros Hn. destruct (report_refused verb r l m Hn) as [E1 E2]. exists (report verb r l m).2.
  rewrite E. unfold answered. by rewrite E1.
Qed.

End Fencing.

(** ** What an authorizer sees *)

(** [RequestScope] cuts the scope at the last colon, also where the path has no
    verb, and at a slash that was escaped: a policy by scope decides on another
    scope than the handler acts on. *)
Example request_scope_colon :
  let r := mkRequest GET ["v1"; "scopes"; "team:secret"; "nodes"]%string ∅ ∅ [] in
  RequestScope r = "team"%string /\ route r = Found (ListNodes "team:secret").
Proof. vm_compute. done. Qed.

Example request_scope_slash :
  let r := mkRequest GET ["v1"; "scopes"; "team/secret"; "nodes"]%string ∅ ∅ [] in
  RequestScope r = "team"%string /\ route r = Found (ListNodes "team/secret").
Proof. vm_compute. done. Qed.

(** ** The two adapters side by side *)

(** They name an error alike, but for a nil store, which only gRPC knows. *)
Lemma adapters_agree (e : error) :
  unwrap e <> ErrNilStore -> st_Reason (Grpc.mapError (LibraryError e)) = Some (sl_slug (mapError e)).
Proof.
  unfold mapError, Grpc.mapError, errors_Is. generalize (unwrap e) as k. intros k Hk. destruct k; try done; vm_compute; reflexivity.
Qed.

(** A task token leads back to the scope, the node and the epoch of the lease. *)
Lemma task_token_roundtrip `{!TokenCodec} (l : Lease) :
  l_Scope l <> ""%string -> l_NodeID l <> ""%string -> (0 < l_Epoch l < 2 ^ 64)%Z ->
  ValidString (l_Scope l) = true -> ValidString (l_NodeID l) = true ->
  exists b, encodeTaskToken l = Some b /\ decodeTaskToken b = inl (bare l).
Proof.
  intros Hs Hn He Vs Vn. destruct (token_roundtrip (mkTaskToken (l_Scope l) (l_NodeID l) (l_Epoch l)) Vs Vn ltac:(simpl; lia)) as (b & E1 & E2).
  exists b. split; [exact E1|]. unfold decodeTaskToken. rewrite E2. simpl. rewrite !bool_decide_false by done.
  by rewrite (proj2 (Z.eqb_neq _ _)) by lia.
Qed.

(** ** An example *)

(** Durations written as the base64 of their bits. *)
#[local] Program Instance bits_text : DurationText := {|
  ParseDuration s := match s with
                     | String _ s => (fun b => Uint64 b - 2 ^ 63)%Z <$> DecodeString StdEncoding s
                     | EmptyString => None
                     end;
  Duration_String d := String "d" (EncodeToString StdEncoding (PutUint64 (d + 2 ^ 63)))
|}.
Next Obligation.
  intros d Hd. simpl. rewrite (base64_roundtrip _ _ letters_std). simpl.
  destruct (Uint64_Put (d + 2 ^ 63) [] ltac:(lia)) as [E _]. f_equal.
  change (PutUint64 (d + 2 ^ 63)) with (take 8 (PutUint64 (d + 2 ^ 63) ++ [])). rewrite E. lia.
Qed.
Next Obligation. done. Qed.

#[local] Instance demo_backend : Backend (Store ticker) := memory_backend by_handle by_index.

(** Bodies without content. *)
#[local] Instance no_body (T : Type) : Decoder T := fun _ _ => EOF.

Definition plain_options : options := mkOptions None 0 0 0 0 0 0 1024 "urn:".
Definition calm : world (S := Store ticker) := mkWorld (fun _ _ => (0, 0)) (fun m => m) [] [].

(** [a] has been completed, removed and created again; its first lease is
    reported once more. *)
Definition recreated : Mgr.Manager (Store ticker) :=
  Mgr.mkManager (mkStore {[ "jobs"%string := again ]} (clock_after again_ops) zeroConfig 4 false) defaultConfig 0 emptyHub false.

Definition late_report : Request :=
  mkRequest POST ["v1"; "scopes"; "jobs"; "leases"; "AAAAAAAAAAFh:complete"]%string ∅ ∅ [].

Lemma http_lease_token_witness :
  lw_LeaseID (leaseToWire lease_a) = "AAAAAAAAAAFh"%string /\
  exists resp, serve plain_options calm late_report recreated = (recreated, Some resp) /\ rs_Status resp ∈ [400; 404; 409; 503]%Z.
Proof.
  split; [vm_compute; reflexivity|].
  destruct (http_lease_token by_handle by_index plain_options calm late_report recreated lease_a "complete") as (_ & _ & _ & _ & H & _);
    [vm_compute; discriminate|vm_compute; split; congruence|set_solver|reflexivity|vm_compute; reflexivity|exact I|].
  apply H. intros (s & h & Hs & Hh & Hp & _).
  assert (E : scopes (Mgr.m_store recreated) !! l_Scope lease_a = Some again) by (vm_compute; reflexivity).
  rewrite E in Hs. apply Some_inj in Hs. subst s.
  assert (E' : lookup_id again (l_NodeID lease_a) = Some 0) by (vm_compute; reflexivity).
  rewrite E' in Hh. apply Some_inj in Hh. subst h. vm_compute in Hp. discriminate Hp.
Defined.
